(* ===== verification/_CoqProject ===== *)
-Q . S2P
Prelude.v
Strings.v
Bytes.v
Status.v
Object.v
ObjectFacts.v
Exec.v
ExecFacts.v
Memory.v
MemoryFacts.v
MemoryAccess.v
MemoryTheorems.v
Mdl.v
MdlFacts.v
Interrupt.v
InterruptFacts.v
Executive.v
ExecutiveFacts.v
Security.v
SecurityFacts.v
Process.v
ProcessFacts.v
Threads.v
ThreadsFacts.v
Pnp.v
PnpFacts.v
Config.v
ConfigFacts.v
ConfigTheorems.v
Alpc.v
AlpcFacts.v
Irp.v
IrpFacts.v
IoPort.v
IoPortFacts.v
Io.v
IoFacts.v
IoTheorems.v
Diagnostics.v
DiagnosticsFacts.v
Win32Types.v
Introspect.v
IntrospectFacts.v
IntrospectTheorems.v
Flags.v
FlagsFacts.v
CpuState.v
CpuStateFacts.v
Pages.v
VirtualMemory.v
VirtualMemoryFacts.v
VirtualMemoryTheorems.v
GuestPage.v
GuestPageFacts.v
GuestMemory.v
GuestMemoryFacts.v
GuestAccessFacts.v
GuestValueFacts.v
GuestMemoryTheorems.v
AudioRing.v
AudioRingFacts.v
AudioRingTheorems.v
AudioRingShared.v
HandleTable.v
KernelObjects.v
Win32.v
Win32Wait.v
HandleTableFacts.v
KernelObjectsFacts.v
Win32Facts.v
Win32CallFacts.v
Win32CloseFacts.v
Win32Theorems.v
Win32WaitTheorems.v
Win32SyncTheorems.v
Iocp.v
IocpFacts.v
IocpTheorems.v
WakeSignals.v
WakeSignalsTheorems.v
