(* ===== verification/Prelude.v ===== *)
(** * Casa1: a verification library for its kernel executive, its processor and its handles

    Casa1 runs Windows programs and drivers on a foreign host.  Its kernel
    personality, CasaK, is the directory [src/casak/]: a set of managers, each the
    owner of its own tables, that stand in for the Windows executive.  Its guest
    processor is the directory [src/cpu/].  Win32 programs reach kernel objects through
    handles, which [src/runtime/] and [src/win32.rs] keep.  This library is a shallow
    embedding in Rocq of the managers, of the processor's state, flags and memory and
    of the Win32 objects, read off the Rust source, with the theorems that make each
    of them correct.

    ** The program and the library

    Each manager is a Rust struct whose methods take [&mut self] and return
    [Result<T, NTSTATUS>].  Here it is a [Record] of the same fields, and each
    method is a definition of the same name in the state monad [M] of this file:
    an early [return Err(..)] keeps what was mutated before it, a failed [expect],
    an index out of range or an arithmetic overflow of the checked build is [Panic].
    A component is two files: [X.v] holds the data and the operations, [XFacts.v] the
    invariant, the lemmas and the theorems.

    - [Prelude.v]: machine integers, the monad and its weakest preconditions,
      vectors, the key order of [BTreeMap] and [BTreeSet], sums over maps, tactics.
    - [Strings.v]: strings as lists of scalar values, their case and their parts.
    - [Bytes.v]: little-endian integers, buffers written field by field, and the
      lemmas that read a field back.
    - [Status.v]: the constants of [status.rs].
    - [Object.v] ([object.rs]): typed objects with reference counts, per-process
      handle tables, access masks, the [\BaseNamedObjects] namespace, events and
      mutants.  [ObjectFacts.v]: reference counts are exact, each object is finalized
      once, handles never dangle and duplicates never gain rights, process rundown,
      naming round trip, recursive mutants.
    - [Exec.v] ([exec.rs]): modules [TaggedPool], [LookasideList] and [DpcQueue].
      [ExecFacts.v]: exact accounting, validated frees, bounded and epoch-checked
      reuse, FIFO and exactly-once execution.
    - [Memory.v] ([memory.rs], [MemoryManager]): reservations, commitment,
      protection, sections with shared and copy-on-write views, residency, byte
      access.  [MemoryFacts.v] is the address-space invariant; [MemoryAccess.v]
      relates byte access to the abstract memory [mem_byte], a partial map from
      addresses to bytes; [MemoryTheorems.v] has the step relation and the theorems:
      well-formedness, absence of panics, reads and writes refine the abstract
      memory, isolation of private pages, write-through of shared ones, round trips.
    - [Mdl.v] and [MdlFacts.v] ([memory.rs], [MdlTable]): memory descriptor lists,
      a client of the memory manager's access checks: exact lock accounting and the
      lock protocol.
    - [Interrupt.v] and [InterruptFacts.v] ([interrupt.rs]): the connection tables
      agree, vectors are shared by the rules, a deferred disconnect completes.
    - [Executive.v] and [ExecutiveFacts.v] ([executive.rs]): the logical clock,
      timers, APCs, the DPC queue of [Exec], dispatcher objects; what [advance]
      fires, what deliveries run and what waits consume.
    - [Security.v] and [SecurityFacts.v] ([security.rs]): the access check decides a
      declarative contract stated right by right; the order of a DACL is irrelevant
      and a denial always wins; a deleted token fails closed.
    - [Process.v] and [ProcessFacts.v] ([process.rs]): processes, threads and their
      handles against any scheduler, which is the class [ThreadScheduler]; the
      genealogy, membership and handle tables stay consistent, termination stops
      every thread, duplicated handles never gain rights.
    - [Threads.v] and [ThreadsFacts.v] ([threads.rs]): the scheduler of system threads;
      the ready queues hold exactly the ready threads, creation is atomic, every
      thread gets its turn, and it is an instance of [ThreadScheduler].
    - [Pnp.v] and [PnpFacts.v] ([pnp.rs]): the device forest and the start, stop, power
      and remove requests, which refine a lifecycle automaton.
    - [Config.v], [ConfigFacts.v] and [ConfigTheorems.v] ([config.rs]): keys, links,
      values, subscriptions, snapshots and volatile keys; the keys form a tree,
      [resolve] refines a walk along components, each change notifies the
      subscriptions it concerns once, a rollback restores the snapshot.
    - [Alpc.v] and [AlpcFacts.v] ([alpc.rs]): ports shared by threads; over every
      interleaving messages are received once, requests answered once and no wakeup
      is lost.
    - [Irp.v] and [IrpFacts.v] ([io.rs], parameter blocks and [IrpCore]): the pending
      queues are exact, an IRP completes once, the completion walk, cancellation.
    - [IoPort.v] and [IoPortFacts.v] ([io.rs], [CompletionPort]): packets leave in the
      order they were posted, each once, and waking a single thread per packet is
      enough.
    - [Io.v], [IoFacts.v] and [IoTheorems.v] ([io.rs], [IoManager]): drivers, devices,
      stacks and bindings over the object manager, the IRPs and the ports.  [IoFacts]
      represents the links as disjoint lists, on which attaching, detaching and
      deleting are list operations; [IoTheorems] has the invariant of the whole
      manager and what follows for walks, driver chains, allocation, deletion and the
      closing of ports.

    - [Diagnostics.v] and [DiagnosticsFacts.v] ([diagnostics.rs]): event providers and
      the filter that decides a delivery; WMI classes, subscriptions and polling,
      which deliver each instance to each subscriber once.
    - [Introspect.v], [IntrospectFacts.v] and [IntrospectTheorems.v]
      ([introspection.rs]): the snapshot of the kernel and its serialization into the
      guest's structures.  The tables read back what was written, the dispatcher's
      contract holds for every information class, and the list of processes is
      described exactly, with the condition under which its chain holds together.
    - [Flags.v] and [FlagsFacts.v] ([cpu/flags.rs]): the arithmetic flags against
      their arithmetic meaning, condition codes, bit scatter and gather.
    - [CpuState.v] and [CpuStateFacts.v] ([cpu/state.rs]): the register files with
      their aliases, EFLAGS, and the lazy flags, which refine eager ones.
    - [Pages.v]: page arithmetic of the guest's address space, shared by what follows.
    - [VirtualMemory.v], [VirtualMemoryFacts.v] and [VirtualMemoryTheorems.v]
      ([vm.rs]): reserved and committed regions with a state per page; what each call
      does to the pages, the access check and the query decided by the page states.
    - [GuestPage.v] and [GuestPageFacts.v]: a page of the guest memory and its bitmap;
      [GuestMemory.v] ([cpu/memory.rs]): the sparse page store, its directory, mapping,
      checked accesses, integers, vectors, interlocked operations, operand addresses.
      [GuestMemoryFacts.v] has the invariant of the image and relates mapping to
      [mem_byte], a partial map from addresses to bytes; [GuestAccessFacts.v] does
      unmapping and the checked accesses, against any virtual memory that decides page
      by page, which is the class [PagewiseVm]; [GuestValueFacts.v] integers, vectors
      and interlocked words; [GuestMemoryTheorems.v] states the theorems.
    - [AudioRing.v] ([audio_ring_buffer.rs]): the ring of samples between the decoder
      and the audio callback, and its double buffer.  [AudioRingFacts.v] and
      [AudioRingTheorems.v]: the ring refines a bounded queue that drops its oldest
      samples, and for which sizes; [AudioRingShared.v]: over every interleaving of a
      producer and a consumer thread that respects the capacity the samples come out
      once and in order, and what an overflow does to that.
    - [Win32Types.v]: the object types, access rights and reason codes of the Win32
      layer.  [HandleTable.v] and [HandleTableFacts.v] ([runtime/handle_table.rs]):
      handle values and their generations; what is minted, and that a value kept with
      its generation is told from the next handle of that value.
    - [KernelObjects.v] and [KernelObjectsFacts.v] ([runtime/object_manager.rs]):
      headers, names, handle counts, signals and what a wait consumes.
    - [Win32.v] and [Win32Wait.v] ([win32.rs]): the subsystem over both: handles,
      threads, procedure calls, events, mutexes, semaphores, timers, and the waits.
      What closing calls in the rest of [win32.rs] is the class [Win32Rest], whose laws
      ([Win32RestLaws]) say that it returns and leaves the handles and the kinds, names
      and counts of the objects alone: the end of a pipe changes its peers and the
      events that wait for it ([peers_told]).
      [Win32Facts.v] has the invariant that joins the table to the manager, and the
      judgement [grows]: a call keeps it while the number of references grows by at
      most so much; [Win32CallFacts.v] and [Win32CloseFacts.v] derive it for every
      call.  [Win32Theorems.v]: any sequence of calls returns, names and counts are
      exact, closing.  [Win32WaitTheorems.v]: waiting for all is atomic.
      [Win32SyncTheorems.v]: mutexes refine a recursive lock, one that its creator
      holds uncounted, and a wait ends with its timeout unless procedure calls end it
      at once; its module [Wd] has short runs that depart from the
      documentation.
    - [Iocp.v] ([win32.rs], [CompletionPortWaitState]): completion ports with a limit
      on the threads that run at a time.  [IocpFacts.v] has the events that threads of
      the host may cause and the invariant over all their interleavings;
      [IocpTheorems.v]: packets leave in order and once, and the wakeups suffice.
    - [WakeSignals.v] and [WakeSignalsTheorems.v] ([runtime/scheduler.rs]): the wake of
      the pump, park signals and the bus that feeds them.  Both signals are instances
      of the class [WakeSource], against which it is proved once that no wake is lost.

    Invariants are proved by induction over a step relation that has one rule per
    operation, successful or not, so they hold after every sequence of calls.  Where
    the source shares state between threads behind a mutex ([Alpc], [Irp], [IoPort], [Iocp]),
    each section of the mutex is one step, so is each turn of a waiting loop, and the
    notifications a section owes run later, in any order: the theorems hold for every
    interleaving.  In the audio ring, which takes no mutex, each atomic operation and
    each access to a cell is a step.

    ** Representation

    Integers are [Z], with the width written where the source adds, saturates or
    complements.  [usize] is 64 bits.  A [BTreeMap] or [HashMap] is a [gmap]; where
    the source iterates a [BTreeMap] or [BTreeSet] the model iterates the sorted list
    ([bt_entries], [bt_elems]).  Strings are lists of Unicode scalar values; the case
    tables of [str::to_lowercase] are the parameter [UnicodeLower].  Callbacks are
    opaque identities, and running one appends it to a log.

    ** Bounds

    Loops over a finite list are structural.  The loops that are not carry fuel, and
    a theorem shows that it suffices: the search for a free region
    ([find_free_loop]) takes one unit more than the number of regions, since each
    turn passes one of them; the page loops of [read] and [write] take one unit more
    than the number of pages the range touches ([access_fuel]); [evict_loop] and
    [execute_loop] recurse over the queue they drain; the walks over device links take
    one unit more than there are devices ([device_fuel]), since a stack or a chain
    names a device once; the loops over the pages of a guest range take one turn per
    page ([page_fuel], [region_fuel], [for_chunks], [unmap_range]).  [memory_operations_return], [registry_operations_return] and
    [link_walks_return] state that the fuel is never exhausted.  The recursion of
    [resolve] in the registry is bounded by the host's stack only, whose depth is the
    parameter [StackDepth]; deadlines are bounded by [instant_max], the largest
    instant of the host's clock.  The loop of [wait_for_multiple_objects] runs for
    ever when it waits for ever: its fuel is a number of turns, and
    [waits_end_at_timeout] shows that one more than the timeout has milliseconds is
    enough, whatever the timeout.  A name has at most as many prefixes to strip as
    characters ([canonical_loop]).  The theorems about sequences of Win32 calls hold
    for 2^30 - 2 calls ([call_limit]), before which no counter of 32 bits and no handle
    value can run out; a call counts once, and a wait for all of several handles once
    for each of them, however many turns it takes ([cost], [grows_if]: a turn that is
    granted nothing costs nothing).

    ** What the modelling showed

    [unmap_undercounts_commit], [wait_all_deviations], [handle_counter_saturates],
    [ensure_process_any_identifier], [detached_thread_resurrected],
    [registry_deviations], [process_chain_exact], [sbb_flags_deviation],
    [spilled_page_ignored], [reserve_deviations], [first_byte_checked_only],
    [interlocked_exact], [ring_faithful_iff], [overflow_races],
    [double_buffer_deviations], [minted_values_exact], [stale_pairs_rejected], the
    lemmas of module [Wd] and the error case of [terminate_process_stops] prove
    behaviour that departs from what the code or its documentation promises.  The I/O
    manager never forgets a device: an entry stays in its table after the object is
    gone.

    ** Not modelled

    Of [src/casak/] only [mod.rs] is left, which declares the modules.  A poisoned
    mutex is not modelled, since a panic ends a run here.  A store through a raw pointer
    past the end of its frame, whose effect is undefined, is a panic too.  Of [src/cpu/] the decoder,
    the lifter, the interpreter and the vector operations are not modelled yet.  Of
    [win32.rs] the files, pipes, heaps, sections, the registry and the
    clock are left out: the state they keep is a parameter of the model.  The observers
    of events, which look at the state and change nothing of it, are left out too; the
    scheduler's wake-ups are recorded; a lock around a payload is its payload.  Of the scheduler the pump, the worker pool and the slices are left out.  The
    JIT generates and runs machine code, the API dispatch tables marshal to host
    services, and the graphics, audio, network and driver-island code is bound to the
    host: none of it is modelled.
    [Debug] and [Display] implementations and the test-only entry points are left
    out throughout. *)

From stdpp Require Export base tactics list gmap sorting numbers option relations.
From Stdlib Require Export ZArith Lia Zbitwise.
From Stdlib Require String Ascii.
Export String.StringSyntax.

#[export] Set Default Goal Selector "!".
#[export] Set Warnings "-clear-no-such-hyp".
Global Open Scope Z_scope.

Declare Scope casak_scope.
Delimit Scope casak_scope with casak.
Global Open Scope casak_scope.

(** ** Machine integers

    [u8], [u32], [u64] and [usize] are [Z] with their range written out; every
    host Casa1 supports is a 64-bit one, so [usize] has the width of [u64]. *)

Definition u8_max : Z := 255.
Definition u32_max : Z := 4294967295.
Definition u64_max : Z := 18446744073709551615.
Definition usize_max : Z := u64_max.
(** The largest allocation Rust's [Vec] accepts; a larger request panics. *)
Definition isize_max : Z := 9223372036854775807.

Definition u32 (x : Z) : Prop := 0 ≤ x ≤ u32_max.
Definition u64 (x : Z) : Prop := 0 ≤ x ≤ u64_max.

(** [x as i32] of an unsigned 32-bit [x]. *)
Definition as_i32 (x : Z) : Z := if x <? 2147483648 then x else x - 4294967296.

(** [x.checked_add(y)], [x.saturating_add(y)], [x.saturating_sub(y)] at the width
    whose largest value is [max]. *)
Definition checked_add (max x y : Z) : option Z :=
  if x + y <=? max then Some (x + y) else None.
Definition checked_mul (max x y : Z) : option Z :=
  if x * y <=? max then Some (x * y) else None.
Definition saturating_add (max x y : Z) : Z := Z.min max (x + y).
Definition saturating_sub (x y : Z) : Z := Z.max 0 (x - y).

(** [!x] of an unsigned 32-bit and 64-bit [x]. *)
Definition not_u32 (x : Z) : Z := Z.lxor x u32_max.
Definition not_u64 (x : Z) : Z := Z.lxor x u64_max.

(** Masks: a value fits [n] bits when it is its own residue. *)
Lemma bits_bounded n a : 0 ≤ n → (∀ i, n ≤ i → Z.testbit a i = false) → 0 ≤ a < 2 ^ n.
Proof.
  intros Hn Hi. assert (a = a mod 2 ^ n) as ->.
  { apply Z.bits_inj'. intros i Hpos. destruct (decide (i < n)).
    - by rewrite Z.mod_pow2_bits_low.
    - rewrite Z.mod_pow2_bits_high by lia. apply Hi. lia. }
  apply Z.mod_pos_bound. lia.
Qed.

Lemma testbit_bounded n a i : 0 ≤ a < 2 ^ n → 0 ≤ n ≤ i → Z.testbit a i = false.
Proof. intros Ha Hn. rewrite <-(Z.mod_small a (2 ^ n)) by done. apply Z.mod_pow2_bits_high. lia. Qed.

Lemma land_bounded n a m : 0 ≤ n → 0 ≤ m < 2 ^ n → 0 ≤ Z.land a m < 2 ^ n.
Proof.
  intros Hn Hm. apply bits_bounded; [done|]. intros i Hi.
  rewrite Z.land_spec, (testbit_bounded n m i) by lia. by rewrite andb_false_r.
Qed.

Lemma lor_bounded n a b : 0 ≤ n → 0 ≤ a < 2 ^ n → 0 ≤ b < 2 ^ n → 0 ≤ Z.lor a b < 2 ^ n.
Proof.
  intros Hn Ha Hb. apply bits_bounded; [done|]. intros i Hi.
  by rewrite Z.lor_spec, (testbit_bounded n a i), (testbit_bounded n b i) by lia.
Qed.

(** [sub & !sup == 0]: every bit of [sub] is a bit of [sup]. *)
Definition bits_within (sub sup : Z) : Prop := Z.land sub sup = sub.

#[export] Instance bits_within_dec sub sup : Decision (bits_within sub sup).
Proof. unfold bits_within. apply _. Defined.

Lemma bits_within_testbit sub sup :
  bits_within sub sup ↔ ∀ i, 0 ≤ i → Z.testbit sub i = true → Z.testbit sup i = true.
Proof.
  unfold bits_within. split.
  - intros E i _ Hi. rewrite <-E, Z.land_spec in Hi. by apply andb_true_iff in Hi as [_ ?].
  - intros Hi. apply Z.bits_inj'. intros i Hpos. rewrite Z.land_spec.
    destruct (Z.testbit sub i) eqn:E; [|done]. by rewrite Hi.
Qed.

Lemma testbit_not_u32 x i : 0 ≤ i < 32 → Z.testbit (not_u32 x) i = negb (Z.testbit x i).
Proof.
  intros Hi. unfold not_u32, u32_max. rewrite Z.lxor_spec.
  change 4294967295 with (Z.ones 32). rewrite Z.ones_spec_low by lia. apply xorb_true_r.
Qed.

Lemma land_zero_spec a b :
  Z.land a b = 0 ↔ ∀ i, 0 ≤ i → Z.testbit a i = true → Z.testbit b i = false.
Proof.
  split.
  - intros E i Hi Ha. assert (Z.testbit (Z.land a b) i = false) as Hb by (rewrite E; apply Z.testbit_0_l).
    rewrite Z.land_spec, Ha in Hb. done.
  - intros H. apply Z.bits_inj'. intros i Hi. rewrite Z.land_spec, Z.testbit_0_l.
    destruct (Z.testbit a i) eqn:E; [|done]. by rewrite H.
Qed.

Lemma testbit_u32 x i : u32 x → 0 ≤ i → Z.testbit x i = true → 0 ≤ i < 32.
Proof.
  intros Hx Hi Hb. split; [done|]. apply Z.nle_gt. intros Hge.
  rewrite (testbit_bounded 32 x i) in Hb; [done| |lia]. unfold u32, u32_max in Hx. lia.
Qed.

(** [sub & !sup == 0], the test the source writes. *)
Lemma land_not_u32_spec sub sup :
  u32 sub → Z.land sub (not_u32 sup) = 0 ↔ bits_within sub sup.
Proof.
  intros Hs. rewrite land_zero_spec, bits_within_testbit.
  split; intros H i Hi Hb; specialize (H i Hi Hb);
    rewrite testbit_not_u32, ?negb_false_iff in * by (by eapply testbit_u32); done.
Qed.

Lemma bits_within_trans a b c : bits_within a b → bits_within b c → bits_within a c.
Proof. rewrite !bits_within_testbit. eauto. Qed.

(** The same test, written differently. *)
Lemma decide_if_ext {A} (P Q : Prop) `{Decision P, Decision Q} (x y : A) :
  (P ↔ Q) → (if decide P then x else y) = (if decide Q then x else y).
Proof. intros ?. repeat case_decide; naive_solver. Qed.

(** ** Results, outcomes and the state monad of the model

    An operation of a component takes the component's state and either returns
    [Result<A, NTSTATUS>] together with the state it left behind (an early
    [return Err(..)] or [?] keeps every mutation made before it), or panics: a
    failed [expect], an index out of range, or an arithmetic overflow, which the
    checked build profile reports.  A run that does not panic is the same run
    under the wrapping (release) profile. *)

Inductive result (A : Type) : Type :=
| Ok (a : A)
| Err (status : Z).
Arguments Ok {A} a.
Arguments Err {A} status.

Inductive outcome (S A : Type) : Type :=
| Done (r : result A) (s : S)
| Panic.
Arguments Done {S A} r s.
Arguments Panic {S A}.

Definition M (S A : Type) : Type := S → outcome S A.

Section monad.
Context {S A B : Type}.

Definition ret (a : A) : M S A := λ s, Done (Ok a) s.
Definition throw (e : Z) : M S A := λ s, Done (Err e) s.
Definition panic : M S A := λ _, Panic.
Definition bind (c : M S A) (k : A → M S B) : M S B := λ s,
  match c s with
  | Done (Ok a) s' => k a s'
  | Done (Err e) s' => Done (Err e) s'
  | Panic => Panic
  end.
Definition gets (f : S → A) : M S A := λ s, Done (Ok (f s)) s.
Definition modify (f : S → S) : M S unit := λ s, Done (Ok tt) (f s).

(** A query [fn(&self) -> Result<A>] inside an operation. *)
Definition query (f : S → result A) : M S A := λ s, Done (f s) s.

(** [if b { return Err(e) }] *)
Definition fail_if (b : bool) (e : Z) : M S unit :=
  λ s, if b then Done (Err e) s else Done (Ok tt) s.
(** [o.ok_or(e)?] *)
Definition ok_or (o : option A) (e : Z) : M S A :=
  λ s, match o with Some a => Done (Ok a) s | None => Done (Err e) s end.
(** [o.expect(..)] *)
Definition expect (o : option A) : M S A :=
  λ s, match o with Some a => Done (Ok a) s | None => Panic end.
(** [x + y] at the width whose largest value is [max] (checked profile). *)
Definition add_at (max x y : Z) : M S Z :=
  λ s, if x + y <=? max then Done (Ok (x + y)) s else Panic.
End monad.

Arguments ret {S A} a s /.
Arguments throw {S A} e s /.
Arguments panic {S A} s /.
Arguments bind {S A B} c k s /.
Arguments gets {S A} f s /.
Arguments modify {S} f s /.
Arguments query {S A} f s /.
Arguments fail_if {S} b e s /.
Arguments ok_or {S A} o e s /.
Arguments expect {S A} o s /.
Arguments add_at {S} max x y s /.

Notation "x <- c ;; k" := (bind c (λ x, k))
  (at level 100, c at next level, right associativity) : casak_scope.
Notation "' pat <- c ;; k" := (bind c (λ x, match x with pat => k end))
  (at level 20, pat pattern, c at level 99, k at level 200) : casak_scope.
Notation "c ;;; k" := (bind c (λ _, k))
  (at level 100, right associativity) : casak_scope.

(** [for a in l { f(a)?; }] *)
Fixpoint for_each {S A} (l : list A) (f : A → M S unit) : M S unit :=
  match l with
  | [] => ret tt
  | a :: l => f a ;;; for_each l f
  end.

(** [for a in l { acc.push(f(a)?); }] *)
Fixpoint map_each {S A B} (l : list A) (f : A → M S B) : M S (list B) :=
  match l with
  | [] => ret []
  | a :: l => b <- f a ;; bs <- map_each l f ;; ret (b :: bs)
  end.

(** [c] run [n] times. *)
Fixpoint times {S A} (n : nat) (c : M S A) : M S unit :=
  match n with
  | O => ret tt
  | Datatypes.S n => c ;;; times n c
  end.

(** [vec![0; n]] and [Vec::with_capacity(n)] panic beyond [isize::MAX] bytes. *)
Definition capacity {S} (n : Z) : M S unit := λ s, if n <=? isize_max then Done (Ok tt) s else Panic.
Arguments capacity {S} n s /.

(** Runs an operation of a component embedded in a larger state. *)
Definition zoom {S T A} (get : T → S) (set : S → T → T) (c : M S A) : M T A := λ t,
  match c (get t) with
  | Done r s => Done r (set s t)
  | Panic => Panic
  end.
Arguments zoom {S T A} get set c t /.

(** [wp c s Q]: from [s], [c] does not panic and [Q] holds of its result and of
    the state it leaves. *)
Definition wp {S A} (c : M S A) (s : S) (Q : result A → S → Prop) : Prop :=
  match c s with
  | Done r s' => Q r s'
  | Panic => False
  end.

(** The state and the result of a run, for concrete runs. *)
Definition state_of {S A} (o : outcome S A) (s : S) : S :=
  match o with Done _ s' => s' | Panic => s end.
Definition result_of {S A} (o : outcome S A) : option (result A) :=
  match o with Done r _ => Some r | Panic => None end.

Lemma run_eq {S A} (c : M S A) s r : result_of (c s) = Some r → c s = Done r (state_of (c s) s).
Proof. destruct (c s); simpl; [by intros [= ->]|done]. Qed.

(** ** Strings

    A Rust [String] is the list of its Unicode scalar values. *)

Abbreviation str := (list Z) (only parsing).

(** An ASCII literal of the source. *)
Definition lit (s : String.string) : str :=
  map (λ a, Z.of_N (Ascii.N_of_ascii a)) (String.list_ascii_of_string s).
Delimit Scope string_scope with string.
Arguments lit s%_string.

(** [char::is_whitespace]: the Unicode [White_Space] property. *)
Definition is_whitespace (c : Z) : bool :=
  ((9 <=? c) && (c <=? 13)) || (c =? 32) || (c =? 133) || (c =? 160) || (c =? 5760)
  || ((8192 <=? c) && (c <=? 8202)) || (c =? 8232) || (c =? 8233) || (c =? 8239)
  || (c =? 8287) || (c =? 12288).

Fixpoint trim_start (s : str) : str :=
  match s with
  | [] => []
  | c :: s' => if is_whitespace c then trim_start s' else s
  end.

(** [str::trim] *)
Definition trim (s : str) : str := rev (trim_start (rev (trim_start s))).

(** [str::contains(char)] and [str::starts_with(char)] *)
Definition str_contains (c : Z) (s : str) : bool := existsb (Z.eqb c) s.
Definition starts_with (c : Z) (s : str) : bool :=
  match s with [] => false | d :: _ => c =? d end.
Definition str_is_empty (s : str) : bool := match s with [] => true | _ => false end.

Definition NUL : Z := 0.
Definition BACKSLASH : Z := 92.

(** [str::to_ascii_lowercase] *)
Definition ascii_lower (c : Z) : Z := if (65 <=? c) && (c <=? 90) then c + 32 else c.
Definition to_ascii_lowercase (s : str) : str := map ascii_lower s.

(** [str::to_lowercase] follows the Unicode case tables, which are data of the
    Rust toolchain: the model is parametric in the function. *)
Class UnicodeLower : Type := to_lowercase : str → str.

(** A concrete instance, exact on ASCII text. *)
Definition ascii_tables : UnicodeLower := to_ascii_lowercase.

(** ** Vectors *)

Section vec.
Context {A : Type}.
Implicit Types (l : list A) (f : A → bool).

(** [iter().position(f)] *)
Fixpoint position f l : option nat :=
  match l with
  | [] => None
  | a :: l => if f a then Some O else S <$> position f l
  end.

(** [Vec::swap_remove(i)]: the element, and the vector with its last element in
    the hole; out of range it panics. *)
Definition swap_remove (i : nat) l : option (A * list A) :=
  match l !! i, last l with
  | Some a, Some z => Some (a, take (pred (length l)) (<[i := z]> l))
  | _, _ => None
  end.

(** [VecDeque::remove(i)] and [Vec::remove(i)] *)
Definition remove_at (i : nat) l : list A := take i l ++ drop (S i) l.

Lemma position_Some f l i :
  position f l = Some i → ∃ a, l !! i = Some a ∧ f a = true ∧
    ∀ j b, (j < i)%nat → l !! j = Some b → f b = false.
Proof.
  revert i. induction l as [|a l IH]; intros i; simpl; [done|].
  destruct (f a) eqn:Ha.
  - intros [= <-]. exists a. split_and!; [done|done|lia].
  - rewrite fmap_Some. intros (j & Hj & ->). destruct (IH _ Hj) as (b & Hb & Hfb & Hmin).
    exists b. split_and!; [done|done|]. intros [|k] c Hk Hc; [by simplify_eq/=|].
    apply (Hmin k); [lia|done].
Qed.

Lemma position_None f l a : position f l = None → a ∈ l → f a = false.
Proof.
  induction l as [|b l IH]; simpl; intros Hn Ha; [by apply not_elem_of_nil in Ha|].
  destruct (f b) eqn:Hb; [done|]. rewrite fmap_None in Hn.
  apply elem_of_cons in Ha as [->|Ha]; auto.
Qed.

Lemma position_is_Some f l a : a ∈ l → f a = true → ∃ i, position f l = Some i.
Proof.
  intros Ha Hf. destruct (position f l) eqn:E; [by eauto|].
  by rewrite (position_None _ _ _ E Ha) in Hf.
Qed.

Lemma remove_at_Permutation l i a : l !! i = Some a → l ≡ₚ a :: remove_at i l.
Proof.
  intros Hi. unfold remove_at. rewrite <-(take_drop_middle l i a Hi) at 1.
  by rewrite Permutation_middle.
Qed.

Lemma swap_remove_Permutation l i a l' :
  swap_remove i l = Some (a, l') → l !! i = Some a ∧ l ≡ₚ a :: l'.
Proof.
  unfold swap_remove. destruct (l !! i) as [b|] eqn:Hi; [|done].
  destruct (last l) as [z|] eqn:Hz; [|done]. intros [= -> <-]. split; [done|].
  destruct l as [|z' l0 _] using rev_ind; [done|]. rewrite last_snoc in Hz. simplify_eq.
  rewrite length_app. simpl. replace (pred (length l0 + 1)) with (length l0) by lia.
  apply lookup_lt_Some in Hi as Hlt. rewrite length_app in Hlt. simpl in Hlt.
  destruct (decide (i = length l0)) as [->|Hne].
  - rewrite lookup_app_r, Nat.sub_diag in Hi by lia. simpl in Hi. simplify_eq.
    rewrite insert_app_r_alt, Nat.sub_diag by lia. simpl.
    rewrite take_app_length. by rewrite Permutation_app_comm.
  - rewrite lookup_app_l in Hi by lia. rewrite insert_app_l by lia.
    rewrite take_app_le, take_ge by (rewrite length_insert; lia).
    rewrite (Permutation_app_comm l0). simpl.
    rewrite (insert_take_drop l0) by lia.
    rewrite <-(take_drop_middle l0 i a Hi) at 1. rewrite <-!Permutation_middle. apply perm_swap.
Qed.
End vec.

(** [&bytes[start..start + n]]: out of range it panics. *)
Definition slice (start n : Z) (bytes : list Z) : option (list Z) :=
  if (0 <=? start) && (0 <=? n) && (start + n <=? Z.of_nat (length bytes))
  then Some (take (Z.to_nat n) (drop (Z.to_nat start) bytes)) else None.

(** [bytes[start..start + data.len()].copy_from_slice(data)] *)
Definition splice (start : Z) (data bytes : list Z) : option (list Z) :=
  if (0 <=? start) && (start + Z.of_nat (length data) <=? Z.of_nat (length bytes))
  then Some (take (Z.to_nat start) bytes ++ data
             ++ drop (Z.to_nat start + length data) bytes) else None.

Lemma slice_Some start n bytes out :
  slice start n bytes = Some out →
  0 ≤ start ∧ 0 ≤ n ∧ start + n ≤ Z.of_nat (length bytes) ∧ Z.of_nat (length out) = n ∧
  ∀ i, 0 ≤ i < n → out !! Z.to_nat i = bytes !! Z.to_nat (start + i).
Proof.
  unfold slice. destruct (_ && _) eqn:E; [|done]. intros [= <-].
  apply andb_true_iff in E as [[E1%Z.leb_le E2%Z.leb_le]%andb_true_iff E3%Z.leb_le].
  split_and!; try done.
  - rewrite length_take, length_drop. lia.
  - intros i Hi. rewrite lookup_take_lt, lookup_drop by lia. f_equal. lia.
Qed.

Lemma slice_is_Some start n bytes :
  0 ≤ start → 0 ≤ n → start + n ≤ Z.of_nat (length bytes) → ∃ out, slice start n bytes = Some out.
Proof.
  intros. unfold slice. rewrite !(proj2 (Z.leb_le _ _)) by lia. simpl. eauto.
Qed.

Lemma splice_Some start data bytes out :
  splice start data bytes = Some out →
  0 ≤ start ∧ start + Z.of_nat (length data) ≤ Z.of_nat (length bytes) ∧
  length out = length bytes ∧
  ∀ i, 0 ≤ i → out !! Z.to_nat i =
    if decide (start ≤ i < start + Z.of_nat (length data))
    then data !! Z.to_nat (i - start) else bytes !! Z.to_nat i.
Proof.
  unfold splice. destruct (_ && _) eqn:E; [|done]. intros [= <-].
  apply andb_true_iff in E as [E1%Z.leb_le E2%Z.leb_le]. split_and!; try done.
  - rewrite !length_app, length_take, length_drop. lia.
  - intros i Hi. case_decide as Hd.
    + rewrite lookup_app_r by (rewrite length_take; lia).
      rewrite lookup_app_l by (rewrite length_take; lia). f_equal. rewrite length_take. lia.
    + destruct (decide (i < start)).
      * rewrite lookup_app_l by (rewrite length_take; lia). by rewrite lookup_take_lt by lia.
      * rewrite lookup_app_r by (rewrite length_take; lia).
        rewrite lookup_app_r by (rewrite length_take; lia).
        rewrite lookup_drop, length_take. f_equal. lia.
Qed.

Lemma splice_is_Some start data bytes :
  0 ≤ start → start + Z.of_nat (length data) ≤ Z.of_nat (length bytes) →
  ∃ out, splice start data bytes = Some out.
Proof.
  intros. unfold splice. rewrite !(proj2 (Z.leb_le _ _)) by lia. simpl. eauto.
Qed.

(** ** Ordered maps

    [BTreeMap] iterates in key order; a [gmap] does not, so the traversals of the
    source go through the sorted list of the entries. *)

Section btree.
Context {V : Type}.
Implicit Types m : gmap Z V.

Definition key_le (x y : Z * V) : Prop := x.1 ≤ y.1.

#[export] Instance key_le_dec x y : Decision (key_le x y).
Proof. unfold key_le. apply _. Defined.

#[export] Instance key_le_total : Total key_le.
Proof. intros x y. unfold key_le. lia. Qed.

#[export] Instance key_le_trans : Transitive key_le.
Proof. intros x y z. unfold key_le. lia. Qed.

Definition bt_entries m : list (Z * V) := merge_sort key_le (map_to_list m).
Definition bt_keys m : list Z := (bt_entries m).*1.
Definition bt_values m : list V := (bt_entries m).*2.

(** [map.range(..=k).next_back()] and [map.range(..k).next_back()] *)
Definition bt_floor m (k : Z) : option (Z * V) :=
  last (filter (λ e, e.1 ≤ k) (bt_entries m)).
Definition bt_below m (k : Z) : option (Z * V) :=
  last (filter (λ e, e.1 < k) (bt_entries m)).

Lemma elem_of_bt_entries m k v : (k, v) ∈ bt_entries m ↔ m !! k = Some v.
Proof. unfold bt_entries. by rewrite merge_sort_Permutation, elem_of_map_to_list. Qed.

Lemma bt_entries_sorted m : StronglySorted key_le (bt_entries m).
Proof. unfold bt_entries. apply StronglySorted_merge_sort; apply _. Qed.

Lemma NoDup_bt_keys m : NoDup (bt_keys m).
Proof.
  unfold bt_keys, bt_entries. rewrite merge_sort_Permutation.
  apply NoDup_fst_map_to_list.
Qed.

Lemma elem_of_bt_keys m k : k ∈ bt_keys m ↔ is_Some (m !! k).
Proof.
  unfold bt_keys. rewrite list_elem_of_fmap. split.
  - intros ([i v] & -> & H). apply elem_of_bt_entries in H. eauto.
  - intros [v H]. exists (k, v). split; [done|]. by apply elem_of_bt_entries.
Qed.

Lemma elem_of_bt_values m v : v ∈ bt_values m ↔ ∃ k, m !! k = Some v.
Proof.
  unfold bt_values. rewrite list_elem_of_fmap. split.
  - intros ([i w] & -> & H). apply elem_of_bt_entries in H. eauto.
  - intros [k H]. exists (k, v). split; [done|]. by apply elem_of_bt_entries.
Qed.

Lemma length_bt_keys m : length (bt_keys m) = size m.
Proof.
  unfold bt_keys, bt_entries.
  by rewrite length_fmap, merge_sort_Permutation, length_map_to_list.
Qed.
End btree.

(** The iteration order of a [BTreeSet]. *)
Definition bt_elems (X : gset Z) : list Z := merge_sort Z.le (elements X).

Lemma elem_of_bt_elems X x : x ∈ bt_elems X ↔ x ∈ X.
Proof. unfold bt_elems. by rewrite merge_sort_Permutation, elem_of_elements. Qed.

Lemma NoDup_bt_elems X : NoDup (bt_elems X).
Proof. unfold bt_elems. rewrite merge_sort_Permutation. apply NoDup_elements. Qed.

Lemma length_bt_elems X : length (bt_elems X) = size X.
Proof. unfold bt_elems. by rewrite merge_sort_Permutation. Qed.

Lemma last_filter_sorted {A} (R : relation A) (P : A → Prop) `{!∀ x, Decision (P x)} l x :
  StronglySorted R l → last (filter P l) = Some x →
  x ∈ l ∧ P x ∧ ∀ y, y ∈ l → P y → y = x ∨ R y x.
Proof.
  induction 1 as [|a l Hl IH Ha]; [done|]. rewrite filter_cons.
  case_decide as HP.
  - rewrite last_cons. destruct (last (filter P l)) as [z|] eqn:E.
    + intros [= ->]. destruct IH as (Hx & HPx & IH); [done|].
      rewrite Forall_forall in Ha.
      repeat split; [by right|done|].
      intros y [->|Hy]%elem_of_cons HPy; eauto.
    + intros [= ->]. repeat split; [by left|done|].
      intros y [->|Hy]%elem_of_cons HPy; [by left|]. apply last_None in E.
      assert (y ∈ filter P l) as Hn by (by apply list_elem_of_filter).
      rewrite E in Hn. by apply not_elem_of_nil in Hn.
  - intros E. destruct (IH E) as (Hx & HPx & IH'). repeat split; [by right|done|].
    intros y [->|Hy]%elem_of_cons HPy; [done|eauto].
Qed.

Lemma filter_all {A} (P : A → Prop) `{!∀ x, Decision (P x)} (l : list A) : (∀ x, P x) → filter P l = l.
Proof. intros HP. induction l; [done|]. rewrite filter_cons_True by done. by f_equal. Qed.

Lemma length_filter_split {A} (P : A → Prop) `{!∀ x, Decision (P x)} (l : list A) :
  (length (filter P l) + length (filter (λ x, ¬ P x) l) = length l)%nat.
Proof. rewrite <-length_app. by rewrite filter_app_complement. Qed.

Section btree_search.
Context {V : Type}.
Implicit Types m : gmap Z V.

Lemma bt_floor_Some m k i v :
  bt_floor m k = Some (i, v) →
  m !! i = Some v ∧ i ≤ k ∧ ∀ j, is_Some (m !! j) → j ≤ k → j ≤ i.
Proof.
  unfold bt_floor. intros H.
  apply (last_filter_sorted key_le) in H as (Hin & Hle & Hmax); [|apply bt_entries_sorted].
  apply elem_of_bt_entries in Hin. repeat split; [done|done|].
  intros j [w Hw] Hj. apply elem_of_bt_entries in Hw.
  destruct (Hmax _ Hw Hj) as [?|?]; unfold key_le in *; simplify_eq/=; lia.
Qed.

Lemma bt_below_floor m k : bt_below m k = bt_floor m (k - 1).
Proof.
  unfold bt_below, bt_floor. f_equal. apply list_filter_iff. intros x. lia.
Qed.

Lemma bt_floor_None m k j v : bt_floor m k = None → m !! j = Some v → k < j.
Proof.
  unfold bt_floor. intros H Hj. apply last_None in H.
  destruct (decide (j ≤ k)) as [Hle|]; [|lia].
  apply elem_of_bt_entries in Hj.
  assert ((j, v) ∈ filter (λ e, e.1 ≤ k) (bt_entries m)) as E by (by apply list_elem_of_filter).
  rewrite H in E. by apply not_elem_of_nil in E.
Qed.

(** A floor is determined by its three properties. *)
Lemma bt_floor_intro m k i v :
  m !! i = Some v → i ≤ k → (∀ j, is_Some (m !! j) → j ≤ k → j ≤ i) →
  bt_floor m k = Some (i, v).
Proof.
  intros Hi Hle Hmax. destruct (bt_floor m k) as [[j w]|] eqn:E.
  - apply bt_floor_Some in E as (Hj & Hjk & Hjmax).
    assert (j = i) as -> by (apply Z.le_antisymm; eauto). congruence.
  - apply (bt_floor_None _ _ _ _ E) in Hi. lia.
Qed.
End btree_search.

(** ** Updating a map at every key of a list *)

Section fold_map.
Context {V : Type}.
Implicit Types (m : gmap Z V) (l : list Z).

Lemma lookup_fold_insert x l m p :
  foldl (λ m p, <[p := x]> m) m l !! p = if decide (p ∈ l) then Some x else m !! p.
Proof.
  revert m. induction l as [|q l IH]; intros m; cbn [foldl].
  - by rewrite decide_False by apply not_elem_of_nil.
  - rewrite IH, lookup_insert. repeat case_decide; set_solver.
Qed.

Lemma lookup_fold_delete l m p :
  foldl (λ m p, delete p m) m l !! p = if decide (p ∈ l) then None else m !! p.
Proof.
  revert m. induction l as [|q l IH]; intros m; cbn [foldl].
  - by rewrite decide_False by apply not_elem_of_nil.
  - rewrite IH, lookup_delete. repeat case_decide; set_solver.
Qed.

Lemma size_fold_insert x l m :
  NoDup l → (∀ p, p ∈ l → m !! p = None) →
  size (foldl (λ m p, <[p := x]> m) m l) = (size m + length l)%nat.
Proof.
  revert m. induction l as [|q l IH]; intros m Hnd Hl; simpl; [lia|].
  apply NoDup_cons in Hnd as [Hq Hnd]. rewrite IH; [|done|].
  - rewrite map_size_insert_None by (apply Hl; by left). lia.
  - intros p Hp. rewrite lookup_insert_ne by (by intros ->). apply Hl. by right.
Qed.

Lemma size_fold_delete l m :
  NoDup l →
  (size (foldl (λ m p, delete p m) m l) + length (filter (λ p, is_Some (m !! p)) l))%nat = size m.
Proof.
  revert m. induction l as [|q l IH]; intros m Hnd; simpl; [lia|].
  apply NoDup_cons in Hnd as [Hq Hnd]. specialize (IH (delete q m) Hnd).
  assert (filter (λ p, is_Some (delete q m !! p)) l = filter (λ p, is_Some (m !! p)) l) as Hf.
  { clear IH Hnd. induction l as [|p l IHl]; [done|]. apply not_elem_of_cons in Hq as [Hqp Hq].
    rewrite !filter_cons, IHl by done. rewrite lookup_delete_ne by done. done. }
  rewrite Hf in IH. rewrite filter_cons. case_decide as Hs; simpl.
  - rewrite map_size_delete_Some in IH by done.
    assert (size m ≠ 0%nat); [|lia]. intros E%map_size_empty_inv. subst.
    destruct Hs as [y Hy]. by rewrite lookup_empty in Hy.
  - rewrite map_size_delete_None in IH by (by apply eq_None_not_Some). lia.
Qed.
End fold_map.

(** ** Updates in place *)

Section alter_facts.
Context `{Countable K} {V : Type}.
Implicit Types (f g : V → V) (m : gmap K V).

Lemma alter_twice f g h m k :
  (∀ v, g (f v) = h v) → alter g k (alter f k m) = alter h k m.
Proof.
  intros E. apply map_eq. intros i. destruct (decide (k = i)) as [<-|Hne].
  - rewrite !lookup_alter_eq. destruct (m !! k); simpl; by rewrite ?E.
  - by rewrite !lookup_alter_ne.
Qed.

(** [get_mut] of a key that is there. *)
Lemma alter_is_insert f m k v : m !! k = Some v → alter f k m = <[k := f v]> m.
Proof.
  intros Hk. apply map_eq. intros i. destruct (decide (k = i)) as [<-|Hne].
  - by rewrite lookup_alter_eq, lookup_insert_eq, Hk.
  - by rewrite lookup_alter_ne, lookup_insert_ne.
Qed.
End alter_facts.

(** ** Sums over finite maps *)

Section map_sum.
Context `{Countable K} {V : Type}.
Implicit Types (f g : K → V → Z) (m : gmap K V).

Definition map_sum f m : Z := map_fold (λ k v acc, f k v + acc) 0 m.

Lemma map_sum_empty f : map_sum f ∅ = 0.
Proof. apply map_fold_empty. Qed.

Lemma map_sum_insert f m k v :
  m !! k = None → map_sum f (<[k:=v]> m) = f k v + map_sum f m.
Proof. intros. unfold map_sum. apply (map_fold_insert_L (λ k v acc, f k v + acc)); [lia|done]. Qed.

Lemma map_sum_delete f m k v :
  m !! k = Some v → map_sum f m = f k v + map_sum f (delete k m).
Proof. intros. unfold map_sum. apply (map_fold_delete_L (λ k v acc, f k v + acc)); [lia|done]. Qed.

Lemma map_sum_delete_None f m k : m !! k = None → map_sum f (delete k m) = map_sum f m.
Proof. intros. by rewrite delete_id. Qed.

Lemma map_sum_update f m k v w :
  m !! k = Some v → map_sum f (<[k:=w]> m) = map_sum f m - f k v + f k w.
Proof.
  intros Hk. rewrite <-insert_delete_eq, map_sum_insert by apply lookup_delete_eq.
  rewrite (map_sum_delete f m k v Hk). lia.
Qed.

Lemma map_sum_ext f g m :
  (∀ k v, m !! k = Some v → f k v = g k v) → map_sum f m = map_sum g m.
Proof.
  induction m as [|k v m Hk IH] using map_ind; intros Hfg; [done|].
  rewrite !map_sum_insert by done. f_equal.
  - apply Hfg. apply lookup_insert_eq.
  - apply IH. intros k' v' ?. apply Hfg. rewrite lookup_insert_ne; [done|congruence].
Qed.

Lemma map_sum_le f g m :
  (∀ k v, m !! k = Some v → f k v ≤ g k v) → map_sum f m ≤ map_sum g m.
Proof.
  induction m as [|k v m Hk IH] using map_ind; intros Hfg; [done|].
  rewrite !map_sum_insert by done. apply Z.add_le_mono.
  - apply Hfg. apply lookup_insert_eq.
  - apply IH. intros k' v' ?. apply Hfg. rewrite lookup_insert_ne; [done|congruence].
Qed.

Lemma map_sum_nonneg f m : (∀ k v, m !! k = Some v → 0 ≤ f k v) → 0 ≤ map_sum f m.
Proof.
  intros Hf. transitivity (map_sum (λ _ _, 0) m); [|by apply map_sum_le].
  induction m as [|k v m Hk IH] using map_ind; [done|].
  rewrite map_sum_insert by done. rewrite Z.add_0_l. apply IH.
  intros k' v' ?. apply (Hf k' v'). rewrite lookup_insert_ne; [done|congruence].
Qed.

(** One summand is at most the sum of nonnegative ones. *)
Lemma map_sum_elem_le f m k v :
  (∀ k v, m !! k = Some v → 0 ≤ f k v) → m !! k = Some v → f k v ≤ map_sum f m.
Proof.
  intros Hf Hk. rewrite (map_sum_delete f m k v Hk).
  assert (0 ≤ map_sum f (delete k m)); [|lia].
  apply map_sum_nonneg. intros k' v' [_ ?]%lookup_delete_Some. eauto.
Qed.

Lemma map_sum_const1 m : map_sum (λ _ _, 1) m = Z.of_nat (size m).
Proof.
  induction m as [|k v m Hk IH] using map_ind; [done|].
  rewrite map_sum_insert, map_size_insert_None by done. lia.
Qed.
End map_sum.

Lemma map_sum_fmap `{Countable K} {V W} (g : W → V) (f : K → V → Z) (m : gmap K W) :
  map_sum f (g <$> m) = map_sum (λ k v, f k (g v)) m.
Proof.
  induction m as [|k v m Hk IH] using map_ind; [done|].
  rewrite fmap_insert, !map_sum_insert; [|done|by rewrite lookup_fmap, Hk]. by rewrite IH.
Qed.

(** ** Reasoning about outcomes *)

Section wp_laws.
Context {S A B : Type}.
Implicit Types (s : S).

Lemma wp_mono (c : M S A) s (Q Q' : result A → S → Prop) :
  wp c s Q → (∀ r s', Q r s' → Q' r s') → wp c s Q'.
Proof. unfold wp. destruct (c s); naive_solver. Qed.

Lemma wp_bind (c : M S A) (k : A → M S B) s Q :
  wp c s (λ r s', match r with Ok a => wp (k a) s' Q | Err e => Q (Err e) s' end) →
  wp (bind c k) s Q.
Proof. unfold wp, bind. by destruct (c s) as [[] ?|]. Qed.

Lemma wp_done (c : M S A) s r s' (Q : result A → S → Prop) : c s = Done r s' → Q r s' → wp c s Q.
Proof. unfold wp. by intros ->. Qed.

Lemma wp_inv (c : M S A) s (Q : result A → S → Prop) :
  wp c s Q → ∃ r s', c s = Done r s' ∧ Q r s'.
Proof. unfold wp. destruct (c s); naive_solver. Qed.

Lemma wp_elim (c : M S A) s (Q : result A → S → Prop) r s' : wp c s Q → c s = Done r s' → Q r s'.
Proof. unfold wp. intros H E. by rewrite E in H. Qed.

Lemma bind_Ok_inv (c : M S A) (k : A → M S B) s b s' :
  bind c k s = Done (Ok b) s' → ∃ a s1, c s = Done (Ok a) s1 ∧ k a s1 = Done (Ok b) s'.
Proof. unfold bind. destruct (c s) as [[]|]; naive_solver. Qed.

(** A run that returned either got through [c] or stopped there. *)
Lemma bind_inv (c : M S A) (k : A → M S B) s r s' :
  bind c k s = Done r s' →
  (∃ a s1, c s = Done (Ok a) s1 ∧ k a s1 = Done r s') ∨
  (∃ e, c s = Done (Err e) s' ∧ r = Err e).
Proof. unfold bind. destruct (c s) as [[]|]; naive_solver. Qed.
End wp_laws.

(** A loop whose body never fails and keeps [I]: [I] is indexed by the elements
    already visited. *)
Lemma wp_for_each {S A} (I : list A → S → Prop) (f : A → M S unit) l s :
  I [] s →
  (∀ done a rest s', l = done ++ a :: rest → I done s' →
     wp (f a) s' (λ r s'', r = Ok tt ∧ I (done ++ [a]) s'')) →
  wp (for_each l f) s (λ r s', r = Ok tt ∧ I l s').
Proof.
  intros H0 Hstep.
  cut (∀ rest done s', l = done ++ rest → I done s' →
    wp (for_each rest f) s' (λ r s'', r = Ok tt ∧ I l s'')).
  { intros H. by apply (H l [] s). }
  induction rest as [|a rest IH]; intros done s' -> Hd; simpl.
  - unfold wp. simpl. by rewrite app_nil_r.
  - apply wp_bind. eapply wp_mono; [by eapply Hstep|].
    intros r s'' [-> HI]. apply (IH (done ++ [a])); [|done]. by rewrite <-app_assoc.
Qed.

(** A loop that only checks. *)
Lemma for_each_fail_if {S A} (P : A → Prop) `{!∀ a, Decision (P a)} (l : list A) e (s : S) :
  for_each l (λ a, fail_if (bool_decide (P a)) e) s =
  Done (if bool_decide (Exists P l) then Err e else Ok tt) s.
Proof.
  induction l as [|a l IH]; simpl; [done|]. destruct (decide (P a)).
  - rewrite bool_decide_true, (bool_decide_true (Exists P (a :: l))) by (done || by left). done.
  - rewrite bool_decide_false by done. rewrite IH. f_equal.
    rewrite (bool_decide_ext (Exists P (a :: l)) (Exists P l)); [done|].
    rewrite Exists_cons. naive_solver.
Qed.

(** ** Automation

    [mrun] evaluates the monad's combinators; [msplit] also splits on the tests
    and lookups of the code and drops the impossible branches. *)

Ltac mrun :=
  cbn [bind ret throw panic gets modify fail_if ok_or expect query add_at capacity zoom fst snd
       negb andb orb] in *.

Ltac mcase :=
  match goal with
  | H : context [match ?x with _ => _ end] |- _ =>
      lazymatch x with
      | context [match _ with _ => _ end] => fail
      | _ => let E := fresh "E" in destruct x eqn:E; simplify_eq/=
      end
  | |- context [match ?x with _ => _ end] =>
      lazymatch x with
      | context [match _ with _ => _ end] => fail
      | _ => let E := fresh "E" in destruct x eqn:E; simplify_eq/=
      end
  end.
Ltac msplit := repeat (mrun; mcase); mrun.

(** Turns the boolean tests of the code into propositions. *)
Ltac bool_prop :=
  repeat match goal with
  | H : (_ <=? _) = true |- _ => apply Z.leb_le in H
  | H : (_ <=? _) = false |- _ => apply Z.leb_gt in H
  | H : (_ <? _) = true |- _ => apply Z.ltb_lt in H
  | H : (_ <? _) = false |- _ => apply Z.ltb_ge in H
  | H : (_ =? _) = true |- _ => apply Z.eqb_eq in H
  | H : (_ =? _) = false |- _ => apply Z.eqb_neq in H
  | H : bool_decide _ = true |- _ => apply bool_decide_eq_true in H
  | H : bool_decide _ = false |- _ => apply bool_decide_eq_false in H
  | H : _ && _ = true |- _ => apply andb_true_iff in H as [? ?]
  | H : _ || _ = false |- _ => apply orb_false_iff in H as [? ?]
  | H : _ || _ = true |- _ => apply orb_true_iff in H
  | H : negb _ = true |- _ => apply negb_true_iff in H
  | H : negb _ = false |- _ => apply negb_false_iff in H
  end.

(** ** Monotone runs

    [monotone R c]: [c] moves the state along the preorder [R]. *)

Definition monotone {S A} (R : S → S → Prop) (c : M S A) : Prop :=
  ∀ s r s', c s = Done r s' → R s s'.

Section monotone.
Context {S : Type} (R : S → S → Prop) `{!PreOrder R}.

Lemma monotone_read {A} (c : M S A) : (∀ s r s', c s = Done r s' → s' = s) → monotone R c.
Proof. intros Hc s r s' H. by rewrite (Hc _ _ _ H). Qed.
Lemma monotone_modify f : (∀ s, R s (f s)) → monotone R (modify f).
Proof. intros Hf s r s' [= <- <-]. apply Hf. Qed.
Lemma monotone_bind {A B} (c : M S A) (k : A → M S B) :
  monotone R c → (∀ a, monotone R (k a)) → monotone R (bind c k).
Proof.
  intros Hc Hk s r s' [(a & s1 & H1 & H2)|(e & H & ->)]%bind_inv; [|by eapply Hc].
  etrans; [by eapply Hc|by eapply Hk].
Qed.
Lemma monotone_for_each {A} (l : list A) (f : A → M S unit) :
  (∀ a, monotone R (f a)) → monotone R (for_each l f).
Proof. intros Hf. induction l; simpl; [by apply monotone_read; intros ??? [= <- <-]|]. by apply monotone_bind. Qed.
Lemma monotone_map_each {A B} (l : list A) (f : A → M S B) :
  (∀ a, monotone R (f a)) → monotone R (map_each l f).
Proof.
  intros Hf. assert (∀ A (a : A), monotone R (ret a)) as Hret by by intros ????? [= <- <-].
  induction l; simpl; [by apply Hret|].
  apply monotone_bind; [done|]. intros b. apply monotone_bind; [done|]. intros bs. apply Hret.
Qed.
End monotone.

(** Splits a body into its steps; what is left are the calls and the updates. *)
Ltac monotone_steps :=
  repeat (cbv zeta; lazymatch goal with
    | |- monotone _ (bind _ _) => apply monotone_bind; [typeclasses eauto| |intros ?]
    | |- monotone _ (for_each _ _) => apply monotone_for_each; [typeclasses eauto|intros ?]
    | |- monotone _ (map_each _ _) => apply monotone_map_each; [typeclasses eauto|intros ?]
    | |- monotone _ (match ?x with _ => _ end) => destruct x
    | |- monotone _ _ =>
        apply monotone_read; [typeclasses eauto|]; intros ? ? ? ?; mrun; repeat case_match; by simplify_eq
    end).

Create HintDb casak discriminated.
