(* ===== verification/Strings.v ===== *)
(** * Strings of the Rust standard library

    What several components use of [String] and [str] beyond the Prelude: lengths,
    encodings, splitting, and the order in which [BTreeMap<String, V>] and
    [BTreeSet<String>] iterate. *)

From S2P Require Import Prelude.

(** The length in bytes of the UTF-8 encoding: [str::len]. *)
Definition utf8_width (c : Z) : Z :=
  if c <? 128 then 1 else if c <? 2048 then 2 else if c <? 65536 then 3 else 4.
Definition str_len (s : str) : Z := foldr (λ c n, utf8_width c + n) 0 s.

(** [str::trim_end_matches(char)] *)
Fixpoint trim_start_char (c : Z) (s : str) : str :=
  match s with
  | [] => []
  | d :: s' => if d =? c then trim_start_char c s' else s
  end.
Definition trim_end_matches (c : Z) (s : str) : str := rev (trim_start_char c (rev s)).

(** [str::replace(char, &str)] of a character by a character *)
Definition replace_char (c d : Z) (s : str) : str := map (λ x, if x =? c then d else x) s.

(** [str::strip_prefix(&str)] *)
Fixpoint strip_prefix (p s : str) : option str :=
  match p, s with
  | [], _ => Some s
  | c :: p', d :: s' => if c =? d then strip_prefix p' s' else None
  | _, _ => None
  end.

(** [str::rsplit_once(char)] *)
Fixpoint rsplit_once (c : Z) (s : str) : option (str * str) :=
  match s with
  | [] => None
  | d :: s' =>
      match rsplit_once c s' with
      | Some (a, b) => Some (d :: a, b)
      | None => if d =? c then Some ([], s') else None
      end
  end.

(** The order of [String], that of the code points. *)
Fixpoint str_leb (s t : str) : bool :=
  match s, t with
  | [], _ => true
  | _ :: _, [] => false
  | c :: s', d :: t' => if c =? d then str_leb s' t' else c <? d
  end.
Definition str_le (s t : str) : Prop := str_leb s t = true.
#[export] Instance str_le_dec s t : Decision (str_le s t).
Proof. unfold str_le. apply _. Defined.

(** Iteration of a [BTreeSet<String>] and of a [BTreeMap<String, V>]. *)
Definition bs_elems (X : gset str) : list str := merge_sort str_le (elements X).
Definition entry_le {V} (x y : str * V) : Prop := str_le x.1 y.1.
#[export] Instance entry_le_dec {V} (x y : str * V) : Decision (entry_le x y).
Proof. unfold entry_le. apply _. Defined.
Definition bs_entries {V} (m : gmap str V) : list (str * V) := merge_sort entry_le (map_to_list m).

(** [str::eq_ignore_ascii_case] *)
Definition eq_ignore_ascii_case (s t : str) : bool :=
  bool_decide (to_ascii_lowercase s = to_ascii_lowercase t).

(** [str::as_bytes]: the UTF-8 encoding *)
Definition utf8_char (c : Z) : list Z :=
  if c <? 128 then [c]
  else if c <? 2048 then [192 + c / 64; 128 + c mod 64]
  else if c <? 65536 then [224 + c / 4096; 128 + c / 64 mod 64; 128 + c mod 64]
  else [240 + c / 262144; 128 + c / 4096 mod 64; 128 + c / 64 mod 64; 128 + c mod 64].
Definition as_bytes (s : str) : list Z := flat_map utf8_char s.

(** [str::encode_utf16] *)
Definition utf16_char (c : Z) : list Z :=
  if c <? 65536 then [c]
  else [55296 + (c - 65536) / 1024; 56320 + (c - 65536) mod 1024].
Definition encode_utf16 (s : str) : list Z := flat_map utf16_char s.

Lemma length_as_bytes s : Z.of_nat (length (as_bytes s)) = str_len s.
Proof.
  induction s as [|c s IH]; [done|]. unfold as_bytes, str_len in *. simpl.
  rewrite length_app, Nat2Z.inj_add, IH. unfold utf8_char, utf8_width. by repeat case_match.
Qed.
