(* ===== verification/Bytes.v ===== *)
(** * Byte buffers

    Little-endian integers, and the way the serializers lay a structure out in a
    [Vec<u8>]: a zero-filled buffer into which every field is copied at its own
    offset.  [puts_render] says what such a sequence of copies leaves: for fields
    that follow one another it is the concatenation of the fields with zero_bytes in
    the gaps, and no copy is out of range. *)

From stdpp Require Import list_numbers.
From S2P Require Import Prelude.

(** [x.to_le_bytes()] of an integer of [n] bytes, and [from_le_bytes]. *)
Definition to_le_bytes (n x : Z) : list Z := Z_to_little_endian n 8 x.
Definition from_le_bytes (bytes : list Z) : Z := little_endian_to_Z 8 bytes.

(** [x as u8], [x as u16], [x as u32] *)
Definition as_u8 (x : Z) : Z := x mod 2 ^ 8.
Definition as_u16 (x : Z) : Z := x mod 2 ^ 16.
Definition as_u32 (x : Z) : Z := x mod 2 ^ 32.

Definition u8_le (x : Z) : list Z := to_le_bytes 1 x.
Definition u16_le (x : Z) : list Z := to_le_bytes 2 x.
Definition u32_le (x : Z) : list Z := to_le_bytes 4 x.
Definition u64_le (x : Z) : list Z := to_le_bytes 8 x.

(** An integer read back, and a signed one of [n] bytes. *)
Definition read_le (n off : Z) (bytes : list Z) : option Z := from_le_bytes <$> slice off n bytes.
Definition as_signed (n x : Z) : Z := if x <? 2 ^ (8 * n - 1) then x else x - 2 ^ (8 * n).

(** [bytes.resize(new_len, 0)] to a larger size, which panics beyond [isize::MAX]. *)
Definition resize_zeros (new_len : Z) : M (list Z) unit := λ bytes,
  if new_len <=? isize_max
  then Done (Ok tt) (bytes ++ replicate (Z.to_nat new_len - length bytes) 0)
  else Panic.

(** A field [a..b] with what is copied there: [bytes[base + a..base + b]
    .copy_from_slice(&data)], which panics when the slice is out of range or
    does not have the length of the data. *)
Abbreviation field := (Z * Z * list Z)%type (only parsing).

Definition put (base : Z) (f : field) : M (list Z) unit := λ bytes,
  match f with
  | (a, b, data) =>
      if Z.of_nat (length data) =? b - a then
        match splice (base + a) data bytes with
        | Some bytes' => Done (Ok tt) bytes'
        | None => Panic
        end
      else Panic
  end.
Definition puts (base : Z) (fs : list field) : M (list Z) unit := for_each fs (put base).

(** A buffer written from empty. *)
Definition build {S} (c : M (list Z) unit) : M S (list Z) := λ s,
  match c [] with
  | Done (Ok _) bytes => Done (Ok bytes) s
  | Done (Err e) _ => Done (Err e) s
  | Panic => Panic
  end.

(** Zero bytes. *)
Definition zero_bytes (n : Z) : list Z := replicate (Z.to_nat n) 0.

(** [layout lo hi fs]: the fields follow one another between [lo] and [hi]. *)
Fixpoint layout (lo hi : Z) (fs : list field) : Prop :=
  match fs with
  | [] => lo ≤ hi
  | (a, b, data) :: fs => lo ≤ a ∧ b = a + Z.of_nat (length data) ∧ layout b hi fs
  end.

(** The fields one after the other, with zero_bytes in the gaps. *)
Fixpoint render (lo hi : Z) (fs : list field) : list Z :=
  match fs with
  | [] => zero_bytes (hi - lo)
  | (a, b, data) :: fs => zero_bytes (a - lo) ++ data ++ render b hi fs
  end.

(** ** Integers *)

Lemma length_to_le_bytes n x : 0 ≤ n → Z.of_nat (length (to_le_bytes n x)) = n.
Proof. apply length_Z_to_little_endian. Qed.

Lemma from_to_le_bytes n x : 0 ≤ n → from_le_bytes (to_le_bytes n x) = x mod 2 ^ (8 * n).
Proof.
  intros. unfold from_le_bytes, to_le_bytes.
  rewrite little_endian_to_Z_to_little_endian by lia. by rewrite (Z.mul_comm n).
Qed.

Lemma from_to_le_bytes_small n x : 0 ≤ n → 0 ≤ x < 2 ^ (8 * n) → from_le_bytes (to_le_bytes n x) = x.
Proof. intros. rewrite from_to_le_bytes by done. by apply Z.mod_small. Qed.

(** Two's complement. *)
Lemma as_signed_mod n x :
  1 ≤ n → - 2 ^ (8 * n - 1) ≤ x < 2 ^ (8 * n - 1) → as_signed n (x mod 2 ^ (8 * n)) = x.
Proof.
  intros Hn Hx. unfold as_signed.
  assert (2 ^ (8 * n) = 2 * 2 ^ (8 * n - 1)) as E.
  { rewrite <-Z.pow_succ_r by lia. f_equal. lia. }
  destruct (decide (0 ≤ x)).
  - rewrite Z.mod_small by lia. by rewrite (proj2 (Z.ltb_lt _ _)) by lia.
  - replace (x mod 2 ^ (8 * n)) with (x + 2 ^ (8 * n)).
    + rewrite (proj2 (Z.ltb_ge _ _)) by lia. lia.
    + apply (Z.mod_unique_pos _ _ (-1)); lia.
Qed.

(** ** Zeros and slices *)

Lemma length_zero_bytes n : Z.of_nat (length (zero_bytes n)) = Z.max 0 n.
Proof. unfold zero_bytes. rewrite length_replicate. lia. Qed.

Lemma zero_bytes_add m n : 0 ≤ m → 0 ≤ n → zero_bytes (m + n) = zero_bytes m ++ zero_bytes n.
Proof. intros. unfold zero_bytes. rewrite Z2Nat.inj_add by lia. apply replicate_add. Qed.

Lemma splice_app pre old post data :
  length old = length data →
  splice (Z.of_nat (length pre)) data (pre ++ old ++ post) = Some (pre ++ data ++ post).
Proof.
  intros E. unfold splice. rewrite (proj2 (Z.leb_le 0 _)) by lia.
  rewrite (proj2 (Z.leb_le _ _)) by (rewrite !length_app; lia). simpl.
  rewrite Nat2Z.id, take_app_length. do 3 f_equal.
  rewrite app_assoc, drop_app_length'; [done|]. rewrite length_app. lia.
Qed.

Lemma slice_app pre data post :
  slice (Z.of_nat (length pre)) (Z.of_nat (length data)) (pre ++ data ++ post) = Some data.
Proof.
  unfold slice. rewrite !(proj2 (Z.leb_le 0 _)) by lia.
  rewrite (proj2 (Z.leb_le _ _)) by (rewrite !length_app; lia). simpl.
  by rewrite !Nat2Z.id, drop_app_length, take_app_length.
Qed.

(** The same with the offsets computed apart. *)
Lemma slice_at pre data post off n :
  off = Z.of_nat (length pre) → n = Z.of_nat (length data) →
  slice off n (pre ++ data ++ post) = Some data.
Proof. intros -> ->. apply slice_app. Qed.

(** A slice of a part of the buffer. *)
Lemma slice_part pre bytes post off n out :
  slice off n bytes = Some out →
  slice (Z.of_nat (length pre) + off) n (pre ++ bytes ++ post) = Some out.
Proof.
  unfold slice. intros H. destruct (_ && _) eqn:E in H; [|done]. injection H as <-.
  apply andb_true_iff in E as [[E1%Z.leb_le E2%Z.leb_le]%andb_true_iff E3%Z.leb_le].
  rewrite !(proj2 (Z.leb_le 0 _)) by lia.
  rewrite (proj2 (Z.leb_le _ _)) by (rewrite !length_app; lia). simpl. f_equal.
  rewrite Z2Nat.inj_add, Nat2Z.id by lia.
  rewrite drop_app_add, drop_app_le by lia.
  by rewrite take_app_le by (rewrite length_drop; lia).
Qed.

Lemma read_part pre bytes post n off x :
  read_le n off bytes = Some x → read_le n (Z.of_nat (length pre) + off) (pre ++ bytes ++ post) = Some x.
Proof.
  unfold read_le. intros (out & Hs & ->)%fmap_Some. by rewrite (slice_part _ _ _ _ _ _ Hs).
Qed.

(** ** Rendered fields *)

Lemma layout_le lo hi fs : layout lo hi fs → lo ≤ hi.
Proof.
  revert lo. induction fs as [|[[a b] d] fs IH]; intros lo; simpl; [done|].
  intros (? & -> & ?%IH). lia.
Qed.

Lemma length_render lo hi fs : layout lo hi fs → Z.of_nat (length (render lo hi fs)) = hi - lo.
Proof.
  revert lo. induction fs as [|[[a b] d] fs IH]; intros lo; simpl.
  - rewrite length_zero_bytes. lia.
  - intros (? & -> & H). rewrite !length_app, !Nat2Z.inj_add, length_zero_bytes, IH by done.
    apply layout_le in H. lia.
Qed.

(** Copying the fields into a zeroed part of a buffer renders them there. *)
Lemma puts_render base pre lo hi fs post :
  layout lo hi fs → Z.of_nat (length pre) = base + lo →
  puts base fs (pre ++ zero_bytes (hi - lo) ++ post) = Done (Ok tt) (pre ++ render lo hi fs ++ post).
Proof.
  revert pre lo. induction fs as [|[[a b] d] fs IH]; intros pre lo; [done|].
  intros Hl Hp. pose proof (layout_le _ _ _ Hl) as Hle. destruct Hl as (Ha & -> & Hl).
  pose proof (layout_le _ _ _ Hl). unfold puts in *. cbn [for_each bind].
  unfold put at 1. rewrite (proj2 (Z.eqb_eq _ _)) by lia.
  replace (hi - lo) with ((a - lo) + (Z.of_nat (length d) + (hi - (a + Z.of_nat (length d))))) by lia.
  rewrite !zero_bytes_add by lia. rewrite <-!app_assoc, (app_assoc pre).
  replace (base + a) with (Z.of_nat (length (pre ++ zero_bytes (a - lo))))
    by (rewrite length_app, Nat2Z.inj_add, length_zero_bytes; lia).
  rewrite splice_app by (apply Nat2Z.inj; rewrite length_zero_bytes; lia).
  rewrite (app_assoc _ d), IH; [by simpl; rewrite <-!app_assoc|done|].
  rewrite !length_app, !Nat2Z.inj_add, length_zero_bytes. lia.
Qed.

(** Each field is read back where it was put. *)
Lemma slice_render lo hi fs a b d :
  layout lo hi fs → (a, b, d) ∈ fs → slice (a - lo) (b - a) (render lo hi fs) = Some d.
Proof.
  revert lo. induction fs as [|[[a' b'] d'] fs IH]; intros lo; [by intros _ ?%not_elem_of_nil|].
  cbn [layout render]. intros (Ha & -> & Hl) [[= -> -> ->]|Hin]%elem_of_cons.
  - apply slice_at; [rewrite length_zero_bytes|]; lia.
  - pose proof (slice_part (zero_bytes (a' - lo) ++ d') _ [] _ _ _ (IH _ Hl Hin)) as Hs.
    rewrite app_nil_r, <-app_assoc in Hs. rewrite <-Hs. f_equal.
    rewrite length_app, Nat2Z.inj_add, length_zero_bytes. lia.
Qed.

Lemma read_render hi fs a n x :
  layout 0 hi fs → (a, a + n, to_le_bytes n x) ∈ fs → 0 ≤ n →
  read_le n a (render 0 hi fs) = Some (x mod 2 ^ (8 * n)).
Proof.
  intros Hl Hin Hn. unfold read_le. pose proof (slice_render _ _ _ _ _ _ Hl Hin) as Hs.
  replace (a - 0) with a in Hs by lia. replace (a + n - a) with n in Hs by lia.
  rewrite Hs. simpl. by rewrite from_to_le_bytes.
Qed.
