(* ===== verification/Status.v ===== *)
(** * NTSTATUS values of the executive

    The constants of [src/casak/status.rs], and those only [object.rs] and
    [io.rs] declare.  An [NtStatus] is an [i32]; the source writes the error codes
    as unsigned literals cast to it. *)

From S2P Require Import Prelude.

Definition STATUS_SUCCESS : Z := 0x0.
Definition STATUS_WAIT_0 : Z := 0x0.
Definition STATUS_ABANDONED_WAIT_0 : Z := 0x80.
Definition STATUS_USER_APC : Z := 0xc0.
Definition STATUS_TIMEOUT : Z := 0x102.
Definition STATUS_PENDING : Z := 0x103.
Definition STATUS_BUFFER_OVERFLOW : Z := as_i32 0x80000005.
Definition STATUS_NO_MORE_ENTRIES : Z := as_i32 0x8000001a.
Definition STATUS_INVALID_INFO_CLASS : Z := as_i32 0xc0000003.
Definition STATUS_ACCESS_VIOLATION : Z := as_i32 0xc0000005.
Definition STATUS_INVALID_HANDLE : Z := as_i32 0xc0000008.
Definition STATUS_INVALID_PARAMETER : Z := as_i32 0xc000000d.
Definition STATUS_INVALID_DEVICE_REQUEST : Z := as_i32 0xc0000010.
Definition STATUS_MORE_PROCESSING_REQUIRED : Z := as_i32 0xc0000016.
Definition STATUS_NO_MEMORY : Z := as_i32 0xc0000017.
Definition STATUS_CONFLICTING_ADDRESSES : Z := as_i32 0xc0000018.
Definition STATUS_INVALID_VIEW_SIZE : Z := as_i32 0xc000001f.
Definition STATUS_ALREADY_COMMITTED : Z := as_i32 0xc0000021.
Definition STATUS_ACCESS_DENIED : Z := as_i32 0xc0000022.
Definition STATUS_BUFFER_TOO_SMALL : Z := as_i32 0xc0000023.
Definition STATUS_NOT_COMMITTED : Z := as_i32 0xc000002d.
Definition STATUS_INVALID_PORT_ATTRIBUTES : Z := as_i32 0xc000002e.
Definition STATUS_PORT_MESSAGE_TOO_LONG : Z := as_i32 0xc000002f.
Definition STATUS_OBJECT_TYPE_MISMATCH : Z := as_i32 0xc00000ea.
Definition STATUS_OBJECT_NAME_INVALID : Z := as_i32 0xc0000033.
Definition STATUS_OBJECT_NAME_NOT_FOUND : Z := as_i32 0xc0000034.
Definition STATUS_OBJECT_NAME_COLLISION : Z := as_i32 0xc0000035.
Definition STATUS_PORT_DISCONNECTED : Z := as_i32 0xc0000037.
Definition STATUS_OBJECT_PATH_INVALID : Z := as_i32 0xc0000039.
Definition STATUS_OBJECT_PATH_NOT_FOUND : Z := as_i32 0xc000003a.
Definition STATUS_SECTION_TOO_BIG : Z := as_i32 0xc0000040.
Definition STATUS_PORT_CONNECTION_REFUSED : Z := as_i32 0xc0000041.
Definition STATUS_INVALID_PORT_HANDLE : Z := as_i32 0xc0000042.
Definition STATUS_INVALID_PAGE_PROTECTION : Z := as_i32 0xc0000045.
Definition STATUS_SEMAPHORE_LIMIT_EXCEEDED : Z := as_i32 0xc0000047.
Definition STATUS_INVALID_SID : Z := as_i32 0xc0000078.
Definition STATUS_SECTION_NOT_EXTENDED : Z := as_i32 0xc0000087.
Definition STATUS_INSUFFICIENT_RESOURCES : Z := as_i32 0xc000009a.
Definition STATUS_DEVICE_NOT_READY : Z := as_i32 0xc00000a3.
Definition STATUS_NOT_SUPPORTED : Z := as_i32 0xc00000bb.
Definition STATUS_PROCESS_IS_TERMINATING : Z := as_i32 0xc000010a.
Definition STATUS_CANCELLED : Z := as_i32 0xc0000120.
Definition STATUS_COMMITMENT_LIMIT : Z := as_i32 0xc000012d.
Definition STATUS_INVALID_ADDRESS : Z := as_i32 0xc0000141.
Definition STATUS_KEY_HAS_CHILDREN : Z := as_i32 0xc0000180.
Definition STATUS_INVALID_DEVICE_STATE : Z := as_i32 0xc0000184.
Definition STATUS_REPLY_MESSAGE_MISMATCH : Z := as_i32 0xc000021f.
Definition STATUS_NOT_FOUND : Z := as_i32 0xc0000225.
Definition STATUS_PORT_UNREACHABLE : Z := as_i32 0xc000023f.
Definition STATUS_POWER_STATE_INVALID : Z := as_i32 0xc00002d3.
Definition STATUS_DEVICE_HARDWARE_ERROR : Z := as_i32 0xc0000483.
Definition STATUS_PRIVILEGE_NOT_HELD : Z := as_i32 0xc0000061.
Definition STATUS_THREAD_IS_TERMINATING : Z := as_i32 0xc000004b.
Definition STATUS_UNSUCCESSFUL : Z := as_i32 0xc0000001.
Definition STATUS_DELETE_PENDING : Z := as_i32 0xc0000056.
Definition STATUS_DEVICE_BUSY : Z := as_i32 0x80000011.
Definition STATUS_MUTANT_NOT_OWNED : Z := as_i32 0xc0000046.
Definition STATUS_INVALID_BUFFER_SIZE : Z := as_i32 0x80000006.
Definition STATUS_DATATYPE_MISALIGNMENT : Z := as_i32 0x80000002.
Definition STATUS_DEVICE_ALREADY_ATTACHED : Z := as_i32 0xc0000100.

(** Successful or informational status: bit 31 clear. *)
Definition is_success (status : Z) : bool := 0 <=? status.
