(* ===== verification/Object.v ===== *)
(** * The NT object manager ([src/casak/object.rs])

    Typed objects with reference counts, per-process handle tables, handle
    duplication and inheritance, and the case-insensitive [\BaseNamedObjects]
    namespace.  The state is the record [ObjectManager]; every entry point of the
    source is a definition of the same name in the monad of [Prelude].  The
    finalization callback is a closure the manager cannot observe: its invocations
    are recorded in [om_callback_log]. *)

From S2P Require Import Prelude Status.

(** ** Object types and payloads *)

Inductive ObjectType : Type :=
| OtProcess | OtThread | OtFile | OtEvent | OtMutant
| OtSection | OtKey | OtDevice | OtDriver | OtIoCompletion.

#[export] Instance ObjectType_eq_dec : EqDecision ObjectType.
Proof. solve_decision. Defined.

Record ProcessPayload := { pp_process_id : Z; pp_image_name : str; pp_terminated : bool }.
Record ThreadPayload := { tp_thread_id : Z; tp_owner_process_id : Z; tp_suspended : bool }.
Record FilePayload := { fp_path : str; fp_readable : bool; fp_writable : bool; fp_position : Z }.
Record EventPayload := { ev_manual_reset : bool; ev_signaled : bool }.
Record MutantPayload := { mu_owner_thread : option Z; mu_recursion : Z; mu_abandoned : bool }.
Record SectionPayload := { sp_maximum_size : Z; sp_mapped : bool }.
Record KeyPayload := { kp_path : str; kp_values : gmap (list Z) (list Z) }.
Record DevicePayload := { dp_device_name : str }.
Record DriverPayload := { drp_driver_name : str; drp_loaded : bool }.
Record IoCompletionPayload := { ic_queue_depth : Z; ic_pending : Z }.

Inductive ObjectPayload : Type :=
| PlProcess (p : ProcessPayload)
| PlThread (p : ThreadPayload)
| PlFile (p : FilePayload)
| PlEvent (p : EventPayload)
| PlMutant (p : MutantPayload)
| PlSection (p : SectionPayload)
| PlKey (p : KeyPayload)
| PlDevice (p : DevicePayload)
| PlDriver (p : DriverPayload)
| PlIoCompletion (p : IoCompletionPayload).

(** The payload constructors [::new]. *)
Definition new_process_payload (process_id : Z) (image_name : str) : ProcessPayload :=
  {| pp_process_id := process_id; pp_image_name := image_name; pp_terminated := false |}.
Definition new_thread_payload (thread_id owner_process_id : Z) : ThreadPayload :=
  {| tp_thread_id := thread_id; tp_owner_process_id := owner_process_id; tp_suspended := false |}.
Definition new_file_payload (path : str) (readable writable : bool) : FilePayload :=
  {| fp_path := path; fp_readable := readable; fp_writable := writable; fp_position := 0 |}.
Definition new_event_payload (manual_reset signaled : bool) : EventPayload :=
  {| ev_manual_reset := manual_reset; ev_signaled := signaled |}.
Definition new_mutant_payload : MutantPayload :=
  {| mu_owner_thread := None; mu_recursion := 0; mu_abandoned := false |}.
Definition new_section_payload (maximum_size : Z) : SectionPayload :=
  {| sp_maximum_size := maximum_size; sp_mapped := false |}.
Definition new_key_payload (path : str) : KeyPayload :=
  {| kp_path := path; kp_values := ∅ |}.
Definition new_device_payload (device_name : str) : DevicePayload :=
  {| dp_device_name := device_name |}.
Definition new_driver_payload (driver_name : str) : DriverPayload :=
  {| drp_driver_name := driver_name; drp_loaded := true |}.
Definition new_io_completion_payload (queue_depth : Z) : IoCompletionPayload :=
  {| ic_queue_depth := queue_depth; ic_pending := 0 |}.

(** [ObjectPayload::kind] *)
Definition kind (p : ObjectPayload) : ObjectType :=
  match p with
  | PlProcess _ => OtProcess
  | PlThread _ => OtThread
  | PlFile _ => OtFile
  | PlEvent _ => OtEvent
  | PlMutant _ => OtMutant
  | PlSection _ => OtSection
  | PlKey _ => OtKey
  | PlDevice _ => OtDevice
  | PlDriver _ => OtDriver
  | PlIoCompletion _ => OtIoCompletion
  end.

(** ** Access masks *)

Definition GENERIC_READ : Z := 0x80000000.
Definition GENERIC_WRITE : Z := 0x40000000.
Definition GENERIC_ALL : Z := 0x10000000.
Definition DELETE : Z := 0x00010000.
Definition READ_CONTROL : Z := 0x00020000.
Definition WRITE_DAC : Z := 0x00040000.
Definition SYNCHRONIZE : Z := 0x00100000.
Definition FILE_READ_DATA : Z := 0x1.
Definition FILE_WRITE_DATA : Z := 0x2.
Definition FILE_APPEND_DATA : Z := 0x4.
Definition FILE_EXECUTE : Z := 0x20.
Definition EVENT_MODIFY_STATE : Z := 0x2.
Definition EVENT_QUERY_STATE : Z := 0x1.
Definition MUTANT_QUERY_STATE : Z := 0x1.
Definition SECTION_QUERY : Z := 0x1.
Definition SECTION_MAP_WRITE : Z := 0x2.
Definition SECTION_MAP_READ : Z := 0x4.
Definition KEY_QUERY_VALUE : Z := 0x1.
Definition KEY_SET_VALUE : Z := 0x2.
Definition PROCESS_TERMINATE : Z := 0x1.
Definition PROCESS_QUERY_INFORMATION : Z := 0x400.
Definition THREAD_TERMINATE : Z := 0x1.
Definition THREAD_QUERY_INFORMATION : Z := 0x400.
Definition IO_COMPLETION_MODIFY_STATE : Z := 0x2.

Definition specific_read (k : ObjectType) : Z :=
  match k with
  | OtProcess => Z.lor PROCESS_QUERY_INFORMATION SYNCHRONIZE
  | OtThread => Z.lor THREAD_QUERY_INFORMATION SYNCHRONIZE
  | OtFile => Z.lor (Z.lor FILE_READ_DATA FILE_EXECUTE) SYNCHRONIZE
  | OtEvent => Z.lor EVENT_QUERY_STATE SYNCHRONIZE
  | OtMutant => Z.lor MUTANT_QUERY_STATE SYNCHRONIZE
  | OtSection => Z.lor (Z.lor SECTION_QUERY SECTION_MAP_READ) SYNCHRONIZE
  | OtKey => KEY_QUERY_VALUE
  | OtDevice => SYNCHRONIZE
  | OtDriver => SYNCHRONIZE
  | OtIoCompletion => SYNCHRONIZE
  end.

Definition specific_write (k : ObjectType) : Z :=
  match k with
  | OtProcess => PROCESS_TERMINATE
  | OtThread => THREAD_TERMINATE
  | OtFile => Z.lor FILE_WRITE_DATA FILE_APPEND_DATA
  | OtEvent => EVENT_MODIFY_STATE
  | OtMutant => 0
  | OtSection => SECTION_MAP_WRITE
  | OtKey => KEY_SET_VALUE
  | OtDevice => 0
  | OtDriver => 0
  | OtIoCompletion => IO_COMPLETION_MODIFY_STATE
  end.

Definition specific_all (k : ObjectType) : Z :=
  Z.lor (Z.lor (Z.lor (Z.lor (specific_read k) (specific_write k)) DELETE) READ_CONTROL)
        WRITE_DAC.

(** The generic rights the mapping expands. *)
Definition GENERIC_MASK : Z := Z.lor (Z.lor GENERIC_READ GENERIC_WRITE) GENERIC_ALL.

Definition map_generic_access (k : ObjectType) (access : Z) : Z :=
  let expanded := Z.land access (not_u32 GENERIC_MASK) in
  if negb (Z.land access GENERIC_ALL =? 0) then Z.lor expanded (specific_all k)
  else
    let expanded :=
      if negb (Z.land access GENERIC_READ =? 0) then Z.lor expanded (specific_read k)
      else expanded in
    if negb (Z.land access GENERIC_WRITE =? 0) then Z.lor expanded (specific_write k)
    else expanded.

Definition access_granted (granted desired : Z) (k : ObjectType) : bool :=
  let needed := map_generic_access k desired in
  (needed =? 0) || (Z.land granted needed =? needed).

(** ** The object and handle tables *)

Record ObjectEntry := {
  oe_id : Z;
  oe_kind : ObjectType;
  oe_name : option (list Z);
  oe_payload : ObjectPayload;
  oe_ref_count : Z;
}.

Record HandleEntry := {
  he_handle : Z;
  he_object : Z;
  he_access : Z;
  he_inheritable : bool;
}.

Record ProcessHandleTable := {
  pht_next_handle : Z;
  pht_handles : gmap Z HandleEntry;
}.

(** [ProcessHandleTable::new] *)
Definition new_table : ProcessHandleTable := {| pht_next_handle := 4; pht_handles := ∅ |}.

Record ObjectManager := {
  om_objects : gmap Z ObjectEntry;
  om_namespace : gmap (list Z) Z;
  om_processes : gmap Z ProcessHandleTable;
  om_next_object_id : Z;
  om_finalized : Z;
  om_finalized_log : list Z;
  om_on_finalize : bool;
  om_callback_log : list (Z * ObjectType * ObjectPayload);
}.

(** [ObjectManager::new] and [ObjectManager::with_finalizer] *)
Definition new_manager : ObjectManager :=
  {| om_objects := ∅; om_namespace := ∅; om_processes := ∅; om_next_object_id := 1;
     om_finalized := 0; om_finalized_log := []; om_on_finalize := false;
     om_callback_log := [] |}.
Definition with_finalizer : ObjectManager :=
  {| om_objects := ∅; om_namespace := ∅; om_processes := ∅; om_next_object_id := 1;
     om_finalized := 0; om_finalized_log := []; om_on_finalize := true;
     om_callback_log := [] |}.

(** Field updates. *)
Definition set_objects (o : gmap Z ObjectEntry) (s : ObjectManager) : ObjectManager :=
  {| om_objects := o; om_namespace := om_namespace s; om_processes := om_processes s;
     om_next_object_id := om_next_object_id s; om_finalized := om_finalized s;
     om_finalized_log := om_finalized_log s; om_on_finalize := om_on_finalize s;
     om_callback_log := om_callback_log s |}.
Definition set_processes (p : gmap Z ProcessHandleTable) (s : ObjectManager) : ObjectManager :=
  {| om_objects := om_objects s; om_namespace := om_namespace s; om_processes := p;
     om_next_object_id := om_next_object_id s; om_finalized := om_finalized s;
     om_finalized_log := om_finalized_log s; om_on_finalize := om_on_finalize s;
     om_callback_log := om_callback_log s |}.
Definition with_ref_count (n : Z) (e : ObjectEntry) : ObjectEntry :=
  {| oe_id := oe_id e; oe_kind := oe_kind e; oe_name := oe_name e;
     oe_payload := oe_payload e; oe_ref_count := n |}.
Definition with_payload (p : ObjectPayload) (e : ObjectEntry) : ObjectEntry :=
  {| oe_id := oe_id e; oe_kind := oe_kind e; oe_name := oe_name e;
     oe_payload := p; oe_ref_count := oe_ref_count e |}.

Section operations.
Context `{UnicodeLower}.

(** ** Names *)

Definition BASE_NAMED_OBJECTS : str := lit "\BaseNamedObjects\".

Definition normalize_name (name : str) : result (list Z) :=
  let trimmed := trim name in
  if str_is_empty trimmed || str_contains NUL trimmed then Err STATUS_OBJECT_NAME_INVALID
  else if str_contains BACKSLASH trimmed then
    if starts_with BACKSLASH trimmed then Ok trimmed else Ok (BACKSLASH :: trimmed)
  else Ok (BASE_NAMED_OBJECTS ++ trimmed).

Definition name_key (name : str) : str := to_lowercase name.

Definition base_named_objects_path (name : str) : str :=
  match normalize_name name with Ok n => n | Err _ => BASE_NAMED_OBJECTS ++ name end.

(** [Self::normalize_name(name)?] inside an operation *)
Definition normalize_m (name : str) : M ObjectManager (list Z) :=
  λ s, Done (normalize_name name) s.

(** ** Queries *)

Definition object_count (s : ObjectManager) : Z := Z.of_nat (size (om_objects s)).
Definition name_count (s : ObjectManager) : Z := Z.of_nat (size (om_namespace s)).
Definition finalized_count (s : ObjectManager) : Z := om_finalized s.
Definition finalized_log (s : ObjectManager) : list Z := om_finalized_log s.

Definition query_object (id : Z) : M ObjectManager ObjectEntry :=
  o <- gets om_objects ;; ok_or (o !! id) STATUS_INVALID_HANDLE.

Definition ref_count (id : Z) : M ObjectManager Z :=
  e <- query_object id ;; ret (oe_ref_count e).

Definition object_type (id : Z) : M ObjectManager ObjectType :=
  e <- query_object id ;; ret (oe_kind e).

Definition handle_count (process_id : Z) (s : ObjectManager) : Z :=
  match om_processes s !! process_id with
  | Some t => Z.of_nat (size (pht_handles t))
  | None => 0
  end.

(** ** Objects *)

Definition create_object (k : ObjectType) (payload : ObjectPayload) (name : option (list Z))
    : M ObjectManager Z :=
  fail_if (negb (bool_decide (kind payload = k))) STATUS_OBJECT_TYPE_MISMATCH ;;;
  normalized <- match name with
                | Some name =>
                    canonical <- normalize_m name ;;
                    ns <- gets om_namespace ;;
                    fail_if (bool_decide (is_Some (ns !! name_key canonical)))
                      STATUS_OBJECT_NAME_COLLISION ;;;
                    ret (Some canonical)
                | None => ret None
                end ;;
  id <- gets om_next_object_id ;;
  next <- add_at u64_max id 1 ;;
  let entry := {| oe_id := id; oe_kind := k; oe_name := normalized;
                  oe_payload := payload; oe_ref_count := 1 |} in
  modify (λ s,
    {| om_objects := <[id := entry]> (om_objects s);
       om_namespace := match normalized with
                       | Some canonical => <[name_key canonical := id]> (om_namespace s)
                       | None => om_namespace s
                       end;
       om_processes := om_processes s;
       om_next_object_id := next;
       om_finalized := om_finalized s;
       om_finalized_log := om_finalized_log s;
       om_on_finalize := om_on_finalize s;
       om_callback_log := om_callback_log s |}) ;;;
  ret id.

(** [entry.ref_count += 1] on the entry found under [id]. *)
Definition add_reference (id : Z) (e : ObjectEntry) : M ObjectManager unit :=
  n <- add_at u32_max (oe_ref_count e) 1 ;;
  modify (λ s, set_objects (<[id := with_ref_count n e]> (om_objects s)) s).

Definition open_object (name : str) (k : ObjectType) : M ObjectManager Z :=
  canonical <- normalize_m name ;;
  ns <- gets om_namespace ;;
  id <- ok_or (ns !! name_key canonical) STATUS_OBJECT_NAME_NOT_FOUND ;;
  o <- gets om_objects ;;
  entry <- ok_or (o !! id) STATUS_OBJECT_NAME_NOT_FOUND ;;
  fail_if (negb (bool_decide (oe_kind entry = k))) STATUS_OBJECT_TYPE_MISMATCH ;;;
  add_reference id entry ;;;
  ret id.

Definition destroy (id : Z) : M ObjectManager unit :=
  o <- gets om_objects ;;
  match o !! id with
  | Some entry =>
      fin <- gets om_finalized ;;
      fin <- add_at u64_max fin 1 ;;
      modify (λ s,
        {| om_objects := delete id (om_objects s);
           om_namespace := match oe_name entry with
                           | Some name => delete (name_key name) (om_namespace s)
                           | None => om_namespace s
                           end;
           om_processes := om_processes s;
           om_next_object_id := om_next_object_id s;
           om_finalized := fin;
           om_finalized_log := om_finalized_log s ++ [id];
           om_on_finalize := om_on_finalize s;
           om_callback_log :=
             if om_on_finalize s
             then om_callback_log s ++ [(id, oe_kind entry, oe_payload entry)]
             else om_callback_log s |})
  | None => ret tt
  end.

Definition drop_reference (id : Z) : M ObjectManager Z :=
  o <- gets om_objects ;;
  entry <- ok_or (o !! id) STATUS_INVALID_HANDLE ;;
  let remaining := saturating_sub (oe_ref_count entry) 1 in
  modify (λ s, set_objects (<[id := with_ref_count remaining entry]> (om_objects s)) s) ;;;
  (if remaining =? 0 then destroy id else ret tt) ;;;
  ret remaining.

Definition release_object (id : Z) : M ObjectManager Z := drop_reference id.

(** ** Handles *)

Definition grant_handle (process_id object access : Z) (inheritable : bool)
    : M ObjectManager Z :=
  o <- gets om_objects ;;
  entry <- ok_or (o !! object) STATUS_INVALID_HANDLE ;;
  let expanded := map_generic_access (oe_kind entry) access in
  add_reference object entry ;;;
  procs <- gets om_processes ;;
  let table := default new_table (procs !! process_id) in
  let handle := pht_next_handle table in
  next <- add_at u32_max handle 4 ;;
  let he := {| he_handle := handle; he_object := object; he_access := expanded;
               he_inheritable := inheritable |} in
  modify (λ s, set_processes
    (<[process_id := {| pht_next_handle := next;
                        pht_handles := <[handle := he]> (pht_handles table) |}]>
       (om_processes s)) s) ;;;
  ret handle.

Definition lookup_handle (process_id handle : Z) : M ObjectManager HandleEntry :=
  fail_if (handle =? 0) STATUS_INVALID_HANDLE ;;;
  procs <- gets om_processes ;;
  ok_or (t ← procs !! process_id; pht_handles t !! handle) STATUS_INVALID_HANDLE.

Definition require_access (process_id handle desired_access : Z) : M ObjectManager Z :=
  he <- lookup_handle process_id handle ;;
  o <- gets om_objects ;;
  object <- ok_or (o !! he_object he) STATUS_INVALID_HANDLE ;;
  if access_granted (he_access he) desired_access (oe_kind object)
  then ret (he_object he)
  else throw STATUS_ACCESS_DENIED.

Definition duplicate_handle (source_process source_handle target_process desired_access : Z)
    (inheritable : bool) : M ObjectManager Z :=
  entry <- lookup_handle source_process source_handle ;;
  o <- gets om_objects ;;
  object <- ok_or (o !! he_object entry) STATUS_INVALID_HANDLE ;;
  let effective := if desired_access =? 0 then he_access entry
                   else map_generic_access (oe_kind object) desired_access in
  fail_if (negb (access_granted (he_access entry) effective (oe_kind object)))
    STATUS_ACCESS_DENIED ;;;
  grant_handle target_process (he_object entry) effective inheritable.

Definition close_handle (process_id handle : Z) : M ObjectManager unit :=
  procs <- gets om_processes ;;
  match procs !! process_id with
  | Some table =>
      removed <- ok_or (pht_handles table !! handle) STATUS_INVALID_HANDLE ;;
      modify (λ s, set_processes
        (<[process_id := {| pht_next_handle := pht_next_handle table;
                            pht_handles := delete handle (pht_handles table) |}]>
           (om_processes s)) s) ;;;
      drop_reference (he_object removed) ;;;
      ret tt
  | None => throw STATUS_INVALID_HANDLE
  end.

Definition close_process (process_id : Z) : M ObjectManager Z :=
  procs <- gets om_processes ;;
  match procs !! process_id with
  | Some table =>
      let handles := bt_keys (pht_handles table) in
      for_each handles (close_handle process_id) ;;;
      modify (λ s, set_processes (delete process_id (om_processes s)) s) ;;;
      ret (Z.of_nat (length handles))
  | None => ret 0
  end.

Definition inherit_handles (parent child : Z) : M ObjectManager (list Z) :=
  procs <- gets om_processes ;;
  let inheritable :=
    match procs !! parent with
    | Some table =>
        (λ e, (he_object e, he_access e)) <$>
          filter (λ e, he_inheritable e = true) (bt_values (pht_handles table))
    | None => []
    end in
  map_each inheritable (λ oa, grant_handle child oa.1 oa.2 true).

(** ** Events and mutants *)

(** [self.payload_mut(id)?], with the write-back of the mutated payload. *)
Definition payload_mut (id : Z) : M ObjectManager ObjectEntry :=
  o <- gets om_objects ;; ok_or (o !! id) STATUS_INVALID_HANDLE.
Definition store_payload (id : Z) (p : ObjectPayload) (e : ObjectEntry) : M ObjectManager unit :=
  modify (λ s, set_objects (<[id := with_payload p e]> (om_objects s)) s).

Definition set_event (id : Z) : M ObjectManager unit :=
  e <- payload_mut id ;;
  match oe_payload e with
  | PlEvent ev => store_payload id (PlEvent (new_event_payload (ev_manual_reset ev) true)) e
  | _ => throw STATUS_OBJECT_TYPE_MISMATCH
  end.

Definition reset_event (id : Z) : M ObjectManager unit :=
  e <- payload_mut id ;;
  match oe_payload e with
  | PlEvent ev => store_payload id (PlEvent (new_event_payload (ev_manual_reset ev) false)) e
  | _ => throw STATUS_OBJECT_TYPE_MISMATCH
  end.

Definition acquire_mutant (id thread_id : Z) : M ObjectManager bool :=
  e <- payload_mut id ;;
  match oe_payload e with
  | PlMutant m =>
      match mu_owner_thread m with
      | None =>
          store_payload id (PlMutant {| mu_owner_thread := Some thread_id; mu_recursion := 1;
                                        mu_abandoned := false |}) e ;;;
          ret true
      | Some owner =>
          if owner =? thread_id then
            r <- add_at u32_max (mu_recursion m) 1 ;;
            store_payload id (PlMutant {| mu_owner_thread := Some owner; mu_recursion := r;
                                          mu_abandoned := mu_abandoned m |}) e ;;;
            ret true
          else ret false
      end
  | _ => throw STATUS_OBJECT_TYPE_MISMATCH
  end.

Definition release_mutant (id thread_id : Z) : M ObjectManager unit :=
  e <- payload_mut id ;;
  match oe_payload e with
  | PlMutant m =>
      match mu_owner_thread m with
      | Some owner =>
          if owner =? thread_id then
            if 1 <? mu_recursion m then
              store_payload id (PlMutant {| mu_owner_thread := Some owner;
                                            mu_recursion := mu_recursion m - 1;
                                            mu_abandoned := mu_abandoned m |}) e
            else
              store_payload id (PlMutant {| mu_owner_thread := None; mu_recursion := 0;
                                            mu_abandoned := mu_abandoned m |}) e
          else throw STATUS_ACCESS_DENIED
      | None => throw STATUS_MUTANT_NOT_OWNED
      end
  | _ => throw STATUS_OBJECT_TYPE_MISMATCH
  end.
End operations.
