(* ===== verification/ObjectFacts.v ===== *)
(** * Correctness of the object manager

    The reference-count discipline of [Object]: a step relation over the manager
    and the references its clients own, the invariant every step keeps, and the
    theorems drawn from it. *)

From S2P Require Import Prelude Status Object.

(** ** Counting the handles that refer to an object *)

Definition refers (id : Z) (he : HandleEntry) : Z := if he_object he =? id then 1 else 0.
Definition table_refs (id : Z) (t : ProcessHandleTable) : Z :=
  map_sum (λ _ he, refers id he) (pht_handles t).
Definition handle_refs (id : Z) (procs : gmap Z ProcessHandleTable) : Z :=
  map_sum (λ _ t, table_refs id t) procs.

Lemma refers_nonneg id he : 0 ≤ refers id he.
Proof. unfold refers. case_match; lia. Qed.

Lemma table_refs_nonneg id t : 0 ≤ table_refs id t.
Proof. apply map_sum_nonneg. intros. apply refers_nonneg. Qed.

Lemma handle_refs_nonneg id procs : 0 ≤ handle_refs id procs.
Proof. apply map_sum_nonneg. intros. apply table_refs_nonneg. Qed.

#[export] Hint Resolve refers_nonneg table_refs_nonneg handle_refs_nonneg : casak.

Lemma table_refs_elem id t h he :
  pht_handles t !! h = Some he → he_object he = id → 1 ≤ table_refs id t.
Proof.
  intros Hh <-. transitivity (refers (he_object he) he).
  - unfold refers. by rewrite Z.eqb_refl.
  - apply (map_sum_elem_le (λ _ he', refers (he_object he) he') _ h he); [|done].
    intros. apply refers_nonneg.
Qed.

Lemma handle_refs_table id procs pid t :
  procs !! pid = Some t → table_refs id t ≤ handle_refs id procs.
Proof.
  intros Ht. apply (map_sum_elem_le (λ _ t, table_refs id t) _ pid); [|done].
  intros. apply table_refs_nonneg.
Qed.

Lemma handle_refs_update id procs pid t' :
  handle_refs id (<[pid:=t']> procs) =
  handle_refs id procs - table_refs id (default new_table (procs !! pid)) + table_refs id t'.
Proof.
  unfold handle_refs. destruct (procs !! pid) as [t|] eqn:E; simpl.
  - by apply (map_sum_update (λ _ t, table_refs id t)).
  - rewrite map_sum_insert by done. assert (table_refs id new_table = 0) as -> by done. lia.
Qed.

Lemma handle_refs_delete id procs pid t :
  procs !! pid = Some t → handle_refs id (delete pid procs) = handle_refs id procs - table_refs id t.
Proof.
  intros Ht. unfold handle_refs.
  rewrite (map_sum_delete (λ _ t, table_refs id t) procs pid t Ht). lia.
Qed.

(** ** Clients and steps

    [ext id] is the number of references to [id] the clients own: creating or
    opening an object hands one out, [release_object] gives one back and may only
    be called by a client that owns one. *)

Definition credit (r : result Z) (ext : Z → Z) : Z → Z :=
  match r with
  | Ok id => λ i, if i =? id then ext i + 1 else ext i
  | Err _ => ext
  end.
Definition debit (id : Z) (ext : Z → Z) : Z → Z :=
  λ i, if i =? id then ext i - 1 else ext i.

Section facts.
Context `{UnicodeLower}.

Inductive step (ext : Z → Z) (s : ObjectManager) : (Z → Z) → ObjectManager → Prop :=
| step_create k p n r s' :
    create_object k p n s = Done r s' → step ext s (credit r ext) s'
| step_open n k r s' :
    open_object n k s = Done r s' → step ext s (credit r ext) s'
| step_release id r s' :
    0 < ext id → release_object id s = Done r s' → step ext s (debit id ext) s'
| step_grant pid id access inh r s' :
    grant_handle pid id access inh s = Done r s' → step ext s ext s'
| step_duplicate sp sh tp access inh r s' :
    duplicate_handle sp sh tp access inh s = Done r s' → step ext s ext s'
| step_close pid h r s' :
    close_handle pid h s = Done r s' → step ext s ext s'
| step_close_process pid r s' :
    close_process pid s = Done r s' → step ext s ext s'
| step_inherit parent child r s' :
    inherit_handles parent child s = Done r s' → step ext s ext s'
| step_set_event id r s' : set_event id s = Done r s' → step ext s ext s'
| step_reset_event id r s' : reset_event id s = Done r s' → step ext s ext s'
| step_acquire id tid r s' : acquire_mutant id tid s = Done r s' → step ext s ext s'
| step_release_mutant id tid r s' : release_mutant id tid s = Done r s' → step ext s ext s'.

Inductive reachable : (Z → Z) → ObjectManager → Prop :=
| reachable_new : reachable (λ _, 0) new_manager
| reachable_finalizer : reachable (λ _, 0) with_finalizer
| reachable_step ext s ext' s' : reachable ext s → step ext s ext' s' → reachable ext' s'.

(** ** The invariant *)

Definition entry_ok (ext : Z → Z) (s : ObjectManager) (id : Z) (e : ObjectEntry) : Prop :=
  oe_id e = id ∧ 1 ≤ id < om_next_object_id s ∧ kind (oe_payload e) = oe_kind e ∧
  0 ≤ ext id ∧ 1 ≤ oe_ref_count e ≤ u32_max ∧
  oe_ref_count e = ext id + handle_refs id (om_processes s).

Definition handle_ok (t : ProcessHandleTable) (h : Z) (he : HandleEntry) : Prop :=
  he_handle he = h ∧ 4 ≤ h < pht_next_handle t ∧ h mod 4 = 0 ∧
  0 ≤ he_access he ≤ u32_max ∧ Z.land (he_access he) GENERIC_MASK = 0.

Definition table_ok (t : ProcessHandleTable) : Prop :=
  4 ≤ pht_next_handle t ≤ u32_max ∧ pht_next_handle t mod 4 = 0 ∧
  ∀ h he, pht_handles t !! h = Some he → handle_ok t h he.

Record Inv (ext : Z → Z) (s : ObjectManager) : Prop := {
  inv_live : ∀ id e, om_objects s !! id = Some e → entry_ok ext s id e;
  inv_dead : ∀ id, om_objects s !! id = None →
    ext id = 0 ∧ handle_refs id (om_processes s) = 0;
  inv_names : ∀ k id, om_namespace s !! k = Some id ↔
    ∃ e n, om_objects s !! id = Some e ∧ oe_name e = Some n ∧ name_key n = k;
  inv_tables : ∀ pid t, om_processes s !! pid = Some t → table_ok t;
  inv_log : NoDup (om_finalized_log s) ∧
    (∀ id, id ∈ om_finalized_log s ↔
       1 ≤ id < om_next_object_id s ∧ om_objects s !! id = None);
  inv_count : om_finalized s = Z.of_nat (length (om_finalized_log s)) ∧
    om_finalized s + Z.of_nat (size (om_objects s)) = om_next_object_id s - 1 ∧
    om_next_object_id s ≤ u64_max;
  inv_callback : (om_callback_log s).*1.*1 =
    if om_on_finalize s then om_finalized_log s else [];
}.

Lemma inv_new : Inv (λ _, 0) new_manager.
Proof.
  split; simpl; try done.
  - intros k id. rewrite lookup_empty. split; [done|].
    intros (e & n & He & _). by rewrite lookup_empty in He.
  - split; [constructor|]. intros id. rewrite elem_of_nil. lia.
Qed.

Lemma inv_with_finalizer : Inv (λ _, 0) with_finalizer.
Proof. destruct inv_new. by split. Qed.

Lemma inv_ext_eq ext ext' s : (∀ i, ext i = ext' i) → Inv ext s → Inv ext' s.
Proof.
  intros Heq []. split; try done.
  - intros id e He. unfold entry_ok. rewrite <-Heq. by apply inv_live0.
  - intros id. rewrite <-Heq. auto.
Qed.

(** Replacing the entry of a live object. *)
Lemma inv_update_entry ext ext' s id e e' :
  Inv ext s → om_objects s !! id = Some e →
  oe_id e' = oe_id e → oe_kind e' = oe_kind e → oe_name e' = oe_name e →
  kind (oe_payload e') = oe_kind e' → 1 ≤ oe_ref_count e' ≤ u32_max → 0 ≤ ext' id →
  oe_ref_count e' - ext' id = oe_ref_count e - ext id →
  (∀ i, i ≠ id → ext' i = ext i) →
  Inv ext' (set_objects (<[id:=e']> (om_objects s)) s).
Proof.
  intros HI He Hid Hk Hn Hp Hr Hx Hrx Hne. destruct HI. split; simpl; try done.
  - intros i f. rewrite lookup_insert. case_decide as Hi; subst.
    + intros [= <-]. destruct (inv_live0 _ _ He) as (?&?&?&?&?&?).
      repeat split; simpl; try done; try lia; congruence.
    + intros Hf. destruct (inv_live0 _ _ Hf) as (?&?&?&?&?&?).
      unfold entry_ok; simpl. rewrite (Hne i) by done. naive_solver.
  - intros i. rewrite lookup_insert. case_decide as Hi; [done|].
    rewrite (Hne i) by done. apply inv_dead0.
  - intros k i. rewrite inv_names0. split.
    + intros (f & n & Hf & Hfn & Hkey). rewrite lookup_insert.
      case_decide as Hi; subst; [|by eauto].
      rewrite He in Hf. simplify_eq. exists e', n. by rewrite Hn.
    + intros (f & n & Hf & Hfn & Hkey). rewrite lookup_insert in Hf.
      case_decide as Hi; simplify_eq; [|by eauto]. exists e, n. by rewrite <-Hn.
  - destruct inv_log0 as [Hnd Hlog]. split; [done|]. intros i. rewrite Hlog, lookup_insert.
    case_decide; simplify_eq; [|done]. naive_solver.
  - rewrite map_size_insert_Some; eauto.
Qed.

(** Moving references between the clients and the handle tables. *)
Lemma inv_set_processes ext ext' s procs :
  Inv ext s →
  (∀ id, ext' id + handle_refs id procs = ext id + handle_refs id (om_processes s)) →
  (∀ id, 0 ≤ ext' id) →
  (∀ pid t, procs !! pid = Some t → table_ok t) →
  Inv ext' (set_processes procs s).
Proof.
  intros HI Hsum Hpos Ht. destruct HI. split; simpl; try done.
  - intros i f Hf. destruct (inv_live0 _ _ Hf) as (?&?&?&?&?&?).
    specialize (Hsum i). unfold entry_ok; simpl. split_and!; auto; lia.
  - intros i Hi. destruct (inv_dead0 _ Hi) as [Hx Hh].
    specialize (Hsum i). specialize (Hpos i). pose proof (handle_refs_nonneg i procs). lia.
Qed.

Lemma inv_ext_nonneg ext s id : Inv ext s → 0 ≤ ext id.
Proof.
  intros HI. destruct (om_objects s !! id) as [e|] eqn:E.
  - by destruct (inv_live _ _ HI _ _ E) as (?&?&?&?&?).
  - destruct (inv_dead _ _ HI _ E) as [-> _]. done.
Qed.

Lemma inv_owned_live ext s id : Inv ext s → 0 < ext id → ∃ e, om_objects s !! id = Some e.
Proof.
  intros HI Hx. destruct (om_objects s !! id) as [e|] eqn:E; [by eauto|].
  destruct (inv_dead _ _ HI _ E). lia.
Qed.

Lemma inv_handle_live ext s pid t h he :
  Inv ext s → om_processes s !! pid = Some t → pht_handles t !! h = Some he →
  ∃ e, om_objects s !! he_object he = Some e.
Proof.
  intros HI Ht Hh. destruct (om_objects s !! he_object he) as [e|] eqn:E; [by eauto|].
  destruct (inv_dead _ _ HI _ E) as [_ Hd].
  pose proof (table_refs_elem _ _ _ _ Hh eq_refl).
  pose proof (handle_refs_table (he_object he) _ _ _ Ht). lia.
Qed.

(** ** The steps one by one *)

Lemma add_reference_spec ext s id e r s' :
  Inv ext s → om_objects s !! id = Some e → add_reference id e s = Done r s' →
  r = Ok tt ∧ Inv (credit (Ok id) ext) s' ∧
  s' = set_objects (<[id := with_ref_count (oe_ref_count e + 1) e]> (om_objects s)) s.
Proof.
  intros HI He Hr. unfold add_reference in Hr. msplit. bool_prop.
  split; [done|]. split; [|done].
  destruct (inv_live _ _ HI _ _ He) as (?&?&?&?&?&?).
  apply (inv_update_entry ext _ s id e); simpl; try done; try lia.
  all: intros; rewrite ?Z.eqb_refl; try lia.
  by rewrite (proj2 (Z.eqb_neq _ _)).
Qed.

(** Removing an object whose only reference was the client's. *)
Definition destroyed (id : Z) (e : ObjectEntry) (s : ObjectManager) : ObjectManager :=
  {| om_objects := delete id (om_objects s);
     om_namespace := match oe_name e with
                     | Some name => delete (name_key name) (om_namespace s)
                     | None => om_namespace s
                     end;
     om_processes := om_processes s;
     om_next_object_id := om_next_object_id s;
     om_finalized := om_finalized s + 1;
     om_finalized_log := om_finalized_log s ++ [id];
     om_on_finalize := om_on_finalize s;
     om_callback_log := if om_on_finalize s
                        then om_callback_log s ++ [(id, oe_kind e, oe_payload e)]
                        else om_callback_log s |}.

Lemma destroyed_names ext s id e :
  Inv ext s → om_objects s !! id = Some e → ∀ k i,
  om_namespace (destroyed id e s) !! k = Some i ↔
  ∃ f n, om_objects (destroyed id e s) !! i = Some f ∧ oe_name f = Some n ∧ name_key n = k.
Proof.
  intros HI He k i. pose proof (inv_names _ _ HI) as Hn. simpl. split.
  - intros Hk.
    assert (om_namespace s !! k = Some i) as Hk0.
    { destruct (oe_name e); [by apply lookup_delete_Some in Hk as [_ ?]|done]. }
    apply Hn in Hk0 as (f & n & Hf & Hfn & Hkey). exists f, n.
    split; [|done]. apply lookup_delete_Some. split; [|done]. intros <-.
    simplify_eq. rewrite Hfn in Hk. by rewrite lookup_delete_eq in Hk.
  - intros (f & n & [Hne Hf]%lookup_delete_Some & Hfn & Hkey).
    assert (om_namespace s !! k = Some i) as Hki by (apply Hn; eauto).
    destruct (oe_name e) as [m|] eqn:Em; [|done]. apply lookup_delete_Some.
    split; [|done]. intros Hmk.
    assert (om_namespace s !! k = Some id) by (apply Hn; eauto). congruence.
Qed.

Lemma inv_destroyed ext s id e :
  Inv ext s → om_objects s !! id = Some e → ext id = 1 → oe_ref_count e = 1 →
  Inv (debit id ext) (destroyed id e s).
Proof.
  intros HI He Hx Hr. pose proof (destroyed_names _ _ _ _ HI He) as Hnames.
  destruct HI. destruct (inv_live0 _ _ He) as (?&?&?&?&?&?). unfold debit.
  split; simpl; try done.
  - intros i f [Hne Hf]%lookup_delete_Some. unfold entry_ok; simpl.
    rewrite (proj2 (Z.eqb_neq i id)) by done. by apply inv_live0.
  - intros i Hi. destruct (Z.eqb_spec i id) as [->|Hne]; [lia|].
    rewrite lookup_delete_ne in Hi by done. by apply inv_dead0.
  - destruct inv_log0 as [Hnd Hlog]. split.
    + apply NoDup_app. split_and!; [done| |apply NoDup_singleton].
      intros i Hi ->%list_elem_of_singleton. apply Hlog in Hi. naive_solver.
    + intros i. rewrite elem_of_app, list_elem_of_singleton, Hlog.
      rewrite lookup_delete_None. split; [|naive_solver].
      intros [?| ->]; naive_solver lia.
  - rewrite length_app; simpl. rewrite map_size_delete_Some by eauto.
    assert (size (om_objects s) ≠ 0%nat).
    { intros E0%map_size_empty_inv. by rewrite E0 in He. }
    lia.
  - destruct (om_on_finalize s); [|done]. by rewrite !fmap_app, inv_callback0.
Qed.

Lemma drop_reference_spec ext s id e :
  Inv ext s → 0 < ext id → om_objects s !! id = Some e →
  ∃ s', drop_reference id s = Done (Ok (oe_ref_count e - 1)) s' ∧ Inv (debit id ext) s' ∧
    om_processes s' = om_processes s ∧
    s' = (if oe_ref_count e =? 1
          then destroyed id (with_ref_count 0 e)
                 (set_objects (<[id := with_ref_count 0 e]> (om_objects s)) s)
          else set_objects (<[id := with_ref_count (oe_ref_count e - 1) e]> (om_objects s)) s).
Proof.
  intros HI Hx He. destruct (inv_live _ _ HI _ _ He) as (?&?&?&?&Hrc&?).
  destruct (inv_count _ _ HI) as (Hf1&Hf2&Hf3).
  pose proof (handle_refs_nonneg id (om_processes s)).
  unfold drop_reference, destroy. mrun. rewrite He. mrun.
  assert (saturating_sub (oe_ref_count e) 1 = oe_ref_count e - 1) as ->
    by (unfold saturating_sub; lia).
  assert (size (om_objects s) ≠ 0%nat).
  { intros E0%map_size_empty_inv. by rewrite E0 in He. }
  destruct (Z.eqb_spec (oe_ref_count e) 1) as [E1|E1].
  - rewrite E1. simpl. rewrite lookup_insert_eq. mrun. simpl.
    rewrite (proj2 (Z.leb_le _ _)) by (unfold u64_max in *; lia). mrun.
    eexists. split; [done|]. split; [|done].
    assert (ext id = 1) by lia.
    assert (Inv (debit id ext) (destroyed id e s)) as HI' by (by apply inv_destroyed).
    unfold destroyed in *; simpl. rewrite delete_insert_eq. exact HI'.
  - rewrite (proj2 (Z.eqb_neq _ _)) by lia. mrun.
    eexists. split; [done|]. split; [|done].
    apply (inv_update_entry ext _ s id e); simpl; try done; try lia; unfold debit.
    + rewrite Z.eqb_refl. lia.
    + rewrite Z.eqb_refl. lia.
    + intros i Hi. by rewrite (proj2 (Z.eqb_neq i id)).
Qed.

(** A fresh handle takes over a client's reference. *)
Lemma inv_insert_handle ext s pid he :
  let t := default new_table (om_processes s !! pid) in
  let h := pht_next_handle t in
  Inv ext s → 0 < ext (he_object he) →
  he_handle he = h → h + 4 ≤ u32_max →
  0 ≤ he_access he ≤ u32_max → Z.land (he_access he) GENERIC_MASK = 0 →
  Inv (debit (he_object he) ext)
    (set_processes (<[pid := {| pht_next_handle := h + 4;
                                pht_handles := <[h := he]> (pht_handles t) |}]>
                      (om_processes s)) s).
Proof.
  intros t h HI Hx Hh Hmax Hacc Hgen.
  assert (table_ok t) as (Hb & Hm & Hall).
  { subst t. destruct (om_processes s !! pid) eqn:E; simpl; [by eapply inv_tables|].
    unfold table_ok; simpl. split_and!; try done. }
  assert (pht_handles t !! h = None) as Hfresh.
  { destruct (pht_handles t !! h) eqn:E; [|done].
    destruct (Hall _ _ E) as (_ & ? & _). subst h. lia. }
  apply (inv_set_processes ext); [done| | |].
  - intros i. rewrite handle_refs_update. fold t. unfold debit, table_refs at 2. simpl.
    rewrite map_sum_insert by done. fold (table_refs i t). unfold refers.
    rewrite Z.eqb_sym. destruct (Z.eqb_spec (he_object he) i); lia.
  - intros i. unfold debit. pose proof (inv_ext_nonneg _ _ i HI).
    destruct (Z.eqb_spec i (he_object he)) as [->|]; lia.
  - intros q t'. rewrite lookup_insert. case_decide; [|by apply inv_tables with (1 := HI)].
    intros [= <-]. unfold table_ok; simpl. fold h in Hm.
    split; [subst h; lia|]. split.
    { rewrite <-Z.add_mod_idemp_l, Hm by lia. done. }
    intros g ge. rewrite lookup_insert. case_decide; [intros [= <-]|].
    + subst g. unfold handle_ok; simpl. split_and!; try done; subst h; lia.
    + intros Hg. destruct (Hall _ _ Hg) as (?&?&?&?&?).
      unfold handle_ok; simpl. split_and!; try done; subst h; lia.
Qed.

(** Removing a handle hands its reference back to the caller. *)
Lemma inv_remove_handle ext s pid t h he :
  Inv ext s → om_processes s !! pid = Some t → pht_handles t !! h = Some he →
  Inv (credit (Ok (he_object he)) ext)
    (set_processes (<[pid := {| pht_next_handle := pht_next_handle t;
                                pht_handles := delete h (pht_handles t) |}]>
                      (om_processes s)) s).
Proof.
  intros HI Ht Hh. destruct (inv_tables _ _ HI _ _ Ht) as (Hb & Hm & Hall).
  apply (inv_set_processes ext); [done| | |].
  - intros i. rewrite handle_refs_update, Ht. simpl. unfold table_refs at 2. simpl.
    assert (table_refs i t = refers i he + map_sum (λ _ he, refers i he) (delete h (pht_handles t)))
      as E by (by apply (map_sum_delete (λ _ he, refers i he))).
    unfold refers in E at 1. rewrite Z.eqb_sym in E.
    destruct (Z.eqb_spec i (he_object he)); lia.
  - intros i. pose proof (inv_ext_nonneg _ _ i HI). simpl. case_match; lia.
  - intros q t'. rewrite lookup_insert. case_decide; [|by apply inv_tables with (1 := HI)].
    intros [= <-]. split_and!; simpl; try done; try lia.
    intros g ge [_ Hg]%lookup_delete_Some. by apply Hall.
Qed.

Lemma debit_credit id ext i : debit id (credit (Ok id) ext) i = ext i.
Proof. unfold debit. simpl. case_match; lia. Qed.

Lemma map_generic_no_generic k access : Z.land (map_generic_access k access) GENERIC_MASK = 0.
Proof.
  unfold map_generic_access.
  assert (Z.land (Z.land access (not_u32 GENERIC_MASK)) GENERIC_MASK = 0) as E.
  { rewrite <-Z.land_assoc. change (Z.land (not_u32 GENERIC_MASK) GENERIC_MASK) with 0.
    apply Z.land_0_r. }
  repeat case_match; rewrite ?Z.land_lor_distr_l, E; by destruct k.
Qed.

Lemma map_generic_range k access : 0 ≤ map_generic_access k access ≤ u32_max.
Proof.
  cut (0 ≤ map_generic_access k access < 2 ^ 32); [unfold u32_max; lia|].
  assert (0 ≤ Z.land access (not_u32 GENERIC_MASK) < 2 ^ 32) by (by apply land_bounded).
  unfold map_generic_access.
  repeat case_match; repeat apply lor_bounded; try done; by destruct k.
Qed.

Lemma grant_handle_spec ext s pid id access inh r s' :
  Inv ext s → grant_handle pid id access inh s = Done r s' →
  Inv ext s' ∧
  match r with
  | Err st => s' = s ∧ st = STATUS_INVALID_HANDLE ∧ om_objects s !! id = None
  | Ok h => ∃ e t',
      om_objects s !! id = Some e ∧
      om_objects s' = <[id := with_ref_count (oe_ref_count e + 1) e]> (om_objects s) ∧
      h = pht_next_handle (default new_table (om_processes s !! pid)) ∧
      om_processes s' = <[pid := t']> (om_processes s) ∧
      t' = {| pht_next_handle := h + 4;
              pht_handles :=
                <[h := {| he_handle := h; he_object := id;
                          he_access := map_generic_access (oe_kind e) access;
                          he_inheritable := inh |}]>
                  (pht_handles (default new_table (om_processes s !! pid))) |}
  end.
Proof.
  intros HI Hr. unfold grant_handle in Hr. mrun.
  destruct (om_objects s !! id) as [e|] eqn:He; mrun; [|simplify_eq; by auto].
  destruct (add_reference id e s) as [ra sa|] eqn:Ha; [|done].
  destruct (add_reference_spec _ _ _ _ _ _ HI He Ha) as (-> & HIa & Hsa). mrun.
  destruct (pht_next_handle _ + 4 <=? u32_max) eqn:Hb; [|done]. mrun. simplify_eq. bool_prop.
  split; [|by eexists _, _].
  eapply inv_ext_eq; [|apply (inv_insert_handle _ _ pid
    {| he_handle := _; he_object := id; he_access := map_generic_access (oe_kind e) access;
       he_inheritable := inh |} HIa)]; simpl; try done.
  - intros i. apply debit_credit.
  - rewrite Z.eqb_refl. pose proof (inv_ext_nonneg _ _ id HI). lia.
  - apply map_generic_range.
  - apply map_generic_no_generic.
Qed.

Lemma close_handle_spec ext s pid h r s' :
  Inv ext s → close_handle pid h s = Done r s' →
  Inv ext s' ∧
  match om_processes s !! pid with
  | Some t =>
      match pht_handles t !! h with
      | Some he => r = Ok tt ∧
          om_processes s' = <[pid := {| pht_next_handle := pht_next_handle t;
                                        pht_handles := delete h (pht_handles t) |}]>
                              (om_processes s)
      | None => r = Err STATUS_INVALID_HANDLE ∧ s' = s
      end
  | None => r = Err STATUS_INVALID_HANDLE ∧ s' = s
  end.
Proof.
  intros HI Hr. unfold close_handle in Hr. mrun.
  destruct (om_processes s !! pid) as [t|] eqn:Ht; mrun; [|by simplify_eq].
  destruct (pht_handles t !! h) as [he|] eqn:Hh; mrun; [|by simplify_eq].
  pose proof (inv_remove_handle _ _ _ _ _ _ HI Ht Hh) as HI1.
  destruct (inv_handle_live _ _ _ _ _ _ HI Ht Hh) as [e He].
  edestruct (drop_reference_spec _ _ (he_object he) e HI1) as (s2 & Hd & HI2 & Hp & _).
  { simpl. rewrite Z.eqb_refl. pose proof (inv_ext_nonneg _ _ (he_object he) HI). lia. }
  { done. }
  rewrite Hd in Hr. mrun. simplify_eq. split; [|done].
  eapply inv_ext_eq; [|exact HI2]. intros i. apply debit_credit.
Qed.

(** In a state of the invariant a close never panics. *)
Lemma close_handle_total ext s pid h :
  Inv ext s → ∃ r s', close_handle pid h s = Done r s'.
Proof.
  intros HI. unfold close_handle. mrun.
  destruct (om_processes s !! pid) as [t|] eqn:Ht; mrun; [|by eauto].
  destruct (pht_handles t !! h) as [he|] eqn:Hh; mrun; [|by eauto].
  pose proof (inv_remove_handle _ _ _ _ _ _ HI Ht Hh) as HI1.
  destruct (inv_handle_live _ _ _ _ _ _ HI Ht Hh) as [e He].
  edestruct (drop_reference_spec _ _ (he_object he) e HI1) as (s2 & Hd & _).
  { simpl. rewrite Z.eqb_refl. pose proof (inv_ext_nonneg _ _ (he_object he) HI). lia. }
  { done. }
  rewrite Hd. mrun. eauto.
Qed.

(** The loop of [close_process]: the handles visited are gone, the others and the
    other processes are untouched. *)
Lemma close_all_spec ext pid t s :
  Inv ext s → om_processes s !! pid = Some t →
  wp (for_each (bt_keys (pht_handles t)) (close_handle pid)) s (λ r s',
    r = Ok tt ∧ Inv ext s' ∧
    (∃ t', om_processes s' !! pid = Some t' ∧ pht_handles t' = ∅) ∧
    delete pid (om_processes s') = delete pid (om_processes s)).
Proof.
  intros HI Ht. eapply wp_mono.
  { apply (wp_for_each (λ done s',
      Inv ext s' ∧ delete pid (om_processes s') = delete pid (om_processes s) ∧
      ∃ t', om_processes s' !! pid = Some t' ∧
        ∀ h, pht_handles t' !! h = if decide (h ∈ done) then None else pht_handles t !! h)).
    - split_and!; [done|done|]. exists t. split; [done|]. intros h.
      case_decide as Hn; [|done]. by apply not_elem_of_nil in Hn.
    - intros done h rest s1 Hl (HI1 & Hd & t1 & Ht1 & Hh).
      destruct (close_handle_total ext s1 pid h HI1) as (r & s2 & Hc).
      eapply wp_done; [done|].
      destruct (close_handle_spec _ _ _ _ _ _ HI1 Hc) as [HI2 Hs2]. rewrite Ht1, Hh in Hs2.
      assert (NoDup (done ++ h :: rest)) as Hnd by (rewrite <-Hl; apply NoDup_bt_keys).
      apply NoDup_app in Hnd as (_ & Hnot & _).
      rewrite decide_False in Hs2 by (intros Hin; eapply Hnot; [done|by left]).
      assert (is_Some (pht_handles t !! h)) as [he Hhe].
      { apply elem_of_bt_keys. rewrite Hl. apply elem_of_app. right. by left. }
      rewrite Hhe in Hs2. destruct Hs2 as [-> Hp]. split; [done|]. split_and!; [done| |].
      + by rewrite Hp, delete_insert_eq.
      + rewrite Hp, lookup_insert_eq. eexists. split; [done|]. intros g. simpl.
        rewrite lookup_delete, Hh. repeat case_decide; set_solver. }
  intros r s' (-> & HI' & Hd & t' & Ht' & Hh). split_and!; try done. exists t'. split; [done|].
  apply map_eq. intros h. rewrite Hh, lookup_empty. case_decide as Hn; [done|].
  destruct (pht_handles t !! h) eqn:E; [|done]. exfalso. apply Hn, elem_of_bt_keys. eauto.
Qed.

Lemma close_process_spec ext s pid :
  Inv ext s →
  wp (close_process pid) s (λ r s',
    Inv ext s' ∧ r = Ok (handle_count pid s) ∧
    om_processes s' = delete pid (om_processes s)).
Proof.
  intros HI. unfold close_process, handle_count. unfold wp. mrun.
  destruct (om_processes s !! pid) as [t|] eqn:Ht; mrun.
  - pose proof (close_all_spec _ _ _ _ HI Ht) as Hc. unfold wp in Hc.
    destruct (for_each _ _ s) as [r s1|]; [|done].
    destruct Hc as (-> & HI1 & (t' & Ht' & He) & Hd). mrun.
    rewrite length_bt_keys. split_and!; [|done|done].
    apply (inv_set_processes ext); [done| | |].
    + intros i. rewrite (handle_refs_delete _ _ _ _ Ht'). unfold table_refs. rewrite He.
      change (map_sum (λ _ he, refers i he) (∅ : gmap Z HandleEntry)) with 0. lia.
    + intros i. by apply (inv_ext_nonneg _ s1).
    + intros q t2 [_ Hq]%lookup_delete_Some. by eapply inv_tables.
  - split_and!; try done. by rewrite delete_id.
Qed.

(** A fresh object, owned once by its creator. *)
Lemma inv_create ext s k p (n : option (list Z)) :
  let id := om_next_object_id s in
  let entry := {| oe_id := id; oe_kind := k; oe_name := n; oe_payload := p; oe_ref_count := 1 |} in
  Inv ext s → kind p = k → id + 1 ≤ u64_max →
  (∀ c, n = Some c → om_namespace s !! name_key c = None) →
  Inv (credit (Ok id) ext)
    {| om_objects := <[id := entry]> (om_objects s);
       om_namespace := match n with
                       | Some c => <[name_key c := id]> (om_namespace s)
                       | None => om_namespace s
                       end;
       om_processes := om_processes s; om_next_object_id := id + 1;
       om_finalized := om_finalized s; om_finalized_log := om_finalized_log s;
       om_on_finalize := om_on_finalize s; om_callback_log := om_callback_log s |}.
Proof.
  intros id entry HI Hk Hmax Hfree.
  assert (om_objects s !! id = None) as Hnone.
  { destruct (om_objects s !! id) eqn:E; [|done].
    destruct (inv_live _ _ HI _ _ E) as (_ & ? & _). subst id. lia. }
  pose proof HI as [Hlive Hdead Hnames Htab [Hnd Hlog] (Hc1 & Hc2 & Hc3) Hcb].
  destruct (Hdead _ Hnone) as [Hx0 Hh0].
  split; simpl; try done.
  - intros i e. unfold entry_ok; simpl. rewrite lookup_insert. case_decide as Hi.
    + intros [= <-]. subst i. rewrite Z.eqb_refl. simpl. split_and!; try done; subst id; try lia.
    + intros He. rewrite (proj2 (Z.eqb_neq i id)) by done.
      destruct (Hlive _ _ He) as (?&?&?&?&?&?). split_and!; try done; subst id; lia.
  - intros i Hi. apply lookup_insert_None in Hi as [Hi Hne].
    rewrite (proj2 (Z.eqb_neq i id)) by done. by apply Hdead.
  - intros key i. transitivity (∃ e m,
      <[id:=entry]> (om_objects s) !! i = Some e ∧ oe_name e = Some m ∧ name_key m = key); [|done].
    destruct n as [c|].
    + rewrite lookup_insert. case_decide as Hck.
      * split.
        -- intros [= <-]. exists entry, c. by rewrite lookup_insert_eq.
        -- intros (e & m & He & Hm & Hkey). rewrite lookup_insert in He.
           case_decide; [congruence|]. exfalso.
           assert (om_namespace s !! key = Some i) by (apply Hnames; eauto).
           rewrite <-Hck, (Hfree c) in *; done.
      * rewrite Hnames. split; intros (e & m & He & Hm & Hkey); exists e, m.
        -- rewrite lookup_insert_ne; [done|congruence].
        -- rewrite lookup_insert in He. case_decide; simplify_eq/=; done.
    + rewrite Hnames. split; intros (e & m & He & Hm & Hkey); exists e, m.
      * rewrite lookup_insert_ne; [done|congruence].
      * rewrite lookup_insert in He. case_decide; simplify_eq/=; done.
  - split; [done|]. intros i. rewrite Hlog, lookup_insert_None. subst id. naive_solver lia.
  - rewrite map_size_insert_None by done. subst id. lia.
Qed.

Lemma create_object_spec ext s k p n r s' :
  Inv ext s → create_object k p n s = Done r s' →
  Inv (credit r ext) s' ∧
  match r with
  | Err _ => s' = s
  | Ok id =>
      id = om_next_object_id s ∧ kind p = k ∧
      ∃ c, om_objects s' = <[id := {| oe_id := id; oe_kind := k; oe_name := c;
                                      oe_payload := p; oe_ref_count := 1 |}]> (om_objects s) ∧
      match n, c with
      | None, None => om_namespace s' = om_namespace s
      | Some name, Some canonical =>
          normalize_name name = Ok canonical ∧
          om_namespace s !! name_key canonical = None ∧
          om_namespace s' = <[name_key canonical := id]> (om_namespace s)
      | _, _ => False
      end
  end.
Proof.
  intros HI Hr. unfold create_object, normalize_m in Hr. mrun.
  destruct (bool_decide (kind p = k)) eqn:Hk; mrun; [|by simplify_eq]. bool_prop.
  destruct n as [name|]; mrun.
  - destruct (normalize_name name) as [c|] eqn:Hn; mrun; [|by simplify_eq].
    destruct (bool_decide _) eqn:Hns; mrun; [by simplify_eq|]. bool_prop.
    apply eq_None_not_Some in Hns.
    destruct (_ <=? u64_max) eqn:Hmax; [|done]. mrun. simplify_eq. bool_prop. split.
    + by apply (inv_create ext s (kind p) p (Some c) HI); [| |intros ? [= <-]].
    + split_and!; try done. by exists (Some c).
  - destruct (_ <=? u64_max) eqn:Hmax; [|done]. mrun. simplify_eq. bool_prop. split.
    + by apply (inv_create ext s (kind p) p None HI).
    + split_and!; try done. by exists None.
Qed.

Lemma open_object_spec ext s n k r s' :
  Inv ext s → open_object n k s = Done r s' →
  Inv (credit r ext) s' ∧
  match r with
  | Err _ => s' = s
  | Ok id => ∃ c e, normalize_name n = Ok c ∧ om_namespace s !! name_key c = Some id ∧
      om_objects s !! id = Some e ∧ oe_kind e = k ∧
      s' = set_objects (<[id := with_ref_count (oe_ref_count e + 1) e]> (om_objects s)) s
  end.
Proof.
  intros HI Hr. unfold open_object, normalize_m in Hr. mrun.
  destruct (normalize_name n) as [c|] eqn:Hn; mrun; [|by simplify_eq].
  destruct (om_namespace s !! name_key c) as [id|] eqn:Hid; mrun; [|by simplify_eq].
  destruct (om_objects s !! id) as [e|] eqn:He; mrun; [|by simplify_eq].
  destruct (bool_decide (oe_kind e = k)) eqn:Hk; mrun; [|by simplify_eq]. bool_prop.
  destruct (add_reference id e s) as [ra sa|] eqn:Ha; [|done].
  destruct (add_reference_spec _ _ _ _ _ _ HI He Ha) as (-> & HIa & Hsa). mrun. simplify_eq.
  split; [done|]. by eexists _, _.
Qed.

Lemma lookup_handle_Done pid h s r s' :
  lookup_handle pid h s = Done r s' →
  s' = s ∧ match r with
           | Ok he => h ≠ 0 ∧ ∃ t, om_processes s !! pid = Some t ∧ pht_handles t !! h = Some he
           | Err st => st = STATUS_INVALID_HANDLE
           end.
Proof.
  unfold lookup_handle. mrun. destruct (h =? 0) eqn:E; mrun; [by intros [= <- <-]|].
  bool_prop. destruct (om_processes s !! pid) as [t|] eqn:Et; simpl; [|by intros [= <- <-]].
  destruct (pht_handles t !! h) eqn:Eh; simpl; intros [= <- <-]; eauto.
Qed.

Lemma duplicate_handle_inv ext s sp sh tp acc inh r s' :
  Inv ext s → duplicate_handle sp sh tp acc inh s = Done r s' → Inv ext s'.
Proof.
  intros HI Hr. unfold duplicate_handle in Hr. mrun.
  destruct (lookup_handle sp sh s) as [[he|] s1|] eqn:Hl;
    [|by apply lookup_handle_Done in Hl as [-> _]; simplify_eq|done].
  apply lookup_handle_Done in Hl as [-> _]. mrun.
  destruct (om_objects s !! he_object he) as [e|] eqn:He; mrun; [|by simplify_eq].
  destruct (negb _); mrun; [by simplify_eq|].
  by apply (grant_handle_spec ext) in Hr as [? _].
Qed.

Lemma map_each_grant_inv ext child l s r s' :
  Inv ext s →
  map_each l (λ oa : Z * Z, grant_handle child oa.1 oa.2 true) s = Done r s' → Inv ext s'.
Proof.
  revert s r s'. induction l as [|[o a] l IH]; intros s r s' HI Hr; simpl in Hr; [by simplify_eq|].
  destruct (grant_handle child o a true s) as [r1 s1|] eqn:Hg; [|done].
  apply (grant_handle_spec ext) in Hg as [HI1 _]; [|done].
  destruct r1; mrun; [|by simplify_eq].
  destruct (map_each l _ s1) as [r2 s2|] eqn:Hm; [|done].
  specialize (IH _ _ _ HI1 Hm). destruct r2; mrun; by simplify_eq.
Qed.

Lemma store_payload_inv ext s id e p r s' :
  Inv ext s → om_objects s !! id = Some e → kind p = kind (oe_payload e) →
  store_payload id p e s = Done r s' → Inv ext s'.
Proof.
  intros HI He Hk [= <- <-]. destruct (inv_live _ _ HI _ _ He) as (?&?&Hp&?&?&?).
  apply (inv_update_entry ext ext s id e); simpl; try done. by rewrite Hk.
Qed.

Lemma payload_step_inv ext s id A (f : ObjectEntry → M ObjectManager A) r s' :
  Inv ext s → bind (payload_mut id) f s = Done r s' →
  (∀ e, om_objects s !! id = Some e → f e s = Done r s' → Inv ext s') → Inv ext s'.
Proof.
  intros HI Hr Hf. unfold payload_mut in Hr. mrun.
  destruct (om_objects s !! id) as [e|]; mrun; [by apply (Hf e)|by simplify_eq].
Qed.

Ltac payload_step :=
  match goal with
  | HI : Inv ?ext ?s, Hr : _ ?s = Done _ _ |- Inv ?ext _ =>
      apply (payload_step_inv ext s _ _ _ _ _ HI Hr); clear Hr;
      let e := fresh "e" in let He := fresh "He" in
      intros e He Hf; destruct (oe_payload e) eqn:Hp; try (by simplify_eq/=);
      unfold store_payload in Hf; msplit; simplify_eq;
      first [done | eapply (store_payload_inv ext s _ e); [done|done| |reflexivity]; by rewrite Hp]
  end.

Lemma step_inv ext s ext' s' : Inv ext s → step ext s ext' s' → Inv ext' s'.
Proof.
  intros HI Hs. destruct Hs as [k p n r s' Hr|n k r s' Hr|id r s' Hx Hr|pid id acc inh r s' Hr
    |sp sh tp acc inh r s' Hr|pid h r s' Hr|pid r s' Hr|parent child r s' Hr
    |id r s' Hr|id r s' Hr|id tid r s' Hr|id tid r s' Hr].
  - by apply (create_object_spec ext) in Hr as [? _].
  - by apply (open_object_spec ext) in Hr as [? _].
  - destruct (inv_owned_live _ _ _ HI Hx) as [e He].
    destruct (drop_reference_spec _ _ _ _ HI Hx He) as (s2 & Hd & ? & _).
    unfold release_object in Hr. rewrite Hd in Hr. by simplify_eq.
  - by apply (grant_handle_spec ext) in Hr as [? _].
  - by eapply duplicate_handle_inv.
  - by apply (close_handle_spec ext) in Hr as [? _].
  - eapply (wp_elim (close_process pid)) in Hr; [|by apply (close_process_spec ext)].
    by destruct Hr.
  - unfold inherit_handles in Hr. mrun. by eapply map_each_grant_inv.
  - unfold set_event in Hr. payload_step.
  - unfold reset_event in Hr. payload_step.
  - unfold acquire_mutant in Hr. payload_step.
  - unfold release_mutant in Hr. payload_step.
Qed.

Lemma reachable_inv ext s : reachable ext s → Inv ext s.
Proof.
  induction 1; [apply inv_new|apply inv_with_finalizer|by eapply step_inv].
Qed.
#[local] Hint Resolve reachable_inv : casak.

(** ** What the invariant gives *)

(** C1 - Reference counts are exact: in every reachable state the count stored
    with a live object is the number of references its clients own plus the number
    of handles of all processes that refer to it, it is at least one and fits
    [u32]; an object that is not live is referred to by nobody. *)
Theorem refcounts_exact ext s :
  reachable ext s →
  (∀ id e, om_objects s !! id = Some e →
     oe_ref_count e = ext id + handle_refs id (om_processes s) ∧
     1 ≤ oe_ref_count e ≤ u32_max) ∧
  (∀ id, om_objects s !! id = None → ext id = 0 ∧ handle_refs id (om_processes s) = 0).
Proof.
  intros HI%reachable_inv. split; [|apply (inv_dead _ _ HI)].
  intros id e He. by destruct (inv_live _ _ HI _ _ He) as (?&?&?&?&?&?).
Qed.

(** C2 - Finalization happens exactly once per object: the log has no duplicates,
    it lists precisely the identifiers handed out whose object is gone, the counter
    is its length, and a manager with a finalizer has invoked it for exactly these
    objects in this order. *)
Theorem finalized_exactly_once ext s :
  reachable ext s →
  NoDup (finalized_log s) ∧
  (∀ id, id ∈ finalized_log s ↔ 1 ≤ id < om_next_object_id s ∧ om_objects s !! id = None) ∧
  finalized_count s = Z.of_nat (length (finalized_log s)) ∧
  finalized_count s + object_count s = om_next_object_id s - 1 ∧
  (om_callback_log s).*1.*1 = (if om_on_finalize s then finalized_log s else []).
Proof.
  intros HI%reachable_inv. destruct (inv_log _ _ HI), (inv_count _ _ HI) as (?&?&?).
  pose proof (inv_callback _ _ HI). done.
Qed.

(** Giving back a reference: the count goes down by one and the object stays
    while somebody refers to it; the last reference removes the object and its name
    and appends it to the finalization log.  No other object changes, and no handle
    table does. *)
Theorem release_object_correct ext s id e :
  reachable ext s → 0 < ext id → om_objects s !! id = Some e →
  ∃ s', release_object id s = Done (Ok (oe_ref_count e - 1)) s' ∧
    om_processes s' = om_processes s ∧
    if oe_ref_count e =? 1
    then om_objects s' = delete id (om_objects s) ∧
         (∀ k, om_namespace s' !! k ≠ Some id) ∧
         finalized_log s' = finalized_log s ++ [id]
    else om_objects s' = <[id := with_ref_count (oe_ref_count e - 1) e]> (om_objects s) ∧
         om_namespace s' = om_namespace s ∧ finalized_log s' = finalized_log s.
Proof.
  intros HI%reachable_inv Hx He.
  destruct (drop_reference_spec _ _ _ _ HI Hx He) as (s' & Hd & HI' & Hp & Hs').
  exists s'. split_and!; [done|done|].
  destruct (oe_ref_count e =? 1) eqn:E; subst s'; [|done]. split_and!; [|intros k Hk|done].
  - simpl. apply delete_insert_eq.
  - apply (inv_names _ _ HI') in Hk as (f & n & Hf & _). simpl in Hf.
    by rewrite lookup_delete_eq in Hf.
Qed.

(** Handles never dangle and access checks are decided by the granted mask:
    for every open handle the object exists and [require_access] answers with the
    object exactly when every right of the expanded request was granted, with
    [STATUS_ACCESS_DENIED] otherwise, without changing the state. *)
Theorem require_access_decides ext s pid t h he desired :
  reachable ext s → om_processes s !! pid = Some t → pht_handles t !! h = Some he →
  ∃ e, om_objects s !! he_object he = Some e ∧
    require_access pid h desired s =
      Done (if decide (bits_within (map_generic_access (oe_kind e) desired) (he_access he))
            then Ok (he_object he) else Err STATUS_ACCESS_DENIED) s.
Proof.
  intros HI%reachable_inv Ht Hh.
  destruct (inv_handle_live _ _ _ _ _ _ HI Ht Hh) as [e He]. exists e. split; [done|].
  destruct (inv_tables _ _ HI _ _ Ht) as (_ & _ & Hall).
  destruct (Hall _ _ Hh) as (_ & Hpos & _).
  unfold require_access, lookup_handle. mrun. rewrite (proj2 (Z.eqb_neq h 0)) by lia. mrun.
  rewrite Ht. simpl. rewrite Hh. mrun. rewrite He. mrun. unfold access_granted, bits_within.
  rewrite (Z.land_comm (he_access he)). case_decide as Hd.
  - by rewrite (proj2 (Z.eqb_eq _ _) Hd), orb_true_r.
  - rewrite (proj2 (Z.eqb_neq _ _) Hd).
    destruct (map_generic_access (oe_kind e) desired =? 0) eqn:E0; [|done].
    apply Z.eqb_eq in E0. by rewrite E0 in Hd.
Qed.

(** Duplication never amplifies rights: a duplicate refers to the same object,
    carries only rights the source handle carries, and leaves the source handle in
    place. *)
Theorem duplicate_no_amplification ext s sp sh tp acc inh h s' :
  reachable ext s → duplicate_handle sp sh tp acc inh s = Done (Ok h) s' →
  ∃ st he tt' he',
    om_processes s !! sp = Some st ∧ pht_handles st !! sh = Some he ∧
    om_processes s' !! tp = Some tt' ∧ pht_handles tt' !! h = Some he' ∧
    he_object he' = he_object he ∧ bits_within (he_access he') (he_access he) ∧
    (∃ st', om_processes s' !! sp = Some st' ∧ pht_handles st' !! sh = Some he).
Proof.
  intros HI%reachable_inv Hr. unfold duplicate_handle in Hr. mrun.
  destruct (lookup_handle sp sh s) as [[he|] s1|] eqn:Hl; try done.
  apply lookup_handle_Done in Hl as [-> (Hz & st & Hst & Hhe)]. mrun.
  destruct (om_objects s !! he_object he) as [e|] eqn:He; mrun; [|done].
  destruct (access_granted _ _ _) eqn:Hg; mrun; [|done].
  apply (grant_handle_spec ext) in Hr as [_ (e' & t' & He' & _ & Hh & Hp & Ht')]; [|done].
  rewrite He in He'. simplify_eq. eexists st, he, _, _.
  rewrite Hp, lookup_insert_eq.
  split; [done|]. split; [done|]. split; [done|].
  split; [simpl; apply lookup_insert_eq|]. split_and!; [done| |].
  - unfold access_granted in Hg. apply orb_true_iff in Hg as [Hg%Z.eqb_eq|Hg%Z.eqb_eq].
    + simpl. by rewrite Hg.
    + unfold bits_within. simpl. by rewrite Z.land_comm.
  - rewrite lookup_insert. case_decide as Htp; [|by eauto]. subst tp. eexists. split; [done|].
    simpl. rewrite Hst. simpl. rewrite lookup_insert_ne; [done|].
    destruct (inv_tables _ _ HI _ _ Hst) as (_ & _ & Hall). destruct (Hall _ _ Hhe). lia.
Qed.

(** Process rundown closes every handle of the process: the call does not
    panic and reports how many there were, the handle table is gone, and each
    object loses exactly the references the table held, objects held by nobody else
    being finalized. *)
Theorem close_process_rundown ext s pid t :
  reachable ext s → om_processes s !! pid = Some t →
  ∃ s', close_process pid s = Done (Ok (handle_count pid s)) s' ∧
    om_processes s' = delete pid (om_processes s) ∧
    ∀ id e, om_objects s !! id = Some e →
      if oe_ref_count e =? table_refs id t
      then om_objects s' !! id = None
      else ∃ e', om_objects s' !! id = Some e' ∧
                 oe_ref_count e' = oe_ref_count e - table_refs id t.
Proof.
  intros HI%reachable_inv Ht.
  destruct (wp_inv _ _ _ (close_process_spec _ _ pid HI)) as (r & s' & Hc & HI' & -> & Hp).
  exists s'. split_and!; [done|done|]. intros id e He.
  destruct (inv_live _ _ HI _ _ He) as (_&_&_&_&_&Hrc).
  pose proof (handle_refs_delete id _ _ _ Ht) as Hd. rewrite <-Hp in Hd.
  destruct (om_objects s' !! id) as [e'|] eqn:He'.
  - destruct (inv_live _ _ HI' _ _ He') as (_&_&_&_&?&Hrc').
    rewrite (proj2 (Z.eqb_neq _ _)) by lia. exists e'. split; [done|lia].
  - destruct (inv_dead _ _ HI' _ He'). by rewrite (proj2 (Z.eqb_eq _ _)) by lia.
Qed.

(** The named namespace is a case-insensitive map: after a named object is
    created, opening any name with the same canonical key yields that object, or a
    type mismatch when another type is asked for, and creating under such a name
    collides. *)
Theorem create_open_roundtrip ext s k p n c id s' n' c' :
  reachable ext s → normalize_name n = Ok c →
  create_object k p (Some n) s = Done (Ok id) s' →
  normalize_name n' = Ok c' → name_key c' = name_key c →
  (∃ s'', open_object n' k s' = Done (Ok id) s'') ∧
  (∀ k', k' ≠ k → open_object n' k' s' = Done (Err STATUS_OBJECT_TYPE_MISMATCH) s') ∧
  (∀ p', create_object (kind p') p' (Some n') s' = Done (Err STATUS_OBJECT_NAME_COLLISION) s').
Proof.
  intros HI%reachable_inv Hn Hc Hn' Hkey.
  apply (create_object_spec ext) in Hc as [HI' (Hid & Hk & c0 & Ho & Hns)]; [|done].
  destruct c0 as [c0|]; [|done]. destruct Hns as (Hc0 & Hfree & Hns).
  rewrite Hn in Hc0. simplify_eq.
  assert (om_namespace s' !! name_key c' = Some (om_next_object_id s)) as Hid.
  { by rewrite Hns, Hkey, lookup_insert_eq. }
  unfold open_object, create_object, normalize_m. rewrite Hn'. mrun.
  split_and!.
  - rewrite Hid. mrun. rewrite Ho, lookup_insert_eq. mrun.
    rewrite bool_decide_true by done. mrun. unfold add_reference. mrun. eauto.
  - intros k' Hk'. rewrite Hid. mrun. rewrite Ho, lookup_insert_eq. mrun.
    by rewrite bool_decide_false by (simpl; congruence).
  - intros p'. rewrite bool_decide_true by done. mrun. by rewrite bool_decide_true by eauto.
Qed.

Definition as_mutant (id : Z) (e : ObjectEntry) (m : MutantPayload) (s : ObjectManager) :=
  set_objects (<[id := with_payload (PlMutant m) e]> (om_objects s)) s.

Lemma as_mutant_store id e m m' s :
  set_objects (<[id := with_payload (PlMutant m') (with_payload (PlMutant m) e)]>
    (om_objects (as_mutant id e m s))) (as_mutant id e m s) = as_mutant id e m' s.
Proof. unfold as_mutant, set_objects; simpl. by rewrite insert_insert_eq. Qed.

Lemma as_mutant_lookup id e m s :
  om_objects (as_mutant id e m s) !! id = Some (with_payload (PlMutant m) e).
Proof. apply lookup_insert_eq. Qed.

Lemma acquire_step id e m s tid :
  om_objects s !! id = Some e →
  (mu_owner_thread m = None ∨ mu_owner_thread m = Some tid ∧ mu_recursion m < u32_max) →
  acquire_mutant id tid (as_mutant id e m s) =
    Done (Ok true) (as_mutant id e
      match mu_owner_thread m with
      | None => {| mu_owner_thread := Some tid; mu_recursion := 1; mu_abandoned := false |}
      | Some _ => {| mu_owner_thread := Some tid; mu_recursion := mu_recursion m + 1;
                     mu_abandoned := mu_abandoned m |}
      end s).
Proof.
  intros He Hm. unfold acquire_mutant, payload_mut, store_payload. mrun.
  rewrite as_mutant_lookup. mrun. cbn [oe_payload with_payload].
  destruct Hm as [->|[-> Hlt]]; mrun; [by rewrite as_mutant_store|].
  rewrite Z.eqb_refl. mrun. rewrite (proj2 (Z.leb_le _ _)) by lia. mrun.
  by rewrite as_mutant_store.
Qed.

Lemma release_step id e m s tid :
  mu_owner_thread m = Some tid →
  release_mutant id tid (as_mutant id e m s) =
    Done (Ok tt) (as_mutant id e
      (if 1 <? mu_recursion m
       then {| mu_owner_thread := Some tid; mu_recursion := mu_recursion m - 1;
               mu_abandoned := mu_abandoned m |}
       else {| mu_owner_thread := None; mu_recursion := 0; mu_abandoned := mu_abandoned m |}) s).
Proof.
  intros Hm. unfold release_mutant, payload_mut, store_payload. mrun.
  rewrite as_mutant_lookup. mrun. cbn [oe_payload with_payload]. rewrite Hm, Z.eqb_refl.
  destruct (1 <? mu_recursion m); mrun; by rewrite as_mutant_store.
Qed.

Lemma acquire_times id e s tid n r :
  om_objects s !! id = Some e → 1 ≤ r → r + Z.of_nat n ≤ u32_max →
  times n (acquire_mutant id tid)
    (as_mutant id e {| mu_owner_thread := Some tid; mu_recursion := r; mu_abandoned := false |} s) =
  Done (Ok tt) (as_mutant id e
    {| mu_owner_thread := Some tid; mu_recursion := r + Z.of_nat n; mu_abandoned := false |} s).
Proof.
  revert r. induction n as [|n IH]; intros r He Hr Hmax; simpl.
  - by rewrite Z.add_0_r.
  - rewrite (acquire_step id e _ s tid He) by (right; simpl; split; [done|lia]). simpl.
    rewrite IH by (done || lia).
    by replace (r + 1 + Z.of_nat n) with (r + Z.of_nat (Datatypes.S n)) by lia.
Qed.

Lemma release_times id e s tid n :
  times (Datatypes.S n) (release_mutant id tid)
    (as_mutant id e {| mu_owner_thread := Some tid; mu_recursion := Z.of_nat n + 1;
                       mu_abandoned := false |} s) =
  Done (Ok tt) (as_mutant id e
    {| mu_owner_thread := None; mu_recursion := 0; mu_abandoned := false |} s).
Proof.
  induction n as [|n IH].
  - simpl. by rewrite release_step.
  - change (times (Datatypes.S (Datatypes.S n)) (release_mutant id tid))
      with (bind (release_mutant id tid) (λ _, times (Datatypes.S n) (release_mutant id tid))).
    mrun. rewrite release_step by done. cbn [mu_recursion mu_abandoned].
    rewrite (proj2 (Z.ltb_lt _ _)) by lia.
    replace (Z.of_nat (Datatypes.S n) + 1 - 1) with (Z.of_nat n + 1) by lia. exact IH.
Qed.

(** Mutants are recursive locks: after a thread has acquired a free mutant
    [n + 1] times no other thread can acquire or release it, the owner's [n + 1]
    releases succeed and free it again, and one more release reports
    [STATUS_MUTANT_NOT_OWNED]. *)
Theorem mutant_recursive_lock id e s tid other a n :
  om_objects s !! id = Some e → other ≠ tid → Z.of_nat n < u32_max →
  let at_depth r owner := {| mu_owner_thread := owner; mu_recursion := r; mu_abandoned := false |} in
  let free := as_mutant id e {| mu_owner_thread := None; mu_recursion := 0; mu_abandoned := a |} s in
  let held := as_mutant id e (at_depth (Z.of_nat n + 1) (Some tid)) s in
  let freed := as_mutant id e (at_depth 0 None) s in
  times (Datatypes.S n) (acquire_mutant id tid) free = Done (Ok tt) held ∧
  acquire_mutant id other held = Done (Ok false) held ∧
  release_mutant id other held = Done (Err STATUS_ACCESS_DENIED) held ∧
  times (Datatypes.S n) (release_mutant id tid) held = Done (Ok tt) freed ∧
  release_mutant id tid freed = Done (Err STATUS_MUTANT_NOT_OWNED) freed.
Proof.
  intros He Hne Hn at_depth free held freed. split_and!.
  - simpl. unfold free. rewrite (acquire_step id e _ s tid He) by (by left). simpl.
    rewrite acquire_times by (done || lia).
    by rewrite Z.add_comm.
  - unfold held, acquire_mutant, payload_mut. mrun. rewrite as_mutant_lookup. mrun.
    cbn [oe_payload with_payload mu_owner_thread at_depth]. by rewrite (proj2 (Z.eqb_neq tid other)) by done.
  - unfold held, release_mutant, payload_mut. mrun. rewrite as_mutant_lookup. mrun.
    cbn [oe_payload with_payload mu_owner_thread at_depth]. by rewrite (proj2 (Z.eqb_neq tid other)) by done.
  - apply release_times.
  - unfold freed, release_mutant, payload_mut. mrun. by rewrite as_mutant_lookup.
Qed.
End facts.

(** ** A concrete run

    An event named [Evt] is created, granted to process 4 and duplicated into
    process 8; the witnesses evaluate the theorems on it. *)

Definition demo_name : str := lit "Evt".
Definition demo_payload : ObjectPayload := PlEvent (new_event_payload true false).
Definition demo_created : ObjectManager := Eval vm_compute in
  state_of (@create_object ascii_tables OtEvent demo_payload (Some demo_name) with_finalizer)
    with_finalizer.
Definition demo_granted : ObjectManager := Eval vm_compute in
  state_of (grant_handle 4 1 GENERIC_ALL true demo_created) demo_created.
Definition demo_duplicated : ObjectManager := Eval vm_compute in
  state_of (duplicate_handle 4 4 8 GENERIC_READ true demo_granted) demo_granted.
Definition demo_ext : Z → Z := credit (Ok 1) (λ _, 0).

Lemma demo_created_reachable : @reachable ascii_tables demo_ext demo_created.
Proof.
  eapply reachable_step; [apply reachable_finalizer|].
  by apply (@step_create ascii_tables _ _ OtEvent demo_payload (Some demo_name) (Ok 1)).
Qed.

Lemma demo_granted_reachable : @reachable ascii_tables demo_ext demo_granted.
Proof.
  eapply reachable_step; [apply demo_created_reachable|].
  by apply (@step_grant ascii_tables _ _ 4 1 GENERIC_ALL true (Ok 4)).
Qed.

Lemma demo_duplicated_reachable : @reachable ascii_tables demo_ext demo_duplicated.
Proof.
  eapply reachable_step; [apply demo_granted_reachable|].
  by apply (@step_duplicate ascii_tables _ _ 4 4 8 GENERIC_READ true (Ok 4)).
Qed.

Lemma refcounts_exact_witness :
  ∃ e, om_objects demo_duplicated !! 1 = Some e ∧ oe_ref_count e = 3 ∧
    oe_ref_count e = demo_ext 1 + handle_refs 1 (om_processes demo_duplicated).
Proof.
  eexists. split; [reflexivity|]. split; [reflexivity|].
  apply (proj1 (@refcounts_exact ascii_tables _ _ demo_duplicated_reachable)). reflexivity.
Defined.

Lemma finalized_exactly_once_witness :
  NoDup (finalized_log demo_duplicated) ∧ finalized_count demo_duplicated = 0.
Proof.
  split; [|reflexivity].
  apply (@finalized_exactly_once ascii_tables _ _ demo_duplicated_reachable).
Defined.

Lemma release_object_correct_witness :
  ∃ s', @release_object ascii_tables 1 demo_created = Done (Ok 0) s' ∧
    om_objects s' = delete 1 (om_objects demo_created).
Proof.
  destruct (@release_object_correct ascii_tables demo_ext demo_created 1
    {| oe_id := 1; oe_kind := OtEvent; oe_name := Some (lit "\BaseNamedObjects\Evt");
       oe_payload := demo_payload; oe_ref_count := 1 |}
    demo_created_reachable) as (s' & Hs' & _ & Ho & _); [reflexivity|reflexivity|].
  exists s'. split; [exact Hs'|exact Ho].
Defined.

Lemma require_access_decides_witness :
  ∃ r, require_access 8 4 GENERIC_WRITE demo_duplicated = Done r demo_duplicated ∧
    r = Err STATUS_ACCESS_DENIED.
Proof.
  destruct (@require_access_decides ascii_tables demo_ext demo_duplicated 8
    {| pht_next_handle := 8; pht_handles := {[ 4 := {| he_handle := 4; he_object := 1;
         he_access := 0x100001; he_inheritable := true |} ]} |} 4
    {| he_handle := 4; he_object := 1; he_access := 0x100001; he_inheritable := true |}
    GENERIC_WRITE demo_duplicated_reachable) as (e & He & Hr); [reflexivity|reflexivity|].
  eexists. split; [exact Hr|]. injection He as <-. reflexivity.
Defined.

Lemma duplicate_no_amplification_witness :
  ∃ he', he_object he' = 1 ∧ bits_within (he_access he') 0x170003.
Proof.
  destruct (@duplicate_no_amplification ascii_tables demo_ext demo_granted 4 4 8 GENERIC_READ
    true 4 demo_duplicated demo_granted_reachable)
    as (st & he & tt' & he' & Hst & Hhe & _ & _ & Ho & Ha & _); [reflexivity|].
  injection Hst as <-. injection Hhe as <-. exists he'. split; [exact Ho|exact Ha].
Defined.

Lemma close_process_rundown_witness :
  ∃ s', @close_process ascii_tables 8 demo_duplicated = Done (Ok 1) s' ∧
    om_processes s' = delete 8 (om_processes demo_duplicated).
Proof.
  destruct (@close_process_rundown ascii_tables demo_ext demo_duplicated 8
    {| pht_next_handle := 8; pht_handles := {[ 4 := {| he_handle := 4; he_object := 1;
         he_access := 0x100001; he_inheritable := true |} ]} |} demo_duplicated_reachable)
    as (s' & Hs' & Hp & _); [reflexivity|].
  exists s'. split; [exact Hs'|exact Hp].
Defined.

Lemma create_open_roundtrip_witness :
  ∃ s'', @open_object ascii_tables (lit "\basenamedobjects\EVT") OtEvent demo_created
           = Done (Ok 1) s''.
Proof.
  apply (@create_open_roundtrip ascii_tables (λ _, 0) with_finalizer OtEvent demo_payload
    demo_name (lit "\BaseNamedObjects\Evt") 1 demo_created (lit "\basenamedobjects\EVT")
    (lit "\basenamedobjects\EVT")); [apply reachable_finalizer|reflexivity..].
Defined.

Definition demo_mutant : ObjectManager := Eval vm_compute in
  state_of (@create_object ascii_tables OtMutant (PlMutant new_mutant_payload) None new_manager)
    new_manager.
Definition demo_mutant_entry : ObjectEntry :=
  {| oe_id := 1; oe_kind := OtMutant; oe_name := None; oe_payload := PlMutant new_mutant_payload;
     oe_ref_count := 1 |}.

Lemma mutant_recursive_lock_witness :
  let held := as_mutant 1 demo_mutant_entry {| mu_owner_thread := Some 7;
                mu_recursion := Z.of_nat 2 + 1; mu_abandoned := false |} demo_mutant in
  om_objects demo_mutant !! 1 = Some demo_mutant_entry ∧
  release_mutant 1 9 held = Done (Err STATUS_ACCESS_DENIED) held.
Proof.
  split; [reflexivity|].
  destruct (mutant_recursive_lock 1 demo_mutant_entry demo_mutant 7 9 false 2)
    as (_ & _ & Hr & _); [reflexivity|lia|reflexivity|exact Hr].
Defined.
