(* ===== verification/Exec.v ===== *)
(** * Executive support primitives ([src/casak/exec.rs])

    The tagged pool, the lookaside list and the DPC queue.  A heap buffer
    [Box<[u8]>] is its address and length: the facilities never read its bytes.
    The address of a fresh buffer is chosen by the host allocator and is an
    argument ([ptr]) of the allocating operations.  A deferred call is named by a
    number and its invocations are recorded in the queue's log. *)

From S2P Require Import Prelude Status.

(** A pool tag is its four bytes. *)
Definition PoolTag : Type := Z * Z * Z * Z.

Record Buffer := { buf_ptr : Z; buf_len : Z }.

Module TaggedPool.

Record PoolBlock := { pb_ptr : Z; pb_size : Z; pb_tag : PoolTag }.
Record TagStats := { ts_bytes : Z; ts_count : Z }.
Definition no_stats : TagStats := {| ts_bytes := 0; ts_count := 0 |}.

Record TaggedPool := {
  pool_budget : Z;
  pool_used : Z;
  pool_peak : Z;
  pool_allocations : Z;
  pool_frees : Z;
  pool_tag_stats : gmap PoolTag TagStats;
  pool_live : gmap Z (PoolBlock * Buffer);
}.

Definition new (budget : Z) : TaggedPool :=
  {| pool_budget := budget; pool_used := 0; pool_peak := 0; pool_allocations := 0;
     pool_frees := 0; pool_tag_stats := ∅; pool_live := ∅ |}.

Definition live_count (p : TaggedPool) : Z := Z.of_nat (size (pool_live p)).
Definition tag_stats (tag : PoolTag) (p : TaggedPool) : TagStats :=
  default no_stats (pool_tag_stats p !! tag).

Definition allocate (ptr : Z) (tag : PoolTag) (size : Z) : M TaggedPool PoolBlock :=
  let size := Z.max size 1 in
  used <- gets pool_used ;;
  budget <- gets pool_budget ;;
  fail_if (budget <? saturating_add usize_max used size) STATUS_INSUFFICIENT_RESOURCES ;;;
  capacity size ;;;
  let block := {| pb_ptr := ptr; pb_size := size; pb_tag := tag |} in
  let buffer := {| buf_ptr := ptr; buf_len := size |} in
  used' <- add_at usize_max used size ;;
  n <- gets pool_allocations ;;
  n' <- add_at usize_max n 1 ;;
  stats <- gets (tag_stats tag) ;;
  bytes <- add_at usize_max (ts_bytes stats) size ;;
  count <- add_at usize_max (ts_count stats) 1 ;;
  modify (λ p,
    {| pool_budget := pool_budget p;
       pool_used := used';
       pool_peak := Z.max (pool_peak p) used';
       pool_allocations := n';
       pool_frees := pool_frees p;
       pool_tag_stats := <[tag := {| ts_bytes := bytes; ts_count := count |}]> (pool_tag_stats p);
       pool_live := <[ptr := (block, buffer)]> (pool_live p) |}) ;;;
  ret block.

Definition set_live (l : gmap Z (PoolBlock * Buffer)) (p : TaggedPool) : TaggedPool :=
  {| pool_budget := pool_budget p; pool_used := pool_used p; pool_peak := pool_peak p;
     pool_allocations := pool_allocations p; pool_frees := pool_frees p;
     pool_tag_stats := pool_tag_stats p; pool_live := l |}.

Definition free (block : PoolBlock) : M TaggedPool unit :=
  live <- gets pool_live ;;
  ' (stored, buffer) <- ok_or (live !! pb_ptr block) STATUS_INVALID_ADDRESS ;;
  modify (set_live (delete (pb_ptr block) live)) ;;;
  if negb (pb_size stored =? pb_size block) || negb (bool_decide (pb_tag stored = pb_tag block))
  then
    modify (λ p, set_live (<[pb_ptr stored := (stored, buffer)]> (pool_live p)) p) ;;;
    throw STATUS_INVALID_ADDRESS
  else
    frees <- gets pool_frees ;;
    frees' <- add_at usize_max frees 1 ;;
    modify (λ p,
      {| pool_budget := pool_budget p;
         pool_used := saturating_sub (pool_used p) (pb_size stored);
         pool_peak := pool_peak p;
         pool_allocations := pool_allocations p;
         pool_frees := frees';
         pool_tag_stats :=
           match pool_tag_stats p !! pb_tag stored with
           | Some stats =>
               <[pb_tag stored := {| ts_bytes := saturating_sub (ts_bytes stats) (pb_size stored);
                                     ts_count := saturating_sub (ts_count stats) 1 |}]>
                 (pool_tag_stats p)
           | None => pool_tag_stats p
           end;
         pool_live := pool_live p |}).
End TaggedPool.

Module LookasideList.

Record LookasideBlock := { lb_ptr : Z; lb_size : Z; lb_epoch : Z; lb_tag : PoolTag }.

Record LookasideList := {
  ll_tag : PoolTag;
  ll_max_depth : Z;
  ll_budget : Z;
  ll_held_bytes : Z;
  ll_hits : Z;
  ll_misses : Z;
  ll_depth_high_water : Z;
  ll_next_epoch : Z;
  ll_free : list (Z * Buffer);
  ll_outstanding : gmap Z (Z * Buffer);
}.

Definition new (tag : PoolTag) (max_depth budget : Z) : LookasideList :=
  {| ll_tag := tag; ll_max_depth := max_depth; ll_budget := budget; ll_held_bytes := 0;
     ll_hits := 0; ll_misses := 0; ll_depth_high_water := 0; ll_next_epoch := 1;
     ll_free := []; ll_outstanding := ∅ |}.

Definition free_depth (l : LookasideList) : Z := Z.of_nat (length (ll_free l)).
Definition in_use (l : LookasideList) : Z := Z.of_nat (size (ll_outstanding l)).

(** The cached buffer [allocate] picks: the first of exactly the size, else the
    first that is large enough. *)
Definition pick (size : Z) (free : list (Z * Buffer)) : option nat :=
  match position (λ eb, buf_len eb.2 =? size) free with
  | Some i => Some i
  | None => position (λ eb, size <=? buf_len eb.2) free
  end.

Definition allocate (fresh size : Z) : M LookasideList LookasideBlock :=
  let size := Z.max size 1 in
  free <- gets ll_free ;;
  tag <- gets ll_tag ;;
  match pick size free with
  | Some index =>
      ' ((epoch, buffer), rest) <- expect (swap_remove index free) ;;
      let ptr := buf_ptr buffer in
      epoch <- add_at u64_max epoch 1 ;;
      hits <- gets ll_hits ;;
      hits <- add_at usize_max hits 1 ;;
      modify (λ l,
        {| ll_tag := ll_tag l; ll_max_depth := ll_max_depth l; ll_budget := ll_budget l;
           ll_held_bytes := ll_held_bytes l; ll_hits := hits; ll_misses := ll_misses l;
           ll_depth_high_water := ll_depth_high_water l; ll_next_epoch := ll_next_epoch l;
           ll_free := rest;
           ll_outstanding := <[ptr := (epoch, buffer)]> (ll_outstanding l) |}) ;;;
      ret {| lb_ptr := ptr; lb_size := size; lb_epoch := epoch; lb_tag := tag |}
  | None =>
      held <- gets ll_held_bytes ;;
      budget <- gets ll_budget ;;
      fail_if (budget <? saturating_add usize_max held size) STATUS_INSUFFICIENT_RESOURCES ;;;
      capacity size ;;;
      let buffer := {| buf_ptr := fresh; buf_len := size |} in
      epoch <- gets ll_next_epoch ;;
      next <- add_at u64_max epoch 1 ;;
      misses <- gets ll_misses ;;
      misses <- add_at usize_max misses 1 ;;
      held <- add_at usize_max held size ;;
      modify (λ l,
        {| ll_tag := ll_tag l; ll_max_depth := ll_max_depth l; ll_budget := ll_budget l;
           ll_held_bytes := held; ll_hits := ll_hits l; ll_misses := misses;
           ll_depth_high_water := ll_depth_high_water l; ll_next_epoch := next;
           ll_free := ll_free l;
           ll_outstanding := <[fresh := (epoch, buffer)]> (ll_outstanding l) |}) ;;;
      ret {| lb_ptr := fresh; lb_size := size; lb_epoch := epoch; lb_tag := tag |}
  end.

Definition set_outstanding (o : gmap Z (Z * Buffer)) (l : LookasideList) : LookasideList :=
  {| ll_tag := ll_tag l; ll_max_depth := ll_max_depth l; ll_budget := ll_budget l;
     ll_held_bytes := ll_held_bytes l; ll_hits := ll_hits l; ll_misses := ll_misses l;
     ll_depth_high_water := ll_depth_high_water l; ll_next_epoch := ll_next_epoch l;
     ll_free := ll_free l; ll_outstanding := o |}.

Definition free (block : LookasideBlock) : M LookasideList unit :=
  out <- gets ll_outstanding ;;
  ' (epoch, buffer) <- ok_or (out !! lb_ptr block) STATUS_INVALID_ADDRESS ;;
  modify (set_outstanding (delete (lb_ptr block) out)) ;;;
  tag <- gets ll_tag ;;
  if negb (epoch =? lb_epoch block) || negb (bool_decide (lb_tag block = tag))
  then
    modify (λ l, set_outstanding (<[lb_ptr block := (epoch, buffer)]> (ll_outstanding l)) l) ;;;
    throw STATUS_INVALID_ADDRESS
  else
    depth <- gets free_depth ;;
    max_depth <- gets ll_max_depth ;;
    modify (λ l,
      {| ll_tag := ll_tag l; ll_max_depth := ll_max_depth l; ll_budget := ll_budget l;
         ll_held_bytes :=
           if depth <? max_depth then ll_held_bytes l
           else saturating_sub (ll_held_bytes l) (buf_len buffer);
         ll_hits := ll_hits l; ll_misses := ll_misses l;
         ll_depth_high_water :=
           if depth <? max_depth then Z.max (ll_depth_high_water l) (depth + 1)
           else ll_depth_high_water l;
         ll_next_epoch := ll_next_epoch l;
         ll_free := if depth <? max_depth then ll_free l ++ [(epoch, buffer)] else ll_free l;
         ll_outstanding := ll_outstanding l |}).
End LookasideList.

Module DpcQueue.

Record DpcObject := { dpc_sequence : Z; dpc_callback : option Z }.

(** [DpcObject::new] *)
Definition new_dpc (sequence callback : Z) : DpcObject :=
  {| dpc_sequence := sequence; dpc_callback := Some callback |}.

(** [DpcObject::invoke]: whether the call ran, the object afterwards, and the
    calls made. *)
Definition invoke (d : DpcObject) : bool * DpcObject * list Z :=
  let taken := {| dpc_sequence := dpc_sequence d; dpc_callback := None |} in
  match dpc_callback d with
  | Some callback => (true, taken, [callback])
  | None => (false, taken, [])
  end.

Record DpcQueue := {
  dq_next_sequence : Z;
  dq_pending : list DpcObject;
  dq_executed : Z;
  dq_cancelled : Z;
  dq_log : list Z;
}.

(** [DpcQueue::new] and the derived [Default]. *)
Definition new : DpcQueue :=
  {| dq_next_sequence := 1; dq_pending := []; dq_executed := 0; dq_cancelled := 0; dq_log := [] |}.
Definition default_queue : DpcQueue :=
  {| dq_next_sequence := 0; dq_pending := []; dq_executed := 0; dq_cancelled := 0; dq_log := [] |}.

Definition push_back (next : Z) (d : DpcObject) (q : DpcQueue) : DpcQueue :=
  {| dq_next_sequence := next; dq_pending := dq_pending q ++ [d];
     dq_executed := dq_executed q; dq_cancelled := dq_cancelled q; dq_log := dq_log q |}.

Definition queue (callback : Z) : M DpcQueue Z :=
  sequence <- gets dq_next_sequence ;;
  next <- add_at u64_max sequence 1 ;;
  modify (push_back next (new_dpc sequence callback)) ;;;
  ret sequence.

Definition queue_object (d : DpcObject) : M DpcQueue unit :=
  s <- add_at u64_max (dpc_sequence d) 1 ;;
  modify (λ q, push_back (Z.max (dq_next_sequence q) s) d q).

Definition pending_count (q : DpcQueue) : Z := Z.of_nat (length (dq_pending q)).

(** The loop of [execute_pending], over the queue it drains. *)
Fixpoint execute_loop (pending : list DpcObject) (ran : Z) : M DpcQueue Z :=
  match pending with
  | [] => ret ran
  | dpc :: pending =>
      modify (λ q, {| dq_next_sequence := dq_next_sequence q; dq_pending := pending;
                      dq_executed := dq_executed q; dq_cancelled := dq_cancelled q;
                      dq_log := dq_log q ++ (invoke dpc).2 |}) ;;;
      if (invoke dpc).1.1 then
        ran <- add_at usize_max ran 1 ;;
        e <- gets dq_executed ;;
        e <- add_at u64_max e 1 ;;
        modify (λ q, {| dq_next_sequence := dq_next_sequence q; dq_pending := dq_pending q;
                        dq_executed := e; dq_cancelled := dq_cancelled q;
                        dq_log := dq_log q |}) ;;;
        execute_loop pending ran
      else execute_loop pending ran
  end.

Definition execute_pending : M DpcQueue Z :=
  pending <- gets dq_pending ;; execute_loop pending 0.

Definition cancel (sequence : Z) : M DpcQueue unit :=
  pending <- gets dq_pending ;;
  index <- ok_or (position (λ d, dpc_sequence d =? sequence) pending) STATUS_NOT_FOUND ;;
  modify (λ q, {| dq_next_sequence := dq_next_sequence q;
                  dq_pending := remove_at index (dq_pending q);
                  dq_executed := dq_executed q; dq_cancelled := dq_cancelled q;
                  dq_log := dq_log q |}) ;;;
  c <- gets dq_cancelled ;;
  c <- add_at u64_max c 1 ;;
  modify (λ q, {| dq_next_sequence := dq_next_sequence q; dq_pending := dq_pending q;
                  dq_executed := dq_executed q; dq_cancelled := c; dq_log := dq_log q |}).

Definition pending_sequences (q : DpcQueue) : list Z := dpc_sequence <$> dq_pending q.
End DpcQueue.
