(* ===== verification/ExecFacts.v ===== *)
(** * Correctness of the executive primitives

    Accounting of the tagged pool, reuse and stale-free detection of the lookaside
    list, order and exactly-once execution of the DPC queue. *)

From S2P Require Import Prelude Status Exec.

Module PoolFacts.
Import TaggedPool.

(** What the per-tag table should hold, computed from the live blocks. *)
Definition tag_bytes (tag : PoolTag) (live : gmap Z (PoolBlock * Buffer)) : Z :=
  map_sum (λ _ e, if bool_decide (pb_tag e.1 = tag) then pb_size e.1 else 0) live.
Definition tag_count (tag : PoolTag) (live : gmap Z (PoolBlock * Buffer)) : Z :=
  map_sum (λ _ e, if bool_decide (pb_tag e.1 = tag) then 1 else 0) live.
Definition live_bytes (live : gmap Z (PoolBlock * Buffer)) : Z :=
  map_sum (λ _ e, pb_size e.1) live.

(** The host allocator hands out addresses that are not in use.  A budget of
    [usize::MAX] is no budget (the saturating comparison of [allocate] cannot
    exceed it) and is left out. *)
Inductive step (p : TaggedPool) : TaggedPool → Prop :=
| step_allocate ptr tag size r p' :
    pool_live p !! ptr = None → allocate ptr tag size p = Done r p' → step p p'
| step_free block r p' : free block p = Done r p' → step p p'.

Inductive reachable (budget : Z) : TaggedPool → Prop :=
| reachable_new : 0 ≤ budget < usize_max → reachable budget (new budget)
| reachable_step p p' : reachable budget p → step p p' → reachable budget p'.

Definition block_ok (ptr : Z) (e : PoolBlock * Buffer) : Prop :=
  pb_ptr e.1 = ptr ∧ 1 ≤ pb_size e.1.

Record Inv (budget : Z) (p : TaggedPool) : Prop := {
  inv_budget : pool_budget p = budget ∧ 0 ≤ budget < usize_max;
  inv_used : pool_used p = live_bytes (pool_live p) ∧ pool_used p ≤ pool_peak p ≤ budget;
  inv_blocks : ∀ ptr e, pool_live p !! ptr = Some e → block_ok ptr e;
  inv_stats : ∀ tag, tag_stats tag p =
    {| ts_bytes := tag_bytes tag (pool_live p); ts_count := tag_count tag (pool_live p) |};
  inv_ops : 0 ≤ pool_frees p ∧ pool_allocations p ≤ usize_max ∧
    pool_allocations p - pool_frees p = live_count p;
}.

Lemma live_bytes_nonneg p budget : Inv budget p → 0 ≤ live_bytes (pool_live p).
Proof.
  intros HI. apply map_sum_nonneg. intros ptr e He.
  destruct (inv_blocks _ _ HI _ _ He). lia.
Qed.

Lemma tag_count_nonneg tag live : 0 ≤ tag_count tag live.
Proof. apply map_sum_nonneg. intros. case_bool_decide; lia. Qed.

Lemma tag_bytes_nonneg tag live :
  (∀ ptr e, live !! ptr = Some e → block_ok ptr e) → 0 ≤ tag_bytes tag live.
Proof.
  intros Hok. apply map_sum_nonneg. intros ptr e He. destruct (Hok _ _ He).
  case_bool_decide; lia.
Qed.

Lemma tag_bounds p budget tag : Inv budget p →
  0 ≤ tag_count tag (pool_live p) ≤ tag_bytes tag (pool_live p) ∧
  tag_bytes tag (pool_live p) ≤ live_bytes (pool_live p).
Proof.
  intros HI. split_and!.
  - apply tag_count_nonneg.
  - apply map_sum_le. intros ptr e He. destruct (inv_blocks _ _ HI _ _ He).
    case_bool_decide; lia.
  - apply map_sum_le. intros ptr e He. destruct (inv_blocks _ _ HI _ _ He).
    case_bool_decide; lia.
Qed.

Lemma pool_inv_new budget : 0 ≤ budget < usize_max → Inv budget (new budget).
Proof.
  intros. split; simpl; try done. split; [done|lia].
Qed.

Definition allocated (ptr : Z) (tag : PoolTag) (size : Z) (p : TaggedPool) : TaggedPool :=
  let size := Z.max size 1 in
  {| pool_budget := pool_budget p;
     pool_used := pool_used p + size;
     pool_peak := Z.max (pool_peak p) (pool_used p + size);
     pool_allocations := pool_allocations p + 1;
     pool_frees := pool_frees p;
     pool_tag_stats :=
       <[tag := {| ts_bytes := ts_bytes (tag_stats tag p) + size;
                   ts_count := ts_count (tag_stats tag p) + 1 |}]> (pool_tag_stats p);
     pool_live := <[ptr := ({| pb_ptr := ptr; pb_size := size; pb_tag := tag |},
                            {| buf_ptr := ptr; buf_len := size |})]> (pool_live p) |}.

(** [allocate] decides by the budget; it panics only when the host cannot make a
    buffer of that size or the allocation counter is exhausted. *)
Lemma allocate_spec budget p ptr tag size :
  Inv budget p →
  allocate ptr tag size p =
    if budget <? pool_used p + Z.max size 1
    then Done (Err STATUS_INSUFFICIENT_RESOURCES) p
    else if (Z.max size 1 <=? isize_max) && (pool_allocations p <? usize_max)
    then Done (Ok {| pb_ptr := ptr; pb_size := Z.max size 1; pb_tag := tag |})
              (allocated ptr tag size p)
    else Panic.
Proof.
  intros HI. destruct (inv_budget _ _ HI) as [Hb Hbr], (inv_used _ _ HI) as [Hu Hp].
  pose proof (live_bytes_nonneg _ _ HI). pose proof (tag_bounds _ _ tag HI) as [Hc Ht].
  pose proof (inv_stats _ _ HI tag) as Hs.
  unfold allocate. mrun. rewrite Hb.
  assert ((budget <? saturating_add usize_max (pool_used p) (Z.max size 1))
          = (budget <? pool_used p + Z.max size 1)) as ->.
  { unfold saturating_add. apply eq_iff_eq_true. rewrite !Z.ltb_lt. lia. }
  destruct (Z.ltb_spec budget (pool_used p + Z.max size 1)); mrun; [done|].
  destruct (Z.max size 1 <=? isize_max) eqn:Hcap; mrun; [|done].
  rewrite (proj2 (Z.leb_le (pool_used p + _) _)) by lia. mrun.
  replace (pool_allocations p + 1 <=? usize_max) with (pool_allocations p <? usize_max)
    by (apply eq_iff_eq_true; rewrite Z.ltb_lt, Z.leb_le; lia).
  destruct (pool_allocations p <? usize_max); mrun; [|done].
  unfold allocated. rewrite Hs. cbn [ts_bytes ts_count].
  rewrite (proj2 (Z.leb_le (tag_bytes _ _ + _) _)) by lia. mrun.
  by rewrite (proj2 (Z.leb_le (tag_count _ _ + _) _)) by lia.
Qed.

Lemma pool_inv_allocated budget p ptr tag size :
  Inv budget p → pool_live p !! ptr = None →
  pool_used p + Z.max size 1 ≤ budget → pool_allocations p < usize_max →
  Inv budget (allocated ptr tag size p).
Proof.
  intros HI Hf Hb Ha. destruct HI as [[Hbud ?] [Hu ?] Hblk Hst Hops].
  assert (live_bytes (pool_live (allocated ptr tag size p))
          = Z.max size 1 + live_bytes (pool_live p)) as Hl.
  { unfold live_bytes. cbn [pool_live allocated]. by rewrite map_sum_insert. }
  split.
  - done.
  - rewrite Hl. simpl. lia.
  - intros q e. simpl. rewrite lookup_insert. case_decide; [intros [= <-]|by apply Hblk].
    subst. split; simpl; lia.
  - intros t. unfold tag_stats; simpl.
    unfold tag_bytes, tag_count. rewrite !map_sum_insert by done. simpl.
    fold (tag_bytes t (pool_live p)) (tag_count t (pool_live p)).
    rewrite lookup_insert. case_decide as Ht; simpl.
    + subst t. rewrite bool_decide_true, Hst by done. simpl. f_equal; lia.
    + rewrite bool_decide_false by done. fold (tag_stats t p). by rewrite Hst.
  - unfold live_count in *; simpl. rewrite map_size_insert_None by done. lia.
Qed.

Definition freed (ptr : Z) (b : PoolBlock) (p : TaggedPool) : TaggedPool :=
  {| pool_budget := pool_budget p;
     pool_used := pool_used p - pb_size b;
     pool_peak := pool_peak p;
     pool_allocations := pool_allocations p;
     pool_frees := pool_frees p + 1;
     pool_tag_stats :=
       match pool_tag_stats p !! pb_tag b with
       | Some stats =>
           <[pb_tag b := {| ts_bytes := saturating_sub (ts_bytes stats) (pb_size b);
                            ts_count := saturating_sub (ts_count stats) 1 |}]> (pool_tag_stats p)
       | None => pool_tag_stats p
       end;
     pool_live := delete ptr (pool_live p) |}.

(** The block as it is stored: the same address, size and tag. *)
Definition holds (b : PoolBlock) (p : TaggedPool) : bool :=
  match pool_live p !! pb_ptr b with
  | Some (stored, _) => (pb_size stored =? pb_size b) && bool_decide (pb_tag stored = pb_tag b)
  | None => false
  end.

Lemma live_size_pos p ptr e : pool_live p !! ptr = Some e → 0 < live_count p.
Proof.
  intros He. unfold live_count. assert (size (pool_live p) ≠ 0%nat); [|lia].
  intros E%map_size_empty_inv. by rewrite E in He.
Qed.

Lemma pool_free_spec budget p b :
  Inv budget p →
  free b p = if holds b p then Done (Ok tt) (freed (pb_ptr b) b p)
             else Done (Err STATUS_INVALID_ADDRESS) p.
Proof.
  intros HI. unfold free, holds. mrun.
  destruct (pool_live p !! pb_ptr b) as [[stored buf]|] eqn:Hl; mrun; [|done].
  destruct (inv_blocks _ _ HI _ _ Hl) as [Hptr Hsz]. simpl in Hptr, Hsz.
  destruct (inv_used _ _ HI) as [Hu _]. destruct (inv_ops _ _ HI) as (?&?&?).
  pose proof (live_size_pos _ _ _ Hl).
  assert (pb_size stored ≤ live_bytes (pool_live p)).
  { apply (map_sum_elem_le (λ _ e, pb_size e.1) _ (pb_ptr b) (stored, buf)); [|done].
    intros q e He. destruct (inv_blocks _ _ HI _ _ He). lia. }
  destruct (Z.eqb_spec (pb_size stored) (pb_size b)) as [Es|Es]; mrun; simpl.
  - case_bool_decide as Et; mrun; simpl.
    + rewrite (proj2 (Z.leb_le _ _)) by lia. mrun. simpl. rewrite Es, Et.
      unfold freed. repeat f_equal. unfold saturating_sub. lia.
    + rewrite Hptr. destruct p; simpl in *. unfold set_live; simpl.
      by rewrite insert_delete_id.
  - rewrite Hptr. destruct p; simpl in *. unfold set_live; simpl.
    by rewrite insert_delete_id.
Qed.

Lemma freed_stats budget p b tag :
  Inv budget p → holds b p = true →
  tag_stats tag (freed (pb_ptr b) b p) =
  {| ts_bytes := tag_bytes tag (delete (pb_ptr b) (pool_live p));
     ts_count := tag_count tag (delete (pb_ptr b) (pool_live p)) |}.
Proof.
  intros HI Hh. unfold holds in Hh.
  destruct (pool_live p !! pb_ptr b) as [[st buf]|] eqn:Hl; [|done].
  apply andb_true_iff in Hh as [Es%Z.eqb_eq Et%bool_decide_eq_true].
  pose proof (tag_bounds _ _ (pb_tag b) HI) as [Hb1 Hb2].
  assert (∀ t, tag_bytes t (pool_live p) = (if bool_decide (pb_tag b = t) then pb_size b else 0)
            + tag_bytes t (delete (pb_ptr b) (pool_live p))) as Hbytes.
  { intros t. unfold tag_bytes. erewrite map_sum_delete by done. simpl. by rewrite ?Es, ?Et. }
  assert (∀ t, tag_count t (pool_live p) = (if bool_decide (pb_tag b = t) then 1 else 0)
            + tag_count t (delete (pb_ptr b) (pool_live p))) as Hcount.
  { intros t. unfold tag_count. erewrite map_sum_delete by done. simpl. by rewrite ?Es, ?Et. }
  pose proof (Hbytes tag) as Hbt. pose proof (Hcount tag) as Hct.
  specialize (Hbytes (pb_tag b)). specialize (Hcount (pb_tag b)).
  rewrite bool_decide_true in Hbytes, Hcount by done.
  pose proof (inv_stats _ _ HI (pb_tag b)) as Hst. unfold tag_stats in Hst.
  pose proof (inv_stats _ _ HI tag) as Hst'. unfold tag_stats in *. simpl.
  pose proof (tag_count_nonneg (pb_tag b) (delete (pb_ptr b) (pool_live p))).
  assert (0 ≤ tag_bytes (pb_tag b) (delete (pb_ptr b) (pool_live p))).
  { apply tag_bytes_nonneg. intros ptr e [_ He]%lookup_delete_Some.
    by apply (inv_blocks _ _ HI). }
  destruct (pool_tag_stats p !! pb_tag b) as [stats|] eqn:Eb; simpl in Hst.
  - rewrite lookup_insert. case_decide as Ht; simpl.
    + subst tag stats. simpl. unfold saturating_sub. f_equal; lia.
    + rewrite bool_decide_false in Hbt, Hct by done. rewrite Hst'. f_equal; lia.
  - injection Hst as ? ?. lia.
Qed.

Lemma inv_freed budget p b :
  Inv budget p → holds b p = true → Inv budget (freed (pb_ptr b) b p).
Proof.
  intros HI Hh. pose proof (λ tag, freed_stats _ _ _ tag HI Hh) as Hst. unfold holds in Hh.
  destruct (pool_live p !! pb_ptr b) as [[st buf]|] eqn:Hl; [|done].
  apply andb_true_iff in Hh as [Es%Z.eqb_eq Et%bool_decide_eq_true].
  pose proof (live_size_pos _ _ _ Hl) as Hpos. pose proof HI as [? [Hu ?] Hblk _ Hops].
  destruct (Hblk _ _ Hl) as [_ Hsz]. simpl in Hsz.
  assert (live_bytes (pool_live p) = pb_size b + live_bytes (delete (pb_ptr b) (pool_live p))) as Hlb.
  { unfold live_bytes. erewrite map_sum_delete by done. simpl. by rewrite ?Es, ?Et. }
  split.
  - done.
  - simpl. lia.
  - intros q e. simpl. intros [_ He]%lookup_delete_Some. by apply Hblk.
  - exact Hst.
  - unfold live_count in *; simpl. rewrite map_size_delete_Some by eauto. lia.
Qed.

Lemma pool_reachable_inv budget p : reachable budget p → Inv budget p.
Proof.
  induction 1 as [|p p' _ IH Hs]; [by apply pool_inv_new|].
  destruct Hs as [ptr tag size r p' Hf Hr|b r p' Hr].
  - rewrite (allocate_spec budget) in Hr by done. revert Hr. repeat case_match; intros; simplify_eq.
    + done.
    + bool_prop. apply pool_inv_allocated; [done|done|lia|lia].
  - rewrite (pool_free_spec budget) in Hr by done. destruct (holds b p) eqn:Hh; simplify_eq; [|done].
    by apply inv_freed.
Qed.

(** Pool accounting is exact: in every reachable state the bytes in use are
    the sizes of the live blocks and never exceed the peak, which never exceeds the
    budget; the statistics of every tag are the bytes and the number of the live
    blocks of that tag; allocations minus frees is the number of live blocks. *)
Theorem pool_accounting_exact budget p :
  reachable budget p →
  pool_used p = live_bytes (pool_live p) ∧
  pool_used p ≤ pool_peak p ≤ budget ∧
  (∀ tag, ts_bytes (tag_stats tag p) = tag_bytes tag (pool_live p) ∧
          ts_count (tag_stats tag p) = tag_count tag (pool_live p)) ∧
  pool_allocations p - pool_frees p = live_count p.
Proof.
  intros HI%pool_reachable_inv. destruct (inv_used _ _ HI), (inv_ops _ _ HI) as (?&?&?).
  split_and!; try done; try lia. intros tag. by rewrite (inv_stats _ _ HI).
Qed.

(** Frees are validated: a block that is live under its address, size and tag
    is freed, its bytes are given back, and freeing it again is rejected with
    [STATUS_INVALID_ADDRESS]; any other block is rejected the same way and changes
    nothing.  Neither case panics. *)
Theorem pool_free_validated budget p b :
  reachable budget p →
  if holds b p
  then ∃ p', free b p = Done (Ok tt) p' ∧ pool_live p' = delete (pb_ptr b) (pool_live p) ∧
         pool_used p' = pool_used p - pb_size b ∧
         free b p' = Done (Err STATUS_INVALID_ADDRESS) p'
  else free b p = Done (Err STATUS_INVALID_ADDRESS) p.
Proof.
  intros HI%pool_reachable_inv. rewrite (pool_free_spec budget) by done.
  destruct (holds b p) eqn:Hh; [|done]. eexists. split; [done|]. split_and!; [done|done|].
  rewrite (pool_free_spec budget) by (by apply inv_freed).
  unfold holds; simpl. by rewrite lookup_delete_eq.
Qed.

Definition demo_tag : PoolTag := (84, 101, 115, 116).
Definition demo_block : PoolBlock := {| pb_ptr := 4096; pb_size := 16; pb_tag := demo_tag |}.
Definition demo_pool : TaggedPool := allocated 4096 demo_tag 16 (new 64).

Lemma demo_pool_reachable : reachable 64 demo_pool.
Proof.
  eapply reachable_step; [by apply reachable_new|].
  apply (step_allocate _ 4096 demo_tag 16 (Ok demo_block)); by vm_compute.
Qed.

Lemma pool_accounting_exact_witness :
  ts_bytes (tag_stats demo_tag demo_pool) = tag_bytes demo_tag (pool_live demo_pool) ∧
  pool_used demo_pool = 16.
Proof.
  split; [|reflexivity].
  apply (pool_accounting_exact 64 demo_pool demo_pool_reachable).
Defined.

Lemma pool_free_validated_witness :
  ∃ p', free demo_block demo_pool = Done (Ok tt) p' ∧
    free demo_block p' = Done (Err STATUS_INVALID_ADDRESS) p'.
Proof.
  destruct (pool_free_validated 64 demo_pool demo_block demo_pool_reachable)
    as (p' & H1 & _ & _ & H2).
  exists p'. split; [exact H1|exact H2].
Defined.
End PoolFacts.

Module LookasideFacts.
Import LookasideList.

Definition cached_bytes (l : list (Z * Buffer)) : Z :=
  foldr (λ eb acc, buf_len eb.2 + acc) 0 l.
Definition outstanding_bytes (o : gmap Z (Z * Buffer)) : Z := map_sum (λ _ eb, buf_len eb.2) o.
Definition cached_ptrs (l : list (Z * Buffer)) : list Z := (λ eb, buf_ptr eb.2) <$> l.

#[local] Instance cached_bytes_perm : Proper ((≡ₚ) ==> (=)) cached_bytes.
Proof.
  intros l l' Hl. unfold cached_bytes. induction Hl; simpl; lia.
Qed.

Lemma cached_bytes_app l l' : cached_bytes (l ++ l') = cached_bytes l + cached_bytes l'.
Proof. unfold cached_bytes. induction l; simpl; lia. Qed.

(** A fresh buffer is at an address no cached or outstanding buffer has. *)
Definition fresh_for (ptr : Z) (l : LookasideList) : Prop :=
  ll_outstanding l !! ptr = None ∧ ptr ∉ cached_ptrs (ll_free l).

Inductive step (l : LookasideList) : LookasideList → Prop :=
| step_allocate ptr size r l' :
    fresh_for ptr l → allocate ptr size l = Done r l' → step l l'
| step_free block r l' : free block l = Done r l' → step l l'.

Inductive reachable (tag : PoolTag) (depth budget : Z) : LookasideList → Prop :=
| reachable_new :
    0 ≤ depth → 0 ≤ budget < usize_max → reachable tag depth budget (new tag depth budget)
| reachable_step l l' :
    reachable tag depth budget l → step l l' → reachable tag depth budget l'.

Record Inv (tag : PoolTag) (depth budget : Z) (l : LookasideList) : Prop := {
  inv_config : ll_tag l = tag ∧ ll_max_depth l = depth ∧ ll_budget l = budget ∧
    0 ≤ budget < usize_max;
  inv_held : ll_held_bytes l = cached_bytes (ll_free l) + outstanding_bytes (ll_outstanding l) ∧
    ll_held_bytes l ≤ budget;
  inv_cached : Forall (λ eb, 1 ≤ buf_len eb.2) (ll_free l) ∧
    free_depth l ≤ depth ∧ free_depth l ≤ ll_depth_high_water l;
  inv_out : ∀ ptr eb, ll_outstanding l !! ptr = Some eb → buf_ptr eb.2 = ptr ∧ 1 ≤ buf_len eb.2;
  inv_disjoint : NoDup (cached_ptrs (ll_free l)) ∧
    ∀ ptr, ptr ∈ cached_ptrs (ll_free l) → ll_outstanding l !! ptr = None;
}.

Lemma cached_bytes_nonneg l : Forall (λ eb, 1 ≤ buf_len eb.2) l → 0 ≤ cached_bytes l.
Proof. unfold cached_bytes. induction 1; simpl in *; lia. Qed.

Lemma outstanding_bytes_nonneg t d b l : Inv t d b l → 0 ≤ outstanding_bytes (ll_outstanding l).
Proof.
  intros HI. apply map_sum_nonneg. intros ptr eb Hp. destruct (inv_out _ _ _ _ HI _ _ Hp). lia.
Qed.

Lemma pick_Some size free i :
  pick size free = Some i → ∃ eb, free !! i = Some eb ∧ size ≤ buf_len eb.2.
Proof.
  unfold pick. destruct (position _ free) as [j|] eqn:E.
  - intros [= <-]. apply position_Some in E as (eb & Hj & Hf & _). exists eb.
    split; [done|]. bool_prop. lia.
  - intros (eb & Hj & Hf & _)%position_Some. exists eb. split; [done|]. by bool_prop.
Qed.

(** Taking the cached entry [i] out of the free list. *)
Definition reused (i : nat) (e : Z) (b : Buffer) (rest : list (Z * Buffer)) (l : LookasideList)
    : LookasideList :=
  {| ll_tag := ll_tag l; ll_max_depth := ll_max_depth l; ll_budget := ll_budget l;
     ll_held_bytes := ll_held_bytes l; ll_hits := ll_hits l + 1; ll_misses := ll_misses l;
     ll_depth_high_water := ll_depth_high_water l; ll_next_epoch := ll_next_epoch l;
     ll_free := rest; ll_outstanding := <[buf_ptr b := (e + 1, b)]> (ll_outstanding l) |}.

Definition missed (ptr size : Z) (l : LookasideList) : LookasideList :=
  {| ll_tag := ll_tag l; ll_max_depth := ll_max_depth l; ll_budget := ll_budget l;
     ll_held_bytes := ll_held_bytes l + size; ll_hits := ll_hits l;
     ll_misses := ll_misses l + 1; ll_depth_high_water := ll_depth_high_water l;
     ll_next_epoch := ll_next_epoch l + 1; ll_free := ll_free l;
     ll_outstanding :=
       <[ptr := (ll_next_epoch l, {| buf_ptr := ptr; buf_len := size |})]> (ll_outstanding l) |}.

(** The two ways [allocate] succeeds. *)
Lemma allocate_Ok t d bu l ptr size r l' :
  Inv t d bu l → allocate ptr size l = Done r l' →
  (r = Err STATUS_INSUFFICIENT_RESOURCES ∧ l' = l ∧ pick (Z.max size 1) (ll_free l) = None) ∨
  (∃ i e b rest, pick (Z.max size 1) (ll_free l) = Some i ∧
     ll_free l !! i = Some (e, b) ∧ ll_free l ≡ₚ (e, b) :: rest ∧ l' = reused i e b rest l ∧
     r = Ok {| lb_ptr := buf_ptr b; lb_size := Z.max size 1; lb_epoch := e + 1; lb_tag := t |}) ∨
  (pick (Z.max size 1) (ll_free l) = None ∧ ll_held_bytes l + Z.max size 1 ≤ bu ∧
     l' = missed ptr (Z.max size 1) l ∧
     r = Ok {| lb_ptr := ptr; lb_size := Z.max size 1; lb_epoch := ll_next_epoch l;
               lb_tag := t |}).
Proof.
  intros HI Hr. destruct (inv_config _ _ _ _ HI) as (Ht & Hd & Hb & Hbr).
  unfold allocate in Hr. mrun. destruct (pick _ (ll_free l)) as [i|] eqn:Hp.
  - right; left. mrun. destruct (swap_remove i (ll_free l)) as [[[e b] rest]|] eqn:Hs; [|done].
    mrun. apply swap_remove_Permutation in Hs as [Hi Hperm].
    exists i, e, b, rest. by msplit.
  - mrun. rewrite Hb in Hr.
    destruct (bu <? saturating_add usize_max (ll_held_bytes l) (Z.max size 1)) eqn:Hlt;
      mrun; [simplify_eq; by left|].
    right; right. msplit. bool_prop. unfold saturating_add in Hlt.
    split_and!; try done. lia.
Qed.

Lemma cached_ptrs_elem i (l : list (Z * Buffer)) e b :
  l !! i = Some (e, b) → buf_ptr b ∈ cached_ptrs l.
Proof.
  intros Hi. apply list_elem_of_fmap. exists (e, b). split; [done|].
  by apply list_elem_of_lookup_2 with i.
Qed.

Lemma inv_reused t d bu l i e b rest :
  Inv t d bu l → ll_free l !! i = Some (e, b) → ll_free l ≡ₚ (e, b) :: rest →
  Inv t d bu (reused i e b rest l).
Proof.
  intros HI Hi Hperm. pose proof (cached_ptrs_elem _ _ _ _ Hi) as Hin.
  destruct HI as [Hc [Hh Hle] [Hcl [Hd1 Hd2]] Ho [Hnd Hdis]].
  rewrite Hperm in Hh, Hcl. unfold free_depth in *. rewrite Hperm in Hd1, Hd2.
  unfold cached_ptrs in Hnd. rewrite Hperm in Hnd. simpl in Hnd.
  apply NoDup_cons in Hnd as [Hnot Hnd].
  apply Forall_cons in Hcl as [Hlen Hcl]. simpl in *.
  split; unfold free_depth; simpl; try done.
  - unfold outstanding_bytes. rewrite map_sum_insert by (by apply Hdis). simpl.
    unfold outstanding_bytes in Hh. lia.
  - split; [done|lia].
  - intros ptr eb. rewrite lookup_insert. case_decide; [intros [= <-]; by split|apply Ho].
  - split; [done|]. intros ptr Hptr. rewrite lookup_insert_ne; [|by intros <-].
    apply Hdis. unfold cached_ptrs. rewrite Hperm. by right.
Qed.

Lemma inv_missed t d bu l ptr size :
  Inv t d bu l → fresh_for ptr l → ll_held_bytes l + Z.max size 1 ≤ bu →
  Inv t d bu (missed ptr (Z.max size 1) l).
Proof.
  intros [Hc [Hh Hle] Hcl Ho [Hnd Hdis]] [Hf1 Hf2] Hb. split; simpl; try done.
  - unfold outstanding_bytes. rewrite map_sum_insert by done. simpl.
    unfold outstanding_bytes in Hh. lia.
  - intros q eb. rewrite lookup_insert. case_decide; [|apply Ho].
    intros [= <-]. simpl. split; [done|lia].
  - split; [done|]. intros q Hq. rewrite lookup_insert_ne; [by apply Hdis|by intros ->].
Qed.

(** [free] accepts exactly the block that is outstanding with its epoch. *)
Definition current (b : LookasideBlock) (l : LookasideList) : bool :=
  match ll_outstanding l !! lb_ptr b with
  | Some (epoch, _) => (epoch =? lb_epoch b) && bool_decide (lb_tag b = ll_tag l)
  | None => false
  end.

Definition returned (epoch : Z) (buffer : Buffer) (l : LookasideList) : LookasideList :=
  let keep := free_depth l <? ll_max_depth l in
  {| ll_tag := ll_tag l; ll_max_depth := ll_max_depth l; ll_budget := ll_budget l;
     ll_held_bytes := if keep then ll_held_bytes l
                      else saturating_sub (ll_held_bytes l) (buf_len buffer);
     ll_hits := ll_hits l; ll_misses := ll_misses l;
     ll_depth_high_water := if keep then Z.max (ll_depth_high_water l) (free_depth l + 1)
                            else ll_depth_high_water l;
     ll_next_epoch := ll_next_epoch l;
     ll_free := if keep then ll_free l ++ [(epoch, buffer)] else ll_free l;
     ll_outstanding := delete (buf_ptr buffer) (ll_outstanding l) |}.

Lemma lookaside_free_spec t d bu l b :
  Inv t d bu l →
  free b l =
    match ll_outstanding l !! lb_ptr b with
    | Some (epoch, buffer) =>
        if current b l then Done (Ok tt) (returned epoch buffer l)
        else Done (Err STATUS_INVALID_ADDRESS) l
    | None => Done (Err STATUS_INVALID_ADDRESS) l
    end.
Proof.
  intros HI. unfold free, current. mrun.
  destruct (ll_outstanding l !! lb_ptr b) as [[epoch buffer]|] eqn:Ho; mrun; [|done].
  destruct (inv_out _ _ _ _ HI _ _ Ho) as [Hptr _]. simpl in Hptr.
  assert (set_outstanding (<[lb_ptr b := (epoch, buffer)]> (delete (lb_ptr b) (ll_outstanding l)))
            (set_outstanding (delete (lb_ptr b) (ll_outstanding l)) l) = l) as Hback.
  { destruct l; simpl in *. unfold set_outstanding; simpl. by rewrite insert_delete_id. }
  destruct (epoch =? lb_epoch b); mrun; simpl; [|by rewrite Hback].
  case_bool_decide; mrun; simpl; [|by rewrite Hback]. unfold returned. by rewrite Hptr.
Qed.

Lemma inv_returned t d bu l ptr epoch buffer :
  Inv t d bu l → ll_outstanding l !! ptr = Some (epoch, buffer) →
  Inv t d bu (returned epoch buffer l).
Proof.
  intros HI Hl. pose proof (outstanding_bytes_nonneg _ _ _ _ HI) as Hpos.
  destruct HI as [Hc [Hh Hle] [Hcl [Hd1 Hd2]] Ho [Hnd Hdis]].
  destruct (Ho _ _ Hl) as [Hptr Hlen]. simpl in Hptr, Hlen. subst ptr.
  assert (outstanding_bytes (ll_outstanding l) =
          buf_len buffer + outstanding_bytes (delete (buf_ptr buffer) (ll_outstanding l))) as Hob.
  { unfold outstanding_bytes. by rewrite (map_sum_delete _ _ _ _ Hl). }
  pose proof (cached_bytes_nonneg _ Hcl).
  assert (∀ ptr eb, delete (buf_ptr buffer) (ll_outstanding l) !! ptr = Some eb →
            buf_ptr eb.2 = ptr ∧ 1 ≤ buf_len eb.2) as Ho'.
  { intros ptr eb [_ He]%lookup_delete_Some. by apply Ho. }
  assert (0 ≤ outstanding_bytes (delete (buf_ptr buffer) (ll_outstanding l))).
  { apply map_sum_nonneg. intros q eb Hq. destruct (Ho' _ _ Hq). lia. }
  destruct Hc as (Ht & Hd & Hb & Hbr). unfold returned.
  destruct (free_depth l <? ll_max_depth l) eqn:Hk; bool_prop; split; simpl; try done.
  - rewrite cached_bytes_app. simpl. lia.
  - unfold free_depth in *; simpl. rewrite length_app. simpl.
    split; [apply Forall_app; split; [done|by apply Forall_singleton]|lia].
  - unfold cached_ptrs. rewrite fmap_app. simpl. split.
    + apply NoDup_app. split_and!; [done| |apply NoDup_singleton].
      intros q Hq ->%list_elem_of_singleton. by rewrite (Hdis _ Hq) in Hl.
    + intros q [Hq| ->%list_elem_of_singleton]%elem_of_app; [|by rewrite lookup_delete_eq].
      apply lookup_delete_None. right. by apply Hdis.
  - unfold saturating_sub. lia.
  - split; [done|]. intros q Hq. apply lookup_delete_None. right. by apply Hdis.
Qed.

Lemma lookaside_reachable_inv t d bu l : reachable t d bu l → Inv t d bu l.
Proof.
  induction 1 as [Hd Hb|l l' _ IH Hs].
  - split; unfold free_depth; simpl; try done.
    + split; [by constructor|lia].
    + split; [constructor|]. by intros ptr Hp%not_elem_of_nil.
  - destruct Hs as [ptr size r l' Hf Hr|b r l' Hr].
    + apply (allocate_Ok t d bu) in Hr as [(_ & -> & _)|[(i&e&b&rest&_&Hi&Hp&->&_)|(_&Hle&->&_)]];
        [done|by apply inv_reused|by apply inv_missed|done].
    + rewrite (lookaside_free_spec t d bu) in Hr by done.
      destruct (ll_outstanding l !! lb_ptr b) as [[e bf]|] eqn:Ho; [|by simplify_eq].
      destruct (current b l); simplify_eq; [|done]. by eapply inv_returned.
Qed.

(** The lookaside list keeps its promises: it never caches more than
    [max_depth] buffers, the bytes it holds are exactly those of the cached and the
    outstanding buffers and stay within the budget, and no cached buffer is
    outstanding or cached twice. *)
Theorem lookaside_bounds tag depth budget l :
  reachable tag depth budget l →
  free_depth l ≤ depth ∧
  ll_held_bytes l = cached_bytes (ll_free l) + outstanding_bytes (ll_outstanding l) ∧
  ll_held_bytes l ≤ budget ∧
  NoDup (cached_ptrs (ll_free l)) ∧
  (∀ ptr, ptr ∈ cached_ptrs (ll_free l) → ll_outstanding l !! ptr = None).
Proof.
  intros [_ [? ?] [_ [? _]] _ [? ?]]%lookaside_reachable_inv. done.
Qed.

Lemma free_Ok_current t d bu l b l1 :
  Inv t d bu l → free b l = Done (Ok tt) l1 →
  ∃ buffer, ll_outstanding l !! lb_ptr b = Some (lb_epoch b, buffer) ∧
    buf_ptr buffer = lb_ptr b ∧ l1 = returned (lb_epoch b) buffer l.
Proof.
  intros HI Hf. rewrite (lookaside_free_spec t d bu) in Hf by done. unfold current in Hf.
  destruct (ll_outstanding l !! lb_ptr b) as [[e buffer]|] eqn:Ho; [|done].
  destruct (Z.eqb_spec e (lb_epoch b)) as [->|]; [|done]. simpl in Hf.
  case_bool_decide; [|done]. simplify_eq. exists buffer. split; [done|]. split; [|done].
  apply (inv_out _ _ _ _ HI _ _ Ho).
Qed.

(** Buffers are reused by address and stale frees are caught: once a block is
    freed, freeing it again fails; if an allocation hands the same address out
    again it carries the next epoch, the old block can still not be freed and the
    new one can. *)
Theorem lookaside_reuse_and_stale tag depth budget l b l1 ptr size b' l2 :
  reachable tag depth budget l → free b l = Done (Ok tt) l1 →
  free b l1 = Done (Err STATUS_INVALID_ADDRESS) l1 ∧
  (fresh_for ptr l1 → lb_ptr b ∈ cached_ptrs (ll_free l1) →
   allocate ptr size l1 = Done (Ok b') l2 → lb_ptr b' = lb_ptr b →
   lb_epoch b' = lb_epoch b + 1 ∧ ll_hits l2 = ll_hits l1 + 1 ∧
   free b l2 = Done (Err STATUS_INVALID_ADDRESS) l2 ∧
   ∃ l3, free b' l2 = Done (Ok tt) l3).
Proof.
  intros HI%lookaside_reachable_inv Hf.
  destruct (free_Ok_current _ _ _ _ _ _ HI Hf) as (buffer & Ho & Hptr & ->).
  pose proof (inv_returned _ _ _ _ _ _ _ HI Ho) as HI1.
  assert (ll_outstanding (returned (lb_epoch b) buffer l) !! lb_ptr b = None) as Hgone.
  { simpl. rewrite Hptr. apply lookup_delete_eq. }
  split; [by rewrite (lookaside_free_spec _ _ _ _ _ HI1), Hgone|].
  intros Hfresh Hin Ha Hp'.
  apply (allocate_Ok tag depth budget) in Ha as
    [(?&_)|[(i & e & bf & rest & _ & Hi & Hperm & -> & [= ->])|(_ & _ & -> & [= ->])]];
    [done| | |done].
  - simpl in Hp'. assert (e = lb_epoch b) as ->.
    { unfold returned in Hi. simpl in Hi. destruct (free_depth l <? ll_max_depth l).
      - apply list_elem_of_lookup_2 in Hi. apply elem_of_app in Hi as [Hi|Hi].
        + exfalso. assert (buf_ptr bf ∈ cached_ptrs (ll_free l)) as Hc.
          { apply list_elem_of_fmap. by exists (e, bf). }
          rewrite Hp' in Hc. by rewrite (proj2 (inv_disjoint _ _ _ _ HI) _ Hc) in Ho.
        + apply list_elem_of_singleton in Hi. by simplify_eq.
      - exfalso. apply cached_ptrs_elem in Hi. rewrite Hp' in Hi.
        by rewrite (proj2 (inv_disjoint _ _ _ _ HI) _ Hi) in Ho. }
    pose proof (inv_reused _ _ _ _ _ _ _ _ HI1 Hi Hperm) as HI2.
    pose proof (inv_config _ _ _ _ HI) as (Htag & _).
    split_and!; [done|done| |].
    + rewrite (lookaside_free_spec _ _ _ _ _ HI2). unfold current. simpl.
      rewrite Hp', lookup_insert_eq. by rewrite (proj2 (Z.eqb_neq _ _)) by lia.
    + rewrite (lookaside_free_spec _ _ _ _ _ HI2). unfold current. simpl.
      rewrite Hp', lookup_insert_eq, Z.eqb_refl, bool_decide_true by done. eauto.
  - exfalso. destruct Hfresh as [_ Hn]. simpl in Hp'. by subst ptr.
Qed.

(** A block of 32 bytes at address 4096, with room for two cached buffers. *)
Definition demo_tag : PoolTag := (76, 111, 111, 107).
Definition demo_block : LookasideBlock :=
  {| lb_ptr := 4096; lb_size := 32; lb_epoch := 1; lb_tag := demo_tag |}.
Definition demo_list : LookasideList := missed 4096 32 (new demo_tag 2 64).
Definition demo_cached : LookasideList :=
  returned 1 {| buf_ptr := 4096; buf_len := 32 |} demo_list.

Lemma demo_list_reachable : reachable demo_tag 2 64 demo_list.
Proof.
  eapply reachable_step; [by apply reachable_new|].
  apply (step_allocate _ 4096 32 (Ok demo_block)); [|by vm_compute].
  split; [done|apply not_elem_of_nil].
Qed.

Lemma lookaside_bounds_witness :
  free_depth demo_list ≤ 2 ∧
  ll_held_bytes demo_list =
    cached_bytes (ll_free demo_list) + outstanding_bytes (ll_outstanding demo_list).
Proof.
  destruct (lookaside_bounds demo_tag 2 64 demo_list demo_list_reachable) as (H1 & H2 & _).
  split; [exact H1|exact H2].
Defined.

Lemma lookaside_reuse_and_stale_witness :
  ∃ l2, allocate 8192 20 demo_cached = Done (Ok {| lb_ptr := 4096; lb_size := 20; lb_epoch := 2;
                                                   lb_tag := demo_tag |}) l2 ∧
    free demo_block l2 = Done (Err STATUS_INVALID_ADDRESS) l2.
Proof.
  exists (reused 0 1 {| buf_ptr := 4096; buf_len := 32 |} [] demo_cached).
  split; [reflexivity|].
  destruct (lookaside_reuse_and_stale demo_tag 2 64 demo_list demo_block demo_cached 8192 20
    {| lb_ptr := 4096; lb_size := 20; lb_epoch := 2; lb_tag := demo_tag |}
    (reused 0 1 {| buf_ptr := 4096; buf_len := 32 |} [] demo_cached)
    demo_list_reachable eq_refl) as [_ Hr].
  destruct Hr as (_ & _ & H2 & _); [split; [reflexivity|]|left|reflexivity|reflexivity|exact H2].
  intros Hin. apply list_elem_of_singleton in Hin. discriminate Hin.
Defined.
End LookasideFacts.

Module DpcFacts.
Import DpcQueue.

(** The calls a list of queued objects still has to make, in order. *)
Definition calls (pending : list DpcObject) : list Z := omap dpc_callback pending.

Definition drained (n : Z) (log : list Z) (q : DpcQueue) : DpcQueue :=
  {| dq_next_sequence := dq_next_sequence q; dq_pending := []; dq_executed := dq_executed q + n;
     dq_cancelled := dq_cancelled q; dq_log := dq_log q ++ log |}.

Lemma calls_length pending : (length (calls pending) ≤ length pending)%nat.
Proof. unfold calls. induction pending as [|d l IH]; csimpl; [done|]. case_match; simpl; lia. Qed.

Lemma execute_loop_spec pending ran q :
  dq_pending q = pending →
  dq_executed q + Z.of_nat (length (calls pending)) ≤ u64_max →
  ran + Z.of_nat (length (calls pending)) ≤ usize_max →
  execute_loop pending ran q =
    Done (Ok (ran + Z.of_nat (length (calls pending))))
         (drained (Z.of_nat (length (calls pending))) (calls pending) q).
Proof.
  revert ran q. induction pending as [|d pending IH]; intros ran q Hq He Hr.
  - destruct q; unfold drained; simpl in *. by rewrite Hq, !Z.add_0_r, app_nil_r.
  - simpl. unfold invoke, calls in *. csimpl in *.
    destruct (dpc_callback d) as [c|]; simpl in *.
    + rewrite (proj2 (Z.leb_le (ran + 1) _)) by lia. simpl.
      rewrite (proj2 (Z.leb_le _ u64_max)) by lia. simpl.
      rewrite IH by (simpl; done || lia). unfold drained; simpl.
      rewrite <-app_assoc. simpl. f_equal; [f_equal; lia|]. f_equal. lia.
    + rewrite IH by (simpl; done || lia). unfold drained; simpl. by rewrite app_nil_r.
Qed.

(** Deferred calls run in FIFO order, each exactly once: draining the queue
    makes the pending calls in the order they were queued, reports their number,
    leaves the queue empty, and draining it again makes none. *)
Theorem execute_pending_fifo q :
  dq_executed q + pending_count q ≤ u64_max → pending_count q ≤ usize_max →
  ∃ q', execute_pending q = Done (Ok (Z.of_nat (length (calls (dq_pending q))))) q' ∧
    dq_log q' = dq_log q ++ calls (dq_pending q) ∧
    dq_pending q' = [] ∧
    dq_executed q' = dq_executed q + Z.of_nat (length (calls (dq_pending q))) ∧
    execute_pending q' = Done (Ok 0) q'.
Proof.
  intros He Hr. unfold pending_count in *. pose proof (calls_length (dq_pending q)).
  eexists. unfold execute_pending. mrun. rewrite execute_loop_spec by (done || lia).
  split; [done|]. by split_and!.
Qed.

Inductive step (q : DpcQueue) : DpcQueue → Prop :=
| step_queue c r q' : queue c q = Done r q' → step q q'
| step_queue_object d r q' : queue_object d q = Done r q' → step q q'
| step_execute r q' : execute_pending q = Done r q' → step q q'
| step_cancel n r q' : cancel n q = Done r q' → step q q'.

Inductive reachable : DpcQueue → Prop :=
| reachable_new : reachable new
| reachable_default : reachable default_queue
| reachable_step q q' : reachable q → step q q' → reachable q'.

(** Sequence numbers in the queue are below the next one handed out. *)
Definition Inv (q : DpcQueue) : Prop :=
  Forall (λ d, dpc_sequence d < dq_next_sequence q) (dq_pending q).

Lemma execute_loop_inv pending ran q r q' :
  Inv q → Forall (λ d, dpc_sequence d < dq_next_sequence q) pending →
  execute_loop pending ran q = Done r q' → Inv q'.
Proof.
  revert ran q. induction pending as [|d pending IH]; intros ran q HI Hp Hr; [by simplify_eq/=|].
  apply Forall_cons in Hp as [_ Hp]. cbn [execute_loop] in Hr. mrun.
  destruct ((invoke d).1.1); msplit; by eapply IH in Hr.
Qed.

Lemma remove_at_sublist {A} i (l : list A) a : a ∈ remove_at i l → a ∈ l.
Proof.
  unfold remove_at. intros [Ha|Ha]%elem_of_app.
  - by apply (subseteq_take i l).
  - by apply (subseteq_drop (Datatypes.S i) l).
Qed.

Lemma dpc_reachable_inv q : reachable q → Inv q.
Proof.
  unfold Inv. induction 1 as [| |q q' _ IH Hs]; [done|done|].
  destruct Hs as [c r q' Hr|d r q' Hr|r q' Hr|n r q' Hr].
  - unfold queue in Hr. msplit. apply Forall_app. split; [|apply Forall_singleton; simpl; lia].
    eapply Forall_impl; [done|]. simpl. lia.
  - unfold queue_object in Hr. msplit. apply Forall_app.
    split; [|apply Forall_singleton; simpl; lia]. eapply Forall_impl; [done|]. simpl. lia.
  - unfold execute_pending in Hr. mrun. by eapply execute_loop_inv.
  - unfold cancel in Hr. mrun.
    destruct (position _ _) as [i|]; mrun; [|by simplify_eq]. msplit.
    rewrite Forall_forall in *. intros d Hd. simpl in Hd. apply IH. by eapply remove_at_sublist.
Qed.

(** Sequence numbers identify deferred calls: a call is queued behind every
    pending one under a number greater than all of theirs, and cancelling that
    number takes exactly this call out again, after which the number is unknown. *)
Theorem queue_cancel_roundtrip q c n q' :
  reachable q → queue c q = Done (Ok n) q' → dq_cancelled q < u64_max →
  dq_pending q' = dq_pending q ++ [new_dpc n c] ∧
  Forall (λ d, dpc_sequence d < n) (dq_pending q) ∧
  ∃ q'', cancel n q' = Done (Ok tt) q'' ∧ dq_pending q'' = dq_pending q ∧
    dq_log q'' = dq_log q ∧ cancel n q'' = Done (Err STATUS_NOT_FOUND) q''.
Proof.
  intros HI%dpc_reachable_inv Hq Hc. unfold queue in Hq. msplit. split; [done|]. split; [done|].
  unfold Inv in HI. rewrite Forall_forall in HI.
  set (f := λ d, dpc_sequence d =? dq_next_sequence q).
  assert (∀ l, (∀ d, d ∈ l → f d = false) →
    position f (l ++ [new_dpc (dq_next_sequence q) c]) = Some (length l)) as Hpos.
  { induction l as [|d l IH]; intros Hl; simpl.
    - unfold f. simpl. by rewrite Z.eqb_refl.
    - rewrite (Hl d) by (by left). rewrite IH; [done|]. intros. apply Hl. by right. }
  assert (∀ d, d ∈ dq_pending q → f d = false) as Hnot.
  { intros d Hd. apply Z.eqb_neq. specialize (HI _ Hd). lia. }
  assert (position f (dq_pending q) = None) as Hnone.
  { destruct (position f (dq_pending q)) eqn:Epos; [|done].
    apply position_Some in Epos as (d & Hd & Hf & _).
    rewrite (Hnot d) in Hf; [done|]. by eapply list_elem_of_lookup_2. }
  assert (remove_at (length (dq_pending q))
    (dq_pending q ++ [new_dpc (dq_next_sequence q) c]) = dq_pending q) as Hrem.
  { unfold remove_at. rewrite take_app_length, drop_ge, app_nil_r; [done|].
    rewrite length_app. simpl. lia. }
  unfold cancel. mrun. simpl. fold f. rewrite Hpos by done. mrun. simpl. rewrite Hrem.
  rewrite (proj2 (Z.leb_le _ _)) by lia. mrun. eexists. split; [done|].
  split_and!; [done|done|]. simpl. by rewrite Hnone.
Qed.

Definition demo_queue : DpcQueue :=
  {| dq_next_sequence := 3; dq_pending := [new_dpc 1 70; new_dpc 2 71]; dq_executed := 0;
     dq_cancelled := 0; dq_log := [] |}.

Lemma demo_queue_reachable : reachable demo_queue.
Proof.
  eapply reachable_step; [eapply reachable_step; [apply reachable_new|]|].
  - by apply (step_queue _ 70 (Ok 1)).
  - by apply (step_queue _ 71 (Ok 2)).
Qed.

Lemma execute_pending_fifo_witness :
  ∃ q', execute_pending demo_queue = Done (Ok 2) q' ∧ dq_log q' = [70; 71].
Proof.
  destruct (execute_pending_fifo demo_queue) as (q' & H1 & H2 & _); [by vm_compute..|].
  exists q'. split; [exact H1|exact H2].
Defined.

Lemma queue_cancel_roundtrip_witness :
  ∃ q'', cancel 3 (push_back 4 (new_dpc 3 72) demo_queue) = Done (Ok tt) q'' ∧
    dq_pending q'' = dq_pending demo_queue.
Proof.
  destruct (queue_cancel_roundtrip demo_queue 72 3 (push_back 4 (new_dpc 3 72) demo_queue)
    demo_queue_reachable) as (_ & _ & q'' & H1 & H2 & _); [reflexivity|reflexivity|].
  exists q''. split; [exact H1|exact H2].
Defined.
End DpcFacts.
