(* ===== verification/Memory.v ===== *)
(** * The virtual-memory manager ([src/casak/memory.rs], [MemoryManager])

    Reservations (VADs), commitment and protection of their pages, section objects
    and their shared or copy-on-write views, page residency, and byte access.
    Addresses and sizes are [u64] as [Z]; the invariant of [MemoryFacts] keeps
    every region below [USER_LIMIT], so that [base + size] and the page
    arithmetic of the source do not overflow. *)

From S2P Require Import Prelude Status.

Definition PAGE_SIZE : Z := 4096.
Definition MAX_SECTION_SIZE : Z := 256 * 1024 * 1024.
Definition MAX_REGION_SIZE : Z := 4294967296.
Definition DEFAULT_BASE : Z := 0x10000.
Definition USER_LIMIT : Z := 0x7FFFFFFF0000.

(** ** Protections *)

Definition Protection : Type := Z.
Definition NOACCESS : Protection := 0x01.
Definition READONLY : Protection := 0x02.
Definition READWRITE : Protection := 0x04.
Definition EXECUTE : Protection := 0x10.
Definition EXECUTE_READ : Protection := 0x20.
Definition EXECUTE_READWRITE : Protection := 0x40.

Definition valid (p : Protection) : bool :=
  (p =? NOACCESS) || (p =? READONLY) || (p =? READWRITE) || (p =? EXECUTE)
  || (p =? EXECUTE_READ) || (p =? EXECUTE_READWRITE).
Definition readable (p : Protection) : bool :=
  (p =? READONLY) || (p =? READWRITE) || (p =? EXECUTE_READ) || (p =? EXECUTE_READWRITE).
Definition writable (p : Protection) : bool :=
  (p =? READWRITE) || (p =? EXECUTE_READWRITE).

(** ** State *)

Inductive ViewKind : Type := VkImage | VkData | VkPagefile.

Record Section_ := {
  sec_id : Z;
  sec_kind : ViewKind;
  sec_size : Z;
  sec_backing : list Z;
}.

Record Mapping := { map_section_id : Z; map_offset : Z; map_cow : bool }.

Record Vad := {
  vad_base : Z;
  vad_size : Z;
  vad_protection : Protection;
  vad_pages : gmap Z Protection;
  vad_private : gmap Z (list Z);
  vad_mapping : option Mapping;
}.

(** [Vad::end] *)
Definition vad_end (v : Vad) : Z := vad_base v + vad_size v.

Inductive MemoryState : Type := MsReserved | MsCommitted.

Record MemoryInfo := {
  mi_base : Z;
  mi_size : Z;
  mi_protection : Protection;
  mi_state : MemoryState;
  mi_mapped : option Z;
}.

Record MemoryManager := {
  mm_page_size : Z;
  mm_vads : gmap Z Vad;
  mm_sections : gmap Z Section_;
  mm_next_section : Z;
  mm_next_base : Z;
  mm_committed_bytes : Z;
  mm_mapped_bytes : Z;
  mm_max_commit : Z;
  mm_max_sections : Z;
  mm_resident : gset Z;
  mm_resident_order : list Z;
  mm_max_working_set : Z;
}.

(** [MemoryManager::new] and [Default] *)
Definition new_memory (max_commit max_sections max_working_set : Z) : MemoryManager :=
  {| mm_page_size := PAGE_SIZE; mm_vads := ∅; mm_sections := ∅; mm_next_section := 1;
     mm_next_base := DEFAULT_BASE; mm_committed_bytes := 0; mm_mapped_bytes := 0;
     mm_max_commit := max_commit; mm_max_sections := max_sections; mm_resident := ∅;
     mm_resident_order := []; mm_max_working_set := max_working_set |}.
Definition default_memory : MemoryManager := new_memory (64 * 1024 * 1024) 64 64.

Definition reserved_count (s : MemoryManager) : Z := Z.of_nat (size (mm_vads s)).
Definition section_count (s : MemoryManager) : Z := Z.of_nat (size (mm_sections s)).
Definition working_set_pages (s : MemoryManager) : Z := Z.of_nat (size (mm_resident s)).

(** Field updates. *)
Definition set_vads (v : gmap Z Vad) (s : MemoryManager) : MemoryManager :=
  {| mm_page_size := mm_page_size s; mm_vads := v; mm_sections := mm_sections s;
     mm_next_section := mm_next_section s; mm_next_base := mm_next_base s;
     mm_committed_bytes := mm_committed_bytes s; mm_mapped_bytes := mm_mapped_bytes s;
     mm_max_commit := mm_max_commit s; mm_max_sections := mm_max_sections s;
     mm_resident := mm_resident s; mm_resident_order := mm_resident_order s;
     mm_max_working_set := mm_max_working_set s |}.
Definition set_sections (n : Z) (x : gmap Z Section_) (s : MemoryManager) : MemoryManager :=
  {| mm_page_size := mm_page_size s; mm_vads := mm_vads s; mm_sections := x;
     mm_next_section := n; mm_next_base := mm_next_base s;
     mm_committed_bytes := mm_committed_bytes s; mm_mapped_bytes := mm_mapped_bytes s;
     mm_max_commit := mm_max_commit s; mm_max_sections := mm_max_sections s;
     mm_resident := mm_resident s; mm_resident_order := mm_resident_order s;
     mm_max_working_set := mm_max_working_set s |}.
Definition set_next_base (b : Z) (s : MemoryManager) : MemoryManager :=
  {| mm_page_size := mm_page_size s; mm_vads := mm_vads s; mm_sections := mm_sections s;
     mm_next_section := mm_next_section s; mm_next_base := b;
     mm_committed_bytes := mm_committed_bytes s; mm_mapped_bytes := mm_mapped_bytes s;
     mm_max_commit := mm_max_commit s; mm_max_sections := mm_max_sections s;
     mm_resident := mm_resident s; mm_resident_order := mm_resident_order s;
     mm_max_working_set := mm_max_working_set s |}.
Definition set_charges (committed mapped : Z) (s : MemoryManager) : MemoryManager :=
  {| mm_page_size := mm_page_size s; mm_vads := mm_vads s; mm_sections := mm_sections s;
     mm_next_section := mm_next_section s; mm_next_base := mm_next_base s;
     mm_committed_bytes := committed; mm_mapped_bytes := mapped;
     mm_max_commit := mm_max_commit s; mm_max_sections := mm_max_sections s;
     mm_resident := mm_resident s; mm_resident_order := mm_resident_order s;
     mm_max_working_set := mm_max_working_set s |}.
Definition set_resident (r : gset Z) (o : list Z) (s : MemoryManager) : MemoryManager :=
  {| mm_page_size := mm_page_size s; mm_vads := mm_vads s; mm_sections := mm_sections s;
     mm_next_section := mm_next_section s; mm_next_base := mm_next_base s;
     mm_committed_bytes := mm_committed_bytes s; mm_mapped_bytes := mm_mapped_bytes s;
     mm_max_commit := mm_max_commit s; mm_max_sections := mm_max_sections s;
     mm_resident := r; mm_resident_order := o; mm_max_working_set := mm_max_working_set s |}.
Definition with_pages (prot : Protection) (pages : gmap Z Protection)
    (private : gmap Z (list Z)) (m : option Mapping) (v : Vad) : Vad :=
  {| vad_base := vad_base v; vad_size := vad_size v; vad_protection := prot;
     vad_pages := pages; vad_private := private; vad_mapping := m |}.

(** ** Helpers *)

Definition align_up (value alignment : Z) : option Z :=
  let mask := alignment - 1 in
  (λ v, Z.land v (not_u64 mask)) <$> checked_add u64_max value mask.

(** [vec![0; n]] *)
Definition zeros (n : Z) : list Z := replicate (Z.to_nat n) 0.
Arguments zeros n : simpl never.

(** The pages a half-open byte range touches. *)
Definition range_pages (range : Z * Z) : list Z :=
  let first := range.1 / PAGE_SIZE in
  let last := (range.2 + PAGE_SIZE - 1) / PAGE_SIZE in
  (λ index, index * PAGE_SIZE) <$> seqZ first (last - first).

Definition find_vad (address : Z) (s : MemoryManager) : result Vad :=
  match bt_floor (mm_vads s) address with
  | Some (_, v) => if vad_end v <=? address then Err STATUS_INVALID_ADDRESS else Ok v
  | None => Err STATUS_INVALID_ADDRESS
  end.

Definition overlaps (base size : Z) (s : MemoryManager) : bool :=
  let end_ := saturating_add u64_max base size in
  existsb (λ v, (base <? vad_end v) && (vad_base v <? end_)) (bt_values (mm_vads s)).

(** The loop of [find_free_base]. *)
Fixpoint find_free_loop (fuel : nat) (candidate size : Z) : M MemoryManager Z :=
  match fuel with
  | O => panic
  | S fuel =>
      end_ <- ok_or (checked_add u64_max candidate size) STATUS_INVALID_PARAMETER ;;
      fail_if (USER_LIMIT <? end_) STATUS_NO_MEMORY ;;;
      vads <- gets mm_vads ;;
      match bt_below vads end_ with
      | Some (_, v) =>
          if candidate <? vad_end v then find_free_loop fuel (vad_end v) size
          else modify (set_next_base end_) ;;; ret candidate
      | None => modify (set_next_base end_) ;;; ret candidate
      end
  end.

(** Every round of the loop skips past one more reservation. *)
Definition find_free_base (size_ : Z) : M MemoryManager Z :=
  vads <- gets mm_vads ;;
  candidate <- gets mm_next_base ;;
  find_free_loop (S (size vads)) candidate size_.

Definition validate_range (base size : Z) (s : MemoryManager) : result (Z * Z) :=
  if (base =? 0) || (size =? 0) || negb (base mod mm_page_size s =? 0)
  then Err STATUS_INVALID_PARAMETER
  else
    match align_up size (mm_page_size s) with
    | None => Err STATUS_INVALID_PARAMETER
    | Some aligned =>
        match checked_add u64_max base aligned with
        | None => Err STATUS_INVALID_PARAMETER
        | Some end_ =>
            match find_vad base s with
            | Err e => Err e
            | Ok v => if vad_end v <? end_ then Err STATUS_INVALID_ADDRESS else Ok (base, end_)
            end
        end
    end.

(** ** Reservations *)

Definition reserve (base : option Z) (size : Z) : M MemoryManager Z :=
  fail_if ((size =? 0) || (MAX_REGION_SIZE <? size)) STATUS_INVALID_PARAMETER ;;;
  page_size <- gets mm_page_size ;;
  size <- ok_or (align_up size page_size) STATUS_INVALID_PARAMETER ;;
  base <- match base with
          | Some base =>
              fail_if ((base =? 0) || negb (base mod page_size =? 0)) STATUS_INVALID_PARAMETER ;;;
              conflict <- gets (overlaps base size) ;;
              fail_if conflict STATUS_CONFLICTING_ADDRESSES ;;;
              ret base
          | None => find_free_base size
          end ;;
  end_ <- ok_or (checked_add u64_max base size) STATUS_INVALID_PARAMETER ;;
  fail_if (USER_LIMIT <? end_) STATUS_NO_MEMORY ;;;
  let vad := {| vad_base := base; vad_size := size; vad_protection := READWRITE;
                vad_pages := ∅; vad_private := ∅; vad_mapping := None |} in
  modify (λ s, set_vads (<[base := vad]> (mm_vads s)) s) ;;;
  modify (λ s, set_next_base (Z.max (mm_next_base s) end_) s) ;;;
  ret base.

(** [range_pages(range).filter(|p| vad.pages.contains_key(p)).count()] *)
Definition count_committed (range : Z * Z) (v : Vad) : Z :=
  Z.of_nat (length (filter (λ p, is_Some (vad_pages v !! p)) (range_pages range))).

Definition commit (base size : Z) (protection : Protection) : M MemoryManager unit :=
  fail_if (negb (valid protection)) STATUS_INVALID_PAGE_PROTECTION ;;;
  range <- query (validate_range base size) ;;
  vad <- query (find_vad range.1) ;;
  fail_if (bool_decide (is_Some (vad_mapping vad))) STATUS_ALREADY_COMMITTED ;;;
  fail_if (negb (count_committed range vad =? 0)) STATUS_ALREADY_COMMITTED ;;;
  page_size <- gets mm_page_size ;;
  charge <- ok_or (checked_mul u64_max (Z.of_nat (length (range_pages range))) page_size)
              STATUS_INVALID_PARAMETER ;;
  committed <- gets mm_committed_bytes ;;
  max_commit <- gets mm_max_commit ;;
  fail_if (max_commit <? saturating_add u64_max committed charge) STATUS_COMMITMENT_LIMIT ;;;
  vads <- gets mm_vads ;;
  vad <- expect (vads !! vad_base vad) ;;
  let pages := foldl (λ m p, <[p := protection]> m) (vad_pages vad) (range_pages range) in
  let private := foldl (λ m p, <[p := zeros page_size]> m) (vad_private vad) (range_pages range) in
  modify (λ s, set_vads (<[vad_base vad :=
    with_pages protection pages private (vad_mapping vad) vad]> (mm_vads s)) s) ;;;
  committed' <- add_at u64_max committed charge ;;
  modify (λ s, set_charges committed' (mm_mapped_bytes s) s).

(** [self.resident.remove(&page); self.resident_order.retain(|c| *c != page)] *)
Definition evict_page (page : Z) (s : MemoryManager) : MemoryManager :=
  set_resident (mm_resident s ∖ {[page]}) (filter (λ c, c ≠ page) (mm_resident_order s)) s.

Definition decommit (base size : Z) : M MemoryManager unit :=
  range <- query (validate_range base size) ;;
  vad <- query (find_vad range.1) ;;
  fail_if (bool_decide (is_Some (vad_mapping vad))) STATUS_INVALID_PARAMETER ;;;
  let committed := count_committed range vad in
  fail_if (committed =? 0) STATUS_NOT_COMMITTED ;;;
  vads <- gets mm_vads ;;
  vad <- expect (vads !! vad_base vad) ;;
  let pages := foldl (λ m p, delete p m) (vad_pages vad) (range_pages range) in
  let private := foldl (λ m p, delete p m) (vad_private vad) (range_pages range) in
  modify (λ s, set_vads (<[vad_base vad :=
    with_pages (vad_protection vad) pages private (vad_mapping vad) vad]> (mm_vads s)) s) ;;;
  modify (λ s, foldl (λ s p, evict_page p s) s (range_pages range)) ;;;
  modify (λ s, set_charges
    (saturating_sub (mm_committed_bytes s) (committed * mm_page_size s)) (mm_mapped_bytes s) s).

Definition protect (base size : Z) (protection : Protection) : M MemoryManager Z :=
  fail_if (negb (valid protection)) STATUS_INVALID_PAGE_PROTECTION ;;;
  range <- query (validate_range base size) ;;
  found <- query (find_vad range.1) ;;
  vads <- gets mm_vads ;;
  vad <- expect (vads !! vad_base found) ;;
  for_each (range_pages range) (λ page,
    fail_if (bool_decide (vad_pages vad !! page = None)) STATUS_NOT_COMMITTED) ;;;
  let count := Z.of_nat (length (range_pages range)) in
  let pages := foldl (λ m p, <[p := protection]> m) (vad_pages vad) (range_pages range) in
  modify (λ s, set_vads (<[vad_base found :=
    with_pages protection pages (vad_private vad) (vad_mapping vad) vad]> (mm_vads s)) s) ;;;
  ret count.

Definition release (base size_ : Z) : M MemoryManager Z :=
  vads <- gets mm_vads ;;
  vad <- ok_or (vads !! base) STATUS_INVALID_ADDRESS ;;
  fail_if (negb (size_ =? 0) && negb (size_ =? vad_size vad)) STATUS_INVALID_PARAMETER ;;;
  page_size <- gets mm_page_size ;;
  let released := vad_size vad in
  let committed := Z.of_nat (size (vad_pages vad)) * page_size in
  let mapped := match vad_mapping vad with Some _ => vad_size vad | None => 0 end in
  let pages := bt_keys (vad_pages vad) in
  modify (λ s, set_vads (delete base (mm_vads s)) s) ;;;
  modify (λ s, set_charges (saturating_sub (mm_committed_bytes s) committed)
                 (saturating_sub (mm_mapped_bytes s) mapped) s) ;;;
  modify (λ s, foldl (λ s p, evict_page p s) s pages) ;;;
  ret released.

(** [MemoryManager::query] *)
Definition query_region (address : Z) (s : MemoryManager) : result MemoryInfo :=
  match find_vad address s with
  | Err e => Err e
  | Ok v =>
      Ok {| mi_base := vad_base v; mi_size := vad_size v; mi_protection := vad_protection v;
            mi_state := if bool_decide (vad_pages v = ∅) then MsReserved else MsCommitted;
            mi_mapped := map_section_id <$> vad_mapping v |}
  end.

(** ** Residency *)

(** [while resident.len() > target { pop_front().expect(..); remove; }]: the order
    and the set that remain and the number of pages evicted, or the failed
    [expect]. *)
Fixpoint evict_loop (target : Z) (order : list Z) (resident : gset Z) (evicted : Z)
    : option (list Z * gset Z * Z) :=
  if Z.of_nat (size resident) <=? target then Some (order, resident, evicted)
  else match order with
       | [] => None
       | page :: order => evict_loop target order (resident ∖ {[page]}) (evicted + 1)
       end.

Definition trim_working_set (target : Z) : M MemoryManager Z :=
  order <- gets mm_resident_order ;;
  resident <- gets mm_resident ;;
  ' (order, resident, evicted) <- expect (evict_loop target order resident 0) ;;
  modify (set_resident resident order) ;;;
  ret evicted.

Definition touch (page : Z) : M MemoryManager unit :=
  resident <- gets mm_resident ;;
  if bool_decide (page ∈ resident) then ret tt
  else
    order <- gets mm_resident_order ;;
    max <- gets mm_max_working_set ;;
    ' (order, resident, _) <-
      expect (evict_loop max (order ++ [page]) ({[page]} ∪ resident) 0) ;;
    modify (set_resident resident order).

(** ** Byte access *)

(** The protection scan of [check_access]. *)
Fixpoint check_pages (pages : list Z) (v : Vad) (write : bool) : result unit :=
  match pages with
  | [] => Ok tt
  | page :: pages =>
      match vad_pages v !! page with
      | None => Err STATUS_ACCESS_VIOLATION
      | Some protection =>
          if write then
            if negb (writable protection) then Err STATUS_ACCESS_VIOLATION
            else check_pages pages v write
          else if negb (readable protection) then Err STATUS_ACCESS_VIOLATION
          else check_pages pages v write
      end
  end.

Definition check_access (start end_ : Z) (write : bool) (s : MemoryManager) : result unit :=
  match find_vad start s with
  | Err e => Err e
  | Ok v =>
      if vad_end v <? end_ then Err STATUS_INVALID_ADDRESS
      else check_pages (range_pages (start, end_)) v write
  end.

Definition page_bytes (base page : Z) : M MemoryManager (list Z) :=
  vads <- gets mm_vads ;;
  vad <- ok_or (vads !! base) STATUS_INVALID_ADDRESS ;;
  match vad_private vad !! page with
  | Some private => ret private
  | None =>
      mapping <- expect (vad_mapping vad) ;;
      sections <- gets mm_sections ;;
      section <- ok_or (sections !! map_section_id mapping) STATUS_INVALID_HANDLE ;;
      page_size <- gets mm_page_size ;;
      let start := map_offset mapping + (page - vad_base vad) in
      expect (slice start page_size (sec_backing section))
  end.

Definition set_private (private : gmap Z (list Z)) (v : Vad) : Vad :=
  with_pages (vad_protection v) (vad_pages v) private (vad_mapping v) v.
Definition set_backing (bytes : list Z) (x : Section_) : Section_ :=
  {| sec_id := sec_id x; sec_kind := sec_kind x; sec_size := sec_size x;
     sec_backing := bytes |}.

Definition write_page (base page offset : Z) (data : list Z) : M MemoryManager unit :=
  vads <- gets mm_vads ;;
  vad <- ok_or (vads !! base) STATUS_INVALID_ADDRESS ;;
  match vad_mapping vad with
  | Some mapping =>
      if map_cow mapping then
        source <- page_bytes base page ;;
        let target := default source (vad_private vad !! page) in
        target' <- expect (splice offset data target) ;;
        modify (λ s, set_vads
          (<[base := set_private (<[page := target']> (vad_private vad)) vad]> (mm_vads s)) s)
      else
        let start := map_offset mapping + (page - base) + offset in
        sections <- gets mm_sections ;;
        section <- ok_or (sections !! map_section_id mapping) STATUS_INVALID_HANDLE ;;
        target' <- ok_or (splice start data (sec_backing section)) STATUS_INVALID_ADDRESS ;;
        modify (λ s, set_sections (mm_next_section s)
          (<[map_section_id mapping := set_backing target' section]> (mm_sections s)) s)
  | None =>
      target <- expect (vad_private vad !! page) ;;
      target' <- expect (splice offset data target) ;;
      modify (λ s, set_vads
        (<[base := set_private (<[page := target']> (vad_private vad)) vad]> (mm_vads s)) s)
  end.

(** The loop of [read]: it advances to the next page or to [end_]. *)
Fixpoint read_loop (fuel : nat) (base cursor end_ : Z) (output : list Z)
    : M MemoryManager (list Z) :=
  match fuel with
  | O => panic
  | S fuel =>
      if cursor <? end_ then
        page_size <- gets mm_page_size ;;
        let page := (cursor / page_size) * page_size in
        let offset := cursor mod page_size in
        let take_ := Z.min (page_size - offset) (end_ - cursor) in
        bytes <- page_bytes base page ;;
        chunk <- expect (slice offset take_ bytes) ;;
        touch page ;;;
        read_loop fuel base (cursor + take_) end_ (output ++ chunk)
      else ret output
  end.

(** One round per page the range touches, and a last test of the loop condition. *)
Definition access_fuel (start end_ : Z) : nat := S (length (range_pages (start, end_))).

Definition read (address length_ : Z) : M MemoryManager (list Z) :=
  if length_ =? 0 then ret []
  else
    end_ <- ok_or (checked_add u64_max address length_) STATUS_INVALID_ADDRESS ;;
    query (check_access address end_ false) ;;;
    vad <- query (find_vad address) ;;
    capacity length_ ;;;
    read_loop (access_fuel address end_) (vad_base vad) address end_ [].

(** The loop of [write]. *)
Fixpoint write_loop (fuel : nat) (base cursor end_ written : Z) (data : list Z)
    : M MemoryManager unit :=
  match fuel with
  | O => panic
  | S fuel =>
      if cursor <? end_ then
        page_size <- gets mm_page_size ;;
        let page := (cursor / page_size) * page_size in
        let offset := cursor mod page_size in
        let take_ := Z.min (page_size - offset) (Z.of_nat (length data) - written) in
        chunk <- expect (slice written take_ data) ;;
        write_page base page offset chunk ;;;
        touch page ;;;
        write_loop fuel base (cursor + take_) end_ (written + take_) data
      else ret tt
  end.

Definition write (address : Z) (data : list Z) : M MemoryManager unit :=
  match data with
  | [] => ret tt
  | _ =>
      end_ <- ok_or (checked_add u64_max address (Z.of_nat (length data)))
                STATUS_INVALID_ADDRESS ;;
      query (check_access address end_ true) ;;;
      vad <- query (find_vad address) ;;
      write_loop (access_fuel address end_) (vad_base vad) address end_ 0 data
  end.

(** ** Sections *)

Definition section_bytes (section offset length_ : Z) (s : MemoryManager) : result (list Z) :=
  match mm_sections s !! section with
  | None => Err STATUS_INVALID_HANDLE
  | Some record =>
      match checked_add usize_max offset length_ with
      | None => Err STATUS_INVALID_PARAMETER
      | Some _ =>
          match slice offset length_ (sec_backing record) with
          | None => Err STATUS_INVALID_PARAMETER
          | Some bytes => Ok bytes
          end
      end
  end.

Definition create_section (k : ViewKind) (size_ : Z) (initial : list Z) : M MemoryManager Z :=
  fail_if ((size_ =? 0) || (size_ <? Z.of_nat (length initial))) STATUS_INVALID_PARAMETER ;;;
  fail_if (MAX_SECTION_SIZE <? size_) STATUS_SECTION_TOO_BIG ;;;
  count <- gets section_count ;;
  max <- gets mm_max_sections ;;
  fail_if (max <=? count) STATUS_INSUFFICIENT_RESOURCES ;;;
  id <- gets mm_next_section ;;
  next <- add_at u64_max id 1 ;;
  backing <- expect (splice 0 initial (zeros size_)) ;;
  let section := {| sec_id := id; sec_kind := k; sec_size := size_; sec_backing := backing |} in
  modify (λ s, set_sections next (<[id := section]> (mm_sections s)) s) ;;;
  ret id.

(** Some view maps the section. *)
Definition maps_section (section : Z) (v : Vad) : bool :=
  match vad_mapping v with
  | Some mapping => map_section_id mapping =? section
  | None => false
  end.

Definition delete_section (section : Z) : M MemoryManager unit :=
  vads <- gets mm_vads ;;
  fail_if (existsb (maps_section section) (bt_values vads)) STATUS_INVALID_PARAMETER ;;;
  sections <- gets mm_sections ;;
  ok_or (sections !! section) STATUS_INVALID_HANDLE ;;;
  modify (λ s, set_sections (mm_next_section s) (delete section (mm_sections s)) s).

Definition map_section (section : Z) (base : option Z) (size_ : Z) (protection : Protection)
    (cow : bool) : M MemoryManager Z :=
  fail_if (negb (valid protection)) STATUS_INVALID_PAGE_PROTECTION ;;;
  sections <- gets mm_sections ;;
  record <- ok_or (sections !! section) STATUS_INVALID_HANDLE ;;
  fail_if (size_ =? 0) STATUS_INVALID_PARAMETER ;;;
  fail_if (sec_size record <? size_) STATUS_INVALID_VIEW_SIZE ;;;
  page_size <- gets mm_page_size ;;
  aligned <- ok_or (align_up size_ page_size) STATUS_INVALID_PARAMETER ;;
  fail_if (sec_size record <? aligned) STATUS_INVALID_VIEW_SIZE ;;;
  base <- reserve base aligned ;;
  let pages := (λ index, base + index * page_size) <$> seqZ 0 (aligned / page_size) in
  vads <- gets mm_vads ;;
  vad <- expect (vads !! base) ;;
  let page_map := foldl (λ m p, <[p := protection]> m) (vad_pages vad) pages in
  let mapping := {| map_section_id := section; map_offset := 0; map_cow := cow |} in
  modify (λ s, set_vads (<[base :=
    with_pages protection page_map (vad_private vad) (Some mapping) vad]> (mm_vads s)) s) ;;;
  mapped <- gets mm_mapped_bytes ;;
  mapped' <- add_at u64_max mapped aligned ;;
  modify (λ s, set_charges (mm_committed_bytes s) mapped' s) ;;;
  ret base.

Definition unmap_section (base : Z) : M MemoryManager Z :=
  vads <- gets mm_vads ;;
  vad <- ok_or (vads !! base) STATUS_INVALID_ADDRESS ;;
  fail_if (negb (bool_decide (is_Some (vad_mapping vad)))) STATUS_INVALID_PARAMETER ;;;
  release base 0.
