(* ===== verification/MemoryFacts.v ===== *)
(** * The address-space invariant

    Well-formedness of the memory manager (disjoint page-aligned regions, committed
    pages with their bytes, views over live sections, exact residency, bounded
    charges), and that every operation of [Memory] returns and preserves it. *)

From S2P Require Import Prelude Status Memory.

(** ** Pages *)

Definition aligned (x : Z) : Prop := x mod PAGE_SIZE = 0.
Definition page_of (x : Z) : Z := x / PAGE_SIZE * PAGE_SIZE.

Ltac page_arith := unfold aligned, page_of, PAGE_SIZE in *; Z.to_euclidean_division_equations; lia.

Lemma land_page_mask x : u64 x → Z.land x (not_u64 (PAGE_SIZE - 1)) = page_of x.
Proof.
  intros Hx. unfold page_of. change (not_u64 (PAGE_SIZE - 1)) with (Z.shiftl (Z.ones 52) 12).
  change PAGE_SIZE with (2 ^ 12). rewrite <-Z.shiftl_mul_pow2, <-Z.shiftr_div_pow2 by lia.
  apply Z.bits_inj'. intros i Hi. rewrite Z.land_spec, !Z.shiftl_spec by lia.
  destruct (decide (i < 12)).
  - rewrite !(Z.testbit_neg_r _ (i - 12)) by lia. by rewrite andb_false_r.
  - rewrite Z.shiftr_spec by lia. replace (i - 12 + 12) with i by lia.
    destruct (decide (i < 64)).
    + rewrite Z.ones_spec_low by lia. by rewrite andb_true_r.
    + rewrite (testbit_bounded 64 x i); [done|unfold u64, u64_max in Hx; lia|lia].
Qed.

Lemma align_up_Some x a :
  0 ≤ x → align_up x PAGE_SIZE = Some a → aligned a ∧ x ≤ a < x + PAGE_SIZE ∧ u64 a.
Proof.
  unfold align_up, checked_add. intros Hx.
  destruct (x + (PAGE_SIZE - 1) <=? u64_max) eqn:E; [|done]. bool_prop. intros [= <-].
  rewrite land_page_mask by (unfold u64, PAGE_SIZE in *; lia).
  unfold u64. unfold u64_max in *. page_arith.
Qed.

Lemma align_up_aligned x : 0 ≤ x → aligned x → x + PAGE_SIZE ≤ u64_max → align_up x PAGE_SIZE = Some x.
Proof.
  intros Hx Ha Hm. unfold align_up, checked_add. rewrite (proj2 (Z.leb_le _ _)) by lia.
  simpl. rewrite land_page_mask by (unfold u64, PAGE_SIZE in *; lia). f_equal. page_arith.
Qed.

(** The pages of a range are the aligned addresses whose page meets it. *)
Lemma elem_of_range_pages a b p :
  p ∈ range_pages (a, b) ↔ aligned p ∧ a < p + PAGE_SIZE ∧ p < b.
Proof.
  unfold range_pages. simpl. rewrite list_elem_of_fmap. setoid_rewrite elem_of_seqZ. split.
  - intros (i & -> & Hi). unfold aligned, PAGE_SIZE in *.
    Z.to_euclidean_division_equations; lia.
  - intros (Hp & H1 & H2). exists (p / PAGE_SIZE). page_arith.
Qed.

Lemma NoDup_range_pages a b : NoDup (range_pages (a, b)).
Proof.
  unfold range_pages. apply NoDup_fmap_2; [|apply NoDup_seqZ].
  intros x y. unfold PAGE_SIZE. lia.
Qed.

Lemma length_range_pages a b :
  Z.of_nat (length (range_pages (a, b))) =
  Z.max 0 ((b + PAGE_SIZE - 1) / PAGE_SIZE - a / PAGE_SIZE).
Proof. unfold range_pages. rewrite length_fmap, length_seqZ. simpl. lia. Qed.

Lemma page_of_range x a b : a ≤ x < b → page_of x ∈ range_pages (a, b).
Proof. intros Hx. apply elem_of_range_pages. page_arith. Qed.

Lemma length_zeros n : 0 ≤ n → Z.of_nat (length (zeros n)) = n.
Proof. intros. unfold zeros. rewrite length_replicate. lia. Qed.

(** ** The invariant *)

Record region_ok (b size : Z) : Prop := {
  region_base : 0 < b ∧ aligned b;
  region_size : 0 < size ∧ aligned size;
  region_end : b + size ≤ USER_LIMIT;
}.

Record mapping_ok (secs : gmap Z Section_) (v : Vad) (m : Mapping) : Prop := {
  mapping_offset : map_offset m = 0;
  mapping_section : ∃ sec, secs !! map_section_id m = Some sec ∧ vad_size v ≤ sec_size sec;
  mapping_shared : map_cow m = false → vad_private v = ∅;
  mapping_pages : ∀ p, vad_base v ≤ p < vad_end v → aligned p → is_Some (vad_pages v !! p);
}.

Record vad_ok (secs : gmap Z Section_) (b : Z) (v : Vad) : Prop := {
  vad_ok_base : vad_base v = b;
  vad_ok_region : region_ok b (vad_size v);
  vad_ok_pages : ∀ p, is_Some (vad_pages v !! p) → b ≤ p < vad_end v ∧ aligned p;
  vad_ok_private : ∀ p bytes, vad_private v !! p = Some bytes →
    Z.of_nat (length bytes) = PAGE_SIZE ∧ is_Some (vad_pages v !! p);
  vad_ok_mapping : match vad_mapping v with
                   | None => ∀ p, is_Some (vad_pages v !! p) → is_Some (vad_private v !! p)
                   | Some m => mapping_ok secs v m
                   end;
}.

Definition section_ok (next id : Z) (x : Section_) : Prop :=
  1 ≤ id < next ∧ 1 ≤ sec_size x ≤ MAX_SECTION_SIZE ∧
  Z.of_nat (length (sec_backing x)) = sec_size x.

(** The bytes a region should be charged for, and the bytes it maps. *)
Definition vad_charge (v : Vad) : Z :=
  match vad_mapping v with
  | None => PAGE_SIZE * Z.of_nat (size (vad_pages v))
  | Some _ => 0
  end.
Definition vad_mapped (v : Vad) : Z :=
  match vad_mapping v with None => 0 | Some _ => vad_size v end.
Definition total_charge (vads : gmap Z Vad) : Z := map_sum (λ _ v, vad_charge v) vads.
Definition total_mapped (vads : gmap Z Vad) : Z := map_sum (λ _ v, vad_mapped v) vads.

Definition resident_ok (cap : Z) (r : gset Z) (o : list Z) : Prop :=
  r = list_to_set o ∧ NoDup o ∧ Z.of_nat (length o) ≤ cap.

Definition disjoint_vads (vads : gmap Z Vad) : Prop :=
  ∀ b1 v1 b2 v2, vads !! b1 = Some v1 → vads !! b2 = Some v2 → b1 < b2 → vad_end v1 ≤ b2.

Record Inv (s : MemoryManager) : Prop := {
  inv_page_size : mm_page_size s = PAGE_SIZE;
  inv_vads : ∀ b v, mm_vads s !! b = Some v → vad_ok (mm_sections s) b v;
  inv_disjoint : disjoint_vads (mm_vads s);
  inv_sections : ∀ id x, mm_sections s !! id = Some x → section_ok (mm_next_section s) id x;
  inv_next_section : 1 ≤ mm_next_section s;
  inv_next_base : 0 < mm_next_base s ≤ USER_LIMIT ∧ aligned (mm_next_base s);
  inv_committed : 0 ≤ mm_committed_bytes s ≤ mm_max_commit s ∧ mm_max_commit s < u64_max ∧
    mm_committed_bytes s ≤ total_charge (mm_vads s);
  inv_mapped : mm_mapped_bytes s = total_mapped (mm_vads s);
  inv_resident : resident_ok (mm_max_working_set s) (mm_resident s) (mm_resident_order s);
}.

Lemma memory_inv_new max_commit max_sections max_ws :
  0 ≤ max_commit < u64_max → 0 ≤ max_ws → Inv (new_memory max_commit max_sections max_ws).
Proof.
  intros Hc Hw. split; simpl; try done.
  - unfold total_charge. rewrite map_sum_empty. lia.
  - by split_and!; [|constructor|].
Qed.

(** Residency is independent of the rest. *)
Lemma inv_set_resident s r o :
  Inv s → resident_ok (mm_max_working_set s) r o → Inv (set_resident r o s).
Proof. intros [] Hr. by split. Qed.

(** ** Finding regions *)

Lemma find_vad_Ok s a v :
  Inv s →
  find_vad a s = Ok v ↔ mm_vads s !! vad_base v = Some v ∧ vad_base v ≤ a < vad_end v.
Proof.
  intros HI. unfold find_vad. split.
  - destruct (bt_floor (mm_vads s) a) as [[b w]|] eqn:Hf; [|done].
    apply bt_floor_Some in Hf as (Hb & Hle & _).
    destruct (vad_end w <=? a) eqn:E; [done|]. intros [= <-]. bool_prop.
    rewrite (vad_ok_base _ _ _ (inv_vads _ HI _ _ Hb)). done.
  - intros [Hv Hr]. rewrite (bt_floor_intro _ a (vad_base v) v); [|done|lia|].
    + by rewrite (proj2 (Z.leb_gt _ _)) by lia.
    + intros b [w Hw] Hle. destruct (decide (b ≤ vad_base v)) as [|Hgt]; [done|].
      pose proof (inv_disjoint _ HI _ _ _ _ Hv Hw). lia.
Qed.

Lemma find_vad_total s a : find_vad a s = Err STATUS_INVALID_ADDRESS ∨ ∃ v, find_vad a s = Ok v.
Proof. unfold find_vad. repeat case_match; eauto. Qed.

Lemma overlaps_false s b size :
  Inv s → u64 b → 0 < size → overlaps b size s = false →
  ∀ b' v', mm_vads s !! b' = Some v' → vad_end v' ≤ b ∨ b + size ≤ b'.
Proof.
  intros HI Hb Hs Ho b' v' Hv. unfold overlaps in Ho.
  assert ((b <? vad_end v') && (vad_base v' <? saturating_add u64_max b size) = false) as Hn.
  { apply not_true_is_false. intros Ht. rewrite <-not_true_iff_false in Ho. apply Ho.
    apply existsb_exists. exists v'. split; [|done].
    apply list_elem_of_In, elem_of_bt_values. eauto. }
  destruct (inv_vads _ HI _ _ Hv) as [Hbase [[? ?] [? ?] Hend] _ _ _].
  unfold saturating_add, u64, u64_max, USER_LIMIT in *.
  apply andb_false_iff in Hn as [Hn|Hn]; bool_prop; lia.
Qed.

(** ** Adding, changing and removing a region *)

Lemma inv_add_vad s b v nb :
  Inv s → vad_ok (mm_sections s) b v → vad_charge v = 0 → vad_mapped v = 0 →
  (∀ b' v', mm_vads s !! b' = Some v' → vad_end v' ≤ b ∨ b + vad_size v ≤ b') →
  0 < nb ≤ USER_LIMIT ∧ aligned nb →
  mm_vads s !! b = None ∧ Inv (set_next_base nb (set_vads (<[b := v]> (mm_vads s)) s)).
Proof.
  intros HI Hv Hc Hm Hd Hnb. destruct HI.
  assert (mm_vads s !! b = None) as Hfresh.
  { destruct (mm_vads s !! b) as [w|] eqn:Hw; [|done]. destruct (Hd _ _ Hw) as [H|H].
    - destruct (inv_vads0 _ _ Hw) as [Hb [_ [? _] _] _ _ _]. unfold vad_end in H. lia.
    - destruct Hv as [_ [_ [? _] _] _ _ _]. lia. }
  split; [done|]. split; simpl; try done.
  - intros b' v'. rewrite lookup_insert. case_decide; [|apply inv_vads0]. by intros [= <-]; subst.
  - pose proof (vad_ok_base _ _ _ Hv) as Hvb.
    assert (0 < vad_size v) as Hsz by apply Hv.
    intros b1 v1 b2 v2. rewrite !lookup_insert.
    case_decide; case_decide; intros Hv1 Hv2 Hlt; simplify_eq; try lia.
    + destruct (Hd _ _ Hv2); unfold vad_end in *; try lia.
      assert (0 < vad_size v2) by apply (inv_vads0 _ _ Hv2).
      pose proof (vad_ok_base _ _ _ (inv_vads0 _ _ Hv2)). lia.
    + destruct (Hd _ _ Hv1); [done|lia].
    + by eapply inv_disjoint0.
  - unfold total_charge in *. rewrite map_sum_insert by done. lia.
  - unfold total_mapped in *. rewrite map_sum_insert by done. lia.
Qed.

Lemma inv_update_vad s b v v' c m :
  Inv s → mm_vads s !! b = Some v → vad_ok (mm_sections s) b v' → vad_size v' = vad_size v →
  0 ≤ c ≤ mm_max_commit s → c ≤ Z.max 0 (mm_committed_bytes s + vad_charge v' - vad_charge v) →
  m = mm_mapped_bytes s + vad_mapped v' - vad_mapped v →
  Inv (set_charges c m (set_vads (<[b := v']> (mm_vads s)) s)).
Proof.
  intros HI Hv Hok Hsz Hc1 Hc2 Hm. destruct HI. split; simpl; try done.
  - intros b' w. rewrite lookup_insert. case_decide; [|apply inv_vads0]. by intros [= <-]; subst.
  - pose proof (vad_ok_base _ _ _ Hok) as Hvb. pose proof (vad_ok_base _ _ _ (inv_vads0 _ _ Hv)).
    assert (vad_end v' = vad_end v) as He by (unfold vad_end; lia).
    intros b1 v1 b2 v2. rewrite !lookup_insert.
    case_decide; case_decide; intros Hv1 Hv2 Hlt; simplify_eq; try lia.
    + rewrite He. by eapply inv_disjoint0.
    + by eapply inv_disjoint0.
    + by eapply inv_disjoint0.
  - unfold total_charge in *. rewrite (map_sum_update _ _ _ _ _ Hv).
    assert (0 ≤ map_sum (λ _ v, vad_charge v) (mm_vads s) - vad_charge v + vad_charge v').
    { assert (vad_charge v ≤ map_sum (λ _ v, vad_charge v) (mm_vads s)).
      { apply (map_sum_elem_le (λ _ v, vad_charge v) _ b); [|done].
        intros. unfold vad_charge, PAGE_SIZE. case_match; lia. }
      assert (0 ≤ vad_charge v'); [|lia]. unfold vad_charge, PAGE_SIZE. case_match; lia. }
    lia.
  - unfold total_mapped in *. rewrite (map_sum_update _ _ _ _ _ Hv). lia.
Qed.

Lemma inv_delete_vad s b v c m :
  Inv s → mm_vads s !! b = Some v →
  0 ≤ c ≤ mm_max_commit s → c ≤ Z.max 0 (mm_committed_bytes s - vad_charge v) →
  m = mm_mapped_bytes s - vad_mapped v →
  Inv (set_charges c m (set_vads (delete b (mm_vads s)) s)).
Proof.
  intros HI Hv Hc1 Hc2 Hm. destruct HI. split; simpl; try done.
  - intros b' w [_ Hw]%lookup_delete_Some. by apply inv_vads0.
  - intros b1 v1 b2 v2 [_ H1]%lookup_delete_Some [_ H2]%lookup_delete_Some. by eapply inv_disjoint0.
  - unfold total_charge in *.
    pose proof (map_sum_delete (λ _ v, vad_charge v) _ _ _ Hv) as Hsum. cbn beta in Hsum.
    assert (0 ≤ map_sum (λ _ v, vad_charge v) (delete b (mm_vads s))); [|lia].
    apply map_sum_nonneg. intros. unfold vad_charge, PAGE_SIZE. case_match; lia.
  - unfold total_mapped in *. pose proof (map_sum_delete (λ _ v, vad_mapped v) _ _ _ Hv) as Hsum.
    cbn beta in Hsum. lia.
Qed.

(** ** Regions fit the address space *)

Lemma disjoint_sum_bound n vads limit :
  size vads = n → 0 ≤ limit → disjoint_vads vads →
  (∀ b v, vads !! b = Some v → vad_base v = b ∧ 0 < b ∧ 0 < vad_size v ∧ vad_end v ≤ limit) →
  map_sum (λ _ v, vad_size v) vads ≤ limit.
Proof.
  revert vads limit. induction n as [|n IH]; intros vads limit Hn Hl Hd Hok.
  - apply map_size_empty_inv in Hn as ->. by rewrite map_sum_empty.
  - destruct (bt_floor vads limit) as [[b v]|] eqn:Hf.
    + apply bt_floor_Some in Hf as (Hv & Hle & Hmax).
      destruct (Hok _ _ Hv) as (Hb & ? & ? & Hend).
      rewrite (map_sum_delete _ _ _ _ Hv).
      assert (map_sum (λ _ v, vad_size v) (delete b vads) ≤ b); [|unfold vad_end in Hend; lia].
      apply IH.
      * rewrite map_size_delete_Some by eauto. lia.
      * lia.
      * intros b1 v1 b2 v2 [_ ?]%lookup_delete_Some [_ ?]%lookup_delete_Some. by eapply Hd.
      * intros b' v' [Hne Hv']%lookup_delete_Some. destruct (Hok _ _ Hv') as (?&?&?&He').
        split_and!; try done. eapply Hd; [done|done|].
        assert (b' ≤ b); [|lia]. apply Hmax; [by eauto|]. unfold vad_end in He'. lia.
    + exfalso. destruct (map_choose vads) as (b & v & Hv).
      { intros ->. by rewrite map_size_empty in Hn. }
      pose proof (bt_floor_None _ _ _ _ Hf Hv). destruct (Hok _ _ Hv) as (?&?&?&He).
      unfold vad_end in He. lia.
Qed.

Lemma mapped_bound s : Inv s → 0 ≤ mm_mapped_bytes s ≤ USER_LIMIT.
Proof.
  intros HI. rewrite (inv_mapped _ HI). unfold total_mapped. split.
  - apply map_sum_nonneg. intros b v Hv. unfold vad_mapped.
    destruct (inv_vads _ HI _ _ Hv) as [_ [_ [? _] _] _ _ _]. case_match; lia.
  - transitivity (map_sum (λ _ v, vad_size v) (mm_vads s)).
    + apply map_sum_le. intros b v Hv. unfold vad_mapped.
      destruct (inv_vads _ HI _ _ Hv) as [_ [_ [? _] _] _ _ _]. case_match; lia.
    + apply (disjoint_sum_bound (size (mm_vads s))); [done|done|apply (inv_disjoint _ HI)|].
      intros b v Hv. destruct (inv_vads _ HI _ _ Hv) as [Hb [[? _] [? _] He] _ _ _].
      unfold vad_end. rewrite Hb. done.
Qed.

(** ** The search for a free base *)

(** The reservations that still end above a candidate base. *)
Definition remaining (candidate : Z) (vads : gmap Z Vad) : nat :=
  size (filter (λ bv, candidate < vad_end bv.2) vads).

Lemma remaining_le candidate vads : (remaining candidate vads ≤ size vads)%nat.
Proof. apply map_subseteq_size, map_filter_subseteq. Qed.

Lemma remaining_decreases candidate vads b v :
  vads !! b = Some v → candidate < vad_end v →
  (remaining (vad_end v) vads < remaining candidate vads)%nat.
Proof.
  intros Hv Hlt. apply map_subset_size, map_subset_alt. split.
  - apply map_filter_subseteq_ext. intros i w _. simpl. intros. lia.
  - exists b. split.
    + apply map_lookup_filter_None_2. right. intros w Hw. simplify_eq. simpl. lia.
    + exists v. by apply map_lookup_filter_Some_2.
Qed.

Lemma below_None_free s b e :
  bt_below (mm_vads s) e = None →
  ∀ b' v', mm_vads s !! b' = Some v' → vad_end v' ≤ b ∨ e ≤ b'.
Proof.
  rewrite bt_below_floor. intros Hf b' v' Hv. right.
  pose proof (bt_floor_None _ _ _ _ Hf Hv). lia.
Qed.

Lemma below_Some_free s b e b1 v1 :
  Inv s → bt_below (mm_vads s) e = Some (b1, v1) → vad_end v1 ≤ b →
  ∀ b' v', mm_vads s !! b' = Some v' → vad_end v' ≤ b ∨ e ≤ b'.
Proof.
  rewrite bt_below_floor. intros HI (H1 & Hle & Hmax)%bt_floor_Some Hend b' v' Hv.
  destruct (decide (b' < e)) as [Hlt|]; [left|right; lia].
  assert (b' ≤ b1) by (apply Hmax; [by eauto|lia]).
  destruct (decide (b' = b1)); [by simplify_eq|].
  assert (vad_end v' ≤ b1) by (eapply (inv_disjoint _ HI); [done|done|lia]).
  destruct (inv_vads _ HI _ _ H1) as [Hb [_ [? _] _] _ _ _]. unfold vad_end in *. lia.
Qed.

Definition free_range (s : MemoryManager) (b size : Z) : Prop :=
  ∀ b' v', mm_vads s !! b' = Some v' → vad_end v' ≤ b ∨ b + size ≤ b'.

Lemma find_free_loop_spec fuel candidate size s :
  Inv s → 0 < candidate ≤ USER_LIMIT → aligned candidate → 0 < size → aligned size →
  (remaining candidate (mm_vads s) < fuel)%nat →
  wp (find_free_loop fuel candidate size) s (λ r s',
    match r with
    | Ok b => s' = set_next_base (b + size) s ∧ candidate ≤ b ∧ aligned b ∧
              b + size ≤ USER_LIMIT ∧ free_range s b size
    | Err _ => s' = s
    end).
Proof.
  intros HI. revert candidate. induction fuel as [|fuel IH]; intros c Hc Ha Hs Has Hfuel; [lia|].
  unfold wp. cbn [find_free_loop]. mrun. unfold checked_add.
  destruct (c + size <=? u64_max) eqn:Hmax; mrun; [|done].
  destruct (USER_LIMIT <? c + size) eqn:Hlim; mrun; [done|]. bool_prop.
  destruct (bt_below (mm_vads s) (c + size)) as [[b1 v1]|] eqn:Hb.
  - destruct (c <? vad_end v1) eqn:Hend; bool_prop.
    + assert (mm_vads s !! b1 = Some v1) as H1.
      { rewrite bt_below_floor in Hb. by apply bt_floor_Some in Hb as (?&_). }
      pose proof (remaining_decreases _ _ _ _ H1 Hend).
      destruct (inv_vads _ HI _ _ H1) as [Hb1 [[? ?] [? ?] ?] _ _ _].
      eapply wp_mono.
      { apply (IH (vad_end v1)); [| |done|done|lia]; unfold vad_end; rewrite Hb1;
          [lia|page_arith]. }
      intros [b|e] s' Hr; [|done]. destruct Hr as (?&?&?&?&?). split_and!; try done; lia.
    + simpl. split_and!; try done; try lia. exact (below_Some_free _ _ _ _ _ HI Hb Hend).
  - simpl. split_and!; try done; try lia. exact (below_None_free _ _ _ Hb).
Qed.

Definition fresh_vad (b size : Z) : Vad :=
  {| vad_base := b; vad_size := size; vad_protection := READWRITE; vad_pages := ∅;
     vad_private := ∅; vad_mapping := None |}.

Lemma fresh_vad_ok secs b size : region_ok b size → vad_ok secs b (fresh_vad b size).
Proof.
  intros Hr. split; simpl; try done; intros p; rewrite lookup_empty; try done.
Qed.

(** A successful reservation adds one fresh region that meets no other; a failed
    one changes nothing. *)
Lemma reserve_spec base sz s :
  Inv s → u64 sz → match base with Some b => u64 b | None => True end →
  wp (reserve base sz) s (λ r s', Inv s' ∧
    match r with
    | Ok b => ∃ a, align_up sz PAGE_SIZE = Some a ∧ region_ok b a ∧ free_range s b a ∧
        match base with Some b0 => b = b0 | None => mm_next_base s ≤ b end ∧
        mm_vads s !! b = None ∧
        s' = set_next_base (Z.max (mm_next_base s) (b + a))
               (set_vads (<[b := fresh_vad b a]> (mm_vads s)) s)
    | Err _ => s' = s
    end).
Proof.
  intros HI Hsz Hbase. unfold reserve. unfold wp. mrun.
  destruct ((sz =? 0) || (MAX_REGION_SIZE <? sz)) eqn:E0; mrun; [done|]. bool_prop.
  rewrite (inv_page_size _ HI). destruct (align_up sz PAGE_SIZE) as [a|] eqn:Ha; mrun; [|done].
  apply align_up_Some in Ha as Ha'; [|apply Hsz]. destruct Ha' as (Haa & Har & Hau).
  assert (0 < a) as Hapos by (unfold u64 in Hsz; lia).
  pose proof (inv_next_base _ HI) as [Hnb Hnba].
  (* the fresh region, wherever it goes *)
  assert (∀ b nb, 0 < b → aligned b → b + a ≤ USER_LIMIT → free_range s b a →
    nb = Z.max (mm_next_base s) (b + a) → mm_vads s !! b = None ∧ region_ok b a ∧
    Inv (set_next_base nb (set_vads (<[b := fresh_vad b a]> (mm_vads s)) s))) as Hadd.
  { intros b nb Hb Hba Hlim Hfree ->. assert (region_ok b a) as Hreg by done.
    destruct (inv_add_vad s b (fresh_vad b a) (Z.max (mm_next_base s) (b + a)) HI) as [? ?];
      try done; [by apply fresh_vad_ok|]. split; [lia|].
    destruct (Z.max_spec (mm_next_base s) (b + a)) as [[_ ->]|[_ ->]]; [page_arith|done]. }
  destruct base as [b|]; mrun.
  - destruct ((b =? 0) || negb (b mod PAGE_SIZE =? 0)) eqn:Eb; mrun; [done|]. bool_prop.
    destruct (overlaps b a s) eqn:Eo; mrun; [done|].
    unfold checked_add. destruct (b + a <=? u64_max) eqn:Em; mrun; [|done].
    destruct (USER_LIMIT <? b + a) eqn:El; mrun; [done|]. bool_prop.
    pose proof (overlaps_false _ _ _ HI Hbase Hapos Eo) as Hfree.
    destruct (Hadd b _ ltac:(unfold u64 in Hbase; lia) ltac:(done) El Hfree eq_refl)
      as (Hnone & Hreg & HI'). split; [done|]. by exists a.
  - unfold find_free_base. mrun.
    pose proof (find_free_loop_spec (Datatypes.S (size (mm_vads s))) (mm_next_base s) a s HI
      Hnb Hnba Hapos Haa) as Hf.
    specialize (Hf ltac:(pose proof (remaining_le (mm_next_base s) (mm_vads s)); lia)).
    unfold wp in Hf. destruct (find_free_loop _ _ _ _) as [[b|e] s1|]; [| |done].
    + destruct Hf as (-> & Hge & Hba & Hlim & Hfree). mrun. unfold checked_add.
      rewrite (proj2 (Z.leb_le _ _)) by (unfold USER_LIMIT, u64_max in *; lia). mrun.
      rewrite (proj2 (Z.ltb_ge _ _)) by done. mrun.
      destruct (Hadd b _ ltac:(lia) Hba Hlim Hfree eq_refl) as (Hnone & Hreg & HI').
      assert (set_next_base (Z.max (b + a) (b + a))
        (set_vads (<[b := fresh_vad b a]> (mm_vads s)) (set_next_base (b + a) s)) =
        set_next_base (Z.max (mm_next_base s) (b + a))
          (set_vads (<[b := fresh_vad b a]> (mm_vads s)) s)) as Heq.
      { unfold set_next_base, set_vads; simpl. f_equal. lia. }
      split; [by rewrite <-Heq in HI'|]. exists a. by split_and!.
    + by subst.
Qed.

(** ** Committing, decommitting and protecting a range *)

(** What a validated range is. *)
Record range_of (s : MemoryManager) (base sz : Z) (v : Vad) (a : Z) : Prop := {
  range_aligned : align_up sz PAGE_SIZE = Some a ∧ aligned base ∧ aligned a;
  range_positive : 0 < base ∧ 0 < a;
  range_vad : mm_vads s !! vad_base v = Some v ∧ find_vad base s = Ok v;
  range_inside : vad_base v ≤ base ∧ base + a ≤ vad_end v;
}.

Lemma validate_range_Ok s base sz r :
  Inv s → u64 base → u64 sz → validate_range base sz s = Ok r →
  ∃ v a, range_of s base sz v a ∧ r = (base, base + a).
Proof.
  intros HI Hb Hs. unfold validate_range. rewrite (inv_page_size _ HI).
  destruct (_ || _) eqn:E; [done|]. bool_prop.
  destruct (align_up sz PAGE_SIZE) as [a|] eqn:Ha; [|done].
  unfold checked_add. destruct (base + a <=? u64_max); [|done].
  destruct (find_vad base s) as [v|] eqn:Hv; [|done].
  destruct (vad_end v <? base + a) eqn:He; [done|]. intros [= <-]. bool_prop.
  apply (find_vad_Ok _ _ _ HI) in Hv as Hv'. destruct Hv' as [Hv1 Hv2].
  apply align_up_Some in Ha as Ha'; [|apply Hs]. destruct Ha' as (?&?&?).
  exists v, a. split; [|done]. unfold u64 in *. split; try done; split; try done; try lia.
Qed.

Lemma validate_range_total s base sz : ∃ r, query (validate_range base sz) s = Done r s.
Proof. eauto. Qed.

Lemma elem_of_aligned_range base a p :
  aligned base → aligned a → p ∈ range_pages (base, base + a) ↔ aligned p ∧ base ≤ p < base + a.
Proof. intros Hb Ha. rewrite elem_of_range_pages. split; intros; page_arith. Qed.

Lemma length_aligned_range base a :
  aligned base → aligned a → 0 ≤ a →
  Z.of_nat (length (range_pages (base, base + a))) * PAGE_SIZE = a.
Proof. intros Hb Ha Hpos. rewrite length_range_pages. page_arith. Qed.

Definition committed_vad (prot : Protection) (range : Z * Z) (v : Vad) : Vad :=
  with_pages prot (foldl (λ m p, <[p := prot]> m) (vad_pages v) (range_pages range))
    (foldl (λ m p, <[p := zeros PAGE_SIZE]> m) (vad_private v) (range_pages range))
    (vad_mapping v) v.
Definition decommitted_vad (range : Z * Z) (v : Vad) : Vad :=
  with_pages (vad_protection v) (foldl (λ m p, delete p m) (vad_pages v) (range_pages range))
    (foldl (λ m p, delete p m) (vad_private v) (range_pages range)) (vad_mapping v) v.
Definition protected_vad (prot : Protection) (range : Z * Z) (v : Vad) : Vad :=
  with_pages prot (foldl (λ m p, <[p := prot]> m) (vad_pages v) (range_pages range))
    (vad_private v) (vad_mapping v) v.

Lemma committed_vad_ok s base sz v a prot :
  Inv s → range_of s base sz v a → vad_mapping v = None →
  vad_ok (mm_sections s) (vad_base v) (committed_vad prot (base, base + a) v).
Proof.
  intros HI [(_ & Hba & Haa) Hpos [Hv _] [Hin1 Hin2]] Hm.
  destruct (inv_vads _ HI _ _ Hv) as [Hb Hr Hp Hpr Hmap]. rewrite Hm in Hmap.
  unfold committed_vad. split; simpl; try done.
  - intros p. rewrite lookup_fold_insert. unfold vad_end; simpl. fold (vad_end v).
    case_decide as Hd; [|apply Hp]. intros _. apply elem_of_aligned_range in Hd; [|done|done].
    split; [lia|apply Hd].
  - intros p bytes. rewrite !lookup_fold_insert. case_decide as Hd.
    + intros [= <-]. by rewrite length_zeros by done.
    + intros Hb'. destruct (Hpr _ _ Hb') as [? ?]. done.
  - rewrite Hm. intros p. rewrite !lookup_fold_insert. case_decide; [by eauto|apply Hmap].
Qed.

Lemma decommitted_vad_ok s base sz v a :
  Inv s → range_of s base sz v a → vad_mapping v = None →
  vad_ok (mm_sections s) (vad_base v) (decommitted_vad (base, base + a) v).
Proof.
  intros HI [_ _ [Hv _] _] Hm.
  destruct (inv_vads _ HI _ _ Hv) as [Hb Hr Hp Hpr Hmap]. rewrite Hm in Hmap.
  unfold decommitted_vad. split; simpl; try done.
  - intros p. rewrite lookup_fold_delete. case_decide; [by intros [? ?]|apply Hp].
  - intros p bytes. rewrite !lookup_fold_delete. case_decide; [done|apply Hpr].
  - rewrite Hm. intros p. rewrite !lookup_fold_delete. case_decide; [by intros [? ?]|apply Hmap].
Qed.

Lemma protected_vad_ok s base sz v a prot :
  Inv s → range_of s base sz v a →
  (∀ p, p ∈ range_pages (base, base + a) → is_Some (vad_pages v !! p)) →
  vad_ok (mm_sections s) (vad_base v) (protected_vad prot (base, base + a) v) ∧
  size (vad_pages (protected_vad prot (base, base + a) v)) = size (vad_pages v).
Proof.
  intros HI [_ _ [Hv _] _] Hall.
  destruct (inv_vads _ HI _ _ Hv) as [Hb Hr Hp Hpr Hmap].
  assert (∀ p, is_Some (foldl (λ m p, <[p := prot]> m) (vad_pages v)
    (range_pages (base, base + a)) !! p) ↔ is_Some (vad_pages v !! p)) as Hdom.
  { intros p. rewrite lookup_fold_insert. case_decide; [|done]. split; [auto|eauto]. }
  split.
  - unfold protected_vad. split; simpl; try done.
    + intros p. rewrite Hdom. apply Hp.
    + intros p bytes. rewrite Hdom. apply Hpr.
    + destruct (vad_mapping v) as [m|].
      * destruct Hmap as [? ? ? Hpg]. split; simpl; try done.
        intros p Hpr' Hpa. rewrite Hdom. by apply Hpg.
      * intros p. rewrite Hdom. apply Hmap.
  - rewrite <-!size_dom. f_equal. apply set_eq. intros p. rewrite !elem_of_dom. apply Hdom.
Qed.

Lemma with_charges_id s :
  set_charges (mm_committed_bytes s) (mm_mapped_bytes s) s = s.
Proof. by destruct s. Qed.

Lemma commit_spec base sz prot s :
  Inv s → u64 base → u64 sz →
  wp (commit base sz prot) s (λ r s', Inv s' ∧
    match r with
    | Err _ => s' = s
    | Ok _ => valid prot = true ∧ ∃ v a, range_of s base sz v a ∧ vad_mapping v = None ∧
        (∀ p, p ∈ range_pages (base, base + a) → vad_pages v !! p = None) ∧
        mm_committed_bytes s + a ≤ mm_max_commit s ∧
        s' = set_charges (mm_committed_bytes s + a) (mm_mapped_bytes s)
               (set_vads (<[vad_base v := committed_vad prot (base, base + a) v]> (mm_vads s)) s)
    end).
Proof.
  intros HI Hb Hs. unfold commit, wp. mrun.
  destruct (valid prot) eqn:Hp; mrun; [|done].
  destruct (validate_range base sz s) as [r|] eqn:Hr; mrun; [|done].
  destruct (validate_range_Ok _ _ _ _ HI Hb Hs Hr) as (v & a & Hra & ->). mrun.
  pose proof Hra as [(_ & Hba & Haa) [Hb0 Ha0] [Hv Hf] _]. rewrite Hf. mrun.
  destruct (vad_mapping v) as [m|] eqn:Hm; [by rewrite bool_decide_true by eauto|].
  rewrite bool_decide_false by (by intros [? ?]). mrun.
  destruct (count_committed (base, base + a) v =? 0) eqn:Hc; mrun; [|done].
  rewrite (inv_page_size _ HI). unfold checked_mul.
  rewrite length_aligned_range by (done || lia).
  destruct (inv_committed _ HI) as (Hcb & Hmax & Hsum).
  destruct (a <=? u64_max); mrun; [|done].
  destruct (mm_max_commit s <? saturating_add u64_max (mm_committed_bytes s) a) eqn:Hlim;
    mrun; [done|]. bool_prop. unfold saturating_add in Hlim.
  rewrite Hv. mrun. simpl. rewrite (proj2 (Z.leb_le _ _)) by lia. mrun. simpl.
  assert (∀ p, p ∈ range_pages (base, base + a) → vad_pages v !! p = None) as Hnone.
  { intros p Hin. apply eq_None_not_Some. intros Hsome. unfold count_committed in Hc.
    assert (p ∈ filter (λ p, is_Some (vad_pages v !! p)) (range_pages (base, base + a))) as Hx
      by (by apply list_elem_of_filter).
    destruct (filter _ _); [by apply not_elem_of_nil in Hx|]. simpl in Hc. lia. }
  split; [|split; [done|]; exists v, a; split_and!; try done; try lia].
  apply (inv_update_vad _ _ v (committed_vad prot (base, base + a) v)); try done.
  - by apply (committed_vad_ok _ _ sz).
  - lia.
  - unfold vad_charge. simpl. rewrite Hm.
    rewrite size_fold_insert by (done || apply NoDup_range_pages).
    pose proof (length_aligned_range base a Hba Haa). unfold PAGE_SIZE in *. lia.
  - unfold vad_mapped. simpl. rewrite Hm. lia.
Qed.

Lemma evict_pages_eq l s :
  foldl (λ s p, evict_page p s) s l =
  set_resident (mm_resident s ∖ list_to_set l) (filter (λ c, c ∉ l) (mm_resident_order s)) s.
Proof.
  revert s. induction l as [|p l IH]; intros s; simpl.
  - destruct s; unfold set_resident; simpl. f_equal.
    + set_solver.
    + symmetry. apply filter_all. intros x. apply not_elem_of_nil.
  - rewrite IH. destruct s; unfold evict_page, set_resident; simpl. f_equal.
    + set_solver.
    + rewrite list_filter_filter. apply list_filter_iff. intros x. set_solver.
Qed.

Lemma resident_ok_filter cap r o (l : list Z) :
  resident_ok cap r o → resident_ok cap (r ∖ list_to_set l) (filter (λ c, c ∉ l) o).
Proof.
  intros (-> & Hnd & Hcap). split_and!.
  - apply set_eq. intros x. rewrite elem_of_difference, !elem_of_list_to_set, list_elem_of_filter.
    naive_solver.
  - by apply NoDup_filter.
  - pose proof (length_filter (λ c, c ∉ l) o). lia.
Qed.

Lemma inv_evict s l : Inv s → Inv (foldl (λ s p, evict_page p s) s l).
Proof.
  intros HI. rewrite evict_pages_eq. apply inv_set_resident; [done|].
  apply resident_ok_filter. by apply inv_resident.
Qed.

Lemma decommit_spec base sz s :
  Inv s → u64 base → u64 sz →
  wp (decommit base sz) s (λ r s', Inv s' ∧
    match r with
    | Err _ => s' = s
    | Ok _ => ∃ v a, range_of s base sz v a ∧ vad_mapping v = None ∧
        mm_vads s' = <[vad_base v := decommitted_vad (base, base + a) v]> (mm_vads s) ∧
        mm_sections s' = mm_sections s ∧
        mm_committed_bytes s' = saturating_sub (mm_committed_bytes s)
          (count_committed (base, base + a) v * PAGE_SIZE) ∧
        (∀ p, p ∈ range_pages (base, base + a) → p ∉ mm_resident s')
    end).
Proof.
  intros HI Hb Hs. unfold decommit, wp. mrun.
  destruct (validate_range base sz s) as [r|] eqn:Hr; mrun; [|done].
  destruct (validate_range_Ok _ _ _ _ HI Hb Hs Hr) as (v & a & Hra & ->). mrun.
  pose proof Hra as [(_ & Hba & Haa) [Hb0 Ha0] [Hv Hf] _]. rewrite Hf. mrun.
  case_bool_decide as Hm; mrun; [done|]. apply eq_None_not_Some in Hm.
  destruct (count_committed (base, base + a) v =? 0) eqn:Hc; mrun; [done|]. bool_prop.
  rewrite Hv. mrun.
  rewrite evict_pages_eq. cbn [set_resident set_vads set_charges mm_committed_bytes
    mm_mapped_bytes mm_page_size mm_resident mm_resident_order mm_vads mm_sections].
  destruct (inv_committed _ HI) as (Hcb & Hmax & Hsum).
  assert (0 ≤ count_committed (base, base + a) v) by (unfold count_committed; lia).
  rewrite (inv_page_size _ HI). set (n := count_committed (base, base + a) v) in *.
  pose proof (decommitted_vad_ok _ _ _ _ _ HI Hra Hm) as Hok.
  pose proof (size_fold_delete (range_pages (base, base + a)) (vad_pages v)
    (NoDup_range_pages _ _)) as Hsize. fold n in Hsize.
  split.
  - refine (inv_set_resident (set_charges (saturating_sub (mm_committed_bytes s) (n * PAGE_SIZE))
      (mm_mapped_bytes s) (set_vads (<[vad_base v := decommitted_vad (base, base + a) v]>
      (mm_vads s)) s)) _ _ _ _).
    + apply (inv_update_vad _ _ v); try done.
      * unfold saturating_sub, PAGE_SIZE. lia.
      * unfold vad_charge. simpl. rewrite Hm. unfold n, count_committed, saturating_sub, PAGE_SIZE in *. lia.
      * unfold vad_mapped. simpl. rewrite Hm. lia.
    + simpl. apply resident_ok_filter. by apply inv_resident.
  - exists v, a. split_and!; try done.
    intros p Hp. set_solver.
Qed.

Lemma protect_spec base sz prot s :
  Inv s → u64 base → u64 sz →
  wp (protect base sz prot) s (λ r s', Inv s' ∧
    match r with
    | Err _ => s' = s
    | Ok n => valid prot = true ∧ ∃ v a, range_of s base sz v a ∧
        (∀ p, p ∈ range_pages (base, base + a) → is_Some (vad_pages v !! p)) ∧
        n * PAGE_SIZE = a ∧
        s' = set_vads (<[vad_base v := protected_vad prot (base, base + a) v]> (mm_vads s)) s
    end).
Proof.
  intros HI Hb Hs. unfold protect, wp. mrun.
  destruct (valid prot) eqn:Hp; mrun; [|done].
  destruct (validate_range base sz s) as [r|] eqn:Hr; mrun; [|done].
  destruct (validate_range_Ok _ _ _ _ HI Hb Hs Hr) as (v & a & Hra & ->). mrun.
  pose proof Hra as [(_ & Hba & Haa) [Hb0 Ha0] [Hv Hf] _]. rewrite Hf. mrun.
  rewrite Hv. mrun. rewrite (for_each_fail_if (λ p, vad_pages v !! p = None)). case_bool_decide as Hex; mrun; [done|].
  assert (∀ p, p ∈ range_pages (base, base + a) → is_Some (vad_pages v !! p)) as Hall.
  { intros p Hin. apply not_eq_None_Some. intros Hn. apply Hex, Exists_exists. eauto. }
  destruct (protected_vad_ok _ _ _ _ _ prot HI Hra Hall) as [Hok Hsz].
  split.
  - refine (eq_rect _ Inv (inv_update_vad s (vad_base v) v (protected_vad prot (base, base + a) v)
      (mm_committed_bytes s) (mm_mapped_bytes s) HI Hv Hok _ _ _ _) _ _); try done.
    + apply (inv_committed _ HI).
    + unfold vad_charge. simpl in *. rewrite Hsz. case_match; lia.
    + unfold vad_mapped. simpl. case_match; lia.
  - split; [done|]. exists v, a. split_and!; try done. apply length_aligned_range; (done || lia).
Qed.

Lemma release_spec base sz s :
  Inv s →
  wp (release base sz) s (λ r s', Inv s' ∧
    match r with
    | Err _ => s' = s
    | Ok n => ∃ v, mm_vads s !! base = Some v ∧ (sz = 0 ∨ sz = vad_size v) ∧ n = vad_size v ∧
        mm_vads s' = delete base (mm_vads s) ∧ mm_sections s' = mm_sections s ∧
        mm_committed_bytes s' = saturating_sub (mm_committed_bytes s)
          (Z.of_nat (size (vad_pages v)) * PAGE_SIZE) ∧
        (∀ p, is_Some (vad_pages v !! p) → p ∉ mm_resident s')
    end).
Proof.
  intros HI. unfold release, wp. mrun.
  destruct (mm_vads s !! base) as [v|] eqn:Hv; mrun; [|done].
  destruct (negb (sz =? 0) && negb (sz =? vad_size v)) eqn:E; mrun; [done|].
  rewrite evict_pages_eq. cbn [set_resident set_vads set_charges mm_committed_bytes
    mm_mapped_bytes mm_page_size mm_resident mm_resident_order mm_vads mm_sections].
  rewrite (inv_page_size _ HI). destruct (inv_committed _ HI) as (Hcb & Hmax & Hsum).
  pose proof (inv_mapped _ HI) as Hmap.
  assert (vad_mapped v ≤ mm_mapped_bytes s) as Hle.
  { rewrite Hmap. apply (map_sum_elem_le (λ _ v, vad_mapped v) _ base); [|done].
    intros b w Hw. destruct (inv_vads _ HI _ _ Hw) as [_ [_ [? _] _] _ _ _].
    unfold vad_mapped. case_match; lia. }
  split.
  - refine (inv_set_resident (set_charges
      (saturating_sub (mm_committed_bytes s) (Z.of_nat (size (vad_pages v)) * PAGE_SIZE))
      (saturating_sub (mm_mapped_bytes s) (match vad_mapping v with Some _ => vad_size v | None => 0 end))
      (set_vads (delete base (mm_vads s)) s)) _ _ _ _).
    + apply (inv_delete_vad _ _ v); try done.
      * unfold saturating_sub, PAGE_SIZE. lia.
      * unfold vad_charge, saturating_sub, PAGE_SIZE. case_match; lia.
      * unfold vad_mapped, saturating_sub in *. case_match; lia.
    + simpl. apply resident_ok_filter. by apply inv_resident.
  - exists v. split_and!; try done.
    + apply andb_false_iff in E as [E|E]; bool_prop; auto.
    + intros p Hp%elem_of_bt_keys. set_solver.
Qed.

(** ** Residency *)

Lemma list_to_set_pop (p : Z) (o : list Z) :
  p ∉ o → (list_to_set (p :: o) : gset Z) ∖ {[p]} = list_to_set o.
Proof. intros Hp. apply set_eq. intros x. simpl. set_solver. Qed.

(** Eviction takes the oldest pages until the target is met. *)
Lemma evict_loop_spec target o e :
  NoDup o → 0 ≤ target →
  let k := Z.to_nat (Z.of_nat (length o) - target) in
  evict_loop target o (list_to_set o) e =
    Some (drop k o, list_to_set (drop k o), e + Z.of_nat k).
Proof.
  intros Hnd Ht. revert e. induction o as [|p o IH]; intros e; cbn zeta in *.
  - replace (Z.to_nat (Z.of_nat (length (@nil Z)) - target)) with 0%nat by (simpl; lia).
    cbn [evict_loop]. change (size (list_to_set [] : gset Z)) with 0%nat.
    rewrite (proj2 (Z.leb_le _ _)) by lia. by rewrite Z.add_0_r.
  - cbn [evict_loop]. rewrite size_list_to_set by done.
    destruct (Z.of_nat (length (p :: o)) <=? target) eqn:E; bool_prop.
    + replace (Z.to_nat (Z.of_nat (length (p :: o)) - target)) with 0%nat by lia. simpl.
      by rewrite Z.add_0_r.
    + apply NoDup_cons in Hnd as [Hp Hnd]. rewrite list_to_set_pop by done.
      rewrite IH by done. simpl in E.
      replace (Z.to_nat (Z.of_nat (length (p :: o)) - target))
        with (Datatypes.S (Z.to_nat (Z.of_nat (length o) - target))) by (simpl; lia).
      cbn [drop]. do 2 f_equal. lia.
Qed.

Lemma resident_ok_drop cap o k :
  NoDup o → Z.of_nat (length o) - Z.of_nat k ≤ cap → 0 ≤ cap →
  resident_ok cap (list_to_set (drop k o)) (drop k o).
Proof.
  intros Hnd Hk Hc. split_and!; [done|by eapply sublist_NoDup, sublist_drop|]. rewrite length_drop. lia.
Qed.

Lemma resident_cap_nonneg s : Inv s → 0 ≤ mm_max_working_set s.
Proof. intros HI. destruct (inv_resident _ HI) as (_ & _ & ?). lia. Qed.

Lemma trim_spec target s :
  Inv s → 0 ≤ target →
  let k := Z.to_nat (Z.of_nat (length (mm_resident_order s)) - target) in
  let s' := set_resident (list_to_set (drop k (mm_resident_order s)))
              (drop k (mm_resident_order s)) s in
  trim_working_set target s = Done (Ok (Z.of_nat k)) s' ∧ Inv s'.
Proof.
  intros HI Ht k s'. destruct (inv_resident _ HI) as (Hr & Hnd & Hcap).
  unfold trim_working_set. mrun. rewrite Hr, evict_loop_spec by done. fold k. mrun. split; [done|].
  apply inv_set_resident; [done|]. apply resident_ok_drop; [done|lia|].
  by apply resident_cap_nonneg.
Qed.

Lemma touch_spec page s :
  Inv s → ∃ r o, touch page s = Done (Ok tt) (set_resident r o s) ∧ Inv (set_resident r o s).
Proof.
  intros HI. destruct (inv_resident _ HI) as (Hr & Hnd & Hcap).
  pose proof (resident_cap_nonneg _ HI).
  unfold touch. mrun. case_bool_decide as Hin; mrun.
  - exists (mm_resident s), (mm_resident_order s). by destruct s.
  - rewrite Hr in Hin |- *.
    assert ({[page]} ∪ list_to_set (mm_resident_order s) =
      (list_to_set (mm_resident_order s ++ [page]) : gset Z)) as ->.
    { rewrite list_to_set_app_L. simpl. set_solver. }
    assert (NoDup (mm_resident_order s ++ [page])) as Hnd'.
    { apply NoDup_app. split_and!; [done| |apply NoDup_singleton].
      intros x Hx ->%list_elem_of_singleton. apply Hin. by apply elem_of_list_to_set. }
    rewrite evict_loop_spec by done. mrun. eexists _, _. split; [done|].
    apply inv_set_resident; [done|]. apply resident_ok_drop; [done|lia|done].
Qed.

(** ** Sections and views *)

Lemma vad_ok_sections secs secs' b v :
  (∀ id x, secs !! id = Some x → maps_section id v = true →
     ∃ y, secs' !! id = Some y ∧ sec_size y = sec_size x) →
  vad_ok secs b v → vad_ok secs' b v.
Proof.
  intros Hs [Hb Hr Hp Hpr Hm]. split; try done.
  unfold maps_section in Hs. destruct (vad_mapping v) as [m|]; [|done].
  destruct Hm as [Ho (sec & Hsec & Hle) Hsh Hpg]. split; try done.
  destruct (Hs _ _ Hsec (Z.eqb_refl _)) as (y & Hy & Hsz). exists y. split; [done|lia].
Qed.

Lemma inv_set_sections s next secs :
  Inv s → 1 ≤ next →
  (∀ id x, secs !! id = Some x → section_ok next id x) →
  (∀ b v id x, mm_vads s !! b = Some v → mm_sections s !! id = Some x →
     maps_section id v = true → ∃ y, secs !! id = Some y ∧ sec_size y = sec_size x) →
  Inv (set_sections next secs s).
Proof.
  intros HI Hn Hok Hkeep. destruct HI. split; simpl; try done.
  intros b v Hv. apply (vad_ok_sections (mm_sections s)); [|by apply inv_vads0].
  intros. by eapply Hkeep.
Qed.

Lemma section_ok_next next next' id x : next ≤ next' → section_ok next id x → section_ok next' id x.
Proof. intros Hle ((? & ?) & ? & ?). split; [lia|done]. Qed.

Lemma create_section_spec k sz initial s :
  Inv s → u64 sz → mm_next_section s < u64_max →
  wp (create_section k sz initial) s (λ r s', Inv s' ∧
    match r with
    | Err _ => s' = s
    | Ok id => id = mm_next_section s ∧ ∃ backing,
        splice 0 initial (zeros sz) = Some backing ∧
        s' = set_sections (id + 1) (<[id := {| sec_id := id; sec_kind := k; sec_size := sz;
                                               sec_backing := backing |}]> (mm_sections s)) s
    end).
Proof.
  intros HI Hsz Hnext. unfold create_section, wp. mrun.
  destruct ((sz =? 0) || _) eqn:E; mrun; [done|]. bool_prop.
  destruct (MAX_SECTION_SIZE <? sz) eqn:Em; mrun; [done|]. bool_prop.
  destruct (mm_max_sections s <=? section_count s); mrun; [done|].
  rewrite (proj2 (Z.leb_le (_ + 1) _)) by lia. mrun.
  destruct (splice_is_Some 0 initial (zeros sz)) as [backing Hb];
    [done|rewrite length_zeros; unfold u64 in Hsz; lia|].
  rewrite Hb. mrun. split; [|split; [done|by exists backing]].
  apply splice_Some in Hb as (_ & _ & Hlen & _).
  pose proof (inv_next_section _ HI) as Hn.
  apply inv_set_sections; [done|lia| |].
  - intros id x. rewrite lookup_insert. case_decide.
    + intros [= <-]. subst. unfold section_ok, u64 in *; simpl.
      rewrite Hlen, length_zeros by lia. split_and!; lia.
    + intros Hx. apply (section_ok_next (mm_next_section s)); [lia|]. by apply (inv_sections _ HI).
  - intros b v id x _ Hx _. exists x. split; [|done]. rewrite lookup_insert_ne; [done|].
    intros <-. destruct (inv_sections _ HI _ _ Hx). lia.
Qed.

Lemma mapped_section_live s b v id :
  mm_vads s !! b = Some v → existsb (maps_section id) (bt_values (mm_vads s)) = false →
  maps_section id v = false.
Proof.
  intros Hv Hn. apply not_true_is_false. intros Ht. rewrite <-not_true_iff_false in Hn.
  apply Hn, existsb_exists. exists v. split; [|done].
  apply list_elem_of_In, elem_of_bt_values. eauto.
Qed.

Lemma delete_section_spec id s :
  Inv s →
  wp (delete_section id) s (λ r s', Inv s' ∧
    match r with
    | Err _ => s' = s
    | Ok _ => is_Some (mm_sections s !! id) ∧
        (∀ b v, mm_vads s !! b = Some v → maps_section id v = false) ∧
        s' = set_sections (mm_next_section s) (delete id (mm_sections s)) s
    end).
Proof.
  intros HI. unfold delete_section, wp. mrun.
  destruct (existsb _ _) eqn:E; mrun; [done|].
  destruct (mm_sections s !! id) as [x|] eqn:Hx; mrun; [|done].
  assert (∀ b v, mm_vads s !! b = Some v → maps_section id v = false) as Hnot.
  { intros b v Hv. by eapply mapped_section_live. }
  split; [|by eauto]. apply inv_set_sections; [done|apply (inv_next_section _ HI)| |].
  - intros i y [_ Hy]%lookup_delete_Some. by apply (inv_sections _ HI).
  - intros b v i y Hv Hy Hm. exists y. split; [|done]. apply lookup_delete_Some.
    split; [|done]. intros <-. by rewrite (Hnot _ _ Hv) in Hm.
Qed.

Definition view_vad (b a : Z) (prot : Protection) (section : Z) (cow : bool) : Vad :=
  {| vad_base := b; vad_size := a; vad_protection := prot;
     vad_pages := foldl (λ m p, <[p := prot]> m) ∅
                    ((λ index, b + index * PAGE_SIZE) <$> seqZ 0 (a / PAGE_SIZE));
     vad_private := ∅;
     vad_mapping := Some {| map_section_id := section; map_offset := 0; map_cow := cow |} |}.

Lemma view_vad_pages b a prot section cow p :
  aligned b → aligned a →
  vad_pages (view_vad b a prot section cow) !! p =
    if decide (aligned p ∧ b ≤ p < b + a) then Some prot else None.
Proof.
  intros Hb Ha. simpl. rewrite lookup_fold_insert, lookup_empty.
  apply decide_if_ext. rewrite list_elem_of_fmap. setoid_rewrite elem_of_seqZ. split.
  - intros (i & -> & Hi). page_arith.
  - intros [Hp Hr]. exists ((p - b) / PAGE_SIZE). page_arith.
Qed.

Lemma view_vad_ok secs b a prot section cow x :
  region_ok b a → secs !! section = Some x → a ≤ sec_size x →
  vad_ok secs b (view_vad b a prot section cow).
Proof.
  intros Hr Hx Hle. pose proof Hr as [[? ?] [? ?] ?]. split; try done.
  - intros p. rewrite view_vad_pages by done. case_decide; [|by intros [? ?]].
    intros _. unfold vad_end; simpl. naive_solver.
  - split; simpl; try done; [by exists x|]. intros p Hp Hpa.
    change (is_Some (vad_pages (view_vad b a prot section cow) !! p)).
    rewrite view_vad_pages by done. rewrite decide_True by (by split). eauto.
Qed.

Lemma map_section_spec section base sz prot cow s :
  Inv s → u64 sz → match base with Some b => u64 b | None => True end →
  wp (map_section section base sz prot cow) s (λ r s', Inv s' ∧
    match r with
    | Err _ => s' = s
    | Ok b => ∃ a x, align_up sz PAGE_SIZE = Some a ∧ region_ok b a ∧ free_range s b a ∧
        mm_sections s !! section = Some x ∧ a ≤ sec_size x ∧ mm_vads s !! b = None ∧
        mm_vads s' = <[b := view_vad b a prot section cow]> (mm_vads s) ∧
        mm_sections s' = mm_sections s ∧ mm_committed_bytes s' = mm_committed_bytes s ∧
        mm_mapped_bytes s' = mm_mapped_bytes s + a
    end).
Proof.
  intros HI Hsz Hbase. unfold map_section, wp. mrun.
  destruct (valid prot); mrun; [|done].
  destruct (mm_sections s !! section) as [x|] eqn:Hx; mrun; [|done].
  destruct (sz =? 0); mrun; [done|]. destruct (sec_size x <? sz); mrun; [done|].
  rewrite (inv_page_size _ HI). destruct (align_up sz PAGE_SIZE) as [a|] eqn:Ha; mrun; [|done].
  destruct (sec_size x <? a) eqn:Hle; mrun; [done|]. bool_prop.
  apply align_up_Some in Ha as Ha'; [|apply Hsz]. destruct Ha' as (Haa & Har & Hau).
  pose proof (reserve_spec base a s HI Hau Hbase) as Hr. unfold wp in Hr.
  destruct (reserve base a s) as [[b|] s1|]; [|by destruct Hr as [? ->]|done].
  destruct Hr as [HI1 (a' & Ha' & Hreg & Hfree & _ & Hnone & ->)].
  assert (a' = a) as ->.
  { destruct (inv_sections _ HI _ _ Hx) as (_ & ? & _).
    rewrite align_up_aligned in Ha'; [by simplify_eq|unfold u64 in *; lia|done|].
    unfold MAX_SECTION_SIZE, PAGE_SIZE, u64_max in *. lia. }
  mrun. cbn [mm_vads mm_mapped_bytes set_next_base set_vads set_charges].
  rewrite lookup_insert_eq. mrun. cbn [mm_vads mm_mapped_bytes set_next_base set_vads set_charges].
  pose proof (mapped_bound _ HI). destruct Hreg as [[? ?] [? ?] Hend].
  rewrite (proj2 (Z.leb_le _ _)) by (unfold USER_LIMIT, u64_max in *; lia). mrun.
  cbn [fresh_vad vad_pages vad_private vad_base vad_size with_pages].
  change (with_pages _ _ _ _ _) with (view_vad b a prot section cow).
  rewrite insert_insert_eq.
  split.
  - refine (eq_rect _ Inv (inv_update_vad _ b (fresh_vad b a) (view_vad b a prot section cow)
      (mm_committed_bytes s) (mm_mapped_bytes s + a) HI1 _ _ _ _ _ _) _ _); simpl; try done.
    + by rewrite lookup_insert_eq.
    + by apply (view_vad_ok _ _ _ _ _ _ x).
    + apply (inv_committed _ HI).
    + unfold vad_charge; simpl. rewrite map_size_empty. lia.
    + unfold vad_mapped; simpl. lia.
    + unfold set_charges, set_vads, set_next_base; simpl. by rewrite insert_insert_eq.
  - by exists a, x.
Qed.

Lemma unmap_section_spec base s :
  Inv s →
  wp (unmap_section base) s (λ r s', Inv s' ∧
    match r with
    | Err _ => s' = s
    | Ok n => ∃ v, mm_vads s !! base = Some v ∧ is_Some (vad_mapping v) ∧ n = vad_size v ∧
        mm_vads s' = delete base (mm_vads s) ∧ mm_sections s' = mm_sections s
    end).
Proof.
  intros HI. unfold unmap_section, wp. mrun.
  destruct (mm_vads s !! base) as [v|] eqn:Hv; mrun; [|done].
  case_bool_decide as Hm; mrun; [|done].
  pose proof (release_spec base 0 s HI) as Hr. unfold wp in Hr.
  destruct (release base 0 s) as [[n|] s1|]; [|done|done].
  destruct Hr as [? (w & Hw & _ & ? & ? & ? & _)]. split; [done|]. exists v. by simplify_eq.
Qed.
