(* ===== verification/MemoryAccess.v ===== *)
(** * Byte access through the address space

    The abstract view of the manager is a partial map from addresses to bytes
    ([mem_byte]).  [read] and [write] are related to it, with copy-on-write and
    shared views, and the operations of [Memory] are closed under the invariant. *)

From S2P Require Import Prelude Status Memory MemoryFacts.

(** ** The abstract memory *)

(** The bytes behind a page of a region: its private copy or the section. *)
Definition page_view (secs : gmap Z Section_) (v : Vad) (p : Z) : option (list Z) :=
  match vad_private v !! p with
  | Some bytes => Some bytes
  | None =>
      m ← vad_mapping v;
      x ← secs !! map_section_id m;
      slice (map_offset m + (p - vad_base v)) PAGE_SIZE (sec_backing x)
  end.

Definition vad_byte (secs : gmap Z Section_) (v : Vad) (a : Z) : option Z :=
  bytes ← page_view secs v (page_of a);
  bytes !! Z.to_nat (a mod PAGE_SIZE).

(** The byte at an address of a committed page. *)
Definition mem_byte (s : MemoryManager) (a : Z) : option Z :=
  match find_vad a s with
  | Ok v => if bool_decide (is_Some (vad_pages v !! page_of a))
            then vad_byte (mm_sections s) v a else None
  | Err _ => None
  end.

Lemma mem_byte_vad s a v :
  Inv s → mm_vads s !! vad_base v = Some v → vad_base v ≤ a < vad_end v →
  is_Some (vad_pages v !! page_of a) → mem_byte s a = vad_byte (mm_sections s) v a.
Proof.
  intros HI Hv Ha Hp. unfold mem_byte. rewrite (proj2 (find_vad_Ok s a v HI)) by done.
  by rewrite bool_decide_true.
Qed.

Lemma mem_byte_resident s r o a : mem_byte (set_resident r o s) a = mem_byte s a.
Proof. done. Qed.

(** ** Pages *)

Lemma page_view_Some s b v p :
  Inv s → mm_vads s !! b = Some v → is_Some (vad_pages v !! p) →
  ∃ bytes, page_view (mm_sections s) v p = Some bytes ∧ Z.of_nat (length bytes) = PAGE_SIZE.
Proof.
  intros HI Hv Hp. destruct (inv_vads _ HI _ _ Hv) as [Hb Hr Hpg Hpr Hm].
  unfold page_view. destruct (vad_private v !! p) as [bytes|] eqn:Hpv.
  - exists bytes. split; [done|]. by apply (Hpr _ _ Hpv).
  - destruct (vad_mapping v) as [m|].
    + destruct Hm as [Ho (x & Hx & Hle) _ _]. simpl. rewrite Hx. simpl. rewrite Ho.
      destruct (inv_sections _ HI _ _ Hx) as (_ & _ & Hlen).
      destruct (Hpg _ Hp) as [Hrange Hpa]. unfold vad_end in Hrange.
      destruct (slice_is_Some (0 + (p - vad_base v)) PAGE_SIZE (sec_backing x)) as [out Hout].
      * lia.
      * done.
      * rewrite Hlen. destruct Hr as [[_ ?] [_ ?] _]. rewrite Hb in *. page_arith.
      * exists out. split; [done|]. by apply slice_Some in Hout as (_ & _ & _ & ? & _).
    + destruct (Hm _ Hp) as [? ?]. congruence.
Qed.

Lemma page_bytes_spec s b v p bytes :
  Inv s → mm_vads s !! b = Some v → page_view (mm_sections s) v p = Some bytes →
  page_bytes b p s = Done (Ok bytes) s.
Proof.
  intros HI Hv Hview. unfold page_bytes, page_view in *. mrun. rewrite Hv. mrun.
  destruct (vad_private v !! p); [by simplify_eq|]. mrun.
  destruct (vad_mapping v) as [m|]; [|done]. mrun. simpl in Hview.
  destruct (mm_sections s !! map_section_id m) as [x|]; [|done]. mrun. simpl in Hview.
  rewrite (inv_page_size _ HI), Hview. done.
Qed.

(** ** Permission checks *)

Lemma check_pages_Ok l v w :
  check_pages l v w = Ok tt ↔
  ∀ p, p ∈ l → ∃ prot, vad_pages v !! p = Some prot ∧
    (if w then writable prot else readable prot) = true.
Proof.
  induction l as [|p l IH]; simpl.
  - split; [|done]. intros _ p Hp. by apply not_elem_of_nil in Hp.
  - split.
    + intros Hc q [->|Hq]%elem_of_cons.
      * destruct (vad_pages v !! p) as [prot|]; [|done]. exists prot. split; [done|].
        destruct w; [destruct (writable prot)|destruct (readable prot)]; done.
      * apply IH; [|done]. destruct (vad_pages v !! p) as [prot|]; [|done].
        destruct w; [destruct (writable prot)|destruct (readable prot)]; done.
    + intros Hall. destruct (Hall p) as (prot & Hp & Hw); [by left|]. rewrite Hp.
      destruct w; rewrite Hw; apply IH; intros q Hq; apply Hall; by right.
Qed.

Lemma check_pages_Err l v w e :
  check_pages l v w = Err e → e = STATUS_ACCESS_VIOLATION.
Proof. induction l as [|p l IH]; simpl; [done|]. repeat case_match; naive_solver. Qed.

(** Writable pages are readable. *)
Lemma writable_readable prot : writable prot = true → readable prot = true.
Proof. unfold writable, readable. intros [-> | ->]%orb_true_iff; by rewrite ?orb_true_r. Qed.

(** What a passed check says. *)
Record accessible (s : MemoryManager) (a e : Z) (w : bool) (v : Vad) : Prop := {
  acc_vad : mm_vads s !! vad_base v = Some v;
  acc_range : vad_base v ≤ a < vad_end v ∧ e ≤ vad_end v;
  acc_pages : ∀ p, p ∈ range_pages (a, e) → ∃ prot, vad_pages v !! p = Some prot ∧
    (if w then writable prot else readable prot) = true;
}.

Lemma check_access_Ok s a e w :
  Inv s → check_access a e w s = Ok tt ↔ ∃ v, find_vad a s = Ok v ∧ accessible s a e w v.
Proof.
  intros HI. unfold check_access. destruct (find_vad a s) as [v|] eqn:Hf; [|naive_solver].
  apply (find_vad_Ok _ _ _ HI) in Hf as [Hv Hr]. split.
  - destruct (vad_end v <? e) eqn:He; [done|]. intros Hc. bool_prop.
    exists v. split; [done|]. split; [done|done|]. by apply check_pages_Ok.
  - intros (v' & [= <-] & [_ [_ He] Hp]). rewrite (proj2 (Z.ltb_ge _ _)) by done.
    by apply check_pages_Ok.
Qed.

Lemma acc_committed s a e w v x :
  accessible s a e w v → a ≤ x < e → is_Some (vad_pages v !! page_of x).
Proof.
  intros [_ _ Hp] Hx. destruct (Hp (page_of x)) as (prot & Hpr & _); [|by eauto].
  by apply page_of_range.
Qed.

(** The fuel a loop of the source needs: one round per page it still has to visit,
    and the final test. *)
Definition enough_fuel (fuel : nat) (cursor e : Z) : Prop :=
  0 < Z.of_nat fuel ∧
  (cursor < e → (e + PAGE_SIZE - 1) / PAGE_SIZE - cursor / PAGE_SIZE < Z.of_nat fuel).

Lemma access_fuel_enough a e : enough_fuel (access_fuel a e) a e.
Proof.
  unfold enough_fuel, access_fuel. rewrite Nat2Z.inj_succ, length_range_pages. lia.
Qed.

(** A round ends at the next page or at the end of the range. *)
Lemma enough_fuel_step fuel cursor e :
  enough_fuel (Datatypes.S fuel) cursor e → cursor < e →
  enough_fuel fuel (cursor + Z.min (PAGE_SIZE - cursor mod PAGE_SIZE) (e - cursor)) e.
Proof. unfold enough_fuel. intros [_ Hf] Hlt. specialize (Hf Hlt). page_arith. Qed.

(** ** Reading *)

Lemma read_loop_spec fuel v a e cursor output s :
  Inv s → mm_vads s !! vad_base v = Some v → vad_base v ≤ cursor → e ≤ vad_end v →
  (∀ x, cursor ≤ x < e → is_Some (vad_pages v !! page_of x)) →
  a ≤ cursor ≤ e → Z.of_nat (length output) = cursor - a →
  enough_fuel fuel cursor e →
  ∃ r o bytes, read_loop fuel (vad_base v) cursor e output s =
      Done (Ok (output ++ bytes)) (set_resident r o s) ∧
    Inv (set_resident r o s) ∧ Z.of_nat (length bytes) = e - cursor ∧
    ∀ i, 0 ≤ i < e - cursor → bytes !! Z.to_nat i = vad_byte (mm_sections s) v (cursor + i).
Proof.
  revert cursor output s. induction fuel as [|fuel IH];
    intros cursor output s HI Hv Hlo Hhi Hcom Hcur Hlen Hfuel; [by destruct Hfuel|].
  cbn [read_loop]. destruct (cursor <? e) eqn:Hlt; bool_prop; mrun.
  - rewrite (inv_page_size _ HI). fold (page_of cursor).
    destruct (page_view_Some s (vad_base v) v (page_of cursor) HI Hv) as (pg & Hpg & Hpl).
    { apply Hcom. lia. }
    rewrite (page_bytes_spec _ _ _ _ _ HI Hv Hpg). mrun.
    set (t := Z.min (PAGE_SIZE - cursor mod PAGE_SIZE) (e - cursor)).
    assert (0 < t ∧ cursor mod PAGE_SIZE + t ≤ PAGE_SIZE ∧ 0 ≤ cursor mod PAGE_SIZE ∧
            cursor + t ≤ e) as (Ht0 & Ht1 & Ht2 & Ht3).
    { subst t. page_arith. }
    destruct (slice_is_Some (cursor mod PAGE_SIZE) t pg) as [chunk Hch]; [lia..|].
    rewrite Hch. mrun. destruct (touch_spec (page_of cursor) s HI) as (r & o & Htouch & HI1).
    rewrite Htouch. mrun.
    apply slice_Some in Hch as (_ & _ & _ & Hcl & Hcv).
    edestruct (IH (cursor + t) (output ++ chunk) (set_resident r o s))
      as (r' & o' & bytes & Hr & HI' & Hbl & Hbv); try done; [lia|intros; apply Hcom; lia|lia| | |].
    { rewrite length_app. lia. }
    { by apply enough_fuel_step. }
    exists r', o', (chunk ++ bytes). rewrite Hr, <-app_assoc. split; [done|]. split; [done|].
    split; [rewrite length_app; lia|]. intros i Hi.
    destruct (decide (i < t)).
    + rewrite lookup_app_l by lia. rewrite Hcv by lia. unfold vad_byte.
      assert (page_of (cursor + i) = page_of cursor ∧
        (cursor + i) mod PAGE_SIZE = cursor mod PAGE_SIZE + i) as [-> ->].
      { clear -Ht1 Ht2 l Hi. page_arith. }
      by rewrite Hpg.
    + rewrite lookup_app_r by lia.
      replace (Z.to_nat i - length chunk)%nat with (Z.to_nat (i - t)) by lia.
      rewrite Hbv by lia. simpl. f_equal. lia.
  - assert (cursor = e) as -> by lia.
    exists (mm_resident s), (mm_resident_order s), []. rewrite app_nil_r.
    split; [by destruct s|]. split; [by destruct s|]. simpl. split; [lia|]. lia.
Qed.

(** [read] returns the bytes of the abstract memory when the whole range may be
    read, and the error of the permission check otherwise; only residency
    changes. *)
Lemma read_spec a n s :
  Inv s → 0 ≤ a → 0 < n → a + n ≤ u64_max →
  match check_access a (a + n) false s with
  | Err e => read a n s = Done (Err e) s
  | Ok _ => ∃ r o bytes, read a n s = Done (Ok bytes) (set_resident r o s) ∧
      Inv (set_resident r o s) ∧ Z.of_nat (length bytes) = n ∧
      ∀ i, 0 ≤ i < n → bytes !! Z.to_nat i = mem_byte s (a + i)
  end.
Proof.
  intros HI Ha Hn Hmax. unfold read, checked_add. rewrite (proj2 (Z.eqb_neq n 0)) by lia. mrun.
  rewrite (proj2 (Z.leb_le (a + n) _)) by done. mrun.
  destruct (check_access a (a + n) false s) as [[]|e] eqn:Hc; mrun; [|done].
  apply (check_access_Ok _ _ _ _ HI) in Hc as (v & Hf & Hacc). rewrite Hf. mrun.
  pose proof Hacc as [Hv [Hr He] Hp].
  pose proof (region_end _ _ (vad_ok_region _ _ _ (inv_vads _ HI _ _ Hv))) as Hend.
  rewrite (proj2 (Z.leb_le n _)) by (unfold vad_end, USER_LIMIT, isize_max in *; lia). mrun.
  edestruct (read_loop_spec (access_fuel a (a + n)) v a (a + n) a [] s)
    as (r & o & bytes & Hrd & HI' & Hl & Hb); try done; [lia| |lia|simpl; lia| |].
  { intros x Hx. by eapply acc_committed. }
  { apply access_fuel_enough. }
  exists r, o, bytes. rewrite Hrd. split; [done|]. split; [done|]. split; [lia|].
  intros i Hi. rewrite Hb by lia. symmetry. apply mem_byte_vad; [done|done|lia|].
  eapply acc_committed; [done|lia].
Qed.

(** ** Writing to private pages and copy-on-write views *)

Definition is_shared (v : Vad) : bool :=
  match vad_mapping v with Some m => negb (map_cow m) | None => false end.

Lemma inv_set_private s v p bytes :
  Inv s → mm_vads s !! vad_base v = Some v → is_shared v = false →
  is_Some (vad_pages v !! p) → Z.of_nat (length bytes) = PAGE_SIZE →
  Inv (set_vads (<[vad_base v := set_private (<[p := bytes]> (vad_private v)) v]> (mm_vads s)) s).
Proof.
  intros HI Hv Hsh Hp Hlen. destruct (inv_vads _ HI _ _ Hv) as [Hb Hr Hpg Hpr Hm].
  refine (eq_rect _ Inv (inv_update_vad s (vad_base v) v
    (set_private (<[p := bytes]> (vad_private v)) v) (mm_committed_bytes s) (mm_mapped_bytes s)
    HI Hv _ eq_refl _ _ _) _ _); try done.
  - split; simpl; try done.
    + intros q bs. rewrite lookup_insert. case_decide; [intros [= <-]; by subst|apply Hpr].
    + unfold is_shared in Hsh. destruct (vad_mapping v) as [m|].
      * destruct Hm as [Ho Hx Hs Hpages]. split; simpl; try done.
        intros Hc. by rewrite Hc in Hsh.
      * intros q Hq. rewrite lookup_insert. case_decide; [by eauto|by apply Hm].
  - apply (inv_committed _ HI).
  - unfold vad_charge; simpl. case_match; lia.
  - unfold vad_mapped; simpl. case_match; lia.
Qed.

Lemma write_page_private s v p off chunk bytes out :
  Inv s → mm_vads s !! vad_base v = Some v → is_shared v = false →
  is_Some (vad_pages v !! p) →
  page_view (mm_sections s) v p = Some bytes → splice off chunk bytes = Some out →
  write_page (vad_base v) p off chunk s =
    Done (Ok tt)
      (set_vads (<[vad_base v := set_private (<[p := out]> (vad_private v)) v]> (mm_vads s)) s).
Proof.
  intros HI Hv Hsh Hp Hview Hsp. destruct (inv_vads _ HI _ _ Hv) as [_ _ _ _ Hm].
  unfold write_page, is_shared in *. mrun. rewrite Hv. mrun.
  destruct (vad_mapping v) as [m|] eqn:Em.
  - apply negb_false_iff in Hsh. rewrite Hsh. mrun.
    rewrite (page_bytes_spec _ _ _ _ _ HI Hv Hview). mrun.
    assert (default bytes (vad_private v !! p) = bytes) as ->.
    { unfold page_view in Hview. destruct (vad_private v !! p); by simplify_eq/=. }
    by rewrite Hsp.
  - destruct (Hm _ Hp) as [bs Hbs]. unfold page_view in Hview. rewrite Hbs in Hview |- *.
    simplify_eq. mrun. by rewrite Hsp.
Qed.

Lemma vad_byte_spliced secs v p off chunk bytes out a :
  aligned p → 0 ≤ off → off + Z.of_nat (length chunk) ≤ PAGE_SIZE →
  page_view secs v p = Some bytes → splice off chunk bytes = Some out →
  vad_byte secs (set_private (<[p := out]> (vad_private v)) v) a =
    if decide (p + off ≤ a < p + off + Z.of_nat (length chunk))
    then chunk !! Z.to_nat (a - (p + off)) else vad_byte secs v a.
Proof.
  intros Hp Ho Hl Hview Hsp. apply splice_Some in Hsp as (_ & _ & _ & Hout).
  unfold vad_byte, page_view at 1. simpl. rewrite lookup_insert. case_decide as Hpa.
  - simpl. rewrite Hout by page_arith. rewrite <-Hpa, Hview. simpl.
    destruct (decide (off ≤ a mod PAGE_SIZE < off + Z.of_nat (length chunk))) as [Hin|Hout'].
    + rewrite decide_True by (clear -Hin Hpa; page_arith). f_equal. clear -Hpa. page_arith.
    + by rewrite decide_False by (clear -Hout' Hpa; page_arith).
  - rewrite decide_False; [done|]. intros Hin. apply Hpa. clear -Hin Hp Ho Hl. page_arith.
Qed.

Lemma write_loop_private fuel v e cursor written data s :
  Inv s → mm_vads s !! vad_base v = Some v → is_shared v = false →
  vad_base v ≤ cursor ≤ e → (∀ x, cursor ≤ x < e → is_Some (vad_pages v !! page_of x)) →
  0 ≤ written → e - cursor = Z.of_nat (length data) - written →
  enough_fuel fuel cursor e →
  ∃ pr r o,
    let v' := set_private pr v in
    let s' := set_resident r o (set_vads (<[vad_base v := v']> (mm_vads s)) s) in
    write_loop fuel (vad_base v) cursor e written data s = Done (Ok tt) s' ∧ Inv s' ∧
    ∀ a, vad_byte (mm_sections s) v' a =
      if decide (cursor ≤ a < e) then data !! Z.to_nat (a - cursor + written)
      else vad_byte (mm_sections s) v a.
Proof.
  revert v cursor written s. induction fuel as [|fuel IH];
    intros v cursor written s HI Hv Hsh Hcur Hcom Hw Hlen Hfuel; [by destruct Hfuel|].
  cbn [write_loop]. destruct (cursor <? e) eqn:Hlt; bool_prop; mrun.
  - rewrite (inv_page_size _ HI). fold (page_of cursor). rewrite <-Hlen.
    set (t := Z.min (PAGE_SIZE - cursor mod PAGE_SIZE) (e - cursor)).
    assert (0 < t ∧ cursor mod PAGE_SIZE + t ≤ PAGE_SIZE ∧ 0 ≤ cursor mod PAGE_SIZE ∧
      cursor + t ≤ e ∧ aligned (page_of cursor) ∧ page_of cursor + cursor mod PAGE_SIZE = cursor)
      as (Ht0 & Ht1 & Ht2 & Ht3 & Hpa & Hpc).
    { subst t. page_arith. }
    destruct (slice_is_Some written t data) as [chunk Hch]; [lia..|]. rewrite Hch. mrun.
    apply slice_Some in Hch as (_ & _ & _ & Hcl & Hcv).
    assert (is_Some (vad_pages v !! page_of cursor)) as Hsome by (apply Hcom; lia).
    destruct (page_view_Some s (vad_base v) v (page_of cursor) HI Hv Hsome) as (pg & Hpg & Hpl).
    destruct (splice_is_Some (cursor mod PAGE_SIZE) chunk pg) as [out Hsp]; [lia..|].
    rewrite (write_page_private _ _ _ _ _ _ _ HI Hv Hsh Hsome Hpg Hsp). mrun.
    assert (Z.of_nat (length out) = PAGE_SIZE) as Hol.
    { apply splice_Some in Hsp as (_ & _ & -> & _). done. }
    pose proof (inv_set_private _ _ _ _ HI Hv Hsh Hsome Hol) as HI1.
    set (v1 := set_private (<[page_of cursor := out]> (vad_private v)) v) in *.
    destruct (touch_spec (page_of cursor) _ HI1) as (r & o & Htouch & HI2). rewrite Htouch. mrun.
    edestruct (IH v1 (cursor + t) (written + t)) as (pr & r' & o' & Hwr & HI' & Hby);
      [exact HI2|simpl; apply lookup_insert_eq|done|simpl; lia|simpl; intros; apply Hcom; lia
      |lia|lia|by apply enough_fuel_step|].
    assert (set_resident r' o' (set_vads (<[vad_base v := set_private pr v]> (mm_vads s)) s) =
      set_resident r' o' (set_vads (<[vad_base v1 := set_private pr v1]>
        (mm_vads (set_resident r o (set_vads (<[vad_base v := v1]> (mm_vads s)) s))))
        (set_resident r o (set_vads (<[vad_base v := v1]> (mm_vads s)) s)))) as Heq.
    { unfold set_resident, set_vads; simpl. by rewrite insert_insert_eq. }
    exists pr, r', o'. cbn zeta. rewrite Heq. split; [exact Hwr|]. split; [exact HI'|].
    intros a. change (set_private pr v) with (set_private pr v1).
    change (mm_sections (set_resident r o _)) with (mm_sections s) in Hby. rewrite Hby.
    destruct (decide (cursor + t ≤ a < e)).
    + rewrite decide_True by lia. f_equal. lia.
    + unfold v1. rewrite (vad_byte_spliced _ _ (page_of cursor) (cursor mod PAGE_SIZE) chunk
        _ _ a Hpa Ht2 ltac:(lia) Hpg Hsp).
      rewrite Hpc, Hcl. destruct (decide (cursor ≤ a < cursor + t)).
      * rewrite decide_True by lia. rewrite Hcv by lia. f_equal. lia.
      * by rewrite decide_False by lia.
  - exists (vad_private v), (mm_resident s), (mm_resident_order s). cbn zeta.
    assert (set_private (vad_private v) v = v) as -> by (by destruct v).
    rewrite insert_id by done.
    assert (set_resident (mm_resident s) (mm_resident_order s) (set_vads (mm_vads s) s) = s) as ->
      by (by destruct s).
    split; [done|]. split; [done|]. intros a. by rewrite decide_False by lia.
Qed.

(** ** Writing through a shared view *)

Lemma inv_set_backing s id x out :
  Inv s → mm_sections s !! id = Some x → length out = length (sec_backing x) →
  Inv (set_sections (mm_next_section s) (<[id := set_backing out x]> (mm_sections s)) s).
Proof.
  intros HI Hx Hl. apply inv_set_sections; [done|apply (inv_next_section _ HI)| |].
  - intros i y. rewrite lookup_insert. case_decide; [|apply (inv_sections _ HI)].
    intros [= <-]. subst. unfold section_ok; simpl. rewrite Hl. by apply (inv_sections _ HI).
  - intros b v i y _ Hy _. rewrite lookup_insert. case_decide; [|by exists y].
    simplify_eq. by eexists.
Qed.

Lemma write_loop_shared fuel v m x e cursor written data s :
  Inv s → mm_vads s !! vad_base v = Some v → vad_mapping v = Some m → map_cow m = false →
  mm_sections s !! map_section_id m = Some x →
  vad_base v ≤ cursor ≤ e → e ≤ vad_end v → vad_size v ≤ sec_size x →
  0 ≤ written → e - cursor = Z.of_nat (length data) - written →
  enough_fuel fuel cursor e →
  ∃ out r o,
    let s' := set_resident r o (set_sections (mm_next_section s)
                (<[map_section_id m := set_backing out x]> (mm_sections s)) s) in
    write_loop fuel (vad_base v) cursor e written data s = Done (Ok tt) s' ∧ Inv s' ∧
    length out = length (sec_backing x) ∧
    ∀ i, 0 ≤ i → out !! Z.to_nat i =
      if decide (cursor - vad_base v ≤ i < e - vad_base v)
      then data !! Z.to_nat (i - (cursor - vad_base v) + written)
      else sec_backing x !! Z.to_nat i.
Proof.
  revert x cursor written s. induction fuel as [|fuel IH];
    intros x cursor written s HI Hv Hm Hcow Hx Hcur He Hsz Hw Hlen Hfuel; [by destruct Hfuel|].
  pose proof (inv_vads _ HI _ _ Hv) as Hok. pose proof (vad_ok_mapping _ _ _ Hok) as Hmap.
  rewrite Hm in Hmap. pose proof (mapping_offset _ _ _ Hmap) as Hoff.
  destruct (inv_sections _ HI _ _ Hx) as (_ & _ & Hback).
  cbn [write_loop]. destruct (cursor <? e) eqn:Hlt; bool_prop; mrun.
  - rewrite (inv_page_size _ HI). fold (page_of cursor). rewrite <-Hlen.
    set (t := Z.min (PAGE_SIZE - cursor mod PAGE_SIZE) (e - cursor)).
    assert (0 < t ∧ cursor + t ≤ e ∧ page_of cursor + cursor mod PAGE_SIZE = cursor)
      as (Ht0 & Ht3 & Hpc).
    { subst t. page_arith. }
    destruct (slice_is_Some written t data) as [chunk Hch]; [lia..|]. rewrite Hch. mrun.
    apply slice_Some in Hch as (_ & _ & _ & Hcl & Hcv).
    unfold write_page. mrun. rewrite Hv. mrun. rewrite Hm, Hcow. mrun. rewrite Hx. mrun.
    rewrite Hoff.
    replace (0 + (page_of cursor - vad_base v) + cursor mod PAGE_SIZE)
      with (cursor - vad_base v) by lia.
    unfold vad_end in He.
    destruct (splice_is_Some (cursor - vad_base v) chunk (sec_backing x)) as [out1 Hsp]; [lia..|].
    rewrite Hsp. mrun. apply splice_Some in Hsp as (_ & _ & Hol & Hov).
    pose proof (inv_set_backing _ _ _ _ HI Hx Hol) as HI1.
    set (s1 := set_sections _ _ s) in *.
    destruct (touch_spec (page_of cursor) _ HI1) as (r & o & Htouch & HI2). rewrite Htouch. mrun.
    edestruct (IH (set_backing out1 x) (cursor + t) (written + t) (set_resident r o s1))
      as (out & r' & o' & Hwr & HI' & Hl' & Hby);
      [exact HI2|done|done|done|simpl; apply lookup_insert_eq|lia|unfold vad_end; lia|done|lia|lia
      |by apply enough_fuel_step|].
    assert (set_resident r' o' (set_sections (mm_next_section s)
        (<[map_section_id m := set_backing out x]> (mm_sections s)) s) =
      set_resident r' o' (set_sections (mm_next_section (set_resident r o s1))
        (<[map_section_id m := set_backing out (set_backing out1 x)]>
           (mm_sections (set_resident r o s1))) (set_resident r o s1))) as Heq.
    { unfold s1, set_resident, set_sections, set_backing; simpl. by rewrite insert_insert_eq. }
    exists out, r', o'. cbn zeta. rewrite Heq. split; [exact Hwr|]. split; [exact HI'|].
    simpl in Hl', Hby. split; [lia|]. intros i Hi. rewrite Hby, Hov by done.
    repeat case_decide; try lia; try done.
    + f_equal. lia.
    + rewrite Hcv by lia. f_equal. lia.
  - exists (sec_backing x), (mm_resident s), (mm_resident_order s). cbn zeta.
    assert (set_backing (sec_backing x) x = x) as -> by (by destruct x).
    rewrite insert_id by done.
    assert (set_resident (mm_resident s) (mm_resident_order s)
      (set_sections (mm_next_section s) (mm_sections s) s) = s) as -> by (by destruct s).
    split; [done|]. split; [done|]. split; [done|]. intros i Hi. by rewrite decide_False by lia.
Qed.

(** ** [write] *)

Lemma write_unfold a data s v :
  data ≠ [] → a + Z.of_nat (length data) ≤ u64_max → find_vad a s = Ok v →
  check_access a (a + Z.of_nat (length data)) true s = Ok tt →
  write a data s =
    write_loop (access_fuel a (a + Z.of_nat (length data))) (vad_base v) a
      (a + Z.of_nat (length data)) 0 data s.
Proof.
  intros Hd Hmax Hf Hc. unfold write. destruct data as [|d ds]; [done|]. mrun.
  unfold checked_add. rewrite (proj2 (Z.leb_le _ u64_max)) by done. mrun.
  rewrite Hc. mrun. by rewrite Hf.
Qed.

Lemma write_denied a data s e :
  data ≠ [] → a + Z.of_nat (length data) ≤ u64_max →
  check_access a (a + Z.of_nat (length data)) true s = Err e → write a data s = Done (Err e) s.
Proof.
  intros Hd Hmax Hc. unfold write. destruct data as [|d ds]; [done|]. mrun.
  unfold checked_add. rewrite (proj2 (Z.leb_le _ u64_max)) by done. mrun. by rewrite Hc.
Qed.

Lemma write_private_spec a data s v :
  Inv s → data ≠ [] → a + Z.of_nat (length data) ≤ u64_max → find_vad a s = Ok v →
  check_access a (a + Z.of_nat (length data)) true s = Ok tt → is_shared v = false →
  ∃ pr r o,
    let v' := set_private pr v in
    let s' := set_resident r o (set_vads (<[vad_base v := v']> (mm_vads s)) s) in
    write a data s = Done (Ok tt) s' ∧ Inv s' ∧
    ∀ x, vad_byte (mm_sections s) v' x =
      if decide (a ≤ x < a + Z.of_nat (length data)) then data !! Z.to_nat (x - a)
      else vad_byte (mm_sections s) v x.
Proof.
  intros HI Hd Hmax Hf Hc Hsh. rewrite (write_unfold _ _ _ _ Hd Hmax Hf Hc).
  apply (check_access_Ok _ _ _ _ HI) in Hc as (v' & Hf' & Hacc). simplify_eq.
  rewrite Hf in Hf'. injection Hf' as <-. pose proof (acc_vad _ _ _ _ _ Hacc) as Hv.
  pose proof (acc_range _ _ _ _ _ Hacc) as [Hr He].
  edestruct (write_loop_private (access_fuel a (a + Z.of_nat (length data))) v
    (a + Z.of_nat (length data)) a 0 data s) as (pr & r & o & Hw & HI' & Hb); try done; [lia| |lia| |].
  { intros x Hx. by eapply acc_committed. }
  { apply access_fuel_enough. }
  exists pr, r, o. split; [done|]. split; [done|]. intros x. rewrite Hb.
  case_decide; [|done]. f_equal. lia.
Qed.

Lemma write_shared_spec a data s v :
  Inv s → data ≠ [] → a + Z.of_nat (length data) ≤ u64_max → find_vad a s = Ok v →
  check_access a (a + Z.of_nat (length data)) true s = Ok tt → is_shared v = true →
  ∃ m x out r o, vad_mapping v = Some m ∧ mm_sections s !! map_section_id m = Some x ∧
    let s' := set_resident r o (set_sections (mm_next_section s)
                (<[map_section_id m := set_backing out x]> (mm_sections s)) s) in
    write a data s = Done (Ok tt) s' ∧ Inv s' ∧ length out = length (sec_backing x) ∧
    ∀ i, 0 ≤ i → out !! Z.to_nat i =
      if decide (a - vad_base v ≤ i < a - vad_base v + Z.of_nat (length data))
      then data !! Z.to_nat (i - (a - vad_base v)) else sec_backing x !! Z.to_nat i.
Proof.
  intros HI Hd Hmax Hf Hc Hsh. rewrite (write_unfold _ _ _ _ Hd Hmax Hf Hc).
  apply (check_access_Ok _ _ _ _ HI) in Hc as (v' & Hf' & Hacc).
  rewrite Hf in Hf'. injection Hf' as <-. pose proof (acc_vad _ _ _ _ _ Hacc) as Hv.
  pose proof (acc_range _ _ _ _ _ Hacc) as [Hr He].
  unfold is_shared in Hsh. pose proof (vad_ok_mapping _ _ _ (inv_vads _ HI _ _ Hv)) as Hmap.
  destruct (vad_mapping v) as [m|] eqn:Hm; [|done]. apply negb_true_iff in Hsh.
  destruct (mapping_section _ _ _ Hmap) as (x & Hx & Hsz).
  edestruct (write_loop_shared (access_fuel a (a + Z.of_nat (length data))) v m x
    (a + Z.of_nat (length data)) a 0 data s) as (out & r & o & Hw & HI' & Hl & Hb);
    try done; [lia|lia| |].
  { apply access_fuel_enough. }
  exists m, x, out, r, o. split; [done|]. split; [done|]. cbn zeta. split; [done|]. split; [done|].
  split; [done|]. intros i Hi. rewrite Hb by done.
  repeat case_decide; try lia; [|done]. f_equal. lia.
Qed.

(** Replacing the contents of a region leaves the map of regions alone. *)
Lemma find_vad_update s s' v v' x :
  Inv s → Inv s' → mm_vads s !! vad_base v = Some v →
  mm_vads s' = <[vad_base v := v']> (mm_vads s) →
  vad_base v' = vad_base v → vad_size v' = vad_size v →
  find_vad x s' = match find_vad x s with
                  | Ok w => if decide (vad_base w = vad_base v) then Ok v' else Ok w
                  | Err e => Err e
                  end.
Proof.
  intros HI HI' Hv Heq Hb Hs. destruct (find_vad_total s x) as [He|[w Hw]].
  - rewrite He. destruct (find_vad_total s' x) as [?|[w Hw]]; [done|]. exfalso.
    apply (find_vad_Ok _ _ _ HI') in Hw as [Hw Hr]. rewrite Heq, lookup_insert in Hw.
    assert (∃ u, find_vad x s = Ok u) as [u Hu]; [|congruence].
    case_decide as Hd.
    + simplify_eq. exists v. apply find_vad_Ok; [done|]. split; [done|].
      unfold vad_end in *. lia.
    + exists w. by apply find_vad_Ok.
  - rewrite Hw. apply (find_vad_Ok _ _ _ HI) in Hw as [Hw Hr]. case_decide as Hd.
    + apply find_vad_Ok; [done|]. rewrite Heq, Hb, lookup_insert_eq. split; [done|].
      rewrite Hd, Hv in Hw. simplify_eq. unfold vad_end in *. lia.
    + apply find_vad_Ok; [done|]. by rewrite Heq, lookup_insert_ne.
Qed.

(** The bytes of an unmodified page of a view are those of its section. *)
Lemma vad_byte_mapped s v m x a :
  Inv s → mm_vads s !! vad_base v = Some v → vad_mapping v = Some m →
  mm_sections s !! map_section_id m = Some x →
  vad_base v ≤ a < vad_end v → vad_private v !! page_of a = None →
  vad_byte (mm_sections s) v a = sec_backing x !! Z.to_nat (a - vad_base v).
Proof.
  intros HI Hv Hm Hx Ha Hp. pose proof (inv_vads _ HI _ _ Hv) as [_ [[_ Hb] [_ Hsz] _] _ _ Hmap].
  rewrite Hm in Hmap. destruct Hmap as [Ho (y & Hy & Hle) _ _]. simplify_eq.
  destruct (inv_sections _ HI _ _ Hx) as (_ & _ & Hlen).
  unfold vad_byte, page_view. rewrite Hp, Hm. simpl. rewrite Hx. simpl. rewrite Ho.
  unfold vad_end in Ha.
  destruct (slice_is_Some (0 + (page_of a - vad_base v)) PAGE_SIZE (sec_backing x)) as [out Hout].
  - clear -Ha Hb. page_arith.
  - done.
  - rewrite Hlen. clear -Ha Hb Hsz Hle. page_arith.
  - rewrite Hout. simpl. apply slice_Some in Hout as (_ & _ & _ & _ & Hv').
    rewrite Hv' by page_arith. f_equal. page_arith.
Qed.
