(* ===== verification/MemoryTheorems.v ===== *)
(** * Theorems on the memory manager

    The step relation of the manager's operations and what holds of every state
    they reach: well-formed regions, panic freedom, exact reads and writes,
    copy-on-write isolation, shared views, accounting and eviction. *)

From S2P Require Import Prelude Status Memory MemoryFacts MemoryAccess.

Definition opt_u64 (o : option Z) : Prop := match o with Some x => u64 x | None => True end.

Inductive step (s : MemoryManager) : MemoryManager → Prop :=
| step_reserve base sz r s' : opt_u64 base → u64 sz → reserve base sz s = Done r s' → step s s'
| step_commit base sz p r s' : u64 base → u64 sz → commit base sz p s = Done r s' → step s s'
| step_decommit base sz r s' : u64 base → u64 sz → decommit base sz s = Done r s' → step s s'
| step_protect base sz p r s' : u64 base → u64 sz → protect base sz p s = Done r s' → step s s'
| step_release base sz r s' : release base sz s = Done r s' → step s s'
| step_read a n r s' : u64 a → u64 n → read a n s = Done r s' → step s s'
| step_write a data r s' : u64 a → write a data s = Done r s' → step s s'
| step_create_section k sz i r s' : u64 sz → create_section k sz i s = Done r s' → step s s'
| step_delete_section id r s' : delete_section id s = Done r s' → step s s'
| step_map_section id base sz p cow r s' :
    opt_u64 base → u64 sz → map_section id base sz p cow s = Done r s' → step s s'
| step_unmap base r s' : unmap_section base s = Done r s' → step s s'
| step_trim target r s' : 0 ≤ target → trim_working_set target s = Done r s' → step s s'.

Inductive reachable : MemoryManager → Prop :=
| reachable_new max_commit max_sections max_ws :
    0 ≤ max_commit < u64_max → 0 ≤ max_ws → reachable (new_memory max_commit max_sections max_ws)
| reachable_step s s' : reachable s → step s s' → reachable s'.

(** ** Every operation returns and keeps the invariant *)

Lemma read_inv a n s : Inv s → u64 a → u64 n → wp (read a n) s (λ _ s', Inv s').
Proof.
  intros HI Ha Hn. destruct (decide (n = 0)) as [->|Hn0]; [done|].
  destruct (decide (a + n ≤ u64_max)) as [Hle|Hgt].
  - pose proof (read_spec a n s HI) as Hr. unfold u64 in *. specialize (Hr ltac:(lia) ltac:(lia) Hle).
    destruct (check_access _ _ _ _).
    + destruct Hr as (r & o & bytes & Hr & HI' & _). by eapply wp_done.
    + by eapply wp_done.
  - unfold wp, read. rewrite (proj2 (Z.eqb_neq n 0)) by done. mrun. unfold checked_add.
    by rewrite (proj2 (Z.leb_gt _ _)) by lia.
Qed.

Lemma write_inv a data s : Inv s → u64 a → wp (write a data) s (λ _ s', Inv s').
Proof.
  intros HI Ha. destruct (decide (data = [])) as [->|Hd]; [done|].
  destruct (decide (a + Z.of_nat (length data) ≤ u64_max)) as [Hle|Hgt].
  - destruct (check_access a (a + Z.of_nat (length data)) true s) as [[]|e] eqn:Hc.
    + pose proof Hc as Hc'. apply (check_access_Ok _ _ _ _ HI) in Hc' as (v & Hf & _).
      destruct (is_shared v) eqn:Hs.
      * destruct (write_shared_spec _ _ _ _ HI Hd Hle Hf Hc Hs)
          as (m & x & out & r & o & _ & _ & Hw & HI' & _). by eapply wp_done.
      * destruct (write_private_spec _ _ _ _ HI Hd Hle Hf Hc Hs) as (pr & r & o & Hw & HI' & _).
        by eapply wp_done.
    + eapply wp_done; [by apply (write_denied _ _ _ e)|done].
  - unfold wp, write. destruct data as [|d ds]; [done|]. mrun. unfold checked_add.
    by rewrite (proj2 (Z.leb_gt _ _)) by lia.
Qed.

Ltac by_spec L := eapply wp_elim in L as [? _]; [|eassumption]; assumption.

Lemma memory_step_inv s s' : Inv s → step s s' → Inv s'.
Proof.
  intros HI Hs. destruct Hs as [base sz r s' Hb Hz Hr|base sz p r s' Hb Hz Hr|base sz r s' Hb Hz Hr
    |base sz p r s' Hb Hz Hr|base sz r s' Hr|a n r s' Ha Hn Hr|a data r s' Ha Hr
    |k sz i r s' Hz Hr|id r s' Hr|id base sz p cow r s' Hb Hz Hr|base r s' Hr|target r s' Ht Hr].
  - pose proof (reserve_spec base sz s HI Hz Hb) as L. by_spec L.
  - pose proof (commit_spec base sz p s HI Hb Hz) as L. by_spec L.
  - pose proof (decommit_spec base sz s HI Hb Hz) as L. by_spec L.
  - pose proof (protect_spec base sz p s HI Hb Hz) as L. by_spec L.
  - pose proof (release_spec base sz s HI) as L. by_spec L.
  - exact (wp_elim _ _ _ _ _ (read_inv a n s HI Ha Hn) Hr).
  - exact (wp_elim _ _ _ _ _ (write_inv a data s HI Ha) Hr).
  - destruct (decide (mm_next_section s < u64_max)) as [Hn|Hn].
    + pose proof (create_section_spec k sz i s HI Hz Hn) as L. by_spec L.
    + unfold create_section in Hr. mrun. msplit; simplify_eq; try done. bool_prop. lia.
  - pose proof (delete_section_spec id s HI) as L. by_spec L.
  - pose proof (map_section_spec id base sz p cow s HI Hz Hb) as L. by_spec L.
  - pose proof (unmap_section_spec base s HI) as L. by_spec L.
  - destruct (trim_spec target s HI Ht) as [Htr HI']. rewrite Htr in Hr. by simplify_eq.
Qed.

Lemma memory_reachable_inv s : reachable s → Inv s.
Proof. induction 1; [by apply memory_inv_new|by eapply memory_step_inv]. Qed.

(** C4 - The address space is well formed in every reachable state: regions are
    page aligned, non-empty, above address zero, below the user limit and pairwise
    disjoint; committed pages are pages of their region and have 4096 bytes behind
    them; the resident pages are listed once each, within the working-set cap. *)
Theorem address_space_well_formed s :
  reachable s →
  (∀ b v, mm_vads s !! b = Some v →
     vad_base v = b ∧ 0 < b ∧ aligned b ∧ 0 < vad_size v ∧ aligned (vad_size v) ∧
     vad_end v ≤ USER_LIMIT ∧
     ∀ p, is_Some (vad_pages v !! p) → b ≤ p < vad_end v ∧ aligned p ∧
       ∃ bytes, page_view (mm_sections s) v p = Some bytes ∧
                Z.of_nat (length bytes) = PAGE_SIZE) ∧
  (∀ b1 v1 b2 v2, mm_vads s !! b1 = Some v1 → mm_vads s !! b2 = Some v2 → b1 ≠ b2 →
     vad_end v1 ≤ b2 ∨ vad_end v2 ≤ b1) ∧
  mm_resident s = list_to_set (mm_resident_order s) ∧ NoDup (mm_resident_order s) ∧
  working_set_pages s ≤ mm_max_working_set s.
Proof.
  intros HI%memory_reachable_inv. split_and!.
  - intros b v Hv. pose proof (inv_vads _ HI _ _ Hv) as [Hb [[? ?] [? ?] ?] Hp _ _].
    unfold vad_end. rewrite Hb. split_and!; try done. intros p Hs.
    destruct (Hp _ Hs) as [Hr Ha]. unfold vad_end in Hr. rewrite Hb in Hr.
    split; [done|]. split; [done|]. by eapply page_view_Some.
  - intros b1 v1 b2 v2 H1 H2 Hne. destruct (decide (b1 < b2)).
    + left. by eapply (inv_disjoint _ HI).
    + right. eapply (inv_disjoint _ HI); [done|done|lia].
  - apply (inv_resident _ HI).
  - apply (inv_resident _ HI).
  - destruct (inv_resident _ HI) as (Hr & Hnd & Hc). unfold working_set_pages.
    rewrite Hr, size_list_to_set by done. done.
Qed.

(** [c] returns, whatever it returns. *)
Definition returns {A} (c : M MemoryManager A) (s : MemoryManager) : Prop :=
  ∃ r s', c s = Done r s'.

Lemma wp_returns {A} (c : M MemoryManager A) s Q : wp c s Q → returns c s.
Proof. intros (r & s' & Hr & _)%wp_inv. by exists r, s'. Qed.

(** C6 - No operation of the memory manager panics or loops: in every reachable
    state and for all 64-bit arguments each returns a result (the searches and the
    page loops never exhaust their bounds, no [expect] fails, no slice is out of
    range and no counter overflows, the section identifiers aside). *)
Theorem memory_operations_return s base obase sz a n data prot id k init cow target :
  reachable s → u64 base → opt_u64 obase → u64 sz → u64 a → u64 n → 0 ≤ target →
  mm_next_section s < u64_max →
  returns (reserve obase sz) s ∧ returns (commit base sz prot) s ∧
  returns (decommit base sz) s ∧ returns (protect base sz prot) s ∧
  returns (release base sz) s ∧ returns (read a n) s ∧ returns (write a data) s ∧
  returns (create_section k sz init) s ∧ returns (delete_section id) s ∧
  returns (map_section id obase sz prot cow) s ∧ returns (unmap_section base) s ∧
  returns (trim_working_set target) s.
Proof.
  intros HI%memory_reachable_inv Hb Hob Hsz Ha Hn Ht Hnext. split_and!.
  - by eapply wp_returns, reserve_spec.
  - by eapply wp_returns, commit_spec.
  - by eapply wp_returns, decommit_spec.
  - by eapply wp_returns, protect_spec.
  - by eapply wp_returns, release_spec.
  - by eapply wp_returns, read_inv.
  - by eapply wp_returns, write_inv.
  - by eapply wp_returns, create_section_spec.
  - by eapply wp_returns, delete_section_spec.
  - by eapply wp_returns, map_section_spec.
  - by eapply wp_returns, unmap_section_spec.
  - destruct (trim_spec target s HI Ht) as [Htr _]. by eexists _, _.
Qed.

(** A reservation is fresh: on success the region is the requested size
    rounded up to pages, at the requested base (or at or above the search hint),
    and meets no existing region; every other region is kept.  A failure changes
    nothing. *)
Theorem reserve_fresh_region s obase sz :
  reachable s → opt_u64 obase → u64 sz →
  ∃ r s', reserve obase sz s = Done r s' ∧
  match r with
  | Err _ => s' = s
  | Ok b => ∃ a, align_up sz PAGE_SIZE = Some a ∧
      match obase with Some b0 => b = b0 | None => mm_next_base s ≤ b end ∧
      (∀ b' v', mm_vads s !! b' = Some v' → vad_end v' ≤ b ∨ b + a ≤ b') ∧
      mm_vads s' = <[b := fresh_vad b a]> (mm_vads s) ∧
      mm_committed_bytes s' = mm_committed_bytes s
  end.
Proof.
  intros HI%memory_reachable_inv Hb Hsz.
  destruct (wp_inv _ _ _ (reserve_spec obase sz s HI Hsz Hb)) as (r & s' & Hr & _ & Hres).
  exists r, s'. split; [done|]. destruct r as [b|]; [|done].
  destruct Hres as (a & Ha & _ & Hfree & Hbase & _ & ->). by exists a.
Qed.

(** [read] returns exactly the bytes of the abstract memory when the whole
    range lies in one region and every page of it is readable, and reports the
    failing check otherwise; no byte, region or section changes. *)
Theorem read_returns_memory s a n :
  reachable s → u64 a → 0 < n → a + n ≤ u64_max →
  ∃ s', (∀ x, mem_byte s' x = mem_byte s x) ∧ mm_vads s' = mm_vads s ∧
  match check_access a (a + n) false s with
  | Err e => read a n s = Done (Err e) s'
  | Ok _ => ∃ bytes, read a n s = Done (Ok bytes) s' ∧ Z.of_nat (length bytes) = n ∧
      ∀ i, 0 ≤ i < n → bytes !! Z.to_nat i = mem_byte s (a + i)
  end.
Proof.
  intros HI%memory_reachable_inv Ha Hn Hmax.
  pose proof (read_spec a n s HI) as Hr. unfold u64 in Ha.
  specialize (Hr ltac:(lia) Hn Hmax). destruct (check_access _ _ _ _).
  - destruct Hr as (r & o & bytes & Hr & _ & Hl & Hb). exists (set_resident r o s).
    split; [done|]. split; [done|]. by exists bytes.
  - by exists s.
Qed.

(** ** Writes *)

(** The abstract memory after the contents of one region changed. *)
Lemma mem_byte_update s s' v v' x :
  Inv s → Inv s' → mm_vads s !! vad_base v = Some v →
  mm_vads s' = <[vad_base v := v']> (mm_vads s) → mm_sections s' = mm_sections s →
  vad_base v' = vad_base v → vad_size v' = vad_size v →
  mem_byte s' x =
    match find_vad x s with
    | Ok w => if decide (vad_base w = vad_base v)
              then if bool_decide (is_Some (vad_pages v' !! page_of x))
                   then vad_byte (mm_sections s) v' x else None
              else mem_byte s x
    | Err _ => None
    end.
Proof.
  intros HI HI' Hv Heq Hsec Hb Hs. unfold mem_byte at 1.
  rewrite (find_vad_update s s' v v' x) by done. rewrite Hsec.
  unfold mem_byte. destruct (find_vad x s) as [w|]; [|done]. by case_decide.
Qed.

(** Writing to private memory or through a copy-on-write view changes exactly
    the bytes written, as seen by every address of the address space, and changes
    no section: other views of the same section keep their bytes.  A write whose
    range is not wholly writable fails and changes nothing. *)
Theorem private_write_isolated s a data v :
  reachable s → data ≠ [] → a + Z.of_nat (length data) ≤ u64_max →
  find_vad a s = Ok v → is_shared v = false →
  match check_access a (a + Z.of_nat (length data)) true s with
  | Err e => write a data s = Done (Err e) s
  | Ok _ => ∃ s', write a data s = Done (Ok tt) s' ∧ mm_sections s' = mm_sections s ∧
      ∀ x, mem_byte s' x = if decide (a ≤ x < a + Z.of_nat (length data))
                           then data !! Z.to_nat (x - a) else mem_byte s x
  end.
Proof.
  intros HI%memory_reachable_inv Hd Hmax Hf Hsh.
  destruct (check_access _ _ _ _) as [[]|e] eqn:Hc; [|by apply write_denied].
  destruct (write_private_spec _ _ _ _ HI Hd Hmax Hf Hc Hsh) as (pr & r & o & Hw & HI' & Hb).
  eexists. split; [done|]. split; [done|]. intros x.
  apply (check_access_Ok _ _ _ _ HI) in Hc as (v' & Hf' & Hacc).
  rewrite Hf in Hf'. injection Hf' as <-. pose proof (acc_vad _ _ _ _ _ Hacc) as Hv.
  rewrite (mem_byte_update s _ v (set_private pr v)) by done.
  change (vad_pages (set_private pr v)) with (vad_pages v). case_decide as Hx.
  - assert (find_vad x s = Ok v) as ->.
    { apply find_vad_Ok; [done|]. split; [done|]. destruct (acc_range _ _ _ _ _ Hacc). lia. }
    rewrite decide_True by done.
    rewrite bool_decide_true by (eapply acc_committed; [done|lia]).
    by rewrite Hb, decide_True.
  - unfold mem_byte. destruct (find_vad x s) as [w|] eqn:Hw'; [|done].
    case_decide as Hd'; [|done]. apply (find_vad_Ok _ _ _ HI) in Hw' as [Hw1 _].
    rewrite Hd', Hv in Hw1. simplify_eq. by rewrite Hb, decide_False.
Qed.

(** Writing through a shared view writes through to the section: its bytes
    change exactly at the offsets written, other sections and all regions are
    unchanged, and every view of the section sees the section's bytes on the pages
    it has not copied. *)
Theorem shared_write_through s a data v :
  reachable s → data ≠ [] → a + Z.of_nat (length data) ≤ u64_max →
  find_vad a s = Ok v → is_shared v = true →
  check_access a (a + Z.of_nat (length data)) true s = Ok tt →
  ∃ m s' x y, vad_mapping v = Some m ∧ write a data s = Done (Ok tt) s' ∧
    mm_vads s' = mm_vads s ∧
    mm_sections s !! map_section_id m = Some x ∧
    mm_sections s' = <[map_section_id m := y]> (mm_sections s) ∧
    (∀ i, 0 ≤ i → sec_backing y !! Z.to_nat i =
       if decide (a - vad_base v ≤ i < a - vad_base v + Z.of_nat (length data))
       then data !! Z.to_nat (i - (a - vad_base v)) else sec_backing x !! Z.to_nat i) ∧
    (∀ w z, mm_vads s !! vad_base w = Some w → maps_section (map_section_id m) w = true →
       vad_base w ≤ z < vad_end w → vad_private w !! page_of z = None →
       mem_byte s' z = sec_backing y !! Z.to_nat (z - vad_base w)).
Proof.
  intros HI%memory_reachable_inv Hd Hmax Hf Hsh Hc.
  destruct (write_shared_spec _ _ _ _ HI Hd Hmax Hf Hc Hsh)
    as (m & x & out & r & o & Hm & Hx & Hw & HI' & Hl & Hb).
  eexists m, _, x, (set_backing out x).
  split; [done|]. split; [done|]. split; [done|]. split; [done|]. split; [done|]. split; [done|].
  intros w z Hw1 Hmap Hz Hpr. unfold maps_section in Hmap.
  destruct (vad_mapping w) as [m'|] eqn:Hm'; [|done]. apply Z.eqb_eq in Hmap.
  pose proof (vad_ok_mapping _ _ _ (inv_vads _ HI _ _ Hw1)) as Hok. rewrite Hm' in Hok.
  pose proof (vad_ok_region _ _ _ (inv_vads _ HI _ _ Hw1)) as [[_ Hba] [_ Hsa] _].
  rewrite (mem_byte_vad _ z w HI' Hw1 Hz).
  - eapply vad_byte_mapped; try done. rewrite Hmap. simpl. apply lookup_insert_eq.
  - apply (mapping_pages _ _ _ Hok); unfold vad_end in *; clear -Hz Hba Hsa; page_arith.
Qed.

Lemma readable_after_write s s' a e v w :
  Inv s → Inv s' → accessible s a e true v → find_vad a s' = Ok w → vad_end w = vad_end v →
  vad_pages w = vad_pages v → check_access a e false s' = Ok tt.
Proof.
  intros HI HI' [Hv [Hr He] Hp] Hw Hend Hpg. apply check_access_Ok; [done|].
  exists w. split; [done|]. apply (find_vad_Ok _ _ _ HI') in Hw as [Hw1 Hw2].
  split; [done|split; [done|lia]|]. intros p Hin. destruct (Hp p Hin) as (prot & Hpr & Hwr).
  exists prot. rewrite Hpg. split; [done|]. by apply writable_readable.
Qed.

(** What is written is read back: after a successful write, reading the same
    range returns the data, for private memory, copy-on-write and shared views
    alike. *)
Theorem write_read_roundtrip s a data s' :
  reachable s → u64 a → data ≠ [] → write a data s = Done (Ok tt) s' →
  ∃ s'', read a (Z.of_nat (length data)) s' = Done (Ok data) s''.
Proof.
  intros HI%memory_reachable_inv Ha Hd Hw.
  assert (0 < Z.of_nat (length data)) as Hpos by (destruct data; simpl; [done|lia]).
  assert (a + Z.of_nat (length data) ≤ u64_max) as Hmax.
  { unfold write in Hw. destruct data as [|d ds]; [done|]. mrun. unfold checked_add in Hw.
    destruct (_ <=? u64_max) eqn:E; [by bool_prop|done]. }
  destruct (check_access a (a + Z.of_nat (length data)) true s) as [[]|e] eqn:Hc;
    [|by rewrite (write_denied _ _ _ _ Hd Hmax Hc) in Hw].
  pose proof Hc as Hc'. apply (check_access_Ok _ _ _ _ HI) in Hc' as (v & Hf & Hacc).
  pose proof (acc_vad _ _ _ _ _ Hacc) as Hv. pose proof (acc_range _ _ _ _ _ Hacc) as [Hr He].
  cut (∃ w, Inv s' ∧ find_vad a s' = Ok w ∧ vad_end w = vad_end v ∧ vad_pages w = vad_pages v ∧
    ∀ i, 0 ≤ i < Z.of_nat (length data) → mem_byte s' (a + i) = data !! Z.to_nat i).
  { intros (w & HI' & Hw' & Hend & Hpg & Hby).
    pose proof (readable_after_write _ _ _ _ _ _ HI HI' Hacc Hw' Hend Hpg) as Hc2.
    unfold u64 in Ha.
    pose proof (read_spec a (Z.of_nat (length data)) s' HI' ltac:(lia) Hpos Hmax) as Hrd.
    rewrite Hc2 in Hrd. destruct Hrd as (r & o & bytes & Hrd & _ & Hl & Hb).
    exists (set_resident r o s'). rewrite Hrd. do 2 f_equal. apply list_eq_same_length
      with (length data); [done|lia|]. intros i y z Hi Hy Hz.
    specialize (Hb (Z.of_nat i) ltac:(lia)). rewrite Hby in Hb by lia.
    rewrite Nat2Z.id in Hb. congruence. }
  destruct (is_shared v) eqn:Hsh.
  - destruct (write_shared_spec _ _ _ _ HI Hd Hmax Hf Hc Hsh)
      as (m & x & out & r & o & Hm & Hx & Hw' & HI' & Hl & Hb).
    rewrite Hw' in Hw. injection Hw as <-. exists v. split; [done|]. split; [done|].
    split; [done|]. split; [done|]. intros i Hi.
    rewrite (mem_byte_vad _ (a + i) v HI') by (done || lia || (eapply acc_committed; [done|lia])).
    pose proof (vad_ok_mapping _ _ _ (inv_vads _ HI _ _ Hv)) as Hok. rewrite Hm in Hok.
    unfold is_shared in Hsh. rewrite Hm in Hsh. apply negb_true_iff in Hsh.
    rewrite (vad_byte_mapped _ v m (set_backing out x) (a + i) HI');
      [|done|done|simpl; apply lookup_insert_eq|lia|by rewrite (mapping_shared _ _ _ Hok Hsh)].
    simpl. rewrite Hb, decide_True by lia. f_equal. lia.
  - destruct (write_private_spec _ _ _ _ HI Hd Hmax Hf Hc Hsh) as (pr & r & o & Hw' & HI' & Hb).
    rewrite Hw' in Hw. injection Hw as <-. exists (set_private pr v). split; [done|]. split.
    { rewrite (find_vad_update s _ v (set_private pr v)) by done. rewrite Hf.
      by rewrite decide_True. }
    split; [done|]. split; [done|]. intros i Hi.
    rewrite (mem_byte_update s _ v (set_private pr v)) by done.
  change (vad_pages (set_private pr v)) with (vad_pages v).
    assert (find_vad (a + i) s = Ok v) as -> by (apply find_vad_Ok; [done|split; [done|lia]]).
    rewrite decide_True by done. rewrite bool_decide_true by (eapply acc_committed; [done|lia]).
    rewrite Hb, decide_True by lia. f_equal. lia.
Qed.

(** ** Commitment *)

Lemma validate_range_intro s base sz v a :
  Inv s → range_of s base sz v a → validate_range base sz s = Ok (base, base + a).
Proof.
  intros HI [(Ha & Hba & Haa) [Hb0 Ha0] [Hv Hf] [Hi1 Hi2]].
  unfold validate_range. rewrite (inv_page_size _ HI), Ha, Hf.
  pose proof (region_end _ _ (vad_ok_region _ _ _ (inv_vads _ HI _ _ Hv))) as Hend.
  assert (sz ≠ 0) as Hsz by (intros ->; vm_compute in Ha; simplify_eq; lia).
  rewrite (proj2 (Z.eqb_neq base 0)), (proj2 (Z.eqb_neq sz 0)) by lia.
  unfold aligned in Hba. rewrite Hba. simpl. unfold checked_add.
  rewrite (proj2 (Z.leb_le _ _)) by (unfold vad_end, USER_LIMIT, u64_max in *; lia).
  by rewrite (proj2 (Z.ltb_ge _ _)) by lia.
Qed.

Lemma decommit_succeeds s base sz v a :
  Inv s → range_of s base sz v a → vad_mapping v = None →
  count_committed (base, base + a) v ≠ 0 → ∃ s', decommit base sz s = Done (Ok tt) s'.
Proof.
  intros HI Hra Hm Hc. unfold decommit. mrun. rewrite (validate_range_intro _ _ _ _ _ HI Hra). mrun.
  destruct (range_vad _ _ _ _ _ Hra) as [Hv Hf]. rewrite Hf. mrun.
  rewrite bool_decide_false by (rewrite Hm; by intros [? ?]). mrun.
  rewrite (proj2 (Z.eqb_neq _ 0)) by done. mrun. rewrite Hv. mrun. eauto.
Qed.

Lemma range_of_update s s' base sz v v' a :
  Inv s → Inv s' → range_of s base sz v a → mm_vads s' = <[vad_base v := v']> (mm_vads s) →
  vad_base v' = vad_base v → vad_size v' = vad_size v → range_of s' base sz v' a.
Proof.
  intros HI HI' [Ha Hp [Hv Hf] Hi] Heq Hb Hs. split; try done.
  - rewrite Heq, Hb, lookup_insert_eq. split; [done|].
    rewrite (find_vad_update s s' v v') by done. rewrite Hf. by rewrite decide_True.
  - unfold vad_end in *. lia.
Qed.

Lemma range_of_fun s base sz v a w b : range_of s base sz v a → range_of s base sz w b → w = v ∧ b = a.
Proof. intros [[Ha _] _ [_ Hf] _] [[Hb _] _ [_ Hg] _]. split; congruence. Qed.

Lemma count_all range v :
  (∀ p, p ∈ range_pages range → is_Some (vad_pages v !! p)) →
  count_committed range v = Z.of_nat (length (range_pages range)).
Proof.
  intros Hall. unfold count_committed. f_equal. f_equal.
  induction (range_pages range) as [|p l IH]; [done|].
  rewrite filter_cons_True by (apply Hall; by left). f_equal. apply IH.
  intros q Hq. apply Hall. by right.
Qed.

Lemma vad_byte_zeros secs v x : vad_private v !! page_of x = Some (zeros PAGE_SIZE) → vad_byte secs v x = Some 0.
Proof.
  intros Hz. unfold vad_byte, page_view. rewrite Hz. simpl. unfold zeros.
  apply lookup_replicate. split; [done|]. page_arith.
Qed.

(** Committing a range charges exactly its pages against the limit and makes
    it readable as zeros, without touching any other byte; decommitting it again
    gives the charge back and restores the abstract memory. *)
Theorem commit_decommit_roundtrip s base sz prot s' :
  reachable s → u64 base → u64 sz → commit base sz prot s = Done (Ok tt) s' →
  ∃ a, align_up sz PAGE_SIZE = Some a ∧
    mm_committed_bytes s' = mm_committed_bytes s + a ∧ mm_committed_bytes s' ≤ mm_max_commit s ∧
    (∀ x, mem_byte s' x = if decide (base ≤ x < base + a) then Some 0 else mem_byte s x) ∧
    ∃ s'', decommit base sz s' = Done (Ok tt) s'' ∧
      mm_committed_bytes s'' = mm_committed_bytes s ∧ ∀ x, mem_byte s'' x = mem_byte s x.
Proof.
  intros HI%memory_reachable_inv Hb Hs Hc.
  pose proof (wp_elim _ _ _ _ _ (commit_spec base sz prot s HI Hb Hs) Hc)
    as [HI' (_ & v & a & Hra & Hm & Hnone & Hlim & Hs')].
  pose proof Hra as [(Ha & Hba & Haa) [Hb0 Ha0] [Hv Hf] [Hi1 Hi2]].
  set (v' := committed_vad prot (base, base + a) v) in *.
  assert (∀ x, page_of x ∈ range_pages (base, base + a) ↔ base ≤ x < base + a) as Hpage.
  { intros x. rewrite elem_of_aligned_range by done. clear -Hba Haa. split; intros; page_arith. }
  assert (∀ x, mem_byte s' x = if decide (base ≤ x < base + a) then Some 0 else mem_byte s x) as Hmem.
  { intros x. rewrite (mem_byte_update s s' v v') by (done || by subst s'). case_decide as Hx.
    - assert (find_vad x s = Ok v) as -> by (apply find_vad_Ok; [done|split; [done|lia]]).
      rewrite decide_True by done. unfold v', committed_vad. simpl.
      rewrite lookup_fold_insert, decide_True by (by apply Hpage). rewrite bool_decide_true by eauto.
      apply vad_byte_zeros. simpl. by rewrite lookup_fold_insert, decide_True by (by apply Hpage).
    - unfold mem_byte. destruct (find_vad x s) as [w|] eqn:Hw; [|done].
      case_decide as Hd; [|done]. apply (find_vad_Ok _ _ _ HI) in Hw as [Hw1 _].
      rewrite Hd, Hv in Hw1. simplify_eq. unfold v', committed_vad, vad_byte, page_view. simpl.
      by rewrite !lookup_fold_insert, !decide_False by (by rewrite Hpage). }
  assert (range_of s' base sz v' a) as Hra'.
  { apply (range_of_update s _ _ _ v); try done. by subst s'. }
  assert (∀ p, p ∈ range_pages (base, base + a) → is_Some (vad_pages v' !! p)) as Hall.
  { intros p Hp. unfold v', committed_vad; simpl. rewrite lookup_fold_insert, decide_True by done. eauto. }
  pose proof (length_aligned_range base a Hba Haa ltac:(lia)) as Hlen.
  assert (vad_mapping v' = None) as Hm' by done.
  exists a. split; [done|]. split; [by subst s'|]. split; [by subst s'|]. split; [done|].
  destruct (decommit_succeeds s' base sz v' a) as [s'' Hdec]; try done.
  { rewrite count_all by done. unfold PAGE_SIZE in Hlen. lia. }
  exists s''. split; [done|].
  pose proof (wp_elim _ _ _ _ _ (decommit_spec base sz s' HI' Hb Hs) Hdec)
    as [HI'' (w & b & Hra'' & _ & Hvads & Hsecs & Hcom & _)].
  destruct (range_of_fun _ _ _ _ _ _ _ Hra' Hra'') as [-> ->]. split.
  - rewrite Hcom, count_all, Hlen by done. subst s'. simpl. unfold saturating_sub.
    destruct (inv_committed _ HI). lia.
  - intros x. rewrite (mem_byte_update s s'' v (decommitted_vad (base, base + a) v')); try done;
      [|by rewrite Hvads, Hs'; simpl; rewrite insert_insert_eq|by rewrite Hsecs, Hs'].
    unfold mem_byte. destruct (find_vad x s) as [w|] eqn:Hw; [|done].
    case_decide as Hd; [|done]. apply (find_vad_Ok _ _ _ HI) in Hw as [Hw1 _].
    rewrite Hd, Hv in Hw1. simplify_eq.
    unfold v', committed_vad, decommitted_vad, vad_byte, page_view. simpl.
    rewrite !lookup_fold_delete, !lookup_fold_insert.
    destruct (decide (page_of x ∈ range_pages (base, base + a))) as [Hin|]; [|done].
    by rewrite (Hnone _ Hin).
Qed.

(** ** Eviction *)

(** Trimming the working set evicts the oldest pages, exactly as many as are
    above the target, keeps the order of the others, and touches no memory. *)
Theorem trim_evicts_oldest s target :
  reachable s → 0 ≤ target →
  ∃ s', trim_working_set target s = Done (Ok (Z.max 0 (working_set_pages s - target))) s' ∧
    mm_resident_order s' =
      drop (Z.to_nat (working_set_pages s - target)) (mm_resident_order s) ∧
    mm_resident s' = list_to_set (mm_resident_order s') ∧
    working_set_pages s' ≤ Z.max target 0 ∧ ∀ x, mem_byte s' x = mem_byte s x.
Proof.
  intros HI%memory_reachable_inv Ht. destruct (trim_spec target s HI Ht) as [Htr _].
  destruct (inv_resident _ HI) as (Hr & Hnd & _).
  assert (working_set_pages s = Z.of_nat (length (mm_resident_order s))) as Hws.
  { unfold working_set_pages. by rewrite Hr, size_list_to_set. }
  eexists. rewrite Htr, Hws. split; [repeat f_equal; lia|]. split; [done|]. split; [done|].
  split; [|done]. unfold working_set_pages. simpl.
  rewrite size_list_to_set by (eapply sublist_NoDup, sublist_drop; done).
  rewrite length_drop. lia.
Qed.

(** ** A defect of the accounting

    [release] gives back the pages of every region, mapped views included, although
    [map_section] does not charge them. *)

(** A run, one operation at a time. *)
Definition after {A} (c : M MemoryManager A) (s : MemoryManager) : MemoryManager :=
  state_of (c s) s.

Definition defect_run : MemoryManager :=
  after (commit 0x12000 4096 READWRITE)
    (after (reserve None 4096)
      (after (unmap_section 0x11000)
        (after (map_section 1 None 4096 READWRITE true)
          (after (create_section VkData 4096 [])
            (after (commit 0x10000 4096 READWRITE)
              (after (reserve None 4096) (new_memory 4096 8 8))))))).

Lemma after_step {A} (c : M MemoryManager A) s r :
  reachable s → result_of (c s) = Some r →
  (∀ s', c s = Done r s' → step s s') → reachable (after c s).
Proof. intros Hs Hr Hstep. eapply reachable_step; [done|]. by apply Hstep, run_eq. Qed.

Ltac run_step c :=
  eapply after_step; [|vm_compute; reflexivity|intros s' Hs'; eapply c; [..|exact Hs']; clear; by vm_compute].

(** The commit limit can be exceeded: unmapping a view gives back commit
    charge that mapping it never took, so a manager limited to one page reaches a
    state with two committed private pages, both written to the limit's account as
    one. *)
Theorem unmap_undercounts_commit :
  ∃ s, reachable s ∧ mm_max_commit s = 4096 ∧ mm_committed_bytes s = 4096 ∧
    total_charge (mm_vads s) = 8192.
Proof.
  exists defect_run. split; [|by vm_compute].
  unfold defect_run. run_step step_commit. run_step step_reserve. run_step step_unmap.
  run_step step_map_section. run_step step_create_section. run_step step_commit.
  run_step step_reserve. by apply reachable_new.
Qed.

(** ** Concrete runs

    A private region of two pages at [0x10000] and a shared view of a one-page
    section at [0x12000]. *)

Definition demo_reserved : MemoryManager := after (reserve None 8192) default_memory.
Definition demo_committed : MemoryManager := after (commit 0x10000 8192 READWRITE) demo_reserved.
Definition demo_section : MemoryManager := after (create_section VkData 4096 [5; 6]) demo_committed.
Definition demo_view : MemoryManager :=
  after (map_section 1 None 4096 READWRITE false) demo_section.
Definition demo_written : MemoryManager := after (write 0x10FFE [1; 2; 3; 4]) demo_view.

Lemma demo_committed_reachable : reachable demo_committed.
Proof.
  unfold demo_committed, demo_reserved. run_step step_commit. run_step step_reserve.
  by apply reachable_new.
Qed.

Lemma demo_reserved_reachable : reachable demo_reserved.
Proof. unfold demo_reserved. run_step step_reserve. by apply reachable_new. Qed.

Lemma demo_view_reachable : reachable demo_view.
Proof.
  unfold demo_view, demo_section. run_step step_map_section. run_step step_create_section.
  apply demo_committed_reachable.
Qed.

Lemma demo_written_reachable : reachable demo_written.
Proof. unfold demo_written. run_step step_write. apply demo_view_reachable. Qed.

Lemma u64_intro x : (0 <=? x) && (x <=? u64_max) = true → u64 x.
Proof. unfold u64. intros. by bool_prop. Qed.

Lemma address_space_well_formed_witness :
  mm_resident demo_written = list_to_set (mm_resident_order demo_written) ∧
  working_set_pages demo_written = 2.
Proof.
  destruct (address_space_well_formed demo_written demo_written_reachable) as (_ & _ & H & _).
  split; [exact H|vm_compute; reflexivity].
Defined.

Lemma memory_operations_return_witness : returns (read 0x10FFE 4) demo_written.
Proof.
  apply (memory_operations_return demo_written 0 None 0 0x10FFE 4 [] 0 0 VkData [] false 0);
    [apply demo_written_reachable|apply u64_intro; reflexivity|exact I
    |apply u64_intro; reflexivity|apply u64_intro; reflexivity|apply u64_intro; reflexivity
    |discriminate|vm_compute; reflexivity].
Defined.

Lemma reserve_fresh_region_witness :
  ∃ r s', reserve None 8192 demo_written = Done r s' ∧
    result_of (reserve None 8192 demo_written) = Some (Ok 0x13000).
Proof.
  destruct (reserve_fresh_region demo_written None 8192 demo_written_reachable I)
    as (r & s' & Hr & _); [apply u64_intro; reflexivity|].
  exists r, s'. split; [exact Hr|vm_compute; reflexivity].
Defined.

Lemma read_returns_memory_witness :
  ∃ s', (∀ x, mem_byte s' x = mem_byte demo_written x) ∧
    check_access 0x10FFE 0x11002 false demo_written = Ok tt.
Proof.
  destruct (read_returns_memory demo_written 0x10FFE 4 demo_written_reachable)
    as (s' & Hm & _); [apply u64_intro; reflexivity|reflexivity|vm_compute; discriminate|].
  exists s'. split; [exact Hm|vm_compute; reflexivity].
Defined.

Definition vad_at (b : Z) (s : MemoryManager) : Vad := default (fresh_vad 0 0) (mm_vads s !! b).

Lemma private_write_isolated_witness :
  check_access 0x10FFE 0x11002 true demo_view = Ok tt ∧
  ∃ s', write 0x10FFE [1; 2; 3; 4] demo_view = Done (Ok tt) s' ∧
    mm_sections s' = mm_sections demo_view.
Proof.
  split; [vm_compute; reflexivity|].
  pose proof (private_write_isolated demo_view 0x10FFE [1; 2; 3; 4] (vad_at 0x10000 demo_view)
    demo_view_reachable) as H.
  assert (check_access 0x10FFE (0x10FFE + Z.of_nat (length [1; 2; 3; 4])) true demo_view = Ok tt)
    as Hc by (vm_compute; reflexivity).
  rewrite Hc in H. destruct H as (s' & Hw & Hs & _);
    [discriminate|vm_compute; discriminate|vm_compute; reflexivity|vm_compute; reflexivity|].
  exists s'. split; [exact Hw|exact Hs].
Defined.

Lemma shared_write_through_witness :
  ∃ m s' y, vad_mapping (vad_at 0x12000 demo_view) = Some m ∧
    write 0x12010 [9] demo_view = Done (Ok tt) s' ∧
    mm_sections s' = <[map_section_id m := y]> (mm_sections demo_view).
Proof.
  destruct (shared_write_through demo_view 0x12010 [9] (vad_at 0x12000 demo_view)
    demo_view_reachable) as (m & s' & x & y & Hm & Hw & _ & _ & Hs & _);
    [discriminate|vm_compute; discriminate|vm_compute; reflexivity..|].
  exists m, s', y. split; [exact Hm|]. split; [exact Hw|exact Hs].
Defined.

Lemma write_read_roundtrip_witness :
  ∃ s'', read 0x10FFE 4 demo_written = Done (Ok [1; 2; 3; 4]) s''.
Proof.
  apply (write_read_roundtrip demo_view 0x10FFE [1; 2; 3; 4] demo_written);
    [apply demo_view_reachable|apply u64_intro; reflexivity|discriminate|].
  refine (run_eq (write 0x10FFE [1; 2; 3; 4]) demo_view (Ok tt) _). vm_compute. reflexivity.
Defined.

Lemma commit_decommit_roundtrip_witness :
  ∃ s'', decommit 0x10000 8192 demo_committed = Done (Ok tt) s'' ∧
    mm_committed_bytes s'' = mm_committed_bytes demo_reserved.
Proof.
  destruct (commit_decommit_roundtrip demo_reserved 0x10000 8192 READWRITE demo_committed
    demo_reserved_reachable) as (a & _ & _ & _ & _ & s'' & Hd & Hc & _);
    [apply u64_intro; reflexivity|apply u64_intro; reflexivity
    |apply run_eq; vm_compute; reflexivity|].
  exists s''. split; [exact Hd|exact Hc].
Defined.

Lemma trim_evicts_oldest_witness :
  ∃ s', trim_working_set 1 demo_written = Done (Ok (Z.max 0 (working_set_pages demo_written - 1))) s' ∧
    working_set_pages demo_written = 2.
Proof.
  destruct (trim_evicts_oldest demo_written 1 demo_written_reachable) as (s' & Ht & _);
    [discriminate|].
  exists s'. split; [exact Ht|vm_compute; reflexivity].
Defined.
