(* ===== verification/Mdl.v ===== *)
(** * Memory descriptor lists ([src/casak/memory.rs], [MdlTable])

    The table borrows the memory manager for its permission checks; it is an
    argument of the operations that take [&MemoryManager]. *)

From S2P Require Import Prelude Status Memory.

Record Mdl := {
  mdl_id : Z;
  mdl_virtual_address : Z;
  mdl_byte_count : Z;
  mdl_write_access : bool;
  mdl_locked : bool;
  mdl_page_count : Z;
}.

Record MdlTable := {
  mt_mdls : gmap Z Mdl;
  mt_next_id : Z;
  mt_locked_pages : Z;
  mt_peak_locked_pages : Z;
}.

Definition new_mdl_table : MdlTable :=
  {| mt_mdls := ∅; mt_next_id := 1; mt_locked_pages := 0; mt_peak_locked_pages := 0 |}.

Definition set_mdls (m : gmap Z Mdl) (t : MdlTable) : MdlTable :=
  {| mt_mdls := m; mt_next_id := mt_next_id t; mt_locked_pages := mt_locked_pages t;
     mt_peak_locked_pages := mt_peak_locked_pages t |}.
Definition set_locked (b : bool) (m : Mdl) : Mdl :=
  {| mdl_id := mdl_id m; mdl_virtual_address := mdl_virtual_address m;
     mdl_byte_count := mdl_byte_count m; mdl_write_access := mdl_write_access m;
     mdl_locked := b; mdl_page_count := mdl_page_count m |}.

Definition mdl_allocate (memory : MemoryManager) (virtual_address byte_count : Z)
    (write_access : bool) : M MdlTable Z :=
  fail_if ((byte_count =? 0) || (u32_max <? byte_count)) STATUS_INVALID_PARAMETER ;;;
  end_ <- ok_or (checked_add u64_max virtual_address byte_count) STATUS_INVALID_ADDRESS ;;
  query (λ _, check_access virtual_address end_ write_access memory) ;;;
  let pages := (virtual_address mod PAGE_SIZE + byte_count + PAGE_SIZE - 1) / PAGE_SIZE in
  id <- gets mt_next_id ;;
  next <- add_at u64_max id 1 ;;
  modify (λ t,
    {| mt_mdls := <[id := {| mdl_id := id; mdl_virtual_address := virtual_address;
                             mdl_byte_count := byte_count; mdl_write_access := write_access;
                             mdl_locked := false; mdl_page_count := pages |}]> (mt_mdls t);
       mt_next_id := next; mt_locked_pages := mt_locked_pages t;
       mt_peak_locked_pages := mt_peak_locked_pages t |}) ;;;
  ret id.

Definition probe_and_lock (memory : MemoryManager) (id : Z) (write_access : bool)
    : M MdlTable unit :=
  mdls <- gets mt_mdls ;;
  record <- ok_or (mdls !! id) STATUS_INVALID_HANDLE ;;
  fail_if (mdl_locked record) STATUS_INVALID_DEVICE_STATE ;;;
  fail_if (write_access && negb (mdl_write_access record)) STATUS_ACCESS_VIOLATION ;;;
  end_ <- ok_or (checked_add u64_max (mdl_virtual_address record) (mdl_byte_count record))
            STATUS_INVALID_ADDRESS ;;
  query (λ _, check_access (mdl_virtual_address record) end_ write_access memory) ;;;
  modify (set_mdls (<[id := set_locked true record]> mdls)) ;;;
  n <- gets mt_locked_pages ;;
  n <- add_at usize_max n (mdl_page_count record) ;;
  modify (λ t, {| mt_mdls := mt_mdls t; mt_next_id := mt_next_id t; mt_locked_pages := n;
                  mt_peak_locked_pages := Z.max (mt_peak_locked_pages t) n |}).

Definition mdl_unlock (id : Z) : M MdlTable unit :=
  mdls <- gets mt_mdls ;;
  record <- ok_or (mdls !! id) STATUS_INVALID_HANDLE ;;
  fail_if (negb (mdl_locked record)) STATUS_INVALID_DEVICE_STATE ;;;
  modify (λ t, {| mt_mdls := <[id := set_locked false record]> (mt_mdls t);
                  mt_next_id := mt_next_id t;
                  mt_locked_pages := saturating_sub (mt_locked_pages t) (mdl_page_count record);
                  mt_peak_locked_pages := mt_peak_locked_pages t |}).

Definition mdl_free (id : Z) : M MdlTable unit :=
  mdls <- gets mt_mdls ;;
  record <- ok_or (mdls !! id) STATUS_INVALID_HANDLE ;;
  fail_if (mdl_locked record) STATUS_INVALID_DEVICE_STATE ;;;
  modify (set_mdls (delete id mdls)).

Definition mdl_query (id : Z) : M MdlTable Mdl :=
  mdls <- gets mt_mdls ;; ok_or (mdls !! id) STATUS_INVALID_HANDLE.
