(* ===== verification/MdlFacts.v ===== *)
(** * Correctness of the MDL table

    Lock accounting over every sequence of operations against arbitrary states of
    the memory manager, and the lock protocol. *)

From S2P Require Import Prelude Status Memory MemoryFacts MemoryAccess MemoryTheorems Mdl.

Inductive mdl_step (t : MdlTable) : MdlTable → Prop :=
| mdl_step_allocate memory va n w r t' :
    u64 va → u64 n → mdl_allocate memory va n w t = Done r t' → mdl_step t t'
| mdl_step_lock memory id w r t' : probe_and_lock memory id w t = Done r t' → mdl_step t t'
| mdl_step_unlock id r t' : mdl_unlock id t = Done r t' → mdl_step t t'
| mdl_step_free id r t' : mdl_free id t = Done r t' → mdl_step t t'.

Inductive mdl_reachable : MdlTable → Prop :=
| mdl_reachable_new : mdl_reachable new_mdl_table
| mdl_reachable_step t t' : mdl_reachable t → mdl_step t t' → mdl_reachable t'.

(** The pages a descriptor covers, and those it has locked. *)
Definition covered_pages (m : Mdl) : Z :=
  Z.of_nat (length (range_pages
    (mdl_virtual_address m, mdl_virtual_address m + mdl_byte_count m))).
Definition locked_of (m : Mdl) : Z := if mdl_locked m then covered_pages m else 0.

Record MdlInv (t : MdlTable) : Prop := {
  mdl_inv_entry : ∀ id m, mt_mdls t !! id = Some m →
    mdl_id m = id ∧ id < mt_next_id t ∧ mdl_page_count m = covered_pages m;
  mdl_inv_locked : mt_locked_pages t = map_sum (λ _ m, locked_of m) (mt_mdls t);
  mdl_inv_peak : mt_locked_pages t ≤ mt_peak_locked_pages t;
}.

Lemma locked_of_nonneg m : 0 ≤ locked_of m.
Proof. unfold locked_of, covered_pages. case_match; lia. Qed.

(** The page count the source computes is the number of pages of the range. *)
Lemma page_count_covers va n :
  0 < n → (va mod PAGE_SIZE + n + PAGE_SIZE - 1) / PAGE_SIZE =
          Z.of_nat (length (range_pages (va, va + n))).
Proof. intros Hn. rewrite length_range_pages. page_arith. Qed.

Lemma mdl_step_inv t t' : MdlInv t → mdl_step t t' → MdlInv t'.
Proof.
  intros HI Hs. destruct HI as [He Hl Hp].
  destruct Hs as [memory va n w r t' Hva Hn Hr|memory id w r t' Hr|id r t' Hr|id r t' Hr].
  - unfold mdl_allocate in Hr. mrun. destruct ((n =? 0) || _) eqn:E0; mrun; [by simplify_eq|].
    bool_prop. destruct (checked_add _ _ _); mrun; [|by simplify_eq].
    destruct (check_access _ _ _ _); mrun; [|by simplify_eq].
    destruct (_ <=? u64_max); mrun; [|done]. simplify_eq.
    assert (mt_mdls t !! mt_next_id t = None) as Hfresh.
    { destruct (mt_mdls t !! mt_next_id t) eqn:E; [|done]. destruct (He _ _ E) as (_&?&_). lia. }
    split; simpl; [|by rewrite map_sum_insert|done].
    intros id m. rewrite lookup_insert. case_decide.
    + intros [= <-]. subst. simpl. unfold covered_pages; simpl.
      split; [done|]. split; [lia|]. apply page_count_covers. unfold u64 in Hn. lia.
    + intros Hm. destruct (He _ _ Hm) as (?&?&?). split_and!; try done. lia.
  - unfold probe_and_lock in Hr. mrun.
    destruct (mt_mdls t !! id) as [m|] eqn:Hm; mrun; [|by simplify_eq].
    destruct (mdl_locked m) eqn:Hlk; mrun; [by simplify_eq|].
    destruct (w && _); mrun; [by simplify_eq|].
    destruct (checked_add _ _ _); mrun; [|by simplify_eq].
    destruct (check_access _ _ _ _); mrun; [|by simplify_eq].
    simpl in Hr. destruct (_ <=? usize_max); mrun; [|done]. simplify_eq.
    destruct (He _ _ Hm) as (Hid & Hlt & Hpc). split; simpl; [| |lia].
    + intros i x. rewrite lookup_insert. case_decide; [intros [= <-]; by subst|apply He].
    + rewrite (map_sum_update _ _ _ _ _ Hm). unfold locked_of at 2 3. rewrite Hlk. simpl.
      unfold covered_pages in *. simpl. lia.
  - unfold mdl_unlock in Hr. mrun.
    destruct (mt_mdls t !! id) as [m|] eqn:Hm; mrun; [|by simplify_eq].
    destruct (mdl_locked m) eqn:Hlk; mrun; [|by simplify_eq]. simplify_eq.
    destruct (He _ _ Hm) as (Hid & Hlt & Hpc).
    assert (locked_of m ≤ mt_locked_pages t) as Hle.
    { rewrite Hl. apply (map_sum_elem_le (λ _ m, locked_of m) _ id); [|done].
      intros. apply locked_of_nonneg. }
    unfold locked_of in Hle. rewrite Hlk in Hle.
    split; simpl.
    + intros i x. rewrite lookup_insert. case_decide; [intros [= <-]; by subst|apply He].
    + rewrite (map_sum_update _ _ _ _ _ Hm). unfold locked_of at 2 3. rewrite Hlk. simpl.
      unfold saturating_sub. lia.
    + unfold saturating_sub, covered_pages in *. lia.
  - unfold mdl_free in Hr. mrun.
    destruct (mt_mdls t !! id) as [m|] eqn:Hm; mrun; [|by simplify_eq].
    destruct (mdl_locked m) eqn:Hlk; mrun; [by simplify_eq|]. simplify_eq. split; simpl; [| |done].
    + intros i x [_ Hx]%lookup_delete_Some. by apply He.
    + rewrite Hl, (map_sum_delete _ _ _ _ Hm). unfold locked_of at 1. by rewrite Hlk.
Qed.

Lemma mdl_reachable_inv t : mdl_reachable t → MdlInv t.
Proof. induction 1; [|by eapply mdl_step_inv]. by split. Qed.

(** MDL lock accounting is exact: whatever the memory manager does in between,
    the number of locked pages is the sum, over the locked descriptors, of the pages
    their byte range touches, and never exceeds the recorded peak. *)
Theorem mdl_locked_pages_exact t :
  mdl_reachable t →
  mt_locked_pages t = map_sum (λ _ m, if mdl_locked m then covered_pages m else 0) (mt_mdls t) ∧
  mt_locked_pages t ≤ mt_peak_locked_pages t ∧
  (∀ id m, mt_mdls t !! id = Some m → mdl_page_count m = covered_pages m).
Proof.
  intros [He Hl Hp]%mdl_reachable_inv. split; [done|]. split; [done|].
  intros id m Hm. by apply He in Hm as (_&_&?).
Qed.

(** The lock protocol of a descriptor: locking succeeds only over memory that
    is committed with the requested access; a locked descriptor can be neither
    locked again nor freed, and unlocking it restores the table, accounting
    included. *)
Theorem mdl_lock_protocol t memory id w t' :
  mdl_reachable t → reachable memory → probe_and_lock memory id w t = Done (Ok tt) t' →
  (∃ m v, mt_mdls t !! id = Some m ∧ mdl_locked m = false ∧
     accessible memory (mdl_virtual_address m) (mdl_virtual_address m + mdl_byte_count m) w v) ∧
  (∀ memory' w', probe_and_lock memory' id w' t' = Done (Err STATUS_INVALID_DEVICE_STATE) t') ∧
  mdl_free id t' = Done (Err STATUS_INVALID_DEVICE_STATE) t' ∧
  ∃ t'', mdl_unlock id t' = Done (Ok tt) t'' ∧ mt_mdls t'' = mt_mdls t ∧
    mt_locked_pages t'' = mt_locked_pages t.
Proof.
  intros HI%mdl_reachable_inv HM%memory_reachable_inv Hr. unfold probe_and_lock in Hr. mrun.
  destruct (mt_mdls t !! id) as [m|] eqn:Hm; mrun; [|done].
  destruct (mdl_locked m) eqn:Hlk; mrun; [done|].
  destruct (w && _); mrun; [done|].
  unfold checked_add in Hr. destruct (_ <=? u64_max); mrun; [|done].
  destruct (check_access _ _ w memory) as [[]|] eqn:Hc; mrun; [|done]. simpl in Hr.
  destruct (_ <=? usize_max); mrun; [|done]. simplify_eq.
  apply (check_access_Ok _ _ _ _ HM) in Hc as (v & _ & Hacc).
  assert (0 ≤ mdl_page_count m) as Hpc.
  { destruct (mdl_inv_entry _ HI _ _ Hm) as (_ & _ & ->). unfold covered_pages. lia. }
  assert (0 ≤ mt_locked_pages t) as Hpos.
  { rewrite (mdl_inv_locked _ HI). apply map_sum_nonneg. intros. apply locked_of_nonneg. }
  unfold probe_and_lock, mdl_free, mdl_unlock. mrun. simpl. rewrite lookup_insert_eq. mrun.
  split; [by exists m, v|]. split; [done|]. split; [done|]. eexists. split; [done|]. simpl.
  rewrite insert_insert_eq. split.
  - assert (set_locked false (set_locked true m) = m) as ->; [|by apply insert_id].
    destruct m; simpl in *; unfold set_locked; simpl. by subst.
  - unfold saturating_sub. lia.
Qed.

Definition demo_mdl : MdlTable :=
  state_of (mdl_allocate demo_committed 0x10FFE 4 true new_mdl_table) new_mdl_table.
Definition demo_mdl_locked : MdlTable :=
  state_of (probe_and_lock demo_committed 1 true demo_mdl) demo_mdl.

Lemma demo_mdl_reachable : mdl_reachable demo_mdl.
Proof.
  eapply mdl_reachable_step; [apply mdl_reachable_new|].
  apply (mdl_step_allocate _ demo_committed 0x10FFE 4 true (Ok 1)); [by vm_compute|by vm_compute|].
  refine (run_eq _ _ _ _). by vm_compute.
Qed.

Lemma demo_mdl_locked_reachable : mdl_reachable demo_mdl_locked.
Proof.
  eapply mdl_reachable_step; [apply demo_mdl_reachable|].
  apply (mdl_step_lock _ demo_committed 1 true (Ok tt)). refine (run_eq _ _ _ _). by vm_compute.
Qed.

Lemma mdl_locked_pages_exact_witness :
  mt_locked_pages demo_mdl_locked ≤ mt_peak_locked_pages demo_mdl_locked ∧
  mt_locked_pages demo_mdl_locked = 2.
Proof.
  destruct (mdl_locked_pages_exact demo_mdl_locked demo_mdl_locked_reachable) as (_ & H & _).
  split; [exact H|vm_compute; reflexivity].
Defined.

Lemma mdl_lock_protocol_witness :
  mdl_free 1 demo_mdl_locked = Done (Err STATUS_INVALID_DEVICE_STATE) demo_mdl_locked.
Proof.
  apply (mdl_lock_protocol demo_mdl demo_committed 1 true demo_mdl_locked);
    [apply demo_mdl_reachable|apply demo_committed_reachable|].
  refine (run_eq (probe_and_lock demo_committed 1 true) demo_mdl (Ok tt) _).
  vm_compute. reflexivity.
Defined.
