(* ===== verification/Interrupt.v ===== *)
(** * Virtual interrupt objects ([src/casak/interrupt.rs])

    The controller's connection table, its vector lists and the in-flight ISR
    dispatches that defer a disconnect. *)

From S2P Require Import Prelude Status.

Definition MIN_DEVICE_IRQL : Z := 3.
Definition MAX_IRQL : Z := 15.
Definition ONLINE_AFFINITY : Z := 0xFFFF.
Definition INTERRUPT_LATCHED : Z := 0.
Definition INTERRUPT_LEVEL_SENSITIVE : Z := 1.
Definition CONNECT_LINE_BASED : Z := 0.
Definition CONNECT_MESSAGE_BASED : Z := 1.
Definition CONNECT_FULLY_SPECIFIED : Z := 2.

Record ConnectRequest := {
  cr_guest_object : Z;
  cr_service_routine : Z;
  cr_service_context : Z;
  cr_spin_lock : Z;
  cr_vector : Z;
  cr_irql : Z;
  cr_synchronize_irql : Z;
  cr_mode : Z;
  cr_share_vector : bool;
  cr_affinity : Z;
}.

(** A connected interrupt: the request it was connected with and its dispatch
    state. *)
Record VirtualInterrupt := {
  vi_id : Z;
  vi_request : ConnectRequest;
  vi_connected : bool;
  vi_in_flight : Z;
  vi_disconnect_pending : bool;
}.

Record DispatchTicket := {
  dt_id : Z;
  dt_guest_object : Z;
  dt_service_routine : Z;
  dt_service_context : Z;
  dt_irql : Z;
}.

Inductive DisconnectOutcome : Type := DoDeferred | DoRemoved.

Record InterruptManager := {
  im_interrupts : gmap Z VirtualInterrupt;
  im_by_id : gmap Z Z;
  im_vectors : gmap Z (list Z);
  im_next_id : Z;
  im_isr_invocations : Z;
  im_dispatches : Z;
  im_disconnected : Z;
}.

Definition new_interrupts : InterruptManager :=
  {| im_interrupts := ∅; im_by_id := ∅; im_vectors := ∅; im_next_id := 1;
     im_isr_invocations := 0; im_dispatches := 0; im_disconnected := 0 |}.

(** [record.in_flight = n; record.disconnect_pending = p] *)
Definition with_flight (n : Z) (p : bool) (r : VirtualInterrupt) : VirtualInterrupt :=
  {| vi_id := vi_id r; vi_request := vi_request r; vi_connected := vi_connected r;
     vi_in_flight := n; vi_disconnect_pending := p |}.

(** The parameter checks of [connect], in the order of the source. *)
Definition request_invalid (r : ConnectRequest) : bool :=
  ((cr_guest_object r =? 0) || (cr_service_routine r =? 0))
  || ((cr_vector r =? 0) || (255 <? cr_vector r))
  || (negb ((MIN_DEVICE_IRQL <=? cr_irql r) && (cr_irql r <=? MAX_IRQL))
      || (cr_synchronize_irql r <? cr_irql r)
      || (MAX_IRQL <? cr_synchronize_irql r))
  || (negb (cr_mode r =? INTERRUPT_LATCHED) && negb (cr_mode r =? INTERRUPT_LEVEL_SENSITIVE))
  || ((cr_affinity r =? 0) || negb (Z.land (cr_affinity r) (not_u64 ONLINE_AFFINITY) =? 0))
  || (cr_share_vector r
      && ((cr_spin_lock r =? 0) || negb (cr_mode r =? INTERRUPT_LEVEL_SENSITIVE))).

(** A connected interrupt the request cannot share its vector with. *)
Definition incompatible (request : ConnectRequest) (record : VirtualInterrupt) : bool :=
  negb (cr_share_vector (vi_request record)) || negb (cr_share_vector request)
  || negb (cr_mode (vi_request record) =? cr_mode request)
  || negb (cr_irql (vi_request record) =? cr_irql request).

Definition connect (request : ConnectRequest) : M InterruptManager Z :=
  fail_if (request_invalid request) STATUS_INVALID_PARAMETER ;;;
  interrupts <- gets im_interrupts ;;
  fail_if (bool_decide (is_Some (interrupts !! cr_guest_object request)))
    STATUS_OBJECT_NAME_COLLISION ;;;
  vectors <- gets im_vectors ;;
  match vectors !! cr_vector request with
  | Some existing =>
      for_each existing (λ guest_object,
        match interrupts !! guest_object with
        | None => ret tt
        | Some record => fail_if (incompatible request record) STATUS_OBJECT_NAME_COLLISION
        end)
  | None => ret tt
  end ;;;
  id <- gets im_next_id ;;
  next <- add_at u64_max id 1 ;;
  let record := {| vi_id := id; vi_request := request; vi_connected := true; vi_in_flight := 0;
                   vi_disconnect_pending := false |} in
  modify (λ s,
    {| im_interrupts := <[cr_guest_object request := record]> (im_interrupts s);
       im_by_id := <[id := cr_guest_object request]> (im_by_id s);
       im_vectors :=
         <[cr_vector request :=
             default [] (im_vectors s !! cr_vector request) ++ [cr_guest_object request]]>
           (im_vectors s);
       im_next_id := next;
       im_isr_invocations := im_isr_invocations s;
       im_dispatches := im_dispatches s;
       im_disconnected := im_disconnected s |}) ;;;
  ret id.

Definition set_interrupts (m : gmap Z VirtualInterrupt) (isr disp : Z) (s : InterruptManager)
    : InterruptManager :=
  {| im_interrupts := m; im_by_id := im_by_id s; im_vectors := im_vectors s;
     im_next_id := im_next_id s; im_isr_invocations := isr; im_dispatches := disp;
     im_disconnected := im_disconnected s |}.

Definition begin_dispatch (guest_object : Z) : M InterruptManager DispatchTicket :=
  interrupts <- gets im_interrupts ;;
  record <- ok_or (interrupts !! guest_object) STATUS_INVALID_HANDLE ;;
  fail_if (negb (vi_connected record) || vi_disconnect_pending record) STATUS_DELETE_PENDING ;;;
  n <- add_at u32_max (vi_in_flight record) 1 ;;
  isr <- gets im_isr_invocations ;;
  isr <- add_at u64_max isr 1 ;;
  modify (λ s, set_interrupts
    (<[guest_object := with_flight n (vi_disconnect_pending record) record]> (im_interrupts s))
    isr (im_dispatches s) s) ;;;
  ret {| dt_id := vi_id record; dt_guest_object := cr_guest_object (vi_request record);
         dt_service_routine := cr_service_routine (vi_request record);
         dt_service_context := cr_service_context (vi_request record);
         dt_irql := cr_irql (vi_request record) |}.

(** [list.retain(|c| *c != guest_object)], dropping the vector when it is empty. *)
Definition detach_vector (vector guest_object : Z) (vectors : gmap Z (list Z)) : gmap Z (list Z) :=
  match vectors !! vector with
  | Some list =>
      let list := filter (λ c, c ≠ guest_object) list in
      match list with
      | [] => delete vector vectors
      | _ => <[vector := list]> vectors
      end
  | None => vectors
  end.

Definition remove (guest_object : Z) : M InterruptManager unit :=
  interrupts <- gets im_interrupts ;;
  record <- expect (interrupts !! guest_object) ;;
  d <- gets im_disconnected ;;
  d <- add_at u64_max d 1 ;;
  modify (λ s,
    {| im_interrupts := delete guest_object (im_interrupts s);
       im_by_id := delete (vi_id record) (im_by_id s);
       im_vectors := detach_vector (cr_vector (vi_request record)) guest_object (im_vectors s);
       im_next_id := im_next_id s;
       im_isr_invocations := im_isr_invocations s;
       im_dispatches := im_dispatches s;
       im_disconnected := d |}).

Definition end_dispatch (ticket : DispatchTicket) : M InterruptManager bool :=
  by_id <- gets im_by_id ;;
  guest_object <- ok_or (by_id !! dt_id ticket) STATUS_INVALID_HANDLE ;;
  interrupts <- gets im_interrupts ;;
  record <- ok_or (interrupts !! guest_object) STATUS_INVALID_HANDLE ;;
  fail_if (vi_in_flight record =? 0) STATUS_INVALID_DEVICE_STATE ;;;
  let n := vi_in_flight record - 1 in
  disp <- gets im_dispatches ;;
  disp <- add_at u64_max disp 1 ;;
  modify (λ s, set_interrupts
    (<[guest_object := with_flight n (vi_disconnect_pending record) record]> (im_interrupts s))
    (im_isr_invocations s) disp s) ;;;
  let disconnected := (n =? 0) && vi_disconnect_pending record in
  (if disconnected then remove guest_object else ret tt) ;;;
  ret disconnected.

Definition disconnect (guest_object : Z) : M InterruptManager DisconnectOutcome :=
  interrupts <- gets im_interrupts ;;
  record <- ok_or (interrupts !! guest_object) STATUS_INVALID_HANDLE ;;
  if 0 <? vi_in_flight record then
    modify (λ s, set_interrupts
      (<[guest_object := with_flight (vi_in_flight record) true record]> (im_interrupts s))
      (im_isr_invocations s) (im_dispatches s) s) ;;;
    ret DoDeferred
  else
    remove guest_object ;;;
    ret DoRemoved.

Definition vector_objects (vector : Z) (s : InterruptManager) : list Z :=
  default [] (im_vectors s !! vector).

(** [InterruptManager::query] *)
Definition query_interrupt (guest_object : Z) : M InterruptManager VirtualInterrupt :=
  interrupts <- gets im_interrupts ;; ok_or (interrupts !! guest_object) STATUS_INVALID_HANDLE.

Definition is_connected (guest_object : Z) (s : InterruptManager) : bool :=
  match im_interrupts s !! guest_object with
  | Some record => vi_connected record
  | None => false
  end.

Definition connected_count (s : InterruptManager) : Z := Z.of_nat (size (im_interrupts s)).

Definition validate_version (version : Z) : result Z :=
  if (version =? CONNECT_LINE_BASED) || (version =? CONNECT_FULLY_SPECIFIED) then Ok version
  else if version =? CONNECT_MESSAGE_BASED then Err STATUS_NOT_SUPPORTED
  else Err STATUS_INVALID_PARAMETER.
