(* ===== verification/InterruptFacts.v ===== *)
(** * Correctness of the interrupt controller

    Consistency of the three tables, the rules for shared vectors, conservation of
    dispatches, and the deferred disconnect. *)

From S2P Require Import Prelude Status Interrupt.

Module Intr.

Inductive step (s : InterruptManager) : InterruptManager → Prop :=
| step_connect q r s' : connect q s = Done r s' → step s s'
| step_begin g r s' : begin_dispatch g s = Done r s' → step s s'
| step_end t r s' : end_dispatch t s = Done r s' → step s s'
| step_disconnect g r s' : disconnect g s = Done r s' → step s s'.

Inductive reachable : InterruptManager → Prop :=
| reachable_new : reachable new_interrupts
| reachable_step s s' : reachable s → step s s' → reachable s'.

Record record_ok (next g : Z) (r : VirtualInterrupt) : Prop := {
  rec_guest : cr_guest_object (vi_request r) = g;
  rec_valid : request_invalid (vi_request r) = false;
  rec_connected : vi_connected r = true;
  rec_flight : 0 ≤ vi_in_flight r ∧ (vi_disconnect_pending r = true → 0 < vi_in_flight r);
  rec_id : vi_id r < next;
}.

(** Two interrupts on one vector agree that they share it. *)
Definition shares (r1 r2 : VirtualInterrupt) : Prop :=
  cr_share_vector (vi_request r1) = true ∧ cr_share_vector (vi_request r2) = true ∧
  cr_mode (vi_request r1) = cr_mode (vi_request r2) ∧
  cr_irql (vi_request r1) = cr_irql (vi_request r2).

Definition in_flight_total (s : InterruptManager) : Z :=
  map_sum (λ _ r, vi_in_flight r) (im_interrupts s).

Record Inv (s : InterruptManager) : Prop := {
  inv_records : ∀ g r, im_interrupts s !! g = Some r → record_ok (im_next_id s) g r;
  inv_by_id : ∀ i g, im_by_id s !! i = Some g ↔ ∃ r, im_interrupts s !! g = Some r ∧ vi_id r = i;
  inv_vectors : ∀ v g, g ∈ vector_objects v s ↔
    ∃ r, im_interrupts s !! g = Some r ∧ cr_vector (vi_request r) = v;
  inv_vector_lists : ∀ v l, im_vectors s !! v = Some l → l ≠ [] ∧ NoDup l;
  inv_sharing : ∀ g1 r1 g2 r2, im_interrupts s !! g1 = Some r1 → im_interrupts s !! g2 = Some r2 →
    g1 ≠ g2 → cr_vector (vi_request r1) = cr_vector (vi_request r2) → shares r1 r2;
  inv_flight : im_isr_invocations s - im_dispatches s = in_flight_total s;
  inv_ids : im_next_id s - 1 = connected_count s + im_disconnected s;
}.

Lemma intr_inv_new : Inv new_interrupts.
Proof.
  split; simpl; try done.
  - intros i g. rewrite lookup_empty. split; [done|]. intros (r & Hr & _).
    by rewrite lookup_empty in Hr.
  - intros v g. unfold vector_objects; simpl. rewrite lookup_empty. simpl.
    rewrite elem_of_nil. split; [done|]. intros (r & Hr & _). by rewrite lookup_empty in Hr.
Qed.

(** Changing the dispatch state of one record. *)
Lemma inv_with_flight s g r n p isr disp :
  Inv s → im_interrupts s !! g = Some r → 0 ≤ n → (p = true → 0 < n) →
  isr - disp = in_flight_total s - vi_in_flight r + n →
  Inv (set_interrupts (<[g := with_flight n p r]> (im_interrupts s)) isr disp s).
Proof.
  intros HI Hg Hn Hp Hsum. destruct HI. split; simpl.
  - intros g' r'. rewrite lookup_insert. case_decide; [|apply inv_records0].
    intros [= <-]. subst. destruct (inv_records0 _ _ Hg). by split.
  - intros i g'. rewrite inv_by_id0. split; intros (r' & Hr' & Hi).
    + rewrite lookup_insert. case_decide; [|by eauto]. simplify_eq. by eexists.
    + rewrite lookup_insert in Hr'. case_decide; [|by eauto]. simplify_eq. by exists r.
  - intros v g'. unfold vector_objects in *; simpl. rewrite inv_vectors0.
    split; intros (r' & Hr' & Hi).
    + rewrite lookup_insert. case_decide; [|by eauto]. simplify_eq. by eexists.
    + rewrite lookup_insert in Hr'. case_decide; [|by eauto]. simplify_eq. by exists r.
  - done.
  - intros g1 r1 g2 r2. rewrite !lookup_insert.
    repeat case_decide; intros Hr1 Hr2 Hne Hv; simplify_eq; try done.
    + apply (inv_sharing0 _ _ _ _ Hg Hr2); done.
    + apply (inv_sharing0 _ _ _ _ Hr1 Hg); done.
    + by apply (inv_sharing0 g1 r1 g2 r2).
  - unfold in_flight_total in *; simpl. rewrite (map_sum_update _ _ _ _ _ Hg). simpl. lia.
  - unfold connected_count in *; simpl. rewrite map_size_insert_Some by eauto. done.
Qed.

Lemma vector_objects_detach s v g v' :
  default [] (detach_vector v g (im_vectors s) !! v') =
  if decide (v' = v) then filter (λ c, c ≠ g) (vector_objects v s) else vector_objects v' s.
Proof.
  unfold detach_vector, vector_objects. destruct (im_vectors s !! v) as [l|] eqn:Hl; simpl.
  - destruct (filter (λ c, c ≠ g) l) as [|c l'] eqn:Hf.
    + rewrite lookup_delete. repeat case_decide; subst; try done.
    + rewrite lookup_insert. repeat case_decide; subst; try done.
  - case_decide; [|done]. subst. by rewrite Hl.
Qed.

Definition removed (g : Z) (r : VirtualInterrupt) (s : InterruptManager) : InterruptManager :=
  {| im_interrupts := delete g (im_interrupts s);
     im_by_id := delete (vi_id r) (im_by_id s);
     im_vectors := detach_vector (cr_vector (vi_request r)) g (im_vectors s);
     im_next_id := im_next_id s; im_isr_invocations := im_isr_invocations s;
     im_dispatches := im_dispatches s; im_disconnected := im_disconnected s + 1 |}.

Lemma id_injective s g1 r1 g2 r2 :
  Inv s → im_interrupts s !! g1 = Some r1 → im_interrupts s !! g2 = Some r2 →
  vi_id r1 = vi_id r2 → g1 = g2.
Proof.
  intros HI H1 H2 Heq.
  assert (im_by_id s !! vi_id r1 = Some g1) by (apply (inv_by_id _ HI); eauto).
  assert (im_by_id s !! vi_id r2 = Some g2) by (apply (inv_by_id _ HI); eauto). congruence.
Qed.

Lemma inv_removed s g r :
  Inv s → im_interrupts s !! g = Some r → vi_in_flight r = 0 → Inv (removed g r s).
Proof.
  intros HI Hg Hf. pose proof (id_injective s g r) as Hinj.
  destruct HI as [Hrec Hid Hvec Hlist Hsh Hfl Hids]. split; simpl.
  - intros g' r' [_ Hr']%lookup_delete_Some. destruct (Hrec _ _ Hr'). by split.
  - intros i g'. rewrite lookup_delete_Some, Hid. split.
    + intros (Hne & r' & Hr' & Hi). exists r'. split; [|done]. apply lookup_delete_Some.
      split; [|done]. intros <-. simplify_eq.
    + intros (r' & [Hne Hr']%lookup_delete_Some & Hi). split; [|by eauto].
      intros <-. apply Hne. eapply Hinj; [by split|done|done|done].
  - intros v g'. unfold vector_objects at 1; simpl. rewrite vector_objects_detach.
    case_decide as Hv; rewrite ?list_elem_of_filter, Hvec.
    + subst v. split.
      * intros (Hne & r' & Hr' & Hv'). exists r'. split; [|done]. by apply lookup_delete_Some.
      * intros (r' & [Hne Hr']%lookup_delete_Some & Hv'). split; [done|]. eauto.
    + split.
      * intros (r' & Hr' & Hv'). exists r'. split; [|done]. apply lookup_delete_Some.
        split; [|done]. intros <-. simplify_eq.
      * intros (r' & [_ Hr']%lookup_delete_Some & Hv'). eauto.
  - intros v l. unfold detach_vector.
    destruct (im_vectors s !! cr_vector (vi_request r)) as [l0|] eqn:Hl0; [|apply Hlist].
    destruct (filter (λ c, c ≠ g) l0) as [|c l1] eqn:Hfl0.
    + intros [_ Hl]%lookup_delete_Some. by apply (Hlist v).
    + rewrite lookup_insert. case_decide; [|apply Hlist]. intros [= <-]. split; [done|].
      rewrite <-Hfl0. apply NoDup_filter. by apply (Hlist _ _ Hl0).
  - intros g1 r1 g2 r2 [_ H1]%lookup_delete_Some [_ H2]%lookup_delete_Some. by apply Hsh.
  - unfold in_flight_total in *; simpl. pose proof (map_sum_delete (λ _ r, vi_in_flight r) _ _ _ Hg) as Hs.
    cbn beta in Hs. lia.
  - unfold connected_count in *; simpl. rewrite map_size_delete_Some by eauto.
    assert (size (im_interrupts s) ≠ 0%nat); [|lia].
    intros E%map_size_empty_inv. by rewrite E in Hg.
Qed.

Lemma remove_Done s g r res s' :
  im_interrupts s !! g = Some r → remove g s = Done res s' → res = Ok tt ∧ s' = removed g r s.
Proof.
  intros Hg Hr. unfold remove in Hr. mrun. rewrite Hg in Hr. mrun.
  destruct (_ <=? u64_max); mrun; [|done]. by simplify_eq.
Qed.

(** The scan of the interrupts already on the vector. *)
Lemma scan_vector request (interrupts : gmap Z VirtualInterrupt) (l : list Z) s :
  for_each l (λ g, match interrupts !! g with
                   | None => ret tt
                   | Some record => fail_if (incompatible request record) STATUS_OBJECT_NAME_COLLISION
                   end) s =
  Done (if existsb (λ g, match interrupts !! g with
                         | None => false
                         | Some record => incompatible request record
                         end) l
        then Err STATUS_OBJECT_NAME_COLLISION else Ok tt) (s : InterruptManager).
Proof.
  induction l as [|g l IH]; simpl; [done|].
  destruct (interrupts !! g) as [record|]; simpl; [|by rewrite IH].
  destruct (incompatible request record); simpl; [done|]. by rewrite IH.
Qed.

Definition conflicts (request : ConnectRequest) (s : InterruptManager) : bool :=
  bool_decide (is_Some (im_interrupts s !! cr_guest_object request))
  || existsb (λ g, match im_interrupts s !! g with
                   | None => false
                   | Some record => incompatible request record
                   end) (vector_objects (cr_vector request) s).

Definition connected (request : ConnectRequest) (s : InterruptManager) : InterruptManager :=
  {| im_interrupts := <[cr_guest_object request :=
       {| vi_id := im_next_id s; vi_request := request; vi_connected := true; vi_in_flight := 0;
          vi_disconnect_pending := false |}]> (im_interrupts s);
     im_by_id := <[im_next_id s := cr_guest_object request]> (im_by_id s);
     im_vectors := <[cr_vector request :=
       vector_objects (cr_vector request) s ++ [cr_guest_object request]]> (im_vectors s);
     im_next_id := im_next_id s + 1; im_isr_invocations := im_isr_invocations s;
     im_dispatches := im_dispatches s; im_disconnected := im_disconnected s |}.

Lemma connect_spec request s :
  connect request s =
    if request_invalid request then Done (Err STATUS_INVALID_PARAMETER) s
    else if conflicts request s then Done (Err STATUS_OBJECT_NAME_COLLISION) s
    else if im_next_id s <? u64_max then Done (Ok (im_next_id s)) (connected request s)
    else Panic.
Proof.
  unfold connect, conflicts, vector_objects. mrun.
  destruct (request_invalid request); mrun; [done|].
  case_bool_decide; mrun; [done|]. simpl.
  assert ((im_next_id s + 1 <=? u64_max) = (im_next_id s <? u64_max)) as Hm.
  { apply eq_iff_eq_true. rewrite Z.leb_le, Z.ltb_lt. lia. }
  destruct (im_vectors s !! cr_vector request) as [l|] eqn:Hl; mrun.
  - rewrite scan_vector. simpl. destruct (existsb _ l); mrun; [done|].
    rewrite Hm. destruct (im_next_id s <? u64_max); mrun; [|done].
    unfold connected, vector_objects. by rewrite Hl.
  - simpl. rewrite Hm. destruct (im_next_id s <? u64_max); mrun; [|done].
    unfold connected, vector_objects. by rewrite Hl.
Qed.

Lemma no_conflict_shares request s g r :
  Inv s → conflicts request s = false → im_interrupts s !! g = Some r →
  cr_vector (vi_request r) = cr_vector request → incompatible request r = false.
Proof.
  intros HI Hc Hg Hv. unfold conflicts in Hc. apply orb_false_iff in Hc as [_ Hc].
  apply not_true_is_false. intros Hi. rewrite <-not_true_iff_false in Hc. apply Hc.
  apply existsb_exists. exists g. rewrite Hg. split; [|done].
  apply list_elem_of_In, (inv_vectors _ HI). eauto.
Qed.

Lemma inv_connected request s :
  Inv s → request_invalid request = false → conflicts request s = false → Inv (connected request s).
Proof.
  intros HI Hval Hc. pose proof (λ g r, no_conflict_shares request s g r HI Hc) as Hcomp.
  unfold conflicts in Hc. apply orb_false_iff in Hc as [Hnew _].
  apply bool_decide_eq_false in Hnew. apply eq_None_not_Some in Hnew.
  destruct HI as [Hrec Hid Hvec Hlist Hsh Hfl Hids].
  assert (∀ g r, im_interrupts s !! g = Some r → cr_vector (vi_request r) = cr_vector request →
    shares r {| vi_id := im_next_id s; vi_request := request; vi_connected := true;
                vi_in_flight := 0; vi_disconnect_pending := false |}) as Hnewshare.
  { intros g r Hg Hv. specialize (Hcomp g r Hg Hv). unfold incompatible in Hcomp. by bool_prop. }
  split; simpl.
  - intros g r. rewrite lookup_insert. case_decide.
    + intros [= <-]. split; simpl; try done. lia.
    + intros Hg. destruct (Hrec _ _ Hg). split; try done. simpl. lia.
  - intros i g. rewrite !lookup_insert. case_decide as Hi.
    + subst i. split.
      * intros [= <-]. rewrite decide_True by done. by eexists.
      * intros (r & Hr & Hri). case_decide; [by subst|]. destruct (Hrec _ _ Hr). lia.
    + rewrite Hid. split; intros (r & Hr & Hri); exists r.
      * rewrite decide_False by congruence. done.
      * case_decide; [simplify_eq/=|done].
  - intros v g. unfold vector_objects at 1; simpl. rewrite lookup_insert. case_decide as Hv; simpl.
    + subst v. rewrite elem_of_app, list_elem_of_singleton, Hvec. rewrite lookup_insert. split.
      * intros [(r & Hr & Hv)| ->]; [|rewrite decide_True by done; by eexists].
        exists r. rewrite decide_False by congruence. done.
      * intros (r & Hr & Hv). case_decide; [by right|]. left. eauto.
    + fold (vector_objects v s). rewrite Hvec. rewrite lookup_insert. split.
      * intros (r & Hr & Hv'). exists r. rewrite decide_False by congruence. done.
      * intros (r & Hr & Hv'). case_decide; [simplify_eq/=|eauto].
  - intros v l. rewrite lookup_insert. case_decide; [|apply Hlist]. intros [= <-]. split.
    + by destruct (vector_objects (cr_vector request) s).
    + apply NoDup_app. split_and!; [|intros g Hg ->%list_elem_of_singleton|apply NoDup_singleton].
      * unfold vector_objects. destruct (im_vectors s !! cr_vector request) eqn:Hl; simpl;
          [by apply (Hlist _ _ Hl)|constructor].
      * apply Hvec in Hg as (r & Hr & _). congruence.
  - intros g1 r1 g2 r2. rewrite !lookup_insert.
    repeat case_decide; intros Hr1 Hr2 Hne Hv; simplify_eq/=; try done.
    + destruct (Hnewshare _ _ Hr2) as (?&?&?&?); [done|]. by split_and!.
    + by eapply Hnewshare.
    + by eapply Hsh.
  - unfold in_flight_total in *; simpl. rewrite map_sum_insert by done. simpl. lia.
  - unfold connected_count in *; simpl. rewrite map_size_insert_None by done. lia.
Qed.

Lemma end_dispatch_Done s t res s' :
  end_dispatch t s = Done res s' →
  match im_by_id s !! dt_id t with
  | None => res = Err STATUS_INVALID_HANDLE ∧ s' = s
  | Some g => match im_interrupts s !! g with
      | None => res = Err STATUS_INVALID_HANDLE ∧ s' = s
      | Some r =>
          if vi_in_flight r =? 0 then res = Err STATUS_INVALID_DEVICE_STATE ∧ s' = s
          else
            let r' := with_flight (vi_in_flight r - 1) (vi_disconnect_pending r) r in
            let s1 := set_interrupts (<[g := r']> (im_interrupts s)) (im_isr_invocations s)
                        (im_dispatches s + 1) s in
            if (vi_in_flight r =? 1) && vi_disconnect_pending r
            then res = Ok true ∧ s' = removed g r' s1 else res = Ok false ∧ s' = s1
      end
  end.
Proof.
  intros Hr. unfold end_dispatch in Hr. mrun.
  destruct (im_by_id s !! dt_id t) as [g|]; mrun; [|by simplify_eq].
  destruct (im_interrupts s !! g) as [r|] eqn:Hg; mrun; [|by simplify_eq].
  destruct (vi_in_flight r =? 0) eqn:E0; mrun; [by simplify_eq|].
  destruct (_ <=? u64_max); mrun; [|done].
  replace (vi_in_flight r - 1 =? 0) with (vi_in_flight r =? 1) in Hr
    by (apply eq_iff_eq_true; rewrite !Z.eqb_eq; lia).
  destruct ((vi_in_flight r =? 1) && vi_disconnect_pending r); mrun; [|by simplify_eq].
  destruct (remove g _) as [rr sr|] eqn:Hrem; [|done].
  apply (remove_Done _ _ (with_flight (vi_in_flight r - 1) (vi_disconnect_pending r) r))
    in Hrem as [-> ->]; [|simpl; apply lookup_insert_eq]. mrun. by simplify_eq.
Qed.

Lemma intr_step_inv s s' : Inv s → step s s' → Inv s'.
Proof.
  intros HI Hs. destruct Hs as [q r s' Hr|g r s' Hr|t r s' Hr|g r s' Hr].
  - rewrite connect_spec in Hr. destruct (request_invalid q) eqn:Hq; [by simplify_eq|].
    destruct (conflicts q s) eqn:Hc; [by simplify_eq|].
    destruct (_ <? _); simplify_eq. by apply inv_connected.
  - unfold begin_dispatch in Hr. mrun.
    destruct (im_interrupts s !! g) as [rec|] eqn:Hg; mrun; [|by simplify_eq].
    destruct (_ || _) eqn:Ec; mrun; [by simplify_eq|]. msplit. bool_prop.
    destruct (rec_flight _ _ _ (inv_records _ HI _ _ Hg)) as [Hf _].
    apply inv_with_flight; try done; [lia|intros; congruence|].
    pose proof (inv_flight _ HI). lia.
  - apply end_dispatch_Done in Hr.
    destruct (im_by_id s !! dt_id t) as [g|]; [|by destruct Hr as [_ ->]].
    destruct (im_interrupts s !! g) as [rec|] eqn:Hg; [|by destruct Hr as [_ ->]].
    destruct (vi_in_flight rec =? 0) eqn:E0; [by destruct Hr as [_ ->]|]. bool_prop.
    destruct (rec_flight _ _ _ (inv_records _ HI _ _ Hg)) as [Hf Hp].
    pose proof (inv_flight _ HI) as Hfl. cbn zeta in Hr.
    destruct ((vi_in_flight rec =? 1) && vi_disconnect_pending rec) eqn:E1; destruct Hr as [_ ->].
    + bool_prop.
      assert (removed g (with_flight (vi_in_flight rec - 1) (vi_disconnect_pending rec) rec)
        (set_interrupts (<[g := with_flight (vi_in_flight rec - 1) (vi_disconnect_pending rec) rec]>
          (im_interrupts s)) (im_isr_invocations s) (im_dispatches s + 1) s) =
        removed g (with_flight 0 false rec)
        (set_interrupts (<[g := with_flight 0 false rec]> (im_interrupts s))
          (im_isr_invocations s) (im_dispatches s + 1) s)) as ->.
      { unfold removed; simpl. by rewrite !delete_insert_eq. }
      apply inv_removed; [|simpl; apply lookup_insert_eq|done].
      apply inv_with_flight; try done. lia.
    + apply inv_with_flight; try done; [lia| |lia]. intros Hpend.
      apply andb_false_iff in E1 as [E1|E1]; [|congruence]. bool_prop. lia.
  - unfold disconnect in Hr. mrun.
    destruct (im_interrupts s !! g) as [rec|] eqn:Hg; mrun; [|by simplify_eq].
    destruct (rec_flight _ _ _ (inv_records _ HI _ _ Hg)) as [Hf _].
    pose proof (inv_flight _ HI) as Hfl.
    destruct (0 <? vi_in_flight rec) eqn:E; mrun; bool_prop.
    + simplify_eq. apply inv_with_flight; try done; lia.
    + destruct (remove g s) as [rr sr|] eqn:Hrem; [|done].
      apply (remove_Done _ _ rec) in Hrem as [-> ->]; [|done]. mrun. simplify_eq.
      apply inv_removed; [done|done|lia].
Qed.

Lemma intr_reachable_inv s : reachable s → Inv s.
Proof. induction 1; [apply intr_inv_new|by eapply intr_step_inv]. Qed.

(** The tables of the controller agree in every reachable state: identifiers
    and guest objects correspond one to one, each vector lists exactly the objects
    connected to it, once each; interrupts on one vector agree to share it with the
    same mode and IRQL; a pending disconnect is always waiting for a running ISR;
    and ISR invocations minus completed dispatches is the number in flight. *)
Theorem interrupt_tables_consistent s :
  reachable s →
  (∀ i g, im_by_id s !! i = Some g ↔ ∃ r, im_interrupts s !! g = Some r ∧ vi_id r = i) ∧
  (∀ v g, g ∈ vector_objects v s ↔
     ∃ r, im_interrupts s !! g = Some r ∧ cr_vector (vi_request r) = v) ∧
  (∀ v, NoDup (vector_objects v s)) ∧
  (∀ g1 r1 g2 r2, im_interrupts s !! g1 = Some r1 → im_interrupts s !! g2 = Some r2 → g1 ≠ g2 →
     cr_vector (vi_request r1) = cr_vector (vi_request r2) → shares r1 r2) ∧
  (∀ g r, im_interrupts s !! g = Some r → vi_disconnect_pending r = true → 0 < vi_in_flight r) ∧
  im_isr_invocations s - im_dispatches s = in_flight_total s.
Proof.
  intros HI%intr_reachable_inv. split_and!; try apply HI.
  intros v. unfold vector_objects. destruct (im_vectors s !! v) as [l|] eqn:Hl; simpl;
    [by apply (inv_vector_lists _ HI _ _ Hl)|constructor].
Qed.

(** [connect] decides exactly: an ill-formed request is
    [STATUS_INVALID_PARAMETER]; a well-formed one collides precisely when its guest
    object is already connected or some interrupt on its vector cannot share it;
    otherwise it is connected under a fresh identifier at the end of the vector. *)
Theorem connect_decides s request :
  reachable s → im_next_id s < u64_max →
  let taken := is_Some (im_interrupts s !! cr_guest_object request) ∨
    ∃ g r, im_interrupts s !! g = Some r ∧ cr_vector (vi_request r) = cr_vector request ∧
           incompatible request r = true in
  (request_invalid request = true → connect request s = Done (Err STATUS_INVALID_PARAMETER) s) ∧
  (request_invalid request = false → taken →
     connect request s = Done (Err STATUS_OBJECT_NAME_COLLISION) s) ∧
  (request_invalid request = false → ¬ taken →
     ∃ s', connect request s = Done (Ok (im_next_id s)) s' ∧
       is_connected (cr_guest_object request) s' = true ∧ im_by_id s !! im_next_id s = None ∧
       vector_objects (cr_vector request) s' =
         vector_objects (cr_vector request) s ++ [cr_guest_object request]).
Proof.
  intros HI%intr_reachable_inv Hn taken.
  assert (conflicts request s = true ↔ taken) as Hconf.
  { unfold conflicts. rewrite orb_true_iff, bool_decide_eq_true. apply or_iff_compat_l.
    rewrite existsb_exists. split.
    - intros (g & Hg%list_elem_of_In & Hi).
      apply (inv_vectors _ HI) in Hg as (r & Hr & Hv). exists g, r. by rewrite Hr in Hi.
    - intros (g & r & Hg & Hv & Hi). exists g. rewrite Hg. split; [|done].
      apply list_elem_of_In, (inv_vectors _ HI). eauto. }
  rewrite connect_spec. split_and!.
  - by intros ->.
  - by intros -> ->%Hconf.
  - intros -> Hno. rewrite <-Hconf in Hno. apply not_true_is_false in Hno. rewrite Hno.
    rewrite (proj2 (Z.ltb_lt _ _)) by done. eexists. split; [done|]. split_and!.
    + unfold is_connected; simpl. by rewrite lookup_insert_eq.
    + destruct (im_by_id s !! im_next_id s) as [g|] eqn:Hid; [|done].
      apply (inv_by_id _ HI) in Hid as (r & Hr & Hi). destruct (inv_records _ HI _ _ Hr). lia.
    + unfold vector_objects at 1; simpl. by rewrite lookup_insert_eq.
Qed.

Definition flying (g n : Z) (r : VirtualInterrupt) (disp : Z) (s : InterruptManager) :=
  set_interrupts (<[g := with_flight n true r]> (im_interrupts s)) (im_isr_invocations s) disp s.

Ltac im_simpl :=
  mrun; cbn [im_interrupts im_by_id im_vectors im_next_id im_isr_invocations im_dispatches
    im_disconnected set_interrupts flying vi_in_flight vi_disconnect_pending vi_id vi_request
    vi_connected with_flight].

Lemma end_dispatch_flying s g n r disp t :
  im_by_id s !! dt_id t = Some g → 1 < n → disp < u64_max →
  end_dispatch t (flying g n r disp s) = Done (Ok false) (flying g (n - 1) r (disp + 1) s).
Proof.
  intros Hid Hn Hd. unfold end_dispatch, flying. im_simpl. rewrite Hid. im_simpl.
  rewrite lookup_insert_eq. im_simpl. rewrite (proj2 (Z.eqb_neq n 0)) by lia. im_simpl.
  rewrite (proj2 (Z.leb_le _ _)) by lia. im_simpl.
  rewrite (proj2 (Z.eqb_neq (n - 1) 0)) by lia. im_simpl. unfold set_interrupts; simpl.
  by rewrite insert_insert_eq.
Qed.

Lemma end_dispatch_last s g r disp t :
  im_by_id s !! dt_id t = Some g → disp < u64_max → im_disconnected s < u64_max →
  end_dispatch t (flying g 1 r disp s) =
    Done (Ok true) (removed g (with_flight 0 true r) (flying g 0 r (disp + 1) s)).
Proof.
  intros Hid Hd Hx. unfold end_dispatch, flying. im_simpl. rewrite Hid. im_simpl.
  rewrite lookup_insert_eq. im_simpl. change (1 =? 0) with false. im_simpl.
  rewrite (proj2 (Z.leb_le (disp + 1) _)) by lia. im_simpl.
  change (1 - 1 =? 0) with true. change (1 - 1) with 0. im_simpl.
  unfold remove. im_simpl. rewrite insert_insert_eq, lookup_insert_eq. im_simpl.
  by rewrite (proj2 (Z.leb_le (im_disconnected s + 1) _)) by lia.
Qed.

Lemma end_dispatch_run s g r t n disp :
  im_by_id s !! dt_id t = Some g → disp + Z.of_nat n < u64_max → im_disconnected s < u64_max →
  map_each (replicate (S n) t) end_dispatch (flying g (Z.of_nat (S n)) r disp s) =
    Done (Ok (replicate n false ++ [true]))
      (removed g (with_flight 0 true r) (flying g 0 r (disp + Z.of_nat (S n)) s)).
Proof.
  intros Hid Hd Hx. revert disp Hd. induction n as [|n IH]; intros disp Hd.
  - cbn [replicate map_each]. mrun. change (Z.of_nat 1) with 1.
    by rewrite end_dispatch_last by (done || lia).
  - change (replicate (S (S n)) t) with (t :: replicate (S n) t). cbn [map_each]. mrun.
    rewrite end_dispatch_flying by (done || lia). mrun.
    replace (Z.of_nat (S (S n)) - 1) with (Z.of_nat (S n)) by lia.
    rewrite IH by lia. mrun. by replace (disp + 1 + Z.of_nat (S n)) with (disp + Z.of_nat (S (S n))) by lia.
Qed.

(** A disconnect requested while ISRs run is deferred and then completes: the
    object stays but accepts no new dispatch; each running ISR ends, the last one
    reports the disconnect, and the object and its identifier are gone, so that a
    stale ticket is rejected. *)
Theorem deferred_disconnect_completes s g r n t :
  reachable s → im_interrupts s !! g = Some r → vi_in_flight r = Z.of_nat (S n) →
  dt_id t = vi_id r → im_dispatches s + Z.of_nat n < u64_max → im_disconnected s < u64_max →
  ∃ s1 s2,
    disconnect g s = Done (Ok DoDeferred) s1 ∧
    begin_dispatch g s1 = Done (Err STATUS_DELETE_PENDING) s1 ∧
    map_each (replicate (S n) t) end_dispatch s1 = Done (Ok (replicate n false ++ [true])) s2 ∧
    im_interrupts s2 = delete g (im_interrupts s) ∧
    end_dispatch t s2 = Done (Err STATUS_INVALID_HANDLE) s2.
Proof.
  intros HI%intr_reachable_inv Hg Hf Ht Hd Hx.
  assert (im_by_id s !! dt_id t = Some g) as Hid.
  { apply (inv_by_id _ HI). by exists r. }
  exists (flying g (Z.of_nat (S n)) r (im_dispatches s) s). eexists. split_and!.
  - unfold disconnect. mrun. rewrite Hg. mrun. rewrite (proj2 (Z.ltb_lt _ _)) by lia. mrun.
    by rewrite Hf.
  - unfold begin_dispatch, flying. mrun. simpl. rewrite lookup_insert_eq. mrun. simpl.
    by rewrite orb_true_r.
  - by apply end_dispatch_run.
  - simpl. by rewrite delete_insert_eq.
  - unfold end_dispatch. mrun. simpl. rewrite Ht, lookup_delete_eq. done.
Qed.

Definition demo_request : ConnectRequest :=
  {| cr_guest_object := 0x1000; cr_service_routine := 0x2000; cr_service_context := 0;
     cr_spin_lock := 0x3000; cr_vector := 0x40; cr_irql := 5; cr_synchronize_irql := 6;
     cr_mode := INTERRUPT_LEVEL_SENSITIVE; cr_share_vector := true; cr_affinity := 1 |}.
Definition demo_connected : InterruptManager := connected demo_request new_interrupts.
Definition demo_flying : InterruptManager :=
  state_of (begin_dispatch 0x1000 demo_connected) demo_connected.
Definition demo_record : VirtualInterrupt :=
  {| vi_id := 1; vi_request := demo_request; vi_connected := true; vi_in_flight := 1;
     vi_disconnect_pending := false |}.
Definition demo_ticket : DispatchTicket :=
  {| dt_id := 1; dt_guest_object := 0x1000; dt_service_routine := 0x2000;
     dt_service_context := 0; dt_irql := 5 |}.

Lemma demo_flying_reachable : reachable demo_flying.
Proof.
  apply (reachable_step demo_connected); [apply (reachable_step new_interrupts)|].
  - apply reachable_new.
  - by apply (step_connect _ demo_request (Ok 1)).
  - by apply (step_begin _ 0x1000 (Ok demo_ticket)).
Qed.

Lemma interrupt_tables_consistent_witness :
  im_isr_invocations demo_flying - im_dispatches demo_flying = in_flight_total demo_flying ∧
  in_flight_total demo_flying = 1.
Proof.
  split; [|reflexivity].
  apply (interrupt_tables_consistent demo_flying demo_flying_reachable).
Defined.

Lemma connect_decides_witness :
  connect demo_request demo_flying = Done (Err STATUS_OBJECT_NAME_COLLISION) demo_flying.
Proof.
  destruct (connect_decides demo_flying demo_request demo_flying_reachable) as (_ & H & _);
    [reflexivity|]. apply H; [reflexivity|]. left. exists demo_record. reflexivity.
Defined.

Lemma deferred_disconnect_completes_witness :
  ∃ s1 s2, disconnect 0x1000 demo_flying = Done (Ok DoDeferred) s1 ∧
    map_each [demo_ticket] end_dispatch s1 = Done (Ok [true]) s2.
Proof.
  destruct (deferred_disconnect_completes demo_flying 0x1000 demo_record 0 demo_ticket
    demo_flying_reachable) as (s1 & s2 & H1 & _ & H2 & _); [reflexivity..|].
  exists s1, s2. split; [exact H1|exact H2].
Defined.
End Intr.
