(* ===== verification/Executive.v ===== *)
(** * Executive services ([src/casak/executive.rs])

    Logical time and timers, per-thread APCs, the DPC queue of [Exec] embedded in
    the executive's state, and dispatcher objects with their wait operations.  The
    callbacks of timers and APCs cannot reach the executive: each is named by a
    number and its invocations are recorded in [ex_calls]. *)

From S2P Require Import Prelude Status Exec.

Inductive ApcKind : Type := AkKernel | AkUser | AkSpecialUser.

Record Apc := {
  apc_id : Z;
  apc_thread : Z;
  apc_kind : ApcKind;
  apc_routine : Z;
  apc_context : Z;
  apc_callback : Z;
}.

Record Timer := {
  tm_deadline : Z;
  tm_period : Z;
  tm_active : bool;
  tm_callback : Z;
}.

Inductive DispatcherObject : Type :=
| DoEvent (manual signaled : bool)
| DoMutant (owner : option Z) (recursion : Z) (abandoned : bool)
| DoSemaphore (count limit : Z)
| DoTimer (signaled : bool).

Record WaitResult := { wr_index : Z; wr_abandoned : bool; wr_status : Z }.

Record Executive := {
  ex_clock : Z;
  ex_interrupt_time : Z;
  ex_timers : gmap Z Timer;
  ex_fired : list Z;
  ex_next_timer : Z;
  ex_apcs : list Apc;
  ex_next_apc : Z;
  ex_delivered_apcs : Z;
  ex_objects : gmap Z DispatcherObject;
  ex_next_object : Z;
  ex_dpcs : DpcQueue.DpcQueue;
  ex_calls : list Z;
}.

Definition new_executive : Executive :=
  {| ex_clock := 1; ex_interrupt_time := 1; ex_timers := ∅; ex_fired := []; ex_next_timer := 1;
     ex_apcs := []; ex_next_apc := 1; ex_delivered_apcs := 0; ex_objects := ∅;
     ex_next_object := 1; ex_dpcs := DpcQueue.new; ex_calls := [] |}.

(** Field updates. *)
Definition set_clock (c i : Z) (s : Executive) : Executive :=
  {| ex_clock := c; ex_interrupt_time := i; ex_timers := ex_timers s; ex_fired := ex_fired s;
     ex_next_timer := ex_next_timer s; ex_apcs := ex_apcs s; ex_next_apc := ex_next_apc s;
     ex_delivered_apcs := ex_delivered_apcs s; ex_objects := ex_objects s;
     ex_next_object := ex_next_object s; ex_dpcs := ex_dpcs s; ex_calls := ex_calls s |}.
Definition set_timers (t : gmap Z Timer) (fired : list Z) (next : Z) (calls : list Z)
    (s : Executive) : Executive :=
  {| ex_clock := ex_clock s; ex_interrupt_time := ex_interrupt_time s; ex_timers := t;
     ex_fired := fired; ex_next_timer := next; ex_apcs := ex_apcs s;
     ex_next_apc := ex_next_apc s; ex_delivered_apcs := ex_delivered_apcs s;
     ex_objects := ex_objects s; ex_next_object := ex_next_object s; ex_dpcs := ex_dpcs s;
     ex_calls := calls |}.
Definition set_apcs (a : list Apc) (next delivered : Z) (calls : list Z) (s : Executive)
    : Executive :=
  {| ex_clock := ex_clock s; ex_interrupt_time := ex_interrupt_time s;
     ex_timers := ex_timers s; ex_fired := ex_fired s; ex_next_timer := ex_next_timer s;
     ex_apcs := a; ex_next_apc := next; ex_delivered_apcs := delivered;
     ex_objects := ex_objects s; ex_next_object := ex_next_object s; ex_dpcs := ex_dpcs s;
     ex_calls := calls |}.
Definition set_objects (o : gmap Z DispatcherObject) (next : Z) (s : Executive) : Executive :=
  {| ex_clock := ex_clock s; ex_interrupt_time := ex_interrupt_time s;
     ex_timers := ex_timers s; ex_fired := ex_fired s; ex_next_timer := ex_next_timer s;
     ex_apcs := ex_apcs s; ex_next_apc := ex_next_apc s;
     ex_delivered_apcs := ex_delivered_apcs s; ex_objects := o; ex_next_object := next;
     ex_dpcs := ex_dpcs s; ex_calls := ex_calls s |}.
Definition set_dpcs (q : DpcQueue.DpcQueue) (s : Executive) : Executive :=
  {| ex_clock := ex_clock s; ex_interrupt_time := ex_interrupt_time s;
     ex_timers := ex_timers s; ex_fired := ex_fired s; ex_next_timer := ex_next_timer s;
     ex_apcs := ex_apcs s; ex_next_apc := ex_next_apc s;
     ex_delivered_apcs := ex_delivered_apcs s; ex_objects := ex_objects s;
     ex_next_object := ex_next_object s; ex_dpcs := q; ex_calls := ex_calls s |}.

(** ** Time and timers *)

(** The timer after it fired at [clock]. *)
Definition rearm (clock period : Z) (t : Timer) : Timer :=
  {| tm_deadline := if period =? 0 then tm_deadline t else saturating_add u64_max clock period;
     tm_period := tm_period t;
     tm_active := if period =? 0 then false else tm_active t;
     tm_callback := tm_callback t |}.

Definition fire (entry : Z * Z) : M Executive unit :=
  let '(id, period) := entry in
  timers <- gets ex_timers ;;
  timer <- expect (timers !! id) ;;
  clock <- gets ex_clock ;;
  modify (λ s, set_timers (<[id := rearm clock period timer]> (ex_timers s))
                 (ex_fired s ++ [id]) (ex_next_timer s) (ex_calls s ++ [tm_callback timer]) s).

Definition is_due (clock : Z) (t : Timer) : bool := tm_active t && (tm_deadline t <=? clock).

Definition advance (ticks : Z) : M Executive Z :=
  if ticks =? 0 then ret 0
  else
    modify (λ s, set_clock (saturating_add u64_max (ex_clock s) ticks)
                   (saturating_add u64_max (ex_interrupt_time s) ticks) s) ;;;
    timers <- gets ex_timers ;;
    clock <- gets ex_clock ;;
    let due := (λ e, (e.1, tm_period e.2)) <$>
                 filter (λ e, is_due clock e.2 = true) (bt_entries timers) in
    for_each due fire ;;;
    ret (Z.of_nat (length due)).

Definition set_timer (relative_ticks period_ticks callback : Z) : M Executive Z :=
  id <- gets ex_next_timer ;;
  next <- add_at u64_max id 1 ;;
  clock <- gets ex_clock ;;
  let timer := {| tm_deadline := saturating_add u64_max clock relative_ticks;
                  tm_period := period_ticks; tm_active := true; tm_callback := callback |} in
  modify (λ s, set_timers (<[id := timer]> (ex_timers s)) (ex_fired s) next (ex_calls s) s) ;;;
  ret id.

Definition cancel_timer (id : Z) : M Executive unit :=
  timers <- gets ex_timers ;;
  match timers !! id with
  | Some timer =>
      if tm_active timer then
        modify (λ s, set_timers (delete id (ex_timers s)) (ex_fired s) (ex_next_timer s)
                       (ex_calls s) s)
      else throw STATUS_NOT_FOUND
  | None => throw STATUS_NOT_FOUND
  end.

Definition is_timer_active (id : Z) (s : Executive) : bool :=
  match ex_timers s !! id with Some t => tm_active t | None => false end.

(** ** APCs *)

Definition queue_apc (thread : Z) (k : ApcKind) (routine context callback : Z) : M Executive Z :=
  id <- gets ex_next_apc ;;
  next <- add_at u64_max id 1 ;;
  let apc := {| apc_id := id; apc_thread := thread; apc_kind := k; apc_routine := routine;
                apc_context := context; apc_callback := callback |} in
  modify (λ s, set_apcs (ex_apcs s ++ [apc]) next (ex_delivered_apcs s) (ex_calls s) s) ;;;
  ret id.

(** The loop of [deliver_apcs] over the queue it drains. *)
Fixpoint deliver_loop (thread : Z) (apcs remaining : list Apc) (delivered : list Z)
    : M Executive (list Apc * list Z) :=
  match apcs with
  | [] => ret (remaining, delivered)
  | apc :: apcs =>
      if apc_thread apc =? thread then
        n <- gets ex_delivered_apcs ;;
        n <- add_at u64_max n 1 ;;
        modify (λ s, set_apcs apcs (ex_next_apc s) n (ex_calls s ++ [apc_callback apc]) s) ;;;
        deliver_loop thread apcs remaining (delivered ++ [apc_id apc])
      else
        modify (λ s, set_apcs apcs (ex_next_apc s) (ex_delivered_apcs s) (ex_calls s) s) ;;;
        deliver_loop thread apcs (remaining ++ [apc]) delivered
  end.

Definition deliver_apcs (thread : Z) : M Executive (list Z) :=
  apcs <- gets ex_apcs ;;
  ' (remaining, delivered) <- deliver_loop thread apcs [] [] ;;
  modify (λ s, set_apcs remaining (ex_next_apc s) (ex_delivered_apcs s) (ex_calls s) s) ;;;
  ret delivered.

Definition cancel_apc (id : Z) : M Executive unit :=
  apcs <- gets ex_apcs ;;
  index <- ok_or (position (λ a, apc_id a =? id) apcs) STATUS_NOT_FOUND ;;
  modify (λ s, set_apcs (remove_at index (ex_apcs s)) (ex_next_apc s) (ex_delivered_apcs s)
                 (ex_calls s) s).

Definition queued_apc (id : Z) (s : Executive) : option (Z * ApcKind * Z * Z) :=
  (λ a, (apc_thread a, apc_kind a, apc_routine a, apc_context a)) <$>
    (i ← position (λ a, apc_id a =? id) (ex_apcs s); ex_apcs s !! i).

(** ** DPCs *)

Definition queue_dpc (callback : Z) : M Executive Z :=
  zoom ex_dpcs set_dpcs (DpcQueue.queue callback).
Definition drain_dpcs : M Executive Z := zoom ex_dpcs set_dpcs DpcQueue.execute_pending.

(** ** Dispatcher objects *)

Definition insert_object (object : DispatcherObject) : M Executive Z :=
  id <- gets ex_next_object ;;
  next <- add_at u64_max id 1 ;;
  modify (λ s, set_objects (<[id := object]> (ex_objects s)) next s) ;;;
  ret id.

Definition create_event (manual signaled : bool) : M Executive Z :=
  insert_object (DoEvent manual signaled).
Definition create_mutant : M Executive Z := insert_object (DoMutant None 0 false).
Definition create_semaphore (count limit : Z) : M Executive Z :=
  fail_if ((limit =? 0) || (limit <? count)) STATUS_INVALID_PARAMETER ;;;
  insert_object (DoSemaphore count limit).
Definition create_timer_object : M Executive Z := insert_object (DoTimer false).

(** [Executive::query_object] *)
Definition query_dispatcher (id : Z) : M Executive DispatcherObject :=
  objects <- gets ex_objects ;; ok_or (objects !! id) STATUS_INVALID_HANDLE.

(** [*object = o] for the object found under [id]. *)
Definition store (id : Z) (o : DispatcherObject) : M Executive unit :=
  modify (λ s, set_objects (<[id := o]> (ex_objects s)) (ex_next_object s) s).

Definition signal (id : Z) : M Executive unit :=
  object <- query_dispatcher id ;;
  match object with
  | DoEvent manual _ => store id (DoEvent manual true)
  | DoTimer _ => store id (DoTimer true)
  | DoSemaphore count limit =>
      if limit <=? count then throw STATUS_SEMAPHORE_LIMIT_EXCEEDED
      else store id (DoSemaphore (count + 1) limit)
  | DoMutant _ _ _ => throw STATUS_INVALID_PARAMETER
  end.

Definition reset (id : Z) : M Executive unit :=
  object <- query_dispatcher id ;;
  match object with
  | DoEvent manual _ => store id (DoEvent manual false)
  | DoTimer _ => store id (DoTimer false)
  | _ => throw STATUS_INVALID_PARAMETER
  end.

(** ** Waits *)

(** The test of [satisfiable] on the object itself. *)
Definition satisfiable_object (thread : Z) (object : DispatcherObject) : bool :=
  match object with
  | DoEvent _ signaled => signaled
  | DoMutant owner _ _ => bool_decide (owner = None) || bool_decide (owner = Some thread)
  | DoSemaphore count _ => 0 <? count
  | DoTimer signaled => signaled
  end.

(** [satisfiable] of every identifier, in order; an unknown one panics. *)
Fixpoint all_satisfiable (ids : list Z) (thread : Z) : M Executive bool :=
  match ids with
  | [] => ret true
  | id :: ids =>
      objects <- gets ex_objects ;;
      object <- expect (objects !! id) ;;
      if satisfiable_object thread object then all_satisfiable ids thread else ret false
  end.

Definition try_acquire (id thread : Z) : M Executive (option bool) :=
  object <- query_dispatcher id ;;
  match object with
  | DoEvent manual signaled =>
      if negb signaled then ret None
      else
        (if negb manual then store id (DoEvent manual false) else ret tt) ;;;
        ret (Some false)
  | DoMutant owner recursion abandoned =>
      match owner with
      | None => store id (DoMutant (Some thread) 1 false) ;;; ret (Some abandoned)
      | Some current =>
          if current =? thread then
            r <- add_at u32_max recursion 1 ;;
            store id (DoMutant owner r abandoned) ;;;
            ret (Some false)
          else ret None
      end
  | DoSemaphore count limit =>
      if count =? 0 then ret None
      else store id (DoSemaphore (count - 1) limit) ;;; ret (Some false)
  | DoTimer signaled =>
      if negb signaled then ret None
      else store id (DoTimer false) ;;; ret (Some false)
  end.

(** The acquisition loop of [wait_any]. *)
Fixpoint acquire_first (ids : list Z) (index thread : Z) : M Executive (option WaitResult) :=
  match ids with
  | [] => ret None
  | id :: ids =>
      r <- try_acquire id thread ;;
      match r with
      | Some abandoned =>
          ret (Some {| wr_index := index; wr_abandoned := abandoned;
                       wr_status := if abandoned then STATUS_ABANDONED_WAIT_0
                                    else STATUS_WAIT_0 |})
      | None => acquire_first ids (index + 1) thread
      end
  end.

(** Both waits reject an empty list and unknown identifiers first. *)
Definition validate_ids (ids : list Z) : M Executive unit :=
  fail_if (match ids with [] => true | _ => false end) STATUS_INVALID_PARAMETER ;;;
  objects <- gets ex_objects ;;
  for_each ids (λ id, fail_if (bool_decide (objects !! id = None)) STATUS_INVALID_HANDLE).

(** Both waits end in a timeout the same way. *)
Definition time_out {A} (timeout_ticks : Z) : M Executive A :=
  (if 0 <? timeout_ticks then advance timeout_ticks ;;; ret tt else ret tt) ;;;
  throw STATUS_TIMEOUT.

Definition wait_any (ids : list Z) (timeout_ticks thread : Z) : M Executive WaitResult :=
  validate_ids ids ;;;
  r <- acquire_first ids 0 thread ;;
  match r with
  | Some result => ret result
  | None => time_out timeout_ticks
  end.

(** The acquisition loop of [wait_all]; whether an object was acquired is ignored. *)
Definition acquire_all (ids : list Z) (thread : Z) : M Executive unit :=
  for_each ids (λ id, try_acquire id thread ;;; ret tt).

Definition wait_all (ids : list Z) (timeout_ticks thread : Z) : M Executive WaitResult :=
  validate_ids ids ;;;
  all <- all_satisfiable ids thread ;;
  if all then
    acquire_all ids thread ;;;
    ret {| wr_index := 0; wr_abandoned := false; wr_status := STATUS_WAIT_0 |}
  else time_out timeout_ticks.

(** The object left behind when its owner abandons it. *)
Definition abandon (thread : Z) (object : DispatcherObject) : DispatcherObject :=
  match object with
  | DoMutant owner recursion abandoned =>
      if bool_decide (owner = Some thread) then DoMutant None 0 true else object
  | _ => object
  end.
Definition owned_by (thread : Z) (object : DispatcherObject) : bool :=
  match object with
  | DoMutant owner _ _ => bool_decide (owner = Some thread)
  | _ => false
  end.

Definition abandon_mutants (thread : Z) : M Executive Z :=
  objects <- gets ex_objects ;;
  modify (λ s, set_objects (abandon thread <$> ex_objects s) (ex_next_object s) s) ;;;
  ret (Z.of_nat (length (filter (λ o, owned_by thread o = true) (bt_values objects)))).
