(* ===== verification/ExecutiveFacts.v ===== *)
(** * Correctness of the executive services

    Timers fire exactly when due, APCs are delivered in order, and waits consume
    the signals they report and no others. *)

From S2P Require Import Prelude Status Exec Executive.

Module Ex.

(** ** Timers *)

Definition callback_of (timers : gmap Z Timer) (id : Z) : Z :=
  match timers !! id with Some t => tm_callback t | None => 0 end.

Lemma fire_all l s :
  NoDup l.*1 → (∀ id p, (id, p) ∈ l → ∃ t, ex_timers s !! id = Some t ∧ tm_period t = p) →
  ∃ timers, for_each l fire s =
      Done (Ok tt) (set_timers timers (ex_fired s ++ l.*1) (ex_next_timer s)
                      (ex_calls s ++ (callback_of (ex_timers s) <$> l.*1)) s) ∧
    ∀ id, timers !! id =
      if decide (id ∈ l.*1) then (λ t, rearm (ex_clock s) (tm_period t) t) <$> ex_timers s !! id
      else ex_timers s !! id.
Proof.
  revert s. induction l as [|[id p] l IH]; intros s Hnd Hl.
  - exists (ex_timers s). simpl. rewrite !app_nil_r. split; [by destruct s|]. done.
  - simpl in Hnd. apply NoDup_cons in Hnd as [Hid Hnd].
    destruct (Hl id p) as (t & Ht & Hp); [by left|].
    set (s1 := set_timers (<[id := rearm (ex_clock s) p t]> (ex_timers s)) (ex_fired s ++ [id])
                 (ex_next_timer s) (ex_calls s ++ [tm_callback t]) s).
    destruct (IH s1) as (timers & Hrun & Htm); [done| |].
    { intros i q Hq. destruct (Hl i q) as (t' & Ht' & Hp'); [by right|]. exists t'. split; [|done].
      simpl. rewrite lookup_insert_ne; [done|]. intros <-. apply Hid.
      apply list_elem_of_fmap. by exists (id, q). }
    exists timers. cbn [for_each fire]. mrun. rewrite Ht. mrun. fold s1. rewrite Hrun.
    split.
    + unfold s1; simpl. unfold set_timers; simpl. rewrite <-!app_assoc. simpl.
      assert (callback_of (ex_timers s) id = tm_callback t) as -> by (unfold callback_of; by rewrite Ht).
      do 2 f_equal. f_equal. f_equal. apply list_fmap_ext. intros i j Hj. unfold callback_of.
      rewrite lookup_insert_ne; [done|]. intros ->. apply Hid. by eapply list_elem_of_lookup_2.
    + intros i. rewrite Htm. simpl. destruct (decide (i = id)) as [->|Hne].
      * rewrite decide_False by done. rewrite decide_True by (by left).
        rewrite lookup_insert_eq, Ht. simpl. by rewrite Hp.
      * rewrite lookup_insert_ne by done. apply decide_if_ext. set_solver.
Qed.

(** The identifiers [advance] fires, in order. *)
Definition due_ids (clock : Z) (timers : gmap Z Timer) : list Z :=
  (filter (λ e, is_due clock e.2 = true) (bt_entries timers)).*1.

Lemma elem_of_due_ids clock timers id :
  id ∈ due_ids clock timers ↔ ∃ t, timers !! id = Some t ∧ is_due clock t = true.
Proof.
  unfold due_ids. rewrite list_elem_of_fmap. split.
  - intros ([i t] & -> & [Hd Hin]%list_elem_of_filter). apply elem_of_bt_entries in Hin. eauto.
  - intros (t & Ht & Hd). exists (id, t). split; [done|]. apply list_elem_of_filter.
    split; [done|]. by apply elem_of_bt_entries.
Qed.

Lemma NoDup_due_ids clock timers : NoDup (due_ids clock timers).
Proof.
  unfold due_ids. eapply sublist_NoDup; [apply (NoDup_bt_keys timers)|].
  apply fmap_sublist, sublist_filter.
Qed.

Lemma due_pairs clock timers :
  ((λ e, (e.1, tm_period e.2)) <$> filter (λ e, is_due clock e.2 = true) (bt_entries timers)).*1 =
  due_ids clock timers.
Proof. unfold due_ids. rewrite <-list_fmap_compose. done. Qed.

Lemma advance_run s ticks :
  0 < ticks →
  let clock := saturating_add u64_max (ex_clock s) ticks in
  let due := due_ids clock (ex_timers s) in
  ∃ timers,
    advance ticks s = Done (Ok (Z.of_nat (length due)))
      (set_timers timers (ex_fired s ++ due) (ex_next_timer s)
         (ex_calls s ++ (callback_of (ex_timers s) <$> due))
         (set_clock clock (saturating_add u64_max (ex_interrupt_time s) ticks) s)) ∧
    ∀ id, timers !! id =
       (λ t, if is_due clock t then rearm clock (tm_period t) t else t) <$> ex_timers s !! id.
Proof.
  intros Ht clock due. unfold advance. rewrite (proj2 (Z.eqb_neq ticks 0)) by lia. mrun.
  cbn [ex_timers ex_clock set_clock]. fold clock.
  set (s0 := set_clock clock (saturating_add u64_max (ex_interrupt_time s) ticks) s).
  set (l := (λ e, (e.1, tm_period e.2)) <$>
    filter (λ e, is_due clock e.2 = true) (bt_entries (ex_timers s))).
  assert (l.*1 = due) as Hl1 by apply due_pairs.
  destruct (fire_all l s0) as (timers & Hrun & Htm).
  { rewrite Hl1. apply NoDup_due_ids. }
  { intros id p ([i t] & [= -> ->] & [_ Hin]%list_elem_of_filter)%list_elem_of_fmap.
    apply elem_of_bt_entries in Hin. by exists t. }
  rewrite Hrun. mrun.
  assert (length l = length due) as -> by (rewrite <-Hl1; by rewrite length_fmap).
  exists timers. rewrite Hl1 in *. split; [done|].
  intros id. rewrite Htm. simpl. destruct (ex_timers s !! id) as [t|] eqn:Hid; [|by case_decide].
  simpl. destruct (is_due clock t) eqn:Hd.
  - rewrite decide_True by (apply elem_of_due_ids; eauto). done.
  - rewrite decide_False; [done|]. intros (t' & Ht' & Hd')%elem_of_due_ids. congruence.
Qed.

Lemma advance_total ticks s :
  0 < ticks → ∃ n s', advance ticks s = Done (Ok n) s' ∧ ex_objects s' = ex_objects s ∧
    ex_clock s' = saturating_add u64_max (ex_clock s) ticks.
Proof.
  intros Ht. destruct (advance_run s ticks Ht) as (timers & Ha & _). eexists _, _. by rewrite Ha.
Qed.

(** Advancing the clock fires exactly the active timers that have become due,
    once each and in identifier order: one-shot timers are disarmed, periodic ones
    are due again one period after the new time, the others are untouched, and no
    armed timer is left overdue. *)
Theorem advance_fires_due_timers s ticks :
  0 < ticks →
  let clock := saturating_add u64_max (ex_clock s) ticks in
  let due := due_ids clock (ex_timers s) in
  ∃ s', advance ticks s = Done (Ok (Z.of_nat (length due))) s' ∧
    ex_clock s' = clock ∧ ex_fired s' = ex_fired s ++ due ∧
    ex_calls s' = ex_calls s ++ (callback_of (ex_timers s) <$> due) ∧
    (∀ id, ex_timers s' !! id =
       (λ t, if is_due clock t then rearm clock (tm_period t) t else t) <$> ex_timers s !! id) ∧
    (∀ id t, ex_timers s' !! id = Some t → tm_active t = true → 0 ≤ tm_period t →
       clock < u64_max → clock < tm_deadline t).
Proof.
  intros Ht clock due. destruct (advance_run s ticks Ht) as (timers & Ha & Hall).
  eexists. split; [done|]. split; [done|]. split; [done|]. split; [done|].
  split; [exact Hall|]. simpl. intros id t Hid Hact Hp Hmax. rewrite Hall in Hid.
  apply fmap_Some in Hid as (t0 & Ht0 & ->). fold clock in Hp, Hact |- *. unfold is_due in *.
  destruct (tm_active t0 && (tm_deadline t0 <=? clock)) eqn:Hd.
  - unfold rearm in *. simpl in *. destruct (tm_period t0 =? 0) eqn:E; [done|]. bool_prop.
    unfold saturating_add. lia.
  - rewrite Hact in Hd. simpl in Hd. bool_prop. lia.
Qed.

(** ** APCs *)

Lemma deliver_loop_spec thread apcs remaining delivered s :
  ex_delivered_apcs s + Z.of_nat (length apcs) ≤ u64_max →
  let mine := filter (λ a, apc_thread a = thread) apcs in
  ∃ left, deliver_loop thread apcs remaining delivered s =
    Done (Ok (remaining ++ filter (λ a, apc_thread a ≠ thread) apcs,
              delivered ++ (apc_id <$> mine)))
      (set_apcs left (ex_next_apc s) (ex_delivered_apcs s + Z.of_nat (length mine))
         (ex_calls s ++ (apc_callback <$> mine)) s).
Proof.
  revert remaining delivered s. induction apcs as [|a apcs IH]; intros remaining delivered s Hmax.
  - exists (ex_apcs s). cbn zeta. rewrite !filter_nil. cbn [length fmap list_fmap deliver_loop].
    mrun. change (Z.of_nat 0) with 0. rewrite Z.add_0_r, !app_nil_r. by destruct s.
  - simpl in Hmax. cbn [deliver_loop].
    destruct (Z.eqb_spec (apc_thread a) thread) as [Ha|Ha].
    + rewrite (filter_cons_True (λ a, apc_thread a = thread)) by done.
      rewrite (filter_cons_False (λ a, apc_thread a ≠ thread)) by naive_solver. mrun.
      rewrite (proj2 (Z.leb_le _ _)) by lia. mrun.
      edestruct (IH remaining (delivered ++ [apc_id a])
        (set_apcs apcs (ex_next_apc s) (ex_delivered_apcs s + 1) (ex_calls s ++ [apc_callback a]) s))
        as [left Hl]; [simpl; lia|].
      exists left. rewrite Hl. unfold set_apcs; simpl. rewrite <-!app_assoc. simpl.
      do 2 f_equal. lia.
    + rewrite (filter_cons_False (λ a, apc_thread a = thread)) by done.
      rewrite (filter_cons_True (λ a, apc_thread a ≠ thread)) by done. mrun.
      edestruct (IH (remaining ++ [a]) delivered
        (set_apcs apcs (ex_next_apc s) (ex_delivered_apcs s) (ex_calls s) s))
        as [left Hl]; [simpl; lia|].
      exists left. rewrite Hl. unfold set_apcs; simpl. by rewrite <-app_assoc.
Qed.

(** APC delivery is FIFO per thread: delivering to a thread runs exactly its
    queued APCs, in the order they were queued, and leaves the other threads' APCs
    in place and in order; delivering again runs none. *)
Theorem deliver_apcs_fifo s thread :
  ex_delivered_apcs s + Z.of_nat (length (ex_apcs s)) ≤ u64_max →
  let mine := filter (λ a, apc_thread a = thread) (ex_apcs s) in
  ∃ s', deliver_apcs thread s = Done (Ok (apc_id <$> mine)) s' ∧
    ex_calls s' = ex_calls s ++ (apc_callback <$> mine) ∧
    ex_apcs s' = filter (λ a, apc_thread a ≠ thread) (ex_apcs s) ∧
    deliver_apcs thread s' = Done (Ok []) s'.
Proof.
  intros Hmax mine. unfold deliver_apcs. mrun.
  destruct (deliver_loop_spec thread (ex_apcs s) [] [] s Hmax) as [left Hl].
  set (others := filter (λ a, apc_thread a ≠ thread) (ex_apcs s)).
  assert (filter (λ a, apc_thread a = thread) others = []) as Hnone.
  { unfold others. rewrite list_filter_filter. clear. induction (ex_apcs s) as [|a l IH]; [done|].
    rewrite filter_cons, decide_False by naive_solver. done. }
  assert (filter (λ a, apc_thread a ≠ thread) others = others) as Hsame.
  { unfold others. rewrite list_filter_filter. apply list_filter_iff. naive_solver. }
  set (s1 := set_apcs others (ex_next_apc s) (ex_delivered_apcs s + Z.of_nat (length mine))
               (ex_calls s ++ (apc_callback <$> mine)) s).
  exists s1. rewrite Hl. split; [done|]. split; [done|]. split; [done|].
  destruct (deliver_loop_spec thread others [] [] s1) as [left' Hl'].
  { simpl. pose proof (length_filter_split (λ a, apc_thread a = thread) (ex_apcs s)).
    unfold mine, others. lia. }
  unfold deliver_apcs. mrun. change (ex_apcs s1) with others. rewrite Hl'. mrun.
  rewrite Hsame, Hnone. unfold s1, set_apcs; simpl. by rewrite Z.add_0_r, app_nil_r.
Qed.

(** ** Waits *)

(** What acquiring an object does to it, and whether it had been abandoned; [None]
    when the object is not signaled for the thread. *)
Definition acquired (thread : Z) (o : DispatcherObject) : option (DispatcherObject * bool) :=
  match o with
  | DoEvent manual true => Some (DoEvent manual manual, false)
  | DoMutant None _ abandoned => Some (DoMutant (Some thread) 1 false, abandoned)
  | DoMutant (Some t) r abandoned =>
      if t =? thread then Some (DoMutant (Some t) (r + 1) abandoned, false) else None
  | DoSemaphore count limit =>
      if count =? 0 then None else Some (DoSemaphore (count - 1) limit, false)
  | DoTimer true => Some (DoTimer false, false)
  | _ => None
  end.

(** The recursion count of a mutant has room, and counts are unsigned. *)
Definition object_ok (o : DispatcherObject) : Prop :=
  match o with
  | DoMutant _ r _ => 0 ≤ r < u32_max
  | DoSemaphore count limit => 0 ≤ count ≤ limit
  | _ => True
  end.

Definition with_object (id : Z) (o : DispatcherObject) (s : Executive) : Executive :=
  set_objects (<[id := o]> (ex_objects s)) (ex_next_object s) s.

Lemma with_object_id id o s : ex_objects s !! id = Some o → with_object id o s = s.
Proof. intros Ho. unfold with_object. rewrite insert_id by done. by destruct s. Qed.

Lemma satisfiable_acquired thread o :
  object_ok o → satisfiable_object thread o = bool_decide (is_Some (acquired thread o)).
Proof.
  intros Hok. apply eq_iff_eq_true. rewrite bool_decide_eq_true.
  destruct o as [m []|[t|] r a|c l|[]]; simpl in *; try (by split; [eauto|intros [? ?]]).
  - rewrite bool_decide_eq_true. destruct (Z.eqb_spec t thread) as [->|Hne].
    + by split; [eauto|].
    + split; [|by intros [? ?]]. intros ?; simplify_eq.
  - destruct (Z.eqb_spec c 0) as [->|Hne].
    + split; [done|by intros [? ?]].
    + split; [eauto|]. intros _. apply Z.ltb_lt. lia.
Qed.

Lemma try_acquire_spec id thread o s :
  ex_objects s !! id = Some o → object_ok o →
  try_acquire id thread s =
    match acquired thread o with
    | Some (o', abandoned) => Done (Ok (Some abandoned)) (with_object id o' s)
    | None => Done (Ok None) s
    end.
Proof.
  intros Ho Hok. unfold try_acquire, query_dispatcher. mrun. rewrite Ho. mrun.
  destruct o as [m []|[t|] r a|c l|[]]; simpl in *; try done.
  - destruct m; simpl; [|done]. by rewrite with_object_id.
  - destruct (t =? thread) eqn:E; simpl; [|done].
    by rewrite (proj2 (Z.leb_le _ _)) by lia.
  - by destruct (c =? 0).
Qed.

Lemma validate_ids_spec ids s :
  validate_ids ids s =
    Done (if bool_decide (ids = []) then Err STATUS_INVALID_PARAMETER
          else if bool_decide (Exists (λ id, ex_objects s !! id = None) ids)
               then Err STATUS_INVALID_HANDLE else Ok tt) s.
Proof.
  unfold validate_ids. destruct ids as [|i ids]; [done|]. mrun.
  rewrite (for_each_fail_if (λ id, ex_objects s !! id = None)). done.
Qed.

Lemma time_out_spec A timeout s :
  0 ≤ timeout →
  ∃ s', time_out (A := A) timeout s = Done (Err STATUS_TIMEOUT) s' ∧
    ex_objects s' = ex_objects s ∧
    ex_clock s' = if timeout =? 0 then ex_clock s else saturating_add u64_max (ex_clock s) timeout.
Proof.
  intros Ht. unfold time_out. destruct (Z.ltb_spec 0 timeout) as [Hlt|Hle].
  - rewrite (proj2 (Z.eqb_neq timeout 0)) by lia. mrun.
    destruct (advance_total timeout s Hlt) as (n & s' & Ha & Ho & Hc). rewrite Ha. mrun. eauto.
  - rewrite (proj2 (Z.eqb_eq timeout 0)) by lia. mrun. eauto.
Qed.

(** The index of the first identifier whose object can be acquired. *)
Definition first_signaled (thread : Z) (ids : list Z) (s : Executive) : option nat :=
  position (λ id, match ex_objects s !! id with
                  | Some o => satisfiable_object thread o
                  | None => false
                  end) ids.

Lemma acquire_first_spec ids index thread s :
  (∀ id, id ∈ ids → ∃ o, ex_objects s !! id = Some o ∧ object_ok o) →
  match first_signaled thread ids s with
  | None => acquire_first ids index thread s = Done (Ok None) s
  | Some i => ∃ id o o' ab, ids !! i = Some id ∧ ex_objects s !! id = Some o ∧
      acquired thread o = Some (o', ab) ∧
      acquire_first ids index thread s =
        Done (Ok (Some {| wr_index := index + Z.of_nat i; wr_abandoned := ab;
                          wr_status := if ab then STATUS_ABANDONED_WAIT_0 else STATUS_WAIT_0 |}))
             (with_object id o' s)
  end.
Proof.
  unfold first_signaled. revert index. induction ids as [|id ids IH]; intros index Hids; [done|].
  destruct (Hids id) as (o & Ho & Hok); [by left|]. cbn [position acquire_first]. rewrite Ho.
  rewrite (satisfiable_acquired _ _ Hok). mrun. rewrite (try_acquire_spec _ _ _ _ Ho Hok).
  destruct (acquired thread o) as [[o' ab]|] eqn:Ha.
  - rewrite bool_decide_true by eauto. exists id, o, o', ab. mrun. by rewrite Z.add_0_r.
  - rewrite bool_decide_false by (by intros [? ?]). mrun.
    specialize (IH (index + 1) ltac:(intros; apply Hids; by right)).
    destruct (position _ ids) as [i|]; simpl; [|done].
    destruct IH as (id' & o1 & o1' & ab & Hi & Ho1 & Ha1 & Hr). exists id', o1, o1', ab.
    rewrite Hr. split_and!; try done. do 4 f_equal. lia.
Qed.

Definition known (s : Executive) (ids : list Z) : Prop :=
  ∀ id, id ∈ ids → ∃ o, ex_objects s !! id = Some o ∧ object_ok o.

Lemma validate_known ids s : ids ≠ [] → known s ids → validate_ids ids s = Done (Ok tt) s.
Proof.
  intros Hne Hk. rewrite validate_ids_spec. rewrite bool_decide_false by done.
  rewrite bool_decide_false; [done|]. rewrite Exists_exists. intros (id & Hin & Hn).
  destruct (Hk _ Hin) as (o & Ho & _). congruence.
Qed.

(** Waiting for any object consumes exactly the first one that is signaled for
    the thread and reports its index and whether it was abandoned; every other
    object keeps its state.  When none is signaled nothing is consumed and the
    logical clock advances by the timeout. *)
Theorem wait_any_consumes_first s ids timeout thread :
  ids ≠ [] → known s ids → 0 ≤ timeout →
  match first_signaled thread ids s with
  | Some i => ∃ id o o' ab, ids !! i = Some id ∧ ex_objects s !! id = Some o ∧
      acquired thread o = Some (o', ab) ∧
      wait_any ids timeout thread s =
        Done (Ok {| wr_index := Z.of_nat i; wr_abandoned := ab;
                    wr_status := if ab then STATUS_ABANDONED_WAIT_0 else STATUS_WAIT_0 |})
             (with_object id o' s)
  | None => ∃ s', wait_any ids timeout thread s = Done (Err STATUS_TIMEOUT) s' ∧
      ex_objects s' = ex_objects s ∧
      ex_clock s' = if timeout =? 0 then ex_clock s
                    else saturating_add u64_max (ex_clock s) timeout
  end.
Proof.
  intros Hne Hk Ht. unfold wait_any. mrun. rewrite validate_known by done. mrun.
  pose proof (acquire_first_spec ids 0 thread s Hk) as Ha.
  destruct (first_signaled thread ids s) as [i|].
  - destruct Ha as (id & o & o' & ab & Hi & Ho & Hac & Hr). exists id, o, o', ab.
    rewrite Hr. mrun. by rewrite Z.add_0_l.
  - rewrite Ha. mrun. destruct (time_out_spec WaitResult timeout s Ht) as (s' & Hs' & Ho & Hc).
    rewrite Hs'. by exists s'.
Qed.

Lemma all_satisfiable_spec ids thread s :
  known s ids →
  all_satisfiable ids thread s =
    Done (Ok (forallb (λ id, match ex_objects s !! id with
                             | Some o => satisfiable_object thread o
                             | None => false
                             end) ids)) s.
Proof.
  intros Hk. induction ids as [|id ids IH]; [done|]. cbn [all_satisfiable forallb]. mrun.
  destruct (Hk id) as (o & Ho & _); [by left|]. rewrite Ho. mrun.
  destruct (satisfiable_object thread o); [|done]. mrun. apply IH.
  intros i Hi. apply Hk. by right.
Qed.

(** The object after one acquisition, or unchanged. *)
Definition after_acquire (thread : Z) (o : DispatcherObject) : DispatcherObject :=
  match acquired thread o with Some (o', _) => o' | None => o end.

Lemma acquire_all_spec ids thread s :
  NoDup ids → known s ids →
  ∃ objects,
    acquire_all ids thread s =
      Done (Ok tt) (set_objects objects (ex_next_object s) s) ∧
    ∀ id, objects !! id = if decide (id ∈ ids) then after_acquire thread <$> ex_objects s !! id
                          else ex_objects s !! id.
Proof.
  revert s. induction ids as [|id ids IH]; intros s Hnd Hk.
  - exists (ex_objects s). split; [by destruct s|]. done.
  - apply NoDup_cons in Hnd as [Hid Hnd]. destruct (Hk id) as (o & Ho & Hok); [by left|].
    unfold acquire_all in *. cbn [for_each bind]. rewrite (try_acquire_spec _ _ _ _ Ho Hok).
    assert (∃ s1, match acquired thread o with
                  | Some (o', ab) => Done (Ok (Some ab)) (with_object id o' s)
                  | None => Done (Ok None) s
                  end = Done (Ok (snd <$> acquired thread o)) s1 ∧
                  s1 = with_object id (after_acquire thread o) s) as (s1 & -> & ->).
    { unfold after_acquire. destruct (acquired thread o) as [[o' ab]|]; [by eauto|].
      rewrite with_object_id by done. eauto. }
    cbn match beta. destruct (IH (with_object id (after_acquire thread o) s)) as (objects & Hr & Hl); [done| |].
    { intros i Hi. destruct (Hk i) as (o1 & Ho1 & ?); [by right|]. exists o1. split; [|done].
      simpl. rewrite lookup_insert_ne; [done|by intros ->]. }
    exists objects. cbn [ret]. rewrite Hr. split; [done|]. intros i. rewrite Hl. simpl.
    destruct (decide (i = id)) as [->|Hne].
    + rewrite decide_False by done. rewrite decide_True by (by left).
      by rewrite lookup_insert_eq, Ho.
    + rewrite lookup_insert_ne by done. apply decide_if_ext. set_solver.
Qed.

(** Waiting for all of several distinct objects is atomic: if every one is
    signaled for the thread, each is acquired exactly once and nothing else changes;
    if any is not, no object changes and the wait times out. *)
Theorem wait_all_atomic s ids timeout thread :
  ids ≠ [] → NoDup ids → known s ids → 0 ≤ timeout →
  if forallb (λ id, match ex_objects s !! id with
                    | Some o => satisfiable_object thread o
                    | None => false
                    end) ids
  then ∃ s', wait_all ids timeout thread s =
         Done (Ok {| wr_index := 0; wr_abandoned := false; wr_status := STATUS_WAIT_0 |}) s' ∧
       ∀ id, ex_objects s' !! id =
         if decide (id ∈ ids) then after_acquire thread <$> ex_objects s !! id
         else ex_objects s !! id
  else ∃ s', wait_all ids timeout thread s = Done (Err STATUS_TIMEOUT) s' ∧
       ex_objects s' = ex_objects s.
Proof.
  intros Hne Hnd Hk Ht. unfold wait_all. mrun. rewrite validate_known by done. mrun.
  rewrite all_satisfiable_spec by done. mrun. destruct (forallb _ ids).
  - destruct (acquire_all_spec ids thread s Hnd Hk) as (objects & Hr & Hl). mrun. rewrite Hr. mrun.
    by eexists.
  - destruct (time_out_spec WaitResult timeout s Ht) as (s' & Hs' & Ho & _).
    rewrite Hs'. by exists s'.
Qed.

(** What the waits for all objects do not do: an abandoned mutant is acquired
    without being reported as abandoned, although waiting for any of them reports
    it and leaves the same state; and an object listed twice is consumed once while
    the wait for both succeeds. *)
Theorem wait_all_deviations s id thread r limit :
  (ex_objects s !! id = Some (DoMutant None r true) →
   ∃ s', wait_any [id] 0 thread s =
       Done (Ok {| wr_index := 0; wr_abandoned := true; wr_status := STATUS_ABANDONED_WAIT_0 |}) s' ∧
     wait_all [id] 0 thread s =
       Done (Ok {| wr_index := 0; wr_abandoned := false; wr_status := STATUS_WAIT_0 |}) s') ∧
  (ex_objects s !! id = Some (DoSemaphore 1 limit) →
   ∃ s', wait_all [id; id] 0 thread s =
       Done (Ok {| wr_index := 0; wr_abandoned := false; wr_status := STATUS_WAIT_0 |}) s' ∧
     ex_objects s' !! id = Some (DoSemaphore 0 limit)).
Proof.
  split; intros Ho.
  - unfold wait_any, wait_all. mrun. rewrite !validate_ids_spec.
    rewrite bool_decide_false, (bool_decide_false (Exists _ _)) by
      (rewrite ?Exists_cons, ?Exists_nil; rewrite ?Ho; naive_solver). mrun.
    unfold acquire_all. cbn [all_satisfiable acquire_first for_each]. mrun.
    unfold try_acquire, query_dispatcher, store. mrun. rewrite !Ho. mrun. simpl. mrun.
    eexists. split; [done|]. simpl. rewrite Ho. done.
  - unfold wait_all. mrun. rewrite !validate_ids_spec.
    rewrite bool_decide_false, (bool_decide_false (Exists _ _)) by
      (rewrite ?Exists_cons, ?Exists_nil; rewrite ?Ho; naive_solver). mrun.
    unfold acquire_all. cbn [all_satisfiable for_each]. mrun. rewrite Ho. mrun. simpl. rewrite Ho. simpl.
    unfold try_acquire, query_dispatcher, store. mrun. rewrite Ho. mrun. simpl.
    rewrite lookup_insert_eq. simpl. eexists. split; [done|]. simpl. apply lookup_insert_eq.
Qed.

(** ** Concrete runs *)

Definition demo_executive : Executive :=
  state_of (set_timer 10 0 100 new_executive) new_executive.
Definition demo_objects : Executive :=
  set_objects (<[1 := DoEvent false false]> (<[2 := DoSemaphore 1 3]>
    (<[3 := DoMutant None 0 true]> ∅))) 4 new_executive.
Definition demo_apcs : Executive :=
  state_of (queue_apc 8 AkKernel 0 0 71 (state_of (queue_apc 4 AkKernel 0 0 70 new_executive)
    new_executive)) new_executive.

Lemma demo_known ids : forallb (λ id, bool_decide (id ∈ [1; 2; 3])) ids = true → known demo_objects ids.
Proof.
  intros Hall id Hid. rewrite forallb_forall in Hall.
  specialize (Hall id (proj1 (list_elem_of_In _ _) Hid)). apply bool_decide_eq_true in Hall.
  rewrite !elem_of_cons, elem_of_nil in Hall. destruct Hall as [->|[->|[->|[]]]].
  - exists (DoEvent false false). by split.
  - exists (DoSemaphore 1 3). split; [done|]. simpl. lia.
  - exists (DoMutant None 0 true). split; [done|]. by vm_compute.
Qed.

Lemma advance_fires_due_timers_witness :
  ∃ s', advance 10 demo_executive = Done (Ok 1) s' ∧ ex_fired s' = [1].
Proof.
  destruct (advance_fires_due_timers demo_executive 10) as (s' & Ha & _ & Hf & _); [reflexivity|].
  exists s'. split; [exact Ha|exact Hf].
Defined.

Lemma deliver_apcs_fifo_witness :
  ∃ s', deliver_apcs 8 demo_apcs = Done (Ok [2]) s' ∧ ex_calls s' = [71].
Proof.
  destruct (deliver_apcs_fifo demo_apcs 8) as (s' & Hd & Hc & _); [vm_compute; discriminate|].
  exists s'. split; [exact Hd|exact Hc].
Defined.

Lemma wait_any_consumes_first_witness :
  ∃ o', wait_any [1; 2] 5 7 demo_objects =
    Done (Ok {| wr_index := 1; wr_abandoned := false; wr_status := STATUS_WAIT_0 |})
      (with_object 2 o' demo_objects).
Proof.
  pose proof (wait_any_consumes_first demo_objects [1; 2] 5 7) as H.
  change (first_signaled 7 [1; 2] demo_objects) with (Some 1%nat) in H. cbn match in H.
  destruct H as (id & o & o' & ab & Hi & Ho & Ha & Hr);
    [discriminate|apply demo_known; reflexivity|discriminate|].
  injection Hi as <-. injection Ho as <-. injection Ha as <- <-.
  eexists. exact Hr.
Defined.

Lemma wait_all_atomic_witness :
  ∃ s', wait_all [1; 2] 0 7 demo_objects = Done (Err STATUS_TIMEOUT) s' ∧
    ex_objects s' = ex_objects demo_objects.
Proof.
  apply (wait_all_atomic demo_objects [1; 2] 0 7);
    [discriminate|apply NoDup_ListNoDup; repeat constructor; set_solver
    |apply demo_known; reflexivity|reflexivity].
Defined.

Lemma wait_all_deviations_witness :
  ∃ s', wait_all [3] 0 7 demo_objects =
    Done (Ok {| wr_index := 0; wr_abandoned := false; wr_status := STATUS_WAIT_0 |}) s'.
Proof.
  destruct (wait_all_deviations demo_objects 3 7 0 1) as [H _].
  destruct H as (s' & _ & H); [reflexivity|]. exists s'. exact H.
Defined.
End Ex.
