(* ===== verification/Security.v ===== *)
(** * The security reference monitor ([src/casak/security.rs])

    SIDs, access tokens, impersonation and DACL evaluation.  The state is the
    record [SecurityMonitor]; a [BTreeSet] is a [gset] (the code only inserts,
    tests membership and collects), a DACL is the list of its entries. *)

From S2P Require Import Prelude Status Object.

(** ** Security identifiers *)

Record Sid := { sid_authority : Z; sid_subauthorities : list Z }.

#[export] Instance Sid_eq_dec : EqDecision Sid.
Proof. solve_decision. Defined.
#[export] Instance Sid_countable : Countable Sid.
Proof.
  refine (inj_countable' (λ s, (sid_authority s, sid_subauthorities s))
    (λ p, {| sid_authority := p.1; sid_subauthorities := p.2 |}) _). by intros [].
Defined.

(** [Sid::new] *)
Definition sid_new (authority : Z) (subauthorities : list Z) : result Sid :=
  if (authority =? 0) && match subauthorities with [] => true | _ => false end
  then Err STATUS_INVALID_SID
  else Ok {| sid_authority := authority; sid_subauthorities := subauthorities |}.

(** [.expect(..)] of a constructor call: [None] is a panic. *)
Definition sid_expect (r : result Sid) : option Sid :=
  match r with Ok s => Some s | Err _ => None end.

Definition world : option Sid := sid_expect (sid_new 1 [0]).
Definition local_system : option Sid := sid_expect (sid_new 5 [18]).
Definition authenticated_users : option Sid := sid_expect (sid_new 5 [11]).
Definition administrators : option Sid := sid_expect (sid_new 5 [32; 544]).
Definition users : option Sid := sid_expect (sid_new 5 [32; 545]).

(** ** Tokens *)

Inductive IntegrityLevel : Type := Untrusted | Low | Medium | High | System.

(** The derived order: the position of the constructor. *)
Definition integrity_rank (l : IntegrityLevel) : Z :=
  match l with Untrusted => 0 | Low => 1 | Medium => 2 | High => 3 | System => 4 end.

Inductive Privilege : Type :=
| SeDebugPrivilege | SeBackupPrivilege | SeRestorePrivilege | SeShutdownPrivilege
| SeTcbPrivilege.

#[export] Instance Privilege_eq_dec : EqDecision Privilege.
Proof. solve_decision. Defined.
#[export] Instance Privilege_countable : Countable Privilege.
Proof.
  refine (inj_countable'
    (λ p, match p with
          | SeDebugPrivilege => 0%nat | SeBackupPrivilege => 1%nat
          | SeRestorePrivilege => 2%nat | SeShutdownPrivilege => 3%nat
          | SeTcbPrivilege => 4%nat end)
    (λ n, match n with
          | 0%nat => SeDebugPrivilege | 1%nat => SeBackupPrivilege
          | 2%nat => SeRestorePrivilege | 3%nat => SeShutdownPrivilege
          | _ => SeTcbPrivilege end) _). by intros [].
Defined.

Inductive ImpersonationLevel : Type := Anonymous | Identification | Impersonation | Delegation.

#[export] Instance ImpersonationLevel_eq_dec : EqDecision ImpersonationLevel.
Proof. solve_decision. Defined.

Record Token := {
  tk_id : Z;
  tk_user : Sid;
  tk_groups : gset Sid;
  tk_privileges : gset Privilege;
  tk_integrity : IntegrityLevel;
  tk_elevated : bool;
  tk_impersonation : option ImpersonationLevel;
  tk_restricted : gset Sid;
}.

(** ** Access-control lists and security descriptors *)

Record Ace := { ace_allow : bool; ace_sid : Sid; ace_mask : Z }.

Definition Acl : Type := list Ace.

(** [Acl::new], [Acl::push_allow], [Acl::push_deny] *)
Definition acl_new : Acl := [].
Definition push_allow (sid : Sid) (mask : Z) (acl : Acl) : Acl :=
  acl ++ [{| ace_allow := true; ace_sid := sid; ace_mask := mask |}].
Definition push_deny (sid : Sid) (mask : Z) (acl : Acl) : Acl :=
  acl ++ [{| ace_allow := false; ace_sid := sid; ace_mask := mask |}].

Record SecurityDescriptor := {
  sd_owner : Sid;
  sd_dacl : option Acl;
  sd_integrity : option IntegrityLevel;
}.

(** [SecurityDescriptor::new], [::with_dacl], [::require_integrity] *)
Definition descriptor_new (owner : Sid) : SecurityDescriptor :=
  {| sd_owner := owner; sd_dacl := None; sd_integrity := None |}.
Definition with_dacl (owner : Sid) (dacl : Acl) : SecurityDescriptor :=
  {| sd_owner := owner; sd_dacl := Some dacl; sd_integrity := None |}.
Definition require_integrity (d : SecurityDescriptor) (level : IntegrityLevel) : SecurityDescriptor :=
  {| sd_owner := sd_owner d; sd_dacl := sd_dacl d; sd_integrity := Some level |}.

(** ** The monitor *)

Record SecurityMonitor := {
  sm_tokens : gmap Z Token;
  sm_next_token : Z;
  sm_impersonation : list Z;   (* top of the stack last, as in the source *)
}.

Definition new_monitor : SecurityMonitor :=
  {| sm_tokens := ∅; sm_next_token := 1; sm_impersonation := [] |}.

Definition with_tokens (f : gmap Z Token → gmap Z Token) (m : SecurityMonitor) : SecurityMonitor :=
  {| sm_tokens := f (sm_tokens m); sm_next_token := sm_next_token m;
     sm_impersonation := sm_impersonation m |}.
Definition with_next_token (n : Z) (m : SecurityMonitor) : SecurityMonitor :=
  {| sm_tokens := sm_tokens m; sm_next_token := n; sm_impersonation := sm_impersonation m |}.
Definition with_stack (l : list Z) (m : SecurityMonitor) : SecurityMonitor :=
  {| sm_tokens := sm_tokens m; sm_next_token := sm_next_token m; sm_impersonation := l |}.

Definition MAX_TOKENS : Z := 64.

Definition create_token (user : Sid) (groups : list Sid) (privileges : list Privilege)
    (integrity : IntegrityLevel) : M SecurityMonitor Z :=
  count <- gets (λ m, Z.of_nat (size (sm_tokens m))) ;;
  fail_if (MAX_TOKENS <=? count) STATUS_INSUFFICIENT_RESOURCES ;;;
  id <- gets sm_next_token ;;
  next <- add_at u64_max id 1 ;;
  modify (with_next_token next) ;;;
  modify (with_tokens (insert id
    {| tk_id := id; tk_user := user; tk_groups := list_to_set groups;
       tk_privileges := list_to_set privileges; tk_integrity := integrity;
       tk_elevated := false; tk_impersonation := None; tk_restricted := ∅ |})) ;;;
  ret id.

(** [token.restricted = sids], [record.elevated = true],
    [record.impersonation = Some(level)] *)
Definition set_restricted (sids : gset Sid) (t : Token) : Token :=
  {| tk_id := tk_id t; tk_user := tk_user t; tk_groups := tk_groups t;
     tk_privileges := tk_privileges t; tk_integrity := tk_integrity t;
     tk_elevated := tk_elevated t; tk_impersonation := tk_impersonation t; tk_restricted := sids |}.
Definition set_elevated (t : Token) : Token :=
  {| tk_id := tk_id t; tk_user := tk_user t; tk_groups := tk_groups t;
     tk_privileges := tk_privileges t; tk_integrity := tk_integrity t; tk_elevated := true;
     tk_impersonation := tk_impersonation t; tk_restricted := tk_restricted t |}.
Definition set_level (level : ImpersonationLevel) (t : Token) : Token :=
  {| tk_id := tk_id t; tk_user := tk_user t; tk_groups := tk_groups t;
     tk_privileges := tk_privileges t; tk_integrity := tk_integrity t;
     tk_elevated := tk_elevated t; tk_impersonation := Some level;
     tk_restricted := tk_restricted t |}.

Definition create_restricted_token (user : Sid) (groups restricted : list Sid)
    : M SecurityMonitor Z :=
  id <- create_token user groups [] Medium ;;
  modify (with_tokens (alter (set_restricted (list_to_set restricted)) id)) ;;;
  ret id.

Definition delete_token (token : Z) : M SecurityMonitor unit :=
  removed <- gets (λ m, sm_tokens m !! token) ;;
  modify (with_tokens (delete token)) ;;;
  _ <- ok_or removed STATUS_INVALID_HANDLE ;;
  ret tt.

Definition query_token (token : Z) (m : SecurityMonitor) : result Token :=
  match sm_tokens m !! token with Some t => Ok t | None => Err STATUS_INVALID_HANDLE end.

Definition token_count (m : SecurityMonitor) : Z := Z.of_nat (size (sm_tokens m)).

Definition elevate (token : Z) : M SecurityMonitor unit :=
  _ <- query (query_token token) ;;
  modify (with_tokens (alter set_elevated token)).

Definition set_impersonation_level (token : Z) (level : ImpersonationLevel)
    : M SecurityMonitor unit :=
  _ <- query (query_token token) ;;
  modify (with_tokens (alter (set_level level) token)).

Definition impersonate (token : Z) : M SecurityMonitor unit :=
  known <- gets (λ m, bool_decide (is_Some (sm_tokens m !! token))) ;;
  fail_if (negb known) STATUS_INVALID_HANDLE ;;;
  stack <- gets sm_impersonation ;;
  modify (with_stack (stack ++ [token])).

(** [Vec::pop] *)
Definition revert : M SecurityMonitor Z :=
  stack <- gets sm_impersonation ;;
  modify (with_stack (take (pred (length stack)) stack)) ;;;
  ok_or (last stack) STATUS_INVALID_HANDLE.

Definition current_token (m : SecurityMonitor) : option Z := last (sm_impersonation m).

Definition require_privilege (token : Z) (privilege : Privilege) (m : SecurityMonitor)
    : result unit :=
  match query_token token m with
  | Err e => Err e
  | Ok record =>
      if bool_decide (privilege ∈ tk_privileges record) then Ok tt
      else Err STATUS_PRIVILEGE_NOT_HELD
  end.

(** ** Access evaluation *)

(** The mask one pass over the DACL collects: the union of the entries of one
    kind that name one of [sids]. *)
Definition collect_mask (allow : bool) (dacl : Acl) (sids : list Sid) : Z :=
  foldl (λ mask ace, Z.lor mask (ace_mask ace)) 0
    (filter (λ ace, Bool.eqb (ace_allow ace) allow
                    && existsb (λ sid, bool_decide (sid = ace_sid ace)) sids) dacl).

Definition evaluate_acl (dacl : Acl) (sids : list Sid) (desired : Z) : bool :=
  let denied := collect_mask false dacl sids in
  if negb (Z.land desired denied =? 0) then false
  else
    let allowed := collect_mask true dacl sids in
    Z.land desired (not_u32 allowed) =? 0.

Definition check_access (token : Z) (descriptor : SecurityDescriptor) (desired : Z)
    (m : SecurityMonitor) : result unit :=
  match query_token token m with
  | Err e => Err e
  | Ok record =>
      if match sd_integrity descriptor with
         | Some required => integrity_rank (tk_integrity record) <? integrity_rank required
         | None => false
         end && negb (bool_decide (SeTcbPrivilege ∈ tk_privileges record))
      then Err STATUS_ACCESS_DENIED
      else if bool_decide (tk_impersonation record = Some Identification)
           && negb (Z.land desired (Z.lor (Z.lor WRITE_DAC DELETE) GENERIC_WRITE) =? 0)
      then Err STATUS_ACCESS_DENIED
      else if desired =? 0 then Ok tt
      else match sd_dacl descriptor with
           | None => Err STATUS_ACCESS_DENIED
           | Some dacl =>
               let effective :=
                 if bool_decide (tk_user record = sd_owner descriptor)
                 then Z.land desired (not_u32 (Z.lor READ_CONTROL WRITE_DAC)) else desired in
               if effective =? 0 then Ok tt
               else if negb (evaluate_acl dacl (tk_user record :: elements (tk_groups record))
                               effective)
               then Err STATUS_ACCESS_DENIED
               else if negb (bool_decide (tk_restricted record = ∅))
                       && negb (evaluate_acl dacl (elements (tk_restricted record)) effective)
               then Err STATUS_ACCESS_DENIED
               else Ok tt
           end
  end.
