(* ===== verification/SecurityFacts.v ===== *)
(** * Correctness of the security reference monitor

    The access check implements a declarative reading of the descriptor, right by
    right; token identifiers are never reused; impersonation is a stack. *)

From S2P Require Import Prelude Status Object Security.

Module Sec.

(** ** What a descriptor grants *)

(** Right [i] is named by an entry of kind [allow] for one of [sids]. *)
Definition named (allow : bool) (dacl : Acl) (sids : Sid → Prop) (i : Z) : Prop :=
  ∃ a, a ∈ dacl ∧ ace_allow a = allow ∧ sids (ace_sid a) ∧ Z.testbit (ace_mask a) i = true.

(** Every right of [rights] is allowed to [sids] by some entry and denied by
    none. *)
Definition grants (dacl : Acl) (sids : Sid → Prop) (rights : Z → Prop) : Prop :=
  ∀ i, 0 ≤ i → rights i → named true dacl sids i ∧ ¬ named false dacl sids i.

(** The rights a token has to find in the DACL: all the requested ones, less
    [READ_CONTROL] and [WRITE_DAC] (bits 17 and 18) for the owner. *)
Definition required_rights (t : Token) (d : SecurityDescriptor) (desired : Z) (i : Z) : Prop :=
  Z.testbit desired i = true ∧ (tk_user t = sd_owner d → i ≠ 17 ∧ i ≠ 18).

Definition own_sids (t : Token) (s : Sid) : Prop := s = tk_user t ∨ s ∈ tk_groups t.

(** The contract of the monitor. *)
Record allowed (t : Token) (d : SecurityDescriptor) (desired : Z) : Prop := {
  allowed_integrity : ∀ required, sd_integrity d = Some required →
    integrity_rank required ≤ integrity_rank (tk_integrity t) ∨ SeTcbPrivilege ∈ tk_privileges t;
  (** an identification token gets none of [DELETE], [WRITE_DAC], [GENERIC_WRITE] *)
  allowed_level : tk_impersonation t = Some Identification →
    ∀ i, i ∈ [16; 18; 30] → Z.testbit desired i = false;
  allowed_dacl : desired ≠ 0 → ∃ dacl, sd_dacl d = Some dacl ∧
    grants dacl (own_sids t) (required_rights t d desired) ∧
    (tk_restricted t ≠ ∅ →
     grants dacl (λ s, s ∈ tk_restricted t) (required_rights t d desired));
}.

(** ** Evaluation of one SID set *)

Lemma testbit_foldl_lor l acc i :
  0 ≤ i →
  Z.testbit (foldl (λ mask ace, Z.lor mask (ace_mask ace)) acc l) i = true ↔
  Z.testbit acc i = true ∨ ∃ a, a ∈ l ∧ Z.testbit (ace_mask a) i = true.
Proof.
  intros Hi. revert acc. induction l as [|a l IH]; intros acc; cbn [foldl].
  - split; [by left|]. intros [?|(a & Ha & _)]; [done|]. by apply not_elem_of_nil in Ha.
  - rewrite IH, Z.lor_spec, orb_true_iff. split.
    + intros [[?|?]|(b & Hb & ?)]; [by left| |]; right; [exists a|exists b]; set_solver.
    + intros [?|(b & [->|Hb]%elem_of_cons & ?)]; eauto.
Qed.

Lemma collect_mask_spec allow dacl sids i :
  0 ≤ i → Z.testbit (collect_mask allow dacl sids) i = true ↔ named allow dacl (λ s, s ∈ sids) i.
Proof.
  intros Hi. unfold collect_mask, named. rewrite testbit_foldl_lor by done.
  rewrite Z.testbit_0_l. split.
  - intros [?|(a & [Ha Hin]%list_elem_of_filter & Hm)]; [done|]. exists a.
    apply Is_true_true, andb_true_iff in Ha as [Ha%Bool.eqb_prop Hs].
    apply existsb_exists in Hs as (s & Hs & ->%bool_decide_eq_true).
    split_and!; [done|done| |done]. by apply list_elem_of_In.
  - intros (a & Hin & <- & Hs & Hm). right. exists a. split; [|done].
    apply list_elem_of_filter. split; [|done]. apply Is_true_true, andb_true_iff. split.
    + apply Bool.eqb_true_iff. done.
    + apply existsb_exists. exists (ace_sid a). split; [by apply list_elem_of_In|].
      by apply bool_decide_eq_true.
Qed.

Lemma evaluate_acl_spec dacl sids desired :
  u32 desired →
  evaluate_acl dacl sids desired = true ↔
  grants dacl (λ s, s ∈ sids) (λ i, Z.testbit desired i = true).
Proof.
  intros Hd. unfold evaluate_acl, grants. destruct (Z.eqb_spec (Z.land desired (collect_mask false dacl sids)) 0)
    as [E|E]; cbn [negb].
  - rewrite Z.eqb_eq, land_zero_spec. rewrite land_zero_spec in E. split.
    + intros H i Hi Hb. specialize (H i Hi Hb). specialize (E i Hi Hb).
      rewrite testbit_not_u32, negb_false_iff in H by (by eapply testbit_u32).
      rewrite collect_mask_spec in H by done. split; [done|].
      intros Hn. apply collect_mask_spec in Hn; [|done]. congruence.
    + intros H i Hi Hb. rewrite testbit_not_u32 by (by eapply testbit_u32).
      apply negb_false_iff, collect_mask_spec; [done|]. by apply H.
  - split; [done|]. intros H. destruct E. apply land_zero_spec. intros i Hi Hb.
    destruct (H i Hi Hb) as [_ Hn]. rewrite <-(collect_mask_spec false dacl sids i Hi) in Hn.
    by apply not_true_is_false.
Qed.

Lemma grants_ext dacl (P Q : Sid → Prop) (R T : Z → Prop) :
  (∀ s, P s ↔ Q s) → (∀ i, 0 ≤ i → R i ↔ T i) → grants dacl P R ↔ grants dacl Q T.
Proof. unfold grants, named. intros HPQ HRT. split; intros H i Hi HR; setoid_rewrite HPQ in H
    || setoid_rewrite <-HPQ in H; apply H; [done|by apply HRT|done|by apply HRT]. Qed.


(** ** The access check *)

(** The rights left for the DACL after the owner's implicit grant. *)
Definition effective (t : Token) (d : SecurityDescriptor) (desired : Z) : Z :=
  if bool_decide (tk_user t = sd_owner d)
  then Z.land desired (not_u32 (Z.lor READ_CONTROL WRITE_DAC)) else desired.

Lemma effective_u32 t d desired : u32 desired → u32 (effective t d desired).
Proof.
  unfold effective, u32, u32_max. intros Hd. case_bool_decide; [|done].
  rewrite Z.land_comm. assert (0 ≤ Z.land (not_u32 (Z.lor READ_CONTROL WRITE_DAC)) desired < 2 ^ 32)
    as ? by (apply land_bounded; lia). lia.
Qed.

Lemma testbit_effective t d desired i :
  u32 desired → 0 ≤ i →
  Z.testbit (effective t d desired) i = true ↔ required_rights t d desired i.
Proof.
  intros Hd Hi. unfold effective, required_rights. case_bool_decide; [|naive_solver].
  rewrite Z.land_spec, andb_true_iff. split.
  - intros [Hb Hn]. split; [done|]. intros _.
    split; intros ->; by vm_compute in Hn.
  - intros [Hb Hn]. split; [done|]. rewrite testbit_not_u32 by (by eapply testbit_u32).
    change (Z.lor READ_CONTROL WRITE_DAC) with (Z.lor (2 ^ 17) (2 ^ 18)).
    rewrite Z.lor_spec, !Z.pow2_bits_eqb by lia. destruct Hn as [H1 H2]; [done|].
    rewrite (proj2 (Z.eqb_neq 17 i)), (proj2 (Z.eqb_neq 18 i)) by congruence. done.
Qed.

Lemma evaluate_effective t d dacl (l : list Sid) (sids : Sid → Prop) desired :
  u32 desired → (∀ s, s ∈ l ↔ sids s) →
  evaluate_acl dacl l (effective t d desired) = true ↔
  grants dacl sids (required_rights t d desired).
Proof.
  intros Hd Hl. rewrite evaluate_acl_spec by (by apply effective_u32).
  apply grants_ext; [done|]. intros i Hi. by apply testbit_effective.
Qed.

Lemma own_verdict t d dacl desired :
  u32 desired →
  evaluate_acl dacl (tk_user t :: elements (tk_groups t)) (effective t d desired) = true ↔
  grants dacl (own_sids t) (required_rights t d desired).
Proof. intros. apply evaluate_effective; [done|]. unfold own_sids. set_solver. Qed.

Lemma restricted_verdict t d dacl desired :
  u32 desired →
  evaluate_acl dacl (elements (tk_restricted t)) (effective t d desired) = true ↔
  grants dacl (λ s, s ∈ tk_restricted t) (required_rights t d desired).
Proof. intros. apply evaluate_effective; [done|]. set_solver. Qed.

(** The bits of [WRITE_DAC | DELETE | GENERIC_WRITE]. *)
Lemma identification_mask desired :
  Z.land desired (Z.lor (Z.lor WRITE_DAC DELETE) GENERIC_WRITE) = 0 ↔
  ∀ i, i ∈ [16; 18; 30] → Z.testbit desired i = false.
Proof.
  change (Z.lor (Z.lor WRITE_DAC DELETE) GENERIC_WRITE)
    with (Z.lor (Z.lor (2 ^ 18) (2 ^ 16)) (2 ^ 30)).
  rewrite land_zero_spec. split.
  - intros H i Hi. apply not_true_is_false. intros Hb.
    assert (0 ≤ i) as Hpos by (repeat (apply elem_of_cons in Hi as [->|Hi]; [lia|]); by apply not_elem_of_nil in Hi).
    specialize (H i Hpos Hb). rewrite !Z.lor_spec, !Z.pow2_bits_eqb in H by lia.
    rewrite !orb_false_iff, !Z.eqb_neq in H. set_solver.
  - intros H i Hi Hb. rewrite !Z.lor_spec, !Z.pow2_bits_eqb by lia.
    rewrite !orb_false_iff, !Z.eqb_neq.
    split_and!; intros <-; (rewrite H in Hb; [done|set_solver]).
Qed.

(** The tests of [check_access] before the DACL. *)
Lemma integrity_test (t : Token) (d : SecurityDescriptor) :
  match sd_integrity d with
  | Some required => integrity_rank (tk_integrity t) <? integrity_rank required
  | None => false
  end && negb (bool_decide (SeTcbPrivilege ∈ tk_privileges t)) = false ↔
  ∀ required, sd_integrity d = Some required →
    integrity_rank required ≤ integrity_rank (tk_integrity t) ∨ SeTcbPrivilege ∈ tk_privileges t.
Proof.
  rewrite andb_false_iff, negb_false_iff, bool_decide_eq_true.
  destruct (sd_integrity d) as [q|]; [rewrite Z.ltb_ge|]; naive_solver.
Qed.

Lemma level_test (t : Token) desired :
  bool_decide (tk_impersonation t = Some Identification)
    && negb (Z.land desired (Z.lor (Z.lor WRITE_DAC DELETE) GENERIC_WRITE) =? 0) = false ↔
  (tk_impersonation t = Some Identification →
   ∀ i, i ∈ [16; 18; 30] → Z.testbit desired i = false).
Proof.
  rewrite <-identification_mask.
  rewrite andb_false_iff, negb_false_iff, bool_decide_eq_false, Z.eqb_eq.
  destruct (decide (tk_impersonation t = Some Identification)); naive_solver.
Qed.

(** The DACL part of [check_access]. *)
Definition dacl_verdict (t : Token) (d : SecurityDescriptor) (desired : Z) : bool :=
  (desired =? 0) ||
  match sd_dacl d with
  | None => false
  | Some dacl =>
      (effective t d desired =? 0)
      || (evaluate_acl dacl (tk_user t :: elements (tk_groups t)) (effective t d desired)
          && (bool_decide (tk_restricted t = ∅)
              || evaluate_acl dacl (elements (tk_restricted t)) (effective t d desired)))
  end.

Lemma evaluate_zero dacl l : evaluate_acl dacl l 0 = true.
Proof. done. Qed.

Lemma dacl_verdict_spec t d desired :
  u32 desired →
  dacl_verdict t d desired = true ↔
  (desired ≠ 0 → ∃ dacl, sd_dacl d = Some dacl ∧
    grants dacl (own_sids t) (required_rights t d desired) ∧
    (tk_restricted t ≠ ∅ →
     grants dacl (λ s, s ∈ tk_restricted t) (required_rights t d desired))).
Proof.
  intros Hd. unfold dacl_verdict. destruct (Z.eqb_spec desired 0) as [->|Hne]; [naive_solver|].
  cbn [orb]. destruct (sd_dacl d) as [dacl|]; [|naive_solver].
  rewrite orb_true_iff, andb_true_iff, orb_true_iff, Z.eqb_eq, bool_decide_eq_true.
  split.
  - intros H _. exists dacl. split; [done|].
    rewrite <-own_verdict, <-restricted_verdict by done.
    destruct H as [->|[Hn Hr]]; [by rewrite !evaluate_zero|]. naive_solver.
  - intros H. destruct H as (? & [= <-] & H); [done|].
    rewrite <-own_verdict, <-restricted_verdict in H by done.
    right. destruct H as [Hn Hr]. split; [done|]. destruct (decide (tk_restricted t = ∅)); auto.
Qed.

Lemma check_access_shape token d desired m :
  check_access token d desired m =
  match sm_tokens m !! token with
  | None => Err STATUS_INVALID_HANDLE
  | Some t =>
      if match sd_integrity d with
         | Some required => integrity_rank (tk_integrity t) <? integrity_rank required
         | None => false
         end && negb (bool_decide (SeTcbPrivilege ∈ tk_privileges t))
         || bool_decide (tk_impersonation t = Some Identification)
            && negb (Z.land desired (Z.lor (Z.lor WRITE_DAC DELETE) GENERIC_WRITE) =? 0)
         || negb (dacl_verdict t d desired)
      then Err STATUS_ACCESS_DENIED else Ok tt
  end.
Proof.
  unfold check_access, query_token, dacl_verdict. destruct (sm_tokens m !! token) as [t|]; [|done].
  destruct (match sd_integrity d with _ => _ end && _); [done|].
  destruct (bool_decide _ && negb (_ =? 0)); [done|]. cbn [orb].
  destruct (desired =? 0); [done|]. cbn [orb]. destruct (sd_dacl d) as [dacl|]; [|done].
  fold (effective t d desired). destruct (effective t d desired =? 0); [done|]. cbn [orb].
  destruct (evaluate_acl dacl (_ :: _) _); [|done]. cbn [andb negb].
  destruct (bool_decide (tk_restricted t = ∅)); [done|]. cbn [andb orb negb].
  by destruct (evaluate_acl _ _ _).
Qed.

Lemma check_access_allowed token d desired m t :
  u32 desired → sm_tokens m !! token = Some t →
  (check_access token d desired m = Ok tt ↔ allowed t d desired) ∧
  (check_access token d desired m = Ok tt ∨ check_access token d desired m = Err STATUS_ACCESS_DENIED).
Proof.
  intros Hd Ht. rewrite check_access_shape, Ht. split; [|by destruct (_ || _); auto].
  transitivity (dacl_verdict t d desired = true ∧
     (∀ required, sd_integrity d = Some required →
       integrity_rank required ≤ integrity_rank (tk_integrity t) ∨ SeTcbPrivilege ∈ tk_privileges t) ∧
     (tk_impersonation t = Some Identification →
       ∀ i, i ∈ [16; 18; 30] → Z.testbit desired i = false)).
  - rewrite <-integrity_test, <-level_test.
    destruct (_ && negb (bool_decide _)), (bool_decide _ && negb (_ =? 0)), (dacl_verdict _ _ _);
      naive_solver.
  - rewrite dacl_verdict_spec by done. split; [|by intros []].
    intros (? & ? & ?). by constructor.
Qed.


(** ** Order of the entries *)

#[export] Instance named_perm allow : Proper ((≡ₚ) ==> eq ==> eq ==> iff) (named allow).
Proof.
  intros l l' Hl ? sids -> ? i ->. unfold named.
  split; intros (a & Ha & H); exists a; (split; [|done]); by rewrite Hl in Ha || rewrite <-Hl in Ha.
Qed.

#[export] Instance grants_perm : Proper ((≡ₚ) ==> eq ==> eq ==> iff) grants.
Proof.
  intros l l' Hl ? sids -> ? rights ->. unfold grants.
  split; intros H i Hi HR; specialize (H i Hi HR); by rewrite Hl in H || rewrite <-Hl in H.
Qed.

(** A descriptor with its DACL replaced. *)
Definition set_dacl (dacl : Acl) (d : SecurityDescriptor) : SecurityDescriptor :=
  {| sd_owner := sd_owner d; sd_dacl := Some dacl; sd_integrity := sd_integrity d |}.

Lemma allowed_perm t d dacl dacl' desired :
  dacl ≡ₚ dacl' → allowed t (set_dacl dacl d) desired → allowed t (set_dacl dacl' d) desired.
Proof.
  intros Hl [Hi Hv Hd]. constructor; [done|done|]. intros Hne.
  destruct (Hd Hne) as (? & [= <-] & Hn & Hr). exists dacl'. split; [done|].
  unfold required_rights in *. simpl in *. rewrite Hl in Hn. split; [done|].
  intros Hre. specialize (Hr Hre). by rewrite Hl in Hr.
Qed.

Lemma allowed_sub t d desired sub :
  0 ≤ sub → bits_within sub desired → allowed t d desired → allowed t d sub.
Proof.
  intros Hpos Hsub [Hi Hv Hd].
  assert (∀ i, 0 ≤ i → required_rights t d sub i → required_rights t d desired i) as Hr.
  { intros i Hi' [Hb Ho]. split; [|done]. by apply (proj1 (bits_within_testbit sub desired) Hsub). }
  constructor; [done| |].
  - intros Hl i Hin. specialize (Hv Hl i Hin). apply not_true_is_false. intros Hb.
    rewrite (proj1 (bits_within_testbit sub desired) Hsub) in Hv; [done| |done]. set_solver by lia.
  - intros Hne. destruct Hd as (dacl & Hdacl & Hn & Hre).
    { intros ->. apply Hne. unfold bits_within in Hsub. by rewrite Z.land_0_r in Hsub. }
    exists dacl. split; [done|]. split.
    + intros i Hi' HR. apply Hn; [done|]. by apply Hr.
    + intros Hx i Hi' HR. apply (Hre Hx); [done|]. by apply Hr.
Qed.

(** ** Token identifiers *)

Inductive sstep (m : SecurityMonitor) : SecurityMonitor → Prop :=
| sstep_create u g p l r m' : create_token u g p l m = Done r m' → sstep m m'
| sstep_restricted u g q r m' : create_restricted_token u g q m = Done r m' → sstep m m'
| sstep_delete t r m' : delete_token t m = Done r m' → sstep m m'
| sstep_elevate t r m' : elevate t m = Done r m' → sstep m m'
| sstep_level t l r m' : set_impersonation_level t l m = Done r m' → sstep m m'
| sstep_impersonate t r m' : impersonate t m = Done r m' → sstep m m'
| sstep_revert r m' : revert m = Done r m' → sstep m m'.

(** Identifiers in use are below the next one, and at most 64 are in use. *)
Record SInv (m : SecurityMonitor) : Prop := {
  si_next : 1 ≤ sm_next_token m;
  si_ids : ∀ k t, sm_tokens m !! k = Some t → tk_id t = k ∧ 1 ≤ k < sm_next_token m;
  si_limit : Z.of_nat (size (sm_tokens m)) ≤ MAX_TOKENS;
}.

(** No step revives an identifier that was handed out. *)
Definition gone (k : Z) (m : SecurityMonitor) : Prop :=
  k < sm_next_token m ∧ sm_tokens m !! k = None.

Lemma create_token_run u g p l m r m' :
  create_token u g p l m = Done r m' →
  (MAX_TOKENS ≤ Z.of_nat (size (sm_tokens m)) ∧ r = Err STATUS_INSUFFICIENT_RESOURCES ∧ m' = m) ∨
  (Z.of_nat (size (sm_tokens m)) < MAX_TOKENS ∧ r = Ok (sm_next_token m) ∧
   sm_next_token m' = sm_next_token m + 1 ∧ sm_impersonation m' = sm_impersonation m ∧
   ∃ t, tk_id t = sm_next_token m ∧ sm_tokens m' = <[sm_next_token m := t]> (sm_tokens m)).
Proof.
  unfold create_token. intros H. msplit; bool_prop; simplify_eq/=; [by left|right].
  split_and!; try done. eexists. split; [|reflexivity]. done.
Qed.

Lemma SInv_alter f k m :
  (∀ t, tk_id (f t) = tk_id t) → SInv m → SInv (with_tokens (alter f k) m).
Proof.
  intros Hf [Hn Hi Hl]. constructor; simpl; [done| |by rewrite <-!size_dom, dom_alter_L in *].
  intros j t. rewrite lookup_alter_Some.
  intros [(-> & t0 & Ht0 & ->)|[_ Ht]]; [|by apply Hi]. rewrite Hf. by apply Hi.
Qed.

Lemma gone_alter f j k m : gone j m → gone j (with_tokens (alter f k) m).
Proof. intros [Hn Ht]. split; [done|]. simpl. rewrite lookup_alter_None. done. Qed.

(** What every step keeps. *)
Definition keeps (m m' : SecurityMonitor) : Prop :=
  SInv m' ∧ ∀ k, gone k m → gone k m'.

Lemma keeps_trans m1 m2 m3 : keeps m1 m2 → (SInv m2 → keeps m2 m3) → keeps m1 m3.
Proof. intros [H1 K1] H2. destruct (H2 H1) as [H3 K3]. split; auto. Qed.

Lemma keeps_alter f k m :
  (∀ t, tk_id (f t) = tk_id t) → SInv m → keeps m (with_tokens (alter f k) m).
Proof. intros Hf Hm. split; [by apply SInv_alter|]. intros j. apply gone_alter. Qed.

Lemma keeps_stack l m : SInv m → keeps m (with_stack l m).
Proof. intros []. split; [by constructor|done]. Qed.

Lemma keeps_create u g p l m r m' : SInv m → create_token u g p l m = Done r m' → keeps m m'.
Proof.
  intros Hm H. apply create_token_run in H as [(_ & _ & ->)|(Hlt & _ & Hn & _ & t & Ht & Htm)];
    [by split|].
  destruct Hm as [Hpos Hi Hl]. split.
  - constructor; [lia| |].
    + intros k t'. rewrite Htm, lookup_insert_Some, Hn.
      intros [[<- <-]|[_ Hk]]; [lia|]. apply Hi in Hk. lia.
    + rewrite Htm, map_size_insert. destruct (sm_tokens m !! sm_next_token m); unfold id; lia.
  - intros k [Hk Hnone]. split; [lia|]. rewrite Htm, lookup_insert_ne by lia. done.
Qed.

Lemma sstep_keeps m m' : SInv m → sstep m m' → keeps m m'.
Proof.
  intros Hm []; rename select (_ = Done _ _) into H.
  - by eapply keeps_create.
  - unfold create_restricted_token in H. unfold bind in H at 1.
    destruct (create_token _ _ _ _ m) as [[id|e] m1|] eqn:E; [| |done].
    + mrun. simplify_eq. eapply keeps_trans; [by eapply keeps_create|]. intros. by apply keeps_alter.
    + simplify_eq. by eapply keeps_create.
  - unfold delete_token in H. mrun. destruct Hm as [Hpos Hi Hl].
    assert (m'0 = with_tokens (delete t) m) as -> by (destruct (sm_tokens m !! t); mrun; by simplify_eq).
    split; [constructor; simpl; [done| |]|].
    + intros k t0 [_ Hk]%lookup_delete_Some. by apply Hi.
    + rewrite map_size_delete. destruct (sm_tokens m !! t); unfold id; lia.
    + intros k [Hk Hnone]. split; [done|]. apply lookup_delete_None. by right.
  - unfold elevate, query_token in H. mrun.
    destruct (sm_tokens m !! t); simplify_eq; [by apply keeps_alter|by split].
  - unfold set_impersonation_level, query_token in H. mrun.
    destruct (sm_tokens m !! t); simplify_eq; [by apply keeps_alter|by split].
  - unfold impersonate in H. mrun. destruct (negb _); simplify_eq; [by split|by apply keeps_stack].
  - unfold revert in H. mrun. destruct (last _); simplify_eq; by apply keeps_stack.
Qed.

Lemma sinv_new : SInv new_monitor.
Proof.
  constructor; [done| |by vm_compute]. intros k t. simpl. by rewrite lookup_empty.
Qed.

Lemma steps_keep m m' : SInv m → rtc sstep m m' → keeps m m'.
Proof.
  intros Hm Hs. revert Hm. induction Hs as [m|m1 m2 m3 H _ IH]; intros Hm; [by split|].
  by eapply keeps_trans; [eapply sstep_keeps|].
Qed.

Lemma query_gone k m : gone k m → query_token k m = Err STATUS_INVALID_HANDLE.
Proof. intros [_ H]. unfold query_token. by rewrite H. Qed.

Lemma take_snoc {A} (l : list A) x : take (pred (length (l ++ [x]))) (l ++ [x]) = l.
Proof.
  rewrite length_app. simpl. replace (pred (length l + 1)) with (length l) by lia.
  apply take_app_length.
Qed.

Lemma impersonate_known t m :
  is_Some (sm_tokens m !! t) →
  impersonate t m = Done (Ok tt) (with_stack (sm_impersonation m ++ [t]) m).
Proof. intros Ht. unfold impersonate. mrun. by rewrite bool_decide_true. Qed.

Lemma revert_top l t m :
  revert (with_stack (l ++ [t]) m) = Done (Ok t) (with_stack l m).
Proof. unfold revert. mrun. simpl. by rewrite last_snoc, take_snoc. Qed.

Lemma reverts (l l' : list Z) m :
  length l' = length l →
  map_each l' (λ _, revert) (with_stack (sm_impersonation m ++ l) m) = Done (Ok (rev l)) m.
Proof.
  revert l'. induction l as [|t l IH] using rev_ind; intros l' Hlen.
  - destruct l'; [|done]. simpl. rewrite app_nil_r. by destruct m.
  - rewrite length_app in Hlen. simpl in Hlen. destruct l' as [|u l']; simpl in Hlen; [lia|].
    cbn [map_each]. unfold bind. rewrite app_assoc, revert_top, IH by lia.
    by rewrite rev_app_distr.
Qed.

(** Impersonation is a stack: reverting as often returns the tokens in the
    opposite order and the monitor to where it was. *)
Lemma impersonation_lifo l m :
  Forall (λ t, is_Some (sm_tokens m !! t)) l →
  ∃ m', for_each l impersonate m = Done (Ok tt) m' ∧
    sm_tokens m' = sm_tokens m ∧ sm_impersonation m' = sm_impersonation m ++ l ∧
    map_each l (λ _, revert) m' = Done (Ok (rev l)) m.
Proof.
  intros Hl. exists (with_stack (sm_impersonation m ++ l) m). split_and!; [|done|done|].
  - revert m Hl. induction l as [|t l IH]; intros m Hl; simpl.
    + rewrite app_nil_r. by destruct m.
    + apply Forall_cons in Hl as [Ht Hl]. rewrite impersonate_known by done.
      rewrite (IH (with_stack (sm_impersonation m ++ [t]) m)) by done.
      unfold with_stack. simpl. by rewrite <-app_assoc.
  - clear Hl. apply (reverts l l). done.
Qed.

(** ** The properties *)

(** C11 - The access check decides exactly the declarative contract: an unknown
    token is [STATUS_INVALID_HANDLE]; otherwise access is granted iff the
    integrity level suffices or the token holds [SeTcbPrivilege], an
    identification token asks for no modifying right, and either no right is
    requested, or the object has a DACL and every requested right (but, there, the
    owner's implicit [READ_CONTROL] and [WRITE_DAC]) is allowed by some entry and
    denied by none, for the token's own SIDs and again for its restricted SIDs.
    Everything else is [STATUS_ACCESS_DENIED]: without a DACL every request for a
    right, the owner's implicit rights included. *)
Theorem check_access_decides token d desired m :
  u32 desired →
  match sm_tokens m !! token with
  | None => check_access token d desired m = Err STATUS_INVALID_HANDLE
  | Some t =>
      (check_access token d desired m = Ok tt ∧ allowed t d desired) ∨
      (check_access token d desired m = Err STATUS_ACCESS_DENIED ∧ ¬ allowed t d desired)
  end.
Proof.
  intros Hd. destruct (sm_tokens m !! token) as [t|] eqn:Ht.
  - destruct (check_access_allowed token d desired m t Hd Ht) as [Hok [E|E]]; [left|right].
    + split; [done|]. by apply Hok.
    + split; [done|]. rewrite <-Hok. by rewrite E.
  - unfold check_access, query_token. by rewrite Ht.
Qed.

(** A token restricted to [S-1-5-11], in a group the DACL lets write. *)
Definition sid (a : Z) (l : list Z) : Sid := {| sid_authority := a; sid_subauthorities := l |}.
Definition demo_monitor : SecurityMonitor :=
  state_of ((create_restricted_token (sid 5 [100]) [sid 5 [32; 545]] [sid 5 [11]]) new_monitor)
    new_monitor.
Definition demo_dacl : Acl :=
  push_allow (sid 5 [11]) 0x1 (push_allow (sid 5 [32; 545]) 0x3 acl_new).
Definition demo_descriptor : SecurityDescriptor := with_dacl (sid 5 [18]) demo_dacl.

Example restricted_token_reads : check_access 1 demo_descriptor 0x1 demo_monitor = Ok tt.
Proof. by vm_compute. Qed.

Lemma check_access_decides_witness :
  ∃ t, sm_tokens demo_monitor !! 1 = Some t ∧ ¬ allowed t demo_descriptor 0x2.
Proof.
  destruct (sm_tokens demo_monitor !! 1) as [t|] eqn:Ht; [|by vm_compute in Ht].
  exists t. split; [done|].
  assert (u32 0x2) as Hd by (unfold u32, u32_max; lia).
  pose proof (check_access_decides 1 demo_descriptor 0x2 demo_monitor Hd) as H.
  rewrite Ht in H. destruct H as [[E _]|[_ H]]; [|exact H]. by vm_compute in E.
Defined.

(** The verdict does not depend on the order of the DACL's entries, a right
    denied by any entry for one of the token's SIDs is never granted, wherever the
    entry stands and whatever the others allow, and every subset of a granted set
    of rights is granted. *)
Theorem access_order_deny_subset token t d dacl desired m :
  u32 desired → sm_tokens m !! token = Some t →
  (∀ dacl', dacl ≡ₚ dacl' →
     check_access token (set_dacl dacl' d) desired m = check_access token (set_dacl dacl d) desired m) ∧
  (∀ a i, a ∈ dacl → ace_allow a = false → own_sids t (ace_sid a) → 0 ≤ i →
     required_rights t d desired i → Z.testbit (ace_mask a) i = true →
     check_access token (set_dacl dacl d) desired m = Err STATUS_ACCESS_DENIED) ∧
  (∀ sub, 0 ≤ sub → bits_within sub desired →
     check_access token (set_dacl dacl d) desired m = Ok tt →
     check_access token (set_dacl dacl d) sub m = Ok tt).
Proof.
  intros Hd Ht. pose proof (λ d, check_access_allowed token d desired m t Hd Ht) as Hca.
  split_and!.
  - intros dacl' Hl. destruct (Hca (set_dacl dacl d)) as [H1 H1'], (Hca (set_dacl dacl' d)) as [H2 H2'].
    destruct H1' as [E1|E1], H2' as [E2|E2]; rewrite E1, E2; try done; exfalso.
    + apply H1 in E1. rewrite (proj2 H2) in E2; [done|]. by eapply allowed_perm.
    + apply H2 in E2. rewrite (proj2 H1) in E1; [done|]. by eapply allowed_perm.
  - intros a i Ha Hk Hs Hi HR Hb. destruct (Hca (set_dacl dacl d)) as [H1 [E|E]]; [|done].
    exfalso. apply H1 in E as [_ _ Hdacl]. destruct Hdacl as (? & [= <-] & Hn & _).
    { intros ->. destruct HR as [HR _]. by rewrite Z.testbit_0_l in HR. }
    destruct (Hn i Hi HR) as [_ Hno]. apply Hno. by exists a.
  - intros sub Hpos Hsub E. apply Hca in E.
    assert (u32 sub) as Hs.
    { assert (0 ≤ Z.land sub desired < 2 ^ 32) as H.
      { apply land_bounded; [lia|]. unfold u32, u32_max in Hd. lia. }
      rewrite Hsub in H. unfold u32, u32_max. lia. }
    apply (check_access_allowed token _ sub m t Hs Ht). by eapply allowed_sub.
Qed.

Lemma access_order_deny_subset_witness :
  check_access 1 (set_dacl (rev demo_dacl) demo_descriptor) 0x1 demo_monitor = Ok tt ∧
  check_access 1 (set_dacl (push_deny (sid 5 [32; 545]) 0x1 demo_dacl) demo_descriptor) 0x1
    demo_monitor = Err STATUS_ACCESS_DENIED.
Proof.
  destruct (sm_tokens demo_monitor !! 1) as [t|] eqn:Ht; [|by vm_compute in Ht].
  assert (u32 0x1) as Hd by (unfold u32, u32_max; lia).
  split.
  - destruct (access_order_deny_subset 1 t demo_descriptor demo_dacl 0x1 demo_monitor Hd Ht) as [H _].
    rewrite H; [by vm_compute|]. apply Permutation_rev.
  - destruct (access_order_deny_subset 1 t demo_descriptor
      (push_deny (sid 5 [32; 545]) 0x1 demo_dacl) 0x1 demo_monitor Hd Ht) as (_ & H & _).
    vm_compute in Ht. injection Ht as <-.
    apply (H {| ace_allow := false; ace_sid := sid 5 [32; 545]; ace_mask := 0x1 |} 0);
      [|done|right; by apply (bool_decide_unpack _); vm_compute|done|by split|done].
    do 2 right. by left.
Defined.

(** In every reachable monitor at most 64 tokens exist, each under its own
    identifier, and a deleted identifier stays dead forever: whatever is done
    later, also while it is still on the impersonation stack, it can be neither
    queried nor impersonated and every access check for it fails closed. *)
Theorem deleted_token_fails_closed m token r m1 m2 :
  rtc sstep new_monitor m → delete_token token m = Done (Ok r) m1 → rtc sstep m1 m2 →
  token_count m2 ≤ MAX_TOKENS ∧
  (∀ k t, sm_tokens m2 !! k = Some t → tk_id t = k ∧ k ≠ token) ∧
  query_token token m2 = Err STATUS_INVALID_HANDLE ∧
  (∀ d desired, check_access token d desired m2 = Err STATUS_INVALID_HANDLE) ∧
  impersonate token m2 = Done (Err STATUS_INVALID_HANDLE) m2 ∧
  elevate token m2 = Done (Err STATUS_INVALID_HANDLE) m2.
Proof.
  intros Hm Hdel Hs. apply steps_keep in Hm as [Hm _]; [|apply sinv_new].
  assert (gone token m1) as Hg.
  { unfold delete_token in Hdel. mrun. destruct (sm_tokens m !! token) as [t|] eqn:Ht; [|done].
    simplify_eq. split; [by apply (si_ids _ Hm) in Ht as (_ & _ & ?)|]. apply lookup_delete_eq. }
  apply sstep_delete, (sstep_keeps _ _ Hm) in Hdel as [Hm1 _].
  destruct (steps_keep _ _ Hm1 Hs) as [Hm2 Hk]. apply Hk in Hg as Hg2.
  pose proof (query_gone _ _ Hg2) as Hq. destruct Hg2 as [_ Hnone].
  split_and!.
  - apply (si_limit _ Hm2).
  - intros k t Ht. split; [by apply (si_ids _ Hm2)|]. intros ->. congruence.
  - done.
  - intros d desired. unfold check_access. by rewrite Hq.
  - unfold impersonate. mrun. rewrite Hnone. done.
  - unfold elevate. mrun. by rewrite Hq.
Qed.

(** The token is deleted while it is being impersonated. *)
Lemma deleted_token_fails_closed_witness :
  let m := state_of (impersonate 1 demo_monitor) demo_monitor in
  let m1 := state_of (delete_token 1 m) m in
  current_token m1 = Some 1 ∧ query_token 1 m1 = Err STATUS_INVALID_HANDLE.
Proof.
  intros m m1. split; [by vm_compute|].
  apply (deleted_token_fails_closed m 1 tt m1 m1); [| |done].
  - eapply rtc_l; [|eapply rtc_l; [|done]].
    + by apply (sstep_restricted _ (sid 5 [100]) [sid 5 [32; 545]] [sid 5 [11]] (Ok 1) demo_monitor),
        run_eq.
    + by apply (sstep_impersonate _ 1 (Ok tt)), run_eq.
  - by apply run_eq.
Defined.

End Sec.
