(* ===== verification/Process.v ===== *)
(** * The process and thread executive ([src/casak/process.rs])

    Process and thread records, the per-process handle table with access masks,
    and the linkage to a thread scheduler.  The scheduler is the trait
    [ThreadScheduler] of the source: a type class here, so that an operation that
    talks to it runs on the pair of the manager and the scheduler's own state, and
    every theorem holds of every scheduler. *)

From S2P Require Import Prelude Status Object.

(** ** Records *)

Inductive ProcessState : Type := PsActive | PsTerminated.
Inductive ThreadState : Type := TsInitialized | TsReady | TsRunning | TsTerminated.

#[export] Instance ProcessState_eq_dec : EqDecision ProcessState.
Proof. solve_decision. Defined.
#[export] Instance ThreadState_eq_dec : EqDecision ThreadState.
Proof. solve_decision. Defined.

Record ProcessRecord := {
  pr_id : Z;
  pr_parent : option Z;
  pr_image_name : str;
  pr_image_section : option Z;
  pr_token : option Z;
  pr_state : ProcessState;
  pr_exit_status : Z;
  pr_threads : gset Z;
  pr_children : gset Z;
}.

Record ThreadRecord := {
  th_id : Z;
  th_process : Z;
  th_start_routine : Z;
  th_state : ThreadState;
}.

Definition is_live (t : ThreadRecord) : bool := negb (bool_decide (th_state t = TsTerminated)).

Inductive HandleTarget : Type := TargetProcess (p : Z) | TargetThread (t : Z).

Record ProcessHandleEntry := {
  ph_owner : Z;
  ph_target : HandleTarget;
  ph_access : Z;
  ph_inheritable : bool;
}.

Definition PROCESS_ALL_ACCESS : Z :=
  Z.lor (Z.lor (Z.lor (Z.lor (Z.lor PROCESS_TERMINATE PROCESS_QUERY_INFORMATION) SYNCHRONIZE)
    READ_CONTROL) DELETE) WRITE_DAC.
Definition THREAD_ALL_ACCESS : Z :=
  Z.lor (Z.lor (Z.lor (Z.lor (Z.lor THREAD_TERMINATE THREAD_QUERY_INFORMATION) SYNCHRONIZE)
    READ_CONTROL) DELETE) WRITE_DAC.

Record ProcessManager := {
  pm_processes : gmap Z ProcessRecord;
  pm_threads : gmap Z ThreadRecord;
  pm_handles : gmap Z ProcessHandleEntry;
  pm_next_process : Z;
  pm_next_thread : Z;
  pm_next_handle : Z;
}.

Definition new_processes : ProcessManager :=
  {| pm_processes := ∅; pm_threads := ∅; pm_handles := ∅;
     pm_next_process := 4; pm_next_thread := 4; pm_next_handle := 4 |}.

(** ** Field updates *)

Definition with_processes (f : gmap Z ProcessRecord → gmap Z ProcessRecord) (next : Z)
    (m : ProcessManager) : ProcessManager :=
  {| pm_processes := f (pm_processes m); pm_threads := pm_threads m; pm_handles := pm_handles m;
     pm_next_process := next; pm_next_thread := pm_next_thread m;
     pm_next_handle := pm_next_handle m |}.
Definition with_threads (f : gmap Z ThreadRecord → gmap Z ThreadRecord) (next : Z)
    (m : ProcessManager) : ProcessManager :=
  {| pm_processes := pm_processes m; pm_threads := f (pm_threads m); pm_handles := pm_handles m;
     pm_next_process := pm_next_process m; pm_next_thread := next;
     pm_next_handle := pm_next_handle m |}.
Definition with_handles (f : gmap Z ProcessHandleEntry → gmap Z ProcessHandleEntry) (next : Z)
    (m : ProcessManager) : ProcessManager :=
  {| pm_processes := pm_processes m; pm_threads := pm_threads m; pm_handles := f (pm_handles m);
     pm_next_process := pm_next_process m; pm_next_thread := pm_next_thread m;
     pm_next_handle := next |}.

Definition update_process (f : ProcessRecord → ProcessRecord) (p : Z) (m : ProcessManager)
    : ProcessManager := with_processes (alter f p) (pm_next_process m) m.
Definition update_thread (f : ThreadRecord → ThreadRecord) (t : Z) (m : ProcessManager)
    : ProcessManager := with_threads (alter f t) (pm_next_thread m) m.

Definition set_members (threads children : gset Z) (r : ProcessRecord) : ProcessRecord :=
  {| pr_id := pr_id r; pr_parent := pr_parent r; pr_image_name := pr_image_name r;
     pr_image_section := pr_image_section r; pr_token := pr_token r; pr_state := pr_state r;
     pr_exit_status := pr_exit_status r; pr_threads := threads; pr_children := children |}.
Definition add_child (c : Z) (r : ProcessRecord) : ProcessRecord :=
  set_members (pr_threads r) ({[c]} ∪ pr_children r) r.
Definition remove_child (c : Z) (r : ProcessRecord) : ProcessRecord :=
  set_members (pr_threads r) (pr_children r ∖ {[c]}) r.
Definition add_thread (t : Z) (r : ProcessRecord) : ProcessRecord :=
  set_members ({[t]} ∪ pr_threads r) (pr_children r) r.
Definition remove_thread (t : Z) (r : ProcessRecord) : ProcessRecord :=
  set_members (pr_threads r ∖ {[t]}) (pr_children r) r.
Definition set_terminated (r : ProcessRecord) : ProcessRecord :=
  {| pr_id := pr_id r; pr_parent := pr_parent r; pr_image_name := pr_image_name r;
     pr_image_section := pr_image_section r; pr_token := pr_token r; pr_state := PsTerminated;
     pr_exit_status := STATUS_PROCESS_IS_TERMINATING; pr_threads := ∅;
     pr_children := pr_children r |}.
Definition bind_section (section : option Z) (r : ProcessRecord) : ProcessRecord :=
  {| pr_id := pr_id r; pr_parent := pr_parent r; pr_image_name := pr_image_name r;
     pr_image_section := section; pr_token := pr_token r; pr_state := pr_state r;
     pr_exit_status := pr_exit_status r; pr_threads := pr_threads r;
     pr_children := pr_children r |}.
Definition bind_token (token : option Z) (r : ProcessRecord) : ProcessRecord :=
  {| pr_id := pr_id r; pr_parent := pr_parent r; pr_image_name := pr_image_name r;
     pr_image_section := pr_image_section r; pr_token := token; pr_state := pr_state r;
     pr_exit_status := pr_exit_status r; pr_threads := pr_threads r;
     pr_children := pr_children r |}.
Definition set_state (st : ThreadState) (t : ThreadRecord) : ThreadRecord :=
  {| th_id := th_id t; th_process := th_process t; th_start_routine := th_start_routine t;
     th_state := st |}.

Definition fresh_process (id : Z) (parent : option Z) (image_name : str) (section : option Z)
    : ProcessRecord :=
  {| pr_id := id; pr_parent := parent; pr_image_name := image_name; pr_image_section := section;
     pr_token := None; pr_state := PsActive; pr_exit_status := 0; pr_threads := ∅;
     pr_children := ∅ |}.

(** ** Queries *)

Definition query_process (process : Z) (m : ProcessManager) : result ProcessRecord :=
  match pm_processes m !! process with Some r => Ok r | None => Err STATUS_INVALID_HANDLE end.
Definition query_thread (thread : Z) (m : ProcessManager) : result ThreadRecord :=
  match pm_threads m !! thread with Some r => Ok r | None => Err STATUS_INVALID_HANDLE end.
Definition children (process : Z) (m : ProcessManager) : result (list Z) :=
  match query_process process m with Ok r => Ok (bt_elems (pr_children r)) | Err e => Err e end.
Definition process_threads (process : Z) (m : ProcessManager) : result (list Z) :=
  match query_process process m with Ok r => Ok (bt_elems (pr_threads r)) | Err e => Err e end.
Definition process_count (m : ProcessManager) : Z := Z.of_nat (size (pm_processes m)).
Definition thread_count (m : ProcessManager) : Z := Z.of_nat (size (pm_threads m)).
Definition handle_count (owner : Z) (m : ProcessManager) : Z :=
  Z.of_nat (length (filter (λ e, ph_owner e = owner) (bt_values (pm_handles m)))).

(** [if record.state == ProcessState::Terminated { return Err(..) }] of a record
    that was looked up, the test every entry point starts with. *)
Definition active_process (process : Z) : M ProcessManager ProcessRecord :=
  record <- query (query_process process) ;;
  fail_if (bool_decide (pr_state record = PsTerminated)) STATUS_PROCESS_IS_TERMINATING ;;;
  ret record.

Definition require_owner (owner : Z) : M ProcessManager unit :=
  _ <- active_process owner ;;
  ret tt.

(** ** Processes *)

Definition link_child (parent : option Z) (id : Z) : M ProcessManager unit :=
  match parent with
  | Some parent_id => modify (update_process (add_child id) parent_id)
  | None => ret tt
  end.

Definition create_process (parent : option Z) (image_name : str) (image_section : option Z)
    : M ProcessManager Z :=
  fail_if (str_is_empty (trim image_name) || str_contains NUL image_name)
    STATUS_INVALID_PARAMETER ;;;
  match parent with
  | Some parent_id => _ <- active_process parent_id ;; ret tt
  | None => ret tt
  end ;;;
  id <- gets pm_next_process ;;
  next <- add_at u32_max id 4 ;;
  modify (with_processes (insert id (fresh_process id parent image_name image_section)) next) ;;;
  link_child parent id ;;;
  ret id.

Definition ensure_process (id : Z) (image_name : str) (parent : option Z)
    : M ProcessManager unit :=
  fail_if ((id =? 0) || str_is_empty (trim image_name)) STATUS_INVALID_PARAMETER ;;;
  known <- gets (λ m, bool_decide (is_Some (pm_processes m !! id))) ;;
  if known : bool then ret tt
  else
    match parent with
    | Some parent_id => _ <- query (query_process parent_id) ;; ret tt
    | None => ret tt
    end ;;;
    after <- add_at u32_max id 4 ;;
    next <- gets pm_next_process ;;
    modify (with_processes (insert id (fresh_process id parent image_name None))
              (Z.max next after)) ;;;
    link_child parent id.

Definition set_image_section (process : Z) (section : option Z) : M ProcessManager unit :=
  _ <- active_process process ;;
  modify (update_process (bind_section section) process).

Definition set_token (process : Z) (token : option Z) : M ProcessManager unit :=
  _ <- active_process process ;;
  modify (update_process (bind_token token) process).

(** ** Threads *)

(** The trait of the source: the dispatcher a thread is attached to. *)
Class ThreadScheduler (S : Type) : Type := {
  attach_thread : Z → Z → Z → Z → Z → Z → M S unit;
  detach_thread : Z → Z → M S unit;
}.

Section threads.
Context {S : Type} `{!ThreadScheduler S}.

(** An operation of the manager and one of the scheduler, on the pair. *)
Definition manager {A} (c : M ProcessManager A) : M (ProcessManager * S) A :=
  zoom fst (λ m t, (m, t.2)) c.
Definition scheduler {A} (c : M S A) : M (ProcessManager * S) A :=
  zoom snd (λ s t, (t.1, s)) c.

Definition create_thread_ex (process start_routine context stack_base stack_size : Z)
    : M (ProcessManager * S) Z :=
  _ <- manager (active_process process) ;;
  fail_if (start_routine =? 0) STATUS_INVALID_PARAMETER ;;;
  id <- gets (λ t, pm_next_thread t.1) ;;
  next <- add_at u32_max id 4 ;;
  manager (modify (with_threads (λ ts, ts) next)) ;;;
  scheduler (attach_thread process id start_routine context stack_base stack_size) ;;;
  manager (modify (with_threads (insert id
    {| th_id := id; th_process := process; th_start_routine := start_routine;
       th_state := TsReady |}) next)) ;;;
  manager (modify (update_process (add_thread id) process)) ;;;
  ret id.

Definition create_thread (process start_routine : Z) : M (ProcessManager * S) Z :=
  create_thread_ex process start_routine 0 0 0.

Definition ensure_thread (process id start_routine : Z) : M ProcessManager unit :=
  fail_if (id =? 0) STATUS_INVALID_PARAMETER ;;;
  _ <- active_process process ;;
  known <- gets (λ m, bool_decide (is_Some (pm_threads m !! id))) ;;
  if known : bool then ret tt
  else
    after <- add_at u32_max id 4 ;;
    next <- gets pm_next_thread ;;
    modify (with_threads (insert id
      {| th_id := id; th_process := process; th_start_routine := start_routine;
         th_state := TsRunning |}) (Z.max next after)) ;;;
    modify (update_process (add_thread id) process).

Definition start_thread (thread : Z) : M ProcessManager unit :=
  record <- query (query_thread thread) ;;
  match th_state record with
  | TsReady | TsInitialized => modify (update_thread (set_state TsRunning) thread)
  | TsRunning => throw STATUS_INVALID_DEVICE_STATE
  | TsTerminated => throw STATUS_THREAD_IS_TERMINATING
  end.

Definition terminate_thread (thread : Z) : M (ProcessManager * S) unit :=
  record <- manager (query (query_thread thread)) ;;
  fail_if (bool_decide (th_state record = TsTerminated)) STATUS_THREAD_IS_TERMINATING ;;;
  scheduler (detach_thread (th_process record) thread) ;;;
  manager (modify (update_thread (set_state TsTerminated) thread)) ;;;
  manager (modify (update_process (remove_thread thread) (th_process record))).

(** One turn of the loop of [terminate_process]. *)
Definition stop_thread (process thread : Z) : M (ProcessManager * S) unit :=
  scheduler (detach_thread process thread) ;;;
  manager (modify (update_thread (set_state TsTerminated) thread)).

Definition terminate_process (process : Z) : M (ProcessManager * S) Z :=
  record <- manager (active_process process) ;;
  for_each (bt_elems (pr_threads record)) (stop_thread process) ;;;
  manager (modify (update_process set_terminated process)) ;;;
  match pr_parent record with
  | Some parent_id => manager (modify (update_process (remove_child process) parent_id))
  | None => ret tt
  end ;;;
  ret (Z.of_nat (size (pr_threads record))).
End threads.

(** ** Handles *)

(** [Handle::is_null] is [handle == 0]. *)
Definition lookup_handle (owner handle : Z) (m : ProcessManager) : result ProcessHandleEntry :=
  if handle =? 0 then Err STATUS_INVALID_HANDLE
  else match pm_handles m !! handle with
       | Some e => if ph_owner e =? owner then Ok e else Err STATUS_INVALID_HANDLE
       | None => Err STATUS_INVALID_HANDLE
       end.

Definition handle_entry (owner handle : Z) (m : ProcessManager) : result (Z * bool) :=
  match lookup_handle owner handle m with
  | Ok e => Ok (ph_access e, ph_inheritable e)
  | Err e => Err e
  end.

Definition insert_handle (owner : Z) (target : HandleTarget) (access : Z) (inheritable : bool)
    : M ProcessManager Z :=
  handle <- gets pm_next_handle ;;
  modify (with_handles (insert handle
    {| ph_owner := owner; ph_target := target; ph_access := access;
       ph_inheritable := inheritable |}) (saturating_add u32_max handle 4)) ;;;
  ret handle.

Definition open_process (owner target access : Z) (inheritable : bool) : M ProcessManager Z :=
  require_owner owner ;;;
  _ <- active_process target ;;
  fail_if ((access =? 0) || negb (Z.land access (not_u32 PROCESS_ALL_ACCESS) =? 0))
    STATUS_ACCESS_DENIED ;;;
  insert_handle owner (TargetProcess target) access inheritable.

Definition open_thread (owner target access : Z) (inheritable : bool) : M ProcessManager Z :=
  require_owner owner ;;;
  record <- query (query_thread target) ;;
  fail_if (bool_decide (th_state record = TsTerminated)) STATUS_THREAD_IS_TERMINATING ;;;
  fail_if ((access =? 0) || negb (Z.land access (not_u32 THREAD_ALL_ACCESS) =? 0))
    STATUS_ACCESS_DENIED ;;;
  insert_handle owner (TargetThread target) access inheritable.

Definition duplicate_handle (owner source access : Z) (inheritable : bool) : M ProcessManager Z :=
  entry <- query (lookup_handle owner source) ;;
  let effective := if access =? 0 then ph_access entry else access in
  fail_if (negb (Z.land effective (not_u32 (ph_access entry)) =? 0)) STATUS_ACCESS_DENIED ;;;
  insert_handle owner (ph_target entry) effective inheritable.

(** The handles [inherit_handles] copies: target and access, in handle order. *)
Definition inheritable_entries (parent : Z) (m : ProcessManager) : list (HandleTarget * Z) :=
  (λ e, (ph_target e, ph_access e)) <$>
    filter (λ e, ph_owner e = parent ∧ ph_inheritable e = true) (bt_values (pm_handles m)).

Definition inherit_handles (parent child : Z) : M ProcessManager (list Z) :=
  require_owner parent ;;;
  require_owner child ;;;
  inheritable <- gets (inheritable_entries parent) ;;
  map_each inheritable (λ e, insert_handle child e.1 e.2 true).

Definition close_handle (owner handle : Z) : M ProcessManager unit :=
  _ <- query (lookup_handle owner handle) ;;
  m <- gets pm_next_handle ;;
  modify (with_handles (delete handle) m).

Definition close_process_handles (owner : Z) (m : ProcessManager) : Z * ProcessManager :=
  let handles := (filter (λ e, ph_owner e.2 = owner) (bt_entries (pm_handles m))).*1 in
  (Z.of_nat (length handles),
   with_handles (λ hs, foldl (λ hs h, delete h hs) hs handles) (pm_next_handle m) m).

(** [require_process_access] and [require_thread_access] *)
Definition require_process_access (owner handle desired : Z) (m : ProcessManager) : result Z :=
  match lookup_handle owner handle m with
  | Err e => Err e
  | Ok entry =>
      match ph_target entry with
      | TargetThread _ => Err STATUS_OBJECT_TYPE_MISMATCH
      | TargetProcess target =>
          if negb (desired =? 0) && negb (Z.land desired (not_u32 (ph_access entry)) =? 0)
          then Err STATUS_ACCESS_DENIED else Ok target
      end
  end.

Definition require_thread_access (owner handle desired : Z) (m : ProcessManager) : result Z :=
  match lookup_handle owner handle m with
  | Err e => Err e
  | Ok entry =>
      match ph_target entry with
      | TargetProcess _ => Err STATUS_OBJECT_TYPE_MISMATCH
      | TargetThread target =>
          if negb (desired =? 0) && negb (Z.land desired (not_u32 (ph_access entry)) =? 0)
          then Err STATUS_ACCESS_DENIED else Ok target
      end
  end.
