(* ===== verification/ProcessFacts.v ===== *)
(** * Correctness of the process and thread executive

    The genealogy, the thread membership and the handle table stay consistent
    under every interleaving of the operations and with every scheduler;
    termination stops every thread; handles never gain rights. *)

From S2P Require Import Prelude Status Object Process.

Module Ps.

(** ** The invariant, table by table *)

Definition below {V} (m : gmap Z V) (next : Z) : Prop := ∀ k, is_Some (m !! k) → 0 < k < next.

(** Parents exist and precede their children; a process's child set holds exactly
    its active children. *)
Record Genealogy (ps : gmap Z ProcessRecord) : Prop := {
  ge_id : ∀ p r, ps !! p = Some r → pr_id r = p;
  ge_parent : ∀ p r q, ps !! p = Some r → pr_parent r = Some q → is_Some (ps !! q);
  ge_children : ∀ p r c, ps !! p = Some r →
    (c ∈ pr_children r ↔
     ∃ rc, ps !! c = Some rc ∧ pr_parent rc = Some p ∧ pr_state rc = PsActive);
  ge_acyclic : ∃ rank : Z → nat, ∀ p r q,
    ps !! p = Some r → pr_parent r = Some q → (rank q < rank p)%nat;
}.

(** Every live thread belongs to exactly one process, which is active and lists
    it; a terminated process lists none. *)
Record Membership (ps : gmap Z ProcessRecord) (ts : gmap Z ThreadRecord) : Prop := {
  me_id : ∀ t tr, ts !! t = Some tr → th_id tr = t ∧ is_Some (ps !! th_process tr);
  me_listed : ∀ p r t, ps !! p = Some r → t ∈ pr_threads r →
    ∃ tr, ts !! t = Some tr ∧ th_process tr = p;
  me_live : ∀ t tr, ts !! t = Some tr → is_live tr = true →
    ∃ r, ps !! th_process tr = Some r ∧ pr_state r = PsActive ∧ t ∈ pr_threads r;
  me_dead : ∀ p r, ps !! p = Some r → pr_state r = PsTerminated → pr_threads r = ∅;
}.

(** The rights a handle may carry, by its target. *)
Definition target_rights (ps : gmap Z ProcessRecord) (ts : gmap Z ThreadRecord)
    (g : HandleTarget) (access : Z) : Prop :=
  match g with
  | TargetProcess p => is_Some (ps !! p) ∧ bits_within access PROCESS_ALL_ACCESS
  | TargetThread t => is_Some (ts !! t) ∧ bits_within access THREAD_ALL_ACCESS
  end.

Definition entry_ok (ps : gmap Z ProcessRecord) (ts : gmap Z ThreadRecord)
    (e : ProcessHandleEntry) : Prop :=
  is_Some (ps !! ph_owner e) ∧ ph_access e ≠ 0 ∧ u32 (ph_access e) ∧
  target_rights ps ts (ph_target e) (ph_access e).

(** Handle values are below the next one until the counter saturates. *)
Definition handle_ok (next h : Z) : Prop := 0 < h ≤ u32_max ∧ (next < u32_max → h < next).

Record PInv (m : ProcessManager) : Prop := {
  pi_next_process : 4 ≤ pm_next_process m;
  pi_next_thread : 4 ≤ pm_next_thread m;
  pi_next_handle : 4 ≤ pm_next_handle m ≤ u32_max;
  pi_processes : below (pm_processes m) (pm_next_process m);
  pi_threads : below (pm_threads m) (pm_next_thread m);
  pi_genealogy : Genealogy (pm_processes m);
  pi_membership : Membership (pm_processes m) (pm_threads m);
  pi_handles : ∀ h e, pm_handles m !! h = Some e →
    handle_ok (pm_next_handle m) h ∧ entry_ok (pm_processes m) (pm_threads m) e;
}.

(** ** Framing: what each table sees of the others *)

Definition family (r : ProcessRecord) := (pr_id r, pr_parent r, pr_state r, pr_children r).
Definition roster (r : ProcessRecord) := (pr_state r, pr_threads r).

(** Updates that are invisible through a view. *)
Lemma lookup_alter_view {V W} (view : V → W) (f : V → V) (m : gmap Z V) k j :
  (∀ v, view (f v) = view v) → view <$> alter f k m !! j = view <$> m !! j.
Proof.
  intros Hf. destruct (decide (k = j)) as [->|Hne].
  - rewrite lookup_alter_eq. destruct (m !! j); simpl; [by rewrite Hf|done].
  - by rewrite lookup_alter_ne.
Qed.

Lemma alter_is_Some {V} (f : V → V) (m : gmap Z V) k j :
  is_Some (alter f k m !! j) ↔ is_Some (m !! j).
Proof.
  rewrite <-!not_eq_None_Some. by rewrite lookup_alter_None.
Qed.

Lemma view_Some {V W} (view : V → W) (o o' : option V) v :
  view <$> o = view <$> o' → o = Some v → ∃ v', o' = Some v' ∧ view v' = view v.
Proof. intros H ->. destruct o' as [v'|]; simplify_eq/=. eauto. Qed.

Lemma view_is_Some {V W} (view : V → W) (o o' : option V) :
  view <$> o = view <$> o' → is_Some o → is_Some o'.
Proof. intros H [v Hv]. destruct (view_Some view _ _ _ H Hv) as (v' & -> & _). eauto. Qed.

Lemma genealogy_ext ps ps' :
  (∀ p, family <$> ps' !! p = family <$> ps !! p) → Genealogy ps → Genealogy ps'.
Proof.
  intros Hv [Hid Hpar Hch [rank Hr]].
  assert (∀ p r, ps' !! p = Some r → ∃ r0, ps !! p = Some r0 ∧ family r0 = family r) as Hold
    by (intros p r; by apply view_Some).
  assert (∀ p r, ps !! p = Some r → ∃ r0, ps' !! p = Some r0 ∧ family r0 = family r) as Hnew.
  { intros p r. apply view_Some. by rewrite Hv. }
  unfold family in *. constructor.
  - intros p r (r0 & H0 & [= <- _ _ _])%Hold. by apply Hid.
  - intros p r q (r0 & H0 & [= _ <- _ _])%Hold Hq.
    apply (view_is_Some family (ps !! q)); [by rewrite Hv|]. by eapply Hpar.
  - intros p r c (r0 & H0 & [= _ _ _ <-])%Hold. rewrite (Hch _ _ c H0). split.
    + intros (rc & (rc' & Hc' & [= _ <- <- _])%Hnew & ? & ?). eauto.
    + intros (rc & (rc' & Hc' & [= _ <- <- _])%Hold & ? & ?). eauto.
  - exists rank. intros p r q (r0 & H0 & [= _ <- _ _])%Hold Hq. by eapply Hr.
Qed.

(** [membership] with the views of both tables unchanged. *)
Lemma membership_ext ps ps' ts ts' :
  (∀ p, roster <$> ps' !! p = roster <$> ps !! p) →
  (∀ t, (λ r, (th_id r, th_process r, is_live r)) <$> ts' !! t =
        (λ r, (th_id r, th_process r, is_live r)) <$> ts !! t) →
  Membership ps ts → Membership ps' ts'.
Proof.
  intros Hv Ht [Hid Hli Hlv Hdd].
  assert (∀ p r, ps' !! p = Some r → ∃ r0, ps !! p = Some r0 ∧ roster r0 = roster r) as Hold
    by (intros p r; by apply view_Some).
  assert (∀ p r, ps !! p = Some r → ∃ r0, ps' !! p = Some r0 ∧ roster r0 = roster r) as Hnew.
  { intros p r. apply view_Some. by rewrite Hv. }
  assert (∀ t r, ts' !! t = Some r → ∃ r0, ts !! t = Some r0 ∧
    (th_id r0, th_process r0, is_live r0) = (th_id r, th_process r, is_live r)) as Told.
  { intros t r. by apply (view_Some (λ r, (th_id r, th_process r, is_live r))). }
  assert (∀ t r, ts !! t = Some r → ∃ r0, ts' !! t = Some r0 ∧
    (th_id r0, th_process r0, is_live r0) = (th_id r, th_process r, is_live r)) as Tnew.
  { intros t r. apply (view_Some (λ r, (th_id r, th_process r, is_live r))). by rewrite Ht. }
  unfold roster in *. constructor.
  - intros t tr (r0 & H0 & [= <- <- _])%Told. destruct (Hid _ _ H0) as [? Hp]. split; [done|].
    eapply (view_is_Some roster); [|exact Hp]. by rewrite Hv.
  - intros p r t (r0 & H0 & [= _ <-])%Hold Hin.
    destruct (Hli _ _ _ H0 Hin) as (tr & (tr' & H' & [= _ <- _])%Tnew & Hp). eauto.
  - intros t tr (r0 & H0 & [= _ <- <-])%Told Hl.
    destruct (Hlv _ _ H0 Hl) as (r & (r' & H' & [= <- <-])%Hnew & ? & ?). eauto.
  - intros p r (r0 & H0 & [= <- <-])%Hold Hst. by eapply Hdd.
Qed.

Lemma entry_ok_mono ps ps' ts ts' e :
  (∀ p, is_Some (ps !! p) → is_Some (ps' !! p)) → (∀ t, is_Some (ts !! t) → is_Some (ts' !! t)) →
  entry_ok ps ts e → entry_ok ps' ts' e.
Proof.
  intros Hp Ht (Ho & Hn & Hu & Hg). split_and!; [auto|done|done|].
  destruct (ph_target e); simpl in *; naive_solver.
Qed.


(** ** Processes come and go *)

Definition link (parent : option Z) (id : Z) (ps : gmap Z ProcessRecord) : gmap Z ProcessRecord :=
  match parent with Some q => alter (add_child id) q ps | None => ps end.

Lemma lookup_link_family parent id ps p :
  (λ r, (pr_id r, pr_parent r, pr_state r, pr_token r)) <$> link parent id ps !! p =
  (λ r, (pr_id r, pr_parent r, pr_state r, pr_token r)) <$> ps !! p.
Proof. destruct parent; [|done]. simpl. by apply lookup_alter_view. Qed.

Lemma lookup_spawn parent id r ps p :
  ps !! id = None → (∀ q, parent = Some q → is_Some (ps !! q)) →
  link parent id (<[id := r]> ps) !! p =
  if decide (p = id) then Some r
  else if decide (parent = Some p) then add_child id <$> ps !! p else ps !! p.
Proof.
  intros Hid Hpar. assert (parent ≠ Some id) as Hne.
  { intros ->. destruct (Hpar id) as [? Hsome]; [done|]. congruence. }
  destruct parent as [q|]; simpl.
  - case_decide as Hp.
    + subst. rewrite lookup_alter_ne by congruence. apply lookup_insert_eq.
    + case_decide as Hq; simplify_eq.
      * rewrite lookup_alter_eq, lookup_insert_ne by congruence. done.
      * by rewrite lookup_alter_ne, lookup_insert_ne by congruence.
  - case_decide; subst; [apply lookup_insert_eq|]. by rewrite lookup_insert_ne.
Qed.

Lemma genealogy_spawn ps id parent name section :
  ps !! id = None → (∀ q, parent = Some q → is_Some (ps !! q)) → Genealogy ps →
  Genealogy (link parent id (<[id := fresh_process id parent name section]> ps)).
Proof.
  intros Hnew Hpar [Hid Hgp Hch [rank Hr]].
  set (r0 := fresh_process id parent name section).
  pose proof (λ p, lookup_spawn parent id r0 ps p Hnew Hpar) as Hl.
  (* a record of the new table is the fresh one or an old one with the new child *)
  assert (∀ p r, link parent id (<[id := r0]> ps) !! p = Some r →
    (p = id ∧ r = r0) ∨ (p ≠ id ∧ ∃ r1, ps !! p = Some r1 ∧
      r = if decide (parent = Some p) then add_child id r1 else r1)) as Hold.
  { intros p r. rewrite Hl. case_decide; [naive_solver|]. intros Hx. right. split; [done|].
    case_decide; [|eauto]. apply fmap_Some in Hx as (r1 & ? & ->). eauto. }
  assert (∀ p, is_Some (ps !! p) → p ≠ id ∧ is_Some (link parent id (<[id := r0]> ps) !! p)) as Hkeep.
  { intros p [r Hp]. assert (p ≠ id) as Hne by congruence. split; [done|].
    rewrite Hl, decide_False, Hp by done. case_decide; simpl; eauto. }
  constructor.
  - intros p r [[-> ->]|(_ & r1 & H1 & ->)]%Hold; [done|]. apply Hid in H1. by case_decide.
  - intros p r q [[-> ->]|(_ & r1 & H1 & ->)]%Hold Hq; apply Hkeep; [by apply Hpar|].
    apply (Hgp p r1 q H1). by case_decide.
  - intros p r c Hp. apply Hold in Hp as [[-> ->]|(Hne & r1 & H1 & ->)].
    + split; [by intros ?%elem_of_empty|]. intros (rc & Hc & Hpc & _). exfalso.
      apply Hold in Hc as [[-> ->]|(_ & r1 & H1 & ->)].
      * simpl in Hpc. apply Hpar in Hpc as [? ?]. congruence.
      * assert (pr_parent r1 = Some id) as Hp1 by (by case_decide).
        destruct (Hgp _ _ _ H1 Hp1). congruence.
    + transitivity (c = id ∧ parent = Some p ∨ c ∈ pr_children r1).
      { case_decide; simpl; set_solver. }
      rewrite (Hch p r1 c H1), Hl. split.
      * intros [[-> Hpp]|(rc & Hc & Hpc & Hst)].
        -- rewrite decide_True by done. exists r0. by split_and!.
        -- assert (c ≠ id) by congruence. rewrite decide_False, Hc by done.
           case_decide; simpl; eauto.
      * intros (rc & Hc & Hpc & Hst). case_decide; simplify_eq; [by left|right].
        case_decide; [apply fmap_Some in Hc as (rc' & Hc & ->)|]; eauto.
  - exists (λ x, if decide (x = id) then S (match parent with Some q => rank q | None => O end)
                 else rank x).
    intros p r q [[-> ->]|(Hne & r1 & H1 & ->)]%Hold Hq.
    + simpl in Hq. subst. rewrite decide_False, decide_True; [lia|done|].
      intros ->. destruct (Hpar id); [done|congruence].
    + assert (pr_parent r1 = Some q) as Hq1 by (by case_decide).
      rewrite !decide_False; [by eapply Hr|done|]. intros ->.
      destruct (Hgp _ _ _ H1 Hq1). congruence.
Qed.

Lemma membership_spawn ps ts id parent name section :
  ps !! id = None → (∀ q, parent = Some q → is_Some (ps !! q)) → Membership ps ts →
  Membership (link parent id (<[id := fresh_process id parent name section]> ps)) ts.
Proof.
  intros Hnew Hpar Hm.
  apply (membership_ext (<[id := fresh_process id parent name section]> ps) _ ts ts).
  { intros p. destruct parent; [|done]. simpl. by apply lookup_alter_view. }
  { done. }
  destruct Hm as [Hid Hli Hlv Hdd]. constructor.
  - intros t tr Ht. destruct (Hid _ _ Ht) as [? [r Hr]]. split; [done|].
    rewrite lookup_insert_ne by congruence. eauto.
  - intros p r t. rewrite lookup_insert_Some. intros [[_ <-]|[_ Hp]]; [by intros ?%elem_of_empty|].
    by apply Hli.
  - intros t tr Ht Hl. destruct (Hlv _ _ Ht Hl) as (r & Hr & ?). exists r. split; [|done].
    rewrite lookup_insert_ne by congruence. done.
  - intros p r. rewrite lookup_insert_Some. intros [[_ <-]|[_ Hp]]; [done|]. by apply (Hdd p r).
Qed.

(** The tables after the last two writes of [terminate_process]. *)
Definition bury (p : Z) (parent : option Z) (ps : gmap Z ProcessRecord) : gmap Z ProcessRecord :=
  match parent with
  | Some q => alter (remove_child p) q (alter set_terminated p ps)
  | None => alter set_terminated p ps
  end.

Lemma lookup_bury ps p r q :
  Genealogy ps → ps !! p = Some r →
  bury p (pr_parent r) ps !! q =
  if decide (q = p) then Some (set_terminated r)
  else if decide (pr_parent r = Some q) then remove_child p <$> ps !! q else ps !! q.
Proof.
  intros Hg Hp. assert (pr_parent r ≠ Some p) as Hself.
  { intros E. destruct (ge_acyclic _ Hg) as [rank Hr]. specialize (Hr _ _ _ Hp E). lia. }
  unfold bury. destruct (pr_parent r) as [s|]; case_decide as Hq; subst.
  - rewrite lookup_alter_ne, lookup_alter_eq, Hp by congruence. done.
  - case_decide; simplify_eq; rewrite ?lookup_alter_eq, ?lookup_alter_ne by congruence; done.
  - by rewrite lookup_alter_eq, Hp.
  - by rewrite lookup_alter_ne by done.
Qed.

Lemma genealogy_bury ps p r :
  ps !! p = Some r → Genealogy ps → Genealogy (bury p (pr_parent r) ps).
Proof.
  intros Hp Hg. pose proof (λ q, lookup_bury ps p r q Hg Hp) as Hl.
  destruct Hg as [Hid Hgp Hch [rank Hr]].
  assert (∀ q rq, bury p (pr_parent r) ps !! q = Some rq → ∃ r1, ps !! q = Some r1 ∧
    pr_id rq = pr_id r1 ∧ pr_parent rq = pr_parent r1 ∧
    (q = p → pr_state rq = PsTerminated) ∧ (q ≠ p → pr_state rq = pr_state r1) ∧
    pr_children rq = if decide (pr_parent r = Some q) then pr_children r1 ∖ {[p]}
                     else pr_children r1) as Hold.
  { intros q rq. rewrite Hl. case_decide.
    - intros [= <-]. subst. exists r. rewrite (decide_False (P := pr_parent r = Some p)); [done|].
      intros E. specialize (Hr _ _ _ Hp E). lia.
    - case_decide; [intros (r1 & -> & ->)%fmap_Some|intros ->]; eexists; by split_and!. }
  assert (∀ q, is_Some (ps !! q) → is_Some (bury p (pr_parent r) ps !! q)) as Hkeep.
  { intros q [rq Hq]. rewrite Hl, Hq. repeat case_decide; simpl; eauto. }
  constructor.
  - intros q rq (r1 & H1 & -> & _)%Hold. by apply Hid.
  - intros q rq s (r1 & H1 & _ & -> & _)%Hold Hs. apply Hkeep. by eapply Hgp.
  - intros q rq c (r1 & H1 & _ & _ & _ & _ & ->)%Hold.
    transitivity (c ≠ p ∧ c ∈ pr_children r1).
    { case_decide as Hd; [set_solver|]. split; [|naive_solver]. intros Hc. split; [|done].
      intros ->. apply (Hch q r1 p H1) in Hc as (rc & Hc & Hpc & _). congruence. }
    rewrite (Hch q r1 c H1). split.
    + intros (Hne & rc & Hc & Hpc & Hst). destruct (Hkeep c) as [rc' Hc']; [eauto|].
      exists rc'. apply Hold in Hc' as Hc''. destruct Hc'' as (r2 & H2 & _ & -> & _ & Hs & _).
      rewrite Hs by done. simplify_eq. done.
    + intros (rc & (r2 & H2 & _ & -> & Hdead & Hst & _)%Hold & Hpc & Hact).
      destruct (decide (c = p)) as [->|Hne]; [by rewrite Hdead in Hact|].
      split; [done|]. exists r2. rewrite <-Hst by done. done.
  - exists rank. intros q rq s (r1 & H1 & _ & -> & _)%Hold Hs. by eapply Hr.
Qed.


(** ** Threads come and go *)

Lemma genealogy_alter f p ps :
  (∀ r, family (f r) = family r) → Genealogy ps → Genealogy (alter f p ps).
Proof. intros Hf. apply genealogy_ext. intros q. by apply lookup_alter_view. Qed.

Lemma membership_alter f p ps ts :
  (∀ r, roster (f r) = roster r) → Membership ps ts → Membership (alter f p ps) ts.
Proof. intros Hf. apply membership_ext; [|done]. intros q. by apply lookup_alter_view. Qed.

Lemma membership_add ps ts p r id tr :
  ts !! id = None → ps !! p = Some r → pr_state r = PsActive → th_id tr = id → th_process tr = p →
  Membership ps ts → Membership (alter (add_thread id) p ps) (<[id := tr]> ts).
Proof.
  intros Hnew Hp Hact Htid Htp [Hid Hli Hlv Hdd]. constructor.
  - intros t tr' [[<- <-]|[_ Ht]]%lookup_insert_Some; rewrite alter_is_Some; [|by apply Hid].
    rewrite Htp. eauto.
  - intros q rq t [(<- & r1 & H1 & ->)|[Hne H1]]%lookup_alter_Some.
    + simpl. intros [->%elem_of_singleton|Hin]%elem_of_union; [rewrite lookup_insert_eq; eauto|].
      destruct (Hli _ _ _ H1 Hin) as (tr' & Ht & ?). exists tr'. split; [|done].
      rewrite lookup_insert_ne by congruence. done.
    + intros Hin. destruct (Hli _ _ _ H1 Hin) as (tr' & Ht & ?). exists tr'. split; [|done].
      rewrite lookup_insert_ne by congruence. done.
  - intros t tr' [[<- <-]|[_ Ht]]%lookup_insert_Some Hl.
    + rewrite Htp, lookup_alter_eq, Hp. simpl. eexists. split_and!; [done|done|]. simpl. set_solver.
    + destruct (Hlv _ _ Ht Hl) as (r1 & H1 & Hs & Hin).
      destruct (decide (th_process tr' = p)) as [E|Hne].
      * rewrite E in *. rewrite lookup_alter_eq, H1. simpl. eexists. split_and!; [done|done|].
        simpl. set_solver.
      * rewrite lookup_alter_ne by congruence. eauto.
  - intros q rq [(<- & r1 & H1 & ->)|[Hne H1]]%lookup_alter_Some; [|by apply (Hdd q rq)].
    simpl. congruence.
Qed.

Lemma membership_stop ps ts t :
  Membership ps ts → Membership ps (alter (set_state TsTerminated) t ts).
Proof.
  intros [Hid Hli Hlv Hdd]. constructor; [| | |done].
  - intros t' tr [(<- & tr0 & H0 & ->)|[_ H0]]%lookup_alter_Some; by apply Hid in H0.
  - intros p r t' Hp Hin. destruct (Hli _ _ _ Hp Hin) as (tr & Ht & Htp).
    destruct (decide (t = t')) as [->|]; [|rewrite lookup_alter_ne by done; eauto].
    rewrite lookup_alter_eq, Ht. simpl. eauto.
  - intros t' tr [(<- & tr0 & H0 & ->)|[_ H0]]%lookup_alter_Some Hl; [done|]. by apply Hlv.
Qed.

Lemma membership_remove ps ts t p :
  (∀ tr, ts !! t = Some tr → is_live tr = false) →
  Membership ps ts → Membership (alter (remove_thread t) p ps) ts.
Proof.
  intros Hdead [Hid Hli Hlv Hdd]. constructor.
  - intros t' tr Ht. rewrite alter_is_Some. by apply Hid.
  - intros q rq t' [(<- & r1 & H1 & ->)|[Hne H1]]%lookup_alter_Some; [|by apply Hli].
    simpl. intros [Hin _]%elem_of_difference. by eapply Hli.
  - intros t' tr Ht Hl. destruct (Hlv _ _ Ht Hl) as (r1 & H1 & Hs & Hin).
    destruct (decide (p = th_process tr)) as [->|Hne].
    + rewrite lookup_alter_eq, H1. simpl. eexists. split_and!; [done|done|]. simpl.
      assert (t' ≠ t); [intros ->; specialize (Hdead _ Ht); congruence|set_solver].
    + rewrite lookup_alter_ne by done. eauto.
  - intros q rq [(<- & r1 & H1 & ->)|[Hne H1]]%lookup_alter_Some Hst; [|by eapply Hdd].
    simpl in *. rewrite (Hdd _ _ H1 Hst). set_solver.
Qed.

Lemma membership_bury ps ts p r :
  ps !! p = Some r → (∀ t tr, t ∈ pr_threads r → ts !! t = Some tr → is_live tr = false) →
  Membership ps ts → Membership (bury p (pr_parent r) ps) ts.
Proof.
  intros Hp Hdead Hm. unfold bury.
  assert (Membership (alter set_terminated p ps) ts) as Hm'.
  { destruct Hm as [Hid Hli Hlv Hdd]. constructor.
    - intros t' tr Ht. rewrite alter_is_Some. by apply Hid.
    - intros q rq t' [(<- & r1 & H1 & ->)|[Hne H1]]%lookup_alter_Some; [|by apply Hli].
      by intros ?%elem_of_empty.
    - intros t' tr Ht Hl. destruct (Hlv _ _ Ht Hl) as (r1 & H1 & Hs & Hin).
      destruct (decide (p = th_process tr)) as [->|Hne]; [|rewrite lookup_alter_ne by done; eauto].
      simplify_eq. rewrite (Hdead _ _ Hin Ht) in Hl. done.
    - intros q rq [(<- & r1 & H1 & ->)|[Hne H1]]%lookup_alter_Some; [done|by apply (Hdd q rq)]. }
  destruct (pr_parent r); [|done]. by apply membership_alter.
Qed.

(** ** Updates of the whole state *)

Lemma below_mono {V} (m m' : gmap Z V) n n' :
  (∀ k, is_Some (m' !! k) → is_Some (m !! k)) → n ≤ n' → below m n → below m' n'.
Proof. intros Hk Hn Hb k Hs. specialize (Hb k (Hk k Hs)). lia. Qed.

Lemma below_insert {V} (m : gmap Z V) k v n n' :
  0 < k < n' → n ≤ n' → below m n → below (<[k := v]> m) n'.
Proof.
  intros Hk Hn Hb j [w Hj]. apply lookup_insert_Some in Hj as [[<- _]|[_ Hj]]; [done|].
  assert (0 < j < n) by (apply Hb; eauto). lia.
Qed.

Lemma pinv_update f p m :
  (∀ r, family (f r) = family r) → (∀ r, roster (f r) = roster r) →
  PInv m → PInv (update_process f p m).
Proof.
  intros Hf Hr []. constructor; simpl; try done.
  - eapply below_mono; [| |done]; [|done]. intros k. by rewrite alter_is_Some.
  - by apply genealogy_alter.
  - by apply membership_alter.
  - intros h e He. destruct (pi_handles0 h e He) as [? Hok]. split; [done|].
    eapply entry_ok_mono; [| |done]; [|done]. intros k. by rewrite alter_is_Some.
Qed.

Lemma pinv_spawn id parent name section next m :
  0 < id < next → pm_next_process m ≤ next → pm_processes m !! id = None →
  (∀ q, parent = Some q → is_Some (pm_processes m !! q)) → PInv m →
  PInv (with_processes
          (λ ps, link parent id (<[id := fresh_process id parent name section]> ps)) next m).
Proof.
  intros Hid Hn Hnew Hpar []. assert (∀ k (ps : gmap Z ProcessRecord),
    is_Some (link parent id ps !! k) ↔ is_Some (ps !! k)) as Hl.
  { intros k ps. destruct parent; [apply alter_is_Some|done]. }
  constructor; simpl; try done; [lia| | | |].
  - intros k. rewrite Hl. by apply (below_insert _ _ _ (pm_next_process m)).
  - by apply genealogy_spawn.
  - by apply membership_spawn.
  - intros h e He. destruct (pi_handles0 h e He) as [? Hok]. split; [done|].
    eapply entry_ok_mono; [| |done]; [|done]. intros k. rewrite Hl, lookup_insert_is_Some'.
    by right.
Qed.

(** The thread tables change together with the rosters of the processes. *)
Lemma pinv_threads ps ts next m :
  (∀ k, is_Some (ps !! k) ↔ is_Some (pm_processes m !! k)) →
  (∀ k, is_Some (pm_threads m !! k) → is_Some (ts !! k)) →
  pm_next_thread m ≤ next → below ts next →
  Genealogy ps → Membership ps ts → PInv m →
  PInv {| pm_processes := ps; pm_threads := ts; pm_handles := pm_handles m;
          pm_next_process := pm_next_process m; pm_next_thread := next;
          pm_next_handle := pm_next_handle m |}.
Proof.
  intros Hps Hts Hn Hb Hg Hm []. constructor; simpl; try done; [lia| |].
  - eapply below_mono; [| |done]; [|done]. intros k. by rewrite Hps.
  - intros h e He. destruct (pi_handles0 h e He) as [? Hok]. split; [done|].
    eapply entry_ok_mono; [| |done]; [|done]. intros k. by rewrite Hps.
Qed.

Lemma pinv_add_thread p r id tr next m :
  pm_threads m !! id = None → pm_processes m !! p = Some r → pr_state r = PsActive →
  th_id tr = id → th_process tr = p → 0 < id < next → pm_next_thread m ≤ next → PInv m →
  PInv (update_process (add_thread id) p (with_threads (insert id tr) next m)).
Proof.
  intros Hnew Hp Hact Htid Htp Hid Hn Hm.
  apply (pinv_threads (alter (add_thread id) p (pm_processes m)) (<[id := tr]> (pm_threads m))
           next m); [|..|done]; try done.
  - intros k. apply alter_is_Some.
  - intros k Hk. rewrite lookup_insert_is_Some'. by right.
  - eapply below_insert; [done|done|]. apply Hm.
  - apply genealogy_alter; [done|]. apply Hm.
  - eapply membership_add; [done..|]. apply Hm.
Qed.

Lemma pinv_next_thread next m :
  pm_next_thread m ≤ next → PInv m → PInv (with_threads (λ ts, ts) next m).
Proof.
  intros Hn Hm. apply (pinv_threads (pm_processes m) (pm_threads m) next m); try done; try apply Hm.
  eapply below_mono; [done|done|]. apply Hm.
Qed.

Lemma pinv_set_live st t m :
  (∀ tr, pm_threads m !! t = Some tr → is_live tr = is_live (set_state st tr)) →
  PInv m → PInv (update_thread (set_state st) t m).
Proof.
  intros Hl Hm.
  apply (pinv_threads (pm_processes m) (alter (set_state st) t (pm_threads m))
           (pm_next_thread m) m); [|..|done]; try done.
  - intros k. by rewrite alter_is_Some.
  - eapply below_mono; [|done|apply Hm]. intros k. by rewrite alter_is_Some.
  - apply Hm.
  - apply (membership_ext (pm_processes m) _ (pm_threads m)); [done| |apply Hm].
    intros t'. destruct (decide (t = t')) as [->|]; [|by rewrite lookup_alter_ne].
    rewrite lookup_alter_eq. destruct (pm_threads m !! t') as [tr|] eqn:E; [|done].
    simpl. by rewrite <-Hl.
Qed.

Lemma pinv_stop t m : PInv m → PInv (update_thread (set_state TsTerminated) t m).
Proof.
  intros Hm.
  apply (pinv_threads (pm_processes m) (alter (set_state TsTerminated) t (pm_threads m))
           (pm_next_thread m) m); [|..|done]; try done.
  - intros k. by rewrite alter_is_Some.
  - eapply below_mono; [|done|apply Hm]. intros k. by rewrite alter_is_Some.
  - apply Hm.
  - apply membership_stop, Hm.
Qed.

Lemma pinv_insert_handle e m :
  entry_ok (pm_processes m) (pm_threads m) e → PInv m →
  PInv (with_handles (insert (pm_next_handle m) e) (saturating_add u32_max (pm_next_handle m) 4) m).
Proof.
  intros He [].
  assert (4 ≤ saturating_add u32_max (pm_next_handle m) 4 ≤ u32_max ∧
          ∀ h, handle_ok (pm_next_handle m) h ∨ h = pm_next_handle m →
               handle_ok (saturating_add u32_max (pm_next_handle m) 4) h) as [Hb Hh].
  { unfold handle_ok, saturating_add, u32_max in *. split; [lia|]. intros h [[]| ->]; lia. }
  constructor; simpl; try done.
  intros h e' [[<- <-]|[_ Hl]]%lookup_insert_Some; [auto|].
  destruct (pi_handles0 _ _ Hl). auto.
Qed.

Lemma pinv_drop_handles f m :
  (∀ h e, f (pm_handles m) !! h = Some e → pm_handles m !! h = Some e) →
  PInv m → PInv (with_handles f (pm_next_handle m) m).
Proof. intros Hf []. constructor; simpl; try done. intros h e He. auto. Qed.


(** ** The operations keep the invariant *)

Definition active_result (process : Z) (m : ProcessManager) : result ProcessRecord :=
  match pm_processes m !! process with
  | None => Err STATUS_INVALID_HANDLE
  | Some r => if bool_decide (pr_state r = PsTerminated) then Err STATUS_PROCESS_IS_TERMINATING
              else Ok r
  end.

Lemma active_process_eq p m : active_process p m = Done (active_result p m) m.
Proof.
  unfold active_process, active_result, query_process. mrun.
  destruct (pm_processes m !! p); [|done]. mrun. by case_bool_decide.
Qed.

Lemma active_result_Ok p m r :
  active_result p m = Ok r ↔ pm_processes m !! p = Some r ∧ pr_state r = PsActive.
Proof.
  unfold active_result. destruct (pm_processes m !! p) as [r0|]; [|naive_solver].
  case_bool_decide as H; [naive_solver congruence|]. split; [intros [= ->]|naive_solver].
  split; [done|]. by destruct (pr_state r).
Qed.

Lemma require_owner_eq p m :
  require_owner p m =
  Done (match active_result p m with Ok _ => Ok tt | Err e => Err e end) m.
Proof. unfold require_owner, bind. rewrite active_process_eq. by destruct (active_result p m). Qed.

(** Runs the leading [active_process] of an entry point that returned. *)
Ltac run_active H :=
  match type of H with
  | context [active_process ?p ?m] =>
      rewrite active_process_eq in H; destruct (active_result p m) eqn:?; mrun; simplify_eq
  | context [require_owner ?p ?m] =>
      rewrite require_owner_eq in H; destruct (active_result p m) eqn:?; mrun; simplify_eq
  end.

Lemma link_child_run parent id r next m :
  link_child parent id (with_processes (insert id r) next m) =
  Done (Ok tt) (with_processes (λ ps, link parent id (<[id := r]> ps)) next m).
Proof. by destruct parent. Qed.

Lemma pinv_create_process parent name section m r m' :
  PInv m → create_process parent name section m = Done r m' → PInv m'.
Proof.
  intros Hm H. unfold create_process in H.
  destruct (str_is_empty (trim name) || str_contains NUL name); mrun; [by simplify_eq|].
  assert (pm_processes m !! pm_next_process m = None) as Hnew.
  { apply eq_None_not_Some. intros Hs%(pi_processes _ Hm). lia. }
  assert (4 ≤ pm_next_process m) by apply Hm.
  destruct parent as [q|]; mrun; [run_active H|]; msplit; bool_prop; simplify_eq; try done;
    [apply (pinv_spawn (pm_next_process m) (Some q) name section (pm_next_process m + 4) m)
    |apply (pinv_spawn (pm_next_process m) None name section (pm_next_process m + 4) m)];
    try done; try lia.
  intros ? [= <-]. rename select (active_result _ _ = Ok _) into Ha.
  apply active_result_Ok in Ha as [Ha _]. eauto.
Qed.

Lemma pinv_ensure_process id name parent m r m' :
  u32 id → PInv m → ensure_process id name parent m = Done r m' → PInv m'.
Proof.
  intros Hid Hm H. unfold ensure_process in H.
  destruct (id =? 0) eqn:E0; mrun; [by simplify_eq|].
  destruct (str_is_empty (trim name)); mrun; [by simplify_eq|].
  case_bool_decide as Hk; mrun; [by simplify_eq|]. apply eq_None_not_Some in Hk.
  unfold u32 in Hid. bool_prop.
  destruct parent as [q|]; mrun; unfold query_process in H;
    [destruct (pm_processes m !! q) eqn:Hq; mrun; [|by simplify_eq]|];
    msplit; bool_prop; simplify_eq; try done;
    [apply (pinv_spawn id (Some q) name None (Z.max (pm_next_process m) (id + 4)) m)
    |apply (pinv_spawn id None name None (Z.max (pm_next_process m) (id + 4)) m)];
    try done; try lia.
  intros ? [= <-]. eauto.
Qed.

Lemma pinv_bind (f : ProcessRecord → ProcessRecord) p m r m' :
  (∀ r, family (f r) = family r) → (∀ r, roster (f r) = roster r) →
  PInv m → bind (active_process p) (λ _, modify (update_process f p)) m = Done r m' → PInv m'.
Proof.
  intros Hf Hr Hm H. unfold bind in H. run_active H; [|done]. by apply pinv_update.
Qed.

Lemma pinv_ensure_thread p id start m r m' :
  u32 id → PInv m → ensure_thread p id start m = Done r m' → PInv m'.
Proof.
  intros Hid Hm H. unfold ensure_thread in H.
  destruct (id =? 0) eqn:E0; mrun; [by simplify_eq|].
  run_active H; [|done]. case_bool_decide as Hk; mrun; [by simplify_eq|].
  apply eq_None_not_Some in Hk. rename select (active_result _ _ = Ok _) into Ha.
  apply active_result_Ok in Ha as [Ha Hact]. unfold u32 in Hid.
  msplit; bool_prop; simplify_eq; try done.
  eapply pinv_add_thread; try done; lia.
Qed.

Lemma pinv_start_thread t m r m' : PInv m → start_thread t m = Done r m' → PInv m'.
Proof.
  intros Hm H. unfold start_thread, query_thread in H. mrun.
  destruct (pm_threads m !! t) as [tr|] eqn:Ht; mrun; [|by simplify_eq].
  destruct (th_state tr) eqn:Hst; mrun; simplify_eq; try done;
    apply pinv_set_live; try done; intros tr' ?; simplify_eq; unfold is_live; by rewrite Hst.
Qed.

Lemma insert_handle_run owner target access inh m :
  insert_handle owner target access inh m =
  Done (Ok (pm_next_handle m)) (with_handles (insert (pm_next_handle m)
    {| ph_owner := owner; ph_target := target; ph_access := access; ph_inheritable := inh |})
    (saturating_add u32_max (pm_next_handle m) 4) m).
Proof. done. Qed.

Lemma access_test access all :
  u32 access →
  (access =? 0) || negb (Z.land access (not_u32 all) =? 0) = false ↔
  access ≠ 0 ∧ bits_within access all.
Proof.
  intros Hu. rewrite orb_false_iff, negb_false_iff, Z.eqb_neq, Z.eqb_eq.
  by rewrite land_not_u32_spec.
Qed.

Lemma pinv_open_process owner target access inh m r m' :
  u32 access → PInv m → open_process owner target access inh m = Done r m' → PInv m'.
Proof.
  intros Hu Hm H. unfold open_process in H. mrun. run_active H; [|done]. run_active H; [|done].
  destruct (_ || _) eqn:E in H; mrun; [by simplify_eq|].
  apply access_test in E as [Hne Hin]; [|done]. rewrite insert_handle_run in H. simplify_eq.
  rename select (active_result owner _ = Ok _) into Ho.
  apply active_result_Ok in Ho as [Ho _].
  repeat match goal with Ha : active_result _ _ = Ok _ |- _ => apply active_result_Ok in Ha as [? _] end.
  apply pinv_insert_handle; [|done]. split_and!; simpl; eauto.
Qed.

Lemma pinv_open_thread owner target access inh m r m' :
  u32 access → PInv m → open_thread owner target access inh m = Done r m' → PInv m'.
Proof.
  intros Hu Hm H. unfold open_thread, query_thread in H. mrun. run_active H; [|done].
  destruct (pm_threads m !! target) as [tr|] eqn:Ht; mrun; [|by simplify_eq].
  case_bool_decide; mrun; [by simplify_eq|].
  destruct (_ || _) eqn:E in H; mrun; [by simplify_eq|].
  apply access_test in E as [Hne Hin]; [|done]. rewrite insert_handle_run in H. simplify_eq.
  rename select (active_result owner _ = Ok _) into Ho.
  apply active_result_Ok in Ho as [Ho _].
  apply pinv_insert_handle; [|done]. split_and!; simpl; eauto.
Qed.

Lemma lookup_handle_Ok owner h m e :
  lookup_handle owner h m = Ok e ↔ h ≠ 0 ∧ pm_handles m !! h = Some e ∧ ph_owner e = owner.
Proof.
  unfold lookup_handle. destruct (Z.eqb_spec h 0); [naive_solver|].
  destruct (pm_handles m !! h) as [e'|]; [|naive_solver].
  destruct (Z.eqb_spec (ph_owner e') owner); naive_solver.
Qed.


Lemma duplicate_run owner source access inh m :
  u32 access →
  duplicate_handle owner source access inh m =
  match lookup_handle owner source m with
  | Err e => Done (Err e) m
  | Ok entry =>
      let effective := if access =? 0 then ph_access entry else access in
      if Z.land effective (not_u32 (ph_access entry)) =? 0
      then insert_handle owner (ph_target entry) effective inh m
      else Done (Err STATUS_ACCESS_DENIED) m
  end.
Proof.
  intros _. unfold duplicate_handle. mrun. destruct (lookup_handle owner source m) as [entry|]; [|done].
  mrun. by destruct (Z.land _ _ =? 0).
Qed.

Lemma pinv_duplicate owner source access inh m r m' :
  u32 access → PInv m → duplicate_handle owner source access inh m = Done r m' → PInv m'.
Proof.
  intros Hu Hm H. rewrite duplicate_run in H by done.
  destruct (lookup_handle owner source m) as [entry|] eqn:Hl; [|by simplify_eq].
  apply lookup_handle_Ok in Hl as (_ & Hh & Ho).
  destruct (pi_handles _ Hm _ _ Hh) as (_ & Hown & Hne & Hua & Hg). cbv zeta in H.
  set (eff := if access =? 0 then ph_access entry else access) in H.
  assert (u32 eff ∧ eff ≠ 0) as [Heu He0].
  { unfold eff. destruct (Z.eqb_spec access 0); by split. }
  destruct (Z.eqb_spec (Z.land eff (not_u32 (ph_access entry))) 0) as [E|]; [|by simplify_eq].
  apply land_not_u32_spec in E; [|done]. rewrite insert_handle_run in H. simplify_eq.
  apply pinv_insert_handle; [|done]. split_and!; simpl; [done|done|done|].
  destruct (ph_target entry); simpl in *; (split; [apply Hg|]);
    eapply bits_within_trans; [exact E|apply Hg|exact E|apply Hg].
Qed.

(** The manager after a batch of insertions for one owner. *)
Lemma pinv_insert_many child (l : list (HandleTarget * Z)) m r m' :
  is_Some (pm_processes m !! child) →
  Forall (λ e, e.2 ≠ 0 ∧ u32 e.2 ∧ target_rights (pm_processes m) (pm_threads m) e.1 e.2) l →
  PInv m → map_each l (λ e, insert_handle child e.1 e.2 true) m = Done r m' → PInv m'.
Proof.
  intros Hc Hl. revert m r m' Hc Hl. induction l as [|[g a] l IH]; intros m r m' Hc Hl Hm H.
  - by simplify_eq/=.
  - apply Forall_cons in Hl as [(Hne & Hu & Hg) Hl]. cbn [map_each] in H. unfold bind in H.
    rewrite insert_handle_run in H. simpl in H.
    destruct (map_each l _ _) as [r1 m1|] eqn:E; [|done].
    assert (m' = m1) as -> by (destruct r1; mrun; by simplify_eq).
    eapply (IH _ r1 m1); [| | |exact E]; [done|done|].
    apply pinv_insert_handle; [|done]. by split_and!.
Qed.

Lemma pinv_inherit parent child m r m' :
  PInv m → inherit_handles parent child m = Done r m' → PInv m'.
Proof.
  intros Hm H. unfold inherit_handles in H. mrun. run_active H; [|done]. run_active H; [|done].
  repeat match goal with Ha : active_result _ _ = Ok _ |- _ => apply active_result_Ok in Ha as [? _] end.
  eapply pinv_insert_many; [| |done|exact H]; [eauto|].
  apply Forall_forall. intros [g acc] (e & [= -> ->] & Hin)%list_elem_of_fmap.
  apply list_elem_of_filter in Hin as [_ (h & Hh)%elem_of_bt_values].
  destruct (pi_handles _ Hm _ _ Hh) as (_ & _ & Hne & Hu & Hg). by split_and!.
Qed.

Lemma pinv_close_handle owner h m r m' : PInv m → close_handle owner h m = Done r m' → PInv m'.
Proof.
  intros Hm H. unfold close_handle in H. mrun.
  destruct (lookup_handle owner h m); mrun; simplify_eq; [|done].
  apply pinv_drop_handles; [|done]. by intros j e [_ ?]%lookup_delete_Some.
Qed.

Lemma pinv_close_all owner m : PInv m → PInv (close_process_handles owner m).2.
Proof.
  intros Hm. apply pinv_drop_handles; [|done]. intros h e. rewrite lookup_fold_delete.
  by case_decide.
Qed.

(** ** Operations that talk to the scheduler *)

Section scheduled.
Context {S : Type} `{!ThreadScheduler S}.
Implicit Types t : ProcessManager * S.

Lemma pinv_create_thread p start ctx base size t r t' :
  PInv t.1 → create_thread_ex p start ctx base size t = Done r t' → PInv t'.1.
Proof.
  intros Hm H. unfold create_thread_ex, manager, scheduler in H. destruct t as [m s]. mrun.
  run_active H; [|done]. destruct (start =? 0); mrun; [by simplify_eq|].
  destruct (pm_next_thread m + 4 <=? u32_max) eqn:Hle; mrun; [|done]. bool_prop.
  assert (4 ≤ pm_next_thread m) by apply Hm.
  assert (PInv (with_threads (λ ts, ts) (pm_next_thread m + 4) m)) as Hm1
    by (apply pinv_next_thread; [lia|done]).
  destruct (attach_thread _ _ _ _ _ _ s) as [[[]|e] s'|]; mrun; simplify_eq; [|done].
  rename select (active_result _ _ = Ok _) into Ha. apply active_result_Ok in Ha as [Ha Hact].
  apply (pinv_add_thread p a _ _ (pm_next_thread m + 4) m); try done; [|lia|lia].
  apply eq_None_not_Some. intros Hs%(pi_threads _ Hm). lia.
Qed.

Lemma pinv_terminate_thread th t r t' :
  PInv t.1 → terminate_thread th t = Done r t' → PInv t'.1.
Proof.
  intros Hm H. unfold terminate_thread, manager, scheduler, query_thread in H.
  destruct t as [m s]. mrun.
  destruct (pm_threads m !! th) as [tr|] eqn:Ht; mrun; [|by simplify_eq].
  case_bool_decide; mrun; [by simplify_eq|].
  destruct (detach_thread _ _ s) as [[[]|e] s'|]; mrun; simplify_eq; [|done].
  apply (pinv_stop th) in Hm. simpl.
  apply (pinv_threads (alter (remove_thread th) (th_process tr) (pm_processes m))
           (alter (set_state TsTerminated) th (pm_threads m)) (pm_next_thread m)
           (update_thread (set_state TsTerminated) th m)); [|..|done]; try done.
  - intros k. apply alter_is_Some.
  - apply Hm.
  - apply genealogy_alter; [done|]. apply Hm.
  - apply membership_remove; [|apply Hm]. intros tr' [(_ & tr0 & _ & ->)|[? _]]%lookup_alter_Some; done.
Qed.

(** The detachments alone, and what the loop leaves in the manager. *)
Definition detach_all (p : Z) (l : list Z) : M S unit := for_each l (detach_thread p).

Definition stopped (l : list Z) (m : ProcessManager) : ProcessManager :=
  with_threads (λ ts, foldl (λ ts th, alter (set_state TsTerminated) th ts) ts l)
    (pm_next_thread m) m.

Lemma stopped_cons th l m :
  stopped l (update_thread (set_state TsTerminated) th m) = stopped (th :: l) m.
Proof. done. Qed.

Lemma stop_thread_run p th m s :
  stop_thread p th (m, s) =
  match detach_thread p th s with
  | Done (Ok _) s1 => Done (Ok tt) (update_thread (set_state TsTerminated) th m, s1)
  | Done (Err e) s1 => Done (Err e) (m, s1)
  | Panic => Panic
  end.
Proof.
  unfold stop_thread, scheduler, manager. mrun. by destruct (detach_thread p th s) as [[]|].
Qed.

Lemma stop_threads_run p l m s :
  match detach_all p l s with
  | Done (Ok _) s' => for_each l (stop_thread p) (m, s) = Done (Ok tt) (stopped l m, s')
  | Done (Err e) s' =>
      ∃ l1 th l2 s1, l = l1 ++ th :: l2 ∧
        detach_all p l1 s = Done (Ok tt) s1 ∧ detach_thread p th s1 = Done (Err e) s' ∧
        for_each l (stop_thread p) (m, s) = Done (Err e) (stopped l1 m, s')
  | Panic => for_each l (stop_thread p) (m, s) = Panic
  end.
Proof.
  revert m s. induction l as [|th l IH]; intros m s; [by destruct m|].
  unfold detach_all in *. cbn [for_each]. unfold bind. rewrite stop_thread_run.
  destruct (detach_thread p th s) as [[[]|e] s1|] eqn:E0; [| |done].
  - specialize (IH (update_thread (set_state TsTerminated) th m) s1). rewrite stopped_cons in IH.
    destruct (for_each l (detach_thread p) s1) as [[[]|e] s2|]; [done| |done].
    destruct IH as (l1 & th' & l2 & s3 & -> & Ed & Eth & E). exists (th :: l1), th', l2, s3.
    split_and!; [done| |done|by rewrite <-stopped_cons]. cbn [for_each]. unfold bind. by rewrite E0.
  - exists [], th, l, s. split_and!; [done..|]. by destruct m.
Qed.

Lemma pinv_stopped l m : PInv m → PInv (stopped l m).
Proof.
  revert m. induction l as [|th l IH]; intros m Hm; [by destruct m|].
  rewrite <-stopped_cons. by apply IH, pinv_stop.
Qed.

(** The state a successful [terminate_process] leaves. *)
Definition terminated (p : Z) (r : ProcessRecord) (m : ProcessManager) : ProcessManager :=
  with_processes (bury p (pr_parent r)) (pm_next_process m) (stopped (bt_elems (pr_threads r)) m).

Lemma terminate_process_run p r m s :
  active_result p m = Ok r →
  match detach_all p (bt_elems (pr_threads r)) s with
  | Done (Ok _) s' =>
      terminate_process p (m, s) = Done (Ok (Z.of_nat (size (pr_threads r)))) (terminated p r m, s')
  | Done (Err e) s' =>
      ∃ l1 th l2 s1, bt_elems (pr_threads r) = l1 ++ th :: l2 ∧
        detach_all p l1 s = Done (Ok tt) s1 ∧ detach_thread p th s1 = Done (Err e) s' ∧
        terminate_process p (m, s) = Done (Err e) (stopped l1 m, s')
  | Panic => terminate_process p (m, s) = Panic
  end.
Proof.
  intros Hr. pose proof (stop_threads_run p (bt_elems (pr_threads r)) m s) as Hs.
  unfold terminate_process, manager. mrun. rewrite active_process_eq, Hr. mrun. destruct (detach_all _ _ s) as [[[]|e] s1|].
  - rewrite Hs. mrun. unfold terminated. by destruct (pr_parent r).
  - destruct Hs as (l1 & th & l2 & s2 & ? & ? & ? & ->). by exists l1, th, l2, s2.
  - by rewrite Hs.
Qed.

Lemma lookup_stopped l m th :
  pm_threads (stopped l m) !! th =
  if decide (th ∈ l) then set_state TsTerminated <$> pm_threads m !! th else pm_threads m !! th.
Proof.
  revert m. induction l as [|a l IH]; intros m.
  - by rewrite decide_False by apply not_elem_of_nil.
  - rewrite <-stopped_cons, IH. simpl. destruct (decide (a = th)) as [->|Hne].
    + rewrite lookup_alter_eq, (decide_True (P := th ∈ th :: l)) by (by left).
      case_decide; [|done]. by destruct (pm_threads m !! th).
    + rewrite lookup_alter_ne by done. apply decide_if_ext. set_solver.
Qed.

Lemma bury_is_Some p parent ps k : is_Some (bury p parent ps !! k) ↔ is_Some (ps !! k).
Proof. destruct parent; simpl; by rewrite ?alter_is_Some. Qed.

Lemma pinv_terminated p r m : active_result p m = Ok r → PInv m → PInv (terminated p r m).
Proof.
  intros [Hp _]%active_result_Ok Hm. apply (pinv_stopped (bt_elems (pr_threads r))) in Hm.
  assert (∀ th tr, th ∈ pr_threads r → pm_threads (stopped (bt_elems (pr_threads r)) m) !! th = Some tr →
    is_live tr = false) as Hdead.
  { intros th tr Hin. rewrite lookup_stopped, decide_True by (by apply elem_of_bt_elems).
    by intros (tr0 & _ & ->)%fmap_Some. }
  unfold terminated.
  apply (pinv_threads (bury p (pr_parent r) (pm_processes m))
    (pm_threads (stopped (bt_elems (pr_threads r)) m)) (pm_next_thread m)
    (stopped (bt_elems (pr_threads r)) m)); try done; try apply Hm.
  - intros k. apply bury_is_Some.
  - apply genealogy_bury; [done|]. apply Hm.
  - apply membership_bury; [done|done|]. apply Hm.
Qed.

Lemma pinv_terminate_process p t r t' :
  PInv t.1 → terminate_process p t = Done r t' → PInv t'.1.
Proof.
  intros Hm H. destruct t as [m s]. simpl in Hm. destruct (active_result p m) as [rec|e] eqn:Ha.
  - pose proof (terminate_process_run p rec m s Ha) as Hrun.
    destruct (detach_all _ _ s) as [[u|e] s'|].
    + rewrite Hrun in H. simplify_eq. by apply pinv_terminated.
    + destruct Hrun as (l1 & th & l2 & s1 & _ & _ & _ & Hrun). rewrite Hrun in H. simplify_eq.
      by apply pinv_stopped.
    + congruence.
  - unfold terminate_process, manager in H. mrun.
    rewrite active_process_eq, Ha in H. by simplify_eq.
Qed.

(** ** The step relation *)

Inductive pstep t : ProcessManager * S → Prop :=
| ps_create q name sec r m' : create_process q name sec t.1 = Done r m' → pstep t (m', t.2)
| ps_ensure id name q r m' : u32 id → ensure_process id name q t.1 = Done r m' → pstep t (m', t.2)
| ps_section p sec r m' : set_image_section p sec t.1 = Done r m' → pstep t (m', t.2)
| ps_token p tok r m' : set_token p tok t.1 = Done r m' → pstep t (m', t.2)
| ps_create_thread p start ctx base size r t' :
    create_thread_ex p start ctx base size t = Done r t' → pstep t t'
| ps_ensure_thread p id start r m' :
    u32 id → ensure_thread p id start t.1 = Done r m' → pstep t (m', t.2)
| ps_start th r m' : start_thread th t.1 = Done r m' → pstep t (m', t.2)
| ps_terminate_thread th r t' : terminate_thread th t = Done r t' → pstep t t'
| ps_terminate p r t' : terminate_process p t = Done r t' → pstep t t'
| ps_open_process o p acc inh r m' :
    u32 acc → open_process o p acc inh t.1 = Done r m' → pstep t (m', t.2)
| ps_open_thread o th acc inh r m' :
    u32 acc → open_thread o th acc inh t.1 = Done r m' → pstep t (m', t.2)
| ps_duplicate o h acc inh r m' :
    u32 acc → duplicate_handle o h acc inh t.1 = Done r m' → pstep t (m', t.2)
| ps_inherit p c r m' : inherit_handles p c t.1 = Done r m' → pstep t (m', t.2)
| ps_close o h r m' : close_handle o h t.1 = Done r m' → pstep t (m', t.2)
| ps_close_all o : pstep t ((close_process_handles o t.1).2, t.2)
| ps_scheduler s' : pstep t (t.1, s').

Lemma pstep_inv t t' : PInv t.1 → pstep t t' → PInv t'.1.
Proof.
  intros Hm []; simpl.
  - by eapply pinv_create_process.
  - by eapply pinv_ensure_process.
  - by eapply (pinv_bind (bind_section sec)).
  - by eapply (pinv_bind (bind_token tok)).
  - by eapply pinv_create_thread.
  - by eapply pinv_ensure_thread.
  - by eapply pinv_start_thread.
  - by eapply pinv_terminate_thread.
  - by eapply pinv_terminate_process.
  - by eapply pinv_open_process.
  - by eapply pinv_open_thread.
  - by eapply pinv_duplicate.
  - by eapply pinv_inherit.
  - by eapply pinv_close_handle.
  - by apply pinv_close_all.
  - done.
Qed.

Lemma pinv_new : PInv new_processes.
Proof.
  constructor; simpl; unfold u32_max; try lia; try (by intros k [v Hv]).
  - constructor; [done..|]. exists (λ _, O). done.
  - by constructor.
Qed.

Lemma preachable_inv s0 t : rtc pstep (new_processes, s0) t → PInv t.1.
Proof.
  assert (∀ t1 t2, rtc pstep t1 t2 → PInv t1.1 → PInv t2.1) as H.
  { induction 1; [done|]. eauto using pstep_inv. }
  intros Hs. apply (H _ _ Hs), pinv_new.
Qed.

End scheduled.



(** ** The properties *)

Definition parent_of (ps : gmap Z ProcessRecord) (c p : Z) : Prop :=
  ∃ r, ps !! c = Some r ∧ pr_parent r = Some p.

Lemma genealogy_no_cycle ps p : Genealogy ps → ¬ tc (parent_of ps) p p.
Proof.
  intros [_ _ _ [rank Hr]].
  assert (∀ x y, tc (parent_of ps) x y → (rank y < rank x)%nat) as H.
  { induction 1 as [x y (r & Hx & Hp)|x y z (r & Hx & Hp) _ IH]; [by eapply Hr|].
    specialize (Hr _ _ _ Hx Hp). lia. }
  intros Hc%H. lia.
Qed.

(** C35 - With every scheduler, in every reachable state of the executive: the
    identifiers in use are below the next ones; parents exist, a child set holds
    exactly the active children and no process is its own ancestor; a live thread
    is listed by its own process, which is active, and by no other; a terminated
    process has no live thread; every handle names an existing owner and target
    and carries a nonempty subset of the target type's rights. *)
Theorem process_tables_consistent {S} `{!ThreadScheduler S} (s0 : S) t :
  rtc pstep (new_processes, s0) t →
  PInv t.1 ∧
  (∀ p, ¬ tc (parent_of (pm_processes t.1)) p p) ∧
  (∀ th tr, pm_threads t.1 !! th = Some tr → is_live tr = true →
     ∀ p r, pm_processes t.1 !! p = Some r →
       (th ∈ pr_threads r ↔ p = th_process tr) ∧ (p = th_process tr → pr_state r = PsActive)) ∧
  (∀ p r th tr, pm_processes t.1 !! p = Some r → pr_state r = PsTerminated →
     pm_threads t.1 !! th = Some tr → th_process tr = p → th_state tr = TsTerminated).
Proof.
  intros Hs. pose proof (preachable_inv s0 t Hs) as Hm. pose proof (pi_membership _ Hm) as Hme.
  split_and!; [done| | |].
  - intros p. apply genealogy_no_cycle, Hm.
  - intros th tr Ht Hl p r Hp. destruct (me_live _ _ Hme _ _ Ht Hl) as (r' & Hr' & Hact & Hin).
    split; [split|].
    + intros Hth. destruct (me_listed _ _ Hme _ _ _ Hp Hth) as (tr' & ? & <-). by simplify_eq.
    + intros ->. by simplify_eq.
    + intros ->. by simplify_eq.
  - intros p r th tr Hp Hdead Ht <-. destruct (is_live tr) eqn:Hl.
    + destruct (me_live _ _ Hme _ _ Ht Hl) as (r' & Hr' & Hact & _). congruence.
    + unfold is_live in Hl. by apply negb_false_iff, bool_decide_eq_true in Hl.
Qed.

(** A scheduler that records what is attached and refuses to detach thread 8. *)
Definition recorder : ThreadScheduler (list (Z * Z)) := {|
  attach_thread := λ p th _ _ _ _ s, Done (Ok tt) (s ++ [(p, th)]);
  detach_thread := λ p th s,
    if th =? 8 then Done (Err STATUS_INSUFFICIENT_RESOURCES) s
    else Done (Ok tt) (filter (λ e, e ≠ (p, th)) s);
|}.

Definition demo_process : ProcessManager * list (Z * Z) :=
  let m := state_of (create_process None (lit "a.exe") None new_processes) new_processes in
  let t := (m, []) in
  let t := state_of (@create_thread_ex _ recorder 4 0x1000 0 0 0 t) t in
  state_of (@create_thread_ex _ recorder 4 0x2000 0 0 0 t) t.

Lemma demo_process_reachable : rtc (@pstep _ recorder) (new_processes, []) demo_process.
Proof.
  eapply rtc_l; [by eapply (@ps_create _ recorder _ None (lit "a.exe") None), run_eq|].
  eapply rtc_l; [by apply (@ps_create_thread _ recorder _ 4 0x1000 0 0 0 (Ok 4)), run_eq|].
  eapply rtc_l; [by apply (@ps_create_thread _ recorder _ 4 0x2000 0 0 0 (Ok 8)), run_eq|].
  done.
Qed.

Lemma process_tables_consistent_witness :
  PInv demo_process.1 ∧ process_threads 4 demo_process.1 = Ok [4; 8].
Proof.
  split; [|by vm_compute].
  apply (@process_tables_consistent _ recorder [] demo_process), demo_process_reachable.
Defined.

(** Terminating an active process detaches its threads from the scheduler in
    order.  If every detachment succeeds the call reports their number, every
    thread of the process is terminated and no other thread changes, the process
    is terminated with its exit status and no threads, its parent no longer lists
    it, other records and all handles are untouched, and the process is refused
    from then on.  If the scheduler refuses a thread, the error is returned with
    the threads before it already terminated and every process record unchanged,
    the process still active. *)
Theorem terminate_process_stops {S} `{!ThreadScheduler S} (s0 : S) m s p r :
  rtc pstep (new_processes, s0) (m, s) →
  pm_processes m !! p = Some r → pr_state r = PsActive →
  match detach_all p (bt_elems (pr_threads r)) s with
  | Done (Ok _) s' => ∃ m',
      terminate_process p (m, s) = Done (Ok (Z.of_nat (size (pr_threads r)))) (m', s') ∧
      pm_processes m' !! p = Some (set_terminated r) ∧
      (∀ q, q ≠ p → pm_processes m' !! q =
         if decide (pr_parent r = Some q) then remove_child p <$> pm_processes m !! q
         else pm_processes m !! q) ∧
      (∀ th tr, pm_threads m' !! th = Some tr → th_process tr = p → th_state tr = TsTerminated) ∧
      (∀ th, th ∉ pr_threads r → pm_threads m' !! th = pm_threads m !! th) ∧
      pm_handles m' = pm_handles m ∧
      active_process p m' = Done (Err STATUS_PROCESS_IS_TERMINATING) m'
  | Done (Err e) s' => ∃ m' l1 th l2 s1,
      bt_elems (pr_threads r) = l1 ++ th :: l2 ∧
      detach_all p l1 s = Done (Ok tt) s1 ∧ detach_thread p th s1 = Done (Err e) s' ∧
      terminate_process p (m, s) = Done (Err e) (m', s') ∧
      pm_processes m' = pm_processes m ∧ pm_handles m' = pm_handles m ∧
      (∀ x, pm_threads m' !! x = if decide (x ∈ l1) then set_state TsTerminated <$> pm_threads m !! x
                                 else pm_threads m !! x)
  | Panic => terminate_process p (m, s) = Panic
  end.
Proof.
  intros Hs Hp Hact. pose proof (preachable_inv s0 _ Hs) as Hm. simpl in Hm.
  assert (active_result p m = Ok r) as Ha by (by apply active_result_Ok).
  pose proof (terminate_process_run p r m s Ha) as Hrun.
  pose proof (pinv_terminated p r m Ha Hm) as Hm'.
  pose proof (λ q, lookup_bury (pm_processes m) p r q (pi_genealogy _ Hm) Hp) as Hb.
  assert (pm_processes (terminated p r m) !! p = Some (set_terminated r)) as Hp'
    by (simpl; by rewrite Hb, decide_True).
  destruct (detach_all _ _ s) as [[[]|e] s'|]; [| |done].
  - exists (terminated p r m). split_and!; [done|done| | | |done|].
    + intros q Hq. simpl. by rewrite Hb, decide_False.
    + intros th tr Ht Htp. destruct (is_live tr) eqn:Hl.
      * destruct (me_live _ _ (pi_membership _ Hm') _ _ Ht Hl) as (r' & Hr' & Hst & _).
        rewrite Htp, Hp' in Hr'. by simplify_eq.
      * unfold is_live in Hl. by apply negb_false_iff, bool_decide_eq_true in Hl.
    + intros th Hth. change (pm_threads (terminated p r m)) with
        (pm_threads (stopped (bt_elems (pr_threads r)) m)).
      rewrite lookup_stopped, decide_False; [done|]. by rewrite elem_of_bt_elems.
    + rewrite active_process_eq. unfold active_result. by rewrite Hp'.
  - destruct Hrun as (l1 & th & l2 & s1 & Hl & Hok & Herr & Hrun).
    exists (stopped l1 m), l1, th, l2, s1.
    split_and!; [done..|]. intros x. apply lookup_stopped.
Qed.

(** The second of two threads is refused: the first is gone, the process lives. *)
Lemma terminate_process_stops_witness :
  ∃ m' r', terminate_process (S := list (Z * Z)) (ThreadScheduler0 := recorder) 4 demo_process =
           Done (Err STATUS_INSUFFICIENT_RESOURCES) (m', [(4, 8)]) ∧
    pm_processes m' !! 4 = Some r' ∧ pr_state r' = PsActive ∧
    th_state <$> pm_threads m' !! 4 = Some TsTerminated ∧
    th_state <$> pm_threads m' !! 8 = Some TsReady.
Proof.
  destruct (pm_processes demo_process.1 !! 4) as [r|] eqn:Hr; [|by vm_compute in Hr].
  assert (pr_state r = PsActive) as Hact by (vm_compute in Hr; by injection Hr as <-).
  pose proof (@terminate_process_stops _ recorder [] demo_process.1 demo_process.2 4 r
                demo_process_reachable Hr Hact) as H.
  assert (bt_elems (pr_threads r) = [4; 8]) as Hl
    by (clear H Hact; vm_compute in Hr; injection Hr as <-; by vm_compute).
  rewrite Hl in H. vm_compute (@detach_all _ _ _ _ _) in H. cbv iota beta in H.
  destruct H as (m' & l1 & th & l2 & s1 & E & _ & Hd & Hrun & Hps & _ & Hth). exists m', r.
  split; [exact Hrun|]. split; [by rewrite Hps|]. split; [exact Hact|].
  assert (l1 = [4]) as ->.
  { clear - E Hd. destruct l1 as [|x [|y l1]]; simplify_eq/=; [done..|]. by destruct l1. }
  rewrite !Hth. by vm_compute.
Defined.


(** The access checks of both kinds of handle. *)
Lemma desired_test desired access :
  u32 desired →
  negb (desired =? 0) && negb (Z.land desired (not_u32 access) =? 0) = false ↔
  bits_within desired access.
Proof.
  intros Hu. rewrite andb_false_iff, !negb_false_iff, !Z.eqb_eq, land_not_u32_spec by done.
  split; [|by right]. intros [->|?]; [|done]. unfold bits_within. apply Z.land_0_l.
Qed.

Lemma require_access_spec owner h desired m e :
  u32 desired → lookup_handle owner h m = Ok e →
  (∀ p, require_process_access owner h desired m = Ok p ↔
        ph_target e = TargetProcess p ∧ bits_within desired (ph_access e)) ∧
  (∀ th, require_thread_access owner h desired m = Ok th ↔
        ph_target e = TargetThread th ∧ bits_within desired (ph_access e)).
Proof.
  intros Hu Hl. pose proof (desired_test desired (ph_access e) Hu) as Ht.
  unfold require_process_access, require_thread_access. rewrite Hl.
  destruct (ph_target e); split; intros x; rewrite <-Ht; destruct (negb (desired =? 0) && _);
    (split; [intros Hx|intros [Hx Hy]]); by simplify_eq.
Qed.

(** A duplicated process or thread handle refers to the same object with the
    requested rights, or the source's when none are named, and these are always a
    subset of the source handle's; a request beyond them is refused with the state
    unchanged; until the handle counter saturates the new handle is fresh and
    every existing handle keeps its entry; the access checks then grant through
    the new handle exactly the subsets of these rights. *)
Theorem process_handles_no_amplification {S} `{!ThreadScheduler S} (s0 : S) t owner source access inh e :
  rtc pstep (new_processes, s0) t → u32 access →
  lookup_handle owner source t.1 = Ok e →
  let effective := if access =? 0 then ph_access e else access in
  (¬ bits_within effective (ph_access e) →
   duplicate_handle owner source access inh t.1 = Done (Err STATUS_ACCESS_DENIED) t.1) ∧
  (bits_within effective (ph_access e) →
   ∃ h m', duplicate_handle owner source access inh t.1 = Done (Ok h) m' ∧
     lookup_handle owner h m' = Ok {| ph_owner := owner; ph_target := ph_target e;
                                      ph_access := effective; ph_inheritable := inh |} ∧
     (pm_next_handle t.1 < u32_max → pm_handles t.1 !! h = None ∧
        ∀ o k, k ≠ h → lookup_handle o k m' = lookup_handle o k t.1) ∧
     ∀ desired, u32 desired →
       (∀ p, require_process_access owner h desired m' = Ok p ↔
             ph_target e = TargetProcess p ∧ bits_within desired effective) ∧
       (∀ th, require_thread_access owner h desired m' = Ok th ↔
             ph_target e = TargetThread th ∧ bits_within desired effective)).
Proof.
  intros Hs Hu Hl effective. pose proof (preachable_inv s0 t Hs) as Hm.
  assert (u32 effective) as Heu.
  { apply lookup_handle_Ok in Hl as (_ & Hh & _).
    destruct (pi_handles _ Hm _ _ Hh) as (_ & _ & _ & Hua & _). unfold effective.
    by destruct (access =? 0). }
  pose proof (duplicate_run owner source access inh t.1 Hu) as Hrun.
  rewrite Hl in Hrun. cbv zeta in Hrun. fold effective in Hrun.
  pose proof (land_not_u32_spec effective (ph_access e) Heu) as Ht.
  split; intros Hw; rewrite <-Ht in Hw.
  - by rewrite (proj2 (Z.eqb_neq _ _) Hw) in Hrun.
  - rewrite (proj2 (Z.eqb_eq _ _) Hw), insert_handle_run in Hrun. eexists _, _. split; [exact Hrun|].
    assert (4 ≤ pm_next_handle t.1) by apply Hm.
    match goal with |- lookup_handle _ _ ?m' = Ok ?e' ∧ _ =>
      assert (lookup_handle owner (pm_next_handle t.1) m' = Ok e') as Hnew end.
    { apply lookup_handle_Ok. split_and!; [lia| |done]. apply lookup_insert_eq. }
    split_and!; [done| |].
    + intros Hlt. split.
      * destruct (pm_handles t.1 !! pm_next_handle t.1) eqn:E; [|done].
        destruct (pi_handles _ Hm _ _ E) as ([_ Hlt'] & _). specialize (Hlt' Hlt). lia.
      * intros o k Hk. unfold lookup_handle. simpl. by rewrite lookup_insert_ne.
    + intros desired Hd. by apply (require_access_spec _ _ _ _ _ Hd) in Hnew.
Qed.

Definition demo_opened : ProcessManager * list (Z * Z) :=
  (state_of (open_process 4 4 PROCESS_ALL_ACCESS false demo_process.1) demo_process.1,
   demo_process.2).

Lemma process_handles_no_amplification_witness :
  ∃ h m', duplicate_handle 4 4 PROCESS_TERMINATE true demo_opened.1 = Done (Ok h) m' ∧
    require_process_access 4 h PROCESS_TERMINATE m' = Ok 4 ∧
    require_process_access 4 h DELETE m' ≠ Ok 4.
Proof.
  assert (rtc (@pstep _ recorder) (new_processes, []) demo_opened) as Hs.
  { eapply rtc_r; [apply demo_process_reachable|].
    apply (@ps_open_process _ recorder demo_process 4 4 PROCESS_ALL_ACCESS false (Ok 4));
      [by vm_compute|by apply run_eq]. }
  set (e := {| ph_owner := 4; ph_target := TargetProcess 4; ph_access := PROCESS_ALL_ACCESS;
               ph_inheritable := false |}).
  assert (lookup_handle 4 4 demo_opened.1 = Ok e) as Hl by (clear Hs; by vm_compute).
  assert (∀ x, (0 <=? x) && (x <=? u32_max) = true → u32 x) as Hu32
    by (unfold u32; intros x Hx; bool_prop; lia).
  destruct (@process_handles_no_amplification _ recorder [] demo_opened 4 4 PROCESS_TERMINATE true e
    Hs (Hu32 PROCESS_TERMINATE eq_refl) Hl) as [_ Hok].
  destruct Hok as (h & m' & Hrun & _ & _ & Hreq); [by vm_compute|].
  exists h, m'. split; [exact Hrun|]. split.
  - apply (Hreq PROCESS_TERMINATE (Hu32 PROCESS_TERMINATE eq_refl)). split; [done|by vm_compute].
  - intros H. apply (Hreq DELETE (Hu32 DELETE eq_refl)) in H as [_ H]. by vm_compute in H.
Defined.

(** ** What the counters and the documentation promise *)

(** The handle counter saturates instead of failing: at its end every insertion
    returns the same handle and replaces the entry before it. *)
Lemma handle_counter_saturates m o1 g1 a1 i1 o2 g2 a2 i2 :
  pm_next_handle m = u32_max →
  ∃ m1 m2, insert_handle o1 g1 a1 i1 m = Done (Ok u32_max) m1 ∧
    insert_handle o2 g2 a2 i2 m1 = Done (Ok u32_max) m2 ∧
    pm_handles m2 !! u32_max =
      Some {| ph_owner := o2; ph_target := g2; ph_access := a2; ph_inheritable := i2 |}.
Proof.
  intros H. eexists _, _. split; [rewrite insert_handle_run, H; reflexivity|].
  split; [by rewrite insert_handle_run|]. simpl. apply lookup_insert_eq.
Qed.

(** An adopted identifier only has to be nonzero, not a multiple of four. *)
Lemma ensure_process_any_identifier :
  ∃ m, ensure_process 6 (lit "a.exe") None new_processes = Done (Ok tt) m ∧
    process_count m = 1 ∧ is_Some (pm_processes m !! 6) ∧ pm_next_process m = 10.
Proof.
  eexists. split; [by apply run_eq|]. split_and!; [by vm_compute| |by vm_compute].
  apply (bool_decide_unpack _). by vm_compute.
Qed.

End Ps.
