(* ===== verification/Threads.v ===== *)
(** * The kernel-thread scheduler ([src/casak/threads.rs])

    Cooperative scheduling of kernel threads: execution records, the ready queue
    and the running slot, waits, APCs, handles.  [SystemThreadManager] implements
    the trait [ThreadScheduler] of [Process]: its instance is at the end, and
    [create] runs on the pair of the process manager and the scheduler.  An
    [Instant] is a point of time, only compared: a [Z]. *)

From S2P Require Import Prelude Status Object Process.

(** ** Data *)

Inductive KernelThreadState : Type := KsReady | KsRunning | KsWaiting | KsTerminated.

#[export] Instance KernelThreadState_eq_dec : EqDecision KernelThreadState.
Proof. solve_decision. Defined.

Inductive WaitTarget : Type := WaitEvent (e : Z) | WaitThread (t : Z).

Record SystemWait := {
  sw_target : WaitTarget;
  sw_deadline : option Z;
  sw_alertable : bool;
}.

Record SystemApc := { sa_id : Z; sa_routine : Z; sa_context : Z }.

Record KernelThread := {
  kt_id : Z;
  kt_process : Z;
  kt_start_routine : Z;
  kt_context : Z;
  kt_stack_base : Z;
  kt_stack_size : Z;
  kt_state : KernelThreadState;
  kt_exit_status : Z;
  kt_irql : Z;
  kt_termination_requested : option Z;
  kt_apcs : list SystemApc;
  kt_wait : option SystemWait;
  kt_pending_wake_status : option Z;
}.

Definition is_terminated (t : KernelThread) : bool := bool_decide (kt_state t = KsTerminated).

Record RunnableThread := {
  rt_id : Z;
  rt_process : Z;
  rt_start_routine : Z;
  rt_context : Z;
  rt_stack_base : Z;
  rt_stack_size : Z;
}.

Record CreatedThread := { ct_id : Z; ct_handle : Z }.

Record PendingAttachment := {
  pa_handle : Z;
  pa_context : Z;
  pa_stack_base : Z;
  pa_stack_size : Z;
}.

Record SystemThreadManager := {
  st_threads : gmap Z KernelThread;
  st_handles : gmap Z Z;
  st_ready : list Z;
  st_running : option Z;
  st_pending_attachment : option PendingAttachment;
  st_next_handle : Z;
  st_next_apc : Z;
  st_created : Z;
  st_started : Z;
  st_completed : Z;
  st_terminated : Z;
}.

Definition new_threads : SystemThreadManager :=
  {| st_threads := ∅; st_handles := ∅; st_ready := []; st_running := None;
     st_pending_attachment := None; st_next_handle := 0x100; st_next_apc := 1;
     st_created := 0; st_started := 0; st_completed := 0; st_terminated := 0 |}.

(** ** Field updates *)

(** [thread.state], [thread.wait] and [thread.pending_wake_status] change together. *)
Definition kt_move (state : KernelThreadState) (wait : option SystemWait) (wake : option Z)
    (t : KernelThread) : KernelThread :=
  {| kt_id := kt_id t; kt_process := kt_process t; kt_start_routine := kt_start_routine t;
     kt_context := kt_context t; kt_stack_base := kt_stack_base t;
     kt_stack_size := kt_stack_size t; kt_state := state; kt_exit_status := kt_exit_status t;
     kt_irql := kt_irql t; kt_termination_requested := kt_termination_requested t;
     kt_apcs := kt_apcs t; kt_wait := wait; kt_pending_wake_status := wake |}.

(** The exit status, the IRQL and the termination request. *)
Definition kt_exit (status irql : Z) (requested : option Z) (t : KernelThread) : KernelThread :=
  {| kt_id := kt_id t; kt_process := kt_process t; kt_start_routine := kt_start_routine t;
     kt_context := kt_context t; kt_stack_base := kt_stack_base t;
     kt_stack_size := kt_stack_size t; kt_state := kt_state t; kt_exit_status := status;
     kt_irql := irql; kt_termination_requested := requested;
     kt_apcs := kt_apcs t; kt_wait := kt_wait t;
     kt_pending_wake_status := kt_pending_wake_status t |}.

Definition kt_set_apcs (apcs : list SystemApc) (t : KernelThread) : KernelThread :=
  {| kt_id := kt_id t; kt_process := kt_process t; kt_start_routine := kt_start_routine t;
     kt_context := kt_context t; kt_stack_base := kt_stack_base t;
     kt_stack_size := kt_stack_size t; kt_state := kt_state t;
     kt_exit_status := kt_exit_status t; kt_irql := kt_irql t;
     kt_termination_requested := kt_termination_requested t; kt_apcs := apcs;
     kt_wait := kt_wait t; kt_pending_wake_status := kt_pending_wake_status t |}.

(** [thread.state = state] *)
Definition kt_set_state (state : KernelThreadState) (t : KernelThread) : KernelThread :=
  kt_move state (kt_wait t) (kt_pending_wake_status t) t.
(** [thread.termination_requested = Some(status)] *)
Definition kt_request (status : Z) (t : KernelThread) : KernelThread :=
  kt_exit (kt_exit_status t) (kt_irql t) (Some status) t.
(** [record.irql = irql] *)
Definition kt_set_irql (irql : Z) (t : KernelThread) : KernelThread :=
  kt_exit (kt_exit_status t) irql (kt_termination_requested t) t.
(** [record.pending_wake_status = wake] *)
Definition kt_set_wake (wake : option Z) (t : KernelThread) : KernelThread :=
  kt_move (kt_state t) (kt_wait t) wake t.

Definition st_update (threads : gmap Z KernelThread) (ready : list Z) (running : option Z)
    (s : SystemThreadManager) : SystemThreadManager :=
  {| st_threads := threads; st_handles := st_handles s; st_ready := ready; st_running := running;
     st_pending_attachment := st_pending_attachment s; st_next_handle := st_next_handle s;
     st_next_apc := st_next_apc s; st_created := st_created s; st_started := st_started s;
     st_completed := st_completed s; st_terminated := st_terminated s |}.
Definition st_alter (f : KernelThread → KernelThread) (id : Z) (s : SystemThreadManager)
    : SystemThreadManager := st_update (alter f id (st_threads s)) (st_ready s) (st_running s) s.
Definition st_set_ready (ready : list Z) (s : SystemThreadManager) : SystemThreadManager :=
  st_update (st_threads s) ready (st_running s) s.
Definition st_set_running (running : option Z) (s : SystemThreadManager) : SystemThreadManager :=
  st_update (st_threads s) (st_ready s) running s.
Definition st_set_handles (handles : gmap Z Z) (next : Z) (pending : option PendingAttachment)
    (s : SystemThreadManager) : SystemThreadManager :=
  {| st_threads := st_threads s; st_handles := handles; st_ready := st_ready s;
     st_running := st_running s; st_pending_attachment := pending; st_next_handle := next;
     st_next_apc := st_next_apc s; st_created := st_created s; st_started := st_started s;
     st_completed := st_completed s; st_terminated := st_terminated s |}.
Definition st_set_pending (pending : option PendingAttachment) (s : SystemThreadManager)
    : SystemThreadManager := st_set_handles (st_handles s) (st_next_handle s) pending s.
Definition st_set_next_apc (next : Z) (s : SystemThreadManager) : SystemThreadManager :=
  {| st_threads := st_threads s; st_handles := st_handles s; st_ready := st_ready s;
     st_running := st_running s; st_pending_attachment := st_pending_attachment s;
     st_next_handle := st_next_handle s; st_next_apc := next; st_created := st_created s;
     st_started := st_started s; st_completed := st_completed s;
     st_terminated := st_terminated s |}.
Definition st_set_counters (created started completed terminated : Z) (s : SystemThreadManager)
    : SystemThreadManager :=
  {| st_threads := st_threads s; st_handles := st_handles s; st_ready := st_ready s;
     st_running := st_running s; st_pending_attachment := st_pending_attachment s;
     st_next_handle := st_next_handle s; st_next_apc := st_next_apc s; st_created := created;
     st_started := started; st_completed := completed; st_terminated := terminated |}.

(** [self.created += 1], [self.started += 1], [self.completed += 1],
    [self.terminated += 1] *)
Definition count_created : M SystemThreadManager unit :=
  s <- gets id ;; n <- add_at u64_max (st_created s) 1 ;;
  modify (st_set_counters n (st_started s) (st_completed s) (st_terminated s)).
Definition count_started : M SystemThreadManager unit :=
  s <- gets id ;; n <- add_at u64_max (st_started s) 1 ;;
  modify (st_set_counters (st_created s) n (st_completed s) (st_terminated s)).
Definition count_completed : M SystemThreadManager unit :=
  s <- gets id ;; n <- add_at u64_max (st_completed s) 1 ;;
  modify (st_set_counters (st_created s) (st_started s) n (st_terminated s)).
Definition count_terminated : M SystemThreadManager unit :=
  s <- gets id ;; n <- add_at u64_max (st_terminated s) 1 ;;
  modify (st_set_counters (st_created s) (st_started s) (st_completed s) n).

(** [ready.retain(|candidate| *candidate != id)] *)
Definition retain_ready (id : Z) (s : SystemThreadManager) : SystemThreadManager :=
  st_set_ready (filter (λ c, c ≠ id) (st_ready s)) s.
Definition push_ready (id : Z) (s : SystemThreadManager) : SystemThreadManager :=
  st_set_ready (st_ready s ++ [id]) s.

(** A fresh execution record. *)
Definition fresh_thread (id process start context base size : Z) (state : KernelThreadState)
    : KernelThread :=
  {| kt_id := id; kt_process := process; kt_start_routine := start; kt_context := context;
     kt_stack_base := base; kt_stack_size := size; kt_state := state; kt_exit_status := 0;
     kt_irql := 0; kt_termination_requested := None; kt_apcs := []; kt_wait := None;
     kt_pending_wake_status := None |}.

(** ** Lookups *)

Definition record_of (thread : Z) (s : SystemThreadManager) : result KernelThread :=
  match st_threads s !! thread with Some t => Ok t | None => Err STATUS_INVALID_HANDLE end.

(** The two lookups every operation on a handle starts with. *)
Definition resolve (handle : Z) : M SystemThreadManager (Z * KernelThread) :=
  handles <- gets st_handles ;;
  id <- ok_or (handles !! handle) STATUS_INVALID_HANDLE ;;
  t <- query (record_of id) ;;
  ret (id, t).

(** ** Slices *)

(** The [while let Some(id) = self.ready.pop_front()] loop: the thread it settles
    on, and the queue it leaves. *)
Fixpoint pick_ready (threads : gmap Z KernelThread) (ready : list Z)
    : option (Z * KernelThread) * list Z :=
  match ready with
  | [] => (None, [])
  | id :: rest =>
      match threads !! id with
      | Some t => if bool_decide (kt_state t = KsReady) then (Some (id, t), rest)
                  else pick_ready threads rest
      | None => pick_ready threads rest
      end
  end.

Definition runnable (id : Z) (t : KernelThread) : RunnableThread :=
  {| rt_id := id; rt_process := kt_process t; rt_start_routine := kt_start_routine t;
     rt_context := kt_context t; rt_stack_base := kt_stack_base t;
     rt_stack_size := kt_stack_size t |}.

Definition take_next : M SystemThreadManager (option RunnableThread) :=
  running <- gets st_running ;;
  match running with
  | Some _ => ret None
  | None =>
      ' (picked, rest) <- gets (λ s, pick_ready (st_threads s) (st_ready s)) ;;
      modify (st_set_ready rest) ;;;
      match picked with
      | None => ret None
      | Some (id, t) =>
          modify (st_alter (kt_set_state KsRunning) id) ;;;
          modify (st_set_running (Some id)) ;;;
          count_started ;;;
          ret (Some (runnable id t))
      end
  end.

Definition finish_current (exit_status : Z) : M SystemThreadManager Z :=
  running <- gets st_running ;;
  id <- ok_or running STATUS_INVALID_HANDLE ;;
  threads <- gets st_threads ;;
  match threads !! id with
  | None => modify (st_set_running None) ;;; throw STATUS_INVALID_HANDLE
  | Some t =>
      let requested := kt_termination_requested t in
      modify (st_alter (λ t, kt_exit (default exit_status requested) 0 requested
                               (kt_move KsTerminated None None t)) id) ;;;
      modify (st_set_running None) ;;;
      count_completed ;;;
      (if bool_decide (is_Some requested) then count_terminated else ret tt) ;;;
      ret id
  end.

Definition fail_current : M SystemThreadManager Z :=
  running <- gets st_running ;;
  id <- ok_or running STATUS_INVALID_HANDLE ;;
  _ <- finish_current STATUS_UNSUCCESSFUL ;;
  ret id.

Definition requeue_current : M SystemThreadManager (option Z) :=
  running <- gets st_running ;;
  match running with
  | None => ret None
  | Some id =>
      modify (st_set_running None) ;;;
      threads <- gets st_threads ;;
      t <- expect (threads !! id) ;;
      (if bool_decide (kt_state t = KsRunning)
       then modify (st_alter (kt_set_state KsReady) id) ;;; modify (push_ready id)
       else ret tt) ;;;
      ret (Some id)
  end.

(** [self.running.take()] *)
Definition release_running_for_wait : M SystemThreadManager (option Z) :=
  running <- gets st_running ;;
  modify (st_set_running None) ;;;
  ret running.

Definition restore_running (thread : Z) : M SystemThreadManager unit :=
  modify (st_set_running (Some thread)).

(** ** Termination *)

Definition request_terminate (handle exit_status : Z) : M SystemThreadManager (Z * bool) :=
  ' (id, t) <- resolve handle ;;
  match kt_state t with
  | KsTerminated => throw STATUS_THREAD_IS_TERMINATING
  | KsRunning => modify (st_alter (kt_request exit_status) id) ;;; ret (id, false)
  | KsReady | KsWaiting =>
      modify (st_alter (λ t, kt_exit exit_status (kt_irql t) (Some exit_status)
                               (kt_move KsTerminated None None t)) id) ;;;
      modify (retain_ready id) ;;;
      count_completed ;;;
      count_terminated ;;;
      ret (id, true)
  end.

Definition request_terminate_current (exit_status : Z) : M SystemThreadManager Z :=
  running <- gets st_running ;;
  id <- ok_or running STATUS_INVALID_HANDLE ;;
  threads <- gets st_threads ;;
  match threads !! id with
  | Some _ => modify (st_alter (kt_request exit_status) id) ;;; ret id
  | None => modify (st_set_running None) ;;; throw STATUS_INVALID_HANDLE
  end.

Definition adopt_thread (process thread : Z) : M SystemThreadManager unit :=
  known <- gets (λ s, bool_decide (is_Some (st_threads s !! thread))) ;;
  if known : bool then ret tt
  else modify (λ s, st_update
    (<[thread := fresh_thread thread process 0 0 0 0 KsRunning]> (st_threads s))
    (st_ready s) (st_running s) s).

(** ** Waits *)

Definition wait_current (wait : SystemWait) : M SystemThreadManager Z :=
  running <- gets st_running ;;
  modify (st_set_running None) ;;;
  id <- ok_or running STATUS_INVALID_HANDLE ;;
  _ <- query (record_of id) ;;
  modify (st_alter (λ t, kt_move KsWaiting (Some wait) (kt_pending_wake_status t) t) id) ;;;
  ret id.

Definition wake (thread status : Z) : M SystemThreadManager unit :=
  t <- query (record_of thread) ;;
  fail_if (negb (bool_decide (kt_state t = KsWaiting))) STATUS_INVALID_PARAMETER ;;;
  modify (st_alter (kt_move KsReady None (Some status)) thread) ;;;
  modify (push_ready thread).

Definition cancel_wait (handle status : Z) : M SystemThreadManager Z :=
  handles <- gets st_handles ;;
  id <- ok_or (handles !! handle) STATUS_INVALID_HANDLE ;;
  wake id status ;;;
  ret id.

Definition set_pending_wake_status (thread status : Z) : M SystemThreadManager unit :=
  _ <- query (record_of thread) ;;
  modify (st_alter (kt_set_wake (Some status)) thread).

Definition take_wake_status (thread : Z) : M SystemThreadManager (option Z) :=
  threads <- gets st_threads ;;
  match threads !! thread with
  | None => ret None
  | Some t => modify (st_alter (kt_set_wake None) thread) ;;; ret (kt_pending_wake_status t)
  end.

Definition waiting_threads (s : SystemThreadManager) : list (Z * SystemWait) :=
  omap (λ e, (λ w, (e.1, w)) <$> kt_wait e.2) (bt_entries (st_threads s)).

Definition has_waiting_threads (s : SystemThreadManager) : bool :=
  existsb (λ t, bool_decide (kt_state t = KsWaiting)) (bt_values (st_threads s)).

(** [.filter_map(..).min()] *)
Definition next_wait_deadline (s : SystemThreadManager) : option Z :=
  foldl (λ m d, Some (match m with Some x => Z.min x d | None => d end)) None
    (omap (λ t, w ← kt_wait t; sw_deadline w) (bt_values (st_threads s))).

(** ** APCs *)

Definition queue_thread_apc (handle routine context : Z) : M SystemThreadManager Z :=
  fail_if (routine =? 0) STATUS_INVALID_PARAMETER ;;;
  ' (id, t) <- resolve handle ;;
  fail_if (is_terminated t) STATUS_THREAD_IS_TERMINATING ;;;
  apc <- gets st_next_apc ;;
  next <- add_at u64_max apc 1 ;;
  modify (st_set_next_apc next) ;;;
  modify (st_alter (λ t, kt_set_apcs
    (kt_apcs t ++ [{| sa_id := apc; sa_routine := routine; sa_context := context |}]) t) id) ;;;
  (if bool_decide (kt_state t = KsWaiting)
      && match kt_wait t with Some w => sw_alertable w | None => false end
   then
     modify (st_alter (kt_move KsReady None (Some STATUS_USER_APC)) id) ;;;
     modify (push_ready id)
   else ret tt) ;;;
  ret apc.

Definition take_apcs_by_thread (thread : Z) : M SystemThreadManager (list SystemApc) :=
  t <- query (record_of thread) ;;
  modify (st_alter (kt_set_apcs []) thread) ;;;
  ret (kt_apcs t).

Definition take_apcs (handle : Z) : M SystemThreadManager (list SystemApc) :=
  ' (id, t) <- resolve handle ;;
  modify (st_alter (kt_set_apcs []) id) ;;;
  ret (kt_apcs t).

Definition cancel_thread_apc (handle apc : Z) : M SystemThreadManager unit :=
  ' (id, t) <- resolve handle ;;
  index <- ok_or (position (λ a, sa_id a =? apc) (kt_apcs t)) STATUS_NOT_FOUND ;;
  modify (st_alter (λ t, kt_set_apcs (remove_at index (kt_apcs t)) t) id).

Definition apc_pending (thread : Z) (s : SystemThreadManager) : bool :=
  match st_threads s !! thread with
  | Some t => match kt_apcs t with [] => false | _ => true end
  | None => false
  end.

(** ** Handles and queries *)

Definition close_thread_handle (handle : Z) : M SystemThreadManager unit :=
  removed <- gets (λ s, st_handles s !! handle) ;;
  modify (λ s, st_set_handles (delete handle (st_handles s)) (st_next_handle s)
                 (st_pending_attachment s) s) ;;;
  _ <- ok_or removed STATUS_INVALID_HANDLE ;;
  ret tt.

Definition query_handle (handle : Z) (s : SystemThreadManager) : result KernelThread :=
  match st_handles s !! handle with
  | Some id => record_of id s
  | None => Err STATUS_INVALID_HANDLE
  end.

Definition exit_status_by_id (thread : Z) (s : SystemThreadManager) : result (option Z) :=
  match record_of thread s with
  | Ok t => Ok (if is_terminated t then Some (kt_exit_status t) else None)
  | Err e => Err e
  end.

Definition exit_status (handle : Z) (s : SystemThreadManager) : result (option Z) :=
  match st_handles s !! handle with
  | Some id => exit_status_by_id id s
  | None => Err STATUS_INVALID_HANDLE
  end.

(** [.iter().find_map(..)] *)
Definition handle_for (thread : Z) (s : SystemThreadManager) : option Z :=
  fst <$> head (filter (λ e, e.2 = thread) (bt_entries (st_handles s))).

Definition set_irql (thread irql : Z) : M SystemThreadManager unit :=
  _ <- query (record_of thread) ;;
  modify (st_alter (kt_set_irql irql) thread).

Definition thread_record (thread : Z) (s : SystemThreadManager) : option KernelThread :=
  st_threads s !! thread.
Definition thread_state (thread : Z) (s : SystemThreadManager) : option KernelThreadState :=
  kt_state <$> st_threads s !! thread.
Definition wait_of (thread : Z) (s : SystemThreadManager) : option SystemWait :=
  t ← st_threads s !! thread; kt_wait t.

(** ** The scheduler side of the process manager *)

(** [self.pending_attachment.take()] *)
Definition take_pending : M SystemThreadManager (option PendingAttachment) :=
  pending <- gets st_pending_attachment ;;
  modify (st_set_pending None) ;;;
  ret pending.

Definition attach_kernel_thread (process thread start_routine _context _stack_base _stack_size : Z)
    : M SystemThreadManager unit :=
  pending <- take_pending ;;
  pending <- ok_or pending STATUS_INVALID_PARAMETER ;;
  known <- gets (λ s, bool_decide (is_Some (st_threads s !! thread))) ;;
  fail_if known STATUS_INVALID_PARAMETER ;;;
  modify (λ s, st_set_handles (<[pa_handle pending := thread]> (st_handles s))
                 (st_next_handle s) (st_pending_attachment s) s) ;;;
  modify (λ s, st_update
    (<[thread := fresh_thread thread process start_routine (pa_context pending)
                   (pa_stack_base pending) (pa_stack_size pending) KsReady]> (st_threads s))
    (st_ready s) (st_running s) s) ;;;
  modify (push_ready thread).

Definition detach_kernel_thread (_process thread : Z) : M SystemThreadManager unit :=
  t <- query (record_of thread) ;;
  (if negb (bool_decide (kt_state t = KsTerminated))
   then
     modify (st_alter (λ t, kt_exit STATUS_UNSUCCESSFUL (kt_irql t) (kt_termination_requested t)
                              (kt_set_state KsTerminated t)) thread) ;;;
     count_terminated
   else ret tt) ;;;
  modify (retain_ready thread).

#[export] Instance kernel_scheduler : ThreadScheduler SystemThreadManager := {|
  attach_thread := attach_kernel_thread;
  detach_thread := detach_kernel_thread;
|}.

(** [match c { Ok(..) => .., Err(status) => .. }]: the result as a value. *)
Definition attempt {S A} (c : M S A) : M S (result A) := λ s,
  match c s with Done r s' => Done (Ok r) s' | Panic => Panic end.
Arguments attempt {S A} c s /.

(** The stack parameters [create] refuses. *)
Definition bad_stack (base size : Z) : bool :=
  (size <? 0x1000) || negb (base mod 16 =? 0)
  || match checked_add u64_max base size with Some _ => false | None => true end.

Definition create (process start_routine context stack_base stack_size : Z)
    : M (ProcessManager * SystemThreadManager) CreatedThread :=
  fail_if (bad_stack stack_base stack_size) STATUS_INVALID_PARAMETER ;;;
  pending <- scheduler (gets st_pending_attachment) ;;
  fail_if (bool_decide (is_Some pending)) STATUS_INVALID_PARAMETER ;;;
  handle <- scheduler (gets st_next_handle) ;;
  scheduler (modify (λ s, st_set_handles (st_handles s) (saturating_add u64_max handle 4)
    (Some {| pa_handle := handle; pa_context := context; pa_stack_base := stack_base;
             pa_stack_size := stack_size |}) s)) ;;;
  r <- attempt (create_thread_ex process start_routine context stack_base stack_size) ;;
  match r with
  | Err status => scheduler (modify (st_set_pending None)) ;;; throw status
  | Ok id =>
      scheduler count_created ;;;
      ret {| ct_id := id; ct_handle := handle |}
  end.
