(* ===== verification/ThreadsFacts.v ===== *)
(** * Correctness of the kernel-thread scheduler

    The ready queue holds exactly the ready threads, scheduling is round robin,
    creation keeps the process manager and the scheduler in step, and process
    termination takes its threads off the queue.  [kernel_scheduler] discharges the
    interface [ThreadScheduler] the process manager was verified against. *)

From S2P Require Import Prelude Status Object Process ProcessFacts Threads.

Module Kt.

(** ** The invariant *)

Definition ready (t : KernelThread) : Prop := kt_state t = KsReady.

(** A thread in the running slot runs, or was terminated while it ran. *)
Definition may_run (t : KernelThread) : Prop :=
  kt_state t = KsRunning ∨ kt_state t = KsTerminated.

Definition wait_ok (t : KernelThread) : Prop :=
  (kt_state t = KsWaiting → is_Some (kt_wait t)) ∧
  (kt_state t = KsReady ∨ kt_state t = KsRunning → kt_wait t = None).

Definition apcs_ok (next : Z) (t : KernelThread) : Prop :=
  Forall (λ a, sa_id a < next) (kt_apcs t) ∧ NoDup (sa_id <$> kt_apcs t).

Record TInv (s : SystemThreadManager) : Prop := {
  ti_nodup : NoDup (st_ready s);
  ti_queue : ∀ id, id ∈ st_ready s ↔ ∃ t, st_threads s !! id = Some t ∧ ready t;
  ti_running : ∀ id, st_running s = Some id → ∃ t, st_threads s !! id = Some t ∧ may_run t;
  ti_thread : ∀ id t, st_threads s !! id = Some t →
    kt_id t = id ∧ wait_ok t ∧ apcs_ok (st_next_apc s) t;
  ti_handles : ∀ h id, st_handles s !! h = Some id → is_Some (st_threads s !! id);
  ti_pending : st_pending_attachment s = None;
}.

(** ** Changing one thread *)

(** The thread [id] becomes [f t]; the queue and the running slot change at most
    at [id]. *)
Lemma tinv_change f id t s ready' running' :
  TInv s → st_threads s !! id = Some t →
  kt_id (f t) = id → wait_ok (f t) → apcs_ok (st_next_apc s) (f t) →
  NoDup ready' → (∀ j, j ≠ id → j ∈ ready' ↔ j ∈ st_ready s) →
  (id ∈ ready' ↔ ready (f t)) →
  (∀ r, running' = Some r → st_running s = Some r ∧ r ≠ id ∨ r = id ∧ may_run (f t)) →
  TInv (st_update (alter f id (st_threads s)) ready' running' s).
Proof.
  intros [] Ht Hid Hw Ha Hnd Hq Hqid Hrun.
  assert (∀ j, j ≠ id → alter f id (st_threads s) !! j = st_threads s !! j) as Hne
    by (intros; by rewrite lookup_alter_ne).
  assert (alter f id (st_threads s) !! id = Some (f t)) as Heq by (by rewrite lookup_alter_eq, Ht).
  constructor; simpl; try done.
  - intros j. destruct (decide (j = id)) as [->|Hj].
    + rewrite Hqid, Heq. naive_solver.
    + rewrite Hq, Hne by done. apply ti_queue0.
  - intros r Hr. destruct (Hrun r Hr) as [[Hs Hj]|[-> Hm]]; [|eauto].
    rewrite Hne by done. by apply ti_running0.
  - intros j tj. destruct (decide (j = id)) as [->|Hj].
    + rewrite Heq. by intros [= <-].
    + rewrite Hne by done. apply ti_thread0.
  - intros h j Hh. apply Ps.alter_is_Some. by eapply ti_handles0.
Qed.

(** The frequent case: the state, the queue and the running slot stay. *)
Lemma tinv_quiet f id t s :
  TInv s → st_threads s !! id = Some t →
  kt_id (f t) = kt_id t → kt_state (f t) = kt_state t → kt_wait (f t) = kt_wait t →
  apcs_ok (st_next_apc s) (f t) → TInv (st_alter f id s).
Proof.
  intros Hs Ht Hid Hst Hwt Ha. destruct (ti_thread _ Hs _ _ Ht) as (Hi & Hw & _).
  apply (tinv_change f id t); try done.
  - congruence.
  - unfold wait_ok in *. by rewrite Hst, Hwt.
  - apply Hs.
  - rewrite (ti_queue _ Hs). unfold ready. rewrite Hst, Ht. naive_solver.
  - intros r Hr. destruct (decide (r = id)) as [->|]; [right|by left]. split; [done|].
    destruct (ti_running _ Hs _ Hr) as (t' & Ht' & Hm). simplify_eq.
    unfold may_run in *. by rewrite Hst.
Qed.

Lemma retain_NoDup (id : Z) l : NoDup l → NoDup (filter (λ c, c ≠ id) l).
Proof. apply NoDup_filter. Qed.

Lemma elem_of_retain id j (l : list Z) : j ∈ filter (λ c, c ≠ id) l ↔ j ≠ id ∧ j ∈ l.
Proof. by rewrite list_elem_of_filter. Qed.

Lemma push_NoDup (id : Z) l : id ∉ l → NoDup l → NoDup (l ++ [id]).
Proof. intros Hn Hl. apply NoDup_app. split_and!; [done| |apply NoDup_singleton]. set_solver. Qed.

Lemma tinv_counters a b c d s : TInv s → TInv (st_set_counters a b c d s).
Proof. by intros []. Qed.

Lemma tinv_not_running running' s :
  (running' = None ∨ ∃ id t, running' = Some id ∧ st_threads s !! id = Some t ∧ may_run t) →
  TInv s → TInv (st_set_running running' s).
Proof.
  intros Hr []. constructor; simpl; try done.
  intros id Hid. destruct Hr as [->|(i & t & -> & ?)]; [done|]. simplify_eq. eauto.
Qed.

(** A thread that stops for good, taken off the queue. *)
Lemma tinv_kill f id t s running' :
  TInv s → st_threads s !! id = Some t →
  kt_id (f t) = kt_id t → kt_state (f t) = KsTerminated → kt_apcs (f t) = kt_apcs t →
  (running' = None ∨ running' = st_running s) →
  TInv (st_update (alter f id (st_threads s)) (filter (λ c, c ≠ id) (st_ready s)) running' s).
Proof.
  intros Hs Ht Hid Hst Hap Hr. destruct (ti_thread _ Hs _ _ Ht) as (Hi & Hw & Ha).
  apply (tinv_change f id t); try done.
  - congruence.
  - split; rewrite Hst; [done|]. by intros [].
  - unfold apcs_ok. by rewrite Hap.
  - apply retain_NoDup, Hs.
  - intros j Hj. rewrite elem_of_retain. naive_solver.
  - rewrite elem_of_retain. unfold ready. rewrite Hst. naive_solver.
  - intros r E. destruct Hr as [->|Hr]; [done|]. destruct (decide (r = id)) as [->|]; [right|left].
    + split; [done|]. by right.
    + split; [congruence|done].
Qed.

(** A thread that was not ready goes to the tail of the queue. *)
Lemma tinv_ready f id t s running' :
  TInv s → st_threads s !! id = Some t → kt_state t ≠ KsReady →
  kt_id (f t) = kt_id t → kt_state (f t) = KsReady → kt_wait (f t) = None →
  kt_apcs (f t) = kt_apcs t →
  (running' = None ∨ running' = st_running s ∧ st_running s ≠ Some id) →
  TInv (st_update (alter f id (st_threads s)) (st_ready s ++ [id]) running' s).
Proof.
  intros Hs Ht Hnr Hid Hst Hwt Hap Hr. destruct (ti_thread _ Hs _ _ Ht) as (Hi & Hw & Ha).
  apply (tinv_change f id t); try done.
  - congruence.
  - split; rewrite Hst; [done|]. done.
  - unfold apcs_ok. by rewrite Hap.
  - apply push_NoDup; [|apply Hs]. rewrite (ti_queue _ Hs). unfold ready. naive_solver.
  - intros j Hj. set_solver.
  - unfold ready. rewrite Hst. set_solver.
  - intros r E. left. destruct Hr as [->|[-> Hn]]; [done|]. split; [done|congruence].
Qed.


(** A thread that was not ready and does not become ready leaves the slot. *)
Lemma tinv_leave f id t s :
  TInv s → st_threads s !! id = Some t → kt_state t ≠ KsReady →
  kt_id (f t) = kt_id t → kt_state (f t) ≠ KsReady → wait_ok (f t) → kt_apcs (f t) = kt_apcs t →
  TInv (st_update (alter f id (st_threads s)) (st_ready s) None s).
Proof.
  intros Hs Ht Hnr Hid Hst Hwt Hap. destruct (ti_thread _ Hs _ _ Ht) as (Hi & Hw & Ha).
  apply (tinv_change f id t); try done.
  - congruence.
  - unfold apcs_ok. by rewrite Hap.
  - apply Hs.
  - rewrite (ti_queue _ Hs). unfold ready. naive_solver.
Qed.

(** ** Operations on the running slot *)

(** Under the invariant the loop of [take_next] takes the head. *)
Lemma pick_ready_head s :
  TInv s →
  pick_ready (st_threads s) (st_ready s) =
  match st_ready s with
  | [] => (None, [])
  | id :: rest => ((λ t, (id, t)) <$> st_threads s !! id, rest)
  end.
Proof.
  intros Hs. destruct (st_ready s) as [|id rest] eqn:E; [done|]. simpl.
  assert (id ∈ st_ready s) as Hin by (rewrite E; by left).
  apply (ti_queue _ Hs) in Hin as (t & -> & Hr). by rewrite bool_decide_true.
Qed.

Lemma ready_head_thread s id rest :
  TInv s → st_ready s = id :: rest → ∃ t, st_threads s !! id = Some t ∧ kt_state t = KsReady.
Proof. intros Hs E. apply (ti_queue _ Hs). rewrite E. by left. Qed.

(** The state after the thread at the head of the queue got the slot. *)
Definition scheduled (id : Z) (rest : list Z) (s : SystemThreadManager) : SystemThreadManager :=
  st_set_counters (st_created s) (st_started s + 1) (st_completed s) (st_terminated s)
    (st_update (alter (kt_set_state KsRunning) id (st_threads s)) rest (Some id) s).

Lemma take_next_run s :
  TInv s →
  take_next s =
  match st_running s, st_ready s with
  | Some _, _ => Done (Ok None) s
  | None, [] => Done (Ok None) s
  | None, id :: rest =>
      match st_threads s !! id with
      | Some t => if st_started s + 1 <=? u64_max
                  then Done (Ok (Some (runnable id t))) (scheduled id rest s) else Panic
      | None => Panic
      end
  end.
Proof.
  intros Hs. unfold take_next. mrun. destruct (st_running s) eqn:Er; mrun; [done|].
  rewrite (pick_ready_head s Hs). destruct (st_ready s) as [|id rest] eqn:E; mrun.
  - f_equal. destruct s; simpl in *. by subst.
  - destruct (ready_head_thread s id rest Hs E) as (t & Ht & Hr). rewrite Ht. simpl.
    unfold count_started. mrun. simpl. by destruct (st_started s + 1 <=? u64_max).
Qed.

Lemma tinv_scheduled s id rest t :
  TInv s → st_running s = None → st_ready s = id :: rest → st_threads s !! id = Some t →
  kt_state t = KsReady → TInv (scheduled id rest s).
Proof.
  intros Hs Hrun E Ht Hr. apply tinv_counters. destruct (ti_thread _ Hs _ _ Ht) as (Hi & Hw & Ha).
  pose proof (ti_nodup _ Hs) as Hnd. rewrite E in Hnd. apply NoDup_cons in Hnd as [Hni Hnd].
  apply (tinv_change _ id t); try done.
  - split; [done|]. intros _. apply Hw. by left.
  - intros j Hj. rewrite E. set_solver.
  - intros r [= <-]. right. split; [done|]. by left.
Qed.

Lemma tinv_take_next s r s' : TInv s → take_next s = Done r s' → TInv s'.
Proof.
  intros Hs H. rewrite take_next_run in H by done.
  destruct (st_running s) eqn:Er; [by simplify_eq|].
  destruct (st_ready s) as [|id rest] eqn:E; [by simplify_eq|].
  destruct (ready_head_thread s id rest Hs E) as (t & Ht & Hr). rewrite Ht in H.
  destruct (_ <=? _); [|done]. simplify_eq. by eapply tinv_scheduled.
Qed.

Lemma tinv_finish e s r s' : TInv s → finish_current e s = Done r s' → TInv s'.
Proof.
  intros Hs H. unfold finish_current, count_completed, count_terminated in H. mrun.
  destruct (st_running s) as [id|] eqn:Er; mrun; [|by simplify_eq].
  destruct (ti_running _ Hs _ Er) as (t & Ht & Hm). rewrite Ht in H.
  assert (TInv (st_update (alter (λ t0, kt_exit (default e (kt_termination_requested t)) 0
    (kt_termination_requested t) (kt_move KsTerminated None None t0)) id (st_threads s))
    (st_ready s) None s)) as Hs1.
  { eapply (tinv_leave _ id t); try done. destruct Hm; congruence. }
  msplit; simplify_eq; repeat apply tinv_counters; exact Hs1.
Qed.

Lemma tinv_requeue s r s' : TInv s → requeue_current s = Done r s' → TInv s'.
Proof.
  intros Hs H. unfold requeue_current in H. mrun.
  destruct (st_running s) as [id|] eqn:Er; mrun; [|by simplify_eq].
  destruct (ti_running _ Hs _ Er) as (t & Ht & Hm). simpl in H. rewrite Ht in H. mrun.
  case_bool_decide as Hr; mrun; simplify_eq.
  - apply (tinv_ready (kt_set_state KsReady) id t s None); try done; [congruence| |by left].
    destruct (ti_thread _ Hs _ _ Ht) as (_ & [_ Hw] & _). apply Hw. by right.
  - apply tinv_not_running; [by left|done].
Qed.

Lemma tinv_wait_current w s r s' : TInv s → wait_current w s = Done r s' → TInv s'.
Proof.
  intros Hs H. unfold wait_current, record_of in H. mrun.
  destruct (st_running s) as [id|] eqn:Er; mrun;
    [|simplify_eq; apply tinv_not_running; [by left|done]].
  destruct (ti_running _ Hs _ Er) as (t & Ht & Hm). simpl in H. rewrite Ht in H. mrun. simplify_eq.
  apply (tinv_leave _ id t s); try done; [destruct Hm; congruence|].
  split; [done|]. by intros [].
Qed.


(** ** Operations on any thread *)

Lemma resolve_run h s :
  resolve h s =
  match st_handles s !! h with
  | None => Done (Err STATUS_INVALID_HANDLE) s
  | Some id => match st_threads s !! id with
               | Some t => Done (Ok (id, t)) s
               | None => Done (Err STATUS_INVALID_HANDLE) s
               end
  end.
Proof.
  unfold resolve, record_of. mrun. destruct (st_handles s !! h); [|done]. mrun.
  by destruct (st_threads s !! z).
Qed.

(** Runs the leading lookups of an operation that returned. *)
Ltac run_lookup H :=
  mrun; rewrite ?resolve_run in H; unfold record_of in H; mrun;
  repeat match type of H with
  | context [match st_handles ?s !! ?h with _ => _ end] =>
      destruct (st_handles s !! h) eqn:?; mrun; [|by simplify_eq]
  | context [match st_threads ?s !! ?h with _ => _ end] =>
      destruct (st_threads s !! h) eqn:?; mrun; [|by simplify_eq]
  end.

Lemma tinv_request h e s r s' : TInv s → request_terminate h e s = Done r s' → TInv s'.
Proof.
  intros Hs H. unfold request_terminate, bind at 1 in H. run_lookup H.
  destruct (ti_thread _ Hs _ _ Heqo0) as (_ & _ & Ha).
  assert (∀ a b c d, TInv (st_set_counters a b c d (st_update
    (alter (λ t, kt_exit e (kt_irql t) (Some e) (kt_move KsTerminated None None t)) z (st_threads s))
    (filter (λ c, c ≠ z) (st_ready s)) (st_running s) s))) as Hk.
  { intros. apply tinv_counters. eapply (tinv_kill _ z k); try done. by right. }
  destruct (kt_state k) eqn:E; unfold count_completed, count_terminated in H; mrun;
    msplit; simplify_eq; try done; try apply Hk.
  by eapply tinv_quiet.
Qed.

Lemma tinv_request_current e s r s' :
  TInv s → request_terminate_current e s = Done r s' → TInv s'.
Proof.
  intros Hs H. unfold request_terminate_current in H. mrun.
  destruct (st_running s) as [id|] eqn:Er; mrun; [|by simplify_eq].
  destruct (ti_running _ Hs _ Er) as (t & Ht & Hm). rewrite Ht in H. mrun. simplify_eq.
  eapply tinv_quiet; try done. by apply (ti_thread _ Hs _ _ Ht).
Qed.

Lemma tinv_adopt p th s r s' : TInv s → adopt_thread p th s = Done r s' → TInv s'.
Proof.
  intros Hs H. unfold adopt_thread in H. mrun. case_bool_decide as Hk; mrun; simplify_eq; [done|].
  apply eq_None_not_Some in Hk. destruct Hs. constructor; simpl; try done.
  - intros id. rewrite ti_queue0. destruct (decide (id = th)) as [->|].
    + rewrite lookup_insert_eq, Hk. unfold ready. naive_solver.
    + by rewrite lookup_insert_ne.
  - intros id Hid. destruct (ti_running0 id Hid) as (t & Ht & Hm). exists t.
    rewrite lookup_insert_ne by congruence. done.
  - intros id t. rewrite lookup_insert_Some. intros [[<- <-]|[_ Ht]]; [|by apply ti_thread0].
    split_and!; [done|by split|]. split; [by constructor|apply NoDup_nil_2].
  - intros h id Hh. rewrite lookup_insert_is_Some'. right. by eapply ti_handles0.
Qed.

Lemma tinv_wake th e s r s' : TInv s → wake th e s = Done r s' → TInv s'.
Proof.
  intros Hs H. unfold wake in H. run_lookup H. case_bool_decide as Hst; mrun; simplify_eq; [|done].
  apply (tinv_ready _ th k s); try done; [congruence|]. right. split; [done|].
  intros (t & Ht & Hm)%(ti_running _ Hs). simplify_eq. destruct Hm; congruence.
Qed.

Lemma tinv_cancel_wait h e s r s' : TInv s → cancel_wait h e s = Done r s' → TInv s'.
Proof.
  intros Hs H. unfold cancel_wait in H. mrun. destruct (st_handles s !! h); mrun; [|by simplify_eq].
  destruct (wake z e s) as [[]|] eqn:E; simplify_eq; by eapply tinv_wake.
Qed.

Lemma tinv_queue_apc h ro c s r s' : TInv s → queue_thread_apc h ro c s = Done r s' → TInv s'.
Proof.
  intros Hs H. unfold queue_thread_apc in H. mrun. destruct (ro =? 0); mrun; [by simplify_eq|].
  run_lookup H. destruct (is_terminated k); mrun; [by simplify_eq|].
  destruct (st_next_apc s + 1 <=? u64_max); mrun; [|done].
  destruct (ti_thread _ Hs _ _ Heqo0) as (_ & Hw & Ha).
  set (apc := {| sa_id := st_next_apc s; sa_routine := ro; sa_context := c |}) in H.
  set (s1 := st_alter (λ t, kt_set_apcs (kt_apcs t ++ [apc]) t) z (st_set_next_apc (st_next_apc s + 1) s)).
  assert (TInv (st_set_next_apc (st_next_apc s + 1) s)) as Hs0.
  { destruct Hs. constructor; simpl; try done. intros id t (? & ? & Hap & ?)%ti_thread0.
    split_and!; [done|done|]. split; [|done]. eapply Forall_impl; [done|]. simpl. lia. }
  assert (TInv s1) as Hs1.
  { eapply tinv_quiet; try done. destruct Ha as [Hf Hnd]. split; simpl.
    - apply Forall_app. split; [|by constructor; [simpl; lia|]].
      eapply Forall_impl; [done|]. simpl. lia.
    - rewrite fmap_app. apply push_NoDup; [|done]. intros (a & Ea & Hin)%list_elem_of_fmap.
      rewrite Forall_forall in Hf. apply Hf in Hin. simpl in Ea. lia. }
  assert (st_threads s1 !! z = Some (kt_set_apcs (kt_apcs k ++ [apc]) k)) as Hz
    by (simpl; by rewrite lookup_alter_eq, Heqo0).
  case_bool_decide as Hst; mrun; [destruct (match kt_wait k with Some w => sw_alertable w | None => false end)|]; mrun;
    injection H as <- <-; try exact Hs1.
  apply (tinv_ready (kt_move KsReady None (Some STATUS_USER_APC)) z _ s1 (st_running s1)
           Hs1 Hz); try done; [simpl; congruence|].
  right. split; [done|]. intros (t & Ht & Hm)%(ti_running _ Hs). simplify_eq.
  destruct Hm; congruence.
Qed.

Lemma apcs_ok_nil next t : apcs_ok next (kt_set_apcs [] t).
Proof. split; [by constructor|apply NoDup_nil_2]. Qed.

Lemma tinv_take_apcs h s r s' : TInv s → take_apcs h s = Done r s' → TInv s'.
Proof.
  intros Hs H. unfold take_apcs, bind at 1 in H. run_lookup H. simplify_eq.
  eapply tinv_quiet; try done. apply apcs_ok_nil.
Qed.

Lemma tinv_take_apcs_by th s r s' : TInv s → take_apcs_by_thread th s = Done r s' → TInv s'.
Proof.
  intros Hs H. unfold take_apcs_by_thread in H. run_lookup H. simplify_eq.
  eapply tinv_quiet; try done. apply apcs_ok_nil.
Qed.

Lemma remove_at_sublist_of {A} i (l : list A) : remove_at i l `sublist_of` l.
Proof.
  unfold remove_at. rewrite <-(take_drop i l) at 3. apply sublist_app; [done|].
  replace (S i) with (i + 1)%nat by lia. rewrite <-drop_drop. apply sublist_drop.
Qed.

Lemma tinv_cancel_apc h a s r s' : TInv s → cancel_thread_apc h a s = Done r s' → TInv s'.
Proof.
  intros Hs H. unfold cancel_thread_apc in H. run_lookup H.
  destruct (position _ (kt_apcs k)) as [i|]; mrun; simplify_eq; [|done].
  destruct (ti_thread _ Hs _ _ Heqo0) as (_ & _ & Hf & Hnd).
  eapply tinv_quiet; try done. pose proof (remove_at_sublist_of i (kt_apcs k)) as Hsub. split; simpl.
  - rewrite Forall_forall in *. intros x Hx. apply Hf. by eapply elem_of_sublist.
  - eapply sublist_NoDup; [exact Hnd|]. by apply fmap_sublist.
Qed.

Lemma tinv_close h s r s' : TInv s → close_thread_handle h s = Done r s' → TInv s'.
Proof.
  intros Hs H. unfold close_thread_handle in H. mrun.
  assert (s' = st_set_handles (delete h (st_handles s)) (st_next_handle s)
                 (st_pending_attachment s) s) as -> by (destruct (st_handles s !! h); mrun; by simplify_eq).
  destruct Hs. constructor; simpl; try done.
  intros h' id [_ Hh]%lookup_delete_Some. by eapply ti_handles0.
Qed.

(** The two that only write the wake status or the IRQL. *)
Lemma tinv_set_irql th q s r s' : TInv s → set_irql th q s = Done r s' → TInv s'.
Proof.
  intros Hs H. unfold set_irql in H. run_lookup H. simplify_eq.
  eapply tinv_quiet; try done. by apply (ti_thread _ Hs _ _ Heqo).
Qed.

Lemma tinv_set_wake th q s r s' : TInv s → set_pending_wake_status th q s = Done r s' → TInv s'.
Proof.
  intros Hs H. unfold set_pending_wake_status in H. run_lookup H. simplify_eq.
  eapply tinv_quiet; try done. by apply (ti_thread _ Hs _ _ Heqo).
Qed.

Lemma tinv_take_wake th s r s' : TInv s → take_wake_status th s = Done r s' → TInv s'.
Proof.
  intros Hs H. unfold take_wake_status in H. mrun.
  destruct (st_threads s !! th) eqn:E; mrun; simplify_eq; [|done].
  eapply tinv_quiet; try done. by apply (ti_thread _ Hs _ _ E).
Qed.


(** ** The scheduler interface *)

Lemma tinv_retain id s :
  (∀ t, st_threads s !! id = Some t → kt_state t ≠ KsReady) → TInv s → TInv (retain_ready id s).
Proof.
  intros Hn Hs. assert (id ∉ st_ready s) as Hni.
  { intros (t & Ht & Hr)%(ti_queue _ Hs). by apply (Hn t). }
  destruct Hs. constructor; simpl; try done.
  - by apply retain_NoDup.
  - intros j. rewrite elem_of_retain, <-ti_queue0. split; [naive_solver|].
    intros Hj. split; [|done]. by intros ->.
Qed.

(** A detached thread: terminated if it was not, and off the queue. *)
Definition detached (t : KernelThread) : KernelThread :=
  kt_exit STATUS_UNSUCCESSFUL (kt_irql t) (kt_termination_requested t)
    (kt_set_state KsTerminated t).

Definition detached_state (th : Z) (s : SystemThreadManager) : SystemThreadManager :=
  match st_threads s !! th with
  | Some t =>
      if bool_decide (kt_state t = KsTerminated) then retain_ready th s
      else st_set_counters (st_created s) (st_started s) (st_completed s) (st_terminated s + 1)
             (retain_ready th (st_alter detached th s))
  | None => s
  end.

Lemma detach_run p th s :
  detach_kernel_thread p th s =
  match st_threads s !! th with
  | None => Done (Err STATUS_INVALID_HANDLE) s
  | Some t =>
      if bool_decide (kt_state t = KsTerminated) || (st_terminated s + 1 <=? u64_max)
      then Done (Ok tt) (detached_state th s) else Panic
  end.
Proof.
  unfold detach_kernel_thread, detached_state, record_of, count_terminated. mrun.
  destruct (st_threads s !! th) as [t|]; mrun; [|done].
  case_bool_decide; mrun; [done|]. simpl. by destruct (st_terminated s + 1 <=? u64_max).
Qed.

Lemma tinv_detached th s : TInv s → TInv (detached_state th s).
Proof.
  intros Hs. unfold detached_state. destruct (st_threads s !! th) as [t|] eqn:Ht; [|done].
  case_bool_decide as Hst.
  - apply tinv_retain; [|done]. intros t' Ht'. congruence.
  - apply tinv_counters, (tinv_kill detached th t s (st_running s)); try done. by right.
Qed.

Lemma tinv_detach p th s r s' : TInv s → detach_kernel_thread p th s = Done r s' → TInv s'.
Proof.
  intros Hs H. rewrite detach_run in H. destruct (st_threads s !! th); [|by simplify_eq].
  destruct (_ || _); [|done]. simplify_eq. by apply tinv_detached.
Qed.

(** The scheduler once [create] attached a thread. *)
Definition attached (id process start context base size : Z) (s : SystemThreadManager)
    : SystemThreadManager :=
  push_ready id
    (st_update (<[id := fresh_thread id process start context base size KsReady]> (st_threads s))
       (st_ready s) (st_running s)
       (st_set_handles (<[st_next_handle s := id]> (st_handles s))
          (saturating_add u64_max (st_next_handle s) 4) None s)).

(** What remains of a refused creation: one handle value is skipped. *)
Definition skipped (s : SystemThreadManager) : SystemThreadManager :=
  st_set_handles (st_handles s) (saturating_add u64_max (st_next_handle s) 4) None s.

Definition created_thread (id process start : Z) : ThreadRecord :=
  {| th_id := id; th_process := process; th_start_routine := start; th_state := TsReady |}.

Lemma create_run p start ctx base size m s :
  st_pending_attachment s = None →
  create p start ctx base size (m, s) =
  if bad_stack base size then Done (Err STATUS_INVALID_PARAMETER) (m, s)
  else match Ps.active_result p m with
  | Err e => Done (Err e) (m, skipped s)
  | Ok _ =>
      if start =? 0 then Done (Err STATUS_INVALID_PARAMETER) (m, skipped s)
      else if pm_next_thread m + 4 <=? u32_max then
        let id := pm_next_thread m in
        if bool_decide (is_Some (st_threads s !! id))
        then Done (Err STATUS_INVALID_PARAMETER) (with_threads (λ ts, ts) (id + 4) m, skipped s)
        else if st_created s + 1 <=? u64_max
        then Done (Ok {| ct_id := id; ct_handle := st_next_handle s |})
               (update_process (add_thread id) p
                  (with_threads (insert id (created_thread id p start)) (id + 4) m),
                st_set_counters (st_created s + 1) (st_started s) (st_completed s)
                  (st_terminated s) (attached id p start ctx base size s))
        else Panic
      else Panic
  end.
Proof.
  intros Hp. unfold create, scheduler. mrun. destruct (bad_stack base size); mrun; [done|].
  rewrite Hp, bool_decide_false by (by intros []). mrun.
  unfold attempt, create_thread_ex, manager, scheduler. mrun. rewrite Ps.active_process_eq.
  destruct (Ps.active_result p m) as [rec|e]; mrun; [|done].
  destruct (start =? 0); mrun; [done|].
  destruct (pm_next_thread m + 4 <=? u32_max); mrun; [|done].
  unfold attach_thread, kernel_scheduler, attach_kernel_thread, take_pending. mrun. simpl.
  case_bool_decide; mrun; [done|]. simpl. unfold count_created. mrun. simpl.
  by destruct (st_created s + 1 <=? u64_max).
Qed.

Lemma tinv_skipped s : TInv s → TInv (skipped s).
Proof. by intros []. Qed.

Lemma tinv_attached id p start ctx base size s :
  st_threads s !! id = None → TInv s → TInv (attached id p start ctx base size s).
Proof.
  intros Hnew Hs. assert (id ∉ st_ready s) as Hni.
  { intros (t & Ht & _)%(ti_queue _ Hs). congruence. }
  destruct Hs. constructor; simpl; try done.
  - by apply push_NoDup.
  - intros j. rewrite elem_of_app, list_elem_of_singleton, ti_queue0.
    destruct (decide (j = id)) as [->|].
    + rewrite lookup_insert_eq. split; [|by right]. intros _. by eexists.
    + rewrite lookup_insert_ne by done. naive_solver.
  - intros j Hj. destruct (ti_running0 j Hj) as (t & Ht & Hm). exists t.
    rewrite lookup_insert_ne by congruence. done.
  - intros j t. rewrite lookup_insert_Some. intros [[<- <-]|[_ Ht]]; [|by apply ti_thread0].
    split_and!; [done|by split|]. split; [by constructor|apply NoDup_nil_2].
  - intros h j [[_ <-]|[_ Hh]]%lookup_insert_Some; rewrite lookup_insert_is_Some'; [by left|].
    right. by eapply ti_handles0.
Qed.

Lemma tinv_create p start ctx base size m s r t' :
  TInv s → create p start ctx base size (m, s) = Done r t' → TInv t'.2.
Proof.
  intros Hs H. rewrite create_run in H by apply Hs.
  destruct (bad_stack base size); [by simplify_eq|].
  destruct (Ps.active_result p m); [|simplify_eq; by apply tinv_skipped].
  destruct (start =? 0); [simplify_eq; by apply tinv_skipped|].
  destruct (_ <=? u32_max); [|done]. cbv zeta in H.
  case_bool_decide as Hk; [simplify_eq; by apply tinv_skipped|].
  destruct (_ <=? u64_max); [|done]. simplify_eq.
  apply tinv_counters, tinv_attached; [|done]. by apply eq_None_not_Some.
Qed.


(** ** The step relations *)

(** The scheduler's own operations.  [restore_running] gives the slot back to a
    thread that [release_running_for_wait] took it from, which runs or was
    terminated meanwhile. *)
Inductive tstep (s : SystemThreadManager) : SystemThreadManager → Prop :=
| ts_take r s' : take_next s = Done r s' → tstep s s'
| ts_finish e r s' : finish_current e s = Done r s' → tstep s s'
| ts_fail r s' : fail_current s = Done r s' → tstep s s'
| ts_requeue r s' : requeue_current s = Done r s' → tstep s s'
| ts_release r s' : release_running_for_wait s = Done r s' → tstep s s'
| ts_restore th t r s' : st_threads s !! th = Some t → may_run t →
    restore_running th s = Done r s' → tstep s s'
| ts_request h e r s' : request_terminate h e s = Done r s' → tstep s s'
| ts_request_current e r s' : request_terminate_current e s = Done r s' → tstep s s'
| ts_adopt p th r s' : adopt_thread p th s = Done r s' → tstep s s'
| ts_wait w r s' : wait_current w s = Done r s' → tstep s s'
| ts_wake th e r s' : wake th e s = Done r s' → tstep s s'
| ts_cancel_wait h e r s' : cancel_wait h e s = Done r s' → tstep s s'
| ts_set_wake th e r s' : set_pending_wake_status th e s = Done r s' → tstep s s'
| ts_take_wake th r s' : take_wake_status th s = Done r s' → tstep s s'
| ts_queue_apc h ro c r s' : queue_thread_apc h ro c s = Done r s' → tstep s s'
| ts_take_apcs h r s' : take_apcs h s = Done r s' → tstep s s'
| ts_take_apcs_by th r s' : take_apcs_by_thread th s = Done r s' → tstep s s'
| ts_cancel_apc h a r s' : cancel_thread_apc h a s = Done r s' → tstep s s'
| ts_close h r s' : close_thread_handle h s = Done r s' → tstep s s'
| ts_irql th q r s' : set_irql th q s = Done r s' → tstep s s'.

Lemma tstep_inv s s' : TInv s → tstep s s' → TInv s'.
Proof.
  intros Hs Hst.
  destruct Hst as [? s' H|? ? s' H|? s' H|? s' H|? s' H|? ? ? s' ? ? H|? ? ? s' H|? ? s' H
    |? ? ? s' H|? ? s' H|? ? ? s' H|? ? ? s' H|? ? ? s' H|? ? s' H|? ? ? ? s' H|? ? s' H
    |? ? s' H|? ? ? s' H|? ? s' H|? ? ? s' H].
  - by eapply tinv_take_next.
  - by eapply tinv_finish.
  - unfold fail_current in H. mrun. destruct (st_running s); mrun; [|by simplify_eq].
    destruct (finish_current _ s) as [[]|] eqn:E; simplify_eq; by eapply tinv_finish.
  - by eapply tinv_requeue.
  - unfold release_running_for_wait in H. mrun. simplify_eq.
    apply tinv_not_running; [by left|done].
  - unfold restore_running in H. mrun. simplify_eq. apply tinv_not_running; [right|done]. eauto.
  - by eapply tinv_request.
  - by eapply tinv_request_current.
  - by eapply tinv_adopt.
  - by eapply tinv_wait_current.
  - by eapply tinv_wake.
  - by eapply tinv_cancel_wait.
  - by eapply tinv_set_wake.
  - by eapply tinv_take_wake.
  - by eapply tinv_queue_apc.
  - by eapply tinv_take_apcs.
  - by eapply tinv_take_apcs_by.
  - by eapply tinv_cancel_apc.
  - by eapply tinv_close.
  - by eapply tinv_set_irql.
Qed.

(** The process manager and the scheduler together: creation and termination run
    on both, every other operation on one of them. *)
Inductive sysstep (t : ProcessManager * SystemThreadManager)
    : ProcessManager * SystemThreadManager → Prop :=
| sys_create p start ctx base size r t' :
    create p start ctx base size t = Done r t' → sysstep t t'
| sys_terminate_thread th r t' : terminate_thread th t = Done r t' → sysstep t t'
| sys_terminate_process p r t' : terminate_process p t = Done r t' → sysstep t t'
| sys_scheduler s' : tstep t.2 s' → sysstep t (t.1, s')
| sys_manager m' : Ps.pstep t (m', t.2) → sysstep t (m', t.2).

Lemma tinv_detach_all p l s r s' : TInv s → Ps.detach_all p l s = Done r s' → TInv s'.
Proof.
  unfold Ps.detach_all. revert s. induction l as [|th l IH]; intros s Hs H; simpl in H.
  - by simplify_eq.
  - destruct (detach_kernel_thread p th s) as [[]|] eqn:E; simplify_eq.
    + eapply IH; [|done]. by eapply tinv_detach.
    + by eapply tinv_detach.
Qed.

Lemma pinv_create_kernel p start ctx base size m s r t' :
  Ps.PInv m → TInv s → create p start ctx base size (m, s) = Done r t' → Ps.PInv t'.1.
Proof.
  intros Hm Hs H. rewrite create_run in H by apply Hs.
  destruct (bad_stack base size); [by simplify_eq|].
  destruct (Ps.active_result p m) as [rec|] eqn:Ha; [|by simplify_eq].
  destruct (start =? 0); [by simplify_eq|].
  destruct (_ <=? u32_max); [|done]. cbv zeta in H.
  assert (4 ≤ pm_next_thread m) as Hn by apply Hm.
  case_bool_decide as Hk; [simplify_eq; apply Ps.pinv_next_thread; [lia|done]|].
  destruct (_ <=? u64_max); [|done]. simplify_eq.
  apply Ps.active_result_Ok in Ha as [Ha Hact].
  eapply Ps.pinv_add_thread; try done; try lia.
  apply eq_None_not_Some. intros Hx%(Ps.pi_threads _ Hm). lia.
Qed.

Lemma sysstep_inv t t' : Ps.PInv t.1 ∧ TInv t.2 → sysstep t t' → Ps.PInv t'.1 ∧ TInv t'.2.
Proof.
  intros [Hm Hs] [p start ctx base size r t'' H|th r t'' H|p r t'' H|s'' H|m'' H];
    destruct t as [m s]; simpl in *.
  - split; [by eapply pinv_create_kernel|by eapply tinv_create].
  - split; [by apply (Ps.pinv_terminate_thread th (m, s) r)|].
    unfold terminate_thread, manager, scheduler, query_thread in H. mrun.
    destruct (pm_threads m !! th) as [tr|]; mrun; [|by simplify_eq].
    case_bool_decide; mrun; [by simplify_eq|]. unfold detach_thread, kernel_scheduler in H.
    destruct (detach_kernel_thread _ th s) as [[]|] eqn:E; mrun; simplify_eq; by eapply tinv_detach.
  - split; [by apply (Ps.pinv_terminate_process p (m, s) r)|].
    destruct (Ps.active_result p m) as [rec|e] eqn:Ha.
    + pose proof (Ps.terminate_process_run p rec m s Ha) as Hrun.
      destruct (Ps.detach_all _ _ s) as [[u|e] s1|] eqn:E; [| |congruence].
      * rewrite Hrun in H. simplify_eq. by eapply tinv_detach_all.
      * destruct Hrun as (l1 & th & l2 & s2 & _ & _ & _ & Hrun). rewrite Hrun in H. simplify_eq.
        by eapply tinv_detach_all.
    + unfold terminate_process, manager in H. mrun. rewrite Ps.active_process_eq, Ha in H.
      by simplify_eq.
  - split; [done|by eapply tstep_inv].
  - split; [|done]. by apply (Ps.pstep_inv (m, s) (m'', s)).
Qed.

Lemma tinv_new : TInv new_threads.
Proof.
  constructor; simpl; try done.
  - apply NoDup_nil_2.
  - intros id. rewrite lookup_empty. split; [by intros ?%elem_of_nil|]. by intros (? & ? & _).
Qed.

Lemma sys_reachable t :
  rtc sysstep (new_processes, new_threads) t → Ps.PInv t.1 ∧ TInv t.2.
Proof.
  assert (∀ t1 t2, rtc sysstep t1 t2 → Ps.PInv t1.1 ∧ TInv t1.2 → Ps.PInv t2.1 ∧ TInv t2.2) as H.
  { induction 1; [done|]. eauto using sysstep_inv. }
  intros Hs. apply (H _ _ Hs). split; [apply Ps.pinv_new|apply tinv_new].
Qed.


(** ** One turn of the pump *)

(** A slice that only uses up its quantum. *)
Definition slice : M SystemThreadManager (option Z) :=
  r <- take_next ;;
  _ <- requeue_current ;;
  ret (rt_id <$> r).

Lemma kt_state_roundtrip t :
  kt_state t = KsReady → kt_set_state KsReady (kt_set_state KsRunning t) = t.
Proof. destruct t. simpl. by intros ->. Qed.

Lemma slice_run s id rest :
  TInv s → st_running s = None → st_ready s = id :: rest → st_started s + 1 ≤ u64_max →
  slice s = Done (Ok (Some id))
    (st_set_counters (st_created s) (st_started s + 1) (st_completed s) (st_terminated s)
       (st_set_ready (rest ++ [id]) s)).
Proof.
  intros Hs Hr E Hn. destruct (ready_head_thread s id rest Hs E) as (t & Ht & Hst).
  unfold slice, bind at 1. rewrite take_next_run, Hr, E, Ht by done.
  rewrite (proj2 (Z.leb_le _ _) Hn). unfold requeue_current. mrun. simpl.
  rewrite lookup_alter_eq, Ht. simpl. mrun.
  assert (alter (kt_set_state KsReady) id (alter (kt_set_state KsRunning) id (st_threads s))
          = st_threads s) as Eq.
  { apply map_eq. intros j. destruct (decide (id = j)) as [->|]; [|by rewrite !lookup_alter_ne].
    rewrite !lookup_alter_eq, Ht. simpl. by rewrite kt_state_roundtrip. }
  unfold push_ready, st_alter, st_set_running, scheduled, st_set_counters, st_set_ready, st_update.
  simpl. by rewrite Eq, Hr.
Qed.

Lemma tinv_rotate s id rest :
  st_ready s = id :: rest → TInv s → TInv (st_set_ready (rest ++ [id]) s).
Proof.
  intros E []. assert (rest ++ [id] ≡ₚ st_ready s) as Hp by (rewrite E, Permutation_app_comm; done).
  constructor; simpl; try done.
  - by rewrite Hp.
  - intros j. by rewrite Hp.
Qed.

Lemma slices_run l rest s :
  TInv s → st_running s = None → st_ready s = l ++ rest →
  st_started s + Z.of_nat (length l) ≤ u64_max →
  ∃ s', map_each l (λ _, slice) s = Done (Ok (Some <$> l)) s' ∧
    st_ready s' = rest ++ l ∧ st_threads s' = st_threads s ∧ st_running s' = None ∧
    st_started s' = st_started s + Z.of_nat (length l).
Proof.
  revert rest s. induction l as [|id l IH]; intros rest s Hs Hr E Hn.
  - exists s. split_and!; [done|by rewrite app_nil_r|done|done|simpl; lia].
  - cbn [length] in Hn. cbn [map_each]. unfold bind at 1.
    rewrite (slice_run s id (l ++ rest)) by (done || lia).
    set (s1 := st_set_counters _ _ _ _ _).
    destruct (IH (rest ++ [id]) s1) as (s' & Hrun & Hq & Ht & Hr' & Hn').
    + by apply tinv_counters, tinv_rotate.
    + done.
    + simpl. by rewrite app_assoc.
    + simpl. lia.
    + exists s'. unfold bind. rewrite Hrun. split_and!; [done| |done|done|simpl in *; lia].
      by rewrite Hq, <-app_assoc.
Qed.

(** ** Detaching the threads of a process *)

Lemma detached_state_lookup th s j :
  st_threads (detached_state th s) !! j =
  if decide (j = th)
  then (λ t, if bool_decide (kt_state t = KsTerminated) then t else detached t) <$> st_threads s !! j
  else st_threads s !! j.
Proof.
  unfold detached_state. case_decide as Hj; subst.
  - destruct (st_threads s !! th) as [t|] eqn:Ht; [|by rewrite Ht].
    simpl. case_bool_decide; simpl; by rewrite ?lookup_alter_eq, Ht.
  - destruct (st_threads s !! th); [|done]. case_bool_decide; [done|]. simpl.
    by rewrite lookup_alter_ne.
Qed.

Lemma detached_state_ready th s :
  is_Some (st_threads s !! th) →
  st_ready (detached_state th s) = filter (λ c, c ≠ th) (st_ready s).
Proof. intros [t Ht]. unfold detached_state. rewrite Ht. by case_bool_decide. Qed.

Lemma detached_state_counter th s : st_terminated (detached_state th s) ≤ st_terminated s + 1.
Proof.
  unfold detached_state. destruct (st_threads s !! th); [|lia]. case_bool_decide; simpl; lia.
Qed.

Lemma filter_filter_ne (l : list Z) (P : Z → Prop) `{!∀ x, Decision (P x)} id :
  filter P (filter (λ c, c ≠ id) l) = filter (λ c, c ≠ id ∧ P c) l.
Proof.
  rewrite list_filter_filter. apply list_filter_iff. naive_solver.
Qed.

Lemma detach_all_run p l s :
  Forall (λ th, is_Some (st_threads s !! th)) l →
  st_terminated s + Z.of_nat (length l) ≤ u64_max →
  ∃ s', Ps.detach_all p l s = Done (Ok tt) s' ∧
    st_ready s' = filter (λ c, c ∉ l) (st_ready s) ∧
    (∀ th, th ∉ l → st_threads s' !! th = st_threads s !! th) ∧
    (∀ th, th ∈ l → ∃ t, st_threads s' !! th = Some t ∧ kt_state t = KsTerminated).
Proof.
  revert s. induction l as [|a l IH]; intros s Hl Hn.
  - exists s. split_and!; [done| |done|by intros ? ?%elem_of_nil].
    symmetry. apply filter_all. intros x. apply not_elem_of_nil.
  - apply Forall_cons in Hl as [[t Ht] Hl]. cbn [length] in Hn.
    destruct (IH (detached_state a s)) as (s' & Hrun & Hq & Hne & Hdead).
    + eapply Forall_impl; [exact Hl|]. intros x Hx. rewrite detached_state_lookup.
      case_decide; [by rewrite fmap_is_Some|done].
    + pose proof (detached_state_counter a s). lia.
    + exists s'. split_and!.
      * unfold Ps.detach_all in *. cbn [for_each]. unfold bind.
        unfold detach_thread at 1, kernel_scheduler at 1. rewrite detach_run, Ht.
        rewrite (proj2 (Z.leb_le (st_terminated s + 1) _)) by lia.
        by rewrite orb_true_r.
      * rewrite Hq, detached_state_ready by eauto. rewrite filter_filter_ne.
        apply list_filter_iff. intros x. by rewrite not_elem_of_cons.
      * intros th [Hth Hthl]%not_elem_of_cons. rewrite Hne by done.
        by rewrite detached_state_lookup, decide_False.
      * intros th Hth. destruct (decide (th ∈ l)) as [|Hnl]; [by apply Hdead|].
        apply elem_of_cons in Hth as [->|]; [|done]. rewrite Hne by done.
        rewrite detached_state_lookup, decide_True, Ht by done. simpl.
        case_bool_decide; eauto.
Qed.


(** ** The properties *)

(** In every reachable state of the process manager and the scheduler, the
    ready queue lists exactly the threads in the ready state, once each; the
    thread in the running slot exists and is running or was terminated while it
    ran; handles refer to existing threads; a waiting thread has its wait recorded
    and a ready or running one has none; no attachment is left pending.  So the
    pump never panics: requeueing always returns, and taking the next slice finds
    none exactly when the slot is taken or no thread is ready. *)
Theorem scheduler_queue_exact t :
  rtc sysstep (new_processes, new_threads) t →
  let s := t.2 in
  (NoDup (st_ready s) ∧ ∀ id, id ∈ st_ready s ↔ thread_state id s = Some KsReady) ∧
  (∀ id, st_running s = Some id →
     thread_state id s = Some KsRunning ∨ thread_state id s = Some KsTerminated) ∧
  (∀ h id, st_handles s !! h = Some id → is_Some (thread_record id s)) ∧
  (∀ id, (thread_state id s = Some KsWaiting → is_Some (wait_of id s)) ∧
         (thread_state id s = Some KsReady ∨ thread_state id s = Some KsRunning →
          wait_of id s = None)) ∧
  st_pending_attachment s = None ∧
  (∃ r s', requeue_current s = Done (Ok r) s') ∧
  (st_started s < u64_max → ∃ r s', take_next s = Done (Ok r) s' ∧
     (r = None ↔ is_Some (st_running s) ∨ st_ready s = [])).
Proof.
  intros Ht s. destruct (sys_reachable t Ht) as [_ Hs]. fold s in Hs.
  unfold thread_state, thread_record, wait_of. split_and!.
  - apply Hs.
  - intros id. rewrite (ti_queue _ Hs), fmap_Some. unfold ready. naive_solver.
  - intros id Hr. destruct (ti_running _ Hs _ Hr) as (tr & -> & [Hm|Hm]); simpl; rewrite Hm; auto.
  - apply (ti_handles _ Hs).
  - intros id. destruct (st_threads s !! id) as [tr|] eqn:E; simpl; [|by split; [|intros []]].
    destruct (ti_thread _ Hs _ _ E) as (_ & [Hw1 Hw2] & _). split; [intros [= ?]; auto|].
    intros [[= ?]|[= ?]]; auto.
  - apply Hs.
  - unfold requeue_current. mrun. destruct (st_running s) as [id|] eqn:Er; mrun; [|by eauto].
    destruct (ti_running _ Hs _ Er) as (tr & E & _). simpl. rewrite E. mrun.
    case_bool_decide; mrun; eauto.
  - intros Hn. rewrite take_next_run by done. destruct (st_running s) eqn:Er.
    { eexists _, _. split; [done|]. split; [|done]. by left. }
    destruct (st_ready s) as [|id rest] eqn:E; [eexists _, _; split; [done|]; by split; [right|]|].
    destruct (ready_head_thread s id rest Hs E) as (tr & -> & _).
    rewrite (proj2 (Z.leb_le _ _)) by lia. eexists _, _. split; [done|].
    split; [done|]. by intros [[? ?]|?].
Qed.

(** Process 4 with the threads 4 and 8, made by the kernel. *)
Definition demo_kernel0 : ProcessManager * SystemThreadManager :=
  (state_of (create_process None (lit "a.sys") None new_processes) new_processes, new_threads).
Definition demo_kernel1 : ProcessManager * SystemThreadManager :=
  state_of (create 4 0x1000 0 0x8000 0x1000 demo_kernel0) demo_kernel0.
Definition demo_kernel : ProcessManager * SystemThreadManager :=
  state_of (create 4 0x2000 0 0xA000 0x1000 demo_kernel1) demo_kernel1.

Lemma demo_kernel1_reachable : rtc sysstep (new_processes, new_threads) demo_kernel1.
Proof.
  eapply rtc_l; [apply (sys_manager (new_processes, new_threads))|].
  - by apply (Ps.ps_create (new_processes, new_threads) None (lit "a.sys") None (Ok 4)), run_eq.
  - apply rtc_once.
    by apply (sys_create _ 4 0x1000 0 0x8000 0x1000 (Ok {| ct_id := 4; ct_handle := 0x100 |})), run_eq.
Qed.

Lemma demo_kernel_reachable : rtc sysstep (new_processes, new_threads) demo_kernel.
Proof.
  eapply rtc_r; [apply demo_kernel1_reachable|].
  apply (sys_create demo_kernel1 4 0x2000 0 0xA000 0x1000 (Ok {| ct_id := 8; ct_handle := 0x104 |})).
  unfold demo_kernel. apply run_eq. by vm_compute.
Qed.

Lemma demo_kernel_pair :
  rtc sysstep (new_processes, new_threads) (demo_kernel.1, demo_kernel.2).
Proof. rewrite <-surjective_pairing. apply demo_kernel_reachable. Qed.

Lemma scheduler_queue_exact_witness :
  st_ready demo_kernel.2 = [4; 8] ∧ thread_state 8 demo_kernel.2 = Some KsReady.
Proof.
  split; [by vm_compute|].
  destruct (scheduler_queue_exact demo_kernel demo_kernel_reachable) as ([_ H] & _).
  apply H. apply (bool_decide_unpack _). by vm_compute.
Defined.

(** Scheduling is round robin and starves nobody: while the slot is free and
    slices only use up their quantum, as many turns of the pump as there are ready
    threads run each of them exactly once, in queue order, and leave the queue and
    every thread as they were. *)
Theorem round_robin t :
  rtc sysstep (new_processes, new_threads) t →
  let s := t.2 in
  st_running s = None → st_started s + Z.of_nat (length (st_ready s)) ≤ u64_max →
  ∃ s', map_each (st_ready s) (λ _, slice) s = Done (Ok (Some <$> st_ready s)) s' ∧
    st_ready s' = st_ready s ∧ st_threads s' = st_threads s ∧ st_running s' = None ∧
    st_started s' = st_started s + Z.of_nat (length (st_ready s)).
Proof.
  intros Ht s Hr Hn. destruct (sys_reachable t Ht) as [_ Hs].
  apply (slices_run (st_ready s) [] s Hs Hr); [by rewrite app_nil_r|done].
Qed.

Lemma round_robin_witness :
  result_of (map_each [4; 8] (λ _, slice) demo_kernel.2) = Some (Ok [Some 4; Some 8]).
Proof.
  destruct (round_robin demo_kernel demo_kernel_reachable) as (s' & H & _);
    [by vm_compute|by vm_compute|].
  assert (st_ready demo_kernel.2 = [4; 8]) as E by (by vm_compute).
  rewrite E in H. by rewrite H.
Defined.

(** Creating a kernel thread is atomic over the two managers.  On success the
    process manager has a ready thread record listed by its process, and the
    scheduler an execution record with the same identifier, process and start
    routine and the given stack, found through the new handle and last in the
    ready queue; every other thread, handle and queue position is unchanged.  On
    failure no thread record, handle or queue entry is left behind in either, and
    no attachment is pending. *)
Theorem create_atomic m s p start ctx base size r m' s' :
  rtc sysstep (new_processes, new_threads) (m, s) →
  create p start ctx base size (m, s) = Done r (m', s') →
  st_pending_attachment s' = None ∧ st_running s' = st_running s ∧
  match r with
  | Err _ =>
      pm_processes m' = pm_processes m ∧ pm_threads m' = pm_threads m ∧
      st_threads s' = st_threads s ∧ st_handles s' = st_handles s ∧ st_ready s' = st_ready s
  | Ok c =>
      pm_threads m !! ct_id c = None ∧ st_threads s !! ct_id c = None ∧
      pm_threads m' = <[ct_id c := created_thread (ct_id c) p start]> (pm_threads m) ∧
      (∃ rec, pm_processes m !! p = Some rec ∧ pr_state rec = PsActive ∧
         pm_processes m' = <[p := add_thread (ct_id c) rec]> (pm_processes m)) ∧
      st_threads s' = <[ct_id c := fresh_thread (ct_id c) p start ctx base size KsReady]> (st_threads s) ∧
      st_handles s' = <[ct_handle c := ct_id c]> (st_handles s) ∧
      st_ready s' = st_ready s ++ [ct_id c]
  end.
Proof.
  intros Ht H. destruct (sys_reachable _ Ht) as [Hm Hs]. simpl in *.
  assert (st_pending_attachment s = None) as Hp by apply Hs.
  rewrite create_run in H by done.
  destruct (bad_stack base size); [by simplify_eq|].
  destruct (Ps.active_result p m) as [rec|] eqn:Ha; [|by simplify_eq].
  destruct (start =? 0); [by simplify_eq|].
  destruct (_ <=? u32_max); [|done]. cbv zeta in H.
  case_bool_decide as Hk; [by simplify_eq|]. destruct (_ <=? u64_max); [|done]. simplify_eq.
  apply Ps.active_result_Ok in Ha as [Ha Hact].
  split_and!; [done|done| |by apply eq_None_not_Some|done| |done|done|done].
  - apply eq_None_not_Some. intros Hx%(Ps.pi_threads _ Hm). simpl in Hx. lia.
  - exists rec. split_and!; [done|done|]. simpl. apply map_eq. intros j.
    destruct (decide (p = j)) as [->|].
    + by rewrite lookup_alter_eq, lookup_insert_eq, Ha.
    + by rewrite lookup_alter_ne, lookup_insert_ne.
Qed.

(** The third creation is refused: the stack is not aligned. *)
Lemma create_atomic_witness :
  st_threads demo_kernel.2 !! 4 = Some (fresh_thread 4 4 0x1000 0 0x8000 0x1000 KsReady) ∧
  ∃ m' s', create 4 0x3000 0 0xC001 0x1000 demo_kernel =
    Done (Err STATUS_INVALID_PARAMETER) (m', s') ∧ st_ready s' = st_ready demo_kernel.2.
Proof.
  split; [by vm_compute|].
  assert (create 4 0x3000 0 0xC001 0x1000 demo_kernel =
    Done (Err STATUS_INVALID_PARAMETER) (demo_kernel.1, demo_kernel.2)) as H.
  { by vm_compute. }
  exists demo_kernel.1, demo_kernel.2. split; [exact H|].
  rewrite (surjective_pairing demo_kernel) in H at 1.
  by apply (create_atomic demo_kernel.1 demo_kernel.2 4 0x3000 0 0xC001 0x1000 _ _ _
    demo_kernel_pair H).
Defined.

(** With this scheduler process termination always completes: if every listed
    thread of the active process has an execution record, [terminate_process]
    returns their number, the process is terminated, each of its threads is
    terminated in both managers and off the ready queue, and the other threads
    keep their execution records and their order in the queue. *)
Theorem termination_deschedules m s p rec :
  rtc sysstep (new_processes, new_threads) (m, s) →
  pm_processes m !! p = Some rec → pr_state rec = PsActive →
  (∀ th, th ∈ pr_threads rec → is_Some (thread_record th s)) →
  st_terminated s + Z.of_nat (size (pr_threads rec)) ≤ u64_max →
  ∃ m' s', terminate_process p (m, s) = Done (Ok (Z.of_nat (size (pr_threads rec)))) (m', s') ∧
    pm_processes m' !! p = Some (set_terminated rec) ∧
    (∀ th tr, pm_threads m' !! th = Some tr → th_process tr = p → th_state tr = TsTerminated) ∧
    (∀ th, th ∈ pr_threads rec → thread_state th s' = Some KsTerminated ∧ th ∉ st_ready s') ∧
    (∀ th, th ∉ pr_threads rec → thread_record th s' = thread_record th s) ∧
    st_ready s' = filter (λ th, th ∉ pr_threads rec) (st_ready s).
Proof.
  intros Ht Hp Hact Hk Hn. destruct (sys_reachable _ Ht) as [Hm Hs]. simpl in Hm, Hs.
  assert (Ps.active_result p m = Ok rec) as Ha by (by apply Ps.active_result_Ok).
  destruct (detach_all_run p (bt_elems (pr_threads rec)) s) as (s' & Hd & Hq & Hne & Hdead).
  { apply Forall_forall. intros th Hth%elem_of_bt_elems. by apply Hk. }
  { by rewrite length_bt_elems. }
  pose proof (Ps.terminate_process_run p rec m s Ha) as Hrun. rewrite Hd in Hrun.
  pose proof (Ps.pinv_terminated p rec m Ha Hm) as Hm'.
  assert (pm_processes (Ps.terminated p rec m) !! p = Some (set_terminated rec)) as Hp'
    by (simpl; by rewrite (Ps.lookup_bury _ _ _ _ (Ps.pi_genealogy _ Hm) Hp), decide_True).
  exists (Ps.terminated p rec m), s'. split_and!; [done|done| | | |].
  - intros th tr Hth Htp. destruct (is_live tr) eqn:Hl.
    + destruct (Ps.me_live _ _ (Ps.pi_membership _ Hm') _ _ Hth Hl) as (r' & Hr' & Hst & _).
      rewrite Htp, Hp' in Hr'. by simplify_eq.
    + unfold is_live in Hl. by apply negb_false_iff, bool_decide_eq_true in Hl.
  - intros th Hth%elem_of_bt_elems. split.
    + destruct (Hdead th Hth) as (t & E & Hst). unfold thread_state. rewrite E. simpl. by rewrite Hst.
    + rewrite Hq, list_elem_of_filter. by intros [? _].
  - intros th Hth. apply Hne. by rewrite elem_of_bt_elems.
  - rewrite Hq. apply list_filter_iff. intros th. by rewrite elem_of_bt_elems.
Qed.

Lemma termination_deschedules_witness :
  ∃ m' s', terminate_process 4 demo_kernel = Done (Ok 2) (m', s') ∧ st_ready s' = [].
Proof.
  destruct (pm_processes demo_kernel.1 !! 4) as [rec|] eqn:Hr; [|by vm_compute in Hr].
  assert (pr_state rec = PsActive ∧ bt_elems (pr_threads rec) = [4; 8]) as [Hact Hl]
    by (vm_compute in Hr; injection Hr as <-; by vm_compute).
  assert (∀ th, th ∈ pr_threads rec ↔ th ∈ [4; 8]) as Hth
    by (intros th; by rewrite <-Hl, elem_of_bt_elems).
  assert (size (pr_threads rec) = 2%nat) as Hsz by (by rewrite <-length_bt_elems, Hl).
  destruct (termination_deschedules demo_kernel.1 demo_kernel.2 4 rec demo_kernel_pair Hr Hact)
    as (m' & s' & H & _ & _ & _ & _ & Hq).
  - intros th Hin%Hth. repeat (apply elem_of_cons in Hin as [->|Hin];
      [apply (bool_decide_unpack _); by vm_compute|]). by apply not_elem_of_nil in Hin.
  - rewrite Hsz. by vm_compute.
  - exists m', s'. rewrite Hsz, <-surjective_pairing in H. split; [exact H|]. rewrite Hq.
    assert (st_ready demo_kernel.2 = [4; 8]) as -> by (by vm_compute).
    clear - Hth. rewrite !filter_cons, !decide_False; [done| |]; rewrite Hth; intros Hc; apply Hc;
      [by right; left|by left].
Defined.

(** What [detach_thread] leaves behind: a thread detached by the termination
    of its process while it runs can still block, be woken and be scheduled again,
    although the process manager has terminated it; and a thread detached while it
    waits keeps its wait, so its deadline still bounds the pump's sleep although no
    thread is waiting. *)
Theorem detached_thread_resurrected :
  let event d := {| sw_target := WaitEvent 1; sw_deadline := d; sw_alertable := false |} in
  let run {A} (c : M SystemThreadManager A) (s : SystemThreadManager) := state_of (c s) s in
  let stop (s : SystemThreadManager) := terminate_process 4 (demo_kernel.1, s) in
  let s1 := run take_next demo_kernel.2 in
  (let t2 := state_of (stop s1) (demo_kernel.1, s1) in
   let s3 := run (wait_current (event None) ;;; wake 4 0) t2.2 in
   st_running s1 = Some 4 ∧ result_of (stop s1) = Some (Ok 2) ∧
   th_state <$> pm_threads t2.1 !! 4 = Some TsTerminated ∧
   thread_state 4 t2.2 = Some KsTerminated ∧
   result_of ((wait_current (event None) ;;; wake 4 0) t2.2) = Some (Ok tt) ∧
   st_running (run take_next s3) = Some 4) ∧
  (let s2 := run (wait_current (event (Some 77))) s1 in
   let t3 := state_of (stop s2) (demo_kernel.1, s2) in
   thread_state 4 s2 = Some KsWaiting ∧ result_of (stop s2) = Some (Ok 2) ∧
   thread_state 4 t3.2 = Some KsTerminated ∧
   has_waiting_threads t3.2 = false ∧ next_wait_deadline t3.2 = Some 77).
Proof. by vm_compute. Qed.

End Kt.
