(* ===== verification/Pnp.v ===== *)
(** * The Plug and Play and power manager ([src/casak/pnp.rs])

    Device nodes form a forest named case-insensitively; each node carries a
    lifecycle and a power state. *)

From S2P Require Import Prelude Status.

Definition IRP_MN_SET_POWER : Z := 0x02.

(** ** Data *)

Inductive PowerState : Type := D0 | D1 | D2 | D3.

#[export] Instance PowerState_eq_dec : EqDecision PowerState.
Proof. solve_decision. Defined.

(** [PowerState::from_raw] *)
Definition from_raw (value : Z) : result PowerState :=
  match value with
  | 1 => Ok D0
  | 2 => Ok D1
  | 3 => Ok D2
  | 4 => Ok D3
  | _ => Err STATUS_POWER_STATE_INVALID
  end.

Definition raw (p : PowerState) : Z :=
  match p with D0 => 1 | D1 => 2 | D2 => 3 | D3 => 4 end.

Inductive DeviceState : Type := DsCreated | DsStarted | DsStopped | DsRemoved.

#[export] Instance DeviceState_eq_dec : EqDecision DeviceState.
Proof. solve_decision. Defined.

Record DeviceNode := {
  dn_id : Z;
  dn_name : str;
  dn_parent : option Z;
  dn_state : DeviceState;
  dn_power : PowerState;
  dn_host_present : bool;
  dn_children : gset Z;
}.

Record PnpManager := {
  pn_nodes : gmap Z DeviceNode;
  pn_names : gmap str Z;
  pn_next_id : Z;
}.

(** [PnpManager::new] *)
Definition new_pnp : PnpManager := {| pn_nodes := ∅; pn_names := ∅; pn_next_id := 1 |}.

(** ** Field updates *)

(** [record.state = state; record.power = power] *)
Definition dn_move (state : DeviceState) (power : PowerState) (d : DeviceNode) : DeviceNode :=
  {| dn_id := dn_id d; dn_name := dn_name d; dn_parent := dn_parent d; dn_state := state;
     dn_power := power; dn_host_present := dn_host_present d; dn_children := dn_children d |}.

Definition dn_set_children (children : gset Z) (d : DeviceNode) : DeviceNode :=
  {| dn_id := dn_id d; dn_name := dn_name d; dn_parent := dn_parent d; dn_state := dn_state d;
     dn_power := dn_power d; dn_host_present := dn_host_present d; dn_children := children |}.

(** [record.children.insert(id)] and [record.children.remove(&id)] *)
Definition add_child (id : Z) (d : DeviceNode) : DeviceNode :=
  dn_set_children ({[ id ]} ∪ dn_children d) d.
Definition drop_child (id : Z) (d : DeviceNode) : DeviceNode :=
  dn_set_children (dn_children d ∖ {[ id ]}) d.

Definition pn_set_nodes (nodes : gmap Z DeviceNode) (s : PnpManager) : PnpManager :=
  {| pn_nodes := nodes; pn_names := pn_names s; pn_next_id := pn_next_id s |}.
Definition pn_set_names (names : gmap str Z) (s : PnpManager) : PnpManager :=
  {| pn_nodes := pn_nodes s; pn_names := names; pn_next_id := pn_next_id s |}.
Definition pn_set_next (next : Z) (s : PnpManager) : PnpManager :=
  {| pn_nodes := pn_nodes s; pn_names := pn_names s; pn_next_id := next |}.
(** [if let Some(record) = self.nodes.get_mut(&id) { .. }] *)
Definition pn_alter (f : DeviceNode → DeviceNode) (id : Z) (s : PnpManager) : PnpManager :=
  pn_set_nodes (alter f id (pn_nodes s)) s.
(** [if let Some(parent_id) = parent { if let Some(record) = .. }] *)
Definition pn_alter_parent (f : DeviceNode → DeviceNode) (parent : option Z) (s : PnpManager)
    : PnpManager := match parent with Some p => pn_alter f p s | None => s end.

(** ** Operations *)

(** [self.nodes.get(&id).ok_or(STATUS_INVALID_HANDLE)?] *)
Definition node (id : Z) : M PnpManager DeviceNode := λ s,
  ok_or (pn_nodes s !! id) STATUS_INVALID_HANDLE s.

Definition fresh_node (id : Z) (name : str) (parent : option Z) (host_present : bool)
    : DeviceNode :=
  {| dn_id := id; dn_name := name; dn_parent := parent; dn_state := DsCreated; dn_power := D3;
     dn_host_present := host_present; dn_children := ∅ |}.

(** The parent must exist and not be removed. *)
Definition check_parent (parent : option Z) : M PnpManager unit :=
  match parent with
  | None => ret tt
  | Some p => d <- node p ;;
              fail_if (bool_decide (dn_state d = DsRemoved)) STATUS_DELETE_PENDING
  end.

Definition add_device (name : str) (parent : option Z) (host_present : bool)
    : M PnpManager Z :=
  let trimmed := trim name in
  fail_if (str_is_empty trimmed || str_contains NUL trimmed) STATUS_INVALID_PARAMETER ;;;
  let key := to_ascii_lowercase trimmed in
  names <- gets pn_names ;;
  fail_if (bool_decide (is_Some (names !! key))) STATUS_OBJECT_NAME_COLLISION ;;;
  check_parent parent ;;;
  id <- gets pn_next_id ;;
  next <- add_at u64_max id 1 ;;
  modify (pn_set_next next) ;;;
  modify (λ s, pn_set_nodes
    (<[id := fresh_node id trimmed parent host_present]> (pn_nodes s)) s) ;;;
  modify (λ s, pn_set_names (<[key := id]> (pn_names s)) s) ;;;
  modify (pn_alter_parent (add_child id) parent) ;;;
  ret id.

Definition start_device (id : Z) : M PnpManager PowerState :=
  d <- node id ;;
  match dn_state d with
  | DsRemoved => throw STATUS_DELETE_PENDING
  | DsStarted => throw STATUS_INVALID_DEVICE_STATE
  | DsCreated | DsStopped =>
      fail_if (negb (dn_host_present d)) STATUS_DEVICE_HARDWARE_ERROR ;;;
      modify (pn_alter (dn_move DsStarted D0) id) ;;;
      ret D0
  end.

Definition stop_device (id : Z) : M PnpManager PowerState :=
  d <- node id ;;
  match dn_state d with
  | DsRemoved => throw STATUS_DELETE_PENDING
  | DsStarted => modify (pn_alter (dn_move DsStopped D3) id) ;;; ret D3
  | DsCreated | DsStopped => throw STATUS_INVALID_DEVICE_STATE
  end.

Definition set_power (id : Z) (power : PowerState) : M PnpManager PowerState :=
  d <- node id ;;
  match dn_state d with
  | DsRemoved => throw STATUS_DELETE_PENDING
  | DsCreated | DsStopped =>
      if bool_decide (power = D0) then throw STATUS_DEVICE_NOT_READY
      else throw STATUS_INVALID_DEVICE_STATE
  | DsStarted =>
      fail_if (negb (dn_host_present d)) STATUS_DEVICE_HARDWARE_ERROR ;;;
      fail_if (bool_decide (dn_power d = power)) STATUS_INVALID_DEVICE_STATE ;;;
      modify (pn_alter (λ d, dn_move (dn_state d) power d) id) ;;;
      ret power
  end.

Definition power_irp (id minor raw_power : Z) : M PnpManager PowerState :=
  nodes <- gets pn_nodes ;;
  fail_if (bool_decide (nodes !! id = None)) STATUS_INVALID_HANDLE ;;;
  fail_if (match nodes !! id with
           | Some d => bool_decide (dn_state d = DsRemoved) | None => false end)
    STATUS_DELETE_PENDING ;;;
  fail_if (negb (minor =? IRP_MN_SET_POWER)) STATUS_NOT_SUPPORTED ;;;
  power <- query (λ _, from_raw raw_power) ;;
  set_power id power.

Definition remove_device (id : Z) : M PnpManager unit :=
  d <- node id ;;
  fail_if (bool_decide (dn_state d = DsRemoved)) STATUS_DELETE_PENDING ;;;
  fail_if (bool_decide (dn_children d ≠ ∅)) STATUS_INVALID_DEVICE_STATE ;;;
  modify (pn_alter_parent (drop_child id) (dn_parent d)) ;;;
  modify (λ s, pn_set_names (delete (to_ascii_lowercase (dn_name d)) (pn_names s)) s) ;;;
  modify (pn_alter (dn_move DsRemoved D3) id).

Definition remove_irp (id : Z) : M PnpManager unit := remove_device id.

(** ** Queries *)

(** [PnpManager::query] *)
Definition query_node (s : PnpManager) (id : Z) : result DeviceNode :=
  match pn_nodes s !! id with Some d => Ok d | None => Err STATUS_INVALID_HANDLE end.

Definition find (s : PnpManager) (name : str) : result Z :=
  match pn_names s !! to_ascii_lowercase (trim name) with
  | Some id => Ok id
  | None => Err STATUS_OBJECT_NAME_NOT_FOUND
  end.

Definition children (s : PnpManager) (id : Z) : result (list Z) :=
  match query_node s id with Ok d => Ok (bt_elems (dn_children d)) | Err e => Err e end.

Definition device_count (s : PnpManager) : Z := Z.of_nat (size (pn_nodes s)).

Definition child_count (s : PnpManager) (id : Z) : result Z :=
  match query_node s id with Ok d => Ok (Z.of_nat (size (dn_children d))) | Err e => Err e end.
