(* ===== verification/PnpFacts.v ===== *)
(** * Correctness of the Plug and Play manager

    The device forest, its name index and its child sets agree in every reachable
    state, and the lifecycle operations refine a transition table. *)

From S2P Require Import Prelude Status Pnp.

Module Pp.

(** ** The invariant *)

Definition live (d : DeviceNode) : Prop := dn_state d ≠ DsRemoved.

#[export] Instance live_dec d : Decision (live d).
Proof. unfold live. apply _. Defined.

Definition name_key (d : DeviceNode) : str := to_ascii_lowercase (dn_name d).

(** A node that is not started has no power, and a started one is backed by the host. *)
Definition power_ok (d : DeviceNode) : Prop :=
  (dn_state d ≠ DsStarted → dn_power d = D3) ∧ (dn_state d = DsStarted → dn_host_present d = true).

Record PInv (s : PnpManager) : Prop := {
  pi_next : 1 ≤ pn_next_id s;
  pi_id : ∀ i d, pn_nodes s !! i = Some d → dn_id d = i ∧ 1 ≤ i < pn_next_id s ∧ power_ok d;
  pi_names : ∀ k i, pn_names s !! k = Some i ↔
    ∃ d, pn_nodes s !! i = Some d ∧ live d ∧ name_key d = k;
  pi_parent : ∀ i d p, pn_nodes s !! i = Some d → dn_parent d = Some p →
    p < i ∧ ∃ e, pn_nodes s !! p = Some e ∧ (live d → live e);
  pi_children : ∀ p e i, pn_nodes s !! p = Some e →
    i ∈ dn_children e ↔ ∃ d, pn_nodes s !! i = Some d ∧ live d ∧ dn_parent d = Some p;
}.

Lemma tree_new : PInv new_pnp.
Proof. by constructor; intros; simplify_map_eq; naive_solver. Qed.

(** Two live nodes never share a name. *)
Lemma names_injective s i j d e :
  PInv s → pn_nodes s !! i = Some d → pn_nodes s !! j = Some e → live d → live e →
  name_key d = name_key e → i = j.
Proof.
  intros Hs Hd He Hld Hle E.
  assert (pn_names s !! name_key d = Some i) as H1 by (apply (pi_names _ Hs); eauto).
  assert (pn_names s !! name_key d = Some j) as H2 by (apply (pi_names _ Hs); eauto).
  congruence.
Qed.

(** A node that is powered, started or stopped. *)
Lemma pinv_move id d state power s :
  PInv s → pn_nodes s !! id = Some d → live d → state ≠ DsRemoved →
  power_ok (dn_move state power d) → PInv (pn_alter (dn_move state power) id s).
Proof.
  intros [] Hd Hl Hst Hp.
  assert (∀ i e, alter (dn_move state power) id (pn_nodes s) !! i = Some e →
    ∃ e0, pn_nodes s !! i = Some e0 ∧ dn_id e = dn_id e0 ∧ name_key e = name_key e0 ∧
      dn_parent e = dn_parent e0 ∧ dn_children e = dn_children e0 ∧ (live e ↔ live e0) ∧
      (power_ok e0 → power_ok e)) as Hback.
  { intros i e. rewrite lookup_alter_Some. intros [(<- & e0 & He & ->)|[Hne He]].
    - simplify_eq. exists d. split_and!; done.
    - by exists e. }
  assert (∀ i e0, pn_nodes s !! i = Some e0 →
    ∃ e, alter (dn_move state power) id (pn_nodes s) !! i = Some e ∧ name_key e = name_key e0 ∧
      dn_parent e = dn_parent e0 ∧ (live e ↔ live e0)) as Hfwd.
  { intros i e0 He. destruct (decide (id = i)) as [<-|Hne].
    - rewrite lookup_alter_eq, He. simplify_eq. eexists. split_and!; done.
    - rewrite lookup_alter_ne by done. by exists e0. }
  constructor; simpl; try done.
  - intros i e He. destruct (Hback _ _ He) as (e0 & H0 & -> & _ & _ & _ & _ & Hpw).
    destruct (pi_id0 _ _ H0) as (? & ? & ?). auto.
  - intros k i. rewrite pi_names0. split.
    + intros (e0 & H0 & Hle & <-). destruct (Hfwd _ _ H0) as (e & He & Hk & _ & Hiff). naive_solver.
    + intros (e & He & Hle & <-). destruct (Hback _ _ He) as (e0 & H0 & _ & Hk & _ & _ & Hiff & _).
      exists e0. naive_solver.
  - intros i e p He Hpar. destruct (Hback _ _ He) as (e0 & H0 & _ & _ & Hp0 & _ & Hiff & _).
    rewrite Hp0 in Hpar. destruct (pi_parent0 _ _ _ H0 Hpar) as (Hlt & f0 & Hf0 & Hlive).
    destruct (Hfwd _ _ Hf0) as (f & Hf & _ & _ & Hfl). naive_solver.
  - intros p e i He. destruct (Hback _ _ He) as (e0 & H0 & _ & _ & _ & -> & _).
    rewrite (pi_children0 _ _ _ H0). split.
    + intros (f0 & Hf0 & Hlf & Hpf). destruct (Hfwd _ _ Hf0) as (f & Hf & _ & Hp' & Hiff).
      exists f. rewrite Hp'. naive_solver.
    + intros (f & Hf & Hlf & Hpf). destruct (Hback _ _ Hf) as (f0 & Hf0 & _ & _ & Hp' & _ & Hiff & _).
      exists f0. rewrite <-Hp'. naive_solver.
Qed.

(** ** Adding and removing a node *)

Definition parent_fun (f : DeviceNode → DeviceNode) (parent : option Z) (i : Z) (d : DeviceNode)
    : DeviceNode := if decide (parent = Some i) then f d else d.

Lemma lookup_alter_parent f parent s i :
  pn_nodes (pn_alter_parent f parent s) !! i = parent_fun f parent i <$> pn_nodes s !! i.
Proof.
  unfold parent_fun. destruct parent as [p|]; simpl.
  - destruct (decide (p = i)) as [->|Hne].
    + rewrite lookup_alter_eq. destruct (pn_nodes s !! i); simpl; [|done]. by rewrite decide_True.
    + rewrite lookup_alter_ne by done. destruct (pn_nodes s !! i); simpl; [|done].
      by rewrite decide_False by congruence.
  - by destruct (pn_nodes s !! i).
Qed.

Lemma alter_parent_names f parent s : pn_names (pn_alter_parent f parent s) = pn_names s.
Proof. by destruct parent. Qed.

Lemma alter_parent_next f parent s : pn_next_id (pn_alter_parent f parent s) = pn_next_id s.
Proof. by destruct parent. Qed.

(** [parent_fun] with a function that only changes the children. *)
Definition children_only (f : DeviceNode → DeviceNode) : Prop :=
  ∀ d, ∃ X, f d = dn_set_children X d.

Lemma children_only_add id : children_only (add_child id).
Proof. intros d. by eexists. Qed.
Lemma children_only_drop id : children_only (drop_child id).
Proof. intros d. by eexists. Qed.

Lemma parent_fun_only f parent i d :
  children_only f → ∃ X, parent_fun f parent i d = dn_set_children X d.
Proof.
  intros Hf. unfold parent_fun. case_decide; [apply Hf|]. exists (dn_children d). by destruct d.
Qed.

(** The state [add_device] leaves when it succeeds. *)
Definition with_node (name : str) (parent : option Z) (present : bool) (s : PnpManager)
    : PnpManager :=
  let id := pn_next_id s in
  pn_alter_parent (add_child id) parent
    (pn_set_names (<[to_ascii_lowercase name := id]> (pn_names s))
      (pn_set_nodes (<[id := fresh_node id name parent present]> (pn_nodes s))
        (pn_set_next (id + 1) s))).

Lemma pinv_with_node name parent present s :
  PInv s → pn_names s !! to_ascii_lowercase name = None →
  (∀ p, parent = Some p → ∃ d, pn_nodes s !! p = Some d ∧ live d) →
  PInv (with_node name parent present s).
Proof.
  intros Hs Hk Hpar. pose proof Hs as [].
  assert (pn_nodes s !! pn_next_id s = None) as Hfresh.
  { destruct (pn_nodes s !! pn_next_id s) eqn:E; [|done]. apply pi_id0 in E. lia. }
  assert (∀ p, parent = Some p → p < pn_next_id s) as Hlt.
  { intros p Hp. destruct (Hpar p Hp) as (d & Hd & _). apply pi_id0 in Hd as (_ & ? & _). lia. }
  assert (∀ i, pn_nodes (with_node name parent present s) !! i =
    parent_fun (add_child (pn_next_id s)) parent i <$>
      <[pn_next_id s := fresh_node (pn_next_id s) name parent present]> (pn_nodes s) !! i) as Hlk
    by (intros; apply lookup_alter_parent).
  set (s' := with_node name parent present s) in *.
  assert (∀ i d', pn_nodes s' !! i = Some d' →
    (i = pn_next_id s ∧ d' = fresh_node i name parent present) ∨
    (i ≠ pn_next_id s ∧ ∃ d, pn_nodes s !! i = Some d ∧
       d' = parent_fun (add_child (pn_next_id s)) parent i d)) as Hback.
  { intros i d'. rewrite Hlk, fmap_Some. setoid_rewrite lookup_insert_Some.
    intros (d & [[<- <-]|[Hne Hd]] & ->); [left|right; by eauto]. split; [done|].
    unfold parent_fun. rewrite decide_False; [done|]. intros E%Hlt. lia. }
  assert (pn_nodes s' !! pn_next_id s = Some (fresh_node (pn_next_id s) name parent present)) as Hnew.
  { rewrite Hlk, lookup_insert_eq. simpl. unfold parent_fun. rewrite decide_False; [done|].
    intros E%Hlt. lia. }
  assert (∀ i d, pn_nodes s !! i = Some d →
    pn_nodes s' !! i = Some (parent_fun (add_child (pn_next_id s)) parent i d)) as Hfwd.
  { intros i d Hd. rewrite Hlk, lookup_insert_ne by congruence. by rewrite Hd. }
  assert (∀ i d, ∃ X, parent_fun (add_child (pn_next_id s)) parent i d = dn_set_children X d) as HX
    by (intros; apply parent_fun_only, children_only_add).
  constructor.
  - unfold s', with_node. rewrite alter_parent_next. simpl. lia.
  - assert (pn_next_id s' = pn_next_id s + 1) as ->
      by (unfold s', with_node; by rewrite alter_parent_next).
    intros i d' [[-> ->]|(_ & d & Hd & ->)]%Hback.
    + split; [done|]. split; [lia|]. by split.
    + destruct (HX i d) as [X ->]. apply pi_id0 in Hd as (? & ? & ?). split; [done|]. split; [lia|done].
  - intros k i. unfold s' at 1, with_node. rewrite alter_parent_names. simpl.
    rewrite lookup_insert_Some, pi_names0. split.
    + intros [[<- <-]|[Hne (d & Hd & Hl & <-)]]; [by eexists|].
      rewrite (Hfwd _ _ Hd). destruct (HX i d) as [X ->]. by eexists.
    + intros (d' & Hd' & Hl & <-).
      destruct (Hback _ _ Hd') as [[-> ->]|(_ & d & Hd & ->)]; [by left|].
      destruct (HX i d) as [X E]. rewrite E in *. right.
      assert (pn_names s !! name_key d = Some i) as Hni by (apply pi_names0; eauto).
      split; [|by eauto]. intros E'. unfold name_key in *. simpl in *. congruence.
  - intros i d' p [[-> ->]|(_ & d & Hd & ->)]%Hback Hp.
    + simpl in Hp. split; [by apply Hlt|]. destruct (Hpar p Hp) as (d & Hd & Hl).
      rewrite (Hfwd _ _ Hd). destruct (HX p d) as [X ->]. by eexists.
    + destruct (HX i d) as [X E]. rewrite E in *. destruct (pi_parent0 _ _ _ Hd Hp) as (? & e & He & ?).
      split; [done|]. rewrite (Hfwd _ _ He). destruct (HX p e) as [Y ->]. by eexists.
  - intros p e' i Hp. assert (i ∈ dn_children e' ↔
      (parent = Some p ∧ i = pn_next_id s) ∨ ∃ d, pn_nodes s !! i = Some d ∧ live d ∧ dn_parent d = Some p) as ->.
    { destruct (Hback _ _ Hp) as [[-> ->]|(_ & e & He & ->)].
      - simpl. split; [set_solver|]. intros [[E%Hlt _]|(d & Hd & _ & Hpd)]; [lia|].
        destruct (pi_parent0 _ _ _ Hd Hpd) as (_ & f & Hf & _). congruence.
      - unfold parent_fun. rewrite <-(pi_children0 _ _ i He). case_decide; simpl; set_solver. }
    split.
    + intros [[-> ->]|(d & Hd & Hl & Hpd)]; [by eexists|].
      rewrite (Hfwd _ _ Hd). destruct (HX i d) as [X ->]. by eexists.
    + intros (d' & Hd' & Hl & Hpd). destruct (Hback _ _ Hd') as [[-> ->]|(_ & d & Hd & ->)]; [by left|].
      destruct (HX i d) as [X E]. rewrite E in *. right. by eauto.
Qed.

(** The state [remove_device] leaves when it succeeds. *)
Definition without_node (id : Z) (d : DeviceNode) (s : PnpManager) : PnpManager :=
  let s1 := pn_alter_parent (drop_child id) (dn_parent d) s in
  pn_alter (dn_move DsRemoved D3) id (pn_set_names (delete (name_key d) (pn_names s1)) s1).

Lemma pinv_without_node id d s :
  PInv s → pn_nodes s !! id = Some d → live d → dn_children d = ∅ → PInv (without_node id d s).
Proof.
  intros Hs Hd Hld Hch. pose proof Hs as [].
  set (s' := without_node id d s).
  set (g := λ i e, if decide (i = id) then dn_move DsRemoved D3 e
                   else parent_fun (drop_child id) (dn_parent d) i e).
  assert (dn_parent d ≠ Some id) as Hself.
  { intros E. destruct (pi_parent0 _ _ _ Hd E). lia. }
  assert (∀ i, pn_nodes s' !! i = g i <$> pn_nodes s !! i) as Hlk.
  { intros i. unfold s', without_node, g. simpl. destruct (decide (i = id)) as [->|Hne].
    - rewrite lookup_alter_eq, lookup_alter_parent, Hd. simpl. unfold parent_fun.
      by rewrite decide_False.
    - by rewrite lookup_alter_ne, lookup_alter_parent. }
  assert (∀ i e', pn_nodes s' !! i = Some e' → ∃ e, pn_nodes s !! i = Some e ∧ e' = g i e) as Hback.
  { intros i e'. rewrite Hlk, fmap_Some. naive_solver. }
  assert (∀ i e, pn_nodes s !! i = Some e → pn_nodes s' !! i = Some (g i e)) as Hfwd.
  { intros i e He. by rewrite Hlk, He. }
  assert (∀ i e, i ≠ id → ∃ X, g i e = dn_set_children X e) as HX.
  { intros i e Hne. unfold g. rewrite decide_False by done. apply parent_fun_only, children_only_drop. }
  assert (∀ e, g id e = dn_move DsRemoved D3 e) as Hgid by (intros; unfold g; by rewrite decide_True).
  assert (pn_names s' = delete (name_key d) (pn_names s)) as Hn
    by (unfold s', without_node; simpl; by rewrite alter_parent_names).
  assert (pn_next_id s' = pn_next_id s) as Hnx
    by (unfold s', without_node; simpl; by rewrite alter_parent_next).
  constructor; rewrite ?Hnx; [done|..].
  - intros i e' (e & He & ->)%Hback. destruct (pi_id0 _ _ He) as (? & ? & ?).
    destruct (decide (i = id)) as [->|Hne]; [rewrite Hgid; split; [done|split; [done|by split]]|].
    by destruct (HX i e Hne) as [X ->].
  - intros k i. rewrite Hn, lookup_delete_Some, pi_names0. split.
    + intros [Hk (e & He & Hl & <-)]. rewrite (Hfwd _ _ He).
      assert (i ≠ id) as Hne by (intros ->; congruence). destruct (HX i e Hne) as [X ->]. by eexists.
    + intros (e' & He' & Hl & <-). destruct (Hback _ _ He') as (e & He & ->).
      destruct (decide (i = id)) as [->|Hne]; [by rewrite Hgid in Hl|].
      destruct (HX i e Hne) as [X E]. rewrite E in *. split; [|by eauto].
      intros Hk. apply Hne. symmetry. by eapply names_injective.
  - intros i e' p (e & He & ->)%Hback Hp.
    assert (dn_parent e = Some p) as Hp0.
    { destruct (decide (i = id)) as [->|Hne]; [by rewrite Hgid in Hp|].
      by destruct (HX i e Hne) as [X E]; rewrite E in Hp. }
    destruct (pi_parent0 _ _ _ He Hp0) as (Hlt & f & Hf & Hlive). split; [done|].
    exists (g p f). split; [by apply Hfwd|]. intros Hl.
    destruct (decide (p = id)) as [->|Hpne].
    + assert (i ≠ id) as Hne by lia. destruct (HX i e Hne) as [X E]. rewrite E in Hl. assert (f = d) as -> by congruence.
      assert (i ∈ dn_children d) as Hin by (apply (pi_children0 _ _ _ Hf); eauto). set_solver.
    + destruct (HX p f Hpne) as [X ->]. apply Hlive.
      destruct (decide (i = id)) as [->|Hne]; [by rewrite Hgid in Hl|].
      by destruct (HX i e Hne) as [Y E]; rewrite E in Hl.
  - intros p e' i (e & He & ->)%Hback.
    assert (i ∈ dn_children (g p e) ↔ i ≠ id ∧ i ∈ dn_children e) as ->.
    { destruct (decide (p = id)) as [->|Hpne].
      - rewrite Hgid. simpl. assert (e = d) as -> by congruence. rewrite Hch. set_solver.
      - unfold g. rewrite decide_False by done. unfold parent_fun. case_decide as Hpp; simpl; [set_solver|].
        split; [|by intros []]. intros Hin. split; [|done]. intros ->.
        apply (pi_children0 _ _ _ He) in Hin as (d' & ? & _ & ?). congruence. }
    rewrite (pi_children0 _ _ _ He). split.
    + intros [Hne (f & Hf & Hl & Hp)]. rewrite (Hfwd _ _ Hf).
      destruct (HX i f Hne) as [X ->]. by eexists.
    + intros (f' & Hf' & Hl & Hp). destruct (Hback _ _ Hf') as (f & Hf & ->).
      destruct (decide (i = id)) as [->|Hne]; [by rewrite Hgid in Hl|].
      destruct (HX i f Hne) as [X E]. rewrite E in *. eauto.
Qed.

(** ** The operations *)

Lemma node_run id s :
  node id s = match pn_nodes s !! id with
              | Some d => Done (Ok d) s | None => Done (Err STATUS_INVALID_HANDLE) s end.
Proof. unfold node. simpl. by destruct (pn_nodes s !! id). Qed.

Lemma add_device_ok name parent present s r s' :
  add_device name parent present s = Done r s' →
  match r with
  | Ok id => id = pn_next_id s ∧ s' = with_node (trim name) parent present s ∧
      pn_names s !! to_ascii_lowercase (trim name) = None ∧
      ∀ p, parent = Some p → ∃ d, pn_nodes s !! p = Some d ∧ live d
  | Err _ => s' = s
  end.
Proof.
  unfold add_device. mrun. destruct (_ || _); mrun; [by intros [= <- <-]|].
  case_bool_decide as Hk; mrun; [by intros [= <- <-]|]. apply eq_None_not_Some in Hk.
  destruct (check_parent parent s) as [[u|e] s1|] eqn:Ec; mrun; [| |done].
  - assert (s1 = s ∧ ∀ p, parent = Some p → ∃ d, pn_nodes s !! p = Some d ∧ live d) as [-> Hp].
    { destruct parent as [p|]; simpl in Ec; [|by simplify_eq].
      rewrite node_run in Ec. destruct (pn_nodes s !! p) as [d|] eqn:Ed; [|done]. mrun.
      case_bool_decide; simplify_eq. split; [done|]. intros q [= <-]. by exists d. }
    destruct (_ <=? _); [|done]. intros [= <- <-]. by split_and!.
  - intros [= <- <-]. destruct parent as [p|]; simpl in Ec; [|by simplify_eq].
    rewrite node_run in Ec. destruct (pn_nodes s !! p); mrun; [|by simplify_eq].
    case_bool_decide; by simplify_eq.
Qed.

(** What an external driver of the manager can do. *)
Inductive event : Type :=
| EvStart | EvStop | EvPower (p : PowerState) | EvPowerIrp (minor raw_power : Z) | EvRemove.

(** The operation for an event, with the power state it reports. *)
Definition deliver (ev : event) (id : Z) : M PnpManager (option PowerState) :=
  match ev with
  | EvStart => p <- start_device id ;; ret (Some p)
  | EvStop => p <- stop_device id ;; ret (Some p)
  | EvPower p => p <- set_power id p ;; ret (Some p)
  | EvPowerIrp m p => p <- power_irp id m p ;; ret (Some p)
  | EvRemove => remove_irp id ;;; ret None
  end.

Inductive pnp_step : PnpManager → PnpManager → Prop :=
| ps_add name parent present s r s' :
    add_device name parent present s = Done r s' → pnp_step s s'
| ps_event ev id s r s' : deliver ev id s = Done r s' → pnp_step s s'.

(** ** The lifecycle of one node

    The specification: which transitions exist, given whether the host backs the
    device ([present]) and whether no live device hangs below it ([leaf]). *)

Definition point : Type := DeviceState * PowerState.

Inductive lifecycle (present : bool) (leaf : Prop) : point → event → point → Prop :=
| lc_start st p :
    st = DsCreated ∨ st = DsStopped → present = true →
    lifecycle present leaf (st, p) EvStart (DsStarted, D0)
| lc_stop p : lifecycle present leaf (DsStarted, p) EvStop (DsStopped, D3)
| lc_power p q :
    present = true → p ≠ q → lifecycle present leaf (DsStarted, p) (EvPower q) (DsStarted, q)
| lc_power_irp p q :
    present = true → p ≠ q →
    lifecycle present leaf (DsStarted, p) (EvPowerIrp IRP_MN_SET_POWER (raw q)) (DsStarted, q)
| lc_remove st p : st ≠ DsRemoved → leaf → lifecycle present leaf (st, p) EvRemove (DsRemoved, D3).

(** Why a transition that does not exist is refused. *)
Definition refuse_power (q : PowerState) (present : bool) (st : DeviceState) : Z :=
  match st with
  | DsStarted => if present then STATUS_INVALID_DEVICE_STATE else STATUS_DEVICE_HARDWARE_ERROR
  | _ => if decide (q = D0) then STATUS_DEVICE_NOT_READY else STATUS_INVALID_DEVICE_STATE
  end.

Definition refusal (ev : event) (present : bool) (st : DeviceState) : Z :=
  if decide (st = DsRemoved) then STATUS_DELETE_PENDING else
  match ev with
  | EvStart => if decide (st = DsStarted) then STATUS_INVALID_DEVICE_STATE
               else STATUS_DEVICE_HARDWARE_ERROR
  | EvStop | EvRemove => STATUS_INVALID_DEVICE_STATE
  | EvPower q => refuse_power q present st
  | EvPowerIrp minor p =>
      if negb (minor =? 2) then STATUS_NOT_SUPPORTED else
      match from_raw p with
      | Ok q => refuse_power q present st
      | Err e => e
      end
  end.

Definition point_of (d : DeviceNode) : point := (dn_state d, dn_power d).
Definition view (s : PnpManager) : gmap Z point := point_of <$> pn_nodes s.
Definition is_leaf (s : PnpManager) (id : Z) : Prop :=
  ∀ i d, pn_nodes s !! i = Some d → dn_parent d = Some id → ¬ live d.

Lemma from_raw_spec v q : from_raw v = Ok q ↔ v = raw q.
Proof.
  split.
  - unfold from_raw. repeat case_match; intros [= <-]; done.
  - intros ->. by destruct q.
Qed.

Lemma leaf_children s id d :
  PInv s → pn_nodes s !! id = Some d → is_leaf s id ↔ dn_children d = ∅.
Proof.
  intros Hs Hd. split.
  - intros Hl. apply set_eq. intros i. split; [|set_solver].
    intros (e & He & Hle & Hp)%(pi_children _ Hs _ _ i Hd). by destruct (Hl i e).
  - intros E i e He Hp Hl. assert (i ∈ dn_children d); [|set_solver].
    apply (pi_children _ Hs _ _ _ Hd). eauto.
Qed.

Lemma view_move st p id s d :
  pn_nodes s !! id = Some d → view (pn_alter (dn_move st p) id s) = <[id := (st, p)]> (view s).
Proof.
  intros Hd. unfold view. simpl. apply map_eq. intros i.
  destruct (decide (id = i)) as [<-|Hne].
  - by rewrite lookup_fmap, lookup_alter_eq, Hd, lookup_insert_eq.
  - by rewrite lookup_fmap, lookup_alter_ne, lookup_insert_ne, lookup_fmap.
Qed.

Lemma view_alter_parent f parent s :
  children_only f → view (pn_alter_parent f parent s) = view s.
Proof.
  intros Hf. apply map_eq. intros i. unfold view. rewrite !lookup_fmap, lookup_alter_parent.
  destruct (pn_nodes s !! i) as [d|]; [|done]. simpl.
  by destruct (parent_fun_only f parent i d Hf) as [X ->].
Qed.

Lemma set_power_run q id d s :
  pn_nodes s !! id = Some d →
  set_power id q s =
    if decide (dn_state d = DsStarted ∧ dn_host_present d = true ∧ dn_power d ≠ q)
    then Done (Ok q) (pn_alter (λ d, dn_move (dn_state d) q d) id s)
    else Done (Err (if decide (dn_state d = DsRemoved) then STATUS_DELETE_PENDING
                    else refuse_power q (dn_host_present d) (dn_state d))) s.
Proof.
  intros Hd. unfold set_power, bind at 1. rewrite node_run, Hd. unfold refuse_power.
  destruct (dn_state d) eqn:Es, (dn_host_present d) eqn:Eh, (decide (dn_power d = q)) as [E|E];
    mrun; repeat case_bool_decide; repeat case_decide; naive_solver.
Qed.

(** [set_power] keeps the state it read. *)
Lemma set_power_move q id d s :
  pn_nodes s !! id = Some d → dn_state d = DsStarted →
  pn_alter (λ d, dn_move (dn_state d) q d) id s = pn_alter (dn_move DsStarted q) id s.
Proof.
  intros Hd Hst. unfold pn_alter. f_equal. apply alter_ext. intros e He. simplify_eq. by rewrite Hst.
Qed.

#[export] Instance event_eq_dec : EqDecision event.
Proof. solve_decision. Defined.

(** The outcome the specification allows an event on the node [d]. *)
Definition conforms (ev : event) (id : Z) (d : DeviceNode) (s : PnpManager)
    (o : outcome PnpManager (option PowerState)) : Prop :=
  match o with
  | Done (Ok p) s' =>
      ∃ v, lifecycle (dn_host_present d) (is_leaf s id) (point_of d) ev v ∧
        view s' = <[id := v]> (view s) ∧ p = (if decide (ev = EvRemove) then None else Some v.2)
  | Done (Err e) s' =>
      s' = s ∧ e = refusal ev (dn_host_present d) (dn_state d) ∧
      ∀ v, ¬ lifecycle (dn_host_present d) (is_leaf s id) (point_of d) ev v
  | Panic => False
  end.

Lemma conforms_start id d s : pn_nodes s !! id = Some d → conforms EvStart id d s (deliver EvStart id s).
Proof.
  intros Hd. unfold deliver, start_device, bind at 1 2. rewrite node_run, Hd.
  unfold conforms, refusal, point_of.
  destruct (dn_state d) eqn:Es, (dn_host_present d) eqn:Eh; mrun; repeat case_decide; try done;
    try (split_and!; [done|done|]; intros v Hv; inversion Hv; naive_solver).
  all: exists (DsStarted, D0); split_and!; [apply lc_start; auto|by eapply view_move|done].
Qed.

Lemma conforms_stop id d s : pn_nodes s !! id = Some d → conforms EvStop id d s (deliver EvStop id s).
Proof.
  intros Hd. unfold deliver, stop_device, bind at 1 2. rewrite node_run, Hd.
  unfold conforms, refusal, point_of.
  destruct (dn_state d) eqn:Es; mrun; repeat case_decide; try done;
    try (split_and!; [done|done|]; intros v Hv; inversion Hv; naive_solver).
  exists (DsStopped, D3); split_and!; [apply lc_stop|by eapply view_move|done].
Qed.

Lemma conforms_power q id d s :
  pn_nodes s !! id = Some d → conforms (EvPower q) id d s (deliver (EvPower q) id s).
Proof.
  intros Hd. unfold deliver, bind. rewrite (set_power_run q id d s Hd). unfold conforms, refusal, point_of.
  destruct (decide (dn_state d = DsStarted ∧ _)) as [(Es & Eh & Ep)|Hn]; mrun.
  - exists (DsStarted, q). rewrite Es, Eh, (set_power_move q id d s) by done.
    split_and!; [by apply lc_power|by eapply view_move|done].
  - split_and!; [done|done|]. intros v Hv. inversion Hv; naive_solver.
Qed.

Lemma conforms_power_irp m p id d s :
  pn_nodes s !! id = Some d → conforms (EvPowerIrp m p) id d s (deliver (EvPowerIrp m p) id s).
Proof.
  intros Hd. pose proof (λ q, conforms_power q id d s Hd) as Hpw.
  unfold deliver, power_irp. mrun. rewrite Hd, (bool_decide_false (Some d = None)) by done. mrun.
  destruct (decide (dn_state d = DsRemoved)) as [Er|Er].
  { rewrite bool_decide_true by done. mrun. unfold conforms, refusal. rewrite decide_True by done.
    split_and!; [done|done|]. intros v Hv. inversion Hv; congruence. }
  rewrite bool_decide_false by done. mrun.
  destruct (m =? IRP_MN_SET_POWER) eqn:Em; mrun; unfold conforms, refusal; rewrite decide_False by done.
  - unfold IRP_MN_SET_POWER in Em. rewrite Em. mrun. destruct (from_raw p) as [q|e] eqn:Ep; mrun.
    + apply from_raw_spec in Ep as ->. specialize (Hpw q). unfold conforms, refusal in Hpw.
      rewrite decide_False in Hpw by done. cbn [deliver] in Hpw. mrun.
      apply Z.eqb_eq in Em as ->.
      destruct (set_power id q s) as [[w|e] s'|]; [| |done].
      * destruct Hpw as (v & Hv & Hview & Hp). exists v. split_and!; [|done|done].
        inversion Hv; subst.
        unfold point_of. rewrite <-H. by apply lc_power_irp.
      * destruct Hpw as (-> & -> & Hno). split_and!; [done|done|]. intros v Hv. inversion Hv; subst.
        apply (Hno (DsStarted, q)). assert (q0 = q) as -> by (by destruct q0, q).
        unfold point_of. rewrite <-H. by apply lc_power.
    + split_and!; [done|done|]. intros v Hv. inversion Hv; subst.
      assert (from_raw (raw q) = Ok q) as E by (by apply from_raw_spec). congruence.
  - unfold IRP_MN_SET_POWER in Em. rewrite Em. split_and!; [done|done|]. intros v Hv. inversion Hv; subst.
    done.
Qed.

Lemma remove_device_run id d s :
  pn_nodes s !! id = Some d → live d → dn_children d = ∅ →
  remove_device id s = Done (Ok tt) (without_node id d s).
Proof.
  intros Hd Hl Hc. unfold remove_device, bind at 1. rewrite node_run, Hd. mrun.
  rewrite bool_decide_false by done. mrun. rewrite bool_decide_false by auto. by mrun.
Qed.

Lemma remove_device_refused id d s :
  pn_nodes s !! id = Some d → ¬ (live d ∧ dn_children d = ∅) →
  remove_device id s = Done (Err (refusal EvRemove (dn_host_present d) (dn_state d))) s.
Proof.
  intros Hd Hl. unfold remove_device, bind at 1, refusal. rewrite node_run, Hd. mrun.
  case_bool_decide; mrun; case_decide; try done. rewrite bool_decide_true; [done|]. naive_solver.
Qed.

Lemma view_without_node id d s :
  PInv s → pn_nodes s !! id = Some d → view (without_node id d s) = <[id := (DsRemoved, D3)]> (view s).
Proof.
  intros Hs Hd. unfold without_node.
  rewrite <-(view_alter_parent (drop_child id) (dn_parent d) s (children_only_drop id)).
  eapply (view_move _ _ _ (pn_set_names _ _)). simpl. rewrite lookup_alter_parent, Hd. done.
Qed.

Lemma conforms_remove id d s :
  PInv s → pn_nodes s !! id = Some d → conforms EvRemove id d s (deliver EvRemove id s).
Proof.
  intros Hs Hd. unfold deliver, remove_irp, bind at 1. pose proof (leaf_children s id d Hs Hd) as Hlf.
  destruct (decide (live d ∧ dn_children d = ∅)) as [[Hl Hc]|Hn].
  - rewrite (remove_device_run id d s Hd Hl Hc). mrun. exists (DsRemoved, D3).
    split_and!; [|by apply view_without_node|done]. apply lc_remove; [done|by apply Hlf].
  - rewrite (remove_device_refused id d s Hd Hn). split_and!; [done|done|].
    intros v Hv. inversion Hv; subst. apply Hn. split; [done|by apply Hlf].
Qed.

Lemma deliver_conforms ev id d s :
  PInv s → pn_nodes s !! id = Some d → conforms ev id d s (deliver ev id s).
Proof.
  intros Hs Hd. destruct ev.
  - by apply conforms_start.
  - by apply conforms_stop.
  - by apply conforms_power.
  - by apply conforms_power_irp.
  - by apply conforms_remove.
Qed.

(** ** Reachable states *)

Lemma deliver_unknown ev id s :
  pn_nodes s !! id = None → deliver ev id s = Done (Err STATUS_INVALID_HANDLE) s.
Proof.
  intros Hn. destruct ev; unfold deliver, start_device, stop_device, set_power, power_irp, remove_irp,
    remove_device, bind; rewrite ?node_run, ?Hn; try done.
  mrun. by rewrite Hn, bool_decide_true.
Qed.

Lemma pinv_deliver ev id s r s' : PInv s → deliver ev id s = Done r s' → PInv s'.
Proof.
  intros Hs H. destruct (pn_nodes s !! id) as [d|] eqn:Hd.
  2: { rewrite deliver_unknown in H by done. by simplify_eq. }
  assert (∀ st p, live d → st = DsStarted ∧ dn_host_present d = true ∨ st = DsStopped ∧ p = D3 →
    PInv (pn_alter (dn_move st p) id s)) as Hmove.
  { intros st p Hl Hst. apply (pinv_move _ d); [done|done|done|naive_solver|].
    unfold power_ok; simpl. naive_solver. }
  assert (∀ q r1 s1, set_power id q s = Done r1 s1 → PInv s1) as Hpower.
  { intros q r1 s1. rewrite (set_power_run q id d s Hd). case_decide as Hc; [|by intros [= <- <-]].
    intros [= <- <-]. destruct Hc as (Hst & Hp & _). rewrite (set_power_move q id d s) by done.
    apply Hmove; [by unfold live; rewrite Hst|by left]. }
  destruct ev; unfold deliver, bind in H.
  - unfold start_device, bind in H. rewrite node_run, Hd in H.
    destruct (dn_state d) eqn:Es, (dn_host_present d) eqn:Eh; mrun; simplify_eq; try done;
      (apply Hmove; [by unfold live; rewrite Es|by left]).
  - unfold stop_device, bind in H. rewrite node_run, Hd in H.
    destruct (dn_state d) eqn:Es; mrun; simplify_eq; try done.
    apply Hmove; [by unfold live; rewrite Es|by right].
  - destruct (set_power id p s) as [[]|] eqn:E; mrun; simplify_eq; by eapply Hpower.
  - unfold power_irp in H. mrun. rewrite Hd in H. rewrite bool_decide_false in H by done.
    case_bool_decide; mrun; [by simplify_eq|]. destruct (minor =? _); mrun; [|by simplify_eq].
    destruct (from_raw raw_power) as [q|e]; mrun; [|by simplify_eq].
    destruct (set_power id q s) as [[]|] eqn:E; mrun; simplify_eq; by eapply Hpower.
  - unfold remove_irp in H. destruct (decide (live d ∧ dn_children d = ∅)) as [[Hl Hc]|Hn].
    + rewrite (remove_device_run id d s) in H by done. mrun. simplify_eq. by apply pinv_without_node.
    + rewrite (remove_device_refused id d s) in H by done. by simplify_eq.
Qed.

Lemma pinv_step s s' : PInv s → pnp_step s s' → PInv s'.
Proof.
  intros Hs Hstep. inversion Hstep as [name parent present s0 r s1 H|ev id s0 r s1 H]; subst.
  - apply add_device_ok in H. destruct r as [id|e]; [|by subst].
    destruct H as (_ & -> & Hk & Hp). by apply pinv_with_node.
  - by eapply pinv_deliver.
Qed.

Lemma pinv_reachable s : rtc pnp_step new_pnp s → PInv s.
Proof.
  intros H. pose proof tree_new as Hs. induction H; [done|]. eauto using pinv_step.
Qed.

(** ** Theorems *)

(** In every reachable state a name, in any case and with any surrounding white
    space, resolves to a device exactly when a device that was not removed was
    added under it; two such devices never share a name; the children [children]
    lists are exactly the devices not removed that were added below the node, each
    once and in order; a parent is older than its child and outlives it; and a
    device that is not started is in [D3], a started one is backed by the host. *)
Theorem device_tree_exact s :
  rtc pnp_step new_pnp s →
  (∀ name id, find s name = Ok id ↔
     ∃ d, pn_nodes s !! id = Some d ∧ live d ∧ name_key d = to_ascii_lowercase (trim name)) ∧
  (∀ id l, children s id = Ok l →
     StronglySorted Z.le l ∧ NoDup l ∧
     ∀ c, c ∈ l ↔ ∃ d, pn_nodes s !! c = Some d ∧ live d ∧ dn_parent d = Some id) ∧
  (∀ c d p, pn_nodes s !! c = Some d → dn_parent d = Some p →
     p < c ∧ ∃ e, pn_nodes s !! p = Some e ∧ (live d → live e)) ∧
  (∀ id d, pn_nodes s !! id = Some d →
     (dn_state d ≠ DsStarted → dn_power d = D3) ∧
     (dn_state d = DsStarted → dn_host_present d = true)).
Proof.
  intros Hs%pinv_reachable. split_and!.
  - intros name id. rewrite <-(pi_names _ Hs). unfold find. case_match; naive_solver.
  - intros id l. unfold children, query_node. destruct (pn_nodes s !! id) as [e|] eqn:He; [|done].
    intros [= <-]. split_and!.
    + unfold bt_elems. apply StronglySorted_merge_sort; apply _.
    + apply NoDup_bt_elems.
    + intros c. rewrite elem_of_bt_elems. by apply (pi_children _ Hs).
  - intros c d p. by apply (pi_parent _ Hs).
  - intros id d Hd. by apply (pi_id _ Hs) in Hd as (_ & _ & ?).
Qed.

(** C40 - Every operation on a known device refines the lifecycle specification: it
    succeeds exactly when the specification has the transition, the device then
    moves to its target and no other device changes; otherwise the manager is left
    as it was and the error is the one the table gives.  An unknown device is
    [STATUS_INVALID_HANDLE]. *)
Theorem power_lifecycle_refines s ev id :
  rtc pnp_step new_pnp s →
  match pn_nodes s !! id with
  | Some d => conforms ev id d s (deliver ev id s)
  | None => deliver ev id s = Done (Err STATUS_INVALID_HANDLE) s
  end.
Proof.
  intros Hs%pinv_reachable. destruct (pn_nodes s !! id) as [d|] eqn:Hd.
  - by apply deliver_conforms.
  - by apply deliver_unknown.
Qed.

(** A device added under a name is found under every spelling of it, no second
    device can take the name, and once the device is removed the name is free. *)
Theorem device_name_roundtrip s name name' parent present id s1 :
  rtc pnp_step new_pnp s → add_device name parent present s = Done (Ok id) s1 →
  to_ascii_lowercase (trim name') = to_ascii_lowercase (trim name) →
  find s name' = Err STATUS_OBJECT_NAME_NOT_FOUND ∧ find s1 name' = Ok id ∧
  (∀ p2 h2, ∃ e, add_device name' p2 h2 s1 = Done (Err e) s1) ∧
  ∃ s2, remove_device id s1 = Done (Ok tt) s2 ∧ find s2 name' = Err STATUS_OBJECT_NAME_NOT_FOUND.
Proof.
  intros Hs%pinv_reachable Hadd E. pose proof Hadd as H. apply add_device_ok in H as (-> & -> & Hk & Hp).
  set (s1 := with_node (trim name) parent present s) in *.
  assert (PInv s1) as Hs1 by (by apply pinv_with_node).
  assert (pn_names s1 = <[to_ascii_lowercase (trim name) := pn_next_id s]> (pn_names s)) as Hn
    by (unfold s1, with_node; by rewrite alter_parent_names).
  assert (find s1 name' = Ok (pn_next_id s)) as Hf by (unfold find; by rewrite E, Hn, lookup_insert_eq).
  assert (pn_names s1 !! to_ascii_lowercase (trim name) = Some (pn_next_id s)) as Hs1n
    by (by rewrite Hn, lookup_insert_eq).
  apply (pi_names _ Hs1) in Hs1n as (d & Hd & Hl & Hkd).
  assert (dn_children d = ∅) as Hc.
  { apply (leaf_children s1 (pn_next_id s) d Hs1 Hd). intros i f Hf2 Hpf.
    destruct (pi_parent _ Hs1 _ _ _ Hf2 Hpf) as [Hlt _]. apply (pi_id _ Hs1) in Hf2 as (_ & [_ Hi] & _).
    assert (pn_next_id s1 = pn_next_id s + 1) as Enx by (unfold s1, with_node; by rewrite alter_parent_next).
    lia. }
  split_and!; [by unfold find; rewrite E, Hk|done| |].
  - intros p2 h2. unfold add_device. mrun. destruct (_ || _); mrun; [by eexists|].
    rewrite E, Hn, lookup_insert_eq, bool_decide_true by done. mrun. by eexists.
  - exists (without_node (pn_next_id s) d s1). split; [by apply remove_device_run|].
    unfold find, without_node. simpl. rewrite alter_parent_names, E, Hkd. by rewrite lookup_delete_eq.
Qed.

(** ** A concrete device tree: a bus and a started device on it *)

Definition demo_bus : PnpManager := state_of (add_device (lit "Bus") None true new_pnp) new_pnp.
Definition demo_child : PnpManager :=
  state_of (add_device (lit " USB0 ") (Some 1) true demo_bus) demo_bus.
Definition demo_tree : PnpManager := state_of (deliver EvStart 2 demo_child) demo_child.

Lemma demo_child_reachable : rtc pnp_step new_pnp demo_child.
Proof.
  apply rtc_l with demo_bus.
  { by apply (ps_add (lit "Bus") None true _ (Ok 1)), run_eq. }
  apply rtc_once. by apply (ps_add (lit " USB0 ") (Some 1) true _ (Ok 2)), run_eq.
Qed.

Lemma demo_tree_reachable : rtc pnp_step new_pnp demo_tree.
Proof.
  eapply rtc_r; [apply demo_child_reachable|].
  by apply (ps_event EvStart 2 _ (Ok (Some D0))), run_eq.
Qed.

Lemma device_tree_exact_witness :
  ∃ d, pn_nodes demo_tree !! 2 = Some d ∧ live d ∧ name_key d = to_ascii_lowercase (trim (lit "usb0")).
Proof.
  destruct (device_tree_exact demo_tree demo_tree_reachable) as [H _].
  apply (H (lit "usb0") 2). by vm_compute.
Defined.

Lemma power_lifecycle_refines_witness :
  match pn_nodes demo_tree !! 2 with
  | Some d => conforms (EvPower D2) 2 d demo_tree (deliver (EvPower D2) 2 demo_tree)
  | None => deliver (EvPower D2) 2 demo_tree = Done (Err STATUS_INVALID_HANDLE) demo_tree
  end ∧ result_of (deliver (EvPower D2) 2 demo_tree) = Some (Ok (Some D2))
  ∧ result_of (deliver EvRemove 1 demo_tree) = Some (Err STATUS_INVALID_DEVICE_STATE).
Proof.
  split; [apply (power_lifecycle_refines demo_tree (EvPower D2) 2 demo_tree_reachable)|].
  split; by vm_compute.
Defined.

Lemma device_name_roundtrip_witness : find demo_child (lit "usb0") = Ok 2.
Proof.
  apply (device_name_roundtrip demo_bus (lit " USB0 ") (lit "usb0") (Some 1) true 2 demo_child).
  - apply rtc_once. by apply (ps_add (lit "Bus") None true _ (Ok 1)), run_eq.
  - by apply run_eq.
  - by vm_compute.
Defined.

End Pp.
