(* ===== verification/Config.v ===== *)
(** * The configuration manager ([src/casak/config.rs])

    The registry: keys under two hive roots, values, symbolic links, path-scoped
    notifications, snapshots and volatile keys.  [resolve] recurses on the parent of
    a missing key; the number of nested calls the host's stack holds is the
    parameter [StackDepth], and a deeper recursion aborts the program ([Panic]). *)

From S2P Require Import Prelude Strings Status.

Class StackDepth : Type := stack_depth : nat.

Definition MAX_VALUE_BYTES : Z := 1024 * 1024.
Definition MACHINE_ROOT : str := lit "\registry\machine".
Definition USER_ROOT : str := lit "\registry\user".

(** ** Strings of paths *)

Definition SLASH : Z := 47.

(** ** Data *)

Inductive RegistryValue : Type :=
| RvString (value : str)
| RvDword (value : Z)
| RvQword (value : Z)
| RvBinary (value : list Z)
| RvMultiString (values : list str).

Definition type_name (v : RegistryValue) : str :=
  match v with
  | RvString _ => lit "REG_SZ"
  | RvDword _ => lit "REG_DWORD"
  | RvQword _ => lit "REG_QWORD"
  | RvBinary _ => lit "REG_BINARY"
  | RvMultiString _ => lit "REG_MULTI_SZ"
  end.

Definition byte_len (v : RegistryValue) : Z :=
  match v with
  | RvString value => str_len value
  | RvDword _ => 4
  | RvQword _ => 8
  | RvBinary value => Z.of_nat (length value)
  | RvMultiString values => foldr (λ s n, str_len s + n) 0 values
  end.

Record KeyRecord := {
  kr_volatile : bool;
  kr_link : option str;
  kr_values : gmap str RegistryValue;
  kr_subkeys : gset str;
  kr_last_write : Z;
}.

Inductive RegistryEventKind : Type := KeyCreated | KeyDeleted | ValueSet | ValueDeleted | Linked.

Record RegistryEvent := {
  re_path : str;
  re_kind : RegistryEventKind;
  re_value_name : option str;
}.

Record Subscription := { su_path : str; su_events : list RegistryEvent }.

Abbreviation keys := (gmap str KeyRecord) (only parsing).

Record ConfigManager := {
  cf_keys : keys;
  cf_subscriptions : gmap Z Subscription;
  cf_transactions : gmap Z keys;
  cf_next_notification : Z;
  cf_next_transaction : Z;
  cf_clock : Z;
}.

Definition fresh_key (volatile : bool) (last_write : Z) : KeyRecord :=
  {| kr_volatile := volatile; kr_link := None; kr_values := ∅; kr_subkeys := ∅;
     kr_last_write := last_write |}.

(** [ConfigManager::new] *)
Definition new_config : ConfigManager :=
  {| cf_keys := {[ MACHINE_ROOT := fresh_key false 0; USER_ROOT := fresh_key false 0 ]};
     cf_subscriptions := ∅; cf_transactions := ∅; cf_next_notification := 1;
     cf_next_transaction := 1; cf_clock := 1 |}.

(** ** Field updates *)

Definition kr_set_link (link : option str) (last_write : Z) (k : KeyRecord) : KeyRecord :=
  {| kr_volatile := kr_volatile k; kr_link := link; kr_values := kr_values k;
     kr_subkeys := kr_subkeys k; kr_last_write := last_write |}.
Definition kr_set_values (values : gmap str RegistryValue) (last_write : Z) (k : KeyRecord)
    : KeyRecord :=
  {| kr_volatile := kr_volatile k; kr_link := kr_link k; kr_values := values;
     kr_subkeys := kr_subkeys k; kr_last_write := last_write |}.
Definition kr_set_subkeys (subkeys : gset str) (k : KeyRecord) : KeyRecord :=
  {| kr_volatile := kr_volatile k; kr_link := kr_link k; kr_values := kr_values k;
     kr_subkeys := subkeys; kr_last_write := kr_last_write k |}.

(** [record.subkeys.insert(name)] and [record.subkeys.remove(&name)] *)
Definition add_subkey (name : str) (k : KeyRecord) : KeyRecord :=
  kr_set_subkeys ({[ name ]} ∪ kr_subkeys k) k.
Definition drop_subkey (name : str) (k : KeyRecord) : KeyRecord :=
  kr_set_subkeys (kr_subkeys k ∖ {[ name ]}) k.

Definition cf_set_keys (ks : keys) (s : ConfigManager) : ConfigManager :=
  {| cf_keys := ks; cf_subscriptions := cf_subscriptions s; cf_transactions := cf_transactions s;
     cf_next_notification := cf_next_notification s; cf_next_transaction := cf_next_transaction s;
     cf_clock := cf_clock s |}.
Definition cf_set_clock (clock : Z) (s : ConfigManager) : ConfigManager :=
  {| cf_keys := cf_keys s; cf_subscriptions := cf_subscriptions s;
     cf_transactions := cf_transactions s; cf_next_notification := cf_next_notification s;
     cf_next_transaction := cf_next_transaction s; cf_clock := clock |}.
Definition cf_set_subscriptions (subs : gmap Z Subscription) (next : Z) (s : ConfigManager)
    : ConfigManager :=
  {| cf_keys := cf_keys s; cf_subscriptions := subs; cf_transactions := cf_transactions s;
     cf_next_notification := next; cf_next_transaction := cf_next_transaction s;
     cf_clock := cf_clock s |}.
Definition cf_set_transactions (txs : gmap Z keys) (next : Z) (s : ConfigManager)
    : ConfigManager :=
  {| cf_keys := cf_keys s; cf_subscriptions := cf_subscriptions s; cf_transactions := txs;
     cf_next_notification := cf_next_notification s; cf_next_transaction := next;
     cf_clock := cf_clock s |}.
Definition cf_alter (f : KeyRecord → KeyRecord) (path : str) (s : ConfigManager) : ConfigManager :=
  cf_set_keys (alter f path (cf_keys s)) s.

(** [self.clock += 1] *)
Definition tick : M ConfigManager unit :=
  clock <- gets cf_clock ;;
  clock <- add_at u64_max clock 1 ;;
  modify (cf_set_clock clock).

(** ** Paths *)

(** [rest.starts_with('\\')] of what follows a hive root *)
Definition under (root path : str) : bool :=
  bool_decide (path = root) ||
  match strip_prefix root path with Some rest => starts_with BACKSLASH rest | None => false end.

Definition normalize (path : str) : result str :=
  let trimmed := trim path in
  if str_is_empty trimmed || str_contains NUL trimmed then Err STATUS_OBJECT_NAME_INVALID else
  let canonical := replace_char SLASH BACKSLASH (to_ascii_lowercase trimmed) in
  let canonical := trim_end_matches BACKSLASH canonical in
  let under_machine := under MACHINE_ROOT canonical in
  let under_user := under USER_ROOT canonical in
  if negb under_machine && negb under_user then Err STATUS_OBJECT_PATH_INVALID
  else Ok canonical.

Definition split_parent (path : str) : result (str * str) :=
  match rsplit_once BACKSLASH path with
  | None => Err STATUS_OBJECT_PATH_INVALID
  | Some (parent, name) =>
      if str_is_empty name || str_is_empty parent then Err STATUS_OBJECT_PATH_INVALID
      else Ok (parent, name)
  end.

(** [format!("{parent}\\{name}")] *)
Definition join (parent name : str) : str := parent ++ BACKSLASH :: name.

Definition is_root (path : str) : bool :=
  bool_decide (path = MACHINE_ROOT) || bool_decide (path = USER_ROOT).

(** The loop of [resolve]: [hops] turns remain, and [rec] is the nested call. *)
Fixpoint resolve_loop (rec : str → option (result str)) (ks : keys) (hops : nat) (cursor : str)
    : option (result str) :=
  match hops with
  | O => Some (Err STATUS_INVALID_PARAMETER)
  | S hops =>
      match ks !! cursor with
      | Some record =>
          match kr_link record with
          | Some target => resolve_loop rec ks hops target
          | None => Some (Ok cursor)
          end
      | None =>
          match split_parent cursor with
          | Err e => Some (Err e)
          | Ok (parent, name) =>
              match rec parent with
              | None => None
              | Some (Err e) => Some (Err e)
              | Some (Ok parent) =>
                  let candidate := join parent name in
                  if bool_decide (is_Some (ks !! candidate))
                  then resolve_loop rec ks hops candidate
                  else Some (Err STATUS_OBJECT_NAME_NOT_FOUND)
              end
          end
      end
  end.

(** [resolve] with [depth] stack frames; [None] is a stack overflow. *)
Fixpoint resolve (depth : nat) (ks : keys) (path : str) : option (result str) :=
  match depth with
  | O => None
  | S depth => resolve_loop (resolve depth ks) ks 32 path
  end.

(** ** Notifications *)

Definition notifies (path : str) (sub : str) : bool :=
  bool_decide (path = sub) || match strip_prefix (sub ++ [BACKSLASH]) path with
                              | Some _ => true | None => false end.

Definition push_event (e : RegistryEvent) (sub : Subscription) : Subscription :=
  if notifies (re_path e) (su_path sub)
  then {| su_path := su_path sub; su_events := su_events sub ++ [e] |} else sub.

Definition notify (path : str) (kind : RegistryEventKind) (value_name : option str)
    : M ConfigManager unit :=
  let e := {| re_path := path; re_kind := kind; re_value_name := value_name |} in
  modify (λ s, cf_set_subscriptions (push_event e <$> cf_subscriptions s)
                 (cf_next_notification s) s).

Section operations.
Context {SD : StackDepth}.

(** [self.resolve(&path)] *)
Definition resolve_key (path : str) : M ConfigManager str := λ s,
  match resolve stack_depth (cf_keys s) path with
  | Some r => Done r s
  | None => Panic
  end.

(** [self.resolve(&path).map_err(|_| e)] *)
Definition resolve_or (path : str) (e : Z) : M ConfigManager str := λ s,
  match resolve_key path s with
  | Done (Err _) s' => Done (Err e) s'
  | o => o
  end.

Definition open_key (path : str) : M ConfigManager str :=
  canonical <- query (λ _, normalize path) ;;
  resolve_key canonical.

(** [self.keys.get(&path).ok_or(STATUS_OBJECT_NAME_NOT_FOUND)?] *)
Definition key_at (path : str) : M ConfigManager KeyRecord := λ s,
  ok_or (cf_keys s !! path) STATUS_OBJECT_NAME_NOT_FOUND s.

(** ** Keys *)

Definition create_key (path : str) (volatile : bool) : M ConfigManager str :=
  requested <- query (λ _, normalize path) ;;
  fail_if (is_root requested) STATUS_OBJECT_NAME_COLLISION ;;;
  ' (parent, name) <- query (λ _, split_parent requested) ;;
  parent <- resolve_or parent STATUS_OBJECT_PATH_NOT_FOUND ;;
  let canonical := join parent name in
  ks <- gets cf_keys ;;
  fail_if (bool_decide (is_Some (ks !! canonical))) STATUS_OBJECT_NAME_COLLISION ;;;
  tick ;;;
  clock <- gets cf_clock ;;
  modify (λ s, cf_set_keys (<[canonical := fresh_key volatile clock]> (cf_keys s)) s) ;;;
  modify (cf_alter (add_subkey name) parent) ;;;
  notify canonical KeyCreated None ;;;
  ret canonical.

Definition delete_key (path : str) : M ConfigManager unit :=
  canonical <- query (λ _, normalize path) ;;
  fail_if (is_root canonical) STATUS_INVALID_PARAMETER ;;;
  resolved <- resolve_key canonical ;;
  record <- key_at resolved ;;
  fail_if (bool_decide (kr_subkeys record ≠ ∅)) STATUS_KEY_HAS_CHILDREN ;;;
  ' (parent, name) <- query (λ _, split_parent resolved) ;;
  modify (λ s, cf_set_keys (delete resolved (cf_keys s)) s) ;;;
  modify (cf_alter (drop_subkey name) parent) ;;;
  notify resolved KeyDeleted None.

Definition link_key (link_path target_path : str) : M ConfigManager unit :=
  link <- open_key link_path ;;
  target <- open_key target_path ;;
  fail_if (bool_decide (link = target)) STATUS_INVALID_PARAMETER ;;;
  record <- key_at link ;;
  fail_if (bool_decide (kr_subkeys record ≠ ∅) || bool_decide (kr_values record ≠ ∅)
           || bool_decide (is_Some (kr_link record))) STATUS_INVALID_PARAMETER ;;;
  clock <- gets cf_clock ;;
  modify (cf_alter (kr_set_link (Some target) clock) link) ;;;
  tick ;;;
  notify link Linked None.

Definition link_target (path : str) : M ConfigManager (option str) :=
  canonical <- query (λ _, normalize path) ;;
  record <- key_at canonical ;;
  ret (kr_link record).

Definition is_volatile (path : str) : M ConfigManager bool :=
  canonical <- open_key path ;;
  record <- key_at canonical ;;
  ret (kr_volatile record).

(** ** Values *)

Definition set_value (path name : str) (value : RegistryValue) : M ConfigManager unit :=
  fail_if ((255 <? str_len name) || (MAX_VALUE_BYTES <? byte_len value))
    STATUS_INVALID_PARAMETER ;;;
  canonical <- open_key path ;;
  tick ;;;
  clock <- gets cf_clock ;;
  _ <- key_at canonical ;;
  modify (cf_alter (λ k, kr_set_values
    (<[to_ascii_lowercase name := value]> (kr_values k)) clock k) canonical) ;;;
  notify canonical ValueSet (Some name).

Definition get_value (path name : str) : M ConfigManager RegistryValue :=
  canonical <- open_key path ;;
  key <- key_at canonical ;;
  ok_or (kr_values key !! to_ascii_lowercase name) STATUS_OBJECT_NAME_NOT_FOUND.

Definition delete_value (path name : str) : M ConfigManager unit :=
  canonical <- open_key path ;;
  key <- key_at canonical ;;
  _ <- ok_or (kr_values key !! to_ascii_lowercase name) STATUS_OBJECT_NAME_NOT_FOUND ;;
  modify (cf_alter (λ k, kr_set_values
    (delete (to_ascii_lowercase name) (kr_values k)) (kr_last_write k) k) canonical) ;;;
  tick ;;;
  clock <- gets cf_clock ;;
  modify (cf_alter (λ k, kr_set_values (kr_values k) clock k) canonical) ;;;
  notify canonical ValueDeleted (Some name).

Definition enum_subkeys (path : str) : M ConfigManager (list str) :=
  canonical <- open_key path ;;
  record <- key_at canonical ;;
  ret (join canonical <$> bs_elems (kr_subkeys record)).

Definition enum_values (path : str) : M ConfigManager (list (str * RegistryValue)) :=
  canonical <- open_key path ;;
  record <- key_at canonical ;;
  ret (bs_entries (kr_values record)).

(** ** Subscriptions *)

Definition subscribe (path : str) : M ConfigManager Z :=
  canonical <- open_key path ;;
  id <- gets cf_next_notification ;;
  next <- add_at u64_max id 1 ;;
  modify (λ s, cf_set_subscriptions
    (<[id := {| su_path := canonical; su_events := [] |}]> (cf_subscriptions s)) next s) ;;;
  ret id.

Definition poll (id : Z) : M ConfigManager (list RegistryEvent) :=
  subs <- gets cf_subscriptions ;;
  sub <- ok_or (subs !! id) STATUS_INVALID_HANDLE ;;
  modify (λ s, cf_set_subscriptions
    (<[id := {| su_path := su_path sub; su_events := [] |}]> (cf_subscriptions s))
    (cf_next_notification s) s) ;;;
  ret (su_events sub).

Definition cancel_subscription (id : Z) : M ConfigManager unit :=
  subs <- gets cf_subscriptions ;;
  _ <- ok_or (subs !! id) STATUS_INVALID_HANDLE ;;
  modify (λ s, cf_set_subscriptions (delete id (cf_subscriptions s)) (cf_next_notification s) s).

(** ** Transactions and hives *)

Definition begin_transaction : M ConfigManager Z :=
  id <- gets cf_next_transaction ;;
  next <- add_at u64_max id 1 ;;
  modify (λ s, cf_set_transactions (<[id := cf_keys s]> (cf_transactions s)) next s) ;;;
  ret id.

Definition take_transaction (id : Z) : M ConfigManager keys :=
  txs <- gets cf_transactions ;;
  snapshot <- ok_or (txs !! id) STATUS_INVALID_HANDLE ;;
  modify (λ s, cf_set_transactions (delete id (cf_transactions s)) (cf_next_transaction s) s) ;;;
  ret snapshot.

Definition commit_transaction (id : Z) : M ConfigManager unit :=
  _ <- take_transaction id ;; ret tt.

Definition rollback_transaction (id : Z) : M ConfigManager unit :=
  snapshot <- take_transaction id ;;
  modify (cf_set_keys snapshot) ;;;
  notify MACHINE_ROOT KeyDeleted (Some (lit "rollback")).

(** [record.subkeys.remove(&name)] in the parent of a volatile key *)
Definition detach_volatile (path : str) : M ConfigManager unit :=
  ' (parent, name) <- (λ s, match split_parent path with Ok p => Done (Ok p) s | Err _ => Panic end) ;;
  modify (cf_alter (drop_subkey name) parent).

Definition volatile_paths (ks : keys) : list str :=
  (bs_entries (filter (λ e, kr_volatile e.2 = true) ks)).*1.

Definition unload_hive : M ConfigManager Z :=
  ks <- gets cf_keys ;;
  let volatile := volatile_paths ks in
  for_each volatile detach_volatile ;;;
  for_each volatile (λ path, modify (λ s, cf_set_keys (delete path (cf_keys s)) s)) ;;;
  ret (Z.of_nat (length volatile)).
End operations.

Definition key_count (s : ConfigManager) : Z := Z.of_nat (size (cf_keys s)).
Definition notification_count (s : ConfigManager) : Z := Z.of_nat (size (cf_subscriptions s)).
Definition transaction_count (s : ConfigManager) : Z := Z.of_nat (size (cf_transactions s)).
