(* ===== verification/ConfigTheorems.v ===== *)
(** * Theorems about the configuration manager

    The step relation of the registry, its key-tree invariant, and the properties
    of the values, notifications, transactions and resolution of [Config.v]. *)

From S2P Require Import Prelude Strings Status Config ConfigFacts.

Module Ct.
Import Cf.

(** ** The key tree *)

Record KInv (ks : gmap str KeyRecord) : Prop := {
  ki_split : ∀ c k, ks !! c = Some k →
    ∃ p n, c = join p n ∧ component n ∧ p ≠ [] ∧ (is_root c = true ∨ is_Some (ks !! p));
  ki_sub : ∀ p k n, ks !! p = Some k → n ∈ kr_subkeys k ↔ component n ∧ is_Some (ks !! join p n);
  ki_link : ∀ c k t, ks !! c = Some k → kr_link k = Some t →
    kr_values k = ∅ ∧ kr_subkeys k = ∅ ∧ t ≠ c;
  ki_root : ∀ c k, ks !! c = Some k → is_root c = true → kr_volatile k = false;
}.

Lemma is_root_spec c : is_root c = true ↔ c = MACHINE_ROOT ∨ c = USER_ROOT.
Proof. unfold is_root. by rewrite orb_true_iff, !bool_decide_eq_true. Qed.

Lemma root_split c :
  is_root c = true → ∃ n, c = join (lit "\registry") n ∧ component n.
Proof.
  rewrite is_root_spec. intros [->| ->].
  - exists (lit "machine"). split; [done|]. split; [done|]. apply rsplit_once_None. by vm_compute.
  - exists (lit "user"). split; [done|]. split; [done|]. apply rsplit_once_None. by vm_compute.
Qed.

(** The directory above the hives is not a key, so a hive root is never a subkey. *)
Lemma registry_not_key ks : KInv ks → ks !! lit "\registry" = None.
Proof.
  intros Hk. destruct (ks !! lit "\registry") as [k|] eqn:E; [|done].
  destruct (ki_split _ Hk _ _ E) as (p & n & Ej & Hn & Hp & _).
  assert (component (lit "registry")) as Hr.
  { split; [done|]. apply rsplit_once_None. by vm_compute. }
  change (lit "\registry") with (join [] (lit "registry")) in Ej.
  by apply join_inj in Ej as [<- _].
Qed.

Lemma parent_not_root ks p n k :
  KInv ks → ks !! p = Some k → component n → is_root (join p n) = false.
Proof.
  intros Hk Hp Hn. destruct (is_root (join p n)) eqn:E; [|done].
  apply root_split in E as (m & Ej & Hm). apply join_inj in Ej as [-> _]; [|done|done].
  rewrite registry_not_key in Hp by done. done.
Qed.

Lemma key_not_nil ks c k : KInv ks → ks !! c = Some k → c ≠ [].
Proof. intros Hk Hc. destruct (ki_split _ Hk _ _ Hc) as (p & n & -> & _). apply join_not_nil. Qed.

Lemma kinv_new : KInv (cf_keys new_config).
Proof.
  assert (∀ c k, cf_keys new_config !! c = Some k → is_root c = true ∧ k = fresh_key false 0) as Hroot.
  { intros c k. simpl. rewrite is_root_spec, lookup_insert_Some, lookup_singleton_Some. naive_solver. }
  constructor.
  - intros c k [Hr ->]%Hroot. destruct (root_split c Hr) as (n & -> & Hn).
    exists (lit "\registry"), n. split_and!; [done|done|done|by left].
  - intros p k n Hk. pose proof Hk as [Hr ->]%Hroot. split; [set_solver|].
    intros [Hn [v [Hv _]%Hroot]]. exfalso.
    apply root_split in Hv as (m & Ej & Hm). apply join_inj in Ej as [-> _]; [|done|done]. done.
  - intros c k t [_ ->]%Hroot. done.
  - intros c k [_ ->]%Hroot. done.
Qed.

(** A change of one key that keeps the tree. *)
Lemma kinv_alter f c ks :
  KInv ks →
  (∀ k, ks !! c = Some k → kr_subkeys (f k) = kr_subkeys k ∧ kr_volatile (f k) = kr_volatile k ∧
     ∀ t, kr_link (f k) = Some t → kr_values (f k) = ∅ ∧ kr_subkeys k = ∅ ∧ t ≠ c) →
  KInv (alter f c ks).
Proof.
  intros [] Hf. assert (∀ i, is_Some (alter f c ks !! i) ↔ is_Some (ks !! i)) as His.
  { intros i. destruct (decide (c = i)) as [<-|]; [|by rewrite lookup_alter_ne].
    rewrite lookup_alter_eq. apply fmap_is_Some. }
  assert (∀ i k, alter f c ks !! i = Some k → ∃ k0, ks !! i = Some k0 ∧ (k = k0 ∨ i = c ∧ k = f k0))
    as Hback.
  { intros i k. rewrite lookup_alter_Some. naive_solver. }
  constructor.
  - intros i k (k0 & Hk & _)%Hback. destruct (ki_split0 _ _ Hk) as (p & n & ? & ? & ? & Hp).
    exists p, n. split_and!; [done|done|done|]. by rewrite His.
  - intros p k n (k0 & Hk & E)%Hback. rewrite His, <-(ki_sub0 _ _ n Hk).
    destruct E as [->|[-> ->]]; [done|]. by destruct (Hf _ Hk) as [-> _].
  - intros i k t (k0 & Hk & [->|[-> ->]])%Hback Hl; [by eapply ki_link0|].
    destruct (Hf _ Hk) as (E & _ & Hlink). rewrite E. by apply Hlink.
  - intros i k (k0 & Hk & [->|[-> ->]])%Hback Hr; [by eapply ki_root0|].
    destruct (Hf _ Hk) as (_ & -> & _). by eapply ki_root0.
Qed.

Lemma kinv_create p n k v clock ks :
  KInv ks → component n → plain_key ks p k → ks !! join p n = None →
  KInv (alter (add_subkey n) p (<[join p n := fresh_key v clock]> ks)).
Proof.
  intros Hks Hn [Hp Hl] Hnew. pose proof Hks as [].
  assert (join p n ≠ p) as Hpn by congruence.
  set (ks' := alter (add_subkey n) p (<[join p n := fresh_key v clock]> ks)).
  assert (∀ c, ks' !! c = if decide (c = p) then Some (add_subkey n k) else
    if decide (c = join p n) then Some (fresh_key v clock) else ks !! c) as Hlk.
  { intros c. unfold ks'. destruct (decide (c = p)) as [->|Hc].
    - by rewrite lookup_alter_eq, lookup_insert_ne, Hp.
    - rewrite lookup_alter_ne by done. case_decide as Hc'; [subst; by rewrite lookup_insert_eq|].
      by rewrite lookup_insert_ne. }
  assert (∀ c, is_Some (ks' !! c) ↔ is_Some (ks !! c) ∨ c = join p n) as His.
  { intros c. rewrite Hlk. repeat case_decide; subst; rewrite ?Hp; naive_solver. }
  constructor.
  - intros c k' Hk'. rewrite Hlk in Hk'. destruct (decide (c = p)) as [->|Hc].
    + destruct (ki_split0 _ _ Hp) as (q & m & ? & ? & ? & Hq). exists q, m.
      split_and!; [done|done|done|]. rewrite His. naive_solver.
    + case_decide as Hc'; [subst c|].
      * exists p, n. split_and!; [done|done|by eapply key_not_nil|]. right. rewrite His, Hp. eauto.
      * destruct (ki_split0 _ _ Hk') as (q & m & ? & ? & ? & Hq). exists q, m.
        split_and!; [done|done|done|]. rewrite His. naive_solver.
  - intros q k' m Hk'. rewrite His. rewrite Hlk in Hk'. destruct (decide (q = p)) as [->|Hq].
    + simplify_eq. simpl. rewrite elem_of_union, elem_of_singleton, (ki_sub0 _ _ m Hp).
      split; [naive_solver|]. intros [Hm [?|E]]; [by right|].
      apply join_inj in E as [_ ->]; [|done|done]. by left.
    + case_decide as Hq'; [subst q; simplify_eq; simpl|].
      * split; [set_solver|]. intros [Hm [[v' Hv']|E]].
        -- destruct (ki_split0 _ _ Hv') as (q & m' & Ej & Hm' & _ & Hpar).
           apply join_inj in Ej as [<- <-]; [|done|done]. destruct Hpar as [Hr|[? Hr]]; [|congruence].
           apply root_split in Hr as (m2 & Ej & Hm2). apply join_inj in Ej as [Ej _]; [|done|done].
           change (lit "\registry") with (join [] (lit "registry")) in Ej.
           apply join_inj in Ej as [-> _]; [|done|split; [done|apply rsplit_once_None; by vm_compute]].
           by destruct (key_not_nil _ _ _ Hks Hp).
        -- apply join_inj in E as [E _]; [|done|done]. by destruct Hpn.
      * rewrite (ki_sub0 _ _ m Hk'). split; [naive_solver|]. intros [Hm [?|E]]; [done|].
        apply join_inj in E as [-> _]; done.
  - intros c k' t Hk' Ht. rewrite Hlk in Hk'. repeat case_decide; simplify_eq/=.
    by eapply ki_link0.
  - intros c k' Hk' Hr. rewrite Hlk in Hk'. repeat case_decide; simplify_eq/=; try by eapply ki_root0.
    by rewrite (parent_not_root ks p n k) in Hr.
Qed.

Lemma kinv_delete p n k ks :
  KInv ks → component n → ks !! join p n = Some k → kr_subkeys k = ∅ →
  KInv (alter (drop_subkey n) p (delete (join p n) ks)).
Proof.
  intros Hks Hn Hk Hsub. pose proof Hks as [].
  assert (∀ i, is_Some (alter (drop_subkey n) p (delete (join p n) ks) !! i) ↔
    is_Some (ks !! i) ∧ i ≠ join p n) as His.
  { intros i. destruct (decide (p = i)) as [<-|Hi].
    - rewrite lookup_alter_eq, fmap_is_Some, lookup_delete_is_Some. naive_solver.
    - rewrite lookup_alter_ne by done. rewrite lookup_delete_is_Some. naive_solver. }
  assert (∀ i k', alter (drop_subkey n) p (delete (join p n) ks) !! i = Some k' →
    i ≠ join p n ∧ ∃ k0, ks !! i = Some k0 ∧ (i ≠ p ∧ k' = k0 ∨ i = p ∧ k' = drop_subkey n k0)) as Hback.
  { intros i k'. rewrite lookup_alter_Some. setoid_rewrite lookup_delete_Some. naive_solver. }
  constructor.
  - intros i k' (Hi & k0 & H0 & _)%Hback. destruct (ki_split0 _ _ H0) as (q & m & -> & Hm & Hq & Hpar).
    exists q, m. split_and!; [done|done|done|]. rewrite His.
    destruct Hpar as [?|Hpar]; [by left|right]. split; [done|]. intros ->.
    assert (m ∈ kr_subkeys k) as Hin; [|set_solver]. apply (ki_sub0 _ _ _ Hk). eauto.
  - intros q k' m (Hi & k0 & H0 & E)%Hback. rewrite His.
    destruct E as [[Hq ->]|[-> ->]].
    + rewrite (ki_sub0 _ _ m H0). split; [|naive_solver]. intros [Hm Hs]. split_and!; [done|done|].
      intros [-> _]%join_inj; done.
    + simpl. rewrite elem_of_difference, elem_of_singleton, (ki_sub0 _ _ m H0). split.
      * intros [[Hm Hs] Hne]. split_and!; [done|done|]. intros [_ ->]%join_inj; done.
      * intros (Hm & Hs & Hne). split; [done|]. intros ->. done.
  - intros c k' t (Hi & k0 & H0 & E)%Hback Ht. destruct E as [[_ ->]|[-> ->]]; [by eapply ki_link0|].
    simpl in *. destruct (ki_link0 _ _ _ H0 Ht) as (? & Es & ?). split_and!; [done|set_solver|done].
  - intros c k' (Hi & k0 & H0 & E)%Hback Hr. destruct E as [[_ ->]|[-> ->]]; exact (ki_root0 _ _ H0 Hr).
Qed.

(** Unloading keeps the tree when no key that stays lies below a volatile one. *)
Definition hive_closed (ks : gmap str KeyRecord) : Prop :=
  ∀ p n k v, ks !! p = Some k → kr_volatile k = true → component n →
    ks !! join p n = Some v → kr_volatile v = true.

Lemma kinv_unloaded ks ks' : KInv ks → hive_closed ks → unloaded ks ks' → KInv ks'.
Proof.
  intros Hks Hcl Hu. pose proof Hks as [].
  assert (∀ c k', ks' !! c = Some k' → ∃ k X, ks !! c = Some k ∧ kr_volatile k = false ∧
    k' = kr_set_subkeys X k ∧ ∀ n, n ∈ X ↔ n ∈ kr_subkeys k ∧
      ¬ (component n ∧ c ≠ [] ∧ ∃ v, ks !! join c n = Some v ∧ kr_volatile v = true)) as Hback.
  { intros c k' Hk'. specialize (Hu c). destruct (ks !! c) as [k|]; [|congruence].
    destruct (kr_volatile k) eqn:Ev; [congruence|]. destruct Hu as (X & HX & Hm).
    exists k, X. split_and!; [done|done|congruence|done]. }
  assert (∀ c, is_Some (ks' !! c) ↔ ∃ k, ks !! c = Some k ∧ kr_volatile k = false) as His.
  { intros c. split.
    - intros [k' (k & X & ? & ? & _)%Hback]. eauto.
    - intros (k & Hk & Hv). specialize (Hu c). rewrite Hk, Hv in Hu. destruct Hu as (X & -> & _). eauto. }
  constructor.
  - intros c k' (k & X & Hk & Hv & -> & _)%Hback. destruct (ki_split0 _ _ Hk) as (p & n & -> & Hn & Hp & Hpar).
    exists p, n. split_and!; [done|done|done|]. rewrite His. destruct Hpar as [?|[kp Hkp]]; [by left|right].
    exists kp. split; [done|]. destruct (kr_volatile kp) eqn:E; [|done].
    rewrite (Hcl _ _ _ _ Hkp E Hn Hk) in Hv. done.
  - intros p k' n (k & X & Hk & Hv & -> & Hm)%Hback. rewrite His. simpl.
    rewrite Hm, (ki_sub0 _ _ n Hk). pose proof (key_not_nil _ _ _ Hks Hk) as Hnil. split.
    + intros [[Hn [v Hv']] Hno]. split; [done|]. exists v. split; [done|].
      destruct (kr_volatile v) eqn:E; [|done]. destruct Hno. eauto.
    + intros (Hn & v & Hv' & E). split; [by eauto|]. intros (_ & _ & v2 & Hv2 & E2). congruence.
  - intros c k' t (k & X & Hk & Hv & -> & Hm)%Hback Ht. simpl in *.
    destruct (ki_link0 _ _ _ Hk Ht) as (? & Es & ?). split_and!; [done| |done].
    apply set_eq. intros n. rewrite Hm, Es. set_solver.
  - intros c k' (k & X & Hk & Hv & -> & _)%Hback _. done.
Qed.

(** ** Reachable registries *)

Section reachable.
Context {SD : StackDepth}.

Inductive cfg_step : ConfigManager → ConfigManager → Prop :=
| cs_perform op s r s' : perform op s = Done r s' → cfg_step s s'.

(** The steps that unload a hive only when it is closed. *)
Inductive closed_step : ConfigManager → ConfigManager → Prop :=
| cs_closed op s r s' :
    (op = OpUnload → hive_closed (cf_keys s)) → perform op s = Done r s' → closed_step s s'.

(** The snapshots of the transactions are trees too. *)
Definition CInv (s : ConfigManager) : Prop :=
  KInv (cf_keys s) ∧ map_Forall (λ _ ks, KInv ks) (cf_transactions s).

Lemma cinv_effect op r s s' :
  CInv s → (op = OpUnload → hive_closed (cf_keys s)) → effect op r s s' → CInv s'.
Proof.
  intros [Hk Ht] Hcl He. inversion He; subst; unfold CInv; simpl; try (split; [|done]; try done).
  - by eapply kinv_create.
  - match goal with H : plain_key _ _ _ |- _ => destruct H end. by eapply kinv_delete.
  - match goal with H : plain_key _ c _ |- _ => destruct H as [Hc _] end.
    apply kinv_alter; [done|]. intros k' Hk'. simplify_eq. simpl. split_and!; [done|done|].
    intros ? [= <-]. by split_and!.
  - match goal with H : plain_key _ c _ |- _ => destruct H as [Hc Hl] end.
    apply kinv_alter; [done|]. intros k' Hk'. simplify_eq. simpl. split_and!; [done|done|]. congruence.
  - match goal with H : plain_key _ c _ |- _ => destruct H as [Hc Hl] end.
    apply kinv_alter; [done|]. intros k' Hk'. simplify_eq. simpl. split_and!; [done|done|]. congruence.
  - split; [done|]. by apply map_Forall_insert_2.
  - split; [done|]. by apply map_Forall_delete.
  - split; [by eapply Ht|]. by apply map_Forall_delete.
  - eapply kinv_unloaded; eauto.
Qed.

Lemma cinv_new : CInv new_config.
Proof. split; [apply kinv_new|]. apply map_Forall_empty. Qed.

Lemma cinv_reachable s : rtc closed_step new_config s → CInv s.
Proof.
  intros Hr. pose proof cinv_new as Hs. induction Hr as [|x y z Hxy Hyz IH]; [done|]. apply IH.
  inversion Hxy; subst. eapply cinv_effect; eauto using perform_effect.
Qed.

(** ** Resolution looks at the keys and their links only *)

Definition same_links (ks ks' : gmap str KeyRecord) : Prop :=
  ∀ c, kr_link <$> ks' !! c = kr_link <$> ks !! c.

Lemma resolve_loop_links rec rec' ks ks' hops c :
  same_links ks ks' → (∀ p, rec' p = rec p) → resolve_loop rec' ks' hops c = resolve_loop rec ks hops c.
Proof.
  intros Hl Hrec. assert (∀ q, is_Some (ks' !! q) ↔ is_Some (ks !! q)) as His.
  { intros q. by rewrite <-(fmap_is_Some kr_link (ks' !! q)), Hl, fmap_is_Some. }
  revert c. induction hops as [|hops IH]; intros c; [done|]. rewrite !resolve_loop_S.
  specialize (Hl c). destruct (ks' !! c) as [k'|], (ks !! c) as [k|]; simplify_eq/=.
  - rewrite Hl. destruct (kr_link k); [apply IH|done].
  - destruct (split_parent c) as [[p n]|]; [|done]. rewrite Hrec. destruct (rec p) as [[q|]|]; [|done|done].
    rewrite IH. by rewrite (bool_decide_ext _ _ (His (join q n))).
Qed.

Lemma resolve_links d ks ks' path : same_links ks ks' → resolve d ks' path = resolve d ks path.
Proof.
  intros Hl. revert path. induction d as [|d IH]; intros path; [done|].
  rewrite !resolve_S. by apply resolve_loop_links.
Qed.

Lemma same_links_alter f c ks : (∀ k, kr_link (f k) = kr_link k) → same_links ks (alter f c ks).
Proof.
  intros Hf q. destruct (decide (c = q)) as [<-|]; [|by rewrite lookup_alter_ne].
  rewrite lookup_alter_eq. by destruct (ks !! c); simpl; rewrite ?Hf.
Qed.

(** Where a path leads; [open_key] reads it off the state. *)
Definition opens (s : ConfigManager) (path : str) (c : str) : Prop :=
  open_key path s = Done (Ok c) s.

Lemma opens_same_links s s' path c :
  same_links (cf_keys s) (cf_keys s') → opens s' path c ↔ opens s path c.
Proof.
  intros Hl. unfold opens, open_key, resolve_key. mrun. destruct (normalize path) as [q|]; [|done].
  rewrite (resolve_links _ _ _ _ Hl). destruct (resolve _ _ _); naive_solver.
Qed.

Lemma get_value_run s path name c :
  opens s path c →
  get_value path name s =
    Done (match cf_keys s !! c with
          | Some k => match kr_values k !! to_ascii_lowercase name with
                      | Some v => Ok v | None => Err STATUS_OBJECT_NAME_NOT_FOUND end
          | None => Err STATUS_OBJECT_NAME_NOT_FOUND end) s.
Proof.
  unfold opens, get_value, key_at. intros E. unfold bind at 1. rewrite E. mrun.
  destruct (cf_keys s !! c) as [k|]; mrun; [|done]. by destruct (kr_values k !! _).
Qed.

(** ** Values *)

(** The stored value of a key under a canonical path and a lowered name. *)
Definition value_at (s : ConfigManager) (c name : str) : option RegistryValue :=
  cf_keys s !! c ≫= λ k, kr_values k !! name.

Lemma value_at_alter (f : KeyRecord → KeyRecord) c n (o : option RegistryValue) s s' :
  (cf_keys s' = alter f c (cf_keys s)) → is_Some (cf_keys s !! c) →
  (∀ k m, kr_values (f k) !! m = if decide (m = n) then o else kr_values k !! m) →
  ∀ c' m, value_at s' c' m = if decide (c' = c ∧ m = n) then o else value_at s c' m.
Proof.
  intros E [k Hk] Hf c' m. unfold value_at. rewrite E. destruct (decide (c' = c)) as [->|Hc].
  - rewrite lookup_alter_eq, Hk. simpl. rewrite Hf. repeat case_decide; naive_solver.
  - rewrite lookup_alter_ne by done. rewrite decide_False by naive_solver. done.
Qed.

Lemma get_value_at s path name c :
  opens s path c →
  get_value path name s =
    Done (match value_at s c (to_ascii_lowercase name) with
          | Some v => Ok v | None => Err STATUS_OBJECT_NAME_NOT_FOUND end) s.
Proof.
  intros Ho. rewrite (get_value_run s path name c Ho). unfold value_at.
  by destruct (cf_keys s !! c).
Qed.

(** ** Notifications *)

Definition opened (path : str) (s : ConfigManager) (f : str → RegistryEvent) : list RegistryEvent :=
  match open_key path s with Done (Ok c) _ => [f c] | _ => [] end.

(** The change an operation that replied [r] made. *)
Definition events_of (op : cfg_op) (r : result reply) (s : ConfigManager) : list RegistryEvent :=
  match op, r with
  | OpCreate _ _, Ok (RPath p) => [event p KeyCreated None]
  | OpDelete path, Ok _ => opened path s (λ c, event c KeyDeleted None)
  | OpLink l _, Ok _ => opened l s (λ c, event c Linked None)
  | OpSetValue path name _, Ok _ => opened path s (λ c, event c ValueSet (Some name))
  | OpDeleteValue path name, Ok _ => opened path s (λ c, event c ValueDeleted (Some name))
  | OpRollback _, Ok _ => [event MACHINE_ROOT KeyDeleted (Some (lit "rollback"))]
  | _, _ => []
  end.

(** What an operation hands to the subscriber [id]. *)
Definition delivered (id : Z) (op : cfg_op) (r : result reply) : list RegistryEvent :=
  match op, r with
  | OpPoll i, Ok (REvents l) => if decide (i = id) then l else []
  | _, _ => []
  end.

(** A run in which [id] is not cancelled, with every change and every delivery. *)
Inductive history (id : Z)
    : ConfigManager → list RegistryEvent → list RegistryEvent → ConfigManager → Prop :=
| h_nil s : history id s [] [] s
| h_step op s r s1 changes polled s2 :
    op ≠ OpCancel id → perform op s = Done r s1 → history id s1 changes polled s2 →
    history id s (events_of op r s ++ changes) (delivered id op r ++ polled) s2.

Definition subs_bounded (s : ConfigManager) : Prop :=
  ∀ id, is_Some (cf_subscriptions s !! id) → id < cf_next_notification s.

Lemma push_event_path e sub : su_path (push_event e sub) = su_path sub.
Proof. unfold push_event. by destruct (notifies _ _). Qed.

Lemma push_event_events e sub :
  su_events (push_event e sub) = su_events sub ++ filter (λ e, at_or_below (su_path sub) (re_path e)) [e].
Proof.
  unfold push_event. rewrite filter_cons, filter_nil.
  destruct (notifies (re_path e) (su_path sub)) eqn:E.
  - rewrite decide_True by (by apply notifies_spec). done.
  - rewrite decide_False by (rewrite <-notifies_spec, E; done). by rewrite app_nil_r.
Qed.

Lemma subs_bounded_effect op r s s' : subs_bounded s → effect op r s s' → subs_bounded s'.
Proof.
  intros Hb He i Hi. inversion He; subst; simpl in *;
    rewrite ?lookup_fmap, ?fmap_is_Some in Hi; try (by apply Hb).
  - apply lookup_insert_is_Some in Hi as [<-|[_ Hi]]; [lia|]. apply Hb in Hi. lia.
  - apply lookup_insert_is_Some in Hi as [<-|[_ Hi]]; apply Hb; eauto.
  - apply lookup_delete_is_Some in Hi as [_ Hi]. by apply Hb.
Qed.

(** One operation on the queue of one subscriber. *)
Lemma effect_queue op r s s' id sub :
  subs_bounded s → cf_subscriptions s !! id = Some sub → op ≠ OpCancel id → effect op r s s' →
  ∃ sub', cf_subscriptions s' !! id = Some sub' ∧ su_path sub' = su_path sub ∧
    su_events sub ++ filter (λ e, at_or_below (su_path sub) (re_path e)) (events_of op r s)
      = delivered id op r ++ su_events sub'.
Proof.
  intros Hb Hs Hop He.
  assert (∀ e, ∃ sub', push_event e <$> cf_subscriptions s !! id = Some sub' ∧
    su_path sub' = su_path sub ∧ su_events sub ++
      filter (λ e, at_or_below (su_path sub) (re_path e)) [e] = su_events sub') as Hpush.
  { intros e. rewrite Hs. eexists. split; [done|]. by rewrite push_event_path, push_event_events. }
  assert (∃ sub', cf_subscriptions s !! id = Some sub' ∧ su_path sub' = su_path sub ∧
    su_events sub ++ [] = su_events sub') as Hsame by (rewrite app_nil_r; eauto).
  inversion He; subst; cbn [events_of delivered app] in *; unfold opened;
    repeat match goal with H : open_key _ _ = _ |- _ => rewrite H; clear H end;
    unfold emit; cbn [cf_subscriptions cf_set_subscriptions cf_set_keys cf_set_clock
      cf_set_transactions cf_alter]; rewrite ?lookup_fmap; try apply Hpush; try exact Hsame.
  - by destruct op.
  - exists sub. rewrite lookup_insert_ne; [rewrite app_nil_r; eauto|].
    intros <-. assert (cf_next_notification s < cf_next_notification s); [|lia]. apply Hb. eauto.
  - case_decide as Hi.
    + subst. simplify_eq. rewrite lookup_insert_eq. eexists. split; [done|]. split; [done|]. done.
    + rewrite lookup_insert_ne by done. rewrite app_nil_r. eauto.
  - rewrite lookup_delete_ne by congruence. rewrite app_nil_r. eauto.
Qed.

Lemma history_queue id s changes polled s' sub :
  subs_bounded s → cf_subscriptions s !! id = Some sub → history id s changes polled s' →
  ∃ sub', cf_subscriptions s' !! id = Some sub' ∧ su_path sub' = su_path sub ∧
    su_events sub ++ filter (λ e, at_or_below (su_path sub) (re_path e)) changes
      = polled ++ su_events sub'.
Proof.
  intros Hb Hs Hh. revert sub Hb Hs. induction Hh as [s|op s r s1 ch po s2 Hop Hp _ IH]; intros sub Hb Hs.
  - exists sub. by rewrite app_nil_r.
  - apply perform_effect in Hp as He.
    destruct (effect_queue op r s s1 id sub Hb Hs Hop He) as (sub1 & H1 & Hp1 & E1).
    destruct (IH sub1) as (sub2 & H2 & Hp2 & E2); [by eapply subs_bounded_effect|done|].
    exists sub2. split_and!; [done|congruence|]. rewrite filter_app, app_assoc, E1.
    rewrite <-!app_assoc. f_equal. by rewrite <-Hp1.
Qed.

Lemma subs_bounded_reachable s : rtc cfg_step new_config s → subs_bounded s.
Proof.
  intros Hr. assert (subs_bounded new_config) as Hs by (intros id [? E]; simpl in E; by rewrite lookup_empty in E).
  induction Hr as [|x y z Hxy Hyz IH]; [done|]. apply IH.
  inversion Hxy; subst. eauto using subs_bounded_effect, perform_effect.
Qed.

(** ** Transactions *)

Definition ends (id : Z) (op : cfg_op) : Prop := op = OpCommit id ∨ op = OpRollback id.

(** The snapshot of an open transaction is never touched. *)
Definition holds_snapshot (id : Z) (ks : gmap str KeyRecord) (s : ConfigManager) : Prop :=
  cf_transactions s !! id = Some ks ∧ id < cf_next_transaction s.

Lemma holds_snapshot_effect id ks op r s s' :
  holds_snapshot id ks s → ¬ ends id op → effect op r s s' → holds_snapshot id ks s'.
Proof.
  intros [Hi Hlt] Hop He. unfold holds_snapshot, ends in *.
  inversion He; subst; simpl; try done.
  - rewrite lookup_insert_ne by lia. split; [done|lia].
  - rewrite lookup_delete_ne by naive_solver. done.
  - rewrite lookup_delete_ne by naive_solver. done.
Qed.

(** Runs that leave the transaction [id] open. *)
Inductive open_step (id : Z) : ConfigManager → ConfigManager → Prop :=
| os_perform op s r s' : ¬ ends id op → perform op s = Done r s' → open_step id s s'.

Lemma holds_snapshot_run id ks s s' :
  rtc (open_step id) s s' → holds_snapshot id ks s → holds_snapshot id ks s'.
Proof.
  induction 1 as [|x y z Hxy _ IH]; [done|]. intros Hx. apply IH.
  inversion Hxy; subst. eauto using holds_snapshot_effect, perform_effect.
Qed.

(** ** Operations return *)

(** The paths an operation resolves. *)
Definition paths_of (op : cfg_op) : list str :=
  match op with
  | OpCreate path _ | OpDelete path | OpSetValue path _ _ | OpDeleteValue path _
  | OpSubscribe path => [path]
  | OpLink l t => [l; t]
  | _ => []
  end.

(** The counters have room, and the stack holds one frame per component. *)
Definition room (op : cfg_op) (s : ConfigManager) : Prop :=
  cf_clock s < u64_max ∧ cf_next_notification s < u64_max ∧ cf_next_transaction s < u64_max ∧
  ∀ path c, path ∈ paths_of op → normalize path = Ok c → (separators c < stack_depth)%nat.

Lemma resolve_key_returns c s :
  no_dangling (cf_keys s) → (separators c < stack_depth)%nat → ∃ r, resolve_key c s = Done r s.
Proof.
  intros Hd Hc. destruct (resolve_returns (cf_keys s) c stack_depth Hd Hc) as [r Hr].
  exists r. unfold resolve_key. by rewrite Hr.
Qed.

Lemma open_key_returns path s :
  no_dangling (cf_keys s) → (∀ c, normalize path = Ok c → (separators c < stack_depth)%nat) →
  ∃ r, open_key path s = Done r s.
Proof.
  intros Hd Hc. unfold open_key. mrun. destruct (normalize path) as [c|]; [|by eauto].
  apply resolve_key_returns; auto.
Qed.

Lemma separators_parent path p n :
  split_parent path = Ok (p, n) → (separators p < separators path)%nat.
Proof. intros (-> & Hn & _)%split_parent_Ok. rewrite separators_join by done. lia. Qed.

Lemma tick_run s : cf_clock s < u64_max → tick s = Done (Ok tt) (cf_set_clock (cf_clock s + 1) s).
Proof. intros Hc. unfold tick. mrun. by rewrite (proj2 (Z.leb_le _ _)) by lia. Qed.

Lemma detach_all_returns l s :
  (∀ c, c ∈ l → ∃ p n, split_parent c = Ok (p, n)) →
  ∃ s', for_each l detach_volatile s = Done (Ok tt) s'.
Proof.
  revert s. induction l as [|c l IH]; intros s Hl; simpl; [by eauto|].
  destruct (Hl c) as (p & n & E); [by left|]. unfold detach_volatile at 1. mrun. rewrite E. mrun.
  apply IH. intros q Hq. apply Hl. by right.
Qed.

Lemma unload_returns s : CInv s → ∃ r s', perform OpUnload s = Done r s'.
Proof.
  intros [Hk _]. cbn [perform]. unfold unload_hive. mrun.
  destruct (detach_all_returns (volatile_paths (cf_keys s)) s) as [s1 E].
  { intros c (k & Hc & _)%elem_of_volatile_paths.
    destruct (ki_split _ Hk _ _ Hc) as (p & n & -> & Hn & Hp & _). exists p, n. by apply split_join. }
  rewrite E, delete_all_run. mrun. eauto.
Qed.

(** Runs an [open_key] that returns. *)
Ltac open_run path r :=
  let E := fresh "E" in
  destruct (open_key_returns path _ ltac:(eassumption) ltac:(eauto using list_elem_of_here, list_elem_of_further))
    as [r E]; mrun; rewrite E; destruct r; mrun.

Lemma perform_returns op s :
  CInv s → no_dangling (cf_keys s) → room op s → ∃ r s', perform op s = Done r s'.
Proof.
  intros Hs Hd (Hc & Hn & Ht & Hp). destruct op; cbn [perform]; mrun.
  - assert (∃ r s', create_key path volatile s = Done r s') as (r & s' & ->); [|destruct r; eauto].
    unfold create_key. mrun. destruct (normalize path) as [c|] eqn:En; mrun; [|by eauto].
    destruct (is_root c); mrun; [by eauto|].
    destruct (split_parent c) as [[p n]|] eqn:Es; mrun; [|by eauto].
    assert (separators p < stack_depth)%nat as Hlt.
    { apply separators_parent in Es. specialize (Hp path c (list_elem_of_here _ _) En). lia. }
    unfold resolve_or. destruct (resolve_key_returns p s Hd Hlt) as [[q|e] ->]; mrun; [|by eauto].
    case_bool_decide; mrun; [by eauto|]. rewrite tick_run by done. mrun. by eauto.
  - assert (∃ r s', delete_key path s = Done r s') as (r & s' & ->); [|destruct r; eauto].
    unfold delete_key. mrun. destruct (normalize path) as [c|] eqn:En; mrun; [|by eauto].
    destruct (is_root c); mrun; [by eauto|].
    specialize (Hp path c (list_elem_of_here _ _) En).
    destruct (resolve_key_returns c s Hd Hp) as [[q|e] E]; rewrite E; mrun; [|by eauto].
    unfold key_at. mrun. destruct (cf_keys s !! q); mrun; [|by eauto].
    destruct (bool_decide _); mrun; [by eauto|].
    destruct (split_parent q) as [[p n]|] eqn:Es; mrun; by eauto.
  - assert (∃ r s', link_key link target s = Done r s') as (r & s' & ->); [|destruct r; eauto].
    unfold link_key. open_run link a; [|by eauto]. open_run target b; [|by eauto].
    destruct (bool_decide _); mrun; [by eauto|]. unfold key_at. mrun.
    destruct (cf_keys s !! a); mrun; [|by eauto].
    destruct (_ || _); mrun; [by eauto|]. rewrite tick_run by done. mrun. by eauto.
  - assert (∃ r s', set_value path name value s = Done r s') as (r & s' & ->); [|destruct r; eauto].
    unfold set_value. mrun. destruct (_ || _); mrun; [by eauto|]. open_run path a; [|by eauto].
    rewrite tick_run by done. mrun. unfold key_at. mrun. simpl.
    destruct (cf_keys s !! a); mrun; by eauto.
  - assert (∃ r s', delete_value path name s = Done r s') as (r & s' & ->); [|destruct r; eauto].
    unfold delete_value. open_run path a; [|by eauto]. unfold key_at. mrun.
    destruct (cf_keys s !! a); mrun; [|by eauto].
    destruct (kr_values _ !! _); mrun; [|by eauto]. rewrite tick_run by done. mrun. by eauto.
  - assert (∃ r s', subscribe path s = Done r s') as (r & s' & ->); [|destruct r; eauto].
    unfold subscribe. open_run path a; [|by eauto].
    rewrite (proj2 (Z.leb_le _ _)) by lia. mrun. by eauto.
  - unfold poll. mrun. destruct (cf_subscriptions s !! id); mrun; by eauto.
  - unfold cancel_subscription. mrun. destruct (cf_subscriptions s !! id); mrun; by eauto.
  - unfold begin_transaction. mrun. rewrite (proj2 (Z.leb_le _ _)) by lia. mrun. by eauto.
  - unfold commit_transaction, take_transaction. mrun.
    destruct (cf_transactions s !! id); mrun; by eauto.
  - unfold rollback_transaction, take_transaction. mrun.
    destruct (cf_transactions s !! id); mrun; by eauto.
  - by apply unload_returns.
Qed.
End reachable.

(** ** Running a list of operations that all succeed *)

Section runs.
Context {SD : StackDepth}.

Fixpoint run_ops (ops : list cfg_op) (s : ConfigManager) : option ConfigManager :=
  match ops with
  | [] => Some s
  | op :: ops => match perform op s with Done (Ok _) s' => run_ops ops s' | _ => None end
  end.

Lemma run_ops_reach ops s s' : run_ops ops s = Some s' → rtc cfg_step s s'.
Proof.
  revert s. induction ops as [|op ops IH]; intros s; simpl; [by intros [= ->]|].
  destruct (perform op s) as [[r|e] s1|] eqn:E; [|done|done].
  intros Hr%IH. eapply rtc_l; [by econstructor|done].
Qed.

Lemma run_ops_closed ops s s' :
  Forall (λ op, op ≠ OpUnload) ops → run_ops ops s = Some s' → rtc closed_step s s'.
Proof.
  intros Hops. revert s. induction Hops as [|op ops Hop _ IH]; intros s; simpl; [by intros [= ->]|].
  destruct (perform op s) as [[r|e] s1|] eqn:E; [|done|done].
  intros Hr%IH. eapply rtc_l; [by econstructor|done].
Qed.

Lemma run_ops_open id ops s s' :
  Forall (λ op, ¬ ends id op) ops → run_ops ops s = Some s' → rtc (open_step id) s s'.
Proof.
  intros Hops. revert s. induction Hops as [|op ops Hop _ IH]; intros s; simpl; [by intros [= ->]|].
  destruct (perform op s) as [[r|e] s1|] eqn:E; [|done|done].
  intros Hr%IH. eapply rtc_l; [by econstructor|done].
Qed.
End runs.

(** Two dangling links whose parents lead to each other: resolution never ends. *)
Lemma resolve_cycle ks a b p q n m k z :
  let link c := kr_link <$> ks !! c in
  component n → component m → component k → component z → a ≠ [] → b ≠ [] →
  link a = Some (Some p) → link p = Some None → link b = Some (Some q) → link q = Some None →
  link (join a n) = None → link (join b m) = None →
  link (join p n) = Some (Some (join (join b m) k)) →
  link (join q m) = Some (Some (join (join a n) z)) →
  link (join (join b m) k) = None → link (join (join a n) z) = None →
  ∀ d, resolve d ks (join a n) = None ∧ resolve d ks (join b m) = None.
Proof.
  intros link Hn Hm Hk Hz Ha0 Hb0 (ra & Ha & Hla)%fmap_Some (rp & Hp & Hlp)%fmap_Some
    (rb & Hb & Hlb)%fmap_Some (rq & Hq & Hlq)%fmap_Some Han%fmap_None Hbm%fmap_None
    (rpn & Hpn & Hlpn)%fmap_Some (rqm & Hqm & Hlqm)%fmap_Some Hbk%fmap_None Haz%fmap_None d.
  symmetry in Hla, Hlp, Hlb, Hlq, Hlpn, Hlqm.
  assert (∀ x y n' w v ry rec, component n' → x ≠ [] → ks !! join x n' = None →
    rec x = Some (Ok y) → ks !! join y n' = Some ry → kr_link ry = Some (join w v) →
    ks !! join w v = None → component v → w ≠ [] → rec w = None →
    resolve_loop rec ks 32 (join x n') = None) as Hstep.
  { intros x y n' w v ry rec Hn' Hx Hxn Hrx Hyn Hly Hwv Hv Hw Hrw.
    do 3 (rewrite resolve_loop_S; rewrite ?Hxn, ?split_join, ?Hrx, ?Hyn, ?Hly, ?Hwv, ?Hrw by done;
      rewrite ?bool_decide_true by done). done. }
  assert (∀ d x y rx, ks !! x = Some rx → kr_link rx = Some y → (∃ ry, plain_key ks y ry) →
    resolve (S d) ks x = Some (Ok y)) as Hlink.
  { intros d' x y rx Hx Hlx (ry & Hy & Hly). by rewrite resolve_S, resolve_loop_S, Hx, Hlx, resolve_loop_S, Hy, Hly. }
  induction d as [|d [IHa IHb]]; [done|]. rewrite !resolve_S. destruct d as [|d].
  - rewrite !resolve_loop_S, Han, Hbm, !split_join by done. done.
  - split.
    + apply (Hstep a p n (join b m) k rpn); try assumption; [|apply join_not_nil].
      apply (Hlink d a p ra); [assumption..|]. exists rp. by split.
    + apply (Hstep b q m (join a n) z rqm); try assumption; [|apply join_not_nil].
      apply (Hlink d b q rb); [assumption..|]. exists rq. by split.
Qed.

(** ** Theorems *)

Section theorems.
Context {SD : StackDepth}.

(** C38 - In every registry reached by operations that unload only closed hives (no key
    that stays lies below a volatile one), the keys form a tree: every key but a
    hive root is a component below a key that lists it, every listed subkey exists,
    a link has neither values nor subkeys and never targets itself, hive roots are
    not volatile, and [enum_subkeys] returns the keys one component below the key
    the path leads to, each once. *)
Theorem registry_tree_exact s :
  rtc closed_step new_config s →
  (∀ c k, cf_keys s !! c = Some k →
     (is_root c = true ∧ kr_volatile k = false) ∨
     ∃ p n kp, c = join p n ∧ component n ∧ cf_keys s !! p = Some kp ∧ n ∈ kr_subkeys kp) ∧
  (∀ p k n, cf_keys s !! p = Some k → n ∈ kr_subkeys k → is_Some (cf_keys s !! join p n)) ∧
  (∀ c k t, cf_keys s !! c = Some k → kr_link k = Some t →
     kr_values k = ∅ ∧ kr_subkeys k = ∅ ∧ t ≠ c) ∧
  (∀ path l s', enum_subkeys path s = Done (Ok l) s' →
     s' = s ∧ NoDup l ∧ ∃ c, opens s path c ∧
       ∀ q, q ∈ l ↔ is_Some (cf_keys s !! q) ∧ ∃ n, component n ∧ q = join c n).
Proof.
  intros [Hk _]%cinv_reachable. split_and!.
  - intros c k Hc. destruct (ki_split _ Hk _ _ Hc) as (p & n & -> & Hn & Hp & [Hr|[kp Hkp]]).
    + left. split; [done|]. by eapply (ki_root _ Hk).
    + right. exists p, n, kp. split_and!; [done|done|done|]. apply (ki_sub _ Hk _ _ _ Hkp). eauto.
  - intros p k n Hp Hn. by apply (ki_sub _ Hk _ _ _ Hp).
  - intros c k t. apply (ki_link _ Hk).
  - intros path l s' H. unfold enum_subkeys in H.
    apply bind_Ok_inv in H as (c & s1 & Ho & H). destruct (open_key_inv _ _ _ _ Ho) as [-> [k [Hc Hl]]].
    unfold key_at in H. mrun. rewrite Hc in H. mrun. simplify_eq. split; [done|].
    assert (∀ n, n ∈ bs_elems (kr_subkeys k) ↔ component n ∧ is_Some (cf_keys s' !! join c n)) as Hin.
    { intros n. unfold bs_elems. rewrite merge_sort_Permutation, elem_of_elements. by apply (ki_sub _ Hk). }
    split.
    + apply NoDup_fmap_2_strong.
      * intros x y [Hx _]%Hin [Hy _]%Hin E. by apply join_inj in E as [_ ?].
      * unfold bs_elems. rewrite merge_sort_Permutation. apply NoDup_elements.
    + exists c. split; [done|]. intros q. rewrite list_elem_of_fmap. setoid_rewrite Hin. naive_solver.
Qed.

(** C39 - [resolve] refines the declarative resolution: with enough stack it answers a key
    exactly when at most 31 links and missing components lead there, the parent of
    each missing component resolved by a walk with a bound of 31 of its own; that key
    is not a link, and the answer is the same however much stack there is. *)
Theorem resolve_refines_walk ks path key :
  ((∃ d, resolve d ks path = Some (Ok key)) ↔ ∃ n, walk ks path key n ∧ (n < 32)%nat) ∧
  (∀ n, walk ks path key n → ∃ k, ks !! key = Some k ∧ kr_link k = None) ∧
  (∀ d d' r r', resolve d ks path = Some r → resolve d' ks path = Some r' → r = r').
Proof.
  split; [split|split].
  - assert (∀ d p q, resolve d ks p = Some (Ok q) → ∃ m, walk ks p q m ∧ (m < 32)%nat) as Hw.
    { induction d as [|d IH]; intros p q; [done|]. rewrite resolve_S. by apply resolve_loop_walk. }
    intros [d Hd]. by eapply Hw.
  - intros (n & Hw & Hn). apply walk_resolve in Hw as [d Hd]. exists (S d). rewrite resolve_S. by apply Hd.
  - intros n Hw. induction Hw; [by eexists|done..].
  - intros d d' r r' H1 H2. apply (resolve_mono _ (d `max` d')) in H1; [|lia].
    apply (resolve_mono _ (d `max` d')) in H2; [|lia]. congruence.
Qed.

(** [n] links in a row, and a key at their end. *)
Definition chain_key (i : nat) : str := join MACHINE_ROOT [97 + Z.of_nat i].
Definition chain_record (link : option str) : KeyRecord :=
  {| kr_volatile := false; kr_link := link; kr_values := ∅; kr_subkeys := ∅; kr_last_write := 0 |}.
Definition link_chain (n : nat) : gmap str KeyRecord :=
  <[chain_key n := chain_record None]>
    (list_to_map ((λ i, (chain_key i, chain_record (Some (chain_key (S i))))) <$> seq 0 n)).
(** Thirty-one links are followed, thirty-two are not. *)
Lemma resolve_refines_walk_witness :
  (∃ n, walk (link_chain 31) (chain_key 0) (chain_key 31) n ∧ (n < 32)%nat) ∧
  ¬ (∃ n, walk (link_chain 32) (chain_key 0) (chain_key 32) n ∧ (n < 32)%nat).
Proof.
  split.
  - apply (proj1 (resolve_refines_walk (link_chain 31) (chain_key 0) (chain_key 31))). exists 1%nat. by vm_compute.
  - intros H. apply (proj1 (resolve_refines_walk (link_chain 32) (chain_key 0) (chain_key 32))) in H as [[|d] H]; by vm_compute in H.
Defined.

(** When no link dangles, the counters have room and the stack holds one frame per
    component of the paths, every operation returns: no failed [expect], no stack
    overflow; and an operation that returns an error has changed nothing. *)
Theorem registry_operations_return s op :
  rtc closed_step new_config s → no_dangling (cf_keys s) → room op s →
  ∃ r s', perform op s = Done r s' ∧ ∀ e, r = Err e → s' = s.
Proof.
  intros Hs%cinv_reachable Hd Hr. destruct (perform_returns op s Hs Hd Hr) as (r & s' & E).
  exists r, s'. split; [done|]. intros e ->. apply perform_effect in E. by inversion E.
Qed.

(** A value that was set is read back under every spelling of its name and every
    path that leads to the key, no other value changes, and no path leads elsewhere;
    deleting it removes it and nothing else. *)
Theorem value_roundtrip s path name v s1 c :
  perform (OpSetValue path name v) s = Done (Ok RUnit) s1 → opens s path c →
  (∀ path' c', opens s1 path' c' ↔ opens s path' c') ∧
  (∀ path' c' name', opens s path' c' →
     get_value path' name' s1 =
       if decide (c' = c ∧ to_ascii_lowercase name' = to_ascii_lowercase name)
       then Done (Ok v) s1 else Done (match value_at s c' (to_ascii_lowercase name') with
         | Some w => Ok w | None => Err STATUS_OBJECT_NAME_NOT_FOUND end) s1) ∧
  (∀ s2, perform (OpDeleteValue path name) s1 = Done (Ok RUnit) s2 →
     ∀ c' n, value_at s2 c' n =
       if decide (c' = c ∧ n = to_ascii_lowercase name) then None else value_at s c' n).
Proof.
  intros H%perform_effect Ho. inversion H as [| | | |? ? ? c0 k ? ? ? Ho0 [Hk Hl]| | | | | | | |]; subst.
  assert (c0 = c) as -> by (unfold opens in Ho; congruence).
  match goal with |- context [get_value _ _ ?t] => set (s1 := t) end.
  assert (∀ path' c', opens s1 path' c' ↔ opens s path' c') as Hopens.
  { intros path' c'. apply opens_same_links, same_links_alter. done. }
  assert (∀ c' m, value_at s1 c' m =
    if decide (c' = c ∧ m = to_ascii_lowercase name) then Some v else value_at s c' m) as Hval.
  { eapply value_at_alter; [done|by eexists|]. intros k' m. simpl. rewrite lookup_insert.
    repeat case_decide; naive_solver. }
  split_and!; [done| |].
  - intros path' c' name' Ho'. rewrite (get_value_at s1 path' name' c') by (by apply Hopens).
    rewrite Hval. by case_decide.
  - intros s2 H2%perform_effect. inversion H2 as [| | | | |? ? c2 k2 ? Ho2 [Hk2 Hl2] Hv2| | | | | | |]; subst.
    assert (c2 = c) as -> by (apply Hopens in Ho; unfold opens in Ho; congruence).
    match goal with |- context [value_at ?t] => set (s2 := t) end.
    assert (∀ c' m, value_at s2 c' m =
      if decide (c' = c ∧ m = to_ascii_lowercase name) then None else value_at s1 c' m) as Hval2.
    { eapply value_at_alter; [done|by eexists|]. intros k' m. simpl. rewrite lookup_delete.
      repeat case_decide; naive_solver. }
    intros c' n. rewrite Hval2, Hval. by repeat case_decide.
Qed.

(** Notifications reach a subscriber exactly once and in order: over any run in
    which it is not cancelled, what was queued and the changes made at or below its
    path are what it polled followed by what is still queued. *)
Theorem notifications_exactly_once s id sub changes polled s' :
  rtc cfg_step new_config s → cf_subscriptions s !! id = Some sub →
  history id s changes polled s' →
  ∃ sub', cf_subscriptions s' !! id = Some sub' ∧ su_path sub' = su_path sub ∧
    su_events sub ++ filter (λ e, at_or_below (su_path sub) (re_path e)) changes
      = polled ++ su_events sub'.
Proof. intros Hs. apply history_queue. by apply subs_bounded_reachable. Qed.

(** A rollback restores the keys as they were when the transaction began, whatever
    happened in between (other transactions included), and ends the transaction. *)
Theorem rollback_restores_snapshot s id s1 s2 :
  perform OpBegin s = Done (Ok (RNumber id)) s1 → rtc (open_step id) s1 s2 →
  ∃ s3, perform (OpRollback id) s2 = Done (Ok RUnit) s3 ∧ cf_keys s3 = cf_keys s ∧
    cf_clock s3 = cf_clock s2 ∧
    perform (OpRollback id) s3 = Done (Err STATUS_INVALID_HANDLE) s3 ∧
    perform (OpCommit id) s3 = Done (Err STATUS_INVALID_HANDLE) s3.
Proof.
  intros H%perform_effect Hrun. inversion H; subst.
  apply (holds_snapshot_run _ (cf_keys s)) in Hrun as [Hi Hlt].
  2: { split; simpl; [by rewrite lookup_insert_eq|lia]. }
  cbn [perform]. unfold rollback_transaction, commit_transaction, take_transaction, notify. mrun.
  rewrite Hi. mrun. eexists. split; [done|]. split; [done|]. split; [done|].
  simpl. by rewrite !lookup_delete_eq.
Qed.
End theorems.

(** ** Concrete registries, on a stack of twenty frames *)

#[local] Instance demo_stack : StackDepth := 20%nat.

(** [\Registry\Machine] followed by [s]. *)
Definition machine (s : String.string) : str := (MACHINE_ROOT ++ lit s)%list.
Arguments machine s%_string_scope.

Definition state_after (ops : list cfg_op) : ConfigManager := default new_config (run_ops ops new_config).

Definition succeed (ops : list cfg_op) : bool :=
  match run_ops ops new_config with Some _ => true | None => false end.

Lemma state_after_run ops : succeed ops = true → run_ops ops new_config = Some (state_after ops).
Proof. unfold succeed, state_after. by destruct (run_ops ops new_config). Qed.

Lemma opens_result s path c : result_of (open_key path s) = Some (Ok c) → opens s path c.
Proof.
  unfold opens. destruct (open_key path s) as [r s'|] eqn:E; [|done].
  apply open_key_inv in E as [-> _]. simpl. congruence.
Qed.

(** A key with a value and a subscriber. *)
Definition demo_ops : list cfg_op :=
  [OpCreate (machine "\Software") false; OpSubscribe (machine "\Software");
   OpCreate (machine "/SOFTWARE/Casa\") false].
Definition demo : ConfigManager := state_after demo_ops.

Lemma demo_run : run_ops demo_ops new_config = Some demo.
Proof. apply state_after_run. by vm_compute. Qed.

Lemma demo_closed : rtc closed_step new_config demo.
Proof. eapply run_ops_closed; [|apply demo_run]. by repeat constructor. Qed.

Lemma registry_tree_exact_witness : is_Some (cf_keys demo !! join (machine "\software") (lit "casa")).
Proof.
  destruct (registry_tree_exact demo demo_closed) as (_ & H & _).
  destruct (cf_keys demo !! machine "\software") as [k|] eqn:E; [|exfalso; clear H; by vm_compute in E].
  apply (H _ k _ E). assert (is_Some (cf_keys demo !! machine "\software")) as Hs by (by rewrite E).
  assert (bool_decide (lit "casa" ∈ default ∅ (kr_subkeys <$> cf_keys demo !! machine "\software")) = true)
    as Hb by (clear H; by vm_compute).
  rewrite E in Hb. by apply bool_decide_eq_true in Hb.
Defined.

Definition casa_value : cfg_op := OpSetValue (machine "\software\casa") (lit "Path") (RvDword 7).
Definition demo_set : ConfigManager := state_of (perform casa_value demo) demo.

Lemma demo_set_run : perform casa_value demo = Done (Ok RUnit) demo_set.
Proof. unfold demo_set. apply run_eq. by vm_compute. Qed.

Lemma value_roundtrip_witness :
  get_value (machine "/SOFTWARE\CASA") (lit "PATH") demo_set = Done (Ok (RvDword 7)) demo_set.
Proof.
  destruct (value_roundtrip demo (machine "\software\casa") (lit "Path") (RvDword 7) demo_set
    (machine "\software\casa") demo_set_run) as (_ & H & _); [apply opens_result; by vm_compute|].
  rewrite (H _ (machine "\software\casa")); [|apply opens_result; by vm_compute].
  by rewrite decide_True.
Defined.

Lemma notifications_exactly_once_witness :
  ∃ sub', cf_subscriptions demo_set !! 1 = Some sub' ∧ su_path sub' = machine "\software" ∧
    [event (machine "\software\casa") KeyCreated None] ++
      filter (λ e, at_or_below (machine "\software") (re_path e))
        [event (machine "\software\casa") ValueSet (Some (lit "Path"))] = [] ++ su_events sub'.
Proof.
  apply (notifications_exactly_once demo 1
    {| su_path := machine "\software"; su_events := [event (machine "\software\casa") KeyCreated None] |}
    [event (machine "\software\casa") ValueSet (Some (lit "Path"))] [] demo_set).
  - apply (run_ops_reach demo_ops), demo_run.
  - by vm_compute.
  - assert (events_of casa_value (Ok RUnit) demo ++ []
      = [event (machine "\software\casa") ValueSet (Some (lit "Path"))]) as <- by (by vm_compute).
    apply (h_step 1 casa_value demo (Ok RUnit) demo_set [] [] demo_set);
      [discriminate|apply demo_set_run|constructor].
Defined.

Definition demo_begin : ConfigManager := state_of (perform OpBegin demo_set) demo_set.
Definition demo_changed : ConfigManager :=
  state_of (perform (OpDelete (machine "\software\casa")) demo_begin) demo_begin.

Lemma rollback_restores_snapshot_witness :
  ∃ s3, perform (OpRollback 1) demo_changed = Done (Ok RUnit) s3 ∧ cf_keys s3 = cf_keys demo_set ∧
    cf_clock s3 = cf_clock demo_changed ∧
    perform (OpRollback 1) s3 = Done (Err STATUS_INVALID_HANDLE) s3 ∧
    perform (OpCommit 1) s3 = Done (Err STATUS_INVALID_HANDLE) s3.
Proof.
  apply (rollback_restores_snapshot demo_set 1 demo_begin demo_changed).
  - unfold demo_begin. apply run_eq. by vm_compute.
  - apply rtc_once. unfold demo_changed. apply (os_perform 1 (OpDelete (machine "\software\casa")) _ (Ok RUnit)).
    + by intros [].
    + apply run_eq. by vm_compute.
Defined.

Lemma registry_operations_return_witness :
  ∃ r s', perform (OpDelete (machine "\software\casa")) demo = Done r s' ∧ ∀ e, r = Err e → s' = demo.
Proof.
  apply (registry_operations_return demo (OpDelete (machine "\software\casa")) demo_closed).
  - assert (map_Forall (λ _ k, kr_link k = None) (cf_keys demo)) as Hl.
    { apply (bool_decide_unpack _). by vm_compute. }
    intros c k t Hc Ht. rewrite (Hl c k Hc) in Ht. done.
  - split_and!; [by vm_compute|by vm_compute|by vm_compute|].
    intros path c ->%list_elem_of_singleton Hn.
    assert (normalize (machine "\software\casa") = Ok (machine "\software\casa")) as E by (by vm_compute).
    rewrite E in Hn. injection Hn as <-. unfold stack_depth, demo_stack.
    apply (bool_decide_unpack _). by vm_compute.
Defined.

(** Two links whose targets were deleted, through two keys that became links. *)
Definition cycle_ops : list cfg_op :=
  ((λ p, OpCreate (machine p) false) <$>
    ["\A"; "\A\n"; "\A\n\z"; "\B"; "\B\m"; "\B\m\k"; "\P"; "\P\n"; "\Q"; "\Q\m"]%string) ++
  [OpLink (machine "\P\n") (machine "\B\m\k"); OpLink (machine "\Q\m") (machine "\A\n\z");
   OpDelete (machine "\A\n\z"); OpDelete (machine "\A\n"); OpLink (machine "\A") (machine "\P");
   OpDelete (machine "\B\m\k"); OpDelete (machine "\B\m"); OpLink (machine "\B") (machine "\Q")].

(** A link to a childless hive root, deleted. *)
Definition root_ops : list cfg_op :=
  [OpCreate (lit "\registry\user\l") false; OpLink (lit "\registry\user\l") MACHINE_ROOT;
   OpDelete (lit "\registry\user\l")].

(** A non-volatile key below a volatile one, unloaded. *)
Definition orphan_ops : list cfg_op :=
  [OpCreate (machine "\v") true; OpCreate (machine "\v\n") false; OpUnload].

Lemma cycle_overflows depth : resolve depth (cf_keys (state_after cycle_ops)) (machine "\a\n") = None.
Proof.
  assert (component (lit "n") ∧ component (lit "m") ∧ component (lit "k") ∧ component (lit "z")) as (Hn & Hm & Hk & Hz)
    by (split_and!; (split; [done|apply rsplit_once_None; by vm_compute])).
  replace (machine "\a\n") with (join (machine "\a") (lit "n")) by (vm_compute; reflexivity).
  apply (λ H, proj1 (resolve_cycle (cf_keys (state_after cycle_ops)) (machine "\a") (machine "\b")
    (machine "\p") (machine "\q") (lit "n") (lit "m") (lit "k") (lit "z") Hn Hm Hk Hz
    ltac:(discriminate) ltac:(discriminate) ltac:(vm_compute; reflexivity)
    ltac:(vm_compute; reflexivity) ltac:(vm_compute; reflexivity) ltac:(vm_compute; reflexivity)
    ltac:(vm_compute; reflexivity) ltac:(vm_compute; reflexivity) ltac:(vm_compute; reflexivity)
    ltac:(vm_compute; reflexivity) ltac:(vm_compute; reflexivity) H depth)).
  vm_compute. reflexivity.
Qed.

Lemma root_deleted :
  let s := state_after root_ops in
  cf_keys s !! MACHINE_ROOT = None ∧
  result_of (create_key MACHINE_ROOT false s) = Some (Err STATUS_OBJECT_NAME_COLLISION) ∧
  result_of (create_key (machine "\k") false s) = Some (Err STATUS_OBJECT_PATH_NOT_FOUND).
Proof. intros s. split; [by vm_compute|]. split; by vm_compute. Qed.

Lemma orphan_left :
  let s := state_after orphan_ops in
  is_Some (cf_keys s !! machine "\v\n") ∧
  result_of (open_key (machine "\v") s) = Some (Err STATUS_OBJECT_NAME_NOT_FOUND) ∧
  map_Forall (λ _ k, lit "n" ∉ kr_subkeys k) (cf_keys s).
Proof.
  intros s. split; [|split; [by vm_compute|]]; apply (bool_decide_unpack _); by vm_compute.
Qed.

(** Three ways to break the registry with calls that all succeed.  After
    [cycle_ops], which only creates, links and deletes keys, opening
    [\registry\machine\a\n] overflows the stack however deep it is.  After
    [root_ops], deleting a link has deleted the hive root it leads to, although
    [delete_key] refuses the roots, and the root cannot be created again.  After
    [orphan_ops], a non-volatile key is left without its parent, which does not open
    any more, and no enumeration lists it. *)
Theorem registry_deviations :
  (run_ops cycle_ops new_config = Some (state_after cycle_ops) ∧
   ∀ depth, resolve depth (cf_keys (state_after cycle_ops)) (machine "\a\n") = None) ∧
  (run_ops root_ops new_config = Some (state_after root_ops) ∧
   cf_keys (state_after root_ops) !! MACHINE_ROOT = None ∧
   result_of (create_key MACHINE_ROOT false (state_after root_ops))
     = Some (Err STATUS_OBJECT_NAME_COLLISION) ∧
   result_of (create_key (machine "\k") false (state_after root_ops))
     = Some (Err STATUS_OBJECT_PATH_NOT_FOUND)) ∧
  (run_ops orphan_ops new_config = Some (state_after orphan_ops) ∧
   is_Some (cf_keys (state_after orphan_ops) !! machine "\v\n") ∧
   result_of (open_key (machine "\v") (state_after orphan_ops))
     = Some (Err STATUS_OBJECT_NAME_NOT_FOUND) ∧
   map_Forall (λ _ k, lit "n" ∉ kr_subkeys k) (cf_keys (state_after orphan_ops))).
Proof.
  split; [|split].
  - split; [apply state_after_run; by vm_compute|]. apply cycle_overflows.
  - split; [apply state_after_run; by vm_compute|]. apply root_deleted.
  - split; [apply state_after_run; by vm_compute|]. apply orphan_left.
Qed.

End Ct.
