(* ===== verification/Alpc.v ===== *)
(** * ALPC ports ([src/casak/alpc.rs])

    A port is shared by every clone of its endpoint ([Arc]), so the states of the
    ports live in a store indexed by the port identifier, and an [AlpcPort] is that
    identifier.  A method runs under the port's mutex: it is one atomic step, except
    that [receive] and [receive_reply] may go to sleep on the condition variable.
    Their loop is a turn ([receive_turn], [reply_turn]) that answers or sleeps, and
    a sleeping thread is a [Waiter] of the store: [notify_all] wakes the waiters of
    the port, and a waiter that wakes, for whatever reason, runs another turn.
    Instants are [Z]; [instant_max] is the latest one the host can represent. *)

From S2P Require Import Prelude Status.

(** ** Data *)

Record AlpcMessage := { am_id : Z; am_payload : list Z; am_expects_reply : bool }.

Record PortState := {
  ps_name : str;
  ps_max_queue : Z;
  ps_max_message : Z;
  ps_queue : list AlpcMessage;
  ps_replies : gmap Z (list Z);
  ps_pending : gset Z;
  ps_cancelled : gset Z;
  ps_connections : Z;
  ps_next_message : Z;
  ps_closed : bool;
  ps_sent : Z;
  ps_delivered : Z;
  ps_replies_sent : Z;
  ps_dropped : Z;
}.

(** A thread asleep in [receive] ([None]) or in [receive_reply] of a request. *)
Record Waiter := { wt_port : Z; wt_request : option Z; wt_deadline : Z; wt_awake : bool }.

Record AlpcManager := { al_ports : gmap str Z; al_next_port : Z }.

(** The manager, the ports behind the [Arc]s, and the sleeping threads. *)
Record Alpc := {
  aw_manager : AlpcManager;
  aw_store : gmap Z PortState;
  aw_waiters : gmap Z Waiter;
}.

(** [AlpcManager::new] *)
Definition new_alpc_manager : AlpcManager := {| al_ports := ∅; al_next_port := 1 |}.
Definition new_alpc : Alpc := {| aw_manager := new_alpc_manager; aw_store := ∅; aw_waiters := ∅ |}.

(** ** Field updates *)

Definition ps_set_queue (q : list AlpcMessage) (p : PortState) : PortState :=
  {| ps_name := ps_name p; ps_max_queue := ps_max_queue p; ps_max_message := ps_max_message p;
     ps_queue := q; ps_replies := ps_replies p; ps_pending := ps_pending p;
     ps_cancelled := ps_cancelled p; ps_connections := ps_connections p;
     ps_next_message := ps_next_message p; ps_closed := ps_closed p; ps_sent := ps_sent p;
     ps_delivered := ps_delivered p; ps_replies_sent := ps_replies_sent p;
     ps_dropped := ps_dropped p |}.
Definition ps_set_requests (replies : gmap Z (list Z)) (pending cancelled : gset Z) (p : PortState)
    : PortState :=
  {| ps_name := ps_name p; ps_max_queue := ps_max_queue p; ps_max_message := ps_max_message p;
     ps_queue := ps_queue p; ps_replies := replies; ps_pending := pending;
     ps_cancelled := cancelled; ps_connections := ps_connections p;
     ps_next_message := ps_next_message p; ps_closed := ps_closed p; ps_sent := ps_sent p;
     ps_delivered := ps_delivered p; ps_replies_sent := ps_replies_sent p;
     ps_dropped := ps_dropped p |}.
(** [next_message], [sent], [delivered], [replies_sent], [dropped] *)
Definition ps_set_counters (next sent delivered replies dropped : Z) (p : PortState) : PortState :=
  {| ps_name := ps_name p; ps_max_queue := ps_max_queue p; ps_max_message := ps_max_message p;
     ps_queue := ps_queue p; ps_replies := ps_replies p; ps_pending := ps_pending p;
     ps_cancelled := ps_cancelled p; ps_connections := ps_connections p;
     ps_next_message := next; ps_closed := ps_closed p; ps_sent := sent;
     ps_delivered := delivered; ps_replies_sent := replies; ps_dropped := dropped |}.
Definition ps_set_closed (p : PortState) : PortState :=
  {| ps_name := ps_name p; ps_max_queue := ps_max_queue p; ps_max_message := ps_max_message p;
     ps_queue := ps_queue p; ps_replies := ps_replies p; ps_pending := ps_pending p;
     ps_cancelled := ps_cancelled p; ps_connections := ps_connections p;
     ps_next_message := ps_next_message p; ps_closed := true; ps_sent := ps_sent p;
     ps_delivered := ps_delivered p; ps_replies_sent := ps_replies_sent p;
     ps_dropped := ps_dropped p |}.
Definition ps_set_connections (n : Z) (p : PortState) : PortState :=
  {| ps_name := ps_name p; ps_max_queue := ps_max_queue p; ps_max_message := ps_max_message p;
     ps_queue := ps_queue p; ps_replies := ps_replies p; ps_pending := ps_pending p;
     ps_cancelled := ps_cancelled p; ps_connections := n;
     ps_next_message := ps_next_message p; ps_closed := ps_closed p; ps_sent := ps_sent p;
     ps_delivered := ps_delivered p; ps_replies_sent := ps_replies_sent p;
     ps_dropped := ps_dropped p |}.

Definition aw_set_manager (m : AlpcManager) (w : Alpc) : Alpc :=
  {| aw_manager := m; aw_store := aw_store w; aw_waiters := aw_waiters w |}.
Definition aw_set_store (st : gmap Z PortState) (w : Alpc) : Alpc :=
  {| aw_manager := aw_manager w; aw_store := st; aw_waiters := aw_waiters w |}.
Definition aw_set_waiters (ws : gmap Z Waiter) (w : Alpc) : Alpc :=
  {| aw_manager := aw_manager w; aw_store := aw_store w; aw_waiters := ws |}.

Definition len (bytes : list Z) : Z := Z.of_nat (length bytes).

(** ** Under the mutex of one port *)

(** [state.sent += 1] *)
Definition count_sent : M PortState unit :=
  p <- gets id ;; n <- add_at u64_max (ps_sent p) 1 ;;
  modify (λ p, ps_set_counters (ps_next_message p) n (ps_delivered p) (ps_replies_sent p) (ps_dropped p) p).
Definition count_delivered : M PortState unit :=
  p <- gets id ;; n <- add_at u64_max (ps_delivered p) 1 ;;
  modify (λ p, ps_set_counters (ps_next_message p) (ps_sent p) n (ps_replies_sent p) (ps_dropped p) p).
Definition count_reply : M PortState unit :=
  p <- gets id ;; n <- add_at u64_max (ps_replies_sent p) 1 ;;
  modify (λ p, ps_set_counters (ps_next_message p) (ps_sent p) (ps_delivered p) n (ps_dropped p) p).
(** [state.dropped += dropped] *)
Definition count_dropped (dropped : Z) : M PortState unit :=
  p <- gets id ;; n <- add_at u64_max (ps_dropped p) dropped ;;
  modify (λ p, ps_set_counters (ps_next_message p) (ps_sent p) (ps_delivered p) (ps_replies_sent p) n p).
(** [let id = state.next_message; state.next_message += 1] *)
Definition next_message_id : M PortState Z :=
  p <- gets id ;; n <- add_at u64_max (ps_next_message p) 1 ;;
  modify (λ p, ps_set_counters n (ps_sent p) (ps_delivered p) (ps_replies_sent p) (ps_dropped p) p) ;;;
  ret (ps_next_message p).

Definition send_locked (payload : list Z) (expects_reply : bool) : M PortState Z :=
  p <- gets id ;;
  fail_if (ps_closed p) STATUS_PORT_DISCONNECTED ;;;
  fail_if (ps_max_message p <? len payload) STATUS_PORT_MESSAGE_TOO_LONG ;;;
  fail_if (ps_max_queue p <=? Z.of_nat (length (ps_queue p))) STATUS_PORT_CONNECTION_REFUSED ;;;
  i <- next_message_id ;;
  modify (λ p, ps_set_queue (ps_queue p ++
    [{| am_id := i; am_payload := payload; am_expects_reply := expects_reply |}]) p) ;;;
  (if expects_reply
   then modify (λ p, ps_set_requests (ps_replies p) ({[ i ]} ∪ ps_pending p) (ps_cancelled p) p)
   else ret tt) ;;;
  count_sent ;;;
  ret i.

(** One turn of the loop of [receive]: a message, or [None] to sleep. *)
Definition receive_turn (now deadline : Z) : M PortState (option AlpcMessage) :=
  p <- gets id ;;
  match ps_queue p with
  | m :: q => modify (ps_set_queue q) ;;; count_delivered ;;; ret (Some m)
  | [] =>
      fail_if (ps_closed p) STATUS_PORT_DISCONNECTED ;;;
      fail_if (deadline <=? now) STATUS_TIMEOUT ;;;
      ret None
  end.

Definition reply_locked (request : Z) (payload : list Z) : M PortState unit :=
  p <- gets id ;;
  fail_if (ps_closed p) STATUS_PORT_DISCONNECTED ;;;
  fail_if (ps_max_message p <? len payload) STATUS_PORT_MESSAGE_TOO_LONG ;;;
  fail_if (bool_decide (request ∉ ps_pending p) || bool_decide (is_Some (ps_replies p !! request)))
    STATUS_REPLY_MESSAGE_MISMATCH ;;;
  modify (λ p, ps_set_requests (<[request := payload]> (ps_replies p)) (ps_pending p ∖ {[ request ]})
                 (ps_cancelled p) p) ;;;
  count_reply.

(** One turn of the loop of [receive_reply]. *)
Definition reply_turn (request now deadline : Z) : M PortState (option (list Z)) :=
  p <- gets id ;;
  match ps_replies p !! request with
  | Some reply =>
      modify (λ p, ps_set_requests (delete request (ps_replies p)) (ps_pending p) (ps_cancelled p) p) ;;;
      ret (Some reply)
  | None =>
      fail_if (bool_decide (request ∈ ps_cancelled p)) STATUS_CANCELLED ;;;
      fail_if (ps_closed p) STATUS_PORT_DISCONNECTED ;;;
      fail_if (bool_decide (request ∉ ps_pending p)) STATUS_REPLY_MESSAGE_MISMATCH ;;;
      fail_if (deadline <=? now) STATUS_TIMEOUT ;;;
      ret None
  end.

Definition cancel_locked (request : Z) : M PortState unit :=
  p <- gets id ;;
  fail_if (bool_decide (request ∉ ps_pending p)) STATUS_OBJECT_NAME_NOT_FOUND ;;;
  modify (λ p, ps_set_requests (ps_replies p) (ps_pending p ∖ {[ request ]})
                 ({[ request ]} ∪ ps_cancelled p) p) ;;;
  modify (λ p, ps_set_queue (filter (λ m, am_id m ≠ request) (ps_queue p)) p).

(** [None] when the port was closed already. *)
Definition close_locked : M PortState (option Z) :=
  p <- gets id ;;
  if ps_closed p then ret None else
  modify ps_set_closed ;;;
  let dropped := Z.of_nat (length (ps_queue p)) in
  modify (ps_set_queue []) ;;;
  count_dropped dropped ;;;
  modify (λ p, ps_set_requests (ps_replies p) ∅ (ps_cancelled p) p) ;;;
  ret (Some dropped).

(** ** Ports in the store *)

(** Runs [c] under the mutex of [port]; an endpoint always has its state. *)
Definition locked {A} (port : Z) (c : M PortState A) : M Alpc A := λ w,
  match aw_store w !! port with
  | None => Panic
  | Some p => match c p with
              | Done r p' => Done r (aw_set_store (<[port := p']> (aw_store w)) w)
              | Panic => Panic
              end
  end.

Definition wake_waiter (port : Z) (t : Waiter) : Waiter :=
  if bool_decide (wt_port t = port)
  then {| wt_port := wt_port t; wt_request := wt_request t; wt_deadline := wt_deadline t; wt_awake := true |}
  else t.

(** [self.inner.wake.notify_all()] *)
Definition notify_all (port : Z) : M Alpc unit :=
  modify (λ w, aw_set_waiters (wake_waiter port <$> aw_waiters w) w).

Definition send (port : Z) (payload : list Z) (expects_reply : bool) : M Alpc Z :=
  i <- locked port (send_locked payload expects_reply) ;;
  notify_all port ;;;
  ret i.

Definition reply (port request : Z) (payload : list Z) : M Alpc unit :=
  locked port (reply_locked request payload) ;;; notify_all port.

Definition cancel (port request : Z) : M Alpc unit :=
  locked port (cancel_locked request) ;;; notify_all port.

Definition close (port : Z) : M Alpc Z :=
  o <- locked port close_locked ;;
  match o with
  | None => ret 0
  | Some dropped => notify_all port ;;; ret dropped
  end.

(** ** Waiting *)

Inductive Received : Type := GotMessage (m : AlpcMessage) | GotReply (payload : list Z).

(** The turn a waiter runs. *)
Definition turn (t : Waiter) (now : Z) : M Alpc (option Received) :=
  match wt_request t with
  | None => o <- locked (wt_port t) (receive_turn now (wt_deadline t)) ;; ret (GotMessage <$> o)
  | Some r => o <- locked (wt_port t) (reply_turn r now (wt_deadline t)) ;; ret (GotReply <$> o)
  end.

(** [wait_timeout]: the thread sleeps until it is woken. *)
Definition sleep (thread : Z) (t : Waiter) : M Alpc unit :=
  modify (λ w, aw_set_waiters (<[thread := {| wt_port := wt_port t; wt_request := wt_request t;
    wt_deadline := wt_deadline t; wt_awake := false |}]> (aw_waiters w)) w).
Definition leave (thread : Z) : M Alpc unit :=
  modify (λ w, aw_set_waiters (delete thread (aw_waiters w)) w).

(** A turn of the loop, then the thread answers ([Some]) or sleeps ([None]). *)
Definition attempt (thread : Z) (t : Waiter) (now : Z) : M Alpc (option Received) := λ w,
  match turn t now w with
  | Done (Ok None) w' => (sleep thread t ;;; ret None) w'
  | Done r w' => (leave thread ;;; query (λ _, r)) w'
  | Panic => Panic
  end.

Section wait.
Variable instant_max : Z.

(** [receive] and [receive_reply] of [thread] entered at [now]: the first turn. *)
Definition receive (thread port now timeout : Z) : M Alpc (option Received) :=
  deadline <- add_at instant_max now timeout ;;
  attempt thread {| wt_port := port; wt_request := None; wt_deadline := deadline; wt_awake := true |} now.

Definition receive_reply (thread port request now timeout : Z) : M Alpc (option Received) :=
  deadline <- add_at instant_max now timeout ;;
  attempt thread
    {| wt_port := port; wt_request := Some request; wt_deadline := deadline; wt_awake := true |} now.
End wait.

(** [thread] returns from [wait_timeout], notified or not, and runs a turn. *)
Definition resume (thread now : Z) : M Alpc (option Received) := λ w,
  match aw_waiters w !! thread with
  | Some t => attempt thread t now w
  | None => Panic
  end.

(** ** The namespace *)

Definition fresh_port (name : str) (max_queue max_message : Z) : PortState :=
  {| ps_name := name; ps_max_queue := max_queue; ps_max_message := max_message; ps_queue := [];
     ps_replies := ∅; ps_pending := ∅; ps_cancelled := ∅; ps_connections := 0;
     ps_next_message := 1; ps_closed := false; ps_sent := 0; ps_delivered := 0;
     ps_replies_sent := 0; ps_dropped := 0 |}.

Definition create_port (name : str) (max_queue max_message : Z) : M Alpc Z :=
  let trimmed := trim name in
  fail_if (str_is_empty trimmed || str_contains NUL trimmed) STATUS_OBJECT_NAME_INVALID ;;;
  fail_if ((max_queue =? 0) || (max_message =? 0)) STATUS_INVALID_PARAMETER ;;;
  let key := to_ascii_lowercase trimmed in
  m <- gets aw_manager ;;
  fail_if (bool_decide (is_Some (al_ports m !! key))) STATUS_OBJECT_NAME_COLLISION ;;;
  let i := al_next_port m in
  next <- add_at u64_max i 1 ;;
  modify (λ w, aw_set_store (<[i := fresh_port trimmed max_queue max_message]> (aw_store w)) w) ;;;
  modify (aw_set_manager {| al_ports := <[key := i]> (al_ports m); al_next_port := next |}) ;;;
  ret i.

Definition is_closed (port : Z) : M Alpc bool := locked port (gets ps_closed).

(** [connect] takes the mutex twice: to see that the port is open, and to count. *)
Definition connect_checked (name : str) : M Alpc Z :=
  let key := to_ascii_lowercase (trim name) in
  fail_if (str_is_empty key) STATUS_OBJECT_NAME_INVALID ;;;
  m <- gets aw_manager ;;
  port <- ok_or (al_ports m !! key) STATUS_OBJECT_NAME_NOT_FOUND ;;
  closed <- is_closed port ;;
  fail_if closed STATUS_PORT_DISCONNECTED ;;;
  ret port.

(** [state.connections += 1] *)
Definition count_connection : M PortState unit :=
  p <- gets id ;;
  n <- add_at usize_max (ps_connections p) 1 ;;
  modify (ps_set_connections n).

Definition connect (name : str) : M Alpc Z :=
  port <- connect_checked name ;;
  locked port count_connection ;;;
  ret port.

(** [AlpcManager::port] *)
Definition find_port (w : Alpc) (name : str) : result Z :=
  match al_ports (aw_manager w) !! to_ascii_lowercase (trim name) with
  | Some port => Ok port
  | None => Err STATUS_OBJECT_NAME_NOT_FOUND
  end.

Definition remove_port (name : str) : M Alpc Z :=
  let key := to_ascii_lowercase (trim name) in
  m <- gets aw_manager ;;
  port <- ok_or (al_ports m !! key) STATUS_INVALID_HANDLE ;;
  closed <- is_closed port ;;
  fail_if (negb closed) STATUS_INVALID_HANDLE ;;;
  modify (aw_set_manager {| al_ports := delete key (al_ports m); al_next_port := al_next_port m |}) ;;;
  ret port.

Definition port_count (w : Alpc) : Z := Z.of_nat (size (al_ports (aw_manager w))).
Definition port_name (port : Z) : M Alpc str := locked port (gets ps_name).
Definition pending_count (port : Z) : M Alpc Z := locked port (gets (λ p, Z.of_nat (length (ps_queue p)))).
Definition connection_count (port : Z) : M Alpc Z := locked port (gets ps_connections).
Definition sent_count (port : Z) : M Alpc Z := locked port (gets ps_sent).
Definition delivered_count (port : Z) : M Alpc Z := locked port (gets ps_delivered).
Definition replies_sent_count (port : Z) : M Alpc Z := locked port (gets ps_replies_sent).
Definition dropped_count (port : Z) : M Alpc Z := locked port (gets ps_dropped).
