(* ===== verification/AlpcFacts.v ===== *)
(** * Correctness of the ALPC ports

    Concurrent clients are interleaved at the mutex: every critical section, every
    turn of a waiting loop and every [notify_all] is a step of its own.  Over every
    interleaving messages are delivered at most once and in order, requests are
    answered at most once, and no thread sleeps while its answer is there. *)

From S2P Require Import Prelude Status Alpc.

Module Al.

(** ** The history of one port *)

(** What happened at a port: messages sent, delivered, taken back by a cancellation,
    and dropped by a close; replies given and collected; requests cancelled. *)
Record History := {
  h_sent : list AlpcMessage;
  h_delivered : list AlpcMessage;
  h_removed : list AlpcMessage;
  h_dropped : list AlpcMessage;
  h_replied : list (Z * list Z);
  h_answered : list (Z * list Z);
  h_cancelled : list Z;
}.

Definition no_history : History :=
  {| h_sent := []; h_delivered := []; h_removed := []; h_dropped := []; h_replied := []; h_answered := []; h_cancelled := [] |}.

Inductive label : Type :=
| LSent (m : AlpcMessage)
| LDelivered (m : AlpcMessage)
| LReplied (request : Z) (payload : list Z)
| LAnswered (request : Z) (payload : list Z)
| LCancelled (request : Z) (taken : list AlpcMessage)
| LClosed (taken : list AlpcMessage)
| LQuiet.

Definition record (l : label) (h : History) : History :=
  match l with
  | LSent m => {| h_sent := h_sent h ++ [m]; h_delivered := h_delivered h; h_removed := h_removed h; h_dropped := h_dropped h;
      h_replied := h_replied h; h_answered := h_answered h; h_cancelled := h_cancelled h |}
  | LDelivered m => {| h_sent := h_sent h; h_delivered := h_delivered h ++ [m]; h_removed := h_removed h; h_dropped := h_dropped h;
      h_replied := h_replied h; h_answered := h_answered h; h_cancelled := h_cancelled h |}
  | LReplied i b => {| h_sent := h_sent h; h_delivered := h_delivered h; h_removed := h_removed h; h_dropped := h_dropped h;
      h_replied := h_replied h ++ [(i, b)]; h_answered := h_answered h; h_cancelled := h_cancelled h |}
  | LAnswered i b => {| h_sent := h_sent h; h_delivered := h_delivered h; h_removed := h_removed h; h_dropped := h_dropped h;
      h_replied := h_replied h; h_answered := h_answered h ++ [(i, b)]; h_cancelled := h_cancelled h |}
  | LCancelled i l => {| h_sent := h_sent h; h_delivered := h_delivered h; h_removed := h_removed h ++ l; h_dropped := h_dropped h;
      h_replied := h_replied h; h_answered := h_answered h; h_cancelled := h_cancelled h ++ [i] |}
  | LClosed l => {| h_sent := h_sent h; h_delivered := h_delivered h; h_removed := h_removed h; h_dropped := h_dropped h ++ l;
      h_replied := h_replied h; h_answered := h_answered h; h_cancelled := h_cancelled h |}
  | LQuiet => h
  end.

(** The state of a port agrees with its history. *)
Record PortInv (h : History) (p : PortState) : Prop := {
  pv_ids : (am_id <$> h_sent h) = seqZ 1 (ps_next_message p - 1);
  pv_next : 1 ≤ ps_next_message p;
  pv_order : (h_delivered h ++ ps_queue p) `sublist_of` h_sent h;
  pv_exact : h_sent h ≡ₚ (h_delivered h ++ ps_queue p ++ h_removed h ++ h_dropped h);
  pv_counts : ps_sent p = Z.of_nat (length (h_sent h)) ∧
    ps_delivered p = Z.of_nat (length (h_delivered h)) ∧
    ps_replies_sent p = Z.of_nat (length (h_replied h)) ∧
    ps_dropped p = Z.of_nat (length (h_dropped h));
  pv_bounds : 0 ≤ ps_max_queue p ∧ Z.of_nat (length (ps_queue p)) ≤ ps_max_queue p ∧
    Forall (λ m, len (am_payload m) ≤ ps_max_message p) (h_sent h);
  pv_pending : ∀ i, i ∈ ps_pending p →
    (∃ m, m ∈ h_sent h ∧ am_id m = i ∧ am_expects_reply m = true) ∧
    ¬ (i ∈ (h_replied h).*1) ∧ ¬ (i ∈ h_cancelled h);
  pv_replied : NoDup (h_replied h).*1 ∧
    h_replied h ≡ₚ (h_answered h ++ map_to_list (ps_replies p)) ∧
    ∀ i b, (i, b) ∈ h_replied h → ¬ (i ∈ h_cancelled h) ∧ len b ≤ ps_max_message p ∧
      ∃ m, m ∈ h_sent h ∧ am_id m = i ∧ am_expects_reply m = true;
  pv_cancelled : ∀ i, (i ∈ ps_cancelled p ↔ i ∈ h_cancelled h) ∧
    (i ∈ h_cancelled h → i < ps_next_message p);
  pv_closed : ps_closed p = true → ps_queue p = [] ∧ ps_pending p = ∅;
}.

Lemma portinv_fresh name q m : 0 < q → PortInv no_history (fresh_port name q m).
Proof.
  intros Hq. constructor; simpl; try done; try set_solver; try lia.
  - split_and!; [lia|lia|by constructor].
  - split_and!; [by apply NoDup_nil_2|by rewrite map_to_list_empty|set_solver].
Qed.

Lemma sent_id_bound h p m : PortInv h p → m ∈ h_sent h → 1 ≤ am_id m < ps_next_message p.
Proof.
  intros Hp Hm. assert (am_id m ∈ am_id <$> h_sent h) as Hi by (by apply list_elem_of_fmap_2).
  rewrite (pv_ids _ _ Hp) in Hi. apply elem_of_seqZ in Hi. lia.
Qed.

Lemma sent_NoDup h p : PortInv h p → NoDup (am_id <$> h_sent h).
Proof. intros Hp. rewrite (pv_ids _ _ Hp). apply NoDup_seqZ. Qed.

(** ** Critical sections *)

Lemma portinv_send h p payload e r p' :
  PortInv h p → send_locked payload e p = Done r p' →
  match r with
  | Ok i => PortInv (record (LSent {| am_id := i; am_payload := payload; am_expects_reply := e |}) h) p'
  | Err _ => p' = p
  end.
Proof.
  intros Hp. unfold send_locked, next_message_id, count_sent. mrun. unfold id.
  destruct (ps_closed p) eqn:Ec; mrun; [by intros [= <- <-]|].
  destruct (_ <? _) eqn:El; mrun; [by intros [= <- <-]|].
  destruct (_ <=? _) eqn:Eq; mrun; [by intros [= <- <-]|]. bool_prop.
  destruct (ps_next_message p + 1 <=? u64_max); mrun; [|done].
  set (m := {| am_id := ps_next_message p; am_payload := payload; am_expects_reply := e |}).
  assert (∀ pending n, n = ps_sent p + 1 →
    (∀ i, i ∈ pending ↔ i ∈ ps_pending p ∨ e = true ∧ i = ps_next_message p) →
    PortInv (record (LSent m) h) {| ps_name := ps_name p; ps_max_queue := ps_max_queue p;
      ps_max_message := ps_max_message p; ps_queue := ps_queue p ++ [m]; ps_replies := ps_replies p;
      ps_pending := pending; ps_cancelled := ps_cancelled p; ps_connections := ps_connections p;
      ps_next_message := ps_next_message p + 1; ps_closed := ps_closed p; ps_sent := n;
      ps_delivered := ps_delivered p; ps_replies_sent := ps_replies_sent p;
      ps_dropped := ps_dropped p |}) as Hgoal.
  { intros pending n -> Hpend. pose proof (sent_id_bound h p) as Hb. destruct Hp as [].
    assert (∀ m0, m0 ∈ h_sent h → am_id m0 ≠ ps_next_message p) as Hfresh.
    { intros m0 Hm0. assert (1 ≤ am_id m0 < ps_next_message p); [|lia]. apply Hb; [by constructor|done]. }
    constructor; simpl; rewrite ?Ec; try done.
    - rewrite fmap_app, pv_ids0. simpl.
      replace (ps_next_message p + 1 - 1) with (ps_next_message p - 1 + 1) by lia.
      rewrite seqZ_app by lia. f_equal. unfold seqZ. simpl. f_equal. lia.
    - lia.
    - rewrite app_assoc. by apply sublist_app.
    - rewrite pv_exact0. rewrite <-!app_assoc. do 2 f_equiv. rewrite app_assoc. apply Permutation_app_comm.
    - rewrite length_app. simpl. destruct pv_counts0 as (? & ? & ? & ?). split_and!; lia.
    - rewrite length_app. simpl. destruct pv_bounds0 as (? & ? & ?). split_and!; [lia|lia|].
      apply Forall_app. split; [done|]. apply Forall_singleton. simpl. lia.
    - intros i [Hi|[-> ->]]%Hpend.
      + destruct (pv_pending0 i Hi) as ((m0 & ? & ?) & ? & ?). split_and!; [|done|done].
        exists m0. set_solver.
      + destruct pv_replied0 as (_ & _ & Hrep). split_and!.
        * exists m. set_solver.
        * intros ([i b] & E & Hib)%list_elem_of_fmap. simpl in E. subst.
          destruct (Hrep _ _ Hib) as (_ & _ & m0 & Hm0 & E & _). by apply (Hfresh m0).
        * intros Hcan. apply pv_cancelled0 in Hcan. lia.
    - destruct pv_replied0 as (? & ? & Hrep). split_and!; [done|done|].
      intros i b Hib. destruct (Hrep _ _ Hib) as (? & ? & m0 & ? & ?). split_and!; [done|done|].
      exists m0. set_solver.
    - intros i. destruct (pv_cancelled0 i) as [? Hlt]. split; [done|]. intros Hi%Hlt. lia. }
  destruct e; mrun; simpl; destruct (_ <=? u64_max); try done; intros [= <- <-]; apply Hgoal;
    try done; set_solver.
Qed.

Lemma portinv_receive h p now deadline r p' :
  PortInv h p → receive_turn now deadline p = Done r p' →
  match r with
  | Ok (Some m) => PortInv (record (LDelivered m) h) p' ∧ ∃ q, ps_queue p = m :: q
  | _ => p' = p
  end.
Proof.
  intros []. unfold receive_turn, count_delivered. mrun. unfold id.
  destruct (ps_queue p) as [|m q] eqn:Eq; mrun.
  { destruct (ps_closed p); mrun; [by intros [= <- <-]|].
    destruct (deadline <=? now); mrun; by intros [= <- <-]. }
  destruct (_ <=? _); [|done]. intros [= <- <-]. split; [|by eexists].
  constructor; simpl; try done.
  - by rewrite <-app_assoc.
  - by rewrite <-app_assoc.
  - rewrite length_app. simpl. destruct pv_counts0 as (? & ? & ? & ?). split_and!; lia.
  - simpl in pv_bounds0. destruct pv_bounds0 as (? & ? & ?). split_and!; [done|lia|done].
  - intros Hc. by apply pv_closed0 in Hc as [? _].
Qed.

Lemma portinv_reply h p i b r p' :
  PortInv h p → reply_locked i b p = Done r p' →
  match r with Ok _ => PortInv (record (LReplied i b) h) p' | Err _ => p' = p end.
Proof.
  intros []. unfold reply_locked, count_reply. mrun. unfold id.
  destruct (ps_closed p) eqn:Ec; mrun; [by intros [= <- <-]|].
  destruct (_ <? _) eqn:El; mrun; [by intros [= <- <-]|].
  destruct (_ || _) eqn:Eb; mrun; [by intros [= <- <-]|]. bool_prop.
  destruct (_ <=? _); [|done]. intros [= <- <-].
  assert (i ∈ ps_pending p) as Hi by (by apply dec_stable).
  destruct (pv_pending0 i Hi) as (Hm & Hr & Hcan). destruct pv_replied0 as (Hnd & Hperm & Hrep).
  match goal with H : ¬ is_Some _ |- _ => apply eq_None_not_Some in H; rename H into Hn end.
  constructor; simpl; rewrite ?Ec; try done.
  - rewrite length_app. simpl. destruct pv_counts0 as (? & ? & ? & ?). split_and!; lia.
  - intros j [Hj Hne]%elem_of_difference. destruct (pv_pending0 j Hj) as (? & ? & ?).
    split_and!; [done|set_solver|done].
  - split_and!.
    + rewrite fmap_app. apply NoDup_app. split_and!; [done|set_solver|apply NoDup_singleton].
    + rewrite map_to_list_insert, Hperm by done. rewrite <-app_assoc. f_equiv.
      by rewrite Permutation_app_comm.
    + intros j c [Hj|[= -> ->]%list_elem_of_singleton]%elem_of_app; [by apply Hrep|].
      split_and!; [done|lia|done].
Qed.

Lemma portinv_answer h p i now deadline r p' :
  PortInv h p → reply_turn i now deadline p = Done r p' →
  match r with
  | Ok (Some b) => PortInv (record (LAnswered i b) h) p' ∧ ps_replies p !! i = Some b ∧
      ps_queue p' = ps_queue p ∧ ps_pending p' = ps_pending p ∧ ps_cancelled p' = ps_cancelled p ∧
      ps_closed p' = ps_closed p ∧ ps_replies p' = delete i (ps_replies p)
  | _ => p' = p
  end.
Proof.
  intros []. unfold reply_turn. mrun. unfold id.
  destruct (ps_replies p !! i) as [b|] eqn:Eb; mrun.
  2: { do 4 (match goal with |- context [if ?b then _ else _] => destruct b end; mrun;
         [by intros [= <- <-]|]). by intros [= <- <-]. }
  intros [= <- <-]. split; [|done]. constructor; simpl; try done.
  destruct pv_replied0 as (? & Hperm & ?). split_and!; [done| |done].
  rewrite Hperm, <-app_assoc. f_equiv. symmetry. simpl. by apply map_to_list_delete.
Qed.

Lemma filter_out (i : Z) (q : list AlpcMessage) :
  q ≡ₚ filter (λ m, am_id m ≠ i) q ++ filter (λ m, am_id m = i) q.
Proof.
  induction q as [|m q IH]; [done|]. destruct (decide (am_id m = i)) as [E|E].
  - rewrite (filter_cons_False (λ m, am_id m ≠ i)), (filter_cons_True (λ m, am_id m = i)) by naive_solver.
    by rewrite <-Permutation_middle, <-IH.
  - rewrite (filter_cons_True (λ m, am_id m ≠ i)), (filter_cons_False (λ m, am_id m = i)) by naive_solver.
    simpl. by rewrite <-IH.
Qed.

Lemma portinv_cancel h p i r p' :
  PortInv h p → cancel_locked i p = Done r p' →
  match r with
  | Ok _ => PortInv (record (LCancelled i (filter (λ m, am_id m = i) (ps_queue p))) h) p'
  | Err _ => p' = p
  end.
Proof.
  intros Hp. pose proof (sent_id_bound h p) as Hb. unfold cancel_locked. mrun. unfold id.
  destruct (bool_decide (i ∉ ps_pending p)) eqn:Ei; mrun; [by intros [= <- <-]|]. bool_prop.
  intros [= <- <-]. assert (i ∈ ps_pending p) as Hi by (by apply dec_stable).
  destruct Hp as []. destruct (pv_pending0 i Hi) as ((m & Hm & Him & _) & Hr & Hcan).
  constructor; simpl; try done.
  - etrans; [|exact pv_order0]. apply sublist_app; [done|]. apply sublist_filter.
  - rewrite pv_exact0. f_equiv. rewrite (filter_out i (ps_queue p)) at 1.
    rewrite <-!app_assoc. f_equiv. rewrite !app_assoc. f_equiv. apply Permutation_app_comm.
  - pose proof (length_filter (λ m, am_id m ≠ i) (ps_queue p)). destruct pv_bounds0 as (? & ? & ?).
    split_and!; [done|lia|done].
  - intros j [Hj Hne]%elem_of_difference. destruct (pv_pending0 j Hj) as (? & ? & ?).
    split_and!; [done|done|set_solver].
  - destruct pv_replied0 as (? & ? & Hrep). split_and!; [done|done|].
    intros j b Hj. destruct (Hrep j b Hj) as (? & ? & ?). split_and!; [|done|done].
    assert (j ≠ i); [|set_solver]. intros ->. apply Hr. by apply (list_elem_of_fmap_2 fst) in Hj.
  - intros j. destruct (pv_cancelled0 j) as [? Hlt]. split; [set_solver|].
    intros [?| ->%list_elem_of_singleton]%elem_of_app; [by apply Hlt|].
    rewrite <-Him. apply Hb; [by constructor|done].
  - intros Hc. apply pv_closed0 in Hc as [-> ->]. split; [done|set_solver].
Qed.

Lemma portinv_close h p r p' :
  PortInv h p → close_locked p = Done r p' →
  ∃ o, r = Ok o ∧
  match o with
  | Some n => PortInv (record (LClosed (ps_queue p)) h) p' ∧ n = Z.of_nat (length (ps_queue p))
  | None => p' = p
  end.
Proof.
  intros []. unfold close_locked, count_dropped. mrun. unfold id.
  destruct (ps_closed p) eqn:Ec; mrun; [intros [= <- <-]; by exists None|].
  destruct (_ <=? _); [|done]. intros [= <- <-]. eexists. split; [done|]. split; [|done].
  constructor; simpl; try done.
  - rewrite app_nil_r. etrans; [|exact pv_order0]. by apply sublist_inserts_r.
  - rewrite pv_exact0. f_equiv. rewrite (Permutation_app_comm (ps_queue p)). by rewrite <-app_assoc.
  - rewrite length_app. destruct pv_counts0 as (? & ? & ? & ?). split_and!; lia.
  - destruct pv_bounds0 as (? & ? & ?). split_and!; [done|lia|done].
Qed.

Lemma portinv_connection h p r p' :
  PortInv h p → count_connection p = Done r p' → PortInv h p' ∧
    ps_queue p' = ps_queue p ∧ ps_pending p' = ps_pending p ∧ ps_cancelled p' = ps_cancelled p ∧
    ps_closed p' = ps_closed p ∧ ps_replies p' = ps_replies p.
Proof.
  intros []. unfold count_connection. mrun. unfold id. destruct (_ <=? _); [|done].
  intros [= <- <-]. split; [|done]. by constructor.
Qed.

(** No critical section renames a port. *)
Ltac same_name :=
  unfold send_locked, receive_turn, reply_locked, reply_turn, cancel_locked, close_locked,
    count_connection, next_message_id, count_sent, count_delivered, count_reply, count_dropped;
  mrun; unfold id;
  repeat (match goal with
          | |- context [match ?x with _ => _ end] =>
              lazymatch x with context [match _ with _ => _ end] => fail | _ => destruct x end
          end; mrun);
  try done; by intros [= <- <-].

Lemma name_send payload e p r p' : send_locked payload e p = Done r p' → ps_name p' = ps_name p.
Proof. same_name. Qed.
Lemma name_receive now d p r p' : receive_turn now d p = Done r p' → ps_name p' = ps_name p.
Proof. same_name. Qed.
Lemma name_reply i b p r p' : reply_locked i b p = Done r p' → ps_name p' = ps_name p.
Proof. same_name. Qed.
Lemma name_answer i now d p r p' : reply_turn i now d p = Done r p' → ps_name p' = ps_name p.
Proof. same_name. Qed.
Lemma name_cancel i p r p' : cancel_locked i p = Done r p' → ps_name p' = ps_name p.
Proof. same_name. Qed.
Lemma name_close p r p' : close_locked p = Done r p' → ps_name p' = ps_name p.
Proof. same_name. Qed.
Lemma name_connection p r p' : count_connection p = Done r p' → ps_name p' = ps_name p.
Proof. same_name. Qed.

(** ** Interleavings *)

(** The state of the ports, and the ports whose mutex was released after a change
    and whose [notify_all] has not run yet. *)
Definition World : Type := Alpc * list Z.

Definition queue_of (w : Alpc) (port : Z) : list AlpcMessage :=
  match aw_store w !! port with Some p => ps_queue p | None => [] end.

Definition collected (t : Waiter) (r : result (option Received)) : label :=
  match r, wt_request t with
  | Ok (Some (GotMessage m)), _ => LDelivered m
  | Ok (Some (GotReply b)), Some i => LAnswered i b
  | _, _ => LQuiet
  end.

Definition succeeded {A} (r : result A) : bool := match r with Ok _ => true | Err _ => false end.
Definition unlocked {A} (port : Z) (r : result A) (fl : list Z) : list Z :=
  if succeeded r then port :: fl else fl.

Section system.
Variable instant_max : Z.

Inductive step : World → Z → label → World → Prop :=
| st_send port payload e w fl r w' :
    locked port (send_locked payload e) w = Done r w' →
    step (w, fl) port
      (match r with Ok i => LSent {| am_id := i; am_payload := payload; am_expects_reply := e |}
                  | Err _ => LQuiet end) (w', unlocked port r fl)
| st_reply port i b w fl r w' :
    locked port (reply_locked i b) w = Done r w' →
    step (w, fl) port (if succeeded r then LReplied i b else LQuiet) (w', unlocked port r fl)
| st_cancel port i w fl r w' :
    locked port (cancel_locked i) w = Done r w' →
    step (w, fl) port
      (if succeeded r then LCancelled i (filter (λ m, am_id m = i) (queue_of w port)) else LQuiet)
      (w', unlocked port r fl)
| st_close port w fl n w' :
    locked port close_locked w = Done (Ok (Some n)) w' →
    step (w, fl) port (LClosed (queue_of w port)) (w', port :: fl)
| st_close_again port w fl w' :
    locked port close_locked w = Done (Ok None) w' → step (w, fl) port LQuiet (w', fl)
| st_notify port w fl1 fl2 r w' :
    notify_all port w = Done r w' → step (w, fl1 ++ port :: fl2) port LQuiet (w', fl1 ++ fl2)
| st_receive thread port now timeout w fl r w' :
    aw_waiters w !! thread = None → receive instant_max thread port now timeout w = Done r w' →
    step (w, fl) port (collected {| wt_port := port; wt_request := None; wt_deadline := 0; wt_awake := true |} r)
      (w', fl)
| st_receive_reply thread port i now timeout w fl r w' :
    aw_waiters w !! thread = None → receive_reply instant_max thread port i now timeout w = Done r w' →
    step (w, fl) port (collected {| wt_port := port; wt_request := Some i; wt_deadline := 0; wt_awake := true |} r)
      (w', fl)
| st_resume thread t now w fl r w' :
    aw_waiters w !! thread = Some t → resume thread now w = Done r w' →
    step (w, fl) (wt_port t) (collected t r) (w', fl)
| st_create name q m w fl r w' port :
    0 ≤ q → create_port name q m w = Done r w' → step (w, fl) port LQuiet (w', fl)
| st_connect name w fl r w' port :
    connect_checked name w = Done r w' → step (w, fl) port LQuiet (w', fl)
| st_count port w fl r w' :
    locked port count_connection w = Done r w' → step (w, fl) port LQuiet (w', fl)
| st_remove name w fl r w' port :
    remove_port name w = Done r w' → step (w, fl) port LQuiet (w', fl).

Definition note (port : Z) (l : label) (h : Z → History) : Z → History :=
  λ q, if decide (q = port) then record l (h q) else h q.

(** The states some interleaving reaches, with the history of every port. *)
Inductive run : World → (Z → History) → Prop :=
| run_init : run (new_alpc, []) (λ _, no_history)
| run_step w h port l w' : run w h → step w port l w' → run w' (note port l h).

(** ** The invariant *)

(** Why a waiter sleeps: nothing it waits for is there. *)
Definition must_sleep (t : Waiter) (p : PortState) : Prop :=
  ps_closed p = false ∧
  match wt_request t with
  | None => ps_queue p = []
  | Some i => ps_replies p !! i = None ∧ ¬ (i ∈ ps_cancelled p) ∧ i ∈ ps_pending p
  end.

Record WInv (w : Alpc) (fl : list Z) (h : Z → History) : Prop := {
  wi_ports : ∀ q p, aw_store w !! q = Some p → PortInv (h q) p ∧ q < al_next_port (aw_manager w);
  wi_none : ∀ q, aw_store w !! q = None → h q = no_history;
  wi_waiters : ∀ th t, aw_waiters w !! th = Some t →
    ∃ p, aw_store w !! wt_port t = Some p ∧ (wt_awake t = false → must_sleep t p ∨ wt_port t ∈ fl);
  wi_names : ∀ k q, al_ports (aw_manager w) !! k = Some q →
    ∃ p, aw_store w !! q = Some p ∧ to_ascii_lowercase (ps_name p) = k;
}.

Lemma note_eq port l h : note port l h port = record l (h port).
Proof. unfold note. by rewrite decide_True. Qed.
Lemma note_ne port l h q : q ≠ port → note port l h q = h q.
Proof. intros. unfold note. by rewrite decide_False. Qed.
Lemma note_quiet port h q : note port LQuiet h q = h q.
Proof. unfold note. by case_decide. Qed.

(** The history only matters pointwise. *)
Lemma winv_ext w fl h h' : (∀ q, h' q = h q) → WInv w fl h → WInv w fl h'.
Proof.
  intros E []. constructor; try done.
  - intros q p. rewrite E. apply wi_ports0.
  - intros q. rewrite E. apply wi_none0.
Qed.

(** One port changes, under its mutex. *)
Lemma winv_locked w fl fl' h port p p' l :
  WInv w fl h → aw_store w !! port = Some p → PortInv (record l (h port)) p' →
  ps_name p' = ps_name p →
  (fl' = port :: fl ∨ fl' = fl ∧ ∀ t, must_sleep t p → must_sleep t p') →
  WInv (aw_set_store (<[port := p']> (aw_store w)) w) fl' (note port l h).
Proof.
  intros [] Hp Hinv Hname Hfl. constructor; simpl.
  - intros q p2 [[<- <-]|[Hne Hq]]%lookup_insert_Some.
    + rewrite note_eq. split; [done|]. by eapply wi_ports0.
    + rewrite note_ne by done. by apply wi_ports0.
  - intros q [Hq Hne]%lookup_insert_None. rewrite note_ne by done. by apply wi_none0.
  - intros th t Ht. destruct (wi_waiters0 th t Ht) as (p2 & Hp2 & Ha).
    destruct (decide (wt_port t = port)) as [Et|Hne].
    + rewrite Et, lookup_insert_eq in *. eexists. split; [done|]. intros Haw. simplify_eq.
      destruct (Ha Haw) as [Hm|Hin], Hfl as [->|[-> Hq]]; set_solver.
    + rewrite lookup_insert_ne by done. exists p2. split; [done|]. intros Haw.
      destruct (Ha Haw), Hfl as [->|[-> _]]; set_solver.
  - intros k q Hk. destruct (wi_names0 k q Hk) as (p2 & Hp2 & Hn).
    destruct (decide (q = port)) as [->|Hne].
    + rewrite lookup_insert_eq. eexists. split; [done|]. rewrite Hname. congruence.
    + rewrite lookup_insert_ne by done. eauto.
Qed.

Lemma locked_inv {A} port (c : M PortState A) w r w' :
  locked port c w = Done r w' →
  ∃ p p', aw_store w !! port = Some p ∧ c p = Done r p' ∧
    w' = aw_set_store (<[port := p']> (aw_store w)) w.
Proof.
  unfold locked. destruct (aw_store w !! port) as [p|]; [|done].
  destruct (c p) as [r' p'|] eqn:E; [|done]. intros [= <- <-]. by exists p, p'.
Qed.

(** A critical section that changed nothing. *)
Lemma winv_unchanged w fl h port p :
  WInv w fl h → aw_store w !! port = Some p →
  WInv (aw_set_store (<[port := p]> (aw_store w)) w) fl (note port LQuiet h).
Proof.
  intros Hw Hp. eapply winv_locked; try done; [|by right]. by apply (wi_ports _ _ _ Hw).
Qed.

(** A change that is followed by [notify_all]. *)
Lemma winv_change {A} port (c : M PortState A) w fl h r w' (l : A → label) :
  WInv w fl h → locked port c w = Done r w' →
  (∀ p p', aw_store w !! port = Some p → c p = Done r p' → PortInv (h port) p →
     ps_name p' = ps_name p ∧
     match r with Ok a => PortInv (record (l a) (h port)) p' | Err _ => p' = p end) →
  WInv w' (unlocked port r fl) (note port (match r with Ok a => l a | Err _ => LQuiet end) h).
Proof.
  intros Hw (p & p' & Hp & Hc & ->)%locked_inv Hf.
  destruct (wi_ports _ _ _ Hw _ _ Hp) as [Hinv _].
  destruct (Hf p p' Hp Hc Hinv) as [Hn Hr]. destruct r as [a|e]; simpl.
  - eapply winv_locked; eauto.
  - subst. by apply winv_unchanged.
Qed.

Lemma winv_waiters w fl h ws :
  WInv w fl h →
  (∀ th t, ws !! th = Some t → ∃ p, aw_store w !! wt_port t = Some p ∧
     (wt_awake t = false → must_sleep t p ∨ wt_port t ∈ fl)) →
  WInv (aw_set_waiters ws w) fl h.
Proof. intros [] Hws. by constructor. Qed.

(** A thread that runs a turn. *)
Lemma winv_attempt thread t now w fl h r w' :
  WInv w fl h → attempt thread t now w = Done r w' →
  WInv w' fl (note (wt_port t) (collected t r) h).
Proof.
  intros Hw H. assert (∃ p, aw_store w !! wt_port t = Some p) as (p & Hp).
  { destruct (aw_store w !! wt_port t) as [p|] eqn:E; [by exists p|].
    unfold attempt, turn, locked in H. destruct (wt_request t); mrun; by rewrite E in H. }
  destruct (wi_ports _ _ _ Hw _ _ Hp) as [Hinv _].
  assert (∀ p' l, PortInv (record l (h (wt_port t))) p' → ps_name p' = ps_name p →
    (∀ t', must_sleep t' p → must_sleep t' p') →
    WInv (aw_set_waiters (delete thread (aw_waiters w))
      (aw_set_store (<[wt_port t := p']> (aw_store w)) w)) fl (note (wt_port t) l h)) as Hleave.
  { intros p' l Hl Hn Hq.
    assert (WInv (aw_set_store (<[wt_port t := p']> (aw_store w)) w) fl (note (wt_port t) l h)) as Hw'
      by (eapply winv_locked; eauto).
    apply winv_waiters; [done|]. intros th x [Hne Hx]%lookup_delete_Some.
    by apply (wi_waiters _ _ _ Hw' th). }
  assert (must_sleep t p → WInv (aw_set_waiters (<[thread := {| wt_port := wt_port t;
      wt_request := wt_request t; wt_deadline := wt_deadline t; wt_awake := false |}]> (aw_waiters w))
      (aw_set_store (<[wt_port t := p]> (aw_store w)) w)) fl (note (wt_port t) LQuiet h)) as Hsleep.
  { intros Hm. pose proof (winv_unchanged w fl h _ p Hw Hp) as Hw'.
    apply winv_waiters; [done|]. intros th x [[<- <-]|[Hne Hx]]%lookup_insert_Some.
    - simpl. rewrite lookup_insert_eq. eexists. split; [done|]. intros _. by left.
    - by apply (wi_waiters _ _ _ Hw' th). }
  unfold attempt, turn, locked, sleep, leave in H. unfold collected.
  destruct (wt_request t) as [i|] eqn:Er; mrun; rewrite Hp in H.
  - destruct (reply_turn i now (wt_deadline t) p) as [r1 p'|] eqn:E; [|done].
    apply name_answer in E as Hn. pose proof E as E0. eapply portinv_answer in E; [|exact Hinv].
    destruct r1 as [[b|]|e]; mrun; simplify_eq/=.
    + destruct E as (Hl & _ & Hq & Hpe & Hc & Hcl & Hr). apply Hleave; [done|done|].
      intros t'. unfold must_sleep. rewrite Hq, Hpe, Hc, Hcl, Hr.
      destruct (wt_request t') as [j|]; [|done]. rewrite lookup_delete_None. naive_solver.
    + apply Hsleep. unfold must_sleep. rewrite Er. revert E0. unfold reply_turn. mrun. unfold id.
      destruct (ps_replies p !! i) eqn:Ei; mrun; [done|].
      case_bool_decide as H1; mrun; [done|]. destruct (ps_closed p) eqn:H2; mrun; [done|].
      case_bool_decide as H3; mrun; [done|]. intros _. by split_and!.
    + by apply Hleave.
  - destruct (receive_turn now (wt_deadline t) p) as [r1 p'|] eqn:E; [|done].
    apply name_receive in E as Hn. pose proof E as E0. eapply portinv_receive in E; [|exact Hinv].
    destruct r1 as [[m|]|e]; mrun; simplify_eq/=.
    + destruct E as (Hl & q & Hq). apply Hleave; [done|done|].
      revert E0. unfold receive_turn, count_delivered. mrun. unfold id. rewrite Hq. mrun.
      destruct (_ <=? _); [|done]. intros [= <-] t'. unfold must_sleep. simpl.
      rewrite Hq. destruct (wt_request t'); naive_solver.
    + apply Hsleep. unfold must_sleep. rewrite Er. revert E0. unfold receive_turn. mrun. unfold id.
      destruct (ps_queue p) eqn:Ei; mrun; [|unfold count_delivered; mrun; by destruct (_ <=? _)].
      destruct (ps_closed p) eqn:H2; mrun; done.
    + by apply Hleave.
Qed.

Lemma winv_notify port w fl1 fl2 h r w' :
  WInv w (fl1 ++ port :: fl2) h → notify_all port w = Done r w' → WInv w' (fl1 ++ fl2) h.
Proof.
  intros Hw [= <- <-]. assert (WInv w (fl1 ++ port :: fl2) h) as [] by done.
  constructor; simpl; try done.
  intros th t. rewrite lookup_fmap, fmap_Some. intros (t0 & Ht & ->).
  destruct (wi_waiters0 th t0 Ht) as (p & Hp & Ha). unfold wake_waiter.
  case_bool_decide as Eq; simpl; [by exists p|]. exists p. split; [done|].
  intros Haw. destruct (Ha Haw) as [Hm|Hin]; [by left|right]. set_solver.
Qed.

Lemma is_closed_inv port w r w' :
  is_closed port w = Done r w' →
  ∃ p, aw_store w !! port = Some p ∧ r = Ok (ps_closed p) ∧
    w' = aw_set_store (<[port := p]> (aw_store w)) w.
Proof. intros (p & p' & Hp & [= <- <-] & ->)%locked_inv. by exists p. Qed.

Lemma store_same w port p :
  aw_store w !! port = Some p → aw_set_store (<[port := p]> (aw_store w)) w = w.
Proof. intros Hp. destruct w. unfold aw_set_store. simpl in *. by rewrite insert_id. Qed.

Lemma connect_checked_same name w r w' : connect_checked name w = Done r w' → w' = w.
Proof.
  unfold connect_checked. mrun. destruct (str_is_empty _); mrun; [by intros [= <- <-]|].
  destruct (al_ports _ !! _) as [q|] eqn:Eq; mrun; [|by intros [= <- <-]].
  destruct (is_closed q w) as [r1 w1|] eqn:E; [|done].
  apply is_closed_inv in E as (p & Hp & -> & ->). rewrite (store_same w q p Hp).
  mrun. destruct (ps_closed p); mrun; by intros [= <- <-].
Qed.

Lemma winv_remove name w fl h r w' : WInv w fl h → remove_port name w = Done r w' → WInv w' fl h.
Proof.
  intros Hw. unfold remove_port. mrun.
  destruct (al_ports _ !! _) as [q|] eqn:Eq; mrun; [|by intros [= <- <-]].
  destruct (is_closed q w) as [r1 w1|] eqn:E; [|done].
  apply is_closed_inv in E as (p & Hp & -> & ->). rewrite (store_same w q p Hp).
  mrun. destruct (ps_closed p); mrun; intros [= <- <-]; [|done].
  destruct Hw. constructor; simpl; try done.
  intros k q' [_ Hk]%lookup_delete_Some. eauto.
Qed.

(** The invariant of the next port identifier. *)
Lemma winv_create name q m w fl h r w' :
  WInv w fl h → 0 ≤ q → create_port name q m w = Done r w' → WInv w' fl h.
Proof.
  intros Hw Hq. unfold create_port. mrun. destruct (_ || _); mrun; [by intros [= <- <-]|].
  destruct ((q =? 0) || _) eqn:Ez; mrun; [by intros [= <- <-]|]. bool_prop.
  case_bool_decide as Hk; mrun; [by intros [= <- <-]|]. apply eq_None_not_Some in Hk.
  destruct (_ <=? _); [|done]. intros [= <- <-].
  set (i := al_next_port (aw_manager w)).
  assert (aw_store w !! i = None) as Hi.
  { destruct (aw_store w !! i) eqn:E; [|done]. apply (wi_ports _ _ _ Hw) in E as [_ E]. unfold i in E. lia. }
  pose proof Hw as []. constructor; simpl.
  - intros j p [[<- <-]|[Hne Hj]]%lookup_insert_Some.
    + rewrite wi_none0 by done. split; [apply portinv_fresh; lia|]. unfold i. lia.
    + destruct (wi_ports0 _ _ Hj). split; [done|]. lia.
  - intros j [Hj Hne]%lookup_insert_None. by apply wi_none0.
  - intros th t Ht. destruct (wi_waiters0 th t Ht) as (p & Hp & Ha). exists p. split; [|done].
    rewrite lookup_insert_ne; [done|congruence].
  - intros k j [[<- <-]|[Hne Hj]]%lookup_insert_Some; [rewrite lookup_insert_eq; by eexists|].
    destruct (wi_names0 k j Hj) as (p & Hp & Hn). exists p. split; [|done].
    rewrite lookup_insert_ne; [done|congruence].
Qed.

Lemma winv_step w fl h port l w' fl' :
  WInv w fl h → step (w, fl) port l (w', fl') → WInv w' fl' (note port l h).
Proof.
  intros Hw Hstep. inversion Hstep as
    [q b e ? ? r ? H|q i b ? ? r ? H|q i ? ? r ? H|q ? ? n ? H|q ? ? ? H|q ? fl1 fl2 r ? H
    |th q now to ? ? r ? Hth H|th q i now to ? ? r ? Hth H|th t now ? ? r ? Hth H
    |name q m ? ? r ? ? Hq H|name ? ? r ? ? H|q ? ? r ? H|name ? ? r ? ? H]; subst.
  - eapply (winv_change _ _ _ _ _ _ _ (λ i, LSent {| am_id := i; am_payload := b; am_expects_reply := e |}));
      [done|done|]. intros p p' Hp Hc Hi. split; [by eapply name_send|]. by eapply portinv_send in Hc.
  - replace (if succeeded r then LReplied i b else LQuiet)
      with (match r with Ok _ => LReplied i b | Err _ => LQuiet end) by (by destruct r).
    eapply (winv_change _ _ _ _ _ _ _ (λ _, LReplied i b)); [done|done|].
    intros p p' Hp Hc Hi. split; [by eapply name_reply|]. by eapply portinv_reply in Hc.
  - set (taken := filter _ _). replace (if succeeded r then LCancelled i taken else LQuiet)
      with (match r with Ok _ => LCancelled i taken | Err _ => LQuiet end) by (by destruct r).
    eapply (winv_change _ _ _ _ _ _ _ (λ _, LCancelled i taken)); [done|done|].
    intros p p' Hp Hc Hi. split; [by eapply name_cancel|]. eapply portinv_cancel in Hc; [|done].
    unfold taken, queue_of. by rewrite Hp.
  - eapply (winv_change _ _ _ _ _ (Ok (Some n)) _ (λ _, LClosed (queue_of w port))); [done|done|].
    intros p p' Hp Hc Hi. split; [by eapply name_close|].
    eapply portinv_close in Hc as (o & [= <-] & Hl & _); [|done]. unfold queue_of. by rewrite Hp.
  - apply locked_inv in H as (p & p' & Hp & Hc & ->).
    destruct (wi_ports _ _ _ Hw _ _ Hp) as [Hi _].
    eapply portinv_close in Hc as (o & [= <-] & ->); [|done]. by apply winv_unchanged.
  - eapply winv_ext; [apply note_quiet|]. by eapply winv_notify.
  - unfold receive in H. mrun. destruct (now + to <=? instant_max); [|done].
    by eapply winv_attempt in H.
  - unfold receive_reply in H. mrun. destruct (now + to <=? instant_max); [|done].
    by eapply winv_attempt in H.
  - replace (note _ _ h) with (note (wt_port t) (collected t r) h) by done.
    unfold resume in H. rewrite Hth in H. by eapply winv_attempt.
  - eapply winv_ext; [apply note_quiet|]. by eapply winv_create.
  - eapply winv_ext; [apply note_quiet|]. apply connect_checked_same in H. by subst.
  - apply locked_inv in H as (p & p' & Hp & Hc & ->).
    destruct (wi_ports _ _ _ Hw _ _ Hp) as [Hi _].
    apply name_connection in Hc as Hn. eapply portinv_connection in Hc as (Hi' & Eq & Ep & Ec & Ecl & Er); [|done].
    eapply winv_locked; try done. right. split; [done|]. intros t. unfold must_sleep.
    by rewrite Eq, Ep, Ec, Ecl, Er.
  - eapply winv_ext; [apply note_quiet|]. by eapply winv_remove.
Qed.

Lemma winv_init : WInv new_alpc [] (λ _, no_history).
Proof. by constructor; intros; simplify_map_eq. Qed.

Lemma winv_run w h : run w h → WInv w.1 w.2 h.
Proof.
  induction 1 as [|[w fl] h port l [w' fl'] _ IH Hstep]; [apply winv_init|]. by eapply winv_step.
Qed.

Lemma portinv_run w h port p : run w h → aw_store w.1 !! port = Some p → PortInv (h port) p.
Proof. intros Hr%winv_run Hp. by apply (wi_ports _ _ _ Hr). Qed.

(** A waiter that must sleep and runs a turn times out or sleeps again. *)
Lemma resume_must_sleep th t now w p :
  aw_waiters w !! th = Some t → aw_store w !! wt_port t = Some p → must_sleep t p →
  result_of (resume th now w) =
    Some (if wt_deadline t <=? now then Err STATUS_TIMEOUT else Ok None).
Proof.
  intros Ht Hp [Hc Hm]. unfold resume, attempt, turn, locked. rewrite Ht.
  destruct (wt_request t) as [i|] eqn:Er; mrun; rewrite Hp.
  - destruct Hm as (H1 & H2 & H3). unfold reply_turn. mrun. unfold id. rewrite H1. mrun.
    rewrite bool_decide_false by done. mrun. rewrite Hc. mrun.
    rewrite bool_decide_false by (by intros H; apply H). mrun. by destruct (_ <=? _).
  - unfold receive_turn. mrun. unfold id. rewrite Hm. mrun. rewrite Hc. mrun. by destruct (_ <=? _).
Qed.

(** ** Theorems *)

(** C36 - Over every interleaving of clients, a port delivers each message at most once
    and in the order of sending: what was delivered and what is queued is a
    subsequence of what was sent, and what is missing was taken back by a
    cancellation or dropped by a close.  Identifiers count from one; the counters are
    the numbers of messages sent and delivered, of replies accepted and of messages
    that closes dropped; the queue keeps its bound, no payload exceeds the limit, and
    a closed port is empty. *)
Theorem messages_exactly_once w h port p :
  run w h → aw_store w.1 !! port = Some p →
  (h_delivered (h port) ++ ps_queue p) `sublist_of` h_sent (h port) ∧
  h_sent (h port) ≡ₚ (h_delivered (h port) ++ ps_queue p ++ h_removed (h port) ++ h_dropped (h port)) ∧
  (am_id <$> h_sent (h port)) = seqZ 1 (ps_sent p) ∧
  ps_sent p = Z.of_nat (length (h_sent (h port))) ∧
  ps_delivered p = Z.of_nat (length (h_delivered (h port))) ∧
  ps_replies_sent p = Z.of_nat (length (h_replied (h port))) ∧
  ps_dropped p = Z.of_nat (length (h_dropped (h port))) ∧
  Z.of_nat (length (ps_queue p)) ≤ ps_max_queue p ∧
  Forall (λ m, len (am_payload m) ≤ ps_max_message p) (h_sent (h port)) ∧
  (ps_closed p = true → ps_queue p = []).
Proof.
  intros Hr Hp. pose proof (portinv_run w h port p Hr Hp) as [].
  destruct pv_counts0 as (E1 & E2 & E3 & E4), pv_bounds0 as (_ & Hq & Hb).
  assert (ps_next_message p - 1 = ps_sent p) as En.
  { rewrite E1. apply (f_equal length) in pv_ids0. rewrite length_fmap, length_seqZ in pv_ids0. lia. }
  split_and!; try done; [by rewrite <-En|]. intros Hc. by apply pv_closed0.
Qed.

(** Over every interleaving, a request is answered at most once: its replies are
    accepted once, each accepted reply is collected once or still held, a request
    that was cancelled is never replied to, and one that is pending is neither; only
    requests that were sent and expect a reply are replied to. *)
Theorem requests_answered_once w h port p :
  run w h → aw_store w.1 !! port = Some p →
  NoDup (h_replied (h port)).*1 ∧
  h_replied (h port) ≡ₚ (h_answered (h port) ++ map_to_list (ps_replies p)) ∧
  (∀ i b, (i, b) ∈ h_replied (h port) → ¬ (i ∈ h_cancelled (h port)) ∧
     ∃ m, m ∈ h_sent (h port) ∧ am_id m = i ∧ am_expects_reply m = true) ∧
  (∀ i, i ∈ ps_pending p → ¬ (i ∈ (h_replied (h port)).*1) ∧ ¬ (i ∈ h_cancelled (h port))) ∧
  (∀ i, i ∈ ps_cancelled p ↔ i ∈ h_cancelled (h port)).
Proof.
  intros Hr Hp. pose proof (portinv_run w h port p Hr Hp) as [].
  destruct pv_replied0 as (? & ? & Hrep). split_and!; try done.
  - intros i b Hib. by destruct (Hrep i b Hib) as (? & _ & ?).
  - intros i Hi. by destruct (pv_pending0 i Hi) as (_ & ? & ?).
  - intros i. by destruct (pv_cancelled0 i).
Qed.

(** C37 - No wakeup is lost: unless a [notify_all] of its port is still to run, a thread
    asleep in [receive] or [receive_reply] would find nothing, so that a turn run
    now sleeps again before its deadline and times out after; and a [notify_all]
    of its port wakes it. *)
Theorem no_lost_wakeup w fl h th t :
  run (w, fl) h → aw_waiters w !! th = Some t → wt_awake t = false →
  (wt_port t ∉ fl → ∀ now, result_of (resume th now w) =
     Some (if wt_deadline t <=? now then Err STATUS_TIMEOUT else Ok None)) ∧
  (∀ w' r, notify_all (wt_port t) w = Done r w' →
     ∃ t', aw_waiters w' !! th = Some t' ∧ wt_awake t' = true).
Proof.
  intros Hr%winv_run Ht Haw. destruct (wi_waiters _ _ _ Hr th t Ht) as (p & Hp & Ha). split.
  - intros Hn now. apply (resume_must_sleep th t now w p); [done|done|].
    by destruct (Ha Haw) as [?|?].
  - intros w' r [= <- <-]. simpl. rewrite lookup_fmap, Ht. simpl. eexists. split; [done|].
    unfold wake_waiter. by rewrite bool_decide_true.
Qed.

(** A reply that is accepted is what [receive_reply] returns, once; a second reply,
    a cancellation and a second collection are refused.  A cancelled request answers
    [STATUS_CANCELLED] whenever it is asked for, and is not queued any more. *)
Theorem reply_roundtrip w h port p i :
  run w h → aw_store w.1 !! port = Some p →
  (∀ b p1, reply_locked i b p = Done (Ok tt) p1 →
     (∀ b', ∃ e, reply_locked i b' p1 = Done (Err e) p1) ∧
     cancel_locked i p1 = Done (Err STATUS_OBJECT_NAME_NOT_FOUND) p1 ∧
     ∀ now d, ∃ p2, reply_turn i now d p1 = Done (Ok (Some b)) p2 ∧
       reply_turn i now d p2 = Done (Err STATUS_REPLY_MESSAGE_MISMATCH) p2) ∧
  (∀ p1, cancel_locked i p = Done (Ok tt) p1 →
     (∀ b, ∃ e, reply_locked i b p1 = Done (Err e) p1) ∧
     (∀ now d, reply_turn i now d p1 = Done (Err STATUS_CANCELLED) p1) ∧
     ∀ m, m ∈ ps_queue p1 → am_id m ≠ i).
Proof.
  intros Hr Hp. pose proof (portinv_run w h port p Hr Hp) as [].
  assert (∀ b q, i ∉ ps_pending q → ∃ e, reply_locked i b q = Done (Err e) q) as Hrefuse.
  { intros b q Hi. unfold reply_locked. mrun. unfold id. destruct (ps_closed q); mrun; [by eexists|].
    destruct (_ <? _); mrun; [by eexists|]. rewrite bool_decide_true by done. mrun. by eexists. }
  split.
  - intros b p1. unfold reply_locked, count_reply. mrun. unfold id.
    destruct (ps_closed p) eqn:Ec; mrun; [done|]. destruct (_ <? _); mrun; [done|].
    destruct (_ || _) eqn:Eb; mrun; [done|]. bool_prop. destruct (_ <=? _); [|done]. intros [= <-].
    assert (i ∈ ps_pending p) as Hi by (by apply dec_stable).
    destruct (pv_pending0 i Hi) as (_ & _ & Hcan).
    assert (¬ (i ∈ ps_cancelled p)) as Hpc by (by rewrite (proj1 (pv_cancelled0 i))).
    split; [|split].
    + intros b'. apply Hrefuse. simpl. set_solver.
    + unfold cancel_locked. mrun. unfold id. simpl. rewrite bool_decide_true by set_solver. done.
    + intros now d. eexists. unfold reply_turn. mrun. unfold id. simpl. rewrite lookup_insert_eq. mrun.
      split; [done|]. simpl. rewrite lookup_delete_eq. mrun. rewrite bool_decide_false by done. mrun.
      rewrite Ec. mrun. by rewrite bool_decide_true by set_solver.
  - intros p1. unfold cancel_locked. mrun. unfold id.
    destruct (bool_decide (i ∉ ps_pending p)) eqn:Ei; mrun; [done|]. bool_prop. intros [= <-].
    assert (i ∈ ps_pending p) as Hi by (by apply dec_stable).
    destruct (pv_pending0 i Hi) as (_ & Hrep & _). destruct pv_replied0 as (_ & Hperm & _).
    assert (ps_replies p !! i = None) as Hn.
    { destruct (ps_replies p !! i) as [b|] eqn:E; [|done]. destruct Hrep.
      apply elem_of_map_to_list in E. apply list_elem_of_fmap. exists (i, b). split; [done|].
      rewrite Hperm. set_solver. }
    split_and!.
    + intros b. apply Hrefuse. simpl. set_solver.
    + intros now d. unfold reply_turn. mrun. unfold id. simpl. rewrite Hn. mrun.
      by rewrite bool_decide_true by set_solver.
    + intros m [? _]%list_elem_of_filter. done.
Qed.
End system.

(** ** A concrete run: a receiver falls asleep, then a request is sent *)

Definition demo_port : Alpc := state_of (create_port (lit " Server ") 4 16 new_alpc) new_alpc.
Definition demo_asleep : Alpc := state_of (receive 1000 7 1 0 100 demo_port) demo_port.
Definition demo_sent : Alpc := state_of (locked 1 (send_locked [1; 2] true) demo_asleep) demo_asleep.
Definition demo_message : AlpcMessage := {| am_id := 1; am_payload := [1; 2]; am_expects_reply := true |}.

Definition demo_quiet : Z → History := note 1 LQuiet (note 1 LQuiet (λ _, no_history)).
Definition demo_history : Z → History := note 1 (LSent demo_message) demo_quiet.

Lemma demo_run_asleep : run 1000 (demo_asleep, []) demo_quiet.
Proof.
  eapply run_step; [eapply run_step; [apply run_init|]|].
  - apply (st_create 1000 (lit " Server ") 4 16 new_alpc [] (Ok 1) demo_port 1); [lia|]. by apply run_eq.
  - apply (st_receive 1000 7 1 0 100 demo_port [] (Ok None) demo_asleep); [by vm_compute|]. by apply run_eq.
Qed.

Lemma demo_run_sent : run 1000 (demo_sent, [1]) demo_history.
Proof.
  eapply run_step; [apply demo_run_asleep|].
  apply (st_send 1000 1 [1; 2] true demo_asleep [] (Ok 1) demo_sent). by apply run_eq.
Qed.

Lemma demo_sent_port : ∃ p, aw_store demo_sent !! 1 = Some p ∧ ps_queue p = [demo_message].
Proof. eexists. split; [by vm_compute|by vm_compute]. Qed.

Lemma messages_exactly_once_witness :
  ∃ p, aw_store demo_sent !! 1 = Some p ∧
    h_sent (demo_history 1) ≡ₚ (h_delivered (demo_history 1) ++ ps_queue p ++ h_removed (demo_history 1) ++ h_dropped (demo_history 1)).
Proof.
  destruct demo_sent_port as (p & Hp & _). exists p. split; [done|].
  destruct (messages_exactly_once 1000 (demo_sent, [1]) demo_history 1 p demo_run_sent Hp) as (_ & H & _).
  exact H.
Defined.

Lemma requests_answered_once_witness :
  ∃ p, aw_store demo_sent !! 1 = Some p ∧
    h_replied (demo_history 1) ≡ₚ (h_answered (demo_history 1) ++ map_to_list (ps_replies p)).
Proof.
  destruct demo_sent_port as (p & Hp & _). exists p. split; [done|].
  destruct (requests_answered_once 1000 (demo_sent, [1]) demo_history 1 p demo_run_sent Hp) as (_ & H & _).
  exact H.
Defined.

Lemma no_lost_wakeup_witness :
  result_of (resume 7 50 demo_asleep) = Some (Ok None) ∧
  result_of (resume 7 100 demo_asleep) = Some (Err STATUS_TIMEOUT).
Proof.
  assert (∀ now, result_of (resume 7 now demo_asleep) =
    Some (if 100 <=? now then Err STATUS_TIMEOUT else Ok None)) as H.
  { apply (no_lost_wakeup 1000 demo_asleep [] demo_quiet 7
      {| wt_port := 1; wt_request := None; wt_deadline := 100; wt_awake := false |} demo_run_asleep).
    - by vm_compute.
    - done.
    - apply not_elem_of_nil. }
  split; apply H.
Defined.

Lemma reply_roundtrip_witness :
  ∃ p p1, aw_store demo_sent !! 1 = Some p ∧ reply_locked 1 [9] p = Done (Ok tt) p1 ∧
    cancel_locked 1 p1 = Done (Err STATUS_OBJECT_NAME_NOT_FOUND) p1.
Proof.
  assert (∃ p, aw_store demo_sent !! 1 = Some p ∧ ∃ p1, reply_locked 1 [9] p = Done (Ok tt) p1) as (p & Hp & p1 & Hr).
  { eexists. split; [by vm_compute|]. eexists. by vm_compute. }
  exists p, p1. split; [done|]. split; [done|].
  destruct (reply_roundtrip 1000 (demo_sent, [1]) demo_history 1 p 1 demo_run_sent Hp) as [H _].
  apply (H [9] p1 Hr).
Defined.

End Al.
