(* ===== verification/Irp.v ===== *)
(** * Interrupt request packets ([src/casak/io.rs], [IrpCore] and its data)

    Parameter blocks with their backing buffer, device flags and extensions, the
    stack locations of an IRP, one FIFO of pending IRPs per device, completion,
    cancellation and the completion walk.

    A completion routine is code outside the module, an [FnMut] closure: here an
    opaque identity.  What it returns may depend on everything it and the others
    were called with before: it is the parameter [routine_status] of the calls made
    so far, and each call is appended to [is_calls]. *)

From S2P Require Import Prelude Status.

(** ** Major functions *)

Inductive IrpMajorFunction : Type :=
| MjCreate | MjClose | MjRead | MjWrite | MjQueryInformation | MjSetInformation
| MjFileSystemControl | MjDeviceControl | MjPower | MjCleanup | MjShutdown | MjPnp.

#[export] Instance IrpMajorFunction_eq_dec : EqDecision IrpMajorFunction.
Proof. solve_decision. Defined.

Definition ALL : list IrpMajorFunction :=
  [MjCreate; MjClose; MjRead; MjWrite; MjQueryInformation; MjSetInformation;
   MjFileSystemControl; MjDeviceControl; MjPower; MjCleanup; MjShutdown; MjPnp].

Definition code (m : IrpMajorFunction) : Z :=
  match m with
  | MjCreate => 0x00
  | MjClose => 0x02
  | MjRead => 0x03
  | MjWrite => 0x04
  | MjQueryInformation => 0x05
  | MjSetInformation => 0x06
  | MjFileSystemControl => 0x0D
  | MjDeviceControl => 0x0E
  | MjShutdown => 0x10
  | MjCleanup => 0x12
  | MjPower => 0x16
  | MjPnp => 0x1B
  end.

(** [IrpMajorFunction::name] *)
Definition major_name (m : IrpMajorFunction) : str :=
  match m with
  | MjCreate => lit "IRP_MJ_CREATE"
  | MjClose => lit "IRP_MJ_CLOSE"
  | MjRead => lit "IRP_MJ_READ"
  | MjWrite => lit "IRP_MJ_WRITE"
  | MjQueryInformation => lit "IRP_MJ_QUERY_INFORMATION"
  | MjSetInformation => lit "IRP_MJ_SET_INFORMATION"
  | MjFileSystemControl => lit "IRP_MJ_FILE_SYSTEM_CONTROL"
  | MjDeviceControl => lit "IRP_MJ_DEVICE_CONTROL"
  | MjPower => lit "IRP_MJ_POWER"
  | MjCleanup => lit "IRP_MJ_CLEANUP"
  | MjShutdown => lit "IRP_MJ_SHUTDOWN"
  | MjPnp => lit "IRP_MJ_PNP"
  end.

Definition IRP_MN_START_DEVICE : Z := 0x00.
Definition IRP_MN_STOP_DEVICE : Z := 0x01.
Definition IRP_MN_REMOVE_DEVICE : Z := 0x02.
Definition IRP_MN_QUERY_CAPABILITIES : Z := 0x09.

(** ** Device flags: [DeviceFlags] is its bits *)

Definition NONE : Z := 0.
Definition BUFFERED_IO : Z := 0x00000004.
Definition EXCLUSIVE : Z := 0x00000008.
Definition DIRECT_IO : Z := 0x00000010.
Definition DEVICE_INITIALIZING : Z := 0x00000080.
Definition POWER_PAGABLE : Z := 0x00000200.
Definition POWER_INRUSH : Z := 0x00000400.

Definition flags_contains (flags flag : Z) : bool := Z.land flags flag =? flag.
Definition flags_is_empty (flags : Z) : bool := flags =? 0.
Definition flags_insert (flag flags : Z) : Z := Z.lor flags flag.
Definition flags_remove (flag flags : Z) : Z := Z.land flags (not_u32 flag).

(** ** Device extensions: [DeviceExtension] is its bytes *)

Definition extension_read (bytes : list Z) (offset length : Z) : result (list Z) :=
  match checked_add usize_max offset length with
  | None => Err STATUS_INVALID_ADDRESS
  | Some _ => match slice offset length bytes with
              | Some out => Ok out | None => Err STATUS_INVALID_ADDRESS end
  end.

(** The bytes after [write]. *)
Definition extension_write (bytes : list Z) (offset : Z) (data : list Z) : result (list Z) :=
  match checked_add usize_max offset (Z.of_nat (length data)) with
  | None => Err STATUS_INVALID_ADDRESS
  | Some _ => match splice offset data bytes with
              | Some out => Ok out | None => Err STATUS_INVALID_ADDRESS end
  end.

(** ** Parameter blocks *)

Record IrpParameterBlock := {
  pb_major : IrpMajorFunction;
  pb_minor : Z;
  pb_system_buffer : list Z;
  pb_length : Z;
  pb_user_address : Z;
  pb_required_alignment : Z;
}.

(** [IrpParameterBlock::new]; the zeroed buffer must be allocatable. *)
Definition new_block {S} (major : IrpMajorFunction) (minor length : Z) : M S IrpParameterBlock :=
  capacity length ;;;
  ret {| pb_major := major; pb_minor := minor; pb_system_buffer := replicate (Z.to_nat length) 0;
         pb_length := length; pb_user_address := 0; pb_required_alignment := 0 |}.

Definition with_buffer (bytes : list Z) (b : IrpParameterBlock) : IrpParameterBlock :=
  {| pb_major := pb_major b; pb_minor := pb_minor b; pb_system_buffer := bytes;
     pb_length := pb_length b; pb_user_address := pb_user_address b;
     pb_required_alignment := pb_required_alignment b |}.
Definition with_length (length : Z) (b : IrpParameterBlock) : IrpParameterBlock :=
  {| pb_major := pb_major b; pb_minor := pb_minor b; pb_system_buffer := pb_system_buffer b;
     pb_length := length; pb_user_address := pb_user_address b;
     pb_required_alignment := pb_required_alignment b |}.
Definition with_user_address (address alignment : Z) (b : IrpParameterBlock) : IrpParameterBlock :=
  {| pb_major := pb_major b; pb_minor := pb_minor b; pb_system_buffer := pb_system_buffer b;
     pb_length := pb_length b; pb_user_address := address; pb_required_alignment := alignment |}.

(** [usize::is_power_of_two] *)
Definition is_power_of_two (x : Z) : bool := (0 <? x) && (Z.land x (x - 1) =? 0).

Definition buffer_len (b : IrpParameterBlock) : Z := Z.of_nat (length (pb_system_buffer b)).

Definition validate (b : IrpParameterBlock) : result unit :=
  if negb (pb_required_alignment b =? 0) && negb (is_power_of_two (pb_required_alignment b))
  then Err STATUS_INVALID_PARAMETER
  else if buffer_len b <? pb_length b then Err STATUS_INVALID_BUFFER_SIZE
  else if negb (pb_user_address b =? 0) && (1 <? pb_required_alignment b)
          && negb (pb_user_address b mod pb_required_alignment b =? 0)
  then Err STATUS_DATATYPE_MISALIGNMENT
  else Ok tt.

Definition block_read (b : IrpParameterBlock) (offset length : Z) : result (list Z) :=
  match checked_add usize_max offset length with
  | None => Err STATUS_INVALID_PARAMETER
  | Some end_ =>
      if pb_length b <? end_ then Err STATUS_INVALID_BUFFER_SIZE else
      match slice offset length (pb_system_buffer b) with
      | Some out => Ok out | None => Err STATUS_INVALID_PARAMETER end
  end.

(** The block after [write]. *)
Definition block_write (b : IrpParameterBlock) (offset : Z) (data : list Z)
    : result IrpParameterBlock :=
  match checked_add usize_max offset (Z.of_nat (length data)) with
  | None => Err STATUS_INVALID_PARAMETER
  | Some end_ =>
      if pb_length b <? end_ then Err STATUS_INVALID_BUFFER_SIZE else
      match splice offset data (pb_system_buffer b) with
      | Some out => Ok (with_buffer out b) | None => Err STATUS_INVALID_PARAMETER end
  end.

(** ** IRPs *)

Inductive StackParameters : Type :=
| SpNone
| SpReadWrite (length byte_offset : Z)
| SpDeviceControl (io_control_code input_length output_length output_offset : Z)
| SpCreate (desired_access options : Z)
| SpClose.

Record IrpCompletion := { ic_irp : Z; ic_device : Z; ic_status : Z; ic_information : Z }.

Record IoStackLocation := {
  sl_device : Z;
  sl_major : IrpMajorFunction;
  sl_minor : Z;
  sl_parameters : StackParameters;
  sl_completion : option Z;
}.

Record StackLocationView := {
  sv_device : Z;
  sv_major : IrpMajorFunction;
  sv_minor : Z;
  sv_parameters : StackParameters;
  sv_has_completion_routine : bool;
}.

(** [IoStackLocation::view] *)
Definition view (l : IoStackLocation) : StackLocationView :=
  {| sv_device := sl_device l; sv_major := sl_major l; sv_minor := sl_minor l;
     sv_parameters := sl_parameters l;
     sv_has_completion_routine := match sl_completion l with Some _ => true | None => false end |}.

Record Irp := {
  ir_parameters : IrpParameterBlock;
  ir_stack : list IoStackLocation;
  ir_status : Z;
  ir_information : Z;
  ir_pending : bool;
  ir_pending_device : option Z;
  ir_cancelled : bool;
  ir_completed : bool;
}.

Record IrpState := {
  is_irps : gmap Z Irp;
  is_queues : gmap Z (list Z);
  is_next_irp : Z;
  is_completed : Z;
  is_cancelled : Z;
  is_calls : list (Z * IrpCompletion);
}.

(** [IrpCore::new] *)
Definition new_core : IrpState :=
  {| is_irps := ∅; is_queues := ∅; is_next_irp := 1; is_completed := 0; is_cancelled := 0;
     is_calls := [] |}.

(** ** Field updates *)

(** [status], [pending], [pending_device], [cancelled], [completed] *)
Definition ir_move (status : Z) (pending : bool) (device : option Z) (cancelled completed : bool)
    (e : Irp) : Irp :=
  {| ir_parameters := ir_parameters e; ir_stack := ir_stack e; ir_status := status;
     ir_information := ir_information e; ir_pending := pending; ir_pending_device := device;
     ir_cancelled := cancelled; ir_completed := completed |}.
Definition ir_set_information (information : Z) (e : Irp) : Irp :=
  {| ir_parameters := ir_parameters e; ir_stack := ir_stack e; ir_status := ir_status e;
     ir_information := information; ir_pending := ir_pending e;
     ir_pending_device := ir_pending_device e; ir_cancelled := ir_cancelled e;
     ir_completed := ir_completed e |}.
Definition ir_set_stack (stack : list IoStackLocation) (e : Irp) : Irp :=
  {| ir_parameters := ir_parameters e; ir_stack := stack; ir_status := ir_status e;
     ir_information := ir_information e; ir_pending := ir_pending e;
     ir_pending_device := ir_pending_device e; ir_cancelled := ir_cancelled e;
     ir_completed := ir_completed e |}.

Definition is_update (irps : gmap Z Irp) (queues : gmap Z (list Z)) (s : IrpState) : IrpState :=
  {| is_irps := irps; is_queues := queues; is_next_irp := is_next_irp s;
     is_completed := is_completed s; is_cancelled := is_cancelled s; is_calls := is_calls s |}.
Definition is_alter (f : Irp → Irp) (irp : Z) (s : IrpState) : IrpState :=
  is_update (alter f irp (is_irps s)) (is_queues s) s.
Definition is_set_queues (queues : gmap Z (list Z)) (s : IrpState) : IrpState :=
  is_update (is_irps s) queues s.
Definition is_set_counters (next completed cancelled : Z) (s : IrpState) : IrpState :=
  {| is_irps := is_irps s; is_queues := is_queues s; is_next_irp := next;
     is_completed := completed; is_cancelled := cancelled; is_calls := is_calls s |}.
Definition is_log (calls : list (Z * IrpCompletion)) (s : IrpState) : IrpState :=
  {| is_irps := is_irps s; is_queues := is_queues s; is_next_irp := is_next_irp s;
     is_completed := is_completed s; is_cancelled := is_cancelled s; is_calls := calls |}.

(** ** The core: each method is one section of its mutex *)

Definition irp_at (irp : Z) : M IrpState Irp := λ s,
  ok_or (is_irps s !! irp) STATUS_INVALID_HANDLE s.

(** [IrpCore::insert] *)
Definition insert_irp (parameters : IrpParameterBlock) (stack : list IoStackLocation)
    : M IrpState Z :=
  id <- gets is_next_irp ;;
  next <- add_at u64_max id 1 ;;
  modify (λ s, is_set_counters next (is_completed s) (is_cancelled s) s) ;;;
  modify (λ s, is_update (<[id := {| ir_parameters := parameters; ir_stack := stack;
    ir_status := STATUS_PENDING; ir_information := 0; ir_pending := false;
    ir_pending_device := None; ir_cancelled := false; ir_completed := false |}]> (is_irps s))
    (is_queues s) s) ;;;
  ret id.

(** [with_irp] and the accessors that use it *)
Definition with_irp {T} (irp : Z) (read : Irp → T) : M IrpState T :=
  e <- irp_at irp ;; ret (read e).

Definition status (irp : Z) : M IrpState Z := with_irp irp ir_status.
Definition information (irp : Z) : M IrpState Z := with_irp irp ir_information.
Definition parameters (irp : Z) : M IrpState IrpParameterBlock := with_irp irp ir_parameters.
Definition stack_view (irp : Z) : M IrpState (list StackLocationView) :=
  with_irp irp (λ e, view <$> ir_stack e).
Definition is_pending (irp : Z) : M IrpState bool := with_irp irp ir_pending.
Definition irp_is_completed (irp : Z) : M IrpState bool := with_irp irp ir_completed.
Definition irp_is_cancelled (irp : Z) : M IrpState bool := with_irp irp ir_cancelled.
Definition pending_device (irp : Z) : M IrpState (option Z) := with_irp irp ir_pending_device.

Definition core_len (s : IrpState) : Z := Z.of_nat (size (is_irps s)).
Definition core_is_empty (s : IrpState) : bool := core_len s =? 0.
Definition core_contains (s : IrpState) (irp : Z) : bool := bool_decide (is_Some (is_irps s !! irp)).
Definition core_pending_count (s : IrpState) : Z :=
  map_sum (λ _ q, Z.of_nat (length q)) (is_queues s).
Definition pending_irps (s : IrpState) (device : Z) : list Z := default [] (is_queues s !! device).

(** [IrpCore::queue] *)
Definition queue_irp_core (device irp : Z) : M IrpState unit :=
  e <- irp_at irp ;;
  fail_if (ir_completed e) STATUS_UNSUCCESSFUL ;;;
  fail_if (ir_pending e) STATUS_INVALID_DEVICE_REQUEST ;;;
  fail_if (negb (existsb (λ l, sl_device l =? device) (ir_stack e))) STATUS_INVALID_PARAMETER ;;;
  modify (λ s, is_set_queues
    (<[device := default [] (is_queues s !! device) ++ [irp]]> (is_queues s)) s) ;;;
  _ <- irp_at irp ;;
  modify (is_alter (λ e, ir_move STATUS_PENDING true (Some device) (ir_cancelled e)
                           (ir_completed e) e) irp).

(** [queue.retain(|queued| queued != irp)] on the queue the IRP was on *)
Definition unqueue (device : option Z) (irp : Z) : M IrpState unit :=
  modify (λ s, match device with
    | Some d => is_set_queues (alter (filter (λ q, q ≠ irp)) d (is_queues s)) s
    | None => s
    end).

Section routines.
(** The status a routine returns, given the calls made before. *)
Variable routine_status : list (Z * IrpCompletion) → Z → IrpCompletion → Z.

(** The walk over the stack locations: the running status, whether a routine
    stalled it, and the calls made. *)
Fixpoint walk (calls : list (Z * IrpCompletion)) (irp information status : Z)
    (stack : list IoStackLocation) : Z * bool * list (Z * IrpCompletion) :=
  match stack with
  | [] => (status, false, calls)
  | l :: stack =>
      match sl_completion l with
      | None => walk calls irp information status stack
      | Some routine =>
          let c := {| ic_irp := irp; ic_device := sl_device l; ic_status := status;
                      ic_information := information |} in
          let next := routine_status calls routine c in
          if next =? STATUS_MORE_PROCESSING_REQUIRED
          then (next, true, calls ++ [(routine, c)])
          else walk (calls ++ [(routine, c)]) irp information next stack
      end
  end.

(** [None] when a routine stalled the walk, or there is no such IRP. *)
Definition run_completion (irp : Z) : M IrpState (option Z) := λ s,
  match is_irps s !! irp with
  | None => Done (Ok None) s
  | Some e =>
      let '(status, stalled, calls) :=
        walk (is_calls s) irp (ir_information e) (ir_status e) (ir_stack e) in
      let s := is_log calls s in
      if stalled : bool
      then Done (Ok None) (is_alter (λ e, ir_move status true None (ir_cancelled e) false e) irp s)
      else Done (Ok (Some status))
             (is_alter (λ e, ir_move status false None (ir_cancelled e) true e) irp s)
  end.

(** [state.completed += 1] and [state.cancelled += 1] *)
Definition count_completed : M IrpState unit :=
  s <- gets (λ s, s) ;; n <- add_at u64_max (is_completed s) 1 ;;
  modify (λ s, is_set_counters (is_next_irp s) n (is_cancelled s) s).
Definition count_cancelled : M IrpState unit :=
  s <- gets (λ s, s) ;; n <- add_at u64_max (is_cancelled s) 1 ;;
  modify (λ s, is_set_counters (is_next_irp s) (is_completed s) n s).

(** [IrpCore::complete] *)
Definition complete (irp st info : Z) : M IrpState Z :=
  e <- irp_at irp ;;
  fail_if (ir_completed e) STATUS_UNSUCCESSFUL ;;;
  modify (is_alter (λ e, ir_set_information info
    (ir_move st false None false (ir_completed e) e)) irp) ;;;
  unqueue (ir_pending_device e) irp ;;;
  o <- run_completion irp ;;
  match o with
  | Some final => count_completed ;;; ret final
  | None => ret STATUS_MORE_PROCESSING_REQUIRED
  end.

(** [IrpCore::cancel] *)
Definition cancel (irp : Z) : M IrpState Z :=
  e <- irp_at irp ;;
  fail_if (ir_completed e) STATUS_UNSUCCESSFUL ;;;
  modify (is_alter (λ e, ir_move STATUS_CANCELLED false None true (ir_completed e) e) irp) ;;;
  unqueue (ir_pending_device e) irp ;;;
  o <- run_completion irp ;;
  final <- (match o with
            | Some final => ret final
            | None =>
                modify (is_alter (ir_move STATUS_CANCELLED false None true true) irp) ;;;
                ret STATUS_CANCELLED
            end) ;;
  count_cancelled ;;;
  count_completed ;;;
  ret final.

(** [iter_mut().find(|location| location.device == device)] *)
Definition update_location (device : Z) (f : IoStackLocation → IoStackLocation)
    (stack : list IoStackLocation) : option (list IoStackLocation) :=
  match position (λ l, sl_device l =? device) stack with
  | Some i => Some (alter f i stack)
  | None => None
  end.

Definition set_completion_routine (irp device routine : Z) : M IrpState unit :=
  e <- irp_at irp ;;
  fail_if (ir_completed e) STATUS_UNSUCCESSFUL ;;;
  stack <- ok_or (update_location device (λ l, {| sl_device := sl_device l; sl_major := sl_major l;
    sl_minor := sl_minor l; sl_parameters := sl_parameters l; sl_completion := Some routine |})
    (ir_stack e)) STATUS_NOT_FOUND ;;
  modify (is_alter (ir_set_stack stack) irp).

Definition set_stack_parameters (irp device : Z) (p : StackParameters) : M IrpState unit :=
  e <- irp_at irp ;;
  stack <- ok_or (update_location device (λ l, {| sl_device := sl_device l; sl_major := sl_major l;
    sl_minor := sl_minor l; sl_parameters := p; sl_completion := sl_completion l |})
    (ir_stack e)) STATUS_NOT_FOUND ;;
  modify (is_alter (ir_set_stack stack) irp).

(** The first section of [cancel_pending_for_device]: the queue is taken out. *)
Definition take_queue (device : Z) : M IrpState (list Z) :=
  s <- gets (λ s, s) ;;
  modify (is_set_queues (delete device (is_queues s))) ;;;
  ret (default [] (is_queues s !! device)).

(** [let _ = self.cancel(irp)] *)
Definition cancel_quietly (irp : Z) : M IrpState unit := λ s,
  match cancel irp s with
  | Done _ s' => Done (Ok tt) s'
  | Panic => Panic
  end.

Definition cancel_pending_for_device (device : Z) : M IrpState (list Z) :=
  pending <- take_queue device ;;
  for_each pending cancel_quietly ;;;
  ret pending.
End routines.
