(* ===== verification/IrpFacts.v ===== *)
(** * Correctness of the IRP core

    Every IRP completes at most once, whoever completes or cancels it; the device
    queues and the IRPs agree in every interleaving of the core's sections; the
    completion walk runs the routines in stack order; buffer accesses are bounded. *)

From S2P Require Import Prelude Status Irp.

Module Ir.

(** ** Buffers *)

Lemma slice_None start n bytes :
  0 ≤ start → 0 ≤ n → slice start n bytes = None ↔ Z.of_nat (length bytes) < start + n.
Proof.
  intros Hs Hn. unfold slice. rewrite !(proj2 (Z.leb_le _ _)) by lia. simpl.
  destruct (_ <=? _) eqn:E; bool_prop; split; intros; (done || lia).
Qed.

Lemma splice_None start data bytes :
  0 ≤ start → splice start data bytes = None ↔
  Z.of_nat (length bytes) < start + Z.of_nat (length data).
Proof.
  intros Hs. unfold splice. rewrite (proj2 (Z.leb_le _ _)) by lia. simpl.
  destruct (_ <=? _) eqn:E; bool_prop; split; intros; (done || lia).
Qed.

(** ** The completion walk *)

Section walk.
Variable routine_status : list (Z * IrpCompletion) → Z → IrpCompletion → Z.

(** The routines of a stack, bottom first, with the devices of their locations. *)
Definition routines (stack : list IoStackLocation) : list (Z * Z) :=
  omap (λ l, (λ r, (sl_device l, r)) <$> sl_completion l) stack.

(** What the [k]-th call of [new], made after [calls], returned. *)
Definition returned (calls new : list (Z * IrpCompletion)) (k : nat) : option Z :=
  (λ c, routine_status (calls ++ take k new) c.1 c.2) <$> new !! k.

(** The status that reaches the [k]-th call. *)
Definition running (calls new : list (Z * IrpCompletion)) (seed : Z) (k : nat) : Z :=
  match k with O => seed | S k => default seed (returned calls new k) end.

Lemma returned_cons calls c new k :
  returned calls (c :: new) (S k) = returned (calls ++ [c]) new k.
Proof. unfold returned. simpl. by rewrite <-app_assoc. Qed.

Lemma running_cons calls c new seed k :
  (k ≤ length new)%nat →
  running calls (c :: new) seed (S k) =
  running (calls ++ [c]) new (routine_status calls c.1 c.2) k.
Proof.
  intros Hk. destruct k as [|k]; simpl.
  - unfold returned. simpl. by rewrite app_nil_r.
  - rewrite returned_cons. unfold returned.
    destruct (new !! k) eqn:E; [done|]. apply lookup_ge_None in E. lia.
Qed.

(** The walk in closed form. *)
Record walked (calls new : list (Z * IrpCompletion)) (irp info seed : Z)
    (rs : list (Z * Z)) (final : Z) (stalled : bool) : Prop := {
  wk_calls : ∀ k r c, new !! k = Some (r, c) →
    rs !! k = Some (ic_device c, r) ∧
    c = {| ic_irp := irp; ic_device := ic_device c; ic_status := running calls new seed k;
           ic_information := info |};
  wk_final : final = running calls new seed (length new);
  wk_goes_on : ∀ k, (S k < length new)%nat → returned calls new k ≠ Some STATUS_MORE_PROCESSING_REQUIRED;
  wk_stalled : stalled = true → new ≠ [] ∧ final = STATUS_MORE_PROCESSING_REQUIRED;
  wk_through : stalled = false → length new = length rs ∧
    (new ≠ [] → final ≠ STATUS_MORE_PROCESSING_REQUIRED);
}.

Lemma walk_walked stack calls irp info seed final stalled calls' :
  walk routine_status calls irp info seed stack = (final, stalled, calls') →
  ∃ new, calls' = calls ++ new ∧ walked calls new irp info seed (routines stack) final stalled.
Proof.
  revert calls seed. induction stack as [|l stack IH]; intros calls seed; simpl.
  { intros [= <- <- <-]. exists []. rewrite app_nil_r. split; [done|]. constructor; simpl; try done. }
  destruct (sl_completion l) as [r|] eqn:El; simpl; [|apply IH].
  set (c := {| ic_irp := irp; ic_device := sl_device l; ic_status := seed; ic_information := info |}).
  destruct (_ =? STATUS_MORE_PROCESSING_REQUIRED) eqn:Em.
  - intros [= <- <- <-]. apply Z.eqb_eq in Em. exists [(r, c)]. split; [done|].
    constructor; simpl; try done.
    + intros [|k] r' c' Hk; simplify_eq/=; done.
    + unfold returned. simpl. by rewrite app_nil_r.
    + intros k. lia.
  - intros H. apply Z.eqb_neq in Em. destruct (IH _ _ H) as (new & -> & []).
    exists ((r, c) :: new). split; [by rewrite <-app_assoc|]. constructor.
    + intros [|k] r' c' Hk; [simplify_eq/=; done|]. simpl in Hk. apply wk_calls0 in Hk as Hc.
      destruct Hc as [Hr Hc]. split; [done|].
      rewrite running_cons by (apply lookup_lt_Some in Hk; lia). exact Hc.
    + rewrite wk_final0. symmetry. apply running_cons. lia.
    + intros [|k] Hk; simpl in Hk.
      * unfold returned. simpl. rewrite app_nil_r. intros [= E]. by apply Em.
      * rewrite returned_cons. apply wk_goes_on0. lia.
    + intros Hs. split; [done|]. by apply wk_stalled0.
    + intros Hs. destruct (wk_through0 Hs) as [Hl Hn]. split; [simpl; lia|]. intros _.
      destruct new as [|c' new]; [|by apply Hn]. rewrite wk_final0. simpl. exact Em.
Qed.
End walk.

(** ** The operations in closed form *)

Section core.
Variable routine_status : list (Z * IrpCompletion) → Z → IrpCompletion → Z.
Local Abbreviation walk := (walk routine_status).

(** The queues once an IRP was taken off the one it was on. *)
Definition unqueued (device : option Z) (irp : Z) (queues : gmap Z (list Z)) : gmap Z (list Z) :=
  match device with Some d => alter (filter (λ q, q ≠ irp)) d queues | None => queues end.

(** The state after one IRP became [e] and left its queue. *)
Definition settled (irp : Z) (e : Irp) (device : option Z) (calls : list (Z * IrpCompletion))
    (completed cancelled : Z) (s : IrpState) : IrpState :=
  {| is_irps := <[irp := e]> (is_irps s); is_queues := unqueued device irp (is_queues s);
     is_next_irp := is_next_irp s; is_completed := completed; is_cancelled := cancelled;
     is_calls := calls |}.

Lemma unqueue_run device irp s :
  unqueue device irp s = Done (Ok tt) (is_set_queues (unqueued device irp (is_queues s)) s).
Proof. unfold unqueue, unqueued. simpl. destruct device; [done|]. by destruct s. Qed.

Lemma complete_run irp st info s e :
  is_irps s !! irp = Some e → ir_completed e = false →
  complete routine_status irp st info s =
    let '(final, stalled, calls) := walk (is_calls s) irp info st (ir_stack e) in
    let e' := ir_set_information info (ir_move final stalled None false (negb stalled) e) in
    if stalled : bool
    then Done (Ok STATUS_MORE_PROCESSING_REQUIRED)
           (settled irp e' (ir_pending_device e) calls (is_completed s) (is_cancelled s) s)
    else if is_completed s + 1 <=? u64_max
         then Done (Ok final)
           (settled irp e' (ir_pending_device e) calls (is_completed s + 1) (is_cancelled s) s)
         else Panic.
Proof.
  intros He Hc. unfold complete, irp_at, bind at 1. mrun. rewrite He. mrun. rewrite Hc. mrun.
  rewrite unqueue_run. mrun. unfold run_completion.
  cbn [is_alter is_update is_set_queues is_irps is_queues is_calls is_next_irp is_completed is_cancelled].
  rewrite lookup_alter_eq, He. cbn [fmap option_fmap option_map].
  cbn [ir_set_information ir_move ir_information ir_status ir_stack].
  destruct (walk _ _ _ _ _) as [[final stalled] calls]. unfold settled.
  destruct stalled; mrun; unfold count_completed; mrun;
    [|cbn [is_log is_alter is_update is_completed]; destruct (_ <=? _); [|done]];
    unfold is_alter, is_update, is_log, is_set_counters; simpl; do 2 f_equal;
    (erewrite alter_twice by (intros; reflexivity); rewrite (alter_is_insert _ _ _ e He);
     do 2 f_equal; unfold ir_move, ir_set_information; simpl; by rewrite ?Hc).
Qed.

Lemma cancel_run irp s e :
  is_irps s !! irp = Some e → ir_completed e = false →
  cancel routine_status irp s =
    let '(final, stalled, calls) :=
      walk (is_calls s) irp (ir_information e) STATUS_CANCELLED (ir_stack e) in
    let status := if stalled : bool then STATUS_CANCELLED else final in
    if (is_cancelled s + 1 <=? u64_max) && (is_completed s + 1 <=? u64_max)
    then Done (Ok status)
           (settled irp (ir_move status false None true true e) (ir_pending_device e) calls
              (is_completed s + 1) (is_cancelled s + 1) s)
    else Panic.
Proof.
  intros He Hc. unfold cancel, irp_at, bind at 1. mrun. rewrite He. mrun. rewrite Hc. mrun.
  rewrite unqueue_run. mrun. unfold run_completion.
  cbn [is_alter is_update is_set_queues is_irps is_queues is_calls is_next_irp is_completed is_cancelled].
  rewrite lookup_alter_eq, He. cbn [fmap option_fmap option_map].
  cbn [ir_set_information ir_move ir_information ir_status ir_stack].
  destruct (walk _ _ _ _ _) as [[final stalled] calls]. unfold settled.
  destruct stalled; mrun; unfold count_completed, count_cancelled; mrun;
    cbn [is_log is_alter is_update is_set_queues is_completed is_cancelled is_set_counters];
    (destruct (is_cancelled s + 1 <=? u64_max); mrun; [|done]);
    cbn [is_log is_alter is_update is_set_queues is_completed is_cancelled is_set_counters];
    (destruct (is_completed s + 1 <=? u64_max); mrun; [|done]);
    unfold is_alter, is_update, is_log, is_set_counters; simpl; do 2 f_equal;
    repeat (erewrite alter_twice by (intros; reflexivity)); rewrite (alter_is_insert _ _ _ e He);
    do 2 f_equal; unfold ir_move; simpl; by rewrite ?Hc.
Qed.

Lemma complete_refused irp st info s :
  (∀ e, is_irps s !! irp = Some e → ir_completed e = true) →
  ∃ e, complete routine_status irp st info s = Done (Err e) s.
Proof.
  intros Hc. unfold complete, irp_at. mrun. destruct (is_irps s !! irp) as [e|]; mrun; [|by eexists].
  rewrite (Hc e) by done. mrun. by eexists.
Qed.

Lemma cancel_refused irp s :
  (∀ e, is_irps s !! irp = Some e → ir_completed e = true) →
  ∃ e, cancel routine_status irp s = Done (Err e) s.
Proof.
  intros Hc. unfold cancel, irp_at. mrun. destruct (is_irps s !! irp) as [e|]; mrun; [|by eexists].
  rewrite (Hc e) by done. mrun. by eexists.
Qed.

(** ** Interleavings of the core's sections

    [dr] holds the IRPs [cancel_pending_for_device] took out of a queue and has not
    cancelled yet: another thread may run any section in between. *)

(** Every location of a stack carries the functions of the parameter block. *)
Definition well_typed (e : Irp) : Prop :=
  Forall (λ l, sl_major l = pb_major (ir_parameters e) ∧ sl_minor l = pb_minor (ir_parameters e))
    (ir_stack e).

Definition devices_of (e : Irp) : list Z := sl_device <$> ir_stack e.

Definition queue_at (s : IrpState) (d : Z) : list Z := default [] (is_queues s !! d).

Record EntryInv (s : IrpState) (dr : list Z) (i : Z) (e : Irp) : Prop := {
  ei_completed : ir_completed e = true → ir_pending e = false ∧ ir_pending_device e = None;
  ei_device : ∀ d, ir_pending_device e = Some d →
    ir_pending e = true ∧ d ∈ devices_of e ∧ (i ∈ queue_at s d ∨ i ∈ dr);
  ei_cancelled : ir_cancelled e = true → ir_completed e = true;
  ei_typed : well_typed e;
}.

Definition completed_weight (_ : Z) (e : Irp) : Z := if ir_completed e then 1 else 0.
Definition cancelled_weight (_ : Z) (e : Irp) : Z := if ir_cancelled e then 1 else 0.

Record RInv (s : IrpState) (dr : list Z) : Prop := {
  ri_ids : ∀ i, is_Some (is_irps s !! i) → i < is_next_irp s;
  ri_entries : ∀ i e, is_irps s !! i = Some e → EntryInv s dr i e;
  ri_queues : ∀ d, NoDup (queue_at s d) ∧ ∀ i, i ∈ queue_at s d →
    ∃ e, is_irps s !! i = Some e ∧ ir_pending_device e = Some d;
  ri_completed : is_completed s = map_sum completed_weight (is_irps s);
  ri_cancelled : is_cancelled s = map_sum cancelled_weight (is_irps s);
}.

Lemma rinv_new : RInv new_core [].
Proof.
  constructor; simpl; try done.
  - intros i [? H]. by rewrite lookup_empty in H.
  - intros d. unfold queue_at. simpl. rewrite lookup_empty. split; [apply NoDup_nil_2|].
    intros i Hi. by apply not_elem_of_nil in Hi.
Qed.

Lemma queue_at_unqueued s device irp d e c1 c2 calls :
  queue_at (settled irp e device calls c1 c2 s) d =
  if decide (device = Some d) then filter (λ q, q ≠ irp) (queue_at s d) else queue_at s d.
Proof.
  unfold queue_at, settled, unqueued. simpl. destruct device as [d0|]; [|done].
  destruct (decide (d0 = d)) as [->|Hne].
  - rewrite lookup_alter_eq, decide_True by done. by destruct (is_queues s !! d).
  - by rewrite lookup_alter_ne, decide_False by congruence.
Qed.

(** One IRP that was not completed settles. *)
Lemma rinv_settled s dr dr' irp e e' calls c1 c2 :
  RInv s dr → is_irps s !! irp = Some e → ir_completed e = false →
  ir_pending_device e' = None → ir_stack e' = ir_stack e → ir_parameters e' = ir_parameters e →
  (ir_completed e' = true → ir_pending e' = false) →
  (ir_cancelled e' = true → ir_completed e' = true) →
  c1 = is_completed s + completed_weight irp e' → c2 = is_cancelled s + cancelled_weight irp e' →
  (∀ j, j ∈ dr → j ≠ irp → j ∈ dr') →
  RInv (settled irp e' (ir_pending_device e) calls c1 c2 s) dr'.
Proof.
  intros [] He Hc Hd Hst Hpar Hcp Hcan -> -> Hdr.
  assert (ir_cancelled e = false) as Hnc.
  { destruct (ir_cancelled e) eqn:E; [|done]. apply (ei_cancelled _ _ _ _ (ri_entries0 _ _ He)) in E. congruence. }
  constructor.
  - intros i Hi. simpl in *. apply lookup_insert_is_Some in Hi as [<-|[_ Hi]]; eauto.
  - intros i x. simpl. rewrite lookup_insert_Some. intros [[<- <-]|[Hne Hx]].
    + constructor; [by intros ->%Hcp|rewrite Hd; done|done|].
      unfold well_typed. rewrite Hst, Hpar. by eapply ri_entries0.
    + destruct (ri_entries0 _ _ Hx). constructor; try done.
      intros d Hxd. destruct (ei_device0 d Hxd) as (? & ? & Hin). split_and!; [done|done|].
      rewrite queue_at_unqueued. destruct Hin as [Hin|Hin]; [left|right; auto].
      case_decide; [|done]. by apply list_elem_of_filter.
  - intros d. rewrite queue_at_unqueued. destruct (ri_queues0 d) as [Hnd Hq]. split.
    + case_decide; [by apply NoDup_filter|done].
    + intros i Hi. assert (i ∈ queue_at s d) as Hiq by (case_decide; [by apply list_elem_of_filter in Hi as [_ Hi]|done]).
      destruct (Hq i Hiq) as (x & Hx & Hxd). simpl. destruct (decide (i = irp)) as [->|Hne].
      * exfalso. assert (x = e) as -> by congruence. rewrite decide_True in Hi by done.
        by apply list_elem_of_filter in Hi as [? _].
      * rewrite lookup_insert_ne by done. eauto.
  - simpl. rewrite (map_sum_update _ _ irp e), ri_completed0 by done. 
    assert (completed_weight irp e = 0) as -> by (unfold completed_weight; by rewrite Hc). lia.
  - simpl. rewrite (map_sum_update _ _ irp e), ri_cancelled0 by done. 
    assert (cancelled_weight irp e = 0) as -> by (unfold cancelled_weight; by rewrite Hnc). lia.
Qed.

(** A completed IRP needs no cancelling. *)
Lemma rinv_drained s dr dr' irp :
  RInv s dr → (∀ e, is_irps s !! irp = Some e → ir_completed e = true) →
  (∀ j, j ∈ dr → j ≠ irp → j ∈ dr') → RInv s dr'.
Proof.
  intros [] Hc Hdr. constructor; try done. intros i e He. destruct (ri_entries0 _ _ He).
  constructor; try done. intros d Hd. destruct (ei_device0 d Hd) as (? & ? & [?|Hin]); [by split_and!; auto|].
  split_and!; [done|done|]. right. apply Hdr; [done|]. intros ->.
  destruct (ei_completed0 (Hc e He)). congruence.
Qed.

Lemma rinv_complete irp st info s dr r s' :
  RInv s dr → complete routine_status irp st info s = Done r s' → RInv s' dr.
Proof.
  intros Hs H. destruct (is_irps s !! irp) as [e|] eqn:He.
  2: { destruct (complete_refused irp st info s) as [x E]; [by rewrite He; intros ? [= <-]|].
       rewrite E in H. by simplify_eq. }
  destruct (ir_completed e) eqn:Hc.
  { destruct (complete_refused irp st info s) as [x E]; [by rewrite He; intros ? [= <-]|].
       rewrite E in H. by simplify_eq. }
  rewrite (complete_run _ _ _ _ _ He Hc) in H. cbv zeta in H.
  destruct (walk _ _ _ _ _) as [[final stalled] calls].
  destruct stalled; [|destruct (_ <=? _); [|done]]; simplify_eq;
    (eapply rinv_settled; [done|done|done|..]; simpl; try done; unfold completed_weight, cancelled_weight; simpl; lia).
Qed.

Lemma rinv_cancel irp s dr dr' r s' :
  RInv s dr → cancel routine_status irp s = Done r s' → (∀ j, j ∈ dr → j ≠ irp → j ∈ dr') →
  RInv s' dr'.
Proof.
  intros Hs H Hdr. destruct (is_irps s !! irp) as [e|] eqn:He.
  2: { destruct (cancel_refused irp s) as [x E]; [by rewrite He; intros ? [= <-]|].
       rewrite E in H. simplify_eq.
       eapply rinv_drained; [done| |done]. by rewrite He; intros ? [= <-]. }
  destruct (ir_completed e) eqn:Hc.
  { destruct (cancel_refused irp s) as [x E]; [by rewrite He; intros ? [= <-]|].
       rewrite E in H. simplify_eq.
    eapply rinv_drained; [done| |done]. by rewrite He; intros ? [= <-]. }
  rewrite (cancel_run _ _ _ He Hc) in H. cbv zeta in H.
  destruct (walk _ _ _ _ _) as [[final stalled] calls].
  destruct (_ && _); [|done]. simplify_eq.
  eapply rinv_settled; [done|done|done|..]; simpl; try done; unfold completed_weight, cancelled_weight; simpl; lia.
Qed.

(** A change of the stack locations that keeps their devices and functions. *)
Lemma rinv_stack irp stack s dr e :
  RInv s dr → is_irps s !! irp = Some e →
  Forall2 (λ l l', sl_device l' = sl_device l ∧ sl_major l' = sl_major l ∧ sl_minor l' = sl_minor l)
    (ir_stack e) stack →
  RInv (is_alter (ir_set_stack stack) irp s) dr.
Proof.
  intros [] He Hst. unfold is_alter, is_update. rewrite (alter_is_insert _ _ _ e He).
  assert (sl_device <$> stack = devices_of e) as Hdev.
  { unfold devices_of. revert Hst. generalize (ir_stack e). intros l Hl.
    induction Hl as [|a b l l' (E & _) _ IH]; [done|]. by rewrite !fmap_cons, E, IH. }
  constructor; simpl.
  - intros i [<-|[_ Hi]]%lookup_insert_is_Some; eauto.
  - intros i x. rewrite lookup_insert_Some. intros [[<- <-]|[Hne Hx]]; [|by destruct (ri_entries0 _ _ Hx)].
    destruct (ri_entries0 _ _ He). constructor; try done.
    + intros d Hd. unfold devices_of at 1. simpl. rewrite Hdev. by apply ei_device0.
    + unfold well_typed in *. simpl. revert ei_typed0. clear -Hst.
      induction Hst as [|a b l l' (_ & E1 & E2) _ IH]; [done|]. rewrite !Forall_cons. rewrite E1, E2. naive_solver.
  - intros d. destruct (ri_queues0 d) as [Hnd Hq]. split; [done|]. intros i Hi.
    destruct (Hq i Hi) as (x & Hx & Hxd). destruct (decide (i = irp)) as [->|Hne].
    + rewrite lookup_insert_eq. eexists. split; [done|]. simpl. congruence.
    + rewrite lookup_insert_ne by done. eauto.
  - rewrite (map_sum_update _ _ irp e), ri_completed0 by done. unfold completed_weight. simpl. lia.
  - rewrite (map_sum_update _ _ irp e), ri_cancelled0 by done. unfold cancelled_weight. simpl. lia.
Qed.

Lemma update_location_Forall2 device f stack stack' :
  (∀ l, sl_device (f l) = sl_device l ∧ sl_major (f l) = sl_major l ∧ sl_minor (f l) = sl_minor l) →
  update_location device f stack = Some stack' →
  Forall2 (λ l l', sl_device l' = sl_device l ∧ sl_major l' = sl_major l ∧ sl_minor l' = sl_minor l)
    stack stack'.
Proof.
  intros Hf. unfold update_location. destruct (position _ stack) as [i|]; [|done]. intros [= <-].
  clear device. revert i. induction stack as [|l stack IH]; intros i; [constructor|].
  destruct i as [|i]; simpl.
  - constructor; [done|]. clear IH. induction stack; by constructor.
  - constructor; [done|apply IH].
Qed.

Lemma rinv_set_routine irp device routine s dr r s' :
  RInv s dr → set_completion_routine irp device routine s = Done r s' → RInv s' dr.
Proof.
  intros Hs. unfold set_completion_routine, irp_at. mrun.
  destruct (is_irps s !! irp) as [e|] eqn:He; mrun; [|by intros [= <- <-]].
  destruct (ir_completed e); mrun; [by intros [= <- <-]|].
  destruct (update_location _ _ _) as [stack|] eqn:E; mrun; intros [= <- <-]; [|done].
  eapply rinv_stack; [done|done|]. by eapply update_location_Forall2 in E.
Qed.

Lemma rinv_set_parameters irp device p s dr r s' :
  RInv s dr → set_stack_parameters irp device p s = Done r s' → RInv s' dr.
Proof.
  intros Hs. unfold set_stack_parameters, irp_at. mrun.
  destruct (is_irps s !! irp) as [e|] eqn:He; mrun; [|by intros [= <- <-]].
  destruct (update_location _ _ _) as [stack|] eqn:E; mrun; intros [= <- <-]; [|done].
  eapply rinv_stack; [done|done|]. by eapply update_location_Forall2 in E.
Qed.

Lemma rinv_insert b stack s dr r s' :
  RInv s dr → Forall (λ l, sl_major l = pb_major b ∧ sl_minor l = pb_minor b) stack →
  insert_irp b stack s = Done r s' → RInv s' dr.
Proof.
  intros Hs Hty. unfold insert_irp. mrun. destruct (_ <=? _); [|done]. intros [= <- <-].
  assert (is_irps s !! is_next_irp s = None) as Hn.
  { destruct (is_irps s !! is_next_irp s) eqn:E; [|done].
    pose proof (ri_ids _ _ Hs (is_next_irp s) ltac:(eauto)). lia. }
  destruct Hs. constructor; simpl.
  - intros i [<-|[_ Hi]]%lookup_insert_is_Some; [lia|]. apply ri_ids0 in Hi. lia.
  - intros i x. rewrite lookup_insert_Some. intros [[<- <-]|[Hne Hx]]; [|by destruct (ri_entries0 _ _ Hx)].
    by constructor.
  - intros d. destruct (ri_queues0 d) as [Hnd Hq]. split; [done|]. intros i Hi.
    destruct (Hq i Hi) as (x & Hx & Hxd). exists x. rewrite lookup_insert_ne; [done|congruence].
  - rewrite map_sum_insert by done. simpl. unfold completed_weight at 1. simpl. by rewrite ri_completed0.
  - rewrite map_sum_insert by done. simpl. unfold cancelled_weight at 1. simpl. by rewrite ri_cancelled0.
Qed.

Lemma rinv_queue device irp s dr r s' :
  RInv s dr → queue_irp_core device irp s = Done r s' → RInv s' dr.
Proof.
  intros Hs. unfold queue_irp_core, irp_at. mrun.
  destruct (is_irps s !! irp) as [e|] eqn:He; mrun; [|by intros [= <- <-]].
  destruct (ir_completed e) eqn:Hc; mrun; [by intros [= <- <-]|].
  destruct (ir_pending e) eqn:Hp; mrun; [by intros [= <- <-]|].
  destruct (existsb _ _) eqn:Ex; mrun; [|by intros [= <- <-]].
  cbn [is_set_queues is_update is_irps]. rewrite He. mrun. intros [= <- <-].
  unfold is_alter, is_update, is_set_queues, is_update. simpl. rewrite (alter_is_insert _ _ _ e He).
  destruct Hs. assert (ir_pending_device e = None) as Hd.
  { destruct (ir_pending_device e) as [d|] eqn:E; [|done].
    destruct (ei_device _ _ _ _ (ri_entries0 _ _ He) d E). congruence. }
  assert (irp ∉ queue_at s device) as Hnq.
  { intros Hi. destruct (ri_queues0 device) as [_ Hq]. destruct (Hq _ Hi) as (x & Hx & Hxd). congruence. }
  assert (∀ d, default [] (<[device := default [] (is_queues s !! device) ++ [irp]]> (is_queues s) !! d)
    = if decide (d = device) then queue_at s d ++ [irp] else queue_at s d) as Hqs.
  { intros d. unfold queue_at. case_decide as E; [subst; by rewrite lookup_insert_eq|by rewrite lookup_insert_ne]. }
  constructor; simpl.
  - intros i [<-|[_ Hi]]%lookup_insert_is_Some; eauto.
  - intros i x. rewrite lookup_insert_Some. intros [[<- <-]|[Hne Hx]].
    + constructor; simpl; [congruence| |by intros ?%(ei_cancelled _ _ _ _ (ri_entries0 _ _ He))|apply (ri_entries0 _ _ He)].
      intros d [= <-]. split; [done|]. split.
      * apply existsb_exists in Ex as (l & Hl & E%Z.eqb_eq). unfold devices_of. simpl.
        apply list_elem_of_fmap. exists l. split; [done|]. by apply list_elem_of_In.
      * left. unfold queue_at at 1. simpl. rewrite Hqs, decide_True by done. set_solver.
    + destruct (ri_entries0 _ _ Hx). constructor; try done. intros d Hxd.
      destruct (ei_device0 d Hxd) as (? & ? & Hin). split_and!; [done|done|].
      unfold queue_at at 1. simpl. rewrite Hqs. destruct Hin; [left|by right]. case_decide; set_solver.
  - intros d. unfold queue_at at 1 2. simpl. rewrite Hqs. destruct (ri_queues0 d) as [Hnd Hq]. case_decide as Ed.
    + subst d. split.
      * apply NoDup_app. split_and!; [done|set_solver|apply NoDup_singleton].
      * intros i [Hi| ->%list_elem_of_singleton]%elem_of_app.
        -- destruct (Hq i Hi) as (x & Hx & Hxd). exists x. rewrite lookup_insert_ne; [done|congruence].
        -- rewrite lookup_insert_eq. by eexists.
    + split; [done|]. intros i Hi. destruct (Hq i Hi) as (x & Hx & Hxd). exists x.
      rewrite lookup_insert_ne; [done|congruence].
  - rewrite (map_sum_update _ _ irp e), ri_completed0 by done. unfold completed_weight. simpl. lia.
  - rewrite (map_sum_update _ _ irp e), ri_cancelled0 by done. unfold cancelled_weight. simpl. lia.
Qed.

Lemma rinv_take device s dr r s' :
  RInv s dr → take_queue device s = Done r s' → r = Ok (queue_at s device) ∧ RInv s' (dr ++ queue_at s device).
Proof.
  intros []. unfold take_queue. mrun. intros [= <- <-]. split; [done|].
  assert (∀ d, default [] (delete device (is_queues s) !! d) = if decide (d = device) then [] else queue_at s d) as Hqs.
  { intros d. unfold queue_at. case_decide as E; [subst; by rewrite lookup_delete_eq|by rewrite lookup_delete_ne]. }
  constructor; simpl; try done.
  - intros i x Hx. destruct (ri_entries0 _ _ Hx). constructor; try done. intros d Hd.
    destruct (ei_device0 d Hd) as (? & ? & Hin). split_and!; [done|done|].
    unfold queue_at at 1. simpl. rewrite Hqs. case_decide; set_solver.
  - intros d. unfold queue_at at 1 2. simpl. rewrite Hqs. case_decide; [|apply ri_queues0].
    split; [apply NoDup_nil_2|]. intros i Hi. by apply not_elem_of_nil in Hi.
Qed.

(** ** Every interleaving *)

Inductive step : IrpState * list Z → IrpState * list Z → Prop :=
| sp_insert b stack s dr r s' :
    Forall (λ l, sl_major l = pb_major b ∧ sl_minor l = pb_minor b) stack →
    insert_irp b stack s = Done r s' → step (s, dr) (s', dr)
| sp_queue device irp s dr r s' : queue_irp_core device irp s = Done r s' → step (s, dr) (s', dr)
| sp_complete irp st info s dr r s' :
    complete routine_status irp st info s = Done r s' → step (s, dr) (s', dr)
| sp_cancel irp s dr r s' : cancel routine_status irp s = Done r s' → step (s, dr) (s', dr)
| sp_routine irp device routine s dr r s' :
    set_completion_routine irp device routine s = Done r s' → step (s, dr) (s', dr)
| sp_parameters irp device p s dr r s' :
    set_stack_parameters irp device p s = Done r s' → step (s, dr) (s', dr)
| sp_take device s dr l s' :
    take_queue device s = Done (Ok l) s' → step (s, dr) (s', dr ++ l)
| sp_drain irp s dr1 dr2 r s' :
    cancel_quietly routine_status irp s = Done r s' → step (s, dr1 ++ irp :: dr2) (s', dr1 ++ dr2).

Lemma cancel_quietly_inv irp s r s' :
  cancel_quietly routine_status irp s = Done r s' → ∃ r', cancel routine_status irp s = Done r' s'.
Proof. unfold cancel_quietly. destruct (cancel _ _ _) as [r1 s1|] eqn:E; [|done]. intros [= <- <-]. eauto. Qed.

Lemma rinv_step w w' : RInv w.1 w.2 → step w w' → RInv w'.1 w'.2.
Proof.
  intros Hw Hst. destruct Hst as [b st s dr r s' Hty H|d i s dr r s' H|i a b s dr r s' H|i s dr r s' H
    |i d ro s dr r s' H|i d p s dr r s' H|d s dr l s' H|i s dr1 dr2 r s' H]; simpl in *.
  - by eapply rinv_insert.
  - by eapply rinv_queue.
  - by eapply rinv_complete.
  - by eapply rinv_cancel.
  - by eapply rinv_set_routine.
  - by eapply rinv_set_parameters.
  - apply (rinv_take _ _ dr) in H as [[= ->] ?]; done.
  - apply cancel_quietly_inv in H as [r' H]. eapply rinv_cancel; [done|done|]. set_solver.
Qed.

Lemma rinv_reachable w : rtc step (new_core, []) w → RInv w.1 w.2.
Proof.
  intros H. assert (RInv (new_core, @nil Z).1 (new_core, @nil Z).2) as Hn by apply rinv_new.
  induction H; [done|]. eauto using rinv_step.
Qed.

(** What no one changes any more once an IRP is completed. *)
Definition outcome_of (e : Irp) : Z * Z * bool * bool :=
  (ir_status e, ir_information e, ir_cancelled e, ir_completed e).

Definition calls_for (i : Z) (s : IrpState) : list (Z * IrpCompletion) :=
  filter (λ c, ic_irp c.2 = i) (is_calls s).

Definition final_kept (i : Z) (e : Irp) (s s' : IrpState) : Prop :=
  (∃ e', is_irps s' !! i = Some e' ∧ outcome_of e' = outcome_of e) ∧ calls_for i s' = calls_for i s.

Lemma calls_for_walk i irp info seed stack s final stalled calls :
  i ≠ irp → walk (is_calls s) irp info seed stack = (final, stalled, calls) →
  filter (λ c, ic_irp c.2 = i) calls = calls_for i s.
Proof.
  intros Hne H. apply walk_walked in H as (new & -> & Hw). unfold calls_for. rewrite filter_app.
  assert (filter (λ c : Z * IrpCompletion, ic_irp c.2 = i) new = []) as ->; [|by rewrite app_nil_r].
  destruct (filter _ new) as [|c l] eqn:E; [done|].
  assert (c ∈ filter (λ c : Z * IrpCompletion, ic_irp c.2 = i) new) as Hc by (rewrite E; by left).
  apply list_elem_of_filter in Hc as [Hi [k Hk]%list_elem_of_lookup]. destruct c as [r c].
  destruct (wk_calls _ _ _ _ _ _ _ _ _ Hw _ _ _ Hk) as [_ Ec]. simpl in Hi. rewrite Ec in Hi. simpl in Hi. congruence.
Qed.

Lemma final_complete i e irp st info s r s' :
  is_irps s !! i = Some e → ir_completed e = true →
  complete routine_status irp st info s = Done r s' → final_kept i e s s'.
Proof.
  intros Hi Hc H. assert (final_kept i e s s) as Hsame by (split; [by eexists|done]).
  destruct (is_irps s !! irp) as [x|] eqn:Hx.
  2: { destruct (complete_refused irp st info s) as [y E]; [by rewrite Hx; intros ? [= <-]|].
       rewrite E in H. by simplify_eq. }
  destruct (ir_completed x) eqn:Hxc.
  { destruct (complete_refused irp st info s) as [y E]; [by rewrite Hx; intros ? [= <-]|].
    rewrite E in H. by simplify_eq. }
  assert (i ≠ irp) as Hne by congruence. rewrite (complete_run _ _ _ _ _ Hx Hxc) in H. cbv zeta in H.
  destruct (walk _ _ _ _ _) as [[final stalled] calls] eqn:Ew.
  apply (calls_for_walk i) in Ew; [|done].
  destruct stalled; [|destruct (_ <=? _); [|done]]; simplify_eq; (split; [|exact Ew]);
    exists e; simpl; by rewrite lookup_insert_ne.
Qed.

Lemma final_cancel i e irp s r s' :
  is_irps s !! i = Some e → ir_completed e = true →
  cancel routine_status irp s = Done r s' → final_kept i e s s'.
Proof.
  intros Hi Hc H. assert (final_kept i e s s) as Hsame by (split; [by eexists|done]).
  destruct (is_irps s !! irp) as [x|] eqn:Hx.
  2: { destruct (cancel_refused irp s) as [y E]; [by rewrite Hx; intros ? [= <-]|].
       rewrite E in H. by simplify_eq. }
  destruct (ir_completed x) eqn:Hxc.
  { destruct (cancel_refused irp s) as [y E]; [by rewrite Hx; intros ? [= <-]|].
    rewrite E in H. by simplify_eq. }
  assert (i ≠ irp) as Hne by congruence. rewrite (cancel_run _ _ _ Hx Hxc) in H. cbv zeta in H.
  destruct (walk _ _ _ _ _) as [[final stalled] calls] eqn:Ew.
  apply (calls_for_walk i) in Ew; [|done]. destruct (_ && _); [|done]. simplify_eq.
  split; [|exact Ew]. exists e. simpl. by rewrite lookup_insert_ne.
Qed.

Lemma final_alter i e irp f s :
  is_irps s !! i = Some e → (∀ x, outcome_of (f x) = outcome_of x) →
  final_kept i e s (is_alter f irp s).
Proof.
  intros Hi Hf. split; [|done]. simpl. destruct (decide (irp = i)) as [->|Hne].
  - rewrite lookup_alter_eq, Hi. simpl. eexists. split; [done|]. apply Hf.
  - rewrite lookup_alter_ne by done. by exists e.
Qed.

Lemma final_step i e w w' :
  RInv w.1 w.2 → is_irps w.1 !! i = Some e → ir_completed e = true → step w w' →
  final_kept i e w.1 w'.1.
Proof.
  intros Hw Hi Hc Hst. assert (∀ s, is_irps s !! i = Some e → final_kept i e s s) as Hsame
    by (intros; split; [by eexists|done]).
  destruct Hst as [b st s dr r s' Hty H|d j s dr r s' H|j a b s dr r s' H|j s dr r s' H
    |j d ro s dr r s' H|j d p s dr r s' H|d s dr l s' H|j s dr1 dr2 r s' H]; simpl in *.
  - unfold insert_irp in H. mrun. destruct (_ <=? _); [|done]. simplify_eq. split; [|done].
    exists e. simpl. rewrite lookup_insert_ne; [done|]. intros <-.
    pose proof (ri_ids _ _ Hw (is_next_irp s) ltac:(eauto)). lia.
  - unfold queue_irp_core, irp_at in H. mrun. destruct (is_irps s !! j) as [x|] eqn:Hx; mrun; [|by simplify_eq; auto].
    destruct (ir_completed x) eqn:Hxc; mrun; [by simplify_eq; auto|].
    destruct (ir_pending x) eqn:Hxp; mrun; [by simplify_eq; auto|].
    destruct (existsb _ _); mrun; [|by simplify_eq; auto].
    cbn [is_set_queues is_update is_irps] in H. rewrite Hx in H. mrun. simplify_eq.
    split; [|done]. exists e. simpl. rewrite lookup_alter_ne; [done|]. congruence.
  - by eapply final_complete.
  - by eapply final_cancel.
  - unfold set_completion_routine, irp_at in H. mrun. destruct (is_irps s !! j) as [x|] eqn:Hx; mrun; [|by simplify_eq; auto].
    destruct (ir_completed x) eqn:Hxc; mrun; [by simplify_eq; auto|].
    destruct (update_location _ _ _); mrun; simplify_eq; [|by auto]. by apply final_alter.
  - unfold set_stack_parameters, irp_at in H. mrun. destruct (is_irps s !! j) as [x|] eqn:Hx; mrun; [|by simplify_eq; auto].
    destruct (update_location _ _ _); mrun; simplify_eq; [|by auto]. by apply final_alter.
  - unfold take_queue in H. mrun. simplify_eq. split; [|done]. by exists e.
  - apply cancel_quietly_inv in H as [r' H]. by eapply final_cancel.
Qed.

Lemma final_run i e w w' :
  rtc step w w' → RInv w.1 w.2 → is_irps w.1 !! i = Some e → ir_completed e = true →
  final_kept i e w.1 w'.1.
Proof.
  intros H. revert e. induction H as [w|w w1 w2 H1 _ IH]; intros e Hw Hi Hc; [split; [by eexists|done]|].
  destruct (final_step i e w w1 Hw Hi Hc H1) as ((e1 & H1i & E1) & C1).
  assert (ir_completed e1 = true) as Hc1 by (unfold outcome_of in E1; congruence).
  destruct (IH e1 (rinv_step _ _ Hw H1) H1i Hc1) as ((e2 & H2i & E2) & C2).
  split; [|congruence]. exists e2. split; [done|]. congruence.
Qed.

(** ** Theorems *)

(** C20 - In every interleaving of the core's sections, the pending queues and the IRPs
    agree: an IRP waits on at most one queue, once, the one its record names, which
    is that of a device of its stack; an IRP named as waiting is on that queue unless
    a device deletion is about to cancel it; completed IRPs wait nowhere; and the
    counters count the completed and the cancelled IRPs. *)
Theorem irp_queues_exact s dr :
  rtc step (new_core, []) (s, dr) →
  (∀ d, NoDup (pending_irps s d) ∧ ∀ i, i ∈ pending_irps s d →
     ∃ e, is_irps s !! i = Some e ∧ ir_pending_device e = Some d ∧ ir_pending e = true ∧
       ir_completed e = false ∧ d ∈ devices_of e) ∧
  (∀ i e d, is_irps s !! i = Some e → ir_pending_device e = Some d →
     i ∈ pending_irps s d ∨ i ∈ dr) ∧
  is_completed s = map_sum completed_weight (is_irps s) ∧
  is_cancelled s = map_sum cancelled_weight (is_irps s) ∧
  (∀ i e, is_irps s !! i = Some e → ir_cancelled e = true → ir_completed e = true).
Proof.
  intros H%rinv_reachable. destruct H as []; simpl in *. split_and!; try done.
  - intros d. destruct (ri_queues0 d) as [Hnd Hq]. split; [exact Hnd|].
    intros i (e & He & Hd)%Hq. exists e. destruct (ri_entries0 _ _ He).
    destruct (ei_device0 d Hd) as (? & ? & _). split_and!; try done.
    destruct (ir_completed e) eqn:E; [|done]. destruct (ei_completed0 eq_refl). congruence.
  - intros i e d He Hd. by destruct (ei_device _ _ _ _ (ri_entries0 _ _ He) d Hd) as (_ & _ & ?).
  - intros i e He. apply (ei_cancelled _ _ _ _ (ri_entries0 _ _ He)).
Qed.

(** C19 - An IRP completes at most once: once it is completed, no interleaving changes its
    status, its information or whether it was cancelled, no routine is called for it
    again, and completing or cancelling it is refused and changes nothing. *)
Theorem irp_completes_once w w' i e :
  rtc step (new_core, []) w → is_irps w.1 !! i = Some e → ir_completed e = true → rtc step w w' →
  (∃ e', is_irps w'.1 !! i = Some e' ∧ outcome_of e' = outcome_of e) ∧
  calls_for i w'.1 = calls_for i w.1 ∧
  (∀ st info, complete routine_status i st info w'.1 = Done (Err STATUS_UNSUCCESSFUL) w'.1) ∧
  cancel routine_status i w'.1 = Done (Err STATUS_UNSUCCESSFUL) w'.1.
Proof.
  intros Hw%rinv_reachable Hi Hc Hr. destruct (final_run i e w w' Hr Hw Hi Hc) as ((e' & Hi' & E) & Hcalls).
  assert (ir_completed e' = true) as Hc' by (unfold outcome_of in E; congruence).
  split; [by exists e'|]. split; [done|]. split.
  - intros st info. unfold complete, irp_at. mrun. rewrite Hi'. mrun. by rewrite Hc'.
  - unfold cancel, irp_at. mrun. rewrite Hi'. mrun. by rewrite Hc'.
Qed.

(** Completing an IRP runs the routines of its stack from the bottom up, each with
    the status the one below returned, until one returns
    [STATUS_MORE_PROCESSING_REQUIRED] or the top is reached; the IRP is completed
    with the last status in the second case and waits off every queue in the first. *)
Theorem completion_walk_spec irp st info s e r s' :
  is_irps s !! irp = Some e → ir_completed e = false →
  complete routine_status irp st info s = Done r s' →
  ∃ new final (stalled : bool) e',
    is_calls s' = is_calls s ++ new ∧
    walked routine_status (is_calls s) new irp info st (routines (ir_stack e)) final stalled ∧
    r = Ok (if stalled then STATUS_MORE_PROCESSING_REQUIRED else final) ∧
    is_irps s' = <[irp := e']> (is_irps s) ∧ ir_status e' = final ∧ ir_information e' = info ∧
    ir_completed e' = negb stalled ∧ ir_pending e' = stalled ∧ ir_pending_device e' = None ∧
    ir_stack e' = ir_stack e.
Proof.
  intros He Hc H. rewrite (complete_run _ _ _ _ _ He Hc) in H. cbv zeta in H.
  destruct (walk _ _ _ _ _) as [[final stalled] calls] eqn:Ew.
  apply walk_walked in Ew as (new & -> & Hw). exists new, final, stalled.
  destruct stalled; [|destruct (_ <=? _); [|done]]; simplify_eq;
    eexists; (split; [reflexivity|]); (split; [exact Hw|]); by split_and!.
Qed.

(** Every stack location of an IRP carries the major and minor function of the IRP's
    parameter block, whatever is done to it. *)
Theorem irp_stack_well_typed s dr i e :
  rtc step (new_core, []) (s, dr) → is_irps s !! i = Some e →
  Forall (λ v, sv_major v = pb_major (ir_parameters e) ∧ sv_minor v = pb_minor (ir_parameters e))
    (view <$> ir_stack e).
Proof.
  intros H%rinv_reachable Hi. apply Forall_fmap.
  exact (ei_typed _ _ _ _ (ri_entries _ _ H _ _ Hi)).
Qed.
End core.

(** ** Deleting a device *)

Section deletion.
Variable routine_status : list (Z * IrpCompletion) → Z → IrpCompletion → Z.

Definition cancelled_irp (s : IrpState) (i : Z) : Prop :=
  ∃ e, is_irps s !! i = Some e ∧ ir_completed e = true ∧ ir_cancelled e = true ∧ ir_pending e = false.

(** Cancelling the IRPs of a list that are not completed. *)
Lemma cancel_all l s n :
  NoDup l → (∀ i, i ∈ l → ∃ e, is_irps s !! i = Some e ∧ ir_completed e = false) →
  0 ≤ n → is_completed s + n + Z.of_nat (length l) ≤ u64_max → is_cancelled s + n + Z.of_nat (length l) ≤ u64_max →
  wp (for_each l (cancel_quietly routine_status)) s (λ r s', r = Ok tt ∧
    (∀ i, i ∈ l → cancelled_irp s' i) ∧ (∀ i, i ∉ l → is_irps s' !! i = is_irps s !! i) ∧
    ∀ d, is_queues s !! d = None → is_queues s' !! d = None).
Proof.
  intros Hnd. revert s. induction Hnd as [|i l Hi Hnd IH]; intros s Hl Hn Hc1 Hc2.
  { unfold wp. simpl. split_and!; [done| |done|done]. intros i Hi. by apply not_elem_of_nil in Hi. }
  simpl in Hc1, Hc2. cbn [for_each]. apply wp_bind.
  destruct (Hl i) as (e & He & Hc); [by left|]. unfold wp at 1, cancel_quietly.
  rewrite (cancel_run routine_status i s e He Hc).
  destruct (walk _ _ _ _ _ _) as [[final stalled] calls]. cbv zeta.
  rewrite !(proj2 (Z.leb_le _ _)) by lia. cbn [andb].
  set (st := if stalled then _ else _).
  eapply wp_mono; [apply IH|]; simpl; try lia.
  - intros j Hj. rewrite lookup_insert_ne by (intros ->; done). apply Hl. by right.
  - intros r s' (-> & Hall & Hrest & Hqs). split; [done|]. split; [|split].
    + intros j [->|Hj]%elem_of_cons; [|by apply Hall]. unfold cancelled_irp.
      rewrite Hrest by done. rewrite lookup_insert_eq. by eexists.
    + intros j [Hne Hj]%not_elem_of_cons. rewrite Hrest by done. by rewrite lookup_insert_ne.
    + intros d Hd. apply Hqs. simpl. unfold unqueued. destruct (ir_pending_device e); [|done].
      rewrite eq_None_not_Some, lookup_alter_is_Some. by rewrite Hd; intros [].
Qed.

Lemma rinv_drain_all l s dr r s' :
  RInv s (dr ++ l) → for_each l (cancel_quietly routine_status) s = Done r s' → r = Ok tt ∧ RInv s' dr.
Proof.
  revert s. induction l as [|i l IH]; intros s Hs; [rewrite app_nil_r in Hs; by intros [= <- <-]|].
  cbn [for_each]. intros [(a & s1 & H1 & H2)|(e & H1 & _)]%bind_inv.
  - apply cancel_quietly_inv in H1 as [r' H1]. apply IH in H2; [done|].
    eapply rinv_cancel; [exact Hs|done|]. set_solver.
  - exfalso. unfold cancel_quietly in H1. by destruct (cancel _ _ _).
Qed.

Lemma rinv_cancel_pending device s dr r s' :
  RInv s dr → cancel_pending_for_device routine_status device s = Done r s' →
  r = Ok (pending_irps s device) ∧ RInv s' dr.
Proof.
  intros Hs. unfold cancel_pending_for_device.
  intros [(l & s1 & H1 & H2)|(e & H1 & _)]%bind_inv; [|by unfold take_queue in H1].
  apply (rinv_take _ _ dr) in H1 as [[= ->] Hs1]; [|done].
  apply bind_inv in H2 as [([] & s2 & H2 & H3)|(e & H2 & _)];
    apply rinv_drain_all with (dr := dr) in H2 as [? ?]; try done.
  injection H3 as <- <-. done.
Qed.

(** The queue of the device is cancelled, whatever another thread is draining. *)
Lemma cancel_pending_run s dr device :
  RInv s dr → is_completed s + Z.of_nat (length (pending_irps s device)) ≤ u64_max →
  ∃ s', cancel_pending_for_device routine_status device s = Done (Ok (pending_irps s device)) s' ∧
    (∀ i, i ∈ pending_irps s device → cancelled_irp s' i) ∧
    (∀ i, i ∉ pending_irps s device → is_irps s' !! i = is_irps s !! i) ∧
    pending_irps s' device = [].
Proof.
  intros Hs Hc. unfold cancel_pending_for_device, take_queue. mrun.
  fold (pending_irps s device). destruct (ri_queues _ _ Hs device) as [Hnd Hq].
  change (queue_at s device) with (pending_irps s device) in Hnd, Hq.
  assert (is_cancelled s ≤ is_completed s) as Hle.
  { rewrite (ri_cancelled _ _ Hs), (ri_completed _ _ Hs). apply map_sum_le. intros i e He.
    unfold cancelled_weight, completed_weight.
    destruct (ir_cancelled e) eqn:E; [|by destruct (ir_completed e)].
    by rewrite (ei_cancelled _ _ _ _ (ri_entries _ _ Hs _ _ He) E). }
  pose proof (cancel_all (pending_irps s device)
    (is_set_queues (delete device (is_queues s)) s) 0 Hnd) as Hw.
  apply wp_inv in Hw as (r & s' & E & -> & Hall & Hrest & Hqs).
  - rewrite E. mrun. exists s'. split_and!; try done.
    unfold pending_irps. rewrite Hqs; [done|]. apply lookup_delete_eq.
  - intros i Hi. destruct (Hq i Hi) as (e & He & Hd). exists e. split; [done|].
    destruct (ir_completed e) eqn:Ec; [|done].
    destruct (ei_completed _ _ _ _ (ri_entries _ _ Hs _ _ He) Ec). congruence.
  - done.
  - simpl. lia.
  - simpl. lia.
Qed.

(** Deleting a device cancels every IRP on its queue, each once and in FIFO order:
    afterwards the queue is empty, those IRPs are completed as cancelled, and no
    other IRP has changed. *)
Theorem device_cancellation_complete s device :
  rtc (step routine_status) (new_core, []) (s, []) →
  is_completed s + Z.of_nat (length (pending_irps s device)) ≤ u64_max →
  ∃ s', cancel_pending_for_device routine_status device s = Done (Ok (pending_irps s device)) s' ∧
    (∀ i, i ∈ pending_irps s device → cancelled_irp s' i) ∧
    (∀ i, i ∉ pending_irps s device → is_irps s' !! i = is_irps s !! i) ∧
    pending_irps s' device = [].
Proof. intros Hs%rinv_reachable Hc. by apply (cancel_pending_run s []). Qed.
End deletion.

(** ** Parameter blocks *)

(** A read of a parameter block returns the bytes it names exactly when they lie
    below the logical length and inside the buffer, and otherwise the error that
    says which bound failed; a write within the bounds is read back, leaves every
    other byte, the lengths and the validity as they were, and one outside them
    changes nothing. *)
Theorem parameter_block_access b offset n data :
  0 ≤ offset → 0 ≤ n →
  block_read b offset n =
    (if usize_max <? offset + n then Err STATUS_INVALID_PARAMETER
     else if pb_length b <? offset + n then Err STATUS_INVALID_BUFFER_SIZE
     else if buffer_len b <? offset + n then Err STATUS_INVALID_PARAMETER
     else Ok (take (Z.to_nat n) (drop (Z.to_nat offset) (pb_system_buffer b)))) ∧
  match block_write b offset data with
  | Ok b' =>
      block_read b' offset (Z.of_nat (length data)) = Ok data ∧ validate b' = validate b ∧
      pb_length b' = pb_length b ∧ buffer_len b' = buffer_len b ∧
      ∀ i, 0 ≤ i → i < offset ∨ offset + Z.of_nat (length data) ≤ i →
        pb_system_buffer b' !! Z.to_nat i = pb_system_buffer b !! Z.to_nat i
  | Err e => block_read b offset (Z.of_nat (length data)) = Err e
  end.
Proof.
  intros Ho Hn. split.
  - unfold block_read, checked_add, buffer_len. destruct (_ <=? usize_max) eqn:E1; bool_prop.
    + rewrite (proj2 (Z.ltb_ge usize_max (offset + n))) by lia. destruct (pb_length b <? _); [done|].
      destruct (_ <? offset + n) eqn:E2; bool_prop.
      * by rewrite (proj2 (slice_None _ _ _ Ho Hn)) by lia.
      * unfold slice. by rewrite !(proj2 (Z.leb_le _ _)) by lia.
    + by rewrite (proj2 (Z.ltb_lt usize_max (offset + n))) by lia.
  - unfold block_write, block_read. pose proof (Zle_0_nat (length data)) as Hd.
    destruct (checked_add _ _ _) as [e|] eqn:E1; [|done].
    destruct (pb_length b <? e) eqn:E2; [done|].
    destruct (splice offset data (pb_system_buffer b)) as [out|] eqn:E3.
    + apply splice_Some in E3 as (_ & Hle & Hlen & Hlk).
      assert (buffer_len (with_buffer out b) = buffer_len b) as Hbl by (unfold buffer_len; simpl; by rewrite Hlen).
      split; [|split; [|split; [done|split; [done|]]]].
      * simpl. rewrite E2. destruct (slice_is_Some offset (Z.of_nat (length data)) out) as [o Hs]; [done|done|lia|].
        rewrite Hs. f_equal. apply slice_Some in Hs as (_ & _ & _ & Hlo & Hso).
        apply list_eq_same_length with (length data); [done|lia|].
        intros i x y Hi Hx Hy. specialize (Hso (Z.of_nat i)). rewrite Nat2Z.id in Hso.
        rewrite Hso, Hlk, decide_True in Hx by lia.
        replace (Z.to_nat (offset + Z.of_nat i - offset)) with i in Hx by lia. congruence.
      * unfold validate. by rewrite Hbl.
      * intros i Hi Hout. simpl. rewrite Hlk by done. rewrite decide_False by lia. done.
    + apply splice_None in E3; [|done]. by rewrite (proj2 (slice_None _ _ _ Ho Hd)) by lia.
Qed.

(** ** A concrete core: one IRP for two devices, queued on the lower one *)

(** Routines that pass the status through. *)
Definition pass_through (_ : list (Z * IrpCompletion)) (_ : Z) (c : IrpCompletion) : Z := ic_status c.

Definition demo_block : IrpParameterBlock :=
  {| pb_major := MjRead; pb_minor := 0; pb_system_buffer := [0; 0; 0; 0]; pb_length := 3;
     pb_user_address := 0; pb_required_alignment := 0 |}.
Definition demo_location (device : Z) : IoStackLocation :=
  {| sl_device := device; sl_major := MjRead; sl_minor := 0; sl_parameters := SpReadWrite 3 0;
     sl_completion := None |}.

Definition demo_inserted : IrpState :=
  state_of (insert_irp demo_block [demo_location 1; demo_location 2] new_core) new_core.
Definition demo_armed : IrpState := state_of (set_completion_routine 1 2 5 demo_inserted) demo_inserted.
Definition demo_queued : IrpState := state_of (queue_irp_core 1 1 demo_armed) demo_armed.
Definition demo_completed : IrpState := state_of (complete pass_through 1 0 3 demo_queued) demo_queued.

Lemma demo_queued_reachable : rtc (step pass_through) (new_core, []) (demo_queued, []).
Proof.
  apply rtc_l with (demo_inserted, []).
  { apply (sp_insert pass_through demo_block [demo_location 1; demo_location 2] _ _ (Ok 1)); [|by apply run_eq].
    by repeat constructor. }
  apply rtc_l with (demo_armed, []).
  { by apply (sp_routine pass_through 1 2 5 _ _ (Ok tt)), run_eq. }
  apply rtc_once. by apply (sp_queue pass_through 1 1 _ _ (Ok tt)), run_eq.
Qed.

Lemma demo_completed_step : step pass_through (demo_queued, []) (demo_completed, []).
Proof. by apply (sp_complete pass_through 1 0 3 _ _ (Ok 0)), run_eq. Qed.

Lemma demo_completed_reachable : rtc (step pass_through) (new_core, []) (demo_completed, []).
Proof. eapply rtc_r; [apply demo_queued_reachable|apply demo_completed_step]. Qed.

Lemma demo_queued_entry : ∃ e, is_irps demo_queued !! 1 = Some e ∧ ir_completed e = false.
Proof. eexists. split; by vm_compute. Qed.

Lemma demo_completed_entry : ∃ e, is_irps demo_completed !! 1 = Some e ∧ ir_completed e = true.
Proof. eexists. split; by vm_compute. Qed.

Lemma irp_queues_exact_witness :
  pending_irps demo_queued 1 = [1] ∧ NoDup (pending_irps demo_queued 1).
Proof.
  split; [by vm_compute|].
  destruct (irp_queues_exact pass_through demo_queued [] demo_queued_reachable) as [H _]. apply (H 1).
Defined.

Lemma irp_completes_once_witness :
  cancel pass_through 1 demo_completed = Done (Err STATUS_UNSUCCESSFUL) demo_completed.
Proof.
  destruct demo_completed_entry as (e & He & Hc).
  apply (irp_completes_once pass_through (demo_completed, []) (demo_completed, []) 1 e
    demo_completed_reachable He Hc). apply rtc_refl.
Defined.

Lemma completion_walk_spec_witness :
  ∃ new final stalled, is_calls demo_completed = is_calls demo_queued ++ new ∧
    walked pass_through (is_calls demo_queued) new 1 3 0 [(2, 5)] final stalled.
Proof.
  destruct demo_queued_entry as (e & He & Hc).
  assert (routines (ir_stack e) = [(2, 5)]) as Hr.
  { assert ((routines ∘ ir_stack) <$> is_irps demo_queued !! 1 = Some [(2, 5)]) as E by (by vm_compute).
    rewrite He in E. by injection E. }
  assert (complete pass_through 1 0 3 demo_queued = Done (Ok 0) demo_completed) as Hrun by (by apply run_eq).
  destruct (completion_walk_spec pass_through 1 0 3 demo_queued e (Ok 0) demo_completed He Hc Hrun)
    as (new & final & stalled & e' & H1 & H2 & _).
  exists new, final, stalled. split; [exact H1|]. by rewrite Hr in H2.
Defined.

Lemma irp_stack_well_typed_witness :
  ∃ e, is_irps demo_queued !! 1 = Some e ∧
    Forall (λ v, sv_major v = pb_major (ir_parameters e) ∧ sv_minor v = pb_minor (ir_parameters e))
      (view <$> ir_stack e).
Proof.
  destruct demo_queued_entry as (e & He & _). exists e. split; [done|].
  exact (irp_stack_well_typed pass_through demo_queued [] 1 e demo_queued_reachable He).
Defined.

Lemma device_cancellation_complete_witness :
  ∃ s', cancel_pending_for_device pass_through 1 demo_queued = Done (Ok [1]) s' ∧ cancelled_irp s' 1.
Proof.
  assert (pending_irps demo_queued 1 = [1]) as E by (by vm_compute).
  destruct (device_cancellation_complete pass_through demo_queued 1 demo_queued_reachable) as (s' & H & Hall & _).
  { rewrite E. by vm_compute. }
  rewrite E in H, Hall. exists s'. split; [exact H|]. apply Hall. by left.
Defined.

Lemma parameter_block_access_witness :
  block_read demo_block 1 2 = Ok [0; 0] ∧ block_read demo_block 2 2 = Err STATUS_INVALID_BUFFER_SIZE.
Proof.
  split.
  - destruct (parameter_block_access demo_block 1 2 []) as [H _]; [lia|lia|]. rewrite H. by vm_compute.
  - destruct (parameter_block_access demo_block 2 2 []) as [H _]; [lia|lia|]. rewrite H. by vm_compute.
Defined.

End Ir.
