(* ===== verification/IoPort.v ===== *)
(** * I/O completion ports ([src/casak/io.rs], [CompletionPort])

    A port is shared by its clones, so the ports live in a store indexed by the
    object identifier.  Each section of a port's mutex is one step; [dequeue] may
    sleep on the condition variable, and a sleeping thread is a [PortWaiter].
    [post] wakes one sleeping thread, of the host's choice: [notify_one] takes that
    choice.  The counters are atomics, which wrap. *)

From S2P Require Import Prelude Status.

(** [fetch_add] of an [AtomicU64] *)
Definition wrapping_add (x y : Z) : Z := (x + y) mod 18446744073709551616.

(** ** Data *)

Record CompletionPacket := { cp_key : Z; cp_status : Z; cp_information : Z; cp_bytes : list Z }.

(** [CompletionPacket::new] and [with_bytes] *)
Definition new_packet (key status information : Z) : CompletionPacket :=
  {| cp_key := key; cp_status := status; cp_information := information; cp_bytes := [] |}.
Definition packet_with_bytes (bytes : list Z) (p : CompletionPacket) : CompletionPacket :=
  {| cp_key := cp_key p; cp_status := cp_status p; cp_information := cp_information p;
     cp_bytes := bytes |}.

(** [PortState] and the counters of [PortInner] *)
Record IoPortState := {
  po_packets : list CompletionPacket;
  po_closed : bool;
  po_queue_depth : Z;
  po_posted : Z;
  po_delivered : Z;
  po_dropped : Z;
}.

(** [PortInner::new] *)
Definition new_port (queue_depth : Z) : IoPortState :=
  {| po_packets := []; po_closed := false; po_queue_depth := queue_depth; po_posted := 0;
     po_delivered := 0; po_dropped := 0 |}.

(** A thread asleep in [dequeue], or woken and about to run a turn of its loop. *)
Record PortWaiter := { pw_port : Z; pw_deadline : Z; pw_awake : bool }.

Record Ports := { pt_store : gmap Z IoPortState; pt_waiters : gmap Z PortWaiter }.

Definition pt_set_store (st : gmap Z IoPortState) (s : Ports) : Ports :=
  {| pt_store := st; pt_waiters := pt_waiters s |}.
Definition pt_set_waiters (ws : gmap Z PortWaiter) (s : Ports) : Ports :=
  {| pt_store := pt_store s; pt_waiters := ws |}.

Definition po_set (packets : list CompletionPacket) (closed : bool) (posted delivered dropped : Z)
    (p : IoPortState) : IoPortState :=
  {| po_packets := packets; po_closed := closed; po_queue_depth := po_queue_depth p;
     po_posted := posted; po_delivered := delivered; po_dropped := dropped |}.

(** ** Under the mutex of one port *)

Definition post_locked (packet : CompletionPacket) : M IoPortState unit :=
  p <- gets id ;;
  fail_if (po_closed p) STATUS_INVALID_HANDLE ;;;
  modify (λ p, po_set (po_packets p ++ [packet]) (po_closed p) (po_posted p) (po_delivered p)
                 (po_dropped p) p) ;;;
  modify (λ p, po_set (po_packets p) (po_closed p) (wrapping_add (po_posted p) 1)
                 (po_delivered p) (po_dropped p) p).

(** [packets.pop_front()] and the count *)
Definition try_dequeue_locked : M IoPortState (option CompletionPacket) :=
  p <- gets id ;;
  match po_packets p with
  | [] => ret None
  | packet :: rest =>
      modify (λ p, po_set rest (po_closed p) (po_posted p) (wrapping_add (po_delivered p) 1)
                     (po_dropped p) p) ;;;
      ret (Some packet)
  end.

(** One turn of the loop of [dequeue]: a packet, or [None] to sleep. *)
Definition dequeue_turn (now deadline : Z) : M IoPortState (option CompletionPacket) :=
  o <- try_dequeue_locked ;;
  match o with
  | Some packet => ret (Some packet)
  | None =>
      p <- gets id ;;
      fail_if (po_closed p) STATUS_CANCELLED ;;;
      fail_if (deadline <=? now) STATUS_TIMEOUT ;;;
      ret None
  end.

(** [None] when the port was closed already. *)
Definition close_port_locked : M IoPortState (option Z) :=
  p <- gets id ;;
  if po_closed p then ret None else
  let dropped := Z.of_nat (length (po_packets p)) in
  modify (λ p, po_set [] true (po_posted p) (po_delivered p) (wrapping_add (po_dropped p) dropped) p) ;;;
  ret (Some dropped).

(** ** Ports in the store *)

Definition in_port {A} (port : Z) (c : M IoPortState A) : M Ports A := λ s,
  match pt_store s !! port with
  | None => Panic
  | Some p => match c p with
              | Done r p' => Done r (pt_set_store (<[port := p']> (pt_store s)) s)
              | Panic => Panic
              end
  end.

Definition rouse (t : PortWaiter) : PortWaiter :=
  {| pw_port := pw_port t; pw_deadline := pw_deadline t; pw_awake := true |}.

(** [notify_one] of the thread the host picks, if one sleeps on the port *)
Definition notify_one (choice : option Z) : M Ports unit :=
  modify (λ s, match choice with
    | Some thread => pt_set_waiters (alter rouse thread (pt_waiters s)) s
    | None => s
    end).

(** [notify_all] *)
Definition notify_port (port : Z) : M Ports unit :=
  modify (λ s, pt_set_waiters
    ((λ t, if bool_decide (pw_port t = port) then rouse t else t) <$> pt_waiters s) s).

Definition post (port : Z) (packet : CompletionPacket) (choice : option Z) : M Ports unit :=
  in_port port (post_locked packet) ;;; notify_one choice.

Definition try_dequeue (port : Z) : M Ports (option CompletionPacket) :=
  in_port port try_dequeue_locked.

Definition close_port (port : Z) : M Ports Z :=
  o <- in_port port close_port_locked ;;
  match o with
  | None => ret 0
  | Some dropped => notify_port port ;;; ret dropped
  end.

(** A turn of [dequeue], then the thread answers or sleeps. *)
Definition dequeue_attempt (thread port deadline now : Z) : M Ports (option CompletionPacket) := λ s,
  match in_port port (dequeue_turn now deadline) s with
  | Done (Ok None) s' =>
      Done (Ok None) (pt_set_waiters
        (<[thread := {| pw_port := port; pw_deadline := deadline; pw_awake := false |}]> (pt_waiters s')) s')
  | Done r s' => Done r (pt_set_waiters (delete thread (pt_waiters s')) s')
  | Panic => Panic
  end.

(** [dequeue] entered at [now]; a deadline past [instant_max] panics. *)
Definition dequeue (instant_max thread port now timeout : Z) : M Ports (option CompletionPacket) :=
  deadline <- add_at instant_max now timeout ;;
  dequeue_attempt thread port deadline now.

(** [thread] returns from [wait_timeout] and runs a turn. *)
Definition dequeue_resume (thread now : Z) : M Ports (option CompletionPacket) := λ s,
  match pt_waiters s !! thread with
  | Some t => dequeue_attempt thread (pw_port t) (pw_deadline t) now s
  | None => Panic
  end.

Definition io_posted_count (port : Z) : M Ports Z := in_port port (gets po_posted).
Definition io_delivered_count (port : Z) : M Ports Z := in_port port (gets po_delivered).
Definition io_dropped_count (port : Z) : M Ports Z := in_port port (gets po_dropped).
Definition io_pending_count (port : Z) : M Ports Z :=
  in_port port (gets (λ p, Z.of_nat (length (po_packets p)))).
Definition io_is_closed (port : Z) : M Ports bool := in_port port (gets po_closed).
Definition queue_depth (port : Z) : M Ports Z := in_port port (gets po_queue_depth).
