(* ===== verification/IoPortFacts.v ===== *)
(** * Correctness of the I/O completion ports

    Over every interleaving of posters, dequeuers and closers, packets leave a port
    in the order they were posted, each once, and a wakeup is never lost although
    [post] wakes a single thread. *)

From S2P Require Import Prelude Status IoPort.

Module Iop.

(** ** The history of one port *)

Record History := {
  h_posted : list CompletionPacket;
  h_delivered : list CompletionPacket;
  h_dropped : list CompletionPacket;
}.

Definition no_history : History := {| h_posted := []; h_delivered := []; h_dropped := [] |}.

Inductive label : Type :=
| LPosted (p : CompletionPacket) | LDelivered (p : CompletionPacket)
| LDropped (l : list CompletionPacket) | LQuiet.

Definition record (l : label) (h : History) : History :=
  match l with
  | LPosted p => {| h_posted := h_posted h ++ [p]; h_delivered := h_delivered h; h_dropped := h_dropped h |}
  | LDelivered p => {| h_posted := h_posted h; h_delivered := h_delivered h ++ [p]; h_dropped := h_dropped h |}
  | LDropped l => {| h_posted := h_posted h; h_delivered := h_delivered h; h_dropped := h_dropped h ++ l |}
  | LQuiet => h
  end.

Definition wraps (x : Z) (n : nat) : Prop := x = Z.of_nat n mod 18446744073709551616.

Record PortInv (h : History) (p : IoPortState) : Prop := {
  pv_order : h_posted h = h_delivered h ++ h_dropped h ++ po_packets p;
  pv_open : po_closed p = false → h_dropped h = [];
  pv_closed : po_closed p = true → po_packets p = [];
  pv_counts : wraps (po_posted p) (length (h_posted h)) ∧
    wraps (po_delivered p) (length (h_delivered h)) ∧ wraps (po_dropped p) (length (h_dropped h));
}.

Lemma wraps_add x n m : wraps x n → wraps (wrapping_add x (Z.of_nat m)) (n + m).
Proof.
  unfold wraps, wrapping_add. intros ->. rewrite Zplus_mod_idemp_l. f_equal. lia.
Qed.

Lemma queueinv_fresh depth : PortInv no_history (new_port depth).
Proof. by constructor. Qed.

Lemma queueinv_post h p packet r p' :
  PortInv h p → post_locked packet p = Done r p' →
  match r with
  | Ok _ => PortInv (record (LPosted packet) h) p' ∧ po_closed p = false ∧ po_closed p' = false ∧
      length (po_packets p') = S (length (po_packets p))
  | Err _ => p' = p
  end.
Proof.
  intros []. unfold post_locked. mrun. unfold id. destruct (po_closed p) eqn:Ec; mrun; intros [= <- <-]; [done|].
  split; [|split; [done|split; [exact Ec|simpl; rewrite length_app; simpl; lia]]].
  destruct pv_counts0 as (E1 & E2 & E3).
  constructor; simpl; rewrite ?Ec; try done.
  - by rewrite pv_order0, <-!app_assoc.
  - split_and!; [|done|done]. rewrite length_app. apply (wraps_add _ _ 1 E1).
Qed.

(** What a turn of [dequeue] does. *)
Definition dequeued (h : History) (p p' : IoPortState) (o : option CompletionPacket) : Prop :=
  match o with
  | Some packet => PortInv (record (LDelivered packet) h) p' ∧ po_closed p' = po_closed p ∧
      length (po_packets p) = S (length (po_packets p'))
  | None => p' = p ∧ po_packets p = []
  end.

Lemma queueinv_try h p r p' :
  PortInv h p → try_dequeue_locked p = Done r p' → ∃ o, r = Ok o ∧ dequeued h p p' o.
Proof.
  intros []. unfold try_dequeue_locked. mrun. unfold id.
  destruct (po_packets p) as [|packet rest] eqn:E; mrun; intros [= <- <-]; eexists; (split; [done|]); simpl.
  - done.
  - destruct pv_counts0 as (E1 & E2 & E3). split; [|by rewrite E].
    assert (po_closed p = false) as Ec.
    { destruct (po_closed p) eqn:Ec; [|done]. by specialize (pv_closed0 eq_refl). }
    assert (h_dropped h = []) as Ed by (by apply pv_open0).
    constructor; simpl; rewrite ?Ec; try done.
    + rewrite pv_order0, Ed. simpl. by rewrite <-app_assoc.
    + split_and!; [done| |done]. rewrite length_app. apply (wraps_add _ _ 1 E2).
Qed.

Lemma queueinv_turn h p now d r p' :
  PortInv h p → dequeue_turn now d p = Done r p' →
  match r with
  | Ok (Some packet) => dequeued h p p' (Some packet)
  | Ok None => p' = p ∧ po_packets p = [] ∧ po_closed p = false ∧ now < d
  | Err e => p' = p ∧ po_packets p = [] ∧
      (e = if po_closed p then STATUS_CANCELLED else STATUS_TIMEOUT) ∧ (po_closed p = false → d ≤ now)
  end.
Proof.
  intros Hp. unfold dequeue_turn, bind at 1.
  destruct (try_dequeue_locked p) as [r1 p1|] eqn:E; [|done].
  destruct (queueinv_try h p r1 p1 Hp E) as ([packet|] & -> & Hd); mrun.
  - by intros [= <- <-].
  - destruct Hd as [-> Hq]. unfold id. destruct (po_closed p) eqn:Ec; mrun; [by intros [= <- <-]|].
    destruct (d <=? now) eqn:El; bool_prop; mrun; intros [= <- <-]; (split_and!; [done|done|done|lia]).
Qed.

Lemma queueinv_close h p r p' :
  PortInv h p → close_port_locked p = Done r p' →
  ∃ o, r = Ok o ∧
  match o with
  | Some n => PortInv (record (LDropped (po_packets p)) h) p' ∧ n = Z.of_nat (length (po_packets p)) ∧
      po_packets p' = [] ∧ po_closed p' = true
  | None => p' = p ∧ po_closed p = true
  end.
Proof.
  intros []. unfold close_port_locked. mrun. unfold id.
  destruct (po_closed p) eqn:Ec; mrun; intros [= <- <-]; eexists; (split; [done|]); [done|].
  split; [|done]. destruct pv_counts0 as (E1 & E2 & E3). constructor; simpl; try done.
  - rewrite app_nil_r. rewrite pv_order0. by rewrite (pv_open0 eq_refl).
  - split_and!; [done|done|]. rewrite length_app. by apply wraps_add.
Qed.

(** ** Interleavings *)

(** The state of the ports, the [notify_one]s and the [notify_all]s still to run. *)
Record World := { w_ports : Ports; w_one : list Z; w_all : list Z }.

Definition got (r : result (option CompletionPacket)) : label :=
  match r with Ok (Some p) => LDelivered p | _ => LQuiet end.

Definition packets_of (s : Ports) (port : Z) : list CompletionPacket :=
  match pt_store s !! port with Some p => po_packets p | None => [] end.

(** A thread asleep on [port]. *)
Definition asleep (s : Ports) (port thread : Z) : Prop :=
  ∃ t, pt_waiters s !! thread = Some t ∧ pw_port t = port ∧ pw_awake t = false.

Section system.
Variable instant_max : Z.

Inductive step : World → Z → label → World → Prop :=
| st_create port depth s one all :
    pt_store s !! port = None →
    step {| w_ports := s; w_one := one; w_all := all |} port LQuiet
      {| w_ports := pt_set_store (<[port := new_port depth]> (pt_store s)) s; w_one := one; w_all := all |}
| st_post port packet s one all s' :
    in_port port (post_locked packet) s = Done (Ok tt) s' →
    step {| w_ports := s; w_one := one; w_all := all |} port (LPosted packet)
      {| w_ports := s'; w_one := port :: one; w_all := all |}
| st_post_refused port packet s one all e s' :
    in_port port (post_locked packet) s = Done (Err e) s' →
    step {| w_ports := s; w_one := one; w_all := all |} port LQuiet
      {| w_ports := s'; w_one := one; w_all := all |}
| st_notify_one port choice s one1 one2 all r s' :
    match choice with
    | Some thread => asleep s port thread
    | None => ∀ thread, ¬ asleep s port thread
    end →
    notify_one choice s = Done r s' →
    step {| w_ports := s; w_one := one1 ++ port :: one2; w_all := all |} port LQuiet
      {| w_ports := s'; w_one := one1 ++ one2; w_all := all |}
| st_notify_all port s one all1 all2 r s' :
    notify_port port s = Done r s' →
    step {| w_ports := s; w_one := one; w_all := all1 ++ port :: all2 |} port LQuiet
      {| w_ports := s'; w_one := one; w_all := all1 ++ all2 |}
| st_try port s one all r s' :
    try_dequeue port s = Done r s' →
    step {| w_ports := s; w_one := one; w_all := all |} port (got r)
      {| w_ports := s'; w_one := one; w_all := all |}
| st_dequeue thread port now timeout s one all r s' :
    pt_waiters s !! thread = None → dequeue instant_max thread port now timeout s = Done r s' →
    step {| w_ports := s; w_one := one; w_all := all |} port (got r)
      {| w_ports := s'; w_one := one; w_all := all |}
| st_resume thread t now s one all r s' :
    pt_waiters s !! thread = Some t → dequeue_resume thread now s = Done r s' →
    step {| w_ports := s; w_one := one; w_all := all |} (pw_port t) (got r)
      {| w_ports := s'; w_one := one; w_all := all |}
| st_close port s one all n s' :
    in_port port close_port_locked s = Done (Ok (Some n)) s' →
    step {| w_ports := s; w_one := one; w_all := all |} port (LDropped (packets_of s port))
      {| w_ports := s'; w_one := one; w_all := port :: all |}
| st_close_again port s one all s' :
    in_port port close_port_locked s = Done (Ok None) s' →
    step {| w_ports := s; w_one := one; w_all := all |} port LQuiet
      {| w_ports := s'; w_one := one; w_all := all |}.

Definition note (port : Z) (l : label) (h : Z → History) : Z → History :=
  λ q, if decide (q = port) then record l (h q) else h q.

Inductive run : World → (Z → History) → Prop :=
| run_init : run {| w_ports := {| pt_store := ∅; pt_waiters := ∅ |}; w_one := []; w_all := [] |} (λ _, no_history)
| run_step w h port l w' : run w h → step w port l w' → run w' (note port l h).

(** ** The invariant *)

(** The threads that were woken on a port and have not run yet. *)
Definition awake_weight (port : Z) (_ : Z) (t : PortWaiter) : Z :=
  if bool_decide (pw_port t = port) && pw_awake t then 1 else 0.
Definition awake (s : Ports) (port : Z) : Z := map_sum (awake_weight port) (pt_waiters s).
Definition owed (one : list Z) (port : Z) : Z := Z.of_nat (length (filter (λ q, q = port) one)).

(** While a thread sleeps on a port, every packet has a thread that was woken, or a
    [notify_one] still to run, and the port is open or its [notify_all] is to run. *)
Definition no_loss (s : Ports) (one all : list Z) (port : Z) (p : IoPortState) : Prop :=
  ∀ thread, asleep s port thread → port ∈ all ∨
    (Z.of_nat (length (po_packets p)) ≤ awake s port + owed one port ∧ po_closed p = false).

Record WInv (w : World) (h : Z → History) : Prop := {
  wi_ports : ∀ q p, pt_store (w_ports w) !! q = Some p →
    PortInv (h q) p ∧ no_loss (w_ports w) (w_one w) (w_all w) q p;
  wi_none : ∀ q, pt_store (w_ports w) !! q = None →
    h q = no_history ∧ ∀ thread, ¬ asleep (w_ports w) q thread;
}.

Lemma awake_nonneg s port : 0 ≤ awake s port.
Proof. apply map_sum_nonneg. intros k t _. unfold awake_weight. by destruct (_ && _). Qed.

Lemma note_here port l h : note port l h port = record l (h port).
Proof. unfold note. by rewrite decide_True. Qed.
Lemma note_elsewhere port l h q : q ≠ port → note port l h q = h q.
Proof. intros. unfold note. by rewrite decide_False. Qed.

Lemma in_port_inv {A} port (c : M IoPortState A) s r s' :
  in_port port c s = Done r s' →
  ∃ p p', pt_store s !! port = Some p ∧ c p = Done r p' ∧
    s' = pt_set_store (<[port := p']> (pt_store s)) s.
Proof.
  unfold in_port. destruct (pt_store s !! port) as [p|]; [|done].
  destruct (c p) as [r' p'|] eqn:E; [|done]. intros [= <- <-]. by exists p, p'.
Qed.

(** One port changes; the waiters of other ports, the awake ones and what is owed to
    them stay. *)
Lemma worldinv_port s one all one' all' h port p p' ws' l :
  WInv {| w_ports := s; w_one := one; w_all := all |} h →
  pt_store s !! port = Some p → PortInv (record l (h port)) p' →
  let s' := {| pt_store := <[port := p']> (pt_store s); pt_waiters := ws' |} in
  (∀ q thread, q ≠ port → asleep s' q thread → asleep s q thread) →
  (∀ q, q ≠ port → awake s' q = awake s q ∧ owed one' q = owed one q ∧ (q ∈ all → q ∈ all')) →
  no_loss s' one' all' port p' →
  WInv {| w_ports := s'; w_one := one'; w_all := all' |} (note port l h).
Proof.
  intros [] Hp Hinv s' Has Haw Hnl. constructor; simpl in *.
  - intros q x. rewrite lookup_insert_Some. intros [[<- <-]|[Hne Hx]].
    + by rewrite note_here.
    + rewrite note_elsewhere by done. destruct (wi_ports0 _ _ Hx) as [? Hq]. split; [done|].
      destruct (Haw q) as (E1 & E2 & Hall); [done|]. intros th Hth. rewrite E1, E2.
      destruct (Hq th) as [?|?]; [by apply Has|left; auto|by right].
  - intros q [Hq Hne]%lookup_insert_None. rewrite note_elsewhere by done.
    destruct (wi_none0 q Hq) as [? Hno]. split; [done|]. intros th Hth. apply (Hno th). by apply Has.
Qed.

(** *** The waiters *)

Lemma awake_weight_ne q k t : pw_port t ≠ q → awake_weight q k t = 0.
Proof. intros. unfold awake_weight. by rewrite bool_decide_false. Qed.
Lemma awake_weight_le q k t : 0 ≤ awake_weight q k t ≤ 1.
Proof. unfold awake_weight. destruct (_ && _); lia. Qed.

Lemma awake_delete s thread port :
  (∀ t, pt_waiters s !! thread = Some t → pw_port t = port) →
  let s' := pt_set_waiters (delete thread (pt_waiters s)) s in
  (∀ q, q ≠ port → awake s' q = awake s q) ∧ awake s port ≤ awake s' port + 1.
Proof.
  intros Hport s'. unfold awake, s'. simpl.
  destruct (pt_waiters s !! thread) as [t|] eqn:Et.
  - specialize (Hport t eq_refl). split; [intros q Hq|]; rewrite (map_sum_delete _ (pt_waiters s) thread t Et).
    + rewrite (awake_weight_ne q) by congruence. lia.
    + pose proof (awake_weight_le port thread t). lia.
  - split; [intros q Hq|]; rewrite delete_id by done; [done|lia].
Qed.

Lemma awake_sleep s thread port d :
  (∀ t, pt_waiters s !! thread = Some t → pw_port t = port) →
  ∀ q, q ≠ port → awake (pt_set_waiters (<[thread := {| pw_port := port; pw_deadline := d;
    pw_awake := false |}]> (pt_waiters s)) s) q = awake s q.
Proof.
  intros Hport q Hq. destruct (awake_delete s thread port Hport) as [E _].
  rewrite <-(E q Hq). unfold awake. simpl. rewrite <-insert_delete_eq, map_sum_insert by apply lookup_delete_eq.
  rewrite (awake_weight_ne q); [lia|simpl; congruence].
Qed.

Lemma awake_rouse s port thread :
  asleep s port thread →
  let s' := pt_set_waiters (alter rouse thread (pt_waiters s)) s in
  (∀ q, q ≠ port → awake s' q = awake s q) ∧ awake s' port = awake s port + 1.
Proof.
  intros (t & Ht & Hp & Ha) s'. unfold awake, s'. simpl. rewrite (alter_is_insert _ _ _ t) by done.
  split; [intros q Hq|]; rewrite (map_sum_update _ _ _ t) by done.
  - rewrite !(awake_weight_ne q) by (simpl; congruence). lia.
  - unfold awake_weight at 2 3. simpl. rewrite Ha, Hp, bool_decide_true by done. simpl. lia.
Qed.

Lemma asleep_rouse s thread q th :
  asleep (pt_set_waiters (alter rouse thread (pt_waiters s)) s) q th → asleep s q th.
Proof.
  intros (t & Ht & Hp & Ha). simpl in Ht. destruct (decide (th = thread)) as [->|].
  - rewrite lookup_alter_eq in Ht. destruct (pt_waiters s !! thread); [|done]. by simplify_eq/=.
  - rewrite lookup_alter_ne in Ht by done. by exists t.
Qed.

Lemma asleep_delete s thread q th :
  asleep (pt_set_waiters (delete thread (pt_waiters s)) s) q th → asleep s q th.
Proof. intros (t & Ht & H). simpl in Ht. apply lookup_delete_Some in Ht as [_ Ht]. by exists t. Qed.

Lemma asleep_insert s thread port d q th :
  q ≠ port → asleep (pt_set_waiters (<[thread := {| pw_port := port; pw_deadline := d;
    pw_awake := false |}]> (pt_waiters s)) s) q th → asleep s q th.
Proof.
  intros Hq (t & Ht & Hp & Ha). simpl in Ht. apply lookup_insert_Some in Ht as [[<- <-]|[_ Ht]]; [by simplify_eq/=|].
  by exists t.
Qed.

Lemma owed_cons one port q : owed (port :: one) q = owed one q + (if decide (port = q) then 1 else 0).
Proof. unfold owed. rewrite filter_cons. case_decide; simpl; lia. Qed.

Lemma owed_app one1 one2 q : owed (one1 ++ one2) q = owed one1 q + owed one2 q.
Proof. unfold owed. rewrite filter_app, length_app. lia. Qed.

Lemma owed_paid one1 port one2 q :
  owed (one1 ++ port :: one2) q = owed (one1 ++ one2) q + (if decide (port = q) then 1 else 0).
Proof. rewrite !owed_app, owed_cons. lia. Qed.

(** *** The steps *)

Lemma note_same w h port p l :
  WInv w h → pt_store (w_ports w) !! port = Some p → record l (h port) = h port → PortInv (record l (h port)) p.
Proof. intros Hw Hp ->. by apply (wi_ports _ _ Hw). Qed.

(** A step that touches no waiter and owes no less. *)
Lemma worldinv_quick s one all one' all' h port p p' l :
  WInv {| w_ports := s; w_one := one; w_all := all |} h →
  pt_store s !! port = Some p → PortInv (record l (h port)) p' →
  (∀ q, q ≠ port → owed one' q = owed one q) → (∀ q, q ∈ all → q ∈ all') →
  port ∈ all' ∨ (po_closed p' = po_closed p ∧
    Z.of_nat (length (po_packets p')) - Z.of_nat (length (po_packets p)) ≤ owed one' port - owed one port) →
  WInv {| w_ports := pt_set_store (<[port := p']> (pt_store s)) s; w_one := one'; w_all := all' |} (note port l h).
Proof.
  intros Hw Hp Hi Ho Ha Hn. eapply worldinv_port; try done.
  - intros q Hq. split_and!; [done|by apply Ho|apply Ha].
  - intros th Hth. destruct Hn as [?|[Ec Hl]]; [by left|].
    destruct (wi_ports _ _ Hw _ _ Hp) as [_ Hq]. destruct (Hq th Hth) as [?|[H1 H2]]; [left; auto|right].
    unfold awake in *. simpl in *. split; [lia|congruence].
Qed.

(** A step that wakes threads or settles a [notify_one]. *)
Lemma worldinv_waiters s ws one one' all all' h port :
  let s' := pt_set_waiters ws s in
  WInv {| w_ports := s; w_one := one; w_all := all |} h →
  (∀ q th, asleep s' q th → asleep s q th ∧ (q ∈ all → q ∈ all') ∧
    awake s q + owed one q ≤ awake s' q + owed one' q) →
  WInv {| w_ports := s'; w_one := one'; w_all := all' |} (note port LQuiet h).
Proof.
  intros s' [] Hs. assert (∀ q, note port LQuiet h q = h q) as En by (intros q; unfold note; by case_decide; subst).
  constructor; simpl in *.
  - intros q p Hq. rewrite En. destruct (wi_ports0 q p Hq) as [Hi Hn]. split; [done|].
    intros th Hth. destruct (Hs q th Hth) as (Hth' & Hall & Hle).
    destruct (Hn th Hth') as [?|[??]]; [left; auto|right; split; [lia|done]].
  - intros q Hq. rewrite En. destruct (wi_none0 q Hq) as [? Hno]. split; [done|].
    intros th Hth. apply (Hno th). by apply Hs.
Qed.

(** A turn of the loop of [dequeue]. *)
Lemma worldinv_attempt thread port d now s one all h r s' :
  WInv {| w_ports := s; w_one := one; w_all := all |} h →
  (∀ t, pt_waiters s !! thread = Some t → pw_port t = port) →
  dequeue_attempt thread port d now s = Done r s' →
  WInv {| w_ports := s'; w_one := one; w_all := all |} (note port (got r) h).
Proof.
  intros Hw Hport. unfold dequeue_attempt.
  destruct (in_port port (dequeue_turn now d) s) as [r1 s1|] eqn:E; [|done].
  apply in_port_inv in E as (p & p' & Hp & E & ->).
  destruct (wi_ports _ _ Hw _ _ Hp) as [Hi Hn].
  destruct (awake_delete s thread port Hport) as [Ene Eeq].
  assert (∀ l, PortInv (record l (h port)) p' → po_closed p' = po_closed p →
    (length (po_packets p') + 1 ≤ length (po_packets p))%nat ∨ po_packets p' = [] →
    WInv {| w_ports := pt_set_waiters (delete thread (pt_waiters s)) (pt_set_store (<[port := p']> (pt_store s)) s);
      w_one := one; w_all := all |} (note port l h)) as Hleave.
  { intros l Hl Hc Hlen. eapply worldinv_port; try done.
    - intros q th _ Hth. exact (asleep_delete s thread q th Hth).
    - intros q Hq. split_and!; [by apply Ene|done|done].
    - intros th Hth. assert (asleep s port th) as Hth' by (exact (asleep_delete s thread port th Hth)).
      destruct (Hn th Hth') as [?|[H1 H2]]; [by left|right]. rewrite Hc. split; [|done]. simpl in *.
      change (awake _ port) with (awake (pt_set_waiters (delete thread (pt_waiters s)) s) port).
      destruct Hlen as [Hlen|Hlen]; [lia|]. rewrite Hlen. simpl.
      pose proof (awake_nonneg (pt_set_waiters (delete thread (pt_waiters s)) s) port). unfold owed. lia. }
  eapply queueinv_turn in E; [|done].
  destruct r1 as [[packet|]|e]; intros [= <- <-]; simpl.
  - destruct E as (Hl & Hc & Hlen). apply Hleave; [done|done|left; lia].
  - destruct E as (-> & Hq & Hc & _). eapply worldinv_port; try done.
    + intros q th Hq' Hth. exact (asleep_insert s thread port d q th Hq' Hth).
    + intros q Hq'. split_and!; [|done|done]. by apply (awake_sleep s thread port d).
    + intros th _. right. rewrite Hq, Hc. split; [|done]. simpl.
      match goal with |- _ ≤ awake ?s' _ + _ => pose proof (awake_nonneg s' port) end. unfold owed. lia.
  - destruct E as (-> & Hq & _ & _). apply Hleave; [done|done|by right].
Qed.

Lemma worldinv_step w h port l w' : WInv w h → step w port l w' → WInv w' (note port l h).
Proof.
  intros Hw Hstep. inversion Hstep as
    [q depth s one all Hq|q packet s one all s' H|q packet s one all e s' H|q choice s one1 one2 all r s' Hch H
    |q s one all1 all2 r s' H|q s one all r s' H|th q now to s one all r s' Hth H|th t now s one all r s' Hth H
    |q s one all n s' H|q s one all s' H]; subst.
  - destruct (wi_none _ _ Hw port Hq) as [Eh Hno]. destruct Hw as []. constructor; simpl in *.
    + intros x p [[<- <-]|[Hne Hx]]%lookup_insert_Some.
      * rewrite note_here. simpl. rewrite Eh. split; [apply queueinv_fresh|]. intros th Hth. by destruct (Hno th).
      * rewrite note_elsewhere by done. by apply wi_ports0.
    + intros x [Hx Hne]%lookup_insert_None. rewrite note_elsewhere by done. by apply wi_none0.
  - apply in_port_inv in H as (p & p' & Hp & H & ->).
    eapply queueinv_post in H as (Hl & Hc & Hc' & Hlen); [|by apply (wi_ports _ _ Hw)].
    eapply worldinv_quick; try done.
    + intros q Hq. rewrite owed_cons, decide_False by done. lia.
    + right. rewrite Hc, Hc', owed_cons, decide_True by done. split; [done|lia].
  - apply in_port_inv in H as (p & p' & Hp & H & ->).
    eapply queueinv_post in H; [|by apply (wi_ports _ _ Hw)]. subst.
    eapply worldinv_quick; try done; [by eapply note_same|]. right. split; [done|lia].
  - injection H as <- <-. destruct choice as [th|].
    + destruct (awake_rouse s port th Hch) as [Ene Eeq]. eapply worldinv_waiters; [done|].
      intros q th' Hth. split; [by eapply asleep_rouse|]. split; [done|]. rewrite owed_paid.
      case_decide; subst; [rewrite Eeq|rewrite Ene by done]; lia.
    + assert (s = pt_set_waiters (pt_waiters s) s) as Es by (by destruct s). rewrite Es.
      eapply worldinv_waiters; [done|].
      intros q th' Hth. split; [done|]. split; [done|]. rewrite owed_paid.
      case_decide; subst; [by destruct (Hch th')|]. unfold awake. simpl. lia.
  - injection H as <- <-. eapply worldinv_waiters; [done|].
    intros q th (t & Ht & Hp & Ha). simpl in Ht. rewrite lookup_fmap, fmap_Some in Ht.
    destruct Ht as (t0 & Ht0 & ->). case_bool_decide as Eq; [done|].
    split; [by exists t0|]. split; [set_solver|]. unfold awake. simpl.
    rewrite map_sum_fmap. apply Z.add_le_mono_r, map_sum_le. intros k v _.
    case_bool_decide; unfold awake_weight; simpl; repeat (destruct (bool_decide _)); destruct (pw_awake v); simpl; lia.
  - apply in_port_inv in H as (p & p' & Hp & H & ->).
    eapply queueinv_try in H as (o & -> & Hd); [|by apply (wi_ports _ _ Hw)].
    destruct o as [packet|]; simpl in *.
    + destruct Hd as (Hl & Hc & Hlen). eapply worldinv_quick; try done. right. split; [done|lia].
    + destruct Hd as [-> _]. eapply worldinv_quick; try done; [by eapply note_same|]. right. split; [done|lia].
  - unfold dequeue in H. mrun. destruct (_ <=? _); [|done]. eapply worldinv_attempt; try done.
    intros t Ht. congruence.
  - unfold dequeue_resume in H. rewrite Hth in H. eapply worldinv_attempt; try done.
    intros t' Ht. congruence.
  - apply in_port_inv in H as (p & p' & Hp & H & ->).
    eapply queueinv_close in H as (o & [= <-] & Hl & _); [|by apply (wi_ports _ _ Hw)].
    eapply worldinv_quick; try done; [|set_solver|left; set_solver].
    unfold packets_of. by rewrite Hp.
  - apply in_port_inv in H as (p & p' & Hp & H & ->).
    eapply queueinv_close in H as (o & [= <-] & -> & _); [|by apply (wi_ports _ _ Hw)].
    eapply worldinv_quick; try done; [by eapply note_same|]. right. split; [done|lia].
Qed.

Lemma worldinv_run w h : run w h → WInv w h.
Proof.
  induction 1 as [|w h port l w' _ IH Hstep]; [|by eapply worldinv_step].
  constructor; simpl; [intros; simplify_map_eq|].
  intros q _. split; [done|]. intros th (t & Ht & _). simpl in Ht. by rewrite lookup_empty in Ht.
Qed.

(** ** Theorems *)

(** C24 - Over every interleaving of posters, dequeuers and closers, the packets of a
    completion port leave it in the order they were posted and each once: what was
    posted is what was delivered, then what a close dropped, then what is queued.  A
    packet is dropped only by a close, a closed port is empty, and the three counters
    are the lengths of those histories modulo 2^64. *)
Theorem packets_exactly_once w h port p :
  run w h → pt_store (w_ports w) !! port = Some p →
  h_posted (h port) = h_delivered (h port) ++ h_dropped (h port) ++ po_packets p ∧
  (po_closed p = false → h_dropped (h port) = []) ∧ (po_closed p = true → po_packets p = []) ∧
  wraps (po_posted p) (length (h_posted (h port))) ∧
  wraps (po_delivered p) (length (h_delivered (h port))) ∧
  wraps (po_dropped p) (length (h_dropped (h port))).
Proof. intros Hr%worldinv_run Hp. destruct (wi_ports _ _ Hr _ _ Hp) as [[] _]. by destruct pv_counts0 as (? & ? & ?). Qed.

(** *** The calls, as their steps *)

(** The host picks a thread that sleeps on the port, when there is one. *)
Definition picked (port : Z) (choice : option Z) (s : Ports) : Prop :=
  match choice with
  | Some thread => asleep s port thread
  | None => ∀ thread, ¬ asleep s port thread
  end.
(** [s'] is reached too, with what happened at [port] recorded, and owes no more. *)
Definition reaches (w : World) (h : Z → History) (port : Z) (l : label) (s' : Ports) : Prop :=
  ∃ h', run {| w_ports := s'; w_one := w_one w; w_all := w_all w |} h' ∧ ∀ q, h' q = note port l h q.

Lemma note_quietly port h q : note port LQuiet h q = h q.
Proof. unfold note. by case_decide; subst. Qed.
Lemma reaches_quietly w h port l w1 s' :
  run w h → step w port l w1 → step w1 port LQuiet {| w_ports := s'; w_one := w_one w; w_all := w_all w |} → reaches w h port l s'.
Proof.
  intros Hr H1 H2. exists (note port LQuiet (note port l h)). split; [by eapply run_step; [eapply run_step|]|].
  intros q. by apply note_quietly.
Qed.
Lemma reaches_once w h port l s' :
  run w h → step w port l {| w_ports := s'; w_one := w_one w; w_all := w_all w |} → reaches w h port l s'.
Proof. intros Hr H. exists (note port l h). split; [by eapply run_step|done]. Qed.

(** The section of [post], then its [notify_one]. *)
Lemma post_steps w h port packet choice r s' :
  run w h → picked port choice (w_ports w) → post port packet choice (w_ports w) = Done r s' →
  reaches w h port (match r with Ok _ => LPosted packet | Err _ => LQuiet end) s'.
Proof.
  intros Hr Hc. destruct w as [s one all]. simpl in *. unfold post. cbn [bind].
  destruct (in_port port (post_locked packet) s) as [[[]|e] s1|] eqn:E; [| |done].
  - intros H. assert (r = Ok tt) as -> by (unfold notify_one in H; by injection H as <- _).
    eapply reaches_quietly; [done|by apply (st_post port packet s one all s1)|].
    apply (st_notify_one port choice s1 [] one all (Ok tt) s'); [|exact H].
    apply in_port_inv in E as (p & p' & _ & _ & ->). exact Hc.
  - intros [= <- <-]. apply reaches_once; [done|]. by eapply st_post_refused.
Qed.
(** The section of [close_port], then its [notify_all]; or neither. *)
Lemma close_steps w h port r s' :
  run w h → close_port port (w_ports w) = Done r s' →
  r = Ok (Z.of_nat (length (packets_of (w_ports w) port))) ∧ (∃ p', pt_store s' !! port = Some p' ∧ po_closed p' = true) ∧
  reaches w h port (LDropped (packets_of (w_ports w) port)) s'.
Proof.
  intros Hr. destruct w as [s one all]. simpl in *. unfold close_port. cbn [bind].
  destruct (in_port port close_port_locked s) as [r1 s1|] eqn:E; [|done].
  pose proof E as E0. apply in_port_inv in E0 as (p & p' & Hp & E0 & ->). pose proof (worldinv_run _ _ Hr) as Hw.
  destruct (wi_ports _ _ Hw _ _ Hp) as [Hi _]. destruct (queueinv_close _ _ _ _ Hi E0) as ([n|] & -> & Ho).
  - destruct Ho as (_ & -> & _ & Hc). unfold notify_port. cbn [bind modify ret]. intros [= <- <-].
    unfold packets_of at 1. rewrite Hp. split; [done|]. split; [exists p'; simpl; by rewrite lookup_insert_eq|].
    eapply reaches_quietly; [done|by eapply st_close|]. by apply (st_notify_all port _ one [] all (Ok tt)).
  - destruct Ho as [-> Hc]. intros [= <- <-]. assert (packets_of s port = []) as E1 by (unfold packets_of; rewrite Hp; by apply (pv_closed _ _ Hi)).
    rewrite E1. split; [done|]. split; [exists p; simpl; by rewrite lookup_insert_eq|].
    exists (note port LQuiet h). split; [eapply run_step; [done|by eapply st_close_again]|].
    intros q. unfold note. case_decide; [|done]. subst. simpl. destruct (h port). simpl. by rewrite app_nil_r.
Qed.

(** C33 - [post] wakes one thread only, and that is enough: while a thread is asleep in
    [dequeue] and the [notify_all] of a close is not pending, the port is open and
    there are no more packets than threads already woken and [notify_one]s still to
    run.  Once those have run, the port is empty: a turn run then sleeps again before
    its deadline and times out after.  [post] and [close_port] pay what they owe: run
    to their end, each is its section and its notification, and what it leaves is a
    reached state with no notification more to run, so a packet that was posted has
    its thread and a closed port no sleeper. *)
Theorem port_wakeups_suffice w h port :
  run w h →
  (∀ thread t p, pt_waiters (w_ports w) !! thread = Some t → pw_port t = port → pw_awake t = false →
     pt_store (w_ports w) !! port = Some p → port ∉ w_all w →
     po_closed p = false ∧
     Z.of_nat (length (po_packets p)) ≤ awake (w_ports w) port + owed (w_one w) port ∧
     (awake (w_ports w) port + owed (w_one w) port = 0 → ∀ now,
        result_of (dequeue_resume thread now (w_ports w)) =
          Some (if pw_deadline t <=? now then Err STATUS_TIMEOUT else Ok None))) ∧
  (∀ packet choice r s', picked port choice (w_ports w) → post port packet choice (w_ports w) = Done r s' →
     reaches w h port (match r with Ok _ => LPosted packet | Err _ => LQuiet end) s') ∧
  (∀ r s', close_port port (w_ports w) = Done r s' →
     r = Ok (Z.of_nat (length (packets_of (w_ports w) port))) ∧ reaches w h port (LDropped (packets_of (w_ports w) port)) s' ∧
     (port ∉ w_all w → ∀ thread, ¬ asleep s' port thread)).
Proof.
  intros Hr. split; [|split].
  - intros thread t p Ht Et Ha Hp Hall. pose proof (worldinv_run _ _ Hr) as Hw. destruct (wi_ports _ _ Hw _ _ Hp) as [_ Hn].
    destruct (Hn thread) as [?|[Hle Hc]]; [by exists t|done|].
    split; [done|]. split; [done|]. intros E0 now. rewrite E0 in Hle.
    assert (po_packets p = []) as Eq by (destruct (po_packets p); simpl in *; [done|lia]).
    unfold dequeue_resume. rewrite Ht. unfold dequeue_attempt, in_port, dequeue_turn, try_dequeue_locked.
    rewrite Et, Hp. mrun. unfold id. rewrite Eq. mrun. rewrite Hc. mrun. by destruct (_ <=? _).
  - intros packet choice r s'. by apply post_steps.
  - intros r s' E. destruct (close_steps w h port r s' Hr E) as (-> & (p' & Hp & Hc) & Hreach). split; [done|]. split; [done|].
    intros Hall th Hth. destruct Hreach as (h' & Hr'%worldinv_run & _). destruct (wi_ports _ _ Hr' _ _ Hp) as [_ Hn].
    destruct (Hn th Hth) as [?|[_ ?]]; [done|congruence].
Qed.

End system.

(** ** A concrete run: a thread falls asleep, a packet is posted *)

Definition demo_port : Ports := {| pt_store := {[1 := new_port 4]}; pt_waiters := ∅ |}.
Definition demo_asleep : Ports := state_of (dequeue 1000 7 1 0 100 demo_port) demo_port.
Definition demo_packet : CompletionPacket := new_packet 5 STATUS_SUCCESS 0.
Definition demo_posted : Ports := state_of (in_port 1 (post_locked demo_packet) demo_asleep) demo_asleep.
Definition demo_quiet : Z → History := note 1 LQuiet (note 1 LQuiet (λ _, no_history)).
Definition demo_world (s : Ports) (one : list Z) : World := {| w_ports := s; w_one := one; w_all := [] |}.

Lemma port_run_asleep : run 1000 (demo_world demo_asleep []) demo_quiet.
Proof.
  eapply run_step; [eapply run_step; [apply run_init|]|].
  - by apply (st_create 1000 1 4).
  - apply (st_dequeue 1000 7 1 0 100 demo_port [] [] (Ok None) demo_asleep); [by vm_compute|]. by apply run_eq.
Qed.

Lemma port_run_posted :
  run 1000 (demo_world demo_posted [1]) (note 1 (LPosted demo_packet) demo_quiet).
Proof.
  eapply run_step; [apply port_run_asleep|].
  apply (st_post 1000 1 demo_packet demo_asleep [] [] demo_posted). by apply run_eq.
Qed.

Lemma packets_exactly_once_witness :
  ∃ p, pt_store demo_posted !! 1 = Some p ∧ po_packets p = [demo_packet] ∧ wraps (po_posted p) 1.
Proof.
  assert (∃ p, pt_store demo_posted !! 1 = Some p ∧ po_packets p = [demo_packet]) as (p & Hp & Eq)
    by (eexists; split; by vm_compute).
  exists p. split; [done|]. split; [done|].
  destruct (packets_exactly_once 1000 _ _ 1 p port_run_posted Hp) as (_ & _ & _ & H & _). exact H.
Defined.

Lemma port_wakeups_suffice_witness :
  result_of (dequeue_resume 7 50 demo_asleep) = Some (Ok None) ∧
  result_of (dequeue_resume 7 100 demo_asleep) = Some (Err STATUS_TIMEOUT) ∧
  (∃ s', post 1 demo_packet (Some 7) demo_asleep = Done (Ok tt) s' ∧ reaches 1000 (demo_world demo_asleep []) demo_quiet 1 (LPosted demo_packet) s') ∧
  (∃ s', close_port 1 demo_asleep = Done (Ok 0) s' ∧ ¬ asleep s' 1 7).
Proof.
  assert (∃ p, pt_store demo_asleep !! 1 = Some p) as (p & Hp) by (eexists; by vm_compute).
  destruct (port_wakeups_suffice 1000 (demo_world demo_asleep []) demo_quiet 1 port_run_asleep) as (H1 & H2 & H3).
  destruct (H1 7 {| pw_port := 1; pw_deadline := 100; pw_awake := false |} p) as (_ & _ & H);
    [by vm_compute|done|done|exact Hp|apply not_elem_of_nil|].
  split; [apply H; by vm_compute|]. split; [apply H; by vm_compute|]. split.
  - eexists. split; [by vm_compute|]. apply (H2 demo_packet (Some 7) (Ok tt)); [|by vm_compute].
    exists {| pw_port := 1; pw_deadline := 100; pw_awake := false |}. by vm_compute.
  - eexists. split; [by vm_compute|]. apply (H3 (Ok 0)); [by vm_compute|apply not_elem_of_nil].
Defined.

End Iop.
