(* ===== verification/Io.v ===== *)
(** * The I/O manager ([src/casak/io.rs], [IoManager])

    Driver and device objects over one object manager, the device stacks and the
    device chain of each driver, the allocation of IRPs, and the completion ports
    with the handles bound to them.  The IRPs are the core of [Irp], the ports those
    of [IoPort]; the manager owns one of each.

    The loops over links carry fuel, one unit more than there are devices; running
    out of it is [Panic], which the invariant excludes. *)

From S2P Require Import Prelude Status Object Irp IoPort.

(** ** Data *)

Record DriverObject := {
  dr_id : Z;
  dr_name : list Z;
  dr_extension : list Z;
  dr_first_device : option Z;
  dr_device_count : Z;
}.

Record DeviceObject := {
  dv_id : Z;
  dv_name : option (list Z);
  dv_driver : option Z;
  dv_extension : list Z;
  dv_flags : Z;
  dv_deleted : bool;
  dv_attached_device : option Z;
  dv_lower_device : option Z;
  dv_next_device : option Z;
}.

Record SynchronousIoResult := { sr_irp : Z; sr_status : Z; sr_information : Z }.

(** A [CompletionPort] is its identifier; [io_live] is the key set of [ports]. *)
Record IoManager := {
  io_objects : ObjectManager;
  io_drivers : gmap Z DriverObject;
  io_devices : gmap Z DeviceObject;
  io_irps : IrpState;
  io_live : gset Z;
  io_ports : Ports;
  io_bindings : gmap (Z * Z) (Z * Z);
}.

Definition new_io_manager : IoManager :=
  {| io_objects := new_manager; io_drivers := ∅; io_devices := ∅; io_irps := new_core;
     io_live := ∅; io_ports := {| pt_store := ∅; pt_waiters := ∅ |}; io_bindings := ∅ |}.

(** ** Field updates *)

Definition io_set_objects (o : ObjectManager) (s : IoManager) : IoManager :=
  {| io_objects := o; io_drivers := io_drivers s; io_devices := io_devices s; io_irps := io_irps s;
     io_live := io_live s; io_ports := io_ports s; io_bindings := io_bindings s |}.
Definition io_set_drivers (d : gmap Z DriverObject) (s : IoManager) : IoManager :=
  {| io_objects := io_objects s; io_drivers := d; io_devices := io_devices s; io_irps := io_irps s;
     io_live := io_live s; io_ports := io_ports s; io_bindings := io_bindings s |}.
Definition io_set_devices (d : gmap Z DeviceObject) (s : IoManager) : IoManager :=
  {| io_objects := io_objects s; io_drivers := io_drivers s; io_devices := d; io_irps := io_irps s;
     io_live := io_live s; io_ports := io_ports s; io_bindings := io_bindings s |}.
Definition io_set_irps (i : IrpState) (s : IoManager) : IoManager :=
  {| io_objects := io_objects s; io_drivers := io_drivers s; io_devices := io_devices s; io_irps := i;
     io_live := io_live s; io_ports := io_ports s; io_bindings := io_bindings s |}.
Definition io_set_ports (live : gset Z) (p : Ports) (b : gmap (Z * Z) (Z * Z)) (s : IoManager) : IoManager :=
  {| io_objects := io_objects s; io_drivers := io_drivers s; io_devices := io_devices s;
     io_irps := io_irps s; io_live := live; io_ports := p; io_bindings := b |}.

Definition dr_set_chain (first : option Z) (count : Z) (e : DriverObject) : DriverObject :=
  {| dr_id := dr_id e; dr_name := dr_name e; dr_extension := dr_extension e;
     dr_first_device := first; dr_device_count := count |}.
(** [attached_device], [lower_device], [next_device], [deleted] *)
Definition dv_relink (attached lower next : option Z) (deleted : bool) (e : DeviceObject) : DeviceObject :=
  {| dv_id := dv_id e; dv_name := dv_name e; dv_driver := dv_driver e; dv_extension := dv_extension e;
     dv_flags := dv_flags e; dv_deleted := deleted; dv_attached_device := attached;
     dv_lower_device := lower; dv_next_device := next |}.
Definition dv_set_attached (a : option Z) (e : DeviceObject) : DeviceObject :=
  dv_relink a (dv_lower_device e) (dv_next_device e) (dv_deleted e) e.
Definition dv_set_lower (l : option Z) (e : DeviceObject) : DeviceObject :=
  dv_relink (dv_attached_device e) l (dv_next_device e) (dv_deleted e) e.
Definition dv_set_next (n : option Z) (e : DeviceObject) : DeviceObject :=
  dv_relink (dv_attached_device e) (dv_lower_device e) n (dv_deleted e) e.
Definition dv_set_flags (flags : Z) (e : DeviceObject) : DeviceObject :=
  {| dv_id := dv_id e; dv_name := dv_name e; dv_driver := dv_driver e; dv_extension := dv_extension e;
     dv_flags := flags; dv_deleted := dv_deleted e; dv_attached_device := dv_attached_device e;
     dv_lower_device := dv_lower_device e; dv_next_device := dv_next_device e |}.
Definition dv_set_extension (extension : list Z) (e : DeviceObject) : DeviceObject :=
  {| dv_id := dv_id e; dv_name := dv_name e; dv_driver := dv_driver e; dv_extension := extension;
     dv_flags := dv_flags e; dv_deleted := dv_deleted e; dv_attached_device := dv_attached_device e;
     dv_lower_device := dv_lower_device e; dv_next_device := dv_next_device e |}.

(** [if let Some(entry) = self.devices.get_mut(&device) { .. }] *)
Definition alter_device (f : DeviceObject → DeviceObject) (device : Z) : M IoManager unit :=
  modify (λ s, io_set_devices (alter f device (io_devices s)) s).

Definition with_objects {A} : M ObjectManager A → M IoManager A := zoom io_objects io_set_objects.
Definition with_irps {A} : M IrpState A → M IoManager A := zoom io_irps io_set_irps.
Definition with_ports {A} : M Ports A → M IoManager A :=
  zoom io_ports (λ p s, io_set_ports (io_live s) p (io_bindings s) s).

(** ** Drivers and devices *)

Definition driver_count (s : IoManager) : Z := Z.of_nat (size (io_drivers s)).
Definition io_device_count (s : IoManager) : Z := Z.of_nat (size (io_devices s)).

Section manager.
Context `{UnicodeLower}.

Definition create_driver (name : str) (extension : list Z) : M IoManager Z :=
  id <- with_objects (create_object OtDriver (PlDriver (new_driver_payload name))
          (Some (lit "\Driver\" ++ name))) ;;
  modify (λ s, io_set_drivers (<[id := {| dr_id := id; dr_name := name; dr_extension := extension;
    dr_first_device := None; dr_device_count := 0 |}]> (io_drivers s)) s) ;;;
  ret id.

Definition driver (id : Z) : M IoManager DriverObject := λ s,
  ok_or (io_drivers s !! id) STATUS_INVALID_HANDLE s.

Definition device (id : Z) : M IoManager DeviceObject := λ s,
  ok_or (io_devices s !! id) STATUS_INVALID_HANDLE s.

(** [while let Some(device) = cursor] of [driver_devices] *)
Fixpoint chain_loop (fuel : nat) (cursor : option Z) : M IoManager (list Z) :=
  match fuel with
  | O => panic
  | S fuel =>
      match cursor with
      | None => ret []
      | Some device =>
          s <- gets (λ s, s) ;;
          rest <- chain_loop fuel (e ← io_devices s !! device; dv_next_device e) ;;
          ret (device :: rest)
      end
  end.

(** The fuel of the loops over links. *)
Definition device_fuel (s : IoManager) : nat := S (size (io_devices s)).

Definition driver_devices (id : Z) : M IoManager (list Z) :=
  entry <- driver id ;;
  fuel <- gets device_fuel ;;
  chain_loop fuel (dr_first_device entry).

Definition driver_device_count (id : Z) : M IoManager Z :=
  entry <- driver id ;; ret (dr_device_count entry).

Definition create_device (driver : Z) (name : option (list Z)) (extension : list Z) (flags : Z)
    : M IoManager Z :=
  drivers <- gets io_drivers ;;
  fail_if (bool_decide (drivers !! driver = None)) STATUS_INVALID_HANDLE ;;;
  id <- with_objects (create_object OtDevice (PlDevice (new_device_payload (default [] name)))
          ((λ name, lit "\Device\" ++ name) <$> name)) ;;
  drivers <- gets io_drivers ;;
  let next_device := entry ← drivers !! driver; dr_first_device entry in
  (match drivers !! driver with
   | Some entry =>
       count <- add_at usize_max (dr_device_count entry) 1 ;;
       modify (λ s, io_set_drivers (<[driver := dr_set_chain (Some id) count entry]> (io_drivers s)) s)
   | None => ret tt
   end) ;;;
  modify (λ s, io_set_devices (<[id := {| dv_id := id; dv_name := name; dv_driver := Some driver;
    dv_extension := extension; dv_flags := flags; dv_deleted := false; dv_attached_device := None;
    dv_lower_device := None; dv_next_device := next_device |}]> (io_devices s)) s) ;;;
  ret id.

Definition device_driver (id : Z) : M IoManager (option Z) := e <- device id ;; ret (dv_driver e).
Definition device_flags (id : Z) : M IoManager Z := e <- device id ;; ret (dv_flags e).
Definition device_extension (id : Z) : M IoManager (list Z) := e <- device id ;; ret (dv_extension e).

Definition set_device_flags (id flags : Z) : M IoManager unit :=
  _ <- device id ;; alter_device (dv_set_flags flags) id.
Definition set_device_extension (id : Z) (extension : list Z) : M IoManager unit :=
  _ <- device id ;; alter_device (dv_set_extension extension) id.

(** ** Device stacks *)

Fixpoint top_loop (fuel : nat) (id current : Z) : M IoManager Z :=
  match fuel with
  | O => panic
  | S fuel =>
      entry <- device current ;;
      match dv_attached_device entry with
      | Some upper => fail_if (upper =? id) STATUS_INVALID_DEVICE_REQUEST ;;; top_loop fuel id upper
      | None => ret current
      end
  end.
Definition top_of_stack (id : Z) : M IoManager Z :=
  fuel <- gets device_fuel ;; top_loop fuel id id.

Fixpoint bottom_loop (fuel : nat) (id current : Z) : M IoManager Z :=
  match fuel with
  | O => panic
  | S fuel =>
      entry <- device current ;;
      match dv_lower_device entry with
      | Some lower => fail_if (lower =? id) STATUS_INVALID_DEVICE_REQUEST ;;; bottom_loop fuel id lower
      | None => ret current
      end
  end.
Definition bottom_of_stack (id : Z) : M IoManager Z :=
  fuel <- gets device_fuel ;; bottom_loop fuel id id.

(** [match self.devices.get(&id)]: not deleted *)
Definition live_device (id : Z) : M IoManager DeviceObject :=
  entry <- device id ;;
  fail_if (dv_deleted entry) STATUS_DELETE_PENDING ;;;
  ret entry.

Definition attach_device (id target : Z) : M IoManager Z :=
  fail_if (id =? target) STATUS_INVALID_PARAMETER ;;;
  top <- top_of_stack target ;;
  _ <- live_device target ;;
  entry <- live_device id ;;
  fail_if (bool_decide (is_Some (dv_attached_device entry)) || bool_decide (is_Some (dv_lower_device entry)))
    STATUS_DEVICE_ALREADY_ATTACHED ;;;
  alter_device (dv_set_lower (Some top)) id ;;;
  alter_device (dv_set_attached (Some id)) top ;;;
  ret top.

Definition detach_device (target : Z) : M IoManager Z :=
  entry <- device target ;;
  detached <- ok_or (dv_attached_device entry) STATUS_INVALID_DEVICE_REQUEST ;;
  alter_device (dv_set_lower None) detached ;;;
  alter_device (dv_set_attached None) target ;;;
  ret detached.

Definition next_lower_device (id : Z) : M IoManager (option Z) :=
  e <- device id ;; ret (dv_lower_device e).
Definition next_attached_device (id : Z) : M IoManager (option Z) :=
  e <- device id ;; ret (dv_attached_device e).

(** The loop of [stack_devices]; [chain] is in the order of the walk, and the answer
    is its reverse. *)
Fixpoint stack_loop (fuel : nat) (chain : list Z) (current : Z) : M IoManager (list Z) :=
  match fuel with
  | O => panic
  | S fuel =>
      entry <- device current ;;
      match dv_lower_device entry with
      | Some lower =>
          let chain := chain ++ [lower] in
          s <- gets (λ s, s) ;;
          fail_if (Nat.ltb (size (io_devices s)) (length chain)) STATUS_INVALID_DEVICE_REQUEST ;;;
          stack_loop fuel chain lower
      | None => ret (rev chain)
      end
  end.
Definition stack_devices (id : Z) : M IoManager (list Z) :=
  fuel <- gets device_fuel ;; stack_loop fuel [id] id.

Definition unlink_from_stack (id : Z) : M IoManager unit :=
  s <- gets (λ s, s) ;;
  match io_devices s !! id with
  | None => ret tt
  | Some entry =>
      let upper := dv_attached_device entry in
      let lower := dv_lower_device entry in
      (match upper with Some u => alter_device (dv_set_lower lower) u | None => ret tt end) ;;;
      (match lower with Some l => alter_device (dv_set_attached upper) l | None => ret tt end) ;;;
      alter_device (λ e, dv_relink None None (dv_next_device e) (dv_deleted e) e) id
  end.

(** The search of [delete_device] for the device before [id] in the driver's chain. *)
Fixpoint unlink_loop (fuel : nat) (id : Z) (next_device cursor : option Z) : M IoManager unit :=
  match fuel with
  | O => panic
  | S fuel =>
      match cursor with
      | None => ret tt
      | Some current =>
          s <- gets (λ s, s) ;;
          let next := e ← io_devices s !! current; dv_next_device e in
          if bool_decide (next = Some id) then alter_device (dv_set_next next_device) current
          else unlink_loop fuel id next_device next
      end
  end.

(** The driver's part of [delete_device]. *)
Definition unlink_from_driver (driver id : Z) (next_device : option Z) : M IoManager unit :=
  drivers <- gets io_drivers ;;
  match drivers !! driver with
  | None => ret tt
  | Some entry =>
      (if bool_decide (dr_first_device entry = Some id)
       then modify (λ s, io_set_drivers
              (alter (λ e, dr_set_chain next_device (dr_device_count e) e) driver (io_drivers s)) s)
       else fuel <- gets device_fuel ;; unlink_loop fuel id next_device (dr_first_device entry)) ;;;
      modify (λ s, io_set_drivers
        (alter (λ e, dr_set_chain (dr_first_device e) (saturating_sub (dr_device_count e) 1) e) driver
           (io_drivers s)) s)
  end.

(** ** IRPs *)

(** The parameters of a stack location, by major function. *)
Definition location_parameters (major : IrpMajorFunction) (length : Z) : StackParameters :=
  match major with
  | MjRead | MjWrite => SpReadWrite length 0
  | MjDeviceControl => SpDeviceControl 0 length 0 0
  | MjCreate => SpCreate 0 0
  | MjClose => SpClose
  | _ => SpNone
  end.

Definition stack_location (b : IrpParameterBlock) (id : Z) : IoStackLocation :=
  {| sl_device := id; sl_major := pb_major b; sl_minor := pb_minor b;
     sl_parameters := location_parameters (pb_major b) (pb_length b); sl_completion := None |}.

Definition allocate_irp (target : Z) (b : IrpParameterBlock) : M IoManager Z :=
  _ <- live_device target ;;
  chain <- stack_devices target ;;
  with_irps (insert_irp b (stack_location b <$> chain)).

(** [queue_irp], [pending_irps] and [irp_stack_devices] of the manager *)
Definition queue_irp (id irp : Z) : M IoManager unit :=
  _ <- live_device id ;; with_irps (queue_irp_core id irp).
Definition io_pending_irps (id : Z) : M IoManager (list Z) :=
  _ <- device id ;; s <- gets (λ s, s) ;; ret (pending_irps (io_irps s) id).
Definition irp_stack_devices (irp : Z) : M IoManager (list Z) :=
  views <- with_irps (stack_view irp) ;; ret (sv_device <$> views).

Section routines.
Variable routine_status : list (Z * IrpCompletion) → Z → IrpCompletion → Z.

Definition delete_device (id : Z) : M IoManager unit :=
  entry <- live_device id ;;
  unlink_from_stack id ;;;
  (match dv_driver entry with
   | Some driver => unlink_from_driver driver id (dv_next_device entry)
   | None => ret tt
   end) ;;;
  alter_device (λ e, dv_relink (dv_attached_device e) (dv_lower_device e) None true e) id ;;;
  with_irps (cancel_pending_for_device routine_status id) ;;;
  with_objects (release_object id) ;;;
  ret tt.

Definition complete_irp (irp status information : Z) : M IoManager Z :=
  with_irps (complete routine_status irp status information).
Definition cancel_irp (irp : Z) : M IoManager Z := with_irps (cancel routine_status irp).

Definition send_synchronous (id : Z) (b : IrpParameterBlock) : M IoManager SynchronousIoResult :=
  irp <- allocate_irp id b ;;
  entry <- with_irps (parameters irp) ;;
  let '(status, information) :=
    match validate entry with
    | Ok _ => (STATUS_SUCCESS, pb_length entry)
    | Err error => (error, 0)
    end in
  final <- complete_irp irp status information ;;
  ret {| sr_irp := irp; sr_status := final; sr_information := information |}.
End routines.

(** ** Completion ports *)

Definition create_completion_port (name : option (list Z)) (depth : Z) : M IoManager Z :=
  id <- with_objects (create_object OtIoCompletion (PlIoCompletion (new_io_completion_payload depth)) name) ;;
  modify (λ s, io_set_ports ({[id]} ∪ io_live s)
    (pt_set_store (<[id := new_port depth]> (pt_store (io_ports s))) (io_ports s)) (io_bindings s) s) ;;;
  ret id.

Definition completion_port (port : Z) : M IoManager Z :=
  live <- gets io_live ;;
  fail_if (bool_decide (port ∉ live)) STATUS_INVALID_HANDLE ;;;
  ret port.

Definition port_count (s : IoManager) : Z := Z.of_nat (size (io_live s)).

Definition bind_completion_port (port process handle key : Z) : M IoManager unit :=
  _ <- completion_port port ;;
  closed <- with_ports (io_is_closed port) ;;
  fail_if (closed : bool) STATUS_INVALID_HANDLE ;;;
  _ <- with_objects (lookup_handle process handle) ;;
  modify (λ s, io_set_ports (io_live s) (io_ports s)
    (<[(process, handle) := (port, key)]> (io_bindings s)) s).

Definition unbind_completion_port (process handle : Z) : M IoManager (option (Z * Z)) :=
  s <- gets (λ s, s) ;;
  modify (λ s, io_set_ports (io_live s) (io_ports s) (delete (process, handle) (io_bindings s)) s) ;;;
  ret (io_bindings s !! (process, handle)).

Definition bound_completion_key (s : IoManager) (process handle : Z) : option Z :=
  snd <$> io_bindings s !! (process, handle).
Definition bound_port (s : IoManager) (process handle : Z) : option Z :=
  fst <$> io_bindings s !! (process, handle).

(** [sort_by_key(|(process, handle, _)| (process, handle))] *)
Definition binding_le (x y : Z * Z * Z) : Prop :=
  x.1.1 < y.1.1 ∨ x.1.1 = y.1.1 ∧ x.1.2 ≤ y.1.2.
#[export] Instance binding_le_dec x y : Decision (binding_le x y).
Proof. unfold binding_le. apply _. Defined.
Definition port_bindings (s : IoManager) (port : Z) : list (Z * Z * Z) :=
  merge_sort binding_le
    (omap (λ '(k, (p, key)), if decide (p = port) then Some (k, key) else None) (map_to_list (io_bindings s))).

Definition post_to_port (port : Z) (packet : CompletionPacket) (choice : option Z) : M IoManager unit :=
  port <- completion_port port ;; with_ports (post port packet choice).

Definition close_completion_port (port : Z) : M IoManager Z :=
  port <- completion_port port ;;
  modify (λ s, io_set_ports (io_live s ∖ {[port]}) (io_ports s) (io_bindings s) s) ;;;
  dropped <- with_ports (close_port port) ;;
  modify (λ s, io_set_ports (io_live s) (io_ports s)
    (filter (λ b, b.2.1 ≠ port) (io_bindings s)) s) ;;;
  (λ s, match with_objects (release_object port) s with
        | Done _ s' => Done (Ok dropped) s'
        | Panic => Panic
        end).
End manager.
