(* ===== verification/IoFacts.v ===== *)
(** * Device stacks and driver chains

    The links of the device table represent disjoint lists: the device stacks,
    bottom first, and the chain of each driver, most recent first.  This file has the
    representation, the loops over it and the operations as operations on lists;
    [IoTheorems] has the invariant of the manager and the theorems. *)

From S2P Require Import Prelude Status Object Irp IoPort Io.

Module Iol.

(** ** Segments of a doubly linked list *)

Section segment.
(** The lower and the attached device of each device. *)
Implicit Type lk : Z → option (option Z * option Z).

Definition hd_or (above : option Z) (l : list Z) : option Z :=
  match l with [] => above | x :: _ => Some x end.
Fixpoint last_or (below : option Z) (l : list Z) : option Z :=
  match l with [] => below | x :: l => last_or (Some x) l end.

Fixpoint segment lk (below : option Z) (l : list Z) (above : option Z) : Prop :=
  match l with
  | [] => True
  | d :: l => lk d = Some (below, hd_or above l) ∧ segment lk (Some d) l above
  end.

Lemma hd_or_app a l1 l2 : hd_or a (l1 ++ l2) = hd_or (hd_or a l2) l1.
Proof. by destruct l1. Qed.
Lemma last_or_app b l1 l2 : last_or b (l1 ++ l2) = last_or (last_or b l1) l2.
Proof. revert b. induction l1; simpl; auto. Qed.

Lemma segment_app lk b l1 l2 a :
  segment lk b (l1 ++ l2) a ↔ segment lk b l1 (hd_or a l2) ∧ segment lk (last_or b l1) l2 a.
Proof.
  revert b. induction l1 as [|d l1 IH]; intros b; simpl; [tauto|].
  rewrite IH, hd_or_app. tauto.
Qed.

Lemma segment_ext lk lk' b l a :
  (∀ d, d ∈ l → lk' d = lk d) → segment lk b l a → segment lk' b l a.
Proof.
  revert b. induction l as [|d l IH]; intros b Hext; simpl; [done|]. intros [Hd Hl]. split.
  - rewrite Hext by set_solver. done.
  - apply IH; [|done]. intros x Hx. apply Hext. set_solver.
Qed.

(** A device between two others. *)
Lemma segment_at lk b l1 d l2 a :
  segment lk b (l1 ++ d :: l2) a → lk d = Some (last_or b l1, hd_or a l2).
Proof. rewrite segment_app. intros [_ [Hd _]]. done. Qed.

(** The last device of a segment meets another upper one. *)
Lemma segment_top lk lk' b l d a a' :
  segment lk b (l ++ [d]) a → d ∉ l →
  (∀ x, x ∈ l → lk' x = lk x) → lk' d = (λ p, (p.1, a')) <$> lk d →
  segment lk' b (l ++ [d]) a'.
Proof.
  rewrite !segment_app. simpl. intros (Hl & Hd & _) Hni Hext Hlk. split.
  - by apply (segment_ext lk).
  - rewrite Hlk, Hd. done.
Qed.

(** The first device of a segment meets another lower one. *)
Lemma segment_bottom lk lk' b b' d l a :
  segment lk b (d :: l) a → (∀ x, x ∈ l → lk' x = lk x) → lk' d = (λ p, (b', p.2)) <$> lk d →
  segment lk' b' (d :: l) a.
Proof.
  simpl. intros (Hd & Hl) Hext Hlk. split; [by rewrite Hlk, Hd|]. by apply (segment_ext lk).
Qed.
End segment.

(** ** Stacks *)

Definition links (ds : gmap Z DeviceObject) (d : Z) : option (option Z * option Z) :=
  (λ e, (dv_lower_device e, dv_attached_device e)) <$> ds !! d.

Record Stacks (ds : gmap Z DeviceObject) (sts : list (list Z)) : Prop := {
  sk_part : concat sts ≡ₚ (map_to_list ds).*1;
  sk_segs : Forall (λ st, st ≠ [] ∧ segment (links ds) None st None) sts;
}.

(** The stack of a device, and the other ones. *)
Definition stack_of (d : Z) (sts : list (list Z)) : option (list Z) := head (filter (λ st, d ∈ st) sts).
Definition others (d : Z) (sts : list (list Z)) : list (list Z) := filter (λ st, d ∉ st) sts.

(** The devices up to [d], and those above it. *)
Fixpoint split_at (d : Z) (st : list Z) : list Z * list Z :=
  match st with
  | [] => ([], [])
  | x :: st => if x =? d then ([x], st) else let '(l1, l2) := split_at d st in (x :: l1, l2)
  end.

Lemma split_at_eq d l1 l2 : d ∉ l1 → split_at d (l1 ++ d :: l2) = (l1 ++ [d], l2).
Proof.
  induction l1 as [|x l1 IH]; simpl; intros Hd.
  - by rewrite Z.eqb_refl.
  - apply not_elem_of_cons in Hd as [Hne Hd]. rewrite (proj2 (Z.eqb_neq x d)) by done. by rewrite IH.
Qed.

Lemma stacks_NoDup ds sts : Stacks ds sts → NoDup (concat sts).
Proof. intros []. rewrite sk_part0. apply NoDup_fst_map_to_list. Qed.

Lemma stacks_dom ds sts d : Stacks ds sts → d ∈ concat sts ↔ is_Some (ds !! d).
Proof.
  intros []. rewrite sk_part0, list_elem_of_fmap. split.
  - intros ([k e] & -> & He%elem_of_map_to_list). by exists e.
  - intros [e He]. exists (d, e). split; [done|]. by apply elem_of_map_to_list.
Qed.

Lemma stacks_perm ds sts sts' : sts ≡ₚ sts' → Stacks ds sts → Stacks ds sts'.
Proof. intros Hp []. constructor; [by rewrite <-Hp|by rewrite <-Hp]. Qed.

Lemma elem_of_concat (d : Z) sts : d ∈ concat sts ↔ ∃ st, st ∈ sts ∧ d ∈ st.
Proof.
  induction sts as [|st sts IH]; simpl; [set_solver|]. rewrite elem_of_app, IH. set_solver.
Qed.

(** A stack with [d] in it, and the rest. *)
Lemma stack_of_split d l1 l2 rest :
  NoDup (concat ((l1 ++ d :: l2) :: rest)) → others d ((l1 ++ d :: l2) :: rest) = rest.
Proof.
  intros Hnd. unfold others. rewrite filter_cons, decide_False by set_solver.
  simpl in Hnd. apply NoDup_app in Hnd as (_ & Hd & _).
  assert (∀ st, st ∈ rest → d ∉ st) as Hr.
  { intros st Hst Hin. apply (Hd d); [set_solver|]. apply elem_of_concat. by exists st. }
  clear Hd. induction rest as [|st rest IH]; [done|].
  rewrite filter_cons, decide_True by (apply Hr; set_solver). f_equal. apply IH. set_solver.
Qed.

Lemma stack_of_elem d sts st :
  NoDup (concat sts) → st ∈ sts → d ∈ st → stack_of d sts = Some st ∧ sts ≡ₚ st :: others d sts.
Proof.
  induction sts as [|x sts IH]; intros Hnd Hst Hd; [by apply not_elem_of_nil in Hst|].
  unfold stack_of, others. rewrite !filter_cons. destruct (decide (d ∈ x)) as [Hx|Hx].
  - assert (st = x) as ->.
    { simpl in Hnd. apply NoDup_app in Hnd as (_ & Hdis & _).
      apply elem_of_cons in Hst as [?|Hst]; [done|]. destruct (Hdis d Hx).
      apply elem_of_concat. by exists st. }
    split; [done|]. rewrite (decide_False (P:=d ∉ x)) by auto. f_equiv.
    apply list_elem_of_split in Hd as (l1 & l2 & ->).
    pose proof (stack_of_split d l1 l2 sts Hnd) as E. unfold others in E.
    rewrite filter_cons, (decide_False (P:=d ∉ l1 ++ d :: l2)) in E by auto. by rewrite E.
  - rewrite (decide_True (P:=d ∉ x)) by done. simpl in Hnd. apply NoDup_app in Hnd as (_ & _ & Hnd).
    apply elem_of_cons in Hst as [->|Hst]; [done|]. destruct (IH Hnd Hst Hd) as [E1 E2]. split; [exact E1|].
    rewrite Permutation_swap. by f_equiv.
Qed.

(** The stack of a device, split at the device. *)
Lemma stack_find ds sts d :
  Stacks ds sts → is_Some (ds !! d) →
  ∃ l1 l2, stack_of d sts = Some (l1 ++ d :: l2) ∧ Stacks ds ((l1 ++ d :: l2) :: others d sts) ∧
    split_at d (l1 ++ d :: l2) = (l1 ++ [d], l2) ∧ NoDup (l1 ++ d :: l2).
Proof.
  intros Hs Hd. pose proof (stacks_NoDup _ _ Hs) as Hnd.
  apply (stacks_dom _ _ _ Hs) in Hd. apply elem_of_concat in Hd as (st & Hst & Hd).
  destruct (stack_of_elem d sts st Hnd Hst Hd) as [E Hp].
  apply list_elem_of_split in Hd as (l1 & l2 & ->). exists l1, l2.
  pose proof (stacks_perm _ _ _ Hp Hs) as Hs'. pose proof (stacks_NoDup _ _ Hs') as Hn.
  simpl in Hn. apply NoDup_app in Hn as (Hn & _ & _).
  split_and!; [done|done| |done]. apply split_at_eq.
  apply NoDup_app in Hn as (_ & Hn & _). intros Hin. apply (Hn d Hin). set_solver.
Qed.

Lemma stack_none ds sts d : Stacks ds sts → ds !! d = None → stack_of d sts = None.
Proof.
  intros Hs Hd. unfold stack_of. destruct (filter _ _) as [|st l] eqn:E; [done|].
  assert (st ∈ filter (λ st, d ∈ st) sts) as Hin by (rewrite E; set_solver).
  apply list_elem_of_filter in Hin as [Hin Hst].
  assert (is_Some (ds !! d)) as [? Hx]; [|congruence].
  apply (stacks_dom _ _ _ Hs). apply elem_of_concat. by exists st.
Qed.

Lemma stack_size ds sts d l1 l2 :
  Stacks ds sts → stack_of d sts = Some (l1 ++ d :: l2) →
  (length l1 + length l2 < size ds)%nat.
Proof.
  intros Hs E. assert ((l1 ++ d :: l2) ∈ sts) as Hin.
  { unfold stack_of in E. apply head_Some_elem_of in E. by apply list_elem_of_filter in E as [_ ?]. }
  apply elem_of_Permutation in Hin as (rest & Hp). destruct (stacks_perm _ _ _ Hp Hs) as [Hk _].
  apply Permutation_length in Hk. rewrite length_fmap, length_map_to_list in Hk. simpl in Hk.
  rewrite !length_app in Hk. simpl in Hk. lia.
Qed.

(** ** The walks *)

Lemma links_Some ds d b a :
  links ds d = Some (b, a) → ∃ e, ds !! d = Some e ∧ dv_lower_device e = b ∧ dv_attached_device e = a.
Proof. unfold links. destruct (ds !! d) as [e|]; [|done]. simpl. intros [= <- <-]. by exists e. Qed.

Lemma device_run d s :
  device d s = Done (match io_devices s !! d with Some e => Ok e | None => Err STATUS_INVALID_HANDLE end) s.
Proof. unfold device. simpl. by destruct (io_devices s !! d). Qed.

Lemma top_loop_run fuel id d b l2 s :
  segment (links (io_devices s)) b (d :: l2) None → id ∉ l2 → (length l2 < fuel)%nat →
  top_loop fuel id d s = Done (Ok (default d (last l2))) s.
Proof.
  revert b d l2. induction fuel as [|fuel IH]; intros b d l2 Hseg Hid Hf; [lia|].
  destruct Hseg as [Hd Hl]. apply links_Some in Hd as (e & He & _ & Ha). simpl. rewrite device_run, He, Ha.
  destruct l2 as [|u l2]; simpl; [done|]. apply not_elem_of_cons in Hid as [Hne Hid].
  rewrite (proj2 (Z.eqb_neq u id)) by done. rewrite (IH (Some d) u l2); [|done|done|simpl in Hf; lia].
  rewrite last_cons. by destruct (last l2).
Qed.

Lemma bottom_loop_run fuel id l1 d a s :
  segment (links (io_devices s)) None (l1 ++ [d]) a → id ∉ l1 → (length l1 < fuel)%nat →
  bottom_loop fuel id d s = Done (Ok (default d (head l1))) s.
Proof.
  revert l1 d a. induction fuel as [|fuel IH]; intros l1 d a Hseg Hid Hf; [lia|].
  pose proof (segment_at _ _ _ _ _ _ Hseg) as Hd. apply links_Some in Hd as (e & He & Hb & _).
  simpl. rewrite device_run, He, Hb. destruct l1 as [|x l1 _] using rev_ind; simpl; [done|].
  rewrite last_or_app. simpl. apply not_elem_of_app in Hid as [Hid Hx].
  rewrite (proj2 (Z.eqb_neq x id)) by set_solver.
  rewrite length_app in Hf. simpl in Hf. rewrite segment_app in Hseg. destruct Hseg as [Hseg _].
  rewrite (IH l1 x _ Hseg Hid) by lia. by destruct l1.
Qed.

Lemma stack_loop_run fuel chain l1 d a s :
  segment (links (io_devices s)) None (l1 ++ [d]) a →
  (length chain + length l1 ≤ size (io_devices s))%nat → (length l1 < fuel)%nat →
  stack_loop fuel chain d s = Done (Ok (l1 ++ rev chain)) s.
Proof.
  revert chain l1 d a. induction fuel as [|fuel IH]; intros chain l1 d a Hseg Hc Hf; [lia|].
  pose proof (segment_at _ _ _ _ _ _ Hseg) as Hd. apply links_Some in Hd as (e & He & Hb & _).
  simpl. rewrite device_run, He, Hb. destruct l1 as [|x l1 _] using rev_ind; simpl; [done|].
  rewrite last_or_app. simpl. rewrite length_app in Hf, Hc. simpl in Hf, Hc.
  rewrite (proj2 (Nat.ltb_ge _ _)) by (rewrite length_app; simpl; lia).
  rewrite segment_app in Hseg. destruct Hseg as [Hseg _].
  rewrite (IH (chain ++ [x]) l1 x _ Hseg) by (rewrite ?length_app; simpl; lia).
  rewrite rev_unit. by rewrite <-app_assoc.
Qed.

(** The walks from a device of a stack. *)
Record Walks (s : IoManager) (d : Z) (l1 l2 : list Z) : Prop := {
  wk_top : top_of_stack d s = Done (Ok (default d (last l2))) s;
  wk_bottom : bottom_of_stack d s = Done (Ok (default d (head l1))) s;
  wk_stack : stack_devices d s = Done (Ok (l1 ++ [d])) s;
}.

Lemma walks_run s sts d l1 l2 :
  Stacks (io_devices s) sts → stack_of d sts = Some (l1 ++ d :: l2) → NoDup (l1 ++ d :: l2) →
  segment (links (io_devices s)) None (l1 ++ d :: l2) None → Walks s d l1 l2.
Proof.
  intros Hs E Hnd Hseg. pose proof (stack_size _ _ _ _ _ Hs E) as Hsz.
  apply NoDup_app in Hnd as (_ & Hd & Hnd). apply NoDup_cons in Hnd as [Hd2 _].
  assert (d ∉ l1) as Hd1 by (intros Hin; apply (Hd d Hin); set_solver).
  pose proof Hseg as Hseg2. rewrite segment_app in Hseg2. destruct Hseg2 as [_ Hseg2].
  assert (segment (links (io_devices s)) None (l1 ++ [d]) (hd_or None l2)) as Hseg1.
  { change (d :: l2) with ([d] ++ l2) in Hseg. rewrite app_assoc, segment_app in Hseg. by destruct Hseg. }
  constructor; unfold top_of_stack, bottom_of_stack, stack_devices, device_fuel; mrun.
  - eapply top_loop_run; [done|done|lia].
  - eapply bottom_loop_run; [done|done|lia].
  - eapply stack_loop_run; [done|simpl; lia|lia].
Qed.

Lemma top_none s d :
  io_devices s !! d = None → top_of_stack d s = Done (Err STATUS_INVALID_HANDLE) s.
Proof. intros Hd. unfold top_of_stack. simpl. by rewrite device_run, Hd. Qed.
Lemma bottom_none s d :
  io_devices s !! d = None → bottom_of_stack d s = Done (Err STATUS_INVALID_HANDLE) s.
Proof. intros Hd. unfold bottom_of_stack. simpl. by rewrite device_run, Hd. Qed.
Lemma stack_devices_none s d :
  io_devices s !! d = None → stack_devices d s = Done (Err STATUS_INVALID_HANDLE) s.
Proof. intros Hd. unfold stack_devices. simpl. by rewrite device_run, Hd. Qed.

(** ** Changing the links *)

Lemma links_alter f g k ds d :
  (∀ e, (dv_lower_device (f e), dv_attached_device (f e)) = g (dv_lower_device e, dv_attached_device e)) →
  links (alter f k ds) d = if decide (d = k) then g <$> links ds d else links ds d.
Proof.
  intros Hf. unfold links. case_decide; subst; [|by rewrite lookup_alter_ne].
  rewrite lookup_alter_eq. destruct (ds !! k); simpl; [|done]. by rewrite Hf.
Qed.

Definition same_keys (ds ds' : gmap Z DeviceObject) : Prop :=
  ∀ d, is_Some (ds' !! d) ↔ is_Some (ds !! d).

Lemma same_keys_alter f k ds : same_keys ds (alter f k ds).
Proof. intros d. apply lookup_alter_is_Some. Qed.
Lemma same_keys_trans ds1 ds2 ds3 : same_keys ds1 ds2 → same_keys ds2 ds3 → same_keys ds1 ds3.
Proof. unfold same_keys. intros H1 H2 d. by rewrite H2, H1. Qed.

Lemma keys_perm ds ds' : same_keys ds ds' → (map_to_list ds').*1 ≡ₚ (map_to_list ds).*1.
Proof.
  intros Hk. apply NoDup_Permutation; [apply NoDup_fst_map_to_list..|]. intros d.
  assert (∀ m : gmap Z DeviceObject, d ∈ (map_to_list m).*1 ↔ is_Some (m !! d)) as E; [|by rewrite !E].
  intros m. rewrite list_elem_of_fmap. split.
  - intros ([k e] & -> & He%elem_of_map_to_list). by exists e.
  - intros [e He]. exists (d, e). split; [done|]. by apply elem_of_map_to_list.
Qed.

(** Some of the stacks are regrouped and relinked. *)
Lemma stacks_update ds ds' sts sts' rest :
  Stacks ds (sts ++ rest) → same_keys ds ds' → concat sts' ≡ₚ concat sts →
  (∀ d, d ∉ concat sts → links ds' d = links ds d) →
  Forall (λ st, st ≠ [] ∧ segment (links ds') None st None) sts' →
  Stacks ds' (sts' ++ rest).
Proof.
  intros Hs Hk Hp Hl Hseg. pose proof (stacks_NoDup _ _ Hs) as Hnd. destruct Hs as [Hpart Hsegs].
  rewrite concat_app in Hnd, Hpart. apply NoDup_app in Hnd as (_ & Hdis & _).
  constructor.
  - rewrite concat_app, Hp, Hpart. symmetry. by apply keys_perm.
  - apply Forall_app. split; [done|]. apply Forall_app in Hsegs as [_ Hsegs].
    apply Forall_forall. intros st Hst. rewrite Forall_forall in Hsegs. destruct (Hsegs st Hst) as [? Hx].
    split; [done|]. eapply segment_ext; [|exact Hx]. intros d Hd. apply Hl. intros Hin.
    apply (Hdis d Hin). apply elem_of_concat. by exists st.
Qed.

(** The links after [x] and [d] become neighbours, or cease to be. *)
Definition relink (x d : Z) (up low : option Z) (ds : gmap Z DeviceObject) : gmap Z DeviceObject :=
  alter (dv_set_attached up) x (alter (dv_set_lower low) d ds).

Lemma links_relink x d up low ds y :
  x ≠ d →
  links (relink x d up low ds) y =
    if decide (y = x) then (λ p, (p.1, up)) <$> links ds y
    else if decide (y = d) then (λ p, (low, p.2)) <$> links ds y else links ds y.
Proof.
  intros Hne. unfold relink.
  rewrite (links_alter _ (λ p, (p.1, up))), (links_alter _ (λ p, (low, p.2))) by done.
  repeat case_decide; subst; done.
Qed.

Lemma same_keys_relink x d up low ds : same_keys ds (relink x d up low ds).
Proof. eapply same_keys_trans; [|apply same_keys_alter]. apply same_keys_alter. Qed.

(** The two sides of a link. *)
Lemma segment_relink x d l1 l2 up low b a ds :
  NoDup (l1 ++ x :: d :: l2) →
  segment (links ds) b (l1 ++ [x]) a → ∀ b', segment (links ds) b' (d :: l2) None →
  segment (links (relink x d up low ds)) b (l1 ++ [x]) up ∧
  segment (links (relink x d up low ds)) low (d :: l2) None.
Proof.
  intros Hnd H1 b' H2. apply NoDup_app in Hnd as (_ & Hd1 & Hnd).
  apply NoDup_cons in Hnd as [Hx Hnd]. apply NoDup_cons in Hnd as [Hd _].
  assert (x ≠ d) as Hne by set_solver. split.
  - eapply segment_top; [exact H1| | |].
    + intros Hin. apply (Hd1 x Hin). set_solver.
    + intros y Hy. rewrite links_relink by done. rewrite !decide_False; [done| |].
      * intros ->. apply (Hd1 d Hy). set_solver.
      * intros ->. apply (Hd1 x Hy). set_solver.
    + rewrite links_relink, decide_True by done. done.
  - eapply segment_bottom; [exact H2| |].
    + intros y Hy. rewrite links_relink by done. rewrite !decide_False; [done| |]; set_solver.
    + rewrite links_relink, decide_False, decide_True by done. done.
Qed.

Lemma stacks_join ds l1 x d l2 rest :
  Stacks ds ((l1 ++ [x]) :: (d :: l2) :: rest) →
  Stacks (relink x d (Some d) (Some x) ds) ((l1 ++ x :: d :: l2) :: rest).
Proof.
  intros Hs. pose proof (stacks_NoDup _ _ Hs) as Hnd.
  assert (l1 ++ x :: d :: l2 = (l1 ++ [x]) ++ d :: l2) as Eq by by rewrite <-app_assoc.
  change (_ :: _ :: rest) with ([l1 ++ [x]; d :: l2] ++ rest) in Hs.
  change (_ :: rest) with ([l1 ++ x :: d :: l2] ++ rest).
  pose proof (sk_segs _ _ Hs) as Hsegs. inversion Hsegs as [|?? [_ H1] Ht]; subst.
  inversion Ht as [|?? [_ H2] _]; subst. clear Ht Hsegs.
  assert (NoDup (l1 ++ x :: d :: l2)) as Hnd'.
  { simpl in Hnd. rewrite <-app_assoc in Hnd. simpl in Hnd.
    change (x :: d :: l2 ++ concat rest) with ((x :: d :: l2) ++ concat rest) in Hnd.
    rewrite app_assoc in Hnd. by apply NoDup_app in Hnd as (Hnd & _). }
  clear Hnd. rename Hnd' into Hnd.
  destruct (segment_relink x d l1 l2 (Some d) (Some x) None None ds Hnd H1 None H2) as [G1 G2].
  eapply stacks_update; [exact Hs|apply same_keys_relink| | |].
  - simpl. rewrite !app_nil_r, Eq. done.
  - intros y Hy. assert (x ≠ d) as Hne.
    { apply NoDup_app in Hnd as (_ & _ & Hnd). apply NoDup_cons in Hnd. set_solver. }
    rewrite links_relink by done. rewrite !decide_False; [done| |]; intros ->; set_solver.
  - repeat constructor; [by destruct l1|]. rewrite Eq, segment_app. simpl hd_or.
    rewrite last_or_app. by split.
Qed.

Lemma stacks_cut ds l1 x d l2 rest :
  Stacks ds ((l1 ++ x :: d :: l2) :: rest) →
  Stacks (relink x d None None ds) ((l1 ++ [x]) :: (d :: l2) :: rest).
Proof.
  intros Hs. pose proof (stacks_NoDup _ _ Hs) as Hnd.
  assert (l1 ++ x :: d :: l2 = (l1 ++ [x]) ++ d :: l2) as Eq by by rewrite <-app_assoc.
  change (_ :: _ :: rest) with ([l1 ++ [x]; d :: l2] ++ rest).
  change (_ :: rest) with ([l1 ++ x :: d :: l2] ++ rest) in Hs.
  pose proof (sk_segs _ _ Hs) as Hsegs. inversion Hsegs as [|?? [_ H1] _]; subst. clear Hsegs.
  simpl in Hnd. apply NoDup_app in Hnd as (Hnd & _).
  rewrite Eq, segment_app in H1. destruct H1 as [H1 H2].
  destruct (segment_relink x d l1 l2 None None _ _ ds Hnd H1 _ H2) as [G1 G2].
  eapply stacks_update; [exact Hs|apply same_keys_relink| | |].
  - simpl. rewrite !app_nil_r, Eq. done.
  - intros y Hy. assert (x ≠ d) as Hne.
    { apply NoDup_app in Hnd as (_ & _ & Hnd). apply NoDup_cons in Hnd. set_solver. }
    rewrite links_relink by done. rewrite !decide_False; [done| |]; intros ->; set_solver.
  - apply Forall_cons. split; [split; [by destruct l1|done]|]. by apply Forall_singleton.
Qed.

Lemma stacks_ext ds ds' sts :
  same_keys ds ds' → (∀ d, links ds' d = links ds d) → Stacks ds sts → Stacks ds' sts.
Proof.
  intros Hk Hl Hs. rewrite <-(app_nil_l sts) in Hs |- *.
  eapply stacks_update; [exact Hs|done|done|auto|apply Forall_nil_2].
Qed.

Lemma stacks_ext2 ds ds1 ds2 sts :
  same_keys ds ds1 → same_keys ds ds2 → (∀ d, links ds2 d = links ds1 d) → Stacks ds1 sts → Stacks ds2 sts.
Proof. unfold same_keys. intros H1 H2 Hl. apply stacks_ext; [|done]. intros d. by rewrite H1, H2. Qed.

Lemma segment_head ds d st rest :
  Stacks ds ((d :: st) :: rest) → links ds d = Some (None, hd_or None st) ∧ segment (links ds) (Some d) st None.
Proof. intros [_ Hseg]. apply Forall_cons in Hseg as [[_ Hseg] _]. exact Hseg. Qed.

(** A device is taken out of its stack. *)
Definition put (st : list Z) (sts : list (list Z)) : list (list Z) :=
  match st with [] => sts | _ => st :: sts end.

Definition unlinked (d : Z) (up low : option Z) (ds : gmap Z DeviceObject) : gmap Z DeviceObject :=
  let ds := match up with Some u => alter (dv_set_lower low) u ds | None => ds end in
  let ds := match low with Some l => alter (dv_set_attached up) l ds | None => ds end in
  alter (λ e, dv_relink None None (dv_next_device e) (dv_deleted e) e) d ds.

Lemma same_keys_refl ds : same_keys ds ds.
Proof. done. Qed.
#[local] Hint Resolve same_keys_alter same_keys_refl : core.

Lemma same_keys_unlinked d up low ds : same_keys ds (unlinked d up low ds).
Proof. unfold unlinked. destruct up, low; repeat (eapply same_keys_trans; [|apply same_keys_alter]); done. Qed.

Lemma links_unlinked d up low ds y :
  up ≠ Some d → low ≠ Some d → (∀ u, up = Some u → low ≠ Some u) →
  links (unlinked d up low ds) y =
    if decide (y = d) then (λ _, (None, None)) <$> links ds y
    else if decide (up = Some y) then (λ p, (low, p.2)) <$> links ds y
    else if decide (low = Some y) then (λ p, (p.1, up)) <$> links ds y else links ds y.
Proof.
  intros Hu Hl Hne. unfold unlinked. rewrite (links_alter _ (λ _, (None, None))) by done.
  assert (∀ l ds, links (alter (dv_set_attached up) l ds) y =
    if decide (y = l) then (λ p, (p.1, up)) <$> links ds y else links ds y) as E1 by (intros; by apply links_alter).
  assert (∀ u ds, links (alter (dv_set_lower low) u ds) y =
    if decide (y = u) then (λ p, (low, p.2)) <$> links ds y else links ds y) as E2 by (intros; by apply links_alter).
  destruct low as [l|], up as [u|]; rewrite ?E1, ?E2; repeat case_decide; simplify_eq; try done;
    by destruct (Hne _ eq_refl).
Qed.

Lemma stacks_unlink ds l1 d l2 rest :
  Stacks ds ((l1 ++ d :: l2) :: rest) →
  Stacks (unlinked d (hd_or None l2) (last_or None l1) ds) ([d] :: put (l1 ++ l2) rest).
Proof.
  intros Hs. pose proof (stacks_NoDup _ _ Hs) as Hnd. simpl in Hnd. apply NoDup_app in Hnd as (Hnd & _).
  apply NoDup_app in Hnd as (_ & Hd1 & Hnd). apply NoDup_cons in Hnd as [Hd2 _].
  assert (d ∉ l1) as Hd by (intros Hin; apply (Hd1 d Hin); set_solver).
  destruct l1 as [|x l1 _] using rev_ind; destruct l2 as [|u l2]; cbn [hd_or last_or put app].
  - eapply stacks_ext; [apply same_keys_unlinked| |exact Hs]. intros y.
    destruct (segment_head _ _ _ _ Hs) as [H1 _].
    rewrite links_unlinked by done. cbn [hd_or] in *. case_decide; subst; [|by rewrite !decide_False].
    by rewrite H1.
  - apply (stacks_cut ds []) in Hs. eapply (stacks_ext2 ds); [| | |exact Hs].
    { apply same_keys_relink. } { apply same_keys_unlinked. }
    assert (d ≠ u) as Hne by set_solver. intros y. rewrite links_relink, links_unlinked by (done || congruence).
    destruct (segment_head _ _ _ _ Hs) as [H1 _]. rewrite links_relink, decide_True in H1 by done.
    repeat case_decide; simplify_eq; try done. by destruct (links ds d) as [[]|]; simplify_eq/=.
  - rewrite last_or_app, app_nil_r. cbn [last_or]. rewrite <-app_assoc in Hs. cbn [app] in Hs.
    apply stacks_cut in Hs. assert (x ≠ d) as Hne by set_solver.
    assert (put (l1 ++ [x]) rest = (l1 ++ [x]) :: rest) as -> by by destruct l1.
    apply (stacks_perm _ _ ([d] :: (l1 ++ [x]) :: rest)) in Hs; [|by apply perm_swap].
    eapply (stacks_ext2 ds); [| | |exact Hs].
    { apply same_keys_relink. } { apply same_keys_unlinked. }
    intros y. rewrite links_relink, links_unlinked by (done || congruence).
    destruct (segment_head _ _ _ _ Hs) as [H1 _]. rewrite links_relink, decide_False, decide_True in H1 by done.
    repeat case_decide; simplify_eq; try done. by destruct (links ds d) as [[]|]; simplify_eq/=.
  - rewrite last_or_app. cbn [last_or]. rewrite <-app_assoc in Hs |- *. cbn [app] in Hs |- *.
    assert (put (l1 ++ x :: u :: l2) rest = (l1 ++ x :: u :: l2) :: rest) as -> by by destruct l1.
    assert (x ≠ d ∧ d ≠ u ∧ x ≠ u) as (Hxd & Hdu & Hxu) by (pose proof (Hd1 x); set_solver).
    apply stacks_cut in Hs. apply (stacks_perm _ _ (([] ++ d :: u :: l2) :: (l1 ++ [x]) :: rest)) in Hs;
      [|by apply perm_swap].
    apply stacks_cut in Hs. pose proof (segment_head _ _ _ _ Hs) as [H1 _].
    apply (stacks_perm _ _ ((l1 ++ [x]) :: (u :: l2) :: [d] :: rest)) in Hs;
      [|etrans; [apply perm_swap|]; etrans; [|apply perm_swap]; by apply perm_skip, perm_swap].
    apply stacks_join in Hs. apply (stacks_perm _ _ ([d] :: (l1 ++ x :: u :: l2) :: rest)) in Hs; [|by apply perm_swap].
    eapply (stacks_ext2 ds); [| | |exact Hs].
    { repeat (eapply same_keys_trans; [|apply same_keys_relink]). done. } { apply same_keys_unlinked. }
    intros y. rewrite !links_relink, links_unlinked by (done || congruence).
    rewrite !links_relink in H1 by done.
    clear H1 Hs. repeat case_decide; simplify_eq; try done; unfold links; destruct (ds !! _); done.
Qed.

(** ** The stacks as an abstract state *)

Record Shape := { sh_stacks : list (list Z); sh_deleted : gset Z }.

Definition attach_answer (d t : Z) (a : Shape) : result Z :=
  if d =? t then Err STATUS_INVALID_PARAMETER else
  match stack_of t (sh_stacks a), stack_of d (sh_stacks a) with
  | None, _ => Err STATUS_INVALID_HANDLE
  | Some st, sd =>
      if decide (t ∈ sh_deleted a) then Err STATUS_DELETE_PENDING else
      match sd with
      | None => Err STATUS_INVALID_HANDLE
      | Some sd =>
          if decide (d ∈ sh_deleted a) then Err STATUS_DELETE_PENDING
          else if decide (sd = [d]) then Ok (default t (last st)) else Err STATUS_DEVICE_ALREADY_ATTACHED
      end
  end.

(** The device goes on top of the stack of [t]. *)
Definition attach_shape (d t : Z) (a : Shape) : Shape :=
  match attach_answer d t a, stack_of t (sh_stacks a) with
  | Ok _, Some st =>
      {| sh_stacks := (st ++ [d]) :: others d (others t (sh_stacks a)); sh_deleted := sh_deleted a |}
  | _, _ => a
  end.

Definition detach_answer (t : Z) (a : Shape) : result Z :=
  match stack_of t (sh_stacks a) with
  | None => Err STATUS_INVALID_HANDLE
  | Some st => match (split_at t st).2 with [] => Err STATUS_INVALID_DEVICE_REQUEST | u :: _ => Ok u end
  end.

(** The stack of [t] is cut above [t]. *)
Definition detach_shape (t : Z) (a : Shape) : Shape :=
  match stack_of t (sh_stacks a) with
  | Some st =>
      let '(low, up) := split_at t st in
      {| sh_stacks := low :: put up (others t (sh_stacks a)); sh_deleted := sh_deleted a |}
  | None => a
  end.

Definition delete_answer (d : Z) (a : Shape) : option Z :=
  match stack_of d (sh_stacks a) with
  | None => Some STATUS_INVALID_HANDLE
  | Some _ => if decide (d ∈ sh_deleted a) then Some STATUS_DELETE_PENDING else None
  end.

(** The neighbours of [d] close up, and [d] is deleted. *)
Definition delete_shape (d : Z) (a : Shape) : Shape :=
  match delete_answer d a, stack_of d (sh_stacks a) with
  | None, Some st =>
      {| sh_stacks := [d] :: put (filter (λ x, x ≠ d) st) (others d (sh_stacks a));
         sh_deleted := {[d]} ∪ sh_deleted a |}
  | _, _ => a
  end.

Record Shaped (ds : gmap Z DeviceObject) (a : Shape) : Prop := {
  sp_stacks : Stacks ds (sh_stacks a);
  sp_deleted : ∀ d, d ∈ sh_deleted a ↔ ∃ e, ds !! d = Some e ∧ dv_deleted e = true;
  sp_alone : ∀ d, d ∈ sh_deleted a → [d] ∈ sh_stacks a;
}.

(** Everything of a device but its place in a stack. *)
Definition bare (e : DeviceObject) : DeviceObject := dv_relink None None (dv_next_device e) (dv_deleted e) e.
Definition stack_only (ds ds' : gmap Z DeviceObject) : Prop := ∀ d, bare <$> ds' !! d = bare <$> ds !! d.

Lemma stack_only_alter f k ds : (∀ e, bare (f e) = bare e) → stack_only ds (alter f k ds).
Proof.
  intros Hf d. destruct (decide (k = d)) as [->|]; [|by rewrite lookup_alter_ne].
  rewrite lookup_alter_eq. destruct (ds !! d); simpl; [|done]. by rewrite Hf.
Qed.
Lemma stack_only_trans ds1 ds2 ds3 : stack_only ds1 ds2 → stack_only ds2 ds3 → stack_only ds1 ds3.
Proof. unfold stack_only. intros H1 H2 d. by rewrite H2, H1. Qed.
Lemma stack_only_relink x d up low ds : stack_only ds (relink x d up low ds).
Proof. eapply stack_only_trans; [|by apply stack_only_alter]. by apply stack_only_alter. Qed.
Lemma stack_only_unlinked d up low ds : stack_only ds (unlinked d up low ds).
Proof.
  unfold unlinked. destruct up, low; repeat (eapply stack_only_trans; [|by apply stack_only_alter]); done.
Qed.

(** A live device of [dr]. *)
Definition owned (ds : gmap Z DeviceObject) (dr d : Z) : Prop :=
  ∃ e, ds !! d = Some e ∧ dv_driver e = Some dr ∧ dv_deleted e = false.

(** What the chain of a driver depends on. *)
Definition core (e : DeviceObject) : Z * option Z * bool * option Z :=
  (dv_id e, dv_driver e, dv_deleted e, dv_next_device e).
Definition same_core (ds ds' : gmap Z DeviceObject) : Prop := ∀ d, core <$> ds' !! d = core <$> ds !! d.

Lemma core_stack_only ds ds' : stack_only ds ds' → same_core ds ds'.
Proof.
  intros Hb d. specialize (Hb d). destruct (ds' !! d) as [x'|], (ds !! d) as [x|]; simpl in *; try done.
  apply (inj Some) in Hb. f_equal. unfold core. by injection Hb as -> _ -> _ _ -> ->.
Qed.

Lemma core_Some ds ds' d e :
  same_core ds ds' → ds !! d = Some e → ∃ e', ds' !! d = Some e' ∧ core e' = core e.
Proof.
  intros Hb Hd. specialize (Hb d). rewrite Hd in Hb. destruct (ds' !! d) as [e'|]; [|done].
  exists e'. split; [done|]. by apply (inj Some) in Hb.
Qed.
Lemma same_core_sym ds ds' : same_core ds ds' → same_core ds' ds.
Proof. intros H d. symmetry. apply H. Qed.

Lemma owned_core ds ds' dr d : same_core ds ds' → owned ds dr d → owned ds' dr d.
Proof.
  intros Hb (e & He & Hdr & Hdel). destruct (core_Some _ _ _ _ Hb He) as (e' & He' & [= _ E1 E2 _]).
  exists e'. by rewrite E1, E2.
Qed.

Lemma deleted_core ds ds' d :
  same_core ds ds' →
  (∃ e, ds' !! d = Some e ∧ dv_deleted e = true) ↔ (∃ e, ds !! d = Some e ∧ dv_deleted e = true).
Proof.
  intros Hb. assert (∀ m m', same_core m m' → (∃ e, m !! d = Some e ∧ dv_deleted e = true) →
    ∃ e, m' !! d = Some e ∧ dv_deleted e = true) as E; [|split; apply E; [by apply same_core_sym|done]].
  intros m m' Hm (e & He & Hd). destruct (core_Some _ _ _ _ Hm He) as (e' & ? & [= _ _ E _]).
  exists e'. by rewrite E.
Qed.

(** The fate of a device by its place in the shape. *)
Lemma shaped_device ds a d :
  Shaped ds a →
  match ds !! d with
  | None => stack_of d (sh_stacks a) = None
  | Some e => (dv_deleted e = true ↔ d ∈ sh_deleted a) ∧
      ∃ l1 l2, stack_of d (sh_stacks a) = Some (l1 ++ d :: l2) ∧
        Stacks ds ((l1 ++ d :: l2) :: others d (sh_stacks a)) ∧
        split_at d (l1 ++ d :: l2) = (l1 ++ [d], l2) ∧ NoDup (l1 ++ d :: l2) ∧
        dv_lower_device e = last_or None l1 ∧ dv_attached_device e = hd_or None l2
  end.
Proof.
  intros [Hs Hdel _]. destruct (ds !! d) as [e|] eqn:E; [|by eapply stack_none].
  split. { rewrite Hdel. split; [by exists e|]. intros (? & ? & ?). congruence. }
  destruct (stack_find ds _ d Hs) as (l1 & l2 & E1 & Hs' & E2 & Hn); [by exists e|].
  exists l1, l2. split_and!; try done.
  all: pose proof (sk_segs _ _ Hs') as Hseg; apply Forall_cons in Hseg as [[_ Hseg] _];
    apply segment_at, links_Some in Hseg as (e' & He' & ? & ?); congruence.
Qed.

(** ** The operations on the stacks *)

Definition devices_only (s s' : IoManager) : Prop := s' = io_set_devices (io_devices s') s.

Lemma devices_only_refl s : devices_only s s.
Proof. by destruct s. Qed.

Lemma alter_device_run f d s :
  alter_device f d s = Done (Ok tt) (io_set_devices (alter f d (io_devices s)) s).
Proof. done. Qed.

Lemma live_device_run d s :
  live_device d s = Done (match io_devices s !! d with
    | None => Err STATUS_INVALID_HANDLE
    | Some e => if dv_deleted e then Err STATUS_DELETE_PENDING else Ok e end) s.
Proof.
  unfold live_device. simpl. rewrite device_run. destruct (io_devices s !! d) as [e|]; [|done].
  by destruct (dv_deleted e).
Qed.

Lemma last_or_None l : last_or None l = None ↔ l = [].
Proof. destruct l as [|x l _] using rev_ind; [done|]. rewrite last_or_app. simpl. split; [done|]. by destruct l. Qed.
Lemma hd_or_None l : hd_or None l = None ↔ l = [].
Proof. by destruct l. Qed.

Lemma last_default (d : Z) l1 l2 : default d (last (l1 ++ d :: l2)) = default d (last l2).
Proof. rewrite last_app_cons, last_cons. by destruct (last l2). Qed.

Lemma last_split (l : list Z) d : d ∈ l → ∃ l', l = l' ++ [default d (last l)].
Proof.
  destruct l as [|x l _] using rev_ind; intros Hd; [by apply not_elem_of_nil in Hd|].
  exists l. by rewrite last_snoc.
Qed.

Lemma shaped_same_deleted ds ds' a sts :
  Shaped ds a → stack_only ds ds' → Stacks ds' sts → (∀ d, d ∈ sh_deleted a → [d] ∈ sts) →
  Shaped ds' {| sh_stacks := sts; sh_deleted := sh_deleted a |}.
Proof.
  intros [_ Hdel _] Hb Hs Ha. constructor; [done| |done].
  intros d. simpl. rewrite Hdel. symmetry. by apply deleted_core, core_stack_only.
Qed.

(** A deleted device is in none of the stacks of live ones. *)
Lemma alone_others ds a d t : Shaped ds a → d ∈ sh_deleted a → d ≠ t → [d] ∈ others t (sh_stacks a).
Proof. intros Ha Hd Hne. apply list_elem_of_filter. split; [set_solver|]. by apply (sp_alone _ _ Ha). Qed.

(** An operation on the stacks: its answer, the shape it leaves, and what it keeps. *)
Definition shapes {A} (c : M IoManager A) (s : IoManager) (r : result A) (a : Shape) : Prop :=
  ∃ s', c s = Done r s' ∧ devices_only s s' ∧ stack_only (io_devices s) (io_devices s') ∧
    Shaped (io_devices s') a ∧ match r with Ok _ => True | Err _ => s' = s end.

Lemma shapes_refused {A} (c : M IoManager A) s e a :
  Shaped (io_devices s) a → c s = Done (Err e) s → shapes c s (Err e) a.
Proof. intros Ha Hc. exists s. split_and!; [done|apply devices_only_refl|done|done|done]. Qed.

Lemma attach_stacks_run d t s a :
  Shaped (io_devices s) a → shapes (attach_device d t) s (attach_answer d t a) (attach_shape d t a).
Proof.
  intros Ha. pose proof (shaped_device _ _ t Ha) as Ht. pose proof (shaped_device _ _ d Ha) as Hd.
  assert (∀ e, attach_answer d t a = Err e → attach_device d t s = Done (Err e) s →
    shapes (attach_device d t) s (attach_answer d t a) (attach_shape d t a)) as Hrefuse.
  { intros e E Hrun. unfold attach_shape. rewrite E. by apply shapes_refused. }
  unfold shapes, attach_device, attach_answer in *. mrun.
  destruct (d =? t) eqn:Edt; [by eapply Hrefuse|]. bool_prop.
  destruct (io_devices s !! t) as [et|] eqn:Et.
  2: { rewrite Ht in *. eapply Hrefuse; [done|]. by rewrite (top_none s t Et). }
  destruct Ht as (Hdt & l1 & l2 & Est & Hst & _ & Hnd & _). rewrite Est in *.
  pose proof (sk_segs _ _ Hst) as Hseg. apply Forall_cons in Hseg as [[_ Hseg] _].
  rewrite (wk_top _ _ _ _ (walks_run s _ t l1 l2 (sp_stacks _ _ Ha) Est Hnd Hseg)) in *.
  rewrite live_device_run, Et in *. case_decide as Hdel.
  { rewrite (proj2 Hdt Hdel) in *. by eapply Hrefuse. }
  destruct (dv_deleted et); [by destruct Hdel; apply Hdt|]. rewrite live_device_run in *.
  destruct (io_devices s !! d) as [ed|] eqn:Ed.
  2: { rewrite Hd in *. by eapply Hrefuse. }
  destruct Hd as (Hdd & m1 & m2 & Esd & Hsd & _ & Hndd & Elow & Eup). rewrite Esd in *.
  case_decide as Hdeld.
  { rewrite (proj2 Hdd Hdeld) in *. by eapply Hrefuse. }
  destruct (dv_deleted ed); [by destruct Hdeld; apply Hdd|]. rewrite Elow, Eup in *.
  destruct (decide (m1 ++ d :: m2 = [d])) as [Em|Em].
  2: { destruct (bool_decide (is_Some (hd_or None m2)) || bool_decide (is_Some (last_or None m1))) eqn:Eb;
         [by eapply Hrefuse|]. bool_prop. destruct Em.
       match goal with H1 : ¬ is_Some (hd_or None m2), H2 : ¬ is_Some (last_or None m1) |- _ =>
         apply eq_None_not_Some, hd_or_None in H1; apply eq_None_not_Some, last_or_None in H2; by subst end. }
  assert (m1 = [] ∧ m2 = []) as [-> ->].
  { destruct m1 as [|? [|]]; simplify_eq/=; [done|..]. }
  rewrite !bool_decide_false by (intros [? ?]; done). simpl orb. cbn iota. rewrite !alter_device_run. simpl.
  unfold attach_shape, attach_answer. rewrite (proj2 (Z.eqb_neq d t)) by done. rewrite Est, Esd.
  rewrite !decide_False, decide_True by done. rewrite last_default.
  set (x := default t (last l2)).
  eexists. split; [done|]. split; [done|]. split; [apply stack_only_relink|]. split; [|done].
  eapply shaped_same_deleted; [done|apply stack_only_relink| |].
  2: { intros y Hy. right. apply list_elem_of_filter. split; [set_solver|].
       eapply alone_others; [done|done|]. intros ->. done. }
  destruct (last_split (l1 ++ t :: l2) t) as (l' & El); [set_solver|]. rewrite last_default in El. fold x in El.
  pose proof (stacks_NoDup _ _ Hst) as Hnds. simpl in Hnds. apply NoDup_app in Hnds as (_ & Hdis & Hnds).
  assert ([d] ∈ others t (sh_stacks a)) as Hin.
  { apply list_elem_of_filter. split; [set_solver|].
    unfold stack_of in Esd. apply head_Some_elem_of in Esd. by apply list_elem_of_filter in Esd as [_ ?]. }
  destruct (stack_of_elem d _ [d] Hnds Hin) as [_ Hp]; [set_solver|].
  rewrite El, <-app_assoc. simpl. apply stacks_join. rewrite <-El.
  eapply stacks_perm; [|exact Hst]. by apply perm_skip.
Qed.

Lemma detach_stacks_run t s a :
  Shaped (io_devices s) a → shapes (detach_device t) s (detach_answer t a) (detach_shape t a).
Proof.
  intros Ha. pose proof (shaped_device _ _ t Ha) as Ht.
  unfold detach_answer, detach_shape, shapes, detach_device. mrun. rewrite device_run.
  destruct (io_devices s !! t) as [et|] eqn:Et.
  2: { rewrite Ht. by apply shapes_refused. }
  destruct Ht as (Hdt & l1 & l2 & Est & Hst & Esp & Hnd & _ & Eup). rewrite Est, Esp, Eup. simpl.
  assert (∀ y, y ∈ sh_deleted a → [y] ∈ (l1 ++ t :: l2) :: others t (sh_stacks a)) as Hal.
  { intros y Hy. destruct (stack_of_elem t (sh_stacks a) (l1 ++ t :: l2)) as [_ Hp];
      [by eapply stacks_NoDup, sp_stacks| |set_solver|rewrite <-Hp; by apply (sp_alone _ _ Ha)].
    unfold stack_of in Est. apply head_Some_elem_of in Est. by apply list_elem_of_filter in Est as [_ ?]. }
  destruct l2 as [|u l2]; simpl.
  - eexists. split; [done|]. split; [apply devices_only_refl|]. split; [done|]. split; [|done].
    by eapply shaped_same_deleted.
  - eexists. split; [done|]. split; [done|]. split; [apply (stack_only_relink t u None None)|]. split; [|done].
    eapply shaped_same_deleted; [done|apply (stack_only_relink t u None None)|by apply stacks_cut|].
    intros y Hy. destruct (decide (y = t)) as [->|Hne].
    + exfalso. specialize (Hal t Hy). apply elem_of_cons in Hal as [E|Hin].
      * by destruct l1 as [|? [|]]; simplify_eq/=.
      * apply list_elem_of_filter in Hin as [Hin _]. set_solver.
    + right. right. by eapply alone_others.
Qed.

Lemma filter_removed (d : Z) l1 l2 :
  NoDup (l1 ++ d :: l2) → filter (λ x, x ≠ d) (l1 ++ d :: l2) = l1 ++ l2.
Proof.
  intros Hnd. apply NoDup_app in Hnd as (_ & Hd1 & Hnd). apply NoDup_cons in Hnd as [Hd2 _].
  assert (∀ l : list Z, d ∉ l → filter (λ x, x ≠ d) l = l) as Hf.
  { induction l as [|y l IH]; intros Hy; [done|]. apply not_elem_of_cons in Hy as [? ?].
    rewrite filter_cons, decide_True by done. by rewrite IH. }
  rewrite filter_app, filter_cons, decide_False by auto. rewrite !Hf; [done|done|].
  intros Hin. apply (Hd1 d Hin). set_solver.
Qed.

(** The place of a live device is closed up; its entry is then marked. *)
Lemma unlink_run d s a e :
  Shaped (io_devices s) a → io_devices s !! d = Some e → dv_deleted e = false →
  ∃ ds', unlink_from_stack d s = Done (Ok tt) (io_set_devices ds' s) ∧ stack_only (io_devices s) ds' ∧
    links ds' d = Some (None, None) ∧
    ∀ ds'', (∀ y, links ds'' y = links ds' y) →
      (∀ y, (∃ e, ds'' !! y = Some e ∧ dv_deleted e = true) ↔ y = d ∨ ∃ e, io_devices s !! y = Some e ∧ dv_deleted e = true) →
      Shaped ds'' (delete_shape d a).
Proof.
  intros Ha He Hdel. pose proof (shaped_device _ _ d Ha) as Hd. rewrite He in Hd.
  destruct Hd as (Hdd & l1 & l2 & Est & Hst & Esp & Hnd & Elow & Eup).
  exists (unlinked d (hd_or None l2) (last_or None l1) (io_devices s)). split_and!.
  - unfold unlink_from_stack. mrun. rewrite He, Elow, Eup. unfold unlinked.
    destruct (hd_or None l2), (last_or None l1); done.
  - apply stack_only_unlinked.
  - apply stacks_unlink in Hst. by apply segment_head in Hst as [? _].
  - intros ds'' Hl Hd''. apply stacks_unlink in Hst.
    assert (d ∉ sh_deleted a) as Hni by (rewrite <-Hdd; congruence).
    unfold delete_shape, delete_answer. rewrite Est, decide_False by done. rewrite filter_removed by done.
    constructor; simpl.
    + eapply stacks_ext; [|exact Hl|exact Hst]. intros y.
      assert (∀ m : gmap Z DeviceObject, is_Some (m !! y) ↔ is_Some (links m y)) as E
        by (intros m; unfold links; by rewrite fmap_is_Some). by rewrite !E, Hl.
    + intros y. rewrite Hd'', elem_of_union, elem_of_singleton. by rewrite (sp_deleted _ _ Ha).
    + intros y [->%elem_of_singleton|Hy]%elem_of_union; [left|right].
      assert (y ≠ d) by (intros ->; done). assert ([y] ∈ others d (sh_stacks a)) by by eapply alone_others.
      unfold put. destruct (l1 ++ l2); [done|by right].
Qed.

(** ** The chain of a driver *)

Definition nexts (ds : gmap Z DeviceObject) (d : Z) : option (option Z) := dv_next_device <$> ds !! d.

Fixpoint linked (nx : Z → option (option Z)) (l : list Z) (above : option Z) : Prop :=
  match l with
  | [] => True
  | d :: l => nx d = Some (hd_or above l) ∧ linked nx l above
  end.

Lemma linked_app nx l1 l2 a : linked nx (l1 ++ l2) a ↔ linked nx l1 (hd_or a l2) ∧ linked nx l2 a.
Proof. induction l1 as [|d l1 IH]; simpl; [tauto|]. rewrite IH, hd_or_app. tauto. Qed.

Lemma linked_ext nx nx' l a : (∀ d, d ∈ l → nx' d = nx d) → linked nx l a → linked nx' l a.
Proof.
  induction l as [|d l IH]; intros Hext; simpl; [done|]. intros [Hd Hl]. split.
  - rewrite Hext by set_solver. done.
  - apply IH; [|done]. intros x Hx. apply Hext. set_solver.
Qed.

Record Chain (ds : gmap Z DeviceObject) (dr : Z) (e : DriverObject) (l : list Z) : Prop := {
  ch_sorted : StronglySorted (λ x y, y < x) l;
  ch_owned : ∀ d, d ∈ l ↔ owned ds dr d;
  ch_first : dr_first_device e = hd_or None l;
  ch_count : dr_device_count e = Z.of_nat (length l);
  ch_linked : linked (nexts ds) l None;
}.

Lemma chain_NoDup ds dr e l : Chain ds dr e l → NoDup l.
Proof.
  intros [Hs _ _ _ _]. induction Hs as [|x l _ IH Hx]; [apply NoDup_nil_2|].
  apply NoDup_cons. split; [|done]. intros Hin. rewrite Forall_forall in Hx. specialize (Hx x Hin). lia.
Qed.

Lemma chain_size ds dr e l : Chain ds dr e l → (length l ≤ size ds)%nat.
Proof.
  intros Hc. pose proof (chain_NoDup _ _ _ _ Hc) as Hnd.
  rewrite <-(length_map_to_list ds), <-(length_fmap fst). apply submseteq_length, NoDup_submseteq; [done|].
  intros d (e' & He & _)%(ch_owned _ _ _ _ Hc). apply list_elem_of_fmap. exists (d, e').
  split; [done|]. by apply elem_of_map_to_list.
Qed.

Lemma chain_core ds ds' dr e l : same_core ds ds' → Chain ds dr e l → Chain ds' dr e l.
Proof.
  intros Hb []. constructor; try done.
  - intros d. rewrite ch_owned0. split; apply owned_core; first [done | by apply same_core_sym].
  - eapply linked_ext; [|done]. intros d _. specialize (Hb d). unfold nexts.
    destruct (ds' !! d) as [x'|], (ds !! d) as [x|]; simpl in *; try done.
    apply (inj Some) in Hb. by injection Hb as _ _ _ ->.
Qed.

Lemma chain_loop_run fuel l s :
  linked (nexts (io_devices s)) l None → (length l < fuel)%nat →
  chain_loop fuel (hd_or None l) s = Done (Ok l) s.
Proof.
  revert l. induction fuel as [|fuel IH]; intros l Hl Hf; [lia|].
  destruct l as [|d l]; simpl; [done|]. destruct Hl as [Hd Hl]. unfold nexts in Hd.
  destruct (io_devices s !! d) as [e|]; simpl in *; [|done]. apply (inj Some) in Hd. rewrite Hd.
  rewrite IH by (done || lia). done.
Qed.

(** The search for the device before [d]. *)
Lemma unlink_loop_run fuel c l1 d l2 nd s :
  linked (nexts (io_devices s)) (c :: l1 ++ d :: l2) None → d ∉ l1 → (S (length l1) < fuel)%nat →
  unlink_loop fuel d nd (Some c) s =
    Done (Ok tt) (io_set_devices (alter (dv_set_next nd) (default c (last l1)) (io_devices s)) s).
Proof.
  revert c l1. induction fuel as [|fuel IH]; intros c l1 Hl Hd Hf; [lia|].
  destruct Hl as [Hc Hl]. simpl. unfold nexts in Hc.
  destruct (io_devices s !! c) as [e|] eqn:Ec; simpl in *; [|done]. apply (inj Some) in Hc. rewrite Hc.
  destruct l1 as [|x l1]; simpl in *.
  - by rewrite bool_decide_true.
  - apply not_elem_of_cons in Hd as [Hne Hd]. rewrite bool_decide_false by congruence.
    rewrite (IH x l1) by (done || lia). rewrite last_cons. by destruct (last l1).
Qed.

(** The chain without a device that is deleted; [ds1] is the table once the device
    before [d] was relinked. *)
Lemma nexts_alter f k ds d :
  nexts (alter f k ds) d = if decide (d = k) then (λ e, dv_next_device (f e)) <$> ds !! d else nexts ds d.
Proof.
  unfold nexts. case_decide; subst; [|by rewrite lookup_alter_ne].
  rewrite lookup_alter_eq. by destruct (ds !! k).
Qed.

Lemma sorted_middle l1 (d : Z) l2 :
  StronglySorted (λ x y, y < x) (l1 ++ d :: l2) → StronglySorted (λ x y, y < x) (l1 ++ l2).
Proof.
  induction l1 as [|x l1 IH]; simpl; intros H; apply StronglySorted_inv in H as [H Hx]; [done|].
  constructor; [by apply IH|]. rewrite Forall_forall in Hx |- *. intros y Hy. apply Hx. set_solver.
Qed.

Definition mark_deleted (e : DeviceObject) : DeviceObject :=
  dv_relink (dv_attached_device e) (dv_lower_device e) None true e.

Definition unchained (d : Z) (l1 l2 : list Z) (ds : gmap Z DeviceObject) : gmap Z DeviceObject :=
  alter mark_deleted d
    (match last l1 with Some x => alter (dv_set_next (hd_or None l2)) x ds | None => ds end).

Lemma unchained_lookup d l1 l2 ds y e :
  d ∉ l1 → ds !! y = Some e →
  ∃ e', unchained d l1 l2 ds !! y = Some e' ∧ dv_id e' = dv_id e ∧ dv_driver e' = dv_driver e ∧
    dv_deleted e' = (if decide (y = d) then true else dv_deleted e).
Proof.
  intros Hd He. unfold unchained. destruct (decide (y = d)) as [->|Hne].
  - rewrite lookup_alter_eq. destruct (last l1) as [x|] eqn:Ex.
    + rewrite lookup_alter_ne; [|intros ->; by apply Hd, last_Some_elem_of]. rewrite He. by eexists.
    + rewrite He. by eexists.
  - rewrite lookup_alter_ne by done. destruct (last l1) as [x|]; [|by exists e].
    destruct (decide (x = y)) as [->|]; [rewrite lookup_alter_eq, He; by eexists|].
    rewrite lookup_alter_ne by done. by exists e.
Qed.

Lemma unchained_None d l1 l2 ds y : ds !! y = None → unchained d l1 l2 ds !! y = None.
Proof.
  intros Hy. rewrite eq_None_not_Some in Hy |- *. unfold unchained. rewrite lookup_alter_is_Some.
  destruct (last l1); [by rewrite lookup_alter_is_Some|done].
Qed.

Lemma links_unchained d l1 l2 ds y : links (unchained d l1 l2 ds) y = links ds y.
Proof.
  unfold unchained. rewrite (links_alter _ id) by done.
  assert (links (match last l1 with Some x => alter (dv_set_next (hd_or None l2)) x ds | None => ds end) y = links ds y) as E.
  { destruct (last l1); [|done]. rewrite (links_alter _ id) by done. case_decide; [|done]. by destruct (links ds y). }
  rewrite E. case_decide; [|done]. by destruct (links ds y).
Qed.

Lemma owned_unchained d l1 l2 ds dr y :
  d ∉ l1 → owned (unchained d l1 l2 ds) dr y ↔ owned ds dr y ∧ y ≠ d.
Proof.
  intros Hd. unfold owned. destruct (ds !! y) as [e|] eqn:E.
  - destruct (unchained_lookup d l1 l2 ds y e Hd E) as (e' & He' & _ & Edr & Edel). rewrite He'.
    split.
    + intros (x & [= <-] & H1 & H2). rewrite Edel in H2. case_decide; [done|]. split; [|done].
      exists e. split_and!; [done|congruence|done].
    + intros ((x & [= <-] & H1 & H2) & Hne). exists e'. rewrite Edel, decide_False by done.
      split_and!; [done|congruence|done].
  - rewrite unchained_None by done. naive_solver.
Qed.

Lemma nexts_unchained d l1 l2 ds y :
  y ≠ d → last l1 ≠ Some y → nexts (unchained d l1 l2 ds) y = nexts ds y.
Proof.
  intros Hd Hl. unfold unchained. rewrite nexts_alter, decide_False by done.
  destruct (last l1) as [x|]; [|done]. rewrite nexts_alter, decide_False by congruence. done.
Qed.

(** The chain of the driver that loses the device, and that of any other one. *)
Lemma chain_unchained ds dr e l1 d l2 :
  Chain ds dr e (l1 ++ d :: l2) →
  Chain (unchained d l1 l2 ds) dr
    (dr_set_chain (hd_or None (l1 ++ l2)) (saturating_sub (dr_device_count e) 1) e) (l1 ++ l2).
Proof.
  intros Hc. pose proof (chain_NoDup _ _ _ _ Hc) as Hnd. destruct Hc as [Hs Ho Hf Hcnt Hl].
  apply NoDup_app in Hnd as (Hnd1 & Hd1 & Hnd2). apply NoDup_cons in Hnd2 as [Hd2 Hnd2].
  assert (d ∉ l1) as Hd by (intros Hin; apply (Hd1 d Hin); set_solver).
  constructor.
  - by eapply sorted_middle.
  - intros y. rewrite owned_unchained by done. rewrite <-Ho. set_solver.
  - done.
  - simpl. rewrite Hcnt, !length_app. unfold saturating_sub. simpl. lia.
  - rewrite linked_app in Hl |- *. destruct Hl as [Hl1 [_ Hl2]]. split.
    + destruct l1 as [|x l1 _] using rev_ind; [done|].
      assert (x ∉ l1) as Hx by (apply NoDup_app in Hnd1 as (_ & Hnd1 & _); intros Hin; apply (Hnd1 x Hin); set_solver).
      rewrite linked_app in Hl1 |- *. destruct Hl1 as [Hl1 [Hx1 _]]. split.
      * eapply linked_ext; [|exact Hl1]. intros y Hy. apply nexts_unchained; [set_solver|].
        rewrite last_snoc. intros [= ->]. done.
      * simpl. split; [|done]. unfold unchained. rewrite last_snoc.
        rewrite nexts_alter, decide_False by set_solver. rewrite nexts_alter, decide_True by done.
        unfold nexts in Hx1. by destruct (ds !! x).
    + eapply linked_ext; [|exact Hl2]. intros y Hy. apply nexts_unchained; [set_solver|].
      intros Hin%last_Some_elem_of. apply (Hd1 y Hin). set_solver.
Qed.

Lemma owned_unique ds dr dr' d : owned ds dr d → owned ds dr' d → dr' = dr.
Proof. intros (? & ? & ? & _) (? & ? & ? & _). congruence. Qed.

Lemma chain_unchained_other ds dr e l1 d l2 dr' e' l :
  Chain ds dr e (l1 ++ d :: l2) → dr' ≠ dr → Chain ds dr' e' l → Chain (unchained d l1 l2 ds) dr' e' l.
Proof.
  intros Hc Hne Hc'. pose proof (chain_NoDup _ _ _ _ Hc) as Hnd.
  apply NoDup_app in Hnd as (_ & Hd1 & _).
  assert (d ∉ l1) as Hd by (intros Hin; apply (Hd1 d Hin); set_solver).
  assert (∀ y, y ∈ l → y ∉ l1 ++ d :: l2) as Hdis.
  { intros y Hy Hin. apply Hne. eapply owned_unique; [by apply (ch_owned _ _ _ _ Hc)|].
    by apply (ch_owned _ _ _ _ Hc'). }
  destruct Hc' as [Hs Ho Hf Hcnt Hl]. constructor; try done.
  - intros y. rewrite owned_unchained by done. rewrite <-Ho. split; [|tauto]. intros Hy. split; [done|].
    intros ->. apply (Hdis d Hy). set_solver.
  - eapply linked_ext; [|exact Hl]. intros y Hy. specialize (Hdis y Hy). apply nexts_unchained; [set_solver|].
    intros Hin%last_Some_elem_of. set_solver.
Qed.

Lemma linked_middle nx l1 d l2 : linked nx (l1 ++ d :: l2) None → nx d = Some (hd_or None l2).
Proof. rewrite linked_app. intros [_ [? _]]. done. Qed.

Lemma unlink_from_driver_run dr d s e l1 l2 :
  io_drivers s !! dr = Some e → Chain (io_devices s) dr e (l1 ++ d :: l2) →
  unlink_from_driver dr d (hd_or None l2) s = Done (Ok tt)
    (io_set_drivers (<[dr := dr_set_chain (hd_or None (l1 ++ l2)) (saturating_sub (dr_device_count e) 1) e]> (io_drivers s))
      (io_set_devices (match last l1 with
        | Some x => alter (dv_set_next (hd_or None l2)) x (io_devices s) | None => io_devices s end) s)).
Proof.
  intros He Hc. pose proof (chain_NoDup _ _ _ _ Hc) as Hnd. pose proof (chain_size _ _ _ _ Hc) as Hsz.
  destruct Hc as [_ _ Hf _ Hl]. apply NoDup_app in Hnd as (_ & Hd1 & _).
  assert (d ∉ l1) as Hd by (intros Hin; apply (Hd1 d Hin); set_solver).
  unfold unlink_from_driver. mrun. rewrite He, Hf. destruct l1 as [|x l1]; simpl.
  - rewrite bool_decide_true by done. simpl. f_equal. unfold io_set_drivers, io_set_devices. simpl. f_equal.
    erewrite alter_twice, alter_is_insert; [|exact He|..]; [|done]. done.
  - apply not_elem_of_cons in Hd as [Hne Hd]. rewrite bool_decide_false by congruence. mrun.
    unfold device_fuel. rewrite length_app in Hsz. simpl in Hsz.
    rewrite (unlink_loop_run _ x l1 d l2) by (done || lia). simpl. rewrite last_cons.
    unfold io_set_drivers, io_set_devices. simpl. f_equal. f_equal.
    + erewrite alter_is_insert by exact He. by rewrite Hf.
    + by destruct (last l1).
Qed.
End Iol.
