(* ===== verification/IoTheorems.v ===== *)
(** * Correctness of the I/O manager

    The invariant of the manager ties its tables to the object manager, the IRPs and
    the ports it owns.  It holds after every sequence of calls, also those made on
    the object manager through [objects_mut] and on clones of the IRP core and the
    ports. *)

From S2P Require Import Prelude Status Object ObjectFacts Irp IrpFacts IoPort IoPortFacts Io IoFacts.

Module Iot.
Import Iol.

(** ** Object identifiers only grow *)

Section ids.
Context `{UnicodeLower}.

Definition next_grows (s s' : ObjectManager) : Prop := om_next_object_id s ≤ om_next_object_id s'.
#[local] Instance next_grows_preorder : PreOrder next_grows.
Proof. split; unfold next_grows; [intros s; lia|intros s1 s2 s3; lia]. Qed.

Lemma grows_modify f : (∀ s, om_next_object_id (f s) = om_next_object_id s) → monotone next_grows (modify f).
Proof. intros Hf. apply monotone_modify. intros s. unfold next_grows. by rewrite Hf. Qed.
Lemma grows_create k p n : monotone next_grows (create_object k p n).
Proof.
  intros s r s' E. unfold create_object, normalize_m in E. mrun.
  destruct (negb _); mrun; [by simplify_eq|]. destruct n as [n|]; mrun.
  - destruct (normalize_name n); mrun; [|by simplify_eq]. destruct (bool_decide _); mrun; [by simplify_eq|].
    destruct (_ <=? _); [|done]. injection E as <- <-. unfold next_grows. simpl. lia.
  - destruct (_ <=? _); [|done]. injection E as <- <-. unfold next_grows. simpl. lia.
Qed.

Lemma grows_step ext s ext' s' : ObjectFacts.step ext s ext' s' → om_next_object_id s ≤ om_next_object_id s'.
Proof.
  assert (∀ id e, monotone next_grows (add_reference id e)) as Hadd.
  { intros. unfold add_reference. monotone_steps. by apply grows_modify. }
  assert (∀ id, monotone next_grows (drop_reference id)) as Hdrop.
  { intros. unfold drop_reference, destroy. monotone_steps; by apply grows_modify. }
  assert (∀ p h, monotone next_grows (lookup_handle p h)) as Hlook by (intros; unfold lookup_handle; monotone_steps).
  assert (∀ p id a i, monotone next_grows (grant_handle p id a i)) as Hgrant.
  { intros. unfold grant_handle. monotone_steps; [apply Hadd|by apply grows_modify]. }
  assert (∀ p h, monotone next_grows (close_handle p h)) as Hclose.
  { intros. unfold close_handle. monotone_steps; [by apply grows_modify|apply Hdrop]. }
  intros []; lazymatch goal with Hr : ?c _ = Done ?r _ |- _ => assert (monotone next_grows c) as Hm; [clear Hr|by apply Hm in Hr] end.
  - apply grows_create.
  - unfold open_object, normalize_m. monotone_steps. apply Hadd.
  - apply Hdrop.
  - apply Hgrant.
  - unfold duplicate_handle. monotone_steps; [apply Hlook|apply Hgrant].
  - apply Hclose.
  - unfold close_process. monotone_steps; [apply Hclose|by apply grows_modify].
  - unfold inherit_handles. monotone_steps. all: apply Hgrant.
  - unfold set_event, payload_mut, store_payload. monotone_steps. all: by apply grows_modify.
  - unfold reset_event, payload_mut, store_payload. monotone_steps. all: by apply grows_modify.
  - unfold acquire_mutant, payload_mut, store_payload. monotone_steps. all: by apply grows_modify.
  - unfold release_mutant, payload_mut, store_payload. monotone_steps. all: by apply grows_modify.
Qed.
End ids.

(** ** The device and driver tables *)

(** The chains, and the devices' drivers. *)
Record CInv (ds : gmap Z DeviceObject) (drs : gmap Z DriverObject) : Prop := {
  t_chains : ∀ dr e, drs !! dr = Some e → dr_id e = dr ∧ ∃ l, Chain ds dr e l;
  t_owner : ∀ d e, ds !! d = Some e → dv_id e = d ∧ ∃ dr, dv_driver e = Some dr ∧ is_Some (drs !! dr);
}.
Definition TInv (ds : gmap Z DeviceObject) (drs : gmap Z DriverObject) : Prop :=
  (∃ a, Shaped ds a) ∧ CInv ds drs.

Lemma tinv_empty : TInv ∅ ∅.
Proof.
  split; [|constructor; intros; simplify_map_eq].
  exists {| sh_stacks := []; sh_deleted := ∅ |}. constructor; simpl.
  - constructor; [by rewrite map_to_list_empty|constructor].
  - intros d. split; [set_solver|]. intros (? & ? & _). simplify_map_eq.
  - set_solver.
Qed.

(** Links, flags and extensions change, the chains do not. *)
Lemma cinv_core ds ds' drs : CInv ds drs → same_core ds ds' → CInv ds' drs.
Proof.
  intros [] Hb. constructor.
  - intros dr e He. destruct (t_chains0 dr e He) as (? & l & Hl). split; [done|]. exists l. by eapply chain_core.
  - intros d e He. destruct (core_Some _ _ _ _ (same_core_sym _ _ Hb) He) as (x & Hx & [= Ei Ed _ _]).
    rewrite <-Ei, <-Ed. by apply t_owner0.
Qed.

Lemma tinv_core ds ds' drs a : TInv ds drs → same_core ds ds' → Shaped ds' a → TInv ds' drs.
Proof. intros [_ Hc] Hb Ha. split; [by exists a|by eapply cinv_core]. Qed.

(** A change that keeps the links too. *)
Lemma shaped_same ds ds' a :
  same_core ds ds' → (∀ d, links ds' d = links ds d) → Shaped ds a → Shaped ds' a.
Proof.
  intros Hb Hl []. constructor; [|intros d; by rewrite sp_deleted0, <-deleted_core|done].
  eapply stacks_ext; [|exact Hl|done]. intros d. specialize (Hb d).
  destruct (ds !! d), (ds' !! d); simpl in *; try done; split; intros []; by eexists.
Qed.

Lemma tinv_same ds ds' drs :
  TInv ds drs → same_core ds ds' → (∀ d, links ds' d = links ds d) → TInv ds' drs.
Proof.
  intros Ht Hb Hl. pose proof Ht as [[a Ha] _].
  eapply tinv_core; [done|done|by eapply shaped_same].
Qed.

Lemma tinv_create_driver ds drs id name x :
  TInv ds drs → drs !! id = None →
  TInv ds (<[id := {| dr_id := id; dr_name := name; dr_extension := x; dr_first_device := None;
                      dr_device_count := 0 |}]> drs).
Proof.
  intros [Ha []] Hid. split; [done|]. constructor.
  - intros dr e [[<- <-]|[Hne He]]%lookup_insert_Some; [|by apply t_chains0].
    split; [done|]. exists []. constructor; try done; [constructor|].
    intros d. split; [by intros ?%not_elem_of_nil|]. intros (e & He & Hdr & _).
    destruct (t_owner0 d e He) as (_ & dr & Hdr' & [x' Hx]). congruence.
  - intros d e He. destruct (t_owner0 d e He) as (? & dr & Hdr & Hs). split; [done|]. exists dr.
    split; [done|]. rewrite lookup_insert_is_Some. destruct (decide (id = dr)); [by left|by right].
Qed.

(** A fresh device is a stack of its own and the head of its driver's chain. *)
Definition fresh_device (id : Z) (name : option (list Z)) (dr : Z) (x : list Z) (flags : Z) (next : option Z)
    : DeviceObject :=
  {| dv_id := id; dv_name := name; dv_driver := Some dr; dv_extension := x; dv_flags := flags;
     dv_deleted := false; dv_attached_device := None; dv_lower_device := None; dv_next_device := next |}.

Lemma shaped_create ds id name dr x flags next a :
  ds !! id = None → Shaped ds a →
  Shaped (<[id := fresh_device id name dr x flags next]> ds)
    {| sh_stacks := [id] :: sh_stacks a; sh_deleted := sh_deleted a |}.
Proof.
  intros Hid [[Hp Hs] Hd Ha]. assert (∀ y, y ≠ id → links (<[id := fresh_device id name dr x flags next]> ds) y = links ds y) as Hl
    by (intros y Hy; unfold links; by rewrite lookup_insert_ne).
  constructor; simpl.
  - constructor.
    + simpl. rewrite map_to_list_insert by done. simpl. by rewrite Hp.
    + apply Forall_cons. split.
      * split; [done|]. split; [|done]. unfold links. by rewrite lookup_insert_eq.
      * rewrite Forall_forall in Hs |- *. intros st Hst. destruct (Hs st Hst) as [? Hseg]. split; [done|].
        eapply segment_ext; [|exact Hseg]. intros y Hy. apply Hl. intros ->.
        assert (id ∈ concat (sh_stacks a)) as Hin by (apply elem_of_concat; by exists st).
        rewrite Hp, list_elem_of_fmap in Hin. destruct Hin as ([k e] & -> & He%elem_of_map_to_list).
        simpl in Hid. congruence.
  - intros d. rewrite Hd. destruct (decide (d = id)) as [->|Hne].
    + rewrite lookup_insert_eq, Hid. split; [by intros (? & ? & _)|]. intros (? & [= <-] & Hdel). done.
    + by rewrite lookup_insert_ne.
  - intros d Hdel. right. by apply Ha.
Qed.

Lemma chain_create ds id name dr x flags e l :
  ds !! id = None → (∀ d, is_Some (ds !! d) → d < id) → Chain ds dr e l →
  Chain (<[id := fresh_device id name dr x flags (dr_first_device e)]> ds) dr
    (dr_set_chain (Some id) (dr_device_count e + 1) e) (id :: l).
Proof.
  intros Hid Hlt Hc. pose proof Hc as [Hs Ho Hf Hcnt Hl].
  assert (∀ d, d ∈ l → is_Some (ds !! d)) as Hin by (intros d (? & ? & _)%Ho; by eexists).
  constructor; simpl.
  - constructor; [done|]. apply Forall_forall. intros d Hd. by apply Hlt, Hin.
  - intros d. rewrite elem_of_cons, Ho. unfold owned. destruct (decide (d = id)) as [->|Hne].
    + rewrite lookup_insert_eq. split; [|by left]. intros _. by eexists.
    + rewrite lookup_insert_ne by done. naive_solver.
  - done.
  - lia.
  - split.
    + unfold nexts. rewrite lookup_insert_eq. simpl. by rewrite Hf.
    + eapply linked_ext; [|exact Hl]. intros d Hd. unfold nexts. rewrite lookup_insert_ne; [done|].
      intros ->. destruct (Hin d Hd). congruence.
Qed.

Lemma chain_create_other ds id dev dr e l :
  ds !! id = None → dv_driver dev ≠ Some dr → Chain ds dr e l → Chain (<[id := dev]> ds) dr e l.
Proof.
  intros Hid Hdr [Hs Ho Hf Hcnt Hl]. constructor; try done.
  - intros d. rewrite Ho. unfold owned. destruct (decide (d = id)) as [->|Hne].
    + rewrite lookup_insert_eq, Hid. naive_solver.
    + by rewrite lookup_insert_ne.
  - eapply linked_ext; [|exact Hl]. intros d (? & ? & _)%Ho. unfold nexts. rewrite lookup_insert_ne; [done|].
    intros ->. congruence.
Qed.

Lemma tinv_create_device ds drs id name dr x flags e :
  TInv ds drs → ds !! id = None → (∀ d, is_Some (ds !! d) → d < id) → drs !! dr = Some e →
  TInv (<[id := fresh_device id name dr x flags (dr_first_device e)]> ds)
       (<[dr := dr_set_chain (Some id) (dr_device_count e + 1) e]> drs).
Proof.
  intros [[a Ha] []] Hid Hlt He. split; [eexists; by apply shaped_create|]. constructor.
  - intros dr' e' [[<- <-]|[Hne He']]%lookup_insert_Some.
    + destruct (t_chains0 dr e He) as (? & l & Hl). split; [done|]. eexists. by apply chain_create.
    + destruct (t_chains0 dr' e' He') as (? & l & Hl). split; [done|]. exists l.
      apply chain_create_other; [done| |done]. simpl. congruence.
  - intros d e'. rewrite lookup_insert_Some. intros [[<- <-]|[Hne He']].
    + split; [done|]. exists dr. split; [done|]. by rewrite lookup_insert_eq.
    + destruct (t_owner0 d e' He') as (? & dr' & ? & ?). split; [done|]. exists dr'. split; [done|].
      rewrite lookup_insert_is_Some. destruct (decide (dr = dr')); [by left|by right].
Qed.

(** Deleting a device: the run on the tables. *)
Lemma tinv_unchained ds drs d dr e l1 l2 a :
  CInv ds drs → drs !! dr = Some e → Chain ds dr e (l1 ++ d :: l2) → Shaped (unchained d l1 l2 ds) a →
  TInv (unchained d l1 l2 ds)
    (<[dr := dr_set_chain (hd_or None (l1 ++ l2)) (saturating_sub (dr_device_count e) 1) e]> drs).
Proof.
  intros [] He Hc Ha. pose proof (chain_NoDup _ _ _ _ Hc) as Hnd. apply NoDup_app in Hnd as (_ & Hd1 & _).
  assert (d ∉ l1) as Hd by (intros Hin; apply (Hd1 d Hin); set_solver).
  split; [by eexists|]. constructor.
  - intros dr' e' [[<- <-]|[Hne He']]%lookup_insert_Some.
    + split; [by apply (t_chains0 dr e)|]. eexists. by apply chain_unchained.
    + destruct (t_chains0 dr' e' He') as (? & l & Hl). split; [done|]. exists l.
      eapply chain_unchained_other; [exact Hc|done|done].
  - intros y x Hx. destruct (ds !! y) as [x0|] eqn:Ey; [|by rewrite unchained_None in Hx].
    destruct (unchained_lookup d l1 l2 ds y x0 Hd Ey) as (x1 & Hx1 & Ei & Ed & _).
    assert (x1 = x) as -> by congruence. rewrite Ei, Ed.
    destruct (t_owner0 y x0 Ey) as (? & dr' & ? & ?). split; [done|]. exists dr'. split; [done|].
    rewrite lookup_insert_is_Some. destruct (decide (dr = dr')); [by left|by right].
Qed.

(** What stays of a device whatever happens to its links. *)
Definition kept (e : DeviceObject) := (dv_id e, dv_name e, dv_driver e, dv_extension e, dv_flags e).

(** The frame of a deletion: of every device but [d] all stays but the stack links and
    a [next_device] that was [d]; of the drivers, the chain and the count of one. *)
Record table_frame (d : Z) (ds ds' : gmap Z DeviceObject) (drs drs' : gmap Z DriverObject) : Prop := {
  tf_keys : same_keys ds ds';
  tf_device : ∀ y e e', ds !! y = Some e → ds' !! y = Some e' → kept e' = kept e ∧
    dv_deleted e' = (if decide (y = d) then true else dv_deleted e) ∧
    (y ≠ d → dv_next_device e' = dv_next_device e ∨ dv_next_device e = Some d);
  tf_driver : ∀ dr e, drs !! dr = Some e →
    if decide ((ds !! d ≫= dv_driver) = Some dr)
    then ∃ first, drs' !! dr = Some (dr_set_chain first (saturating_sub (dr_device_count e) 1) e)
    else drs' !! dr = Some e }.

Lemma frame_unchained ds ds1 d l1 l2 y e e' :
  stack_only ds ds1 → d ∉ l1 → linked (nexts ds1) (l1 ++ d :: l2) None →
  ds !! y = Some e → unchained d l1 l2 ds1 !! y = Some e' →
  kept e' = kept e ∧ dv_deleted e' = (if decide (y = d) then true else dv_deleted e) ∧
  (y ≠ d → dv_next_device e' = dv_next_device e ∨ dv_next_device e = Some d).
Proof.
  intros Hso Hd Hl Hy Hy'. specialize (Hso y). rewrite Hy in Hso. destruct (ds1 !! y) as [e1|] eqn:E1; [|done]. apply (inj Some) in Hso.
  assert (kept e1 = kept e ∧ dv_deleted e1 = dv_deleted e ∧ dv_next_device e1 = dv_next_device e) as (Ek & Ed & En).
  { unfold bare, dv_relink in Hso. unfold kept. injection Hso as -> -> -> -> -> -> ->. done. }
  unfold unchained in Hy'. destruct (decide (y = d)) as [->|Hne].
  - rewrite lookup_alter_eq in Hy'. split_and!; [|by apply fmap_Some in Hy' as (? & _ & ->)|done]. rewrite <-Ek.
    destruct (last l1) as [x|] eqn:Ex; [rewrite lookup_alter_ne in Hy' by (intros ->; by apply Hd, last_Some_elem_of)|];
      rewrite E1 in Hy'; by injection Hy' as <-.
  - rewrite lookup_alter_ne in Hy' by done. destruct (last l1) as [x|] eqn:Ex; [|rewrite E1 in Hy'; injection Hy' as <-; rewrite Ek, Ed, En; tauto].
    destruct (decide (x = y)) as [->|Hxy]; [|rewrite lookup_alter_ne, E1 in Hy' by done; injection Hy' as <-; rewrite Ek, Ed, En; tauto].
    rewrite lookup_alter_eq, E1 in Hy'. injection Hy' as <-. split_and!; [done|done|]. intros _. right. rewrite <-En.
    apply last_Some in Ex as [l0 ->]. rewrite <-app_assoc in Hl. apply linked_middle in Hl. unfold nexts in Hl. rewrite E1 in Hl. by injection Hl.
Qed.

(** What a deletion does to the tables. *)
Record Deleted (d : Z) (a : Shape) (ds ds' : gmap Z DeviceObject) (drs drs' : gmap Z DriverObject) : Prop := {
  de_tables : TInv ds' drs';
  de_shape : Shaped ds' (delete_shape d a);
  de_keys : same_keys ds ds';
  de_drivers : ∀ dr, is_Some (drs' !! dr) ↔ is_Some (drs !! dr);
  de_owned : ∀ dr y, owned ds' dr y ↔ owned ds dr y ∧ y ≠ d;
  de_deleted : ∃ e, ds' !! d = Some e ∧ dv_deleted e = true;
  de_frame : table_frame d ds ds' drs drs';
}.

Lemma deleted_unchained ds d l1 l2 y :
  d ∉ l1 → is_Some (ds !! d) →
  (∃ e, unchained d l1 l2 ds !! y = Some e ∧ dv_deleted e = true) ↔
  y = d ∨ ∃ e, ds !! y = Some e ∧ dv_deleted e = true.
Proof.
  intros Hd [e0 He0]. destruct (ds !! y) as [e|] eqn:Ey.
  - destruct (unchained_lookup d l1 l2 ds y e Hd Ey) as (e' & -> & _ & _ & Edel). split.
    + intros (x & [= <-] & Hx). rewrite Edel in Hx. case_decide; [by left|right]. by exists e.
    + intros Hx. exists e'. split; [done|]. rewrite Edel. case_decide; [done|].
      destruct Hx as [?|(x & [= <-] & ?)]; done.
  - rewrite unchained_None by done. naive_solver.
Qed.

Lemma same_keys_unchained d l1 l2 ds : same_keys ds (unchained d l1 l2 ds).
Proof.
  intros y. unfold unchained. rewrite lookup_alter_is_Some.
  destruct (last l1); [by rewrite lookup_alter_is_Some|done].
Qed.

Lemma stack_only_keys ds ds' : stack_only ds ds' → same_keys ds ds'.
Proof. intros Hb d. specialize (Hb d). destruct (ds !! d), (ds' !! d); simpl in Hb; try done. Qed.

Section deletion.
Context `{UnicodeLower} (routine_status : list (Z * IrpCompletion) → Z → IrpCompletion → Z).

Lemma delete_device_tables d s a e :
  TInv (io_devices s) (io_drivers s) → Shaped (io_devices s) a →
  io_devices s !! d = Some e → dv_deleted e = false →
  ∃ ds' drs', Deleted d a (io_devices s) ds' (io_drivers s) drs' ∧
    delete_device routine_status d s =
      (with_irps (cancel_pending_for_device routine_status d) ;;; with_objects (release_object d) ;;; ret tt)
        (io_set_drivers drs' (io_set_devices ds' s)).
Proof.
  intros [_ Ht] Ha He Hdel. destruct (t_owner _ _ Ht d e He) as (_ & dr & Edr & [er Her]).
  destruct (t_chains _ _ Ht dr er Her) as (_ & l & Hl).
  assert (d ∈ l) as Hd by (apply (ch_owned _ _ _ _ Hl); by exists e).
  apply list_elem_of_split in Hd as (l1 & l2 & ->).
  pose proof (chain_NoDup _ _ _ _ Hl) as Hnd. apply NoDup_app in Hnd as (_ & Hd1 & _).
  assert (d ∉ l1) as Hd by (intros Hin; apply (Hd1 d Hin); set_solver). clear Hd1.
  assert (dv_next_device e = hd_or None l2) as En.
  { pose proof (linked_middle _ _ _ _ (ch_linked _ _ _ _ Hl)) as E. unfold nexts in E. rewrite He in E.
    by apply (inj Some) in E. }
  destruct (unlink_run d s a e Ha He Hdel) as (ds1 & Hrun & Hso & _ & Hshape).
  pose proof (core_stack_only _ _ Hso) as Hcore.
  assert (is_Some (ds1 !! d)) as Hds1 by (by eapply stack_only_keys; [|exists e]).
  set (ds' := unchained d l1 l2 ds1).
  assert (Shaped ds' (delete_shape d a)) as Ha'.
  { apply Hshape; [apply links_unchained|]. intros y. unfold ds'. rewrite deleted_unchained by done.
    by rewrite (deleted_core (io_devices s) ds1). }
  pose proof (chain_core _ _ _ _ _ Hcore Hl) as Hl1.
  set (drs' := <[dr := dr_set_chain (hd_or None (l1 ++ l2)) (saturating_sub (dr_device_count er) 1) er]> (io_drivers s)).
  exists ds', drs'. split.
  - constructor.
    + eapply tinv_unchained; [|done|exact Hl1|exact Ha']. by eapply cinv_core.
    + done.
    + eapply same_keys_trans; [by apply stack_only_keys|apply same_keys_unchained].
    + intros dr'. unfold drs'. rewrite lookup_insert_is_Some. destruct (decide (dr = dr')) as [<-|]; [|naive_solver].
      split; [by exists er|by left].
    + intros dr' y. unfold ds'. rewrite owned_unchained by done.
      split; intros [Ho ?]; (split; [|done]); (eapply owned_core; [|exact Ho]); [by apply same_core_sym|done].
    + apply deleted_unchained; [done|done|by left].
    + split.
      * eapply same_keys_trans; [by apply stack_only_keys|apply same_keys_unchained].
      * intros y x x'. apply frame_unchained; [done|done|]. apply (ch_linked _ _ _ _ Hl1).
      * intros dr' x Hx. rewrite He. cbn [mbind option_bind]. rewrite Edr. unfold drs'. destruct (decide (Some dr = Some dr')) as [[= <-]|Hne].
        -- rewrite lookup_insert_eq. rewrite Her in Hx. injection Hx as <-. by eexists.
        -- by rewrite lookup_insert_ne by congruence.
  - unfold delete_device. mrun. rewrite live_device_run, He, Hdel. rewrite Hrun. rewrite Edr, En.
    rewrite (unlink_from_driver_run dr d (io_set_devices ds1 s) er l1 l2) by done.
    rewrite alter_device_run. simpl. reflexivity.
Qed.
End deletion.

(** ** The manager *)

Section manager.
Context `{UnicodeLower} (routine_status : list (Z * IrpCompletion) → Z → IrpCompletion → Z).

(** The identifiers the tables know, and those whose creator reference the manager holds. *)
Definition used (s : IoManager) (d : Z) : Prop :=
  is_Some (io_devices s !! d) ∨ is_Some (io_drivers s !! d) ∨ is_Some (pt_store (io_ports s) !! d).
Definition live (s : IoManager) (d : Z) : Prop := ∃ e, io_devices s !! d = Some e ∧ dv_deleted e = false.
Definition held (s : IoManager) (d : Z) : Prop :=
  live s d ∨ is_Some (io_drivers s !! d) ∨ d ∈ io_live s.

(** [ext] counts the references outside the handle tables, [drain] are the IRPs a
    deletion on another thread took off a queue. *)
Record IoInv (ext : Z → Z) (drain : list Z) (s : IoManager) : Prop := {
  io_objects_ok : ObjectFacts.Inv ext (io_objects s);
  io_tables : TInv (io_devices s) (io_drivers s);
  io_fresh : ∀ d, used s d → d < om_next_object_id (io_objects s);
  io_held : ∀ d, held s d → 1 ≤ ext d;
  io_store : ∀ d, d ∈ io_live s → is_Some (pt_store (io_ports s) !! d);
  io_kinds : ∀ d, (is_Some (io_devices s !! d) → io_drivers s !! d = None) ∧
    (is_Some (pt_store (io_ports s) !! d) → io_devices s !! d = None ∧ io_drivers s !! d = None);
  io_bound : ∀ k p key, io_bindings s !! k = Some (p, key) → p ∈ io_live s;
  io_irps_ok : Ir.RInv (io_irps s) drain;
}.

Inductive step : (Z → Z) * list Z * IoManager → (Z → Z) * list Z * IoManager → Prop :=
| io_create_driver name x ext dr s r s' :
    create_driver name x s = Done r s' → step (ext, dr, s) (credit r ext, dr, s')
| io_create_device driver name x flags ext dr s r s' :
    create_device driver name x flags s = Done r s' → step (ext, dr, s) (credit r ext, dr, s')
| io_delete_device d ext dr s r s' :
    delete_device routine_status d s = Done r s' →
    step (ext, dr, s) (match r with Ok _ => debit d ext | Err _ => ext end, dr, s')
| io_set_flags d flags ext dr s r s' :
    set_device_flags d flags s = Done r s' → step (ext, dr, s) (ext, dr, s')
| io_set_extension d x ext dr s r s' :
    set_device_extension d x s = Done r s' → step (ext, dr, s) (ext, dr, s')
| io_attach d t ext dr s r s' : attach_device d t s = Done r s' → step (ext, dr, s) (ext, dr, s')
| io_detach t ext dr s r s' : detach_device t s = Done r s' → step (ext, dr, s) (ext, dr, s')
| io_allocate t b ext dr s r s' : allocate_irp t b s = Done r s' → step (ext, dr, s) (ext, dr, s')
| io_queue d irp ext dr s r s' : queue_irp d irp s = Done r s' → step (ext, dr, s) (ext, dr, s')
| io_send d b ext dr s r s' :
    send_synchronous routine_status d b s = Done r s' → step (ext, dr, s) (ext, dr, s')
| io_create_port name depth ext dr s r s' :
    create_completion_port name depth s = Done r s' → step (ext, dr, s) (credit r ext, dr, s')
| io_bind port p h key ext dr s r s' :
    bind_completion_port port p h key s = Done r s' → step (ext, dr, s) (ext, dr, s')
| io_unbind p h ext dr s r s' :
    unbind_completion_port p h s = Done r s' → step (ext, dr, s) (ext, dr, s')
| io_post port packet choice ext dr s r s' :
    post_to_port port packet choice s = Done r s' → step (ext, dr, s) (ext, dr, s')
| io_close port ext dr s r s' :
    close_completion_port port s = Done r s' →
    step (ext, dr, s) (match r with Ok _ => debit port ext | Err _ => ext end, dr, s')
(** Calls on the object manager that leave the manager its own references. *)
| io_objects_mut ext ext' dr s o' :
    ObjectFacts.step ext (io_objects s) ext' o' → (∀ d, held s d → 1 ≤ ext' d) →
    step (ext, dr, s) (ext', dr, io_set_objects o' s)
(** Calls on a clone of the IRP core, and on a clone of a port. *)
| io_core ext dr dr' s i' :
    Ir.step routine_status (io_irps s, dr) (i', dr') → step (ext, dr, s) (ext, dr', io_set_irps i' s)
| io_port ext dr s p' :
    (∀ q, is_Some (pt_store p' !! q) ↔ is_Some (pt_store (io_ports s) !! q)) →
    step (ext, dr, s) (ext, dr, io_set_ports (io_live s) p' (io_bindings s) s).

Definition io_inv (w : (Z → Z) * list Z * IoManager) : Prop := IoInv w.1.1 w.1.2 w.2.

(** ** The invariant is kept *)

Lemma ioinv_devices ext dr s ds' :
  IoInv ext dr s → TInv ds' (io_drivers s) → same_core (io_devices s) ds' →
  IoInv ext dr (io_set_devices ds' s).
Proof.
  intros [] Ht Hb. assert (∀ d, is_Some (ds' !! d) ↔ is_Some (io_devices s !! d)) as Hk.
  { intros d. specialize (Hb d). destruct (ds' !! d), (io_devices s !! d); simpl in Hb; done. }
  assert (∀ d, live (io_set_devices ds' s) d → live s d) as Hlive.
  { intros d (e & He & Hd). simpl in He.
    destruct (core_Some _ _ _ _ (same_core_sym _ _ Hb) He) as (e' & ? & [= _ _ E _]). exists e'. by rewrite E. }
  constructor; simpl; try done.
  - intros d. unfold used. simpl. rewrite Hk. apply io_fresh0.
  - intros d [Hl|Hl]; [apply io_held0; left; by apply Hlive|apply io_held0; by right].
  - intros d. rewrite Hk. split; [apply io_kinds0|]. intros Hp. destruct (io_kinds0 d) as [_ Hx].
    destruct (Hx Hp) as [Hn ?]. split; [|done]. rewrite eq_None_not_Some, Hk. by rewrite Hn; intros [].
Qed.

Lemma ioinv_irps ext dr dr' s i' :
  IoInv ext dr s → Ir.RInv i' dr' → IoInv ext dr' (io_set_irps i' s).
Proof. intros [] Hi. by constructor. Qed.

Lemma ioinv_ports ext dr s p' b' :
  IoInv ext dr s → (∀ q, is_Some (pt_store p' !! q) ↔ is_Some (pt_store (io_ports s) !! q)) →
  (∀ k p key, b' !! k = Some (p, key) → p ∈ io_live s) →
  IoInv ext dr (io_set_ports (io_live s) p' b' s).
Proof.
  intros [] Hq Hb. constructor; simpl; try done.
  - intros d. unfold used. simpl. rewrite Hq. apply io_fresh0.
  - intros d Hd. rewrite Hq. by apply io_store0.
  - intros d. rewrite Hq. apply io_kinds0.
Qed.

Lemma ioinv_objects ext ext' dr s o' :
  IoInv ext dr s → ObjectFacts.Inv ext' o' → om_next_object_id (io_objects s) ≤ om_next_object_id o' →
  (∀ d, held s d → 1 ≤ ext' d) → IoInv ext' dr (io_set_objects o' s).
Proof.
  intros [] Ho Hn Hh. constructor; simpl; try done.
  intros d Hd. specialize (io_fresh0 d Hd). lia.
Qed.

(** A fresh object is in none of the tables. *)
Lemma create_fresh ext dr s k p n r o' :
  IoInv ext dr s → create_object k p n (io_objects s) = Done r o' →
  match r with
  | Err _ => o' = io_objects s
  | Ok id => IoInv (credit r ext) dr (io_set_objects o' s) ∧ id < om_next_object_id o' ∧
      io_devices s !! id = None ∧ io_drivers s !! id = None ∧ pt_store (io_ports s) !! id = None ∧
      1 ≤ credit r ext id ∧ ∀ d, used s d → d < id
  end.
Proof.
  intros Hs E. pose proof (grows_create k p n _ _ _ E) as Hg.
  destruct (create_object_spec ext _ _ _ _ _ _ (io_objects_ok _ _ _ Hs) E) as [Ho Hr].
  destruct r as [id|e]; [|done]. destruct Hr as (-> & _ & c & Hobj & _).
  set (id := om_next_object_id (io_objects s)) in *.
  assert (∀ d, used s d → d < id) as Hlt by apply (io_fresh _ _ _ Hs).
  assert (¬ used s id) as Hnu by (intros Hu%Hlt; lia).
  assert (0 ≤ ext id) as Hext by (eapply inv_ext_nonneg, (io_objects_ok _ _ _ Hs)).
  split; [|split_and!].
  - eapply ioinv_objects; [done|done|exact Hg|]. intros d Hd. simpl.
    pose proof (io_held _ _ _ Hs d Hd). case_match; lia.
  - destruct (inv_live _ _ Ho id) with (e := {| oe_id := id; oe_kind := k; oe_name := c; oe_payload := p; oe_ref_count := 1 |})
      as (_ & ? & _); [by rewrite Hobj, lookup_insert_eq|lia].
  - apply eq_None_not_Some. intros ?. apply Hnu. by left.
  - apply eq_None_not_Some. intros ?. apply Hnu. by right; left.
  - apply eq_None_not_Some. intros ?. apply Hnu. by right; right.
  - simpl. rewrite Z.eqb_refl. lia.
  - done.
Qed.

Lemma ioinv_create_driver name x ext dr s r s' :
  IoInv ext dr s → create_driver name x s = Done r s' → IoInv (credit r ext) dr s'.
Proof.
  intros Hs. unfold create_driver, with_objects. mrun.
  destruct (create_object _ _ _ (io_objects s)) as [[id|e] o'|] eqn:E; [| |done];
    pose proof (create_fresh _ _ _ _ _ _ _ _ Hs E) as Hf; mrun; intros [= <- <-].
  2: { subst o'. by destruct s. }
  destruct Hf as (Hs' & Hlt & Hdv & Hdr & Hpt & Hge & _). destruct Hs'. constructor; simpl in *; try done.
  - by apply tinv_create_driver.
  - intros d [?|[Hu|?]]; [by apply io_fresh0; left| |by apply io_fresh0; right; right].
    simpl in Hu. rewrite lookup_insert_is_Some in Hu. destruct Hu as [<-|[_ Hu]]; [done|].
    apply io_fresh0. by right; left.
  - intros d [?|[Hu|?]]; [by apply io_held0; left| |by apply io_held0; right; right].
    simpl in Hu. rewrite lookup_insert_is_Some in Hu. destruct Hu as [<-|[_ Hu]]; [done|].
    apply io_held0. by right; left.
  - intros d. destruct (io_kinds0 d) as [H1 H2]. destruct (decide (id = d)) as [<-|Hne].
    + rewrite Hdv, Hpt. split; intros []; done.
    + rewrite lookup_insert_ne by done. done.
Qed.

Lemma ioinv_create_device driver name x flags ext dr s r s' :
  IoInv ext dr s → create_device driver name x flags s = Done r s' → IoInv (credit r ext) dr s'.
Proof.
  intros Hs. unfold create_device, with_objects. mrun.
  destruct (bool_decide (io_drivers s !! driver = None)) eqn:Ed; mrun; [by intros [= <- <-]|]. bool_prop.
  destruct (create_object _ _ _ (io_objects s)) as [[id|e] o'|] eqn:E; [| |done];
    pose proof (create_fresh _ _ _ _ _ _ _ _ Hs E) as Hf; mrun.
  2: { subst o'. intros [= <- <-]. by destruct s. }
  destruct Hf as (Hs' & Hlt & Hdv & Hdr & Hpt & Hge & Hall). simpl.
  destruct (io_drivers s !! driver) as [e|] eqn:Edr; [|done]. mrun. destruct (_ <=? _); [|done].
  simpl. intros [= <- <-].
  change {| dv_id := id; dv_name := name; dv_driver := Some driver; dv_extension := x; dv_flags := flags;
            dv_deleted := false; dv_attached_device := None; dv_lower_device := None;
            dv_next_device := dr_first_device e |} with (fresh_device id name driver x flags (dr_first_device e)).
  destruct Hs'. constructor; simpl in *; try done.
  - apply tinv_create_device; try done. intros d Hd. apply Hall. by left.
  - intros d. unfold used. simpl. rewrite !lookup_insert_is_Some.
    intros [[<-|[_ ?]]|[[<-|[_ ?]]|?]]; [done| | | |]; apply io_fresh0; [by left| |by right; left|by right; right].
    right. left. simpl. by rewrite Edr.
  - intros d [(e' & He' & Hdel)|[Hu|?]]; simpl in *.
    + apply lookup_insert_Some in He' as [[<- <-]|[_ He']]; [done|]. apply io_held0. left. by exists e'.
    + apply io_held0. right. left. simpl. rewrite lookup_insert_is_Some in Hu.
      destruct Hu as [<-|[_ ?]]; [by rewrite Edr|done].
    + apply io_held0. by right; right.
  - intros d. destruct (io_kinds0 d) as [H1 H2]. destruct (decide (id = d)) as [<-|Hne].
    + rewrite Hpt. split; [|by intros []]. intros _. rewrite lookup_insert_ne; [done|congruence].
    + rewrite (lookup_insert_ne _ id) by done. split.
      * intros Hd%H1. rewrite lookup_insert_ne; [done|congruence].
      * intros [? ?]%H2. split; [done|]. rewrite lookup_insert_ne; [done|congruence].
Qed.

(** The manager gives back a reference it held. *)
Lemma release_held ext s d :
  ObjectFacts.Inv ext (io_objects s) → 1 ≤ ext d →
  ∃ n o', release_object d (io_objects s) = Done (Ok n) o' ∧ ObjectFacts.Inv (debit d ext) o' ∧
    om_next_object_id (io_objects s) ≤ om_next_object_id o'.
Proof.
  intros Ho Hd. destruct (inv_owned_live _ _ d Ho) as [e He]; [lia|].
  destruct (drop_reference_spec ext _ d e Ho) as (o' & Hrun & Hi & _); [lia|done|].
  exists (oe_ref_count e - 1), o'. split; [done|]. split; [done|].
  eapply (grows_step ext _ (debit d ext)), ObjectFacts.step_release; [lia|exact Hrun].
Qed.

Lemma debit_ge ext d y : y ≠ d → debit d ext y = ext y.
Proof. intros Hne. unfold debit. by rewrite (proj2 (Z.eqb_neq y d)). Qed.

(** A deletion that got past its checks. *)
Lemma delete_device_run d ext dr s a e :
  IoInv ext dr s → Shaped (io_devices s) a → io_devices s !! d = Some e → dv_deleted e = false →
  ∃ ds' drs', Deleted d a (io_devices s) ds' (io_drivers s) drs' ∧
    ∀ r s', delete_device routine_status d s = Done r s' →
      ∃ i' o', cancel_pending_for_device routine_status d (io_irps s) = Done (Ok (pending_irps (io_irps s) d)) i' ∧
        r = Ok tt ∧ s' = io_set_objects o' (io_set_irps i' (io_set_drivers drs' (io_set_devices ds' s))) ∧
        IoInv (debit d ext) dr s'.
Proof.
  intros Hs Ha He Hdel.
  destruct (delete_device_tables routine_status d s a e (io_tables _ _ _ Hs) Ha He Hdel) as (ds' & drs' & Hd & Hrun).
  exists ds', drs'. split; [done|]. intros r s'. rewrite Hrun. unfold with_irps, with_objects. mrun. simpl.
  destruct (cancel_pending_for_device routine_status d (io_irps s)) as [r1 i'|] eqn:Ec; [|done].
  destruct (Ir.rinv_cancel_pending routine_status d _ dr _ _ (io_irps_ok _ _ _ Hs) Ec) as [-> Hi].
  mrun. simpl. assert (1 ≤ ext d) as Hge by (apply (io_held _ _ _ Hs); left; by exists e).
  destruct (release_held ext s d (io_objects_ok _ _ _ Hs) Hge) as (n & o' & Hrel & Ho & Hn).
  rewrite Hrel. mrun. intros [= <- <-]. exists i', o'. split; [done|]. split; [done|]. split; [done|].
  destruct Hd as [Ht _ Hk Hdrs Howned (ed & Hed & Hdeld) _]. destruct Hs. constructor; simpl; try done.
  - intros y Hy. assert (used s y) as Hu%io_fresh0; [|lia].
    destruct Hy as [Hy|[Hy|Hy]]; simpl in Hy; [left; by apply Hk|right; left; by apply Hdrs|by right; right].
  - assert (∀ y, y ≠ d → held s y → 1 ≤ debit d ext y) as Hh by (intros; rewrite debit_ge; auto).
    assert (is_Some (io_devices s !! d)) as Hdd by (by exists e).
    intros y [(x & Hx & Hxd)|[Hy|Hy]]; simpl in *.
    + assert (y ≠ d) as Hne by (intros ->; congruence). apply Hh; [done|]. left.
      destruct Ht as [_ Ht]. destruct (t_owner _ _ Ht y x Hx) as (_ & dr' & Hdr' & _).
      destruct (proj1 (Howned dr' y)) as [(x' & ? & _ & ?) _]; [by exists x|]. by exists x'.
    + apply Hdrs in Hy. apply Hh; [|by right; left]. intros ->.
      destruct (io_kinds0 d) as [Hx _]. rewrite Hx in Hy by done. by destruct Hy.
    + apply Hh; [|by right; right]. intros ->. destruct (io_kinds0 d) as [_ Hx].
      apply io_store0 in Hy. destruct (Hx Hy). congruence.
  - intros y. destruct (io_kinds0 y) as [H1 H2].
    assert (io_drivers s !! y = None → drs' !! y = None) as Hn1 by (rewrite !eq_None_not_Some, Hdrs; done).
    assert (io_devices s !! y = None → ds' !! y = None) as Hn2 by (rewrite !eq_None_not_Some, (Hk y); done).
    split; [intros ?%Hk; auto|]. intros Hp. destruct (H2 Hp). auto.
Qed.

Lemma ioinv_delete_device d ext dr s r s' :
  IoInv ext dr s → delete_device routine_status d s = Done r s' →
  IoInv (match r with Ok _ => debit d ext | Err _ => ext end) dr s'.
Proof.
  intros Hs E. destruct (io_tables _ _ _ Hs) as [[a Ha] _].
  destruct (io_devices s !! d) as [e|] eqn:He.
  2: { revert E. unfold delete_device. mrun. rewrite live_device_run, He. by intros [= <- <-]. }
  destruct (dv_deleted e) eqn:Hdel.
  { revert E. unfold delete_device. mrun. rewrite live_device_run, He, Hdel. by intros [= <- <-]. }
  destruct (delete_device_run d ext dr s a e Hs Ha He Hdel) as (ds' & drs' & _ & Hrun).
  by destruct (Hrun r s' E) as (i' & o' & _ & -> & _ & ?).
Qed.

Lemma ioinv_create_port name depth ext dr s r s' :
  IoInv ext dr s → create_completion_port name depth s = Done r s' → IoInv (credit r ext) dr s'.
Proof.
  intros Hs. unfold create_completion_port, with_objects. mrun.
  destruct (create_object _ _ _ (io_objects s)) as [[id|e] o'|] eqn:E; [| |done];
    pose proof (create_fresh _ _ _ _ _ _ _ _ Hs E) as Hf; mrun; intros [= <- <-].
  2: { subst o'. by destruct s. }
  destruct Hf as (Hs' & Hlt & Hdv & Hdr & Hpt & Hge & _). destruct Hs'. constructor; simpl in *; try done.
  - intros d [?|[?|Hu]]; [by apply io_fresh0; left|by apply io_fresh0; right; left|].
    simpl in Hu. rewrite lookup_insert_is_Some in Hu. destruct Hu as [<-|[_ Hu]]; [done|].
    apply io_fresh0. by right; right.
  - intros d [?|[?|Hu]]; [by apply io_held0; left|by apply io_held0; right; left|].
    simpl in Hu. apply elem_of_union in Hu as [->%elem_of_singleton|Hu]; [done|]. apply io_held0. by right; right.
  - intros d Hd. rewrite lookup_insert_is_Some. destruct (decide (id = d)); [by left|right].
    split; [done|]. apply io_store0. set_solver.
  - intros d. destruct (io_kinds0 d) as [H1 H2]. split; [done|]. rewrite lookup_insert_is_Some.
    intros [<-|[_ ?]]; [done|by apply H2].
  - intros k p key Hk. specialize (io_bound0 k p key Hk). set_solver.
Qed.

Lemma post_keys port packet choice p r p' :
  post port packet choice p = Done r p' → ∀ q, is_Some (pt_store p' !! q) ↔ is_Some (pt_store p !! q).
Proof.
  unfold post. intros [([] & p1 & H1 & H2)|(e & H1 & _)]%bind_inv q.
  - apply Iop.in_port_inv in H1 as (x & x' & Hx & _ & ->). revert H2. unfold notify_one. mrun. intros [= _ <-].
    destruct choice; simpl; rewrite lookup_insert_is_Some; destruct (decide (port = q)) as [<-|]; naive_solver.
  - apply Iop.in_port_inv in H1 as (x & x' & Hx & _ & ->). simpl. rewrite lookup_insert_is_Some.
    destruct (decide (port = q)) as [<-|]; naive_solver.
Qed.

Lemma close_keys port p r p' :
  close_port port p = Done r p' → ∀ q, is_Some (pt_store p' !! q) ↔ is_Some (pt_store p !! q).
Proof.
  unfold close_port. intros [(o & p1 & H1 & H2)|(e & H1 & _)]%bind_inv q;
    apply Iop.in_port_inv in H1 as (x & x' & Hx & _ & ->).
  - assert (pt_store p' = <[port := x']> (pt_store p)) as ->.
    { destruct o; [|by injection H2 as _ <-]. revert H2. unfold notify_port. mrun. by intros [= _ <-]. }
    rewrite lookup_insert_is_Some. destruct (decide (port = q)) as [<-|]; naive_solver.
  - simpl. rewrite lookup_insert_is_Some. destruct (decide (port = q)) as [<-|]; naive_solver.
Qed.

Lemma completion_port_run port s :
  completion_port port s = Done (if decide (port ∈ io_live s) then Ok port else Err STATUS_INVALID_HANDLE) s.
Proof. unfold completion_port. mrun. case_decide; [by rewrite bool_decide_false by auto|by rewrite bool_decide_true]. Qed.

Lemma close_port_total port p :
  is_Some (pt_store p !! port) → ∃ n p', close_port port p = Done (Ok n) p'.
Proof.
  intros [x Hx]. unfold close_port, in_port. mrun. rewrite Hx. unfold close_port_locked. mrun. unfold id.
  destruct (po_closed x); mrun; by eexists _, _.
Qed.

Lemma close_completion_port_run port ext dr s :
  IoInv ext dr s → port ∈ io_live s →
  ∃ n p' o', close_port port (io_ports s) = Done (Ok n) p' ∧
    close_completion_port port s = Done (Ok n)
      (io_set_objects o' (io_set_ports (io_live s ∖ {[port]}) p' (filter (λ b, b.2.1 ≠ port) (io_bindings s)) s)) ∧
    IoInv (debit port ext) dr
      (io_set_objects o' (io_set_ports (io_live s ∖ {[port]}) p' (filter (λ b, b.2.1 ≠ port) (io_bindings s)) s)).
Proof.
  intros Hs Hp. destruct (close_port_total port (io_ports s)) as (n & p' & E); [by apply (io_store _ _ _ Hs)|].
  assert (1 ≤ ext port) as Hge by (apply (io_held _ _ _ Hs); by right; right).
  destruct (release_held ext s port (io_objects_ok _ _ _ Hs) Hge) as (m & o' & Hrel & Ho & Hn).
  exists n, p', o'. split; [done|]. split.
  - unfold close_completion_port. mrun. rewrite completion_port_run, decide_True by done.
    unfold with_ports, with_objects. mrun. simpl. rewrite E. mrun. simpl. by rewrite Hrel.
  - pose proof (close_keys _ _ _ _ E) as Hk. destruct Hs. constructor; simpl; try done.
    + intros d [?|[?|Hd]]; simpl in *; assert (used s d) as Hu%io_fresh0; try lia; [by left|by right; left|].
      right; right. by apply Hk.
    + assert (∀ y, y ≠ port → held s y → 1 ≤ debit port ext y) as Hh by (intros; rewrite debit_ge; auto).
      destruct (io_kinds0 port) as [H1 H2]. specialize (H2 (io_store0 _ Hp)) as [H3 H4].
      intros d [(x & Hx & Hd)|[Hd|Hd]]; simpl in *.
      * apply Hh; [intros ->; congruence|]. left. by exists x.
      * apply Hh; [intros ->; rewrite H4 in Hd; by destruct Hd|by right; left].
      * apply Hh; [set_solver|]. right; right. set_solver.
    + intros d Hd. apply Hk, io_store0. set_solver.
    + intros d. destruct (io_kinds0 d). split; [done|]. rewrite Hk. done.
    + intros k q key. rewrite map_lookup_filter_Some. simpl. intros [Hb Hne].
      specialize (io_bound0 _ _ _ Hb). set_solver.
Qed.

Lemma ioinv_close port ext dr s r s' :
  IoInv ext dr s → close_completion_port port s = Done r s' →
  IoInv (match r with Ok _ => debit port ext | Err _ => ext end) dr s'.
Proof.
  intros Hs E. destruct (decide (port ∈ io_live s)) as [Hp|Hp].
  - destruct (close_completion_port_run port ext dr s Hs Hp) as (n & p' & o' & _ & Hrun & ?).
    rewrite Hrun in E. by injection E as <- <-.
  - revert E. unfold close_completion_port. mrun. rewrite completion_port_run, decide_False by done.
    by intros [= <- <-].
Qed.

Lemma ioinv_shapes {A} (c : M IoManager A) ext dr s r a r' s' :
  IoInv ext dr s → shapes c s r a → c s = Done r' s' → IoInv ext dr s'.
Proof.
  intros Hs (s1 & E & Hd & Hso & Ha & _) E'. assert (s1 = s') as -> by congruence.
  rewrite Hd. apply ioinv_devices; [done| |by apply core_stack_only].
  eapply tinv_core; [apply Hs|by apply core_stack_only|done].
Qed.

Lemma ioinv_relabel f d ext dr s :
  IoInv ext dr s → (∀ e, core (f e) = core e ∧ dv_lower_device (f e) = dv_lower_device e ∧
    dv_attached_device (f e) = dv_attached_device e) →
  IoInv ext dr (io_set_devices (alter f d (io_devices s)) s).
Proof.
  intros Hs Hf. assert (same_core (io_devices s) (alter f d (io_devices s))) as Hc.
  { intros y. destruct (decide (d = y)) as [->|]; [|by rewrite lookup_alter_ne].
    rewrite lookup_alter_eq. destruct (io_devices s !! y) as [e|]; simpl; [|done]. by destruct (Hf e) as [-> _]. }
  apply ioinv_devices; [done| |done]. eapply tinv_same; [apply Hs|done|].
  intros y. rewrite (links_alter _ id); [|intros e; by destruct (Hf e) as (_ & -> & ->)].
  case_decide; [|done]. by destruct (links (io_devices s) y).
Qed.

Lemma stack_location_typed b chain :
  Forall (λ l, sl_major l = pb_major b ∧ sl_minor l = pb_minor b) (stack_location b <$> chain).
Proof. apply Forall_fmap, Forall_forall. done. Qed.

Lemma stack_devices_same d s r s' : stack_devices d s = Done r s' → s' = s.
Proof.
  unfold stack_devices. mrun. generalize (device_fuel s) as n. intros n.
  cut (∀ chain x, stack_loop n chain x s = Done r s' → s' = s); [eauto|]. induction n as [|n IH]; [done|].
  intros chain x. simpl. rewrite device_run. destruct (io_devices s !! x) as [e|]; [|by intros [= _ <-]].
  destruct (dv_lower_device e); [|by intros [= _ <-]]. mrun.
  destruct (Nat.ltb _ _); [by intros [= _ <-]|]. apply IH.
Qed.

Lemma ioinv_allocate t b ext dr s r s' : IoInv ext dr s → allocate_irp t b s = Done r s' → IoInv ext dr s'.
Proof.
  intros Hs. unfold allocate_irp. mrun. rewrite live_device_run.
  destruct (io_devices s !! t) as [e|]; [|by intros [= _ <-]]. destruct (dv_deleted e); [by intros [= _ <-]|].
  destruct (stack_devices t s) as [[chain|x] s1|] eqn:E; [| |done]; apply stack_devices_same in E; subst s1.
  2: { by intros [= _ <-]. }
  unfold with_irps. mrun. destruct (insert_irp _ _ _) as [r1 i'|] eqn:Ei; [|done]. intros [= _ <-].
  apply ioinv_irps with (dr := dr); [done|].
  eapply Ir.rinv_insert; [apply Hs|apply stack_location_typed|exact Ei].
Qed.

Lemma with_irp_same {T} irp (f : Irp → T) i r i' : with_irp irp f i = Done r i' → i' = i.
Proof. unfold with_irp, irp_at. mrun. destruct (is_irps i !! irp); mrun; by intros [= _ <-]. Qed.

Lemma io_set_irps_same s : io_set_irps (io_irps s) s = s.
Proof. by destruct s. Qed.

Lemma ioinv_send d b ext dr s r s' :
  IoInv ext dr s → send_synchronous routine_status d b s = Done r s' → IoInv ext dr s'.
Proof.
  intros Hs. unfold send_synchronous.
  intros [(irp & s1 & H1 & H2)|(e & H1 & _)]%bind_inv; eapply ioinv_allocate in H1 as Hs1; try done.
  apply bind_inv in H2 as [(p & s2 & H2 & H3)|(e & H2 & _)]; revert H2; unfold with_irps; mrun;
    destruct (parameters irp (io_irps s1)) as [r2 i2|] eqn:E2; try done; apply with_irp_same in E2; subst i2;
    rewrite io_set_irps_same; [intros [= -> <-]|by intros [= _ <-]].
  destruct (match validate p with Ok _ => _ | Err _ => _ end) as [st info].
  unfold complete_irp, with_irps in H3. mrun.
  destruct (complete _ irp st info (io_irps s1)) as [r3 i3|] eqn:E3; [|done].
  assert (IoInv ext dr (io_set_irps i3 s1)) as Hs3
    by (eapply ioinv_irps, Ir.rinv_complete; [done|by apply Hs1|exact E3]).
  destruct r3; by injection H3 as <- <-.
Qed.

Lemma io_inv_step w w' : io_inv w → step w w' → io_inv w'.
Proof.
  intros Hw Hst. destruct Hst as
    [name x ext dr s r s' E|drv name x fl ext dr s r s' E|d ext dr s r s' E|d fl ext dr s r s' E|d x ext dr s r s' E
    |d t ext dr s r s' E|t ext dr s r s' E|t b ext dr s r s' E|d irp ext dr s r s' E|d b ext dr s r s' E
    |name dep ext dr s r s' E|port p h key ext dr s r s' E|p h ext dr s r s' E|port pk c ext dr s r s' E
    |port ext dr s r s' E|ext ext' dr s o' E Hh|ext dr dr' s i' E|ext dr s p' Hk]; unfold io_inv in *; simpl in *.
  - by eapply ioinv_create_driver.
  - by eapply ioinv_create_device.
  - by eapply ioinv_delete_device.
  - revert E. unfold set_device_flags. mrun. rewrite device_run.
    destruct (io_devices s !! d); [|by intros [= _ <-]]. rewrite alter_device_run. intros [= _ <-]. by apply ioinv_relabel.
  - revert E. unfold set_device_extension. mrun. rewrite device_run.
    destruct (io_devices s !! d); [|by intros [= _ <-]]. rewrite alter_device_run. intros [= _ <-]. by apply ioinv_relabel.
  - destruct (io_tables _ _ _ Hw) as [[a Ha] _]. eapply ioinv_shapes; [done|by apply attach_stacks_run|exact E].
  - destruct (io_tables _ _ _ Hw) as [[a Ha] _]. eapply ioinv_shapes; [done|by apply detach_stacks_run|exact E].
  - by eapply ioinv_allocate.
  - revert E. unfold queue_irp, with_irps. mrun. rewrite live_device_run.
    destruct (io_devices s !! d) as [e|]; [|by intros [= _ <-]]. destruct (dv_deleted e); [by intros [= _ <-]|].
    destruct (queue_irp_core _ _ _) as [r1 i'|] eqn:Ei; [|done]. intros [= _ <-].
    eapply ioinv_irps, Ir.rinv_queue; [done|by apply Hw|exact Ei].
  - by eapply ioinv_send.
  - by eapply ioinv_create_port.
  - revert E. unfold bind_completion_port, with_ports, with_objects. mrun. rewrite completion_port_run.
    case_decide as Hp; [|by intros [= _ <-]].
    destruct (io_is_closed port (io_ports s)) as [r1 p1|] eqn:E1; [|done].
    unfold io_is_closed in E1. apply Iop.in_port_inv in E1 as (x & x' & Hx & [= <- <-] & ->).
    assert (pt_set_store (<[port := x]> (pt_store (io_ports s))) (io_ports s) = io_ports s) as ->
      by (unfold pt_set_store; rewrite insert_id by done; by destruct (io_ports s)).
    assert (io_set_ports (io_live s) (io_ports s) (io_bindings s) s = s) as -> by by destruct s.
    destruct (po_closed x); mrun; [by intros [= _ <-]|].
    destruct (lookup_handle p h (io_objects s)) as [r2 o'|] eqn:E2; [|done].
    apply lookup_handle_Done in E2 as [-> _].
    assert (io_set_objects (io_objects s) s = s) as -> by by destruct s.
    destruct r2; mrun; intros [= _ <-]; [|done]. apply ioinv_ports; [done|done|].
    intros k q key' [[<- [= <- <-]]|[_ Hk]]%lookup_insert_Some; [done|]. by eapply (io_bound _ _ _ Hw).
  - injection E as _ <-. apply ioinv_ports; [done|done|].
    intros k q key [_ Hk]%lookup_delete_Some. by eapply (io_bound _ _ _ Hw).
  - revert E. unfold post_to_port, with_ports. mrun. rewrite completion_port_run.
    case_decide as Hp; [|by intros [= _ <-]].
    destruct (post port pk c (io_ports s)) as [r1 p1|] eqn:E1; [|done]. intros [= _ <-].
    apply ioinv_ports; [done|by eapply post_keys|]. apply (io_bound _ _ _ Hw).
  - by eapply ioinv_close.
  - eapply ioinv_objects; [done|by eapply step_inv; [apply Hw|]|by eapply grows_step|done].
  - eapply ioinv_irps; [done|].
    exact (Ir.rinv_step routine_status (io_irps s, dr) (i', dr') (io_irps_ok _ _ _ Hw) E).
  - apply ioinv_ports; [done|done|]. apply (io_bound _ _ _ Hw).
Qed.

Definition io_start : (Z → Z) * list Z * IoManager := (λ _, 0, [], new_io_manager).

Lemma io_inv_start : io_inv io_start.
Proof.
  constructor; simpl.
  - apply inv_new.
  - apply tinv_empty.
  - intros d [[? H1]|[[? H1]|[? H1]]]; simpl in H1; by rewrite lookup_empty in H1.
  - intros d [(? & H1 & _)|[[? H1]|H1]]; simpl in H1; [by rewrite lookup_empty in H1|by rewrite lookup_empty in H1|set_solver].
  - intros d. set_solver.
  - intros d. rewrite !lookup_empty. split; intros []; done.
  - intros k p key Hk. by rewrite lookup_empty in Hk.
  - apply Ir.rinv_new.
Qed.

Lemma io_inv_reachable w : rtc step io_start w → io_inv w.
Proof.
  intros Hr. assert (io_inv io_start) as Hi by apply io_inv_start. revert Hi.
  induction Hr as [|w1 w2 w3 H12 _ IH]; [done|]. intros Hi. by eapply IH, io_inv_step.
Qed.

(** ** Theorems *)

Lemma shaped_walks s a d :
  Shaped (io_devices s) a →
  match stack_of d (sh_stacks a) with
  | Some st =>
      top_of_stack d s = Done (Ok (default d (last st))) s ∧
      bottom_of_stack d s = Done (Ok (default d (head st))) s ∧
      stack_devices d s = Done (Ok (split_at d st).1) s
  | None =>
      top_of_stack d s = Done (Err STATUS_INVALID_HANDLE) s ∧
      bottom_of_stack d s = Done (Err STATUS_INVALID_HANDLE) s ∧
      stack_devices d s = Done (Err STATUS_INVALID_HANDLE) s
  end.
Proof.
  intros Ha. pose proof (shaped_device _ _ d Ha) as Hd. destruct (io_devices s !! d) as [e|] eqn:He.
  2: { rewrite Hd. split_and!; [by apply top_none|by apply bottom_none|by apply stack_devices_none]. }
  destruct Hd as (_ & l1 & l2 & Est & Hst & Esp & Hnd & _). rewrite Est, Esp.
  pose proof (sk_segs _ _ Hst) as Hseg. apply Forall_cons in Hseg as [[_ Hseg] _].
  destruct (walks_run s _ d l1 l2 (sp_stacks _ _ Ha) Est Hnd Hseg) as [Ht Hb Hs].
  rewrite Ht, Hb, Hs, last_default. split_and!; [done| |done]. by destruct l1.
Qed.

(** The walks over links return, whatever was called before: [top_of_stack],
    [bottom_of_stack] and [stack_devices] never report a cycle and answer the top, the
    bottom and the stack up to the device; [driver_devices] ends too. *)
Theorem link_walks_return w :
  rtc step io_start w →
  ∃ a, Shaped (io_devices w.2) a ∧
  (∀ d, match stack_of d (sh_stacks a) with
   | Some st =>
       top_of_stack d w.2 = Done (Ok (default d (last st))) w.2 ∧
       bottom_of_stack d w.2 = Done (Ok (default d (head st))) w.2 ∧
       stack_devices d w.2 = Done (Ok (split_at d st).1) w.2
   | None =>
       top_of_stack d w.2 = Done (Err STATUS_INVALID_HANDLE) w.2 ∧
       bottom_of_stack d w.2 = Done (Err STATUS_INVALID_HANDLE) w.2 ∧
       stack_devices d w.2 = Done (Err STATUS_INVALID_HANDLE) w.2
   end) ∧
  ∀ dr, ∃ r, driver_devices dr w.2 = Done r w.2.
Proof.
  intros Hw%io_inv_reachable. destruct (io_tables _ _ _ Hw) as [[a Ha] Hc]. exists a. split; [done|].
  split; [intros d; by apply shaped_walks|]. intros dr. unfold driver_devices, driver. mrun.
  destruct (io_drivers w.2 !! dr) as [e|] eqn:He; mrun; [|by eexists].
  destruct (t_chains _ _ Hc dr e He) as (_ & l & Hl). rewrite (ch_first _ _ _ _ Hl).
  eexists. apply chain_loop_run; [apply Hl|]. unfold device_fuel. apply chain_size in Hl. lia.
Qed.

Lemma driver_devices_run s dr e l :
  io_drivers s !! dr = Some e → Chain (io_devices s) dr e l → driver_devices dr s = Done (Ok l) s.
Proof.
  intros He Hl. unfold driver_devices, driver. mrun. rewrite He. mrun. rewrite (ch_first _ _ _ _ Hl).
  apply chain_loop_run; [apply Hl|]. unfold device_fuel. apply chain_size in Hl. lia.
Qed.

(** [driver_devices] lists exactly the devices of the driver that are not deleted,
    the most recently created first, and [driver_device_count] is their number. *)
Theorem driver_devices_exact w dr :
  rtc step io_start w →
  match io_drivers w.2 !! dr with
  | None => driver_devices dr w.2 = Done (Err STATUS_INVALID_HANDLE) w.2
  | Some _ => ∃ l, driver_devices dr w.2 = Done (Ok l) w.2 ∧
      driver_device_count dr w.2 = Done (Ok (Z.of_nat (length l))) w.2 ∧
      StronglySorted (λ x y, y < x) l ∧ (∀ d, d ∈ l ↔ owned (io_devices w.2) dr d)
  end.
Proof.
  intros Hw%io_inv_reachable. destruct (io_tables _ _ _ Hw) as [_ Hc].
  destruct (io_drivers w.2 !! dr) as [e|] eqn:He.
  - destruct (t_chains _ _ Hc dr e He) as (_ & l & Hl). exists l. split_and!.
    + by eapply driver_devices_run.
    + unfold driver_device_count, driver. mrun. rewrite He. mrun. by rewrite (ch_count _ _ _ _ Hl).
    + apply Hl.
    + apply Hl.
  - unfold driver_devices, driver. mrun. by rewrite He.
Qed.

(** No deleted device is in the stack of a live one. *)
Lemma stack_live s a d st :
  Shaped (io_devices s) a → live s d → stack_of d (sh_stacks a) = Some st → ∀ x, x ∈ st → live s x.
Proof.
  intros Ha (e & He & Hdel) Est x Hx. pose proof (sp_stacks _ _ Ha) as Hs.
  assert (st ∈ sh_stacks a ∧ d ∈ st) as [Hst Hd].
  { unfold stack_of in Est. apply head_Some_elem_of in Est. by apply list_elem_of_filter in Est as [? ?]. }
  assert (is_Some (io_devices s !! x)) as [ex Hex].
  { apply (stacks_dom _ _ _ Hs), elem_of_concat. by exists st. }
  exists ex. split; [done|]. destruct (dv_deleted ex) eqn:Ed; [|done].
  assert (x ∈ sh_deleted a) as Hxd by (apply (sp_deleted _ _ Ha); by exists ex).
  apply (sp_alone _ _ Ha) in Hxd.
  destruct (stack_of_elem x _ [x] (stacks_NoDup _ _ Hs) Hxd) as [E1 _]; [set_solver|].
  destruct (stack_of_elem x _ st (stacks_NoDup _ _ Hs) Hst Hx) as [E2 _].
  assert (st = [x]) as -> by congruence. apply list_elem_of_singleton in Hd as ->. congruence.
Qed.

Lemma view_devices b (l : list Z) : sv_device <$> (view <$> (stack_location b <$> l)) = l.
Proof. induction l as [|d l IH]; [done|]. simpl. f_equal. exact IH. Qed.

Lemma shapes_Err {A} (c : M IoManager A) s r a :
  shapes c s r a → (∃ e, r = Err e) → ∃ e, c s = Done (Err e) s.
Proof. intros (s' & E & _ & _ & _ & Hr) [e ->]. exists e. by rewrite E, Hr. Qed.

(** [allocate_irp] refuses an unknown device and a deleted one; for any other it gives
    a fresh IRP whose stack locations are those of the devices of the stack from the
    bottom up to the target, all of them live and each attached to the one below,
    with the functions and the length of the parameter block. *)
Theorem irp_allocation_stack w t b :
  rtc step io_start w → is_next_irp (io_irps w.2) < u64_max →
  match io_devices w.2 !! t with
  | None => allocate_irp t b w.2 = Done (Err STATUS_INVALID_HANDLE) w.2
  | Some e =>
      if dv_deleted e then allocate_irp t b w.2 = Done (Err STATUS_DELETE_PENDING) w.2 else
      let irp := is_next_irp (io_irps w.2) in
      ∃ l s', allocate_irp t b w.2 = Done (Ok irp) s' ∧
        segment (links (io_devices w.2)) None (l ++ [t]) (dv_attached_device e) ∧
        (∀ d, d ∈ l ++ [t] → live w.2 d) ∧
        is_irps (io_irps w.2) !! irp = None ∧
        irp_stack_devices irp s' = Done (Ok (l ++ [t])) s' ∧
        ∃ i, is_irps (io_irps s') !! irp = Some i ∧ ir_parameters i = b ∧
          ir_stack i = stack_location b <$> (l ++ [t]) ∧ ir_completed i = false ∧ ir_pending i = false
  end.
Proof.
  intros Hw%io_inv_reachable Hn. destruct (io_tables _ _ _ Hw) as [[a Ha] _].
  pose proof (shaped_device _ _ t Ha) as Ht. unfold allocate_irp. mrun. rewrite live_device_run.
  destruct (io_devices w.2 !! t) as [e|] eqn:He; [|done]. destruct (dv_deleted e) eqn:Hdel; [done|].
  destruct Ht as (_ & l1 & l2 & Est & Hst & Esp & _ & _ & Eup).
  pose proof (shaped_walks w.2 a t Ha) as Hwalk. rewrite Est, Esp in Hwalk. destruct Hwalk as (_ & _ & Hwalk).
  rewrite Hwalk. unfold with_irps, insert_irp. mrun. rewrite (proj2 (Z.leb_le _ _)) by lia. simpl.
  exists l1. eexists. split; [done|].
  pose proof (sk_segs _ _ Hst) as Hseg. apply Forall_cons in Hseg as [[_ Hseg] _].
  split_and!.
  - rewrite Eup. change (t :: l2) with ([t] ++ l2) in Hseg. rewrite app_assoc, segment_app in Hseg. by destruct Hseg.
  - intros d Hd. eapply stack_live; [exact Ha| |exact Est|]; [by exists e|]. set_solver.
  - destruct (is_irps (io_irps w.2) !! is_next_irp (io_irps w.2)) eqn:E; [|done].
    assert (is_next_irp (io_irps w.2) < is_next_irp (io_irps w.2)); [|lia].
    eapply (Ir.ri_ids _ _ (io_irps_ok _ _ _ Hw)). by rewrite E.
  - unfold irp_stack_devices, with_irps, stack_view, with_irp, irp_at. mrun. simpl.
    rewrite lookup_insert_eq. mrun. cbn [ir_stack]. by rewrite view_devices.
  - eexists. split; [simpl; by rewrite lookup_insert_eq|]. done.
Qed.

Lemma sorted_unique (l l' : list Z) :
  StronglySorted (λ x y, y < x) l → StronglySorted (λ x y, y < x) l' → (∀ d, d ∈ l ↔ d ∈ l') → l = l'.
Proof.
  intros Hs Hs' Hd. eapply (StronglySorted_unique_strong (λ x y : Z, y < x)); [|done|done|].
  - intros x y _ _ H1 H2. lia.
  - assert (∀ k : list Z, StronglySorted (λ x y, y < x) k → NoDup k) as Hn.
    { induction k as [|x k IH]; intros Hk; [apply NoDup_nil_2|]. apply StronglySorted_inv in Hk as [Hk Hx].
      apply NoDup_cons. split; [|by apply IH]. rewrite Forall_forall in Hx. intros Hin. specialize (Hx x Hin). lia. }
    apply NoDup_Permutation; auto.
Qed.

(** A deletion: refused with the state as it is, or done.  Then the device is out of its
    stack and marked, its driver's chain loses it and no other, its pending requests
    are completed as cancelled, its creator reference is given back, and everything
    else is as it was. *)
Definition deletes (d : Z) (s : IoManager) (a : Shape) : Prop :=
  match delete_answer d a with
  | Some e => delete_device routine_status d s = Done (Err e) s
  | None => ∃ s', delete_device routine_status d s = Done (Ok tt) s' ∧
      Shaped (io_devices s') (delete_shape d a) ∧
      table_frame d (io_devices s) (io_devices s') (io_drivers s) (io_drivers s') ∧
      (∀ dr l, driver_devices dr s = Done (Ok l) s → driver_devices dr s' = Done (Ok (filter (λ x, x ≠ d) l)) s') ∧
      cancel_pending_for_device routine_status d (io_irps s) = Done (Ok (pending_irps (io_irps s) d)) (io_irps s') ∧
      (∃ n, release_object d (io_objects s) = Done (Ok n) (io_objects s')) ∧
      io_live s' = io_live s ∧ io_ports s' = io_ports s ∧ io_bindings s' = io_bindings s
  end.

Lemma filter_sorted (d : Z) l : StronglySorted (λ x y, y < x) l → StronglySorted (λ x y, y < x) (filter (λ x, x ≠ d) l).
Proof.
  induction 1 as [|x l _ IH Hx]; [constructor|]. rewrite filter_cons. case_decide; [|done]. constructor; [done|].
  rewrite Forall_forall in Hx |- *. intros y [_ Hy]%list_elem_of_filter. auto.
Qed.
(** The chain of every driver loses the deleted device. *)
Lemma chains_deleted d s s' a dr l :
  TInv (io_devices s) (io_drivers s) → Deleted d a (io_devices s) (io_devices s') (io_drivers s) (io_drivers s') →
  driver_devices dr s = Done (Ok l) s → driver_devices dr s' = Done (Ok (filter (λ x, x ≠ d) l)) s'.
Proof.
  intros [_ Hci] Hd Hl. destruct (io_drivers s !! dr) as [er|] eqn:Er.
  2: { revert Hl. unfold driver_devices, driver. mrun. by rewrite Er. }
  destruct (t_chains _ _ Hci dr er Er) as (_ & l0 & Hl0). rewrite (driver_devices_run _ _ _ _ Er Hl0) in Hl.
  injection Hl as ->. destruct (proj2 (de_drivers _ _ _ _ _ _ Hd dr)) as [er' Er']; [by rewrite Er|].
  destruct (de_tables _ _ _ _ _ _ Hd) as [_ Hci'].
  destruct (t_chains _ _ Hci' dr er' Er') as (_ & l' & Hl'). erewrite driver_devices_run; [|exact Er'|exact Hl'].
  f_equal. f_equal. apply sorted_unique; [apply Hl'|by apply filter_sorted, (ch_sorted _ _ _ _ Hl0)|].
  intros y. rewrite (ch_owned _ _ _ _ Hl'), (de_owned _ _ _ _ _ _ Hd), list_elem_of_filter, (ch_owned _ _ _ _ Hl0). tauto.
Qed.

Lemma delete_device_spec ext dr s d a :
  IoInv ext dr s → Shaped (io_devices s) a →
  is_completed (io_irps s) + Z.of_nat (length (pending_irps (io_irps s) d)) ≤ u64_max → deletes d s a.
Proof.
  intros Hs Ha Hc. pose proof (shaped_device _ _ d Ha) as Hd. unfold deletes, delete_answer.
  assert (delete_device routine_status d s = match io_devices s !! d with
    | None => Done (Err STATUS_INVALID_HANDLE) s
    | Some e => if dv_deleted e then Done (Err STATUS_DELETE_PENDING) s else delete_device routine_status d s end) as Er.
  { unfold delete_device. mrun. rewrite live_device_run. destruct (io_devices s !! d) as [e|]; [|done].
    by destruct (dv_deleted e). }
  destruct (io_devices s !! d) as [e|] eqn:He; [|by rewrite Hd].
  destruct Hd as (Hdd & l1 & l2 & -> & _). case_decide as Hdel; [by rewrite (proj2 Hdd Hdel) in Er|].
  assert (dv_deleted e = false) as Hdl by (destruct (dv_deleted e); [by destruct Hdel; apply Hdd|done]). clear Er.
  destruct (delete_device_tables routine_status d s a e (io_tables _ _ _ Hs) Ha He Hdl) as (ds' & drs' & Hd & Hrun).
  destruct (Ir.cancel_pending_run routine_status (io_irps s) dr d (io_irps_ok _ _ _ Hs) Hc) as (i' & Ec & _).
  assert (1 ≤ ext d) as Hge by (apply (io_held _ _ _ Hs); left; by exists e).
  destruct (release_held ext s d (io_objects_ok _ _ _ Hs) Hge) as (n & o' & Hrel & _).
  rewrite Hrun. unfold with_irps, with_objects. mrun. simpl. rewrite Ec. mrun. simpl. rewrite Hrel. mrun.
  eexists. split; [done|]. simpl. split_and!; try done; [apply (de_shape _ _ _ _ _ _ Hd)|apply (de_frame _ _ _ _ _ _ Hd)| |by exists n].
  intros dr' l. apply (chains_deleted d s _ a); [apply (io_tables _ _ _ Hs)|exact Hd].
Qed.

(** C13 - The stacks a device table represents: every device in exactly one, bottom first.
    In every reachable state the table represents some, and [attach_device],
    [detach_device] and [delete_device] refine the operations on lists: put a device
    that is alone on top of a stack, cut a stack above a device, take a device out of
    its stack; with the answer and on every branch those give.  An attachment and a
    detachment touch nothing but the stack links.  A deletion returns as long as the
    number of completed requests is a [u64]; beyond the links it marks the device,
    takes it out of its driver's chain and count, cancels its pending requests and
    releases its object, and it touches nothing else. *)
Theorem device_stacks_refine w :
  rtc step io_start w →
  ∃ a, Shaped (io_devices w.2) a ∧ NoDup (concat (sh_stacks a)) ∧
    (∀ d, d ∈ concat (sh_stacks a) ↔ is_Some (io_devices w.2 !! d)) ∧
    (∀ d t, shapes (attach_device d t) w.2 (attach_answer d t a) (attach_shape d t a)) ∧
    (∀ t, shapes (detach_device t) w.2 (detach_answer t a) (detach_shape t a)) ∧
    (∀ d, is_completed (io_irps w.2) + Z.of_nat (length (pending_irps (io_irps w.2) d)) ≤ u64_max → deletes d w.2 a).
Proof.
  intros Hw%io_inv_reachable. destruct (io_tables _ _ _ Hw) as [[a Ha] _]. exists a. split_and!.
  - done.
  - eapply stacks_NoDup, sp_stacks, Ha.
  - intros d. eapply stacks_dom, sp_stacks, Ha.
  - intros d t. by apply attach_stacks_run.
  - intros t. by apply detach_stacks_run.
  - intros d Hc. by eapply delete_device_spec.
Qed.

(** Deleting a live device succeeds: it is marked deleted, its driver's list loses it
    and no other, every IRP of its queue is completed as cancelled and the queue is
    empty, the creator reference is given back to the object manager, and a second
    deletion, an allocation and an attachment are refused. *)
Theorem device_deletion_effect w d e :
  rtc step io_start w → io_devices w.2 !! d = Some e → dv_deleted e = false →
  is_completed (io_irps w.2) + Z.of_nat (length (pending_irps (io_irps w.2) d)) ≤ u64_max →
  ∃ s', delete_device routine_status d w.2 = Done (Ok tt) s' ∧
    (∃ e', io_devices s' !! d = Some e' ∧ dv_deleted e' = true) ∧
    (∀ dr l, driver_devices dr w.2 = Done (Ok l) w.2 → driver_devices dr s' = Done (Ok (filter (λ x, x ≠ d) l)) s') ∧
    (∀ i, i ∈ pending_irps (io_irps w.2) d → Ir.cancelled_irp (io_irps s') i) ∧
    pending_irps (io_irps s') d = [] ∧
    (∃ n, release_object d (io_objects w.2) = Done (Ok n) (io_objects s')) ∧
    delete_device routine_status d s' = Done (Err STATUS_DELETE_PENDING) s' ∧
    (∀ b, allocate_irp d b s' = Done (Err STATUS_DELETE_PENDING) s') ∧
    (∀ t, (∃ x, attach_device d t s' = Done (Err x) s') ∧ (∃ x, attach_device t d s' = Done (Err x) s')).
Proof.
  intros Hw%io_inv_reachable He Hdel Hc. destruct (io_tables _ _ _ Hw) as [[a Ha] Hci].
  destruct (delete_device_tables routine_status d w.2 a e (io_tables _ _ _ Hw) Ha He Hdel) as (ds' & drs' & Hd & Hrun).
  destruct (Ir.cancel_pending_run routine_status (io_irps w.2) w.1.2 d (io_irps_ok _ _ _ Hw) Hc)
    as (i' & Ec & Hcan & _ & Hq).
  assert (1 ≤ w.1.1 d) as Hge by (apply (io_held _ _ _ Hw); left; by exists e).
  destruct (release_held w.1.1 w.2 d (io_objects_ok _ _ _ Hw) Hge) as (n & o' & Hrel & _).
  rewrite Hrun. unfold with_irps at 1, with_objects at 1. mrun. simpl. rewrite Ec. mrun. simpl. rewrite Hrel. mrun.
  eexists. split; [done|]. destruct (de_deleted _ _ _ _ _ _ Hd) as (e' & He' & Hdel').
  split; [by exists e'|]. split_and!.
  - intros dr l. apply (chains_deleted d w.2 _ a); [apply (io_tables _ _ _ Hw)|exact Hd].
  - done.
  - done.
  - by exists n.
  - unfold delete_device. mrun. rewrite live_device_run. simpl. by rewrite He', Hdel'.
  - intros b. unfold allocate_irp. mrun. rewrite live_device_run. simpl. by rewrite He', Hdel'.
  - intros t. pose proof (de_shape _ _ _ _ _ _ Hd) as Ha'.
    assert (d ∈ sh_deleted (delete_shape d a)) as Hdd by (apply (sp_deleted _ _ Ha'); by exists e').
    set (a' := delete_shape d a) in *. split.
    + eapply shapes_Err; [by apply attach_stacks_run|]. unfold attach_answer.
      destruct (d =? t); [by eexists|]. destruct (stack_of t _); [|by eexists].
      case_decide; [by eexists|]. destruct (stack_of d _); [|by eexists]. rewrite decide_True by done. by eexists.
    + eapply shapes_Err; [by apply attach_stacks_run|]. unfold attach_answer.
      destruct (t =? d); [by eexists|]. destruct (stack_of d _); [|by eexists]. rewrite decide_True by done. by eexists.
Qed.

(** Closing a completion port counts what it drops, forgets every handle bound to it
    and no other, leaves the other ports as they were and gives back the creator
    reference; from then on posting, binding and closing it are refused.  Bound
    handles name live ports only. *)
Theorem port_closing_effect w port :
  rtc step io_start w →
  (∀ p h q, bound_port w.2 p h = Some q → q ∈ io_live w.2) ∧
  if decide (port ∈ io_live w.2) then
    ∃ x n s', pt_store (io_ports w.2) !! port = Some x ∧
      close_completion_port port w.2 = Done (Ok n) s' ∧
      n = (if po_closed x then 0 else Z.of_nat (length (po_packets x))) ∧
      (∀ p h, bound_port s' p h = if decide (bound_port w.2 p h = Some port) then None else bound_port w.2 p h) ∧
      (∀ q, q ≠ port → pt_store (io_ports s') !! q = pt_store (io_ports w.2) !! q ∧
         (q ∈ io_live s' ↔ q ∈ io_live w.2)) ∧
      (∃ m, release_object port (io_objects w.2) = Done (Ok m) (io_objects s')) ∧
      (∀ packet choice, post_to_port port packet choice s' = Done (Err STATUS_INVALID_HANDLE) s') ∧
      (∀ p h key, bind_completion_port port p h key s' = Done (Err STATUS_INVALID_HANDLE) s') ∧
      close_completion_port port s' = Done (Err STATUS_INVALID_HANDLE) s'
  else close_completion_port port w.2 = Done (Err STATUS_INVALID_HANDLE) w.2.
Proof.
  intros Hw%io_inv_reachable. split.
  { intros p h q. unfold bound_port. destruct (io_bindings w.2 !! (p, h)) as [[q' key]|] eqn:E; [|done].
    simpl. intros [= ->]. by eapply (io_bound _ _ _ Hw). }
  assert (∀ s, port ∉ io_live s → close_completion_port port s = Done (Err STATUS_INVALID_HANDLE) s) as Hno.
  { intros s Hp. unfold close_completion_port. mrun. by rewrite completion_port_run, decide_False. }
  case_decide as Hp; [|by apply Hno].
  destruct (io_store _ _ _ Hw port Hp) as [x Hx].
  destruct (close_completion_port_run port _ _ _ Hw Hp) as (n & p' & o' & Hc & Hrun & _).
  exists x, n. eexists. split; [done|]. split; [exact Hrun|].
  assert (port ∉ io_live w.2 ∖ {[port]}) as Hni by set_solver.
  assert (n = (if po_closed x then 0 else Z.of_nat (length (po_packets x))) ∧
    ∀ q, q ≠ port → pt_store p' !! q = pt_store (io_ports w.2) !! q) as [Hn Hq].
  { revert Hc. unfold close_port, in_port. mrun. rewrite Hx. unfold close_port_locked. mrun. unfold id.
    destruct (po_closed x); mrun; intros [= <- <-]; (split; [done|]); intros q Hne; simpl; by rewrite lookup_insert_ne. }
  split; [done|]. split; [|split; [|split; [|split; [|split]]]].
  - intros p h. unfold bound_port. simpl. destruct (io_bindings w.2 !! (p, h)) as [[q key]|] eqn:Eb; simpl.
    + destruct (decide (q = port)) as [->|Hne]; [rewrite decide_True by done|rewrite decide_False by congruence].
      * rewrite (proj2 (map_lookup_filter_None _ _ _)); [done|]. right. intros [q' key'] Hb. simpl. congruence.
      * by rewrite (proj2 (map_lookup_filter_Some _ _ _ (q, key))).
    + rewrite (proj2 (map_lookup_filter_None _ _ _)); [done|by left].
  - intros q Hne. simpl. split; [by apply Hq|]. set_solver.
  - assert (1 ≤ w.1.1 port) as Hge by (apply (io_held _ _ _ Hw); by right; right).
    destruct (release_held w.1.1 w.2 port (io_objects_ok _ _ _ Hw) Hge) as (m & o & Hrel & _).
    exists m. revert Hrun. unfold close_completion_port. mrun. rewrite completion_port_run, decide_True by done.
    unfold with_ports, with_objects. mrun. simpl. rewrite Hc. mrun. simpl. rewrite Hrel.
    intros [=]. simpl. congruence.
  - intros packet choice. unfold post_to_port. mrun. rewrite completion_port_run. simpl. by rewrite decide_False.
  - intros p h key. unfold bind_completion_port. mrun. rewrite completion_port_run. simpl. by rewrite decide_False.
  - by apply Hno.
Qed.
End manager.

(** ** A concrete run: a driver, two devices, the second above the first *)

Section demo.
#[local] Existing Instance ascii_tables.

(** Every routine passes the status on. *)
Definition passing : list (Z * IrpCompletion) → Z → IrpCompletion → Z := λ _ _ c, ic_status c.

Definition demo_driver : IoManager := state_of (create_driver (lit "Drv") [] new_io_manager) new_io_manager.
Definition demo_lower : IoManager := state_of (create_device 1 None [] 0 demo_driver) demo_driver.
Definition demo_upper : IoManager := state_of (create_device 1 None [] 0 demo_lower) demo_lower.
Definition demo_attached : IoManager := state_of (attach_device 3 2 demo_upper) demo_upper.
Definition demo_port : IoManager := state_of (create_completion_port None 4 demo_attached) demo_attached.
Definition demo_io_ext : Z → Z := credit (Ok 4) (credit (Ok 3) (credit (Ok 2) (credit (Ok 1) (λ _, 0)))).
Definition demo_world : (Z → Z) * list Z * IoManager := (demo_io_ext, [], demo_port).

Lemma demo_io_reachable : rtc (step passing) io_start demo_world.
Proof.
  eapply rtc_l; [apply (io_create_driver passing (lit "Drv") [] _ [] new_io_manager (Ok 1) demo_driver); by apply run_eq|].
  eapply rtc_l; [apply (io_create_device passing 1 None [] 0 _ [] demo_driver (Ok 2) demo_lower); by apply run_eq|].
  eapply rtc_l; [apply (io_create_device passing 1 None [] 0 _ [] demo_lower (Ok 3) demo_upper); by apply run_eq|].
  eapply rtc_l; [apply (io_attach passing 3 2 _ [] demo_upper (Ok 2) demo_attached); by apply run_eq|].
  apply rtc_once, (io_create_port passing None 4 _ [] demo_attached (Ok 4) demo_port). by apply run_eq.
Qed.

Lemma device_stacks_refine_witness :
  ∃ a, Shaped (io_devices demo_port) a ∧ (∃ s', detach_device 2 demo_port = Done (detach_answer 2 a) s') ∧
    result_of (detach_device 2 demo_port) = Some (Ok 3) ∧ deletes passing 2 demo_port a.
Proof.
  destruct (device_stacks_refine passing demo_world demo_io_reachable) as (a & Ha & _ & _ & _ & Hd & Hdel).
  exists a. split; [exact Ha|]. split; [destruct (Hd 2) as (s' & E & _); by exists s'|]. split; [by vm_compute|]. apply Hdel. by vm_compute.
Defined.

Lemma link_walks_return_witness :
  result_of (top_of_stack 2 demo_port) = Some (Ok 3) ∧ ∃ r, driver_devices 1 demo_port = Done r demo_port.
Proof.
  destruct (link_walks_return passing demo_world demo_io_reachable) as (a & _ & _ & H).
  split; [by vm_compute|apply (H 1)].
Defined.

Lemma driver_devices_exact_witness :
  ∃ l, driver_devices 1 demo_port = Done (Ok l) demo_port ∧ (∀ d, d ∈ l ↔ owned (io_devices demo_port) 1 d) ∧
    result_of (driver_devices 1 demo_port) = Some (Ok [3; 2]).
Proof.
  pose proof (driver_devices_exact passing demo_world 1 demo_io_reachable) as H.
  assert (∃ e, io_drivers demo_port !! 1 = Some e) as [e He] by (eexists; by vm_compute).
  change (io_drivers demo_world.2) with (io_drivers demo_port) in H. rewrite He in H.
  destruct H as (l & Hl & _ & _ & Ho). exists l. split; [exact Hl|]. split; [exact Ho|]. by vm_compute.
Defined.

Definition demo_read : IrpParameterBlock :=
  {| pb_major := MjRead; pb_minor := 0; pb_system_buffer := [0; 0]; pb_length := 2; pb_user_address := 0;
     pb_required_alignment := 0 |}.

Lemma irp_allocation_stack_witness :
  ∃ l s', allocate_irp 3 demo_read demo_port = Done (Ok 1) s' ∧ irp_stack_devices 1 s' = Done (Ok (l ++ [3])) s'.
Proof.
  pose proof (irp_allocation_stack passing demo_world 3 demo_read demo_io_reachable) as H.
  assert (∃ e, io_devices demo_port !! 3 = Some e ∧ dv_deleted e = false) as (e & He & Hd)
    by (eexists; split; by vm_compute).
  change (io_devices demo_world.2) with (io_devices demo_port) in H. rewrite He, Hd in H.
  destruct H as (l & s' & Ha & _ & _ & _ & Hs & _); [by vm_compute|]. exists l, s'. split; [exact Ha|exact Hs].
Defined.

Lemma device_deletion_effect_witness :
  ∃ s', delete_device passing 2 demo_port = Done (Ok tt) s' ∧
    delete_device passing 2 s' = Done (Err STATUS_DELETE_PENDING) s'.
Proof.
  assert (∃ e, io_devices demo_port !! 2 = Some e ∧ dv_deleted e = false) as (e & He & Hd)
    by (eexists; split; by vm_compute).
  destruct (device_deletion_effect passing demo_world 2 e demo_io_reachable He Hd)
    as (s' & H1 & _ & _ & _ & _ & _ & H2 & _); [by vm_compute|]. exists s'. split; [exact H1|exact H2].
Defined.

Lemma port_closing_effect_witness :
  ∃ s', close_completion_port 4 demo_port = Done (Ok 0) s' ∧
    close_completion_port 4 s' = Done (Err STATUS_INVALID_HANDLE) s'.
Proof.
  destruct (port_closing_effect passing demo_world 4 demo_io_reachable) as [_ H].
  rewrite decide_True in H by (by apply (bool_decide_unpack _); vm_compute).
  destruct H as (x & n & s' & Hx & Hc & Hn & _ & _ & _ & _ & _ & Hagain).
  assert (po_packets <$> pt_store (io_ports demo_world.2) !! 4 = Some []) as E by (vm_compute; reflexivity).
  rewrite Hx in E. apply (inj Some) in E. rewrite E in Hn.
  assert (n = 0) as -> by (rewrite Hn; destruct (po_closed x); reflexivity).
  exists s'. split; [exact Hc|exact Hagain].
Defined.
End demo.
End Iot.
