(* ===== verification/Diagnostics.v ===== *)
(** * Event tracing and WMI ([src/casak/diagnostics.rs])

    ETW providers, registered by GUID, deliver the events that pass their level and
    keyword to a callback; WMI providers define classes, publish instances of them
    and feed subscriptions.  A callback is an opaque identity; each call is appended
    to [dg_calls]. *)

From S2P Require Import Prelude Strings Status.

(** ** Data *)

Inductive EventLevel : Type := ElCritical | ElError | ElWarning | ElInformation | ElVerbose.

#[export] Instance EventLevel_eq_dec : EqDecision EventLevel.
Proof. solve_decision. Defined.

(** [EventLevel::raw] and [from_raw] *)
Definition level_raw (l : EventLevel) : Z :=
  match l with
  | ElCritical => 1 | ElError => 2 | ElWarning => 3 | ElInformation => 4 | ElVerbose => 5
  end.
Definition level_from_raw (value : Z) : result EventLevel :=
  if value =? 1 then Ok ElCritical
  else if value =? 2 then Ok ElError
  else if value =? 3 then Ok ElWarning
  else if value =? 4 then Ok ElInformation
  else if value =? 5 then Ok ElVerbose
  else Err STATUS_INVALID_PARAMETER.

Record EventDescriptor := { ed_id : Z; ed_level : EventLevel; ed_keyword : Z }.

(** A [ProviderGuid] is its bytes. *)
Record EventRecord := { er_provider : list Z; er_descriptor : EventDescriptor; er_payload : list Z }.

Record EtwProvider := {
  ep_name : list Z;
  ep_enabled : bool;
  ep_level : EventLevel;
  ep_keyword : Z;
  ep_callback : Z;
}.

Abbreviation fields := (gmap str str) (only parsing).

Record WmiClass := { wc_name : list Z; wc_instances : list (gmap (list Z) (list Z)) }.
Record WmiProvider := { wp_name : list Z; wp_classes : gmap (list Z) WmiClass }.
Record WmiSubscription := { ws_class : list Z; ws_events : list (gmap (list Z) (list Z)) }.

Record DiagnosticsManager := {
  dg_etw : gmap (list Z) EtwProvider;
  dg_etw_ids : gmap Z (list Z);
  dg_next_etw : Z;
  dg_events_written : Z;
  dg_wmi : gmap (list Z) WmiProvider;
  dg_wmi_ids : gmap Z (list Z);
  dg_next_wmi : Z;
  dg_subscriptions : gmap Z WmiSubscription;
  dg_next_subscription : Z;
  dg_calls : list (Z * EventRecord);
}.

Definition new_diagnostics : DiagnosticsManager :=
  {| dg_etw := ∅; dg_etw_ids := ∅; dg_next_etw := 1; dg_events_written := 0; dg_wmi := ∅;
     dg_wmi_ids := ∅; dg_next_wmi := 1; dg_subscriptions := ∅; dg_next_subscription := 1;
     dg_calls := [] |}.

(** ** Field updates *)

Definition dg_set_etw (etw : gmap (list Z) EtwProvider) (ids : gmap Z (list Z)) (next : Z)
    (s : DiagnosticsManager) : DiagnosticsManager :=
  {| dg_etw := etw; dg_etw_ids := ids; dg_next_etw := next; dg_events_written := dg_events_written s;
     dg_wmi := dg_wmi s; dg_wmi_ids := dg_wmi_ids s; dg_next_wmi := dg_next_wmi s;
     dg_subscriptions := dg_subscriptions s; dg_next_subscription := dg_next_subscription s;
     dg_calls := dg_calls s |}.
Definition dg_set_calls (written : Z) (calls : list (Z * EventRecord)) (s : DiagnosticsManager)
    : DiagnosticsManager :=
  {| dg_etw := dg_etw s; dg_etw_ids := dg_etw_ids s; dg_next_etw := dg_next_etw s;
     dg_events_written := written; dg_wmi := dg_wmi s; dg_wmi_ids := dg_wmi_ids s;
     dg_next_wmi := dg_next_wmi s; dg_subscriptions := dg_subscriptions s;
     dg_next_subscription := dg_next_subscription s; dg_calls := calls |}.
Definition dg_set_wmi (wmi : gmap (list Z) WmiProvider) (ids : gmap Z (list Z)) (next : Z)
    (s : DiagnosticsManager) : DiagnosticsManager :=
  {| dg_etw := dg_etw s; dg_etw_ids := dg_etw_ids s; dg_next_etw := dg_next_etw s;
     dg_events_written := dg_events_written s; dg_wmi := wmi; dg_wmi_ids := ids; dg_next_wmi := next;
     dg_subscriptions := dg_subscriptions s; dg_next_subscription := dg_next_subscription s;
     dg_calls := dg_calls s |}.
Definition dg_set_subscriptions (subs : gmap Z WmiSubscription) (next : Z) (s : DiagnosticsManager)
    : DiagnosticsManager :=
  {| dg_etw := dg_etw s; dg_etw_ids := dg_etw_ids s; dg_next_etw := dg_next_etw s;
     dg_events_written := dg_events_written s; dg_wmi := dg_wmi s; dg_wmi_ids := dg_wmi_ids s;
     dg_next_wmi := dg_next_wmi s; dg_subscriptions := subs; dg_next_subscription := next;
     dg_calls := dg_calls s |}.

(** ** ETW *)

Definition register_provider (guid : list Z) (name : str) (callback : Z) : M DiagnosticsManager Z :=
  fail_if (str_is_empty (trim name)) STATUS_INVALID_PARAMETER ;;;
  s <- gets (λ s, s) ;;
  fail_if (bool_decide (is_Some (dg_etw s !! guid))) STATUS_OBJECT_NAME_COLLISION ;;;
  fail_if (64 <=? Z.of_nat (size (dg_etw s))) STATUS_INSUFFICIENT_RESOURCES ;;;
  let id := dg_next_etw s in
  next <- add_at u64_max id 1 ;;
  modify (dg_set_etw
    (<[guid := {| ep_name := name; ep_enabled := false; ep_level := ElVerbose; ep_keyword := 0;
                  ep_callback := callback |}]> (dg_etw s))
    (<[id := guid]> (dg_etw_ids s)) next) ;;;
  ret id.

Definition provider_guid (id : Z) : M DiagnosticsManager (list Z) := λ s,
  ok_or (dg_etw_ids s !! id) STATUS_INVALID_HANDLE s.

Definition unregister_provider (id : Z) : M DiagnosticsManager unit :=
  guid <- provider_guid id ;;
  modify (λ s, dg_set_etw (delete guid (dg_etw s)) (delete id (dg_etw_ids s)) (dg_next_etw s) s).

(** [self.etw.get_mut(&guid).ok_or(..)?] *)
Definition etw_provider (guid : list Z) (e : Z) : M DiagnosticsManager EtwProvider := λ s,
  ok_or (dg_etw s !! guid) e s.
Definition set_provider (guid : list Z) (enabled : bool) (level : EventLevel) (keyword : Z)
    (p : EtwProvider) : M DiagnosticsManager unit :=
  modify (λ s, dg_set_etw
    (<[guid := {| ep_name := ep_name p; ep_enabled := enabled; ep_level := level; ep_keyword := keyword;
                  ep_callback := ep_callback p |}]> (dg_etw s)) (dg_etw_ids s) (dg_next_etw s) s).

Definition enable_provider (guid : list Z) (level : EventLevel) (keyword : Z)
    : M DiagnosticsManager unit :=
  p <- etw_provider guid STATUS_OBJECT_NAME_NOT_FOUND ;;
  set_provider guid true level keyword p.

Definition disable_provider (guid : list Z) : M DiagnosticsManager unit :=
  p <- etw_provider guid STATUS_OBJECT_NAME_NOT_FOUND ;;
  set_provider guid false (ep_level p) (ep_keyword p) p.

Definition is_enabled (guid : list Z) : M DiagnosticsManager bool :=
  p <- etw_provider guid STATUS_OBJECT_NAME_NOT_FOUND ;; ret (ep_enabled p).

Definition provider_count (s : DiagnosticsManager) : Z := Z.of_nat (size (dg_etw s)).

Definition provider_name (id : Z) : M DiagnosticsManager (list Z) :=
  guid <- provider_guid id ;;
  p <- etw_provider guid STATUS_INVALID_HANDLE ;;
  ret (ep_name p).

Definition write_event (guid : list Z) (descriptor : EventDescriptor) (payload : list Z)
    : M DiagnosticsManager bool :=
  fail_if (64 * 1024 <? Z.of_nat (length payload)) STATUS_INVALID_PARAMETER ;;;
  p <- etw_provider guid STATUS_OBJECT_NAME_NOT_FOUND ;;
  if negb (ep_enabled p) then ret false else
  if level_raw (ep_level p) <? level_raw (ed_level descriptor) then ret false else
  if negb (ed_keyword descriptor =? 0) && (Z.land (ed_keyword descriptor) (ep_keyword p) =? 0)
  then ret false else
  s <- gets (λ s, s) ;;
  let record := {| er_provider := guid; er_descriptor := descriptor; er_payload := payload |} in
  modify (λ s, dg_set_calls (dg_events_written s) (dg_calls s ++ [(ep_callback p, record)]) s) ;;;
  written <- add_at u64_max (dg_events_written s) 1 ;;
  modify (λ s, dg_set_calls written (dg_calls s) s) ;;;
  ret true.

(** ** WMI *)

Definition register_wmi_provider (name : str) : M DiagnosticsManager Z :=
  fail_if (str_is_empty (trim name)) STATUS_INVALID_PARAMETER ;;;
  let key := to_ascii_lowercase name in
  s <- gets (λ s, s) ;;
  fail_if (bool_decide (is_Some (dg_wmi s !! key))) STATUS_OBJECT_NAME_COLLISION ;;;
  let id := dg_next_wmi s in
  next <- add_at u64_max id 1 ;;
  modify (dg_set_wmi (<[key := {| wp_name := name; wp_classes := ∅ |}]> (dg_wmi s))
    (<[id := key]> (dg_wmi_ids s)) next) ;;;
  ret id.

(** The provider of an identifier, with its key. *)
Definition wmi_provider (id : Z) : M DiagnosticsManager (list Z * WmiProvider) :=
  s <- gets (λ s, s) ;;
  key <- ok_or (dg_wmi_ids s !! id) STATUS_OBJECT_NAME_NOT_FOUND ;;
  record <- ok_or (dg_wmi s !! key) STATUS_OBJECT_NAME_NOT_FOUND ;;
  ret (key, record).

Definition set_class (key class : list Z) (c : WmiClass) (record : WmiProvider)
    (s : DiagnosticsManager) : DiagnosticsManager :=
  dg_set_wmi (<[key := {| wp_name := wp_name record; wp_classes := <[class := c]> (wp_classes record) |}]>
    (dg_wmi s)) (dg_wmi_ids s) (dg_next_wmi s) s.

Definition define_wmi_class (provider : Z) (class : str) : M DiagnosticsManager unit :=
  fail_if (str_is_empty (trim class)) STATUS_INVALID_PARAMETER ;;;
  '(key, record) <- wmi_provider provider ;;
  fail_if (bool_decide (is_Some (wp_classes record !! class))) STATUS_OBJECT_NAME_COLLISION ;;;
  modify (set_class key class {| wc_name := class; wc_instances := [] |} record).

(** The body of the loop over the subscriptions. *)
Definition feed (class : str) (instance : fields) (w : WmiSubscription) : WmiSubscription :=
  if bool_decide (ws_class w = class)
  then {| ws_class := ws_class w; ws_events := ws_events w ++ [instance] |} else w.

Definition publish_wmi_instance (provider : Z) (class : str) (instance : fields)
    : M DiagnosticsManager Z :=
  '(key, record) <- wmi_provider provider ;;
  c <- ok_or (wp_classes record !! class) STATUS_OBJECT_NAME_NOT_FOUND ;;
  let instances := wc_instances c ++ [instance] in
  modify (set_class key class {| wc_name := wc_name c; wc_instances := instances |} record) ;;;
  modify (λ s, dg_set_subscriptions (feed class instance <$> dg_subscriptions s)
                 (dg_next_subscription s) s) ;;;
  ret (Z.of_nat (length instances)).

(** [values().find_map(|provider| provider.classes.get(class))]: the values of the
    [BTreeMap] in the order of its keys *)
Definition find_class (class : str) (s : DiagnosticsManager) : option WmiClass :=
  head (omap (λ kp : list Z * WmiProvider, wp_classes kp.2 !! class) (bs_entries (dg_wmi s))).

Definition query_wmi_class (class : str) : M DiagnosticsManager (list fields) :=
  s <- gets (λ s, s) ;;
  c <- ok_or (find_class class s) STATUS_OBJECT_NAME_NOT_FOUND ;;
  ret (wc_instances c).

Definition query_wmi_namespace (namespace class : str) : M DiagnosticsManager (list fields) :=
  fail_if (negb (eq_ignore_ascii_case namespace (lit "root\cimv2"))) STATUS_NOT_SUPPORTED ;;;
  query_wmi_class class.

(** [values().any(|provider| provider.classes.contains_key(class))] *)
Definition class_known (class : str) (s : DiagnosticsManager) : bool :=
  existsb (λ kp : list Z * WmiProvider, bool_decide (is_Some (wp_classes kp.2 !! class)))
    (bs_entries (dg_wmi s)).

Definition subscribe_wmi (class : str) : M DiagnosticsManager Z :=
  s <- gets (λ s, s) ;;
  fail_if (negb (class_known class s)) STATUS_OBJECT_NAME_NOT_FOUND ;;;
  let id := dg_next_subscription s in
  next <- add_at u64_max id 1 ;;
  modify (dg_set_subscriptions
    (<[id := {| ws_class := class; ws_events := [] |}]> (dg_subscriptions s)) next) ;;;
  ret id.

Definition poll_wmi (id : Z) : M DiagnosticsManager (list fields) :=
  s <- gets (λ s, s) ;;
  w <- ok_or (dg_subscriptions s !! id) STATUS_INVALID_HANDLE ;;
  modify (dg_set_subscriptions
    (<[id := {| ws_class := ws_class w; ws_events := [] |}]> (dg_subscriptions s))
    (dg_next_subscription s)) ;;;
  ret (ws_events w).

Definition cancel_wmi_subscription (id : Z) : M DiagnosticsManager unit :=
  s <- gets (λ s, s) ;;
  _ <- ok_or (dg_subscriptions s !! id) STATUS_INVALID_HANDLE ;;
  modify (dg_set_subscriptions (delete id (dg_subscriptions s)) (dg_next_subscription s)).

Definition wmi_provider_count (s : DiagnosticsManager) : Z := Z.of_nat (size (dg_wmi s)).

Definition wmi_provider_name (id : Z) : M DiagnosticsManager (list Z) :=
  s <- gets (λ s, s) ;;
  key <- ok_or (dg_wmi_ids s !! id) STATUS_INVALID_HANDLE ;;
  record <- ok_or (dg_wmi s !! key) STATUS_INVALID_HANDLE ;;
  ret (wp_name record).
