(* ===== verification/DiagnosticsFacts.v ===== *)
(** * Correctness of event tracing and WMI

    The tables of providers agree, an event is delivered exactly when the enabling
    asks for it, and a subscription receives exactly the instances published after it
    was made, in order. *)

From S2P Require Import Prelude Strings Status Diagnostics.

Module Dg.

Abbreviation instance := (gmap str str) (only parsing).

(** What was published, by provider key and class; where the log stood when a
    subscription was made; what was polled from it since. *)
Record History := {
  h_log : list (list Z * list Z * gmap (list Z) (list Z));
  h_since : gmap Z nat;
  h_polled : gmap Z (list (gmap (list Z) (list Z)));
}.

Definition no_history : History := {| h_log := []; h_since := ∅; h_polled := ∅ |}.
Definition log_publish (key class : str) (i : instance) (h : History) : History :=
  {| h_log := h_log h ++ [(key, class, i)]; h_since := h_since h; h_polled := h_polled h |}.
Definition log_subscribe (id : Z) (h : History) : History :=
  {| h_log := h_log h; h_since := <[id := length (h_log h)]> (h_since h); h_polled := <[id := []]> (h_polled h) |}.
Definition log_poll (id : Z) (l : list instance) (h : History) : History :=
  {| h_log := h_log h; h_since := h_since h;
     h_polled := <[id := default [] (h_polled h !! id) ++ l]> (h_polled h) |}.

(** The instances of a log that are of a class, or of a class of a provider. *)
Definition of_class (class : str) (l : list (str * str * instance)) : list instance :=
  omap (λ e, if bool_decide (e.1.2 = class) then Some e.2 else None) l.
Definition of_provider (key class : str) (l : list (str * str * instance)) : list instance :=
  omap (λ e, if bool_decide (e.1 = (key, class)) then Some e.2 else None) l.

Inductive step : DiagnosticsManager * History → DiagnosticsManager * History → Prop :=
| st_register guid name cb s h r s' :
    register_provider guid name cb s = Done r s' → step (s, h) (s', h)
| st_unregister id s h r s' : unregister_provider id s = Done r s' → step (s, h) (s', h)
| st_enable guid l k s h r s' : enable_provider guid l k s = Done r s' → step (s, h) (s', h)
| st_disable guid s h r s' : disable_provider guid s = Done r s' → step (s, h) (s', h)
| st_write guid d p s h r s' : write_event guid d p s = Done r s' → step (s, h) (s', h)
| st_register_wmi name s h r s' : register_wmi_provider name s = Done r s' → step (s, h) (s', h)
| st_define p c s h r s' : define_wmi_class p c s = Done r s' → step (s, h) (s', h)
| st_publish p c i s h n s' key :
    dg_wmi_ids s !! p = Some key → publish_wmi_instance p c i s = Done (Ok n) s' →
    step (s, h) (s', log_publish key c i h)
| st_publish_refused p c i s h e s' :
    publish_wmi_instance p c i s = Done (Err e) s' → step (s, h) (s', h)
| st_subscribe c s h id s' : subscribe_wmi c s = Done (Ok id) s' → step (s, h) (s', log_subscribe id h)
| st_subscribe_refused c s h e s' : subscribe_wmi c s = Done (Err e) s' → step (s, h) (s', h)
| st_poll id s h l s' : poll_wmi id s = Done (Ok l) s' → step (s, h) (s', log_poll id l h)
| st_poll_refused id s h e s' : poll_wmi id s = Done (Err e) s' → step (s, h) (s', h)
| st_cancel id s h r s' : cancel_wmi_subscription id s = Done r s' → step (s, h) (s', h).

(** ** The invariant *)

(** The two tables of ETW providers are inverse to each other. *)
Record EtwInv (s : DiagnosticsManager) : Prop := {
  et_named : ∀ id guid, dg_etw_ids s !! id = Some guid → id < dg_next_etw s ∧ is_Some (dg_etw s !! guid);
  et_inj : ∀ i j guid, dg_etw_ids s !! i = Some guid → dg_etw_ids s !! j = Some guid → i = j;
  et_registered : ∀ guid, is_Some (dg_etw s !! guid) → ∃ id, dg_etw_ids s !! id = Some guid;
  et_size : Z.of_nat (size (dg_etw s)) ≤ 64;
  et_count : dg_events_written s = Z.of_nat (length (dg_calls s));
}.

Record WmiInv (s : DiagnosticsManager) (log : list (str * str * instance)) : Prop := {
  wm_named : ∀ id key, dg_wmi_ids s !! id = Some key → id < dg_next_wmi s ∧ is_Some (dg_wmi s !! key);
  wm_class : ∀ key p class c, dg_wmi s !! key = Some p → wp_classes p !! class = Some c →
    wc_name c = class ∧ wc_instances c = of_provider key class log;
  wm_undefined : ∀ key class, (∀ p, dg_wmi s !! key = Some p → wp_classes p !! class = None) →
    of_provider key class log = [];
}.

(** What a subscription has received is what was published since it was made. *)
Definition received (h : History) (id : Z) (w : WmiSubscription) : Prop :=
  ∃ n polled, h_since h !! id = Some n ∧ (n ≤ length (h_log h))%nat ∧ h_polled h !! id = Some polled ∧
    polled ++ ws_events w = of_class (ws_class w) (drop n (h_log h)).
Definition SubInv (s : DiagnosticsManager) (h : History) : Prop :=
  ∀ id w, dg_subscriptions s !! id = Some w → id < dg_next_subscription s ∧ received h id w.

Lemma of_class_app class l1 l2 : of_class class (l1 ++ l2) = of_class class l1 ++ of_class class l2.
Proof. apply omap_app. Qed.
Lemma of_provider_app key class l1 l2 :
  of_provider key class (l1 ++ l2) = of_provider key class l1 ++ of_provider key class l2.
Proof. apply omap_app. Qed.

(** *** ETW *)

Lemma etwinv_same s s' :
  EtwInv s → dg_etw s' = dg_etw s → dg_etw_ids s' = dg_etw_ids s → dg_next_etw s' = dg_next_etw s →
  dg_events_written s' = dg_events_written s → dg_calls s' = dg_calls s → EtwInv s'.
Proof. intros [] E1 E2 E3 E4 E5. constructor; rewrite ?E1, ?E2, ?E3, ?E4, ?E5; done. Qed.

Lemma etwinv_set guid e l k p s r s' :
  EtwInv s → dg_etw s !! guid = Some p → set_provider guid e l k p s = Done r s' → EtwInv s'.
Proof.
  intros [] Hp [= <- <-]. constructor; simpl; try done.
  - intros id g Hg. destruct (et_named0 id g Hg). split; [done|]. rewrite lookup_insert_is_Some.
    destruct (decide (guid = g)); [by left|by right].
  - intros g [<-|[_ Hg]]%lookup_insert_is_Some; apply et_registered0; [by exists p|done].
  - by rewrite map_size_insert_Some by (by exists p).
Qed.

Lemma etwinv_register guid name cb s r s' :
  EtwInv s → register_provider guid name cb s = Done r s' → EtwInv s'.
Proof.
  intros Hs. unfold register_provider. mrun. destruct (str_is_empty _); mrun; [by intros [= <- <-]|].
  destruct (bool_decide _) eqn:Eg; mrun; [by intros [= <- <-]|]. bool_prop.
  destruct (64 <=? _) eqn:En; mrun; [by intros [= <- <-]|]. bool_prop.
  destruct (_ <=? _); [|done]. intros [= <- <-]. apply eq_None_not_Some in Eg. destruct Hs.
  assert (dg_etw_ids s !! dg_next_etw s = None) as Hid.
  { destruct (dg_etw_ids s !! dg_next_etw s) eqn:E; [|done]. apply et_named0 in E as [? _]. exfalso. lia. }
  constructor; simpl; try done.
  - intros id g [[<- <-]|[Hne Hg]]%lookup_insert_Some; [split; [lia|by rewrite lookup_insert_eq]|].
    destruct (et_named0 id g Hg) as [? Hx]. split; [lia|]. rewrite lookup_insert_is_Some. destruct (decide (guid = g)); [by left|by right].
  - intros i j g Hi Hj. destruct (decide (i = dg_next_etw s)) as [->|Hni], (decide (j = dg_next_etw s)) as [->|Hnj];
      rewrite ?lookup_insert_eq, ?lookup_insert_ne in * by done; simplify_eq; [done| | |by eapply et_inj0].
    + apply et_named0 in Hj as [_ [? ?]]. congruence.
    + apply et_named0 in Hi as [_ [? ?]]. congruence.
  - intros g [<-|[Hne Hg]]%lookup_insert_is_Some; [exists (dg_next_etw s); by rewrite lookup_insert_eq|].
    destruct (et_registered0 g Hg) as [id Hid']. exists id. rewrite lookup_insert_ne; [done|congruence].
  - rewrite map_size_insert_None by done. lia.
Qed.

Lemma etwinv_unregister id s r s' : EtwInv s → unregister_provider id s = Done r s' → EtwInv s'.
Proof.
  intros Hs. unfold unregister_provider, provider_guid. mrun.
  destruct (dg_etw_ids s !! id) as [guid|] eqn:Eg; mrun; intros [= <- <-]; [|done]. destruct Hs.
  constructor; simpl; try done.
  - intros j g [Hne Hg]%lookup_delete_Some. destruct (et_named0 j g Hg). split; [done|].
    rewrite lookup_delete_ne; [done|]. intros <-. by apply Hne, (et_inj0 id j guid).
  - intros i j g [_ Hi]%lookup_delete_Some [_ Hj]%lookup_delete_Some. by eapply et_inj0.
  - intros g [x [Hne Hg]%lookup_delete_Some]. destruct (et_registered0 g) as [j Hj]; [by exists x|].
    exists j. rewrite lookup_delete_ne; [done|congruence].
  - rewrite map_size_delete. destruct (dg_etw s !! guid); simpl; lia.
Qed.

(** Writing an event, decided. *)
Definition passes (p : EtwProvider) (d : EventDescriptor) : bool :=
  ep_enabled p && (level_raw (ed_level d) <=? level_raw (ep_level p)) &&
  ((ed_keyword d =? 0) || negb (Z.land (ed_keyword d) (ep_keyword p) =? 0)).

Lemma write_event_run guid d payload s :
  write_event guid d payload s =
  if 64 * 1024 <? Z.of_nat (length payload) then Done (Err STATUS_INVALID_PARAMETER) s else
  match dg_etw s !! guid with
  | None => Done (Err STATUS_OBJECT_NAME_NOT_FOUND) s
  | Some p =>
      if passes p d then
        if dg_events_written s + 1 <=? u64_max then
          Done (Ok true) (dg_set_calls (dg_events_written s + 1)
            (dg_calls s ++ [(ep_callback p, {| er_provider := guid; er_descriptor := d; er_payload := payload |})]) s)
        else Panic
      else Done (Ok false) s
  end.
Proof.
  unfold write_event, etw_provider, passes. mrun. destruct (64 * 1024 <? _); mrun; [done|].
  destruct (dg_etw s !! guid) as [p|]; mrun; [|done].
  destruct (ep_enabled p); simpl; [|done]. rewrite Z.leb_antisym.
  destruct (level_raw (ep_level p) <? level_raw (ed_level d)); simpl; [done|].
  destruct (ed_keyword d =? 0); simpl; [by destruct (_ <=? _)|].
  destruct (Z.land (ed_keyword d) (ep_keyword p) =? 0); simpl; [done|]. by destruct (_ <=? _).
Qed.

Lemma etwinv_write guid d p s r s' : EtwInv s → write_event guid d p s = Done r s' → EtwInv s'.
Proof.
  intros Hs. rewrite write_event_run. destruct (_ <? _); [by intros [= <- <-]|].
  destruct (dg_etw s !! guid) as [q|]; [|by intros [= <- <-]].
  destruct (passes q d); [|by intros [= <- <-]]. destruct (_ <=? _); [|done]. intros [= <- <-].
  destruct Hs. constructor; simpl; try done. rewrite length_app, et_count0. simpl. lia.
Qed.

(** *** WMI *)

Lemma wmiinv_same s s' log :
  WmiInv s log → dg_wmi s' = dg_wmi s → dg_wmi_ids s' = dg_wmi_ids s → dg_next_wmi s' = dg_next_wmi s →
  WmiInv s' log.
Proof. intros [] E1 E2 E3. constructor; rewrite ?E1, ?E2, ?E3; done. Qed.

Lemma wmiinv_register name s log r s' : WmiInv s log → register_wmi_provider name s = Done r s' → WmiInv s' log.
Proof.
  intros Hs. unfold register_wmi_provider. mrun. destruct (str_is_empty _); mrun; [by intros [= <- <-]|].
  destruct (bool_decide _) eqn:Eg; mrun; [by intros [= <- <-]|]. bool_prop.
  destruct (_ <=? _); [|done]. intros [= <- <-]. apply eq_None_not_Some in Eg. destruct Hs.
  constructor; simpl; try done.
  - intros id key [[<- <-]|[Hne Hg]]%lookup_insert_Some; [split; [lia|by rewrite lookup_insert_eq]|].
    destruct (wm_named0 id key Hg) as [? Hx]. split; [lia|]. rewrite lookup_insert_is_Some.
    destruct (decide (to_ascii_lowercase name = key)); [by left|by right].
  - intros key p class c [[<- <-]|[Hne Hp]]%lookup_insert_Some Hc; [by simplify_map_eq|]. by eapply wm_class0.
  - intros key class Hp. apply wm_undefined0. intros p Hk. apply Hp.
    rewrite lookup_insert_ne; [done|congruence].
Qed.

Lemma wmi_provider_run id s :
  wmi_provider id s = Done (match dg_wmi_ids s !! id with
    | None => Err STATUS_OBJECT_NAME_NOT_FOUND
    | Some key => match dg_wmi s !! key with
        | None => Err STATUS_OBJECT_NAME_NOT_FOUND | Some p => Ok (key, p) end end) s.
Proof. unfold wmi_provider. mrun. destruct (dg_wmi_ids s !! id); mrun; [|done]. by destruct (_ !! _). Qed.

(** A class of a provider is set, as the log grows. *)
Lemma wmiinv_set_class key class c p s log log' :
  WmiInv s log → dg_wmi s !! key = Some p →
  wc_name c = class → wc_instances c = of_provider key class log' →
  (∀ k cl, (k, cl) ≠ (key, class) → of_provider k cl log' = of_provider k cl log) →
  WmiInv (set_class key class c p s) log'.
Proof.
  intros [] Hp Hn Hi Hlog. constructor; simpl; try done.
  - intros id k Hk. destruct (wm_named0 id k Hk). split; [done|]. rewrite lookup_insert_is_Some.
    destruct (decide (key = k)); [by left|by right].
  - intros k q cl x [[<- <-]|[Hne Hq]]%lookup_insert_Some Hx; simpl in *.
    + apply lookup_insert_Some in Hx as [[<- <-]|[Hne Hx]]; [done|].
      destruct (wm_class0 key p cl x Hp Hx) as [? ->]. split; [done|]. symmetry. apply Hlog. congruence.
    + destruct (wm_class0 k q cl x Hq Hx) as [? ->]. split; [done|]. symmetry. apply Hlog. congruence.
  - intros k cl Hno. assert ((k, cl) ≠ (key, class)) as Hne.
    { intros [= -> ->]. specialize (Hno _ (lookup_insert_eq _ _ _)). simpl in Hno.
      by rewrite lookup_insert_eq in Hno. }
    rewrite Hlog by done. apply wm_undefined0. intros q Hq. destruct (decide (k = key)) as [->|Hk].
    + assert (q = p) as -> by congruence. specialize (Hno _ (lookup_insert_eq _ _ _)). simpl in Hno.
      rewrite lookup_insert_ne in Hno; [done|congruence].
    + apply Hno. by rewrite lookup_insert_ne.
Qed.

Lemma wmiinv_define p class s log r s' : WmiInv s log → define_wmi_class p class s = Done r s' → WmiInv s' log.
Proof.
  intros Hs. unfold define_wmi_class. mrun. destruct (str_is_empty _); mrun; [by intros [= <- <-]|].
  rewrite wmi_provider_run. destruct (dg_wmi_ids s !! p) as [key|]; mrun; [|by intros [= <- <-]].
  destruct (dg_wmi s !! key) as [q|] eqn:Eq; mrun; [|by intros [= <- <-]].
  destruct (bool_decide _) eqn:Ec; mrun; [by intros [= <- <-]|]. bool_prop. apply eq_None_not_Some in Ec.
  intros [= <- <-]. apply (wmiinv_set_class _ _ _ _ _ log); [done|done|done| |done].
  symmetry. apply (wm_undefined _ _ Hs). intros q' Hq. congruence.
Qed.

Lemma publish_run p class i s :
  publish_wmi_instance p class i s =
  match wmi_provider p s with
  | Done (Ok (key, q)) _ =>
      match wp_classes q !! class with
      | None => Done (Err STATUS_OBJECT_NAME_NOT_FOUND) s
      | Some c =>
          let l := wc_instances c ++ [i] in
          let s' := set_class key class {| wc_name := wc_name c; wc_instances := l |} q s in
          Done (Ok (Z.of_nat (length l)))
            (dg_set_subscriptions (feed class i <$> dg_subscriptions s) (dg_next_subscription s) s')
      end
  | Done (Err e) _ => Done (Err e) s
  | Panic => Panic
  end.
Proof.
  unfold publish_wmi_instance. mrun. rewrite wmi_provider_run.
  destruct (dg_wmi_ids s !! p) as [key|]; mrun; [|done]. destruct (dg_wmi s !! key) as [q|]; mrun; [|done].
  by destruct (wp_classes q !! class).
Qed.

Lemma of_provider_snoc k cl key class i log :
  of_provider k cl (log ++ [(key, class, i)]) =
  of_provider k cl log ++ (if bool_decide ((key, class) = (k, cl)) then [i] else []).
Proof. rewrite of_provider_app. f_equal. unfold of_provider. simpl. by case_bool_decide. Qed.

Lemma of_class_snoc cl key class i log :
  of_class cl (log ++ [(key, class, i)]) = of_class cl log ++ (if bool_decide (class = cl) then [i] else []).
Proof. rewrite of_class_app. f_equal. unfold of_class. simpl. by case_bool_decide. Qed.

Lemma publish_kept p class i s h n s' key :
  WmiInv s (h_log h) → SubInv s h → dg_wmi_ids s !! p = Some key →
  publish_wmi_instance p class i s = Done (Ok n) s' →
  WmiInv s' (h_log (log_publish key class i h)) ∧ SubInv s' (log_publish key class i h) ∧
  n = Z.of_nat (S (length (of_provider key class (h_log h)))).
Proof.
  intros Hs Hsub Hk. rewrite publish_run, wmi_provider_run, Hk.
  destruct (dg_wmi s !! key) as [q|] eqn:Eq; [|done]. destruct (wp_classes q !! class) as [c|] eqn:Ec; [|done].
  destruct (wm_class _ _ Hs key q class c Eq Ec) as [Hn Hi]. cbv zeta. intros [= <- <-].
  split; [|split; [|rewrite length_app, Hi; simpl; lia]].
  - eapply (wmiinv_same (set_class key class {| wc_name := wc_name c; wc_instances := wc_instances c ++ [i] |} q s));
      [|done..]. apply (wmiinv_set_class _ _ _ _ _ (h_log h)); [done|done|done| |].
    + simpl. by rewrite of_provider_snoc, bool_decide_true, Hi.
    + intros k cl Hne. simpl. rewrite of_provider_snoc, bool_decide_false by congruence. by rewrite app_nil_r.
  - intros id w. simpl. rewrite lookup_fmap, fmap_Some. intros (w0 & Hw0 & ->).
    destruct (Hsub id w0 Hw0) as (? & m & polled & H1 & H2 & H3 & H4). split; [done|].
    exists m, polled. simpl. split_and!; [done|rewrite length_app; lia|done|].
    assert (ws_class (feed class i w0) = ws_class w0) as -> by (unfold feed; by case_bool_decide).
    rewrite drop_app_le, of_class_snoc, <-H4 by done. unfold feed.
    rewrite (bool_decide_ext (class = ws_class w0) (ws_class w0 = class)) by done.
    case_bool_decide; simpl; [by rewrite app_assoc|by rewrite app_nil_r].
Qed.

(** *** Subscriptions *)

Lemma subinv_same s s' h :
  SubInv s h → dg_subscriptions s' = dg_subscriptions s → dg_next_subscription s' = dg_next_subscription s →
  SubInv s' h.
Proof. intros Hs E1 E2. unfold SubInv. by rewrite E1, E2. Qed.

Lemma received_other h h' id w :
  received h id w → h_log h' = h_log h → h_since h' !! id = h_since h !! id →
  h_polled h' !! id = h_polled h !! id → received h' id w.
Proof. unfold received. by intros Hr -> -> ->. Qed.

Lemma subinv_subscribe class s h id s' :
  SubInv s h → subscribe_wmi class s = Done (Ok id) s' → SubInv s' (log_subscribe id h).
Proof.
  intros Hs. unfold subscribe_wmi. mrun. destruct (negb _); mrun; [done|]. destruct (_ <=? _); [|done].
  intros [= <- <-]. intros i w. simpl. rewrite lookup_insert_Some. intros [[<- <-]|[Hne Hw]].
  - split; [lia|]. exists (length (h_log h)), []. simpl. rewrite !lookup_insert_eq. split_and!; [done|lia|done|].
    by rewrite drop_ge.
  - destruct (Hs i w Hw). split; [lia|]. eapply received_other; [done|done|..]; simpl; by rewrite lookup_insert_ne.
Qed.

Lemma subinv_poll id s h l s' :
  SubInv s h → poll_wmi id s = Done (Ok l) s' → SubInv s' (log_poll id l h).
Proof.
  intros Hs. unfold poll_wmi. mrun. destruct (dg_subscriptions s !! id) as [w|] eqn:Ew; mrun; [|done].
  intros [= <- <-]. destruct (Hs id w Ew) as (? & n & polled & H1 & H2 & H3 & H4).
  intros i x. simpl. rewrite lookup_insert_Some. intros [[<- <-]|[Hne Hw]].
  - split; [done|]. exists n, (polled ++ ws_events w). simpl. rewrite lookup_insert_eq, H3, app_nil_r. done.
  - destruct (Hs i x Hw). split; [done|]. eapply received_other; [done|done|..]; simpl; by rewrite ?lookup_insert_ne.
Qed.

(** ** Every sequence of calls *)

Definition dinv (w : DiagnosticsManager * History) : Prop :=
  EtwInv w.1 ∧ WmiInv w.1 (h_log w.2) ∧ SubInv w.1 w.2.

Lemma dinv_step w w' : dinv w → step w w' → dinv w'.
Proof.
  intros (He & Hw & Hs) Hst. destruct Hst as
    [guid name cb s h r s' E|id s h r s' E|guid l k s h r s' E|guid s h r s' E|guid d p s h r s' E
    |name s h r s' E|p c s h r s' E|p c i s h n s' key Hk E|p c i s h e s' E|c s h id s' E|c s h e s' E
    |id s h l s' E|id s h e s' E|id s h r s' E]; unfold dinv in *; simpl in *.
  - split; [by eapply etwinv_register|]. revert E. unfold register_provider. mrun.
    destruct (str_is_empty _); mrun; [by intros [= <- <-]|]. destruct (bool_decide _); mrun; [by intros [= <- <-]|].
    destruct (64 <=? _); mrun; [by intros [= <- <-]|]. destruct (_ <=? _); [|done]. intros [= <- <-].
    split; [by eapply wmiinv_same|by eapply subinv_same].
  - split; [by eapply etwinv_unregister|]. revert E. unfold unregister_provider, provider_guid. mrun.
    destruct (_ !! _); mrun; intros [= <- <-]; [|done]. split; [by eapply wmiinv_same|by eapply subinv_same].
  - unfold enable_provider, etw_provider in E. mrun. destruct (dg_etw s !! guid) eqn:Eg; mrun; [|by injection E as <- <-].
    split; [by eapply etwinv_set|]. injection E as <- <-. split; [by eapply wmiinv_same|by eapply subinv_same].
  - unfold disable_provider, etw_provider in E. mrun. destruct (dg_etw s !! guid) eqn:Eg; mrun; [|by injection E as <- <-].
    split; [by eapply etwinv_set|]. injection E as <- <-. split; [by eapply wmiinv_same|by eapply subinv_same].
  - split; [by eapply etwinv_write|]. revert E. rewrite write_event_run. repeat case_match; intros; simplify_eq; try done;
      (split; [by eapply wmiinv_same|by eapply subinv_same]).
  - split; [|split; [by eapply wmiinv_register|]]; revert E; unfold register_wmi_provider; mrun;
      (destruct (str_is_empty _); mrun; [by intros [= <- <-]|]); (destruct (bool_decide _); mrun; [by intros [= <- <-]|]);
      (destruct (_ <=? _); [|done]); intros [= <- <-]; [by eapply etwinv_same|by eapply subinv_same].
  - split; [|split; [by eapply wmiinv_define|]]; revert E; unfold define_wmi_class; mrun;
      (destruct (str_is_empty _); mrun; [by intros [= <- <-]|]); rewrite wmi_provider_run;
      (destruct (_ !! _); mrun; [|by intros [= <- <-]]); (destruct (_ !! _); mrun; [|by intros [= <- <-]]);
      (destruct (bool_decide _); mrun; [by intros [= <- <-]|]); intros [= <- <-]; [by eapply etwinv_same|by eapply subinv_same].
  - destruct (publish_kept _ _ _ _ _ _ _ _ Hw Hs Hk E) as (? & ? & _). split; [|done].
    revert E. rewrite publish_run, wmi_provider_run. repeat case_match; try done; simplify_eq.
    intros [= _ <-]. by eapply etwinv_same.
  - revert E. rewrite publish_run, wmi_provider_run. repeat case_match; try done; simplify_eq; intros; by simplify_eq.
  - split; [|split; [|by eapply subinv_subscribe]]; revert E; unfold subscribe_wmi; mrun;
      (destruct (negb _); mrun; [done|]); (destruct (_ <=? _); [|done]); intros [= <- <-];
      [by eapply etwinv_same|by eapply wmiinv_same].
  - revert E. unfold subscribe_wmi. mrun. destruct (negb _); mrun; [by intros [= <- <-]|]. by destruct (_ <=? _).
  - split; [|split; [|by eapply subinv_poll]]; revert E; unfold poll_wmi; mrun;
      (destruct (_ !! _); mrun; [|done]); intros [= <- <-]; [by eapply etwinv_same|by eapply wmiinv_same].
  - revert E. unfold poll_wmi. mrun. destruct (_ !! _); mrun; [done|]. by intros [= <- <-].
  - revert E. unfold cancel_wmi_subscription. mrun. destruct (_ !! _); mrun; intros [= <- <-]; [|done].
    split; [by eapply etwinv_same|]. split; [by eapply wmiinv_same|].
    intros i x. simpl. intros [_ Hi]%lookup_delete_Some. by apply Hs.
Qed.

Definition start : DiagnosticsManager * History := (new_diagnostics, no_history).

Lemma dinv_reachable w : rtc step start w → dinv w.
Proof.
  intros Hr. assert (dinv start) as Hi.
  { split; [|split].
    - constructor; simpl; try (intros; simplify_map_eq; done); try done.
    - constructor; simpl; try (intros; simplify_map_eq; done).
    - intros id w' Hw. simpl in Hw. by rewrite lookup_empty in Hw. }
  revert Hi. induction Hr as [|w1 w2 w3 H12 _ IH]; [done|]. intros Hi. by eapply IH, dinv_step.
Qed.

(** ** Theorems *)

(** After any sequence of calls the tables of ETW providers are inverse to each other
    and bounded by 64, and the callbacks that ran are as many as the counter says. *)
Theorem provider_tables_agree w :
  rtc step start w →
  (∀ guid, is_Some (dg_etw w.1 !! guid) ↔ ∃ id, dg_etw_ids w.1 !! id = Some guid) ∧
  (∀ i j guid, dg_etw_ids w.1 !! i = Some guid → dg_etw_ids w.1 !! j = Some guid → i = j) ∧
  provider_count w.1 ≤ 64 ∧ dg_events_written w.1 = Z.of_nat (length (dg_calls w.1)).
Proof.
  intros [[] _]%dinv_reachable. split_and!; try done. intros guid. split; [apply et_registered0|].
  intros [id Hid]. by eapply et_named0.
Qed.

(** An event is delivered, once and to the callback of its provider only, exactly when
    the payload is at most 64 KiB and the provider is registered, enabled, and enabled
    for the level and for one of the keywords of the event; in every other case
    nothing changes, and only the first two are errors. *)
Theorem event_delivery_decides guid d payload s :
  dg_events_written s < u64_max →
  write_event guid d payload s =
  if 65536 <? Z.of_nat (length payload) then Done (Err STATUS_INVALID_PARAMETER) s else
  match dg_etw s !! guid with
  | None => Done (Err STATUS_OBJECT_NAME_NOT_FOUND) s
  | Some p =>
      if ep_enabled p && (level_raw (ed_level d) <=? level_raw (ep_level p)) &&
         ((ed_keyword d =? 0) || negb (Z.land (ed_keyword d) (ep_keyword p) =? 0))
      then Done (Ok true) (dg_set_calls (dg_events_written s + 1)
             (dg_calls s ++ [(ep_callback p, {| er_provider := guid; er_descriptor := d; er_payload := payload |})]) s)
      else Done (Ok false) s
  end.
Proof.
  intros Hw. rewrite write_event_run. change (64 * 1024) with 65536. destruct (_ <? _); [done|].
  destruct (dg_etw s !! guid) as [p|]; [|done]. unfold passes. destruct (_ && _); [|done].
  by rewrite (proj2 (Z.leb_le _ _)) by lia.
Qed.

(** A WMI subscription receives exactly the instances of its class published since it
    was made, by any provider, each once and in order: what was polled from it, then
    what a poll would return now.  A class of a provider holds the instances
    published to it, in order. *)
Theorem wmi_delivery_exact s h :
  rtc step start (s, h) →
  (∀ id w, dg_subscriptions s !! id = Some w → ∃ n polled, h_since h !! id = Some n ∧
     h_polled h !! id = Some polled ∧ result_of (poll_wmi id s) = Some (Ok (ws_events w)) ∧
     polled ++ ws_events w = of_class (ws_class w) (drop n (h_log h))) ∧
  (∀ key p class c, dg_wmi s !! key = Some p → wp_classes p !! class = Some c →
     wc_name c = class ∧ wc_instances c = of_provider key class (h_log h)).
Proof.
  intros (_ & [] & Hs)%dinv_reachable. split; [|done]. intros id w Hw.
  destruct (Hs id w Hw) as (_ & n & polled & ? & _ & ? & ?). exists n, polled. split_and!; [done|done| |done].
  unfold poll_wmi. mrun. by rewrite Hw.
Qed.

(** ** A concrete run *)

Definition demo_inst : instance := ∅.
Definition demo_wmi : DiagnosticsManager := state_of (register_wmi_provider (lit "Base") new_diagnostics) new_diagnostics.
Definition demo_class : DiagnosticsManager := state_of (define_wmi_class 1 (lit "C") demo_wmi) demo_wmi.
Definition demo_sub : DiagnosticsManager := state_of (subscribe_wmi (lit "C") demo_class) demo_class.
Definition demo_pub : DiagnosticsManager := state_of (publish_wmi_instance 1 (lit "C") demo_inst demo_sub) demo_sub.
Definition demo_dg_history : History :=
  log_publish (lit "base") (lit "C") demo_inst (log_subscribe 1 no_history).

Lemma demo_dg_reachable : rtc step start (demo_pub, demo_dg_history).
Proof.
  eapply rtc_l; [apply (st_register_wmi (lit "Base") new_diagnostics no_history (Ok 1) demo_wmi); apply run_eq; by vm_compute|].
  eapply rtc_l; [apply (st_define 1 (lit "C") demo_wmi no_history (Ok tt) demo_class); apply run_eq; by vm_compute|].
  eapply rtc_l; [apply (st_subscribe (lit "C") demo_class no_history 1 demo_sub); apply run_eq; by vm_compute|].
  apply rtc_once, (st_publish 1 (lit "C") demo_inst demo_sub _ 1 demo_pub (lit "base")); [by vm_compute|].
  apply run_eq; by vm_compute.
Qed.

Lemma provider_tables_agree_witness :
  provider_count demo_pub ≤ 64 ∧ dg_events_written demo_pub = Z.of_nat (length (dg_calls demo_pub)).
Proof. apply (provider_tables_agree (demo_pub, demo_dg_history) demo_dg_reachable). Defined.

Lemma event_delivery_decides_witness :
  result_of (write_event [] {| ed_id := 1; ed_level := ElError; ed_keyword := 0 |} [7] new_diagnostics) =
    Some (Err STATUS_OBJECT_NAME_NOT_FOUND).
Proof.
  rewrite (event_delivery_decides [] {| ed_id := 1; ed_level := ElError; ed_keyword := 0 |} [7] new_diagnostics);
    [by vm_compute|by vm_compute].
Defined.

Lemma wmi_delivery_exact_witness :
  ∃ w n polled, dg_subscriptions demo_pub !! 1 = Some w ∧
    polled ++ ws_events w = of_class (ws_class w) (drop n (h_log demo_dg_history)) ∧ ws_events w = [demo_inst].
Proof.
  assert (∃ w, dg_subscriptions demo_pub !! 1 = Some w ∧ ws_events w = [demo_inst]) as (w & Hw & He)
    by (eexists; split; [by vm_compute|by vm_compute]).
  destruct (wmi_delivery_exact demo_pub demo_dg_history demo_dg_reachable) as [H _].
  destruct (H 1 w Hw) as (n & polled & _ & _ & _ & Heq).
  exists w, n, polled. split; [exact Hw|]. split; [exact Heq|exact He].
Defined.

End Dg.
