(* ===== verification/Win32Types.v ===== *)
(** * Types and constants of the Win32 handle layer

    The object types, the reason codes of [AppError] that the layer answers, the
    flags of [SetHandleInformation] and the access rights that it checks.  The text
    of an error is left out: an error is its [ReasonCode]. *)

From S2P Require Import Prelude.

(** [crate::runtime::object_manager::ObjectType] *)
Inductive Win32ObjectType : Type :=
| OtFile | OtEvent | OtIoCompletionPort | OtMutex | OtSemaphore | OtThread | OtProcess | OtSection
| OtKey | OtTimer | OtPipe | OtDirectorySearch | OtSocket | OtWindowStation.

#[export] Instance Win32ObjectType_eq_dec : EqDecision Win32ObjectType.
Proof. solve_decision. Defined.

Definition RcCliInvalid : Z := 1000.
Definition RcHelperPermissionDenied : Z := 1009.
Definition RcFsNotFound : Z := 1102.
Definition RcWin32InvalidHandle : Z := 1300.
Definition RcHandleStaleOrInvalid : Z := 1306.
Definition RcWin32NotOwner : Z := 1310.
Definition RcWin32AccessDenied : Z := 1307.

Definition INVALID_HANDLE_VALUE : Z := u32_max.
Definition HANDLE_FLAG_INHERIT : Z := 0x1.
Definition HANDLE_FLAG_PROTECT_FROM_CLOSE : Z := 0x2.

Definition SYNCHRONIZE : Z := 0x00100000.
Definition EVENT_MODIFY_STATE : Z := 0x2.
Definition MUTEX_MODIFY_STATE : Z := 0x1.
Definition SEMAPHORE_MODIFY_STATE : Z := 0x2.
Definition THREAD_TERMINATE : Z := 0x1.
Definition THREAD_SUSPEND_RESUME : Z := 0x2.
Definition THREAD_SET_INFORMATION : Z := 0x20.
Definition THREAD_QUERY_INFORMATION : Z := 0x40.
