(* ===== verification/Introspect.v ===== *)
(** * Kernel introspection: [casak/introspection.rs]

    The module is pure: a snapshot of plain values comes in, and the serializers
    lay it out as the structures of [NtQuerySystemInformation].  Each structure is
    a list of fields with the offsets of the source, copied into a zeroed buffer
    ([Bytes.puts]); a slice out of range, a field of the wrong length or a buffer
    beyond [isize::MAX] panics.  The field lists are definitions of their own
    ([handle_fields], [process_fields], ...), the loops are the source's. *)

From S2P Require Import Prelude Strings Status Bytes Exec Win32Types.

Definition STATUS_INFO_LENGTH_MISMATCH : Z := as_i32 0xC0000004.

(** [SYSTEM_INFORMATION_CLASS] numbers *)
Definition SYSTEM_PERFORMANCE_INFORMATION_CLASS : Z := 2.
Definition SYSTEM_PROCESS_INFORMATION_CLASS : Z := 5.
Definition SYSTEM_EXTENDED_PROCESS_INFORMATION_CLASS : Z := 57.
Definition SYSTEM_MODULE_INFORMATION_CLASS : Z := 11.
Definition SYSTEM_HANDLE_INFORMATION_CLASS : Z := 16.
Definition SYSTEM_PAGEFILE_INFORMATION_CLASS : Z := 18.
Definition SYSTEM_KERNEL_DEBUGGER_INFORMATION_CLASS : Z := 35.
Definition SYSTEM_LOOKASIDE_INFORMATION_CLASS : Z := 45.
Definition SYSTEM_RANGE_START_INFORMATION_CLASS : Z := 50.
Definition SYSTEM_EXTENDED_HANDLE_INFORMATION_CLASS : Z := 64.
Definition SYSTEM_BIGPOOL_INFORMATION_CLASS : Z := 66.
Definition SYSTEM_FIRMWARE_TABLE_INFORMATION_CLASS : Z := 76.
Definition SYSTEM_CODE_INTEGRITY_INFORMATION_CLASS : Z := 103.

(** Structure sizes *)
Definition SYSTEM_MODULE_ENTRY_SIZE : Z := 296.
Definition SYSTEM_HANDLE_TABLE_ENTRY_SIZE : Z := 24.
Definition SYSTEM_HANDLE_TABLE_ENTRY_EX_SIZE : Z := 40.
Definition SYSTEM_PROCESS_INFORMATION_FIXED_SIZE : Z := 0x100.
Definition SYSTEM_THREAD_INFORMATION_SIZE : Z := 0x50.
Definition SYSTEM_EXTENDED_THREAD_INFORMATION_SIZE : Z := 0x88.
Definition SYSTEM_PROCESS_INFORMATION_FIXED_SIZE_X86 : Z := 0xB8.
Definition SYSTEM_EXTENDED_THREAD_INFORMATION_SIZE_X86 : Z := 0x60.
Definition SYSTEM_PERFORMANCE_INFORMATION_SIZE : Z := 0x138.

(** ** The snapshot *)

Record KernelModule := {
  km_base : Z; km_size : Z; km_path : str; km_load_count : Z; km_entry_rva : Z; km_kernel_mode : bool }.

Record KernelThread := {
  kt_thread_id : Z; kt_create_time : Z; kt_user_time : Z; kt_kernel_time : Z;
  kt_start_address : Z; kt_win32_start_address : Z; kt_priority : Z; kt_base_priority : Z;
  kt_context_switches : Z; kt_state : Z; kt_wait_reason : Z; kt_wait_time : Z;
  kt_teb_base : Z; kt_stack_base : Z; kt_stack_limit : Z }.

Record KernelProcess := {
  kp_pid : Z; kp_parent_pid : Z; kp_image_name : str; kp_base_priority : Z;
  kp_handle_count : Z; kp_session_id : Z; kp_create_time : Z; kp_user_time : Z; kp_kernel_time : Z;
  kp_virtual_size : Z; kp_peak_virtual_size : Z; kp_working_set : Z; kp_peak_working_set : Z;
  kp_page_fault_count : Z; kp_threads : list KernelThread }.

Record KernelHandle := {
  kh_handle : Z; kh_object : Z; kh_process_id : Z; kh_access : Z; kh_object_type_index : Z;
  kh_pointer_count : Z; kh_handle_count : Z }.

Record KernelPoolTag := { kg_tag : PoolTag; kg_used_bytes : Z; kg_allocations : Z; kg_frees : Z }.

Record KernelLookaside := {
  kl_tag : PoolTag; kl_current_depth : Z; kl_maximum_depth : Z; kl_total_allocates : Z;
  kl_allocate_misses : Z; kl_total_frees : Z; kl_free_misses : Z; kl_size : Z }.

Record KernelSnapshot := {
  sn_processor_count : Z; sn_active_processor_mask : Z; sn_system_time : Z; sn_boot_time : Z;
  sn_range_start : Z; sn_modules : list KernelModule; sn_processes : list KernelProcess;
  sn_handles : list KernelHandle; sn_pool_tags : list KernelPoolTag; sn_pool_used_bytes : Z;
  sn_pool_budget_bytes : Z; sn_lookaside : list KernelLookaside; sn_debugger_present : bool;
  sn_debugger_enabled : bool; sn_code_integrity_options : Z; sn_firmware_provider : Z;
  sn_firmware_table_id : Z; sn_firmware_table : list Z; sn_page_file_path : str;
  sn_page_file_total_pages : Z; sn_page_file_in_use_pages : Z; sn_page_file_peak_pages : Z;
  sn_installed_memory_bytes : Z }.

Record SysInfoSerialized := { si_status : Z; si_required : Z; si_bytes : list Z }.

Definition sys_success (bytes : list Z) : SysInfoSerialized :=
  {| si_status := STATUS_SUCCESS; si_required := Z.of_nat (length bytes); si_bytes := bytes |}.
Definition sys_mismatch (required : Z) : SysInfoSerialized :=
  {| si_status := STATUS_INFO_LENGTH_MISMATCH; si_required := required; si_bytes := [] |}.
Definition sys_invalid_class : SysInfoSerialized :=
  {| si_status := STATUS_INVALID_INFO_CLASS; si_required := 0; si_bytes := [] |}.

(** [str::rsplit_once] of a set of characters *)
Fixpoint rsplit_any (f : Z → bool) (s : str) : option (str * str) :=
  match s with
  | [] => None
  | d :: s' =>
      match rsplit_any f s' with
      | Some (a, b) => Some (d :: a, b)
      | None => if f d then Some ([], s') else None
      end
  end.
Definition FORWARD_SLASH : Z := 47.
Definition is_separator (c : Z) : bool := (c =? BACKSLASH) || (c =? FORWARD_SLASH).

Definition file_name (m : KernelModule) : str :=
  let trimmed := trim_end_matches NUL (km_path m) in
  match rsplit_any is_separator trimmed with
  | Some (_, name) => if negb (str_is_empty name) then name else trimmed
  | None => trimmed
  end.

Definition system_range_start (is_x64 : bool) : Z :=
  if is_x64 then 0xFFFF800000000000 else 0x80000000.

(** ** Assembling the snapshot *)

(** [str::ends_with(&str)] *)
Definition str_ends_with (p s : str) : bool :=
  match strip_prefix (rev p) (rev s) with Some _ => true | None => false end.

Definition module_le (x y : KernelModule) : Prop := km_base x ≤ km_base y.
#[export] Instance module_le_dec x y : Decision (module_le x y).
Proof. unfold module_le. apply _. Defined.

(** A row of the DLL table: handle, size, name, load count, entry point. *)
Definition Dll : Type := Z * Z * str * Z * Z.

Definition dll_module (module_names : gmap Z str) (d : Dll) : KernelModule :=
  match d with
  | (handle, size, module_name, load_count, entry_rva) =>
      let path := default module_name (module_names !! handle) in
      {| km_base := handle; km_size := size; km_path := path; km_load_count := load_count;
         km_entry_rva := entry_rva;
         km_kernel_mode := str_ends_with (lit ".sys") (to_ascii_lowercase path) |}
  end.
Definition dll_handle (d : Dll) : Z := d.1.1.1.1.

Fixpoint push_dlls (mapped_base : Z) (module_names : gmap Z str) (dlls : list Dll)
    (modules : list KernelModule) : list KernelModule :=
  match dlls with
  | [] => modules
  | d :: dlls =>
      if dll_handle d =? mapped_base then push_dlls mapped_base module_names dlls modules
      else push_dlls mapped_base module_names dlls (modules ++ [dll_module module_names d])
  end.

Definition assemble_modules (mapped_base mapped_size : Z) (main_path main_name : str)
    (dlls : list Dll) (module_names : gmap Z str) : list KernelModule :=
  let modules :=
    if negb (mapped_base =? 0) then
      [{| km_base := mapped_base; km_size := mapped_size;
          km_path := if str_is_empty main_path then main_name else main_path;
          km_load_count := 1; km_entry_rva := 0; km_kernel_mode := false |}]
    else [] in
  merge_sort module_le (push_dlls mapped_base module_names dlls modules).

Definition thread_le (x y : KernelThread) : Prop := kt_thread_id x ≤ kt_thread_id y.
#[export] Instance thread_le_dec x y : Decision (thread_le x y).
Proof. unfold thread_le. apply _. Defined.

(** [times]: creation, exit, kernel and user time, as [u64]; [x as i64]. *)
Definition Times : Type := Z * Z * Z * Z.
Definition as_i64 (x : Z) : Z := as_signed 8 x.
Definition create_of (t : Times) : Z := as_i64 t.1.1.1.
Definition kernel_of (t : Times) : Z := as_i64 t.1.2.
Definition user_of (t : Times) : Z := as_i64 t.2.

Definition guest_thread (times : Times) (id start suspended teb base limit : Z) : KernelThread :=
  {| kt_thread_id := id; kt_create_time := create_of times; kt_user_time := user_of times;
     kt_kernel_time := kernel_of times; kt_start_address := start; kt_win32_start_address := start;
     kt_priority := 8; kt_base_priority := 8; kt_context_switches := 0; kt_state := 5;
     kt_wait_reason := if 0 <? suspended then 6 else 0; kt_wait_time := 0; kt_teb_base := teb;
     kt_stack_base := base; kt_stack_limit := limit |}.

(** A row of the scheduler: id, start address, suspend count, TEB, stack bounds. *)
Definition PendingThread : Type := Z * Z * Z * Z * Z * Z.
Definition pending_thread (times : Times) (p : PendingThread) : KernelThread :=
  match p with
  | (id, start, suspended, teb, base, limit) => guest_thread times id start suspended teb base limit
  end.

Definition assemble_threads (main main_stack : Z * Z) (pending : list PendingThread)
    (times : Times) : list KernelThread :=
  merge_sort thread_le
    (guest_thread times main.1 0 0 main.2 main_stack.1 main_stack.2 :: map (pending_thread times) pending).

Definition process_le (x y : KernelProcess) : Prop := kp_pid x ≤ kp_pid y.
#[export] Instance process_le_dec x y : Decision (process_le x y).
Proof. unfold process_le. apply _. Defined.

Definition guest_process (guest_pid handle_count : Z) (threads : list KernelThread) (times : Times)
    (committed : Z) (row : Z * str) : KernelProcess :=
  let is_self := row.1 =? guest_pid in
  {| kp_pid := row.1; kp_parent_pid := 0; kp_image_name := row.2; kp_base_priority := 8;
     kp_handle_count := if is_self then handle_count else 0; kp_session_id := 1;
     kp_create_time := create_of times; kp_user_time := user_of times; kp_kernel_time := kernel_of times;
     kp_virtual_size := committed; kp_peak_virtual_size := committed; kp_working_set := committed;
     kp_peak_working_set := committed; kp_page_fault_count := 0;
     kp_threads := if is_self then threads else [] |}.

Definition assemble_processes (guest_pid host_pid handle_count : Z) (threads : list KernelThread)
    (toolhelp : list (Z * str)) (times : Times) (committed : Z) : list KernelProcess :=
  merge_sort process_le
    (map (guest_process guest_pid handle_count threads times committed)
       (filter (λ row, row.1 ≠ host_pid) toolhelp)).

(** ** Serializers *)

Definition module_fields (index : Z) (m : KernelModule) : list field :=
  let name := file_name m in
  let name_offset := saturating_sub (str_len (km_path m)) (str_len name) in
  let path := as_bytes (km_path m) in
  let copy := Z.min (Z.of_nat (length path)) 255 in
  [(16, 24, u64_le (km_base m));
   (24, 28, u32_le (km_size m));
   (28, 32, u32_le 0);
   (32, 34, u16_le (as_u16 index));
   (34, 36, u16_le 0);
   (36, 38, u16_le (km_load_count m));
   (38, 40, u16_le (as_u16 (40 + name_offset)));
   (40, 40 + copy, take (Z.to_nat copy) path);
   (40 + copy, 40 + copy + 1, [0])].

(** [for (index, x) in rows.iter().enumerate()]: each row's fields at
    [header + index * entry_size]. *)
Fixpoint put_rows {A} (header entry_size index : Z) (fields : Z → A → list field) (rows : list A)
    : M (list Z) unit :=
  match rows with
  | [] => ret tt
  | x :: rows =>
      puts (header + index * entry_size) (fields index x) ;;;
      put_rows header entry_size (index + 1) fields rows
  end.

Definition count_of {A} (rows : list A) : Z := Z.of_nat (length rows).

Definition serialize_module_information {S} (modules : list KernelModule) : M S (list Z) :=
  build (
    resize_zeros (8 + SYSTEM_MODULE_ENTRY_SIZE * count_of modules) ;;;
    puts 0 [(0, 4, u32_le (as_u32 (count_of modules)))] ;;;
    put_rows 8 SYSTEM_MODULE_ENTRY_SIZE 0 module_fields modules).

Definition handle_fields (_ : Z) (h : KernelHandle) : list field :=
  [(0, 2, u16_le (as_u16 (kh_process_id h)));
   (2, 4, u16_le 0);
   (4, 5, [kh_object_type_index h]);
   (5, 6, [0]);
   (6, 8, u16_le (as_u16 (kh_handle h)));
   (8, 16, u64_le (kh_object h));
   (16, 20, u32_le (kh_access h))].

Definition serialize_handle_information {S} (handles : list KernelHandle) : M S (list Z) :=
  build (
    resize_zeros (8 + SYSTEM_HANDLE_TABLE_ENTRY_SIZE * count_of handles) ;;;
    puts 0 [(0, 4, u32_le (as_u32 (count_of handles)))] ;;;
    put_rows 8 SYSTEM_HANDLE_TABLE_ENTRY_SIZE 0 handle_fields handles).

Definition extended_handle_fields (_ : Z) (h : KernelHandle) : list field :=
  [(0, 8, u64_le (kh_object h));
   (8, 16, u64_le (kh_process_id h));
   (16, 24, u64_le (kh_handle h));
   (24, 28, u32_le (kh_access h));
   (28, 30, u16_le 0);
   (30, 32, u16_le (kh_object_type_index h));
   (32, 36, u32_le 0);
   (36, 40, u32_le (kh_handle_count h))].

Definition serialize_extended_handle_information {S} (handles : list KernelHandle) : M S (list Z) :=
  build (
    resize_zeros (16 + SYSTEM_HANDLE_TABLE_ENTRY_EX_SIZE * count_of handles) ;;;
    puts 0 [(0, 8, u64_le (count_of handles))] ;;;
    put_rows 16 SYSTEM_HANDLE_TABLE_ENTRY_EX_SIZE 0 extended_handle_fields handles).

(** *** Process lists *)

Definition align8 (value : Z) : Z := Z.land (value + 7) (not_u64 7).

(** The UTF-16LE bytes of a name. *)
Definition utf16_bytes (s : str) : list Z := flat_map u16_le (encode_utf16 s).

Definition process_fields (p : KernelProcess) (next name_len buffer_ptr : Z) : list field :=
  [(0, 4, u32_le next);
   (4, 8, u32_le (as_u32 (count_of (kp_threads p))));
   (0x20, 0x28, u64_le (kp_create_time p));
   (0x28, 0x30, u64_le (kp_user_time p));
   (0x30, 0x38, u64_le (kp_kernel_time p));
   (0x38, 0x3A, u16_le (as_u16 name_len));
   (0x3A, 0x3C, u16_le (as_u16 name_len));
   (0x40, 0x48, u64_le buffer_ptr);
   (0x48, 0x4C, u32_le (kp_base_priority p));
   (0x50, 0x58, u64_le (kp_pid p));
   (0x58, 0x60, u64_le (kp_parent_pid p));
   (0x60, 0x64, u32_le (kp_handle_count p));
   (0x64, 0x68, u32_le (kp_session_id p));
   (0x70, 0x78, u64_le (kp_peak_virtual_size p));
   (0x78, 0x80, u64_le (kp_virtual_size p));
   (0x80, 0x84, u32_le (kp_page_fault_count p));
   (0x88, 0x90, u64_le (kp_peak_working_set p));
   (0x90, 0x98, u64_le (kp_working_set p))].

Definition thread_fields (p : KernelProcess) (t : KernelThread) : list field :=
  [(0, 8, u64_le (kt_kernel_time t));
   (8, 16, u64_le (kt_user_time t));
   (16, 24, u64_le (kt_create_time t));
   (24, 28, u32_le (kt_wait_time t));
   (32, 40, u64_le (kt_start_address t));
   (40, 48, u64_le (kp_pid p));
   (48, 56, u64_le (kt_thread_id t));
   (56, 60, u32_le (kt_priority t));
   (60, 64, u32_le (kt_base_priority t));
   (64, 68, u32_le (kt_context_switches t));
   (68, 72, u32_le (kt_state t));
   (72, 76, u32_le (kt_wait_reason t))].

Definition extended_thread_fields (p : KernelProcess) (t : KernelThread) : list field :=
  thread_fields p t ++
  [(0x50, 0x58, u64_le (kt_stack_base t));
   (0x58, 0x60, u64_le (kt_stack_limit t));
   (0x60, 0x68, u64_le (kt_win32_start_address t));
   (0x68, 0x70, u64_le (kt_teb_base t))].

Definition process_fields_x86 (p : KernelProcess) (next name_len buffer_ptr : Z) : list field :=
  [(0, 4, u32_le next);
   (4, 8, u32_le (as_u32 (count_of (kp_threads p))));
   (0x20, 0x28, u64_le (kp_create_time p));
   (0x28, 0x30, u64_le (kp_user_time p));
   (0x30, 0x38, u64_le (kp_kernel_time p));
   (0x38, 0x3A, u16_le (as_u16 name_len));
   (0x3A, 0x3C, u16_le (as_u16 name_len));
   (0x3C, 0x40, u32_le (as_u32 buffer_ptr));
   (0x40, 0x44, u32_le (kp_base_priority p));
   (0x44, 0x48, u32_le (kp_pid p));
   (0x48, 0x4C, u32_le (kp_parent_pid p));
   (0x4C, 0x50, u32_le (kp_handle_count p));
   (0x50, 0x54, u32_le (kp_session_id p));
   (0x58, 0x5C, u32_le (as_u32 (Z.min (kp_peak_virtual_size p) u32_max)));
   (0x5C, 0x60, u32_le (as_u32 (Z.min (kp_virtual_size p) u32_max)));
   (0x60, 0x64, u32_le (kp_page_fault_count p));
   (0x64, 0x68, u32_le (as_u32 (Z.min (kp_peak_working_set p) u32_max)));
   (0x68, 0x6C, u32_le (as_u32 (Z.min (kp_working_set p) u32_max)))].

Definition extended_thread_fields_x86 (p : KernelProcess) (t : KernelThread) : list field :=
  [(0, 8, u64_le (kt_kernel_time t));
   (8, 16, u64_le (kt_user_time t));
   (16, 24, u64_le (kt_create_time t));
   (24, 28, u32_le (kt_wait_time t));
   (28, 32, u32_le (as_u32 (kt_start_address t)));
   (32, 36, u32_le (kp_pid p));
   (36, 40, u32_le (kt_thread_id t));
   (40, 44, u32_le (kt_priority t));
   (44, 48, u32_le (kt_base_priority t));
   (48, 52, u32_le (kt_context_switches t));
   (52, 56, u32_le (kt_state t));
   (56, 60, u32_le (kt_wait_reason t));
   (0x40, 0x44, u32_le (as_u32 (kt_stack_base t)));
   (0x44, 0x48, u32_le (as_u32 (kt_stack_limit t)));
   (0x48, 0x4C, u32_le (as_u32 (kt_win32_start_address t)));
   (0x4C, 0x50, u32_le (as_u32 (kt_teb_base t)))].

(** The three process lists share their loop; they differ in the sizes and in
    the fields of a process and of a thread. *)
Record ProcessLayout := {
  pl_fixed : Z;
  pl_thread_size : Z;
  pl_process_fields : KernelProcess → Z → Z → Z → list field;
  pl_thread_fields : KernelProcess → KernelThread → list field }.

Definition layout_x64 : ProcessLayout :=
  {| pl_fixed := SYSTEM_PROCESS_INFORMATION_FIXED_SIZE;
     pl_thread_size := SYSTEM_THREAD_INFORMATION_SIZE;
     pl_process_fields := process_fields;
     pl_thread_fields := thread_fields |}.
Definition layout_extended : ProcessLayout :=
  {| pl_fixed := SYSTEM_PROCESS_INFORMATION_FIXED_SIZE;
     pl_thread_size := SYSTEM_EXTENDED_THREAD_INFORMATION_SIZE;
     pl_process_fields := process_fields;
     pl_thread_fields := extended_thread_fields |}.
Definition layout_extended_x86 : ProcessLayout :=
  {| pl_fixed := SYSTEM_PROCESS_INFORMATION_FIXED_SIZE_X86;
     pl_thread_size := SYSTEM_EXTENDED_THREAD_INFORMATION_SIZE_X86;
     pl_process_fields := process_fields_x86;
     pl_thread_fields := extended_thread_fields_x86 |}.

(** [name_offset] and [entry_size] of a process. *)
Definition name_offset (L : ProcessLayout) (p : KernelProcess) : Z :=
  pl_fixed L + pl_thread_size L * count_of (kp_threads p).
Definition entry_size (L : ProcessLayout) (p : KernelProcess) : Z :=
  name_offset L p + Z.of_nat (length (utf16_bytes (kp_image_name p))).

(** One turn of the loop: [is_last] is [index + 1 < count] negated. *)
Definition put_process (L : ProcessLayout) (buffer_address : Z) (is_last : bool) (p : KernelProcess)
    : M (list Z) unit :=
  entry_start <- gets (λ bytes, Z.of_nat (length bytes)) ;;
  let name := utf16_bytes (kp_image_name p) in
  resize_zeros (entry_start + entry_size L p) ;;;
  let next := if is_last then 0 else as_u32 (align8 (entry_size L p)) in
  let buffer_ptr := (buffer_address + entry_start + name_offset L p) mod 2 ^ 64 in
  puts entry_start (pl_process_fields L p next (Z.of_nat (length name)) buffer_ptr) ;;;
  put_rows (entry_start + pl_fixed L) (pl_thread_size L) 0 (λ _, pl_thread_fields L p) (kp_threads p) ;;;
  puts entry_start [(name_offset L p, entry_size L p, name)].

Fixpoint put_processes (L : ProcessLayout) (buffer_address : Z) (ps : list KernelProcess)
    : M (list Z) unit :=
  match ps with
  | [] => ret tt
  | p :: ps =>
      put_process L buffer_address (match ps with [] => true | _ => false end) p ;;;
      put_processes L buffer_address ps
  end.

Definition unbacked (ps : list KernelProcess) : bool :=
  existsb (λ p, existsb (λ t, (kt_stack_base t =? 0) || (kt_stack_limit t =? 0) || (kt_teb_base t =? 0))
                  (kp_threads p)) ps.

Definition serialize_process_information {S} (ps : list KernelProcess) (buffer_address : Z)
    : M S (list Z) := build (put_processes layout_x64 buffer_address ps).

Definition serialize_extended_process_information {S} (ps : list KernelProcess) (buffer_address : Z)
    : M S (option (list Z)) :=
  if unbacked ps then ret None
  else bytes <- build (put_processes layout_extended buffer_address ps) ;; ret (Some bytes).

Definition serialize_extended_process_information_x86 {S} (ps : list KernelProcess) (buffer_address : Z)
    : M S (option (list Z)) :=
  if unbacked ps then ret None
  else bytes <- build (put_processes layout_extended_x86 buffer_address ps) ;; ret (Some bytes).

(** *** The small structures *)

Definition serialize_pagefile_information {S} (page_file_path : str) (total in_use peak : Z)
    : M S (list Z) :=
  let name := utf16_bytes page_file_path in
  let len := Z.of_nat (length name) in
  build (
    resize_zeros (18 + len) ;;;
    puts 0 [(0, 4, u32_le 0); (4, 8, u32_le total); (8, 12, u32_le in_use); (12, 16, u32_le peak);
            (16, 18, u16_le (as_u16 len)); (18, 18 + len, name)]).

Definition serialize_kernel_debugger_information {S} (enabled not_present : bool) : M S (list Z) :=
  ret [Z.b2z enabled; Z.b2z not_present].

Definition serialize_code_integrity_information {S} (options : Z) : M S (list Z) :=
  build (resize_zeros 8 ;;; puts 0 [(0, 4, u32_le 8); (4, 8, u32_le options)]).

Definition serialize_range_start_information {S} (range_start : Z) : M S (list Z) :=
  ret (u64_le range_start).

Definition tag_bytes (t : PoolTag) : list Z :=
  match t with (a, b, c, d) => [a; b; c; d] end.

Definition lookaside_fields (row : KernelLookaside) : list field :=
  [(0, 4, u32_le (kl_current_depth row));
   (4, 8, u32_le (kl_maximum_depth row));
   (8, 12, u32_le (kl_total_allocates row));
   (12, 16, u32_le (kl_allocate_misses row));
   (16, 20, u32_le (kl_total_frees row));
   (20, 24, u32_le (kl_free_misses row));
   (28, 32, tag_bytes (kl_tag row));
   (32, 36, u32_le (kl_size row))].

Definition serialize_lookaside_information {S} (lookaside : option KernelLookaside) : M S (list Z) :=
  build (
    resize_zeros 40 ;;;
    match lookaside with Some row => puts 0 (lookaside_fields row) | None => ret tt end).

Definition bigpool_fields (_ : Z) (row : KernelPoolTag) : list field :=
  [(16, 24, u64_le (kg_used_bytes row));
   (24, 32, tag_bytes (kg_tag row) ++ [0; 0; 0; 0])].

Definition serialize_bigpool_information {S} (tags : list KernelPoolTag) : M S (list Z) :=
  build (
    resize_zeros (8 + 32 * count_of tags) ;;;
    puts 0 [(0, 4, u32_le (as_u32 (count_of tags)))] ;;;
    put_rows 8 32 0 bigpool_fields tags).

Definition serialize_firmware_table_information {S} (provider table_id : Z) (table : list Z)
    : M S (list Z) :=
  let len := Z.of_nat (length table) in
  build (
    resize_zeros (12 + len) ;;;
    puts 0 [(0, 4, u32_le provider); (4, 8, u32_le table_id); (8, 12, u32_le (as_u32 len));
            (12, 12 + len, table)]).

(** [iter().sum::<u64>()], which panics when it overflows. *)
Fixpoint sum_u64 {S} (l : list Z) (acc : Z) : M S Z :=
  match l with
  | [] => ret acc
  | x :: l => acc <- add_at u64_max acc x ;; sum_u64 l acc
  end.

(** [(bytes / page_size).min(u32::MAX as u64) as u32] *)
Definition pages (bytes : Z) : Z := as_u32 (Z.min (bytes / 4096) u32_max).
Definition div_ceil (a b : Z) : Z := if a mod b =? 0 then a / b else a / b + 1.

Definition serialize_performance_information {S} (snapshot : KernelSnapshot) : M S (list Z) :=
  let available_pages := pages (sn_installed_memory_bytes snapshot) in
  let committed_pages := pages (sn_pool_used_bytes snapshot) in
  let commit_limit := pages (sn_pool_budget_bytes snapshot) in
  let paged_pages := as_u32 (Z.min (div_ceil (sn_pool_used_bytes snapshot) 4096) u32_max) in
  build (
    resize_zeros SYSTEM_PERFORMANCE_INFORMATION_SIZE ;;;
    puts 0 [(0x2C, 0x30, u32_le available_pages);
            (0x30, 0x34, u32_le committed_pages);
            (0x34, 0x38, u32_le commit_limit);
            (0x38, 0x3C, u32_le committed_pages);
            (0x70, 0x74, u32_le paged_pages)] ;;;
    allocations <- sum_u64 (map kg_allocations (sn_pool_tags snapshot)) 0 ;;
    puts 0 [(0x78, 0x7C, u32_le (as_u32 allocations))] ;;;
    frees <- sum_u64 (map kg_frees (sn_pool_tags snapshot)) 0 ;;
    puts 0 [(0x7C, 0x80, u32_le (as_u32 frees))]).

(** ** The dispatcher *)

(** What the match on the class leaves: bytes, or one of the two early returns. *)
Inductive ClassAnswer := CaBytes (bytes : list Z) | CaUnsupported | CaInvalid.

Definition serialize_class (class : Z) (snapshot : KernelSnapshot) (buffer_address : Z)
    : M unit ClassAnswer :=
  let answer c := bytes <- c ;; ret (CaBytes bytes) in
  if class =? SYSTEM_MODULE_INFORMATION_CLASS then
    answer (serialize_module_information (sn_modules snapshot))
  else if class =? SYSTEM_HANDLE_INFORMATION_CLASS then
    answer (serialize_handle_information (sn_handles snapshot))
  else if class =? SYSTEM_EXTENDED_HANDLE_INFORMATION_CLASS then
    answer (serialize_extended_handle_information (sn_handles snapshot))
  else if class =? SYSTEM_PROCESS_INFORMATION_CLASS then
    answer (serialize_process_information (sn_processes snapshot) buffer_address)
  else if class =? SYSTEM_EXTENDED_PROCESS_INFORMATION_CLASS then
    o <- serialize_extended_process_information (sn_processes snapshot) buffer_address ;;
    ret (match o with Some bytes => CaBytes bytes | None => CaUnsupported end)
  else if class =? SYSTEM_PAGEFILE_INFORMATION_CLASS then
    answer (serialize_pagefile_information (sn_page_file_path snapshot)
      (sn_page_file_total_pages snapshot) (sn_page_file_in_use_pages snapshot)
      (sn_page_file_peak_pages snapshot))
  else if class =? SYSTEM_KERNEL_DEBUGGER_INFORMATION_CLASS then
    answer (serialize_kernel_debugger_information (sn_debugger_enabled snapshot)
      (negb (sn_debugger_present snapshot)))
  else if class =? SYSTEM_CODE_INTEGRITY_INFORMATION_CLASS then
    answer (serialize_code_integrity_information (sn_code_integrity_options snapshot))
  else if class =? SYSTEM_RANGE_START_INFORMATION_CLASS then
    answer (serialize_range_start_information (sn_range_start snapshot))
  else if class =? SYSTEM_LOOKASIDE_INFORMATION_CLASS then
    answer (serialize_lookaside_information (head (sn_lookaside snapshot)))
  else if class =? SYSTEM_BIGPOOL_INFORMATION_CLASS then
    answer (serialize_bigpool_information (sn_pool_tags snapshot))
  else if class =? SYSTEM_FIRMWARE_TABLE_INFORMATION_CLASS then
    answer (serialize_firmware_table_information (sn_firmware_provider snapshot)
      (sn_firmware_table_id snapshot) (sn_firmware_table snapshot))
  else if class =? SYSTEM_PERFORMANCE_INFORMATION_CLASS then
    answer (serialize_performance_information snapshot)
  else ret CaInvalid.

Definition serialize_system_information (class : Z) (snapshot : KernelSnapshot)
    (length buffer_address : Z) : M unit SysInfoSerialized :=
  a <- serialize_class class snapshot buffer_address ;;
  match a with
  | CaInvalid => ret sys_invalid_class
  | CaUnsupported => ret {| si_status := STATUS_NOT_SUPPORTED; si_required := 0; si_bytes := [] |}
  | CaBytes bytes =>
      if length <? Z.of_nat (List.length bytes) then ret (sys_mismatch (Z.of_nat (List.length bytes)))
      else ret (sys_success bytes)
  end.

Definition object_type_index (t : Win32ObjectType) : Z :=
  match t with
  | OtProcess => 7 | OtThread => 8 | OtEvent => 2 | OtMutex => 1 | OtSemaphore => 0
  | OtSection => 4 | OtKey => 5 | OtFile | OtPipe | OtDirectorySearch | OtSocket => 3
  | OtTimer => 6 | OtIoCompletionPort => 9 | OtWindowStation => 10
  end.
