(* ===== verification/IntrospectFacts.v ===== *)
(** * Kernel introspection: what the buffers hold

    A reader of the structures is given by the offsets of the Windows layouts:
    [read_fields] and [parse_table] read a table of fixed-size rows, [chain] and
    [parse_processes] follow [NextEntryOffset] through a process list, [c_string]
    reads a path.  The lemmas say that the serializers return, what they leave,
    and that the readers find it. *)

From stdpp Require Import list_numbers.
From S2P Require Import Prelude Strings Status Bytes Exec Introspect.

Module Is.

(** ** Rows *)

Fixpoint render_rows {A} (size index : Z) (fields : Z → A → list field) (rows : list A) : list Z :=
  match rows with
  | [] => []
  | x :: rows => render 0 size (fields index x) ++ render_rows size (index + 1) fields rows
  end.

Section rows.
Context {A : Type} (size : Z) (fields : Z → A → list field) (rows : list A).
Hypothesis fits : ∀ i x, x ∈ rows → layout 0 size (fields i x).

Lemma length_render_rows index :
  Z.of_nat (length (render_rows size index fields rows)) = size * count_of rows.
Proof using fits.
  unfold count_of. revert index fits. induction rows as [|x l IH]; intros index Hf; simpl; [lia|].
  rewrite length_app, Nat2Z.inj_add, IH, length_render by (intros; apply Hf; set_solver). lia.
Qed.

Lemma put_rows_render header index pre post :
  Z.of_nat (length pre) = header + index * size → 0 ≤ size →
  put_rows header size index fields rows (pre ++ zero_bytes (size * count_of rows) ++ post)
  = Done (Ok tt) (pre ++ render_rows size index fields rows ++ post).
Proof using fits.
  unfold count_of. revert pre index fits. induction rows as [|x l IH]; intros pre index Hf Hp Hs.
  { simpl. by rewrite Z.mul_0_r. }
  cbn [put_rows length render_rows bind].
  replace (size * Z.of_nat (S (length l))) with ((size - 0) + size * Z.of_nat (length l)) by lia.
  rewrite zero_bytes_add, <-app_assoc by lia.
  rewrite (puts_render (header + index * size)) by (try apply Hf; set_solver + Hp || lia).
  cbn. rewrite app_assoc, IH.
  - by rewrite <-!app_assoc.
  - intros; apply Hf; set_solver.
  - rewrite length_app, Nat2Z.inj_add, length_render by (apply Hf; set_solver). lia.
  - done.
Qed.

(** Row [i] of a table, with what is before and after it. *)
Lemma render_rows_split (i : nat) x index :
  rows !! i = Some x → ∃ l r, render_rows size index fields rows
    = l ++ render 0 size (fields (index + Z.of_nat i) x) ++ r ∧ Z.of_nat (length l) = Z.of_nat i * size.
Proof using fits.
  revert i index fits. induction rows as [|y l IH]; intros [|i] index Hf Hi; simplify_eq/=.
  - eexists [], _. rewrite Z.add_0_r. split; [done|simpl; lia].
  - destruct (IH i (index + 1)) as (p & q & -> & Hl); [intros; apply Hf; set_solver|done|].
    exists (render 0 size (fields index y) ++ p), q. split.
    + rewrite <-app_assoc. do 5 f_equal. lia.
    + rewrite length_app, Nat2Z.inj_add, length_render, Hl by (apply Hf; set_solver). lia.
Qed.
End rows.

(** A table: a header and rows. *)
Section table.
Context {A S : Type} (header size : Z) (head_fields : list field) (fields : Z → A → list field).
Context (rows : list A) (s : S).
Hypothesis head_fits : layout 0 header head_fields.
Hypothesis fits : ∀ i x, x ∈ rows → layout 0 size (fields i x).
Hypothesis size_pos : 0 ≤ size.
Hypothesis room : header + size * count_of rows ≤ isize_max.

Definition table_bytes : list Z := render 0 header head_fields ++ render_rows size 0 fields rows.

Lemma table_run :
  build (resize_zeros (header + size * count_of rows) ;;; puts 0 head_fields ;;;
         put_rows header size 0 fields rows) s = Done (Ok table_bytes) s.
Proof using head_fits fits size_pos room.
  pose proof (layout_le _ _ _ head_fits) as Hh.
  assert (0 ≤ size * count_of rows) as Hn by (unfold count_of; nia).
  unfold build, resize_zeros. cbn [bind]. rewrite (proj2 (Z.leb_le _ _)) by lia.
  cbn [app length]. rewrite Nat.sub_0_r. change (replicate _ 0) with (zero_bytes (header + size * count_of rows)).
  rewrite zero_bytes_add by lia.
  pose proof (puts_render 0 [] 0 header head_fields (zero_bytes (size * count_of rows)) head_fits) as Hp.
  rewrite Z.sub_0_r in Hp. simpl in Hp |- *. rewrite Hp by done.
  pose proof (put_rows_render size fields rows fits header 0 (render 0 header head_fields) []) as Hr.
  rewrite !app_nil_r in Hr. rewrite Hr; [done| |done].
  rewrite length_render by done. lia.
Qed.

Lemma length_table : Z.of_nat (length table_bytes) = header + size * count_of rows.
Proof using head_fits fits.
  unfold table_bytes. rewrite length_app, Nat2Z.inj_add, length_render, length_render_rows by done. lia.
Qed.

Lemma read_header a n x :
  (a, a + n, to_le_bytes n x) ∈ head_fields → 0 ≤ n → read_le n a table_bytes = Some (x mod 2 ^ (8 * n)).
Proof using head_fits.
  intros Hin Hn. pose proof (read_render header head_fields a n x head_fits Hin Hn) as Hr.
  apply (read_part [] _ (render_rows size 0 fields rows)) in Hr. exact Hr.
Qed.

Lemma slice_row (i : nat) x a b d :
  rows !! i = Some x → (a, b, d) ∈ fields (Z.of_nat i) x →
  slice (header + Z.of_nat i * size + a) (b - a) table_bytes = Some d.
Proof using head_fits fits.
  intros Hi Hin. pose proof (list_elem_of_lookup_2 _ _ _ Hi) as Hx.
  pose proof (slice_render 0 size _ a b d (fits (Z.of_nat i) x Hx) Hin) as Hr.
  rewrite Z.sub_0_r in Hr.
  destruct (render_rows_split size fields rows fits i x 0 Hi) as (l & r & Hs & Hl).
  unfold table_bytes. rewrite Hs, app_assoc. rewrite Z.add_0_l.
  eapply slice_part in Hr. rewrite <-Hr. f_equal.
  rewrite length_app, Nat2Z.inj_add, length_render by done. lia.
Qed.

Lemma read_row (i : nat) x a n v :
  rows !! i = Some x → (a, a + n, to_le_bytes n v) ∈ fields (Z.of_nat i) x → 0 ≤ n →
  read_le n (header + Z.of_nat i * size + a) table_bytes = Some (v mod 2 ^ (8 * n)).
Proof using head_fits fits.
  intros Hi Hin Hn. unfold read_le. pose proof (slice_row i x _ _ _ Hi Hin) as Hs.
  replace (a + n - a) with n in Hs by lia. rewrite Hs. simpl. by rewrite from_to_le_bytes.
Qed.
End table.

(** ** Readers *)

(** The integers at the given offsets and widths from [base]. *)
Definition read_fields (spec : list (Z * Z)) (base : Z) (bytes : list Z) : option (list Z) :=
  mapM (λ f, read_le f.2 (base + f.1) bytes) spec.

(** A table of [count] rows. *)
Definition parse_table (spec : list (Z * Z)) (header size count : Z) (bytes : list Z)
    : option (list (list Z)) :=
  mapM (λ i, read_fields spec (header + i * size) bytes) (seqZ 0 count).

(** [holds fs f v]: among the fields [fs], the one at [f] is an integer that
    reads as [v]. *)
Definition holds (fs : list field) (f : Z * Z) (v : Z) : Prop :=
  ∃ x, (f.1, f.1 + f.2, to_le_bytes f.2 x) ∈ fs ∧ v = x mod 2 ^ (8 * f.2) ∧ 0 ≤ f.2.

Ltac find_field := first [eapply list_elem_of_here | eapply list_elem_of_further; find_field].
(** Matches a reader's offsets with the fields of a structure. *)
Ltac match_fields :=
  repeat first [apply Forall2_nil_2 | apply Forall2_cons_2];
  (eexists; split_and!; [find_field|reflexivity|done]).
(** The fields of a structure follow one another. *)
Ltac solve_layout :=
  cbv [u8_le u16_le u32_le u64_le]; cbn [layout app];
  rewrite ?length_to_le_bytes by lia; split_and!; cbn [length]; lia.

Lemma read_fields_part spec fs hi vs pre post :
  layout 0 hi fs → Forall2 (holds fs) spec vs →
  read_fields spec (Z.of_nat (length pre)) (pre ++ render 0 hi fs ++ post) = Some vs.
Proof.
  intros Hl Hv. apply mapM_Some_2. eapply Forall2_impl; [exact Hv|]. intros [a n] v (x & Hin & -> & Hn).
  apply read_part. by apply read_render.
Qed.

(** A table is read as the views of its rows. *)
Lemma parse_table_part {A} spec size (fields : Z → A → list field) (view : A → list Z) rows pre post :
  (∀ i x, x ∈ rows → layout 0 size (fields i x)) →
  (∀ i x, x ∈ rows → Forall2 (holds (fields i x)) spec (view x)) →
  parse_table spec (Z.of_nat (length pre)) size (count_of rows)
    (pre ++ render_rows size 0 fields rows ++ post) = Some (map view rows).
Proof.
  intros Hf Hv. apply mapM_Some_2. unfold count_of. apply Forall2_same_length_lookup. split.
  { rewrite length_seqZ, length_map. lia. }
  intros i j y Hj Hy. apply lookup_seqZ in Hj as [-> Hi]. rewrite Z.add_0_l.
  rewrite list_lookup_fmap in Hy. apply fmap_Some in Hy as (x & Hx & ->).
  pose proof (list_elem_of_lookup_2 _ _ _ Hx) as Hin.
  destruct (render_rows_split size fields rows Hf i x 0 Hx) as (l & r & -> & Hl).
  replace (Z.of_nat (length pre) + Z.of_nat i * size) with (Z.of_nat (length (pre ++ l)))
    by (rewrite length_app; lia).
  rewrite <-!app_assoc, (app_assoc pre l). apply read_fields_part; auto.
Qed.

(** *** Handles *)

Record valid_handle (h : KernelHandle) : Prop := {
  vh_handle : u32 (kh_handle h); vh_object : u64 (kh_object h); vh_process : u32 (kh_process_id h);
  vh_access : u32 (kh_access h); vh_type : 0 ≤ kh_object_type_index h ≤ u8_max;
  vh_count : u32 (kh_handle_count h) }.

(** [SYSTEM_HANDLE_TABLE_ENTRY_INFO_EX]: Object, UniqueProcessId, HandleValue,
    GrantedAccess, CreatorBackTraceIndex, ObjectTypeIndex, HandleAttributes, and
    the last word. *)
Definition parse_extended_handles (bytes : list Z) : option (list (list Z)) :=
  count ← read_le 8 0 bytes;
  parse_table [(0, 8); (8, 8); (16, 8); (24, 4); (28, 2); (30, 2); (32, 4); (36, 4)] 16 40 count bytes.

(** [SYSTEM_HANDLE_TABLE_ENTRY_INFO]: UniqueProcessId, CreatorBackTraceIndex,
    ObjectTypeIndex, HandleAttributes, HandleValue, Object, GrantedAccess. *)
Definition parse_handles (bytes : list Z) : option (list (list Z)) :=
  count ← read_le 4 0 bytes;
  parse_table [(0, 2); (2, 2); (4, 1); (5, 1); (6, 2); (8, 8); (16, 4)] 8 24 count bytes.

Definition extended_handle_view (h : KernelHandle) : list Z :=
  [kh_object h; kh_process_id h; kh_handle h; kh_access h; 0; kh_object_type_index h; 0; kh_handle_count h].
(** The legacy row has 16 bits for the process and for the handle. *)
Definition handle_view (h : KernelHandle) : list Z :=
  [kh_process_id h mod 65536; 0; kh_object_type_index h; 0; kh_handle h mod 65536; kh_object h; kh_access h].

Lemma byte_le x : 0 ≤ x ≤ u8_max → [x] = to_le_bytes 1 x.
Proof.
  intros Hx. unfold to_le_bytes. change 1 with (Z.succ 0).
  rewrite Z_to_little_endian_succ, Z_to_little_endian_0 by lia.
  rewrite Z.land_ones, Z.mod_small by (unfold u8_max in *; lia). done.
Qed.

Lemma extended_handle_holds i h : valid_handle h →
  Forall2 (holds (extended_handle_fields i h))
    [(0, 8); (8, 8); (16, 8); (24, 4); (28, 2); (30, 2); (32, 4); (36, 4)] (extended_handle_view h).
Proof.
  intros [H1 H2 H3 H4 H5 H6]. unfold u32, u64, u32_max, u64_max, u8_max in *.
  assert (extended_handle_view h = [kh_object h mod 2 ^ (8 * 8); kh_process_id h mod 2 ^ (8 * 8);
    kh_handle h mod 2 ^ (8 * 8); kh_access h mod 2 ^ (8 * 4); 0 mod 2 ^ (8 * 2);
    kh_object_type_index h mod 2 ^ (8 * 2); 0 mod 2 ^ (8 * 4); kh_handle_count h mod 2 ^ (8 * 4)]) as ->.
  { unfold extended_handle_view. by rewrite !Z.mod_small by lia. }
  match_fields.
Qed.

Lemma handle_holds i h : valid_handle h →
  Forall2 (holds (handle_fields i h))
    [(0, 2); (2, 2); (4, 1); (5, 1); (6, 2); (8, 8); (16, 4)] (handle_view h).
Proof.
  intros [H1 H2 H3 H4 H5 H6]. unfold u32, u64, u32_max, u64_max in *.
  assert (handle_view h = [(kh_process_id h mod 2 ^ 16) mod 2 ^ (8 * 2); 0 mod 2 ^ (8 * 2);
    kh_object_type_index h mod 2 ^ (8 * 1); 0 mod 2 ^ (8 * 1);
    (kh_handle h mod 2 ^ 16) mod 2 ^ (8 * 2); kh_object h mod 2 ^ (8 * 8);
    kh_access h mod 2 ^ (8 * 4)]) as ->.
  { unfold handle_view. rewrite !Zmod_mod. unfold u8_max in *.
    rewrite (Z.mod_small (kh_object_type_index h)), (Z.mod_small (kh_object h)),
      (Z.mod_small (kh_access h)) by lia. done. }
  unfold handle_fields. rewrite (byte_le (kh_object_type_index h)), (byte_le 0) by (unfold u8_max in *; lia).
  match_fields.
Qed.

Lemma handle_layout i h : layout 0 SYSTEM_HANDLE_TABLE_ENTRY_SIZE (handle_fields i h).
Proof. unfold handle_fields, SYSTEM_HANDLE_TABLE_ENTRY_SIZE. solve_layout. Qed.

Lemma extended_handle_layout i h :
  layout 0 SYSTEM_HANDLE_TABLE_ENTRY_EX_SIZE (extended_handle_fields i h).
Proof. unfold extended_handle_fields, SYSTEM_HANDLE_TABLE_ENTRY_EX_SIZE. solve_layout. Qed.

(** A count and a table, read back. *)
Lemma counted_table_run {A S} spec header size width count (fields : Z → A → list field)
    (view : A → list Z) rows (s : S) :
  (∀ i x, x ∈ rows → layout 0 size (fields i x)) →
  (∀ i x, x ∈ rows → Forall2 (holds (fields i x)) spec (view x)) →
  0 ≤ size → 0 ≤ width ≤ header → header + size * count_of rows ≤ isize_max →
  count mod 2 ^ (8 * width) = count_of rows →
  let bytes := table_bytes header size [(0, width, to_le_bytes width count)] fields rows in
  build (resize_zeros (header + size * count_of rows) ;;; puts 0 [(0, width, to_le_bytes width count)] ;;;
         put_rows header size 0 fields rows) s = Done (Ok bytes) s ∧
  Z.of_nat (length bytes) = header + size * count_of rows ∧
  (count ← read_le width 0 bytes; parse_table spec header size count bytes) = Some (map view rows).
Proof.
  intros Hf Hv Hs Hw Hroom Hc bytes.
  assert (layout 0 header [(0, width, to_le_bytes width count)]) as Hh.
  { cbn [layout]. rewrite length_to_le_bytes by lia. lia. }
  split_and!; [by apply table_run|by apply length_table|].
  assert (read_le width 0 bytes = Some (count_of rows)) as ->.
  { rewrite <-Hc. apply read_header; [done|set_solver|lia]. }
  simpl. unfold bytes, table_bytes.
  pose proof (parse_table_part spec size fields view rows
    (render 0 header [(0, width, to_le_bytes width count)]) [] Hf Hv) as Hp.
  rewrite app_nil_r, length_render in Hp by done. by rewrite Z.sub_0_r in Hp.
Qed.

(** *** Process lists *)

(** What the proofs use of the three layouts. *)
Record layout_ok (L : ProcessLayout) : Prop := {
  lo_fixed : 0 < pl_fixed L ∧ pl_fixed L mod 8 = 0;
  lo_thread : 0 ≤ pl_thread_size L ∧ pl_thread_size L mod 8 = 0;
  lo_process_fields p next len ptr : layout 0 (pl_fixed L) (pl_process_fields L p next len ptr);
  lo_thread_fields p t : layout 0 (pl_thread_size L) (pl_thread_fields L p t);
  lo_next p next len ptr : (0, 4, u32_le next) ∈ pl_process_fields L p next len ptr }.

Definition layouts : list ProcessLayout := [layout_x64; layout_extended; layout_extended_x86].

Ltac unfold_layouts :=
  cbv [layout_x64 layout_extended layout_extended_x86 pl_fixed pl_thread_size pl_process_fields
       pl_thread_fields process_fields process_fields_x86 thread_fields extended_thread_fields
       extended_thread_fields_x86 SYSTEM_PROCESS_INFORMATION_FIXED_SIZE SYSTEM_THREAD_INFORMATION_SIZE
       SYSTEM_EXTENDED_THREAD_INFORMATION_SIZE SYSTEM_PROCESS_INFORMATION_FIXED_SIZE_X86
       SYSTEM_EXTENDED_THREAD_INFORMATION_SIZE_X86].
Ltac solve_layout_ok :=
  split; [done|done|intros; unfold_layouts; solve_layout|intros; unfold_layouts; solve_layout
         |intros; unfold_layouts; find_field].

Lemma layout_x64_ok : layout_ok layout_x64.
Proof. solve_layout_ok. Qed.
Lemma layout_extended_ok : layout_ok layout_extended.
Proof. solve_layout_ok. Qed.
Lemma layout_extended_x86_ok : layout_ok layout_extended_x86.
Proof. solve_layout_ok. Qed.

Lemma layouts_ok L : L ∈ layouts → layout_ok L.
Proof.
  unfold layouts. rewrite !elem_of_cons, elem_of_nil. intros [->|[->|[->|[]]]];
    auto using layout_x64_ok, layout_extended_ok, layout_extended_x86_ok.
Qed.

(** The bytes of a list of processes that starts at [start]. *)
Definition name_bytes (p : KernelProcess) : list Z := utf16_bytes (kp_image_name p).
Definition next_of (L : ProcessLayout) (is_last : bool) (p : KernelProcess) : Z :=
  if is_last then 0 else as_u32 (align8 (entry_size L p)).
Definition entry_bytes (L : ProcessLayout) (addr start : Z) (is_last : bool) (p : KernelProcess) : list Z :=
  render 0 (pl_fixed L)
    (pl_process_fields L p (next_of L is_last p) (Z.of_nat (length (name_bytes p)))
       ((addr + start + name_offset L p) mod 2 ^ 64))
  ++ render_rows (pl_thread_size L) 0 (λ _, pl_thread_fields L p) (kp_threads p)
  ++ name_bytes p.
Definition no_more (ps : list KernelProcess) : bool := match ps with [] => true | _ => false end.
Fixpoint entries (L : ProcessLayout) (addr start : Z) (ps : list KernelProcess) : list Z :=
  match ps with
  | [] => []
  | p :: ps => entry_bytes L addr start (no_more ps) p ++ entries L addr (start + entry_size L p) ps
  end.
(** Where each process starts, and where the list ends. *)
Fixpoint starts (L : ProcessLayout) (start : Z) (ps : list KernelProcess) : list Z :=
  match ps with [] => [] | p :: ps => start :: starts L (start + entry_size L p) ps end.
Fixpoint total_size (L : ProcessLayout) (ps : list KernelProcess) : Z :=
  match ps with [] => 0 | p :: ps => entry_size L p + total_size L ps end.

Section process_list.
Context (L : ProcessLayout) (ok : layout_ok L).

Lemma name_offset_nonneg p : 0 ≤ name_offset L p.
Proof using ok. destruct (lo_fixed L ok), (lo_thread L ok). unfold name_offset, count_of. nia. Qed.

Lemma entry_size_nonneg p : 0 ≤ entry_size L p.
Proof using ok. pose proof (name_offset_nonneg p). unfold entry_size. lia. Qed.

Lemma total_size_nonneg ps : 0 ≤ total_size L ps.
Proof using ok. induction ps as [|p ps IH]; simpl; [lia|]. pose proof (entry_size_nonneg p). lia. Qed.

Lemma threads_fit p i t : t ∈ kp_threads p → layout 0 (pl_thread_size L) ((λ _ : Z, pl_thread_fields L p) i t).
Proof using ok. intros. apply (lo_thread_fields L ok). Qed.

Lemma length_entry addr start is_last p :
  Z.of_nat (length (entry_bytes L addr start is_last p)) = entry_size L p.
Proof using ok.
  unfold entry_bytes, entry_size, name_offset, name_bytes. rewrite !length_app, !Nat2Z.inj_add.
  rewrite length_render by apply (lo_process_fields L ok).
  rewrite length_render_rows by apply threads_fit. lia.
Qed.

Lemma length_entries addr start ps : Z.of_nat (length (entries L addr start ps)) = total_size L ps.
Proof using ok.
  revert start. induction ps as [|p ps IH]; intros start; simpl; [done|].
  by rewrite length_app, Nat2Z.inj_add, length_entry, IH.
Qed.

Lemma put_process_run addr is_last p pre :
  Z.of_nat (length pre) + entry_size L p ≤ isize_max →
  put_process L addr is_last p pre
  = Done (Ok tt) (pre ++ entry_bytes L addr (Z.of_nat (length pre)) is_last p).
Proof using ok.
  intros Hroom. pose proof (name_offset_nonneg p) as Hn. destruct (lo_fixed L ok) as [Hf _].
  destruct (lo_thread L ok) as [Ht _].
  unfold put_process, resize_zeros. cbn [bind gets]. rewrite (proj2 (Z.leb_le _ _)) by done.
  set (pf := pl_process_fields L p _ _ _).
  replace (Z.to_nat (Z.of_nat (length pre) + entry_size L p) - length pre)%nat
    with (Z.to_nat (entry_size L p)) by (pose proof (entry_size_nonneg p); lia).
  change (replicate (Z.to_nat (entry_size L p)) 0) with (zero_bytes (entry_size L p)).
  set (nb := utf16_bytes (kp_image_name p)). set (k := Z.of_nat (length nb)).
  replace (entry_size L p) with ((pl_fixed L - 0) + (pl_thread_size L * count_of (kp_threads p) + k))
    by (unfold entry_size, name_offset, k, nb; lia).
  assert (0 ≤ pl_thread_size L * count_of (kp_threads p)) by (unfold count_of; nia).
  rewrite !zero_bytes_add by lia.
  assert (layout 0 (pl_fixed L) pf) as Hl by apply (lo_process_fields L ok).
  rewrite (puts_render _ pre 0 (pl_fixed L) pf) by (done || lia). cbn [bind].
  rewrite app_assoc, put_rows_render; [|by apply threads_fit|rewrite length_app, Nat2Z.inj_add, length_render by done; lia|done].
  rewrite (app_assoc (pre ++ _)).
  pose proof (puts_render (Z.of_nat (length pre))
    ((pre ++ render 0 (pl_fixed L) pf) ++ render_rows (pl_thread_size L) 0 (λ _, pl_thread_fields L p) (kp_threads p))
    (name_offset L p) (name_offset L p + k) [(name_offset L p, name_offset L p + k, nb)] []) as Hp.
  replace (name_offset L p + k - name_offset L p) with k in Hp by lia.
  rewrite app_nil_r in Hp. replace (pl_fixed L - 0 + _) with (entry_size L p) by (unfold entry_size, name_offset, k, nb; lia).
  change (entry_size L p) with (name_offset L p + k). rewrite Hp.
  - cbn [render]. rewrite !Z.sub_diag. change (zero_bytes 0) with (@nil Z). simpl.
    rewrite !app_nil_r, <-!app_assoc. done.
  - cbn [layout]. split_and!; lia.
  - rewrite !length_app, !Nat2Z.inj_add, length_render, length_render_rows by (done || by apply threads_fit).
    unfold name_offset. lia.
Qed.

Lemma put_processes_run addr ps pre :
  Z.of_nat (length pre) + total_size L ps ≤ isize_max →
  put_processes L addr ps pre = Done (Ok tt) (pre ++ entries L addr (Z.of_nat (length pre)) ps).
Proof using ok.
  revert pre. induction ps as [|p ps IH]; intros pre Hroom; cbn [put_processes entries total_size] in *.
  { by rewrite app_nil_r. }
  pose proof (total_size_nonneg ps). cbn [bind]. rewrite put_process_run by lia. cbn.
  rewrite IH; rewrite length_app, Nat2Z.inj_add, length_entry; [|lia].
  by rewrite <-app_assoc.
Qed.

Lemma build_processes {S} addr ps (s : S) :
  total_size L ps ≤ isize_max → build (put_processes L addr ps) s = Done (Ok (entries L addr 0 ps)) s.
Proof using ok. intros. unfold build. by rewrite put_processes_run. Qed.

(** Entry [i], with what is before and after it. *)
Lemma entries_split addr ps start (i : nat) p st :
  ps !! i = Some p → starts L start ps !! i = Some st →
  ∃ l r, entries L addr start ps = l ++ entry_bytes L addr st (bool_decide (S i = length ps)) p ++ r ∧
    Z.of_nat (length l) = st - start.
Proof using ok.
  revert start i. induction ps as [|q ps IH]; intros start [|i] Hp Hs; simplify_eq/=.
  - eexists [], _. split; [|simpl; lia]. simpl. do 2 f_equal. by destruct ps.
  - destruct (IH _ _ Hp Hs) as (l & r & -> & Hl).
    exists (entry_bytes L addr start (no_more ps) q ++ l), r. split.
    + rewrite <-app_assoc. do 4 f_equal. apply bool_decide_ext. lia.
    + rewrite length_app, Nat2Z.inj_add, length_entry, Hl. lia.
Qed.

Lemma entry_layout addr pre start is_last p post :
  let bytes := pre ++ entry_bytes L addr start is_last p ++ post in
  let at_ := Z.of_nat (length pre) in
  (∀ a b d, (a, b, d) ∈ pl_process_fields L p (next_of L is_last p) (Z.of_nat (length (name_bytes p)))
                          ((addr + start + name_offset L p) mod 2 ^ 64) →
     slice (at_ + a) (b - a) bytes = Some d) ∧
  (∀ (j : nat) t a b d, kp_threads p !! j = Some t → (a, b, d) ∈ pl_thread_fields L p t →
     slice (at_ + pl_fixed L + Z.of_nat j * pl_thread_size L + a) (b - a) bytes = Some d) ∧
  slice (at_ + name_offset L p) (Z.of_nat (length (name_bytes p))) bytes = Some (name_bytes p).
Proof using ok.
  intros bytes at_. subst bytes at_. unfold entry_bytes. set (pf := pl_process_fields L p _ _ _).
  assert (layout 0 (pl_fixed L) pf) as Hl by apply (lo_process_fields L ok).
  pose proof (length_render _ _ _ Hl) as Hr.
  pose proof (length_render_rows (pl_thread_size L) (λ _, pl_thread_fields L p) (kp_threads p)
    (threads_fit p) 0) as Hrr.
  split_and!.
  - intros a b d Hin. rewrite <-app_assoc. apply slice_part. rewrite <-(Z.sub_0_r a) at 1.
    by apply slice_render.
  - intros j t a b d Hj Hin.
    pose proof (slice_row (pl_fixed L) (pl_thread_size L) pf (λ _, pl_thread_fields L p) (kp_threads p) Hl
      (threads_fit p) j t a b d Hj Hin) as Hs. unfold table_bytes in Hs.
    apply (slice_part pre _ (name_bytes p ++ post)) in Hs. rewrite <-!app_assoc in Hs.
    rewrite <-Hs, <-!app_assoc. f_equal. lia.
  - rewrite <-!app_assoc, (app_assoc pre), (app_assoc (pre ++ _)). apply slice_at; [|done].
    rewrite !length_app, !Nat2Z.inj_add, Hr, Hrr. unfold name_offset. lia.
Qed.
End process_list.

(** *** Following [NextEntryOffset] *)

Lemma align8_spec v : 0 ≤ v → v + 7 ≤ u64_max → align8 v = 8 * ((v + 7) / 8).
Proof.
  intros H0 H1. unfold align8. assert (Z.land (v + 7) (not_u64 7) = Z.ldiff (v + 7) (Z.ones 3)) as ->.
  { apply Z.bits_inj'. intros i Hi. rewrite Z.land_spec, Z.ldiff_spec. unfold not_u64.
    rewrite Z.lxor_spec. change u64_max with (Z.ones 64). change 7 with (Z.ones 3) at 2.
    destruct (decide (i < 64)).
    - rewrite (Z.ones_spec_low 64) by lia. by rewrite xorb_true_r.
    - by rewrite (testbit_bounded 64 (v + 7) i) by (change (2 ^ 64) with (u64_max + 1); lia). }
  rewrite Z.ldiff_ones_r, Z.shiftl_mul_pow2, Z.shiftr_div_pow2 by lia. change (2 ^ 3) with 8. lia.
Qed.

Lemma align8_id v : 0 ≤ v → v + 7 ≤ u64_max → align8 v = v ↔ v mod 8 = 0.
Proof. intros. rewrite align8_spec by done. split; intros; Z.div_mod_to_equations; lia. Qed.

Lemma align8_bounds v : 0 ≤ v → v + 7 ≤ u64_max → v ≤ align8 v ≤ v + 7.
Proof. intros. rewrite align8_spec by done. Z.div_mod_to_equations; lia. Qed.

(** The offsets a reader visits: from [off], by [NextEntryOffset], until it is
    zero or outside the buffer. *)
Fixpoint chain (n : nat) (off : Z) (bytes : list Z) : list Z :=
  match n with
  | O => []
  | S n =>
      off :: match read_le 4 off bytes with
             | Some next => if next =? 0 then [] else chain n (off + next) bytes
             | None => []
             end
  end.

(** Every process but the last. *)
Definition followed (ps : list KernelProcess) : list KernelProcess := take (pred (length ps)) ps.

Section chain.
Context (L : ProcessLayout) (ok : layout_ok L).

Lemma next_of_spec is_last p :
  entry_size L p + 7 ≤ u32_max →
  next_of L is_last p mod 2 ^ (8 * 4) = if is_last then 0 else align8 (entry_size L p).
Proof using ok.
  intros Hs. pose proof (entry_size_nonneg L ok p). unfold u32_max in Hs.
  unfold next_of. destruct is_last; [done|].
  assert (entry_size L p ≤ align8 (entry_size L p) ≤ entry_size L p + 7)
    by (apply align8_bounds; unfold u64_max; lia).
  unfold as_u32. change (2 ^ (8 * 4)) with 4294967296. change (2 ^ 32) with 4294967296.
  rewrite Zmod_mod. apply Z.mod_small. lia.
Qed.

Lemma read_next addr pre start is_last p post :
  entry_size L p + 7 ≤ u32_max →
  read_le 4 (Z.of_nat (length pre)) (pre ++ entry_bytes L addr start is_last p ++ post)
  = Some (if is_last then 0 else align8 (entry_size L p)).
Proof using ok.
  intros Hs. destruct (entry_layout L ok addr pre start is_last p post) as [Hf _].
  pose proof (Hf _ _ _ (lo_next L ok _ _ _ _)) as Hn. rewrite Z.add_0_r, Z.sub_0_r in Hn.
  unfold read_le. rewrite Hn. simpl. unfold u32_le. rewrite from_to_le_bytes by lia.
  by rewrite next_of_spec.
Qed.

Lemma chain_cons_ne n off bytes x l : (0 < n)%nat → x ≠ off → chain n x bytes = off :: l → False.
Proof. destruct n; simpl; [lia|]. congruence. Qed.

Lemma chain_entries addr ps pre n :
  (length ps ≤ n)%nat → ps ≠ [] → Forall (λ p, entry_size L p + 7 ≤ u32_max) ps →
  Forall (λ p, 0 < entry_size L p) ps →
  chain n (Z.of_nat (length pre)) (pre ++ entries L addr (Z.of_nat (length pre)) ps)
  = starts L (Z.of_nat (length pre)) ps
  ↔ Forall (λ p, entry_size L p mod 8 = 0) (followed ps).
Proof using ok.
  unfold followed. revert pre n. induction ps as [|p ps IH]; intros pre n Hn Hne Hb Hp; [done|].
  apply Forall_cons in Hb as [Hb Hbs]. apply Forall_cons in Hp as [Hp Hps].
  destruct n as [|n]; [simpl in Hn; lia|].
  cbn [chain entries starts]. rewrite read_next by done.
  assert (entry_size L p ≤ align8 (entry_size L p) ≤ entry_size L p + 7) as Ha
    by (apply align8_bounds; unfold u64_max, u32_max in *; lia). 
  destruct ps as [|q ps]; [by simpl|]. cbn [no_more].
  rewrite (proj2 (Z.eqb_neq _ _)) by lia. unfold u32_max in Hb. cbn [pred length take].
  destruct (decide (entry_size L p mod 8 = 0)) as [E|E].
  - apply align8_id in E as E'; [|lia|unfold u64_max; lia]. rewrite E'.
    specialize (IH (pre ++ entry_bytes L addr (Z.of_nat (length pre)) false p) n).
    rewrite length_app, Nat2Z.inj_add, length_entry in IH by done. cbn [pred] in IH.
    rewrite (app_assoc pre (entry_bytes L addr (Z.of_nat (length pre)) false p)).
    assert (length (q :: ps) ≤ n)%nat as Hn' by (simpl in Hn |- *; lia).
    specialize (IH Hn' ltac:(done) Hbs Hps). rewrite Forall_cons. split.
    + intros Hc. split; [done|]. apply IH. by injection Hc.
    + intros [_ Hc]. f_equal. by apply IH.
  - assert (align8 (entry_size L p) ≠ entry_size L p) as Hna
      by (rewrite align8_id by (unfold u64_max; lia); done).
    split.
    + intros Hc. exfalso. injection Hc as Hc. revert Hc. apply chain_cons_ne; [simpl in Hn; lia|lia].
    + intros [? _]%Forall_cons. done.
Qed.
End chain.

Lemma length_utf16_bytes s : Z.of_nat (length (utf16_bytes s)) = 2 * Z.of_nat (length (encode_utf16 s)).
Proof.
  unfold utf16_bytes. induction (encode_utf16 s) as [|u l IH]; [done|]. cbn [flat_map length].
  rewrite length_app, Nat2Z.inj_add, IH. unfold u16_le. rewrite length_to_le_bytes by lia. lia.
Qed.

(** An entry is a whole number of eight bytes when its name is a whole number of
    four UTF-16 units. *)
Lemma entry_size_aligned L p : layout_ok L →
  entry_size L p mod 8 = 0 ↔ Z.of_nat (length (encode_utf16 (kp_image_name p))) mod 4 = 0.
Proof.
  intros ok. destruct (lo_fixed L ok) as [_ H1], (lo_thread L ok) as [_ H2].
  unfold entry_size, name_offset. rewrite length_utf16_bytes.
  set (u := Z.of_nat (length (encode_utf16 _))). set (c := count_of _).
  assert (∃ k, pl_fixed L + pl_thread_size L * c = 8 * k) as [k ->].
  { exists (pl_fixed L / 8 + pl_thread_size L / 8 * c). Z.div_mod_to_equations. nia. }
  split; intros; Z.div_mod_to_equations; lia.
Qed.

(** *** The reader of the extended list *)

(** A Unicode scalar value, and UTF-16 read back. *)
Definition scalar (c : Z) : Prop := 0 ≤ c < 0xD800 ∨ 0xE000 ≤ c < 0x110000.
Fixpoint decode_utf16 (units : list Z) : str :=
  match units with
  | u :: (v :: rest) as tail =>
      if (0xD800 <=? u) && (u <? 0xDC00)
      then (0x10000 + (u - 0xD800) * 0x400 + (v - 0xDC00)) :: decode_utf16 rest
      else u :: decode_utf16 tail
  | [u] => [u]
  | [] => []
  end.
Fixpoint units_of (bytes : list Z) : list Z :=
  match bytes with
  | a :: b :: rest => from_le_bytes [a; b] :: units_of rest
  | _ => []
  end.

Lemma decode_encode s : Forall scalar s → decode_utf16 (encode_utf16 s) = s.
Proof.
  induction s as [|c s IH]; [done|]. intros [Hc Hs]%Forall_cons. specialize (IH Hs).
  change (encode_utf16 (c :: s)) with (utf16_char c ++ encode_utf16 s). unfold utf16_char, scalar in *.
  destruct (Z.ltb_spec c 65536).
  - cbn [app]. destruct (encode_utf16 s) as [|v rest] eqn:E; cbn [decode_utf16].
    + by rewrite <-IH.
    + assert ((0xD800 <=? c) && (c <? 0xDC00) = false) as ->.
      { apply andb_false_iff. rewrite Z.leb_gt, Z.ltb_ge. lia. }
      f_equal. by rewrite <-IH.
  - cbn [app decode_utf16].
    rewrite (proj2 (Z.leb_le _ _)), (proj2 (Z.ltb_lt _ _)) by (Z.div_mod_to_equations; lia).
    cbn [andb]. rewrite IH. f_equal. Z.div_mod_to_equations; lia.
Qed.

Lemma units_of_bytes l : Forall (λ u, 0 ≤ u < 65536) l → units_of (flat_map u16_le l) = l.
Proof.
  induction l as [|u l IH]; [done|]. intros [Hu Hl]%Forall_cons. cbn [flat_map].
  pose proof (length_to_le_bytes 2 u ltac:(done)) as Hlen. unfold u16_le at 1.
  destruct (to_le_bytes 2 u) as [|a [|b [|]]] eqn:E; simpl in Hlen; try lia.
  cbn [app units_of]. rewrite <-E, from_to_le_bytes_small by (change (2 ^ (8 * 2)) with 65536; lia).
  by rewrite IH.
Qed.

Lemma encode_units s : Forall scalar s → Forall (λ u, 0 ≤ u < 65536) (encode_utf16 s).
Proof.
  intros Hs. apply Forall_forall. intros u Hu. unfold encode_utf16 in Hu.
  apply list_elem_of_In, in_flat_map in Hu as (c & Hc & Hu).
  rewrite Forall_forall in Hs. apply list_elem_of_In in Hc. specialize (Hs c Hc).
  unfold utf16_char, scalar in *. destruct (Z.ltb_spec c 65536); simpl in Hu;
    repeat destruct Hu as [<-|Hu]; try done; Z.div_mod_to_equations; lia.
Qed.

Definition decode_name (bytes : list Z) : str := decode_utf16 (units_of bytes).

Lemma decode_name_bytes p : Forall scalar (kp_image_name p) → decode_name (name_bytes p) = kp_image_name p.
Proof.
  intros Hs. unfold decode_name, name_bytes, utf16_bytes.
  by rewrite units_of_bytes, decode_encode by auto using encode_units.
Qed.

Definition i32 (x : Z) : Prop := - 2 ^ 31 ≤ x < 2 ^ 31.
Definition i64 (x : Z) : Prop := - 2 ^ 63 ≤ x < 2 ^ 63.

(** The values of the Rust types, and a name that is not cut: at most 65535 bytes. *)
Record valid_thread (t : KernelThread) : Prop := {
  vt_id : u32 (kt_thread_id t); vt_create : i64 (kt_create_time t); vt_user : i64 (kt_user_time t);
  vt_kernel : i64 (kt_kernel_time t); vt_start : u64 (kt_start_address t);
  vt_win32 : u64 (kt_win32_start_address t); vt_priority : i32 (kt_priority t);
  vt_base_priority : i32 (kt_base_priority t); vt_switches : u32 (kt_context_switches t);
  vt_state : u32 (kt_state t); vt_reason : u32 (kt_wait_reason t); vt_wait : u32 (kt_wait_time t);
  vt_teb : u64 (kt_teb_base t); vt_base : u64 (kt_stack_base t); vt_limit : u64 (kt_stack_limit t) }.

Record valid_process (p : KernelProcess) : Prop := {
  vp_pid : u32 (kp_pid p); vp_parent : u32 (kp_parent_pid p);
  vp_name : Forall scalar (kp_image_name p);
  vp_name_len : Z.of_nat (length (name_bytes p)) < 65536;
  vp_priority : i32 (kp_base_priority p); vp_handles : u32 (kp_handle_count p);
  vp_session : u32 (kp_session_id p); vp_create : i64 (kp_create_time p);
  vp_user : i64 (kp_user_time p); vp_kernel : i64 (kp_kernel_time p);
  vp_virtual : u64 (kp_virtual_size p); vp_peak_virtual : u64 (kp_peak_virtual_size p);
  vp_working : u64 (kp_working_set p); vp_peak_working : u64 (kp_peak_working_set p);
  vp_faults : u32 (kp_page_fault_count p); vp_count : u32 (count_of (kp_threads p));
  vp_threads : Forall valid_thread (kp_threads p) }.

(** [SYSTEM_EXTENDED_THREAD_INFORMATION] *)
Definition thread_spec : list (Z * Z) :=
  [(0, 8); (8, 8); (16, 8); (24, 4); (32, 8); (48, 8); (56, 4); (60, 4); (64, 4); (68, 4); (72, 4);
   (0x50, 8); (0x58, 8); (0x60, 8); (0x68, 8)].
Definition thread_of (vs : list Z) : option KernelThread :=
  match vs with
  | [kernel; user; create; wait; start; tid; prio; base; switches; state; reason; sb; sl; win32; teb] =>
      Some {| kt_thread_id := tid; kt_create_time := as_signed 8 create; kt_user_time := as_signed 8 user;
              kt_kernel_time := as_signed 8 kernel; kt_start_address := start;
              kt_win32_start_address := win32; kt_priority := as_signed 4 prio;
              kt_base_priority := as_signed 4 base; kt_context_switches := switches; kt_state := state;
              kt_wait_reason := reason; kt_wait_time := wait; kt_teb_base := teb; kt_stack_base := sb;
              kt_stack_limit := sl |}
  | _ => None
  end.

(** [SYSTEM_PROCESS_INFORMATION]; the name is found through its pointer. *)
Definition process_spec : list (Z * Z) :=
  [(0, 4); (4, 4); (0x20, 8); (0x28, 8); (0x30, 8); (0x38, 2); (0x40, 8); (0x48, 4); (0x50, 8);
   (0x58, 8); (0x60, 4); (0x64, 4); (0x70, 8); (0x78, 8); (0x80, 4); (0x88, 8); (0x90, 8)].
Definition parse_process (addr off : Z) (bytes : list Z) : option (Z * KernelProcess) :=
  vs ← read_fields process_spec off bytes;
  match vs with
  | [next; count; create; user; kernel; len; ptr; prio; pid; parent; handles; session; pv; v; faults; pw; w] =>
      rows ← parse_table thread_spec (off + 0x100) 0x88 count bytes;
      threads ← mapM thread_of rows;
      name ← slice ((ptr - addr) mod 2 ^ 64) len bytes;
      Some (next,
        {| kp_pid := pid; kp_parent_pid := parent; kp_image_name := decode_name name;
           kp_base_priority := as_signed 4 prio; kp_handle_count := handles; kp_session_id := session;
           kp_create_time := as_signed 8 create; kp_user_time := as_signed 8 user;
           kp_kernel_time := as_signed 8 kernel; kp_virtual_size := v; kp_peak_virtual_size := pv;
           kp_working_set := w; kp_peak_working_set := pw; kp_page_fault_count := faults;
           kp_threads := threads |})
  | _ => None
  end.

(** A reader that follows [NextEntryOffset] to its end. *)
Fixpoint parse_processes (n : nat) (addr off : Z) (bytes : list Z) : option (list KernelProcess) :=
  match n with
  | O => None
  | S n =>
      '(next, p) ← parse_process addr off bytes;
      if next =? 0 then Some [p]
      else ps ← parse_processes n addr (off + next) bytes; Some (p :: ps)
  end.

Definition thread_view (t : KernelThread) : list Z :=
  [kt_kernel_time t mod 2 ^ (8 * 8); kt_user_time t mod 2 ^ (8 * 8); kt_create_time t mod 2 ^ (8 * 8);
   kt_wait_time t mod 2 ^ (8 * 4); kt_start_address t mod 2 ^ (8 * 8); kt_thread_id t mod 2 ^ (8 * 8);
   kt_priority t mod 2 ^ (8 * 4); kt_base_priority t mod 2 ^ (8 * 4);
   kt_context_switches t mod 2 ^ (8 * 4); kt_state t mod 2 ^ (8 * 4); kt_wait_reason t mod 2 ^ (8 * 4);
   kt_stack_base t mod 2 ^ (8 * 8); kt_stack_limit t mod 2 ^ (8 * 8);
   kt_win32_start_address t mod 2 ^ (8 * 8); kt_teb_base t mod 2 ^ (8 * 8)].
Definition process_view (p : KernelProcess) (next len ptr : Z) : list Z :=
  [next mod 2 ^ (8 * 4); as_u32 (count_of (kp_threads p)) mod 2 ^ (8 * 4);
   kp_create_time p mod 2 ^ (8 * 8); kp_user_time p mod 2 ^ (8 * 8); kp_kernel_time p mod 2 ^ (8 * 8);
   as_u16 len mod 2 ^ (8 * 2); ptr mod 2 ^ (8 * 8); kp_base_priority p mod 2 ^ (8 * 4);
   kp_pid p mod 2 ^ (8 * 8); kp_parent_pid p mod 2 ^ (8 * 8); kp_handle_count p mod 2 ^ (8 * 4);
   kp_session_id p mod 2 ^ (8 * 4); kp_peak_virtual_size p mod 2 ^ (8 * 8);
   kp_virtual_size p mod 2 ^ (8 * 8); kp_page_fault_count p mod 2 ^ (8 * 4);
   kp_peak_working_set p mod 2 ^ (8 * 8); kp_working_set p mod 2 ^ (8 * 8)].

Lemma thread_holds p t : Forall2 (holds (extended_thread_fields p t)) thread_spec (thread_view t).
Proof. unfold extended_thread_fields, thread_fields, thread_spec, thread_view. cbn [app]. match_fields. Qed.

Lemma process_holds p next len ptr :
  Forall2 (holds (process_fields p next len ptr)) process_spec (process_view p next len ptr).
Proof. unfold process_fields, process_spec, process_view. match_fields. Qed.

Lemma mod_u32 x : u32 x → x mod 2 ^ (8 * 4) = x.
Proof. unfold u32, u32_max. intros. apply Z.mod_small. lia. Qed.
Lemma mod_u64 x : u64 x → x mod 2 ^ (8 * 8) = x.
Proof. unfold u64, u64_max. intros. apply Z.mod_small. lia. Qed.
Lemma mod_u32_u64 x : u32 x → x mod 2 ^ (8 * 8) = x.
Proof. unfold u32, u32_max. intros. apply Z.mod_small. lia. Qed.
Lemma signed_i32 x : i32 x → as_signed 4 (x mod 2 ^ (8 * 4)) = x.
Proof. intros. by apply as_signed_mod. Qed.
Lemma signed_i64 x : i64 x → as_signed 8 (x mod 2 ^ (8 * 8)) = x.
Proof. intros. by apply as_signed_mod. Qed.

Lemma thread_of_view t : valid_thread t → thread_of (thread_view t) = Some t.
Proof.
  intros []. unfold thread_view, thread_of.
  rewrite !signed_i64, !signed_i32, !mod_u32, (mod_u32_u64 (kt_thread_id t)), !mod_u64 by done.
  by destruct t.
Qed.

Lemma mapM_threads ts : Forall valid_thread ts → mapM thread_of (map thread_view ts) = Some ts.
Proof.
  intros Hv. apply mapM_Some_2. apply Forall2_fmap_l. induction Hv; constructor; auto using thread_of_view.
Qed.

(** The name pointer, taken relative to the buffer, whatever the address. *)
Lemma pointer_offset addr x : 0 ≤ x ≤ u64_max → ((addr + x) mod 2 ^ 64 - addr) mod 2 ^ 64 = x.
Proof.
  intros Hx. rewrite Zminus_mod_idemp_l. replace (addr + x - addr) with x by lia.
  apply Z.mod_small. unfold u64_max in Hx. lia.
Qed.

Lemma parse_process_entry addr pre is_last p post :
  valid_process p → entry_size layout_extended p + 7 ≤ u32_max →
  Z.of_nat (length pre) + entry_size layout_extended p ≤ u64_max →
  parse_process addr (Z.of_nat (length pre))
    (pre ++ entry_bytes layout_extended addr (Z.of_nat (length pre)) is_last p ++ post)
  = Some (if is_last then 0 else align8 (entry_size layout_extended p), p).
Proof.
  intros Hv Hb Hroom. pose proof layout_extended_ok as ok.
  pose proof (entry_layout _ ok addr pre (Z.of_nat (length pre)) is_last p post) as (_ & _ & Hname).
  pose proof (name_offset_nonneg _ ok p) as Hno. destruct Hv.
  pose proof (next_of_spec _ ok is_last p Hb) as Hnext.
  unfold parse_process, entry_bytes in *.
  set (pf := pl_process_fields _ _ _ _ _) in *. set (rows := render_rows _ _ _ _) in *.
  assert (layout 0 (pl_fixed layout_extended) pf) as Hl by apply (lo_process_fields _ ok).
  rewrite <-!app_assoc in Hname |- *.
  rewrite (read_fields_part process_spec pf _ _ pre _ Hl (process_holds _ _ _ _)).
  unfold process_view. rewrite Hnext. cbn [mbind option_bind].
  assert (as_u32 (count_of (kp_threads p)) mod 2 ^ (8 * 4) = count_of (kp_threads p)) as ->.
  { unfold as_u32. change (2 ^ 32) with (2 ^ (8 * 4)). by rewrite Zmod_mod, mod_u32. }
  assert (as_u16 (Z.of_nat (length (name_bytes p))) mod 2 ^ (8 * 2) = Z.of_nat (length (name_bytes p))) as ->.
  { unfold as_u16. change (2 ^ 16) with 65536. change (2 ^ (8 * 2)) with 65536.
    by rewrite Zmod_mod, Z.mod_small by lia. }
  change (2 ^ (8 * 8)) with (2 ^ 64) at 4. rewrite Zmod_mod, <-Z.add_assoc, pointer_offset
    by (unfold entry_size in Hroom; lia).
  rewrite Hname.
  pose proof (parse_table_part thread_spec (pl_thread_size layout_extended)
    (λ _, pl_thread_fields layout_extended p) thread_view (kp_threads p)
    (pre ++ render 0 (pl_fixed layout_extended) pf) (name_bytes p ++ post)
    (threads_fit _ ok p) (λ _ t _, thread_holds p t)) as Ht.
  rewrite length_app, Nat2Z.inj_add, length_render, Z.sub_0_r, <-!app_assoc in Ht by done.
  change (Z.of_nat (length pre) + 256) with (Z.of_nat (length pre) + pl_fixed layout_extended).
  change 136 with (pl_thread_size layout_extended). fold rows in Ht. rewrite Ht. cbn [mbind option_bind].
  rewrite mapM_threads by done. cbn [mbind option_bind].
  rewrite decode_name_bytes, !signed_i64, signed_i32, (mod_u32_u64 (kp_pid p)), (mod_u32_u64 (kp_parent_pid p)),
    !mod_u64, !mod_u32 by done.
  by destruct p.
Qed.

Lemma parse_entries addr ps pre n :
  (length ps ≤ n)%nat → ps ≠ [] → Forall valid_process ps →
  Forall (λ p, entry_size layout_extended p + 7 ≤ u32_max) ps →
  Forall (λ p, entry_size layout_extended p mod 8 = 0) (followed ps) →
  Z.of_nat (length pre) + total_size layout_extended ps ≤ u64_max →
  parse_processes n addr (Z.of_nat (length pre))
    (pre ++ entries layout_extended addr (Z.of_nat (length pre)) ps) = Some ps.
Proof.
  pose proof layout_extended_ok as ok. unfold followed.
  revert pre n. induction ps as [|p ps IH]; intros pre [|n] Hn Hne Hv Hb Ha Hroom; try done; [simpl in Hn; lia|].
  apply Forall_cons in Hv as [Hp Hv]. apply Forall_cons in Hb as [Hbp Hb]. cbn [total_size] in Hroom.
  pose proof (total_size_nonneg _ ok ps) as Hts. pose proof (entry_size_nonneg _ ok p) as Hes.
  cbn [parse_processes entries]. rewrite parse_process_entry by (done || lia). cbn [mbind option_bind].
  destruct ps as [|q ps]; [done|]. cbn [no_more].
  cbn [pred length take] in Ha. apply Forall_cons in Ha as [E Ha].
  apply align8_id in E as E'; [|lia|unfold u64_max, u32_max in *; lia]. rewrite E'.
  assert (0 < entry_size layout_extended p).
  { unfold entry_size, name_offset, count_of. cbn. unfold SYSTEM_PROCESS_INFORMATION_FIXED_SIZE,
      SYSTEM_EXTENDED_THREAD_INFORMATION_SIZE. lia. }
  rewrite (proj2 (Z.eqb_neq _ _)) by lia.
  specialize (IH (pre ++ entry_bytes layout_extended addr (Z.of_nat (length pre)) false p) n).
  rewrite length_app, Nat2Z.inj_add, length_entry in IH by done.
  rewrite (app_assoc pre (entry_bytes layout_extended addr (Z.of_nat (length pre)) false p)).
  rewrite IH; try done; [simpl in Hn |- *; lia|lia].
Qed.

(** ** Modules *)

(** A NUL-terminated string at [off]. *)
Fixpoint until_nul (bytes : list Z) : list Z :=
  match bytes with
  | [] => []
  | b :: bytes => if b =? 0 then [] else b :: until_nul bytes
  end.
Definition c_string (off : Z) (bytes : list Z) : list Z := until_nul (drop (Z.to_nat off) bytes).

Lemma until_nul_app d r : 0 ∉ d → until_nul (d ++ 0 :: r) = d.
Proof.
  induction d as [|b d IH]; [done|]. rewrite not_elem_of_cons. intros [Hb Hd]. simpl.
  rewrite (proj2 (Z.eqb_neq _ _)) by done. by rewrite IH.
Qed.

Lemma slice_drop off n bytes d : slice off n bytes = Some d → ∃ r, drop (Z.to_nat off) bytes = d ++ r.
Proof.
  unfold slice. destruct (_ && _); [|done]. intros [= <-].
  exists (drop (Z.to_nat n) (drop (Z.to_nat off) bytes)). by rewrite take_drop.
Qed.

Lemma slice_bounds off n bytes d : slice off n bytes = Some d → 0 ≤ off ∧ n = Z.of_nat (length d).
Proof. intros (? & ? & ? & ? & _)%slice_Some. lia. Qed.

Lemma until_nul_terminated d r : until_nul (d ++ 0 :: r) = until_nul d.
Proof. induction d as [|b d IH]; simpl; [done|]. case_match; [done|]. by rewrite IH. Qed.

Lemma c_string_terminated off n bytes d :
  slice off n bytes = Some d → slice (off + n) 1 bytes = Some [0] → c_string off bytes = until_nul d.
Proof.
  intros H1 H2. pose proof (slice_bounds _ _ _ _ H1) as [? ->].
  destruct (slice_drop _ _ _ _ H1) as [r1 E1], (slice_drop _ _ _ _ H2) as [r2 E2].
  unfold c_string. rewrite E1. replace r1 with (0 :: r2); [by apply until_nul_terminated|].
  transitivity (drop (length d) (drop (Z.to_nat off) bytes)).
  - change (0 :: r2) with ([0] ++ r2). rewrite drop_drop, <-E2. f_equal. lia.
  - by rewrite E1, drop_app_length.
Qed.

Lemma c_string_slices off n bytes d :
  slice off n bytes = Some d → slice (off + n) 1 bytes = Some [0] → 0 ∉ d → c_string off bytes = d.
Proof.
  intros H1 H2 Hd. rewrite (c_string_terminated _ _ _ _ H1 H2).
  rewrite <-(until_nul_terminated d []). by apply until_nul_app.
Qed.

Lemma slice_suffix off n bytes x y :
  slice off n bytes = Some (x ++ y) →
  slice (off + Z.of_nat (length x)) (Z.of_nat (length y)) bytes = Some y.
Proof.
  unfold slice. destruct (_ && _) eqn:E; [|done]. intros [= Hd].
  apply andb_true_iff in E as [[E1%Z.leb_le E2%Z.leb_le]%andb_true_iff E3%Z.leb_le].
  assert (Z.to_nat n = length (x ++ y)) as Hn.
  { rewrite <-Hd, length_take, length_drop. lia. }
  rewrite length_app in Hn.
  rewrite !(proj2 (Z.leb_le 0 _)), (proj2 (Z.leb_le _ _)) by lia. simpl. f_equal.
  rewrite Hn in Hd. apply (f_equal (drop (length x))) in Hd.
  rewrite drop_app_length, <-take_drop_commute, drop_drop in Hd.
  etransitivity; [|exact Hd]. f_equal; [lia|f_equal; lia].
Qed.

Lemma rsplit_any_spec f s a b :
  rsplit_any f s = Some (a, b) → ∃ c, s = a ++ c :: b ∧ f c = true ∧ Forall (λ x, f x = false) b.
Proof.
  assert (∀ t, rsplit_any f t = None → Forall (λ x, f x = false) t) as Hnone.
  { induction t as [|d s' IH]; [constructor|]. simpl. destruct (rsplit_any f s') as [[]|]; [done|].
    destruct (f d) eqn:E; [done|]. intros _. constructor; auto. }
  revert a b. induction s as [|d s IH]; intros a b; simpl; [done|].
  destruct (rsplit_any f s) as [[a' b']|] eqn:E.
  - intros [= <- <-]. destruct (IH _ _ eq_refl) as (c & -> & Hc & Hb). by exists c.
  - destruct (f d) eqn:Ed; [|done]. intros [= <- <-]. exists d. auto.
Qed.

Lemma trim_no_nul s : NUL ∉ s → trim_end_matches NUL s = s.
Proof.
  intros Hs. unfold trim_end_matches. assert (NUL ∉ rev s) as Hr by (by rewrite list_elem_of_In, <-in_rev, <-list_elem_of_In).
  destruct (rev s) as [|d r] eqn:E; simpl.
  - apply (f_equal (@rev Z)) in E. rewrite rev_involutive in E. by rewrite E.
  - apply not_elem_of_cons in Hr as [Hd _]. rewrite (proj2 (Z.eqb_neq _ _)) by done.
    change (rev (d :: r) = s). by rewrite <-E, rev_involutive.
Qed.

Lemma file_name_suffix m : NUL ∉ km_path m → ∃ dir, km_path m = dir ++ file_name m.
Proof.
  intros Hp. unfold file_name. rewrite trim_no_nul by done.
  destruct (rsplit_any is_separator (km_path m)) as [[a b]|] eqn:E; [|by exists []].
  destruct (negb (str_is_empty b)); [|by exists []].
  apply rsplit_any_spec in E as (c & -> & _). exists (a ++ [c]). by rewrite <-app_assoc.
Qed.

Lemma as_bytes_app s t : as_bytes (s ++ t) = as_bytes s ++ as_bytes t.
Proof. apply flat_map_app. Qed.

Lemma as_bytes_nonzero s : Forall scalar s → NUL ∉ s → 0 ∉ as_bytes s.
Proof.
  induction s as [|c s IH]; intros Hs Hn; [apply not_elem_of_nil|].
  apply Forall_cons in Hs as [Hc Hs]. apply not_elem_of_cons in Hn as [Hcn Hn].
  change (as_bytes (c :: s)) with (utf8_char c ++ as_bytes s). rewrite not_elem_of_app. split; [|auto].
  unfold utf8_char, scalar, NUL in *. repeat case_match;
    rewrite ?not_elem_of_cons, ?Z.ltb_ge, ?Z.ltb_lt in *; split_and?; try apply not_elem_of_nil;
    Z.div_mod_to_equations; lia.
Qed.

(** How much of a path is copied. *)
Definition path_copy (m : KernelModule) : Z := Z.min (Z.of_nat (length (as_bytes (km_path m)))) 255.

Lemma module_layout i m : layout 0 SYSTEM_MODULE_ENTRY_SIZE (module_fields i m).
Proof.
  unfold module_fields, SYSTEM_MODULE_ENTRY_SIZE. fold (path_copy m).
  assert (Z.of_nat (length (take (Z.to_nat (path_copy m)) (as_bytes (km_path m)))) = path_copy m) as Hc.
  { rewrite length_take. unfold path_copy. lia. }
  cbv [u16_le u32_le u64_le]. cbn [layout]. rewrite ?length_to_le_bytes by lia.
  rewrite Hc. unfold path_copy. cbn [length]. split_and!; lia.
Qed.

Definition module_table (modules : list KernelModule) : list Z :=
  table_bytes 8 SYSTEM_MODULE_ENTRY_SIZE [(0, 4, u32_le (as_u32 (count_of modules)))] module_fields modules.

Lemma count_layout header width x : 0 ≤ width ≤ header → layout 0 header [(0, width, to_le_bytes width x)].
Proof. intros. cbn [layout]. rewrite length_to_le_bytes by lia. lia. Qed.

Lemma serialize_modules_run {S} modules (s : S) :
  8 + SYSTEM_MODULE_ENTRY_SIZE * count_of modules ≤ isize_max →
  serialize_module_information modules s = Done (Ok (module_table modules)) s ∧
  Z.of_nat (length (module_table modules)) = 8 + SYSTEM_MODULE_ENTRY_SIZE * count_of modules.
Proof.
  intros Hroom. pose proof (count_layout 8 4 (as_u32 (count_of modules)) ltac:(lia)) as Hh. split.
  - by apply table_run; [|intros; apply module_layout| |].
  - by apply length_table; [|intros; apply module_layout].
Qed.

(** The bytes of a path that are copied lie together, with a NUL after them. *)
Lemma module_path modules (i : nat) m :
  modules !! i = Some m →
  let entry := 8 + Z.of_nat i * SYSTEM_MODULE_ENTRY_SIZE in
  slice (entry + 40) (path_copy m) (module_table modules)
    = Some (take (Z.to_nat (path_copy m)) (as_bytes (km_path m))) ∧
  slice (entry + 40 + path_copy m) 1 (module_table modules) = Some [0].
Proof.
  intros Hi entry. pose proof (count_layout 8 4 (as_u32 (count_of modules)) ltac:(lia)) as Hh.
  split.
  - pose proof (slice_row 8 SYSTEM_MODULE_ENTRY_SIZE _ module_fields modules Hh
      (λ i m _, module_layout i m) i m 40 (40 + path_copy m) (take (Z.to_nat (path_copy m)) (as_bytes (km_path m))) Hi) as Hs.
    rewrite Z.add_simpl_l in Hs. apply Hs. unfold module_fields. find_field.
  - pose proof (slice_row 8 SYSTEM_MODULE_ENTRY_SIZE _ module_fields modules Hh
      (λ i m _, module_layout i m) i m (40 + path_copy m) (40 + path_copy m + 1) [0] Hi) as Hs.
    rewrite Z.add_simpl_l, Z.add_assoc in Hs. apply Hs. unfold module_fields. find_field.
Qed.

Lemma module_integer modules (i : nat) m a n v :
  modules !! i = Some m → 0 ≤ n → (a, a + n, to_le_bytes n v) ∈ module_fields (Z.of_nat i) m →
  read_le n (8 + Z.of_nat i * SYSTEM_MODULE_ENTRY_SIZE + a) (module_table modules) = Some (v mod 2 ^ (8 * n)).
Proof.
  intros Hi Hn Hin. apply (read_row 8 SYSTEM_MODULE_ENTRY_SIZE _ module_fields modules
    (count_layout 8 4 _ ltac:(lia)) (λ i m _, module_layout i m) i m a n v Hi Hin Hn).
Qed.

Record valid_module (m : KernelModule) : Prop := {
  vm_base : u64 (km_base m); vm_size : u32 (km_size m); vm_load : 0 ≤ km_load_count m < 65536;
  vm_path : Forall scalar (km_path m) }.

(** A path that fits its field is read back, and the offset leads to its file name. *)
Lemma module_names modules (i : nat) m :
  modules !! i = Some m → valid_module m → NUL ∉ km_path m → str_len (km_path m) ≤ 255 →
  let entry := 8 + Z.of_nat i * SYSTEM_MODULE_ENTRY_SIZE in
  c_string (entry + 40) (module_table modules) = as_bytes (km_path m) ∧
  ∃ off, read_le 2 (entry + 38) (module_table modules) = Some off ∧
    c_string (entry + off) (module_table modules) = as_bytes (file_name m).
Proof.
  intros Hi [_ _ _ Hv] Hnul Hlen entry. pose proof (module_path modules i m Hi) as [H1 H2].
  assert (path_copy m = str_len (km_path m)) as Hc.
  { unfold path_copy. rewrite length_as_bytes. lia. }
  rewrite take_ge in H1 by (rewrite Hc, <-length_as_bytes; lia).
  assert (0 ∉ as_bytes (km_path m)) as H0 by (by apply as_bytes_nonzero).
  split; [by eapply c_string_slices|].
  destruct (file_name_suffix m Hnul) as [dir Hd].
  assert (str_len (km_path m) = str_len dir + str_len (file_name m)) as Hsum.
  { rewrite Hd at 1. rewrite <-!length_as_bytes, as_bytes_app, length_app. lia. }
  assert (0 ≤ str_len dir ∧ 0 ≤ str_len (file_name m)) as [? ?] by (rewrite <-!length_as_bytes; lia).
  assert (as_u16 (40 + saturating_sub (str_len (km_path m)) (str_len (file_name m))) = 40 + str_len dir) as Ho.
  { unfold as_u16, saturating_sub. rewrite Z.mod_small; lia. }
  exists (40 + str_len dir). split.
  - rewrite <-Ho. etransitivity; [eapply (module_integer modules i m 38 2); [done|done|unfold module_fields; find_field]|].
    f_equal. unfold as_u16. by rewrite Zmod_mod.
  - rewrite Hd, as_bytes_app in H1, H0. apply not_elem_of_app in H0 as [_ H0].
    pose proof (slice_suffix _ _ _ _ _ H1) as Hn. rewrite !length_as_bytes in Hn.
    rewrite Z.add_assoc. eapply c_string_slices; [exact Hn| |done].
    rewrite <-H2, Hc, Hsum. f_equal. subst entry. lia.
Qed.

(** ** The dispatcher *)

Lemma fields_then {A} n fs (k : M (list Z) A) :
  layout 0 n fs → n ≤ isize_max → (resize_zeros n ;;; puts 0 fs ;;; k) [] = k (render 0 n fs).
Proof.
  intros Hl Hn. pose proof (layout_le _ _ _ Hl). unfold resize_zeros. cbn [bind].
  rewrite (proj2 (Z.leb_le _ _)) by done. cbn [app length]. rewrite Nat.sub_0_r.
  change (replicate (Z.to_nat n) 0) with (zero_bytes n).
  pose proof (puts_render 0 [] 0 n fs [] Hl) as Hp. rewrite Z.sub_0_r, !app_nil_r in Hp.
  simpl in Hp |- *. by rewrite Hp.
Qed.

Lemma single_run {S} n fs (s : S) :
  layout 0 n fs → n ≤ isize_max → build (resize_zeros n ;;; puts 0 fs) s = Done (Ok (render 0 n fs)) s.
Proof.
  intros Hl Hn. pose proof (fields_then n fs (ret tt) Hl Hn) as Hr. unfold build.
  cbn [bind] in *. destruct (resize_zeros n []) as [[?|] b|]; try done.
  by destruct (puts 0 fs b) as [[[]|] b'|]; simplify_eq/=.
Qed.

(** Fields put after others, in the zeros they left. *)
Lemma render_split lo mid hi fs : layout lo mid fs → mid ≤ hi → render lo hi fs = render lo mid fs ++ zero_bytes (hi - mid).
Proof.
  revert lo. induction fs as [|[[a b] d] fs IH]; intros lo; cbn [layout render].
  - intros. rewrite <-zero_bytes_add by lia. f_equal. lia.
  - intros (? & -> & Hl) Hle. by rewrite IH, <-!app_assoc.
Qed.

Lemma puts_after mid n fs gs :
  layout 0 mid fs → layout mid n gs → puts 0 gs (render 0 n fs) = Done (Ok tt) (render 0 mid fs ++ render mid n gs).
Proof.
  intros Hf Hg. pose proof (layout_le _ _ _ Hg). rewrite (render_split 0 mid n fs) by done.
  pose proof (puts_render 0 (render 0 mid fs) mid n gs [] Hg) as Hp. rewrite !app_nil_r in Hp. apply Hp.
  rewrite length_render by done. lia.
Qed.

Definition sum_Z (l : list Z) : Z := foldr Z.add 0 l.
Lemma sum_u64_run {S} l acc (s : S) :
  Forall (λ x, 0 ≤ x) l → acc + sum_Z l ≤ u64_max → sum_u64 l acc s = Done (Ok (acc + sum_Z l)) s.
Proof.
  revert acc. induction l as [|x l IH]; intros acc Hl Hs; cbn in *.
  - by rewrite Z.add_0_r.
  - apply Forall_cons in Hl as [Hx Hl]. assert (0 ≤ sum_Z l) as Hn.
    { clear -Hl. induction Hl; cbn in *; [lia|]. unfold sum_Z in *. lia. }
    unfold sum_Z in *. rewrite (proj2 (Z.leb_le _ _)) by lia. rewrite IH by (done || lia). by rewrite Z.add_assoc.
Qed.

(** The counters of the pool rows, which [iter().sum()] adds up. *)
Record sums_fit (sn : KernelSnapshot) : Prop := {
  sf_allocations : Forall (λ x, 0 ≤ x) (map kg_allocations (sn_pool_tags sn)) ∧
                   sum_Z (map kg_allocations (sn_pool_tags sn)) ≤ u64_max;
  sf_frees : Forall (λ x, 0 ≤ x) (map kg_frees (sn_pool_tags sn)) ∧
             sum_Z (map kg_frees (sn_pool_tags sn)) ≤ u64_max }.

Lemma performance_run {S} sn (s : S) : sums_fit sn →
  ∃ bytes, serialize_performance_information sn s = Done (Ok bytes) s ∧ Z.of_nat (length bytes) = 312.
Proof.
  intros [[Ha Ha'] [Hf Hf']]. unfold serialize_performance_information, SYSTEM_PERFORMANCE_INFORMATION_SIZE.
  set (fs := [(0x2C, 0x30, _); _; _; _; _]).
  assert (layout 0 0x78 fs) as H1 by (unfold fs; solve_layout).
  assert (layout 0 312 fs) as H1' by (unfold fs; solve_layout).
  assert (Hs : ∀ (T : Type) (t : T), sum_u64 (map kg_allocations (sn_pool_tags sn)) 0 t
    = Done (Ok (sum_Z (map kg_allocations (sn_pool_tags sn)))) t) by (intros; by rewrite sum_u64_run).
  assert (Hs' : ∀ (T : Type) (t : T), sum_u64 (map kg_frees (sn_pool_tags sn)) 0 t
    = Done (Ok (sum_Z (map kg_frees (sn_pool_tags sn)))) t) by (intros; by rewrite sum_u64_run).
  set (g1 := [(0x78, 0x7C, u32_le (as_u32 (sum_Z (map kg_allocations (sn_pool_tags sn)))))]).
  set (g2 := [(0x7C, 0x80, u32_le (as_u32 (sum_Z (map kg_frees (sn_pool_tags sn)))))]).
  assert (layout 0x78 0x7C g1) as H2 by (unfold g1; solve_layout).
  assert (layout 0x78 312 g1) as H2' by (unfold g1; solve_layout).
  assert (layout 0x7C 312 g2) as H3 by (unfold g2; solve_layout).
  exists (render 0 0x78 fs ++ render 0x78 0x7C g1 ++ render 0x7C 312 g2). split.
  - unfold build. rewrite fields_then by done. cbn [bind].
    rewrite Hs. fold g1. rewrite (puts_after 0x78) by done. rewrite Hs'. fold g2.
    rewrite (render_split 0x78 0x7C 312 g1) by done.
    pose proof (puts_render 0 (render 0 120 fs ++ render 120 124 g1) 0x7C 312 g2 [] H3) as Hp.
    rewrite !app_nil_r, <-!app_assoc in Hp. rewrite Hp; [done|].
    rewrite length_app, Nat2Z.inj_add, !length_render by done. lia.
  - rewrite !length_app, !Nat2Z.inj_add, !length_render by done. lia.
Qed.

(** The size of the structure of a class: [None] for a class without one, and
    [Some None] when a field it needs is not backed. *)
Definition class_size (class : Z) (sn : KernelSnapshot) : option (option Z) :=
  if class =? SYSTEM_MODULE_INFORMATION_CLASS then Some (Some (8 + 296 * count_of (sn_modules sn)))
  else if class =? SYSTEM_HANDLE_INFORMATION_CLASS then Some (Some (8 + 24 * count_of (sn_handles sn)))
  else if class =? SYSTEM_EXTENDED_HANDLE_INFORMATION_CLASS then Some (Some (16 + 40 * count_of (sn_handles sn)))
  else if class =? SYSTEM_PROCESS_INFORMATION_CLASS then Some (Some (total_size layout_x64 (sn_processes sn)))
  else if class =? SYSTEM_EXTENDED_PROCESS_INFORMATION_CLASS then
    Some (if unbacked (sn_processes sn) then None else Some (total_size layout_extended (sn_processes sn)))
  else if class =? SYSTEM_PAGEFILE_INFORMATION_CLASS then Some (Some (18 + Z.of_nat (length (utf16_bytes (sn_page_file_path sn)))))
  else if class =? SYSTEM_KERNEL_DEBUGGER_INFORMATION_CLASS then Some (Some 2)
  else if class =? SYSTEM_CODE_INTEGRITY_INFORMATION_CLASS then Some (Some 8)
  else if class =? SYSTEM_RANGE_START_INFORMATION_CLASS then Some (Some 8)
  else if class =? SYSTEM_LOOKASIDE_INFORMATION_CLASS then Some (Some 40)
  else if class =? SYSTEM_BIGPOOL_INFORMATION_CLASS then Some (Some (8 + 32 * count_of (sn_pool_tags sn)))
  else if class =? SYSTEM_FIRMWARE_TABLE_INFORMATION_CLASS then Some (Some (12 + Z.of_nat (length (sn_firmware_table sn))))
  else if class =? SYSTEM_PERFORMANCE_INFORMATION_CLASS then Some (Some 312)
  else None.

Lemma table_answer {A S} header size width x (fields : Z → A → list field) rows (s : S) :
  (∀ i x, x ∈ rows → layout 0 size (fields i x)) → 0 ≤ size → 0 ≤ width ≤ header →
  header + size * count_of rows ≤ isize_max →
  ∃ bytes, build (resize_zeros (header + size * count_of rows) ;;; puts 0 [(0, width, to_le_bytes width x)] ;;;
         put_rows header size 0 fields rows) s = Done (Ok bytes) s ∧
    Z.of_nat (length bytes) = header + size * count_of rows.
Proof.
  intros Hf Hs Hw Hr. pose proof (count_layout header width x Hw) as Hh.
  eexists. split; [by apply table_run|by apply length_table].
Qed.

Lemma single_answer {S} n fs (s : S) :
  layout 0 n fs → n ≤ isize_max →
  ∃ bytes, build (resize_zeros n ;;; puts 0 fs) s = Done (Ok bytes) s ∧ Z.of_nat (length bytes) = n.
Proof. intros Hl Hn. eexists. split; [by apply single_run|]. rewrite length_render by done. lia. Qed.

Lemma processes_answer {S} L addr ps (s : S) :
  layout_ok L → total_size L ps ≤ isize_max →
  ∃ bytes, build (put_processes L addr ps) s = Done (Ok bytes) s ∧ Z.of_nat (length bytes) = total_size L ps.
Proof. intros ok Hr. eexists. split; [by apply build_processes|by apply length_entries]. Qed.

Lemma bigpool_layout i x : layout 0 32 (bigpool_fields i x).
Proof.
  unfold bigpool_fields. destruct (kg_tag x) as [[[a b] c] d]. cbn [tag_bytes]. solve_layout.
Qed.

Lemma lookaside_answer {S} o (s : S) :
  ∃ bytes, serialize_lookaside_information o s = Done (Ok bytes) s ∧ Z.of_nat (length bytes) = 40.
Proof.
  unfold serialize_lookaside_information. destruct o as [row|]; [|by eexists].
  apply single_answer; [|done]. unfold lookaside_fields. destruct (kl_tag row) as [[[a b] c] d].
  cbn [tag_bytes]. solve_layout.
Qed.

Lemma pagefile_answer {S} path t u p (s : S) :
  18 + Z.of_nat (length (utf16_bytes path)) ≤ isize_max →
  ∃ bytes, serialize_pagefile_information path t u p s = Done (Ok bytes) s ∧
    Z.of_nat (length bytes) = 18 + Z.of_nat (length (utf16_bytes path)).
Proof. intros. apply single_answer; [solve_layout|done]. Qed.

Lemma firmware_answer {S} provider id table (s : S) :
  12 + Z.of_nat (length table) ≤ isize_max →
  ∃ bytes, serialize_firmware_table_information provider id table s = Done (Ok bytes) s ∧
    Z.of_nat (length bytes) = 12 + Z.of_nat (length table).
Proof. intros. apply single_answer; [solve_layout|done]. Qed.

(** What the serializer of a class leaves. *)
Lemma serialize_class_spec class sn addr :
  sums_fit sn → (∀ n, class_size class sn = Some (Some n) → n ≤ isize_max) →
  ∃ a, serialize_class class sn addr tt = Done (Ok a) tt ∧
    match class_size class sn with
    | None => a = CaInvalid
    | Some None => a = CaUnsupported
    | Some (Some n) => ∃ bytes, a = CaBytes bytes ∧ Z.of_nat (length bytes) = n
    end.
Proof.
  intros Hsum Hroom. unfold class_size, serialize_class in *.
  assert (∀ (c : M unit (list Z)) n, (∃ bytes, c tt = Done (Ok bytes) tt ∧ Z.of_nat (length bytes) = n) →
    ∃ a, (bytes <- c ;; ret (CaBytes bytes)) tt = Done (Ok a) tt ∧
      ∃ bytes, a = CaBytes bytes ∧ Z.of_nat (length bytes) = n) as Hans.
  { intros c n (bytes & Hc & Hn). exists (CaBytes bytes). simpl. rewrite Hc. eauto. }
  repeat (match goal with |- context [if class =? ?k then _ else _] => destruct (class =? k) eqn:? end;
    [try (apply Hans; clear Hans)|]).
  - apply table_answer; [intros; apply module_layout|done|done|by apply Hroom].
  - apply table_answer; [intros; apply handle_layout|done|done|by apply Hroom].
  - apply table_answer; [intros; apply extended_handle_layout|done|done|by apply Hroom].
  - apply processes_answer; [apply layout_x64_ok|by apply Hroom].
  - unfold serialize_extended_process_information. destruct (unbacked (sn_processes sn)).
    { exists CaUnsupported. split; done. }
    destruct (processes_answer layout_extended addr (sn_processes sn) tt layout_extended_ok) as (b & Hb & Hn);
      [by apply Hroom|]. exists (CaBytes b). split; [by simpl; rewrite Hb|by exists b].
  - apply pagefile_answer. by apply Hroom.
  - by eexists.
  - apply single_answer; [solve_layout|done].
  - by eexists.
  - apply lookaside_answer.
  - apply table_answer; [intros; apply bigpool_layout|done|done|by apply Hroom].
  - apply firmware_answer. by apply Hroom.
  - by apply performance_run.
  - by exists CaInvalid.
Qed.
End Is.
