(* ===== verification/IntrospectTheorems.v ===== *)
(** * Kernel introspection: properties

    What the serializers of [casak/introspection.rs] promise to a reader of their
    buffers, and the answers of the dispatcher, from the lemmas of
    [IntrospectFacts]. *)

From stdpp Require Import list_numbers.
From S2P Require Import Prelude Strings Status Bytes Exec Introspect IntrospectFacts.

Module Ist.
Import Is.

(** ** Properties *)

(** A query returns for every class, and what it answers is decided by the size of
    the class's structure alone: a class without a structure is
    [STATUS_INVALID_INFO_CLASS], one whose fields are not backed is
    [STATUS_NOT_SUPPORTED], a caller's buffer that is too short gets
    [STATUS_INFO_LENGTH_MISMATCH] with the size needed and no bytes, and
    otherwise the answer is a structure of exactly that size.  The hypotheses
    exclude a structure beyond [isize::MAX] bytes and an overflowing sum of pool
    counters, which panic. *)
Theorem system_information_contract class sn len addr :
  sums_fit sn → (∀ n, class_size class sn = Some (Some n) → n ≤ isize_max) →
  ∃ r, serialize_system_information class sn len addr tt = Done (Ok r) tt ∧
    match class_size class sn with
    | None => r = sys_invalid_class
    | Some None => r = {| si_status := STATUS_NOT_SUPPORTED; si_required := 0; si_bytes := [] |}
    | Some (Some n) =>
        if len <? n then r = sys_mismatch n
        else si_status r = STATUS_SUCCESS ∧ si_required r = n ∧ Z.of_nat (length (si_bytes r)) = n
    end.
Proof.
  intros Hs Hn. destruct (serialize_class_spec class sn addr Hs Hn) as (a & Ha & Hspec).
  unfold serialize_system_information. cbn [bind]. rewrite Ha.
  destruct (class_size class sn) as [[n|]|]; [|subst a; by eexists..].
  destruct Hspec as (bytes & -> & <-). destruct (len <? Z.of_nat (length bytes)); by eexists.
Qed.

(** Both handle tables return and are read back through the offsets of the
    Windows layouts: the extended table loses nothing, the legacy table keeps the
    low 16 bits of the process and of the handle. *)
Theorem handle_tables_roundtrip hs :
  Forall valid_handle hs → 16 + 40 * count_of hs ≤ isize_max → u32 (count_of hs) →
  (∃ bytes, serialize_extended_handle_information hs tt = Done (Ok bytes) tt ∧
     Z.of_nat (length bytes) = 16 + 40 * count_of hs ∧
     parse_extended_handles bytes = Some (map extended_handle_view hs)) ∧
  (∃ bytes, serialize_handle_information hs tt = Done (Ok bytes) tt ∧
     Z.of_nat (length bytes) = 8 + 24 * count_of hs ∧
     parse_handles bytes = Some (map handle_view hs)).
Proof.
  intros Hv Hr Hc. rewrite Forall_forall in Hv. unfold u32, u32_max in Hc. split; eexists;
    unfold serialize_extended_handle_information, serialize_handle_information, u32_le, u64_le.
  - refine (counted_table_run _ 16 40 8 (count_of hs) extended_handle_fields extended_handle_view hs tt
      (λ i h _, extended_handle_layout i h) (λ i h Hh, extended_handle_holds i h (Hv h Hh)) _ _ Hr _); [lia|lia|].
    apply Z.mod_small. change (2 ^ (8 * 8)) with 18446744073709551616. lia.
  - refine (counted_table_run _ 8 24 4 (as_u32 (count_of hs)) handle_fields handle_view hs tt
      (λ i h _, handle_layout i h) (λ i h Hh, handle_holds i h (Hv h Hh)) _ _ _ _); [lia|lia|lia|].
    unfold as_u32. change (2 ^ 32) with 4294967296. change (2 ^ (8 * 4)) with 4294967296.
    rewrite Zmod_mod. apply Z.mod_small. lia.
Qed.

(** The module table returns; its count and, row by row, the base, the size, the
    load order, the load count are read back; a path without NUL of at most 255
    bytes is the C string of its field, and [OffsetToFileName] leads to the file
    name; of a longer path the field has the first 255 bytes and a NUL. *)
Theorem module_table_reads modules :
  Forall valid_module modules → 8 + 296 * count_of modules ≤ isize_max →
  ∃ bytes, serialize_module_information modules tt = Done (Ok bytes) tt ∧
    Z.of_nat (length bytes) = 8 + 296 * count_of modules ∧
    read_le 4 0 bytes = Some (count_of modules mod 2 ^ 32) ∧
    ∀ (i : nat) m, modules !! i = Some m →
      let entry := 8 + Z.of_nat i * 296 in
      read_le 8 (entry + 16) bytes = Some (km_base m) ∧
      read_le 4 (entry + 24) bytes = Some (km_size m) ∧
      read_le 2 (entry + 32) bytes = Some (Z.of_nat i mod 2 ^ 16) ∧
      read_le 2 (entry + 36) bytes = Some (km_load_count m) ∧
      c_string (entry + 40) bytes = until_nul (take 255 (as_bytes (km_path m))) ∧
      (NUL ∉ km_path m → str_len (km_path m) ≤ 255 →
         c_string (entry + 40) bytes = as_bytes (km_path m) ∧
         ∃ off, read_le 2 (entry + 38) bytes = Some off ∧
           c_string (entry + off) bytes = as_bytes (file_name m)).
Proof.
  intros Hv Hr. destruct (serialize_modules_run modules tt Hr) as [Hrun Hlen].
  exists (module_table modules). split_and!; [done|done| |].
  { pose proof (read_header 8 SYSTEM_MODULE_ENTRY_SIZE _ module_fields modules
      (count_layout 8 4 (as_u32 (count_of modules)) ltac:(lia)) 0 4 _ ltac:(find_field) ltac:(lia)) as Hh.
    etransitivity; [exact Hh|]. unfold as_u32. by rewrite Zmod_mod. }
  intros i m Hi entry. pose proof (list_elem_of_lookup_2 _ _ _ Hi) as Hin.
  rewrite Forall_forall in Hv. specialize (Hv m Hin). pose proof Hv as [Hb Hs Hl Hp].
  split_and!; [..|by intros; apply module_names].
  - rewrite <-(mod_u64 (km_base m)) by done. apply (module_integer modules i m 16 8); [done|done|unfold module_fields; find_field].
  - rewrite <-(mod_u32 (km_size m)) by done. apply (module_integer modules i m 24 4); [done|done|unfold module_fields; find_field].
  - etransitivity; [apply (module_integer modules i m 32 2); [done|done|unfold module_fields; find_field]|].
    unfold as_u16. by rewrite Zmod_mod.
  - rewrite <-(Z.mod_small (km_load_count m) (2 ^ (8 * 2))) by done.
    apply (module_integer modules i m 36 2); [done|done|unfold module_fields; find_field].
  - destruct (module_path modules i m Hi) as [H1 H2].
    assert (take (Z.to_nat (path_copy m)) (as_bytes (km_path m)) = take 255 (as_bytes (km_path m))) as E.
    { unfold path_copy. destruct (decide (Z.of_nat (length (as_bytes (km_path m))) ≤ 255)).
      - rewrite !take_ge by lia. done.
      - f_equal. lia. }
    rewrite E in H1. change SYSTEM_MODULE_ENTRY_SIZE with 296 in *. fold entry in H1, H2.
    by eapply c_string_terminated.
Qed.

(** A process list of any of the three layouts is as long as its processes need,
    and following [NextEntryOffset] from its start visits exactly the places
    where the processes were written if and only if every image name but the
    last is a whole number of four UTF-16 units: [NextEntryOffset] is rounded up
    to eight bytes, the next process is appended without padding. *)
Theorem process_chain_exact L ps addr :
  L ∈ layouts → ps ≠ [] → total_size L ps ≤ isize_max →
  Forall (λ p, entry_size L p + 7 ≤ u32_max) ps →
  ∃ bytes, build (put_processes L addr ps) tt = Done (Ok bytes) tt ∧
    Z.of_nat (length bytes) = total_size L ps ∧
    ∀ n, (length ps ≤ n)%nat →
      chain n 0 bytes = starts L 0 ps
      ↔ Forall (λ p, Z.of_nat (length (encode_utf16 (kp_image_name p))) mod 4 = 0) (followed ps).
Proof.
  intros HL Hne Hr Hb. pose proof (layouts_ok L HL) as ok.
  exists (entries L addr 0 ps). split_and!; [by apply build_processes|by apply length_entries|].
  intros n Hn. pose proof (chain_entries L ok addr ps [] n Hn Hne Hb) as Hc. simpl in Hc.
  rewrite Hc.
  - apply Forall_iff. intros p. by apply entry_size_aligned.
  - apply Forall_forall. intros p _. pose proof (name_offset_nonneg L ok p).
    destruct (lo_fixed L ok), (lo_thread L ok). unfold entry_size, name_offset, count_of in *. nia.
Qed.

(** C34 - The extended (x64) list loses nothing: when the chain can be followed, a
    reader that follows [NextEntryOffset], reads each process and its threads at
    the offsets of the Windows structures, and finds the name through its
    pointer, gets the processes back, whatever the address of the buffer. *)
Theorem extended_process_roundtrip ps addr :
  ps ≠ [] → Forall valid_process ps → unbacked ps = false →
  total_size layout_extended ps ≤ isize_max →
  Forall (λ p, entry_size layout_extended p + 7 ≤ u32_max) ps →
  Forall (λ p, Z.of_nat (length (encode_utf16 (kp_image_name p))) mod 4 = 0) (followed ps) →
  ∃ bytes, serialize_extended_process_information ps addr tt = Done (Ok (Some bytes)) tt ∧
    parse_processes (length ps) addr 0 bytes = Some ps.
Proof.
  intros Hne Hv Hu Hr Hb Ha. pose proof layout_extended_ok as ok.
  exists (entries layout_extended addr 0 ps). split.
  - unfold serialize_extended_process_information. rewrite Hu. cbn [bind]. by rewrite build_processes.
  - apply (parse_entries addr ps [] (length ps)); try done.
    + eapply Forall_impl; [exact Ha|]. intros p. by apply entry_size_aligned.
    + unfold isize_max, u64_max in *. simpl. lia.
Qed.

(** In all three layouts every field of every process and thread, and every
    name, lies where the layout says, relative to the place of its process. *)
Theorem process_list_layout L ps addr :
  L ∈ layouts → total_size L ps ≤ isize_max →
  ∃ bytes, build (put_processes L addr ps) tt = Done (Ok bytes) tt ∧
    ∀ (i : nat) p start, ps !! i = Some p → starts L 0 ps !! i = Some start →
      let is_last := bool_decide (S i = length ps) in
      (∀ a b d, (a, b, d) ∈ pl_process_fields L p (next_of L is_last p) (Z.of_nat (length (name_bytes p)))
                              ((addr + start + name_offset L p) mod 2 ^ 64) →
         slice (start + a) (b - a) bytes = Some d) ∧
      (∀ (j : nat) t a b d, kp_threads p !! j = Some t → (a, b, d) ∈ pl_thread_fields L p t →
         slice (start + pl_fixed L + Z.of_nat j * pl_thread_size L + a) (b - a) bytes = Some d) ∧
      slice (start + name_offset L p) (Z.of_nat (length (name_bytes p))) bytes = Some (name_bytes p).
Proof.
  intros HL Hr. pose proof (layouts_ok L HL) as ok.
  exists (entries L addr 0 ps). split; [by apply build_processes|]. intros i p start Hp Hs.
  destruct (entries_split L ok addr ps 0 i p start Hp Hs) as (l & r & -> & Hl).
  replace start with (Z.of_nat (length l)) by lia. apply (entry_layout L ok addr l).
Qed.

Lemma nodup_map_filter {A B} (f : A → B) (P : A → Prop) `{∀ x, Decision (P x)} l :
  NoDup (map f l) → NoDup (map f (filter P l)).
Proof.
  induction l as [|x l IH]; [done|]. intros [Hx Hl]%NoDup_cons. rewrite filter_cons.
  case_decide; [|auto]. simpl. apply NoDup_cons. split; [|auto].
  intros (y & Hy & [_ Hin]%list_elem_of_filter)%list_elem_of_fmap. apply Hx. rewrite Hy.
  by apply list_elem_of_fmap_2.
Qed.

(** The module list of a snapshot is the main image (when one is mapped) and the
    DLLs at other bases, sorted by base, no base twice when the loader's table
    has none twice; a module is kernel-mode exactly when it is a DLL whose
    recorded path ends in [.sys] whatever the case. *)
Theorem assembled_modules_exact base size main_path main_name dlls names :
  let modules := assemble_modules base size main_path main_name dlls names in
  let path := if str_is_empty main_path then main_name else main_path in
  Sorted module_le modules ∧
  (NoDup (map dll_handle dlls) → NoDup (map km_base modules)) ∧
  ∀ m, m ∈ modules ↔
    (base ≠ 0 ∧ m = {| km_base := base; km_size := size; km_path := path; km_load_count := 1;
                       km_entry_rva := 0; km_kernel_mode := false |})
    ∨ (∃ d, d ∈ dlls ∧ dll_handle d ≠ base ∧ m = dll_module names d).
Proof.
  intros modules path. subst modules. unfold assemble_modules. fold path.
  set (main := if negb (base =? 0) then _ else _).
  assert (∀ l acc, push_dlls base names l acc
    = acc ++ map (dll_module names) (filter (λ d, dll_handle d ≠ base) l)) as Hpush.
  { clear. induction l as [|d l IH]; intros acc; simpl; [by rewrite app_nil_r|]. rewrite filter_cons.
    destruct (Z.eqb_spec (dll_handle d) base); [by rewrite decide_False by tauto|].
    by rewrite decide_True, IH, <-app_assoc. }
  rewrite Hpush. set (rest := map _ (filter _ dlls)).
  pose proof (merge_sort_Permutation module_le (main ++ rest)) as Hperm. split_and!.
  - apply Sorted_merge_sort. intros x y. unfold module_le. lia.
  - intros Hd. rewrite Hperm, map_app. apply NoDup_app. split_and!.
    + subst main. case_match; simpl; [apply NoDup_singleton|constructor].
    + intros x Hx (m & -> & Hm)%list_elem_of_fmap. subst main rest.
      apply list_elem_of_fmap in Hm as (d & -> & [Hne _]%list_elem_of_filter).
      apply Hne. destruct (negb _); simpl in Hx; [|by apply not_elem_of_nil in Hx].
      apply list_elem_of_singleton in Hx. destruct d as [[[[h sz] nm] lc] rva]. done.
    + subst rest. rewrite map_map.
      assert (∀ l, map (λ d, km_base (dll_module names d)) l = map dll_handle l) as ->.
      { clear. induction l as [|[[[[h sz] nm] lc] rva] l IH]; [done|]. simpl. by rewrite IH. }
      by apply nodup_map_filter.
  - intros m. rewrite Hperm, elem_of_app. f_equiv.
    + subst main. destruct (Z.eqb_spec base 0); simpl.
      * rewrite elem_of_nil. naive_solver.
      * rewrite list_elem_of_singleton. naive_solver.
    + subst rest. rewrite list_elem_of_fmap. setoid_rewrite list_elem_of_filter. naive_solver.
Qed.

(** ** Concrete runs *)

Definition demo_handle : KernelHandle :=
  {| kh_handle := 0x40; kh_object := 0x1000; kh_process_id := 8; kh_access := 0x1F0003;
     kh_object_type_index := 2; kh_pointer_count := 1; kh_handle_count := 1 |}.
Definition demo_module : KernelModule :=
  {| km_base := 0x140000000; km_size := 0x5000; km_path := lit "C:\game.exe"; km_load_count := 1;
     km_entry_rva := 0; km_kernel_mode := false |}.
Definition demo_thread : KernelThread :=
  {| kt_thread_id := 4; kt_create_time := 1; kt_user_time := -1; kt_kernel_time := 3; kt_start_address := 0x1000;
     kt_win32_start_address := 0x1000; kt_priority := 8; kt_base_priority := -2; kt_context_switches := 0;
     kt_state := 5; kt_wait_reason := 0; kt_wait_time := 0; kt_teb_base := 0x7000; kt_stack_base := 0x9000;
     kt_stack_limit := 0x8000 |}.
Definition demo_process (pid : Z) (name : str) : KernelProcess :=
  {| kp_pid := pid; kp_parent_pid := 0; kp_image_name := name; kp_base_priority := 8; kp_handle_count := 1;
     kp_session_id := 1; kp_create_time := 1; kp_user_time := 2; kp_kernel_time := 3; kp_virtual_size := 4096;
     kp_peak_virtual_size := 4096; kp_working_set := 4096; kp_peak_working_set := 4096;
     kp_page_fault_count := 0; kp_threads := [demo_thread] |}.
Definition demo_list : list KernelProcess := [demo_process 4 (lit "game.exe"); demo_process 8 (lit "a.exe")].
Definition demo_snapshot : KernelSnapshot :=
  {| sn_processor_count := 8; sn_active_processor_mask := 255; sn_system_time := 0; sn_boot_time := 0;
     sn_range_start := system_range_start true; sn_modules := [demo_module]; sn_processes := demo_list;
     sn_handles := [demo_handle]; sn_pool_tags := []; sn_pool_used_bytes := 0; sn_pool_budget_bytes := 0;
     sn_lookaside := []; sn_debugger_present := false; sn_debugger_enabled := false;
     sn_code_integrity_options := 1; sn_firmware_provider := 0; sn_firmware_table_id := 0;
     sn_firmware_table := []; sn_page_file_path := []; sn_page_file_total_pages := 0;
     sn_page_file_in_use_pages := 0; sn_page_file_peak_pages := 0; sn_installed_memory_bytes := 0 |}.

(** A name of five units before another process: the chain leaves the list. *)
Example chain_broken :
  match build (put_processes layout_x64 0 [demo_process 4 (lit "a.exe"); demo_process 8 (lit "b.exe")]) tt with
  | Done (Ok bytes) _ => (chain 2 0 bytes, starts layout_x64 0 [demo_process 4 (lit "a.exe"); demo_process 8 (lit "b.exe")])
  | _ => ([], [])
  end = ([0; 352], [0; 346]).
Proof. by vm_compute. Qed.

Ltac bounded := vm_compute; split; discriminate.

Lemma demo_thread_valid : valid_thread demo_thread.
Proof. split; try bounded; vm_compute; split; (discriminate || reflexivity). Qed.
Lemma scalars_below s : forallb (λ c, (0 <=? c) && (c <? 0xD800)) s = true → Forall scalar s.
Proof.
  induction s as [|c s IH]; [constructor|]. simpl. rewrite !andb_true_iff, Z.leb_le, Z.ltb_lt.
  intros [Hc Hs]. constructor; [by left|auto].
Qed.
Lemma demo_process_valid pid name :
  u32 pid → Forall scalar name → Z.of_nat (length (utf16_bytes name)) < 65536 → valid_process (demo_process pid name).
Proof.
  intros Hp Hn Hl. split; try done; try bounded; try (vm_compute; split; (discriminate || reflexivity)).
  repeat constructor; apply demo_thread_valid.
Qed.
Lemma demo_list_valid : Forall valid_process demo_list.
Proof.
  apply Forall_cons. split; [|apply Forall_singleton];
    (apply demo_process_valid; [bounded|by apply scalars_below|by vm_compute]).
Qed.
Lemma demo_sizes L : L ∈ layouts → total_size L demo_list ≤ isize_max ∧
  Forall (λ p, entry_size L p + 7 ≤ u32_max) demo_list.
Proof.
  unfold layouts. rewrite !elem_of_cons, elem_of_nil. intros [->|[->|[->|[]]]];
    (split; [by vm_compute|repeat constructor; by vm_compute]).
Qed.

Lemma system_information_contract_witness :
  ∃ r, serialize_system_information SYSTEM_HANDLE_INFORMATION_CLASS demo_snapshot 8 0 tt = Done (Ok r) tt ∧
    r = sys_mismatch 32.
Proof.
  refine (system_information_contract SYSTEM_HANDLE_INFORMATION_CLASS demo_snapshot 8 0 _ _).
  - split; (split; [constructor|by vm_compute]).
  - intros n [= <-]. by vm_compute.
Defined.

Lemma handle_tables_roundtrip_witness :
  (∃ bytes, serialize_extended_handle_information [demo_handle] tt = Done (Ok bytes) tt ∧
     Z.of_nat (length bytes) = 56 ∧
     parse_extended_handles bytes = Some [[0x1000; 8; 0x40; 0x1F0003; 0; 2; 0; 1]]) ∧
  (∃ bytes, serialize_handle_information [demo_handle] tt = Done (Ok bytes) tt ∧
     Z.of_nat (length bytes) = 32 ∧ parse_handles bytes = Some [[8; 0; 2; 0; 0x40; 0x1000; 0x1F0003]]).
Proof.
  refine (handle_tables_roundtrip [demo_handle] _ _ _); [|by vm_compute|bounded].
  apply Forall_singleton. split; bounded.
Defined.

Lemma module_table_reads_witness :
  ∃ bytes, serialize_module_information [demo_module] tt = Done (Ok bytes) tt ∧
    c_string 48 bytes = as_bytes (lit "C:\game.exe") ∧ read_le 2 46 bytes = Some 43.
Proof.
  assert (NUL ∉ km_path demo_module) as Hn by (by apply (bool_decide_unpack _)).
  destruct (module_table_reads [demo_module]) as (bytes & Hr & _ & _ & Hm).
  - apply Forall_singleton. split; [bounded|bounded|by vm_compute|by apply scalars_below].
  - by vm_compute.
  - exists bytes. destruct (Hm 0%nat demo_module eq_refl) as (_ & _ & _ & _ & _ & Hp).
    split; [exact Hr|]. destruct (Hp Hn) as [H1 _]; [by vm_compute|]. split; [exact H1|].
    apply (f_equal (λ o, match o with Done (Ok b) _ => read_le 2 46 b | _ => None end)) in Hr.
    simpl in Hr. rewrite <-Hr. by vm_compute.
Defined.

Lemma process_chain_exact_witness :
  ∃ bytes, build (put_processes layout_x64 0 demo_list) tt = Done (Ok bytes) tt ∧ chain 2 0 bytes = [0; 352].
Proof.
  destruct (demo_sizes layout_x64) as [H1 H2]; [set_solver|].
  destruct (process_chain_exact layout_x64 demo_list 0) as (bytes & Hr & _ & Hc); [set_solver|done|done|done|].
  exists bytes. split; [exact Hr|]. apply (Hc 2%nat); [done|]. by repeat constructor.
Defined.

Lemma extended_process_roundtrip_witness :
  ∃ bytes, serialize_extended_process_information demo_list 0x5000 tt = Done (Ok (Some bytes)) tt ∧
    parse_processes 2 0x5000 0 bytes = Some demo_list.
Proof.
  destruct (demo_sizes layout_extended) as [H1 H2]; [set_solver|].
  refine (extended_process_roundtrip demo_list 0x5000 _ demo_list_valid _ H1 H2 _); [done|done|].
  by repeat constructor.
Defined.

Lemma process_list_layout_witness :
  ∃ bytes, build (put_processes layout_extended_x86 0 demo_list) tt = Done (Ok bytes) tt ∧
    slice (entry_size layout_extended_x86 (demo_process 4 (lit "game.exe")) + 0xB8 + 0x4C) 4 bytes = Some (u32_le 0x7000).
Proof.
  destruct (demo_sizes layout_extended_x86) as [H1 _]; [set_solver|].
  destruct (process_list_layout layout_extended_x86 demo_list 0) as (bytes & Hr & Hl); [set_solver|done|].
  exists bytes. split; [exact Hr|].
  destruct (Hl 1%nat (demo_process 8 (lit "a.exe")) (entry_size layout_extended_x86 (demo_process 4 (lit "game.exe"))) eq_refl eq_refl)
    as (_ & Ht & _).
  refine (Ht 0%nat demo_thread 0x4C 0x50 (u32_le 0x7000) eq_refl _). simpl. find_field.
Defined.
End Ist.
