(* ===== verification/Flags.v ===== *)
(** * x86 flags: [cpu/flags.rs]

    The six arithmetic flags, the parked (lazy) computation of them, the condition
    codes, and the bit scatter and gather of PDEP and PEXT.  A [u64] is a [Z]
    below [2 ^ 64]; [width] is a width in bits, 8 to 64. *)

From S2P Require Import Prelude.

Definition wrap64 (x : Z) : Z := x mod 2 ^ 64.
Definition wrapping_add64 (x y : Z) : Z := wrap64 (x + y).
Definition wrapping_sub64 (x y : Z) : Z := wrap64 (x - y).

(** [cpu/interpreter.rs]: the mask of a width in bytes. *)
Definition width_mask (width : Z) : Z :=
  if width =? 1 then 0xff else if width =? 2 then 0xffff
  else if width =? 4 then 0xffffffff else u64_max.

Record Flags := { cf : bool; pf : bool; af : bool; zf : bool; sf : bool; of_ : bool }.
Definition no_flags : Flags :=
  {| cf := false; pf := false; af := false; zf := false; sf := false; of_ := false |}.

Inductive FlagOp := FoAdd | FoSub | FoLogic.

(** [value.count_ones()] of a [w]-bit value. *)
Fixpoint count_ones (w : nat) (x : Z) : Z :=
  match w with
  | O => 0
  | S w => Z.b2z (Z.odd x) + count_ones w (Z.shiftr x 1)
  end.

(** [parity(value as u8)] *)
Definition parity (value : Z) : bool := Z.even (count_ones 8 (value mod 2 ^ 8)).

Definition sign_bit (width : Z) : Z := Z.shiftl 1 (width - 1).

Definition add_flags (lhs rhs result width : Z) : Flags :=
  {| cf := result <? lhs;
     pf := parity result;
     af := negb (Z.land (Z.lxor (Z.lxor lhs rhs) result) 0x10 =? 0);
     zf := result =? 0;
     sf := negb (Z.land result (sign_bit width) =? 0);
     of_ := negb (Z.land (Z.land (not_u64 (Z.lxor lhs rhs)) (Z.lxor lhs result)) (sign_bit width) =? 0) |}.

Definition signed_value (value width : Z) : Z :=
  if negb (Z.land value (sign_bit width) =? 0) then value - Z.shiftl 1 width else value.

Definition adc_flags (lhs rhs carry result width : Z) : Flags :=
  let mask := if width =? 64 then u64_max else Z.shiftl 1 width - 1 in
  let unsigned_sum := lhs + rhs + carry in
  let signed_sum := signed_value lhs width + signed_value rhs width + carry in
  let min_signed := - Z.shiftl 1 (width - 1) in
  let max_signed := Z.shiftl 1 (width - 1) - 1 in
  {| cf := mask <? unsigned_sum;
     pf := parity result;
     af := 0x0f <? Z.land lhs 0x0f + Z.land rhs 0x0f + carry;
     zf := result =? 0;
     sf := negb (Z.land result (sign_bit width) =? 0);
     of_ := (signed_sum <? min_signed) || (max_signed <? signed_sum) |}.

Definition sub_flags (lhs rhs result width : Z) : Flags :=
  {| cf := lhs <? rhs;
     pf := parity result;
     af := negb (Z.land (Z.lxor (Z.lxor lhs rhs) result) 0x10 =? 0);
     zf := result =? 0;
     sf := negb (Z.land result (sign_bit width) =? 0);
     of_ := negb (Z.land (Z.land (Z.lxor lhs rhs) (Z.lxor lhs result)) (sign_bit width) =? 0) |}.

Definition sbb_flags (lhs rhs borrow result width : Z) : Flags :=
  let rhs_with_borrow := Z.land (wrapping_add64 rhs borrow) (width_mask (width / 8)) in
  {| cf := lhs <? rhs + borrow;
     pf := parity result;
     af := negb (Z.land (Z.lxor (Z.lxor lhs rhs_with_borrow) result) 0x10 =? 0);
     zf := result =? 0;
     sf := negb (Z.land result (sign_bit width) =? 0);
     of_ := negb (Z.land (Z.land (Z.lxor lhs rhs_with_borrow) (Z.lxor lhs result)) (sign_bit width) =? 0) |}.

Definition logic_flags (result width : Z) : Flags :=
  {| cf := false; pf := parity result; af := false; zf := result =? 0;
     sf := negb (Z.land result (sign_bit width) =? 0); of_ := false |}.

(** A parked computation. *)
Record PendingFlags := {
  pe_lhs : Z; pe_rhs : Z; pe_result : Z; pe_op : FlagOp; pe_width_bits : Z }.

Definition evaluate (p : PendingFlags) : Flags :=
  match pe_op p with
  | FoAdd => add_flags (pe_lhs p) (pe_rhs p) (pe_result p) (pe_width_bits p)
  | FoSub => sub_flags (pe_lhs p) (pe_rhs p) (pe_result p) (pe_width_bits p)
  | FoLogic => logic_flags (pe_result p) (pe_width_bits p)
  end.

Record LazyFlagStats := { ls_materialised : Z; ls_skipped : Z }.
Definition no_flag_stats : LazyFlagStats := {| ls_materialised := 0; ls_skipped := 0 |}.

(** The three telemetry counters, shared by every execution. *)
Record LazyFlagTelemetry := { lt_deferred : Z; lt_materialised : Z; lt_skipped : Z }.

(** [fetch_add] wraps around; the sum [materialised + skipped] is checked. *)
Definition flush_lazy_flag_stats (stats : LazyFlagStats) : M LazyFlagTelemetry unit :=
  deferred <- add_at u64_max (ls_materialised stats) (ls_skipped stats) ;;
  modify (λ t,
    {| lt_deferred := if deferred =? 0 then lt_deferred t else wrapping_add64 (lt_deferred t) deferred;
       lt_materialised := if ls_materialised stats =? 0 then lt_materialised t
                          else wrapping_add64 (lt_materialised t) (ls_materialised stats);
       lt_skipped := if ls_skipped stats =? 0 then lt_skipped t
                     else wrapping_add64 (lt_skipped t) (ls_skipped stats) |}).

(** ** Condition codes *)

Inductive ConditionCode :=
| CcEqual | CcNotEqual | CcOverflow | CcNotOverflow | CcBelow | CcNotBelow | CcAbove | CcNotAbove
| CcSign | CcNotSign | CcLess | CcGreaterEqual | CcLessEqual | CcGreater | CcParity | CcNotParity.

Definition evaluate_condition (condition : ConditionCode) (flags : Flags) : bool :=
  match condition with
  | CcEqual => zf flags
  | CcNotEqual => negb (zf flags)
  | CcOverflow => of_ flags
  | CcNotOverflow => negb (of_ flags)
  | CcBelow => cf flags
  | CcNotBelow => negb (cf flags)
  | CcAbove => negb (cf flags) && negb (zf flags)
  | CcNotAbove => cf flags || zf flags
  | CcSign => sf flags
  | CcNotSign => negb (sf flags)
  | CcLess => negb (eqb (sf flags) (of_ flags))
  | CcGreaterEqual => eqb (sf flags) (of_ flags)
  | CcLessEqual => zf flags || negb (eqb (sf flags) (of_ flags))
  | CcGreater => negb (zf flags) && eqb (sf flags) (of_ flags)
  | CcParity => pf flags
  | CcNotParity => negb (pf flags)
  end.

(** The interpreter's own copy. *)
Definition condition_holds (flags : Flags) (condition : ConditionCode) : bool :=
  match condition with
  | CcEqual => zf flags
  | CcNotEqual => negb (zf flags)
  | CcOverflow => of_ flags
  | CcNotOverflow => negb (of_ flags)
  | CcBelow => cf flags
  | CcNotBelow => negb (cf flags)
  | CcAbove => negb (cf flags) && negb (zf flags)
  | CcNotAbove => cf flags || zf flags
  | CcSign => sf flags
  | CcNotSign => negb (sf flags)
  | CcLess => negb (eqb (sf flags) (of_ flags))
  | CcGreaterEqual => eqb (sf flags) (of_ flags)
  | CcLessEqual => zf flags || negb (eqb (sf flags) (of_ flags))
  | CcGreater => negb (zf flags) && eqb (sf flags) (of_ flags)
  | CcParity => pf flags
  | CcNotParity => negb (pf flags)
  end.

(** ** PDEP and PEXT *)

(** [mask.isolate_lowest_one()] *)
Definition isolate_lowest_one (x : Z) : Z := Z.land x (wrap64 (- x)).

(** [while mask != 0]; the fuel bounds the turns, [None] when it runs out. *)
Fixpoint deposit_loop (fuel : nat) (source mask result : Z) : option Z :=
  if mask =? 0 then Some result
  else match fuel with
       | O => None
       | S fuel =>
           let lowest := isolate_lowest_one mask in
           let result := if negb (Z.land source 1 =? 0) then Z.lor result lowest else result in
           deposit_loop fuel (Z.shiftr source 1) (Z.land mask (mask - 1)) result
       end.
Definition bit_deposit (source mask : Z) : option Z := deposit_loop 64 source mask 0.

Fixpoint extract_loop (fuel : nat) (source mask result bit : Z) : option Z :=
  if mask =? 0 then Some result
  else match fuel with
       | O => None
       | S fuel =>
           let lowest := isolate_lowest_one mask in
           let result := if negb (Z.land source lowest =? 0)
                         then Z.lor result (Z.shiftl 1 bit) else result in
           extract_loop fuel source (Z.land mask (mask - 1)) result (bit + 1)
       end.
Definition bit_extract (source mask : Z) : option Z := extract_loop 64 source mask 0 0.
