(* ===== verification/FlagsFacts.v ===== *)
(** * x86 flags: what they say

    The flag formulas against integer arithmetic: carry, zero, sign, overflow and
    auxiliary carry of a [width]-bit addition or subtraction, in terms of the
    unsigned and signed values; the condition codes after a comparison; where SBB
    differs; the scatter and gather loops against their specification. *)

From S2P Require Import Prelude Flags.

Module Fl.

(** The signed value of a [w]-bit integer, and its range. *)
Definition signed (w x : Z) : Z := if x <? 2 ^ (w - 1) then x else x - 2 ^ w.
Definition fits_signed (w x : Z) : bool := (- 2 ^ (w - 1) <=? x) && (x <? 2 ^ (w - 1)).
Definition is_width (w : Z) : Prop := w = 8 ∨ w = 16 ∨ w = 32 ∨ w = 64.
Definition in_width (w x : Z) : Prop := 0 ≤ x < 2 ^ w.

Lemma width_bounds w : is_width w → 8 ≤ w ≤ 64.
Proof. unfold is_width. lia. Qed.

Lemma half w : 1 ≤ w → 2 ^ w = 2 * 2 ^ (w - 1).
Proof. intros. rewrite <-Z.pow_succ_r by lia. f_equal. lia. Qed.

(** ** Bits *)

Lemma testbit_pow x i : 0 ≤ i → negb (Z.land x (Z.shiftl 1 i) =? 0) = Z.testbit x i.
Proof.
  intros Hi. destruct (Z.testbit x i) eqn:E.
  - apply negb_true_iff, Z.eqb_neq. intros H0.
    assert (Z.testbit (Z.land x (Z.shiftl 1 i)) i = true) as H1.
    { rewrite Z.land_spec, E, Z.shiftl_spec by lia. by rewrite Z.sub_diag. }
    by rewrite H0, Z.testbit_0_l in H1.
  - apply negb_false_iff, Z.eqb_eq, Z.bits_inj'. intros j Hj.
    rewrite Z.land_spec, Z.testbit_0_l, Z.shiftl_1_l, Z.pow2_bits_eqb by lia.
    destruct (Z.eqb_spec i j) as [->|]; [by rewrite E|by rewrite andb_false_r].
Qed.

Lemma testbit_sign x w : 1 ≤ w → negb (Z.land x (sign_bit w) =? 0) = Z.testbit x (w - 1).
Proof. intros. apply testbit_pow. lia. Qed.
Lemma testbit_nibble x : negb (Z.land x 0x10 =? 0) = Z.testbit x 4.
Proof. change 0x10 with (Z.shiftl 1 4). by apply testbit_pow. Qed.

Lemma testbit_not_u64 x i : 0 ≤ i < 64 → Z.testbit (not_u64 x) i = negb (Z.testbit x i).
Proof.
  intros Hi. unfold not_u64. rewrite Z.lxor_spec. change u64_max with (Z.ones 64).
  rewrite Z.ones_spec_low by lia. apply xorb_true_r.
Qed.

(** The top bit says whether the value is in the upper half. *)
Lemma testbit_top w x : 1 ≤ w → in_width w x → Z.testbit x (w - 1) = (2 ^ (w - 1) <=? x).
Proof.
  intros Hw Hx. unfold in_width in Hx. pose proof (half w Hw) as E.
  rewrite Z.testbit_odd, Z.shiftr_div_pow2 by lia. destruct (Z.leb_spec (2 ^ (w - 1)) x).
  - replace (x / 2 ^ (w - 1)) with 1; [done|]. apply (Z.div_unique_pos _ _ _ (x - 2 ^ (w - 1))); lia.
  - by rewrite Z.div_small by lia.
Qed.

(** Bit 4 from the quotient by 16. *)
Lemma testbit_4 x : Z.testbit x 4 = Z.odd (x / 16).
Proof. by rewrite Z.testbit_odd, Z.shiftr_div_pow2 by lia. Qed.

Lemma odd_mod x : Z.odd x = (x mod 2 =? 1).
Proof. rewrite Zmod_odd. by destruct (Z.odd x). Qed.

(** A sum modulo [2 ^ w] has the bit 4 of the plain sum. *)
Lemma testbit_4_mod w x : 8 ≤ w → Z.testbit (x mod 2 ^ w) 4 = Z.testbit x 4.
Proof. intros. by rewrite Z.mod_pow2_bits_low by lia. Qed.

Lemma add_carry_bit l r c :
  0 ≤ c ≤ 1 → xorb (xorb (Z.testbit l 4) (Z.testbit r 4)) (Z.testbit (l + r + c) 4)
  = (15 <? l mod 16 + r mod 16 + c).
Proof.
  intros Hc. rewrite !testbit_4, !odd_mod.
  destruct (Z.ltb_spec 15 (l mod 16 + r mod 16 + c));
    destruct (Z.eqb_spec (l / 16 mod 2) 1), (Z.eqb_spec (r / 16 mod 2) 1),
      (Z.eqb_spec ((l + r + c) / 16 mod 2) 1); try done; exfalso;
    Z.div_mod_to_equations; lia.
Qed.

Lemma sub_borrow_bit l r c :
  0 ≤ c ≤ 1 → xorb (xorb (Z.testbit l 4) (Z.testbit r 4)) (Z.testbit (l - r - c) 4)
  = (l mod 16 <? r mod 16 + c).
Proof.
  intros Hc. rewrite !testbit_4, !odd_mod.
  destruct (Z.ltb_spec (l mod 16) (r mod 16 + c));
    destruct (Z.eqb_spec (l / 16 mod 2) 1), (Z.eqb_spec (r / 16 mod 2) 1),
      (Z.eqb_spec ((l - r - c) / 16 mod 2) 1); try done; exfalso;
    Z.div_mod_to_equations; lia.
Qed.

Lemma signed_value_spec w x : 1 ≤ w → in_width w x → signed_value x w = signed w x.
Proof.
  intros Hw Hx. unfold signed_value, signed. rewrite testbit_sign, testbit_top by done.
  rewrite Z.shiftl_1_l. destruct (Z.leb_spec (2 ^ (w - 1)) x), (Z.ltb_spec x (2 ^ (w - 1))); lia.
Qed.

(** A value modulo [2 ^ w] that is at most one turn away. *)
Lemma mod_turn w x : 0 ≤ w → - 2 ^ w ≤ x < 2 * 2 ^ w →
  x mod 2 ^ w = if x <? 0 then x + 2 ^ w else if x <? 2 ^ w then x else x - 2 ^ w.
Proof.
  intros Hw Hx. symmetry. destruct (Z.ltb_spec x 0); [|destruct (Z.ltb_spec x (2 ^ w))].
  - apply (Z.mod_unique_pos _ _ (-1)); lia.
  - rewrite Z.mod_small; lia.
  - apply (Z.mod_unique_pos _ _ 1); lia.
Qed.

(** ** The specification *)

(** Flags of a [w]-bit result: of the exact unsigned value [u] and the exact
    signed value [s] of the operation, with its carry out of bit 3. *)
Definition flags_spec (w u s : Z) (carry aux : bool) : Flags :=
  let result := u mod 2 ^ w in
  {| cf := carry; pf := parity result; af := aux; zf := result =? 0;
     sf := 2 ^ (w - 1) <=? result; of_ := negb (fits_signed w s) |}.

(** The overflow formula of an addition, from the top bits. *)
Lemma add_overflow w l r c :
  1 ≤ w → in_width w l → in_width w r → 0 ≤ c ≤ 1 →
  let result := (l + r + c) mod 2 ^ w in
  negb (xorb (2 ^ (w - 1) <=? l) (2 ^ (w - 1) <=? r)) && xorb (2 ^ (w - 1) <=? l) (2 ^ (w - 1) <=? result)
  = negb (fits_signed w (signed w l + signed w r + c)).
Proof.
  intros Hw Hl Hr Hc result. subst result. unfold in_width, fits_signed, signed in *.
  pose proof (half w Hw) as E. rewrite mod_turn by lia.
  destruct (Z.leb_spec (2 ^ (w - 1)) l), (Z.ltb_spec l (2 ^ (w - 1))); try lia;
  destruct (Z.leb_spec (2 ^ (w - 1)) r), (Z.ltb_spec r (2 ^ (w - 1))); try lia;
  destruct (Z.ltb_spec (l + r + c) 0); try lia;
  destruct (Z.ltb_spec (l + r + c) (2 ^ w)); try lia;
  repeat match goal with |- context [?a <=? ?b] => destruct (Z.leb_spec a b) end;
  repeat match goal with |- context [?a <? ?b] => destruct (Z.ltb_spec a b) end; (done || (exfalso; lia)).
Qed.

Lemma sub_overflow w l r c :
  1 ≤ w → in_width w l → in_width w r → 0 ≤ c ≤ 1 →
  let result := (l - r - c) mod 2 ^ w in
  xorb (2 ^ (w - 1) <=? l) (2 ^ (w - 1) <=? r) && xorb (2 ^ (w - 1) <=? l) (2 ^ (w - 1) <=? result)
  = negb (fits_signed w (signed w l - signed w r - c)).
Proof.
  intros Hw Hl Hr Hc result. subst result. unfold in_width, fits_signed, signed in *.
  pose proof (half w Hw) as E. rewrite mod_turn by lia.
  destruct (Z.leb_spec (2 ^ (w - 1)) l), (Z.ltb_spec l (2 ^ (w - 1))); try lia;
  destruct (Z.leb_spec (2 ^ (w - 1)) r), (Z.ltb_spec r (2 ^ (w - 1))); try lia;
  destruct (Z.ltb_spec (l - r - c) 0); try lia;
  destruct (Z.ltb_spec (l - r - c) (2 ^ w)); try lia;
  repeat match goal with |- context [?a <=? ?b] => destruct (Z.leb_spec a b) end;
  repeat match goal with |- context [?a <? ?b] => destruct (Z.ltb_spec a b) end; (done || (exfalso; lia)).
Qed.

Lemma in_width_mod w x : 0 ≤ w → in_width w (x mod 2 ^ w).
Proof. intros. apply Z.mod_pos_bound. lia. Qed.

(** The sign bit of an expression of top bits. *)
Lemma of_add_formula w l r res :
  1 ≤ w ≤ 64 → in_width w l → in_width w r → in_width w res →
  negb (Z.land (Z.land (not_u64 (Z.lxor l r)) (Z.lxor l res)) (sign_bit w) =? 0)
  = negb (xorb (2 ^ (w - 1) <=? l) (2 ^ (w - 1) <=? r)) && xorb (2 ^ (w - 1) <=? l) (2 ^ (w - 1) <=? res).
Proof.
  intros. rewrite testbit_sign, Z.land_spec, testbit_not_u64, !Z.lxor_spec by lia.
  by rewrite !testbit_top by (done || lia).
Qed.

Lemma of_sub_formula w l r res :
  1 ≤ w → in_width w l → in_width w r → in_width w res →
  negb (Z.land (Z.land (Z.lxor l r) (Z.lxor l res)) (sign_bit w) =? 0)
  = xorb (2 ^ (w - 1) <=? l) (2 ^ (w - 1) <=? r) && xorb (2 ^ (w - 1) <=? l) (2 ^ (w - 1) <=? res).
Proof.
  intros. rewrite testbit_sign, Z.land_spec, !Z.lxor_spec by lia. by rewrite !testbit_top by (done || lia).
Qed.

Lemma sf_formula w res : 1 ≤ w → in_width w res → negb (Z.land res (sign_bit w) =? 0) = (2 ^ (w - 1) <=? res).
Proof. intros. rewrite testbit_sign by done. by apply testbit_top. Qed.

Lemma add_flags_spec w l r :
  is_width w → in_width w l → in_width w r →
  add_flags l r ((l + r) mod 2 ^ w) w
  = flags_spec w (l + r) (signed w l + signed w r) (2 ^ w <=? l + r) (15 <? l mod 16 + r mod 16).
Proof.
  intros Hw Hl Hr. pose proof (width_bounds w Hw). pose proof (in_width_mod w (l + r) ltac:(lia)) as Hres.
  unfold add_flags, flags_spec. f_equal.
  - unfold in_width in *. rewrite mod_turn by lia.
    destruct (Z.ltb_spec (l + r) 0); [lia|].
    destruct (Z.leb_spec (2 ^ w) (l + r)), (Z.ltb_spec (l + r) (2 ^ w)); lia.
  - rewrite testbit_nibble, !Z.lxor_spec, testbit_4_mod by lia.
    pose proof (add_carry_bit l r 0 ltac:(lia)) as E. by rewrite !Z.add_0_r in E.
  - by apply sf_formula; [lia|].
  - rewrite of_add_formula by (done || lia).
    pose proof (add_overflow w l r 0 ltac:(lia) Hl Hr ltac:(lia)) as E. by rewrite !Z.add_0_r in E.
Qed.

Lemma sub_flags_spec w l r :
  is_width w → in_width w l → in_width w r →
  sub_flags l r ((l - r) mod 2 ^ w) w
  = flags_spec w (l - r) (signed w l - signed w r) (l <? r) (l mod 16 <? r mod 16).
Proof.
  intros Hw Hl Hr. pose proof (width_bounds w Hw). pose proof (in_width_mod w (l - r) ltac:(lia)) as Hres.
  unfold sub_flags, flags_spec. f_equal.
  - rewrite testbit_nibble, !Z.lxor_spec, testbit_4_mod by lia.
    pose proof (sub_borrow_bit l r 0 ltac:(lia)) as E. by rewrite Z.sub_0_r, Z.add_0_r in E.
  - by apply sf_formula; [lia|].
  - rewrite of_sub_formula by (done || lia).
    pose proof (sub_overflow w l r 0 ltac:(lia) Hl Hr ltac:(lia)) as E. by rewrite !Z.sub_0_r in E.
Qed.

Lemma adc_flags_spec w l r c :
  is_width w → in_width w l → in_width w r → 0 ≤ c ≤ 1 →
  adc_flags l r c ((l + r + c) mod 2 ^ w) w
  = flags_spec w (l + r + c) (signed w l + signed w r + c) (2 ^ w <=? l + r + c)
      (15 <? l mod 16 + r mod 16 + c).
Proof.
  intros Hw Hl Hr Hc. pose proof (width_bounds w Hw). pose proof (in_width_mod w (l + r + c) ltac:(lia)) as Hres.
  unfold adc_flags, flags_spec. f_equal.
  - assert ((if w =? 64 then u64_max else Z.shiftl 1 w - 1) = 2 ^ w - 1) as ->.
    { rewrite Z.shiftl_1_l. destruct (Z.eqb_spec w 64) as [->|]; done. }
    destruct (Z.ltb_spec (2 ^ w - 1) (l + r + c)), (Z.leb_spec (2 ^ w) (l + r + c)); lia.
  - change 0x0f with (Z.ones 4). rewrite !Z.land_ones by lia. done.
  - by apply sf_formula; [lia|].
  - rewrite !signed_value_spec by (done || lia). rewrite !Z.shiftl_1_l. unfold fits_signed.
    set (x := signed w l + signed w r + c). lia.
Qed.

Lemma width_mask_spec w x : is_width w → Z.land (wrap64 x) (width_mask (w / 8)) = x mod 2 ^ w.
Proof.
  unfold is_width, wrap64. intros Hw.
  assert (width_mask (w / 8) = Z.ones w ∧ 0 ≤ w ≤ 64) as [-> Hb] by (destruct Hw as [->|[->|[->| ->]]]; by vm_compute).
  rewrite Z.land_ones by lia.
  destruct Hw as [->|[->|[->| ->]]]; rewrite ?Zmod_mod; [..|done]; apply Z.mod_mod_divide;
    [exists (2 ^ 56)|exists (2 ^ 48)|exists (2 ^ 32)]; done.
Qed.

(** Case analysis on every test of the goal, innermost first, then arithmetic. *)
Ltac no_if t := lazymatch t with context [if _ then _ else _] => fail | _ => idtac end.
Ltac cases :=
  repeat (match goal with
  | |- context [?a =? ?b] => no_if a; no_if b; destruct (Z.eqb_spec a b)
  | |- context [?a <? ?b] => no_if a; no_if b; destruct (Z.ltb_spec a b)
  | |- context [?a <=? ?b] => no_if a; no_if b; destruct (Z.leb_spec a b)
  end; cbn [andb orb negb xorb]); try done; try (exfalso; lia); try lia.

(** *** Subtraction with borrow *)

Lemma sub_with_borrow w l r c : 0 ≤ w → (l - r - c) mod 2 ^ w = (l - (r + c) mod 2 ^ w) mod 2 ^ w.
Proof. intros. rewrite Zminus_mod_idemp_r. f_equal. lia. Qed.

(** The right operand with its borrow, as a signed number: off by a whole turn
    when it is the largest positive one. *)
Lemma signed_with_borrow w r c :
  1 ≤ w → in_width w r → 0 ≤ c ≤ 1 →
  signed w ((r + c) mod 2 ^ w) = signed w r + c - (if (c =? 1) && (r =? 2 ^ (w - 1) - 1) then 2 ^ w else 0).
Proof.
  intros Hw Hr Hc. unfold in_width, signed in *. pose proof (half w Hw). rewrite mod_turn by lia. cases.
Qed.

Lemma sbb_af w l r c :
  8 ≤ w → in_width w l → in_width w r → 0 ≤ c ≤ 1 →
  (l mod 16 <? (r + c) mod 2 ^ w mod 16)
  = xorb (l mod 16 <? r mod 16 + c) ((c =? 1) && (r mod 16 =? 15)).
Proof.
  intros Hw Hl Hr Hc.
  assert ((r + c) mod 2 ^ w mod 16 = (r + c) mod 16) as ->.
  { apply Z.mod_mod_divide. exists (2 ^ (w - 4)). change 16 with (2 ^ 4). rewrite <-Z.pow_add_r by lia. f_equal. lia. }
  assert ((r + c) mod 16 = if (c =? 1) && (r mod 16 =? 15) then 0 else r mod 16 + c) as ->.
  { destruct (Z.eqb_spec c 1), (Z.eqb_spec (r mod 16) 15); simpl; Z.div_mod_to_equations; lia. }
  pose proof (Z.mod_pos_bound l 16 ltac:(lia)). pose proof (Z.mod_pos_bound r 16 ltac:(lia)). cases.
Qed.

Lemma sbb_of w l r c :
  1 ≤ w → in_width w l → in_width w r → 0 ≤ c ≤ 1 →
  negb (fits_signed w (signed w l - signed w ((r + c) mod 2 ^ w)))
  = xorb (negb (fits_signed w (signed w l - signed w r - c))) ((c =? 1) && (r =? 2 ^ (w - 1) - 1)).
Proof.
  intros Hw Hl Hr Hc. rewrite signed_with_borrow by done.
  unfold in_width, fits_signed, signed in *. pose proof (half w Hw). cases.
Qed.

(** *** Comparison *)

Lemma compare_less w l r :
  1 ≤ w → in_width w l → in_width w r →
  xorb (2 ^ (w - 1) <=? (l - r) mod 2 ^ w) (negb (fits_signed w (signed w l - signed w r)))
  = (signed w l <? signed w r).
Proof.
  intros Hw Hl Hr. unfold in_width, fits_signed, signed in *. pose proof (half w Hw). rewrite mod_turn by lia. cases.
Qed.

Lemma compare_equal w l r : 0 ≤ w → in_width w l → in_width w r → ((l - r) mod 2 ^ w =? 0) = (l =? r).
Proof. intros Hw Hl Hr. unfold in_width in *. rewrite mod_turn by lia. cases. Qed.

Lemma signed_inj w l r : 1 ≤ w → in_width w l → in_width w r → signed w l = signed w r → l = r.
Proof. intros Hw. unfold in_width, signed. pose proof (half w Hw). cases. Qed.

(** What a condition means after a comparison of [l] with [r]. *)
Definition condition_spec (w l r : Z) (c : ConditionCode) : bool :=
  match c with
  | CcEqual => l =? r
  | CcNotEqual => negb (l =? r)
  | CcBelow => l <? r
  | CcNotBelow => r <=? l
  | CcAbove => r <? l
  | CcNotAbove => l <=? r
  | CcLess => signed w l <? signed w r
  | CcGreaterEqual => signed w r <=? signed w l
  | CcLessEqual => signed w l <=? signed w r
  | CcGreater => signed w r <? signed w l
  | CcOverflow => negb (fits_signed w (signed w l - signed w r))
  | CcNotOverflow => fits_signed w (signed w l - signed w r)
  | CcSign => 2 ^ (w - 1) <=? (l - r) mod 2 ^ w
  | CcNotSign => negb (2 ^ (w - 1) <=? (l - r) mod 2 ^ w)
  | CcParity => parity ((l - r) mod 2 ^ w)
  | CcNotParity => negb (parity ((l - r) mod 2 ^ w))
  end.

(** ** Scatter and gather *)

(** Bit by bit, from the lowest: the next bit of the source goes to each set bit
    of the mask; each bit of the source at a set bit of the mask is collected. *)
Fixpoint pdep (w : nat) (source mask : Z) : Z :=
  match w with
  | O => 0
  | S w =>
      if Z.odd mask then Z.b2z (Z.odd source) + 2 * pdep w (Z.shiftr source 1) (Z.shiftr mask 1)
      else 2 * pdep w source (Z.shiftr mask 1)
  end.
Fixpoint pext (w : nat) (source mask : Z) : Z :=
  match w with
  | O => 0
  | S w =>
      if Z.odd mask then Z.b2z (Z.odd source) + 2 * pext w (Z.shiftr source 1) (Z.shiftr mask 1)
      else pext w (Z.shiftr source 1) (Z.shiftr mask 1)
  end.

Lemma b2z_bound b : 0 ≤ Z.b2z b ≤ 1.
Proof. destruct b; simpl; lia. Qed.

Lemma halve x : x = 2 * Z.shiftr x 1 + Z.b2z (Z.odd x).
Proof. rewrite <-Z.div2_spec. apply Z.div2_odd. Qed.

Lemma count_ones_bound w x : 0 ≤ count_ones w x ≤ Z.of_nat w.
Proof.
  revert x. induction w as [|w IH]; intros x; simpl; [lia|].
  pose proof (b2z_bound (Z.odd x)). specialize (IH (Z.shiftr x 1)). lia.
Qed.

Lemma shiftr_half w x : in_width (Z.of_nat (S w)) x → in_width (Z.of_nat w) (Z.shiftr x 1).
Proof.
  unfold in_width. rewrite Nat2Z.inj_succ, Z.pow_succ_r by lia. intros Hx.
  pose proof (halve x). pose proof (b2z_bound (Z.odd x)). lia.
Qed.

(** Bits of a number given by its high and low part. *)
Lemma testbit_high_low a b n i :
  0 ≤ n → 0 ≤ b < 2 ^ n → 0 ≤ i → Z.testbit (a * 2 ^ n + b) i = if i <? n then Z.testbit b i else Z.testbit a (i - n).
Proof.
  intros Hn Hb Hi. destruct (Z.ltb_spec i n).
  - rewrite <-(Z.mod_pow2_bits_low _ n i) by lia. f_equal.
    rewrite Z.add_comm, Z.mod_add by lia. by apply Z.mod_small.
  - replace i with (i - n + n) at 1 by lia. rewrite <-Z.shiftr_spec, Z.shiftr_div_pow2 by lia.
    f_equal. rewrite Z.add_comm, Z.div_add by lia. rewrite Z.div_small; lia.
Qed.

(** An odd multiple of [2 ^ k]: its lowest set bit, and the number without it. *)
Section lowest.
Context (k m : Z) (Hk : 0 ≤ k) (Hm : 0 ≤ m) (Hx : (2 * m + 1) * 2 ^ k < 2 ^ 64).

Lemma odd_multiple : (2 * m + 1) * 2 ^ k = m * 2 ^ (k + 1) + 2 ^ k.
Proof using Hk. rewrite Z.pow_add_r by lia. change (2 ^ 1) with 2. lia. Qed.

Lemma clear_lowest : Z.land ((2 * m + 1) * 2 ^ k) ((2 * m + 1) * 2 ^ k - 1) = m * 2 ^ (k + 1).
Proof using Hk Hm Hx.
  rewrite odd_multiple. assert (0 < 2 ^ k) by lia.
  assert (2 ^ (k + 1) = 2 * 2 ^ k) as E by (rewrite Z.pow_add_r by lia; change (2 ^ 1) with 2; lia).
  replace (m * 2 ^ (k + 1) + 2 ^ k - 1) with (m * 2 ^ (k + 1) + (2 ^ k - 1)) by lia.
  rewrite <-(Z.add_0_r (m * 2 ^ (k + 1))) at 3.
  apply Z.bits_inj'. intros i Hi. rewrite Z.land_spec, !testbit_high_low by lia.
  destruct (Z.ltb_spec i (k + 1)); [|by rewrite andb_diag].
  rewrite Z.testbit_0_l. replace (2 ^ k - 1) with (Z.ones k) by (rewrite Z.ones_equiv; lia).
  rewrite Z.pow2_bits_eqb by lia. destruct (Z.eqb_spec k i) as [->|]; [|done].
  by rewrite Z.ones_spec_high by lia.
Qed.

Lemma lowest_bit : isolate_lowest_one ((2 * m + 1) * 2 ^ k) = 2 ^ k.
Proof using Hk Hm Hx.
  unfold isolate_lowest_one, wrap64. assert (0 < 2 ^ k) by lia.
  assert (2 ^ (k + 1) = 2 * 2 ^ k) as E by (rewrite Z.pow_add_r by lia; change (2 ^ 1) with 2; lia).
  assert (k < 64). { apply (Z.pow_lt_mono_r_iff 2); [lia|lia|]. nia. }
  apply Z.bits_inj'. intros i Hi. rewrite Z.land_spec, Z.pow2_bits_eqb by lia.
  destruct (decide (i < 64)) as [Hlt|Hge].
  - rewrite Z.mod_pow2_bits_low by lia. rewrite <-(Z.opp_involutive (- _)), Z.opp_involutive.
    rewrite Z.bits_opp by lia. rewrite odd_multiple, <-Z.sub_1_r.
    replace (m * 2 ^ (k + 1) + 2 ^ k - 1) with (m * 2 ^ (k + 1) + (2 ^ k - 1)) by lia.
    rewrite !testbit_high_low by lia. destruct (Z.ltb_spec i (k + 1)).
    + replace (2 ^ k - 1) with (Z.ones k) by (rewrite Z.ones_equiv; lia).
      rewrite Z.pow2_bits_eqb by lia. destruct (Z.eqb_spec k i) as [->|]; [|done].
      by rewrite Z.ones_spec_high by lia.
    + rewrite andb_negb_r. symmetry. apply Z.eqb_neq. lia.
  - rewrite (testbit_bounded 64) by (unfold in_width in *; nia). simpl. symmetry. apply Z.eqb_neq. lia.
Qed.
End lowest.

Lemma odd_land x : negb (Z.land x 1 =? 0) = Z.odd x.
Proof. change 1 with (Z.shiftl 1 0). rewrite testbit_pow by lia. apply Z.bit0_odd. Qed.

Lemma lor_new_bit r k : 0 ≤ k → 0 ≤ r < 2 ^ k → Z.lor r (2 ^ k) = r + 2 ^ k.
Proof.
  intros Hk Hr. symmetry. rewrite Z.lor_comm, Z.add_comm. apply Z.bits_inj'. intros i Hi.
  replace (2 ^ k + r) with (1 * 2 ^ k + r) by lia. rewrite testbit_high_low, Z.lor_spec, Z.pow2_bits_eqb by lia.
  destruct (Z.ltb_spec i k).
  - rewrite (proj2 (Z.eqb_neq k i)) by lia. done.
  - rewrite (testbit_bounded k r i), orb_false_r by lia. change 1 with (2 ^ 0).
    rewrite Z.pow2_bits_eqb by lia. destruct (Z.eqb_spec 0 (i - k)), (Z.eqb_spec k i); lia || done.
Qed.

Lemma pow_succ k : 0 ≤ k → 2 ^ (k + 1) = 2 * 2 ^ k.
Proof. intros. rewrite Z.pow_add_r by lia. change (2 ^ 1) with 2. lia. Qed.

(** The loops stop within one turn per set bit and leave what the bit-by-bit
    definitions say: the state is [m * 2 ^ k] for the mask bits still to come. *)
Lemma deposit_loop_spec w m source k result fuel :
  0 ≤ k → k + Z.of_nat w = 64 → in_width (Z.of_nat w) m → 0 ≤ result < 2 ^ k →
  count_ones w m ≤ Z.of_nat fuel →
  deposit_loop fuel source (m * 2 ^ k) result = Some (result + 2 ^ k * pdep w source m).
Proof.
  revert m source k result fuel. induction w as [|w IH]; intros m source k result fuel Hk Hw Hm Hr Hf.
  - replace m with 0 by (unfold in_width in Hm; simpl in Hm; lia). destruct fuel; cbn; f_equal; lia.
  - pose proof (shiftr_half w m Hm) as Hm'. pose proof (halve m) as E. cbn [pdep count_ones] in *.
    pose proof (pow_succ k Hk) as Ek. pose proof (count_ones_bound w (Z.shiftr m 1)).
    pose proof Hm' as Hh. unfold in_width in Hh. set (h := Z.shiftr m 1) in *. destruct (Z.odd m) eqn:Ho; cbn [Z.b2z] in *.
    + destruct fuel as [|fuel]; [lia|]. cbn [deposit_loop].
      assert (m * 2 ^ k < 2 ^ 64).
      { unfold in_width in Hm. replace 64 with (Z.of_nat (S w) + k) by lia. rewrite Z.pow_add_r by lia. nia. }
      rewrite (proj2 (Z.eqb_neq _ _)) by nia. rewrite E, lowest_bit, clear_lowest, odd_land by (lia || nia).
      destruct (Z.odd source) eqn:Hs; rewrite ?lor_new_bit by lia; rewrite IH by (done || lia);
        f_equal; cbn [Z.b2z]; lia.
    + replace (m * 2 ^ k) with (h * 2 ^ (k + 1)) by lia. rewrite IH by (done || lia). f_equal. lia.
Qed.

Lemma extract_loop_spec w m source k result bit fuel :
  0 ≤ k → k + Z.of_nat w = 64 → in_width (Z.of_nat w) m → 0 ≤ bit → 0 ≤ result < 2 ^ bit →
  count_ones w m ≤ Z.of_nat fuel →
  extract_loop fuel source (m * 2 ^ k) result bit
  = Some (result + 2 ^ bit * pext w (Z.shiftr source k) m).
Proof.
  revert m k result bit fuel. induction w as [|w IH]; intros m k result bit fuel Hk Hw Hm Hb Hr Hf.
  - replace m with 0 by (unfold in_width in Hm; simpl in Hm; lia). destruct fuel; cbn; f_equal; lia.
  - pose proof (shiftr_half w m Hm) as Hm'. pose proof (halve m) as E. cbn [pext count_ones] in *.
    pose proof (pow_succ k Hk) as Ek. pose proof (pow_succ bit Hb) as Eb.
    pose proof (count_ones_bound w (Z.shiftr m 1)). rewrite Z.shiftr_shiftr by lia.
    pose proof Hm' as Hh. unfold in_width in Hh. set (h := Z.shiftr m 1) in *. destruct (Z.odd m) eqn:Ho; cbn [Z.b2z] in *.
    + destruct fuel as [|fuel]; [lia|]. cbn [extract_loop].
      assert (m * 2 ^ k < 2 ^ 64).
      { unfold in_width in Hm. replace 64 with (Z.of_nat (S w) + k) by lia. rewrite Z.pow_add_r by lia. nia. }
      rewrite (proj2 (Z.eqb_neq _ _)) by nia. rewrite E, lowest_bit, clear_lowest by (lia || nia).
      pose proof (testbit_pow source k Hk) as Ht. rewrite Z.shiftl_1_l, (Z.testbit_odd source k) in Ht. rewrite Ht.
      destruct (Z.odd (Z.shiftr source k)) eqn:Hs; rewrite ?Z.shiftl_1_l, ?lor_new_bit by lia;
        rewrite IH by (done || lia); f_equal; cbn [Z.b2z]; lia.
    + replace (m * 2 ^ k) with (h * 2 ^ (k + 1)) by lia. by rewrite IH by (done || lia).
Qed.

Lemma in_width_u64 m : u64 m → in_width (Z.of_nat 64) m.
Proof. unfold u64, u64_max. intros Hm. change (0 ≤ m < 18446744073709551616). lia. Qed.

Lemma bit_deposit_spec s m : u64 m → bit_deposit s m = Some (pdep 64 s m).
Proof.
  intros Hm. unfold bit_deposit.
  rewrite <-(Z.mul_1_r m) at 1. change 1 with (2 ^ 0).
  rewrite (deposit_loop_spec 64 m s 0 0 64 ltac:(done) ltac:(done) (in_width_u64 m Hm) ltac:(done)
    (proj2 (count_ones_bound 64 m))). change (2 ^ 0) with 1. by rewrite Z.mul_1_l, Z.add_0_l.
Qed.

Lemma bit_extract_spec s m : u64 m → bit_extract s m = Some (pext 64 s m).
Proof.
  intros Hm. unfold bit_extract.
  rewrite <-(Z.mul_1_r m) at 1. change 1 with (2 ^ 0).
  rewrite (extract_loop_spec 64 m s 0 0 0 64 ltac:(done) ltac:(done) (in_width_u64 m Hm) ltac:(done) ltac:(done)
    (proj2 (count_ones_bound 64 m))). change (2 ^ 0) with 1. by rewrite Z.mul_1_l, Z.add_0_l.
Qed.

Lemma shiftr_cons b x : Z.shiftr (Z.b2z b + 2 * x) 1 = x.
Proof. rewrite Z.shiftr_div_pow2 by lia. change (2 ^ 1) with 2. destruct b; simpl; Z.div_mod_to_equations; lia. Qed.
Lemma odd_cons b x : Z.odd (Z.b2z b + 2 * x) = b.
Proof. rewrite Z.odd_add_mul_2. by destruct b. Qed.

(** Gathering what was scattered gives the low bits of the source, and the other
    way round the masked bits. *)
Lemma pext_pdep w s m : 0 ≤ s → pext w (pdep w s m) m = s mod 2 ^ count_ones w m.
Proof.
  revert s m. induction w as [|w IH]; intros s m Hs; [by rewrite Z.mod_1_r|]. cbn [pext pdep count_ones].
  pose proof (count_ones_bound w (Z.shiftr m 1)). destruct (Z.odd m); cbn [Z.b2z].
  - rewrite odd_cons, shiftr_cons, IH by (apply Z.shiftr_nonneg; lia).
    replace (1 + count_ones w (Z.shiftr m 1)) with (count_ones w (Z.shiftr m 1) + 1) by lia.
    rewrite pow_succ by lia. pose proof (halve s) as E. pose proof (b2z_bound (Z.odd s)).
    rewrite E at 3. set (h := Z.shiftr s 1) in *. set (b := Z.b2z (Z.odd s)) in *.
    assert (0 < 2 ^ count_ones w (Z.shiftr m 1)) by lia.
    set (p := 2 ^ count_ones w (Z.shiftr m 1)) in *.
    apply (Z.mod_unique_pos _ _ (h / p)).
    + pose proof (Z.mod_pos_bound h p ltac:(lia)). lia.
    + pose proof (Z.div_mod h p ltac:(lia)). lia.
  - pose proof (shiftr_cons false (pdep w s (Z.shiftr m 1))) as Hc. cbn [Z.b2z] in Hc.
    rewrite Z.add_0_l in Hc. rewrite Hc. apply IH. done.
Qed.

Lemma pdep_pext w s m : in_width (Z.of_nat w) m → pdep w (pext w s m) m = Z.land s m.
Proof.
  revert s m. induction w as [|w IH]; intros s m Hm.
  { replace m with 0 by (unfold in_width in Hm; simpl in Hm; lia). by rewrite Z.land_0_r. }
  pose proof (shiftr_half w m Hm) as Hm'. cbn [pext pdep].
  rewrite (halve (Z.land s m)), Z.shiftr_land, <-!Z.bit0_odd, Z.land_spec, !Z.bit0_odd.
  destruct (Z.odd m).
  - rewrite odd_cons, shiftr_cons, IH by done. rewrite andb_true_r. lia.
  - rewrite IH by done. rewrite andb_false_r. simpl. lia.
Qed.

(** ** Properties *)

(** C30 - At every width the flags of ADD, ADC, SUB and CMP are those of the exact
    operation: CF is the carry or borrow of the unsigned values, OF says that the
    exact signed result does not fit, AF is the carry or borrow of the low
    nibbles, ZF, SF and PF are those of the truncated result. *)
Theorem arithmetic_flags_exact w l r c :
  is_width w → in_width w l → in_width w r → 0 ≤ c ≤ 1 →
  add_flags l r ((l + r) mod 2 ^ w) w
    = flags_spec w (l + r) (signed w l + signed w r) (2 ^ w <=? l + r) (15 <? l mod 16 + r mod 16) ∧
  adc_flags l r c ((l + r + c) mod 2 ^ w) w
    = flags_spec w (l + r + c) (signed w l + signed w r + c) (2 ^ w <=? l + r + c)
        (15 <? l mod 16 + r mod 16 + c) ∧
  sub_flags l r ((l - r) mod 2 ^ w) w
    = flags_spec w (l - r) (signed w l - signed w r) (l <? r) (l mod 16 <? r mod 16).
Proof. intros. split_and!; [by apply add_flags_spec|by apply adc_flags_spec|by apply sub_flags_spec]. Qed.

(** The flags of SBB are those of the exact subtraction except for two: with a
    borrow, OF is inverted when the right operand is the largest positive number,
    and AF when its low nibble is 15 (the borrow is added to the operand first,
    which changes its sign, or carries out of its nibble). *)
Theorem sbb_flags_deviation w l r c :
  is_width w → in_width w l → in_width w r → 0 ≤ c ≤ 1 →
  let exact := flags_spec w (l - r - c) (signed w l - signed w r - c) (l <? r + c) (l mod 16 <? r mod 16 + c) in
  sbb_flags l r c ((l - r - c) mod 2 ^ w) w
  = {| cf := cf exact; pf := pf exact; zf := zf exact; sf := sf exact;
       af := xorb (af exact) ((c =? 1) && (r mod 16 =? 15));
       of_ := xorb (of_ exact) ((c =? 1) && (r =? 2 ^ (w - 1) - 1)) |}.
Proof.
  intros Hw Hl Hr Hc exact. subst exact. pose proof (width_bounds w Hw).
  pose proof (in_width_mod w (l - r - c) ltac:(lia)) as Hres.
  pose proof (in_width_mod w (r + c) ltac:(lia)) as Hrb.
  unfold sbb_flags, wrapping_add64. rewrite width_mask_spec by done. unfold flags_spec. f_equal.
  - rewrite testbit_nibble, !Z.lxor_spec, sub_with_borrow, (testbit_4_mod w (l - _)) by lia.
    pose proof (sub_borrow_bit l ((r + c) mod 2 ^ w) 0 ltac:(lia)) as E. rewrite Z.sub_0_r, Z.add_0_r in E.
    rewrite E.
    apply sbb_af; done || lia.
  - by apply sf_formula; [lia|].
  - rewrite of_sub_formula by (done || lia). rewrite sub_with_borrow by lia.
    pose proof (sub_overflow w l ((r + c) mod 2 ^ w) 0 ltac:(lia) Hl Hrb ltac:(lia)) as E.
    rewrite !Z.sub_0_r in E. rewrite E. apply sbb_of; done || lia.
Qed.

(** After a comparison every condition code, by either of the two evaluators,
    says what its name says of the compared values. *)
Theorem compare_conditions w l r c :
  is_width w → in_width w l → in_width w r →
  let flags := sub_flags l r ((l - r) mod 2 ^ w) w in
  evaluate_condition c flags = condition_spec w l r c ∧ condition_holds flags c = condition_spec w l r c.
Proof.
  intros Hw Hl Hr flags. subst flags. pose proof (width_bounds w Hw).
  assert (evaluate_condition c (sub_flags l r ((l - r) mod 2 ^ w) w) = condition_spec w l r c) as E; [|by destruct c].
  rewrite sub_flags_spec by done. pose proof (compare_less w l r ltac:(lia) Hl Hr) as Hless.
  pose proof (compare_equal w l r ltac:(lia) Hl Hr) as Heq.
  assert (signed w l = signed w r ↔ l = r) as Hinj by (split; [apply signed_inj; lia || done|congruence]).
  assert (∀ a b, negb (eqb a b) = xorb a b) as Hx by (by intros [] []).
  assert (∀ a b, eqb a b = negb (xorb a b)) as Hx' by (by intros [] []).
  destruct c; cbn [evaluate_condition condition_spec flags_spec cf pf af zf sf of_];
    rewrite ?Heq, ?Hx, ?Hx', ?Hless; try done; rewrite ?negb_involutive; try done; lia.
Qed.

(** The loops of PDEP and PEXT end for every 64-bit mask, deposit and collect bit
    by bit, and invert each other: gathering what was scattered gives as many low
    bits of the source as the mask has ones, scattering what was gathered gives
    the masked source. *)
Theorem scatter_gather_roundtrip source mask :
  u64 source → u64 mask →
  ∃ deposited gathered,
    bit_deposit source mask = Some deposited ∧ deposited = pdep 64 source mask ∧
    bit_extract source mask = Some gathered ∧ gathered = pext 64 source mask ∧
    bit_extract deposited mask = Some (source mod 2 ^ count_ones 64 mask) ∧
    bit_deposit gathered mask = Some (Z.land source mask).
Proof.
  intros Hs Hm. exists (pdep 64 source mask), (pext 64 source mask).
  assert (0 ≤ source) as H0 by (unfold u64 in Hs; lia).
  pose proof (pext_pdep 64 source mask H0) as H1.
  pose proof (pdep_pext 64 source mask (in_width_u64 mask Hm)) as H2.
  split; [exact (bit_deposit_spec source mask Hm)|]. split; [reflexivity|].
  split; [exact (bit_extract_spec source mask Hm)|]. split; [reflexivity|]. split.
  - etransitivity; [exact (bit_extract_spec _ mask Hm)|exact (f_equal Some H1)].
  - etransitivity; [exact (bit_deposit_spec _ mask Hm)|exact (f_equal Some H2)].
Qed.

Lemma arithmetic_flags_exact_witness :
  add_flags 0xFF 1 0 8 = {| cf := true; pf := true; af := true; zf := true; sf := false; of_ := false |}.
Proof.
  destruct (arithmetic_flags_exact 8 0xFF 1 0) as (H & _); [by left|done|done|done|]. etransitivity; [exact H|done].
Defined.

(** [0 - 0x7F - 1] is [-128]: it fits, and OF is set. *)
Lemma sbb_flags_deviation_witness :
  sbb_flags 0 0x7F 1 0x80 8 = {| cf := true; pf := false; af := false; zf := false; sf := true; of_ := true |} ∧
  fits_signed 8 (0 - 0x7F - 1) = true.
Proof.
  split; [|done]. etransitivity; [apply (sbb_flags_deviation 8 0 0x7F 1); [by left|done|done|done]|done].
Defined.

Lemma compare_conditions_witness :
  evaluate_condition CcLess (sub_flags 0x80 1 0x7F 8) = true ∧ condition_holds (sub_flags 0x80 1 0x7F 8) CcLess = true.
Proof. apply (compare_conditions 8 0x80 1 CcLess); [by left|done|done]. Defined.

Lemma scatter_gather_roundtrip_witness :
  bit_deposit 0xB 0xF0F0 = Some 0xB0 ∧ bit_extract 0xB0 0xF0F0 = Some 0xB.
Proof.
  destruct (scatter_gather_roundtrip 0xB 0xF0F0) as (d & g & Hd & -> & _ & _ & He & _); [done|done|].
  split; [etransitivity; [exact Hd|done]|etransitivity; [|exact He]]. done.
Defined.
End Fl.
