(* ===== verification/CpuState.v ===== *)
(** * The guest processor's state: [cpu/state.rs], and EFLAGS of [cpu/flags.rs]

    Registers, flags and the lazy computation of the flags.  The arrays of the
    source are lists whose length never changes ([CpuStateFacts.well_formed]); an
    index a [u8] supplies panics out of range.  A floating-point number is its bit
    pattern. *)

From S2P Require Import Prelude Flags.

Inductive GuestArch := X64 | X86.
#[export] Instance GuestArch_eq_dec : EqDecision GuestArch.
Proof. solve_decision. Defined.
Definition pointer_bytes (a : GuestArch) : Z := match a with X64 => 8 | X86 => 4 end.
Definition register_mask (a : GuestArch) : Z := match a with X64 => u64_max | X86 => u32_max end.

Inductive Register :=
| Rax | Rcx | Rdx | Rbx | Rsp | Rbp | Rsi | Rdi | R8 | R9 | R10 | R11 | R12 | R13 | R14 | R15.
#[export] Instance Register_eq_dec : EqDecision Register.
Proof. solve_decision. Defined.

Definition register_index (r : Register) : nat :=
  match r with
  | Rax => 0 | Rcx => 1 | Rdx => 2 | Rbx => 3 | Rsp => 4 | Rbp => 5 | Rsi => 6 | Rdi => 7
  | R8 => 8 | R9 => 9 | R10 => 10 | R11 => 11 | R12 => 12 | R13 => 13 | R14 => 14 | R15 => 15
  end%nat.

(** [match index & 0x0f] *)
Definition register_from_index (index : Z) : Register :=
  match Z.to_nat (Z.land index 0x0f) with
  | 0 => Rax | 1 => Rcx | 2 => Rdx | 3 => Rbx | 4 => Rsp | 5 => Rbp | 6 => Rsi | 7 => Rdi
  | 8 => R8 | 9 => R9 | 10 => R10 | 11 => R11 | 12 => R12 | 13 => R13 | 14 => R14 | _ => R15
  end%nat.
Definition register_from_modrm (code : Z) : Register :=
  match Z.to_nat (Z.land code 0x0f) with
  | 0 => Rax | 1 => Rcx | 2 => Rdx | 3 => Rbx | 4 => Rsp | 5 => Rbp | 6 => Rsi | 7 => Rdi
  | 8 => R8 | 9 => R9 | 10 => R10 | 11 => R11 | 12 => R12 | 13 => R13 | 14 => R14 | _ => R15
  end%nat.

Definition register_name (r : Register) : str :=
  match r with
  | Rax => lit "rax" | Rcx => lit "rcx" | Rdx => lit "rdx" | Rbx => lit "rbx"
  | Rsp => lit "rsp" | Rbp => lit "rbp" | Rsi => lit "rsi" | Rdi => lit "rdi"
  | R8 => lit "r8" | R9 => lit "r9" | R10 => lit "r10" | R11 => lit "r11"
  | R12 => lit "r12" | R13 => lit "r13" | R14 => lit "r14" | R15 => lit "r15"
  end.

Inductive ByteRegister :=
| Al | Cl | Dl | Bl | Ah | Ch | Dh | Bh | Spl | Bpl | Sil | Dil
| R8b | R9b | R10b | R11b | R12b | R13b | R14b | R15b.
#[export] Instance ByteRegister_eq_dec : EqDecision ByteRegister.
Proof. solve_decision. Defined.

Definition full_register (r : ByteRegister) : Register :=
  match r with
  | Al | Ah => Rax | Cl | Ch => Rcx | Dl | Dh => Rdx | Bl | Bh => Rbx
  | Spl => Rsp | Bpl => Rbp | Sil => Rsi | Dil => Rdi
  | R8b => R8 | R9b => R9 | R10b => R10 | R11b => R11 | R12b => R12 | R13b => R13 | R14b => R14 | R15b => R15
  end.
Definition is_high_byte (r : ByteRegister) : bool :=
  match r with Ah | Ch | Dh | Bh => true | _ => false end.

Inductive SegmentRegister := Fs | Gs.
Record SegmentBases := { sb_fs : Z; sb_gs : Z }.

Record XmmValue := { xmm_low : Z; xmm_high : Z }.
Record YmmValue := { ymm_low : XmmValue; ymm_high : XmmValue }.
Record ZmmValue := { zmm_low : YmmValue; zmm_high : YmmValue }.
Definition xmm_zero : XmmValue := {| xmm_low := 0; xmm_high := 0 |}.
Definition ymm_zero : YmmValue := {| ymm_low := xmm_zero; ymm_high := xmm_zero |}.

Inductive X87RoundingMode := Nearest | RoundDown | RoundUp | TowardZero.
Record X87State := {
  x87_stack : list Z; x87_rounding_mode : X87RoundingMode; x87_divide_by_zero : bool; x87_precision : bool }.

Record CpuState := mkCpu {
  cs_arch : GuestArch;
  cs_gpr : list Z;
  cs_xmm : list XmmValue;
  cs_ymm_upper : list XmmValue;
  cs_zmm_upper : list YmmValue;
  cs_opmask : list Z;
  cs_flags : Flags;
  cs_eflags_extra : Z;
  cs_x87 : X87State;
  cs_mxcsr : Z;
  cs_segment_bases : SegmentBases;
  cs_rip : Z;
  cs_dr : list Z;
  cs_bnd : list (Z * Z);
  cs_ssp : Z;
  cs_jit_pending_fault : option Z;
  cs_jit_pending_fault_write : bool;
  cs_pending_flags : option PendingFlags;
  cs_jit_spill : list Z }.
Definition cs_set_gpr (v : list Z) (s : CpuState) : CpuState :=
    mkCpu (cs_arch s) v (cs_xmm s) (cs_ymm_upper s) (cs_zmm_upper s) (cs_opmask s) (cs_flags s)
    (cs_eflags_extra s) (cs_x87 s) (cs_mxcsr s) (cs_segment_bases s) (cs_rip s) (cs_dr s)
    (cs_bnd s) (cs_ssp s) (cs_jit_pending_fault s) (cs_jit_pending_fault_write s)
    (cs_pending_flags s) (cs_jit_spill s).
Definition cs_set_xmm (v : list XmmValue) (s : CpuState) : CpuState :=
    mkCpu (cs_arch s) (cs_gpr s) v (cs_ymm_upper s) (cs_zmm_upper s) (cs_opmask s) (cs_flags s)
    (cs_eflags_extra s) (cs_x87 s) (cs_mxcsr s) (cs_segment_bases s) (cs_rip s) (cs_dr s)
    (cs_bnd s) (cs_ssp s) (cs_jit_pending_fault s) (cs_jit_pending_fault_write s)
    (cs_pending_flags s) (cs_jit_spill s).
Definition cs_set_ymm_upper (v : list XmmValue) (s : CpuState) : CpuState :=
    mkCpu (cs_arch s) (cs_gpr s) (cs_xmm s) v (cs_zmm_upper s) (cs_opmask s) (cs_flags s)
    (cs_eflags_extra s) (cs_x87 s) (cs_mxcsr s) (cs_segment_bases s) (cs_rip s) (cs_dr s)
    (cs_bnd s) (cs_ssp s) (cs_jit_pending_fault s) (cs_jit_pending_fault_write s)
    (cs_pending_flags s) (cs_jit_spill s).
Definition cs_set_zmm_upper (v : list YmmValue) (s : CpuState) : CpuState :=
    mkCpu (cs_arch s) (cs_gpr s) (cs_xmm s) (cs_ymm_upper s) v (cs_opmask s) (cs_flags s)
    (cs_eflags_extra s) (cs_x87 s) (cs_mxcsr s) (cs_segment_bases s) (cs_rip s) (cs_dr s)
    (cs_bnd s) (cs_ssp s) (cs_jit_pending_fault s) (cs_jit_pending_fault_write s)
    (cs_pending_flags s) (cs_jit_spill s).
Definition cs_set_opmask (v : list Z) (s : CpuState) : CpuState :=
    mkCpu (cs_arch s) (cs_gpr s) (cs_xmm s) (cs_ymm_upper s) (cs_zmm_upper s) v (cs_flags s)
    (cs_eflags_extra s) (cs_x87 s) (cs_mxcsr s) (cs_segment_bases s) (cs_rip s) (cs_dr s)
    (cs_bnd s) (cs_ssp s) (cs_jit_pending_fault s) (cs_jit_pending_fault_write s)
    (cs_pending_flags s) (cs_jit_spill s).
Definition cs_set_flags (v : Flags) (s : CpuState) : CpuState :=
    mkCpu (cs_arch s) (cs_gpr s) (cs_xmm s) (cs_ymm_upper s) (cs_zmm_upper s) (cs_opmask s) v
    (cs_eflags_extra s) (cs_x87 s) (cs_mxcsr s) (cs_segment_bases s) (cs_rip s) (cs_dr s)
    (cs_bnd s) (cs_ssp s) (cs_jit_pending_fault s) (cs_jit_pending_fault_write s)
    (cs_pending_flags s) (cs_jit_spill s).
Definition cs_set_eflags_extra (v : Z) (s : CpuState) : CpuState :=
    mkCpu (cs_arch s) (cs_gpr s) (cs_xmm s) (cs_ymm_upper s) (cs_zmm_upper s) (cs_opmask s)
    (cs_flags s) v (cs_x87 s) (cs_mxcsr s) (cs_segment_bases s) (cs_rip s) (cs_dr s) (cs_bnd s)
    (cs_ssp s) (cs_jit_pending_fault s) (cs_jit_pending_fault_write s) (cs_pending_flags s)
    (cs_jit_spill s).
Definition cs_set_x87 (v : X87State) (s : CpuState) : CpuState :=
    mkCpu (cs_arch s) (cs_gpr s) (cs_xmm s) (cs_ymm_upper s) (cs_zmm_upper s) (cs_opmask s)
    (cs_flags s) (cs_eflags_extra s) v (cs_mxcsr s) (cs_segment_bases s) (cs_rip s) (cs_dr s)
    (cs_bnd s) (cs_ssp s) (cs_jit_pending_fault s) (cs_jit_pending_fault_write s)
    (cs_pending_flags s) (cs_jit_spill s).
Definition cs_set_mxcsr (v : Z) (s : CpuState) : CpuState :=
    mkCpu (cs_arch s) (cs_gpr s) (cs_xmm s) (cs_ymm_upper s) (cs_zmm_upper s) (cs_opmask s)
    (cs_flags s) (cs_eflags_extra s) (cs_x87 s) v (cs_segment_bases s) (cs_rip s) (cs_dr s)
    (cs_bnd s) (cs_ssp s) (cs_jit_pending_fault s) (cs_jit_pending_fault_write s)
    (cs_pending_flags s) (cs_jit_spill s).
Definition cs_set_rip (v : Z) (s : CpuState) : CpuState :=
    mkCpu (cs_arch s) (cs_gpr s) (cs_xmm s) (cs_ymm_upper s) (cs_zmm_upper s) (cs_opmask s)
    (cs_flags s) (cs_eflags_extra s) (cs_x87 s) (cs_mxcsr s) (cs_segment_bases s) v (cs_dr s)
    (cs_bnd s) (cs_ssp s) (cs_jit_pending_fault s) (cs_jit_pending_fault_write s)
    (cs_pending_flags s) (cs_jit_spill s).
Definition cs_set_bnd (v : list (Z * Z)) (s : CpuState) : CpuState :=
    mkCpu (cs_arch s) (cs_gpr s) (cs_xmm s) (cs_ymm_upper s) (cs_zmm_upper s) (cs_opmask s)
    (cs_flags s) (cs_eflags_extra s) (cs_x87 s) (cs_mxcsr s) (cs_segment_bases s) (cs_rip s)
    (cs_dr s) v (cs_ssp s) (cs_jit_pending_fault s) (cs_jit_pending_fault_write s)
    (cs_pending_flags s) (cs_jit_spill s).
Definition cs_set_pending_flags (v : option PendingFlags) (s : CpuState) : CpuState :=
    mkCpu (cs_arch s) (cs_gpr s) (cs_xmm s) (cs_ymm_upper s) (cs_zmm_upper s) (cs_opmask s)
    (cs_flags s) (cs_eflags_extra s) (cs_x87 s) (cs_mxcsr s) (cs_segment_bases s) (cs_rip s)
    (cs_dr s) (cs_bnd s) (cs_ssp s) (cs_jit_pending_fault s) (cs_jit_pending_fault_write s) v
    (cs_jit_spill s).
Definition cs_set_jit_spill (v : list Z) (s : CpuState) : CpuState :=
    mkCpu (cs_arch s) (cs_gpr s) (cs_xmm s) (cs_ymm_upper s) (cs_zmm_upper s) (cs_opmask s)
    (cs_flags s) (cs_eflags_extra s) (cs_x87 s) (cs_mxcsr s) (cs_segment_bases s) (cs_rip s)
    (cs_dr s) (cs_bnd s) (cs_ssp s) (cs_jit_pending_fault s) (cs_jit_pending_fault_write s)
    (cs_pending_flags s) v.

Definition default_mxcsr : Z := 0x1f80.

Definition new_cpu (a : GuestArch) : CpuState :=
  mkCpu a (replicate 16 0) (replicate 16 xmm_zero) (replicate 16 xmm_zero) (replicate 16 ymm_zero)
    (replicate 8 0) no_flags 0
    {| x87_stack := []; x87_rounding_mode := Nearest; x87_divide_by_zero := false; x87_precision := false |}
    default_mxcsr {| sb_fs := 0; sb_gs := 0 |} 0 (replicate 8 0) (replicate 4 (0, 0)) 0 None false None
    (replicate 32 0).

(** ** General registers *)

Definition get (s : CpuState) (r : Register) : Z :=
  Z.land (cs_gpr s !!! register_index r) (register_mask (cs_arch s)).
Definition set (r : Register) (value : Z) (s : CpuState) : CpuState :=
  cs_set_gpr (<[register_index r := Z.land value (register_mask (cs_arch s))]> (cs_gpr s)) s.

Definition get_byte (s : CpuState) (r : ByteRegister) : Z :=
  let shift := if is_high_byte r then 8 else 0 in
  Z.land (Z.shiftr (get s (full_register r)) shift) 0xff.

Definition set_byte (r : ByteRegister) (value : Z) (s : CpuState) : CpuState :=
  let full := full_register r in
  let '(mask, shift) := if is_high_byte r then (not_u64 0xff00, 8) else (not_u64 0xff, 0) in
  set full (Z.lor (Z.land (get s full) mask) (Z.shiftl value shift)) s.

Definition segment_base (s : CpuState) (segment : SegmentRegister) : Z :=
  match segment with Fs => sb_fs (cs_segment_bases s) | Gs => sb_gs (cs_segment_bases s) end.

(** ** Vector, mask and bounds registers *)

(** [array[index as usize]] *)
Definition at_index {A} (l : list A) (index : Z) : M CpuState A :=
  expect (if 0 <=? index then l !! Z.to_nat index else None).
Definition store_at {A} (l : list A) (index : Z) (v : A) (put : list A → CpuState → CpuState) : M CpuState unit :=
  _ <- at_index l index ;; modify (put (<[Z.to_nat index := v]> l)).

Definition get_xmm (index : Z) : M CpuState XmmValue := s <- gets id ;; at_index (cs_xmm s) index.
Definition set_xmm (index : Z) (v : XmmValue) : M CpuState unit :=
  s <- gets id ;; store_at (cs_xmm s) index v cs_set_xmm.
Definition get_ymm (index : Z) : M CpuState YmmValue :=
  low <- get_xmm index ;; s <- gets id ;; high <- at_index (cs_ymm_upper s) index ;;
  ret {| ymm_low := low; ymm_high := high |}.
Definition set_ymm (index : Z) (v : YmmValue) : M CpuState unit :=
  set_xmm index (ymm_low v) ;;; s <- gets id ;; store_at (cs_ymm_upper s) index (ymm_high v) cs_set_ymm_upper.
Definition clear_ymm_upper (index : Z) : M CpuState unit :=
  s <- gets id ;; store_at (cs_ymm_upper s) index xmm_zero cs_set_ymm_upper.
Definition clear_all_ymm_upper (s : CpuState) : CpuState :=
  cs_set_ymm_upper (map (λ _, xmm_zero) (cs_ymm_upper s)) s.
Definition get_zmm (index : Z) : M CpuState ZmmValue :=
  low <- get_ymm index ;; s <- gets id ;; high <- at_index (cs_zmm_upper s) index ;;
  ret {| zmm_low := low; zmm_high := high |}.
Definition set_zmm (index : Z) (v : ZmmValue) : M CpuState unit :=
  set_ymm index (zmm_low v) ;;; s <- gets id ;; store_at (cs_zmm_upper s) index (zmm_high v) cs_set_zmm_upper.
Definition clear_zmm_upper (index : Z) : M CpuState unit :=
  s <- gets id ;; store_at (cs_zmm_upper s) index ymm_zero cs_set_zmm_upper.
Definition clear_all_zmm_upper (s : CpuState) : CpuState :=
  cs_set_zmm_upper (map (λ _, ymm_zero) (cs_zmm_upper s)) s.

(** These indices are masked, and in range. *)
Definition get_opmask (s : CpuState) (index : Z) : Z := cs_opmask s !!! Z.to_nat (Z.land index 7).
Definition set_opmask (index value : Z) (s : CpuState) : CpuState :=
  cs_set_opmask (<[Z.to_nat (Z.land index 7) := value]> (cs_opmask s)) s.
Definition get_bnd (s : CpuState) (index : Z) : Z * Z := default (0, 0) (cs_bnd s !! Z.to_nat (Z.land index 3)).
Definition set_bnd (index : Z) (value : Z * Z) (s : CpuState) : CpuState :=
  cs_set_bnd (<[Z.to_nat (Z.land index 3) := value]> (cs_bnd s)) s.

(** ** EFLAGS *)

Definition EFLAGS_CF : Z := Z.shiftl 1 0.
Definition EFLAGS_PF : Z := Z.shiftl 1 2.
Definition EFLAGS_AF : Z := Z.shiftl 1 4.
Definition EFLAGS_ZF : Z := Z.shiftl 1 6.
Definition EFLAGS_SF : Z := Z.shiftl 1 7.
Definition EFLAGS_OF : Z := Z.shiftl 1 11.
Definition EFLAGS_ALWAYS_SET : Z := Z.shiftl 1 1.
Definition EFLAGS_ARITHMETIC_MASK : Z :=
  Z.lor (Z.lor (Z.lor (Z.lor (Z.lor EFLAGS_CF EFLAGS_PF) EFLAGS_AF) EFLAGS_ZF) EFLAGS_SF) EFLAGS_OF.

(** [if b { value |= bit }] *)
Definition or_if (b : bool) (bit value : Z) : Z := if b then Z.lor value bit else value.

Definition pack_eflags (s : CpuState) : Z :=
  let f := cs_flags s in
  let value := Z.lor EFLAGS_ALWAYS_SET
    (Z.land (cs_eflags_extra s) (not_u64 (Z.lor EFLAGS_ARITHMETIC_MASK EFLAGS_ALWAYS_SET))) in
  let value := or_if (cf f) EFLAGS_CF value in
  let value := or_if (pf f) EFLAGS_PF value in
  let value := or_if (af f) EFLAGS_AF value in
  let value := or_if (zf f) EFLAGS_ZF value in
  let value := or_if (sf f) EFLAGS_SF value in
  or_if (of_ f) EFLAGS_OF value.

Definition bit_set (value bit : Z) : bool := negb (Z.land value bit =? 0).
Definition unpack_eflags (value : Z) (s : CpuState) : CpuState :=
  cs_set_eflags_extra (Z.land value (not_u64 (Z.lor EFLAGS_ARITHMETIC_MASK EFLAGS_ALWAYS_SET)))
    (cs_set_flags
       {| cf := bit_set value EFLAGS_CF; pf := bit_set value EFLAGS_PF; af := bit_set value EFLAGS_AF;
          zf := bit_set value EFLAGS_ZF; sf := bit_set value EFLAGS_SF; of_ := bit_set value EFLAGS_OF |}
       (cs_set_pending_flags None s)).

(** ** Lazy flags

    The statistics are threaded beside the state; a count is a [u64] whose
    overflow panics. *)

Definition CpuStats : Type := CpuState * LazyFlagStats.
Definition count_materialised : M CpuStats unit := λ '(s, st),
  if ls_materialised st + 1 <=? u64_max
  then Done (Ok tt) (s, {| ls_materialised := ls_materialised st + 1; ls_skipped := ls_skipped st |})
  else Panic.
Definition count_skipped (n : Z) : M CpuStats unit := λ '(s, st),
  if ls_skipped st + n <=? u64_max
  then Done (Ok tt) (s, {| ls_materialised := ls_materialised st; ls_skipped := ls_skipped st + n |})
  else Panic.
Definition on_cpu (f : CpuState → CpuState) : M CpuStats unit := modify (λ '(s, st), (f s, st)).

Definition materialize_flags : M CpuStats unit :=
  '(s, _) <- gets id ;;
  match cs_pending_flags s with
  | Some pending =>
      on_cpu (λ s, cs_set_flags (evaluate pending) (cs_set_pending_flags None s)) ;;; count_materialised
  | None => ret tt
  end.

Definition park (p : PendingFlags) : M CpuStats unit :=
  '(s, _) <- gets id ;;
  count_skipped (match cs_pending_flags s with Some _ => 1 | None => 0 end) ;;;
  on_cpu (cs_set_pending_flags (Some p)).
Definition defer_add_flags (lhs rhs result width_bits : Z) : M CpuStats unit :=
  park {| pe_lhs := lhs; pe_rhs := rhs; pe_result := result; pe_op := FoAdd; pe_width_bits := width_bits mod 2 ^ 8 |}.
Definition defer_sub_flags (lhs rhs result width_bits : Z) : M CpuStats unit :=
  park {| pe_lhs := lhs; pe_rhs := rhs; pe_result := result; pe_op := FoSub; pe_width_bits := width_bits mod 2 ^ 8 |}.
Definition defer_logic_flags (result width_bits : Z) : M CpuStats unit :=
  park {| pe_lhs := 0; pe_rhs := 0; pe_result := result; pe_op := FoLogic; pe_width_bits := width_bits mod 2 ^ 8 |}.

Definition discard_pending_flags : M CpuStats unit :=
  '(s, _) <- gets id ;;
  match cs_pending_flags s with
  | Some _ => on_cpu (cs_set_pending_flags None) ;;; count_skipped 1
  | None => ret tt
  end.

(** For JIT code: counters of its own, flushed at once. *)
Definition materialize_pending_flags_for_jit : M (CpuState * LazyFlagTelemetry) unit := λ '(s, t),
  match materialize_flags (s, no_flag_stats) with
  | Done (Ok _) (s', st) =>
      match flush_lazy_flag_stats st t with
      | Done r t' => Done r (s', t')
      | Panic => Panic
      end
  | Done (Err e) (s', _) => Done (Err e) (s', t)
  | Panic => Panic
  end.
