(* ===== verification/CpuStateFacts.v ===== *)
(** * The guest processor's state: properties

    The invariant of the register arrays; byte registers as lanes of the full
    ones; EFLAGS read back; and lazy flags against eager ones. *)

From S2P Require Import Prelude Flags CpuState FlagsFacts.

Module Cs.
Import Fl.

(** ** Well-formed states *)

Record well_formed (s : CpuState) : Prop := {
  wf_gpr : length (cs_gpr s) = 16%nat;
  wf_masked : Forall (λ v, 0 ≤ v ≤ register_mask (cs_arch s)) (cs_gpr s);
  wf_xmm : length (cs_xmm s) = 16%nat;
  wf_ymm : length (cs_ymm_upper s) = 16%nat;
  wf_zmm : length (cs_zmm_upper s) = 16%nat;
  wf_opmask : length (cs_opmask s) = 8%nat;
  wf_bnd : length (cs_bnd s) = 4%nat;
  wf_spill : length (cs_jit_spill s) = 32%nat }.

Lemma register_index_lt r : (register_index r < 16)%nat.
Proof. destruct r; simpl; lia. Qed.
Lemma register_index_inj r r' : register_index r = register_index r' → r = r'.
Proof. by destruct r, r'. Qed.

(** Masks are all ones. *)
Definition mask_bits (a : GuestArch) : Z := match a with X64 => 64 | X86 => 32 end.
Lemma land_register_mask a v : Z.land v (register_mask a) = v mod 2 ^ mask_bits a.
Proof.
  destruct a; simpl; [change u64_max with (Z.ones 64)|change u32_max with (Z.ones 32)]; by rewrite Z.land_ones.
Qed.
Lemma masked_bound a v : 0 ≤ Z.land v (register_mask a) ≤ register_mask a.
Proof.
  rewrite land_register_mask. destruct a; simpl; unfold u64_max, u32_max.
  - pose proof (Z.mod_pos_bound v (2 ^ 64) ltac:(lia)). lia.
  - pose proof (Z.mod_pos_bound v (2 ^ 32) ltac:(lia)). lia.
Qed.
Lemma masked_id a v : 0 ≤ v ≤ register_mask a → Z.land v (register_mask a) = v.
Proof.
  intros Hv. rewrite land_register_mask. apply Z.mod_small. destruct a; simpl in *; unfold u64_max, u32_max in *; lia.
Qed.
Lemma masked_idemp a v : Z.land (Z.land v (register_mask a)) (register_mask a) = Z.land v (register_mask a).
Proof. apply masked_id, masked_bound. Qed.

Lemma well_formed_new a : well_formed (new_cpu a).
Proof. split; try done. apply Forall_replicate. destruct a; done. Qed.

Section registers.
Context (s : CpuState) (wf : well_formed s).

Lemma get_lookup r : cs_gpr s !! register_index r = Some (get s r).
Proof using wf.
  destruct wf as [Hl Hm _ _ _ _ _ _]. pose proof (register_index_lt r) as Hr.
  destruct (lookup_lt_is_Some_2 (cs_gpr s) (register_index r)) as [v Hv]; [lia|].
  unfold get. rewrite (list_lookup_total_correct _ _ _ Hv), Hv. f_equal. symmetry. apply masked_id.
  rewrite Forall_forall in Hm. apply Hm. by eapply list_elem_of_lookup_2.
Qed.

Lemma get_bound r : 0 ≤ get s r ≤ register_mask (cs_arch s).
Proof using. apply masked_bound. Qed.

Lemma get_set r r' v :
  get (set r v s) r' = if decide (r = r') then Z.land v (register_mask (cs_arch s)) else get s r'.
Proof using wf.
  unfold get, set, cs_set_gpr. cbn [cs_gpr cs_arch]. case_decide as Hd.
  - subst r'. rewrite list_lookup_total_insert_eq; [apply masked_idemp|].
    rewrite (wf_gpr s wf). apply register_index_lt.
  - rewrite list_lookup_total_insert_ne; [done|]. intros E. by apply register_index_inj in E.
Qed.

Lemma set_well_formed r v : well_formed (set r v s).
Proof using wf.
  destruct wf. split; try done.
  - unfold set, cs_set_gpr. cbn. by rewrite length_insert.
  - unfold set, cs_set_gpr. cbn [cs_gpr cs_arch]. apply Forall_insert; [done|apply masked_bound].
Qed.
End registers.

(** ** Byte lanes *)

Definition lane (r : ByteRegister) : Register * Z := (full_register r, if is_high_byte r then 8 else 0).

Lemma get_byte_bits s r :
  get_byte s r = Z.land (Z.shiftr (get s (lane r).1) (lane r).2) 0xff.
Proof. done. Qed.

(** The low bits of a byte lane of a value whose lane was replaced. *)
Lemma replace_lane x v shift shift' :
  (shift = 0 ∨ shift = 8) → (shift' = 0 ∨ shift' = 8) → 0 ≤ x → 0 ≤ v < 256 →
  Z.land (Z.shiftr (Z.lor (Z.land x (not_u64 (Z.shiftl 0xff shift))) (Z.shiftl v shift)) shift') 0xff
  = if decide (shift = shift') then v else Z.land (Z.shiftr x shift') 0xff.
Proof.
  intros Hs Hs' Hx Hv. apply Z.bits_inj'. intros i Hi. change 0xff with (Z.ones 8).
  assert (Z.testbit v i = if decide (i < 8) then Z.testbit v i else false) as Hvi.
  { case_decide; [done|]. apply (testbit_bounded 8); lia. }
  rewrite Z.land_spec, Z.shiftr_spec, Z.lor_spec, Z.land_spec, Z.shiftl_spec by lia.
  destruct (decide (i < 8)) as [H8|H8].
  - rewrite Z.ones_spec_low, andb_true_r, testbit_not_u64, Z.shiftl_spec by lia.
    case_decide as Hd.
    + subst shift'. replace (i + shift - shift) with i by lia. rewrite Z.ones_spec_low by lia. simpl.
      by rewrite andb_false_r.
    + rewrite Z.land_spec, Z.shiftr_spec, (Z.ones_spec_low 8 i), andb_true_r by lia.
      destruct Hs as [->| ->], Hs' as [->| ->]; try done.
      * rewrite Z.ones_spec_high by lia. rewrite (testbit_bounded 8 v) by lia. by rewrite andb_true_r, orb_false_r.
      * rewrite !(Z.testbit_neg_r _ (i + 0 - 8)) by lia. by rewrite andb_true_r, orb_false_r.
  - rewrite (Z.ones_spec_high 8 i), andb_false_r by lia. case_decide; [done|].
    by rewrite Z.land_spec, (Z.ones_spec_high 8 i), andb_false_r by lia.
Qed.

Lemma set_byte_value r v s :
  set_byte r v s = set (full_register r)
    (Z.lor (Z.land (get s (full_register r)) (not_u64 (Z.shiftl 0xff (lane r).2))) (Z.shiftl v (lane r).2)) s.
Proof. unfold set_byte, lane. by destruct (is_high_byte r). Qed.

Lemma land_mask_lane a x shift :
  (shift = 0 ∨ shift = 8) →
  Z.land (Z.shiftr (Z.land x (register_mask a)) shift) 0xff = Z.land (Z.shiftr x shift) 0xff.
Proof.
  intros Hs. rewrite land_register_mask. apply Z.bits_inj'. intros i Hi. change 0xff with (Z.ones 8).
  rewrite !Z.land_spec, !Z.shiftr_spec by lia. destruct (decide (i < 8)).
  - rewrite Z.mod_pow2_bits_low; [done|]. destruct a; simpl; lia.
  - by rewrite !(Z.ones_spec_high 8 i), !andb_false_r by lia.
Qed.

(** A byte written is read back from its lane, and no other lane changes. *)
Lemma get_set_byte s r r' v :
  well_formed s → 0 ≤ v < 256 →
  get_byte (set_byte r v s) r' = if decide (lane r = lane r') then v else get_byte s r'.
Proof.
  intros wf Hv. rewrite set_byte_value, !get_byte_bits. rewrite get_set by done.
  assert ((lane r).2 = 0 ∨ (lane r).2 = 8) as Hs by (unfold lane; destruct (is_high_byte r); simpl; auto).
  assert ((lane r').2 = 0 ∨ (lane r').2 = 8) as Hs' by (unfold lane; destruct (is_high_byte r'); simpl; auto).
  change (full_register r) with (lane r).1. destruct (lane r) as [f sh], (lane r') as [f' sh']. simpl in *.
  destruct (decide (f = f')) as [<-|Hne].
  - rewrite land_mask_lane by done. rewrite replace_lane by (done || apply get_bound).
    destruct (decide (sh = sh')) as [<-|]; [by rewrite decide_True|by rewrite decide_False by congruence].
  - by rewrite decide_False by congruence.
Qed.

(** ** EFLAGS *)

Lemma testbit_one_bit k i : 0 ≤ k → 0 ≤ i → Z.testbit (Z.shiftl 1 k) i = (i =? k).
Proof. intros. rewrite Z.shiftl_1_l, Z.pow2_bits_eqb by lia. apply Z.eqb_sym. Qed.

Lemma testbit_or_if b k v i : 0 ≤ k → 0 ≤ i →
  Z.testbit (or_if b (Z.shiftl 1 k) v) i = Z.testbit v i || (b && (i =? k)).
Proof.
  intros. unfold or_if. destruct b; simpl; [|by rewrite orb_false_r].
  by rewrite Z.lor_spec, testbit_one_bit.
Qed.

Lemma bit_set_testbit v k : 0 ≤ k → bit_set v (Z.shiftl 1 k) = Z.testbit v k.
Proof. apply testbit_pow. Qed.

(** The bits that are not [eflags_extra]'s. *)
Definition reserved (i : Z) : bool :=
  (i =? 0) || (i =? 2) || (i =? 4) || (i =? 6) || (i =? 7) || (i =? 11) || (i =? 1).
Lemma testbit_extra v i : 0 ≤ i < 64 →
  Z.testbit (Z.land v (not_u64 (Z.lor EFLAGS_ARITHMETIC_MASK EFLAGS_ALWAYS_SET))) i
  = Z.testbit v i && negb (reserved i).
Proof.
  intros Hi. rewrite Z.land_spec, testbit_not_u64 by done. do 2 f_equal.
  unfold EFLAGS_ARITHMETIC_MASK, EFLAGS_CF, EFLAGS_PF, EFLAGS_AF, EFLAGS_ZF, EFLAGS_SF, EFLAGS_OF, EFLAGS_ALWAYS_SET.
  by rewrite !Z.lor_spec, !testbit_one_bit by lia.
Qed.

Lemma testbit_pack s i : 0 ≤ i < 64 →
  Z.testbit (pack_eflags s) i
  = (i =? 1) || (Z.testbit (cs_eflags_extra s) i && negb (reserved i))
    || (cf (cs_flags s) && (i =? 0)) || (pf (cs_flags s) && (i =? 2)) || (af (cs_flags s) && (i =? 4))
    || (zf (cs_flags s) && (i =? 6)) || (sf (cs_flags s) && (i =? 7)) || (of_ (cs_flags s) && (i =? 11)).
Proof.
  intros Hi. unfold pack_eflags, EFLAGS_CF, EFLAGS_PF, EFLAGS_AF, EFLAGS_ZF, EFLAGS_SF, EFLAGS_OF.
  rewrite !testbit_or_if by lia. rewrite Z.lor_spec. fold EFLAGS_CF EFLAGS_PF EFLAGS_AF EFLAGS_ZF EFLAGS_SF EFLAGS_OF.
  rewrite testbit_extra by done. unfold EFLAGS_ALWAYS_SET. by rewrite testbit_one_bit by lia.
Qed.

Lemma pack_bounded s : u64 (cs_eflags_extra s) → u64 (pack_eflags s).
Proof.
  unfold u64, u64_max. intros He. assert (0 ≤ pack_eflags s < 2 ^ 64) as ?; [|lia].
  assert (Hor : ∀ b k v, 0 ≤ k < 64 → 0 ≤ v < 2 ^ 64 → 0 ≤ or_if b (Z.shiftl 1 k) v < 2 ^ 64).
  { intros b k v Hk Hv. destruct b; [|done]. apply lor_bounded; [lia|done|]. rewrite Z.shiftl_1_l.
    split; [lia|]. apply Z.pow_lt_mono_r; lia. }
  unfold pack_eflags. repeat (apply Hor; [lia|]). apply lor_bounded; [lia|by vm_compute|].
  rewrite Z.land_comm. apply land_bounded; lia.
Qed.

Ltac bit_cases i :=
  unfold reserved; destruct (Z.eqb_spec i 1) as [->|]; [|destruct (Z.eqb_spec i 0) as [->|];
    [|destruct (Z.eqb_spec i 2) as [->|]; [|destruct (Z.eqb_spec i 4) as [->|]; [|destruct (Z.eqb_spec i 6) as [->|];
    [|destruct (Z.eqb_spec i 7) as [->|]; [|destruct (Z.eqb_spec i 11) as [->|]]]]]]];
  cbn [andb orb negb Z.eqb Pos.eqb]; rewrite ?andb_false_r, ?andb_true_r, ?orb_false_r, ?orb_true_r; try done.

Lemma unpack_flags v s :
  cs_flags (unpack_eflags v s)
  = {| cf := Z.testbit v 0; pf := Z.testbit v 2; af := Z.testbit v 4; zf := Z.testbit v 6;
       sf := Z.testbit v 7; of_ := Z.testbit v 11 |}.
Proof.
  unfold unpack_eflags, cs_set_eflags_extra, cs_set_flags. cbn [cs_flags].
  unfold EFLAGS_CF, EFLAGS_PF, EFLAGS_AF, EFLAGS_ZF, EFLAGS_SF, EFLAGS_OF. by rewrite !bit_set_testbit by lia.
Qed.

Lemma pack_unpack v s : u64 v → pack_eflags (unpack_eflags v s) = Z.lor v EFLAGS_ALWAYS_SET.
Proof.
  intros Hv. unfold u64, u64_max in Hv. apply Z.bits_inj'. intros i Hi.
  assert (u64 (cs_eflags_extra (unpack_eflags v s))) as He.
  { unfold u64, u64_max. cbn. assert (0 ≤ Z.land v (not_u64 (Z.lor EFLAGS_ARITHMETIC_MASK EFLAGS_ALWAYS_SET)) < 2 ^ 64) as ?; [|lia].
    rewrite Z.land_comm. apply land_bounded; lia. }
  pose proof (pack_bounded _ He) as Hp. unfold u64, u64_max in Hp.
  destruct (decide (i < 64)) as [Hlt|].
  - rewrite testbit_pack, unpack_flags, Z.lor_spec by lia. cbn [cf pf af zf sf of_].
    change (cs_eflags_extra (unpack_eflags v s)) with
      (Z.land v (not_u64 (Z.lor EFLAGS_ARITHMETIC_MASK EFLAGS_ALWAYS_SET))).
    rewrite testbit_extra by lia. unfold EFLAGS_ALWAYS_SET. rewrite testbit_one_bit by lia. bit_cases i.
  - rewrite !(testbit_bounded 64); [done| |lia|lia|lia]. apply lor_bounded; [lia|lia|by vm_compute].
Qed.

(** ** Lazy flags *)

(** The flags a reader would see. *)
Definition flags_view (s : CpuState) : Flags :=
  match cs_pending_flags s with Some p => evaluate p | None => cs_flags s end.

(** What the executors do with flags: an addition, subtraction or logic result, an
    instruction that defines its flags itself, POPF, and a reader. *)
Inductive flag_op :=
| OpAdd (lhs rhs result width : Z)
| OpSub (lhs rhs result width : Z)
| OpLogic (result width : Z)
| OpWrite (f : Flags)
| OpPop (value : Z)
| OpRead.

Definition lazy_step (op : flag_op) : M CpuStats (list Flags) :=
  match op with
  | OpAdd l r res w => defer_add_flags l r res w ;;; ret []
  | OpSub l r res w => defer_sub_flags l r res w ;;; ret []
  | OpLogic res w => defer_logic_flags res w ;;; ret []
  | OpWrite f => discard_pending_flags ;;; on_cpu (cs_set_flags f) ;;; ret []
  | OpPop v => discard_pending_flags ;;; on_cpu (unpack_eflags v) ;;; ret []
  | OpRead => materialize_flags ;;; gets (λ '(s, _), [cs_flags s])
  end.
Fixpoint lazy_run (ops : list flag_op) : M CpuStats (list Flags) :=
  match ops with
  | [] => ret []
  | op :: ops => a <- lazy_step op ;; b <- lazy_run ops ;; ret (a ++ b)
  end.

(** The flags computed at once. *)
Definition popped (v : Z) : Flags :=
  {| cf := Z.testbit v 0; pf := Z.testbit v 2; af := Z.testbit v 4; zf := Z.testbit v 6;
     sf := Z.testbit v 7; of_ := Z.testbit v 11 |}.
Definition eager_step (op : flag_op) (f : Flags) : Flags :=
  match op with
  | OpAdd l r res w => add_flags l r res w
  | OpSub l r res w => sub_flags l r res w
  | OpLogic res w => logic_flags res w
  | OpWrite g => g
  | OpPop v => popped v
  | OpRead => f
  end.
Definition reads (op : flag_op) (f : Flags) : list Flags := match op with OpRead => [f] | _ => [] end.
Fixpoint eager_run (ops : list flag_op) (f : Flags) : list Flags :=
  match ops with
  | [] => []
  | op :: ops => reads op f ++ eager_run ops (eager_step op f)
  end.
Definition eager_final (ops : list flag_op) (f : Flags) : Flags := foldl (λ f op, eager_step op f) f ops.

(** How many results a run parks. *)
Definition parks (op : flag_op) : Z := match op with OpAdd _ _ _ _ | OpSub _ _ _ _ | OpLogic _ _ => 1 | _ => 0 end.
Definition parked (ops : list flag_op) : Z := foldr (λ op n, parks op + n) 0 ops.
Definition valid_op (op : flag_op) : Prop :=
  match op with OpAdd _ _ _ w | OpSub _ _ _ w | OpLogic _ w => is_width w | _ => True end.
Definition pending_count (s : CpuState) : Z := match cs_pending_flags s with Some _ => 1 | None => 0 end.

(** The bits of EFLAGS other than the flags and the bit that is always set: POPF
    stores those it pops. *)
Definition eager_extra (op : flag_op) (x : Z) : Z :=
  match op with OpPop v => Z.land v 0xFFFFFFFFFFFFF728 | _ => x end.
Definition extra_final (ops : list flag_op) (x : Z) : Z := foldl (λ x op, eager_extra op x) x ops.

(** Everything but EFLAGS and the pending computation: the register files, the x87 and
    control registers, the segments, and what the translated code keeps. *)
Definition rest_of (s : CpuState) :=
  (cs_arch s, cs_gpr s, cs_xmm s, cs_ymm_upper s, cs_zmm_upper s, cs_opmask s, cs_x87 s, cs_mxcsr s,
   (cs_segment_bases s, cs_rip s, cs_dr s, cs_bnd s, cs_ssp s),
   (cs_jit_pending_fault s, cs_jit_pending_fault_write s, cs_jit_spill s)).
Definition same_rest (s s' : CpuState) : Prop := rest_of s' = rest_of s.

Lemma width_u8 w : is_width w → w mod 2 ^ 8 = w.
Proof. intros Hw. apply Z.mod_small. pose proof (width_bounds w Hw). lia. Qed.

Definition st_total (st : LazyFlagStats) : Z := ls_materialised st + ls_skipped st.

Lemma materialize_flags_run s st :
  0 ≤ ls_materialised st → ls_materialised st + 1 ≤ u64_max →
  ∃ s' st', materialize_flags (s, st) = Done (Ok tt) (s', st') ∧ cs_flags s' = flags_view s ∧
    cs_pending_flags s' = None ∧ same_rest s s' ∧ cs_eflags_extra s' = cs_eflags_extra s ∧
    ls_skipped st' = ls_skipped st ∧ ls_materialised st' = ls_materialised st + pending_count s.
Proof.
  intros H0 H1. unfold materialize_flags, flags_view, pending_count. cbn [bind gets id].
  destruct (cs_pending_flags s) as [p|] eqn:E.
  - cbn. rewrite (proj2 (Z.leb_le _ _)) by done. eexists _, _. split; [done|]. repeat split.
  - eexists _, _. split; [done|]. rewrite E. repeat split. lia.
Qed.

Lemma park_run p s st :
  0 ≤ ls_skipped st → ls_skipped st + 1 ≤ u64_max →
  park p (s, st) = Done (Ok tt) (cs_set_pending_flags (Some p) s,
    {| ls_materialised := ls_materialised st; ls_skipped := ls_skipped st + pending_count s |}).
Proof.
  intros H0 H1. unfold park, pending_count. cbn [bind gets id]. unfold count_skipped.
  rewrite (proj2 (Z.leb_le _ _)) by (destruct (cs_pending_flags s); lia). done.
Qed.

Lemma discard_run s st :
  0 ≤ ls_skipped st → ls_skipped st + 1 ≤ u64_max →
  discard_pending_flags (s, st) = Done (Ok tt) (cs_set_pending_flags None s,
    {| ls_materialised := ls_materialised st; ls_skipped := ls_skipped st + pending_count s |}).
Proof.
  intros H0 H1. unfold discard_pending_flags, pending_count. cbn [bind gets id].
  destruct (cs_pending_flags s) as [p|] eqn:E.
  - cbn. by rewrite (proj2 (Z.leb_le _ _)) by done.
  - cbn. rewrite Z.add_0_r. destruct s, st. cbn in E. by subst.
Qed.

Lemma lazy_step_spec op s st :
  valid_op op → 0 ≤ ls_materialised st → 0 ≤ ls_skipped st → st_total st + pending_count s < u64_max →
  ∃ s' st', lazy_step op (s, st) = Done (Ok (reads op (flags_view s))) (s', st') ∧
    flags_view s' = eager_step op (flags_view s) ∧ cs_eflags_extra s' = eager_extra op (cs_eflags_extra s) ∧ same_rest s s' ∧
    0 ≤ ls_materialised st' ∧ 0 ≤ ls_skipped st' ∧
    st_total st' + pending_count s' = st_total st + pending_count s + parks op.
Proof.
  intros Hv H0 H1 H2. unfold st_total, pending_count in *.
  assert (0 ≤ match cs_pending_flags s with Some _ => 1 | None => 0 end ≤ 1) as Hp by (destruct (cs_pending_flags s); lia).
  assert (ls_skipped st + 1 ≤ u64_max ∧ ls_materialised st + 1 ≤ u64_max) as [Hs Hm] by lia.
  destruct op; cbn [lazy_step bind reads eager_step parks valid_op] in *;
    unfold defer_add_flags, defer_sub_flags, defer_logic_flags.
  1-3: rewrite park_run by done; eexists _, _; split; [done|]; unfold flags_view; cbn;
    rewrite width_u8 by done; unfold pending_count; repeat split; lia.
  - rewrite discard_run by done. eexists _, _. split; [done|]. unfold flags_view, pending_count. cbn. repeat split; lia.
  - rewrite discard_run by done. eexists _, _. split; [done|].
    split; [unfold flags_view; cbn [cs_pending_flags]; etransitivity; [|apply (unpack_flags value (cs_set_pending_flags None s))]; done|].
    unfold pending_count. cbn. repeat split; lia.
  - destruct (materialize_flags_run s st) as (s' & st' & -> & Hf & Hn & Hr & Hx & E1 & E2); [done|done|].
    eexists _, _. split; [cbn; by rewrite Hf|]. unfold flags_view at 1. rewrite Hn. unfold pending_count in E2.
    repeat split; try apply Hr; try done; lia.
Qed.

Lemma parked_nonneg ops : 0 ≤ parked ops.
Proof. induction ops as [|[] ops IH]; simpl; lia. Qed.

Lemma same_rest_trans a b c : same_rest a b → same_rest b c → same_rest a c.
Proof. unfold same_rest. by intros <- ->. Qed.

Lemma lazy_run_spec ops s st :
  Forall valid_op ops → 0 ≤ ls_materialised st → 0 ≤ ls_skipped st →
  st_total st + pending_count s + parked ops < u64_max →
  ∃ s' st', lazy_run ops (s, st) = Done (Ok (eager_run ops (flags_view s))) (s', st') ∧
    flags_view s' = eager_final ops (flags_view s) ∧ cs_eflags_extra s' = extra_final ops (cs_eflags_extra s) ∧ same_rest s s' ∧
    0 ≤ ls_materialised st' ∧ 0 ≤ ls_skipped st' ∧
    st_total st' + pending_count s' = st_total st + pending_count s + parked ops.
Proof.
  revert s st. induction ops as [|op ops IH]; intros s st Hv H0 H1 H2; cbn [lazy_run eager_run parked foldr eager_final extra_final foldl] in *.
  - eexists _, _. split; [done|]. repeat split; lia.
  - apply Forall_cons in Hv as [Hop Hv]. pose proof (parked_nonneg ops). fold (parked ops) in *.
    assert (0 ≤ parks op) by (destruct op; simpl; lia).
    destruct (lazy_step_spec op s st Hop H0 H1) as (s1 & st1 & E1 & Hf1 & Hx1 & Hr1 & M1 & S1 & C1); [lia|].
    destruct (IH s1 st1 Hv M1 S1) as (s2 & st2 & E2 & Hf2 & Hx2 & Hr2 & M2 & S2 & C2); [lia|].
    exists s2, st2. split; [cbn [bind]; by rewrite E1, E2, Hf1|].
    split; [by rewrite Hf2, Hf1|]. split; [by rewrite Hx2, Hx1|]. split; [by eapply same_rest_trans|]. repeat split; lia.
Qed.

(** ** Vector registers *)

Lemma at_index_run {A} (l : list A) index s v :
  0 ≤ index → l !! Z.to_nat index = Some v → at_index l index s = Done (Ok v) s.
Proof. intros Hi Hl. unfold at_index. by rewrite (proj2 (Z.leb_le _ _)), Hl by done. Qed.

Lemma at_index_panics {A} (l : list A) index s : 0 ≤ index → Z.of_nat (length l) ≤ index → at_index l index s = Panic.
Proof.
  intros Hi Hl. unfold at_index. rewrite (proj2 (Z.leb_le _ _)) by done.
  by rewrite lookup_ge_None_2 by lia.
Qed.

Lemma set_zmm_run s index v :
  well_formed s → 0 ≤ index < 16 →
  set_zmm index v s = Done (Ok tt)
    (cs_set_zmm_upper (<[Z.to_nat index := zmm_high v]> (cs_zmm_upper s))
       (cs_set_ymm_upper (<[Z.to_nat index := ymm_high (zmm_low v)]> (cs_ymm_upper s))
          (cs_set_xmm (<[Z.to_nat index := ymm_low (zmm_low v)]> (cs_xmm s)) s))).
Proof.
  intros [] Hi. unfold set_zmm, set_ymm, set_xmm, store_at. cbn [bind gets id].
  destruct (lookup_lt_is_Some_2 (cs_xmm s) (Z.to_nat index)) as [x Hx]; [lia|].
  destruct (lookup_lt_is_Some_2 (cs_ymm_upper s) (Z.to_nat index)) as [y Hy]; [lia|].
  destruct (lookup_lt_is_Some_2 (cs_zmm_upper s) (Z.to_nat index)) as [z Hz]; [lia|].
  rewrite (at_index_run _ _ _ x) by (done || lia). cbn [modify].
  rewrite (at_index_run _ _ _ y) by (done || lia). cbn [modify].
  rewrite (at_index_run _ _ _ z) by (done || lia). done.
Qed.

Lemma get_zmm_run s index x y z :
  0 ≤ index → cs_xmm s !! Z.to_nat index = Some x → cs_ymm_upper s !! Z.to_nat index = Some y →
  cs_zmm_upper s !! Z.to_nat index = Some z →
  get_zmm index s = Done (Ok {| zmm_low := {| ymm_low := x; ymm_high := y |}; zmm_high := z |}) s.
Proof.
  intros Hi Hx Hy Hz. unfold get_zmm, get_ymm, get_xmm. cbn [bind gets id].
  rewrite (at_index_run _ _ _ x) by done. cbn iota beta. rewrite (at_index_run _ _ _ y) by done. cbn [ret].
  by rewrite (at_index_run _ _ _ z) by done.
Qed.

(** ** Properties *)

(** C32 - Operations on the registers keep the state well formed: the arrays keep their
    length and every general register stays within the mask of the guest
    architecture (64 bits, or 32 for an x86 guest). *)
Theorem cpu_state_well_formed s r rb v b index x y z k bp f :
  well_formed s →
  well_formed (set r v s) ∧ well_formed (set_byte rb b s) ∧ well_formed (set_opmask index k s) ∧
  well_formed (set_bnd index bp s) ∧ well_formed (unpack_eflags v s) ∧
  well_formed (clear_all_ymm_upper s) ∧ well_formed (clear_all_zmm_upper s) ∧
  (∀ (c : M CpuState unit) s', c ∈ [set_xmm index x; set_ymm index y; set_zmm index z;
      clear_ymm_upper index; clear_zmm_upper index] → c s = Done (Ok tt) s' → well_formed s') ∧
  (∀ (c : M CpuStats unit) s' st st', c ∈ [materialize_flags; discard_pending_flags;
      defer_add_flags v b k index; defer_sub_flags v b k index; defer_logic_flags v k; on_cpu (cs_set_flags f)] →
      c (s, st) = Done (Ok tt) (s', st') → well_formed s').
Proof.
  intros wf. split_and!.
  - by apply set_well_formed.
  - rewrite set_byte_value. by apply set_well_formed.
  - destruct wf. split; try done. cbn. by rewrite length_insert.
  - destruct wf. split; try done. cbn. by rewrite length_insert.
  - by destruct wf.
  - destruct wf. split; try done. cbn. by rewrite length_map.
  - destruct wf. split; try done. cbn. by rewrite length_map.
  - intros c s' Hc Hrun. destruct wf. repeat (apply elem_of_cons in Hc as [->|Hc]); [..|by apply not_elem_of_nil in Hc];
      unfold set_zmm, set_ymm, set_xmm, clear_ymm_upper, clear_zmm_upper, store_at, at_index in Hrun; cbn in Hrun;
      repeat (case_match; simplify_eq/=); split; cbn; rewrite ?length_insert; done.
  - intros c s' st st' Hc Hrun. destruct wf.
    repeat (apply elem_of_cons in Hc as [->|Hc]); [..|by apply not_elem_of_nil in Hc];
      unfold materialize_flags, discard_pending_flags, defer_add_flags, defer_sub_flags, defer_logic_flags, park,
        on_cpu, count_skipped, count_materialised in Hrun; cbn in Hrun;
      repeat first [progress simplify_eq/= | case_match]; split; done.
Qed.

(** Registers and their byte lanes: a register written is read back truncated to
    the architecture and no other changes; a byte register written is read back,
    every byte register of another lane keeps its value (AL and AH are two lanes
    of RAX), and full registers other than its own keep theirs. *)
Theorem register_file_exact s r r' rb rb' v b :
  well_formed s → 0 ≤ b < 256 →
  get (set r v s) r' = (if decide (r = r') then v mod 2 ^ mask_bits (cs_arch s) else get s r') ∧
  get_byte (set_byte rb b s) rb' = (if decide (lane rb = lane rb') then b else get_byte s rb') ∧
  (full_register rb ≠ r' → get (set_byte rb b s) r' = get s r').
Proof.
  intros wf Hb. split_and!.
  - rewrite get_set by done. by rewrite land_register_mask.
  - by apply get_set_byte.
  - intros Hne. rewrite set_byte_value, get_set by done. by rewrite decide_False.
Qed.

(** EFLAGS pushed and popped: what is popped is what is pushed next, with the
    reserved bit 1 set; popping what was pushed restores the six flags. *)
Theorem eflags_roundtrip s v :
  u64 v → u64 (cs_eflags_extra s) →
  pack_eflags (unpack_eflags v s) = Z.lor v EFLAGS_ALWAYS_SET ∧
  cs_flags (unpack_eflags (pack_eflags s) s) = cs_flags s ∧
  cs_pending_flags (unpack_eflags v s) = None ∧
  pack_eflags (unpack_eflags (pack_eflags s) s) = pack_eflags s.
Proof.
  intros Hv He. pose proof (pack_bounded s He) as Hp. split_and!; [by apply pack_unpack| |done|].
  - rewrite unpack_flags, !testbit_pack by lia. unfold reserved.
    cbn [Z.eqb Pos.eqb andb orb negb]. rewrite !andb_false_r, !andb_true_r. cbn [orb]. rewrite ?orb_false_r.
    by destruct (cs_flags s).
  - rewrite pack_unpack by done. apply Z.bits_inj'. intros i Hi. unfold EFLAGS_ALWAYS_SET.
    rewrite Z.lor_spec, testbit_one_bit by lia. destruct (Z.eqb_spec i 1) as [->|]; [|by rewrite orb_false_r].
    rewrite testbit_pack by lia. done.
Qed.

(** C29 - Flags computed lazily are the flags computed at once: for any sequence of
    additions, subtractions, logic operations, direct writes, POPFs and reads,
    every read sees what the eager computation gives there, and so does a reader
    at the end; the other bits of EFLAGS are those the last POPF left, and every other
    register of the processor state is as it was; and every parked computation is
    counted once, as materialised or as skipped, or is the one still pending. *)
Theorem lazy_flags_refine_eager ops s st :
  Forall valid_op ops → 0 ≤ ls_materialised st → 0 ≤ ls_skipped st →
  st_total st + pending_count s + parked ops < u64_max →
  ∃ s' st' s'' st'', lazy_run ops (s, st) = Done (Ok (eager_run ops (flags_view s))) (s', st') ∧
    materialize_flags (s', st') = Done (Ok tt) (s'', st'') ∧
    cs_flags s'' = eager_final ops (flags_view s) ∧ cs_eflags_extra s'' = extra_final ops (cs_eflags_extra s) ∧
    cs_pending_flags s'' = None ∧ same_rest s s'' ∧
    st_total st'' = st_total st + pending_count s + parked ops.
Proof.
  intros Hv H0 H1 H2. destruct (lazy_run_spec ops s st Hv H0 H1 H2) as (s' & st' & E & Hf & Hx & Hr & M & S & C).
  assert (0 ≤ pending_count s') by (unfold pending_count; destruct (cs_pending_flags s'); lia).
  unfold st_total in *. destruct (materialize_flags_run s' st') as (s'' & st'' & E' & Hf' & Hn & Hr' & Hx' & C1 & C2); [done|lia|].
  exists s', st', s'', st''. split_and!; [done|done|by rewrite Hf'|by rewrite Hx'|done|by eapply same_rest_trans|lia].
Qed.

(** A ZMM register written is read back whole, and its parts are the XMM register
    and the two upper halves of the same index; an index beyond 15 panics. *)
Theorem vector_registers_alias s index v :
  well_formed s →
  (0 ≤ index < 16 → ∃ s', set_zmm index v s = Done (Ok tt) s' ∧ get_zmm index s' = Done (Ok v) s' ∧
     get_ymm index s' = Done (Ok (zmm_low v)) s' ∧ get_xmm index s' = Done (Ok (ymm_low (zmm_low v))) s') ∧
  (16 ≤ index → set_zmm index v s = Panic ∧ get_xmm index s = Panic).
Proof.
  intros wf. split.
  - intros Hi. eexists. split; [by apply set_zmm_run|]. destruct wf.
    set (s' := cs_set_zmm_upper _ _).
    assert (cs_xmm s' !! Z.to_nat index = Some (ymm_low (zmm_low v))) as Hx by (apply list_lookup_insert_eq; lia).
    assert (cs_ymm_upper s' !! Z.to_nat index = Some (ymm_high (zmm_low v))) as Hy by (apply list_lookup_insert_eq; lia).
    assert (cs_zmm_upper s' !! Z.to_nat index = Some (zmm_high v)) as Hz by (apply list_lookup_insert_eq; lia).
    split_and!.
    + rewrite (get_zmm_run s' index _ _ _ ltac:(lia) Hx Hy Hz). by destruct v as [[]].
    + unfold get_ymm, get_xmm. cbn [bind gets id]. rewrite (at_index_run _ index _ _ ltac:(lia) Hx). cbn iota beta.
      rewrite (at_index_run _ index _ _ ltac:(lia) Hy). by destruct v as [[]].
    + unfold get_xmm. cbn [bind gets id]. by rewrite (at_index_run _ index _ _ ltac:(lia) Hx).
  - intros Hi. destruct wf. unfold set_zmm, set_ymm, set_xmm, get_xmm, store_at. cbn [bind gets id].
    by rewrite at_index_panics by lia.
Qed.

(** ** Concrete runs *)

Lemma cpu_state_well_formed_witness : well_formed (set Rax 5 (new_cpu X86)).
Proof.
  exact (proj1 (cpu_state_well_formed (new_cpu X86) Rax Al 5 0 0 xmm_zero
    {| ymm_low := xmm_zero; ymm_high := xmm_zero |} {| zmm_low := ymm_zero; zmm_high := ymm_zero |} 0 (0, 0) no_flags
    (well_formed_new X86))).
Defined.

Lemma register_file_exact_witness :
  get_byte (set_byte Ah 7 (new_cpu X64)) Ah = 7 ∧ get_byte (set_byte Ah 7 (new_cpu X64)) Al = 0.
Proof.
  pose proof (register_file_exact (new_cpu X64) Rax Rax Ah Ah 0 7 (well_formed_new X64) ltac:(lia)) as (_ & H1 & _).
  pose proof (register_file_exact (new_cpu X64) Rax Rax Ah Al 0 7 (well_formed_new X64) ltac:(lia)) as (_ & H2 & _).
  split; [exact H1|exact H2].
Defined.

Lemma eflags_roundtrip_witness : pack_eflags (unpack_eflags 0x41 (new_cpu X64)) = 0x43.
Proof. exact (proj1 (eflags_roundtrip (new_cpu X64) 0x41 ltac:(done) ltac:(done))). Defined.

Lemma lazy_flags_refine_eager_witness :
  ∃ s' st', lazy_run [OpAdd 1 2 3 8; OpSub 1 2 0xFF 8; OpRead] (new_cpu X64, no_flag_stats)
    = Done (Ok [sub_flags 1 2 0xFF 8]) (s', st').
Proof.
  destruct (lazy_flags_refine_eager [OpAdd 1 2 3 8; OpSub 1 2 0xFF 8; OpRead] (new_cpu X64) no_flag_stats)
    as (s' & st' & _ & _ & H & _); [repeat constructor|done|done|done|]. exists s', st'. exact H.
Defined.

Lemma vector_registers_alias_witness :
  set_zmm 16 {| zmm_low := ymm_zero; zmm_high := ymm_zero |} (new_cpu X64) = Panic.
Proof.
  destruct (vector_registers_alias (new_cpu X64) 16 {| zmm_low := ymm_zero; zmm_high := ymm_zero |} (well_formed_new X64))
    as [_ H]. apply H. done.
Defined.
End Cs.
