(* ===== verification/Pages.v ===== *)
(** * Page arithmetic of the guest's address space

    Masking an address down to its page, rounding a size up, and the pages of a range
    as a list; shared by the virtual memory and by the page store of the processor. *)

From stdpp Require Import list_numbers.
From S2P Require Import Prelude.

Definition aligned (x : Z) : Prop := x mod 4096 = 0.
#[export] Instance aligned_dec x : Decision (aligned x).
Proof. unfold aligned. apply _. Defined.

Definition floor_page (x : Z) : Z := x - x mod 4096.

(** The top of the address space. *)
Lemma two64 : 2 ^ 64 = 18446744073709551616.
Proof. done. Qed.

Ltac page_lia :=
  unfold aligned, floor_page, u64, u64_max in *; change (2 ^ 64) with 18446744073709551616 in *;
  Z.div_mod_to_equations; lia.

Lemma land_not_ones k x : 0 ≤ k ≤ 64 → 0 ≤ x < 2 ^ 64 → Z.land x (not_u64 (2 ^ k - 1)) = x - x mod 2 ^ k.
Proof.
  intros Hk Hx. replace (2 ^ k - 1) with (Z.ones k) by (rewrite Z.ones_equiv; lia).
  assert (Z.land x (not_u64 (Z.ones k)) = Z.ldiff x (Z.ones k)) as ->.
  { apply Z.bits_inj'. intros i Hi. rewrite Z.land_spec, Z.ldiff_spec. unfold not_u64. rewrite Z.lxor_spec.
    change u64_max with (Z.ones 64). destruct (decide (i < 64)).
    - rewrite (Z.ones_spec_low 64) by lia. by rewrite xorb_true_r.
    - by rewrite (testbit_bounded 64 x i) by (done || lia). }
  rewrite Z.ldiff_ones_r, Z.shiftl_mul_pow2, Z.shiftr_div_pow2 by lia.
  rewrite Z.mod_eq by (apply Z.pow_nonzero; lia). lia.
Qed.

Lemma land_page x : u64 x → Z.land x (not_u64 4095) = floor_page x.
Proof.
  intros Hx. change 4095 with (2 ^ 12 - 1). rewrite land_not_ones; [done|lia|].
  unfold u64, u64_max in Hx. rewrite two64. lia.
Qed.

Lemma floor_page_spec x : aligned (floor_page x) ∧ floor_page x ≤ x < floor_page x + 4096.
Proof. page_lia. Qed.
Lemma floor_page_aligned x : aligned x → floor_page x = x.
Proof. page_lia. Qed.
Lemma floor_page_unique x p : aligned p → p ≤ x < p + 4096 → floor_page x = p.
Proof. page_lia. Qed.
Lemma floor_page_le x y : x ≤ y → floor_page x ≤ floor_page y.
Proof. page_lia. Qed.
Lemma floor_page_lt x e : aligned e → x < e ↔ floor_page x < e.
Proof. page_lia. Qed.
Lemma floor_page_ge x b : aligned b → b ≤ x ↔ b ≤ floor_page x.
Proof. page_lia. Qed.
Lemma aligned_add x y : aligned x → aligned y → aligned (x + y).
Proof. page_lia. Qed.
Lemma aligned_next p q : aligned p → aligned q → p < q → p + 4096 ≤ q.
Proof. page_lia. Qed.

(** ** The pages below [end_] from [start] on *)

Definition pages_in (start end_ : Z) : list Z :=
  (λ i, start + 4096 * i) <$> seqZ 0 ((end_ - start + 4095) / 4096).

Lemma elem_of_pages_in start end_ p :
  aligned start → p ∈ pages_in start end_ ↔ aligned p ∧ start ≤ p < end_.
Proof.
  intros Ha. unfold pages_in. rewrite list_elem_of_fmap. split.
  - intros (i & -> & Hi%elem_of_seqZ). page_lia.
  - intros [Hp Hr]. exists ((p - start) / 4096). rewrite elem_of_seqZ. page_lia.
Qed.

Lemma pages_in_nil start end_ : end_ ≤ start → pages_in start end_ = [].
Proof. intros H. unfold pages_in. rewrite seqZ_nil; [done|]. Z.div_mod_to_equations; lia. Qed.

Lemma pages_in_cons start end_ :
  start < end_ → pages_in start end_ = start :: pages_in (start + 4096) end_.
Proof.
  intros H. unfold pages_in. rewrite seqZ_cons by (Z.div_mod_to_equations; lia).
  rewrite fmap_cons. f_equal; [lia|].
  replace (Z.pred ((end_ - start + 4095) / 4096)) with ((end_ - (start + 4096) + 4095) / 4096)
    by (Z.div_mod_to_equations; lia).
  change (Z.succ 0) with (1 + 0). rewrite <-fmap_add_seqZ, <-list_fmap_compose.
  apply list_fmap_ext. intros i x _. simpl. lia.
Qed.

Lemma NoDup_pages_in start end_ : NoDup (pages_in start end_).
Proof. unfold pages_in. apply NoDup_fmap_2; [intros i j; lia|apply NoDup_seqZ]. Qed.
