(* ===== verification/VirtualMemory.v ===== *)
(** * The guest's virtual memory: [src/vm.rs]

    Reservations, the state of their committed pages, and the one check every guest
    access goes through.  An address is a [u64].  Regions may nest: a page belongs to
    the innermost region that contains it.  The backing of a file view is the
    identity of the shared vector. *)

From S2P Require Import Prelude.

Definition VM_PAGE_SIZE : Z := 0x1000.
Definition VM_PAGE_MASK : Z := not_u64 (VM_PAGE_SIZE - 1).

(** [value.wrapping_add(align - 1) & !(align - 1)] *)
Definition align_up (value align : Z) : Z :=
  Z.land ((value + (align - 1)) mod 2 ^ 64) (not_u64 (align - 1)).

Record VmProtection := { vp_read : bool; vp_write : bool; vp_execute : bool }.
#[export] Instance VmProtection_eq_dec : EqDecision VmProtection.
Proof. solve_decision. Defined.
Definition NONE : VmProtection := {| vp_read := false; vp_write := false; vp_execute := false |}.
Definition READ : VmProtection := {| vp_read := true; vp_write := false; vp_execute := false |}.
Definition READ_WRITE : VmProtection := {| vp_read := true; vp_write := true; vp_execute := false |}.
Definition READ_EXECUTE : VmProtection := {| vp_read := true; vp_write := false; vp_execute := true |}.
Definition READ_WRITE_EXECUTE : VmProtection := {| vp_read := true; vp_write := true; vp_execute := true |}.

Inductive VmRegionKind := VkPrivate | VkImage | VkHeap | VkStack.
#[export] Instance VmRegionKind_eq_dec : EqDecision VmRegionKind.
Proof. solve_decision. Defined.

Record VmPageState := { vs_protection : VmProtection; vs_guard : bool; vs_committed : bool }.

Record VmRegion := { vr_base : Z; vr_size : Z; vr_kind : VmRegionKind; vr_pages : gmap Z VmPageState }.
Definition vr_set_size (n : Z) (r : VmRegion) : VmRegion :=
  {| vr_base := vr_base r; vr_size := n; vr_kind := vr_kind r; vr_pages := vr_pages r |}.
Definition vr_set_pages (p : gmap Z VmPageState) (r : VmRegion) : VmRegion :=
  {| vr_base := vr_base r; vr_size := vr_size r; vr_kind := vr_kind r; vr_pages := p |}.

(** [VmRegion::end]: the sum panics beyond a [u64]. *)
Definition region_end (r : VmRegion) : option Z := checked_add u64_max (vr_base r) (vr_size r).
Definition contains (r : VmRegion) (address : Z) : bool :=
  (vr_base r <=? address) && (address - vr_base r <? vr_size r).

Inductive VmState := VsFree | VsReserved | VsCommitted.
Record VmQueryResult := {
  vq_base : Z; vq_region_size : Z; vq_state : VmState; vq_protection : VmProtection;
  vq_kind : VmRegionKind; vq_guard : bool }.
Record VmAccessFault := { vf_address : Z; vf_write : bool; vf_guard : bool }.
Record VmMapping := { vm_offset : Z; vm_backing : Z }.

Record VirtualMemory := {
  vm_regions : gmap Z VmRegion;
  vm_next_region_address : Z;
  vm_mappings : gmap Z VmMapping }.
Definition vm_set_regions (r : gmap Z VmRegion) (s : VirtualMemory) : VirtualMemory :=
  {| vm_regions := r; vm_next_region_address := vm_next_region_address s; vm_mappings := vm_mappings s |}.
Definition vm_set_next (a : Z) (s : VirtualMemory) : VirtualMemory :=
  {| vm_regions := vm_regions s; vm_next_region_address := a; vm_mappings := vm_mappings s |}.
Definition vm_set_mappings (m : gmap Z VmMapping) (s : VirtualMemory) : VirtualMemory :=
  {| vm_regions := vm_regions s; vm_next_region_address := vm_next_region_address s; vm_mappings := m |}.

Definition default_vm : VirtualMemory :=
  {| vm_regions := ∅; vm_next_region_address := 0x00007fff84000000; vm_mappings := ∅ |}.
Definition new_vm (private_region_cursor : Z) : VirtualMemory :=
  {| vm_regions := ∅; vm_next_region_address := align_up private_region_cursor VM_PAGE_SIZE; vm_mappings := ∅ |}.

(** ** Finding a region *)

(** [regions.range(..=address).rev().find(|(_, r)| r.contains(address))] *)
Definition region_entry (s : VirtualMemory) (address : Z) : option (Z * VmRegion) :=
  find (λ e, contains e.2 address) (rev (filter (λ e, e.1 ≤ address) (bt_entries (vm_regions s)))).
Definition region_containing (s : VirtualMemory) (address : Z) : option VmRegion :=
  snd <$> region_entry s address.

(** [regions.values().any(..)]; [None] is the overflow of [base + size]. *)
Fixpoint any_overlaps (regions : list VmRegion) (base end_ : Z) : option bool :=
  match regions with
  | [] => Some false
  | r :: regions =>
      match region_end r with
      | None => None
      | Some e => if (base <? e) && (vr_base r <? end_) then Some true else any_overlaps regions base end_
      end
  end.
Definition overlaps_any (base size : Z) : M VirtualMemory bool := λ s,
  match checked_add u64_max base size with
  | None => Done (Ok true) s
  | Some end_ => expect (any_overlaps (bt_values (vm_regions s)) base end_) s
  end.

Definition fresh_region (base size : Z) (kind : VmRegionKind) : VmRegion :=
  {| vr_base := base; vr_size := size; vr_kind := kind; vr_pages := ∅ |}.
Definition insert_region (r : VmRegion) (s : VirtualMemory) : VirtualMemory :=
  vm_set_regions (<[vr_base r := r]> (vm_regions s)) s.

(** ** Reserving *)

Definition reserve (base : option Z) (size : Z) : M VirtualMemory Z :=
  let size := align_up (Z.max size 1) VM_PAGE_SIZE in
  address <- match base with
    | Some requested =>
        let candidate := Z.land requested VM_PAGE_MASK in
        if candidate =? 0 then ret None
        else taken <- overlaps_any candidate size ;; ret (if taken : bool then None else Some candidate)
    | None =>
        s <- gets id ;;
        let candidate := align_up (vm_next_region_address s) VM_PAGE_SIZE in
        match checked_add u64_max candidate size with
        | None => ret None
        | Some end_ => modify (vm_set_next end_) ;;; ret (Some candidate)
        end
    end ;;
  match address with
  | None => ret 0
  | Some address => modify (insert_region (fresh_region address size VkPrivate)) ;;; ret address
  end.

Definition register (base size : Z) (kind : VmRegionKind) : M VirtualMemory bool :=
  let base := Z.land base VM_PAGE_MASK in
  let size := align_up (Z.max size 1) VM_PAGE_SIZE in
  s <- gets id ;;
  match vm_regions s !! base with
  | Some region =>
      (if vr_size region <? size
       then modify (λ s, vm_set_regions (<[base := vr_set_size size region]> (vm_regions s)) s)
       else ret tt) ;;; ret true
  | None =>
      match checked_add u64_max base size with
      | None => ret false
      | Some end_ =>
          if end_ <? base then ret false
          else modify (insert_region (fresh_region base size kind)) ;;; ret true
      end
  end.

Definition release (base : Z) : M VirtualMemory bool :=
  s <- gets id ;;
  let base := Z.land base VM_PAGE_MASK in
  modify (λ s, vm_set_regions (delete base (vm_regions s)) s) ;;;
  ret (bool_decide (is_Some (vm_regions s !! base))).

Definition region_size (s : VirtualMemory) (base : Z) : option Z :=
  vr_size <$> vm_regions s !! Z.land base VM_PAGE_MASK.

Definition can_commit (base size : Z) : M VirtualMemory bool :=
  s <- gets id ;;
  let start := Z.land base VM_PAGE_MASK in
  let size := align_up (Z.max size 1) VM_PAGE_SIZE in
  match checked_add u64_max start size with
  | None => ret false
  | Some end_ =>
      match region_containing s start with
      | None => ret false
      | Some region =>
          if decide (vr_kind region = VkPrivate)
          then e <- expect (region_end region) ;; ret (end_ <=? e)
          else ret false
      end
  end.

(** ** The pages of a range

    [while page < end { .. page = page.saturating_add(VM_PAGE_SIZE) }]; the fuel
    bounds the turns. *)

Fixpoint page_loop {A} (fuel : nat) (body : Z → A → A) (page end_ : Z) (a : A) : option A :=
  if page <? end_ then
    match fuel with
    | O => None
    | S fuel => page_loop fuel body (saturating_add u64_max page VM_PAGE_SIZE) end_ (body page a)
    end
  else Some a.
Definition page_fuel (start end_ : Z) : nat := Z.to_nat ((end_ - start) / VM_PAGE_SIZE + 1).
Definition for_pages {A} (body : Z → A → A) (start end_ : Z) (a : A) : option A :=
  page_loop (page_fuel start end_) body start end_ a.

(** [region_containing_mut(page)], then a change of its pages. *)
Definition alter_pages (f : gmap Z VmPageState → gmap Z VmPageState) (page : Z) (s : VirtualMemory) : VirtualMemory :=
  match region_entry s page with
  | Some (k, r) => vm_set_regions (<[k := vr_set_pages (f (vr_pages r)) r]> (vm_regions s)) s
  | None => s
  end.

(** The end of the bytes [base..base + size], rounded up to a page. *)
Definition range_end (base size : Z) : Z :=
  Z.land (saturating_add u64_max (saturating_add u64_max base (Z.max size 1)) (VM_PAGE_SIZE - 1)) VM_PAGE_MASK.

Definition commit (base size : Z) (protection : VmProtection) (guard : bool) : M VirtualMemory unit := λ s,
  let start := Z.land base VM_PAGE_MASK in
  let state := {| vs_protection := protection; vs_guard := guard; vs_committed := true |} in
  match for_pages (λ page, alter_pages <[page := state]> page) start (range_end base size) s with
  | Some s' => Done (Ok tt) s'
  | None => Panic
  end.

Definition decommit (base size : Z) : M VirtualMemory unit := λ s,
  match for_pages (λ page, alter_pages (delete page) page) (Z.land base VM_PAGE_MASK) (range_end base size) s with
  | Some s' => Done (Ok tt) s'
  | None => Panic
  end.

Definition set_protection (p : VmProtection) (st : VmPageState) : VmPageState :=
  {| vs_protection := p; vs_guard := vs_guard st; vs_committed := vs_committed st |}.
(** The state the innermost region keeps for a page. *)
Definition page_state (s : VirtualMemory) (page : Z) : option VmPageState :=
  r ← region_containing s page; vr_pages r !! page.

Definition protect_page (protection : VmProtection) (page : Z) (acc : VirtualMemory * option VmProtection)
  : VirtualMemory * option VmProtection :=
  let '(s, first_old) := acc in
  match page_state s page with
  | Some state =>
      (alter_pages <[page := set_protection protection state]> page s,
       match first_old with None => Some (vs_protection state) | Some _ => first_old end)
  | None => acc
  end.
Definition protect (base size : Z) (protection : VmProtection) : M VirtualMemory (option VmProtection) := λ s,
  let start := Z.land base VM_PAGE_MASK in
  let end_ := saturating_add u64_max start (align_up (Z.max size 1) VM_PAGE_SIZE) in
  match for_pages (protect_page protection) start end_ (s, None) with
  | Some (s', first_old) => Done (Ok first_old) s'
  | None => Panic
  end.

Definition committed_bytes (s : VirtualMemory) : Z :=
  foldl (λ total region,
    foldl (λ total state, if vs_committed state then saturating_add u64_max total VM_PAGE_SIZE else total)
      total (bt_values (vr_pages region)))
    0 (bt_values (vm_regions s)).

(** ** Query

    The runs of pages alike are walked with fuel; [None] is a step out of the
    address space, which panics, or fuel that ran out. *)

Definition same_committed (state : VmPageState) (o : option VmPageState) : bool :=
  match o with
  | Some other => vs_committed other && bool_decide (vs_protection other = vs_protection state)
                  && eqb (vs_guard other) (vs_guard state)
  | None => false
  end.

(** [while run_start > base { prev = run_start - PAGE; if !alike(prev) break; .. }] *)
Fixpoint walk_back (fuel : nat) (alike : Z → bool) (base run_start : Z) : option Z :=
  if base <? run_start then
    if run_start - VM_PAGE_SIZE <? 0 then None
    else if alike (run_start - VM_PAGE_SIZE) then
      match fuel with
      | O => None
      | S fuel => walk_back fuel alike base (run_start - VM_PAGE_SIZE)
      end
    else Some run_start
  else Some run_start.

(** [while alike(run_end) { run_end += PAGE }] *)
Fixpoint walk_ahead (fuel : nat) (alike : Z → bool) (run_end : Z) : option Z :=
  if alike run_end then
    match fuel, checked_add u64_max run_end VM_PAGE_SIZE with
    | S fuel, Some next => walk_ahead fuel alike next
    | _, _ => None
    end
  else Some run_end.

Definition free_result : VmQueryResult :=
  {| vq_base := 0; vq_region_size := 0; vq_state := VsFree; vq_protection := NONE;
     vq_kind := VkPrivate; vq_guard := false |}.

Definition region_fuel (r : VmRegion) : nat := Z.to_nat (vr_size r / VM_PAGE_SIZE + 1).

Definition query_vm (s : VirtualMemory) (address : Z) : option VmQueryResult :=
  let page := Z.land address VM_PAGE_MASK in
  match region_containing s address with
  | None => Some free_result
  | Some region =>
      match vr_pages region !! page with
      | Some state =>
          let alike p := same_committed state (vr_pages region !! p) in
          run_start ← walk_back (region_fuel region) alike (vr_base region) page;
          first ← checked_add u64_max page VM_PAGE_SIZE;
          run_end ← walk_ahead (region_fuel region) alike first;
          Some {| vq_base := run_start; vq_region_size := run_end - run_start; vq_state := VsCommitted;
                  vq_protection := vs_protection state; vq_kind := vr_kind region; vq_guard := vs_guard state |}
      | None =>
          let absent p := bool_decide (vr_pages region !! p = None) in
          run_start ← walk_back (region_fuel region) absent (vr_base region) page;
          first ← checked_add u64_max page VM_PAGE_SIZE;
          region_end_ ← region_end region;
          run_end ← walk_ahead (region_fuel region) (λ p, (p <? region_end_) && absent p) first;
          Some {| vq_base := run_start; vq_region_size := run_end - run_start; vq_state := VsReserved;
                  vq_protection := NONE; vq_kind := vr_kind region; vq_guard := false |}
      end
  end.

(** ** The access check *)

Definition check_access (s : VirtualMemory) (address : Z) (write execute : bool) : option VmAccessFault :=
  let page := Z.land address VM_PAGE_MASK in
  let fault guard := Some {| vf_address := address; vf_write := write; vf_guard := guard |} in
  match region_containing s address with
  | None => fault false
  | Some region =>
      match vr_pages region !! page with
      | None => fault false
      | Some state =>
          if negb (vs_committed state) then fault false
          else if vs_guard state then fault true
          else
            let p := vs_protection state in
            if (execute && vp_execute p) || (write && vp_write p)
               || (negb execute && negb write && vp_read p)
            then None else fault false
      end
  end.

Definition is_mapped (s : VirtualMemory) (address : Z) : bool :=
  match (r ← region_containing s address; vr_pages r !! Z.land address VM_PAGE_MASK) with
  | Some state => vs_committed state && negb (vs_guard state)
  | None => false
  end.

(** ** File views *)

Definition map_view (base offset backing : Z) : M VirtualMemory bool :=
  let base := Z.land base VM_PAGE_MASK in
  s <- gets id ;;
  match vm_mappings s !! base with
  | Some _ => ret false
  | None => modify (λ s, vm_set_mappings (<[base := {| vm_offset := offset; vm_backing := backing |}]> (vm_mappings s)) s) ;;;
            ret true
  end.
Definition unmap_view (base : Z) : M VirtualMemory bool :=
  let base := Z.land base VM_PAGE_MASK in
  s <- gets id ;;
  modify (λ s, vm_set_mappings (delete base (vm_mappings s)) s) ;;;
  ret (bool_decide (is_Some (vm_mappings s !! base))).
Definition mapped_view (s : VirtualMemory) (base : Z) : option VmMapping :=
  vm_mappings s !! Z.land base VM_PAGE_MASK.
