(* ===== verification/VirtualMemoryFacts.v ===== *)
(** * The guest's virtual memory: invariant, page states and theorems *)

From stdpp Require Import list_numbers.
From S2P Require Import Prelude Pages VirtualMemory.

Module Vm.

(** ** Rounding *)

Lemma land_mask x : u64 x → Z.land x VM_PAGE_MASK = floor_page x.
Proof. apply land_page. Qed.

(** Rounding up is exact except in the last page, where it wraps around to zero. *)
Lemma align_up_spec x :
  u64 x → align_up x VM_PAGE_SIZE = if decide (x ≤ 2 ^ 64 - 4096) then floor_page (x + 4095) else 0.
Proof.
  intros Hx. unfold align_up. change (VM_PAGE_SIZE - 1) with 4095.
  rewrite land_page by page_lia. case_decide; page_lia.
Qed.
Lemma align_up_props x :
  u64 x → aligned (align_up x VM_PAGE_SIZE) ∧ 0 ≤ align_up x VM_PAGE_SIZE ≤ 2 ^ 64 - 4096.
Proof. intros Hx. rewrite align_up_spec by done. case_decide; page_lia. Qed.
Lemma vm_align_up_aligned x : u64 x → aligned x → align_up x VM_PAGE_SIZE = x.
Proof. intros Hx Ha. rewrite align_up_spec by done. case_decide; page_lia. Qed.

Lemma find_rev_filter_In {A} (P : A → Prop) `{!∀ x, Decision (P x)} (f : A → bool) l x :
  find f (rev (filter P l)) = Some x → x ∈ l.
Proof.
  intros [Hin _]%find_some. rewrite <-in_rev, <-list_elem_of_In in Hin. by apply list_elem_of_filter in Hin as [_ ?].
Qed.
Lemma region_entry_lookup s a k r : region_entry s a = Some (k, r) → vm_regions s !! k = Some r.
Proof. intros H. apply find_rev_filter_In in H. by apply elem_of_bt_entries. Qed.

(** ** Well-formed states *)

Record region_ok (k : Z) (r : VmRegion) : Prop := {
  rg_base : vr_base r = k;
  rg_aligned : aligned k ∧ aligned (vr_size r);
  rg_range : 0 ≤ k ∧ 0 ≤ vr_size r ∧ k + vr_size r ≤ u64_max;
  rg_pages : ∀ p st, vr_pages r !! p = Some st →
    aligned p ∧ k ≤ p < k + vr_size r ∧ vs_committed st = true }.

Record vm_ok (s : VirtualMemory) : Prop := {
  vm_regions_ok : ∀ k r, vm_regions s !! k = Some r → region_ok k r;
  vm_cursor_ok : u64 (vm_next_region_address s) ∧ aligned (vm_next_region_address s) }.

Lemma region_end_Some k r : region_ok k r → region_end r = Some (k + vr_size r).
Proof.
  intros [Hb _ Hr _]. unfold region_end, checked_add. rewrite Hb, (proj2 (Z.leb_le _ _)) by lia. done.
Qed.

Lemma contains_spec k r a : region_ok k r → contains r a = true ↔ k ≤ a < k + vr_size r.
Proof. intros [Hb _ _ _]. unfold contains. rewrite Hb, andb_true_iff, Z.leb_le, Z.ltb_lt. lia. Qed.

(** ** The innermost region *)

Lemma find_app {A} (f : A → bool) l1 l2 :
  find f (l1 ++ l2) = match find f l1 with Some x => Some x | None => find f l2 end.
Proof. induction l1 as [|x l1 IH]; simpl; [done|]. by destruct (f x). Qed.

Lemma find_rev_filter {A} (R : relation A) (P : A → Prop) `{!∀ x, Decision (P x)} (f : A → bool) l x :
  StronglySorted R l → find f (rev (filter P l)) = Some x →
  x ∈ l ∧ P x ∧ f x = true ∧ ∀ y, y ∈ l → P y → f y = true → y = x ∨ R y x.
Proof.
  induction 1 as [|a l Hl IH Ha]; [done|]. rewrite filter_cons.
  assert (find f (rev (filter P l)) = Some x →
    x ∈ a :: l ∧ P x ∧ f x = true ∧ ∀ y, y ∈ a :: l → P y → f y = true → y = x ∨ R y x) as Hin.
  { intros E. destruct (IH E) as (Hx & HP & Hf & Hm). split_and!; [by right|done..|].
    intros y [->|Hy]%elem_of_cons HPy Hfy; [|by eauto]. right. rewrite Forall_forall in Ha. auto. }
  case_decide as HP; [|done]. simpl. rewrite find_app.
  destruct (find f (rev (filter P l))) as [z|] eqn:E; [by intros [= ->]; apply Hin|].
  simpl. destruct (f a) eqn:Hf; [|done]. intros [= ->]. split_and!; [by left|done..|].
  intros y [->|Hy]%elem_of_cons HPy Hfy; [by left|]. exfalso.
  assert (y ∈ rev (filter P l)) as Hin'.
  { rewrite list_elem_of_In, <-in_rev, <-list_elem_of_In. by apply list_elem_of_filter. }
  apply list_elem_of_In, (find_none _ _ E) in Hin'. congruence.
Qed.

Section owner.
Context (s : VirtualMemory) (Hok : vm_ok s).

(** [owner_of k r a]: [k] is the highest base among the regions that contain [a]. *)
Definition owner_of (k : Z) (r : VmRegion) (a : Z) : Prop :=
  vm_regions s !! k = Some r ∧ k ≤ a < k + vr_size r ∧
  ∀ k' r', vm_regions s !! k' = Some r' → k' ≤ a < k' + vr_size r' → k' ≤ k.

Lemma region_entry_sound a k r : region_entry s a = Some (k, r) → owner_of k r a.
Proof.
  unfold region_entry. intros H. apply (find_rev_filter key_le) in H; [|apply bt_entries_sorted].
  destruct H as (Hin & Hle & Hc & Hm). apply elem_of_bt_entries in Hin.
  pose proof (vm_regions_ok _ Hok _ _ Hin) as Hr. apply (contains_spec _ _ _ Hr) in Hc.
  split_and!; [done|lia..|]. intros k' r' Hk' Ha.
  destruct (Hm (k', r')) as [[= -> ->]|Hle']; [by apply elem_of_bt_entries|simpl; lia| |lia|done].
  by apply (contains_spec _ _ _ (vm_regions_ok _ Hok _ _ Hk')).
Qed.

Lemma region_entry_None a :
  region_entry s a = None ↔ ∀ k r, vm_regions s !! k = Some r → ¬ (k ≤ a < k + vr_size r).
Proof.
  unfold region_entry. split.
  - intros H k r Hk Ha. assert ((k, r) ∈ rev (filter (λ e, e.1 ≤ a) (bt_entries (vm_regions s)))) as Hin.
    { rewrite list_elem_of_In, <-in_rev, <-list_elem_of_In. apply list_elem_of_filter. split; [simpl; lia|].
      by apply elem_of_bt_entries. }
    apply list_elem_of_In, (find_none _ _ H) in Hin. simpl in Hin.
    apply (contains_spec _ _ _ (vm_regions_ok _ Hok _ _ Hk)) in Ha. congruence.
  - intros H. destruct (find _ _) as [[k r]|] eqn:E; [|done]. exfalso.
    pose proof (region_entry_sound a k r E) as (Hk & Ha & _). by apply (H k r).
Qed.

Lemma owner_of_unique k r k' r' a : owner_of k r a → owner_of k' r' a → k = k' ∧ r = r'.
Proof.
  intros (H1 & Ha & Hm) (H2 & Ha' & Hm'). assert (k = k') as -> by (specialize (Hm _ _ H2 Ha'); specialize (Hm' _ _ H1 Ha); lia).
  split; [done|congruence].
Qed.

Lemma region_entry_complete a k r : owner_of k r a → region_entry s a = Some (k, r).
Proof.
  intros Ho. destruct (region_entry s a) as [[k' r']|] eqn:E.
  - apply region_entry_sound in E. destruct (owner_of_unique _ _ _ _ _ Ho E). by subst.
  - destruct Ho as (Hk & Ha & _). by destruct (proj1 (region_entry_None a) E k r Hk).
Qed.

(** An address and its page have the same owner. *)
Lemma owner_of_floor k r a : owner_of k r a ↔ owner_of k r (floor_page a).
Proof.
  assert (∀ k r, vm_regions s !! k = Some r → k ≤ a < k + vr_size r ↔ k ≤ floor_page a < k + vr_size r) as Hiff.
  { intros k' r' Hk'. destruct (vm_regions_ok _ Hok _ _ Hk') as [_ [? ?] _ _].
    rewrite (floor_page_ge a k'), (floor_page_lt a (k' + _)) by (done || by apply aligned_add). done. }
  unfold owner_of. split; intros (Hk & Ha & Hm); (split; [done|]); (split; [by apply (Hiff k r)|]);
    intros k' r' Hk' Ha'; apply (Hm k' r' Hk'); by apply Hiff.
Qed.

Lemma region_entry_floor a : region_entry s (floor_page a) = region_entry s a.
Proof.
  destruct (region_entry s a) as [[k r]|] eqn:E.
  - apply region_entry_complete. rewrite <-owner_of_floor. by apply region_entry_sound.
  - destruct (region_entry s (floor_page a)) as [[k r]|] eqn:E'; [|done].
    apply region_entry_sound in E'. rewrite <-owner_of_floor in E'.
    by rewrite (region_entry_complete _ _ _ E') in E.
Qed.

Lemma region_containing_floor a : region_containing s (floor_page a) = region_containing s a.
Proof. unfold region_containing. by rewrite region_entry_floor. Qed.
End owner.

(** ** Changing the pages of a region *)

(** The regions are where they were. *)
Definition same_shape (s s' : VirtualMemory) : Prop :=
  vm_next_region_address s' = vm_next_region_address s ∧ vm_mappings s' = vm_mappings s ∧
  ∀ k, (λ r, (vr_base r, vr_size r, vr_kind r)) <$> vm_regions s' !! k =
       (λ r, (vr_base r, vr_size r, vr_kind r)) <$> vm_regions s !! k.

#[export] Instance same_shape_preorder : PreOrder same_shape.
Proof.
  split; [by intros s|]. intros s1 s2 s3 (H1 & H2 & H3) (H4 & H5 & H6).
  split_and!; [congruence..|]. intros k. by rewrite H6, H3.
Qed.

Lemma same_shape_lookup s s' k r' :
  same_shape s s' → vm_regions s' !! k = Some r' →
  ∃ r, vm_regions s !! k = Some r ∧ vr_base r = vr_base r' ∧ vr_size r = vr_size r' ∧ vr_kind r = vr_kind r'.
Proof.
  intros (_ & _ & H) Hk. specialize (H k). rewrite Hk in H. simpl in H.
  destruct (vm_regions s !! k) as [r|]; [|done]. simplify_eq/=. eauto.
Qed.
Lemma same_shape_sym s s' : same_shape s s' → same_shape s' s.
Proof. intros (H1 & H2 & H3). by split_and!. Qed.

(** The owner of an address depends on the shape only. *)
Lemma owner_of_shape s s' k r a :
  same_shape s s' → owner_of s k r a → ∃ r', owner_of s' k r' a ∧ vr_kind r' = vr_kind r.
Proof.
  intros Hs (Hk & Ha & Hm). apply same_shape_sym in Hs as Hs'.
  destruct (same_shape_lookup _ _ _ _ Hs' Hk) as (r' & Hk' & _ & E & Ekind).
  exists r'. split; [|done]. split_and!; [done|lia..|]. intros k2 r2 Hk2 Ha2.
  destruct (same_shape_lookup _ _ _ _ Hs Hk2) as (r3 & Hk3 & _ & E3 & _).
  apply (Hm k2 r3 Hk3). lia.
Qed.

(** The pages of each region stay in it. *)
Definition keeps_pages (f : gmap Z VmPageState → gmap Z VmPageState) (page : Z) : Prop :=
  ∀ m p st, f m !! p = Some st →
    p = page ∧ vs_committed st = true ∨ ∃ st', m !! p = Some st' ∧ vs_committed st' = vs_committed st.

Lemma alter_pages_ok f page s :
  vm_ok s → aligned page → keeps_pages f page →
  vm_ok (alter_pages f page s) ∧ same_shape s (alter_pages f page s).
Proof.
  intros Hok Hp Hf. unfold alter_pages. destruct (region_entry s page) as [[k r]|] eqn:E; [|by split].
  apply (region_entry_sound _ Hok) in E as (Hk & Ha & _).
  pose proof (vm_regions_ok _ Hok _ _ Hk) as Hr. split.
  - split; [|apply Hok]. simpl. intros k' r'. rewrite lookup_insert_Some. intros [[<- <-]|[_ Hk']]; [|by apply Hok].
    destruct Hr as [Hb Hal Hrg Hpg]. split; [done..|]. simpl. intros p st Hst.
    destruct (Hf _ _ _ Hst) as [[-> ?]|(st' & Hst' & <-)]; [done|]. eauto.
  - split_and!; [done..|]. intros k'. simpl. rewrite lookup_insert. case_decide; [|done]. subst. by rewrite Hk.
Qed.

(** What each page of each region is afterwards. *)
Lemma page_state_owner s k r p : vm_ok s → owner_of s k r p → page_state s p = vr_pages r !! p.
Proof.
  intros Hok Ho. unfold page_state, region_containing. by rewrite (region_entry_complete _ Hok _ _ _ Ho).
Qed.
Lemma page_state_unowned s p : region_entry s p = None → page_state s p = None.
Proof. intros E. unfold page_state, region_containing. by rewrite E. Qed.

Lemma page_state_alter f page s q :
  vm_ok s → aligned page → keeps_pages f page → (∀ m p, p ≠ page → f m !! p = m !! p) →
  page_state (alter_pages f page s) q =
  if decide (q = page) then (r ← region_containing s page; f (vr_pages r) !! page) else page_state s q.
Proof.
  intros Hok Hp Hf Hne. destruct (alter_pages_ok f page s Hok Hp Hf) as [Hok' Hsh].
  destruct (region_entry s q) as [[kq rq]|] eqn:Eq.
  - apply (region_entry_sound _ Hok) in Eq as Ho.
    destruct (owner_of_shape _ _ _ _ _ Hsh Ho) as (rq' & Ho' & _).
    rewrite (page_state_owner _ _ _ _ Hok' Ho'), (page_state_owner _ _ _ _ Hok Ho).
    destruct Ho' as (Hk' & _). unfold alter_pages in Hk'. unfold region_containing.
    destruct (region_entry s page) as [[k r]|] eqn:E.
    + cbn [vm_set_regions vm_regions] in Hk'. apply (region_entry_sound _ Hok) in E as Hop.
      apply lookup_insert_Some in Hk' as [[<- <-]|[Hkk Hk']]; cbn [vr_pages vr_set_pages fmap option_fmap option_map mbind option_bind snd].
      * destruct Ho as (Hkq & _), Hop as (Hkp & _). simplify_eq. case_decide; [by subst|by apply Hne].
      * destruct Ho as (Hkq & _). simplify_eq. case_decide; [|done]. subst. by rewrite Eq in E; simplify_eq.
    + destruct Ho as (Hkq & _). simplify_eq. case_decide; [|done]. subst. by rewrite Eq in E.
  - rewrite (page_state_unowned _ _ Eq). rewrite page_state_unowned.
    + case_decide; [|done]. subst. unfold region_containing. by rewrite Eq.
    + destruct (region_entry (alter_pages f page s) q) as [[k r]|] eqn:E; [|done]. exfalso. apply (region_entry_sound _ Hok') in E.
      destruct (owner_of_shape _ _ _ _ _ (same_shape_sym _ _ Hsh) E) as (r' & Ho & _).
      by rewrite (region_entry_complete _ Hok _ _ _ Ho) in Eq.
Qed.

Lemma page_state_committed s p st : vm_ok s → page_state s p = Some st → vs_committed st = true.
Proof.
  intros Hok. unfold page_state, region_containing. destruct (region_entry s p) as [[k r]|] eqn:E; [|done].
  apply (region_entry_sound _ Hok) in E as (Hk & _). simpl. intros H.
  by apply (rg_pages _ _ (vm_regions_ok _ Hok _ _ Hk) p st).
Qed.

(** *** Over the pages of a range *)

Lemma page_loop_fold {A} (body : Z → A → A) fuel start end_ a :
  0 ≤ start → end_ ≤ u64_max → (end_ - start + 4095) / 4096 ≤ Z.of_nat fuel →
  page_loop fuel body start end_ a = Some (foldl (λ a p, body p a) a (pages_in start end_)).
Proof.
  revert start a. induction fuel as [|fuel IH]; intros start a Hs He Hf; cbn [page_loop].
  - rewrite (proj2 (Z.ltb_ge _ _)) by (Z.div_mod_to_equations; lia).
    by rewrite pages_in_nil by (Z.div_mod_to_equations; lia).
  - destruct (start <? end_) eqn:E; bool_prop; [|by rewrite pages_in_nil by lia].
    rewrite pages_in_cons by done. cbn [foldl]. unfold saturating_add, VM_PAGE_SIZE.
    destruct (decide (start + 4096 ≤ u64_max)).
    + rewrite Z.min_r by lia. apply IH; [lia..|]. Z.div_mod_to_equations; lia.
    + rewrite Z.min_l by lia. rewrite (pages_in_nil (start + 4096)) by lia. cbn [foldl].
      destruct fuel; cbn [page_loop]; by rewrite (proj2 (Z.ltb_ge _ _)) by lia.
Qed.

Lemma for_pages_fold {A} (body : Z → A → A) start end_ a :
  0 ≤ start → end_ ≤ u64_max →
  for_pages body start end_ a = Some (foldl (λ a p, body p a) a (pages_in start end_)).
Proof.
  intros. apply page_loop_fold; [done..|]. unfold page_fuel, VM_PAGE_SIZE.
  Z.div_mod_to_equations; lia.
Qed.

Lemma fold_pages_ok (body : Z → VirtualMemory → VirtualMemory) l s :
  (∀ p s, p ∈ l → vm_ok s → vm_ok (body p s) ∧ same_shape s (body p s)) → vm_ok s →
  vm_ok (foldl (λ a p, body p a) s l) ∧ same_shape s (foldl (λ a p, body p a) s l).
Proof.
  revert s. induction l as [|p l IH]; intros s Hb Hok; cbn [foldl]; [by split|].
  destruct (Hb p s) as [Hok' Hs]; [by left|done|].
  destruct (IH (body p s)) as [? ?]; [intros; apply Hb; [by right|done]|done|]. split; [done|by etrans].
Qed.

(** A page is reserved or committed when a region contains it. *)
Definition owned (s : VirtualMemory) (p : Z) : Prop := is_Some (region_entry s p).
#[export] Instance owned_dec s p : Decision (owned s p).
Proof. unfold owned. apply _. Defined.

Lemma owned_shape s s' p : vm_ok s → vm_ok s' → same_shape s s' → owned s p ↔ owned s' p.
Proof.
  intros Hok Hok' Hs. unfold owned.
  split; intros [[k r] E];
    (apply region_entry_sound in E; [|done]);
    [destruct (owner_of_shape _ _ _ _ _ Hs E) as (r' & E' & _)
    |destruct (owner_of_shape _ _ _ _ _ (same_shape_sym _ _ Hs) E) as (r' & E' & _)];
    exists (k, r'); by apply region_entry_complete.
Qed.

Section page_fold.
Context (f : Z → gmap Z VmPageState → gmap Z VmPageState) (h : option VmPageState → option VmPageState).
Context (Hkeep : ∀ p, keeps_pages (f p) p)
        (Hat : ∀ p m, f p m !! p = h (m !! p))
        (Hne : ∀ p m q, q ≠ p → f p m !! q = m !! q).

Lemma page_fold_state l s :
  NoDup l → (∀ p, p ∈ l → aligned p) → vm_ok s →
  let s' := foldl (λ s p, alter_pages (f p) p s) s l in
  vm_ok s' ∧ same_shape s s' ∧
  ∀ q, page_state s' q = if decide (q ∈ l ∧ owned s q) then h (page_state s q) else page_state s q.
Proof.
  revert s. induction l as [|p l IH]; intros s Hnd Hal Hok; cbn [foldl].
  { split_and!; [done|done|]. intros q. rewrite decide_False; [done|]. intros [[]%not_elem_of_nil _]. }
  apply NoDup_cons in Hnd as [Hpl Hnd]. destruct (alter_pages_ok (f p) p s) as [Hok1 Hs1]; [done|apply Hal; by left|done|].
  destruct (IH (alter_pages (f p) p s)) as (Hok' & Hs' & Hst); [done|by intros; apply Hal; right|done|].
  split_and!; [done|by etrans|]. intros q. rewrite Hst.
  assert (owned (alter_pages (f p) p s) q ↔ owned s q) as Hown by by symmetry; apply owned_shape.
  assert (page_state (alter_pages (f p) p s) q =
    if decide (q = p ∧ owned s q) then h (page_state s q) else page_state s q) as ->.
  { rewrite page_state_alter by (done || (apply Hal; by left) || (intros; by apply Hne)).
    destruct (decide (q = p)) as [->|Hqp]; [destruct (decide (owned s p)) as [Ho|Hn]|].
    - rewrite decide_True by done. destruct Ho as [[k r] E]. unfold page_state, region_containing. rewrite E. apply Hat.
    - rewrite decide_False by naive_solver. unfold owned in Hn. apply eq_None_not_Some in Hn.
      unfold page_state, region_containing. by rewrite Hn.
    - rewrite decide_False by naive_solver. done. }
  destruct (decide (q ∈ l ∧ owned (alter_pages (f p) p s) q)) as [[Hql Ho]|Hn].
  - assert (q ≠ p) by (intros ->; done). rewrite (decide_False (P := q = p ∧ _)) by naive_solver.
    rewrite decide_True by (split; [by right|by apply Hown]). done.
  - destruct (decide (q = p ∧ owned s q)) as [[-> Ho]|Hn2].
    + by rewrite decide_True by (split; [by left|done]).
    + rewrite decide_False; [done|]. intros [[->|Hq]%elem_of_cons Ho]; [naive_solver|]. apply Hn. by rewrite Hown.
Qed.

(** The same over the pages of a range. *)
Lemma range_fold_state start end_ s :
  aligned start → vm_ok s →
  let s' := foldl (λ s p, alter_pages (f p) p s) s (pages_in start end_) in
  vm_ok s' ∧ same_shape s s' ∧
  ∀ q, aligned q →
    page_state s' q = if decide (start ≤ q < end_ ∧ owned s q) then h (page_state s q) else page_state s q.
Proof.
  intros Ha Hok. destruct (page_fold_state (pages_in start end_) s) as (H1 & H2 & H3);
    [apply NoDup_pages_in|by intros p [? _]%elem_of_pages_in|done|].
  split_and!; [done..|]. intros q Hq. rewrite H3. apply decide_if_ext.
  rewrite elem_of_pages_in by done. naive_solver.
Qed.
End page_fold.

(** *** Commit, decommit and protect *)

Definition committed_state (protection : VmProtection) (guard : bool) : VmPageState :=
  {| vs_protection := protection; vs_guard := guard; vs_committed := true |}.

Lemma range_end_bound base size : u64 base → u64 size → range_end base size ≤ u64_max.
Proof. intros. unfold range_end, saturating_add, VM_PAGE_SIZE. rewrite land_mask by page_lia. page_lia. Qed.

(** Rounded outwards, a range of bytes is the pages that hold one of them. *)
Lemma range_end_covers base size p :
  u64 base → u64 size → base + Z.max size 1 ≤ 2 ^ 64 - 4096 → aligned p →
  floor_page base ≤ p < range_end base size ↔ p < base + Z.max size 1 ∧ base < p + 4096.
Proof.
  intros Hb Hs Hfit Hp. unfold range_end, saturating_add, VM_PAGE_SIZE. rewrite land_mask by page_lia. page_lia.
Qed.

Lemma commit_runs base size protection guard s :
  vm_ok s → u64 base → u64 size →
  ∃ s', commit base size protection guard s = Done (Ok tt) s' ∧ vm_ok s' ∧ same_shape s s' ∧
    ∀ p, aligned p → page_state s' p =
      if decide (floor_page base ≤ p < range_end base size ∧ owned s p)
      then Some (committed_state protection guard) else page_state s p.
Proof.
  intros Hok Hb Hs. unfold commit. rewrite land_mask, for_pages_fold by (done || by apply range_end_bound || page_lia).
  eexists. split; [done|].
  apply (range_fold_state (λ p, <[p := committed_state protection guard]>) (λ _, Some (committed_state protection guard)));
    [|intros; apply lookup_insert_eq|intros; by apply lookup_insert_ne|apply floor_page_spec|done].
  intros p m q st. rewrite lookup_insert_Some. intros [[<- <-]|[_ ?]]; [by left|right; by eexists].
Qed.

Lemma decommit_runs base size s :
  vm_ok s → u64 base → u64 size →
  ∃ s', decommit base size s = Done (Ok tt) s' ∧ vm_ok s' ∧ same_shape s s' ∧
    ∀ p, aligned p → page_state s' p =
      if decide (floor_page base ≤ p < range_end base size ∧ owned s p) then None else page_state s p.
Proof.
  intros Hok Hb Hs. unfold decommit. rewrite land_mask, for_pages_fold by (done || by apply range_end_bound || page_lia).
  eexists. split; [done|].
  apply (range_fold_state (λ p, delete p) (λ _, None));
    [|intros; apply lookup_delete_eq|intros; by apply lookup_delete_ne|apply floor_page_spec|done].
  intros p m q st. rewrite lookup_delete_Some. intros [_ ?]. right. by eexists.
Qed.

Lemma vm_regions_id s k r : vm_regions s !! k = Some r → vm_set_regions (<[k := r]> (vm_regions s)) s = s.
Proof. intros Hk. unfold vm_set_regions. rewrite insert_id by done. by destruct s. Qed.

Lemma protect_page_alter protection page s o :
  protect_page protection page (s, o) =
  (alter_pages (alter (set_protection protection) page) page s,
   match o with Some _ => o | None => vs_protection <$> page_state s page end).
Proof.
  unfold protect_page, page_state, alter_pages, region_containing.
  destruct (region_entry s page) as [[k r]|] eqn:E; cbn; [|by destruct o].
  destruct (vr_pages r !! page) as [st|] eqn:Est; cbn.
  - rewrite (alter_is_insert _ _ _ st) by done. by destruct o.
  - rewrite alter_id by (intros ?; by rewrite Est).
    replace (vr_set_pages (vr_pages r) r) with r by by destruct r.
    rewrite vm_regions_id by (by eapply region_entry_lookup). by destruct o.
Qed.

Lemma alter_protection_keeps protection p : keeps_pages (alter (set_protection protection) p) p.
Proof.
  intros m q st. rewrite lookup_alter_Some. intros [(-> & st' & H & ->)|[_ ?]]; right; by eexists.
Qed.

Lemma protect_fold protection l s o :
  NoDup l → (∀ p, p ∈ l → aligned p) → vm_ok s →
  foldl (λ a p, protect_page protection p a) (s, o) l =
  (foldl (λ s p, alter_pages (alter (set_protection protection) p) p s) s l,
   match o with Some _ => o | None => vs_protection <$> head (omap (page_state s) l) end).
Proof.
  revert s o. induction l as [|p l IH]; intros s o Hnd Hal Hok; cbn [foldl]; [by destruct o|].
  apply NoDup_cons in Hnd as [Hpl Hnd].
  assert (aligned p) as Hp by (apply Hal; by left).
  destruct (alter_pages_ok _ p s Hok Hp (alter_protection_keeps protection p)) as [Hok' _].
  rewrite protect_page_alter, IH; [|done|intros; apply Hal; by right|done]. f_equal. cbn [omap list_omap].
  assert (omap (page_state (alter_pages (alter (set_protection protection) p) p s)) l = omap (page_state s) l) as ->.
  { apply list_omap_ext, Forall_Forall2_diag, Forall_forall. intros q Hq. assert (q ≠ p) by (by intros ->).
    rewrite page_state_alter by (done || apply alter_protection_keeps || (intros; by apply lookup_alter_ne)).
    by rewrite decide_False. }
  destruct o; [done|]. by destruct (page_state s p).
Qed.

(** The answer is the protection of the first committed page. *)
Lemma protect_runs base size protection s :
  vm_ok s → u64 base → u64 size →
  let end_ := saturating_add u64_max (floor_page base) (align_up (Z.max size 1) VM_PAGE_SIZE) in
  ∃ s', protect base size protection s =
      Done (Ok (vs_protection <$> head (omap (page_state s) (pages_in (floor_page base) end_)))) s' ∧
    vm_ok s' ∧ same_shape s s' ∧
    ∀ p, aligned p → page_state s' p =
      if decide (floor_page base ≤ p < end_) then set_protection protection <$> page_state s p else page_state s p.
Proof.
  intros Hok Hb Hs end_. unfold protect. rewrite land_mask by done. fold end_.
  pose proof (floor_page_spec base) as [Hfl _].
  rewrite for_pages_fold by (unfold end_, saturating_add; page_lia).
  rewrite protect_fold; [|apply NoDup_pages_in|by intros p [? _]%elem_of_pages_in|done].
  eexists. split; [done|].
  pose proof (range_fold_state (λ p, alter (set_protection protection) p) (fmap (set_protection protection))
    (alter_protection_keeps protection) (λ p m, lookup_alter_eq _ m p)
    (λ p m q Hq, lookup_alter_ne _ m p q (not_eq_sym Hq)) (floor_page base) end_ s Hfl Hok) as (Hok' & Hsh & Hst).
  split_and!; [done|done|]. intros q Hq. rewrite Hst by done.
  destruct (decide (owned s q)) as [Ho|Hn].
  - by apply decide_if_ext; naive_solver.
  - rewrite decide_False by naive_solver. rewrite page_state_unowned by (by apply eq_None_not_Some).
    by case_decide.
Qed.

(** ** Reserving *)

Lemma insert_region_ok k r s :
  vm_ok s → region_ok k r → vm_ok (vm_set_regions (<[k := r]> (vm_regions s)) s).
Proof.
  intros Hok Hr. split; [|apply Hok]. simpl. intros k' r'. rewrite lookup_insert_Some.
  intros [[<- <-]|[_ Hk']]; [done|by apply Hok].
Qed.

Lemma fresh_region_ok k n kind :
  aligned k → aligned n → 0 ≤ k → 0 ≤ n → k + n ≤ u64_max → region_ok k (fresh_region k n kind).
Proof. intros. split; [done..|]. simpl. intros p st. by rewrite lookup_empty. Qed.

Lemma any_overlaps_spec s base end_ :
  vm_ok s →
  ∃ b, any_overlaps (bt_values (vm_regions s)) base end_ = Some b ∧
    (b = true ↔ ∃ k r, vm_regions s !! k = Some r ∧ base < k + vr_size r ∧ k < end_).
Proof.
  intros Hok.
  assert (∀ l, (∀ r, r ∈ l → region_ok (vr_base r) r) →
    ∃ b, any_overlaps l base end_ = Some b ∧
      (b = true ↔ ∃ r, r ∈ l ∧ base < vr_base r + vr_size r ∧ vr_base r < end_)) as Hl.
  { induction l as [|r l IH]; intros Hl; cbn [any_overlaps].
    - exists false. split; [done|]. split; [done|]. by intros (r & []%not_elem_of_nil & _).
    - rewrite (region_end_Some _ _ (Hl r ltac:(by left))). destruct (_ && _) eqn:E; bool_prop.
      + exists true. split; [done|]. split; [|done]. intros _. exists r. split; [by left|lia].
      + destruct IH as (b & -> & Hb); [by intros; apply Hl; right|]. exists b. split; [done|]. rewrite Hb. split.
        * intros (r' & ? & ?). exists r'. split; [by right|done].
        * intros (r' & [->|?]%elem_of_cons & ?); [|by eauto]. apply andb_false_iff in E as [E|E]; bool_prop; lia. }
  destruct (Hl (bt_values (vm_regions s))) as (b & -> & Hb).
  { intros r (k & Hk)%elem_of_bt_values. pose proof (vm_regions_ok _ Hok _ _ Hk) as Hr. by rewrite (rg_base _ _ Hr). }
  exists b. split; [done|]. rewrite Hb. split.
  - intros (r & (k & Hk)%elem_of_bt_values & ?). rewrite (rg_base _ _ (vm_regions_ok _ Hok _ _ Hk)) in *. eauto.
  - intros (k & r & Hk & ?). exists r. rewrite (rg_base _ _ (vm_regions_ok _ Hok _ _ Hk)).
    split; [|done]. apply elem_of_bt_values. eauto.
Qed.

(** Room for a region: no region has an address of it. *)
Definition room (s : VirtualMemory) (a n : Z) : Prop :=
  a + n ≤ u64_max ∧ ∀ k r, vm_regions s !! k = Some r → ¬ (a < k + vr_size r ∧ k < a + n).

Lemma overlaps_any_spec s a n :
  vm_ok s → ∃ b, overlaps_any a n s = Done (Ok b) s ∧ (b = false ↔ room s a n).
Proof.
  intros Hok. unfold overlaps_any, checked_add, room. destruct (a + n <=? u64_max) eqn:E; bool_prop.
  - destruct (any_overlaps_spec s a (a + n) Hok) as (b & -> & Hb). exists b. split; [done|].
    rewrite <-not_true_iff_false, Hb. naive_solver.
  - exists true. split; [done|]. split; [done|]. intros [? _]. lia.
Qed.

(** An address keeps its owner when a disjoint region appears, and a new region
    owns its own. *)
Lemma insert_region_owner s a r x :
  vm_ok s → region_ok a r → (∀ k' r', vm_regions s !! k' = Some r' → ¬ (a < k' + vr_size r' ∧ k' < a + vr_size r)) →
  (∀ r0, vm_regions s !! a = Some r0 → vr_size r0 ≤ 0) →
  region_entry (vm_set_regions (<[a := r]> (vm_regions s)) s) x =
  if decide (a ≤ x < a + vr_size r) then Some (a, r) else region_entry s x.
Proof.
  intros Hok Hr Hdis Ha. pose proof (insert_region_ok a r s Hok Hr) as Hok'.
  case_decide as Hx.
  - apply region_entry_complete; [done|]. split_and!; [by apply lookup_insert_eq|lia..|].
    intros k' r'. simpl. rewrite lookup_insert_Some. intros [[<- <-]|[Hne Hk']] ?; [lia|].
    specialize (Hdis _ _ Hk'). lia.
  - destruct (region_entry s x) as [[k r0]|] eqn:E.
    + apply region_entry_complete; [done|]. apply (region_entry_sound _ Hok) in E as (Hk & Hkx & Hm).
      assert (a ≠ k) by (intros <-; specialize (Ha _ Hk); lia).
      split_and!; [simpl; by rewrite lookup_insert_ne|lia..|].
      intros k' r'. simpl. rewrite lookup_insert_Some. intros [[<- <-]|[Hne Hk']] ?; [lia|by eapply Hm].
    + apply region_entry_None; [done|]. simpl. intros k r0. rewrite lookup_insert_Some.
      intros [[<- <-]|[Hne Hk']]; [done|]. by apply (proj1 (region_entry_None _ Hok x) E).
Qed.

(** The size a reservation asks for, rounded up; it wraps to zero in the last page. *)
Definition rounded (size : Z) : Z := align_up (Z.max size 1) VM_PAGE_SIZE.

Lemma rounded_spec size : 0 ≤ size ≤ 2 ^ 64 - 4096 → rounded size = floor_page (Z.max size 1 + 4095).
Proof. intros. unfold rounded. rewrite align_up_spec by page_lia. by rewrite decide_True by lia. Qed.
Lemma rounded_props size : u64 size → aligned (rounded size) ∧ 0 ≤ rounded size ≤ 2 ^ 64 - 4096.
Proof. intros. apply align_up_props. page_lia. Qed.

Lemma reserve_at_runs b size s :
  vm_ok s → u64 b → u64 size →
  (room s (floor_page b) (rounded size) ∧ floor_page b ≠ 0 ∧
   reserve (Some b) size s = Done (Ok (floor_page b)) (insert_region (fresh_region (floor_page b) (rounded size) VkPrivate) s) ∧
   vm_ok (insert_region (fresh_region (floor_page b) (rounded size) VkPrivate) s)) ∨
  ((¬ room s (floor_page b) (rounded size) ∨ floor_page b = 0) ∧ reserve (Some b) size s = Done (Ok 0) s).
Proof.
  intros Hok Hb Hs. unfold reserve. fold (rounded size). rewrite land_mask by done.
  destruct (rounded_props size Hs) as [Hra Hrr]. destruct (floor_page_spec b) as [Hfa Hfr].
  destruct (floor_page b =? 0) eqn:E0; mrun; bool_prop; [by right; auto|].
  destruct (overlaps_any_spec s (floor_page b) (rounded size) Hok) as ([] & -> & Hroom); mrun.
  - right. split; [|done]. left. by rewrite <-Hroom.
  - left. apply proj1 in Hroom. specialize (Hroom eq_refl). split_and!; [done..|].
    apply insert_region_ok; [done|]. destruct Hroom as [? _]. apply fresh_region_ok; simpl; page_lia.
Qed.

(** Without a base the cursor decides, whatever is there. *)
Lemma reserve_any_runs size s :
  vm_ok s → u64 size →
  let a := vm_next_region_address s in
  (a + rounded size ≤ u64_max ∧
   let s' := insert_region (fresh_region a (rounded size) VkPrivate) (vm_set_next (a + rounded size) s) in
   reserve None size s = Done (Ok a) s' ∧ vm_ok s') ∨
  (u64_max < a + rounded size ∧ reserve None size s = Done (Ok 0) s).
Proof.
  intros Hok Hs a. destruct (vm_cursor_ok _ Hok) as [Hu Ha]. destruct (rounded_props size Hs) as [Hra Hrr].
  unfold reserve. fold (rounded size). mrun. unfold id. rewrite vm_align_up_aligned by done. fold a. unfold checked_add.
  destruct (a + rounded size <=? u64_max) eqn:E; bool_prop; mrun; [left|by right].
  split; [done|]. split; [done|]. unfold a in *. apply insert_region_ok.
  - split; [apply Hok|]. simpl. page_lia.
  - apply fresh_region_ok; simpl; page_lia.
Qed.

Lemma register_runs base size kind s :
  vm_ok s → u64 base → u64 size →
  (∀ r, vm_regions s !! floor_page base = Some r → floor_page base + rounded size ≤ u64_max) →
  ∃ b s', register base size kind s = Done (Ok b) s' ∧ vm_ok s'.
Proof.
  intros Hok Hb Hs Hgrow. unfold register. fold (rounded size). rewrite land_mask by done. mrun. unfold id.
  destruct (rounded_props size Hs) as [Hra Hrr]. destruct (floor_page_spec base) as [Hfa Hfr].
  destruct (vm_regions s !! floor_page base) as [r|] eqn:Er.
  - specialize (Hgrow r eq_refl). destruct (vr_size r <? rounded size) eqn:E; bool_prop; mrun; [|by eauto].
    do 2 eexists. split; [done|]. apply insert_region_ok; [done|].
    destruct (vm_regions_ok _ Hok _ _ Er) as [Hbase Hal Hr Hp]. split; simpl; [done|done|lia|].
    intros p st Hst. destruct (Hp _ _ Hst) as (? & ? & ?). split_and!; [done|lia..|done].
  - unfold checked_add. destruct (floor_page base + rounded size <=? u64_max) eqn:E; bool_prop; mrun; [|by eauto].
    rewrite (proj2 (Z.ltb_ge _ _)) by lia. mrun. do 2 eexists. split; [done|].
    apply insert_region_ok; [done|]. apply fresh_region_ok; simpl; page_lia.
Qed.

Lemma release_runs base s :
  vm_ok s → u64 base →
  let s' := vm_set_regions (delete (floor_page base) (vm_regions s)) s in
  release base s = Done (Ok (bool_decide (is_Some (vm_regions s !! floor_page base)))) s' ∧ vm_ok s'.
Proof.
  intros Hok Hb. unfold release. rewrite land_mask by done. split; [done|]. split; [|apply Hok].
  simpl. intros k r [_ Hk]%lookup_delete_Some. by apply Hok.
Qed.

Lemma can_commit_runs base size s :
  vm_ok s → u64 base → u64 size →
  ∃ b, can_commit base size s = Done (Ok b) s ∧
    (b = true ↔ ∃ k r, owner_of s k r (floor_page base) ∧ vr_kind r = VkPrivate ∧
                       floor_page base + rounded size ≤ k + vr_size r).
Proof.
  intros Hok Hb Hs. unfold can_commit. fold (rounded size). rewrite land_mask by done. mrun. unfold id, checked_add.
  destruct (floor_page base + rounded size <=? u64_max) eqn:E; bool_prop; mrun.
  2: { exists false. split; [done|]. split; [done|]. intros (k & r & (Hk & _) & _ & ?).
       pose proof (rg_range _ _ (vm_regions_ok _ Hok _ _ Hk)). lia. }
  unfold region_containing. destruct (region_entry s (floor_page base)) as [[k r]|] eqn:Er; cbn; mrun.
  2: { exists false. split; [done|]. split; [done|]. intros (k & r & Ho & _).
       by rewrite (region_entry_complete _ Hok _ _ _ Ho) in Er. }
  apply (region_entry_sound _ Hok) in Er as Ho. destruct Ho as (Hk & Hx).
  case_decide as Hkind; mrun.
  - rewrite (region_end_Some k) by (by apply Hok). mrun. eexists. split; [done|]. rewrite Z.leb_le. split.
    + intros ?. exists k, r. by split_and!.
    + intros (k' & r' & Ho' & _ & ?). destruct (owner_of_unique s k r k' r' _ (conj Hk Hx) Ho'). by subst.
  - exists false. split; [done|]. split; [done|]. intros (k' & r' & Ho' & ? & _).
    destruct (owner_of_unique s k r k' r' _ (conj Hk Hx) Ho'). by subst.
Qed.
End Vm.
