(* ===== verification/VirtualMemoryTheorems.v ===== *)
(** * The guest's virtual memory: the theorems *)

From S2P Require Import Prelude Pages VirtualMemory VirtualMemoryFacts.

Module Vmt.
Import Vm.

(** ** The calls of a run *)

Inductive vm_step : VirtualMemory → VirtualMemory → Prop :=
| step_reserve base size r s s' :
    match base with Some b => u64 b | None => True end → u64 size →
    reserve base size s = Done r s' → vm_step s s'
| step_register base size kind r s s' :
    u64 base → u64 size → floor_page base + rounded size ≤ u64_max →
    register base size kind s = Done r s' → vm_step s s'
| step_release base r s s' : u64 base → release base s = Done r s' → vm_step s s'
| step_commit base size protection guard r s s' :
    u64 base → u64 size → commit base size protection guard s = Done r s' → vm_step s s'
| step_decommit base size r s s' : u64 base → u64 size → decommit base size s = Done r s' → vm_step s s'
| step_protect base size protection r s s' :
    u64 base → u64 size → protect base size protection s = Done r s' → vm_step s s'
| step_map_view base offset backing r s s' : map_view base offset backing s = Done r s' → vm_step s s'
| step_unmap_view base r s s' : unmap_view base s = Done r s' → vm_step s s'.

Inductive vm_reachable : VirtualMemory → Prop :=
| reach_default : vm_reachable default_vm
| reach_new cursor : u64 cursor → vm_reachable (new_vm cursor)
| reach_step s s' : vm_reachable s → vm_step s s' → vm_reachable s'.

Lemma vm_ok_mappings m s : vm_ok s → vm_ok (vm_set_mappings m s).
Proof. intros [H1 H2]. by split. Qed.

Lemma vm_step_ok s s' : vm_ok s → vm_step s s' → vm_ok s'.
Proof.
  intros Hok Hs. destruct Hs as [[b|] size r s s' Hb Hsz E|base size kind r s s' Hb Hsz Hf E|base r s s' Hb E
    |base size p g r s s' Hb Hsz E|base size r s s' Hb Hsz E|base size p r s s' Hb Hsz E|base o k r s s' E|base r s s' E].
  - destruct (reserve_at_runs b size s Hok Hb Hsz) as [(_ & _ & E' & ?)|(_ & E')]; congruence.
  - destruct (reserve_any_runs size s Hok Hsz) as [(_ & E' & ?)|(_ & E')]; congruence.
  - destruct (register_runs base size kind s Hok Hb Hsz) as (b & s1 & E' & ?); [done|congruence].
  - destruct (release_runs base s Hok Hb) as (E' & ?). congruence.
  - destruct (commit_runs base size p g s Hok Hb Hsz) as (s1 & E' & ? & _). congruence.
  - destruct (decommit_runs base size s Hok Hb Hsz) as (s1 & E' & ? & _). congruence.
  - destruct (protect_runs base size p s Hok Hb Hsz) as (s1 & E' & ? & _). congruence.
  - unfold map_view in E. msplit; simplify_eq; [done|by apply vm_ok_mappings].
  - unfold unmap_view in E. mrun. simplify_eq. by apply vm_ok_mappings.
Qed.

Lemma new_vm_ok cursor : u64 cursor → vm_ok (new_vm cursor).
Proof.
  intros Hc. split; [intros k r; simpl; by rewrite lookup_empty|].
  destruct (align_up_props cursor Hc) as [? ?]. simpl. split; [page_lia|done].
Qed.
Lemma reachable_ok s : vm_reachable s → vm_ok s.
Proof.
  induction 1 as [|cursor Hc|s s' _ IH Hs]; [|by apply new_vm_ok|by eapply vm_step_ok].
  change default_vm with (new_vm 0x7fff84000000). by apply new_vm_ok.
Qed.

(** A concrete run: a region at [0x10000] of two pages, the first committed. *)
Definition example_vm : VirtualMemory :=
  vm_set_regions
    {[ 0x10000 := {| vr_base := 0x10000; vr_size := 0x2000; vr_kind := VkPrivate;
                     vr_pages := {[ 0x10000 := committed_state READ_WRITE false ]} |} ]} default_vm.
Lemma example_reachable : vm_reachable example_vm.
Proof.
  eapply reach_step; [eapply reach_step; [apply reach_default|]|].
  - apply (step_reserve (Some 0x10000) 0x2000 (Ok 0x10000) default_vm
      (insert_region (fresh_region 0x10000 0x2000 VkPrivate) default_vm)); by vm_compute.
  - apply (step_commit 0x10000 1 READ_WRITE false (Ok tt)); by vm_compute.
Qed.

(** ** Invariant *)

(** C8 - After any sequence of calls every region is recorded under its own page-aligned
    base, has a whole number of pages, ends inside the address space, and keeps the
    state of pages of its own only, all of them committed; the cursor of anonymous
    reservations is page-aligned.  Growing a region is the one call that has to fit. *)
Theorem virtual_memory_well_formed s : vm_reachable s → vm_ok s.
Proof. apply reachable_ok. Qed.
Lemma virtual_memory_well_formed_witness : vm_ok example_vm.
Proof. apply (virtual_memory_well_formed example_vm example_reachable). Defined.

(** ** Pages *)

(** The page at [p] holds one of the bytes a call names. *)
Definition touched (base size p : Z) : Prop := p < base + Z.max size 1 ∧ base < p + 4096.
#[export] Instance touched_dec base size p : Decision (touched base size p).
Proof. unfold touched. apply _. Defined.

Lemma touched_range base size p :
  u64 base → u64 size → base + Z.max size 1 ≤ 2 ^ 64 - 4096 → aligned p →
  floor_page base ≤ p < range_end base size ↔ touched base size p.
Proof. apply range_end_covers. Qed.

(** Committing and decommitting the bytes [base..base + size] return and change the
    state of exactly the pages that hold one of them and lie in a region, the page a
    range in the middle of pages spills into included: a commit gives them the
    protection and the guard flag, a decommit makes them reserved.  Every other page
    keeps its state, and no region appears, moves or goes. *)
Theorem commit_decommit_exact s base size protection guard :
  vm_reachable s → u64 base → u64 size → base + Z.max size 1 ≤ 2 ^ 64 - 4096 →
  (∃ s', commit base size protection guard s = Done (Ok tt) s' ∧ vm_reachable s' ∧ same_shape s s' ∧
     ∀ p, aligned p → page_state s' p =
       if decide (touched base size p ∧ owned s p) then Some (committed_state protection guard) else page_state s p) ∧
  (∃ s', decommit base size s = Done (Ok tt) s' ∧ vm_reachable s' ∧ same_shape s s' ∧
     ∀ p, aligned p → page_state s' p =
       if decide (touched base size p ∧ owned s p) then None else page_state s p).
Proof.
  intros Hr Hb Hs Hfit. pose proof (reachable_ok s Hr) as Hok. split.
  - destruct (commit_runs base size protection guard s Hok Hb Hs) as (s' & E & _ & Hsh & Hst).
    exists s'. split_and!; [done|eapply reach_step; [done|exact (step_commit _ _ _ _ _ _ _ Hb Hs E)]|done|]. intros p Hp. rewrite Hst by done.
    apply decide_if_ext. by rewrite touched_range.
  - destruct (decommit_runs base size s Hok Hb Hs) as (s' & E & _ & Hsh & Hst).
    exists s'. split_and!; [done|eapply reach_step; [done|exact (step_decommit _ _ _ _ _ Hb Hs E)]|done|]. intros p Hp. rewrite Hst by done.
    apply decide_if_ext. by rewrite touched_range.
Qed.
Lemma commit_decommit_exact_witness :
  ∃ s', decommit 0x10800 0x800 example_vm = Done (Ok tt) s' ∧ page_state s' 0x10000 = None.
Proof.
  destruct (commit_decommit_exact example_vm 0x10800 0x800 READ false example_reachable) as [_ (s' & E & _ & _ & H)];
    [unfold u64, u64_max; lia..|].
  exists s'. split; [exact E|]. rewrite H by (by vm_compute). by vm_compute.
Defined.

(** A change of protection stops short: it covers as many whole pages as [size]
    bytes fill, from the page of [base] on.  A range in the middle of pages spills
    into one more page, which [commit] and [decommit] take and [protect] leaves as it
    is; and [can_commit] answers that a range fits its reservation although the page
    it spills into lies outside.  What [protect] returns is the protection of the
    first committed page of the range, not of the first page. *)
Theorem spilled_page_ignored s base size protection :
  vm_reachable s → u64 base → u64 size → size ≤ 2 ^ 64 - 4096 →
  let spill := floor_page base + rounded size in
  spill < base + size → spill ≤ 2 ^ 64 - 4096 →
  touched base size spill ∧
  (∃ s', protect base size protection s =
       Done (Ok (vs_protection <$> head (omap (page_state s) (pages_in (floor_page base) spill)))) s' ∧
     page_state s' spill = page_state s spill ∧
     ∀ p, aligned p → floor_page base ≤ p < spill → page_state s' p = set_protection protection <$> page_state s p) ∧
  (∀ k r, owner_of s k r (floor_page base) → vr_kind r = VkPrivate → k + vr_size r = spill →
     can_commit base size s = Done (Ok true) s ∧ ¬ (k ≤ spill < k + vr_size r)).
Proof.
  intros Hr Hb Hs Hfit spill Hsp Htop. pose proof (reachable_ok s Hr) as Hok.
  destruct (rounded_props size Hs) as [Hra Hrr]. pose proof (floor_page_spec base) as [Hfa Hfr].
  pose proof (rounded_spec size ltac:(unfold u64 in Hs; lia)) as Hrs.
  assert (aligned spill) as Hal by by apply aligned_add.
  split_and!.
  - unfold touched, spill. rewrite Hrs in *. clear Hok. page_lia.
  - destruct (protect_runs base size protection s Hok Hb Hs) as (s' & E & _ & _ & Hst).
    assert (saturating_add u64_max (floor_page base) (align_up (Z.max size 1) VM_PAGE_SIZE) = spill) as Ee.
    { unfold saturating_add. fold (rounded size). fold spill. rewrite two64 in *. unfold u64_max. lia. }
    rewrite Ee in *. exists s'. split_and!; [done| |].
    + rewrite Hst by done. by rewrite decide_False by lia.
    + intros p Hp Hin. rewrite Hst by done. by rewrite decide_True.
  - intros k r Ho Hkind Hend. destruct (can_commit_runs base size s Hok Hb Hs) as (b & E & Hiff). split; [|lia].
    rewrite E. f_equal. f_equal. apply Hiff. exists k, r. split_and!; [done..|]. fold spill. lia.
Qed.
Lemma spilled_page_ignored_witness :
  ∃ s', protect 0x10800 0x1000 NONE example_vm = Done (Ok (Some READ_WRITE)) s' ∧ page_state s' 0x11000 = page_state example_vm 0x11000.
Proof.
  destruct (spilled_page_ignored example_vm 0x10800 0x1000 NONE example_reachable) as (_ & (s' & E & H & _) & _);
    [first [unfold u64, u64_max; lia | by vm_compute]..|].
  exists s'. split; [exact E|exact H].
Defined.

(** ** The access check *)

(** What a protection permits: an access that both writes and executes needs one of
    the two rights only. *)
Definition permits (p : VmProtection) (write execute : bool) : bool :=
  match write, execute with
  | false, false => vp_read p
  | true, false => vp_write p
  | false, true => vp_execute p
  | true, true => vp_write p || vp_execute p
  end.

(** Every access is decided by the state of its page alone: a page no region
    committed faults, a guard page faults as such, and a committed page permits what
    its protection says.  A fault carries the address that was checked. *)
Definition access_spec (s : VirtualMemory) (a : Z) (write execute : bool) : option VmAccessFault :=
  let fault guard := Some {| vf_address := a; vf_write := write; vf_guard := guard |} in
  match page_state s (floor_page a) with
  | None => fault false
  | Some st =>
      if vs_guard st then fault true
      else if permits (vs_protection st) write execute then None else fault false
  end.

Lemma check_access_spec s a write execute :
  vm_ok s → u64 a → check_access s a write execute = access_spec s a write execute.
Proof.
  intros Hok Ha. unfold check_access, access_spec. rewrite land_mask by done.
  destruct (page_state s (floor_page a)) as [st|] eqn:E;
    unfold page_state in E; rewrite region_containing_floor in E by done;
    destruct (region_containing s a) as [r|] eqn:Er; simplify_eq/=; [|by rewrite E|done].
  rewrite E. assert (vs_committed st = true) as ->.
  { apply (page_state_committed s (floor_page a)); [done|]. unfold page_state. rewrite region_containing_floor, Er by done. done. }
  cbn [negb]. destruct (vs_guard st); [done|].
  destruct write, execute; cbn [permits andb negb orb]; rewrite ?orb_false_r; [|done..].
  by rewrite orb_comm.
Qed.

(** C23 - The check answers what the specification says, in every reachable state; and so
    a commit opens exactly the bytes of its pages and a decommit closes them. *)
Theorem access_follows_page_states s a write execute :
  vm_reachable s → u64 a →
  check_access s a write execute = access_spec s a write execute ∧
  is_mapped s a = match page_state s (floor_page a) with Some st => negb (vs_guard st) | None => false end ∧
  ∀ base size protection guard,
    u64 base → u64 size → base + Z.max size 1 ≤ 2 ^ 64 - 4096 →
    (∃ s', commit base size protection guard s = Done (Ok tt) s' ∧
       check_access s' a write execute =
       if decide (touched base size (floor_page a) ∧ owned s (floor_page a))
       then if negb guard && permits protection write execute then None
            else Some {| vf_address := a; vf_write := write; vf_guard := guard |}
       else check_access s a write execute) ∧
    (∃ s', decommit base size s = Done (Ok tt) s' ∧
       check_access s' a write execute =
       if decide (touched base size (floor_page a) ∧ owned s (floor_page a))
       then Some {| vf_address := a; vf_write := write; vf_guard := false |}
       else check_access s a write execute).
Proof.
  intros Hr Ha. pose proof (reachable_ok s Hr) as Hok. pose proof (floor_page_spec a) as [Hal _]. split_and!.
  - by apply check_access_spec.
  - unfold is_mapped. rewrite land_mask by done.
    assert ((r ← region_containing s a; vr_pages r !! floor_page a) = page_state s (floor_page a)) as ->.
    { unfold page_state. by rewrite region_containing_floor. }
    destruct (page_state s (floor_page a)) eqn:E; [|done]. by rewrite (page_state_committed _ _ _ Hok E).
  - intros base size protection guard Hb Hs Hfit. split.
    + destruct (commit_runs base size protection guard s Hok Hb Hs) as (s' & E & Hok' & _ & Hst). exists s'. split; [done|].
      rewrite !check_access_spec by done. unfold access_spec. rewrite Hst by done.
      rewrite (decide_if_ext _ (touched base size (floor_page a) ∧ owned s (floor_page a))) by by rewrite touched_range.
      case_decide; [|done]. simpl. destruct guard; [done|]. done.
    + destruct (decommit_runs base size s Hok Hb Hs) as (s' & E & Hok' & _ & Hst). exists s'. split; [done|].
      rewrite !check_access_spec by done. unfold access_spec. rewrite Hst by done.
      rewrite (decide_if_ext _ (touched base size (floor_page a) ∧ owned s (floor_page a))) by by rewrite touched_range.
      by case_decide.
Qed.
Lemma access_follows_page_states_witness :
  check_access example_vm 0x10123 true false = None ∧ is_mapped example_vm 0x10123 = true.
Proof.
  destruct (access_follows_page_states example_vm 0x10123 true false example_reachable) as (E1 & E2 & _);
    [unfold u64, u64_max; lia|].
  split; [etransitivity; [exact E1|by vm_compute]|etransitivity; [exact E2|by vm_compute]].
Defined.

(** ** Query *)

Lemma walk_back_spec alike base fuel start :
  aligned base → aligned start → 0 ≤ base ≤ start → (start - base) / 4096 ≤ Z.of_nat fuel →
  ∃ r, walk_back fuel alike base start = Some r ∧ aligned r ∧ base ≤ r ≤ start ∧
    (∀ p, aligned p → r ≤ p < start → alike p = true) ∧ (r = base ∨ alike (r - 4096) = false).
Proof.
  revert start. induction fuel as [|fuel IH]; intros start Hb Hs Hr Hf; cbn [walk_back]; unfold VM_PAGE_SIZE;
    (destruct (base <? start) eqn:E; bool_prop; [|exists start; split_and!; [done|done|lia|lia|intros; lia|left; lia]]).
  { exfalso. page_lia. }
  rewrite (proj2 (Z.ltb_ge _ _)) by page_lia. destruct (alike (start - 4096)) eqn:Ea.
  - destruct (IH (start - 4096)) as (r & -> & Hra & Hrr & Hall & Hend); [done|page_lia..|].
    exists r. split_and!; [done|done|lia|lia| |done]. intros p Hp Hin.
    destruct (decide (p = start - 4096)) as [->|]; [done|]. apply Hall; [done|]. page_lia.
  - exists start. split_and!; [done|done|lia|lia|intros; lia|by right].
Qed.

Lemma walk_ahead_spec alike limit fuel e :
  aligned limit → aligned e → e ≤ limit ≤ u64_max → (∀ p, alike p = true → p < limit) →
  (limit - e) / 4096 ≤ Z.of_nat fuel →
  ∃ r, walk_ahead fuel alike e = Some r ∧ aligned r ∧ e ≤ r ≤ limit ∧
    (∀ p, aligned p → e ≤ p < r → alike p = true) ∧ alike r = false.
Proof.
  intros Hl. revert e. induction fuel as [|fuel IH]; intros e He Hr Hlim Hf; cbn [walk_ahead];
    (destruct (alike e) eqn:Ea; [specialize (Hlim e Ea) as Hlt|exists e; split_and!; [done|done|lia|lia|intros; lia|done]]).
  { exfalso. page_lia. }
  unfold checked_add, VM_PAGE_SIZE. rewrite (proj2 (Z.leb_le _ _)) by page_lia.
  destruct (IH (e + 4096)) as (r & -> & Hra & Hrr & Hall & Hend); [page_lia|page_lia|done|page_lia|].
  exists r. split_and!; [done|done|lia|lia| |done]. intros p Hp Hin.
  destruct (decide (p = e)) as [->|]; [done|]. apply Hall; [done|]. page_lia.
Qed.

Lemma same_committed_spec k r p q st :
  region_ok k r → vr_pages r !! q = Some st →
  same_committed st (vr_pages r !! p) = true ↔ vr_pages r !! p = Some st.
Proof.
  intros Hr Hq. unfold same_committed. destruct (vr_pages r !! p) as [st'|] eqn:Hp; [|done].
  destruct (rg_pages _ _ Hr _ _ Hq) as (_ & _ & C), (rg_pages _ _ Hr _ _ Hp) as (_ & _ & C').
  rewrite C', andb_true_l, andb_true_iff, bool_decide_eq_true, eqb_true_iff.
  destruct st, st'; simpl in *; subst. naive_solver.
Qed.

(** The run a query reports: the largest block of pages of the region around [page]
    that are in the same state as it. *)
Record is_run (k : Z) (r : VmRegion) (page start end_ : Z) : Prop := {
  run_aligned : aligned start ∧ aligned end_;
  run_around : k ≤ start ≤ page ∧ page < end_ ≤ k + vr_size r;
  run_alike : ∀ p, aligned p → start ≤ p < end_ → vr_pages r !! p = vr_pages r !! page;
  run_largest : (start = k ∨ vr_pages r !! (start - 4096) ≠ vr_pages r !! page) ∧
                (end_ = k + vr_size r ∨ vr_pages r !! end_ ≠ vr_pages r !! page) }.

(** C28 - A query always answers.  An address in no region is free memory, with a null base
    and an empty run.  Otherwise the answer is the largest run of pages, in the
    innermost region of the address, that share the state of its page: the protection
    and the guard flag when it is committed, no access when it is reserved, and the
    kind of the region. *)
Theorem query_exact s a :
  vm_reachable s → u64 a →
  match region_entry s a with
  | None => query_vm s a = Some free_result
  | Some (k, r) => ∃ start end_, is_run k r (floor_page a) start end_ ∧
      query_vm s a = Some
        match vr_pages r !! floor_page a with
        | Some st => {| vq_base := start; vq_region_size := end_ - start; vq_state := VsCommitted;
                        vq_protection := vs_protection st; vq_kind := vr_kind r; vq_guard := vs_guard st |}
        | None => {| vq_base := start; vq_region_size := end_ - start; vq_state := VsReserved;
                     vq_protection := NONE; vq_kind := vr_kind r; vq_guard := false |}
        end
  end.
Proof.
  intros Hre Ha. pose proof (reachable_ok s Hre) as Hok. unfold query_vm, region_containing. rewrite land_mask by done.
  destruct (region_entry s a) as [[k r]|] eqn:E; cbn [fmap option_fmap option_map snd]; [|done].
  apply (region_entry_sound _ Hok) in E. apply (owner_of_floor _ Hok) in E as (Hk & Hin & _).
  pose proof (vm_regions_ok _ Hok _ _ Hk) as Hr. pose proof Hr as [Hb [Hka Hsa] Hrg Hpg]. rewrite Hb.
  destruct (floor_page_spec a) as [Hfa _]. set (page := floor_page a) in *.
  assert (aligned (k + vr_size r)) as Hea by by apply aligned_add.
  assert (page + 4096 ≤ k + vr_size r) as Hpe by (apply aligned_next; [done..|lia]).
  assert ((page - k) / 4096 ≤ Z.of_nat (region_fuel r) ∧ (k + vr_size r - (page + 4096)) / 4096 ≤ Z.of_nat (region_fuel r)) as [Hf1 Hf2].
  { unfold region_fuel, VM_PAGE_SIZE. split; Z.div_mod_to_equations; lia. }
  assert (checked_add u64_max page VM_PAGE_SIZE = Some (page + 4096)) as Ec.
  { unfold checked_add, VM_PAGE_SIZE. by rewrite (proj2 (Z.leb_le _ _)) by lia. }
  destruct (vr_pages r !! page) as [st|] eqn:Est.
  - destruct (walk_back_spec (λ p, same_committed st (vr_pages r !! p)) k (region_fuel r) page)
      as (start & -> & Hs1 & Hs2 & Hs3 & Hs4); [done..|lia|done|]. cbn [mbind option_bind]. rewrite Ec. cbn [mbind option_bind].
    destruct (walk_ahead_spec (λ p, same_committed st (vr_pages r !! p)) (k + vr_size r) (region_fuel r) (page + 4096))
      as (end_ & -> & He1 & He2 & He3 & He4); [done|page_lia|lia| |done|].
    { intros p Hp. apply (same_committed_spec k r p page) in Hp; [|done..]. apply Hpg in Hp as (_ & ? & _). lia. }
    exists start, end_. split; [|done].
    assert (∀ p, same_committed st (vr_pages r !! p) = false → vr_pages r !! p ≠ vr_pages r !! page) as Hne.
    { intros p Hf Hp. rewrite Est in Hp. apply (same_committed_spec k r p page) in Hp; [congruence|done..]. }
    split; [done|lia| |split; naive_solver].
    intros p Hp Hin'. destruct (decide (p = page)) as [->|]; [done|]. rewrite Est.
    apply (same_committed_spec k r p page); [done..|].
    destruct (decide (p < page)); [apply Hs3|apply He3]; page_lia.
  - destruct (walk_back_spec (λ p, bool_decide (vr_pages r !! p = None)) k (region_fuel r) page)
      as (start & -> & Hs1 & Hs2 & Hs3 & Hs4); [done..|lia|done|]. cbn [mbind option_bind]. rewrite Ec. cbn [mbind option_bind].
    rewrite (region_end_Some k) by done. cbn [mbind option_bind].
    destruct (walk_ahead_spec (λ p, (p <? k + vr_size r) && bool_decide (vr_pages r !! p = None)) (k + vr_size r) (region_fuel r) (page + 4096))
      as (end_ & -> & He1 & He2 & He3 & He4); [done|page_lia|lia| |done|].
    { intros p Hp. bool_prop. lia. }
    exists start, end_. split; [|done]. split; [done|lia| |split].
    + intros p Hp Hin'. destruct (decide (p = page)) as [->|]; [done|]. rewrite Est.
      destruct (decide (p < page)); [specialize (Hs3 p Hp ltac:(lia)); cbn beta in Hs3; by bool_prop|].
      specialize (He3 p Hp ltac:(page_lia)). cbn beta in He3. by bool_prop.
    + destruct Hs4 as [->|Hs4]; [by left|]. right. rewrite Est. cbn beta in Hs4. by bool_prop.
    + destruct (decide (end_ = k + vr_size r)); [by left|right]. rewrite Est.
      rewrite (proj2 (Z.ltb_lt _ _)), andb_true_l in He4 by lia. by bool_prop.
Qed.
Lemma query_exact_witness :
  ∃ q, query_vm example_vm 0x11234 = Some q ∧ vq_base q ≤ 0x11234 < vq_base q + vq_region_size q.
Proof.
  pose proof (query_exact example_vm 0x11234 example_reachable ltac:(unfold u64, u64_max; lia)) as H.
  destruct (region_entry example_vm 0x11234) as [[k r]|] eqn:E; [|by vm_compute in E].
  destruct H as (start & end_ & [[_ He] Hr _ _] & H). eexists. split; [exact H|].
  change (floor_page 0x11234) with 0x11000 in *.
  destruct (vr_pages r !! 0x11000); cbn [vq_base vq_region_size]; page_lia.
Defined.

(** ** Reservations *)

(** Reserving at an address returns.  It succeeds exactly when the page of the address
    is not null and no region has an address of the range, whose end fits the address
    space; the answer is that page, the new region owns its addresses as reserved
    pages, and every other address keeps its owner.  Otherwise the answer is 0 and
    nothing changes. *)
Theorem reservation_exact s b size :
  vm_reachable s → u64 b → 0 ≤ size ≤ 2 ^ 64 - 4096 →
  let a := floor_page b in
  let n := floor_page (Z.max size 1 + 4095) in
  (room s a n ∧ a ≠ 0 →
   ∃ s', reserve (Some b) size s = Done (Ok a) s' ∧ vm_reachable s' ∧
     ∀ x, region_entry s' x = if decide (a ≤ x < a + n) then Some (a, fresh_region a n VkPrivate) else region_entry s x) ∧
  (¬ (room s a n ∧ a ≠ 0) → reserve (Some b) size s = Done (Ok 0) s).
Proof.
  intros Hr Hb Hs a n. pose proof (reachable_ok s Hr) as Hok. pose proof (rounded_spec size Hs) as Hn.
  assert (u64 size) as Hsz by page_lia. assert (4096 ≤ n ∧ aligned n) as [Hn1 Hna] by (unfold n; page_lia).
  assert (aligned a ∧ 0 ≤ a) as [Haa Ha0] by (unfold a; page_lia).
  pose proof (reserve_at_runs b size s Hok Hb Hsz) as Hrun. rewrite Hn in Hrun.
  change (floor_page b) with a in Hrun. change (floor_page _) with n in Hrun. clearbody a n.
  destruct Hrun as [(Hroom & Hne & E & Hok')|(Hno & E)]; [|split; [naive_solver|done]].
  split; [|tauto]. intros _. eexists. split; [exact E|]. split.
  { exact (reach_step _ _ Hr (step_reserve (Some b) size _ s _ Hb Hsz E)). }
  intros x. destruct Hroom as [Hfit Hdis].
  apply (insert_region_owner s a (fresh_region a n VkPrivate) x Hok); [|done|].
  - apply fresh_region_ok; [done..|lia|done].
  - intros r0 Hr0. specialize (Hdis _ _ Hr0). lia.
Qed.
Lemma reservation_exact_witness :
  ∃ s', reserve (Some 0x20000) 0x1000 example_vm = Done (Ok 0x20000) s' ∧
    region_entry s' 0x20fff = Some (0x20000, fresh_region 0x20000 0x1000 VkPrivate).
Proof.
  destruct (reservation_exact example_vm 0x20000 0x1000 example_reachable) as [(s' & E & _ & H) _];
    [unfold u64, u64_max; lia|by vm_compute| |].
  - split; [|by vm_compute]. split; [by vm_compute|]. intros k r Hk. unfold example_vm in Hk. cbn [vm_regions vm_set_regions] in Hk.
    apply lookup_singleton_Some in Hk as [<- <-]. intros [H _]. by vm_compute in H.
  - exists s'. split; [exact E|]. rewrite H. by vm_compute.
Defined.

(** An anonymous reservation takes the address of its cursor without looking: a
    region that already starts there is replaced, and its committed pages are
    reserved again.  And a size in the last page of the address space is rounded to
    zero, so a reservation of it succeeds with an empty region. *)
Theorem reserve_deviations s k r size :
  vm_reachable s → k = vm_next_region_address s → vm_regions s !! k = Some r →
  0 ≤ size ≤ 2 ^ 64 - 4096 → k + rounded size ≤ u64_max →
  (∃ s', reserve None size s = Done (Ok k) s' ∧ vm_reachable s' ∧
     vm_regions s' !! k = Some (fresh_region k (rounded size) VkPrivate)) ∧
  (∀ b wide, u64 b → u64 wide → 2 ^ 64 - 4096 < wide → floor_page b ≠ 0 →
     room s (floor_page b) 0 →
     reserve (Some b) wide s = Done (Ok (floor_page b)) (insert_region (fresh_region (floor_page b) 0 VkPrivate) s)).
Proof.
  intros Hr -> Hk Hs Hfit. pose proof (reachable_ok s Hr) as Hok. assert (u64 size) as Hsz by page_lia. split.
  - destruct (reserve_any_runs size s Hok Hsz) as [(_ & E & _)|[? _]]; [|lia].
    eexists. split; [exact E|]. split; [exact (reach_step _ _ Hr (step_reserve None size _ s _ I Hsz E))|].
    simpl. by rewrite lookup_insert_eq.
  - intros b wide Hb Hw Hwide Hb0 Hroom.
    assert (rounded wide = 0) as E0.
    { unfold rounded. rewrite align_up_spec by page_lia. rewrite decide_False by lia. done. }
    pose proof (reserve_at_runs b wide s Hok Hb Hw) as Hrun. rewrite E0 in Hrun.
    by destruct Hrun as [(_ & _ & E & _)|([Hno|?] & E)].
Qed.

(** The cursor meets a region reserved at the same place by address. *)
Definition cursor_vm : VirtualMemory :=
  insert_region (fresh_region 0x7fff84000000 0x1000 VkPrivate) default_vm.
Lemma cursor_reachable : vm_reachable cursor_vm.
Proof.
  eapply reach_step; [apply reach_default|].
  apply (step_reserve (Some 0x7fff84000000) 0x1000 (Ok 0x7fff84000000)); by vm_compute.
Qed.
Lemma reserve_deviations_witness :
  ∃ s', reserve None 0x2000 cursor_vm = Done (Ok 0x7fff84000000) s' ∧
    vm_regions s' !! 0x7fff84000000 = Some (fresh_region 0x7fff84000000 0x2000 VkPrivate).
Proof.
  destruct (reserve_deviations cursor_vm 0x7fff84000000 (fresh_region 0x7fff84000000 0x1000 VkPrivate) 0x2000 cursor_reachable)
    as [(s' & E & _ & H) _]; [by vm_compute|by vm_compute|lia|by vm_compute|].
  exists s'. split; [exact E|exact H].
Defined.
End Vmt.
