(* ===== verification/GuestPage.v ===== *)
(** * A page of guest memory: [MemoryPage] of [cpu/memory.rs]

    Which bytes of a page are mapped is a bitmap of 64 words.  The bytes themselves
    live in the store: a page holds the identity of its frame ([GuestMemory]).  The
    callers keep offsets below the page size, so the indices of the words are in
    range. *)

From stdpp Require Import list_numbers.
From S2P Require Import Prelude.

Definition MEMORY_PAGE_SIZE : Z := 4096.
Definition MEMORY_PAGE_SHIFT : Z := 12.
Definition MEMORY_PAGE_BITMAP_WORDS : Z := MEMORY_PAGE_SIZE / 64.
Definition MEMORY_PAGE_MASK : Z := not_u64 (MEMORY_PAGE_SIZE - 1).

Record MemoryPage := { mp_frame : Z; mp_mapped : list Z; mp_fully_mapped : bool }.

Definition new_page (frame : Z) : MemoryPage :=
  {| mp_frame := frame; mp_mapped := replicate (Z.to_nat MEMORY_PAGE_BITMAP_WORDS) 0; mp_fully_mapped := false |}.

Definition bit_mask (start_bit end_bit : Z) : Z :=
  let width := end_bit - start_bit in
  if width =? 64 then u64_max else Z.shiftl (Z.shiftl 1 width - 1) start_bit.

(** [self.mapped[index]] *)
Definition word (p : MemoryPage) (index : Z) : Z := mp_mapped p !!! Z.to_nat index.

Definition is_mapped (p : MemoryPage) (offset : Z) : bool :=
  negb (Z.land (word p (offset / 64)) (Z.shiftl 1 (offset mod 64)) =? 0).

(** [word.trailing_zeros()] *)
Definition trailing_zeros (x : Z) : Z := default 64 (find (Z.testbit x) (seqZ 0 64)).

Definition all_words (p : MemoryPage) : bool := forallb (λ w, w =? u64_max) (mp_mapped p).
Definition set_word (index w : Z) (p : MemoryPage) : MemoryPage :=
  {| mp_frame := mp_frame p; mp_mapped := <[Z.to_nat index := w]> (mp_mapped p); mp_fully_mapped := mp_fully_mapped p |}.
Definition refresh_full (p : MemoryPage) : MemoryPage :=
  {| mp_frame := mp_frame p; mp_mapped := mp_mapped p; mp_fully_mapped := all_words p |}.
Definition mark_fully_mapped (p : MemoryPage) : MemoryPage :=
  {| mp_frame := mp_frame p; mp_mapped := map (λ _, u64_max) (mp_mapped p); mp_fully_mapped := true |}.

(** The bits of word [index] that a range from [start] to [end_] covers. *)
Definition word_mask (start end_ index : Z) : Z :=
  let word_start := if index =? start / 64 then start mod 64 else 0 in
  let word_end := if index =? (end_ - 1) / 64 then (end_ - 1) mod 64 + 1 else 64 in
  bit_mask word_start word_end.
(** [start_word..=end_word] *)
Definition words_of (start end_ : Z) : list Z := seqZ (start / 64) ((end_ - 1) / 64 - start / 64 + 1).

Definition mark_mapped_range (start len : Z) (p : MemoryPage) : MemoryPage :=
  if len =? 0 then p
  else if mp_fully_mapped p then p
  else if (start =? 0) && (len =? MEMORY_PAGE_SIZE) then mark_fully_mapped p
  else
    let end_ := start + len in
    let start_word := start / 64 in
    let end_word := (end_ - 1) / 64 in
    if start_word =? end_word
    then refresh_full (set_word start_word
           (Z.lor (word p start_word) (bit_mask (start mod 64) ((end_ - 1) mod 64 + 1))) p)
    else refresh_full (foldl (λ p index, set_word index (Z.lor (word p index) (word_mask start end_ index)) p)
           p (words_of start end_)).

Fixpoint first_missing (p : MemoryPage) (start end_ : Z) (indices : list Z) : option Z :=
  match indices with
  | [] => None
  | index :: indices =>
      let missing_bits := Z.land (not_u64 (word p index)) (word_mask start end_ index) in
      if negb (missing_bits =? 0) then Some (index * 64 + trailing_zeros missing_bits)
      else first_missing p start end_ indices
  end.
Definition first_unmapped_offset (p : MemoryPage) (start len : Z) : option Z :=
  if len =? 0 then None
  else first_missing p start (start + len) (words_of start (start + len)).

Definition range_is_mapped (p : MemoryPage) (start len : Z) : bool :=
  if len =? 0 then true
  else if mp_fully_mapped p then true
  else
    let end_ := start + len in
    let start_word := start / 64 in
    let end_word := (end_ - 1) / 64 in
    if start_word =? end_word
    then let mask := bit_mask (start mod 64) ((end_ - 1) mod 64 + 1) in Z.land (word p start_word) mask =? mask
    else forallb (λ index, let mask := word_mask start end_ index in Z.land (word p index) mask =? mask)
           (words_of start end_).
