(* ===== verification/GuestPageFacts.v ===== *)
(** * A page of guest memory: its bitmap as a set of offsets *)

From stdpp Require Import list_numbers.
From S2P Require Import Prelude GuestPage.

Module Gp.

(** The bitmap has 64 words of 64 bits, and the flag says that all are set. *)
Record page_ok (p : MemoryPage) : Prop := {
  pg_length : length (mp_mapped p) = 64%nat;
  pg_words : Forall u64 (mp_mapped p);
  pg_full : mp_fully_mapped p = all_words p }.

Lemma u64_bounded x : u64 x → 0 ≤ x < 2 ^ 64.
Proof. unfold u64, u64_max. change (2 ^ 64) with 18446744073709551616. lia. Qed.
Lemma bounded_u64 x : 0 ≤ x < 2 ^ 64 → u64 x.
Proof. unfold u64, u64_max. change (2 ^ 64) with 18446744073709551616. lia. Qed.

(** ** Masks *)

Lemma bit_mask_bits s e i :
  0 ≤ s → s ≤ e ≤ 64 → 0 ≤ i → Z.testbit (bit_mask s e) i = (s <=? i) && (i <? e).
Proof.
  intros Hs He Hi. unfold bit_mask. destruct (Z.eqb_spec (e - s) 64).
  - assert (s = 0 ∧ e = 64) as [-> ->] by lia. change u64_max with (Z.ones 64).
    rewrite Z.testbit_ones_nonneg by lia. symmetry. by rewrite (proj2 (Z.leb_le _ _)) by lia.
  - rewrite Z.shiftl_1_l. replace (2 ^ (e - s) - 1) with (Z.ones (e - s)) by (rewrite Z.ones_equiv; lia).
    destruct (Z.leb_spec s i); simpl.
    + rewrite Z.shiftl_spec, Z.testbit_ones_nonneg by lia. destruct (Z.ltb_spec i e), (Z.ltb_spec (i - s) (e - s)); lia.
    + rewrite Z.shiftl_spec by lia. by rewrite Z.testbit_neg_r by lia.
Qed.

Lemma bit_mask_u64 s e : 0 ≤ s → s ≤ e ≤ 64 → u64 (bit_mask s e).
Proof.
  intros Hs He. apply bounded_u64, bits_bounded; [lia|]. intros i Hi. rewrite bit_mask_bits by lia.
  rewrite (proj2 (Z.ltb_ge _ _)) by lia. by rewrite andb_false_r.
Qed.

Section range.
Context (start end_ : Z) (Hr : 0 ≤ start < end_).

Lemma word_mask_bounds index :
  let s := if index =? start / 64 then start mod 64 else 0 in
  let e := if index =? (end_ - 1) / 64 then (end_ - 1) mod 64 + 1 else 64 in
  start / 64 ≤ index ≤ (end_ - 1) / 64 → 0 ≤ s ∧ s ≤ e ≤ 64.
Proof.
  intros s e H. unfold s, e.
  destruct (Z.eqb_spec index (start / 64)), (Z.eqb_spec index ((end_ - 1) / 64));
    subst; Z.div_mod_to_equations; lia.
Qed.

(** A bit of the mask of a word says whether its offset is in the range. *)
Lemma word_mask_bits o :
  start / 64 ≤ o / 64 ≤ (end_ - 1) / 64 →
  Z.testbit (word_mask start end_ (o / 64)) (o mod 64) = (start <=? o) && (o <? end_).
Proof.
  intros H. unfold word_mask. pose proof (word_mask_bounds (o / 64) H) as [Hs He].
  rewrite bit_mask_bits by (done || Z.div_mod_to_equations; lia).
  destruct (Z.eqb_spec (o / 64) (start / 64)), (Z.eqb_spec (o / 64) ((end_ - 1) / 64));
    destruct (Z.leb_spec start o), (Z.ltb_spec o end_); simpl;
    repeat match goal with
    | |- context [?a <=? ?b] => destruct (Z.leb_spec a b)
    | |- context [?a <? ?b] => destruct (Z.ltb_spec a b)
    end; simpl; try done; exfalso; Z.div_mod_to_equations; lia.
Qed.

Lemma word_mask_high index i :
  start / 64 ≤ index ≤ (end_ - 1) / 64 → 64 ≤ i → Z.testbit (word_mask start end_ index) i = false.
Proof.
  intros H Hi. unfold word_mask. pose proof (word_mask_bounds index H) as [Hs He].
  rewrite bit_mask_bits by lia. rewrite (proj2 (Z.ltb_ge _ _)) by lia. by rewrite andb_false_r.
Qed.
Lemma word_mask_u64 index : start / 64 ≤ index ≤ (end_ - 1) / 64 → u64 (word_mask start end_ index).
Proof. intros H. apply bit_mask_u64; by apply (word_mask_bounds index H). Qed.

Lemma elem_of_words_of index : index ∈ words_of start end_ ↔ start / 64 ≤ index ≤ (end_ - 1) / 64.
Proof. unfold words_of. rewrite elem_of_seqZ. Z.div_mod_to_equations; lia. Qed.

(** In one word the mask of the short way is that of the loop. *)
Lemma word_mask_single : start / 64 = (end_ - 1) / 64 →
  word_mask start end_ (start / 64) = bit_mask (start mod 64) ((end_ - 1) mod 64 + 1).
Proof. intros E. unfold word_mask. by rewrite <-E, Z.eqb_refl. Qed.
Lemma words_of_single : start / 64 = (end_ - 1) / 64 → words_of start end_ = [start / 64].
Proof. intros E. unfold words_of. rewrite <-E. by replace (start / 64 - start / 64 + 1) with 1 by lia. Qed.
End range.

(** ** The bits of a page *)

Lemma is_mapped_bit p o : 0 ≤ o → is_mapped p o = Z.testbit (word p (o / 64)) (o mod 64).
Proof.
  intros Ho. unfold is_mapped. assert (0 ≤ o mod 64) by (Z.div_mod_to_equations; lia).
  rewrite Z.shiftl_1_l. destruct (Z.testbit _ _) eqn:E.
  - apply negb_true_iff, Z.eqb_neq. intros H0.
    assert (Z.testbit (Z.land (word p (o / 64)) (2 ^ (o mod 64))) (o mod 64) = true) as H1
      by by rewrite Z.land_spec, E, Z.pow2_bits_true by lia.
    by rewrite H0, Z.testbit_0_l in H1.
  - apply negb_false_iff, Z.eqb_eq, Z.bits_inj'. intros j Hj.
    rewrite Z.land_spec, Z.testbit_0_l, Z.pow2_bits_eqb by lia.
    destruct (Z.eqb_spec (o mod 64) j) as [<-|]; [by rewrite E|by rewrite andb_false_r].
Qed.

Lemma word_lookup p i : page_ok p → 0 ≤ i < 64 → mp_mapped p !! Z.to_nat i = Some (word p i).
Proof. intros Hp Hi. unfold word. apply list_lookup_lookup_total_lt. rewrite (pg_length p Hp). lia. Qed.
Lemma word_u64 p i : page_ok p → 0 ≤ i < 64 → u64 (word p i).
Proof. intros Hp Hi. by eapply (Forall_lookup_1 _ _ _ _ (pg_words p Hp)), word_lookup. Qed.

(** All the offsets of a full word are mapped, and conversely. *)
Lemma full_word p i :
  page_ok p → 0 ≤ i < 64 → word p i = u64_max ↔ ∀ o, o / 64 = i → 0 ≤ o → is_mapped p o = true.
Proof.
  intros Hp Hi. split.
  - intros E o Ho H0. rewrite is_mapped_bit, Ho, E by done. change u64_max with (Z.ones 64).
    apply Z.ones_spec_low. Z.div_mod_to_equations; lia.
  - intros H. apply Z.bits_inj'. intros j Hj. change u64_max with (Z.ones 64).
    rewrite Z.testbit_ones_nonneg by lia. destruct (Z.ltb_spec j 64).
    + specialize (H (64 * i + j)). rewrite is_mapped_bit in H by lia.
      replace ((64 * i + j) / 64) with i in H by (Z.div_mod_to_equations; lia).
      replace ((64 * i + j) mod 64) with j in H by (Z.div_mod_to_equations; lia). apply H; lia.
    + apply (testbit_bounded 64); [|lia]. by apply u64_bounded, word_u64.
Qed.

Lemma all_words_spec p : page_ok p → all_words p = true ↔ ∀ o, 0 ≤ o < 4096 → is_mapped p o = true.
Proof.
  intros Hp. unfold all_words. rewrite <-Is_true_true, forallb_True, Forall_lookup. split.
  - intros H o Ho. apply (full_word p (o / 64) Hp); [Z.div_mod_to_equations; lia| |done|lia].
    specialize (H (Z.to_nat (o / 64)) (word p (o / 64))). rewrite Is_true_true, Z.eqb_eq in H. apply H.
    apply word_lookup; [done|]. Z.div_mod_to_equations; lia.
  - intros H i w Hw. apply Is_true_true, Z.eqb_eq. pose proof (lookup_lt_Some _ _ _ Hw) as Hlt.
    rewrite (pg_length p Hp) in Hlt. assert (w = word p (Z.of_nat i)) as ->.
    { unfold word. rewrite Nat2Z.id. by rewrite (list_lookup_total_correct _ _ _ Hw). }
    apply full_word; [done|lia|]. intros o Ho H0. apply H. Z.div_mod_to_equations; lia.
Qed.
Lemma fully_mapped_spec p : page_ok p → mp_fully_mapped p = true ↔ ∀ o, 0 ≤ o < 4096 → is_mapped p o = true.
Proof. intros Hp. rewrite (pg_full p Hp). by apply all_words_spec. Qed.

(** ** Reading the bitmap *)

(** A masked word is the mask when every offset of the range in that word is mapped. *)
Lemma masked_word p start end_ index :
  page_ok p → 0 ≤ start < end_ → end_ ≤ 4096 → index ∈ words_of start end_ →
  Z.land (word p index) (word_mask start end_ index) = word_mask start end_ index ↔
  ∀ o, o / 64 = index → start ≤ o < end_ → is_mapped p o = true.
Proof.
  intros Hp Hr He Hi. apply elem_of_words_of in Hi; [|done]. split.
  - intros E o Ho Hin. rewrite is_mapped_bit by lia. rewrite Ho.
    assert (Z.testbit (word_mask start end_ index) (o mod 64) = true) as Hb.
    { rewrite <-Ho, word_mask_bits by (done || lia). by rewrite (proj2 (Z.leb_le _ _)), (proj2 (Z.ltb_lt _ _)) by lia. }
    rewrite <-E, Z.land_spec in Hb. by apply andb_true_iff in Hb as [? _].
  - intros H. apply Z.bits_inj'. intros j Hj. rewrite Z.land_spec.
    destruct (Z.testbit (word_mask start end_ index) j) eqn:Hb; [|by rewrite andb_false_r].
    rewrite andb_true_r. destruct (decide (64 ≤ j)) as [Hge|Hlt].
    { by rewrite word_mask_high in Hb. }
    assert ((64 * index + j) / 64 = index) as E1 by (Z.div_mod_to_equations; lia).
    assert ((64 * index + j) mod 64 = j) as E2 by (Z.div_mod_to_equations; lia).
    pose proof (word_mask_bits start end_ Hr (64 * index + j)) as Hw. rewrite E1, E2, Hb in Hw.
    specialize (Hw Hi). symmetry in Hw. bool_prop.
    specialize (H (64 * index + j) E1 ltac:(lia)). rewrite is_mapped_bit in H by lia. by rewrite E1, E2 in H.
Qed.

Lemma offset_word start end_ o : 0 ≤ start < end_ → start ≤ o < end_ → o / 64 ∈ words_of start end_.
Proof. intros Hr Ho. apply elem_of_words_of; [done|]. Z.div_mod_to_equations; lia. Qed.

Lemma range_is_mapped_spec p start len :
  page_ok p → 0 ≤ start → 0 ≤ len → start + len ≤ 4096 →
  range_is_mapped p start len = true ↔ ∀ o, start ≤ o < start + len → is_mapped p o = true.
Proof.
  intros Hp Hs Hl He. unfold range_is_mapped. destruct (Z.eqb_spec len 0); [split; [intros; lia|done]|].
  destruct (mp_fully_mapped p) eqn:Hf.
  { split; [|done]. intros _ o Ho. apply (proj1 (fully_mapped_spec p Hp) Hf). lia. }
  assert (0 ≤ start < start + len) as Hr by lia.
  assert (forallb (λ index, let mask := word_mask start (start + len) index in Z.land (word p index) mask =? mask)
            (words_of start (start + len)) = true ↔ ∀ o, start ≤ o < start + len → is_mapped p o = true) as Hloop.
  { rewrite <-Is_true_true, forallb_True, Forall_forall. split.
    - intros H o Ho. pose proof (offset_word _ _ o Hr Ho) as Hw. specialize (H _ Hw).
      rewrite Is_true_true, Z.eqb_eq in H. by apply (masked_word p start (start + len) (o / 64) Hp Hr He Hw).
    - intros H i Hi. apply Is_true_true, Z.eqb_eq. apply masked_word; [done..|]. intros o _. apply H. }
  destruct (Z.eqb_spec (start / 64) ((start + len - 1) / 64)) as [E|]; [|exact Hloop].
  rewrite <-Hloop, words_of_single by done. simpl. rewrite andb_true_r, word_mask_single by done. done.
Qed.

(** The first missing offset. *)
Lemma trailing_zeros_spec x :
  u64 x → x ≠ 0 → 0 ≤ trailing_zeros x < 64 ∧ Z.testbit x (trailing_zeros x) = true ∧
  ∀ i, 0 ≤ i < trailing_zeros x → Z.testbit x i = false.
Proof.
  intros Hx Hne. unfold trailing_zeros. destruct (find (Z.testbit x) (seqZ 0 64)) as [i|] eqn:E; simpl.
  - pose proof (find_some _ _ E) as [Hin Hb]. apply list_elem_of_In, elem_of_seqZ in Hin.
    split_and!; [lia..|done|]. intros j Hj. destruct (Z.testbit x j) eqn:Hbj; [|done]. exfalso.
    assert (∀ n a, find (Z.testbit x) (seqZ a n) = Some i → a ≤ j < i → False) as Hmin.
    { clear E. intros n. induction n as [|n Hn IH|n Hn _] using (Z.succ_pred_induction 0); intros a E Hja.
      - by rewrite seqZ_nil in E.
      - rewrite seqZ_cons in E by lia. simpl in E. destruct (Z.testbit x a) eqn:Ha; [simplify_eq; lia|].
        replace (Z.pred (Z.succ n)) with n in E by lia. destruct (decide (j = a)) as [->|]; [congruence|].
        apply (IH (Z.succ a)); [done|lia].
      - by rewrite seqZ_nil in E by lia. }
    by apply (Hmin 64 0).
  - exfalso. apply Hne, Z.bits_inj'. intros j Hj. rewrite Z.testbit_0_l. destruct (decide (j < 64)).
    + apply (find_none _ _ E). apply list_elem_of_In, elem_of_seqZ. lia.
    + apply (testbit_bounded 64); [by apply u64_bounded|lia].
Qed.

Lemma missing_bits_spec p start end_ index o :
  page_ok p → 0 ≤ start < end_ → end_ ≤ 4096 → index ∈ words_of start end_ → o / 64 = index →
  Z.testbit (Z.land (not_u64 (word p index)) (word_mask start end_ index)) (o mod 64) =
  (start <=? o) && (o <? end_) && negb (is_mapped p o).
Proof.
  intros Hp Hr He Hi Ho. apply elem_of_words_of in Hi; [|done]. assert (0 ≤ o) by (Z.div_mod_to_equations; lia).
  rewrite Z.land_spec. rewrite <-Ho at 2. rewrite word_mask_bits by (rewrite ?Ho; done).
  rewrite is_mapped_bit, Ho by done. unfold not_u64. rewrite Z.lxor_spec. change u64_max with (Z.ones 64).
  rewrite Z.ones_spec_low by (Z.div_mod_to_equations; lia). rewrite xorb_true_r. apply andb_comm.
Qed.

Lemma first_missing_spec p start end_ l :
  page_ok p → 0 ≤ start < end_ → end_ ≤ 4096 → (∀ i, i ∈ l → i ∈ words_of start end_) → StronglySorted Z.lt l →
  match first_missing p start end_ l with
  | Some o => start ≤ o < end_ ∧ is_mapped p o = false ∧ o / 64 ∈ l ∧
      ∀ o', start ≤ o' < o → o' / 64 ∈ l → is_mapped p o' = true
  | None => ∀ o, start ≤ o < end_ → o / 64 ∈ l → is_mapped p o = true
  end.
Proof.
  intros Hp Hr He. induction l as [|index l IH]; intros Hl Hs; cbn [first_missing].
  { by intros o _ ?%not_elem_of_nil. }
  apply StronglySorted_inv in Hs as [Hs Hlt]. rewrite Forall_forall in Hlt.
  assert (index ∈ words_of start end_) as Hi by (apply Hl; by left).
  assert (0 ≤ index < 64) as Hib by (apply elem_of_words_of in Hi; [Z.div_mod_to_equations; lia|done]).
  pose proof (λ o, missing_bits_spec p start end_ index o Hp Hr He Hi) as Hbits.
  set (x := Z.land (not_u64 (word p index)) (word_mask start end_ index)) in *.
  assert (u64 x) as Hx.
  { apply bounded_u64, land_bounded; [lia|]. apply u64_bounded, word_mask_u64; [done|]. by apply elem_of_words_of. }
  destruct (Z.eqb_spec x 0) as [E|Hne]; simpl.
  - assert (∀ o, start ≤ o < end_ → o / 64 = index → is_mapped p o = true) as Hfirst.
    { intros o Ho Hoi. specialize (Hbits o Hoi). rewrite E, Z.testbit_0_l in Hbits.
      destruct (is_mapped p o); [done|]. rewrite (proj2 (Z.leb_le _ _)), (proj2 (Z.ltb_lt _ _)) in Hbits by lia. done. }
    specialize (IH (λ i Hi, Hl i ltac:(by right)) Hs). destruct (first_missing p start end_ l) as [o|].
    + destruct IH as (? & ? & ? & H). split_and!; [lia..|done|by right|].
      intros o' Ho' [Ho'i|?]%elem_of_cons; [apply Hfirst; lia|by apply H].
    + intros o Ho [?|?]%elem_of_cons; [by apply Hfirst|by apply IH].
  - destruct (trailing_zeros_spec x Hx Hne) as (Htz & Hb & Hmin).
    assert ((index * 64 + trailing_zeros x) / 64 = index) as E1 by (Z.div_mod_to_equations; lia).
    assert ((index * 64 + trailing_zeros x) mod 64 = trailing_zeros x) as E2 by (Z.div_mod_to_equations; lia).
    pose proof (Hbits _ E1) as Hb'. rewrite E2, Hb in Hb'. symmetry in Hb'. bool_prop.
    split_and!; [lia..|done|rewrite E1; by left|].
    intros o' Ho' [Ho'i|Hin]%elem_of_cons.
    + specialize (Hmin (o' mod 64)). rewrite (Hbits o' Ho'i) in Hmin.
      destruct (is_mapped p o'); [done|]. rewrite (proj2 (Z.leb_le _ _)), (proj2 (Z.ltb_lt _ _)) in Hmin by lia.
      symmetry. apply Hmin. Z.div_mod_to_equations; lia.
    + specialize (Hlt _ Hin). Z.div_mod_to_equations; lia.
Qed.

Lemma seqZ_sorted a n : StronglySorted Z.lt (seqZ a n).
Proof.
  revert a. induction n as [|n Hn IH|n Hn _] using (Z.succ_pred_induction 0); intros a.
  - rewrite seqZ_nil by lia. constructor.
  - rewrite seqZ_cons by lia. replace (Z.pred (Z.succ n)) with n by lia. constructor; [apply IH|].
    apply Forall_forall. intros i Hi%elem_of_seqZ. lia.
  - rewrite seqZ_nil by lia. constructor.
Qed.

(** The first unmapped offset of a range, or none when all of it is mapped. *)
Lemma first_unmapped_offset_spec p start len :
  page_ok p → 0 ≤ start → 0 ≤ len → start + len ≤ 4096 →
  match first_unmapped_offset p start len with
  | Some o => start ≤ o < start + len ∧ is_mapped p o = false ∧ ∀ o', start ≤ o' < o → is_mapped p o' = true
  | None => ∀ o, start ≤ o < start + len → is_mapped p o = true
  end.
Proof.
  intros Hp Hs Hl He. unfold first_unmapped_offset. destruct (Z.eqb_spec len 0); [intros; lia|].
  assert (0 ≤ start < start + len) as Hr by lia.
  pose proof (first_missing_spec p start (start + len) (words_of start (start + len)) Hp Hr He (λ _ H, H) (seqZ_sorted _ _)) as H.
  destruct (first_missing _ _ _ _) as [o|].
  - destruct H as (? & ? & _ & H). split_and!; [lia..|done|]. intros o' Ho'. apply H; [done|]. apply offset_word; lia.
  - intros o Ho. apply H; [done|]. by apply offset_word.
Qed.

(** What [range_is_mapped] denies, [first_unmapped_offset] finds. *)
Lemma unmapped_offset_found p start len :
  page_ok p → 0 ≤ start → 0 ≤ len → start + len ≤ 4096 → range_is_mapped p start len = false →
  ∃ o, first_unmapped_offset p start len = Some o.
Proof.
  intros Hp Hs Hl He H. pose proof (first_unmapped_offset_spec p start len Hp Hs Hl He) as Hf.
  destruct (first_unmapped_offset p start len) as [o|]; [by eauto|].
  apply (range_is_mapped_spec p start len) in Hf; [congruence|done..].
Qed.

(** ** Marking *)

Lemma word_set_word p i w j :
  page_ok p → 0 ≤ i < 64 → 0 ≤ j < 64 → word (set_word i w p) j = if decide (i = j) then w else word p j.
Proof.
  intros Hp Hi Hj. unfold word, set_word. simpl. case_decide as E.
  - subst. apply list_lookup_total_insert_eq. rewrite (pg_length p Hp). lia.
  - apply list_lookup_total_insert_ne. lia.
Qed.

(** A bitmap, whatever the flag says. *)
Record words_ok (p : MemoryPage) : Prop := {
  wd_length : length (mp_mapped p) = 64%nat;
  wd_words : Forall u64 (mp_mapped p) }.
Lemma page_words_ok p : page_ok p → words_ok p.
Proof. intros [? ? _]. by split. Qed.
Lemma refresh_page_ok p : words_ok p → page_ok (refresh_full p).
Proof. intros [? ?]. by split. Qed.

Lemma set_word_ok p i w : words_ok p → u64 w → words_ok (set_word i w p).
Proof. intros [Hl Hw] Hu. split; simpl; [by rewrite length_insert|by apply Forall_insert]. Qed.

Lemma lor_u64 x y : u64 x → u64 y → u64 (Z.lor x y).
Proof. intros. apply bounded_u64, lor_bounded; [lia|by apply u64_bounded..]. Qed.

(** The fold over the words sets the bits of the range. *)
Lemma mark_fold p start end_ l :
  words_ok p → 0 ≤ start < end_ → end_ ≤ 4096 → NoDup l → (∀ i, i ∈ l → i ∈ words_of start end_) →
  let p' := foldl (λ p index, set_word index (Z.lor (word p index) (word_mask start end_ index)) p) p l in
  words_ok p' ∧ mp_frame p' = mp_frame p ∧
  ∀ j, 0 ≤ j < 64 → word p' j = if decide (j ∈ l) then Z.lor (word p j) (word_mask start end_ j) else word p j.
Proof.
  revert p. induction l as [|i l IH]; intros p Hp Hr He Hnd Hl; cbn [foldl].
  { split_and!; [done..|]. intros j _. rewrite decide_False; [done|apply not_elem_of_nil]. }
  apply NoDup_cons in Hnd as [Hil Hnd].
  assert (i ∈ words_of start end_) as Hi by (apply Hl; by left). apply elem_of_words_of in Hi as Hib; [|done].
  assert (0 ≤ i < 64) as H64 by (Z.div_mod_to_equations; lia).
  assert (∀ p, words_ok p → page_ok (refresh_full p)) as Hrf by apply refresh_page_ok.
  assert (u64 (Z.lor (word p i) (word_mask start end_ i))) as Hu.
  { apply lor_u64; [apply (word_u64 (refresh_full p)); [by apply Hrf|done]|by apply word_mask_u64]. }
  destruct (IH (set_word i (Z.lor (word p i) (word_mask start end_ i)) p)) as (Hok' & Hf & Hw);
    [by apply set_word_ok|done|done|done|by intros; apply Hl; right|].
  split_and!; [done|done|]. intros j Hj. rewrite Hw by done.
  assert (∀ j, 0 ≤ j < 64 → word (set_word i (Z.lor (word p i) (word_mask start end_ i)) p) j =
    if decide (i = j) then Z.lor (word p i) (word_mask start end_ i) else word p j) as Hset.
  { intros k Hk. apply (word_set_word (refresh_full p)); [by apply Hrf|done|done]. }
  rewrite Hset by done. destruct (decide (j ∈ l)) as [Hjl|Hjl].
  - rewrite decide_False by (by intros ->). rewrite decide_True; [done|by right].
  - case_decide as E; [subst; rewrite decide_True; [done|by left]|].
    rewrite decide_False; [done|]. by intros [->|?]%elem_of_cons.
Qed.

Lemma mark_loop_spec p start end_ o :
  words_ok p → 0 ≤ start < end_ → end_ ≤ 4096 → 0 ≤ o < 4096 →
  let p' := foldl (λ p index, set_word index (Z.lor (word p index) (word_mask start end_ index)) p) p (words_of start end_) in
  is_mapped p' o = (start <=? o) && (o <? end_) || is_mapped p o.
Proof.
  intros Hp Hr He Ho p'. destruct (mark_fold p start end_ (words_of start end_) Hp Hr He) as (_ & _ & Hw);
    [apply NoDup_seqZ|done|]. fold p' in Hw.
  rewrite !is_mapped_bit by lia. rewrite Hw by (Z.div_mod_to_equations; lia). case_decide as Hin.
  - apply elem_of_words_of in Hin; [|done]. rewrite Z.lor_spec, word_mask_bits by done. apply orb_comm.
  - destruct (Z.leb_spec start o), (Z.ltb_spec o end_); try done. exfalso. apply Hin. by apply offset_word.
Qed.

Lemma refresh_is_mapped p o : is_mapped (refresh_full p) o = is_mapped p o.
Proof. done. Qed.

Lemma mark_fully_mapped_spec p :
  page_ok p → page_ok (mark_fully_mapped p) ∧ mp_frame (mark_fully_mapped p) = mp_frame p ∧
  ∀ o, 0 ≤ o < 4096 → is_mapped (mark_fully_mapped p) o = true.
Proof.
  intros Hp. assert (page_ok (mark_fully_mapped p)) as Hok.
  { split; simpl; [by rewrite length_map, (pg_length p Hp)| |].
    - apply Forall_forall. intros x (? & <- & _)%list_elem_of_In%in_map_iff. unfold u64, u64_max. lia.
    - symmetry. unfold all_words. simpl. induction (mp_mapped p) as [|? ? IH]; simpl; [done|]. by rewrite IH. }
  split_and!; [done|done|]. by apply fully_mapped_spec.
Qed.

(** Marking a range maps its offsets and leaves the others as they are. *)
Lemma mark_mapped_range_spec p start len :
  page_ok p → 0 ≤ start → 0 ≤ len → start + len ≤ 4096 →
  page_ok (mark_mapped_range start len p) ∧ mp_frame (mark_mapped_range start len p) = mp_frame p ∧
  ∀ o, 0 ≤ o < 4096 →
    is_mapped (mark_mapped_range start len p) o = (start <=? o) && (o <? start + len) || is_mapped p o.
Proof.
  intros Hp Hs Hl He. unfold mark_mapped_range. destruct (Z.eqb_spec len 0) as [->|].
  { split_and!; [done..|]. intros o Ho. destruct (Z.leb_spec start o), (Z.ltb_spec o (start + 0)); done || lia. }
  destruct (mp_fully_mapped p) eqn:Hf.
  { split_and!; [done..|]. intros o Ho. rewrite (proj1 (fully_mapped_spec p Hp) Hf o Ho). by rewrite orb_true_r. }
  pose proof (mark_fully_mapped_spec p Hp) as (Hfull & _ & Hmapped).
  destruct (_ && _) eqn:E; bool_prop.
  { subst. unfold MEMORY_PAGE_SIZE in *. split_and!; [done|done|]. intros o Ho.
    rewrite (Hmapped o Ho).
    by rewrite (proj2 (Z.leb_le _ _)), (proj2 (Z.ltb_lt _ _)) by lia. }
  clear E. assert (0 ≤ start < start + len) as Hr by lia. pose proof (page_words_ok p Hp) as Hw.
  set (p' := foldl _ p (words_of start (start + len))).
  assert (refresh_full p' = (if start / 64 =? (start + len - 1) / 64
    then refresh_full (set_word (start / 64) (Z.lor (word p (start / 64))
           (bit_mask (start mod 64) ((start + len - 1) mod 64 + 1))) p)
    else refresh_full p')) as <-.
  { destruct (Z.eqb_spec (start / 64) ((start + len - 1) / 64)) as [E|]; [|done].
    unfold p'. rewrite words_of_single by done. cbn [foldl]. by rewrite word_mask_single. }
  destruct (mark_fold p start (start + len) (words_of start (start + len)) Hw Hr He) as (Hok & Hfr & _);
    [apply NoDup_seqZ|done|]. fold p' in Hok, Hfr.
  split_and!; [by apply refresh_page_ok|done|]. intros o Ho. rewrite refresh_is_mapped.
  by apply mark_loop_spec.
Qed.

Lemma new_page_ok f : page_ok (new_page f) ∧ ∀ o, 0 ≤ o < 4096 → is_mapped (new_page f) o = false.
Proof.
  assert (page_ok (new_page f)) as Hok.
  { split; [done| |done]. apply Forall_replicate. unfold u64, u64_max. lia. }
  split; [done|]. intros o Ho. rewrite is_mapped_bit by lia.
  unfold word, new_page. cbn [mp_mapped]. rewrite lookup_total_replicate_2; [apply Z.testbit_0_l|].
  change (Z.to_nat MEMORY_PAGE_BITMAP_WORDS) with 64%nat. Z.div_mod_to_equations; lia.
Qed.
End Gp.
