(* ===== verification/GuestMemory.v ===== *)
(** * Guest memory: [cpu/memory.rs]

    The store of page frames, the lookup of pages, and the accesses of the processor
    and of the loader.  A pointer into the store is the identity of a frame: the base
    of the page it was made for, since the direct window and the individually
    allocated frames give each page base one frame at a time.  The virtual memory an
    image is attached to is an argument of the accesses, as it is at the time of the
    call.

    An access error is the address it names, encoded in the [Z] of [Err]; the error
    for an operand of an unsupported width is a negative number.  A loop over the
    chunks of a range carries fuel; running out is [Panic], which no operation
    meets. *)

From stdpp Require Import list_numbers.
From S2P Require Import Prelude Bytes Flags CpuState VirtualMemory GuestPage.

Definition PAGE_DIRECTORY_CHUNK_SHIFT : Z := 21.
Definition PAGE_DIRECTORY_CHUNK_ENTRIES : Z := Z.shiftl 1 (PAGE_DIRECTORY_CHUNK_SHIFT - MEMORY_PAGE_SHIFT).
Definition PAGE_DIRECTORY_MISSING : Z := u32_max.
Definition GUEST_FLAT_SIZE : Z := Z.shiftl 1 38.
Definition GUEST_FLAT_MIN_SIZE : Z := Z.shiftl 1 37.
Definition GUEST_FLAT_ALIGN : Z := 16 * 1024 * 1024.

(** [unmapped_memory_error] and the error of an unsupported width. *)
Definition unmapped_memory_error (address : Z) : Z := address.
Definition unsupported_width (width : Z) : Z := - 1 - width.

(** [a.div_ceil(b)] and [x.is_multiple_of(n)] *)
Definition div_ceil (a b : Z) : Z := (a + b - 1) / b.
Definition is_multiple_of (x n : Z) : bool := x mod n =? 0.

(** ** The store *)

Record GuestMemoryStore := {
  gs_flat_size : Z;
  gs_valid : bool;
  gs_materialised : gset Z;      (** the bits set, by page number *)
  gs_materialisations : Z;
  gs_high_pages : gset Z;        (** the keys of the map of frames above the window *)
  gs_frames : gmap Z (list Z);   (** the bytes of the frames written so far *)
}.
Definition gs_set_frames (f : gmap Z (list Z)) (s : GuestMemoryStore) : GuestMemoryStore :=
  {| gs_flat_size := gs_flat_size s; gs_valid := gs_valid s; gs_materialised := gs_materialised s;
     gs_materialisations := gs_materialisations s; gs_high_pages := gs_high_pages s; gs_frames := f |}.
Definition gs_set_materialised (b : gset Z) (s : GuestMemoryStore) : GuestMemoryStore :=
  {| gs_flat_size := gs_flat_size s; gs_valid := gs_valid s; gs_materialised := b;
     gs_materialisations := gs_materialisations s; gs_high_pages := gs_high_pages s; gs_frames := gs_frames s |}.
Definition gs_set_high (h : gset Z) (s : GuestMemoryStore) : GuestMemoryStore :=
  {| gs_flat_size := gs_flat_size s; gs_valid := gs_valid s; gs_materialised := gs_materialised s;
     gs_materialisations := gs_materialisations s; gs_high_pages := h; gs_frames := gs_frames s |}.
Definition gs_count (s : GuestMemoryStore) : GuestMemoryStore :=
  {| gs_flat_size := gs_flat_size s; gs_valid := gs_valid s; gs_materialised := gs_materialised s;
     gs_materialisations := wrapping_add64 (gs_materialisations s) 1; gs_high_pages := gs_high_pages s;
     gs_frames := gs_frames s |}.

(** The reservation of the window: [mmap] answers the address of [total] bytes, or
    nothing.  The result is the aligned base and what is released on both sides. *)
Definition reserve_flat_window (mmap : Z → option Z) (size align : Z) : option (Z * Z * Z) :=
  total ← checked_add u64_max size (align - 1);
  raw_address ← mmap total;
  let aligned_address := Z.land (raw_address + (align - 1)) (not_u64 (align - 1)) in
  let prefix := aligned_address - raw_address in
  let suffix := total - prefix - size in
  Some (aligned_address, prefix, suffix).
Fixpoint reserve_flat_window_candidates (mmap : Z → option Z) (first : Z) (sizes : list Z) (align : Z) : Z * option Z :=
  match sizes with
  | [] => (first, None)
  | size :: sizes =>
      match reserve_flat_window mmap size align with
      | Some (base, _, _) => (size, Some base)
      | None => reserve_flat_window_candidates mmap first sizes align
      end
  end.

Definition new_store (mmap : Z → option Z) : GuestMemoryStore :=
  let '(flat_size, flat_base) :=
    reserve_flat_window_candidates mmap GUEST_FLAT_SIZE [GUEST_FLAT_SIZE; GUEST_FLAT_MIN_SIZE] GUEST_FLAT_ALIGN in
  {| gs_flat_size := flat_size; gs_valid := bool_decide (is_Some flat_base); gs_materialised := ∅;
     gs_materialisations := 0; gs_high_pages := ∅; gs_frames := ∅ |}.

Definition in_window (s : GuestMemoryStore) (page_base : Z) : bool := gs_valid s && (page_base <? gs_flat_size s).

(** The page number stands for the word and the bit. *)
Definition flat_page_bit (s : GuestMemoryStore) (page_base : Z) : option Z :=
  if negb (gs_valid s) || (gs_flat_size s <=? page_base) || negb (is_multiple_of page_base 4096) then None
  else Some (page_base / MEMORY_PAGE_SIZE).

Definition zero_frame : list Z := replicate (Z.to_nat MEMORY_PAGE_SIZE) 0.

(** Zeroes the page of the window, or a new frame above it. *)
Definition materialise_page (page_base : Z) (s : GuestMemoryStore) : GuestMemoryStore :=
  let s := gs_set_frames (<[page_base := zero_frame]> (gs_frames s)) s in
  gs_count
    (if in_window s page_base then
       match flat_page_bit s page_base with
       | Some bit => gs_set_materialised ({[bit]} ∪ gs_materialised s) s
       | None => s
       end
     else gs_set_high ({[page_base]} ∪ gs_high_pages s) s).

Definition release_page (page_base : Z) (s : GuestMemoryStore) : GuestMemoryStore :=
  if in_window s page_base then
    match flat_page_bit s page_base with
    | Some bit => gs_set_materialised (gs_materialised s ∖ {[bit]}) s
    | None => s
    end
  else gs_set_frames (delete page_base (gs_frames s)) (gs_set_high (gs_high_pages s ∖ {[page_base]}) s).

Definition materialised_page_count (s : GuestMemoryStore) : Z :=
  Z.of_nat (size (gs_materialised s)) + Z.of_nat (size (gs_high_pages s)).

(** ** The page directory

    The arrays are maps with [PAGE_DIRECTORY_MISSING] for what is absent. *)

Record PageDirectory := { pd_chunks : Z; pd_top : gmap Z Z; pd_tables : list (gmap Z Z) }.
Definition entry_of (m : gmap Z Z) (i : Z) : Z := default PAGE_DIRECTORY_MISSING (m !! i).

Definition new_directory (window_size : Z) : PageDirectory :=
  let pages := div_ceil window_size MEMORY_PAGE_SIZE in
  {| pd_chunks := div_ceil pages PAGE_DIRECTORY_CHUNK_ENTRIES; pd_top := ∅; pd_tables := [] |}.

Definition chunk_of (d : PageDirectory) (page_base : Z) : option (Z * Z) :=
  let page := Z.shiftr page_base MEMORY_PAGE_SHIFT in
  let chunk := Z.shiftr page (PAGE_DIRECTORY_CHUNK_SHIFT - MEMORY_PAGE_SHIFT) in
  if pd_chunks d <=? chunk then None
  else Some (chunk, Z.land page (PAGE_DIRECTORY_CHUNK_ENTRIES - 1)).
Definition covers (d : PageDirectory) (page_base : Z) : bool := bool_decide (is_Some (chunk_of d page_base)).

Definition directory_get (d : PageDirectory) (page_base : Z) : option Z :=
  '(chunk, entry) ← chunk_of d page_base;
  let table_index := entry_of (pd_top d) chunk in
  if table_index =? PAGE_DIRECTORY_MISSING then None
  else
    table ← pd_tables d !! Z.to_nat table_index;
    let index := entry_of table entry in
    if index =? PAGE_DIRECTORY_MISSING then None else Some index.

Definition set_table (i : nat) (entry index : Z) (d : PageDirectory) : PageDirectory :=
  {| pd_chunks := pd_chunks d; pd_top := pd_top d; pd_tables := alter <[entry := index]> i (pd_tables d) |}.
Definition add_table (chunk : Z) (d : PageDirectory) : PageDirectory :=
  {| pd_chunks := pd_chunks d; pd_top := <[chunk := as_u32 (Z.of_nat (length (pd_tables d)))]> (pd_top d);
     pd_tables := pd_tables d ++ [∅] |}.

(** [None] is the failed [expect] of a page outside the window. *)
Definition directory_insert (page_base index : Z) (d : PageDirectory) : option PageDirectory :=
  '(chunk, entry) ← chunk_of d page_base;
  let d := if entry_of (pd_top d) chunk =? PAGE_DIRECTORY_MISSING then add_table chunk d else d in
  let table_index := Z.to_nat (entry_of (pd_top d) chunk) in
  _ ← pd_tables d !! table_index;
  Some (set_table table_index entry (as_u32 index) d).

Definition directory_remove (page_base : Z) (d : PageDirectory) : PageDirectory :=
  match chunk_of d page_base with
  | Some (chunk, entry) => set_table (Z.to_nat (entry_of (pd_top d) chunk)) entry PAGE_DIRECTORY_MISSING d
  | None => d
  end.

(** ** The image *)

Record MemoryImage := {
  mi_pages : list (Z * MemoryPage);
  mi_high_page_lookup : gmap Z Z;
  mi_page_directory : PageDirectory;
  mi_store : GuestMemoryStore }.
Definition mi_set_pages (p : list (Z * MemoryPage)) (m : MemoryImage) : MemoryImage :=
  {| mi_pages := p; mi_high_page_lookup := mi_high_page_lookup m;
     mi_page_directory := mi_page_directory m; mi_store := mi_store m |}.
Definition mi_set_high (h : gmap Z Z) (m : MemoryImage) : MemoryImage :=
  {| mi_pages := mi_pages m; mi_high_page_lookup := h;
     mi_page_directory := mi_page_directory m; mi_store := mi_store m |}.
Definition mi_set_directory (d : PageDirectory) (m : MemoryImage) : MemoryImage :=
  {| mi_pages := mi_pages m; mi_high_page_lookup := mi_high_page_lookup m;
     mi_page_directory := d; mi_store := mi_store m |}.
Definition mi_set_store (s : GuestMemoryStore) (m : MemoryImage) : MemoryImage :=
  {| mi_pages := mi_pages m; mi_high_page_lookup := mi_high_page_lookup m;
     mi_page_directory := mi_page_directory m; mi_store := s |}.

Record GuestMemoryFault := { gf_address : Z; gf_write : bool; gf_read_len : Z }.

(** [MemoryImage::default] *)
Definition new_image (mmap : Z → option Z) : MemoryImage :=
  let store := new_store mmap in
  {| mi_pages := []; mi_high_page_lookup := ∅; mi_page_directory := new_directory (gs_flat_size store);
     mi_store := store |}.

Definition page_lookup_index (m : MemoryImage) (page_base : Z) : option Z :=
  index ← (if covers (mi_page_directory m) page_base then directory_get (mi_page_directory m) page_base
           else mi_high_page_lookup m !! page_base);
  '(mapped_base, _) ← mi_pages m !! Z.to_nat index;
  if mapped_base =? page_base then Some index else None.
Definition page_index (m : MemoryImage) (page_base : Z) : option Z := page_lookup_index m page_base.
Definition page (m : MemoryImage) (page_base : Z) : option MemoryPage :=
  i ← page_index m page_base; snd <$> mi_pages m !! Z.to_nat i.

Definition record_page_index (page_base index : Z) : M MemoryImage unit :=
  m <- gets id ;;
  if covers (mi_page_directory m) page_base
  then d <- expect (directory_insert page_base index (mi_page_directory m)) ;; modify (mi_set_directory d)
  else modify (λ m, mi_set_high (<[page_base := index]> (mi_high_page_lookup m)) m).

Definition page_mut_or_insert (page_base : Z) : M MemoryImage Z :=
  m <- gets id ;;
  match page_index m page_base with
  | Some index => ret index
  | None =>
      modify (λ m, mi_set_store (materialise_page page_base (mi_store m)) m) ;;;
      let index := Z.of_nat (length (mi_pages m)) in
      modify (λ m, mi_set_pages (mi_pages m ++ [(page_base, new_page page_base)]) m) ;;;
      record_page_index page_base index ;;;
      ret index
  end.

(** [page.bytes] *)
Definition frame_bytes (m : MemoryImage) (frame : Z) : list Z := default zero_frame (gs_frames (mi_store m) !! frame).
Definition page_bytes (m : MemoryImage) (p : MemoryPage) : list Z := frame_bytes m (mp_frame p).
Definition set_frame (frame : Z) (bytes : list Z) (m : MemoryImage) : MemoryImage :=
  mi_set_store (gs_set_frames (<[frame := bytes]> (gs_frames (mi_store m))) (mi_store m)) m.

(** [self.pages[index].1] *)
Definition page_at (index : Z) : M MemoryImage MemoryPage :=
  m <- gets id ;; expect (snd <$> mi_pages m !! Z.to_nat index).
(** [page.bytes[start..start + data.len()].copy_from_slice(data)] *)
Definition store_bytes (index start : Z) (data : list Z) : M MemoryImage unit :=
  p <- page_at index ;;
  m <- gets id ;;
  bytes <- expect (splice start data (page_bytes m p)) ;;
  modify (set_frame (mp_frame p) bytes).
Definition update_page (index : Z) (f : MemoryPage → MemoryPage) : M MemoryImage unit :=
  modify (λ m, mi_set_pages (alter (λ e, (e.1, f e.2)) (Z.to_nat index) (mi_pages m)) m).

(** ** The chunks of a range

    [while done < len { .. }]: each turn handles the part of the range in one page.
    The body gets the current address, the base of its page, the offset in it, the
    length of the chunk and the number of bytes done; an [Err] of the body is an
    early return, and what the turns return is joined. *)

Fixpoint chunk_loop {S} (fuel : nat) (body : Z → Z → Z → Z → Z → M S (list Z)) (current done len : Z) : M S (list Z) :=
  if done <? len then
    match fuel with
    | O => panic
    | Datatypes.S fuel =>
        let page_base := Z.land current MEMORY_PAGE_MASK in
        let page_offset := current - page_base in
        let chunk_len := Z.min (MEMORY_PAGE_SIZE - page_offset) (len - done) in
        part <- body current page_base page_offset chunk_len done ;;
        rest <- chunk_loop fuel body (wrapping_add64 current chunk_len) (done + chunk_len) len ;;
        ret (part ++ rest)
    end
  else ret [].
Definition for_chunks {S} (body : Z → Z → Z → Z → Z → M S (list Z)) (address len : Z) : M S (list Z) :=
  chunk_loop (Z.to_nat (len / MEMORY_PAGE_SIZE + 2)) body address 0 len.
(** A loop for its effects. *)
Definition each_chunk {S} (body : Z → Z → Z → Z → Z → M S unit) (address len : Z) : M S unit :=
  for_chunks (λ c b o n d, body c b o n d ;;; ret []) address len ;;; ret tt.

(** ** Mapping *)

Definition map_bytes (address : Z) (bytes : list Z) : M MemoryImage unit :=
  each_chunk (λ _ page_base page_offset chunk_len done,
    index <- page_mut_or_insert page_base ;;
    store_bytes index page_offset (take (Z.to_nat chunk_len) (drop (Z.to_nat done) bytes)) ;;;
    update_page index (mark_mapped_range page_offset chunk_len))
    address (Z.of_nat (length bytes)).

Definition map_zeroed_if_unmapped (address len : Z) : M MemoryImage unit :=
  each_chunk (λ _ page_base page_offset chunk_len _,
    index <- page_mut_or_insert page_base ;;
    for_each (seqZ page_offset chunk_len) (λ offset,
      p <- page_at index ;;
      if negb (is_mapped p offset) then store_bytes index offset [0] else ret tt) ;;;
    update_page index (mark_mapped_range page_offset chunk_len))
    address len.

Definition commit_zeroed_pages (address len : Z) : M MemoryImage unit :=
  each_chunk (λ _ page_base _ _ _,
    index <- page_mut_or_insert page_base ;;
    p <- page_at index ;;
    if negb (mp_fully_mapped p) then update_page index mark_fully_mapped else ret tt)
    address len.

(** The range ends at [address.saturating_add(len)]. *)
Definition zero_range (address len : Z) : M MemoryImage unit :=
  if len =? 0 then ret tt
  else
    let end_ := saturating_add u64_max address len in
    each_chunk (λ _ page_base page_offset chunk_len _,
      index <- page_mut_or_insert page_base ;;
      store_bytes index page_offset (replicate (Z.to_nat chunk_len) 0) ;;;
      update_page index (mark_mapped_range page_offset chunk_len))
      address (end_ - address).

Definition unmap_page (page_base : Z) : M MemoryImage unit :=
  m <- gets id ;;
  match page_index m page_base with
  | None => ret tt
  | Some index =>
      '((removed_base, _), pages) <- expect (swap_remove (Z.to_nat index) (mi_pages m)) ;;
      modify (mi_set_pages pages) ;;;
      modify (λ m, mi_set_store (release_page removed_base (mi_store m)) m) ;;;
      (if covers (mi_page_directory m) removed_base
       then modify (λ m, mi_set_directory (directory_remove removed_base (mi_page_directory m)) m)
       else modify (λ m, mi_set_high (delete removed_base (mi_high_page_lookup m)) m)) ;;;
      match pages !! Z.to_nat index with
      | Some (moved_base, _) => record_page_index moved_base index
      | None => ret tt
      end
  end.

Fixpoint unmap_loop (fuel : nat) (page_base end_page : Z) : M MemoryImage unit :=
  match fuel with
  | O => panic
  | S fuel =>
      unmap_page page_base ;;;
      if page_base =? end_page then ret tt
      else match checked_add u64_max page_base MEMORY_PAGE_SIZE with
           | None => ret tt
           | Some next => unmap_loop fuel next end_page
           end
  end.
Definition unmap_range (address len : Z) : M MemoryImage unit :=
  if len =? 0 then ret tt
  else
    let start_page := Z.land address MEMORY_PAGE_MASK in
    let end_ := wrapping_add64 address len in
    let end_page := if end_ =? 0 then MEMORY_PAGE_MASK else Z.land (end_ - 1) MEMORY_PAGE_MASK in
    let last := if start_page <=? end_page then end_page else MEMORY_PAGE_MASK in
    unmap_loop (Z.to_nat ((last - start_page) / MEMORY_PAGE_SIZE + 1)) start_page end_page.

(** ** Checked accesses

    [vm] is the virtual memory attached, if any. *)

Definition check_canonical_access (vm : option VirtualMemory) (address : Z) (write execute : bool) : M MemoryImage unit :=
  match vm with
  | Some vm =>
      match check_access vm address write execute with
      | Some fault => throw (unmapped_memory_error (vf_address fault))
      | None => ret tt
      end
  | None => ret tt
  end.

(** The early return of an address is the [Err] of the loop. *)
Definition first_unmapped_in_range (address len : Z) : M MemoryImage (option Z) := λ m,
  if len =? 0 then Done (Ok None) m
  else
    match each_chunk (λ current page_base page_offset chunk_len _,
      m <- gets id ;;
      match page m page_base with
      | None => throw current
      | Some p =>
          if range_is_mapped p page_offset chunk_len then ret tt
          else missing <- expect (first_unmapped_offset p page_offset chunk_len) ;; throw (page_base + missing)
      end) address len m with
    | Done (Ok _) m => Done (Ok None) m
    | Done (Err missing) m => Done (Ok (Some missing)) m
    | Panic => Panic
    end.

Definition read_into (vm : option VirtualMemory) (address len : Z) : M MemoryImage (list Z) :=
  if len =? 0 then ret []
  else
    for_chunks (λ current page_base page_offset chunk_len _,
      check_canonical_access vm current false false ;;;
      m <- gets id ;;
      p <- ok_or (page m page_base) (unmapped_memory_error current) ;;
      if negb (range_is_mapped p page_offset chunk_len)
      then missing <- expect (first_unmapped_offset p page_offset chunk_len) ;;
           throw (unmapped_memory_error (page_base + missing))
      else expect (slice page_offset chunk_len (page_bytes m p)))
      address len.

Definition fault_of (address : Z) (write : bool) (len : Z) : GuestMemoryFault :=
  {| gf_address := address; gf_write := write; gf_read_len := len |}.

Definition guest_read_checked (vm : option VirtualMemory) (address len : Z) : M MemoryImage (list Z + GuestMemoryFault) :=
  match (vm ← vm; check_access vm address false false) with
  | Some fault => ret (inr (fault_of (vf_address fault) false len))
  | None =>
      missing <- first_unmapped_in_range address len ;;
      match missing with
      | Some fault_address => ret (inr (fault_of fault_address false len))
      | None => λ m,
          match read_into vm address len m with
          | Done (Ok bytes) m => Done (Ok (inl bytes)) m
          | Done (Err _) _ | Panic => Panic   (** [expect("validated range must be readable")] *)
          end
      end
  end.

Definition write_validated (address : Z) (buf : list Z) : M MemoryImage unit :=
  each_chunk (λ _ page_base page_offset chunk_len copied,
    m <- gets id ;;
    index <- expect (page_index m page_base) ;;
    store_bytes index page_offset (take (Z.to_nat chunk_len) (drop (Z.to_nat copied) buf)))
    address (Z.of_nat (length buf)).

Definition guest_write_checked (vm : option VirtualMemory) (address : Z) (buf : list Z)
  : M MemoryImage (unit + GuestMemoryFault) :=
  let len := Z.of_nat (length buf) in
  match (vm ← vm; check_access vm address true false) with
  | Some fault => ret (inr (fault_of (vf_address fault) true len))
  | None =>
      missing <- first_unmapped_in_range address len ;;
      match missing with
      | Some fault_address => ret (inr (fault_of fault_address true len))
      | None => write_validated address buf ;;; ret (inl tt)
      end
  end.

Definition is_range_mapped (address len : Z) : M MemoryImage bool := λ m,
  if len =? 0 then Done (Ok true) m
  else
    match each_chunk (λ _ page_base page_offset chunk_len _,
      m <- gets id ;;
      match page m page_base with
      | None => throw 0
      | Some p => if negb (range_is_mapped p page_offset chunk_len) then throw 0 else ret tt
      end) address len m with
    | Done (Ok _) m => Done (Ok true) m
    | Done (Err _) m => Done (Ok false) m
    | Panic => Panic
    end.

Definition read_bytes (vm : option VirtualMemory) (address len : Z) : M MemoryImage (list Z) :=
  if len =? 0 then ret [] else capacity len ;;; read_into vm address len.

(** ** Integers *)

Definition read_u8 (vm : option VirtualMemory) (address : Z) : M MemoryImage Z :=
  check_canonical_access vm address false false ;;;
  let page_base := Z.land address MEMORY_PAGE_MASK in
  let page_offset := address - page_base in
  m <- gets id ;;
  p <- ok_or (page m page_base) (unmapped_memory_error address) ;;
  fail_if (negb (is_mapped p page_offset)) (unmapped_memory_error address) ;;;
  expect (page_bytes m p !! Z.to_nat page_offset).

(** [read_u16], [read_u32] and [read_u64] for [n] of 2, 4 and 8: in one page at once,
    across pages by [read_fixed].  The second lookup of the source after a failed
    first one fails as well. *)
Definition read_int (n : Z) (vm : option VirtualMemory) (address : Z) : M MemoryImage Z :=
  check_canonical_access vm address false false ;;;
  let page_base := Z.land address MEMORY_PAGE_MASK in
  let page_offset := address - page_base in
  m <- gets id ;;
  let across := bytes <- read_into vm address n ;; ret (from_le_bytes bytes) in
  if page_offset + n <=? MEMORY_PAGE_SIZE then
    match page m page_base with
    | Some p =>
        if range_is_mapped p page_offset n
        then bytes <- expect (slice page_offset n (page_bytes m p)) ;; ret (from_le_bytes bytes)
        else missing <- expect (first_unmapped_offset p page_offset n) ;;
             throw (unmapped_memory_error (page_base + missing))
    | None => across
    end
  else across.
Definition read_u16 := read_int 2.
Definition read_u32 := read_int 4.
Definition read_u64 := read_int 8.

Definition write_fixed (address : Z) (bytes : list Z) : M MemoryImage unit :=
  let page_base := Z.land address MEMORY_PAGE_MASK in
  let page_offset := address - page_base in
  let n := Z.of_nat (length bytes) in
  if page_offset + n <=? MEMORY_PAGE_SIZE then
    m <- gets id ;;
    match page_index m page_base with
    | Some index => store_bytes index page_offset bytes ;;; update_page index (mark_mapped_range page_offset n)
    | None =>
        index <- page_mut_or_insert page_base ;;
        store_bytes index page_offset bytes ;;; update_page index (mark_mapped_range page_offset n)
    end
  else map_bytes address bytes.
Definition write_u8 (address value : Z) : M MemoryImage unit := write_fixed address [value].
Definition write_u16 (address value : Z) : M MemoryImage unit := write_fixed address (u16_le value).
Definition write_u32 (address value : Z) : M MemoryImage unit := write_fixed address (u32_le value).
Definition write_u64 (address value : Z) : M MemoryImage unit := write_fixed address (u64_le value).
Definition map_u64 (address value : Z) : M MemoryImage unit := write_u64 address value.

Definition read_memory_value (vm : option VirtualMemory) (address width : Z) : M MemoryImage Z :=
  if width =? 1 then read_u8 vm address
  else if width =? 2 then read_u16 vm address
  else if width =? 4 then read_u32 vm address
  else if width =? 8 then read_u64 vm address
  else throw (unsupported_width width).

Definition write_guest_bytes (vm : option VirtualMemory) (address : Z) (bytes : list Z) : M MemoryImage unit :=
  r <- guest_write_checked vm address bytes ;;
  match r with
  | inl _ => ret tt
  | inr fault => throw (unmapped_memory_error (gf_address fault))
  end.

Definition write_memory_value (vm : option VirtualMemory) (address value width : Z) : M MemoryImage unit :=
  bytes <- (if width =? 1 then ret (to_le_bytes 1 (as_u8 value))
            else if width =? 2 then ret (to_le_bytes 2 (as_u16 value))
            else if width =? 4 then ret (to_le_bytes 4 (as_u32 value))
            else if width =? 8 then ret (to_le_bytes 8 value)
            else throw (unsupported_width width)) ;;
  write_guest_bytes vm address bytes.

(** ** Vectors *)

(** [address + k] panics beyond a [u64]. *)
Definition read_xmm (vm : option VirtualMemory) (address : Z) : M MemoryImage XmmValue :=
  low <- read_u64 vm address ;; next <- add_at u64_max address 8 ;; high <- read_u64 vm next ;;
  ret {| xmm_low := low; xmm_high := high |}.
Definition read_ymm (vm : option VirtualMemory) (address : Z) : M MemoryImage YmmValue :=
  low <- read_xmm vm address ;; next <- add_at u64_max address 16 ;; high <- read_xmm vm next ;;
  ret {| ymm_low := low; ymm_high := high |}.
Definition read_zmm (vm : option VirtualMemory) (address : Z) : M MemoryImage ZmmValue :=
  low <- read_ymm vm address ;; next <- add_at u64_max address 32 ;; high <- read_ymm vm next ;;
  ret {| zmm_low := low; zmm_high := high |}.

(** [cpu/simd.rs] *)
Definition xmm_to_bytes (v : XmmValue) : list Z := u64_le (xmm_low v) ++ u64_le (xmm_high v).
Definition ymm_to_bytes (v : YmmValue) : list Z := xmm_to_bytes (ymm_low v) ++ xmm_to_bytes (ymm_high v).
Definition zmm_to_bytes (v : ZmmValue) : list Z := ymm_to_bytes (zmm_low v) ++ ymm_to_bytes (zmm_high v).
Definition map_xmm (address : Z) (v : XmmValue) : M MemoryImage unit := map_bytes address (xmm_to_bytes v).
Definition map_ymm (address : Z) (v : YmmValue) : M MemoryImage unit := map_bytes address (ymm_to_bytes v).
Definition map_zmm (address : Z) (v : ZmmValue) : M MemoryImage unit := map_bytes address (zmm_to_bytes v).

(** ** Interlocked accesses *)

(** A store of four bytes through the raw pointer of a frame.  Past the end of the
    frame it reaches the next page of the window, when both are in it; elsewhere it
    is outside the allocation, and its effect is undefined. *)
Definition raw_store (frame offset : Z) (data : list Z) : M MemoryImage unit := λ m,
  let inside := Z.to_nat (MEMORY_PAGE_SIZE - offset) in
  let next := frame + MEMORY_PAGE_SIZE in
  if offset + Z.of_nat (length data) <=? MEMORY_PAGE_SIZE then
    match splice offset data (frame_bytes m frame) with
    | Some bytes => Done (Ok tt) (set_frame frame bytes m)
    | None => Panic
    end
  else if in_window (mi_store m) frame && in_window (mi_store m) next then
    match splice offset (take inside data) (frame_bytes m frame), splice 0 (drop inside data) (frame_bytes m next) with
    | Some bytes, Some bytes' => Done (Ok tt) (set_frame next bytes' (set_frame frame bytes m))
    | _, _ => Panic
    end
  else Panic.

Definition unaligned_interlocked (vm : option VirtualMemory) (address : Z) (op : Z → Z) : M MemoryImage Z :=
  previous <- read_u32 vm address ;;
  let page_base := Z.land address MEMORY_PAGE_MASK in
  let page_offset := address - page_base in
  m <- gets id ;;
  index <- expect (page_index m page_base) ;;
  p <- page_at index ;;
  raw_store (mp_frame p) page_offset (u32_le (op previous)) ;;;
  ret previous.

(** The word an atomic operation works on: its frame and offset. *)
Definition atomic_u32_at (vm : option VirtualMemory) (address : Z) : M MemoryImage (Z * Z) :=
  check_canonical_access vm address false false ;;;
  let page_base := Z.land address MEMORY_PAGE_MASK in
  let page_offset := address - page_base in
  fail_if (negb (is_multiple_of page_offset 4) || (MEMORY_PAGE_SIZE <? page_offset + 4)) (unmapped_memory_error address) ;;;
  m <- gets id ;;
  p <- ok_or (page m page_base) (unmapped_memory_error address) ;;
  fail_if (negb (range_is_mapped p page_offset 4)) (unmapped_memory_error address) ;;;
  ret (mp_frame p, page_offset).

(** [swap], [compare_exchange], [fetch_add] and [fetch_sub]: one indivisible step. *)
Definition atomic_update (vm : option VirtualMemory) (address : Z) (op : Z → Z) : M MemoryImage Z :=
  '(frame, offset) <- atomic_u32_at vm address ;;
  m <- gets id ;;
  old <- expect (slice offset 4 (frame_bytes m frame)) ;;
  let previous := from_le_bytes old in
  bytes <- expect (splice offset (u32_le (op previous)) (frame_bytes m frame)) ;;
  modify (set_frame frame bytes) ;;;
  ret previous.

Definition interlocked (vm : option VirtualMemory) (address : Z) (op : Z → Z) : M MemoryImage Z :=
  if negb (is_multiple_of address 4) then unaligned_interlocked vm address op else atomic_update vm address op.

Definition wrap32 (x : Z) : Z := x mod 2 ^ 32.
Definition interlocked_exchange_u32 (vm : option VirtualMemory) (address value : Z) : M MemoryImage Z :=
  interlocked vm address (λ _, value).
Definition interlocked_compare_exchange_u32 (vm : option VirtualMemory) (address exchange comparand : Z) : M MemoryImage Z :=
  interlocked vm address (λ current, if current =? comparand then exchange else current).
Definition interlocked_exchange_add_u32 (vm : option VirtualMemory) (address addend : Z) : M MemoryImage Z :=
  interlocked vm address (λ current, wrap32 (current + addend)).
(** Aligned, these two answer the new value; unaligned, the previous one. *)
Definition interlocked_increment_u32 (vm : option VirtualMemory) (address : Z) : M MemoryImage Z :=
  if negb (is_multiple_of address 4) then unaligned_interlocked vm address (λ current, wrap32 (current + 1))
  else previous <- atomic_update vm address (λ current, wrap32 (current + 1)) ;; ret (wrap32 (previous + 1)).
Definition interlocked_decrement_u32 (vm : option VirtualMemory) (address : Z) : M MemoryImage Z :=
  if negb (is_multiple_of address 4) then unaligned_interlocked vm address (λ current, wrap32 (current - 1))
  else previous <- atomic_update vm address (λ current, wrap32 (current - 1)) ;; ret (wrap32 (previous - 1)).

(** ** Copies and comparisons *)

Definition page_is_fully_mapped (m : MemoryImage) (page_base : Z) : bool :=
  match page m page_base with Some p => mp_fully_mapped p | None => false end.
Definition page_exists (m : MemoryImage) (page_base : Z) : bool := bool_decide (is_Some (page m page_base)).
Definition page_byte_is_mapped (m : MemoryImage) (page_base offset : Z) : bool :=
  match page m page_base with
  | Some p => (offset <? MEMORY_PAGE_SIZE) && is_mapped p offset
  | None => false
  end.
Definition committed_page_addresses (m : MemoryImage) : list Z := (mi_pages m).*1.

(** The page, or nothing when it is not there or not all of it is mapped. *)
Definition read_page_signal_safe (m : MemoryImage) (page_base : Z) : option (list Z) :=
  p ← page m page_base; if range_is_mapped p 0 4096 then Some (page_bytes m p) else None.
Definition copy_page_to_raw (m : MemoryImage) (page_base : Z) : option (list Z) :=
  p ← page m page_base; if mp_fully_mapped p then Some (page_bytes m p) else None.

(** [MemoryPage::eq], bytes of two images. *)
Definition page_eqb (m m' : MemoryImage) (p p' : MemoryPage) : bool :=
  bool_decide (mp_mapped p = mp_mapped p') && eqb (mp_fully_mapped p) (mp_fully_mapped p')
  && bool_decide (page_bytes m p = page_bytes m' p').
Definition image_eqb (m m' : MemoryImage) : bool :=
  (length (mi_pages m) =? length (mi_pages m'))%nat
  && forallb (λ '(page_base, p), match page m' page_base with Some p' => page_eqb m m' p p' | None => false end)
       (mi_pages m).

(** [MemoryImage::clone]: every page is copied into a store of its own. *)
Definition snapshot (source : MemoryImage) (page_base : Z) (p : MemoryPage) : M GuestMemoryStore MemoryPage :=
  modify (materialise_page page_base) ;;;
  modify (λ s, gs_set_frames (<[page_base := page_bytes source p]> (gs_frames s)) s) ;;;
  ret {| mp_frame := page_base; mp_mapped := mp_mapped p; mp_fully_mapped := mp_fully_mapped p |}.
Fixpoint index_pages (pages : list (Z * MemoryPage)) (index : Z) : M MemoryImage unit :=
  match pages with
  | [] => ret tt
  | (page_base, _) :: pages => record_page_index page_base index ;;; index_pages pages (index + 1)
  end.
Definition clone_image (mmap : Z → option Z) (source : MemoryImage) : option MemoryImage :=
  match map_each (mi_pages source) (λ '(page_base, p), p' <- snapshot source page_base p ;; ret (page_base, p')) (new_store mmap) with
  | Done (Ok pages) store =>
      let blank := {| mi_pages := pages; mi_high_page_lookup := ∅;
                      mi_page_directory := new_directory (gs_flat_size store); mi_store := store |} in
      match index_pages pages 0 blank with
      | Done (Ok _) m => Some m
      | _ => None
      end
  | _ => None
  end.

(** What [stable_hash] feeds the hasher: for each page in order of base, each mapped
    byte with its address.  The digest itself is not code of the repository. *)
Fixpoint set_bits (fuel : nat) (remaining : Z) : list Z :=
  match fuel with
  | O => []
  | S fuel =>
      if remaining =? 0 then []
      else trailing_zeros remaining :: set_bits fuel (Z.land remaining (remaining - 1))
  end.
Definition page_stream (m : MemoryImage) (page_base : Z) (p : MemoryPage) : list (Z * Z) :=
  concat (imap (λ word_index w,
    map (λ bit_index, let offset := Z.of_nat word_index * 64 + bit_index in
                      (page_base + offset, page_bytes m p !!! Z.to_nat offset))
      (set_bits 64 w)) (mp_mapped p)).
Definition page_le (x y : Z * MemoryPage) : Prop := x.1 ≤ y.1.
#[export] Instance page_le_dec x y : Decision (page_le x y).
Proof. unfold page_le. apply _. Defined.
Definition hash_stream (m : MemoryImage) : list (Z * Z) :=
  concat (map (λ '(page_base, p), page_stream m page_base p) (merge_sort page_le (mi_pages m))).
Definition stable_hash (sha256_hex : list Z → str) (m : MemoryImage) : str :=
  sha256_hex (concat (map (λ '(address, byte), u64_le address ++ [byte]) (hash_stream m))).

(** ** Addresses *)

Record MemoryOperand := {
  mo_base : option Register; mo_index : option Register; mo_scale : Z; mo_displacement : Z;
  mo_rip_relative : bool; mo_rip_base : Z; mo_segment : option SegmentRegister;
  mo_address_size_32 : bool; mo_absolute_address : option Z }.

(** [x as u32 as u64] of any integer, and [x as i64 as u64] of an [i32]. *)
Definition low32 (x : Z) : Z := x mod 2 ^ 32.
Definition sign_extend (x : Z) : Z := x mod 2 ^ 64.
Definition add_opt {A} (o : option A) (f : A → Z) (value : Z) : Z :=
  match o with Some a => wrapping_add64 value (f a) | None => value end.

Definition resolve_memory_operand (state : CpuState) (operand : MemoryOperand) : Z :=
  let segment_base_of g := segment_base state g in
  match mo_absolute_address operand with
  | Some abs_addr => add_opt (mo_segment operand) segment_base_of abs_addr
  | None =>
      if decide (cs_arch state = X86) then
        let value := low32 (mo_displacement operand) in
        let value := if mo_rip_relative operand then wrapping_add64 value (low32 (mo_rip_base operand)) else value in
        let value := add_opt (mo_segment operand) (λ g, low32 (segment_base_of g)) value in
        let value := add_opt (mo_base operand) (λ r, low32 (get state r)) value in
        let value := add_opt (mo_index operand) (λ r, wrap64 (low32 (get state r) * mo_scale operand)) value in
        Z.land value 0xffffffff
      else if mo_address_size_32 operand then
        let ea := low32 (mo_displacement operand) in
        let ea := if mo_rip_relative operand then wrapping_add64 ea (low32 (mo_rip_base operand)) else ea in
        let ea := add_opt (mo_base operand) (λ r, low32 (get state r)) ea in
        let ea := add_opt (mo_index operand) (λ r, wrap64 (low32 (get state r) * mo_scale operand)) ea in
        let ea := Z.land ea 0xffffffff in
        add_opt (mo_segment operand) segment_base_of ea
      else
        let value := sign_extend (mo_displacement operand) in
        let value := if mo_rip_relative operand then wrapping_add64 value (mo_rip_base operand) else value in
        let value := add_opt (mo_segment operand) segment_base_of value in
        let value := add_opt (mo_base operand) (λ r, get state r) value in
        add_opt (mo_index operand) (λ r, wrap64 (get state r * mo_scale operand)) value
  end.
