(* ===== verification/GuestMemoryFacts.v ===== *)
(** * Guest memory: the page directory, the image's invariant, its operations *)

From stdpp Require Import list_numbers.
From S2P Require Import Prelude Bytes Flags CpuState VirtualMemory Pages GuestPage GuestPageFacts GuestMemory.

Module Gm.
Import Gp.

#[local] Arguments zero_frame : simpl never.

(** ** The page directory is a map from pages to indices *)

Record directory_ok (d : PageDirectory) : Prop := {
  dr_chunks : 0 ≤ pd_chunks d < u32_max;
  dr_size : length (pd_tables d) = size (pd_top d);
  dr_top : ∀ c t, pd_top d !! c = Some t → 0 ≤ c < pd_chunks d ∧ 0 ≤ t < Z.of_nat (length (pd_tables d));
  dr_inj : ∀ c c' t, pd_top d !! c = Some t → pd_top d !! c' = Some t → c = c' }.

Definition page_address (x : Z) : Prop := aligned x ∧ 0 ≤ x < 2 ^ 64.

Lemma chunk_of_spec d b :
  page_address b →
  chunk_of d b = if decide (b < pd_chunks d * 2 ^ 21) then Some (b / 2 ^ 21, b / 4096 mod 512) else None.
Proof.
  intros [Hb Hr]. unfold chunk_of, MEMORY_PAGE_SHIFT, PAGE_DIRECTORY_CHUNK_SHIFT.
  change (PAGE_DIRECTORY_CHUNK_ENTRIES - 1) with (Z.ones 9).
  rewrite !Z.shiftr_div_pow2, Z.land_ones by lia.
  change (2 ^ 12) with 4096. change (2 ^ (21 - 12)) with 512. change (2 ^ 9) with 512. change (2 ^ 21) with 2097152.
  assert (b / 4096 / 512 = b / 2097152) as -> by (Z.div_mod_to_equations; lia).
  case_decide; [rewrite (proj2 (Z.leb_gt _ _)) by (Z.div_mod_to_equations; lia); done|].
  by rewrite (proj2 (Z.leb_le _ _)) by (Z.div_mod_to_equations; lia).
Qed.

Lemma covers_spec d b : page_address b → covers d b = bool_decide (b < pd_chunks d * 2 ^ 21).
Proof.
  intros Hb. unfold covers. rewrite chunk_of_spec by done.
  case_decide; [rewrite !bool_decide_true|rewrite !bool_decide_false]; naive_solver.
Qed.

Lemma chunk_of_inj b b' :
  aligned b → aligned b' → b / 2 ^ 21 = b' / 2 ^ 21 → b / 4096 mod 512 = b' / 4096 mod 512 → b = b'.
Proof. unfold aligned. change (2 ^ 21) with 2097152. intros. Z.div_mod_to_equations; lia. Qed.

Lemma tables_bound d : directory_ok d → Z.of_nat (length (pd_tables d)) ≤ pd_chunks d.
Proof.
  intros Hd. rewrite (dr_size d Hd). rewrite <-(size_dom (D := gset Z)).
  assert (dom (pd_top d) ⊆ (list_to_set (seqZ 0 (pd_chunks d)) : gset Z)) as Hsub.
  { intros c [t Hc]%elem_of_dom. apply elem_of_list_to_set, elem_of_seqZ. pose proof (dr_top d Hd c t Hc). lia. }
  apply subseteq_size in Hsub. rewrite size_list_to_set in Hsub by apply NoDup_seqZ.
  rewrite length_seqZ in Hsub. pose proof (dr_chunks d Hd). lia.
Qed.

Lemma entry_of_insert m i j v : entry_of (<[i := v]> m) j = if decide (i = j) then v else entry_of m j.
Proof. unfold entry_of. rewrite lookup_insert. by case_decide. Qed.

Definition slot (d : PageDirectory) (c e : Z) : option Z :=
  t ← pd_top d !! c; table ← pd_tables d !! Z.to_nat t;
  if entry_of table e =? PAGE_DIRECTORY_MISSING then None else Some (entry_of table e).

Lemma directory_get_slot d b :
  directory_ok d → page_address b →
  directory_get d b = if decide (b < pd_chunks d * 2 ^ 21) then slot d (b / 2 ^ 21) (b / 4096 mod 512) else None.
Proof.
  intros Hd Hb. unfold directory_get, slot. rewrite chunk_of_spec by done. case_decide; [|done]. cbn [mbind option_bind].
  destruct (pd_top d !! (b / 2 ^ 21)) as [t|] eqn:E; cbn [mbind option_bind].
  - assert (entry_of (pd_top d) (b / 2 ^ 21) = t) as -> by (unfold entry_of; by rewrite E).
    pose proof (dr_top d Hd _ _ E). pose proof (tables_bound d Hd). pose proof (dr_chunks d Hd).
    by rewrite (proj2 (Z.eqb_neq _ _)) by (unfold PAGE_DIRECTORY_MISSING; lia).
  - assert (entry_of (pd_top d) (b / 2 ^ 21) = PAGE_DIRECTORY_MISSING) as -> by (unfold entry_of; by rewrite E). done.
Qed.

(** Writing one slot of a table that is there. *)
Lemma set_table_ok t e v d : directory_ok d → directory_ok (set_table t e v d).
Proof.
  intros [H1 H2 H3 H4]. split; simpl; [done|by rewrite length_alter|intros c t'; rewrite length_alter; apply H3|done].
Qed.
Lemma slot_set_table d c e t v c' e' :
  directory_ok d → pd_top d !! c = Some t →
  slot (set_table (Z.to_nat t) e v d) c' e' =
  if decide (c' = c ∧ e' = e) then if v =? PAGE_DIRECTORY_MISSING then None else Some v else slot d c' e'.
Proof.
  intros Hd Hc. pose proof (dr_top d Hd _ _ Hc) as [_ Ht].
  assert (is_Some (pd_tables d !! Z.to_nat t)) as [table Htab] by (apply lookup_lt_is_Some; lia).
  unfold slot, set_table. cbn [pd_top pd_tables].
  destruct (decide (c' = c)) as [->|Hne].
  - rewrite Hc. cbn [mbind option_bind]. rewrite list_lookup_alter_eq, Htab. cbn [mbind option_bind fmap option_fmap option_map].
    rewrite entry_of_insert. destruct (decide (e = e')) as [->|].
    + by rewrite decide_True.
    + rewrite decide_False by naive_solver. done.
  - rewrite decide_False by naive_solver. destruct (pd_top d !! c') as [t'|] eqn:Hc'; [|done]. cbn [mbind option_bind].
    rewrite list_lookup_alter_ne; [done|]. intros E. apply Hne. pose proof (dr_top d Hd _ _ Hc') as [_ ?].
    apply (dr_inj d Hd _ _ t); [|done]. rewrite Hc'. f_equal. lia.
Qed.

Lemma add_table_ok d c :
  directory_ok d → 0 ≤ c < pd_chunks d → pd_top d !! c = None →
  directory_ok (add_table c d) ∧ pd_top (add_table c d) !! c = Some (Z.of_nat (length (pd_tables d))) ∧
  ∀ c' e, slot (add_table c d) c' e = slot d c' e.
Proof.
  intros Hd Hc Hn. pose proof (tables_bound d Hd) as Hb. destruct (dr_chunks d Hd).
  assert (as_u32 (Z.of_nat (length (pd_tables d))) = Z.of_nat (length (pd_tables d))) as Ea.
  { unfold as_u32. apply Z.mod_small. change (2 ^ 32) with (u32_max + 1). lia. }
  assert (pd_top (add_table c d) !! c = Some (Z.of_nat (length (pd_tables d)))) as Htop.
  { simpl. by rewrite lookup_insert_eq, Ea. }
  split_and!; [|done|].
  - split; simpl; rewrite ?Ea, ?length_app; simpl.
    + done.
    + rewrite map_size_insert_None by done. rewrite (dr_size d Hd). lia.
    + intros c' t. rewrite lookup_insert_Some. intros [[<- <-]|[_ H']]; [lia|].
      pose proof (dr_top d Hd _ _ H'). lia.
    + intros c' c'' t. rewrite !lookup_insert_Some.
      intros [[<- <-]|[_ H1]] [[<- E2]|[_ H2]]; [done| | |by eapply dr_inj];
        [pose proof (dr_top d Hd _ _ H2)|pose proof (dr_top d Hd _ _ H1)]; lia.
  - intros c' e. unfold slot. simpl. rewrite lookup_insert, Ea. case_decide as E.
    + subst. rewrite Hn. cbn [mbind option_bind]. rewrite Nat2Z.id, lookup_app_r, Nat.sub_diag by lia. cbn.
      unfold entry_of. rewrite lookup_empty. cbn. done.
    + destruct (pd_top d !! c') as [t|] eqn:Hc'; [|done]. cbn [mbind option_bind].
      pose proof (dr_top d Hd _ _ Hc'). rewrite lookup_app_l by lia. done.
Qed.

(** Recording a page in the window. *)
Lemma directory_insert_spec d b index :
  directory_ok d → page_address b → b < pd_chunks d * 2 ^ 21 → 0 ≤ index < u32_max →
  ∃ d', directory_insert b index d = Some d' ∧ directory_ok d' ∧ pd_chunks d' = pd_chunks d ∧
    ∀ b', page_address b' → directory_get d' b' = if decide (b' = b) then Some index else directory_get d b'.
Proof.
  intros Hd Hb Hcov Hi. unfold directory_insert. rewrite chunk_of_spec, decide_True by done. cbn [mbind option_bind].
  set (c := b / 2 ^ 21) in *. set (e := b / 4096 mod 512) in *.
  assert (0 ≤ c < pd_chunks d) as Hc.
  { destruct Hb as [_ Hb]. unfold c. change (2 ^ 21) with 2097152 in *. Z.div_mod_to_equations; lia. }
  assert (as_u32 index = index) as ->.
  { unfold as_u32. apply Z.mod_small. change (2 ^ 32) with (u32_max + 1). lia. }
  assert (∃ d1 t, (if entry_of (pd_top d) c =? PAGE_DIRECTORY_MISSING then add_table c d else d) = d1 ∧
    directory_ok d1 ∧ pd_chunks d1 = pd_chunks d ∧ pd_top d1 !! c = Some t ∧ ∀ c' e', slot d1 c' e' = slot d c' e')
    as (d1 & t & -> & Hd1 & Hch & Ht & Hslot).
  { unfold entry_of. destruct (pd_top d !! c) as [t|] eqn:E; cbn [from_option id default].
    - pose proof (dr_top d Hd _ _ E). pose proof (tables_bound d Hd). pose proof (dr_chunks d Hd).
      rewrite (proj2 (Z.eqb_neq _ _)) by (unfold PAGE_DIRECTORY_MISSING; lia). by exists d, t.
    - rewrite Z.eqb_refl. destruct (add_table_ok d c Hd Hc E) as (? & ? & ?). by do 2 eexists. }
  assert (entry_of (pd_top d1) c = t) as -> by (unfold entry_of; by rewrite Ht).
  pose proof (dr_top d1 Hd1 _ _ Ht) as [_ Htl].
  assert (is_Some (pd_tables d1 !! Z.to_nat t)) as [table Htab] by (apply lookup_lt_is_Some; lia).
  rewrite Htab. cbn [mbind option_bind]. eexists. split; [done|].
  split_and!; [by apply set_table_ok|done|]. intros b' Hb'.
  rewrite !directory_get_slot by (done || by apply set_table_ok). cbn [set_table pd_chunks]. rewrite Hch.
  rewrite (slot_set_table d1 c e t index) by done. rewrite Hslot.
  destruct (decide (b' = b)) as [->|Hne].
  - rewrite !decide_True by done. by rewrite (proj2 (Z.eqb_neq _ _)) by (unfold PAGE_DIRECTORY_MISSING; lia).
  - case_decide; [|done]. rewrite decide_False; [done|]. intros [Ec Ee]. apply Hne.
    apply chunk_of_inj; [apply Hb'|apply Hb|done|done].
Qed.

(** Forgetting one. *)
Lemma directory_remove_spec d b :
  directory_ok d → page_address b →
  directory_ok (directory_remove b d) ∧ pd_chunks (directory_remove b d) = pd_chunks d ∧
  ∀ b', page_address b' → directory_get (directory_remove b d) b' = if decide (b' = b) then None else directory_get d b'.
Proof.
  intros Hd Hb. unfold directory_remove. rewrite chunk_of_spec by done. case_decide as Hcov.
  2: { split_and!; [done|done|]. intros b' Hb'. case_decide; [|done]. subst.
       rewrite directory_get_slot by done. by rewrite decide_False. }
  set (c := b / 2 ^ 21). set (e := b / 4096 mod 512). split_and!; [by apply set_table_ok|done|]. intros b' Hb'.
  rewrite !directory_get_slot by (done || by apply set_table_ok). cbn [set_table pd_chunks].
  destruct (pd_top d !! c) as [t|] eqn:Ht.
  - assert (entry_of (pd_top d) c = t) as -> by (unfold entry_of; by rewrite Ht).
    rewrite (slot_set_table d c e t) by done. destruct (decide (b' = b)) as [->|Hne].
    + rewrite !decide_True by done. done.
    + case_decide; [|done]. rewrite decide_False; [done|]. intros [Ec Ee]. apply Hne.
      apply chunk_of_inj; [apply Hb'|apply Hb|done|done].
  - assert (entry_of (pd_top d) c = PAGE_DIRECTORY_MISSING) as -> by (unfold entry_of; by rewrite Ht).
    pose proof (tables_bound d Hd) as Hbd. pose proof (dr_chunks d Hd).
    assert (slot (set_table (Z.to_nat PAGE_DIRECTORY_MISSING) e PAGE_DIRECTORY_MISSING d) (b' / 2 ^ 21) (b' / 4096 mod 512)
      = slot d (b' / 2 ^ 21) (b' / 4096 mod 512)) as ->.
    { unfold slot, set_table. cbn [pd_top pd_tables]. destruct (pd_top d !! (b' / 2 ^ 21)) as [t'|] eqn:E'; [|done].
      cbn [mbind option_bind]. pose proof (dr_top d Hd _ _ E'). rewrite list_lookup_alter_ne; [done|].
      unfold PAGE_DIRECTORY_MISSING. lia. }
    case_decide; [|by case_decide]. destruct (decide (b' = b)) as [->|]; [|done].
    unfold slot. fold c. by rewrite Ht.
Qed.

(** ** The image *)

Definition byte (x : Z) : Prop := 0 ≤ x < 256.

(** A frame has the bytes of a page, zero where the page is not mapped. *)
Record frame_ok (bytes : list Z) (p : MemoryPage) : Prop := {
  fr_length : length bytes = 4096%nat;
  fr_bytes : Forall byte bytes;
  fr_zero : ∀ o, 0 ≤ o < 4096 → is_mapped p o = false → bytes !! Z.to_nat o = Some 0 }.

(** The index recorded for a page, checked or not. *)
Definition raw_index (m : MemoryImage) (b : Z) : option Z :=
  if covers (mi_page_directory m) b then directory_get (mi_page_directory m) b else mi_high_page_lookup m !! b.

(** The page table, its index and the store agree. *)
Record image_ok (m : MemoryImage) : Prop := {
  io_pages : ∀ i b p, mi_pages m !! i = Some (b, p) → page_address b ∧ mp_frame p = b ∧ page_ok p;
  io_frames : ∀ i b p, mi_pages m !! i = Some (b, p) → frame_ok (frame_bytes m b) p;
  io_present : ∀ i b p, mi_pages m !! i = Some (b, p) → is_Some (gs_frames (mi_store m) !! b);
  io_index : ∀ i b p, mi_pages m !! i = Some (b, p) → raw_index m b = Some (Z.of_nat i);
  io_directory : directory_ok (mi_page_directory m);
  io_window : gs_flat_size (mi_store m) = pd_chunks (mi_page_directory m) * 2 ^ 21;
  io_count : Z.of_nat (length (mi_pages m)) ≤ u32_max;
  io_flat : ∀ n, n ∈ gs_materialised (mi_store m) ↔
    ∃ b, b ∈ (mi_pages m).*1 ∧ in_window (mi_store m) b = true ∧ n = b / 4096;
  io_high : ∀ b, b ∈ gs_high_pages (mi_store m) ↔ b ∈ (mi_pages m).*1 ∧ in_window (mi_store m) b = false }.

Lemma page_index_raw m b :
  page_index m b = (i ← raw_index m b; '(b', _) ← mi_pages m !! Z.to_nat i; if b' =? b then Some i else None).
Proof. done. Qed.

Lemma page_index_lookup m i b p :
  image_ok m → mi_pages m !! i = Some (b, p) → page_index m b = Some (Z.of_nat i).
Proof.
  intros Hm Hi. rewrite page_index_raw, (io_index m Hm i b p Hi). cbn [mbind option_bind].
  rewrite Nat2Z.id, Hi. cbn [mbind option_bind]. by rewrite Z.eqb_refl.
Qed.
Lemma page_index_Some m b i : page_index m b = Some i → ∃ p, mi_pages m !! Z.to_nat i = Some (b, p).
Proof.
  rewrite page_index_raw. destruct (raw_index m b) as [j|]; [|done]. cbn [mbind option_bind].
  destruct (mi_pages m !! Z.to_nat j) as [[b' p]|] eqn:E; [|done]. cbn [mbind option_bind].
  destruct (Z.eqb_spec b' b) as [->|]; [|done]. intros [= <-]. by exists p.
Qed.

Lemma page_lookup m i b p : image_ok m → mi_pages m !! i = Some (b, p) → page m b = Some p.
Proof.
  intros Hm Hi. unfold page. rewrite (page_index_lookup m i b p Hm Hi). cbn [mbind option_bind].
  by rewrite Nat2Z.id, Hi.
Qed.
Lemma page_Some m b p : page m b = Some p → ∃ i, page_index m b = Some i ∧ mi_pages m !! Z.to_nat i = Some (b, p).
Proof.
  unfold page. destruct (page_index m b) as [i|] eqn:E; [|done]. cbn [mbind option_bind].
  apply page_index_Some in E as (q & Hq). rewrite Hq. intros [= <-]. eauto.
Qed.
Lemma page_None m b : image_ok m → page m b = None ↔ b ∉ (mi_pages m).*1.
Proof.
  intros Hm. split.
  - intros Hn ([b' p] & -> & [i Hi]%list_elem_of_lookup)%list_elem_of_fmap. simpl in Hn. by rewrite (page_lookup m i _ p Hm Hi) in Hn.
  - intros Hn. destruct (page m b) as [p|] eqn:E; [|done]. destruct Hn. apply page_Some in E as (i & _ & Hi).
    apply list_elem_of_fmap. exists (b, p). split; [done|]. by eapply list_elem_of_lookup_2.
Qed.
Lemma bases_unique m i j b p q :
  image_ok m → mi_pages m !! i = Some (b, p) → mi_pages m !! j = Some (b, q) → i = j.
Proof.
  intros Hm Hi Hj. pose proof (io_index m Hm _ _ _ Hi) as H1. pose proof (io_index m Hm _ _ _ Hj) as H2.
  rewrite H1 in H2. injection H2. lia.
Qed.
Lemma page_facts m b p : image_ok m → page m b = Some p →
  page_address b ∧ mp_frame p = b ∧ page_ok p ∧ frame_ok (page_bytes m p) p.
Proof.
  intros Hm E. apply page_Some in E as (i & _ & Hi). destruct (io_pages m Hm _ _ _ Hi) as (? & Hf & ?).
  unfold page_bytes. rewrite Hf. split_and!; [done..|]. by apply (io_frames m Hm _ _ _ Hi).
Qed.

(** *** The memory an image represents *)

(** The byte at an address, when it is mapped. *)
Definition mem_byte (m : MemoryImage) (a : Z) : option Z :=
  p ← page m (floor_page a);
  if is_mapped p (a mod 4096) then page_bytes m p !! Z.to_nat (a mod 4096) else None.

(** A page with its bytes. *)
Definition view (m : MemoryImage) (b : Z) : option (MemoryPage * list Z) :=
  p ← page m b; Some (p, page_bytes m p).
Definition byte_of (v : option (MemoryPage * list Z)) (o : Z) : option Z :=
  '(p, bytes) ← v; if is_mapped p o then bytes !! Z.to_nat o else None.
Lemma mem_byte_view m a : mem_byte m a = byte_of (view m (floor_page a)) (a mod 4096).
Proof. unfold mem_byte, byte_of, view. by destruct (page m (floor_page a)). Qed.

(** *** Recording an index *)

Lemma record_page_index_spec m b i :
  directory_ok (mi_page_directory m) → page_address b → 0 ≤ i < u32_max →
  ∃ m', record_page_index b i m = Done (Ok tt) m' ∧ mi_pages m' = mi_pages m ∧ mi_store m' = mi_store m ∧
    directory_ok (mi_page_directory m') ∧ pd_chunks (mi_page_directory m') = pd_chunks (mi_page_directory m) ∧
    ∀ b', page_address b' → raw_index m' b' = if decide (b' = b) then Some i else raw_index m b'.
Proof.
  intros Hd Hb Hi. unfold record_page_index. mrun. unfold id. rewrite covers_spec by done.
  case_bool_decide as Hc.
  - destruct (directory_insert_spec _ b i Hd Hb Hc Hi) as (d' & -> & Hd' & Hch & Hget). mrun.
    eexists. split; [done|]. split_and!; [done..|]. intros b' Hb'. unfold raw_index. cbn [mi_page_directory mi_set_directory mi_high_page_lookup].
    rewrite !covers_spec, Hch, Hget by done. repeat case_bool_decide; repeat case_decide; subst; done.
  - eexists. split; [done|]. split_and!; [done..|]. intros b' Hb'. unfold raw_index. cbn [mi_page_directory mi_set_high mi_high_page_lookup].
    rewrite !covers_spec by done. rewrite lookup_insert. repeat case_bool_decide; repeat case_decide; subst; done.
Qed.

(** *** Replacing a page and its bytes *)

Definition put_page (i : nat) (b : Z) (p : MemoryPage) (bytes : list Z) (m : MemoryImage) : MemoryImage :=
  mi_set_pages (<[i := (b, p)]> (mi_pages m)) (set_frame b bytes m).

Lemma put_page_bases i b p bytes m q :
  mi_pages m !! i = Some (b, q) → (mi_pages (put_page i b p bytes m)).*1 = (mi_pages m).*1.
Proof.
  intros Hi. simpl. rewrite list_fmap_insert. simpl. apply list_insert_id. by rewrite list_lookup_fmap, Hi.
Qed.

Lemma put_page_ok i b p bytes m q :
  image_ok m → mi_pages m !! i = Some (b, q) → mp_frame p = b → page_ok p → frame_ok bytes p →
  image_ok (put_page i b p bytes m).
Proof.
  intros Hm Hi Hf Hp Hfr. pose proof (put_page_bases i b p bytes m q Hi) as Hbs.
  pose proof (lookup_lt_Some _ _ _ Hi) as Hlt.
  assert (∀ j b' p', mi_pages (put_page i b p bytes m) !! j = Some (b', p') →
    j = i ∧ b' = b ∧ p' = p ∨ j ≠ i ∧ b' ≠ b ∧ mi_pages m !! j = Some (b', p')) as Hcases.
  { intros j b' p'. simpl. rewrite list_lookup_insert_Some. intros [(<- & [= <- <-] & _)|[Hne Hj]]; [by left|right].
    split_and!; [done| |done]. intros ->. by apply Hne, (bases_unique m i j b q p'). }
  destruct Hm as [H1 H2 H9 H3 H4 H5 H6 H7 H8] eqn:Hme. split.
  - intros j b' p' [(-> & -> & ->)|(_ & _ & Hj)]%Hcases; [|by eapply H1]. destruct (H1 _ _ _ Hi) as (? & _). done.
  - intros j b' p' [(-> & -> & ->)|(_ & Hne & Hj)]%Hcases; unfold frame_bytes; simpl.
    + by rewrite lookup_insert_eq.
    + rewrite lookup_insert_ne by done. by apply (H2 _ _ _ Hj).
  - intros j b' p' [(-> & -> & ->)|(_ & Hne & Hj)]%Hcases; simpl.
    + by rewrite lookup_insert_eq.
    + rewrite lookup_insert_ne by done. by apply (H9 _ _ _ Hj).
  - intros j b' p' [(-> & -> & ->)|(_ & _ & Hj)]%Hcases; [by eapply (H3 i)|by eapply H3].
  - done.
  - done.
  - simpl. by rewrite length_insert.
  - rewrite Hbs. done.
  - rewrite Hbs. done.
Qed.

Lemma put_page_view i b p bytes m q b' :
  image_ok m → mi_pages m !! i = Some (b, q) → mp_frame p = b → page_ok p → frame_ok bytes p →
  view (put_page i b p bytes m) b' = if decide (b' = b) then Some (p, bytes) else view m b'.
Proof.
  intros Hm Hi Hf Hp Hfr. pose proof (put_page_ok i b p bytes m q Hm Hi Hf Hp Hfr) as Hm'.
  pose proof (lookup_lt_Some _ _ _ Hi) as Hlt. case_decide as E.
  - subst b'. unfold view. rewrite (page_lookup _ i b p Hm') by (simpl; by rewrite list_lookup_insert_eq). cbn [mbind option_bind].
    do 2 f_equal. unfold page_bytes, frame_bytes. simpl. by rewrite Hf, lookup_insert_eq.
  - unfold view. destruct (page m b') as [p'|] eqn:E'.
    + apply page_Some in E' as (j & _ & Hj). assert (i ≠ Z.to_nat j) by (intros ->; congruence).
      rewrite (page_lookup _ (Z.to_nat j) b' p' Hm') by (simpl; by rewrite list_lookup_insert_ne).
      cbn [mbind option_bind]. do 2 f_equal. unfold page_bytes, frame_bytes. simpl.
      destruct (io_pages m Hm _ _ _ Hj) as (_ & -> & _). by rewrite lookup_insert_ne.
    + rewrite (proj2 (page_None _ b' Hm')); [done|]. rewrite (put_page_bases _ _ _ _ _ q) by done. by apply page_None.
Qed.

(** *** Finding or making a page *)

Lemma zero_frame_lookup o : 0 ≤ o < 4096 → zero_frame !! Z.to_nat o = Some 0.
Proof. intros Ho. apply lookup_replicate. split; [done|]. unfold MEMORY_PAGE_SIZE. lia. Qed.
Lemma zero_frame_ok p : frame_ok zero_frame p.
Proof.
  split; [by apply length_replicate| |].
  - apply Forall_replicate. unfold byte. lia.
  - intros o Ho _. by apply zero_frame_lookup.
Qed.

Lemma flat_page_bit_spec s b :
  page_address b → flat_page_bit s b = if in_window s b then Some (b / 4096) else None.
Proof.
  intros [Ha _]. unfold flat_page_bit, in_window, is_multiple_of. unfold aligned in Ha. rewrite Ha.
  destruct (gs_valid s); simpl; [|done]. rewrite Z.leb_antisym, orb_false_r. by destruct (b <? gs_flat_size s).
Qed.

(** The store's accounts of a page that appears. *)
Lemma materialise_page_spec b s :
  page_address b →
  let s' := materialise_page b s in
  gs_flat_size s' = gs_flat_size s ∧ gs_valid s' = gs_valid s ∧ gs_frames s' = <[b := zero_frame]> (gs_frames s) ∧
  (∀ n, n ∈ gs_materialised s' ↔ n ∈ gs_materialised s ∨ in_window s b = true ∧ n = b / 4096) ∧
  (∀ c, c ∈ gs_high_pages s' ↔ c ∈ gs_high_pages s ∨ in_window s b = false ∧ c = b).
Proof.
  intros Hb s'. unfold s', materialise_page.
  set (s1 := gs_set_frames (<[b := zero_frame]> (gs_frames s)) s).
  change (in_window s1 b) with (in_window s b). rewrite (flat_page_bit_spec s1 b Hb).
  change (in_window s1 b) with (in_window s b).
  destruct (in_window s b); simpl; (split_and!; [done|done|done|intros n|intros c]); set_solver.
Qed.

Lemma in_window_eq s s' b : gs_valid s' = gs_valid s → gs_flat_size s' = gs_flat_size s → in_window s' b = in_window s b.
Proof. unfold in_window. by intros -> ->. Qed.

Lemma div_4096_inj b c : aligned b → aligned c → b / 4096 = c / 4096 → b = c.
Proof. unfold aligned. intros. Z.div_mod_to_equations; lia. Qed.

Lemma page_mut_or_insert_spec m b :
  image_ok m → page_address b → Z.of_nat (length (mi_pages m)) < u32_max →
  ∃ i m' p, page_mut_or_insert b m = Done (Ok (Z.of_nat i)) m' ∧ image_ok m' ∧ mi_pages m' !! i = Some (b, p) ∧
    view m' b = Some (default (new_page b, zero_frame) (view m b)) ∧
    (∀ b', b' ≠ b → view m' b' = view m b') ∧
    (mi_pages m').*1 = (if decide (b ∈ (mi_pages m).*1) then (mi_pages m).*1 else (mi_pages m).*1 ++ [b]).
Proof.
  intros Hm Hb Hlen. unfold page_mut_or_insert. mrun. unfold id.
  destruct (page_index m b) as [i|] eqn:E.
  { apply page_index_Some in E as Hi. destruct Hi as (p & Hi). exists (Z.to_nat i), m, p.
    pose proof (io_index m Hm _ _ _ Hi) as Hraw. rewrite page_index_raw, Hraw in E. cbn [mbind option_bind] in E.
    rewrite Nat2Z.id, Hi in E. cbn [mbind option_bind] in E. rewrite Z.eqb_refl in E.
    assert (Z.of_nat (Z.to_nat i) = i) as -> by congruence. split_and!; [done..| | |].
    - unfold view. rewrite (page_lookup m _ _ _ Hm Hi). done.
    - done.
    - rewrite decide_True; [done|]. apply list_elem_of_fmap. exists (b, p). split; [done|]. by eapply list_elem_of_lookup_2. }
  assert (b ∉ (mi_pages m).*1) as Hnew.
  { apply page_None; [done|]. unfold page. by rewrite E. }
  rewrite decide_False by done. mrun.
  destruct (materialise_page_spec b (mi_store m) Hb) as (Hfs & Hv & Hfr & Hmat & Hhigh).
  set (s1 := materialise_page b (mi_store m)) in *. clearbody s1.
  set (m1 := mi_set_store s1 m).
  set (m2 := mi_set_pages (mi_pages m1 ++ [(b, new_page b)]) m1).
  assert (directory_ok (mi_page_directory m2)) as Hd by apply Hm.
  destruct (record_page_index_spec m2 b (Z.of_nat (length (mi_pages m))) Hd Hb ltac:(lia))
    as (m3 & Hrec & Hpages & Hstore & Hd3 & Hch & Hraw).
  change (mi_pages m1) with (mi_pages m) in *. rewrite Hrec. mrun.
  assert (∀ j b' p', mi_pages m3 !! j = Some (b', p') →
    j = length (mi_pages m) ∧ b' = b ∧ p' = new_page b ∨ b' ≠ b ∧ mi_pages m !! j = Some (b', p')) as Hcases.
  { intros j b' p'. rewrite Hpages. simpl. rewrite lookup_app_Some. intros [Hj|[Hj Hj']].
    - right. split; [|done]. intros ->. apply Hnew. apply list_elem_of_fmap. exists (b, p').
      split; [done|]. by eapply list_elem_of_lookup_2.
    - left. apply list_lookup_singleton_Some in Hj' as [Hj' [= <- <-]]. split_and!; [lia|done|done]. }
  assert (∀ f, f ≠ b → frame_bytes m3 f = frame_bytes m f) as Hframe.
  { intros f Hf. unfold frame_bytes. rewrite Hstore. simpl. by rewrite Hfr, lookup_insert_ne. }
  assert (frame_bytes m3 b = zero_frame) as Hzero.
  { unfold frame_bytes. rewrite Hstore. simpl. by rewrite Hfr, lookup_insert_eq. }
  assert ((mi_pages m3).*1 = (mi_pages m).*1 ++ [b]) as Hbases by (rewrite Hpages; simpl; by rewrite fmap_app).
  assert (image_ok m3) as Hm3.
  { destruct (new_page_ok b) as [Hnp _]. split.
    - intros j b' p' [(-> & -> & ->)|(_ & Hj)]%Hcases; [done|by eapply io_pages].
    - intros j b' p' [(-> & -> & ->)|(Hne & Hj)]%Hcases; [rewrite Hzero; apply zero_frame_ok|].
      rewrite Hframe by done. by eapply io_frames.
    - intros j b' p' [(-> & -> & ->)|(Hne & Hj)]%Hcases; rewrite Hstore; simpl; rewrite Hfr.
      + by rewrite lookup_insert_eq.
      + rewrite lookup_insert_ne by done. by eapply io_present.
    - intros j b' p' [(-> & -> & ->)|(Hne & Hj)]%Hcases.
      + by rewrite Hraw, decide_True by done.
      + rewrite Hraw, decide_False by (done || by apply (io_pages m Hm _ _ _ Hj)). by apply (io_index m Hm _ _ _ Hj).
    - done.
    - rewrite Hstore, Hch. simpl. rewrite Hfs. apply Hm.
    - rewrite Hpages. simpl. rewrite length_app. simpl. lia.
    - intros n. rewrite Hstore, Hbases. simpl. rewrite Hmat, (io_flat m Hm). setoid_rewrite elem_of_app.
      setoid_rewrite (in_window_eq (mi_store m) s1 _ Hv Hfs).
      setoid_rewrite list_elem_of_singleton. naive_solver.
    - intros c. rewrite Hstore, Hbases. simpl. rewrite Hhigh, (io_high m Hm), elem_of_app, list_elem_of_singleton.
      rewrite (in_window_eq (mi_store m) s1 _ Hv Hfs). naive_solver. }
  assert (mi_pages m3 !! length (mi_pages m) = Some (b, new_page b)) as Hat.
  { rewrite Hpages. simpl. by rewrite lookup_app_r, Nat.sub_diag by lia. }
  exists (length (mi_pages m)), m3, (new_page b). split_and!; [done|done|done| | |done].
  - unfold view. rewrite (page_lookup m3 _ _ _ Hm3 Hat). cbn [mbind option_bind].
    rewrite (proj2 (page_None m b Hm) Hnew). cbn. unfold page_bytes. cbn [mp_frame new_page]. by rewrite Hzero.
  - intros b' Hne. unfold view. destruct (page m b') as [p'|] eqn:E'.
    + apply page_Some in E' as (j & _ & Hj). assert (mi_pages m3 !! Z.to_nat j = Some (b', p')) as Hj3.
      { rewrite Hpages. simpl. apply lookup_app_Some. by left. }
      rewrite (page_lookup m3 _ _ _ Hm3 Hj3). cbn. unfold page_bytes.
      destruct (io_pages m Hm _ _ _ Hj) as (_ & Hf & _). by rewrite Hf, Hframe.
    + rewrite (proj2 (page_None m3 b' Hm3)); [done|]. rewrite Hbases. apply (page_None m b' Hm) in E'.
      rewrite elem_of_app, list_elem_of_singleton. naive_solver.
Qed.

(** A page that was just made is not mapped, so the memory is what it was. *)
Lemma view_insert_byte m m' b a :
  (∀ b', b' ≠ b → view m' b' = view m b') → view m' b = Some (default (new_page b, zero_frame) (view m b)) →
  mem_byte m' a = mem_byte m a.
Proof.
  intros Hother Hb. rewrite !mem_byte_view. destruct (decide (floor_page a = b)) as [->|]; [|by rewrite Hother].
  rewrite Hb. destruct (view m b) as [[p bytes]|]; [done|]. cbn [default byte_of mbind option_bind from_option id].
  destruct (new_page_ok b) as [_ Hn]. rewrite Hn; [done|]. Z.div_mod_to_equations; lia.
Qed.

(** ** The chunks of a range *)

Lemma mask_page x : u64 x → Z.land x MEMORY_PAGE_MASK = floor_page x.
Proof. apply land_page. Qed.
Lemma offset_in_page x : u64 x → x - Z.land x MEMORY_PAGE_MASK = x mod 4096.
Proof. intros Hx. rewrite mask_page by done. unfold floor_page. lia. Qed.

(** A turn of a loop over [len] bytes from [address]: what it can rely on. *)
Record turn (address len sofar current chunk : Z) : Prop := {
  tn_current : current = (address + sofar) mod 2 ^ 64;
  tn_u64 : u64 current;
  tn_done : 0 ≤ sofar;
  tn_chunk : 0 < chunk ∧ sofar + chunk ≤ len;
  tn_page : current mod 4096 + chunk ≤ 4096;
  tn_first : sofar = 0 ∨ current mod 4096 = 0 }.

Section chunks.
Context {S : Type} (body : Z → Z → Z → Z → Z → M S (list Z)).
Context (I : Z → list Z → S → Prop) (E : Z → S → Prop) (address len : Z).
Context (Ha : u64 address) (Hl : 0 ≤ len).
Context (Hbody : ∀ sofar current chunk acc s,
  turn address len sofar current chunk → I sofar acc s →
  wp (body current (floor_page current) (current mod 4096) chunk sofar) s
    (λ r s', match r with Ok part => I (sofar + chunk) (acc ++ part) s' | Err e => E e s' end)).

Lemma chunk_loop_wp fuel current sofar acc s :
  current = (address + sofar) mod 2 ^ 64 → 0 ≤ sofar ≤ len →
  (if decide (sofar < len) then (current mod 4096 + (len - sofar) + 4095) / 4096 ≤ Z.of_nat fuel else True) →
  (sofar = 0 ∨ current mod 4096 = 0 ∨ sofar = len) → I sofar acc s →
  wp (chunk_loop fuel body current sofar len) s
    (λ r s', match r with Ok out => I len (acc ++ out) s' | Err e => E e s' end).
Proof using Ha Hl Hbody.
  revert current sofar acc s. induction fuel as [|fuel IH]; intros current sofar acc s Hc Hd Hf Hfirst HI; cbn [chunk_loop];
    (destruct (sofar <? len) eqn:Elt; bool_prop;
     [rewrite decide_True in Hf by done
     |assert (sofar = len) as -> by lia; unfold wp; simpl; by rewrite app_nil_r]).
  { exfalso. assert (0 ≤ current mod 4096) by (Z.div_mod_to_equations; lia). Z.div_mod_to_equations; lia. }
  assert (u64 current) as Hu.
  { rewrite Hc. unfold u64, u64_max. pose proof (Z.mod_pos_bound (address + sofar) (2 ^ 64)). rewrite two64 in *. lia. }
  rewrite mask_page by done. assert (current - floor_page current = current mod 4096) as -> by (unfold floor_page; lia).
  unfold MEMORY_PAGE_SIZE. set (chunk := Z.min (4096 - current mod 4096) (len - sofar)).
  assert (0 ≤ current mod 4096 < 4096) as Hm by (apply Z.mod_pos_bound; lia).
  assert (turn address len sofar current chunk) as Ht by (split; [done|done|lia|lia|lia|lia]).
  apply wp_bind. eapply wp_mono; [by apply (Hbody sofar current chunk acc s)|].
  intros [part|e] s' H; [|done]. apply wp_bind.
  eapply wp_mono; [apply (IH (wrapping_add64 current chunk) (sofar + chunk) (acc ++ part) s')|].
  - unfold wrapping_add64, wrap64. rewrite Hc, Zplus_mod_idemp_l. f_equal. lia.
  - lia.
  - case_decide; [|done]. assert (chunk = 4096 - current mod 4096) as Ec by lia.
    assert (wrapping_add64 current chunk mod 4096 = 0) as ->; [|Z.div_mod_to_equations; lia].
    unfold wrapping_add64, wrap64. rewrite two64. clearbody chunk. Z.div_mod_to_equations; lia.
  - destruct (decide (chunk = len - sofar)); [right; right; lia|]. right; left.
    assert (chunk = 4096 - current mod 4096) as Ec by lia.
    unfold wrapping_add64, wrap64. rewrite two64. clearbody chunk. Z.div_mod_to_equations; lia.
  - done.
  - intros [rest|e] s'' H'; [|done]. unfold wp. simpl. by rewrite app_assoc.
Qed.

Lemma for_chunks_wp s :
  I 0 [] s →
  wp (for_chunks body address len) s (λ r s', match r with Ok out => I len out s' | Err e => E e s' end).
Proof using Ha Hl Hbody.
  intros HI. unfold for_chunks. apply (chunk_loop_wp _ _ _ [] s); [|lia| |by left|done].
  - rewrite Z.add_0_r. symmetry. apply Z.mod_small. unfold u64, u64_max in Ha. rewrite two64. lia.
  - case_decide; [|done]. unfold MEMORY_PAGE_SIZE.
    assert (0 ≤ address mod 4096 < 4096) by (apply Z.mod_pos_bound; lia). Z.div_mod_to_equations; lia.
Qed.
End chunks.

(** The same for a loop for its effects. *)
Lemma each_chunk_wp {S} (body : Z → Z → Z → Z → Z → M S unit) (I : Z → S → Prop) (E : Z → S → Prop) address len s :
  u64 address → 0 ≤ len →
  (∀ sofar current chunk s, turn address len sofar current chunk → I sofar s →
     wp (body current (floor_page current) (current mod 4096) chunk sofar) s
       (λ r s', match r with Ok _ => I (sofar + chunk) s' | Err e => E e s' end)) →
  I 0 s →
  wp (each_chunk body address len) s (λ r s', match r with Ok _ => I len s' | Err e => E e s' end).
Proof.
  intros Ha Hl Hb HI. unfold each_chunk. apply wp_bind. eapply wp_mono.
  - apply (for_chunks_wp (λ c b o n d, body c b o n d ;;; ret []) (λ d _ s, I d s) E address len Ha Hl); [|done].
    intros sofar current chunk acc s' Ht HI'. apply wp_bind. eapply wp_mono; [by apply Hb|].
    intros [[]|e] s''; [|done]. done.
  - intros [out|e] s' H; [|done]. done.
Qed.

(** The bytes of a range, counted from its start and around the end of the address
    space: those done so far, those of a turn. *)
Definition index_in (address x : Z) : Z := (x - address) mod 2 ^ 64.

Lemma index_in_range address x : 0 ≤ index_in address x < 2 ^ 64.
Proof. apply Z.mod_pos_bound. rewrite two64. lia. Qed.
Lemma index_in_turn address len sofar current chunk x :
  u64 address → u64 x → sofar + chunk ≤ 2 ^ 64 → turn address len sofar current chunk →
  sofar ≤ index_in address x < sofar + chunk ↔ current ≤ x < current + chunk.
Proof.
  intros Ha Hx Hfit [Hc Hu Hd Hch Hp _]. unfold index_in. rewrite two64 in *. unfold u64, u64_max in *.
  assert (current + chunk ≤ 18446744073709551616) by (Z.div_mod_to_equations; lia).
  Z.div_mod_to_equations; lia.
Qed.
Lemma index_in_value address len sofar current chunk x :
  u64 address → u64 x → sofar + chunk ≤ 2 ^ 64 → turn address len sofar current chunk →
  current ≤ x < current + chunk → index_in address x = sofar + (x - current).
Proof.
  intros Ha Hx Hfit [Hc Hu Hd Hch Hp _] Hin. unfold index_in. rewrite two64 in *. unfold u64, u64_max in *.
  assert (current + chunk ≤ 18446744073709551616) by (Z.div_mod_to_equations; lia).
  Z.div_mod_to_equations; lia.
Qed.
(** The addresses of a turn are those of its page with offsets in the chunk. *)
Lemma turn_page address len sofar current chunk x :
  turn address len sofar current chunk →
  current ≤ x < current + chunk ↔
  floor_page x = floor_page current ∧ current mod 4096 ≤ x mod 4096 < current mod 4096 + chunk.
Proof. intros [Hc Hu Hd Hch Hp _]. unfold floor_page. Z.div_mod_to_equations; lia. Qed.

Lemma turn_base address len sofar current chunk : turn address len sofar current chunk → page_address (floor_page current).
Proof. intros [_ Hu _ _ _ _]. unfold page_address. pose proof (floor_page_spec current). split; [tauto|page_lia]. Qed.

(** The pages a range may take. *)
Definition pages_spanned (address sofar : Z) : Z := if decide (sofar = 0) then 0 else (address mod 4096 + sofar + 4095) / 4096.
Lemma turn_spans address len sofar current chunk :
  turn address len sofar current chunk →
  pages_spanned address sofar + 1 ≤ pages_spanned address (sofar + chunk) ≤ len / 4096 + 2.
Proof.
  intros [Hc Hu Hd Hch Hp Hf]. unfold pages_spanned. rewrite (decide_False (P := sofar + chunk = 0)) by lia.
  assert (current mod 4096 = (address mod 4096 + sofar) mod 4096) as Em.
  { rewrite Hc, two64. Z.div_mod_to_equations; lia. }
  case_decide; [subst; Z.div_mod_to_equations; lia|]. destruct Hf as [|Hf]; [done|].
  rewrite Hf in *. assert (0 ≤ address mod 4096 < 4096) by (apply Z.mod_pos_bound; lia).
  Z.div_mod_to_equations; lia.
Qed.

(** Room in the index for the pages of a range. *)
Definition fits (m : MemoryImage) (len : Z) : Prop := Z.of_nat (length (mi_pages m)) + len / 4096 + 2 ≤ u32_max.

(** *** Loops that make pages and edit them *)

Section edit_loop.
Context (rest : Z → Z → Z → Z → M MemoryImage unit) (new : Z → option Z → option Z).
Context (address len : Z) (Ha : u64 address) (Hl : 0 ≤ len ≤ 2 ^ 64).
Context (Hrest : ∀ m i b p off chunk sofar,
  image_ok m → mi_pages m !! i = Some (b, p) → 0 ≤ off → 0 < chunk → off + chunk ≤ 4096 →
  0 ≤ sofar → sofar + chunk ≤ len →
  ∃ p' bytes', rest off chunk sofar (Z.of_nat i) m = Done (Ok tt) (put_page i b p' bytes' m) ∧
    mp_frame p' = b ∧ page_ok p' ∧ frame_ok bytes' p' ∧
    ∀ o, 0 ≤ o < 4096 → byte_of (Some (p', bytes')) o =
      if decide (off ≤ o < off + chunk) then new (sofar + (o - off)) (byte_of (Some (p, page_bytes m p)) o)
      else byte_of (Some (p, page_bytes m p)) o).

Lemma edit_loop_spec m :
  image_ok m → fits m len →
  ∃ m', each_chunk (λ _ b off chunk sofar, index <- page_mut_or_insert b ;; rest off chunk sofar index) address len m
        = Done (Ok tt) m' ∧
    image_ok m' ∧ Z.of_nat (length (mi_pages m')) ≤ Z.of_nat (length (mi_pages m)) + len / 4096 + 2 ∧
    ∀ x, u64 x → mem_byte m' x =
      if decide (index_in address x < len) then new (index_in address x) (mem_byte m x) else mem_byte m x.
Proof using Ha Hl Hrest.
  intros Hm Hfits.
  pose (I := λ sofar m', image_ok m' ∧ 0 ≤ sofar ≤ len ∧
    Z.of_nat (length (mi_pages m')) ≤ Z.of_nat (length (mi_pages m)) + pages_spanned address sofar ∧
    ∀ x, u64 x → mem_byte m' x =
      if decide (index_in address x < sofar) then new (index_in address x) (mem_byte m x) else mem_byte m x).
  assert (wp (each_chunk (λ _ b off chunk sofar, index <- page_mut_or_insert b ;; rest off chunk sofar index) address len) m
    (λ r m', match r with Ok _ => I len m' | Err _ => False end)) as H.
  { apply (each_chunk_wp _ I (λ _ _, False)); [done|lia| |].
    2: { unfold I, pages_spanned. split_and!; [done|lia|lia|rewrite decide_True by done; lia|].
         intros x Hx. rewrite decide_False; [done|]. pose proof (index_in_range address x). lia. }
    intros sofar current chunk m1 Ht (Hm1 & Hsf & Hlen & Hmem). pose proof (turn_base _ _ _ _ _ Ht) as Hb.
    pose proof (turn_spans _ _ _ _ _ Ht) as Hsp. destruct (tn_chunk _ _ _ _ _ Ht) as [Hc0 Hcl].
    destruct (page_mut_or_insert_spec m1 (floor_page current) Hm1 Hb) as (i & m2 & p & E & Hm2 & Hi & Hv & Hother & Hbs).
    { unfold fits in Hfits. lia. }
    assert (0 ≤ current mod 4096 < 4096) as Hoff by (apply Z.mod_pos_bound; lia).
    destruct (Hrest m2 i (floor_page current) p (current mod 4096) chunk sofar Hm2 Hi ltac:(lia) Hc0 (tn_page _ _ _ _ _ Ht) ltac:(lia) Hcl)
      as (p' & bytes' & E' & Hf' & Hp' & Hfr' & Hbytes).
    unfold wp. cbn [bind]. rewrite E. cbn [bind]. rewrite E'.
    pose proof (put_page_ok i _ p' bytes' m2 p Hm2 Hi Hf' Hp' Hfr') as Hm3. split_and!; [done|lia|lia| |].
    - assert (length (mi_pages (put_page i (floor_page current) p' bytes' m2)) ≤ length (mi_pages m1) + 1)%nat; [|lia].
      simpl. rewrite length_insert. apply (f_equal length) in Hbs. rewrite length_fmap in Hbs. rewrite Hbs.
      case_decide; rewrite ?length_app, length_fmap; simpl; lia.
    - intros x Hx. rewrite mem_byte_view, (put_page_view i _ p' bytes' m2 p) by done.
      pose proof (index_in_turn address len sofar current chunk x Ha Hx ltac:(lia) Ht) as Hin.
      pose proof (turn_page _ _ _ _ _ x Ht) as Htp. assert (0 ≤ x mod 4096 < 4096) as Hxo by (apply Z.mod_pos_bound; lia).
      assert (∀ a, mem_byte m2 a = mem_byte m1 a) as Hsame by (intros a; by apply (view_insert_byte m1 m2 (floor_page current))).
      destruct (decide (floor_page x = floor_page current)) as [Ef|Hf].
      + assert (byte_of (Some (p, page_bytes m2 p)) (x mod 4096) = mem_byte m1 x) as Hold.
        { rewrite <-Hsame, mem_byte_view, Ef. unfold view. by rewrite (page_lookup m2 i _ p Hm2 Hi). }
        rewrite Hbytes by done. rewrite Hold.
        destruct (decide (current mod 4096 ≤ x mod 4096 < current mod 4096 + chunk)) as [Hd|Hd].
        * assert (current ≤ x < current + chunk) as Hxc by (apply Htp; split; [exact Ef|lia]).
          pose proof (index_in_value address len sofar current chunk x Ha Hx ltac:(lia) Ht Hxc) as Ev. apply Hin in Hxc.
          rewrite (Hmem x Hx). rewrite decide_False by lia. rewrite decide_True by lia. rewrite Ev. do 2 f_equal.
          unfold floor_page in Ef. lia.
        * rewrite (Hmem x Hx). apply decide_if_ext. assert (¬ (sofar ≤ index_in address x < sofar + chunk)); [|lia].
          intros Hx'. apply Hin, Htp in Hx'. naive_solver.
      + rewrite <-mem_byte_view, Hsame, (Hmem x Hx). apply decide_if_ext.
        assert (¬ (sofar ≤ index_in address x < sofar + chunk)); [|lia]. intros Hx'. apply Hin, Htp in Hx'. naive_solver. }
  apply wp_inv in H as ([[]|e] & m' & E & H); [|done]. destruct H as (Hm' & _ & Hlen & Hmem).
  exists m'. split_and!; [done|done| |done]. unfold pages_spanned in Hlen.
  assert (0 ≤ address mod 4096 < 4096) by (apply Z.mod_pos_bound; lia).
  case_decide; Z.div_mod_to_equations; lia.
Qed.
End edit_loop.

(** *** One edit: bytes stored, then the bitmap updated *)

Lemma list_alter_insert {A} (f : A → A) (i : nat) (l : list A) x : l !! i = Some x → alter f i l = <[i := f x]> l.
Proof.
  intros Hi. pose proof (lookup_lt_Some _ _ _ Hi). apply list_eq. intros j. destruct (decide (i = j)) as [<-|].
  - by rewrite list_lookup_alter_eq, list_lookup_insert_eq, Hi.
  - by rewrite list_lookup_alter_ne, list_lookup_insert_ne.
Qed.

Lemma store_bytes_run m i b p start data bytes :
  mi_pages m !! i = Some (b, p) → mp_frame p = b → splice start data (page_bytes m p) = Some bytes →
  store_bytes (Z.of_nat i) start data m = Done (Ok tt) (put_page i b p bytes m).
Proof.
  intros Hi Hf Hs. unfold store_bytes, page_at. mrun. unfold id. rewrite Nat2Z.id, Hi. cbn [fmap option_fmap option_map snd].
  mrun. unfold id. rewrite Hs. mrun. rewrite Hf. unfold put_page. rewrite list_insert_id by done. done.
Qed.

Lemma update_page_run m i b p f bytes :
  mi_pages m !! i = Some (b, p) →
  update_page (Z.of_nat i) f (put_page i b p bytes m) = Done (Ok tt) (put_page i b (f p) bytes m).
Proof.
  intros Hi. pose proof (lookup_lt_Some _ _ _ Hi). unfold update_page. mrun.
  apply (f_equal (λ l, Done (Ok tt) (mi_set_pages l (set_frame b bytes m)))). simpl.
  rewrite Nat2Z.id. rewrite (list_alter_insert _ i _ (b, p)) by (by rewrite list_lookup_insert_eq). simpl.
  by rewrite list_insert_insert_eq.
Qed.

Lemma store_update_run m i b p f start data bytes :
  mi_pages m !! i = Some (b, p) → mp_frame p = b → splice start data (page_bytes m p) = Some bytes →
  (store_bytes (Z.of_nat i) start data ;;; update_page (Z.of_nat i) f) m = Done (Ok tt) (put_page i b (f p) bytes m).
Proof. intros Hi Hf Hs. unfold bind. rewrite (store_bytes_run m i b p start data bytes) by done. by apply update_page_run. Qed.

(** Bytes spliced into a frame. *)
Lemma splice_frame p bytes start data :
  frame_ok bytes p → Forall byte data → 0 ≤ start → start + Z.of_nat (length data) ≤ 4096 →
  ∃ out, splice start data bytes = Some out ∧ length out = 4096%nat ∧ Forall byte out ∧
    ∀ o, 0 ≤ o → out !! Z.to_nat o =
      if decide (start ≤ o < start + Z.of_nat (length data)) then data !! Z.to_nat (o - start) else bytes !! Z.to_nat o.
Proof.
  intros [Hl Hb _] Hd Hs He. destruct (splice_is_Some start data bytes) as [out Hout]; [done|lia|].
  exists out. pose proof (splice_Some _ _ _ _ Hout) as (_ & _ & Hlen & Hlook). split_and!; [done|lia| |done].
  apply Forall_lookup. intros j y Hy. specialize (Hlook (Z.of_nat j) ltac:(lia)). rewrite Nat2Z.id, Hy in Hlook.
  case_decide; [by eapply (Forall_lookup_1 _ data)|by eapply (Forall_lookup_1 _ bytes)].
Qed.

(** The page after its range was stored and marked. *)
Lemma marked_frame p bytes out start data :
  page_ok p → frame_ok bytes p → Forall byte data → 0 ≤ start → start + Z.of_nat (length data) ≤ 4096 →
  splice start data bytes = Some out →
  let p' := mark_mapped_range start (Z.of_nat (length data)) p in
  mp_frame p' = mp_frame p ∧ page_ok p' ∧ frame_ok out p' ∧
  ∀ o, 0 ≤ o < 4096 → byte_of (Some (p', out)) o =
    if decide (start ≤ o < start + Z.of_nat (length data)) then data !! Z.to_nat (o - start) else byte_of (Some (p, bytes)) o.
Proof.
  intros Hp Hfr Hd Hs He Hsp p'. destruct (splice_frame p bytes start data Hfr Hd Hs He) as (out' & E & Hl & Hb & Hlook).
  rewrite Hsp in E. injection E as <-.
  destruct (mark_mapped_range_spec p start (Z.of_nat (length data)) Hp Hs ltac:(lia) He) as (Hp' & Hf' & Hm').
  split_and!; [done|done| |].
  - split; [done|done|]. intros o Ho Hno. unfold p' in Hno. rewrite Hm' in Hno by done. bool_prop. rewrite Hlook by lia.
    case_decide; [|by apply Hfr]. rewrite (proj2 (Z.leb_le _ _)), (proj2 (Z.ltb_lt _ _)) in * by lia. done.
  - intros o Ho. cbn [byte_of mbind option_bind]. unfold p'. rewrite Hm', Hlook by lia. case_decide as Hin.
    + by rewrite (proj2 (Z.leb_le _ _)), (proj2 (Z.ltb_lt _ _)) by lia.
    + assert ((start <=? o) && (o <? start + Z.of_nat (length data)) = false) as ->; [|done].
      apply andb_false_iff. rewrite Z.leb_gt, Z.ltb_ge. lia.
Qed.

(** *** The mapping operations on the memory *)

Lemma map_bytes_spec address bytes m :
  image_ok m → u64 address → Forall byte bytes → Z.of_nat (length bytes) ≤ 2 ^ 64 → fits m (Z.of_nat (length bytes)) →
  ∃ m', map_bytes address bytes m = Done (Ok tt) m' ∧ image_ok m' ∧
    Z.of_nat (length (mi_pages m')) ≤ Z.of_nat (length (mi_pages m)) + Z.of_nat (length bytes) / 4096 + 2 ∧
    ∀ x, u64 x → mem_byte m' x =
      if decide (index_in address x < Z.of_nat (length bytes)) then bytes !! Z.to_nat (index_in address x) else mem_byte m x.
Proof.
  intros Hm Ha Hb Hl Hfit.
  apply (edit_loop_spec (λ off chunk sofar index,
    store_bytes index off (take (Z.to_nat chunk) (drop (Z.to_nat sofar) bytes)) ;;; update_page index (mark_mapped_range off chunk))
    (λ i _, bytes !! Z.to_nat i) address (Z.of_nat (length bytes))); [done|lia| |done|done].
  intros m1 i b p off chunk sofar Hm1 Hi Hoff Hc Hend Hs Hsc.
  destruct (io_pages m1 Hm1 _ _ _ Hi) as (_ & Hf & Hp). pose proof (io_frames m1 Hm1 _ _ _ Hi) as Hfr.
  set (data := take (Z.to_nat chunk) (drop (Z.to_nat sofar) bytes)).
  assert (Z.of_nat (length data) = chunk) as Hlen.
  { unfold data. rewrite length_take, length_drop. lia. }
  assert (Forall byte data) as Hd by by apply Forall_take, Forall_drop.
  assert (page_bytes m1 p = frame_bytes m1 b) as Epb by (unfold page_bytes; by rewrite Hf). rewrite <-Epb in Hfr.
  destruct (splice_frame p (page_bytes m1 p) off data Hfr Hd Hoff ltac:(lia)) as (out & Hsp & _).
  pose proof (marked_frame p (page_bytes m1 p) out off data Hp Hfr Hd Hoff ltac:(lia) Hsp) as (Hf' & Hp' & Hfr' & Hby).
  rewrite Hlen in *. exists (mark_mapped_range off chunk p), out. split_and!; [|congruence|done|done|].
  - by apply store_update_run.
  - intros o Ho. rewrite Hby by done. case_decide; [|done]. unfold data.
    rewrite lookup_take_lt, lookup_drop by lia. f_equal. lia.
Qed.

Lemma zero_range_spec address len m :
  image_ok m → u64 address → 0 ≤ len → fits m len →
  ∃ m', zero_range address len m = Done (Ok tt) m' ∧ image_ok m' ∧
    Z.of_nat (length (mi_pages m')) ≤ Z.of_nat (length (mi_pages m)) + len / 4096 + 2 ∧
    ∀ x, u64 x → mem_byte m' x =
      if decide (index_in address x < Z.min len (u64_max - address)) then Some 0 else mem_byte m x.
Proof.
  intros Hm Ha Hl Hfit. unfold zero_range. destruct (Z.eqb_spec len 0) as [->|Hne].
  { exists m. split_and!; [done|done|change (0 / 4096) with 0; lia|]. intros x Hx. rewrite decide_False; [done|].
    pose proof (index_in_range address x). unfold u64 in Ha. lia. }
  assert (saturating_add u64_max address len - address = Z.min len (u64_max - address)) as -> by (unfold saturating_add; lia).
  set (n := Z.min len (u64_max - address)). assert (0 ≤ n ≤ len) as Hn by (unfold n, u64 in *; lia).
  assert (n ≤ 2 ^ 64) as Hn64 by (unfold n, u64, u64_max in *; rewrite two64; lia).
  assert (fits m n) as Hfn by (unfold fits in *; pose proof (Z.div_le_mono n len 4096); lia). clearbody n.
  destruct (edit_loop_spec (λ off chunk sofar index,
    store_bytes index off (replicate (Z.to_nat chunk) 0) ;;; update_page index (mark_mapped_range off chunk))
    (λ _ _, Some 0) address n Ha ltac:(lia)) with (m := m) as (m' & E & Hm' & Hlen & Hmem); [|done|done|].
  - intros m1 i b p off chunk sofar Hm1 Hi Hoff Hc Hend Hs Hsc.
    destruct (io_pages m1 Hm1 _ _ _ Hi) as (_ & Hf & Hp). pose proof (io_frames m1 Hm1 _ _ _ Hi) as Hfr.
    assert (page_bytes m1 p = frame_bytes m1 b) as Epb by (unfold page_bytes; by rewrite Hf). rewrite <-Epb in Hfr.
    assert (Forall byte (replicate (Z.to_nat chunk) 0)) as Hd by (apply Forall_replicate; unfold byte; lia).
    assert (Z.of_nat (length (replicate (Z.to_nat chunk) 0)) = chunk) as Hlen by (rewrite length_replicate; lia).
    destruct (splice_frame p (page_bytes m1 p) off _ Hfr Hd Hoff ltac:(lia)) as (out & Hsp & _).
    pose proof (marked_frame p (page_bytes m1 p) out off _ Hp Hfr Hd Hoff ltac:(lia) Hsp) as (Hf' & Hp' & Hfr' & Hby).
    rewrite Hlen in *. exists (mark_mapped_range off chunk p), out. split_and!; [|congruence|done|done|].
    + by apply store_update_run.
    + intros o Ho. rewrite Hby by done. case_decide; [|done]. apply lookup_replicate. split; [done|lia].
  - exists m'. split_and!; [done|done| |done]. pose proof (Z.div_le_mono n len 4096). lia.
Qed.

(** Putting back what is there changes nothing. *)
Lemma put_page_same m i b p :
  image_ok m → mi_pages m !! i = Some (b, p) → put_page i b p (page_bytes m p) m = m.
Proof.
  intros Hm Hi. destruct (io_present m Hm _ _ _ Hi) as [bytes Hb]. destruct (io_pages m Hm _ _ _ Hi) as (_ & Hf & _).
  unfold put_page, set_frame, page_bytes, frame_bytes. rewrite Hf, Hb, list_insert_id by done. simpl.
  rewrite insert_id by done. destruct m as [? ? ? []]. done.
Qed.
Lemma update_page_here m i b p f :
  image_ok m → mi_pages m !! i = Some (b, p) →
  update_page (Z.of_nat i) f m = Done (Ok tt) (put_page i b (f p) (page_bytes m p) m).
Proof.
  intros Hm Hi. rewrite <-(put_page_same m i b p Hm Hi) at 1. by apply update_page_run.
Qed.

(** The zeroing turns of [map_zeroed_if_unmapped] write zeros over zeros. *)
Lemma zero_loop_same m i b p l :
  image_ok m → mi_pages m !! i = Some (b, p) → (∀ o, o ∈ l → 0 ≤ o < 4096) →
  for_each l (λ offset, p <- page_at (Z.of_nat i) ;;
    if negb (is_mapped p offset) then store_bytes (Z.of_nat i) offset [0] else ret tt) m = Done (Ok tt) m.
Proof.
  intros Hm Hi Hl. induction l as [|o l IH]; [done|]. cbn [for_each]. unfold page_at at 1. unfold bind at 1 2 3.
  cbn [gets]. unfold id. rewrite Nat2Z.id, Hi. cbn [fmap option_fmap option_map snd expect].
  destruct (io_pages m Hm _ _ _ Hi) as (_ & Hf & Hp). pose proof (io_frames m Hm _ _ _ Hi) as Hfr.
  assert (page_bytes m p = frame_bytes m b) as Epb by (unfold page_bytes; by rewrite Hf). rewrite <-Epb in Hfr.
  assert (0 ≤ o < 4096) as Ho by (apply Hl; by left).
  destruct (is_mapped p o) eqn:E; cbn [negb].
  - cbn [ret]. apply IH. intros o' ?. apply Hl. by right.
  - destruct (splice_frame p (page_bytes m p) o [0] Hfr) as (out & Hsp & Hlen & _ & Hlook);
      [by apply Forall_singleton|lia|simpl; lia|].
    rewrite (store_bytes_run m i b p o [0] out) by done.
    assert (out = page_bytes m p) as ->; [|rewrite put_page_same by done; apply IH; intros; apply Hl; by right].
    apply list_eq. intros j. specialize (Hlook (Z.of_nat j) ltac:(lia)). rewrite Nat2Z.id in Hlook. rewrite Hlook.
    case_decide as Hin; [|done]. simpl in Hin. assert (Z.of_nat j = o) as Hj by lia. rewrite Hj, Z.sub_diag. simpl.
    symmetry. replace j with (Z.to_nat o) by lia. by apply (fr_zero _ _ Hfr).
Qed.

Lemma map_zeroed_spec address len m :
  image_ok m → u64 address → 0 ≤ len ≤ 2 ^ 64 → fits m len →
  ∃ m', map_zeroed_if_unmapped address len m = Done (Ok tt) m' ∧ image_ok m' ∧
    Z.of_nat (length (mi_pages m')) ≤ Z.of_nat (length (mi_pages m)) + len / 4096 + 2 ∧
    ∀ x, u64 x → mem_byte m' x =
      if decide (index_in address x < len) then Some (default 0 (mem_byte m x)) else mem_byte m x.
Proof.
  intros Hm Ha Hl Hfit.
  apply (edit_loop_spec (λ off chunk sofar index,
    for_each (seqZ off chunk) (λ offset, p <- page_at index ;;
      if negb (is_mapped p offset) then store_bytes index offset [0] else ret tt) ;;;
    update_page index (mark_mapped_range off chunk)) (λ _ o, Some (default 0 o)) address len); [done..| |done|done].
  intros m1 i b p off chunk sofar Hm1 Hi Hoff Hc Hend Hs Hsc.
  destruct (io_pages m1 Hm1 _ _ _ Hi) as (_ & Hf & Hp). pose proof (io_frames m1 Hm1 _ _ _ Hi) as Hfr.
  assert (page_bytes m1 p = frame_bytes m1 b) as Epb by (unfold page_bytes; by rewrite Hf). rewrite <-Epb in Hfr.
  destruct (mark_mapped_range_spec p off chunk Hp Hoff ltac:(lia) Hend) as (Hp' & Hf' & Hm').
  exists (mark_mapped_range off chunk p), (page_bytes m1 p). split_and!; [|congruence|done| |].
  - unfold bind. rewrite (zero_loop_same m1 i b p) by (done || (intros o ?%elem_of_seqZ; lia)).
    by apply update_page_here.
  - split; [apply Hfr..|]. intros o Ho Hno. rewrite Hm' in Hno by done. bool_prop. by apply Hfr.
  - intros o Ho. cbn [byte_of mbind option_bind]. rewrite Hm' by done. case_decide as Hin.
    + rewrite (proj2 (Z.leb_le _ _)), (proj2 (Z.ltb_lt _ _)) by lia. cbn [andb orb].
      destruct (is_mapped p o) eqn:E; [|by apply Hfr].
      destruct (page_bytes m1 p !! Z.to_nat o) eqn:Eb; [done|]. exfalso.
      apply lookup_ge_None in Eb. rewrite (fr_length _ _ Hfr) in Eb. lia.
    + assert ((off <=? o) && (o <? off + chunk) = false) as ->; [|done].
      apply andb_false_iff. rewrite Z.leb_gt, Z.ltb_ge. lia.
Qed.
End Gm.
