(* ===== verification/GuestAccessFacts.v ===== *)
(** * Guest memory: committing and unmapping pages, checked accesses *)

From stdpp Require Import list_numbers.
From S2P Require Import Prelude Bytes Flags CpuState VirtualMemory VirtualMemoryFacts Pages GuestPage GuestPageFacts.
From S2P Require Import GuestMemory GuestMemoryFacts.

Module Ga.
Import Gp Gm.

(** ** Committing whole pages *)

(** The page of [x] holds a byte of the range done so far. *)
Definition reached (address sofar x : Z) : Prop :=
  ∃ i, 0 ≤ i < sofar ∧ floor_page ((address + i) mod 2 ^ 64) = floor_page x.

Lemma reached_turn address len sofar current chunk x :
  turn address len sofar current chunk →
  reached address (sofar + chunk) x ↔ reached address sofar x ∨ floor_page x = floor_page current.
Proof.
  intros [Hc Hu Hd Hch Hp _]. unfold reached.
  assert (∀ i, sofar ≤ i < sofar + chunk → (address + i) mod 2 ^ 64 = current + (i - sofar)) as Hin.
  { intros i Hi. rewrite two64 in *. unfold u64, u64_max in *. Z.div_mod_to_equations; lia. }
  split.
  - intros (i & Hi & E). destruct (decide (i < sofar)); [left; exists i; split; [lia|done]|right].
    rewrite <-E, Hin by lia. unfold floor_page. Z.div_mod_to_equations; lia.
  - intros [(i & Hi & E)|E]; [exists i; split; [lia|done]|]. exists sofar. split; [lia|].
    rewrite Hin by lia. rewrite E. f_equal. lia.
Qed.

Lemma byte_of_full p bytes o :
  frame_ok bytes p → page_ok p → 0 ≤ o < 4096 →
  byte_of (Some (mark_fully_mapped p, bytes)) o = Some (default 0 (byte_of (Some (p, bytes)) o)).
Proof.
  intros Hfr Hp Ho. cbn [byte_of mbind option_bind]. destruct (mark_fully_mapped_spec p Hp) as (_ & _ & Hm).
  rewrite Hm by done. destruct (is_mapped p o) eqn:E; [|by apply Hfr].
  destruct (bytes !! Z.to_nat o) eqn:Eb; [done|]. exfalso.
  apply lookup_ge_None in Eb. rewrite (fr_length _ _ Hfr) in Eb. lia.
Qed.

Lemma commit_zeroed_spec address len m :
  image_ok m → u64 address → 0 ≤ len ≤ 2 ^ 64 → fits m len →
  ∃ m', commit_zeroed_pages address len m = Done (Ok tt) m' ∧ image_ok m' ∧
    Z.of_nat (length (mi_pages m')) ≤ Z.of_nat (length (mi_pages m)) + len / 4096 + 2 ∧
    ∀ x, u64 x → (reached address len x → mem_byte m' x = Some (default 0 (mem_byte m x))) ∧
                 (¬ reached address len x → mem_byte m' x = mem_byte m x).
Proof.
  intros Hm Ha Hl Hfits.
  pose (I := λ sofar m', image_ok m' ∧ 0 ≤ sofar ≤ len ∧
    Z.of_nat (length (mi_pages m')) ≤ Z.of_nat (length (mi_pages m)) + pages_spanned address sofar ∧
    ∀ x, u64 x → default 0 (mem_byte m' x) = default 0 (mem_byte m x) ∧
                 (reached address sofar x → is_Some (mem_byte m' x)) ∧
                 (¬ reached address sofar x → mem_byte m' x = mem_byte m x)).
  assert (wp (commit_zeroed_pages address len) m (λ r m', match r with Ok _ => I len m' | Err _ => False end)) as H.
  { apply (each_chunk_wp _ I (λ _ _, False)); [done|lia| |].
    2: { unfold I, pages_spanned. split_and!; [done|lia|lia|rewrite decide_True by done; lia|].
         intros x Hx. split_and!; [done| |done]. intros (i & Hi & _). lia. }
    intros sofar current chunk m1 Ht (Hm1 & Hsf & Hlen & Hmem). pose proof (turn_base _ _ _ _ _ Ht) as Hb.
    pose proof (turn_spans _ _ _ _ _ Ht) as Hsp. destruct (tn_chunk _ _ _ _ _ Ht) as [Hc0 Hcl].
    destruct (page_mut_or_insert_spec m1 (floor_page current) Hm1 Hb) as (i & m2 & p & E & Hm2 & Hi & Hv & Hother & Hbs).
    { unfold fits in Hfits. lia. }
    destruct (io_pages m2 Hm2 _ _ _ Hi) as (_ & Hf & Hp). pose proof (io_frames m2 Hm2 _ _ _ Hi) as Hfr.
    assert (page_bytes m2 p = frame_bytes m2 (floor_page current)) as Epb by (unfold page_bytes; by rewrite Hf).
    rewrite <-Epb in Hfr.
    assert (∃ p', (if negb (mp_fully_mapped p) then update_page (Z.of_nat i) mark_fully_mapped else ret tt) m2
        = Done (Ok tt) (put_page i (floor_page current) p' (page_bytes m2 p) m2) ∧
      mp_frame p' = floor_page current ∧ page_ok p' ∧
      ∀ o, 0 ≤ o < 4096 → is_mapped p' o = true) as (p' & E' & Hf' & Hp' & Hfull).
    { destruct (mark_fully_mapped_spec p Hp) as (Hok & Hframe & Hmark).
      destruct (mp_fully_mapped p) eqn:Ef; cbn [negb].
      - exists p. rewrite put_page_same by done. split_and!; [done..|]. by apply (fully_mapped_spec p Hp).
      - exists (mark_fully_mapped p). rewrite (update_page_here m2 i _ p) by done. split_and!; [done|congruence|done|done]. }
    assert (frame_ok (page_bytes m2 p) p') as Hfr'.
    { split; [apply Hfr..|]. intros o Ho. by rewrite Hfull. }
    unfold wp. cbn [bind]. rewrite E. unfold page_at. cbn [bind gets]. unfold id. rewrite Nat2Z.id, Hi. cbn [fmap option_fmap option_map expect snd].
    rewrite E'. pose proof (put_page_ok i _ p' _ m2 p Hm2 Hi Hf' Hp' Hfr') as Hm3. split_and!; [done|lia|lia| |].
    - assert (length (mi_pages (put_page i (floor_page current) p' (page_bytes m2 p) m2)) ≤ length (mi_pages m1) + 1)%nat; [|lia].
      simpl. rewrite length_insert. apply (f_equal length) in Hbs. rewrite length_fmap in Hbs. rewrite Hbs.
      case_decide; rewrite ?length_app, length_fmap; simpl; lia.
    - assert (∀ a, mem_byte m2 a = mem_byte m1 a) as Hsame by (intros a; by apply (view_insert_byte m1 m2 (floor_page current))).
      intros x Hx. pose proof (reached_turn _ _ _ _ _ x Ht) as Hreach. destruct (Hmem x Hx) as (H0 & H1 & H2).
      assert (0 ≤ x mod 4096 < 4096) as Hxo by (apply Z.mod_pos_bound; lia).
      rewrite mem_byte_view, (put_page_view i _ p' _ m2 p) by done.
      destruct (decide (floor_page x = floor_page current)) as [Ef|Hf2].
      + assert (byte_of (Some (p', page_bytes m2 p)) (x mod 4096) = Some (default 0 (mem_byte m1 x))) as ->.
        { rewrite <-Hsame, mem_byte_view, Ef. unfold view. rewrite (page_lookup m2 i _ p Hm2 Hi). cbn [mbind option_bind].
          rewrite <-byte_of_full by done. cbn [byte_of mbind option_bind]. rewrite Hfull by done.
          destruct (mark_fully_mapped_spec p Hp) as (_ & _ & Hmark). by rewrite Hmark. }
        split_and!; [done|by eexists|tauto].
      + rewrite <-mem_byte_view, Hsame. split_and!; [done|intros ?; apply H1; tauto|intros ?; apply H2; tauto]. }
  apply wp_inv in H as ([[]|e] & m' & E & H); [|done]. destruct H as (Hm' & _ & Hlen & Hmem).
  exists m'. split_and!; [done|done| |].
  - unfold pages_spanned in Hlen. assert (0 ≤ address mod 4096 < 4096) by (apply Z.mod_pos_bound; lia).
    case_decide; Z.div_mod_to_equations; lia.
  - intros x Hx. destruct (Hmem x Hx) as (H0 & H1 & H2). split; [|done]. intros Hr.
    destruct (H1 Hr) as [v Hv]. rewrite Hv in *. simpl in H0. by rewrite <-H0.
Qed.

(** ** Unmapping *)

Lemma swap_remove_lookup {A} (i : nat) (l l' : list A) a :
  swap_remove i l = Some (a, l') →
  l !! i = Some a ∧ S (length l') = length l ∧
  ∀ j x, l' !! j = Some x ↔ (j < length l')%nat ∧ l !! (if decide (j = i) then length l' else j) = Some x.
Proof.
  unfold swap_remove. destruct (l !! i) as [b|] eqn:Hi; [|done].
  destruct (last l) as [z|] eqn:Hz; [|done]. intros [= -> <-].
  pose proof (lookup_lt_Some _ _ _ Hi) as Hlt. rewrite last_lookup in Hz.
  assert (length (take (pred (length l)) (<[i:=z]> l)) = pred (length l)) as Hlen
    by (rewrite length_take, length_insert; lia).
  rewrite Hlen. split_and!; [done|lia|]. intros j x. split.
  - intros Hj. apply lookup_take_Some in Hj as [Hj Hjl]. split; [done|].
    case_decide as E; [subst; rewrite list_lookup_insert_eq in Hj by done; by rewrite Hz|].
    by rewrite list_lookup_insert_ne in Hj by done.
  - intros [Hj Hx]. apply lookup_take_Some. split; [|done].
    case_decide as E; [subst; rewrite list_lookup_insert_eq by done; congruence|].
    by rewrite list_lookup_insert_ne by done.
Qed.

Lemma release_page_spec b s :
  page_address b →
  let s' := release_page b s in
  gs_flat_size s' = gs_flat_size s ∧ gs_valid s' = gs_valid s ∧
  (∀ c, c ≠ b → gs_frames s' !! c = gs_frames s !! c) ∧
  (∀ n, n ∈ gs_materialised s' ↔ n ∈ gs_materialised s ∧ ¬ (in_window s b = true ∧ n = b / 4096)) ∧
  (∀ c, c ∈ gs_high_pages s' ↔ c ∈ gs_high_pages s ∧ ¬ (in_window s b = false ∧ c = b)).
Proof.
  intros Hb s'. unfold s', release_page. rewrite (flat_page_bit_spec s b Hb).
  destruct (in_window s b); simpl; (split_and!; [done|done| | |]); try set_solver.
  intros c Hc. by rewrite lookup_delete_ne.
Qed.

(** Forgetting the index of a removed page, and recording the page that moved. *)
Lemma forget_index_spec m b :
  directory_ok (mi_page_directory m) → page_address b →
  let m' := if covers (mi_page_directory m) b then mi_set_directory (directory_remove b (mi_page_directory m)) m
            else mi_set_high (delete b (mi_high_page_lookup m)) m in
  mi_pages m' = mi_pages m ∧ mi_store m' = mi_store m ∧ directory_ok (mi_page_directory m') ∧
  pd_chunks (mi_page_directory m') = pd_chunks (mi_page_directory m) ∧
  ∀ c, page_address c → raw_index m' c = if decide (c = b) then None else raw_index m c.
Proof.
  intros Hd Hb m'. unfold m'. destruct (directory_remove_spec _ b Hd Hb) as (Hd' & Hch & Hget).
  rewrite covers_spec by done. case_bool_decide as Hc; (split_and!; [done..|]); intros c Hcc; unfold raw_index; simpl;
    rewrite !covers_spec, ?Hch, ?Hget, ?lookup_delete by done; repeat case_bool_decide; repeat case_decide; subst; done.
Qed.

Lemma view_lookup m i b p : image_ok m → mi_pages m !! i = Some (b, p) → view m b = Some (p, frame_bytes m b).
Proof.
  intros Hm Hi. unfold view. rewrite (page_lookup m i b p Hm Hi). cbn [mbind option_bind].
  destruct (io_pages m Hm _ _ _ Hi) as (_ & Hf & _). unfold page_bytes. by rewrite Hf.
Qed.
Lemma view_None m b : image_ok m → view m b = None ↔ b ∉ (mi_pages m).*1.
Proof. intros Hm. rewrite <-(page_None m b Hm). unfold view. by destruct (page m b). Qed.

(** Images with the same pages, frames and window look the same. *)
Lemma view_same m m' b :
  image_ok m → image_ok m' → (∀ p, (∃ i, mi_pages m !! i = Some (b, p)) ↔ ∃ i, mi_pages m' !! i = Some (b, p)) →
  frame_bytes m' b = frame_bytes m b → view m' b = view m b.
Proof.
  intros Hm Hm' Hp Hf. destruct (view m b) as [[p bytes]|] eqn:E.
  - assert (∃ i, mi_pages m !! i = Some (b, p)) as Hi.
    { unfold view in E. destruct (page m b) as [q|] eqn:Eq; [|done]. simplify_eq/=.
      apply page_Some in Eq as (i & _ & Hi). by eexists. }
    destruct Hi as [i Hi]. rewrite (view_lookup m i b p Hm Hi) in E. injection E as <-.
    destruct (proj1 (Hp p)) as [j Hj]; [by eexists|]. rewrite (view_lookup m' j b p Hm' Hj). by rewrite Hf.
  - apply (view_None m b Hm) in E. apply (view_None m' b Hm'). contradict E.
    apply list_elem_of_fmap in E as ([b' p] & -> & Hin). apply list_elem_of_lookup in Hin as [i Hi]. simpl in *.
    destruct (proj2 (Hp p)) as [j Hj]; [by eexists|]. apply list_elem_of_fmap. exists (b', p). split; [done|].
    by eapply list_elem_of_lookup_2.
Qed.

Lemma elem_of_bases (l : list (Z * MemoryPage)) b : b ∈ l.*1 ↔ ∃ i p, l !! i = Some (b, p).
Proof.
  rewrite list_elem_of_fmap. split.
  - intros ([b' p] & -> & [i Hi]%list_elem_of_lookup). eauto.
  - intros (i & p & Hi). exists (b, p). split; [done|]. by eapply list_elem_of_lookup_2.
Qed.

(** The image without page [b], which was at [i]: the last page took its place. *)
Record removed (i : nat) (b : Z) (m m' : MemoryImage) : Prop := {
  rm_length : S (length (mi_pages m')) = length (mi_pages m);
  rm_pages : ∀ j x, mi_pages m' !! j = Some x ↔
    (j < length (mi_pages m'))%nat ∧ mi_pages m !! (if decide (j = i) then length (mi_pages m') else j) = Some x;
  rm_directory : directory_ok (mi_page_directory m') ∧ pd_chunks (mi_page_directory m') = pd_chunks (mi_page_directory m);
  rm_store : mi_store m' = release_page b (mi_store m);
  rm_index : ∀ j c p, mi_pages m' !! j = Some (c, p) →
    raw_index m' c = if decide (j = i) then Some (Z.of_nat i) else raw_index m c }.

Section removal.
Context (m m' : MemoryImage) (i : nat) (b : Z) (p : MemoryPage).
Context (Hm : image_ok m) (Hi : mi_pages m !! i = Some (b, p)) (Hr : removed i b m m').

Lemma removed_entry c q : (∃ j, mi_pages m' !! j = Some (c, q)) ↔ c ≠ b ∧ ∃ k, mi_pages m !! k = Some (c, q).
Proof using Hm Hi Hr.
  pose proof (rm_length _ _ _ _ Hr) as Hl. pose proof (lookup_lt_Some _ _ _ Hi) as Hlt. split.
  - intros (j & Hj). apply (rm_pages _ _ _ _ Hr) in Hj as [Hjl Hj]. split; [|by eexists]. intros ->.
    pose proof (bases_unique m _ _ _ _ _ Hm Hi Hj) as E. case_decide; lia.
  - intros (Hne & k & Hk). assert (k ≠ i) by (intros ->; congruence). pose proof (lookup_lt_Some _ _ _ Hk).
    destruct (decide (k = length (mi_pages m'))) as [->|].
    + exists i. apply (rm_pages _ _ _ _ Hr). rewrite decide_True by done. split; [lia|done].
    + exists k. apply (rm_pages _ _ _ _ Hr). rewrite decide_False by done. split; [lia|done].
Qed.

Lemma removed_base c : c ∈ (mi_pages m').*1 ↔ c ∈ (mi_pages m).*1 ∧ c ≠ b.
Proof using Hm Hi Hr.
  rewrite !elem_of_bases. split.
  - intros (j & q & Hj). destruct (proj1 (removed_entry c q)) as (? & ? & ?); eauto.
  - intros ((k & q & Hk) & Hne). destruct (proj2 (removed_entry c q)) as (? & ?); eauto.
Qed.

Lemma removed_frames c : c ≠ b → gs_frames (mi_store m') !! c = gs_frames (mi_store m) !! c.
Proof using Hm Hi Hr.
  intros Hc. destruct (io_pages m Hm _ _ _ Hi) as (Hb & _). rewrite (rm_store _ _ _ _ Hr).
  by destruct (release_page_spec b (mi_store m) Hb) as (_ & _ & -> & _).
Qed.

Lemma removed_ok : image_ok m'.
Proof using Hm Hi Hr.
  destruct (io_pages m Hm _ _ _ Hi) as (Hb & _). pose proof (rm_length _ _ _ _ Hr) as Hl.
  destruct (release_page_spec b (mi_store m) Hb) as (Hfs & Hv & _ & Hmat & Hhigh).
  rewrite <-(rm_store _ _ _ _ Hr) in Hfs, Hv, Hmat, Hhigh. pose proof (rm_directory _ _ _ _ Hr) as [Hd Hch].
  assert (∀ j c q, mi_pages m' !! j = Some (c, q) → c ≠ b ∧ ∃ k, mi_pages m !! k = Some (c, q)) as Hent
    by (intros j c q Hj; apply removed_entry; by eexists).
  split.
  - intros j c q (_ & k & Hk)%Hent. by eapply io_pages.
  - intros j c q (Hc & k & Hk)%Hent. unfold frame_bytes. rewrite removed_frames by done. by apply (io_frames m Hm _ _ _ Hk).
  - intros j c q (Hc & k & Hk)%Hent. rewrite removed_frames by done. by apply (io_present m Hm _ _ _ Hk).
  - intros j c q Hj. rewrite (rm_index _ _ _ _ Hr j c q Hj). case_decide; [by subst|].
    apply (rm_pages _ _ _ _ Hr) in Hj as [_ Hj]. rewrite decide_False in Hj by done. by apply (io_index m Hm _ _ _ Hj).
  - done.
  - rewrite Hfs, Hch. apply Hm.
  - pose proof (io_count m Hm). lia.
  - intros n. rewrite Hmat, (io_flat m Hm). setoid_rewrite removed_base.
    setoid_rewrite (in_window_eq (mi_store m) (mi_store m') _ Hv Hfs). split.
    + intros ((c & Hc & Hw & ->) & Hn). exists c. split_and!; [done| |done..]. intros ->. by apply Hn.
    + intros (c & (Hc & Hne) & Hw & ->). split; [by exists c|]. intros (_ & E). apply Hne.
      apply elem_of_bases in Hc as (k & q & Hk). destruct (io_pages m Hm _ _ _ Hk) as ([Hca _] & _).
      by apply div_4096_inj; [|apply Hb|].
  - intros c. rewrite Hhigh, (io_high m Hm), removed_base.
    rewrite (in_window_eq (mi_store m) (mi_store m') _ Hv Hfs). naive_solver.
Qed.

Lemma removed_view c : view m' c = if decide (c = b) then None else view m c.
Proof using Hm Hi Hr.
  case_decide as E.
  - subst. apply (view_None m' b removed_ok). rewrite removed_base. naive_solver.
  - apply (view_same m m' c Hm removed_ok).
    + intros q. rewrite removed_entry. naive_solver.
    + unfold frame_bytes. by rewrite removed_frames.
Qed.
End removal.

Lemma page_index_nat m b i : image_ok m → page_index m b = Some i → i = Z.of_nat (Z.to_nat i).
Proof.
  intros Hm E. destruct (page_index_Some _ _ _ E) as (p & Hi). rewrite (page_index_lookup m _ b p Hm Hi) in E. congruence.
Qed.

Lemma unmap_page_spec m b :
  image_ok m → page_address b →
  ∃ m', unmap_page b m = Done (Ok tt) m' ∧ image_ok m' ∧
    (∀ c, view m' c = if decide (c = b) then None else view m c).
Proof.
  intros Hm Hb. unfold unmap_page. mrun. unfold id. destruct (page_index m b) as [index|] eqn:E.
  2: { exists m. split_and!; [done|done|]. intros c. case_decide; [|done]. subst. unfold view, page. by rewrite E. }
  pose proof (page_index_nat m b index Hm E) as Hnat.
  apply page_index_Some in E as (p & Hi). pose proof (lookup_lt_Some _ _ _ Hi) as Hlt.
  set (i := Z.to_nat index) in *.
  assert (∃ l', swap_remove i (mi_pages m) = Some ((b, p), l')) as [l' Hsw].
  { unfold swap_remove. rewrite Hi. destruct (last (mi_pages m)) as [z|] eqn:Ez; [by eexists|].
    apply last_None in Ez. rewrite Ez in Hi. done. }
  rewrite Hsw. cbn [expect bind]. mrun. destruct (swap_remove_lookup _ _ _ _ Hsw) as (_ & Hlen & Hlook).
  set (m1 := mi_set_store (release_page b (mi_store m)) (mi_set_pages l' m)).
  set (m2 := if covers (mi_page_directory m1) b then mi_set_directory (directory_remove b (mi_page_directory m1)) m1
             else mi_set_high (delete b (mi_high_page_lookup m1)) m1).
  destruct (forget_index_spec m1 b (io_directory m Hm) Hb) as (Hp2 & Hs2 & Hd2 & Hch2 & Hraw2). fold m2 in Hp2, Hs2, Hd2, Hch2, Hraw2.
  assert (∃ m3, match l' !! i with Some (moved_base, _) => record_page_index moved_base index | None => ret tt end m2 = Done (Ok tt) m3 ∧
    removed i b m m3) as (m3 & E3 & Hrm).
  { assert (∀ j c q, l' !! j = Some (c, q) → c ≠ b ∧ page_address c ∧ ∀ j' q', l' !! j' = Some (c, q') → j' = j) as Hent.
    { intros j c q Hj. apply Hlook in Hj as [Hjl Hj]. split_and!.
      - intros ->. pose proof (bases_unique m _ _ _ _ _ Hm Hi Hj) as Ej. case_decide; lia.
      - by apply (io_pages m Hm _ _ _ Hj).
      - intros j' q' [Hjl' Hj']%Hlook. pose proof (bases_unique m _ _ _ _ _ Hm Hj Hj') as Ej. repeat case_decide; lia. }
    pose proof (io_count m Hm) as Hcount. change (mi_pages m1) with l' in Hp2.
    destruct (l' !! i) as [[c q]|] eqn:Ei.
    - destruct (Hent i c q Ei) as (Hcb & Hca & Huniq).
      destruct (record_page_index_spec m2 c index Hd2 Hca ltac:(lia)) as (m3 & E3 & Hp3 & Hs3 & Hd3 & Hch3 & Hraw3).
      exists m3. split; [done|]. split; rewrite ?Hp3, ?Hp2; [done|done|split; [done|by rewrite Hch3, Hch2]|by rewrite Hs3, Hs2|].
      intros j c' q' Hj. destruct (Hent j c' q' Hj) as (Hcb' & Hca' & _). rewrite Hraw3 by done.
      destruct (decide (c' = c)) as [->|Hne].
      + rewrite (Huniq _ _ Hj), decide_True by done. f_equal. lia.
      + rewrite decide_False by (intros ->; congruence). rewrite Hraw2, decide_False by done. done.
    - exists m2. split; [done|]. split; rewrite ?Hp2; [done|done|done|done|].
      intros j c' q' Hj. destruct (Hent j c' q' Hj) as (Hcb' & Hca' & _).
      rewrite decide_False by (intros ->; simpl in Hj; congruence). rewrite Hraw2, decide_False by done. done. }
  exists m3. split; [|split; [by eapply removed_ok|by eapply removed_view]].
  unfold m2 in E3. change (mi_page_directory m1) with (mi_page_directory m) in E3. fold i.
  destruct (covers (mi_page_directory m) b); exact E3.
Qed.

(** A range of whole pages, up to the end of the address space when it wraps. *)
Lemma unmap_loop_spec fuel b e m :
  image_ok m → page_address b → page_address e →
  ((if decide (b ≤ e) then e else 2 ^ 64 - 4096) - b) / 4096 < Z.of_nat fuel →
  ∃ m', unmap_loop fuel b e m = Done (Ok tt) m' ∧ image_ok m' ∧
    ∀ c, page_address c → view m' c =
      if decide (b ≤ c ≤ (if decide (b ≤ e) then e else 2 ^ 64 - 4096)) then None else view m c.
Proof.
  revert b m. induction fuel as [|fuel IH]; intros b m Hm Hb He Hf.
  { exfalso. destruct Hb, He. rewrite two64 in *. case_decide; page_lia. }
  cbn [unmap_loop]. destruct (unmap_page_spec m b Hm Hb) as (m1 & E & Hm1 & Hv). cbn [bind]. rewrite E.
  destruct (Z.eqb_spec b e) as [->|Hne].
  - exists m1. split_and!; [done|done|]. intros c Hc. rewrite Hv. rewrite (decide_True (P := e ≤ e)) by lia.
    apply decide_if_ext. lia.
  - destruct Hb as [Hba Hbr], He as [Hea Her]. unfold checked_add, MEMORY_PAGE_SIZE.
    destruct (b + 4096 <=? u64_max) eqn:Ec; bool_prop; unfold u64_max in Ec; rewrite ?two64 in *.
    + destruct (IH (b + 4096) m1 Hm1) as (m2 & E2 & Hm2 & Hv2).
      { split; [page_lia|]. rewrite ?two64. page_lia. }
      { done. }
      { rewrite ?two64. repeat case_decide; page_lia. }
      exists m2. split_and!; [done|done|]. intros c Hc. destruct Hc as [Hca Hcr]. rewrite ?two64 in *.
      rewrite (Hv2 c) by (by split; [|rewrite ?two64]). rewrite Hv, ?two64.
      repeat case_decide; try done; exfalso; page_lia.
    + exists m1. split_and!; [done|done|]. intros c [Hca Hcr]. rewrite Hv. rewrite ?two64 in *.
      repeat case_decide; try done; exfalso; page_lia.
Qed.

(** The pages from the first address of the range to its last, whole. *)
Lemma unmap_range_spec address len m :
  image_ok m → u64 address → 0 < len → address + len ≤ 2 ^ 64 →
  ∃ m', unmap_range address len m = Done (Ok tt) m' ∧ image_ok m' ∧
    ∀ x, u64 x → mem_byte m' x =
      if decide (floor_page address ≤ floor_page x ≤ floor_page (address + len - 1)) then None else mem_byte m x.
Proof.
  intros Hm Ha Hl Hfit. unfold unmap_range. rewrite (proj2 (Z.eqb_neq _ _)) by lia. rewrite land_page by done.
  set (e := if wrapping_add64 address len =? 0 then MEMORY_PAGE_MASK else Z.land (wrapping_add64 address len - 1) MEMORY_PAGE_MASK).
  assert (e = floor_page (address + len - 1)) as Ee.
  { unfold e, wrapping_add64, wrap64. destruct (decide (address + len = 2 ^ 64)) as [E|].
    - rewrite E, Z.mod_same by lia. cbn [Z.eqb]. change MEMORY_PAGE_MASK with 18446744073709547520. rewrite two64. done.
    - rewrite Z.mod_small by (unfold u64 in Ha; lia). rewrite (proj2 (Z.eqb_neq _ _)) by (unfold u64 in Ha; lia).
      apply mask_page. unfold u64, u64_max in *. rewrite two64 in *. lia. }
  rewrite Ee. pose proof (floor_page_spec address) as [Haa ?]. pose proof (floor_page_spec (address + len - 1)) as [Hea ?].
  pose proof (floor_page_le address (address + len - 1) ltac:(lia)) as Hle.
  assert (page_address (floor_page address) ∧ page_address (floor_page (address + len - 1))) as [Hpa Hpe].
  { unfold page_address, u64, u64_max in *. rewrite two64 in *. split; (split; [done|page_lia]). }
  rewrite (proj2 (Z.leb_le _ _)) by done. unfold MEMORY_PAGE_SIZE.
  destruct (unmap_loop_spec (Z.to_nat ((floor_page (address + len - 1) - floor_page address) / 4096 + 1))
    (floor_page address) (floor_page (address + len - 1)) m Hm Hpa Hpe) as (m' & E & Hm' & Hv).
  { rewrite decide_True by done. Z.div_mod_to_equations; lia. }
  exists m'. split_and!; [done|done|]. intros x Hx. rewrite !mem_byte_view. rewrite Hv.
  - rewrite (decide_True (P := floor_page address ≤ floor_page (address + len - 1))) by done. by destruct (decide (floor_page address ≤ floor_page x ≤ floor_page (address + len - 1))).
  - unfold page_address, u64, u64_max in *. rewrite two64 in *. split; [apply floor_page_spec|page_lia].
Qed.

(** ** Probing a range *)

Definition mapped (m : MemoryImage) (x : Z) : Prop := is_Some (mem_byte m x).

Lemma mem_byte_at m x p :
  image_ok m → page m (floor_page x) = Some p →
  mem_byte m x = (if is_mapped p (x mod 4096) then page_bytes m p !! Z.to_nat (x mod 4096) else None) ∧
  (mapped m x ↔ is_mapped p (x mod 4096) = true).
Proof.
  intros Hm E. destruct (page_facts m _ _ Hm E) as (_ & _ & _ & Hfr).
  unfold mapped, mem_byte. rewrite E. cbn [mbind option_bind]. split; [done|].
  destruct (is_mapped p (x mod 4096)); [|split; [by intros [? ?]|done]]. split; [done|]. intros _.
  apply lookup_lt_is_Some. rewrite (fr_length _ _ Hfr). pose proof (Z.mod_pos_bound x 4096). lia.
Qed.

(** The part of a range in one page: all mapped, or its first hole. *)
Lemma chunk_probe m current chunk :
  image_ok m → 0 < chunk → current mod 4096 + chunk ≤ 4096 →
  match page m (floor_page current) with
  | None => mem_byte m current = None
  | Some p =>
      if range_is_mapped p (current mod 4096) chunk
      then ∀ x, current ≤ x < current + chunk → mapped m x
      else ∃ o, first_unmapped_offset p (current mod 4096) chunk = Some o ∧
        let f := floor_page current + o in
        current ≤ f < current + chunk ∧ mem_byte m f = None ∧ ∀ x, current ≤ x < f → mapped m x
  end.
Proof.
  intros Hm Hc Hp. destruct (page m (floor_page current)) as [p|] eqn:E; [|by unfold mem_byte; rewrite E].
  destruct (page_facts m _ _ Hm E) as (_ & _ & Hpk & _).
  assert (0 ≤ current mod 4096 < 4096) as Ho by (apply Z.mod_pos_bound; lia).
  assert (∀ x, current ≤ x < current + chunk → floor_page x = floor_page current ∧ x mod 4096 = current mod 4096 + (x - current)) as Hx.
  { intros x Hx. unfold floor_page. Z.div_mod_to_equations; lia. }
  assert (∀ o, current mod 4096 ≤ o < current mod 4096 + chunk →
    current ≤ floor_page current + o < current + chunk ∧ (floor_page current + o) mod 4096 = o) as Hback.
  { intros o Hoo. unfold floor_page. Z.div_mod_to_equations; lia. }
  destruct (range_is_mapped p (current mod 4096) chunk) eqn:Er.
  - intros x Hin. destruct (Hx x Hin) as [Ef Em]. rewrite <-Ef in E. apply (mem_byte_at m x p Hm E).
    apply (proj1 (range_is_mapped_spec p (current mod 4096) chunk Hpk ltac:(lia) ltac:(lia) ltac:(lia)) Er). lia.
  - destruct (unmapped_offset_found p (current mod 4096) chunk) as (o & Eo); [done|lia|lia|lia|done|].
    exists o. split; [done|]. pose proof (first_unmapped_offset_spec p (current mod 4096) chunk Hpk ltac:(lia) ltac:(lia) ltac:(lia)) as Hs.
    rewrite Eo in Hs. destruct Hs as (Hoo & Hno & Hbefore). destruct (Hback o Hoo) as [Hin Em].
    destruct (Hx _ Hin) as [Ef _]. split_and!; [lia|lia| |].
    + pose proof E as E'. rewrite <-Ef in E'. destruct (mem_byte_at m _ p Hm E') as [-> _]. by rewrite Em, Hno.
    + intros x Hxx. assert (current ≤ x < current + chunk) as Hxin by lia. destruct (Hx x Hxin) as [Ef' Em'].
      pose proof E as E'. rewrite <-Ef' in E'. apply (mem_byte_at m x p Hm E'). apply Hbefore. unfold floor_page in Hxx. lia.
Qed.

(** [f] is the first address of the range that is not as [P] says. *)
Definition first_bad (P : Z → Prop) (address len f : Z) : Prop :=
  u64 f ∧ index_in address f < len ∧ ¬ P f ∧ ∀ x, u64 x → index_in address x < index_in address f → P x.
Definition all_good (P : Z → Prop) (address len : Z) : Prop := ∀ x, u64 x → index_in address x < len → P x.

Section turns.
Context (P : Z → Prop) (address len sofar current chunk : Z).
Context (Ha : u64 address) (Hl : len ≤ 2 ^ 64) (Ht : turn address len sofar current chunk).

Lemma good_turn :
  all_good P address sofar → (∀ x, current ≤ x < current + chunk → P x) → all_good P address (sofar + chunk).
Proof using Ha Hl Ht.
  intros Hg Hc x Hx Hi. destruct (decide (index_in address x < sofar)); [by apply Hg|]. apply Hc.
  pose proof (tn_chunk _ _ _ _ _ Ht). apply (index_in_turn address len sofar current chunk x); [done|done|lia|done|lia].
Qed.
Lemma bad_turn f :
  all_good P address sofar → current ≤ f < current + chunk → ¬ P f → (∀ x, current ≤ x < f → P x) →
  first_bad P address len f.
Proof using Ha Hl Ht.
  intros Hg Hf Hn Hc. pose proof (tn_chunk _ _ _ _ _ Ht) as [Hc0 Hc1]. pose proof (tn_u64 _ _ _ _ _ Ht) as Hu.
  assert (u64 f) as Hfu.
  { pose proof (tn_page _ _ _ _ _ Ht). unfold u64, u64_max in *. Z.div_mod_to_equations; lia. }
  pose proof (index_in_value address len sofar current chunk f Ha Hfu ltac:(lia) Ht Hf) as Ev.
  split_and!; [done|lia|done|]. intros x Hx Hi. destruct (decide (index_in address x < sofar)); [by apply Hg|]. apply Hc.
  assert (current ≤ x < current + chunk) as Hxc by (apply (index_in_turn address len sofar current chunk x); [done|done|lia|done|lia]).
  pose proof (index_in_value address len sofar current chunk x Ha Hx ltac:(lia) Ht Hxc). lia.
Qed.
End turns.

Lemma first_unmapped_in_range_spec m address len :
  image_ok m → u64 address → 0 ≤ len ≤ 2 ^ 64 →
  ∃ o, first_unmapped_in_range address len m = Done (Ok o) m ∧
    match o with
    | None => all_good (mapped m) address len
    | Some f => first_bad (mapped m) address len f
    end.
Proof.
  intros Hm Ha Hl. unfold first_unmapped_in_range. destruct (Z.eqb_spec len 0) as [->|Hne].
  { exists None. split; [done|]. intros x _ Hi. pose proof (index_in_range address x). lia. }
  match goal with |- context [each_chunk ?f _ _] => set (body := f) end.
  assert (wp (each_chunk body address len) m (λ r s, match r with
    | Ok _ => s = m ∧ all_good (mapped m) address len
    | Err e => s = m ∧ first_bad (mapped m) address len e end)) as H.
  { apply (each_chunk_wp body (λ sofar s, s = m ∧ all_good (mapped m) address sofar)
      (λ e s, s = m ∧ first_bad (mapped m) address len e)); [done|lia| |].
    2: { split; [done|]. intros x _ Hi. pose proof (index_in_range address x). lia. }
    intros sofar current chunk s Ht [-> Hg]. pose proof (tn_chunk _ _ _ _ _ Ht) as [Hc0 _].
    pose proof (chunk_probe m current chunk Hm Hc0 (tn_page _ _ _ _ _ Ht)) as Hprobe.
    unfold body, wp. cbn [bind gets]. unfold id. destruct (page m (floor_page current)) as [p|].
    - destruct (range_is_mapped p (current mod 4096) chunk).
      + split; [done|]. apply (good_turn _ address len sofar current chunk Ha); [lia|done..].
      + destruct Hprobe as (o & -> & Hf & Hnone & Hbefore). cbn [bind expect throw]. split; [done|].
        apply (bad_turn _ address len sofar current chunk Ha); [lia|done|done|done| |done].
        unfold mapped. rewrite Hnone. by intros [? ?].
    - cbn [throw]. split; [done|]. apply (bad_turn _ address len sofar current chunk Ha); [lia|done|done|lia| |intros; lia].
      unfold mapped. rewrite Hprobe. by intros [? ?]. }
  apply wp_inv in H as ([[]|e] & s & -> & -> & H); by eexists.
Qed.

(** ** Accesses under a virtual memory

    What the accesses rely on: a fault names the address that was checked, and the
    addresses of a page fare alike. *)

Definition denied (vm : option VirtualMemory) (write : bool) (x : Z) : option VmAccessFault :=
  v ← vm; check_access v x write false.
Definition allowed (vm : option VirtualMemory) (write : bool) (x : Z) : Prop := denied vm write x = None.
#[export] Instance allowed_dec vm write x : Decision (allowed vm write x).
Proof. unfold allowed. destruct (denied vm write x); [by right|by left]. Defined.

Class PagewiseVm (vm : option VirtualMemory) : Prop := {
  pv_address : ∀ write x f, denied vm write x = Some f → vf_address f = x;
  pv_page : ∀ write x y, u64 x → u64 y → floor_page x = floor_page y → allowed vm write x → allowed vm write y }.

#[export] Instance no_vm_pagewise : PagewiseVm None.
Proof. by split. Qed.

Lemma check_access_address v x write execute f : check_access v x write execute = Some f → vf_address f = x.
Proof. unfold check_access. intros H. repeat case_match; simplify_eq; done. Qed.

Lemma vm_pagewise v : Vm.vm_ok v → PagewiseVm (Some v).
Proof.
  intros Hv. split; [intros write x f; apply check_access_address|].
  intros write x y Hx Hy E. unfold allowed, denied. cbn [mbind option_bind]. unfold check_access.
  rewrite !Vm.land_mask by done. rewrite <-(Vm.region_containing_floor v Hv x), <-(Vm.region_containing_floor v Hv y), E.
  repeat case_match; done.
Qed.

Lemma check_canonical_run vm write x m :
  check_canonical_access vm x write false m = Done (match denied vm write x with Some f => Err (vf_address f) | None => Ok tt end) m.
Proof. unfold check_canonical_access, denied. destruct vm; [|done]. cbn. by destruct (check_access _ _ _ _). Qed.

Section accesses.
Context (vm : option VirtualMemory) `{!PagewiseVm vm}.

Definition readable (m : MemoryImage) (x : Z) : Prop := allowed vm false x ∧ mapped m x.

(** The bytes of a range, as a list. *)
Definition bytes_at (m : MemoryImage) (address : Z) (out : list Z) : Prop :=
  ∀ x, u64 x → index_in address x < Z.of_nat (length out) → mem_byte m x = out !! Z.to_nat (index_in address x).

(** A read answers the bytes of the range when all of it is readable; else it names
    the first address that is not.  Nothing changes. *)
Lemma read_into_spec m address len :
  image_ok m → u64 address → 0 ≤ len ≤ 2 ^ 64 →
  ∃ r, read_into vm address len m = Done r m ∧
    match r with
    | Ok out => all_good (readable m) address len ∧ Z.of_nat (length out) = len ∧ bytes_at m address out
    | Err f => first_bad (readable m) address len f
    end.
Proof using All.
  intros Hm Ha Hl. unfold read_into, unmapped_memory_error. destruct (Z.eqb_spec len 0) as [->|Hne].
  { exists (Ok []). split; [done|]. split_and!; [|done|]; intros x _ Hi; pose proof (index_in_range address x); simpl in Hi; lia. }
  match goal with |- context [for_chunks ?f _ _] => set (body := f) end.
  assert (wp (for_chunks body address len) m (λ r s, match r with
    | Ok out => s = m ∧ all_good (readable m) address len ∧ Z.of_nat (length out) = len ∧ bytes_at m address out
    | Err e => s = m ∧ first_bad (readable m) address len e end)) as H.
  { apply (for_chunks_wp body (λ sofar acc s, s = m ∧ all_good (readable m) address sofar ∧ Z.of_nat (length acc) = sofar ∧ bytes_at m address acc)
      (λ e s, s = m ∧ first_bad (readable m) address len e)); [done|lia| |].
    2: { split_and!; [done| |done|]; intros x _ Hi; pose proof (index_in_range address x); simpl in Hi; lia. }
    intros sofar current chunk acc s Ht (-> & Hg & Hacc & Hbytes). pose proof (tn_chunk _ _ _ _ _ Ht) as [Hc0 Hcl].
    pose proof (tn_u64 _ _ _ _ _ Ht) as Hu.
    pose proof (chunk_probe m current chunk Hm Hc0 (tn_page _ _ _ _ _ Ht)) as Hprobe.
    assert (∀ x, current ≤ x < current + chunk → u64 x ∧ floor_page x = floor_page current) as Hin.
    { intros x Hx. pose proof (tn_page _ _ _ _ _ Ht). unfold u64, u64_max, floor_page in *. Z.div_mod_to_equations; lia. }
    unfold body, wp. cbn [bind]. rewrite check_canonical_run. destruct (denied vm false current) as [f|] eqn:Hd.
    { split; [done|]. rewrite (pv_address false current f Hd).
      apply (bad_turn _ address len sofar current chunk Ha); [lia|done|done|lia| |intros; lia].
      intros [Hal _]. unfold allowed in Hal. congruence. }
    assert (∀ x, current ≤ x < current + chunk → allowed vm false x) as Hall.
    { intros x Hx. destruct (Hin x Hx). by apply (pv_page false current x). }
    cbn [gets]. unfold id. destruct (page m (floor_page current)) as [p|] eqn:Ep; cbn [ok_or].
    2: { split; [done|]. apply (bad_turn _ address len sofar current chunk Ha); [lia|done|done|lia| |intros; lia].
         intros [_ [? Hmp]]. congruence. }
    destruct (range_is_mapped p (current mod 4096) chunk); cbn [negb].
    2: { destruct Hprobe as (o & -> & Hf & Hnone & Hbefore). cbn [bind expect throw]. split; [done|].
         apply (bad_turn _ address len sofar current chunk Ha); [lia|done|done|done| |].
         - intros [_ [? Hmp]]. congruence.
         - intros x Hx. split; [apply Hall; lia|by apply Hbefore]. }
    destruct (page_facts m _ _ Hm Ep) as (_ & _ & _ & Hfr).
    assert (0 ≤ current mod 4096 < 4096) as Ho by (apply Z.mod_pos_bound; lia).
    destruct (slice_is_Some (current mod 4096) chunk (page_bytes m p)) as [out Hout];
      [lia|lia|rewrite (fr_length _ _ Hfr); apply (tn_page _ _ _ _ _ Ht)|].
    rewrite Hout. cbn [expect]. pose proof (slice_Some _ _ _ _ Hout) as (_ & _ & _ & Hlen & Hlook). split_and!; [done| | |].
    - apply (good_turn _ address len sofar current chunk Ha); [lia|done|done|].
      intros x Hx. split; [by apply Hall|by apply Hprobe].
    - rewrite length_app. lia.
    - intros x Hx Hi. rewrite length_app in Hi. destruct (decide (index_in address x < sofar)).
      + rewrite lookup_app_l by (pose proof (index_in_range address x); lia). apply Hbytes; [done|lia].
      + assert (current ≤ x < current + chunk) as Hxc by (apply (index_in_turn address len sofar current chunk x); [done|done|lia|done|lia]).
        pose proof (index_in_value address len sofar current chunk x Ha Hx ltac:(lia) Ht Hxc) as Ev.
        rewrite lookup_app_r by lia. destruct (Hin x Hxc) as [_ Ef]. pose proof Ep as Ep'. rewrite <-Ef in Ep'.
        destruct (mem_byte_at m x p Hm Ep') as [Hb Hmp]. destruct (Hprobe x Hxc) as [v Hv].
        rewrite (proj1 Hmp (ex_intro _ v Hv)) in Hb. rewrite Hb.
        replace (Z.to_nat (index_in address x) - length acc)%nat with (Z.to_nat (x - current)) by lia.
        rewrite Hlook by lia. f_equal. unfold floor_page in Ef. lia. }
  apply wp_inv in H as ([out|e] & s & -> & -> & H); by eexists.
Qed.

(** A checked read asks the virtual memory about its first byte only: a later page
    that is mapped but denied makes it panic. *)
Lemma guest_read_checked_spec m address len :
  image_ok m → u64 address → 0 ≤ len ≤ 2 ^ 64 →
  if decide (allowed vm false address) then
    (∃ f, first_bad (mapped m) address len f ∧
       guest_read_checked vm address len m = Done (Ok (inr (fault_of f false len))) m) ∨
    (all_good (mapped m) address len ∧
     ((∃ out, all_good (allowed vm false) address len ∧ Z.of_nat (length out) = len ∧ bytes_at m address out ∧
         guest_read_checked vm address len m = Done (Ok (inl out)) m) ∨
      (∃ f, first_bad (allowed vm false) address len f ∧ guest_read_checked vm address len m = Panic)))
  else guest_read_checked vm address len m = Done (Ok (inr (fault_of address false len))) m.
Proof using All.
  intros Hm Ha Hl. unfold guest_read_checked. unfold allowed at 1. change (vm ← vm; check_access vm address false false) with (denied vm false address).
  case_decide as Hd.
  2: { destruct (denied vm false address) as [f|] eqn:E; [|by destruct Hd]. by rewrite (pv_address _ _ _ E). }
  rewrite Hd. destruct (first_unmapped_in_range_spec m address len Hm Ha Hl) as (o & E & Ho). cbn [bind]. rewrite E.
  destruct o as [f|]; [left; by exists f|right]. split; [done|].
  destruct (read_into_spec m address len Hm Ha Hl) as ([out|f] & Er & H); rewrite Er.
  - left. destruct H as (Hg & Hlen & Hb). exists out. split_and!; [|done|done|done]. intros x Hx Hi. by apply Hg.
  - right. exists f. split; [|done]. destruct H as (Hu & Hi & Hn & Hbefore). split_and!; [done|done| |].
    + intros Hal. apply Hn. split; [done|]. by apply Ho.
    + intros x Hx Hix. by apply Hbefore.
Qed.

(** *** Writes *)

Lemma write_validated_spec m address buf :
  image_ok m → u64 address → Z.of_nat (length buf) ≤ 2 ^ 64 → Forall byte buf →
  all_good (mapped m) address (Z.of_nat (length buf)) →
  ∃ m', write_validated address buf m = Done (Ok tt) m' ∧ image_ok m' ∧ mi_pages m' = mi_pages m ∧
    ∀ x, u64 x → mem_byte m' x =
      if decide (index_in address x < Z.of_nat (length buf)) then buf !! Z.to_nat (index_in address x) else mem_byte m x.
Proof using.
  intros Hm Ha Hl Hb Hg. set (len := Z.of_nat (length buf)) in *.
  pose (I := λ sofar m', image_ok m' ∧ mi_pages m' = mi_pages m ∧
    ∀ x, u64 x → mem_byte m' x =
      if decide (index_in address x < sofar) then buf !! Z.to_nat (index_in address x) else mem_byte m x).
  assert (wp (write_validated address buf) m (λ r m', match r with Ok _ => I len m' | Err _ => False end)) as H.
  { apply (each_chunk_wp _ I (λ _ _, False)); [done|lia| |].
    2: { split_and!; [done..|]. intros x Hx. rewrite decide_False; [done|]. pose proof (index_in_range address x). lia. }
    intros sofar current chunk m1 Ht (Hm1 & Hpg & Hmem). destruct (tn_chunk _ _ _ _ _ Ht) as [Hc0 Hcl].
    pose proof (tn_page _ _ _ _ _ Ht) as Hcp. pose proof (tn_done _ _ _ _ _ Ht) as Hsf. pose proof (tn_u64 _ _ _ _ _ Ht) as Hu.
    assert (∀ x, current ≤ x < current + chunk → u64 x ∧ floor_page x = floor_page current ∧ x mod 4096 = current mod 4096 + (x - current)) as Hin.
    { intros x Hx. unfold u64, u64_max, floor_page in *. Z.div_mod_to_equations; lia. }
    assert (∀ x, u64 x → mapped m x → mapped m1 x) as Hmapped.
    { intros x Hx Hmp. unfold mapped. rewrite Hmem by done. case_decide; [|done]. apply lookup_lt_is_Some.
      pose proof (index_in_range address x). lia. }
    assert (∀ x, current ≤ x < current + chunk → mapped m1 x) as Hmc.
    { intros x Hx. destruct (Hin x Hx) as (Hxu & _). apply Hmapped; [done|]. apply Hg; [done|].
      assert (sofar ≤ index_in address x < sofar + chunk); [|lia].
      apply (index_in_turn address len sofar current chunk x); [done|done|lia|done|done]. }
    assert (∃ p, page m1 (floor_page current) = Some p) as [p Ep].
    { destruct (Hmc current ltac:(lia)) as [v Hv]. unfold mem_byte in Hv. destruct (page m1 _); [by eexists|done]. }
    apply page_Some in Ep as Ep'. destruct Ep' as (index & Ei & Hi). pose proof (page_index_nat m1 _ _ Hm1 Ei) as Hn.
    destruct (page_facts m1 _ _ Hm1 Ep) as (_ & Hf & Hpk & Hfr).
    set (data := take (Z.to_nat chunk) (drop (Z.to_nat sofar) buf)).
    assert (Z.of_nat (length data) = chunk) as Hlen by (unfold data; rewrite length_take, length_drop; lia).
    assert (Forall byte data) as Hd by by apply Forall_take, Forall_drop.
    assert (0 ≤ current mod 4096 < 4096) as Ho by (apply Z.mod_pos_bound; lia).
    destruct (splice_frame p (page_bytes m1 p) (current mod 4096) data Hfr Hd ltac:(lia) ltac:(lia)) as (out & Hsp & Hol & Hob & Hlook).
    assert (frame_ok out p) as Hfr'.
    { split; [done|done|]. intros o Hoo Hno. rewrite Hlook by lia. case_decide as Hc; [|by apply Hfr]. exfalso.
      specialize (Hmc (current + (o - current mod 4096)) ltac:(lia)).
      destruct (Hin (current + (o - current mod 4096)) ltac:(lia)) as (_ & Ef & Em).
      pose proof Ep as Ep'. rewrite <-Ef in Ep'. apply (mem_byte_at m1 _ p Hm1 Ep') in Hmc.
      rewrite Em in Hmc. replace (current mod 4096 + _) with o in Hmc by lia. congruence. }
    unfold wp. cbn [bind gets]. unfold id. rewrite Ei. cbn [expect]. rewrite Hn.
    rewrite (store_bytes_run m1 _ (floor_page current) p _ data out) by done.
    split_and!; [by apply (put_page_ok _ _ _ _ _ p)|simpl; by rewrite list_insert_id|].
    intros x Hx. rewrite mem_byte_view, (put_page_view _ _ p out m1 p) by done.
    pose proof (index_in_turn address len sofar current chunk x Ha Hx ltac:(lia) Ht) as Hit.
    pose proof (turn_page _ _ _ _ _ x Ht) as Htp. assert (0 ≤ x mod 4096 < 4096) as Hxo by (apply Z.mod_pos_bound; lia).
    destruct (decide (floor_page x = floor_page current)) as [Ef|Hnf].
    - cbn [byte_of mbind option_bind]. rewrite Hlook by lia. rewrite Hlen.
      destruct (decide (current mod 4096 ≤ x mod 4096 < current mod 4096 + chunk)) as [Hc|Hc].
      + assert (current ≤ x < current + chunk) as Hxc by (apply Htp; by split).
        pose proof (index_in_value address len sofar current chunk x Ha Hx ltac:(lia) Ht Hxc) as Ev.
        pose proof (Hmc x Hxc) as Hmx. pose proof Ep as Ep'. rewrite <-Ef in Ep'. apply (mem_byte_at m1 x p Hm1 Ep') in Hmx.
        rewrite Hmx, decide_True by lia. unfold data. rewrite lookup_take_lt, lookup_drop by lia. f_equal.
        unfold floor_page in Ef. lia.
      + pose proof Ep as Ep'. rewrite <-Ef in Ep'. destruct (mem_byte_at m1 x p Hm1 Ep') as [Hb' _].
        rewrite <-Hb', (Hmem x Hx). apply decide_if_ext.
        assert (¬ (sofar ≤ index_in address x < sofar + chunk)); [|lia]. intros Hx'. apply Hit, Htp in Hx'. naive_solver.
    - rewrite <-mem_byte_view, (Hmem x Hx). apply decide_if_ext.
      assert (¬ (sofar ≤ index_in address x < sofar + chunk)); [|lia]. intros Hx'. apply Hit, Htp in Hx'. naive_solver. }
  apply wp_inv in H as ([[]|e] & m' & E & H); [|done]. destruct H as (? & ? & ?). by exists m'.
Qed.

(** A checked write is all or nothing on the page table; the virtual memory is asked
    about its first byte only. *)
Lemma guest_write_checked_spec m address buf :
  image_ok m → u64 address → Z.of_nat (length buf) ≤ 2 ^ 64 → Forall byte buf →
  let len := Z.of_nat (length buf) in
  if decide (allowed vm true address) then
    (∃ f, first_bad (mapped m) address len f ∧
       guest_write_checked vm address buf m = Done (Ok (inr (fault_of f true len))) m) ∨
    (all_good (mapped m) address len ∧ ∃ m', guest_write_checked vm address buf m = Done (Ok (inl tt)) m' ∧
       image_ok m' ∧ mi_pages m' = mi_pages m ∧
       ∀ x, u64 x → mem_byte m' x = if decide (index_in address x < len) then buf !! Z.to_nat (index_in address x) else mem_byte m x)
  else guest_write_checked vm address buf m = Done (Ok (inr (fault_of address true len))) m.
Proof using All.
  intros Hm Ha Hl Hb len. unfold guest_write_checked. change (vm ← vm; check_access vm address true false) with (denied vm true address).
  unfold allowed. case_decide as Hd.
  2: { destruct (denied vm true address) as [f|] eqn:E; [|by destruct Hd]. by rewrite (pv_address _ _ _ E). }
  rewrite Hd. destruct (first_unmapped_in_range_spec m address len Hm Ha ltac:(lia)) as (o & E & Ho). cbn [bind].
  fold len. rewrite E. destruct o as [f|]; [left; by exists f|right]. split; [done|].
  destruct (write_validated_spec m address buf Hm Ha Hl Hb Ho) as (m' & Ew & ?). cbn [bind]. rewrite Ew. by exists m'.
Qed.
End accesses.
End Ga.
