(* ===== verification/GuestValueFacts.v ===== *)
(** * Guest memory: integers, vectors, interlocked accesses and operand addresses *)

From stdpp Require Import list_numbers.
From S2P Require Import Prelude Bytes Flags CpuState VirtualMemory VirtualMemoryFacts Pages GuestPage GuestPageFacts.
From S2P Require Import GuestMemory GuestMemoryFacts GuestAccessFacts.

Module Gv.
Import Gp Gm Ga.

(** ** Ranges in one page *)

Lemma for_chunks_single {S} (body : Z → Z → Z → Z → Z → M S (list Z)) address len s :
  u64 address → 0 < len → address mod 4096 + len ≤ 4096 →
  for_chunks body address len s = body address (floor_page address) (address mod 4096) len 0 s.
Proof.
  intros Ha Hl Hp. unfold for_chunks, MEMORY_PAGE_SIZE. replace (Z.to_nat (len / 4096 + 2)) with (Datatypes.S (Datatypes.S (Z.to_nat (len / 4096))))
    by (Z.div_mod_to_equations; lia).
  assert (Z.min (4096 - address mod 4096) (len - 0) = len) as Emin by lia.
  cbn [chunk_loop]. rewrite (proj2 (Z.ltb_lt 0 len)) by done. rewrite (offset_in_page _ Ha), (mask_page _ Ha). unfold MEMORY_PAGE_SIZE.
  rewrite Emin, Z.add_0_l, Z.ltb_irrefl. unfold bind, ret. destruct (body _ _ _ _ _ s) as [[out|e] s'|]; [by rewrite app_nil_r|done..].
Qed.

Lemma each_chunk_single {S} (body : Z → Z → Z → Z → Z → M S unit) address len s :
  u64 address → 0 < len → address mod 4096 + len ≤ 4096 →
  each_chunk body address len s = body address (floor_page address) (address mod 4096) len 0 s.
Proof.
  intros Ha Hl Hp. unfold each_chunk, bind at 1. rewrite for_chunks_single by done. unfold bind, ret.
  by destruct (body _ _ _ _ _ s) as [[[]|e] s'|].
Qed.

(** ** Integers *)

Lemma in_page_run address n : u64 address → (address - Z.land address MEMORY_PAGE_MASK + n <=? MEMORY_PAGE_SIZE) = (address mod 4096 + n <=? 4096).
Proof. intros Ha. by rewrite offset_in_page. Qed.

(** The path for one page is the general one. *)
Lemma read_int_eq vm n address m :
  u64 address → 0 < n → read_int n vm address m = (bytes <- read_into vm address n ;; ret (from_le_bytes bytes)) m.
Proof.
  intros Ha Hn. unfold read_int. rewrite in_page_run by done. rewrite offset_in_page, mask_page by done.
  unfold bind at 1. rewrite check_canonical_run. cbn [bind gets]. unfold id.
  assert (∀ f, denied vm false address = Some f → read_into vm address n m = Done (Err (vf_address f)) m) as Hden.
  { intros f Hf. unfold read_into. rewrite (proj2 (Z.eqb_neq _ _)) by lia. unfold for_chunks, MEMORY_PAGE_SIZE.
    replace (Z.to_nat (n / 4096 + 2)) with (S (Z.to_nat (n / 4096 + 1))) by (Z.div_mod_to_equations; lia).
    cbn [chunk_loop]. rewrite (proj2 (Z.ltb_lt 0 n)) by done. cbn [bind]. by rewrite check_canonical_run, Hf. }
  destruct (denied vm false address) as [f|] eqn:Ed; [by rewrite (Hden f)|]. clear Hden.
  destruct (Z.leb_spec (address mod 4096 + n) 4096) as [Hp|Hp]; [|done].
  destruct (page m (floor_page address)) as [p|] eqn:Ep; [|done].
  unfold read_into. rewrite (proj2 (Z.eqb_neq _ _)) by lia. rewrite for_chunks_single by done.
  cbn [bind]. rewrite check_canonical_run, Ed. cbn [bind gets ok_or]. unfold id. rewrite Ep. cbn [ok_or].
  destruct (range_is_mapped p (address mod 4096) n); cbn [negb]; [done|].
  by destruct (first_unmapped_offset _ _ _).
Qed.

Lemma read_u8_eq vm address m :
  image_ok m → u64 address → read_u8 vm address m = (bytes <- read_into vm address 1 ;; ret (from_le_bytes bytes)) m.
Proof.
  intros Hm Ha. unfold read_u8. rewrite offset_in_page, mask_page by done. assert (0 ≤ address mod 4096 < 4096) as Ho by (apply Z.mod_pos_bound; lia).
  unfold read_into. cbn [Z.eqb]. cbn [bind gets]. rewrite check_canonical_run. unfold id. rewrite for_chunks_single by (done || lia).
  cbn [bind gets]. rewrite check_canonical_run. unfold id. destruct (denied vm false address); [done|].
  destruct (page m (floor_page address)) as [p|] eqn:Ep; cbn [ok_or]; [|done].
  destruct (page_facts m _ _ Hm Ep) as (_ & _ & Hp & Hfr).
  pose proof (range_is_mapped_spec p (address mod 4096) 1 Hp ltac:(lia) ltac:(lia) ltac:(lia)) as Hr.
  destruct (is_mapped p (address mod 4096)) eqn:Em; cbn [negb fail_if].
  - assert (range_is_mapped p (address mod 4096) 1 = true) as ->.
    { apply Hr. intros o Hoo. by replace o with (address mod 4096) by lia. }
    cbn [negb]. destruct (slice_is_Some (address mod 4096) 1 (page_bytes m p)) as [out Hout];
      [lia|lia|rewrite (fr_length _ _ Hfr); lia|]. rewrite Hout. apply slice_Some in Hout as (_ & _ & _ & Hlen & Hlook).
    destruct out as [|b [|? ?]]; simpl in Hlen; [lia| |lia]. pose proof (Hlook 0 ltac:(lia)) as H0. rewrite Z.add_0_r in H0.
    change (Z.to_nat 0) with 0%nat in H0. simpl in H0. rewrite <-H0. cbn [ret expect]. unfold from_le_bytes. cbn [little_endian_to_Z]. f_equal. f_equal. by rewrite Z.shiftl_0_l, Z.lor_0_r.
  - destruct (range_is_mapped p (address mod 4096) 1) eqn:Er.
    { rewrite (proj1 Hr eq_refl (address mod 4096)) in Em by lia. done. }
    cbn [negb]. pose proof (first_unmapped_offset_spec p (address mod 4096) 1 Hp ltac:(lia) ltac:(lia) ltac:(lia)) as Hs.
    destruct (first_unmapped_offset p (address mod 4096) 1) as [o|].
    + destruct Hs as (Hoo & _). unfold throw, expect. f_equal. f_equal. unfold floor_page, unmapped_memory_error. lia.
    + by rewrite (Hs (address mod 4096)) in Em by lia.
Qed.
Section values.
Context (vm : option VirtualMemory) `{!PagewiseVm vm}.

Definition width_ok (w : Z) : Prop := w = 1 ∨ w = 2 ∨ w = 4 ∨ w = 8.

Lemma read_memory_value_eq w address m :
  image_ok m → u64 address → width_ok w →
  read_memory_value vm address w m = (bytes <- read_into vm address w ;; ret (from_le_bytes bytes)) m.
Proof using.
  intros Hm Ha [->|[->|[->| ->]]]; unfold read_memory_value; cbn [Z.eqb Pos.eqb]; [by apply read_u8_eq|by apply read_int_eq..].
Qed.

(** An integer is the little-endian value of the bytes at its addresses. *)
Lemma read_memory_value_spec w address m :
  image_ok m → u64 address → width_ok w →
  ∃ r, read_memory_value vm address w m = Done r m ∧
    match r with
    | Ok x => ∃ out, all_good (readable vm m) address w ∧ Z.of_nat (length out) = w ∧ bytes_at m address out ∧ x = from_le_bytes out
    | Err f => first_bad (readable vm m) address w f
    end.
Proof using All.
  intros Hm Ha Hw. rewrite read_memory_value_eq by done.
  destruct (read_into_spec vm m address w Hm Ha) as (r & E & H). { destruct Hw as [->|[->|[->| ->]]]; lia. }
  cbn [bind]. rewrite E. destruct r as [out|f]; [|by exists (Err f)].
  exists (Ok (from_le_bytes out)). split; [done|]. exists out. naive_solver.
Qed.

(** Bytes that are the little-endian form of [x] are read as [x]. *)
Lemma bytes_at_unique m address out out' :
  u64 address → length out = length out' → Z.of_nat (length out) ≤ 2 ^ 64 →
  bytes_at m address out → bytes_at m address out' → out = out'.
Proof using.
  intros Ha Hl H64 H H'. apply list_eq. intros i. destruct (decide (i < length out)%nat) as [Hi|Hi].
  - set (x := (address + Z.of_nat i) mod 2 ^ 64).
    assert (u64 x ∧ index_in address x = Z.of_nat i) as [Hx Ei].
    { unfold x, index_in, u64, u64_max in *. rewrite two64 in *. split; Z.div_mod_to_equations; lia. }
    pose proof (H x Hx ltac:(lia)) as E. pose proof (H' x Hx ltac:(lia)) as E'. rewrite Ei, Nat2Z.id in E, E'. congruence.
  - rewrite !lookup_ge_None_2 by lia. done.
Qed.
Lemma read_back w address m x :
  image_ok m → u64 address → width_ok w → all_good (allowed vm false) address w →
  bytes_at m address (to_le_bytes w x) →
  read_memory_value vm address w m = Done (Ok (x mod 2 ^ (8 * w))) m.
Proof using All.
  intros Hm Ha Hw Hal Hb. assert (0 ≤ w ≤ 8) as Hw8 by (destruct Hw as [->|[->|[->| ->]]]; lia).
  pose proof (length_to_le_bytes w x ltac:(lia)) as Hl.
  destruct (read_memory_value_spec w address m Hm Ha Hw) as ([y|f] & E & H); rewrite E.
  - destruct H as (out & _ & Hlen & Hout & ->). rewrite <-from_to_le_bytes by lia. do 3 f_equal.
    apply (bytes_at_unique m address); [done|lia|rewrite two64; lia|done..].
  - exfalso. destruct H as (Hf & Hi & Hn & _). apply Hn. split; [by apply Hal|]. unfold mapped.
    rewrite Hb by (done || lia). apply lookup_lt_is_Some. pose proof (index_in_range address f). lia.
Qed.

(** The value written is the one that fits the width. *)
Lemma write_memory_value_eq w address value m :
  u64 value → width_ok w →
  write_memory_value vm address value w m = write_guest_bytes vm address (to_le_bytes w (value mod 2 ^ (8 * w))) m.
Proof using.
  intros Hv [->|[->|[->| ->]]]; unfold write_memory_value; cbn [Z.eqb Pos.eqb bind ret]; try done.
  rewrite (Z.mod_small value); [done|]. unfold u64, u64_max in Hv. simpl. lia.
Qed.

Lemma Forall_to_le_bytes n x : 0 ≤ n → Forall byte (to_le_bytes n x).
Proof using.
  intros Hn. apply Forall_lookup_2. intros i b Hb. unfold to_le_bytes in Hb.
  pose proof (Z_to_little_endian_bound n 8 x ltac:(lia) ltac:(lia)) as H. rewrite Forall_forall in H.
  apply H. by eapply list_elem_of_lookup_2.
Qed.

(** A write of bytes succeeds as a whole or changes nothing. *)
Lemma write_guest_bytes_spec m address buf :
  image_ok m → u64 address → Z.of_nat (length buf) ≤ 2 ^ 64 → Forall byte buf →
  let len := Z.of_nat (length buf) in
  if decide (allowed vm true address) then
    (∃ f, first_bad (mapped m) address len f ∧ write_guest_bytes vm address buf m = Done (Err f) m) ∨
    (all_good (mapped m) address len ∧ ∃ m', write_guest_bytes vm address buf m = Done (Ok tt) m' ∧
       image_ok m' ∧ mi_pages m' = mi_pages m ∧ bytes_at m' address buf ∧
       ∀ x, u64 x → mem_byte m' x = if decide (index_in address x < len) then buf !! Z.to_nat (index_in address x) else mem_byte m x)
  else write_guest_bytes vm address buf m = Done (Err address) m.
Proof using All.
  intros Hm Ha Hl Hb len. pose proof (guest_write_checked_spec vm m address buf Hm Ha Hl Hb) as H. cbn zeta in H. fold len in H.
  unfold write_guest_bytes, unmapped_memory_error. cbn [bind]. case_decide as Hd; [|by rewrite H].
  destruct H as [(f & Hf & E)|(Hg & m' & E & Hm' & Hp & Hmem)]; [left|right].
  - exists f. by rewrite E.
  - split; [done|]. exists m'. rewrite E. split_and!; [done..| |done]. intros x Hx Hi. rewrite (Hmem x Hx). by rewrite decide_True.
Qed.
End values.

(** ** Unchecked stores *)

(** The path for one page is the general one. *)
Lemma write_fixed_eq address bytes m :
  u64 address → (0 < length bytes)%nat → write_fixed address bytes m = map_bytes address bytes m.
Proof.
  intros Ha Hl. unfold write_fixed. rewrite in_page_run by done. rewrite offset_in_page, mask_page by done.
  destruct (Z.leb_spec (address mod 4096 + Z.of_nat (length bytes)) 4096) as [Hp|]; [|done].
  unfold map_bytes. rewrite each_chunk_single by (done || lia). cbn [bind gets]. unfold id.
  rewrite Nat2Z.id. change (drop (Z.to_nat 0) bytes) with bytes. rewrite firstn_all.
  destruct (page_index m (floor_page address)) as [i|] eqn:E; [|done].
  unfold page_mut_or_insert. cbn [bind gets]. unfold id. by rewrite E.
Qed.

(** A mapping leaves the bytes there. *)
Lemma map_bytes_at address bytes m :
  image_ok m → u64 address → Forall byte bytes → Z.of_nat (length bytes) ≤ 2 ^ 64 → fits m (Z.of_nat (length bytes)) →
  ∃ m', map_bytes address bytes m = Done (Ok tt) m' ∧ image_ok m' ∧ bytes_at m' address bytes.
Proof.
  intros Hm Ha Hb Hl Hf. destruct (map_bytes_spec address bytes m Hm Ha Hb Hl Hf) as (m' & E & Hm' & _ & Hmem).
  exists m'. split_and!; [done..|]. intros x Hx Hi. rewrite (Hmem x Hx). by rewrite decide_True.
Qed.

(** ** Vectors *)

Lemma bytes_at_part m address pre mid post :
  u64 address → bytes_at m address (pre ++ mid ++ post) → Z.of_nat (length (pre ++ mid ++ post)) ≤ 2 ^ 64 →
  address + Z.of_nat (length pre) ≤ u64_max → bytes_at m (address + Z.of_nat (length pre)) mid.
Proof.
  intros Ha Hb Hl Hfit x Hx Hi. rewrite !length_app in Hl.
  assert (index_in address x = Z.of_nat (length pre) + index_in (address + Z.of_nat (length pre)) x) as E.
  { unfold index_in, u64, u64_max in *. rewrite two64 in *. Z.div_mod_to_equations; lia. }
  pose proof (index_in_range (address + Z.of_nat (length pre)) x).
  rewrite Hb, E by (rewrite ?length_app; done || lia). rewrite lookup_app_r by lia. rewrite lookup_app_l by lia. f_equal. lia.
Qed.
Lemma bytes_at_app m address l1 l2 n :
  u64 address → n = Z.of_nat (length l1) → bytes_at m address (l1 ++ l2) → Z.of_nat (length (l1 ++ l2)) ≤ 2 ^ 64 → address + n ≤ u64_max →
  bytes_at m address l1 ∧ bytes_at m (address + n) l2.
Proof.
  intros Ha -> Hb Hl Hfit. split.
  - pose proof (bytes_at_part m address [] l1 l2 Ha Hb Hl) as H. simpl in H. rewrite Z.add_0_r in H. apply H. lia.
  - apply (bytes_at_part m address l1 l2 []); rewrite ?app_nil_r; done.
Qed.

Lemma length_xmm v : length (xmm_to_bytes v) = 16%nat.
Proof. done. Qed.
Lemma length_ymm v : length (ymm_to_bytes v) = 32%nat.
Proof. done. Qed.
Lemma length_zmm v : length (zmm_to_bytes v) = 64%nat.
Proof. done. Qed.

Definition xmm_ok (v : XmmValue) : Prop := u64 (xmm_low v) ∧ u64 (xmm_high v).
Definition ymm_ok (v : YmmValue) : Prop := xmm_ok (ymm_low v) ∧ xmm_ok (ymm_high v).
Definition zmm_ok (v : ZmmValue) : Prop := ymm_ok (zmm_low v) ∧ ymm_ok (zmm_high v).
Lemma Forall_xmm v : Forall byte (xmm_to_bytes v).
Proof. apply Forall_app. split; by apply Forall_to_le_bytes. Qed.
Lemma Forall_ymm v : Forall byte (ymm_to_bytes v).
Proof. apply Forall_app. split; apply Forall_xmm. Qed.
Lemma Forall_zmm v : Forall byte (zmm_to_bytes v).
Proof. apply Forall_app. split; apply Forall_ymm. Qed.

Section vectors.
Context (vm : option VirtualMemory) `{!PagewiseVm vm} (m : MemoryImage) (Hm : image_ok m).

Lemma all_good_part P address len a n :
  u64 address → 0 ≤ a → 0 ≤ n → a + n ≤ len → len ≤ 2 ^ 64 → all_good P address len → all_good P (address + a) n.
Proof using.
  intros Ha H0 Hn Hl H64 Hg x Hx Hi. apply Hg; [done|].
  unfold index_in, u64, u64_max in *. rewrite two64 in *. Z.div_mod_to_equations; lia.
Qed.

Lemma read_u64_back address x :
  u64 address → u64 x → all_good (allowed vm false) address 8 → bytes_at m address (u64_le x) →
  read_u64 vm address m = Done (Ok x) m.
Proof using All.
  intros Ha Hx Hg Hb. pose proof (read_back vm 8 address m x Hm Ha ltac:(unfold width_ok; tauto) Hg Hb) as H.
  unfold read_memory_value in H. cbn [Z.eqb Pos.eqb] in H. rewrite H. rewrite Z.mod_small; [done|].
  unfold u64, u64_max in Hx. simpl. lia.
Qed.

Lemma read_xmm_back address v :
  u64 address → xmm_ok v → address + 8 ≤ u64_max → all_good (allowed vm false) address 16 →
  bytes_at m address (xmm_to_bytes v) → read_xmm vm address m = Done (Ok v) m.
Proof using All.
  intros Ha [Hlo Hhi] Hfit Hg Hb. apply (bytes_at_app m address _ _ 8) in Hb as [Hb0 Hb1]; [|done|done|rewrite two64; simpl; lia|done].
  unfold read_xmm. cbn [bind]. rewrite (read_u64_back address (xmm_low v)); [|done|done| |done].
  2: { rewrite <-(Z.add_0_r address). apply (all_good_part _ address 16); rewrite ?two64; done || lia. }
  unfold add_at. rewrite (proj2 (Z.leb_le _ _)) by done.
  rewrite (read_u64_back (address + 8) (xmm_high v)); [|unfold u64 in *; lia|done| |done]; [by destruct v|].
  apply (all_good_part _ address 16); rewrite ?two64; done || lia.
Qed.
Lemma read_ymm_back address v :
  u64 address → ymm_ok v → address + 24 ≤ u64_max → all_good (allowed vm false) address 32 →
  bytes_at m address (ymm_to_bytes v) → read_ymm vm address m = Done (Ok v) m.
Proof using All.
  intros Ha [Hlo Hhi] Hfit Hg Hb. apply (bytes_at_app m address _ _ 16) in Hb as [Hb0 Hb1]; [|done|done|rewrite two64; simpl; lia|lia].
  unfold read_ymm. cbn [bind]. rewrite (read_xmm_back address (ymm_low v)); [|done|done|lia| |done].
  2: { rewrite <-(Z.add_0_r address). apply (all_good_part _ address 32); rewrite ?two64; done || lia. }
  unfold add_at. rewrite (proj2 (Z.leb_le _ _)) by lia.
  rewrite (read_xmm_back (address + 16) (ymm_high v)); [|unfold u64 in *; lia|done|lia| |done]; [by destruct v|].
  apply (all_good_part _ address 32); rewrite ?two64; done || lia.
Qed.
Lemma read_zmm_back address v :
  u64 address → zmm_ok v → address + 56 ≤ u64_max → all_good (allowed vm false) address 64 →
  bytes_at m address (zmm_to_bytes v) → read_zmm vm address m = Done (Ok v) m.
Proof using All.
  intros Ha [Hlo Hhi] Hfit Hg Hb. apply (bytes_at_app m address _ _ 32) in Hb as [Hb0 Hb1]; [|done|done|rewrite two64; simpl; lia|lia].
  unfold read_zmm. cbn [bind]. rewrite (read_ymm_back address (zmm_low v)); [|done|done|lia| |done].
  2: { rewrite <-(Z.add_0_r address). apply (all_good_part _ address 64); rewrite ?two64; done || lia. }
  unfold add_at. rewrite (proj2 (Z.leb_le _ _)) by lia.
  rewrite (read_ymm_back (address + 32) (zmm_high v)); [|unfold u64 in *; lia|done|lia| |done]; [by destruct v|].
  apply (all_good_part _ address 64); rewrite ?two64; done || lia.
Qed.
End vectors.

(** ** Interlocked accesses *)

(** Mapped bytes of one frame replaced. *)
Lemma overwrite_spec m b p start data :
  image_ok m → page m b = Some p → Forall byte data → 0 ≤ start → start + Z.of_nat (length data) ≤ 4096 →
  (∀ o, start ≤ o < start + Z.of_nat (length data) → is_mapped p o = true) →
  ∃ out, splice start data (frame_bytes m b) = Some out ∧ image_ok (set_frame b out m) ∧
    ∀ x, u64 x → mem_byte (set_frame b out m) x =
      if decide (b + start ≤ x < b + start + Z.of_nat (length data)) then data !! Z.to_nat (x - (b + start)) else mem_byte m x.
Proof.
  intros Hm Ep Hd Hs He Hmap. destruct (page_facts m _ _ Hm Ep) as ([Hba Hbr] & Hf & Hp & Hfr).
  apply page_Some in Ep as (zi & _ & Hi). set (i := Z.to_nat zi) in *. clearbody i.
  assert (page_bytes m p = frame_bytes m b) as Epb by (unfold page_bytes; by rewrite Hf). rewrite Epb in Hfr.
  destruct (splice_frame p _ start data Hfr Hd Hs He) as (out & Hout & Hlen & Hob & Hlook). exists out. split; [done|].
  assert (set_frame b out m = put_page i b p out m) as -> by (unfold put_page; by rewrite list_insert_id by done).
  assert (frame_ok out p) as Hfo.
  { split; [done|done|]. intros o Ho Hno. rewrite Hlook by lia. case_decide as Hin; [by rewrite Hmap in Hno|by apply Hfr]. }
  split; [by apply (put_page_ok i b p out m p)|]. intros x Hx. rewrite !mem_byte_view, (put_page_view i b p out m p) by done.
  destruct (decide (floor_page x = b)) as [Ef|Ef].
  - rewrite Ef. rewrite (view_lookup m i b p Hm Hi). cbn [byte_of mbind option_bind].
    assert (0 ≤ x mod 4096 < 4096) as Ho by (apply Z.mod_pos_bound; lia). rewrite Hlook by lia.
    assert (x - b = x mod 4096) as Ex by (unfold floor_page in Ef; lia).
    destruct (decide (start ≤ x mod 4096 < start + Z.of_nat (length data))).
    + rewrite decide_True by lia. rewrite Hmap by done. f_equal. lia.
    + by rewrite decide_False by lia.
  - rewrite decide_False; [done|]. intros Hin. apply Ef. apply floor_page_unique; [done|lia].
Qed.

Lemma length_u32_le x : length (u32_le x) = 4%nat.
Proof. done. Qed.

Section interlocked.
Context (vm : option VirtualMemory) `{!PagewiseVm vm}.

(** The memory with a word replaced. *)
Definition word_replaced (m m' : MemoryImage) (address x : Z) : Prop :=
  image_ok m' ∧ mi_pages m' = mi_pages m ∧
  ∀ y, u64 y → mem_byte m' y = if decide (index_in address y < 4) then u32_le x !! Z.to_nat (index_in address y) else mem_byte m y.

Lemma word_index address y n :
  u64 address → u64 y → address mod 4096 + n ≤ 4096 → 0 ≤ n → index_in address y < n ↔ address ≤ y < address + n.
Proof using. intros Ha Hy Hp Hn. unfold index_in, u64, u64_max in *. rewrite two64 in *. Z.div_mod_to_equations; lia. Qed.

Lemma raw_store_spec m address p data :
  image_ok m → u64 address → page m (floor_page address) = Some p → length data = 4%nat → Forall byte data →
  address mod 4096 + 4 ≤ 4096 → all_good (mapped m) address 4 →
  ∃ out, splice (address mod 4096) data (frame_bytes m (floor_page address)) = Some out ∧
    image_ok (set_frame (floor_page address) out m) ∧
    ∀ y, u64 y → mem_byte (set_frame (floor_page address) out m) y =
      if decide (index_in address y < 4) then data !! Z.to_nat (index_in address y) else mem_byte m y.
Proof using.
  intros Hm Ha Ep Hl Hd Hp4 Hg. pose proof (floor_page_spec address) as [_ Hfl].
  assert (0 ≤ address mod 4096 < 4096) as Ho by (apply Z.mod_pos_bound; lia).
  destruct (overwrite_spec m (floor_page address) p (address mod 4096) data Hm Ep Hd) as (out & Hout & Hok & Hmem); [lia|lia| |].
  { intros o Hoo. rewrite Hl in Hoo. set (x := floor_page address + o).
    assert (u64 x) as Hx by (unfold x, u64, u64_max, floor_page in *; Z.div_mod_to_equations; lia).
    assert (floor_page x = floor_page address) as Ef by (apply floor_page_unique; [apply floor_page_spec|unfold x; lia]).
    assert (x mod 4096 = o) as Ex by (unfold floor_page in Ef; unfold x, floor_page in *; lia).
    pose proof Ep as Ep'. rewrite <-Ef in Ep'. destruct (mem_byte_at m x p Hm Ep') as [_ Hmp]. rewrite Ex in Hmp. apply Hmp.
    apply Hg; [done|]. apply (word_index address x 4); [done|done|lia|lia|]. unfold x, floor_page in *. lia. }
  exists out. split_and!; [done|done|]. intros y Hy. rewrite (Hmem y Hy), Hl.
  assert (floor_page address + address mod 4096 = address) as -> by (unfold floor_page; lia).
  pose proof (word_index address y 4 Ha Hy Hp4 ltac:(lia)) as Hw. change (Z.of_nat 4) with 4.
  destruct (decide (index_in address y < 4)) as [Hi|Hi].
  - rewrite decide_True by tauto. f_equal. f_equal. apply Hw in Hi. unfold index_in, u64, u64_max in *. rewrite two64 in *. Z.div_mod_to_equations; lia.
  - by rewrite decide_False by tauto.
Qed.

(** The word at an address. *)
Definition word_at (m : MemoryImage) (address x : Z) : Prop :=
  ∃ out, length out = 4%nat ∧ bytes_at m address out ∧ x = from_le_bytes out.

Lemma readable_page m address n :
  image_ok m → u64 address → 0 < n → all_good (readable vm m) address n → ∃ p, page m (floor_page address) = Some p.
Proof using.
  intros Hm Ha Hn Hg. destruct (Hg address Ha) as [_ [v Hv]]. { unfold index_in. rewrite Z.sub_diag. done. }
  unfold mem_byte in Hv. destruct (page m (floor_page address)); [by eexists|done].
Qed.

(** A multiple of four is in one page; its word is replaced at once, or nothing is. *)
Lemma atomic_update_spec m address op :
  image_ok m → u64 address → address mod 4 = 0 →
  (all_good (readable vm m) address 4 ∧ ∃ x m', word_at m address x ∧
     atomic_update vm address op m = Done (Ok x) m' ∧ word_replaced m m' address (op x)) ∨
  ((∃ f, first_bad (readable vm m) address 4 f) ∧ atomic_update vm address op m = Done (Err address) m).
Proof using All.
  intros Hm Ha Hal. assert (0 ≤ address mod 4096 < 4096) as Ho by (apply Z.mod_pos_bound; lia).
  assert (address mod 4096 mod 4 = 0 ∧ address mod 4096 + 4 ≤ 4096) as [Hmul Hp4] by (Z.div_mod_to_equations; lia).
  assert (∀ x, address ≤ x < address + 4 → u64 x ∧ floor_page x = floor_page address) as Hin.
  { intros x Hx. unfold u64, u64_max, floor_page in *. Z.div_mod_to_equations; lia. }
  destruct (read_into_spec vm m address 4 Hm Ha ltac:(rewrite two64; lia)) as (r & Er & Hr).
  unfold read_into in Er. cbn [Z.eqb] in Er. rewrite for_chunks_single in Er by (done || lia). cbn [bind] in Er. rewrite check_canonical_run in Er.
  unfold atomic_update, atomic_u32_at. cbn [bind]. rewrite check_canonical_run. destruct (denied vm false address) as [f|] eqn:Hd.
  { right. rewrite (pv_address _ _ _ Hd). injection Er as <-. split; [by eexists|done]. }
  cbn [bind gets ok_or] in Er. rewrite offset_in_page, mask_page by done. unfold is_multiple_of, MEMORY_PAGE_SIZE.
  rewrite Hmul, Z.eqb_refl, (proj2 (Z.ltb_ge _ _)) by lia. cbn [negb orb fail_if gets]. unfold id in *.
  destruct (page m (floor_page address)) as [p|] eqn:Ep; cbn [ok_or] in *.
  2: { right. injection Er as <-. split; [by eexists|done]. }
  destruct (page_facts m _ _ Hm Ep) as (_ & Hf & _ & Hfr).
  destruct (range_is_mapped p (address mod 4096) 4); cbn [negb fail_if] in *.
  2: { right. destruct (first_unmapped_offset _ _ _); [|done]. injection Er as <-. split; [by eexists|done]. }
  left. rewrite Hf. assert (page_bytes m p = frame_bytes m (floor_page address)) as Epb by (unfold page_bytes; by rewrite Hf).
  rewrite Epb in Er. destruct (slice (address mod 4096) 4 (frame_bytes m (floor_page address))) as [out|] eqn:Es; [|done].
  cbn [expect] in Er. injection Er as <-. destruct Hr as (Hg & Hlen & Hb). split; [done|].
  destruct (raw_store_spec m address p (u32_le (op (from_le_bytes out))) Hm Ha Ep) as (out' & Hout & Hok & Hmem);
    [done|by apply Forall_to_le_bytes|done|intros x Hx Hi; by apply Hg|].
  exists (from_le_bytes out), (set_frame (floor_page address) out' m). split_and!.
  - exists out. split_and!; [lia|done|done].
  - cbn [ret bind expect gets modify]. unfold id. rewrite Es. cbn iota beta. rewrite Hout. done.
  - by split_and!.
Qed.

(** Any other address: the read may fail part way, and a store past the end of the
    frame stays in the window or leaves the allocation. *)
Lemma unaligned_in_page m address op :
  image_ok m → u64 address → address mod 4096 + 4 ≤ 4096 →
  (all_good (readable vm m) address 4 ∧ ∃ x m', word_at m address x ∧
     unaligned_interlocked vm address op m = Done (Ok x) m' ∧ word_replaced m m' address (op x)) ∨
  (∃ f, first_bad (readable vm m) address 4 f ∧ unaligned_interlocked vm address op m = Done (Err f) m).
Proof using All.
  intros Hm Ha Hp4. unfold unaligned_interlocked.
  pose proof (read_memory_value_spec vm 4 address m Hm Ha ltac:(unfold width_ok; tauto)) as (r & E & H).
  unfold read_memory_value in E. cbn [Z.eqb Pos.eqb] in E. cbn [bind]. rewrite E. destruct r as [x|f]; [left|right; by exists f].
  destruct H as (out & Hg & Hlen & Hb & Hx). split; [done|].
  destruct (readable_page m address 4 Hm Ha ltac:(lia) Hg) as [p Ep].
  destruct (raw_store_spec m address p (u32_le (op x)) Hm Ha Ep) as (out' & Hout & Hok & Hmem);
    [done|by apply Forall_to_le_bytes|done|intros y Hy Hi; by apply Hg|].
  exists x, (set_frame (floor_page address) out' m). split_and!; [| |by split_and!].
  { exists out. split_and!; [lia|done|done]. }
  rewrite offset_in_page, mask_page by done. destruct (page_facts m _ _ Hm Ep) as (_ & Hf & _ & _).
  apply page_Some in Ep as (i & Ei & Hi). cbn [gets]. unfold id. rewrite Ei. unfold page_at. cbn [bind expect gets].
  unfold id. rewrite Hi. cbn [fmap option_fmap option_map expect snd]. rewrite Hf. unfold raw_store. rewrite length_u32_le.
  unfold MEMORY_PAGE_SIZE. rewrite (proj2 (Z.leb_le _ _)) by lia. by rewrite Hout.
Qed.

Lemma unaligned_across m address op :
  image_ok m → u64 address → 4096 < address mod 4096 + 4 → address ≤ u64_max - 4096 →
  (all_good (readable vm m) address 4 ∧ ∃ x, word_at m address x ∧
     if in_window (mi_store m) (floor_page address) && in_window (mi_store m) (floor_page address + 4096)
     then ∃ m', unaligned_interlocked vm address op m = Done (Ok x) m' ∧ word_replaced m m' address (op x)
     else unaligned_interlocked vm address op m = Panic) ∨
  (∃ f, first_bad (readable vm m) address 4 f ∧ unaligned_interlocked vm address op m = Done (Err f) m).
Proof using All.
  intros Hm Ha Hp4 Htop. unfold unaligned_interlocked.
  pose proof (read_memory_value_spec vm 4 address m Hm Ha ltac:(unfold width_ok; tauto)) as (r & E & H).
  unfold read_memory_value in E. cbn [Z.eqb Pos.eqb] in E. cbn [bind]. rewrite E. destruct r as [x|f]; [left|right; by exists f].
  destruct H as (out & Hg & Hlen & Hb & Hx). split; [done|]. exists x. split; [exists out; split_and!; [lia|done|done]|].
  destruct (readable_page m address 4 Hm Ha ltac:(lia) Hg) as [p Ep]. set (b := floor_page address) in *. set (o := address mod 4096) in *.
  assert (address = b + o ∧ 0 ≤ o < 4096 ∧ aligned b ∧ 0 ≤ b) as (Eao & Ho & Hba & Hb0).
  { unfold b, o, floor_page, aligned, u64 in *. Z.div_mod_to_equations; lia. }
  assert (∀ y, u64 y → index_in address y < 4 ↔ address ≤ y < address + 4) as Hix.
  { intros y Hy. unfold index_in, u64, u64_max in *. rewrite two64 in *. Z.div_mod_to_equations; lia. }
  assert (∀ y, address ≤ y < address + 4 → u64 y ∧ mapped m y) as Hmapped.
  { intros y Hy. assert (u64 y) as Hyu by (unfold u64, u64_max in *; lia). split; [done|]. by apply Hg, Hix. }
  assert (∃ q, page m (b + 4096) = Some q) as [q Eq].
  { destruct (Hmapped (b + 4096) ltac:(lia)) as [_ [v Hv]]. unfold mem_byte in Hv. rewrite floor_page_aligned in Hv by (by apply aligned_add).
    destruct (page m (b + 4096)); [by eexists|done]. }
  remember (u32_le (op x)) as data eqn:Ed. assert (length data = 4%nat ∧ Forall byte data) as [Hdl Hdb] by (subst data; split; [done|by apply Forall_to_le_bytes]).
  assert (∀ c p' o', page m c = Some p' → aligned c → 0 ≤ o' < 4096 → address ≤ c + o' < address + 4 → is_mapped p' o' = true) as Hbit.
  { intros c p' o' Ec Hc Ho' Hin. assert (floor_page (c + o') = c ∧ (c + o') mod 4096 = o') as [Ef Em].
    { unfold floor_page, aligned in *. Z.div_mod_to_equations; lia. }
    destruct (Hmapped _ Hin) as [_ Hmp]. pose proof Ec as Ec'. rewrite <-Ef in Ec'. destruct (mem_byte_at m _ p' Hm Ec') as [_ Hb']. rewrite Em in Hb'. by apply Hb'. }
  set (inside := Z.to_nat (4096 - o)).
  assert (length (take inside data) = inside ∧ length (drop inside data) = (4 - inside)%nat) as [Hl1 Hl2].
  { rewrite length_take, length_drop. split; lia. }
  destruct (overwrite_spec m b p o (take inside data) Hm Ep) as (out1 & Hout1 & Hok1 & Hmem1);
    [by apply Forall_take|lia|lia|intros o' Ho'; apply (Hbit b p); [done|done|lia|lia]|].
  assert (page (set_frame b out1 m) (b + 4096) = Some q) as Eq1 by done.
  destruct (overwrite_spec (set_frame b out1 m) (b + 4096) q 0 (drop inside data) Hok1 Eq1) as (out2 & Hout2 & Hok2 & Hmem2);
    [by apply Forall_drop|lia|lia|intros o' Ho'; apply (Hbit (b + 4096) q); [done|by apply aligned_add|lia|lia]|].
  assert (frame_bytes (set_frame b out1 m) (b + 4096) = frame_bytes m (b + 4096)) as Efr.
  { unfold frame_bytes, set_frame. simpl. by rewrite lookup_insert_ne by lia. }
  rewrite Efr in Hout2.
  rewrite offset_in_page, mask_page by done. fold b o. destruct (page_facts m _ _ Hm Ep) as (_ & Hf & _ & _).
  apply page_Some in Ep as (i & Ei & Hi). cbn [gets]. unfold id. rewrite Ei. unfold page_at. cbn [bind expect gets].
  unfold id. rewrite Hi. cbn [fmap option_fmap option_map expect snd]. rewrite Hf. unfold raw_store. rewrite Hdl.
  unfold MEMORY_PAGE_SIZE. rewrite (proj2 (Z.leb_gt _ _)) by lia. fold inside. rewrite Hout1, Hout2.
  destruct (in_window _ _ && in_window _ _); [|done]. exists (set_frame (b + 4096) out2 (set_frame b out1 m)). split; [done|].
  split_and!; [done|done|]. intros y Hy. rewrite <-Ed, (Hmem2 y Hy), (Hmem1 y Hy), Hl1, Hl2.
  destruct (decide (index_in address y < 4)) as [Hi4|Hi4].
  - assert (index_in address y = y - address) as Ey.
    { apply Hix in Hi4; [|done]. unfold index_in, u64, u64_max in *. rewrite two64 in *. Z.div_mod_to_equations; lia. }
    apply Hix in Hi4; [|done]. rewrite Ey. case_decide.
    + rewrite lookup_drop. f_equal. lia.
    + rewrite decide_True by lia. rewrite lookup_take_lt by lia. f_equal. lia.
  - rewrite Hix in Hi4 by done. rewrite !decide_False by lia. done.
Qed.
End interlocked.
End Gv.
