(* ===== verification/GuestMemoryTheorems.v ===== *)
(** * Guest memory: the theorems *)

From stdpp Require Import list_numbers.
From S2P Require Import Prelude Bytes Flags CpuState VirtualMemory VirtualMemoryFacts Pages GuestPage GuestPageFacts.
From S2P Require Import GuestMemory GuestMemoryFacts GuestAccessFacts GuestValueFacts VirtualMemoryTheorems.

Module Gmt.
Import Gp Gm Ga Gv.

(** ** Images that calls reach *)

Lemma empty_directory_ok k : 0 ≤ k < u32_max → directory_ok {| pd_chunks := k; pd_top := ∅; pd_tables := [] |}.
Proof. intros Hk. split; simpl; [done|by rewrite map_size_empty|intros ? ?; by rewrite lookup_empty..]. Qed.

Lemma new_store_size mmap : gs_flat_size (new_store mmap) = GUEST_FLAT_SIZE ∨ gs_flat_size (new_store mmap) = GUEST_FLAT_MIN_SIZE.
Proof. unfold new_store. cbn [reserve_flat_window_candidates]. repeat case_match; simplify_eq; simpl; tauto. Qed.
Lemma new_store_empty mmap :
  gs_materialised (new_store mmap) = ∅ ∧ gs_high_pages (new_store mmap) = ∅ ∧ gs_frames (new_store mmap) = ∅.
Proof. unfold new_store. by destruct (reserve_flat_window_candidates _ _ _ _). Qed.

Lemma empty_page m b : mi_pages m = [] → page m b = None.
Proof.
  intros E. unfold page, page_index, page_lookup_index. rewrite E. destruct (if covers _ _ then _ else _); done.
Qed.

Lemma new_image_ok mmap : image_ok (new_image mmap).
Proof.
  unfold new_image. destruct (new_store_empty mmap) as (Em & Eh & Ef). pose proof (new_store_size mmap) as Es.
  assert (∃ k, 0 ≤ k < u32_max ∧ gs_flat_size (new_store mmap) = k * 2 ^ 21 ∧
    new_directory (gs_flat_size (new_store mmap)) = {| pd_chunks := k; pd_top := ∅; pd_tables := [] |}) as (k & Hk & Ek & Ed).
  { destruct Es as [-> | ->]; [exists (2 ^ 17)|exists (2 ^ 16)]; by vm_compute. }
  rewrite Ed. split; simpl; try (by intros ? ? ?; rewrite lookup_nil); [by apply empty_directory_ok|done|done| |].
  - intros n. rewrite Em. split; [set_solver|]. intros (b & Hb & _). by apply not_elem_of_nil in Hb.
  - intros b. rewrite Eh. split; [set_solver|]. intros [Hb _]. by apply not_elem_of_nil in Hb.
Qed.

Lemma unmap_range_ok address len m :
  image_ok m → u64 address → u64 len → ∃ m', unmap_range address len m = Done (Ok tt) m' ∧ image_ok m'.
Proof.
  intros Hm Ha Hl. unfold unmap_range. destruct (len =? 0); [by exists m|]. rewrite land_page by done.
  set (e := if wrapping_add64 address len =? 0 then MEMORY_PAGE_MASK else Z.land (wrapping_add64 address len - 1) MEMORY_PAGE_MASK).
  assert (page_address (floor_page address)) as Hb.
  { split; [apply floor_page_spec|]. unfold u64, u64_max, floor_page in *. rewrite two64. Z.div_mod_to_equations; lia. }
  assert (page_address e) as He.
  { unfold e. destruct (Z.eqb_spec (wrapping_add64 address len) 0); [by split|]. rewrite mask_page.
    - split; [apply floor_page_spec|]. unfold wrapping_add64, wrap64, floor_page in *. rewrite two64 in *. Z.div_mod_to_equations; lia.
    - unfold wrapping_add64, wrap64, u64, u64_max in *. rewrite two64 in *. Z.div_mod_to_equations; lia. }
  destruct (unmap_loop_spec (Z.to_nat (((if floor_page address <=? e then e else MEMORY_PAGE_MASK) - floor_page address) / MEMORY_PAGE_SIZE + 1))
    (floor_page address) e m Hm Hb He) as (m' & E & Hm' & _); [|by exists m'].
  destruct Hb as [_ Hbr], He as [_ Her]. unfold MEMORY_PAGE_SIZE. change MEMORY_PAGE_MASK with 18446744073709547520. rewrite two64 in *.
  case_decide; [rewrite (proj2 (Z.leb_le _ _)) by done|rewrite (proj2 (Z.leb_gt _ _)) by lia]; Z.div_mod_to_equations; lia.
Qed.

(** The operations of an image that change it. *)
Inductive image_op :=
| MapBytes (address : Z) (bytes : list Z)
| MapZeroed (address len : Z)
| CommitZeroed (address len : Z)
| ZeroRange (address len : Z)
| UnmapRange (address len : Z)
| WriteFixed (address : Z) (bytes : list Z)
| WriteChecked (vm : option VirtualMemory) (address : Z) (bytes : list Z)
| WriteValue (vm : option VirtualMemory) (address value width : Z)
| Interlocked (vm : option VirtualMemory) (address : Z) (op : Z → Z).

Definition run_op (o : image_op) : M MemoryImage unit :=
  match o with
  | MapBytes address bytes => map_bytes address bytes
  | MapZeroed address len => map_zeroed_if_unmapped address len
  | CommitZeroed address len => commit_zeroed_pages address len
  | ZeroRange address len => zero_range address len
  | UnmapRange address len => unmap_range address len
  | WriteFixed address bytes => write_fixed address bytes
  | WriteChecked vm address bytes => guest_write_checked vm address bytes ;;; ret tt
  | WriteValue vm address value width => write_memory_value vm address value width
  | Interlocked vm address op => interlocked vm address op ;;; ret tt
  end.

Definition vm_fine (vm : option VirtualMemory) : Prop := match vm with Some v => Vm.vm_ok v | None => True end.
Lemma vm_fine_pagewise vm : vm_fine vm → PagewiseVm vm.
Proof. destruct vm; [apply vm_pagewise|intros _; apply no_vm_pagewise]. Qed.

(** The arguments have their types, the page table has room for the pages of the
    range, and a word that is not aligned does not cross a page. *)
Definition op_fine (m : MemoryImage) (o : image_op) : Prop :=
  match o with
  | MapBytes address bytes => u64 address ∧ Forall byte bytes ∧ Z.of_nat (length bytes) ≤ isize_max ∧ fits m (Z.of_nat (length bytes))
  | MapZeroed address len | CommitZeroed address len | ZeroRange address len => u64 address ∧ u64 len ∧ fits m len
  | UnmapRange address len => u64 address ∧ u64 len
  | WriteFixed address bytes => u64 address ∧ Forall byte bytes ∧ (0 < length bytes <= 8)%nat ∧ fits m (Z.of_nat (length bytes))
  | WriteChecked vm address bytes => vm_fine vm ∧ u64 address ∧ Forall byte bytes ∧ Z.of_nat (length bytes) ≤ isize_max
  | WriteValue vm address value width => vm_fine vm ∧ u64 address ∧ u64 value
  | Interlocked vm address op => vm_fine vm ∧ u64 address ∧ address mod 4096 + 4 ≤ 4096
  end.

Lemma run_op_ok m o : image_ok m → op_fine m o → ∃ r m', run_op o m = Done r m' ∧ image_ok m'.
Proof.
  intros Hm Ho.
  destruct o as [a bs|a n|a n|a n|a n|a bs|vm a bs|vm a v w|vm a op]; simpl in Ho; unfold isize_max in Ho; cbn [run_op].
  - destruct Ho as (Ha & Hb & Hl & Hf). destruct (map_bytes_at a bs m) as (m' & E & Hm' & _); [done..|rewrite two64; lia|done|eauto].
  - destruct Ho as (Ha & Hl & Hf). destruct (map_zeroed_spec a n m) as (m' & E & Hm' & _); [done..| |done|eauto].
    unfold u64, u64_max in Hl. rewrite two64. lia.
  - destruct Ho as (Ha & Hl & Hf). destruct (commit_zeroed_spec a n m) as (m' & E & Hm' & _); [done..| |done|eauto].
    unfold u64, u64_max in Hl. rewrite two64. lia.
  - destruct Ho as (Ha & Hl & Hf). destruct (zero_range_spec a n m) as (m' & E & Hm' & _); [done..|apply Hl|done|eauto].
  - destruct Ho as (Ha & Hl). destruct (unmap_range_ok a n m) as (m' & E & Hm'); eauto.
  - destruct Ho as (Ha & Hb & Hl & Hf). rewrite write_fixed_eq by (done || lia).
    destruct (map_bytes_at a bs m) as (m' & E & Hm' & _); [done..|rewrite two64; lia|done|eauto].
  - destruct Ho as (Hv & Ha & Hb & Hl). pose proof (vm_fine_pagewise vm Hv). cbn [bind].
    pose proof (guest_write_checked_spec vm m a bs Hm Ha ltac:(rewrite two64; lia) Hb) as H1. cbn zeta in H1.
    case_decide; [destruct H1 as [(f & _ & ->)|(_ & m' & -> & Hm' & _)]|rewrite H1]; simpl; eauto.
  - destruct Ho as (Hv & Ha & Hval). pose proof (vm_fine_pagewise vm Hv).
    destruct (decide (width_ok w)) as [Hw|Hw].
    + rewrite write_memory_value_eq by done. assert (0 ≤ w ≤ 8) as Hw8 by (destruct Hw as [->|[->|[->| ->]]]; lia).
      pose proof (write_guest_bytes_spec vm m a (to_le_bytes w (v mod 2 ^ (8 * w))) Hm Ha) as H1. cbn zeta in H1.
      rewrite length_to_le_bytes in H1 by lia. specialize (H1 ltac:(rewrite two64; lia) (Forall_to_le_bytes w _ ltac:(lia))).
      case_decide; [destruct H1 as [(f & _ & ->)|(_ & m' & -> & Hm' & _)]|rewrite H1]; simpl; eauto.
    + unfold write_memory_value. unfold width_ok in Hw. rewrite !(proj2 (Z.eqb_neq w _)) by tauto. simpl. eauto.
  - destruct Ho as (Hv & Ha & Hp). pose proof (vm_fine_pagewise vm Hv). unfold interlocked, is_multiple_of. cbn [bind].
    destruct (Z.eqb_spec (a mod 4) 0); cbn [negb].
    + destruct (atomic_update_spec vm m a op Hm Ha) as [(_ & x & m' & _ & -> & Hm' & _)|[_ ->]]; simpl; eauto.
    + destruct (unaligned_in_page vm m a op Hm Ha Hp) as [(_ & x & m' & _ & -> & Hm' & _)|(f & _ & ->)]; simpl; eauto.
Qed.

Inductive image_reachable (mmap : Z → option Z) : MemoryImage → Prop :=
| reach_image : image_reachable mmap (new_image mmap)
| reach_op m o r m' : image_reachable mmap m → op_fine m o → run_op o m = Done r m' → image_reachable mmap m'.

Lemma reachable_image_ok mmap m : image_reachable mmap m → image_ok m.
Proof.
  induction 1 as [|m o r m' _ IH Ho E]; [apply new_image_ok|].
  destruct (run_op_ok m o IH Ho) as (r' & m1 & E' & Hok). congruence.
Qed.

(** Each page is counted in the store. *)
Lemma materialised_pages m : image_ok m → materialised_page_count (mi_store m) = Z.of_nat (length (mi_pages m)).
Proof.
  intros Hm. unfold materialised_page_count. set (l := (mi_pages m).*1). pose (inw := λ b, in_window (mi_store m) b = true).
  assert (NoDup l) as Hnd.
  { apply NoDup_alt. intros i j b Hi Hj. apply list_lookup_fmap_Some in Hi as ([? p] & -> & Hi), Hj as ([? q] & E & Hj). simpl in E. subst.
    by eapply bases_unique. }
  assert (∀ b, b ∈ l → aligned b) as Hal.
  { intros b Hb. apply elem_of_bases in Hb as (i & p & Hi). by destruct (io_pages m Hm _ _ _ Hi) as [[? _] _]. }
  assert (gs_materialised (mi_store m) = list_to_set ((λ b, b / 4096) <$> filter inw l)) as ->.
  { apply set_eq. intros n. rewrite (io_flat m Hm), elem_of_list_to_set, list_elem_of_fmap. setoid_rewrite list_elem_of_filter. unfold inw, l. naive_solver. }
  assert (gs_high_pages (mi_store m) = list_to_set (filter (λ b, ¬ inw b) l)) as ->.
  { apply set_eq. intros b. rewrite (io_high m Hm), elem_of_list_to_set, list_elem_of_filter. unfold inw, l. rewrite not_true_iff_false. tauto. }
  rewrite !size_list_to_set, length_fmap.
  - rewrite <-(length_fmap fst (mi_pages m)). fold l. rewrite <-Nat2Z.inj_add. f_equal.
    clear. induction l as [|b l IH]; [done|]. rewrite !filter_cons. destruct (decide (inw b)), (decide (¬ inw b)); simpl; lia || tauto.
  - by apply NoDup_filter.
  - assert (∀ b, b ∈ filter inw l → aligned b) as Hal' by (intros b [_ Hb]%list_elem_of_filter; auto).
    assert (NoDup (filter inw l)) as Hnd' by by apply NoDup_filter. clear -Hal' Hnd'.
    induction Hnd' as [|b l' Hb Hn IH]; [constructor|]. rewrite fmap_cons. constructor.
    + intros (c & E & Hc)%list_elem_of_fmap. assert (b = c) as ->; [|done]. apply div_4096_inj; [apply Hal'; left|apply Hal'; by right|done].
    + apply IH. intros c Hc. apply Hal'. by right.
Qed.

(** A small image: two pages from [0x10000] on, four bytes at [0x10ffe]. *)
Definition example_map (size : Z) : option Z := Some 0x100000000.
Definition example_image : MemoryImage :=
  match map_bytes 0x10ffe [1; 2; 3; 4] (new_image example_map) with Done _ m => m | Panic => new_image example_map end.

Lemma example_image_reachable : image_reachable example_map example_image.
Proof.
  apply (reach_op _ (new_image example_map) (MapBytes 0x10ffe [1; 2; 3; 4]) (Ok tt)); [constructor| |by vm_compute].
  cbn [op_fine]. split_and!; [by vm_compute..| |by vm_compute|by vm_compute]. repeat constructor; by vm_compute.
Qed.

(** C18 - The image is well formed in every state its operations reach: pages are listed
    once, aligned, and found through the directory below the window and the table
    above it; every page has a frame of its size that is zero where nothing is mapped;
    the store counts exactly the pages.  And no operation with fitting arguments
    panics. *)
Theorem guest_image_well_formed mmap m :
  image_reachable mmap m →
  image_ok m ∧ materialised_page_count (mi_store m) = Z.of_nat (length (mi_pages m)) ∧
  (∀ i b p, mi_pages m !! i = Some (b, p) → page m b = Some p) ∧
  ∀ o, op_fine m o → ∃ r m', run_op o m = Done r m' ∧ image_ok m'.
Proof.
  intros H%reachable_image_ok. split_and!; [done|by apply materialised_pages| |intros o Ho; by apply run_op_ok].
  intros i b p. by apply page_lookup.
Qed.

Lemma guest_image_well_formed_witness : materialised_page_count (mi_store example_image) = 2.
Proof.
  destruct (guest_image_well_formed example_map example_image example_image_reachable) as (_ & E & _).
  etransitivity; [exact E|by vm_compute].
Defined.

(** ** The image as a partial map from addresses to bytes *)

(** The page of [x] holds a byte of the range. *)
Definition page_touched (address len x : Z) : Prop :=
  0 < len ∧ floor_page address ≤ floor_page x ≤ floor_page (address + len - 1).
#[export] Instance page_touched_dec address len x : Decision (page_touched address len x).
Proof. unfold page_touched. apply _. Defined.

Lemma reached_touched address len x :
  u64 address → 0 ≤ len → address + len ≤ 2 ^ 64 → u64 x → reached address len x ↔ page_touched address len x.
Proof.
  intros Ha Hl Hfit Hx. unfold reached, page_touched. split.
  - intros (i & Hi & E). rewrite Z.mod_small in E by (unfold u64 in Ha; lia). rewrite <-E. split; [lia|]. split; apply floor_page_le; lia.
  - intros (Hp & Hlo & Hhi). exists (Z.max 0 (floor_page x - address)).
    assert (0 ≤ Z.max 0 (floor_page x - address) < len) as Hr by page_lia. split; [done|].
    rewrite Z.mod_small by (unfold u64 in Ha; lia). apply floor_page_unique; [apply floor_page_spec|]. page_lia.
Qed.

(** What the operations that map and unmap do to the map. *)
Definition byte_map_op (o : image_op) (f : Z → option Z) (x : Z) : option Z :=
  match o with
  | MapBytes address bytes | WriteFixed address bytes =>
      if decide (index_in address x < Z.of_nat (length bytes)) then bytes !! Z.to_nat (index_in address x) else f x
  | MapZeroed address len => if decide (index_in address x < len) then Some (default 0 (f x)) else f x
  | CommitZeroed address len => if decide (page_touched address len x) then Some (default 0 (f x)) else f x
  | ZeroRange address len => if decide (index_in address x < Z.min len (u64_max - address)) then Some 0 else f x
  | UnmapRange address len => if decide (page_touched address len x) then None else f x
  | _ => f x
  end.
Definition maps_memory (o : image_op) : Prop :=
  match o with
  | MapBytes _ _ | WriteFixed _ _ | MapZeroed _ _ | ZeroRange _ _ => True
  | CommitZeroed address len | UnmapRange address len => address + len ≤ 2 ^ 64
  | _ => False
  end.

(** C7 - The image refines a partial map from addresses to bytes: mapping bytes sets them,
    over the end of the address space from its start; mapping zeros keeps what was
    mapped; committing takes the whole pages of the range and keeps their bytes;
    zeroing sets zeros, except at the last address of all; unmapping forgets whole
    pages, the first one included when the range starts inside it. *)
Theorem image_refines_byte_map mmap m o :
  image_reachable mmap m → op_fine m o → maps_memory o →
  ∃ m', run_op o m = Done (Ok tt) m' ∧ image_reachable mmap m' ∧
    ∀ x, u64 x → mem_byte m' x = byte_map_op o (mem_byte m) x.
Proof.
  intros Hr Ho Hmaps. pose proof (reachable_image_ok _ _ Hr) as Hm.
  cut (∃ m', run_op o m = Done (Ok tt) m' ∧ ∀ x, u64 x → mem_byte m' x = byte_map_op o (mem_byte m) x).
  { intros (m' & E & H). exists m'. split_and!; [done|by eapply reach_op|done]. }
  destruct o as [a bs|a n|a n|a n|a n|a bs| | |]; simpl in Ho, Hmaps; unfold isize_max in Ho; cbn [run_op byte_map_op]; try done.
  - destruct Ho as (Ha & Hb & Hl & Hf). destruct (map_bytes_spec a bs m) as (m' & E & _ & _ & H); [done..|rewrite two64; lia|done|eauto].
  - destruct Ho as (Ha & Hl & Hf). destruct (map_zeroed_spec a n m) as (m' & E & _ & _ & H); [done..| |done|eauto].
    unfold u64, u64_max in Hl. rewrite two64. lia.
  - destruct Ho as (Ha & Hl & Hf). destruct (commit_zeroed_spec a n m) as (m' & E & _ & _ & H); [done..| |done|].
    { unfold u64, u64_max in Hl. rewrite two64. lia. }
    exists m'. split; [done|]. intros x Hx. destruct (H x Hx) as [H1 H2]. rewrite reached_touched in H1, H2 by (done || apply Hl).
    case_decide; auto.
  - destruct Ho as (Ha & Hl & Hf). destruct (zero_range_spec a n m) as (m' & E & _ & _ & H); [done..|apply Hl|done|eauto].
  - destruct Ho as (Ha & Hl). destruct (decide (n = 0)) as [->|].
    { exists m. split; [done|]. intros x _. rewrite decide_False; [done|]. intros [? _]. lia. }
    assert (0 < n) as Hn by (unfold u64 in Hl; lia).
    destruct (unmap_range_spec a n m) as (m' & E & _ & H); [done..|]. exists m'. split; [done|]. intros x Hx. rewrite (H x Hx).
    apply decide_if_ext. unfold page_touched. tauto.
  - destruct Ho as (Ha & Hb & Hl & Hf). rewrite write_fixed_eq by (done || lia).
    destruct (map_bytes_spec a bs m) as (m' & E & _ & _ & H); [done..|rewrite two64; lia|done|eauto].
Qed.

Lemma image_refines_byte_map_witness :
  ∃ m', unmap_range 0x10800 0x400 example_image = Done (Ok tt) m' ∧ mem_byte m' 0x10ffe = None ∧ mem_byte m' 0x11000 = Some 3.
Proof.
  destruct (image_refines_byte_map example_map example_image (UnmapRange 0x10800 0x400) example_image_reachable) as (m' & E & _ & H).
  - split; by vm_compute.
  - by vm_compute.
  - exists m'. split; [exact E|]. split; rewrite H by (unfold u64, u64_max; lia); vm_compute; reflexivity.
Defined.

(** ** Checked accesses *)

(** C16 - A checked read answers the bytes of the range, in order and with the range read
    past the end of the address space at its start; or the fault names the first
    address of the range that is not mapped, or the first address when the virtual
    memory denies it; the image does not change.  The check asks the virtual memory
    about the first byte alone: a mapped range that it denies further on makes the
    read panic, which the documentation does not say ([first_byte_checked_only] also
    has the write).  A checked write is all or nothing: a fault,
    at the address chosen the same way, leaves the image as it is; else the bytes of
    the range are those given, no other byte changes and no page comes or goes, also
    where the virtual memory denies writing a later page of the range. *)
Theorem checked_accesses_exact mmap m vm address buf :
  image_reachable mmap m → vm_fine vm → u64 address → Z.of_nat (length buf) ≤ isize_max → Forall byte buf →
  let len := Z.of_nat (length buf) in
  (if decide (allowed vm false address) then
     (∃ f, first_bad (mapped m) address len f ∧ guest_read_checked vm address len m = Done (Ok (inr (fault_of f false len))) m) ∨
     (all_good (mapped m) address len ∧
      ((all_good (allowed vm false) address len ∧
        ∃ out, Z.of_nat (length out) = len ∧ bytes_at m address out ∧ guest_read_checked vm address len m = Done (Ok (inl out)) m) ∨
       (∃ f, first_bad (allowed vm false) address len f ∧ guest_read_checked vm address len m = Panic)))
   else guest_read_checked vm address len m = Done (Ok (inr (fault_of address false len))) m) ∧
  (if decide (allowed vm true address) then
     (∃ f, first_bad (mapped m) address len f ∧ guest_write_checked vm address buf m = Done (Ok (inr (fault_of f true len))) m) ∨
     (all_good (mapped m) address len ∧ ∃ m', guest_write_checked vm address buf m = Done (Ok (inl tt)) m' ∧
        mi_pages m' = mi_pages m ∧ bytes_at m' address buf ∧
        ∀ x, u64 x → len ≤ index_in address x → mem_byte m' x = mem_byte m x)
   else guest_write_checked vm address buf m = Done (Ok (inr (fault_of address true len))) m).
Proof.
  intros Hm%reachable_image_ok Hv Ha Hl Hb len. pose proof (vm_fine_pagewise vm Hv). unfold isize_max in Hl.
  assert (len ≤ 2 ^ 64) as H64 by (rewrite two64; unfold len; lia). split.
  - pose proof (guest_read_checked_spec vm m address len Hm Ha ltac:(unfold len in *; lia)) as H1.
    case_decide; [|done]. destruct H1 as [|[Hg [(out & ? & ? & ? & ?)|(f & ? & ?)]]]; [by left|right..]; (split; [done|]).
    + left. split; [done|]. by exists out.
    + right. by exists f.
  - pose proof (guest_write_checked_spec vm m address buf Hm Ha H64 Hb) as H1. cbn zeta in H1. fold len in H1.
    case_decide; [|done]. destruct H1 as [|[Hg (m' & E & _ & Hp & Hmem)]]; [by left|right]. split; [done|].
    exists m'. split_and!; [done|done| |].
    + intros x Hx Hi. rewrite (Hmem x Hx). by rewrite decide_True.
    + intros x Hx Hi. rewrite (Hmem x Hx). rewrite decide_False by lia. done.
Qed.

(** A read of six bytes meets the first hole at [0x11002]. *)
Lemma checked_accesses_exact_witness :
  guest_read_checked None 0x10ffe 6 example_image = Done (Ok (inr (fault_of 0x11002 false 6))) example_image.
Proof.
  destruct (checked_accesses_exact example_map example_image None 0x10ffe [0; 0; 0; 0; 0; 0] example_image_reachable I) as [H _].
  - by vm_compute.
  - by vm_compute.
  - repeat constructor; by vm_compute.
  - simpl in H. destruct (decide (allowed None false 0x10ffe)) as [_|n]; [|exfalso; apply n; reflexivity].
    destruct H as [(f & (Hu & Hi & Hn & Hb) & E)|[Hg _]].
    2: { assert (mapped example_image 0x11002) as Hc; [apply Hg; [unfold u64, u64_max; lia|reflexivity]|].
         vm_compute in Hc. destruct Hc as [v Hv]. discriminate Hv. }
    assert (f = 0x11002) as ->; [|exact E].
    unfold u64, u64_max, index_in in *. rewrite two64 in *.
    assert (f = 0x10ffe ∨ f = 0x10fff ∨ f = 0x11000 ∨ f = 0x11001 ∨ f = 0x11002 ∨ f = 0x11003) as Hf by (Z.div_mod_to_equations; lia).
    destruct Hf as [->|[->|[->|[->|[->| ->]]]]]; try reflexivity.
    1-4: exfalso; apply Hn; vm_compute; eexists; reflexivity.
    assert (mapped example_image 0x11002) as Hc; [apply Hb; [lia|reflexivity]|]. vm_compute in Hc. destruct Hc as [v Hv]. discriminate Hv.
Defined.

(** Both checks ask the virtual memory about the first byte of the range only.  Over a
    range that is mapped but whose later page it denies, a checked write goes through,
    and a checked read panics: the copy it makes afterwards checks each page, and its
    refusal was expected not to happen. *)
Theorem first_byte_checked_only mmap m v address buf x :
  image_reachable mmap m → Vm.vm_ok v → u64 address → Z.of_nat (length buf) ≤ isize_max → Forall byte buf → u64 x →
  let len := Z.of_nat (length buf) in
  index_in address x < len → all_good (mapped m) address len →
  (allowed (Some v) true address → ¬ allowed (Some v) true x →
   ∃ m', guest_write_checked (Some v) address buf m = Done (Ok (inl tt)) m' ∧ mem_byte m' x = buf !! Z.to_nat (index_in address x)) ∧
  (allowed (Some v) false address → ¬ allowed (Some v) false x → guest_read_checked (Some v) address len m = Panic).
Proof.
  intros Hm%reachable_image_ok Hv Ha Hl Hb Hx len Hi Hg. pose proof (vm_pagewise v Hv). unfold isize_max in Hl.
  assert (len ≤ 2 ^ 64) as H64 by (rewrite two64; unfold len; lia). split; intros Hal Hden.
  - pose proof (guest_write_checked_spec (Some v) m address buf Hm Ha H64 Hb) as H1. cbn zeta in H1. fold len in H1.
    rewrite decide_True in H1 by done. destruct H1 as [(f & (Hu & Hif & Hn & _) & _)|(_ & m' & E & _ & _ & Hmem)].
    + destruct Hn. by apply Hg.
    + exists m'. split; [done|]. rewrite (Hmem x Hx). by rewrite decide_True.
  - pose proof (guest_read_checked_spec (Some v) m address len Hm Ha ltac:(unfold len in *; lia)) as H1.
    rewrite decide_True in H1 by done. destruct H1 as [(f & (Hu & Hif & Hn & _) & _)|[_ [(out & Hall & _)|(f & _ & E)]]]; [| |done].
    + destruct Hn. by apply Hg.
    + destruct Hden. by apply Hall.
Qed.

(** The first page of the virtual memory is committed, the second is not. *)
Lemma first_byte_checked_only_witness :
  (∃ m', guest_write_checked (Some Vmt.example_vm) 0x10ffe [9; 8; 7; 6] example_image = Done (Ok (inl tt)) m' ∧ mem_byte m' 0x11000 = Some 7) ∧
  guest_read_checked (Some Vmt.example_vm) 0x10ffe 4 example_image = Panic.
Proof.
  destruct (first_byte_checked_only example_map example_image Vmt.example_vm 0x10ffe [9; 8; 7; 6] 0x11000) as [H1 H2].
  - exact example_image_reachable.
  - exact (Vmt.reachable_ok _ Vmt.example_reachable).
  - by vm_compute.
  - by vm_compute.
  - repeat constructor; by vm_compute.
  - by vm_compute.
  - by vm_compute.
  - intros y Hy Hi. simpl in Hi. unfold index_in, u64, u64_max in *. rewrite two64 in *.
    assert (y = 0x10ffe ∨ y = 0x10fff ∨ y = 0x11000 ∨ y = 0x11001) as Hc by (Z.div_mod_to_equations; lia).
    destruct Hc as [->|[->|[->| ->]]]; vm_compute; eexists; reflexivity.
  - split; [|apply H2; [reflexivity|intros H; vm_compute in H; discriminate H]].
    destruct H1 as (m' & E & Hm); [reflexivity|intros H; vm_compute in H; discriminate H|]. exists m'. split; [exact E|].
    etransitivity; [exact Hm|reflexivity].
Defined.

(** ** Values *)

(** C31 - Where the virtual memory allows reading every byte of the value: what a write of
    one, two, four or eight bytes stores, a read of the same width answers, the value
    cut to the width.  Another width is refused.  The unchecked writes map their bytes
    first, as long as the image has room for them, and read back as well; and so do
    the vectors of 128, 256 and 512 bits, each below the end of the address space, in
    any page and across pages. *)
Theorem values_read_back mmap m vm address :
  image_reachable mmap m → vm_fine vm → u64 address →
  (∀ value width, u64 value →
     (∀ m', width_ok width → all_good (allowed vm false) address width →
        write_memory_value vm address value width m = Done (Ok tt) m' →
        read_memory_value vm address width m' = Done (Ok (value mod 2 ^ (8 * width))) m') ∧
     (¬ width_ok width → write_memory_value vm address value width m = Done (Err (unsupported_width width)) m)) ∧
  (∀ value, u64 value → fits m 8 → all_good (allowed vm false) address 8 →
     ∃ m', map_u64 address value m = Done (Ok tt) m' ∧ read_u64 vm address m' = Done (Ok value) m') ∧
  (∀ v, xmm_ok v → fits m 16 → all_good (allowed vm false) address 16 → address + 8 ≤ u64_max →
     ∃ m', map_xmm address v m = Done (Ok tt) m' ∧ read_xmm vm address m' = Done (Ok v) m') ∧
  (∀ v, ymm_ok v → fits m 32 → all_good (allowed vm false) address 32 → address + 24 ≤ u64_max →
     ∃ m', map_ymm address v m = Done (Ok tt) m' ∧ read_ymm vm address m' = Done (Ok v) m') ∧
  (∀ v, zmm_ok v → fits m 64 → all_good (allowed vm false) address 64 → address + 56 ≤ u64_max →
     ∃ m', map_zmm address v m = Done (Ok tt) m' ∧ read_zmm vm address m' = Done (Ok v) m').
Proof.
  intros Hm%reachable_image_ok Hv Ha. pose proof (vm_fine_pagewise vm Hv). split_and!.
  - intros value w Hval. split.
    + intros m' Hw Hg. rewrite write_memory_value_eq by done. assert (0 ≤ w ≤ 8) as Hw8 by (destruct Hw as [->|[->|[->| ->]]]; lia).
      pose proof (write_guest_bytes_spec vm m address (to_le_bytes w (value mod 2 ^ (8 * w))) Hm Ha) as H1. cbn zeta in H1.
      rewrite length_to_le_bytes in H1 by lia. specialize (H1 ltac:(rewrite two64; lia) (Forall_to_le_bytes w _ ltac:(lia))).
      intros E. rewrite E in H1. case_decide; [|done]. destruct H1 as [(f & _ & ?)|(_ & m1 & [= <-] & Hm' & _ & Hb & _)]; [done|].
      rewrite (read_back vm w address m' (value mod 2 ^ (8 * w))) by done. rewrite Z.mod_mod by (apply Z.pow_nonzero; lia). done.
    + intros Hw. unfold write_memory_value. unfold width_ok in Hw. by rewrite !(proj2 (Z.eqb_neq w _)) by tauto.
  - intros value Hval Hf Hg. unfold map_u64, write_u64. rewrite write_fixed_eq by (done || simpl; lia).
    destruct (map_bytes_at address (u64_le value) m) as (m' & E & Hm' & Hb);
      [done..|by apply Forall_to_le_bytes|rewrite two64; simpl; lia|done|]. exists m'. split; [done|].
    by apply (read_u64_back vm m' Hm' address value).
  - intros v Hxv Hf Hg Hfit. unfold map_xmm.
    destruct (map_bytes_at address (xmm_to_bytes v) m) as (m' & E & Hm' & Hb);
      [done..|by apply Forall_xmm|rewrite length_xmm, two64; lia|done|]. exists m'. split; [done|].
    by apply (read_xmm_back vm m' Hm' address v).
  - intros v Hyv Hf Hg Hfit. unfold map_ymm.
    destruct (map_bytes_at address (ymm_to_bytes v) m) as (m' & E & Hm' & Hb);
      [done..|by apply Forall_ymm|rewrite length_ymm, two64; lia|done|]. exists m'. split; [done|].
    by apply (read_ymm_back vm m' Hm' address v).
  - intros v Hzv Hf Hg Hfit. unfold map_zmm.
    destruct (map_bytes_at address (zmm_to_bytes v) m) as (m' & E & Hm' & Hb);
      [done..|by apply Forall_zmm|rewrite length_zmm, two64; lia|done|]. exists m'. split; [done|].
    by apply (read_zmm_back vm m' Hm' address v).
Qed.

(** Across two pages. *)
Lemma values_read_back_witness :
  ∃ m', map_u64 0x10ffd 0x1122334455667788 example_image = Done (Ok tt) m' ∧
    read_u64 None 0x10ffd m' = Done (Ok 0x1122334455667788) m'.
Proof.
  destruct (values_read_back example_map example_image None 0x10ffd example_image_reachable I) as (_ & H & _); [by vm_compute|].
  apply H; [by vm_compute..|]. intros x _ _. reflexivity.
Defined.

(** ** Interlocked accesses *)

(** An interlocked call on a readable word of one page answers the word it found and
    leaves what its operation makes of it, and nothing else: the exchanged value, the
    exchange where the comparand matched, the sum modulo 2^32.  A word that is not
    readable is an error and changes nothing.  The virtual memory is asked for read
    access only.  Increment and decrement answer the new value of an aligned word and
    the previous value of any other. *)
Theorem interlocked_exact mmap m vm address value comparand :
  image_reachable mmap m → vm_fine vm → u64 address → address mod 4096 + 4 ≤ 4096 →
  let runs (call : M MemoryImage Z) (new answer : Z → Z) :=
    (∃ x m', word_at m address x ∧ call m = Done (Ok (answer x)) m' ∧ word_replaced m m' address (new x)) ∨
    (∃ f e, first_bad (readable vm m) address 4 f ∧ call m = Done (Err e) m) in
  runs (interlocked_exchange_u32 vm address value) (λ _, value) id ∧
  runs (interlocked_compare_exchange_u32 vm address value comparand) (λ x, if x =? comparand then value else x) id ∧
  runs (interlocked_exchange_add_u32 vm address value) (λ x, (x + value) mod 2 ^ 32) id ∧
  runs (interlocked_increment_u32 vm address) (λ x, (x + 1) mod 2 ^ 32)
    (λ x, if decide (address mod 4 = 0) then (x + 1) mod 2 ^ 32 else x) ∧
  runs (interlocked_decrement_u32 vm address) (λ x, (x - 1) mod 2 ^ 32)
    (λ x, if decide (address mod 4 = 0) then (x - 1) mod 2 ^ 32 else x).
Proof.
  intros Hm%reachable_image_ok Hv Ha Hp runs. pose proof (vm_fine_pagewise vm Hv).
  assert (∀ op, address mod 4 = 0 → runs (atomic_update vm address op) op id) as Hat.
  { intros op Hal. destruct (atomic_update_spec vm m address op Hm Ha Hal) as [(_ & x & m' & Hx & E & Hr)|[[f Hf] E]].
    - left. by exists x, m'.
    - right. by exists f, address. }
  assert (∀ op, runs (unaligned_interlocked vm address op) op id) as Hun.
  { intros op. destruct (unaligned_in_page vm m address op Hm Ha Hp) as [(_ & x & m' & Hx & E & Hr)|(f & Hf & E)].
    - left. by exists x, m'.
    - right. by exists f, f. }
  assert (∀ op, runs (interlocked vm address op) op id) as Hin.
  { intros op. unfold interlocked, is_multiple_of. destruct (Z.eqb_spec (address mod 4) 0); cbn [negb]; [by apply Hat|apply Hun]. }
  assert (∀ op g, address mod 4 = 0 → runs (previous <- atomic_update vm address op ;; ret (g previous)) op g) as Hthen.
  { intros op g Hal. destruct (Hat op Hal) as [(x & m' & Hx & E & Hr)|(f & e & Hf & E)]; unfold id in E.
    - left. exists x, m'. split_and!; [done| |done]. cbn [bind]. by rewrite E.
    - right. exists f, e. split; [done|]. cbn [bind]. by rewrite E. }
  split_and!; [apply Hin..| |]; unfold interlocked_increment_u32, interlocked_decrement_u32, is_multiple_of;
    destruct (decide (address mod 4 = 0)) as [Hal|Hal].
  - rewrite (proj2 (Z.eqb_eq _ _) Hal). by apply (Hthen _ (λ x, wrap32 (x + 1))).
  - rewrite (proj2 (Z.eqb_neq _ _) Hal). apply Hun.
  - rewrite (proj2 (Z.eqb_eq _ _) Hal). by apply (Hthen _ (λ x, wrap32 (x - 1))).
  - rewrite (proj2 (Z.eqb_neq _ _) Hal). apply Hun.
Qed.

Definition counter_image : MemoryImage :=
  match map_bytes 0x1000 [7; 0; 0; 0; 9; 0; 0; 0] (new_image example_map) with Done _ m => m | Panic => new_image example_map end.
Lemma counter_image_reachable : image_reachable example_map counter_image.
Proof.
  apply (reach_op _ (new_image example_map) (MapBytes 0x1000 [7; 0; 0; 0; 9; 0; 0; 0]) (Ok tt)); [constructor| |by vm_compute].
  cbn [op_fine]. split_and!; [by vm_compute..| |by vm_compute|by vm_compute]. repeat constructor; by vm_compute.
Qed.

(** The answer of an increment one byte further on is the previous value. *)
Lemma interlocked_exact_witness :
  ∃ x m', word_at counter_image 0x1001 x ∧ interlocked_increment_u32 None 0x1001 counter_image = Done (Ok x) m' ∧
    word_replaced counter_image m' 0x1001 ((x + 1) mod 2 ^ 32).
Proof.
  destruct (interlocked_exact example_map counter_image None 0x1001 0 0 counter_image_reachable I) as (_ & _ & _ & H & _); [by vm_compute..|].
  destruct H as [(x & m' & Hx & E & Hr)|(f & e & _ & E)].
  - exists x, m'. split; [exact Hx|]. split; [exact E|exact Hr].
  - exfalso. vm_compute in E. discriminate E.
Defined.

(** ** Operand addresses *)

#[local] Existing Instances eqm_setoid Zplus_eqm Zmult_eqm.
Lemma eqm_mod n x y : eqm n x y → x mod n = y mod n.
Proof. done. Qed.
Lemma eqm_32_64 x : eqm (2 ^ 32) (x mod 2 ^ 64) x.
Proof. unfold eqm. rewrite two64. change (2 ^ 32) with 4294967296. Z.div_mod_to_equations; lia. Qed.
Ltac eqm_solve := rewrite ?eqm_32_64, ?Zmod_eqm; unfold eqm; f_equal; ring.

(** The effective address of an operand, as arithmetic modulo the address size: the
    whole sum, segment base included, modulo 2^32 for a 32-bit processor; for a 32-bit
    address size of a 64-bit one the sum modulo 2^32, to which the segment base is
    added; else the sum modulo 2^64.  An absolute address takes only the segment base,
    modulo 2^64 in every mode. *)
Theorem operand_address_exact state operand :
  let segment := match mo_segment operand with Some g => segment_base state g | None => 0 end in
  let base := match mo_base operand with Some r => get state r | None => 0 end in
  let index := match mo_index operand with Some r => get state r | None => 0 end in
  let rip := if mo_rip_relative operand then mo_rip_base operand else 0 in
  let sum := mo_displacement operand + rip + base + index * mo_scale operand in
  resolve_memory_operand state operand =
    match mo_absolute_address operand, mo_segment operand with
    | Some a, None => a
    | Some a, Some _ => (a + segment) mod 2 ^ 64
    | None, _ =>
        if decide (cs_arch state = X86) then (segment + sum) mod 2 ^ 32
        else if mo_address_size_32 operand then
          match mo_segment operand with Some _ => (segment + sum mod 2 ^ 32) mod 2 ^ 64 | None => sum mod 2 ^ 32 end
        else (segment + sum) mod 2 ^ 64
    end.
Proof.
  intros segment base index rip sum. unfold resolve_memory_operand.
  change 0xffffffff with (Z.ones 32). rewrite !Z.land_ones by lia.
  subst segment base index rip sum. unfold add_opt, wrapping_add64, wrap64, low32, sign_extend.
  destruct (mo_absolute_address operand) as [a|].
  - by destruct (mo_segment operand).
  - destruct (decide (cs_arch state = X86)); [|destruct (mo_address_size_32 operand)];
    destruct (mo_base operand) as [b|], (mo_index operand) as [i|], (mo_segment operand) as [g|], (mo_rip_relative operand).
    all: rewrite ?(Z.add_comm (segment_base _ _) (_ mod 2 ^ 32)).
    all: first [apply eqm_mod; eqm_solve|f_equal; f_equal; apply eqm_mod; eqm_solve].
Qed.
End Gmt.
