(* ===== verification/AudioRing.v ===== *)
(** * The audio ring buffer

    The ring of samples between the decoder thread and the audio callback
    ([audio_ring_buffer.rs]), its double buffer, and the ring shared by two threads.
    A sample is the bit pattern of an [f32], which the ring only copies; silence is
    the pattern of [0.0]. *)

From stdpp Require Import list_numbers.
From S2P Require Import Prelude Flags.

Record RingBufferMetrics := {
  mt_underrun_count : Z; mt_underrun_duration_us : Z; mt_overflow_count : Z; mt_total_written : Z;
  mt_total_read : Z; mt_peak_fill_frames : Z; mt_last_underrun : option Z;
  mt_latency_sum_us : Z; mt_latency_measurements : Z }.
Definition no_metrics : RingBufferMetrics :=
  {| mt_underrun_count := 0; mt_underrun_duration_us := 0; mt_overflow_count := 0; mt_total_written := 0;
     mt_total_read := 0; mt_peak_fill_frames := 0; mt_last_underrun := None; mt_latency_sum_us := 0;
     mt_latency_measurements := 0 |}.
Definition average_latency_us (m : RingBufferMetrics) : Z :=
  if mt_latency_measurements m =? 0 then 0 else mt_latency_sum_us m / mt_latency_measurements m.

Record AudioRingBuffer := {
  rb_buffer : list Z; rb_mask : Z; rb_head : Z; rb_tail : Z; rb_dropped : Z; rb_channels : Z;
  rb_pre_buffer_frames : Z; rb_pre_buffering_complete : bool; rb_metrics : RingBufferMetrics; rb_sample_rate : Z }.

Definition rb_set_buffer (b : list Z) (s : AudioRingBuffer) : AudioRingBuffer :=
  {| rb_buffer := b; rb_mask := rb_mask s; rb_head := rb_head s; rb_tail := rb_tail s; rb_dropped := rb_dropped s;
     rb_channels := rb_channels s; rb_pre_buffer_frames := rb_pre_buffer_frames s;
     rb_pre_buffering_complete := rb_pre_buffering_complete s; rb_metrics := rb_metrics s; rb_sample_rate := rb_sample_rate s |}.
Definition rb_set_positions (head tail dropped : Z) (s : AudioRingBuffer) : AudioRingBuffer :=
  {| rb_buffer := rb_buffer s; rb_mask := rb_mask s; rb_head := head; rb_tail := tail; rb_dropped := dropped;
     rb_channels := rb_channels s; rb_pre_buffer_frames := rb_pre_buffer_frames s;
     rb_pre_buffering_complete := rb_pre_buffering_complete s; rb_metrics := rb_metrics s; rb_sample_rate := rb_sample_rate s |}.
Definition rb_set_complete (b : bool) (s : AudioRingBuffer) : AudioRingBuffer :=
  {| rb_buffer := rb_buffer s; rb_mask := rb_mask s; rb_head := rb_head s; rb_tail := rb_tail s; rb_dropped := rb_dropped s;
     rb_channels := rb_channels s; rb_pre_buffer_frames := rb_pre_buffer_frames s;
     rb_pre_buffering_complete := b; rb_metrics := rb_metrics s; rb_sample_rate := rb_sample_rate s |}.
Definition rb_set_metrics (m : RingBufferMetrics) (s : AudioRingBuffer) : AudioRingBuffer :=
  {| rb_buffer := rb_buffer s; rb_mask := rb_mask s; rb_head := rb_head s; rb_tail := rb_tail s; rb_dropped := rb_dropped s;
     rb_channels := rb_channels s; rb_pre_buffer_frames := rb_pre_buffer_frames s;
     rb_pre_buffering_complete := rb_pre_buffering_complete s; rb_metrics := m; rb_sample_rate := rb_sample_rate s |}.
Definition set_head (x : Z) (s : AudioRingBuffer) : AudioRingBuffer := rb_set_positions x (rb_tail s) (rb_dropped s) s.
Definition set_tail (x : Z) (s : AudioRingBuffer) : AudioRingBuffer := rb_set_positions (rb_head s) x (rb_dropped s) s.
Definition set_dropped (x : Z) (s : AudioRingBuffer) : AudioRingBuffer := rb_set_positions (rb_head s) (rb_tail s) x s.

(** [usize::next_power_of_two], which panics when it does not fit. *)
Definition next_power_of_two (n : Z) : option Z :=
  let p := 2 ^ Z.log2_up n in if p <=? usize_max then Some p else None.

(** [None] is a panic: no channels, a size that overflows, or more than a vector of
    [f32] holds. *)
Definition new_ring (capacity_frames channels sample_rate pre_buffer_frames : Z) : option AudioRingBuffer :=
  if channels =? 0 then None
  else
    frames ← next_power_of_two capacity_frames;
    capacity_samples ← checked_mul usize_max frames channels;
    if isize_max <? capacity_samples * 4 then None
    else Some {| rb_buffer := replicate (Z.to_nat capacity_samples) 0; rb_mask := capacity_samples - 1;
                 rb_head := 0; rb_tail := 0; rb_dropped := 0; rb_channels := channels;
                 rb_pre_buffer_frames := pre_buffer_frames; rb_pre_buffering_complete := pre_buffer_frames =? 0;
                 rb_metrics := no_metrics; rb_sample_rate := sample_rate |}.
Definition new_default_ring (channels sample_rate : Z) : option AudioRingBuffer := new_ring 4096 channels sample_rate 1024.

Definition ring_capacity (s : AudioRingBuffer) : Z := Z.of_nat (length (rb_buffer s)).
Definition fill_samples (s : AudioRingBuffer) : Z :=
  Z.min (saturating_sub (wrapping_sub64 (rb_tail s) (rb_head s)) (rb_dropped s)) (ring_capacity s).
Definition fill_frames (s : AudioRingBuffer) : Z := fill_samples s / Z.max (rb_channels s) 1.
Definition capacity_frames (s : AudioRingBuffer) : Z := ring_capacity s / Z.max (rb_channels s) 1.
Definition is_pre_buffered (s : AudioRingBuffer) : bool := rb_pre_buffering_complete s.

(** *** Metrics

    [x += y] panics beyond the width. *)

Definition on_metrics (f : RingBufferMetrics → option RingBufferMetrics) : M AudioRingBuffer unit :=
  s <- gets id ;; m <- expect (f (rb_metrics s)) ;; modify (rb_set_metrics m).

Definition note_overflow (m : RingBufferMetrics) : option RingBufferMetrics :=
  n ← checked_add u64_max (mt_overflow_count m) 1;
  Some {| mt_underrun_count := mt_underrun_count m; mt_underrun_duration_us := mt_underrun_duration_us m;
          mt_overflow_count := n; mt_total_written := mt_total_written m; mt_total_read := mt_total_read m;
          mt_peak_fill_frames := mt_peak_fill_frames m; mt_last_underrun := mt_last_underrun m;
          mt_latency_sum_us := mt_latency_sum_us m; mt_latency_measurements := mt_latency_measurements m |}.
Definition note_written (count frames : Z) (m : RingBufferMetrics) : option RingBufferMetrics :=
  n ← checked_add u64_max (mt_total_written m) count;
  Some {| mt_underrun_count := mt_underrun_count m; mt_underrun_duration_us := mt_underrun_duration_us m;
          mt_overflow_count := mt_overflow_count m; mt_total_written := n; mt_total_read := mt_total_read m;
          mt_peak_fill_frames := if mt_peak_fill_frames m <? frames then frames else mt_peak_fill_frames m;
          mt_last_underrun := mt_last_underrun m;
          mt_latency_sum_us := mt_latency_sum_us m; mt_latency_measurements := mt_latency_measurements m |}.
(** How long [samples] play, in microseconds. *)
Definition samples_us (sample_rate channels samples : Z) : option Z :=
  if 0 <? sample_rate then us ← checked_mul u64_max samples 1000000; Some (us / (sample_rate * channels)) else Some 0.
Definition note_underrun (us now : Z) (m : RingBufferMetrics) : option RingBufferMetrics :=
  n ← checked_add u64_max (mt_underrun_count m) 1;
  d ← checked_add u64_max (mt_underrun_duration_us m) us;
  Some {| mt_underrun_count := n; mt_underrun_duration_us := d;
          mt_overflow_count := mt_overflow_count m; mt_total_written := mt_total_written m; mt_total_read := mt_total_read m;
          mt_peak_fill_frames := mt_peak_fill_frames m; mt_last_underrun := Some now;
          mt_latency_sum_us := mt_latency_sum_us m; mt_latency_measurements := mt_latency_measurements m |}.
Definition note_read (count : Z) (m : RingBufferMetrics) : option RingBufferMetrics :=
  n ← checked_add u64_max (mt_total_read m) count;
  Some {| mt_underrun_count := mt_underrun_count m; mt_underrun_duration_us := mt_underrun_duration_us m;
          mt_overflow_count := mt_overflow_count m; mt_total_written := mt_total_written m; mt_total_read := n;
          mt_peak_fill_frames := mt_peak_fill_frames m; mt_last_underrun := mt_last_underrun m;
          mt_latency_sum_us := mt_latency_sum_us m; mt_latency_measurements := mt_latency_measurements m |}.
Definition note_latency (us : Z) (m : RingBufferMetrics) : option RingBufferMetrics :=
  sum ← checked_add u64_max (mt_latency_sum_us m) us;
  n ← checked_add u64_max (mt_latency_measurements m) 1;
  Some {| mt_underrun_count := mt_underrun_count m; mt_underrun_duration_us := mt_underrun_duration_us m;
          mt_overflow_count := mt_overflow_count m; mt_total_written := mt_total_written m; mt_total_read := mt_total_read m;
          mt_peak_fill_frames := mt_peak_fill_frames m; mt_last_underrun := mt_last_underrun m;
          mt_latency_sum_us := sum; mt_latency_measurements := n |}.

(** *** Writing *)

(** One cell written through the pointer of the buffer; the mask keeps it inside. *)
Definition store_cell (position sample : Z) (s : AudioRingBuffer) : AudioRingBuffer :=
  rb_set_buffer (<[Z.to_nat (Z.land position (rb_mask s)) := sample]> (rb_buffer s)) s.
Fixpoint store_samples (tail i : Z) (src : list Z) : M AudioRingBuffer unit :=
  match src with
  | [] => ret tt
  | sample :: src =>
      position <- add_at usize_max tail i ;;
      modify (store_cell position sample) ;;;
      store_samples tail (i + 1) src
  end.

(** The newest samples, when there are more than the ring holds. *)
Definition newest (capacity : Z) (samples : list Z) : list Z :=
  if capacity <? Z.of_nat (length samples) then drop (Z.to_nat (Z.of_nat (length samples) - capacity)) samples else samples.

Definition ring_write (samples : list Z) : M AudioRingBuffer Z :=
  let len := Z.of_nat (length samples) in
  if len =? 0 then ret 0
  else
    s <- gets id ;;
    let capacity := ring_capacity s in
    let tail := rb_tail s in
    let used := Z.min (wrapping_sub64 tail (rb_head s)) capacity in
    let free := capacity - used in
    let write_count := Z.min len capacity in
    store_samples tail 0 (newest capacity samples) ;;;
    modify (set_tail (wrapping_add64 tail write_count)) ;;;
    let overflow := saturating_sub write_count free in
    (if 0 <? overflow
     then modify (λ s, set_dropped (wrapping_add64 (rb_dropped s) overflow) s) ;;; on_metrics note_overflow
     else ret tt) ;;;
    s <- gets id ;;
    (if negb (rb_pre_buffering_complete s) && (rb_pre_buffer_frames s <=? fill_samples s / rb_channels s)
     then modify (rb_set_complete true) else ret tt) ;;;
    on_metrics (note_written write_count (fill_samples s / rb_channels s)) ;;;
    ret write_count.

(** *** Reading

    [n] is the length of the output; the result is the count and the output. *)

Fixpoint load_samples (start i : Z) (n : nat) : M AudioRingBuffer (list Z) :=
  match n with
  | O => ret []
  | S n =>
      s <- gets id ;;
      position <- add_at usize_max start i ;;
      sample <- expect (rb_buffer s !! Z.to_nat (Z.land position (rb_mask s))) ;;
      rest <- load_samples start (i + 1) n ;;
      ret (sample :: rest)
  end.

Definition silence (n : Z) : list Z := replicate (Z.to_nat n) 0.

(** The part the two reads share: the samples, what was skipped and the tail seen. *)
Definition take_samples (n : Z) : M AudioRingBuffer (list Z * Z * Z * Z) :=
  s <- gets id ;;
  let head := rb_head s in
  let tail := rb_tail s in
  let skip := rb_dropped s in
  modify (set_dropped 0) ;;;
  let available := saturating_sub (wrapping_sub64 tail head) skip in
  let read_count := Z.min n available in
  start <- (if 0 <? read_count then add_at usize_max head skip else ret 0) ;;
  samples <- load_samples start 0 (Z.to_nat read_count) ;;
  ret (samples, head, tail, skip).

Definition underrun (samples now : Z) : M AudioRingBuffer unit :=
  s <- gets id ;;
  us <- expect (samples_us (rb_sample_rate s) (rb_channels s) samples) ;;
  on_metrics (note_underrun us now).

Definition ring_read (n now : Z) : M AudioRingBuffer (Z * list Z) :=
  s <- gets id ;;
  if negb (rb_pre_buffering_complete s) then ret (0, silence n)
  else
    '(samples, head, tail, skip) <- take_samples n ;;
    let read_count := Z.of_nat (length samples) in
    (if read_count <? n then underrun (n - read_count) now else ret tt) ;;;
    advanced <- add_at usize_max skip read_count ;;
    modify (set_head (wrapping_add64 head advanced)) ;;;
    on_metrics (note_read read_count) ;;;
    (let remaining := wrapping_sub64 tail (wrapping_add64 head advanced) in
     let remaining_frames := remaining / Z.max (rb_channels s) 1 in
     if 0 <? rb_sample_rate s
     then us <- expect (checked_mul u64_max remaining_frames 1000000) ;;
          on_metrics (note_latency (us / rb_sample_rate s))
     else ret tt) ;;;
    ret (read_count, samples ++ silence (n - read_count)).

(** The last frame repeated over the rest of the output, channel by channel. *)
Definition hold_channel (last_frame_start frame_idx : Z) (output : list Z) (ch : Z) : list Z :=
  if frame_idx + ch <? Z.of_nat (length output)
  then <[Z.to_nat (frame_idx + ch) := output !!! Z.to_nat (last_frame_start + ch)]> output
  else output.
Definition hold_frames (channels read_count : Z) (output : list Z) : list Z :=
  let len := Z.of_nat (length output) in
  let last_frame_start := read_count - channels in
  foldl (λ output k, foldl (hold_channel last_frame_start (read_count + k * channels)) output (seqZ 0 channels))
    output (seqZ 0 ((len - read_count + channels - 1) / channels)).

Definition ring_read_hold (n now : Z) : M AudioRingBuffer (Z * list Z) :=
  s <- gets id ;;
  if negb (rb_pre_buffering_complete s) then ret (0, silence n)
  else
    '(samples, head, tail, skip) <- take_samples n ;;
    let read_count := Z.of_nat (length samples) in
    let output := samples ++ silence (n - read_count) in
    let channels := rb_channels s in
    (if (read_count <? n) && (0 <? read_count) then underrun (n - read_count) now else ret tt) ;;;
    advanced <- add_at usize_max skip read_count ;;
    modify (set_head (wrapping_add64 head advanced)) ;;;
    on_metrics (note_read read_count) ;;;
    ret (read_count,
         if (read_count <? n) && (0 <? read_count) && (channels <=? read_count)
         then hold_frames channels read_count output else output).

Definition ring_reset (s : AudioRingBuffer) : AudioRingBuffer :=
  rb_set_complete (rb_pre_buffer_frames s =? 0) (rb_set_positions 0 0 0 s).

(** ** The double buffer *)

Record DoubleAudioBuffer := { db_primary : AudioRingBuffer; db_secondary : AudioRingBuffer; db_reading_primary : bool }.
Definition new_double (capacity_frames channels sample_rate pre_buffer_frames : Z) : option DoubleAudioBuffer :=
  primary ← new_ring capacity_frames channels sample_rate pre_buffer_frames;
  secondary ← new_ring capacity_frames channels sample_rate pre_buffer_frames;
  Some {| db_primary := primary; db_secondary := secondary; db_reading_primary := true |}.

(** The buffer that is read, or the other one. *)
Definition db_side (primary : bool) (d : DoubleAudioBuffer) : AudioRingBuffer :=
  if primary then db_primary d else db_secondary d.
Definition db_set_side (primary : bool) (r : AudioRingBuffer) (d : DoubleAudioBuffer) : DoubleAudioBuffer :=
  if primary then {| db_primary := r; db_secondary := db_secondary d; db_reading_primary := db_reading_primary d |}
  else {| db_primary := db_primary d; db_secondary := r; db_reading_primary := db_reading_primary d |}.
Definition db_set_reading (b : bool) (d : DoubleAudioBuffer) : DoubleAudioBuffer :=
  {| db_primary := db_primary d; db_secondary := db_secondary d; db_reading_primary := b |}.

Definition double_write (samples : list Z) : M DoubleAudioBuffer Z :=
  d <- gets id ;;
  let side := negb (db_reading_primary d) in
  zoom (db_side side) (db_set_side side) (ring_write samples).

Definition double_read (n now : Z) : M DoubleAudioBuffer (Z * list Z) :=
  d <- gets id ;;
  let reading_primary := db_reading_primary d in
  r <- zoom (db_side reading_primary) (db_set_side reading_primary) (ring_read n now) ;;
  d <- gets id ;;
  let active := db_side reading_primary d in
  (if fill_frames active <? n / rb_channels active / 2
   then if 0 <? fill_frames (db_side (negb reading_primary) d)
        then modify (db_set_reading (negb reading_primary)) else ret tt
   else ret tt) ;;;
  ret r.

Definition double_reset (d : DoubleAudioBuffer) : DoubleAudioBuffer :=
  {| db_primary := ring_reset (db_primary d); db_secondary := ring_reset (db_secondary d); db_reading_primary := true |}.

(** ** The ring shared by a producer and a consumer thread

    Each atomic operation, and each access to a cell, is one step of its thread.  The
    two positions have one owner each, which reads its own without a step. *)

Inductive producer :=
| PIdle
| PCopying (tail free : Z) (src : list Z) (i : nat)
| PPublished (overflow : Z)
| PDropped.
Inductive consumer :=
| CIdle
| CLoaded (head tail n : Z)
| CCopying (head skip count : Z) (out : list Z).

(** What each thread handed over so far goes with the ring. *)
Record RingWorld := { rw_ring : AudioRingBuffer; rw_producer : producer; rw_consumer : consumer;
  rw_sent : list Z; rw_delivered : list Z }.

Inductive producer_step : RingWorld → RingWorld → Prop :=
| p_start rb c sent delivered samples :
    samples ≠ [] →
    let capacity := ring_capacity rb in
    producer_step (Build_RingWorld rb PIdle c sent delivered)
      (Build_RingWorld rb (PCopying (rb_tail rb) (capacity - Z.min (wrapping_sub64 (rb_tail rb) (rb_head rb)) capacity)
                             (newest capacity samples) 0) c sent delivered)
| p_copy rb c sent delivered tail free src i sample :
    src !! i = Some sample → tail + Z.of_nat i ≤ usize_max →
    producer_step (Build_RingWorld rb (PCopying tail free src i) c sent delivered)
      (Build_RingWorld (store_cell (tail + Z.of_nat i) sample rb) (PCopying tail free src (S i)) c sent delivered)
| p_publish rb c sent delivered tail free src :
    producer_step (Build_RingWorld rb (PCopying tail free src (length src)) c sent delivered)
      (Build_RingWorld (set_tail (wrapping_add64 tail (Z.of_nat (length src))) rb)
         (PPublished (saturating_sub (Z.of_nat (length src)) free)) c (sent ++ src) delivered)
| p_drop rb c sent delivered overflow :
    producer_step (Build_RingWorld rb (PPublished overflow) c sent delivered)
      (Build_RingWorld (if 0 <? overflow then set_dropped (wrapping_add64 (rb_dropped rb) overflow) rb else rb)
         PDropped c sent delivered)
(** The three loads of the fill level answer whether pre-buffering is complete. *)
| p_complete rb c sent delivered b :
    producer_step (Build_RingWorld rb PDropped c sent delivered)
      (Build_RingWorld (rb_set_complete (rb_pre_buffering_complete rb || b) rb) PIdle c sent delivered).

Inductive consumer_step : RingWorld → RingWorld → Prop :=
| c_load rb p sent delivered n :
    0 ≤ n → rb_pre_buffering_complete rb = true →
    consumer_step (Build_RingWorld rb p CIdle sent delivered)
      (Build_RingWorld rb p (CLoaded (rb_head rb) (rb_tail rb) n) sent delivered)
| c_skip rb p sent delivered head tail n :
    consumer_step (Build_RingWorld rb p (CLoaded head tail n) sent delivered)
      (Build_RingWorld (set_dropped 0 rb) p
         (CCopying head (rb_dropped rb) (Z.min n (saturating_sub (wrapping_sub64 tail head) (rb_dropped rb))) [])
         sent delivered)
| c_copy rb p sent delivered head skip count out sample :
    Z.of_nat (length out) < count → head + skip + Z.of_nat (length out) ≤ usize_max →
    rb_buffer rb !! Z.to_nat (Z.land (head + skip + Z.of_nat (length out)) (rb_mask rb)) = Some sample →
    consumer_step (Build_RingWorld rb p (CCopying head skip count out) sent delivered)
      (Build_RingWorld rb p (CCopying head skip count (out ++ [sample])) sent delivered)
| c_publish rb p sent delivered head skip count out :
    Z.of_nat (length out) = count →
    consumer_step (Build_RingWorld rb p (CCopying head skip count out) sent delivered)
      (Build_RingWorld (set_head (wrapping_add64 head (skip + count)) rb) p CIdle sent (delivered ++ out)).

Definition ring_world_step (w w' : RingWorld) : Prop := producer_step w w' ∨ consumer_step w w'.
Definition ring_world (rb : AudioRingBuffer) : RingWorld :=
  {| rw_ring := rb; rw_producer := PIdle; rw_consumer := CIdle; rw_sent := []; rw_delivered := [] |}.
