(* ===== verification/AudioRingFacts.v ===== *)
(** * The audio ring buffer: what one thread sees *)

From stdpp Require Import list_numbers.
From S2P Require Import Prelude Flags AudioRing.

Module Ar.

(** ** Cells *)

Lemma ring_land_mask k p : 0 ≤ k → Z.land p (2 ^ k - 1) = p mod 2 ^ k.
Proof. intros Hk. replace (2 ^ k - 1) with (Z.ones k) by (rewrite Z.ones_equiv; lia). by apply Z.land_ones. Qed.

(** The ring whose size is a power of two, with the samples [q] not read yet. *)
Record ring_ok (k : Z) (rb : AudioRingBuffer) (q : list Z) : Prop := {
  rg_k : 0 ≤ k ≤ 40;
  rg_capacity : ring_capacity rb = 2 ^ k;
  rg_mask : rb_mask rb = 2 ^ k - 1;
  rg_positions : 0 ≤ rb_head rb ∧ 0 ≤ rb_dropped rb ∧ rb_tail rb = rb_head rb + rb_dropped rb + Z.of_nat (length q) ∧ rb_tail rb ≤ 2 ^ 62;
  rg_fill : Z.of_nat (length q) ≤ 2 ^ k;
  rg_dropped : rb_dropped rb = 0 ∨ Z.of_nat (length q) = 2 ^ k;
  rg_cells : ∀ i x, q !! i = Some x →
    rb_buffer rb !! Z.to_nat ((rb_head rb + rb_dropped rb + Z.of_nat i) mod 2 ^ k) = Some x;
  rg_channels : 0 < rb_channels rb }.

(** The counters are far from their width. *)
Record metrics_room (rb : AudioRingBuffer) : Prop := {
  mr_counts : mt_underrun_count (rb_metrics rb) ≤ 2 ^ 62 ∧ mt_underrun_duration_us (rb_metrics rb) ≤ 2 ^ 62 ∧
    mt_overflow_count (rb_metrics rb) ≤ 2 ^ 62 ∧ mt_total_written (rb_metrics rb) ≤ 2 ^ 62 ∧
    mt_total_read (rb_metrics rb) ≤ 2 ^ 62 ∧ mt_latency_sum_us (rb_metrics rb) ≤ 2 ^ 62 ∧
    mt_latency_measurements (rb_metrics rb) ≤ 2 ^ 62;
  mr_rate : 0 ≤ rb_sample_rate rb }.

Lemma pow_bounds k : 0 ≤ k ≤ 40 → 0 < 2 ^ k ≤ 2 ^ 40.
Proof. intros Hk. split; [apply Z.pow_pos_nonneg; lia|apply Z.pow_le_mono_r; lia]. Qed.
Ltac ring_consts := change (2 ^ 62) with 4611686018427387904 in *; change (2 ^ 64) with 18446744073709551616 in *;
  change (2 ^ 40) with 1099511627776 in *; unfold usize_max, u64_max, isize_max in *.

(** The cells after a run of stores: those of the positions stored have what was stored. *)
Lemma store_samples_spec k tail i src rb :
  0 ≤ k ≤ 40 → ring_capacity rb = 2 ^ k → rb_mask rb = 2 ^ k - 1 → 0 ≤ tail → 0 ≤ i →
  Z.of_nat (length src) ≤ 2 ^ k → tail + i + Z.of_nat (length src) ≤ 2 ^ 63 →
  ∃ b, store_samples tail i src rb = Done (Ok tt) (rb_set_buffer b rb) ∧ length b = length (rb_buffer rb) ∧
    ∀ p, b !! Z.to_nat (p mod 2 ^ k) =
      if decide ((p - (tail + i)) mod 2 ^ k < Z.of_nat (length src)) then src !! Z.to_nat ((p - (tail + i)) mod 2 ^ k)
      else rb_buffer rb !! Z.to_nat (p mod 2 ^ k).
Proof.
  intros Hk. pose proof (pow_bounds k Hk) as Hpow. revert i rb.
  induction src as [|x src IH]; intros i rb Hcap Hmask Ht Hi Hlen Hpos.
  { exists (rb_buffer rb). split_and!; [by destruct rb|done|]. intros p. rewrite decide_False; [done|].
    pose proof (Z.mod_pos_bound (p - (tail + i)) (2 ^ k)). simpl. lia. }
  simpl in Hlen, Hpos. cbn [store_samples bind]. change (2 ^ 63) with 9223372036854775808 in *.
  unfold add_at, usize_max, u64_max. rewrite (proj2 (Z.leb_le _ _)) by lia. cbn [modify].
  set (rb1 := store_cell (tail + i) x rb).
  assert (length (rb_buffer rb1) = length (rb_buffer rb)) as Hl1 by apply length_insert.
  destruct (IH (i + 1) rb1) as (b & E & Hlb & Hb); [unfold ring_capacity in *; by rewrite Hl1|done|done|lia|lia|lia|].
  exists b. split_and!; [exact E|by rewrite Hlb|]. intros p. rewrite Hb.
  unfold rb1, store_cell. cbn [rb_set_buffer rb_buffer]. rewrite Hmask, ring_land_mask by lia.
  pose proof (Z.mod_pos_bound (p - (tail + i)) (2 ^ k) ltac:(lia)) as Hd.
  assert ((p - (tail + (i + 1))) mod 2 ^ k = ((p - (tail + i)) mod 2 ^ k - 1) mod 2 ^ k) as Ed.
  { rewrite Zminus_mod_idemp_l. f_equal. lia. }
  destruct (decide ((p - (tail + i)) mod 2 ^ k = 0)) as [E0|E0].
  - assert (p mod 2 ^ k = (tail + i) mod 2 ^ k) as Ep.
    { replace p with (p - (tail + i) + (tail + i)) by lia. rewrite <-Zplus_mod_idemp_l, E0. f_equal. }
    rewrite Ed, E0. replace ((0 - 1) mod 2 ^ k) with (2 ^ k - 1) by (apply (Z.mod_unique_pos _ _ (-1)); lia).
    rewrite decide_False by lia. rewrite decide_True by (simpl; lia). rewrite Ep. simpl.
    apply list_lookup_insert_eq. pose proof (Z.mod_pos_bound (tail + i) (2 ^ k) ltac:(lia)). unfold ring_capacity in Hcap. lia.
  - rewrite Ed, (Z.mod_small ((p - (tail + i)) mod 2 ^ k - 1)) by lia.
    destruct (decide ((p - (tail + i)) mod 2 ^ k < Z.of_nat (length (x :: src)))) as [Hin|Hin]; simpl in Hin.
    + rewrite decide_True by lia. replace (Z.to_nat ((p - (tail + i)) mod 2 ^ k)) with (S (Z.to_nat ((p - (tail + i)) mod 2 ^ k - 1))) by lia. done.
    + rewrite decide_False by lia. apply list_lookup_insert_ne. intros Heq. apply E0.
      pose proof (Z.mod_pos_bound (tail + i) (2 ^ k) ltac:(lia)). pose proof (Z.mod_pos_bound p (2 ^ k) ltac:(lia)).
      assert (p mod 2 ^ k = (tail + i) mod 2 ^ k) as Ep by lia. rewrite Zminus_mod, Ep, Z.sub_diag. apply Zmod_0_l.
Qed.

(** ** The queue of the newest samples *)

Definition keep_newest (n : Z) (l : list Z) : list Z := drop (length l - Z.to_nat n) l.

Lemma newest_eq n l : 0 ≤ n → newest n l = keep_newest n l.
Proof.
  intros Hn. unfold newest, keep_newest. destruct (Z.ltb_spec n (Z.of_nat (length l))); [f_equal; lia|].
  by replace (length l - Z.to_nat n)%nat with 0%nat by lia.
Qed.
Lemma length_keep_newest n l : 0 ≤ n → Z.of_nat (length (keep_newest n l)) = Z.min n (Z.of_nat (length l)).
Proof. intros Hn. unfold keep_newest. rewrite length_drop. lia. Qed.
Lemma keep_newest_all n l : Z.of_nat (length l) ≤ n → keep_newest n l = l.
Proof. intros Hn. unfold keep_newest. by replace (length l - Z.to_nat n)%nat with 0%nat by lia. Qed.

Lemma next_power_spec n p : 0 ≤ n → next_power_of_two n = Some p → ∃ k, 0 ≤ k ∧ p = 2 ^ k ∧ Z.max n 1 ≤ p.
Proof.
  intros Hn. unfold next_power_of_two. destruct (_ <=? _); [|done]. intros [= <-]. exists (Z.log2_up n).
  split_and!; [apply Z.log2_up_nonneg|done|]. destruct (decide (1 < n)) as [H1|H1].
  - pose proof (Z.log2_up_spec n H1). lia.
  - assert (Z.log2_up n = 0) as -> by (apply Z.log2_up_eqn0; lia). simpl. lia.
Qed.

(** ** Writing *)

Lemma fill_samples_ok k rb q : ring_ok k rb q → fill_samples rb = Z.of_nat (length q).
Proof.
  intros [Hk Hcap _ (Hh & Hd & Ht & Hb) Hf _ _ _]. unfold fill_samples, wrapping_sub64, wrap64, saturating_sub. rewrite Hcap.
  rewrite Z.mod_small by (ring_consts; lia). lia.
Qed.

Lemma checked_add_room x y : x ≤ 2 ^ 62 → y ≤ 2 ^ 62 → checked_add u64_max x y = Some (x + y).
Proof. intros. unfold checked_add. rewrite (proj2 (Z.leb_le _ _)); [done|]. ring_consts. lia. Qed.

(** The positions and the cells after a store of [src]. *)
Lemma stored_ok k rb q samples b :
  ring_ok k rb q → rb_tail rb + 2 ^ k ≤ 2 ^ 62 →
  let src := keep_newest (2 ^ k) samples in
  let wc := Z.of_nat (length src) in
  length b = length (rb_buffer rb) →
  (∀ p, b !! Z.to_nat (p mod 2 ^ k) =
      if decide ((p - rb_tail rb) mod 2 ^ k < wc) then src !! Z.to_nat ((p - rb_tail rb) mod 2 ^ k)
      else rb_buffer rb !! Z.to_nat (p mod 2 ^ k)) →
  let overflow := saturating_sub wc (2 ^ k - Z.min (Z.of_nat (length q) + rb_dropped rb) (2 ^ k)) in
  ring_ok k (rb_set_positions (rb_head rb) (rb_tail rb + wc) (rb_dropped rb + overflow) (rb_set_buffer b rb))
    (keep_newest (2 ^ k) (q ++ samples)).
Proof.
  intros [Hk Hcap Hmask (Hh & Hd & Ht & Hb) Hf Hdr Hcells Hch] Hroom src wc Hlb Hbuf overflow. pose proof (pow_bounds k Hk) as Hpow.
  pose proof (length_keep_newest (2 ^ k) samples ltac:(lia)) as Hwc. fold src wc in Hwc.
  pose proof (length_keep_newest (2 ^ k) (q ++ samples) ltac:(lia)) as Hq'. rewrite length_app, Nat2Z.inj_add in Hq'.
  assert (overflow = wc + Z.of_nat (length q) - Z.of_nat (length (keep_newest (2 ^ k) (q ++ samples)))) as Eo.
  { unfold overflow, saturating_sub. destruct Hdr as [Hdr|Hdr]; lia. }
  clearbody overflow. split; simpl; [done|unfold ring_capacity in *; simpl; lia|done| | | |intros i x Hx|done].
  - split_and!; lia.
  - lia.
  - destruct Hdr as [Hdr|Hdr]; [|right; lia]. destruct (decide (overflow = 0)); [left; lia|right; lia].
  - apply lookup_lt_Some in Hx as Hi. set (n' := Z.of_nat (length (keep_newest (2 ^ k) (q ++ samples)))) in *.
    unfold keep_newest in Hx. rewrite lookup_drop, length_app in Hx.
    set (P := rb_head rb + (rb_dropped rb + overflow) + Z.of_nat i). set (o := P - rb_tail rb).
    assert (o = wc - n' + Z.of_nat i) as Eoo by (unfold o, P; lia).
    rewrite Hbuf. fold o. destruct (decide (0 ≤ o)) as [Ho|Ho].
    + rewrite Z.mod_small by lia. rewrite decide_True by lia. unfold src, keep_newest. rewrite lookup_drop.
      rewrite lookup_app_r in Hx by lia. rewrite <-Hx. f_equal. lia.
    + assert (o mod 2 ^ k = o + 2 ^ k) as -> by (symmetry; apply (Z.mod_unique_pos _ _ (-1)); lia).
      rewrite decide_False by lia. rewrite lookup_app_l in Hx by lia.
      rewrite <-(Hcells _ _ Hx). f_equal. f_equal. f_equal. unfold P. lia.
Qed.

(** What a write does to the counters. *)
Definition written_metrics (m m' : RingBufferMetrics) : Prop :=
  mt_underrun_count m' = mt_underrun_count m ∧ mt_underrun_duration_us m' = mt_underrun_duration_us m ∧
  mt_total_read m' = mt_total_read m ∧ mt_latency_sum_us m' = mt_latency_sum_us m ∧
  mt_latency_measurements m' = mt_latency_measurements m ∧
  mt_overflow_count m' ≤ mt_overflow_count m + 1 ∧ mt_total_written m' ≤ mt_total_written m + 2 ^ 40.

Lemma ring_write_spec k rb q samples :
  ring_ok k rb q → metrics_room rb → Z.of_nat (length samples) ≤ 2 ^ 40 → rb_tail rb + 2 ^ k ≤ 2 ^ 62 →
  ∃ rb', ring_write samples rb = Done (Ok (Z.min (Z.of_nat (length samples)) (2 ^ k))) rb' ∧
    let q' := keep_newest (2 ^ k) (q ++ samples) in
    ring_ok k rb' q' ∧
    rb_pre_buffering_complete rb' = rb_pre_buffering_complete rb ||
      (bool_decide (samples ≠ []) && (rb_pre_buffer_frames rb <=? Z.of_nat (length q') / rb_channels rb)) ∧
    written_metrics (rb_metrics rb) (rb_metrics rb') ∧ rb_sample_rate rb' = rb_sample_rate rb.
Proof.
  intros Hok Hm Hlen Hroom. pose proof Hok as [Hk Hcap Hmask (Hh & Hd & Ht & Hb) Hf Hdr Hcells Hch].
  pose proof (pow_bounds k Hk) as Hpow. unfold ring_write. destruct (Z.eqb_spec (Z.of_nat (length samples)) 0) as [E0|E0].
  { assert (samples = []) as -> by (destruct samples; done). exists rb. rewrite app_nil_r, keep_newest_all by done.
    rewrite bool_decide_false by naive_solver. rewrite orb_false_r. split_and!; [|done|done| |done].
    - cbn [ret length]. f_equal. f_equal. lia.
    - unfold written_metrics. split_and!; lia. }
  cbn [bind gets modify]. unfold id. rewrite Hcap, newest_eq by lia.
  assert (wrapping_sub64 (rb_tail rb) (rb_head rb) = Z.of_nat (length q) + rb_dropped rb) as ->.
  { unfold wrapping_sub64, wrap64. rewrite Z.mod_small by (ring_consts; lia). lia. }
  set (src := keep_newest (2 ^ k) samples). pose proof (length_keep_newest (2 ^ k) samples ltac:(lia)) as Hwc. fold src in Hwc.
  destruct (store_samples_spec k (rb_tail rb) 0 src rb Hk Hcap Hmask) as (b & E & Hlb & Hbuf); [lia|lia|lia| |].
  { change (2 ^ 63) with 9223372036854775808. ring_consts. lia. }
  rewrite E. rewrite Z.add_0_r in Hbuf. pose proof (stored_ok k rb q samples b Hok Hroom Hlb Hbuf) as Hok'. cbn zeta in Hok'. fold src in Hok'.
  set (wc := Z.of_nat (length src)) in *. assert (Z.min (Z.of_nat (length samples)) (2 ^ k) = wc) as Ewc by lia. rewrite Ewc.
  set (overflow := saturating_sub wc (2 ^ k - Z.min (Z.of_nat (length q) + rb_dropped rb) (2 ^ k))) in *.
  assert (0 ≤ overflow ≤ wc) as Hov by (unfold overflow, saturating_sub; lia).
  assert (wrapping_add64 (rb_tail rb) wc = rb_tail rb + wc) as Etail.
  { unfold wrapping_add64, wrap64. apply Z.mod_small. ring_consts. lia. }
  assert (wrapping_add64 (rb_dropped rb) overflow = rb_dropped rb + overflow) as Edrop.
  { unfold wrapping_add64, wrap64. apply Z.mod_small. ring_consts. lia. }
  set (rb1 := rb_set_positions (rb_head rb) (rb_tail rb + wc) (rb_dropped rb + overflow) (rb_set_buffer b rb)) in *.
  destruct Hm as [(H1 & H2 & H3 & H4 & H5 & H6 & H7) Hrate].
  assert (∃ m, (mt_total_written m = mt_total_written (rb_metrics rb) ∧ mt_underrun_count m = mt_underrun_count (rb_metrics rb) ∧
      mt_underrun_duration_us m = mt_underrun_duration_us (rb_metrics rb) ∧ mt_total_read m = mt_total_read (rb_metrics rb) ∧
      mt_latency_sum_us m = mt_latency_sum_us (rb_metrics rb) ∧ mt_latency_measurements m = mt_latency_measurements (rb_metrics rb) ∧
      mt_overflow_count m ≤ mt_overflow_count (rb_metrics rb) + 1) ∧ (if 0 <? overflow
     then modify (λ s, set_dropped (wrapping_add64 (rb_dropped s) overflow) s) ;;; on_metrics note_overflow else ret tt)
     (set_tail (wrapping_add64 (rb_tail rb) wc) (rb_set_buffer b rb)) = Done (Ok tt) (rb_set_metrics m rb1)) as (m & Hmw & Em).
  { destruct (Z.ltb_spec 0 overflow).
    - unfold on_metrics, note_overflow. cbn [bind modify gets expect]. unfold id.
      change (rb_metrics _) with (rb_metrics rb). rewrite checked_add_room by (ring_consts; lia). cbn [mbind option_bind expect].
      eexists. split; [|unfold rb1, set_dropped, set_tail; cbn -[wrapping_add64]; rewrite Etail, Edrop; reflexivity]. simpl. split_and!; done || lia.
    - exists (rb_metrics rb). split; [split_and!; done || lia|]. unfold rb1, set_tail. rewrite Etail. replace (rb_dropped rb + overflow) with (rb_dropped rb) by lia. done. }
  change (λ s0 : AudioRingBuffer, Done (Ok tt) (set_tail (wrapping_add64 (rb_tail rb) wc) s0)) with (modify (set_tail (wrapping_add64 (rb_tail rb) wc))).
  cbn [modify]. rewrite Em. assert (∀ m', fill_samples (rb_set_metrics m' rb1) = fill_samples rb1) as Efill by done.
  pose proof (fill_samples_ok k rb1 _ Hok') as Ef. rewrite Efill, Ef. set (fl := Z.of_nat (length (keep_newest (2 ^ k) (q ++ samples)))) in *.
  change (rb_channels (rb_set_metrics m rb1)) with (rb_channels rb). change (rb_pre_buffer_frames (rb_set_metrics m rb1)) with (rb_pre_buffer_frames rb).
  change (rb_pre_buffering_complete (rb_set_metrics m rb1)) with (rb_pre_buffering_complete rb).
  assert (∀ s, rb_metrics s = m → ∃ m', on_metrics (note_written wc (fl / rb_channels rb)) s = Done (Ok tt) (rb_set_metrics m' s)
    ∧ written_metrics (rb_metrics rb) m') as Hw.
  { intros s Hs. destruct Hmw as (G1 & G2 & G3 & G4 & G5 & G6 & G7). unfold on_metrics, note_written. cbn [bind gets]. unfold id. rewrite Hs, G1, checked_add_room by (done || (ring_consts; lia)).
    cbn [mbind option_bind expect modify]. eexists. split; [reflexivity|]. unfold written_metrics. simpl. split_and!; done || lia. }
  rewrite (bool_decide_true (samples ≠ [])) by (intros ->; done).
  destruct (rb_pre_buffering_complete rb) eqn:Ec; cbn [negb andb orb].
  - cbn [ret]. destruct (Hw (rb_set_metrics m rb1) eq_refl) as (m' & -> & Hwm). eexists. split; [reflexivity|]. split; [|split; [exact Ec|done]].
    destruct Hok'. by split.
  - destruct (rb_pre_buffer_frames rb <=? fl / rb_channels rb) eqn:Ep; cbn [modify ret].
    + destruct (Hw (rb_set_complete true (rb_set_metrics m rb1)) eq_refl) as (m' & -> & Hwm). eexists. split; [reflexivity|]. split; [|done].
      destruct Hok'. by split.
    + destruct (Hw (rb_set_metrics m rb1) eq_refl) as (m' & -> & Hwm). eexists. split; [reflexivity|]. split; [|split; [exact Ec|done]].
      destruct Hok'. by split.
Qed.

(** ** Reading *)

Lemma load_samples_spec k start i l rb :
  0 ≤ k → rb_mask rb = 2 ^ k - 1 → 0 ≤ start → 0 ≤ i → start + i + Z.of_nat (length l) ≤ 2 ^ 63 →
  (∀ j x, l !! j = Some x → rb_buffer rb !! Z.to_nat ((start + i + Z.of_nat j) mod 2 ^ k) = Some x) →
  load_samples start i (length l) rb = Done (Ok l) rb.
Proof.
  intros Hk Hmask Hs. revert i. induction l as [|x l IH]; intros i Hi Hpos Hcells; [done|]. simpl in Hpos.
  change (2 ^ 63) with 9223372036854775808 in *. cbn [length load_samples bind gets]. unfold id, add_at, usize_max, u64_max.
  rewrite (proj2 (Z.leb_le _ _)) by lia. rewrite Hmask, ring_land_mask by done.
  pose proof (Hcells 0%nat x eq_refl) as H0. rewrite Z.add_0_r in H0. rewrite H0. cbn [expect].
  rewrite IH; [done|lia|lia|]. intros j y Hj. rewrite <-(Hcells (S j) y Hj). f_equal. f_equal. f_equal. lia.
Qed.

Lemma take_samples_spec k n rb q :
  ring_ok k rb q → 0 ≤ n →
  take_samples n rb = Done (Ok (take (Z.to_nat n) q, rb_head rb, rb_tail rb, rb_dropped rb)) (set_dropped 0 rb).
Proof.
  intros Hok Hn. pose proof Hok as [Hk Hcap Hmask (Hh & Hd & Ht & Hb) Hf Hdr Hcells Hch]. unfold take_samples. cbn [bind gets modify]. unfold id.
  assert (saturating_sub (wrapping_sub64 (rb_tail rb) (rb_head rb)) (rb_dropped rb) = Z.of_nat (length q)) as ->.
  { unfold saturating_sub, wrapping_sub64, wrap64. rewrite Z.mod_small by (ring_consts; lia). lia. }
  assert (Z.to_nat (Z.min n (Z.of_nat (length q))) = length (take (Z.to_nat n) q)) as -> by (rewrite length_take; lia).
  assert (∀ st, load_samples (rb_head rb + rb_dropped rb) 0 (length (take (Z.to_nat n) q)) (set_dropped 0 rb) = st →
    load_samples (if 0 <? Z.min n (Z.of_nat (length q)) then rb_head rb + rb_dropped rb else 0) 0 (length (take (Z.to_nat n) q)) (set_dropped 0 rb) = st) as Hif.
  { intros st <-. destruct (Z.ltb_spec 0 (Z.min n (Z.of_nat (length q)))); [done|].
    assert (length (take (Z.to_nat n) q) = 0%nat) as -> by (rewrite length_take; lia). done. }
  assert (load_samples (rb_head rb + rb_dropped rb) 0 (length (take (Z.to_nat n) q)) (set_dropped 0 rb)
    = Done (Ok (take (Z.to_nat n) q)) (set_dropped 0 rb)) as El.
  { apply (load_samples_spec k); [lia|done|lia|lia| |].
    - change (2 ^ 63) with 9223372036854775808. rewrite length_take. ring_consts. lia.
    - intros j x Hj. apply lookup_take_Some in Hj as [Hj _]. rewrite Z.add_0_r. by apply Hcells. }
  apply Hif in El. destruct (0 <? Z.min n (Z.of_nat (length q))); cbn [add_at ret] in *; [|by rewrite El].
  unfold usize_max, u64_max. rewrite (proj2 (Z.leb_le _ _)) by (ring_consts; lia). by rewrite El.
Qed.

Lemma taken_ok k rb q n m :
  ring_ok k rb q → 0 ≤ n →
  ring_ok k (rb_set_metrics m (set_head (rb_head rb + rb_dropped rb + Z.of_nat (length (take (Z.to_nat n) q))) (set_dropped 0 rb)))
    (drop (Z.to_nat n) q).
Proof.
  intros [Hk Hcap Hmask (Hh & Hd & Ht & Hb) Hf Hdr Hcells Hch] Hn. split; simpl; [done|done|done| | |by left| |done].
  - rewrite length_take, length_drop. lia.
  - rewrite length_drop. lia.
  - intros i x Hx. rewrite lookup_drop in Hx. rewrite <-(Hcells _ _ Hx). f_equal. f_equal. f_equal. rewrite length_take.
    apply lookup_lt_Some in Hx. lia.
Qed.

Lemma div_le_self x y : 0 ≤ x → 0 < y → 0 ≤ x / y ≤ x.
Proof. intros. split; [by apply Z.div_pos|]. apply Z.div_le_upper_bound; nia. Qed.

Lemma underrun_runs rb samples now :
  metrics_room rb → 0 < rb_channels rb → 0 ≤ samples ≤ 2 ^ 40 →
  ∃ m, underrun samples now rb = Done (Ok tt) (rb_set_metrics m rb) ∧ mt_total_read m = mt_total_read (rb_metrics rb) ∧
    mt_latency_sum_us m = mt_latency_sum_us (rb_metrics rb) ∧ mt_latency_measurements m = mt_latency_measurements (rb_metrics rb).
Proof.
  intros [(H1 & H2 & _) Hr] Hc Hs. unfold underrun. cbn [bind gets]. unfold id, samples_us.
  assert (∃ us, (if 0 <? rb_sample_rate rb then us ← checked_mul u64_max samples 1000000; Some (us / (rb_sample_rate rb * rb_channels rb)) else Some 0) = Some us
    ∧ us ≤ 2 ^ 62) as (us & -> & Hus).
  { destruct (Z.ltb_spec 0 (rb_sample_rate rb)); [|by exists 0]. unfold checked_mul. rewrite (proj2 (Z.leb_le _ _)) by (ring_consts; lia).
    eexists. split; [reflexivity|]. pose proof (div_le_self (samples * 1000000) (rb_sample_rate rb * rb_channels rb) ltac:(lia) ltac:(nia)). ring_consts. lia. }
  cbn [expect]. unfold on_metrics, note_underrun. cbn [bind gets]. unfold id. rewrite !checked_add_room by (done || (ring_consts; lia)).
  cbn [mbind option_bind expect modify]. by eexists.
Qed.

Lemma on_metrics_run f rb m : f (rb_metrics rb) = Some m → on_metrics f rb = Done (Ok tt) (rb_set_metrics m rb).
Proof. intros E. unfold on_metrics. cbn [bind gets]. unfold id. by rewrite E. Qed.
Lemma note_read_run count m :
  mt_total_read m ≤ 2 ^ 62 → count ≤ 2 ^ 62 →
  ∃ m', note_read count m = Some m' ∧ mt_latency_sum_us m' = mt_latency_sum_us m ∧ mt_latency_measurements m' = mt_latency_measurements m.
Proof. intros. unfold note_read. rewrite checked_add_room by done. by eexists. Qed.
Lemma note_latency_run us m :
  mt_latency_sum_us m ≤ 2 ^ 62 → mt_latency_measurements m ≤ 2 ^ 62 → us ≤ 2 ^ 62 → ∃ m', note_latency us m = Some m'.
Proof. intros. unfold note_latency. rewrite !checked_add_room by (done || (ring_consts; lia)). by eexists. Qed.

Lemma ring_read_spec k rb q n now :
  ring_ok k rb q → metrics_room rb → 0 ≤ n ≤ 2 ^ 40 →
  ∃ rb', if rb_pre_buffering_complete rb
    then ring_read n now rb = Done (Ok (Z.min n (Z.of_nat (length q)), take (Z.to_nat n) q ++ silence (n - Z.of_nat (length q)))) rb' ∧
         ring_ok k rb' (drop (Z.to_nat n) q) ∧ rb_pre_buffering_complete rb' = true
    else ring_read n now rb = Done (Ok (0, silence n)) rb' ∧ rb' = rb.
Proof.
  intros Hok Hm Hn. pose proof Hok as [Hk Hcap Hmask (Hh & Hd & Ht & Hb) Hf Hdr Hcells Hch]. pose proof (pow_bounds k Hk) as Hpow.
  unfold ring_read. cbn [bind gets]. unfold id. destruct (rb_pre_buffering_complete rb) eqn:Ec; cbn [negb].
  2: { by exists rb. }
  cbn [bind]. rewrite (take_samples_spec k n rb q Hok) by lia. set (l := take (Z.to_nat n) q).
  assert (Z.of_nat (length l) = Z.min n (Z.of_nat (length q))) as Hl by (unfold l; rewrite length_take; lia).
  assert (∃ m, (if Z.of_nat (length l) <? n then underrun (n - Z.of_nat (length l)) now else ret tt) (set_dropped 0 rb)
      = Done (Ok tt) (rb_set_metrics m (set_dropped 0 rb)) ∧ mt_total_read m ≤ 2 ^ 62 ∧
    mt_latency_sum_us m ≤ 2 ^ 62 ∧ mt_latency_measurements m ≤ 2 ^ 62) as (m & Em & Hm1 & Hm2 & Hm3).
  { pose proof Hm as [(_ & _ & _ & _ & H5 & H6 & H7) _]. destruct (_ <? n) eqn:El.
    - destruct (underrun_runs (set_dropped 0 rb) (n - Z.of_nat (length l)) now) as (m & E & G1 & G2 & G3); [by destruct Hm|done|lia|].
      exists m. rewrite G1, G2, G3. by split_and!.
    - exists (rb_metrics rb). by split_and!. }
  cbn [bind]. rewrite Em. unfold add_at, usize_max. rewrite (proj2 (Z.leb_le _ _)) by (ring_consts; lia). cbn [modify].
  assert (wrapping_add64 (rb_head rb) (rb_dropped rb + Z.of_nat (length l)) = rb_head rb + rb_dropped rb + Z.of_nat (length l)) as Eh.
  { unfold wrapping_add64, wrap64. rewrite Z.mod_small; [lia|]. ring_consts. lia. }
  rewrite Eh. set (rb1 := set_head (rb_head rb + rb_dropped rb + Z.of_nat (length l)) (rb_set_metrics m (set_dropped 0 rb))).
  assert (wrapping_sub64 (rb_tail rb) (rb_head rb + rb_dropped rb + Z.of_nat (length l)) = Z.of_nat (length q) - Z.of_nat (length l)) as ->.
  { unfold wrapping_sub64, wrap64. rewrite Z.mod_small; [lia|]. ring_consts. lia. }
  destruct (note_read_run (Z.of_nat (length l)) m Hm1) as (m1 & E1 & Hs1 & Hs2); [ring_consts; lia|].
  rewrite (on_metrics_run _ rb1 m1) by exact E1.
  set (fr := (Z.of_nat (length q) - Z.of_nat (length l)) / Z.max (rb_channels rb) 1).
  assert (0 ≤ fr ≤ 2 ^ 40) as Hfr.
  { pose proof (div_le_self (Z.of_nat (length q) - Z.of_nat (length l)) (Z.max (rb_channels rb) 1) ltac:(lia) ltac:(lia)). unfold fr. lia. }
  pose proof (λ m', taken_ok k rb q n m' Hok ltac:(lia)) as Hok'. fold l in Hok'.
  assert (∀ m', rb_set_metrics m' rb1 = rb_set_metrics m' (set_head (rb_head rb + rb_dropped rb + Z.of_nat (length l)) (set_dropped 0 rb))) as Erb by done.
  assert (silence (n - Z.of_nat (length l)) = silence (n - Z.of_nat (length q))) as ->.
  { unfold silence. f_equal. lia. }
  rewrite Hl. destruct (Z.ltb_spec 0 (rb_sample_rate rb)) as [Hr|Hr].
  - unfold checked_mul. rewrite (proj2 (Z.leb_le _ _)) by (ring_consts; lia). cbn [bind expect].
    destruct (note_latency_run (fr * 1000000 / rb_sample_rate rb) m1) as (m2 & E2); [by rewrite Hs1|by rewrite Hs2| |].
    { pose proof (div_le_self (fr * 1000000) (rb_sample_rate rb) ltac:(lia) Hr). ring_consts. lia. }
    rewrite (on_metrics_run _ (rb_set_metrics m1 rb1) m2) by exact E2.
    eexists. split; [reflexivity|]. split; [|exact Ec]. apply (Hok' m2).
  - cbn [ret]. eexists. split; [reflexivity|]. split; [|exact Ec]. apply (Hok' m1).
Qed.

(** ** Holding the last frame *)

Lemma foldl_seqZ {A} (P : Z → A → Prop) (f : A → Z → A) n a :
  0 ≤ n → P 0 a → (∀ i a, 0 ≤ i < n → P i a → P (i + 1) (f a i)) → P n (foldl f a (seqZ 0 n)).
Proof.
  intros Hn H0 Hstep. assert (∀ len m a, (0 ≤ m) → m + Z.of_nat len = n → P m a → P n (foldl f a (seqZ m (Z.of_nat len)))) as H.
  { induction len as [|len IH]; intros m b Hm E Hb; [simpl; by replace n with m by lia|].
    rewrite seqZ_cons by lia. cbn [foldl]. replace (Z.pred (Z.of_nat (S len))) with (Z.of_nat len) by lia.
    replace (Z.succ m) with (m + 1) by lia. apply IH; [lia|lia|]. apply Hstep; [lia|done]. }
  specialize (H (Z.to_nat n) 0 a). rewrite Z2Nat.id in H by done. apply H; [lia|lia|done].
Qed.

Section hold.
Context (channels read_count : Z) (out0 : list Z).
Let len := Z.of_nat (length out0).
Context (Hch : 0 < channels) (Hrc : channels ≤ read_count ≤ len).

(** The first [d] samples of the rest are filled. *)
Definition held (d : Z) (out : list Z) : Prop :=
  length out = length out0 ∧ ∀ j, 0 ≤ j → out !! Z.to_nat j =
    if decide (read_count ≤ j < Z.min len (read_count + d))
    then out0 !! Z.to_nat (read_count - channels + (j - read_count) mod channels) else out0 !! Z.to_nat j.

Lemma hold_channel_step k c out :
  0 ≤ k → 0 ≤ c < channels → held (k * channels + c) out →
  held (k * channels + (c + 1)) (hold_channel (read_count - channels) (read_count + k * channels) out c).
Proof using Hch Hrc.
  intros Hk Hc [Hl Hout]. unfold hold_channel. rewrite Hl. fold len.
  destruct (Z.ltb_spec (read_count + k * channels + c) len) as [Hlt|Hge].
  - split; [by rewrite length_insert|]. intros j Hj.
    assert (out !! Z.to_nat (read_count - channels + c) = out0 !! Z.to_nat (read_count - channels + c)) as Hsrc.
    { rewrite Hout by lia. by rewrite decide_False by lia. }
    destruct (decide (j = read_count + k * channels + c)) as [->|Hne].
    + rewrite list_lookup_insert_eq by (unfold len in *; lia). rewrite decide_True by lia.
      replace (read_count + k * channels + c - read_count) with (c + k * channels) by lia.
      rewrite Z.mod_add, Z.mod_small by lia. rewrite <-Hsrc. symmetry. apply list_lookup_lookup_total_lt. rewrite Hl. unfold len in *. lia.
    + rewrite list_lookup_insert_ne by lia. rewrite Hout by done. apply decide_if_ext. lia.
  - split; [done|]. intros j Hj. rewrite Hout by done. apply decide_if_ext. lia.
Qed.

Lemma hold_frames_spec out : out = out0 → held (len - read_count) (hold_frames channels read_count out).
Proof using Hch Hrc.
  intros ->. unfold hold_frames. fold len. set (frames := (len - read_count + channels - 1) / channels).
  assert (0 ≤ frames) as Hf by (apply Z.div_pos; lia).
  assert (held (frames * channels) (foldl (λ output k, foldl (hold_channel (read_count - channels) (read_count + k * channels)) output (seqZ 0 channels)) out0 (seqZ 0 frames))) as [Hl H].
  { apply (foldl_seqZ (λ k out, held (k * channels) out)); [done| |].
    - split; [done|]. intros j Hj. rewrite decide_False; [done|lia].
    - intros k out Hk Hheld. replace ((k + 1) * channels) with (k * channels + channels) by lia.
      apply (foldl_seqZ (λ c out, held (k * channels + c) out)); [lia|by rewrite Z.add_0_r|].
      intros c out' Hc. apply hold_channel_step; [lia|done]. }
  split; [done|]. intros j Hj. rewrite H by done. apply decide_if_ext.
  assert (len - read_count ≤ frames * channels); [|lia]. unfold frames. Z.div_mod_to_equations; nia.
Qed.
End hold.

(** ** A new ring *)

Lemma new_ring_ok frames channels rate pre rb :
  0 ≤ frames → (∃ j, 0 ≤ j ∧ channels = 2 ^ j) → new_ring frames channels rate pre = Some rb → ring_capacity rb ≤ 2 ^ 40 →
  ∃ k, ring_ok k rb [] ∧ frames * channels ≤ 2 ^ k.
Proof.
  intros Hf (j & Hj & ->) H Hcap. unfold new_ring in H. destruct (2 ^ j =? 0) eqn:E0; [done|].
  destruct (next_power_of_two frames) as [p|] eqn:Ep; [|done]. cbn [mbind option_bind] in H.
  destruct (next_power_spec frames p Hf Ep) as (i & Hi & -> & Hle).
  unfold checked_mul in H. destruct (_ <=? usize_max) eqn:E1; [|done]. cbn [mbind option_bind] in H.
  destruct (isize_max <? _); [done|]. injection H as <-. unfold ring_capacity in Hcap. simpl in Hcap. rewrite length_replicate in Hcap.
  rewrite <-Z.pow_add_r in * by lia. assert (0 < 2 ^ (i + j)) by (apply Z.pow_pos_nonneg; lia). exists (i + j). split.
  - split; simpl; [|unfold ring_capacity; simpl; rewrite length_replicate; lia|done| |lia|by left|by intros|apply Z.pow_pos_nonneg; lia].
    + split; [lia|]. destruct (decide (i + j ≤ 40)); [done|]. assert (2 ^ 41 ≤ 2 ^ (i + j)) by (apply Z.pow_le_mono_r; lia). ring_consts. change (2 ^ 41) with 2199023255552 in *. lia.
    + ring_consts. lia.
  - rewrite Z.pow_add_r by lia. assert (0 < 2 ^ j) by (apply Z.pow_pos_nonneg; lia). nia.
Qed.
End Ar.
