(* ===== verification/AudioRingTheorems.v ===== *)
(** * The audio ring buffer: the theorems for one thread *)

From stdpp Require Import list_numbers.
From S2P Require Import Prelude Flags AudioRing AudioRingFacts.

Module Art.
Import Ar.

(** The samples that are not read yet, and the rest of the output. *)
Lemma ring_read_hold_spec k rb q n now :
  ring_ok k rb q → metrics_room rb → 0 ≤ n ≤ 2 ^ 40 → rb_pre_buffering_complete rb = true →
  ∃ rb' out, ring_read_hold n now rb = Done (Ok (Z.min n (Z.of_nat (length q)), out)) rb' ∧
    ring_ok k rb' (drop (Z.to_nat n) q) ∧ Z.of_nat (length out) = n ∧
    ∀ j, 0 ≤ j < n → out !! Z.to_nat j = Some
      (if decide (j < Z.of_nat (length q)) then q !!! Z.to_nat j
       else if decide (rb_channels rb ≤ Z.of_nat (length q))
       then q !!! Z.to_nat (Z.of_nat (length q) - rb_channels rb + (j - Z.of_nat (length q)) mod rb_channels rb) else 0).
Proof.
  intros Hok Hm Hn Ec. pose proof Hok as [Hk Hcap Hmask (Hh & Hd & Ht & Hb) Hf Hdr Hcells Hch]. pose proof (pow_bounds k Hk) as Hpow.
  unfold ring_read_hold. cbn [bind gets]. unfold id. rewrite Ec. cbn [negb bind].
  rewrite (take_samples_spec k n rb q Hok) by lia. set (l := take (Z.to_nat n) q).
  assert (Z.of_nat (length l) = Z.min n (Z.of_nat (length q))) as Hl by (unfold l; rewrite length_take; lia).
  assert (∃ m, (if (Z.of_nat (length l) <? n) && (0 <? Z.of_nat (length l)) then underrun (n - Z.of_nat (length l)) now else ret tt) (set_dropped 0 rb)
      = Done (Ok tt) (rb_set_metrics m (set_dropped 0 rb)) ∧ mt_total_read m ≤ 2 ^ 62) as (m & Em & Hm1).
  { pose proof Hm as [(_ & _ & _ & _ & H5 & _) _]. destruct (_ && _) eqn:El.
    - destruct (underrun_runs (set_dropped 0 rb) (n - Z.of_nat (length l)) now) as (m & E & G1 & _); [by destruct Hm|done|bool_prop; lia|].
      exists m. by rewrite G1.
    - by exists (rb_metrics rb). }
  cbn [bind]. rewrite Em. unfold add_at, usize_max. rewrite (proj2 (Z.leb_le _ _)) by (ring_consts; lia). cbn [modify].
  assert (wrapping_add64 (rb_head rb) (rb_dropped rb + Z.of_nat (length l)) = rb_head rb + rb_dropped rb + Z.of_nat (length l)) as ->.
  { unfold wrapping_add64, wrap64. rewrite Z.mod_small; [lia|]. ring_consts. lia. }
  set (rb1 := set_head (rb_head rb + rb_dropped rb + Z.of_nat (length l)) (rb_set_metrics m (set_dropped 0 rb))).
  destruct (note_read_run (Z.of_nat (length l)) m Hm1) as (m1 & E1 & _); [ring_consts; lia|].
  rewrite (on_metrics_run _ rb1 m1) by exact E1. cbn [ret]. rewrite Hl.
  pose proof (taken_ok k rb q n m1 Hok ltac:(lia)) as Hok'. fold l in Hok'.
  set (out0 := l ++ silence (n - Z.min n (Z.of_nat (length q)))).
  assert (Z.of_nat (length out0) = n) as Hlo.
  { unfold out0, silence. rewrite length_app, length_replicate. lia. }
  assert (∀ j, 0 ≤ j < n → out0 !! Z.to_nat j = Some (if decide (j < Z.of_nat (length q)) then q !!! Z.to_nat j else 0)) as Hout0.
  { intros j Hj. unfold out0. case_decide as Hlt.
    - rewrite lookup_app_l by lia. unfold l. rewrite lookup_take_lt by lia. apply list_lookup_lookup_total_lt. lia.
    - rewrite lookup_app_r by lia. unfold silence. apply lookup_replicate. lia. }
  eexists _, _. split; [reflexivity|]. split; [exact Hok'|].
  destruct ((_ && _) && _) eqn:Eh.
  - bool_prop. rewrite Z.min_r in * by lia.
    destruct (hold_frames_spec (rb_channels rb) (Z.of_nat (length q)) out0 Hch ltac:(lia) out0 eq_refl) as [Hlen Hheld].
    split; [lia|]. intros j Hj. rewrite Hheld by lia. rewrite (decide_True (P := rb_channels rb ≤ _)) by lia.
    destruct (decide (j < Z.of_nat (length q))) as [Hjq|Hjq].
    + rewrite decide_False by lia. rewrite Hout0 by lia. by rewrite decide_True.
    + rewrite decide_True by lia. pose proof (Z.mod_pos_bound (j - Z.of_nat (length q)) (rb_channels rb) Hch).
      rewrite Hout0 by lia. by rewrite decide_True by lia.
  - split; [done|]. intros j Hj. rewrite Hout0 by done. f_equal. case_decide; [done|].
    case_decide; [|done]. exfalso. rewrite !andb_false_iff, !Z.ltb_ge, Z.leb_gt in Eh. lia.
Qed.

(** C25 - While the samples fit, the ring whose size is a power of two is a queue of its
    newest samples: a write appends and drops the oldest beyond the capacity; a read
    answers the oldest in order, then silence, and only silence until enough frames
    were there once; [read_hold] repeats the last frame it has, channel by channel,
    where silence would be, when it has one. *)
Theorem ring_refines_queue k rb q samples n now :
  ring_ok k rb q → metrics_room rb → Z.of_nat (length samples) ≤ 2 ^ 40 → rb_tail rb + 2 ^ k ≤ 2 ^ 62 → 0 ≤ n ≤ 2 ^ 40 →
  (∃ rb', ring_write samples rb = Done (Ok (Z.min (Z.of_nat (length samples)) (2 ^ k))) rb' ∧
     let q' := keep_newest (2 ^ k) (q ++ samples) in
     ring_ok k rb' q' ∧ fill_samples rb' = Z.of_nat (length q') ∧
     rb_pre_buffering_complete rb' = rb_pre_buffering_complete rb ||
       (bool_decide (samples ≠ []) && (rb_pre_buffer_frames rb <=? Z.of_nat (length q') / rb_channels rb))) ∧
  (if rb_pre_buffering_complete rb then
     (∃ rb', ring_read n now rb = Done (Ok (Z.min n (Z.of_nat (length q)),
          take (Z.to_nat n) q ++ silence (n - Z.of_nat (length q)))) rb' ∧ ring_ok k rb' (drop (Z.to_nat n) q)) ∧
     (∃ rb' out, ring_read_hold n now rb = Done (Ok (Z.min n (Z.of_nat (length q)), out)) rb' ∧
        ring_ok k rb' (drop (Z.to_nat n) q) ∧ Z.of_nat (length out) = n ∧
        ∀ j, 0 ≤ j < n → out !! Z.to_nat j = Some
          (if decide (j < Z.of_nat (length q)) then q !!! Z.to_nat j
           else if decide (rb_channels rb ≤ Z.of_nat (length q))
           then q !!! Z.to_nat (Z.of_nat (length q) - rb_channels rb + (j - Z.of_nat (length q)) mod rb_channels rb) else 0))
   else ring_read n now rb = Done (Ok (0, silence n)) rb ∧ ring_read_hold n now rb = Done (Ok (0, silence n)) rb).
Proof.
  intros Hok Hm Hl Hroom Hn. split.
  - destruct (ring_write_spec k rb q samples) as (rb' & E & Hok' & Hc & _); [done..|]. exists rb'. cbn zeta. split; [done|]. split; [done|].
    split; [by eapply fill_samples_ok|exact Hc].
  - destruct (ring_read_spec k rb q n now) as (rb' & H); [done..|]. destruct (rb_pre_buffering_complete rb) eqn:Ec.
    + split; [|by apply ring_read_hold_spec]. destruct H as (E & Hok' & _). by exists rb'.
    + destruct H as [E ->]. split; [done|]. unfold ring_read_hold. cbn [bind gets]. unfold id. by rewrite Ec.
Qed.

(** A ring of four samples for one channel, read past what it holds. *)
Definition small_ring : AudioRingBuffer := default (Build_AudioRingBuffer [] 0 0 0 0 1 0 true no_metrics 0) (new_ring 3 1 44100 0).
Lemma small_ring_ok : ring_ok 2 small_ring [].
Proof. split; first [by left|by intros ? ? ?|by vm_compute]. Qed.
Lemma ring_refines_queue_witness :
  ∃ rb', ring_write [1; 2; 3; 4; 5; 6] small_ring = Done (Ok 4) rb' ∧ ring_ok 2 rb' [3; 4; 5; 6].
Proof.
  destruct (ring_refines_queue 2 small_ring [] [1; 2; 3; 4; 5; 6] 4 0 small_ring_ok) as [(rb' & E & Hok & _) _].
  - split; [|done]. split_and!; done.
  - done.
  - done.
  - done.
  - exists rb'. split; [exact E|exact Hok].
Defined.

(** ** The size has to be a power of two *)

Lemma store_samples_frame tail i src rb r rb' :
  store_samples tail i src rb = Done r rb' → ∃ b, rb' = rb_set_buffer b rb ∧ length b = length (rb_buffer rb).
Proof.
  revert i rb. induction src as [|x src IH]; intros i rb; cbn [store_samples].
  - intros [= <- <-]. exists (rb_buffer rb). by destruct rb.
  - cbn [bind]. unfold add_at. destruct (_ <=? _); [|done]. cbn [modify]. intros (b & -> & Hl)%IH. exists b. split; [done|].
    rewrite Hl. apply length_insert.
Qed.

(** What a first write leaves of the positions. *)
Lemma first_write rb samples c rb' :
  rb_head rb = 0 → rb_tail rb = 0 → rb_dropped rb = 0 → 0 < Z.of_nat (length samples) ≤ ring_capacity rb →
  ring_write samples rb = Done (Ok c) rb' → rb_head rb' = 0 ∧ rb_dropped rb' = 0 ∧ rb_mask rb' = rb_mask rb.
Proof.
  intros Hh Ht Hd Hl. unfold ring_write. rewrite (proj2 (Z.eqb_neq _ _)) by lia. cbn [bind gets]. unfold id. rewrite Hh, Ht.
  destruct (store_samples 0 0 _ rb) as [[[]|e] rb1|] eqn:E; [|done|done]. apply store_samples_frame in E as (b & -> & _). cbn [modify].
  change (wrapping_sub64 0 0) with 0. rewrite (Z.min_l 0) by lia.
  assert (saturating_sub (Z.min (Z.of_nat (length samples)) (ring_capacity rb)) (ring_capacity rb - 0) = 0) as ->.
  { unfold saturating_sub. lia. }
  cbn [Z.ltb Z.compare ret bind gets]. unfold id, on_metrics.
  intros H. msplit; simplify_eq/=; by rewrite ?Hh, ?Hd.
Qed.

Lemma load_samples_cells start i n rb r rb' :
  load_samples start i n rb = Done r rb' →
  rb' = rb ∧ ∃ l, r = Ok l ∧ length l = n ∧
    ∀ j x, l !! j = Some x → rb_buffer rb !! Z.to_nat (Z.land (start + i + Z.of_nat j) (rb_mask rb)) = Some x.
Proof.
  revert i r rb'. induction n as [|n IH]; intros i r rb'; cbn [load_samples].
  - intros [= <- <-]. split; [done|]. by exists [].
  - cbn [bind gets]. unfold id, add_at. destruct (_ <=? _); [|done].
    destruct (rb_buffer rb !! Z.to_nat (Z.land (start + i) (rb_mask rb))) as [x|] eqn:Ex; [|done]. cbn [expect].
    destruct (load_samples start (i + 1) n rb) as [r1 rb1|] eqn:E; [|done]. apply IH in E as (-> & l & -> & Hl & Hcells). cbn [ret].
    intros [= <- <-]. split; [done|]. exists (x :: l). split_and!; [done|simpl; lia|]. intros [|j] y; cbn [lookup list_lookup].
    + intros [= <-]. by rewrite Z.add_0_r.
    + intros Hy. rewrite <-(Hcells j y Hy). f_equal. f_equal. f_equal. lia.
Qed.

Lemma read_cells n now rb c out rb' :
  rb_head rb = 0 → rb_dropped rb = 0 → rb_pre_buffering_complete rb = true → c = n →
  ring_read n now rb = Done (Ok (c, out)) rb' →
  ∀ j x, out !! j = Some x → Z.of_nat j < n → rb_buffer rb !! Z.to_nat (Z.land (Z.of_nat j) (rb_mask rb)) = Some x.
Proof.
  intros Hh Hd Hc -> H. unfold ring_read in H. cbn [bind gets] in H. unfold id in H. rewrite Hc in H. cbn [negb bind] in H.
  unfold take_samples in H. cbn [bind gets modify] in H. unfold id in H. rewrite Hh, Hd in H.
  set (rc := Z.min n _) in H.
  assert (∃ l rbx, load_samples 0 0 (Z.to_nat rc) (set_dropped 0 rb) = Done (Ok l) rbx ∧ Z.of_nat (length l) = n ∧ out = l ++ silence (n - n)) as (l & rbx & E & Hl & ->).
  { assert ((if 0 <? rc then add_at usize_max 0 0 else ret 0) (set_dropped 0 rb) = Done (Ok 0) (set_dropped 0 rb)) as E0 by by destruct (0 <? rc).
    rewrite E0 in H. destruct (load_samples 0 0 (Z.to_nat rc) (set_dropped 0 rb)) as [[l|e] rbx|] eqn:E; try done; exists l, rbx;
    (split; [done|]); cbn [ret] in H; unfold on_metrics, underrun in H; msplit; simplify_eq/=; done. }
  apply load_samples_cells in E as (-> & l' & [= <-] & Hl' & Hcells). intros j x Hj Hjn.
  rewrite lookup_app_l in Hj by lia. pose proof (Hcells j x Hj) as Hx. exact Hx.
Qed.

(** Two cells of one ring that are the same cell, when its size is no power of two. *)
Lemma aliased_cells cap : 0 < cap → cap ≠ 2 ^ Z.log2 cap → ∃ b, 0 < b < cap ∧ Z.land b (cap - 1) = 0.
Proof.
  intros Hc Hne. set (t := Z.log2 cap) in *. pose proof (Z.log2_spec cap Hc) as [H1 H2]. fold t in H1, H2.
  assert (0 ≤ t) as Ht by apply Z.log2_nonneg.
  destruct (decide (Exists (λ b, Z.testbit (cap - 1) b = false) (seqZ 0 t))) as [He|Hn].
  - apply Exists_exists in He as (b & Hb%elem_of_seqZ & Hbit). exists (2 ^ b).
    assert (0 < 2 ^ b) by (apply Z.pow_pos_nonneg; lia). assert (2 ^ b ≤ 2 ^ t) by (apply Z.pow_le_mono_r; lia). split; [lia|].
    apply Z.bits_inj'. intros i Hi. rewrite Z.land_spec, Z.testbit_0_l. destruct (decide (i = b)) as [->|Hib]; [by rewrite Hbit, andb_false_r|].
    by rewrite Z.pow2_bits_false.
  - exfalso. assert (cap - 1 = Z.ones (t + 1)) as E.
    { apply Z.bits_inj'. intros i Hi. destruct (decide (i < t)) as [Hit|Hit]; [|destruct (decide (i = t)) as [->|Hit2]].
      - rewrite Z.ones_spec_low by lia. destruct (Z.testbit (cap - 1) i) eqn:Eb; [done|]. destruct Hn. apply Exists_exists.
        exists i. split; [apply elem_of_seqZ; lia|done].
      - rewrite Z.ones_spec_low by lia. apply Z.testbit_true; [lia|]. rewrite Z.pow_succ_r in H2 by lia.
        assert ((cap - 1) / 2 ^ t = 1) as ->; [|done]. symmetry. apply (Z.div_unique_pos _ _ _ (cap - 1 - 2 ^ t)); lia.
      - rewrite Z.ones_spec_high by lia. apply (testbit_bounded (t + 1)); [|lia]. replace (t + 1) with (Z.succ t) by lia. lia. }
    rewrite Z.ones_equiv in E. replace (t + 1) with (Z.succ t) in E by lia. lia.
Qed.

Lemma power_factor i c j : 0 ≤ i → 0 < c → 2 ^ i * c = 2 ^ j → 0 ≤ j → c = 2 ^ (j - i).
Proof.
  intros Hi Hc E Hj. assert (i ≤ j).
  { destruct (decide (i ≤ j)); [done|]. assert (2 ^ j < 2 ^ i) by (apply Z.pow_lt_mono_r; lia). nia. }
  rewrite Z.pow_sub_r by lia. rewrite <-E, Z.mul_comm. symmetry. apply Z.div_mul. apply Z.pow_nonzero; lia.
Qed.

Lemma fresh_ring frames channels rate rb :
  0 ≤ frames → 0 < channels → new_ring frames channels rate 0 = Some rb →
  ∃ i, 0 ≤ i ∧ ring_capacity rb = 2 ^ i * channels ∧ rb_mask rb = ring_capacity rb - 1 ∧ rb_head rb = 0 ∧ rb_tail rb = 0 ∧
    rb_dropped rb = 0 ∧ rb_pre_buffering_complete rb = true ∧ rb_metrics rb = no_metrics ∧ rb_sample_rate rb = rate.
Proof.
  intros Hf Hc H. unfold new_ring in H. destruct (channels =? 0); [done|].
  destruct (next_power_of_two frames) as [p|] eqn:Ep; [|done]. cbn [mbind option_bind] in H.
  destruct (next_power_spec frames p Hf Ep) as (i & Hi & -> & Hle). unfold checked_mul in H. destruct (_ <=? usize_max); [|done].
  cbn [mbind option_bind] in H. destruct (isize_max <? 2 ^ i * channels * 4) eqn:Emax; [done|]. injection H as <-. exists i.
  assert (0 < 2 ^ i) by (apply Z.pow_pos_nonneg; lia). unfold ring_capacity. simpl. rewrite length_replicate.
  split_and!; done || lia.
Qed.

(** A lap of distinct samples does not survive two cells that coincide. *)
Lemma aliased_lap_lost rb b rb2 :
  let cap := ring_capacity rb in
  rb_mask rb = cap - 1 → rb_head rb = 0 → rb_tail rb = 0 → rb_dropped rb = 0 →
  0 < b < cap → Z.land b (cap - 1) = 0 →
  (ring_write (seqZ 0 cap) ;;; ring_read cap 0) rb = Done (Ok (cap, seqZ 0 cap)) rb2 → False.
Proof.
  intros cap Emask Eh Et Ed Hb Hland Hrun.
  cbn [bind] in Hrun. destruct (ring_write (seqZ 0 cap) rb) as [[c|e] rb1|] eqn:Ew; [|done|done].
  assert (rb_pre_buffering_complete rb1 = true) as Ep1.
  { destruct (rb_pre_buffering_complete rb1) eqn:Ep1; [done|]. unfold ring_read in Hrun. cbn [bind gets] in Hrun. unfold id in Hrun.
    rewrite Ep1 in Hrun. cbn [negb ret] in Hrun. injection Hrun as ? _. lia. }
  destruct (first_write rb (seqZ 0 cap) c rb1 Eh Et Ed) as (Eh1 & Ed1 & Em1); [rewrite length_seqZ; fold cap; lia|done|].
  pose proof (read_cells cap 0 rb1 cap (seqZ 0 cap) rb2 Eh1 Ed1 Ep1 eq_refl Hrun) as Hcells.
  rewrite Em1, Emask in Hcells.
  assert (seqZ 0 cap !! 0%nat = Some 0) as H0 by (apply lookup_seqZ; lia).
  assert (seqZ 0 cap !! Z.to_nat b = Some b) as H1 by (apply lookup_seqZ; lia).
  pose proof (Hcells _ _ H0 ltac:(lia)) as G0. pose proof (Hcells _ _ H1 ltac:(lia)) as G1.
  rewrite Z2Nat.id in G1 by lia. rewrite Hland in G1. rewrite Z.land_0_l in G0. rewrite G0 in G1. injection G1. lia.
Qed.

(** A lap through a ring whose cells are distinct. *)
Lemma lap_kept k rb samples :
  ring_ok k rb [] → rb_metrics rb = no_metrics → 0 ≤ rb_sample_rate rb → rb_tail rb = 0 → rb_pre_buffering_complete rb = true →
  Z.of_nat (length samples) = ring_capacity rb → ring_capacity rb ≤ 2 ^ 40 →
  ∃ rb', (ring_write samples ;;; ring_read (ring_capacity rb) 0) rb = Done (Ok (ring_capacity rb, samples)) rb'.
Proof.
  intros Hok Em Hrate Et Epre Hlen Hcap. pose proof (rg_capacity _ _ _ Hok) as Ecap.
  assert (metrics_room rb) as Hm by (split; [rewrite Em; by simpl|done]).
  destruct (ring_write_spec k rb [] samples Hok Hm) as (rb1 & Ew & Hok1 & Ep1 & Hwm & Hr1); [lia|rewrite Et; ring_consts; lia|].
  cbn zeta in *. simpl in Hok1. rewrite keep_newest_all in Hok1 by lia. rewrite Epre in Ep1. simpl in Ep1.
  cbn [bind]. rewrite Ew.
  assert (metrics_room rb1) as Hm1.
  { destruct Hwm as (G1 & G2 & G3 & G4 & G5 & G6 & G7). rewrite Em in *. split; [|by rewrite Hr1].
    rewrite G1, G2, G3, G4, G5. simpl in *. ring_consts. split_and!; lia. }
  destruct (ring_read_spec k rb1 samples (ring_capacity rb) 0 Hok1 Hm1) as (rb2 & H); [lia|]. rewrite Ep1 in H.
  destruct H as (E & _). exists rb2. rewrite E, Hlen. rewrite take_ge by lia. rewrite Z.min_id. f_equal. f_equal. f_equal.
  unfold silence. rewrite Z.sub_diag. apply app_nil_r.
Qed.

(** A new ring gives back a lap of samples, whatever they are, exactly when the number
    of channels is a power of two.  The size is the number of channels times a power
    of two, and an index wraps by the mask of that size: with six channels, the cells
    of one lap coincide. *)
Theorem ring_faithful_iff frames channels rate rb :
  0 ≤ frames → 0 < channels → 0 ≤ rate → new_ring frames channels rate 0 = Some rb → ring_capacity rb ≤ 2 ^ 40 →
  (∀ samples, Z.of_nat (length samples) = ring_capacity rb →
     ∃ rb', (ring_write samples ;;; ring_read (ring_capacity rb) 0) rb = Done (Ok (ring_capacity rb, samples)) rb') ↔
  ∃ j, 0 ≤ j ∧ channels = 2 ^ j.
Proof.
  intros Hf Hc Hrate Hnew Hcap. destruct (fresh_ring _ _ _ _ Hf Hc Hnew) as (i & Hi & Ecap & Emask & Eh & Et & Ed & Epre & Em & Er). split.
  - intros Hall. assert (0 < 2 ^ i) by (apply Z.pow_pos_nonneg; lia). assert (0 < ring_capacity rb) as Hpos by nia.
    destruct (decide (ring_capacity rb = 2 ^ Z.log2 (ring_capacity rb))) as [E|E].
    { exists (Z.log2 (ring_capacity rb) - i). rewrite Ecap in E at 1.
      pose proof (power_factor i channels _ Hi Hc E (Z.log2_nonneg _)) as Ech. split; [|done].
      destruct (decide (0 ≤ Z.log2 (ring_capacity rb) - i)); [done|]. rewrite Z.pow_neg_r in Ech by lia. lia. }
    exfalso. destruct (aliased_cells _ Hpos E) as (b & Hb & Hland).
    destruct (Hall (seqZ 0 (ring_capacity rb))) as (rb2 & Hrun); [rewrite length_seqZ; lia|].
    by apply (aliased_lap_lost rb b rb2).
  - intros Hpow samples Hlen. destruct (new_ring_ok frames channels rate 0 rb Hf Hpow Hnew Hcap) as (k & Hok & _).
    apply (lap_kept k); [done|done|lia|done..].
Qed.

(** A ring of one frame of six channels. *)
Definition surround_ring : AudioRingBuffer := default small_ring (new_ring 1 6 48000 0).
Lemma ring_faithful_iff_witness :
  ¬ (∀ samples, Z.of_nat (length samples) = 6 →
       ∃ rb', (ring_write samples ;;; ring_read 6 0) surround_ring = Done (Ok (6, samples)) rb').
Proof.
  intros H. destruct (ring_faithful_iff 1 6 48000 surround_ring) as [Hiff _]; [lia|lia|lia|reflexivity|discriminate|].
  destruct (Hiff H) as (j & Hj & E). destruct (decide (j ≤ 2)) as [Hle|Hgt].
  - assert (j = 0 ∨ j = 1 ∨ j = 2) as [->|[->| ->]] by lia; vm_compute in E; discriminate E.
  - assert (2 ^ 3 ≤ 2 ^ j) as H3 by (apply Z.pow_le_mono_r; lia). rewrite <-E in H3. vm_compute in H3. by destruct H3.
Defined.

(** ** The double buffer *)

Definition double_ring : DoubleAudioBuffer := default (Build_DoubleAudioBuffer small_ring small_ring true) (new_double 8 1 44100 0).

(** Reading leaves the channels as they are. *)
Definition same_channels (s s' : AudioRingBuffer) : Prop := rb_channels s' = rb_channels s.
#[local] Instance same_channels_preorder : PreOrder same_channels.
Proof. split; [done|]. intros ? ? ? H1 H2. unfold same_channels in *. congruence. Qed.

Lemma on_metrics_channels f : monotone same_channels (on_metrics f).
Proof. unfold on_metrics. intros s r s' H. cbn [bind gets] in H. unfold id in H. msplit; by simplify_eq/=. Qed.
Lemma ring_read_channels n now : monotone same_channels (ring_read n now).
Proof.
  assert (∀ start i m, monotone same_channels (load_samples start i m)) as Hload.
  { intros start i m s r s' H. by apply load_samples_cells in H as [-> _]. }
  assert (monotone same_channels (take_samples n)) as Htake.
  { unfold take_samples. monotone_steps; try apply Hload; by intros ? ? ? [= _ <-]. }
  unfold ring_read, underrun. monotone_steps; try apply on_metrics_channels; try exact Htake; try (by intros ? ? ? [= _ <-]).
Qed.
Lemma set_side_reading b r d : db_reading_primary (db_set_side b r d) = db_reading_primary d.
Proof. by destruct b. Qed.
Lemma side_set_side b r d : db_side b (db_set_side b r d) = r.
Proof. by destruct b. Qed.

(** Outputs shorter than two frames never change the buffer that is read, however long
    the other one waits; and what a change leaves behind is heard after samples that
    were written later. *)
Theorem double_buffer_deviations :
  (∀ d n now r d', n / rb_channels (db_side (db_reading_primary d) d) / 2 = 0 →
     double_read n now d = Done r d' → db_reading_primary d' = db_reading_primary d) ∧
  ∃ d', (double_write [1; 2; 3; 4; 5] ;;; double_read 4 0 ;;; double_write [6; 7; 8; 9] ;;;
         (a <- double_read 4 0 ;; b <- double_read 4 0 ;; c <- double_read 4 0 ;; ret (snd a ++ snd b ++ snd c))) double_ring
    = Done (Ok [1; 2; 3; 4; 6; 7; 8; 9; 5; 0; 0; 0]) d'.
Proof.
  split; [|by eexists; vm_compute].
  intros d n now r d' Hn. unfold double_read. cbn [bind gets zoom]. unfold id.
  destruct (ring_read n now (db_side (db_reading_primary d) d)) as [[x|e] rb'|] eqn:E; [|intros [= _ <-]; apply set_side_reading|done].
  pose proof (ring_read_channels _ _ _ _ _ E) as Hch. unfold same_channels in Hch. cbn [ret].
  rewrite side_set_side.
  assert ((fill_frames rb' <? n / rb_channels rb' / 2) = false) as ->.
  { apply Z.ltb_ge. rewrite Hch, Hn. unfold fill_frames. apply Z.div_pos; [|lia]. unfold fill_samples, saturating_sub, ring_capacity. lia. }
  cbn [ret]. intros [= _ <-]. apply set_side_reading.
Qed.
End Art.
