(* ===== verification/AudioRingShared.v ===== *)
(** * The audio ring buffer shared by a producer and a consumer thread *)

From stdpp Require Import list_numbers.
From S2P Require Import Prelude Flags AudioRing AudioRingFacts.

Module Ars.
Import Ar.

(** The producer never writes more than it saw free. *)
Definition within_free (w : RingWorld) : Prop :=
  match rw_producer w with PCopying _ free src _ => Z.of_nat (length src) ≤ free | _ => True end.
Definition bounded_step (w w' : RingWorld) : Prop := ring_world_step w w' ∧ within_free w'.

Section shared.
Context (k : Z) (Hk : 0 ≤ k ≤ 40).

Definition at_position (rb : AudioRingBuffer) (p : Z) (x : Z) : Prop := rb_buffer rb !! Z.to_nat (p mod 2 ^ k) = Some x.

(** What a thread has in hand. *)
Definition producer_ok (w : RingWorld) : Prop :=
  let sent := Z.of_nat (length (rw_sent w)) in
  match rw_producer w with
  | PCopying tail free src i =>
      tail = sent mod 2 ^ 64 ∧ (i ≤ length src)%nat ∧ Z.of_nat (length src) ≤ free ∧
      sent + Z.of_nat (length src) ≤ Z.of_nat (length (rw_delivered w)) + 2 ^ k ∧
      ∀ j x, (j < i)%nat → src !! j = Some x → at_position (rw_ring w) (sent + Z.of_nat j) x
  | PPublished overflow => overflow = 0
  | PIdle | PDropped => True
  end.
Definition consumer_ok (w : RingWorld) : Prop :=
  let delivered := Z.of_nat (length (rw_delivered w)) in
  match rw_consumer w with
  | CIdle => True
  | CLoaded head tail n =>
      head = delivered mod 2 ^ 64 ∧ 0 ≤ n ∧
      ∃ t, tail = t mod 2 ^ 64 ∧ delivered ≤ t ≤ Z.of_nat (length (rw_sent w))
  | CCopying head skip count out =>
      head = delivered mod 2 ^ 64 ∧ skip = 0 ∧ Z.of_nat (length out) ≤ count ∧
      delivered + count ≤ Z.of_nat (length (rw_sent w)) ∧
      ∀ j x, out !! j = Some x → rw_sent w !! (length (rw_delivered w) + j)%nat = Some x
  end.

Record shared_ok (w : RingWorld) : Prop := {
  sh_capacity : ring_capacity (rw_ring w) = 2 ^ k;
  sh_mask : rb_mask (rw_ring w) = 2 ^ k - 1;
  sh_head : rb_head (rw_ring w) = Z.of_nat (length (rw_delivered w)) mod 2 ^ 64;
  sh_tail : rb_tail (rw_ring w) = Z.of_nat (length (rw_sent w)) mod 2 ^ 64;
  sh_dropped : rb_dropped (rw_ring w) = 0;
  sh_prefix : rw_delivered w `prefix_of` rw_sent w;
  sh_fill : Z.of_nat (length (rw_sent w)) ≤ Z.of_nat (length (rw_delivered w)) + 2 ^ k;
  sh_cells : ∀ p x, (length (rw_delivered w) ≤ p)%nat → rw_sent w !! p = Some x → at_position (rw_ring w) (Z.of_nat p) x;
  sh_producer : producer_ok w;
  sh_consumer : consumer_ok w }.

Lemma pow_divides : (2 ^ k | 2 ^ 64).
Proof using Hk. exists (2 ^ (64 - k)). rewrite <-Z.pow_add_r by lia. f_equal. lia. Qed.
Lemma mod_mod_pow x : (x mod 2 ^ 64) mod 2 ^ k = x mod 2 ^ k.
Proof using Hk. apply Z.mod_mod_divide. apply pow_divides. Qed.
Lemma masked x i : Z.land (x mod 2 ^ 64 + i) (2 ^ k - 1) = (x + i) mod 2 ^ k.
Proof using Hk. rewrite ring_land_mask by lia. rewrite Zplus_mod, mod_mod_pow, <-Zplus_mod. done. Qed.

Lemma wrapped_distance a b : 0 ≤ a → a ≤ b ≤ a + 2 ^ k → wrapping_sub64 (b mod 2 ^ 64) (a mod 2 ^ 64) = b - a.
Proof using Hk.
  intros Ha Hb. pose proof (pow_bounds k Hk). unfold wrapping_sub64, wrap64. rewrite <-Zminus_mod. apply Z.mod_small. ring_consts. lia.
Qed.
Lemma wrapped_sum a b : 0 ≤ b → wrapping_add64 (a mod 2 ^ 64) b = (a + b) mod 2 ^ 64.
Proof using. intros _. unfold wrapping_add64, wrap64. by rewrite Zplus_mod_idemp_l. Qed.

(** Cells less than a lap apart are different. *)
Lemma apart p q : p < q < p + 2 ^ k → p mod 2 ^ k ≠ q mod 2 ^ k.
Proof using Hk.
  intros Hpq E. pose proof (pow_bounds k Hk). assert ((q - p) mod 2 ^ k = 0) as E0.
  { rewrite Zminus_mod, E, Z.sub_diag. apply Zmod_0_l. }
  rewrite Z.mod_small in E0 by lia. lia.
Qed.

Lemma at_store_same rb x i s :
  ring_capacity rb = 2 ^ k → rb_mask rb = 2 ^ k - 1 → at_position (store_cell (x mod 2 ^ 64 + i) s rb) (x + i) s.
Proof using Hk.
  intros Hc Hm. unfold at_position, store_cell. cbn [rb_set_buffer rb_buffer]. rewrite Hm, masked. apply list_lookup_insert_eq.
  pose proof (pow_bounds k Hk). pose proof (Z.mod_pos_bound (x + i) (2 ^ k)). unfold ring_capacity in Hc. lia.
Qed.
Lemma at_store_other rb x i s p y :
  rb_mask rb = 2 ^ k - 1 → p < x + i < p + 2 ^ k → at_position rb p y → at_position (store_cell (x mod 2 ^ 64 + i) s rb) p y.
Proof using Hk.
  intros Hm Hp Hy. unfold at_position, store_cell in *. cbn [rb_set_buffer rb_buffer]. rewrite Hm, masked.
  rewrite list_lookup_insert_ne; [done|]. pose proof (pow_bounds k Hk). pose proof (apart _ _ Hp).
  pose proof (Z.mod_pos_bound (x + i) (2 ^ k)). pose proof (Z.mod_pos_bound p (2 ^ k)). lia.
Qed.

Ltac world := unfold producer_ok, consumer_ok in *; cbn [rw_ring rw_producer rw_consumer rw_sent rw_delivered] in *.

Lemma producer_step_ok w w' : shared_ok w → producer_step w w' → within_free w' → shared_ok w'.
Proof using Hk.
  intros [Hcap Hmask Hhead Htail Hdrop Hpre Hfill Hcells Hp Hc] Hstep Hfree. pose proof (pow_bounds k Hk) as Hpow.
  pose proof (prefix_length _ _ Hpre) as Hle.
  destruct Hstep as [rb c sent delivered samples Hne capacity|rb c sent delivered tail free src i x Hx Hpos|rb c sent delivered tail free src
    |rb c sent delivered overflow|rb c sent delivered b]; unfold within_free in Hfree; world.
  - split; simpl; try done; world. split_and!; [done|lia|done| |intros; lia].
    subst capacity. rewrite Hcap in *. rewrite Hhead, Htail, wrapped_distance in Hfree by lia. world. lia.
  - destruct Hp as (-> & Hi & Hsf & Hlap & Hdone). pose proof (lookup_lt_Some _ _ _ Hx).
    split; simpl; try done; world.
    + unfold ring_capacity in *. unfold store_cell. simpl. by rewrite length_insert.
    + intros p y Hpd Hy. apply at_store_other; [done| |by apply Hcells]. apply lookup_lt_Some in Hy. lia.
    + split_and!; [done|lia|done|done|]. intros j y Hj Hy. destruct (decide (j = i)) as [->|].
      * rewrite Hx in Hy. injection Hy as ->. by apply at_store_same.
      * apply at_store_other; [done|lia|]. apply Hdone; [lia|done].
  - destruct Hp as (-> & _ & Hsf & Hlap & Hdone). split; simpl; try done; world.
    + rewrite wrapped_sum by lia. rewrite length_app. f_equal. lia.
    + by apply prefix_app_r.
    + rewrite length_app. lia.
    + intros p y Hpd Hy. destruct (decide (p < length sent)%nat).
      * rewrite lookup_app_l in Hy by done. by apply Hcells.
      * rewrite lookup_app_r in Hy by lia. pose proof (Hdone (p - length sent)%nat y) as H.
        replace (Z.of_nat (length sent) + Z.of_nat (p - length sent)) with (Z.of_nat p) in H by lia. apply H; [|done].
        by apply lookup_lt_Some in Hy.
    +  unfold saturating_sub. lia.
    + rewrite length_app. destruct c as [|h t n|h s n out]; [done| |].
      * destruct Hc as (? & ? & t' & ? & ?). split_and!; [done|done|]. exists t'. split; [done|lia].
      * destruct Hc as (? & ? & ? & ? & Hout). split_and!; [done..|lia|]. intros j y Hy. apply lookup_app_l_Some. by apply Hout.
  - subst overflow. cbn [Z.ltb Z.compare]. split; simpl; try done; world; done.
  - split; simpl; try done; world; done.
Qed.

Lemma consumer_step_ok w w' : shared_ok w → consumer_step w w' → shared_ok w'.
Proof using Hk.
  intros [Hcap Hmask Hhead Htail Hdrop Hpre Hfill Hcells Hp Hc] Hstep. pose proof (pow_bounds k Hk) as Hpow.
  pose proof (prefix_length _ _ Hpre) as Hle.
  destruct Hstep as [rb p sent delivered n Hn _|rb p sent delivered head tail n|rb p sent delivered head skip count out x Hlt Hpos Hx
    |rb p sent delivered head skip count out Hl]; world.
  - split; simpl; try done; world. split_and!; [done|done|]. exists (Z.of_nat (length sent)). split; [done|lia].
  - destruct Hc as (-> & Hn & t & -> & Ht). split; simpl; try done; world. rewrite Hdrop.
    rewrite wrapped_distance by lia. unfold saturating_sub. cbn [length]. split_and!; [done|done|lia|lia|intros j x; by rewrite lookup_nil].
  - destruct Hc as (-> & -> & Hl & Hfit & Hout). split; simpl; try done; world. rewrite length_app. simpl.
    split_and!; [done|done|lia|done|]. intros j y Hy. destruct (decide (j < length out)%nat).
    + rewrite lookup_app_l in Hy by done. by apply Hout.
    + rewrite lookup_app_r in Hy by lia. assert (j = length out) as ->.
      { apply lookup_lt_Some in Hy. simpl in Hy. lia. }
      rewrite Nat.sub_diag in Hy. injection Hy as <-. rewrite Z.add_0_r, Hmask, masked in Hx.
      destruct (sent !! (length delivered + length out)%nat) as [z|] eqn:Ez.
      * pose proof (Hcells (length delivered + length out)%nat z ltac:(lia) Ez) as Hz. unfold at_position in Hz. rewrite Nat2Z.inj_add in Hz. congruence.
      * apply lookup_ge_None in Ez. lia.
  - destruct Hc as (-> & -> & _ & Hfit & Hout). assert (delivered ++ out `prefix_of` sent) as Hpre'.
    { destruct Hpre as [rest ->]. exists (drop (length out) rest). rewrite <-app_assoc. f_equal.
      rewrite <-(take_drop (length out) rest) at 1. f_equal. apply list_eq. intros j. destruct (decide (j < length out)%nat) as [Hj|Hj].
      - destruct (lookup_lt_is_Some_2 _ _ Hj) as [y Hy]. rewrite Hy. rewrite lookup_take_lt by done.
        pose proof (Hout j y Hy) as Hy2. rewrite lookup_app_r in Hy2 by lia. rewrite <-Hy2. f_equal. lia.
      - rewrite !lookup_ge_None_2; [done|lia|]. rewrite length_take. lia. }
    split; simpl; try done; world.
    + rewrite wrapped_sum by lia. rewrite length_app. f_equal. lia.
    + rewrite length_app. lia.
    + intros q y Hq Hy. rewrite length_app in Hq. apply Hcells; [lia|done].
    + rewrite length_app. destruct p; try done. naive_solver lia.
Qed.
End shared.

Lemma shared_run_ok k w w' : 0 ≤ k ≤ 40 → shared_ok k w → rtc bounded_step w w' → shared_ok k w'.
Proof.
  intros Hk Hok Hrun. induction Hrun as [|w w1 w2 [[Hs|Hs] Hf] _ IH]; [done| |]; apply IH.
  - by eapply producer_step_ok.
  - by eapply consumer_step_ok.
Qed.

Lemma fresh_shared_ok k rb : ring_ok k rb [] → rb_head rb = 0 → rb_dropped rb = 0 → shared_ok k (ring_world rb).
Proof.
  intros [Hk Hcap Hmask (Hh & Hd & Ht & _) _ _ _ _] E0 E1. split; simpl; try done; [rewrite Ht, E0, E1; done|].
  pose proof (pow_bounds k Hk). lia.
Qed.

(** C27 - Two threads on one ring, at any interleaving of their atomic operations and of
    their accesses to the cells: as long as the producer writes no more than it saw
    free, what the consumer gave out is a prefix of what was written, in order and
    with nothing lost or invented; no more than a ring is in between, and nothing is
    dropped. *)
Theorem shared_ring_fifo k rb w :
  ring_ok k rb [] → rb_head rb = 0 → rb_dropped rb = 0 → rtc bounded_step (ring_world rb) w →
  rw_delivered w `prefix_of` rw_sent w ∧
  Z.of_nat (length (rw_sent w)) - Z.of_nat (length (rw_delivered w)) ≤ 2 ^ k ∧
  rb_dropped (rw_ring w) = 0 ∧
  (∀ head skip count out, rw_consumer w = CCopying head skip count out → rw_delivered w ++ out `prefix_of` rw_sent w).
Proof.
  intros Hok H0 H1 Hrun. pose proof (rg_k _ _ _ Hok) as Hk.
  apply (shared_run_ok k _ _ Hk (fresh_shared_ok k rb Hok H0 H1)) in Hrun. pose proof (sh_fill _ _ Hrun) as Hfill. pose proof (sh_prefix _ _ Hrun) as Hpre.
  split_and!; [done|lia|by apply (sh_dropped k)|]. intros head skip count out E. pose proof (sh_consumer _ _ Hrun) as Hc. unfold consumer_ok in Hc. rewrite E in Hc.
  destruct Hc as (_ & _ & Hl & Hfit & Hout). destruct Hpre as [rest Er]. rewrite Er in *. apply prefix_app. exists (drop (length out) rest).
  rewrite <-(take_drop (length out) rest) at 1. f_equal. rewrite length_app in Hfit. apply list_eq. intros j. destruct (decide (j < length out)%nat) as [Hj|Hj].
  - destruct (lookup_lt_is_Some_2 _ _ Hj) as [y Hy]. rewrite Hy, lookup_take_lt by done.
    pose proof (Hout j y Hy) as Hy2. rewrite lookup_app_r in Hy2 by lia. rewrite <-Hy2. f_equal. lia.
  - rewrite !lookup_ge_None_2; [done|lia|]. rewrite length_take. lia.
Qed.

(** ** Concrete runs *)

(** Each state is computed before the next step. *)
Ltac settle := match goal with |- rtc _ ?w _ => let v := eval vm_compute in w in change w with v end.
Ltac thread_step := eapply rtc_l; [first [left; first [eapply p_copy; [reflexivity|vm_compute; discriminate] | apply p_publish | apply p_drop
  | apply (p_complete _ _ _ _ true)]]|]; settle.
Ltac consumer_copy := eapply rtc_l; [right; eapply c_copy; [vm_compute; reflexivity|vm_compute; discriminate|reflexivity]|]; settle.
Ltac producer_write samples := eapply rtc_l; [left; apply (p_start _ _ _ _ samples); discriminate|]; settle.
Ltac consumer_read n := eapply rtc_l; [right; apply (c_load _ _ _ _ n); [lia|reflexivity]|]; eapply rtc_l; [right; apply c_skip|]; settle.
Ltac consumer_done := eapply rtc_l; [right; apply c_publish; reflexivity|]; settle.

(** The same steps, by a producer that keeps within the room it saw. *)
Ltac bounded step := eapply rtc_l; [split; [step|vm_compute; first [exact I|discriminate]]|]; settle.
Ltac bounded_write samples := bounded ltac:(left; apply (p_start _ _ _ _ samples); discriminate).
Ltac bounded_copy := bounded ltac:(left; eapply p_copy; [reflexivity|vm_compute; discriminate]).
Ltac bounded_publish := bounded ltac:(left; apply p_publish); bounded ltac:(left; apply p_drop); bounded ltac:(left; apply (p_complete _ _ _ _ true)).
Ltac bounded_read n := bounded ltac:(right; apply (c_load _ _ _ _ n); [lia|reflexivity]); bounded ltac:(right; apply c_skip).
Ltac bounded_take := bounded ltac:(right; eapply c_copy; [vm_compute; reflexivity|vm_compute; discriminate|reflexivity]).
Ltac bounded_done := bounded ltac:(right; apply c_publish; reflexivity).

(** A ring of four samples for one channel. *)
Definition quad_ring : AudioRingBuffer := default (Build_AudioRingBuffer [] 0 0 0 0 1 0 true no_metrics 0) (new_ring 4 1 44100 0).
Lemma quad_ring_ok : ring_ok 2 quad_ring [].
Proof. split; first [by left|by intros ? ? ?|by vm_compute]. Qed.

(** The producer writes three samples; while the consumer takes two of them it writes
    a fourth, then two more, which wrap around the ring; the consumer takes three. *)
Lemma bounded_run : ∃ w, rtc bounded_step (ring_world quad_ring) w ∧ rw_sent w = [1; 2; 3; 4; 5; 6] ∧ rw_delivered w = [1; 2; 3; 4; 5] ∧
  rw_consumer w = CIdle.
Proof.
  eexists. split.
  - bounded_write [1; 2; 3]. do 3 bounded_copy. bounded_publish. bounded_read 2. bounded_take. bounded_write [4]. bounded_take.
    bounded_copy. bounded_done. bounded_publish. bounded_write [5; 6]. bounded_copy. bounded_read 1. bounded_take. bounded_copy. bounded_done.
    bounded_publish. bounded_read 2. do 2 bounded_take. bounded_done. apply rtc_refl.
  - by split.
Qed.
Lemma shared_ring_fifo_witness :
  ∃ w, rtc bounded_step (ring_world quad_ring) w ∧ rw_delivered w = [1; 2; 3; 4; 5] ∧ rw_delivered w `prefix_of` rw_sent w ∧
    Z.of_nat (length (rw_sent w)) - Z.of_nat (length (rw_delivered w)) ≤ 4.
Proof.
  destruct bounded_run as (w & Hrun & _ & Hd & _). exists w. split; [exact Hrun|]. split; [exact Hd|].
  destruct (shared_ring_fifo 2 quad_ring w quad_ring_ok eq_refl eq_refl Hrun) as (Hpre & Hfill & _). exact (conj Hpre Hfill).
Defined.

(** ** What an overflow does *)

(** When the producer does overwrite, the consumer may be in the middle of the samples
    it overwrites, and gives out some of the old lap and some of the new.  And the
    new tail is published before the count of the dropped samples: a read in between
    gives out the lap twice and skips the count once more at the next call, which puts
    the head past the tail.  From there the ring reads as full although it holds
    nothing, and the next read panics. *)
Theorem overflow_races :
  (∃ w, rtc ring_world_step (ring_world quad_ring) w ∧ rw_sent w = [1; 2; 3; 4] ∧ rw_delivered w = [5; 6; 3; 4]) ∧
  (∃ w, rtc ring_world_step (ring_world quad_ring) w ∧ rw_sent w = [1; 2; 3; 4; 5; 6; 7; 8] ∧
     rw_delivered w = [5; 6; 7; 8; 5; 6; 7; 8] ∧ rb_tail (rw_ring w) < rb_head (rw_ring w) ∧ fill_samples (rw_ring w) = 4 ∧
     ring_read 4 0 (rw_ring w) = Panic).
Proof.
  split; eexists; split.
  - producer_write [1; 2; 3; 4]. do 7 thread_step. consumer_read 4. producer_write [5; 6; 7; 8]. do 2 thread_step.
    do 4 consumer_copy. consumer_done. apply rtc_refl.
  - by split.
  - producer_write [1; 2; 3; 4]. do 7 thread_step. producer_write [5; 6; 7; 8]. do 5 thread_step. consumer_read 8.
    do 8 consumer_copy. consumer_done. do 2 thread_step. consumer_read 0. consumer_done. apply rtc_refl.
  - split_and!; by vm_compute.
Qed.
End Ars.
