(* ===== verification/HandleTable.v ===== *)
(** * The Win32 handle table ([runtime/handle_table.rs])

    The one table that mints handle values: closed values are used again, the one
    closed first first, and each value has a generation that its closing bumps.  An
    entry names an object of the object manager and holds nothing of it. *)

From S2P Require Import Prelude Win32Types.

Record HandleEntry := {
  hn_object_id : Z; hn_generation : Z; hn_access_mask : Z; hn_inheritable : bool; hn_protect_from_close : bool }.

Record HandleTable := {
  ht_entries : gmap Z HandleEntry;
  ht_generations : gmap Z Z;
  ht_closed : list Z;
  ht_protected : gset Z;
  ht_history : gmap Z Win32ObjectType;
  ht_recent : list (Z * Win32ObjectType);
  ht_next : Z }.

Definition ht_set_entries (m : gmap Z HandleEntry) (t : HandleTable) : HandleTable :=
  {| ht_entries := m; ht_generations := ht_generations t; ht_closed := ht_closed t; ht_protected := ht_protected t;
     ht_history := ht_history t; ht_recent := ht_recent t; ht_next := ht_next t |}.
Definition ht_set_generations (m : gmap Z Z) (t : HandleTable) : HandleTable :=
  {| ht_entries := ht_entries t; ht_generations := m; ht_closed := ht_closed t; ht_protected := ht_protected t;
     ht_history := ht_history t; ht_recent := ht_recent t; ht_next := ht_next t |}.
Definition ht_set_closed (l : list Z) (t : HandleTable) : HandleTable :=
  {| ht_entries := ht_entries t; ht_generations := ht_generations t; ht_closed := l; ht_protected := ht_protected t;
     ht_history := ht_history t; ht_recent := ht_recent t; ht_next := ht_next t |}.
Definition ht_set_protected (X : gset Z) (t : HandleTable) : HandleTable :=
  {| ht_entries := ht_entries t; ht_generations := ht_generations t; ht_closed := ht_closed t; ht_protected := X;
     ht_history := ht_history t; ht_recent := ht_recent t; ht_next := ht_next t |}.
Definition ht_set_history (m : gmap Z Win32ObjectType) (t : HandleTable) : HandleTable :=
  {| ht_entries := ht_entries t; ht_generations := ht_generations t; ht_closed := ht_closed t; ht_protected := ht_protected t;
     ht_history := m; ht_recent := ht_recent t; ht_next := ht_next t |}.
Definition ht_set_recent (l : list (Z * Win32ObjectType)) (t : HandleTable) : HandleTable :=
  {| ht_entries := ht_entries t; ht_generations := ht_generations t; ht_closed := ht_closed t; ht_protected := ht_protected t;
     ht_history := ht_history t; ht_recent := l; ht_next := ht_next t |}.
Definition ht_set_next (x : Z) (t : HandleTable) : HandleTable :=
  {| ht_entries := ht_entries t; ht_generations := ht_generations t; ht_closed := ht_closed t; ht_protected := ht_protected t;
     ht_history := ht_history t; ht_recent := ht_recent t; ht_next := x |}.

Definition new_table : HandleTable :=
  {| ht_entries := ∅; ht_generations := ∅; ht_closed := []; ht_protected := ∅; ht_history := ∅; ht_recent := []; ht_next := 4 |}.

(** The value [insert] uses: the one closed first, or a fresh one. *)
Definition next_value : M HandleTable Z :=
  t <- gets id ;;
  match ht_closed t with
  | handle :: rest => modify (ht_set_closed rest) ;;; ret handle
  | [] => modify (ht_set_next (saturating_add u32_max (ht_next t) 4)) ;;; ret (ht_next t)
  end.

Definition generation_of (t : HandleTable) (handle : Z) : Z := default 0 (ht_generations t !! handle).

Definition insert_handle (object_id access_mask : Z) (inheritable : bool) : M HandleTable Z :=
  handle <- next_value ;;
  modify (λ t, ht_set_entries (<[handle :=
    {| hn_object_id := object_id; hn_generation := generation_of t handle; hn_access_mask := access_mask;
       hn_inheritable := inheritable; hn_protect_from_close := false |}]> (ht_entries t)) t) ;;;
  ret handle.

(** [BTreeMap::pop_first] *)
Definition pop_first {V} (m : gmap Z V) : gmap Z V :=
  match bt_keys m with key :: _ => delete key m | [] => m end.

Definition record_history (handle : Z) (object_type : Win32ObjectType) (t : HandleTable) : HandleTable :=
  let history := <[handle := object_type]> (ht_history t) in
  ht_set_history (if 1024 <? Z.of_nat (size history) then pop_first history else history) t.

(** What the error for an invalid handle says of the value. *)
Inductive HandleNote := KnownAs (object_type : Win32ObjectType) | RecentlyClosed (object_type : Win32ObjectType) | NoNote.
Definition invalid_handle_note (t : HandleTable) (handle : Z) : HandleNote :=
  match ht_history t !! handle with
  | Some object_type => KnownAs object_type
  | None =>
      match last (filter (λ p, p.1 = handle) (ht_recent t)) with
      | Some (_, object_type) => RecentlyClosed object_type
      | None => NoNote
      end
  end.

Definition get_entry (handle : Z) (t : HandleTable) : option HandleEntry := ht_entries t !! handle.
Definition is_live (handle : Z) (t : HandleTable) : bool := bool_decide (is_Some (ht_entries t !! handle)).
Definition handle_generation (handle : Z) (t : HandleTable) : option Z := hn_generation <$> ht_entries t !! handle.
Definition entry (handle : Z) : M HandleTable HandleEntry :=
  t <- gets id ;; ok_or (get_entry handle t) RcWin32InvalidHandle.

Definition validate_handle_generation (handle expected_generation : Z) (t : HandleTable) : result unit :=
  match ht_entries t !! handle with
  | Some e => if hn_generation e =? expected_generation then Ok tt else Err RcHandleStaleOrInvalid
  | None => Err RcWin32InvalidHandle
  end.

Definition hn_set_inheritable (b : bool) (e : HandleEntry) : HandleEntry :=
  {| hn_object_id := hn_object_id e; hn_generation := hn_generation e; hn_access_mask := hn_access_mask e;
     hn_inheritable := b; hn_protect_from_close := hn_protect_from_close e |}.

Definition has_flag (x flag : Z) : bool := negb (Z.land x flag =? 0).
Definition set_handle_information (handle mask flags : Z) : M HandleTable unit :=
  (if has_flag mask HANDLE_FLAG_INHERIT
   then entry handle ;;;
        modify (λ t, ht_set_entries (alter (hn_set_inheritable (has_flag flags HANDLE_FLAG_INHERIT)) handle (ht_entries t)) t)
   else ret tt) ;;;
  (if has_flag mask HANDLE_FLAG_PROTECT_FROM_CLOSE
   then if has_flag flags HANDLE_FLAG_PROTECT_FROM_CLOSE
        then modify (λ t, ht_set_protected ({[handle]} ∪ ht_protected t) t)
        else modify (λ t, ht_set_protected (ht_protected t ∖ {[handle]}) t)
   else ret tt).

Definition is_protected (handle : Z) (t : HandleTable) : bool := bool_decide (handle ∈ ht_protected t).
Definition clear_protection (handle : Z) (t : HandleTable) : HandleTable :=
  ht_set_protected (ht_protected t ∖ {[handle]}) t.

(** At most 32 closed values are remembered. *)
Definition remember_closed (handle : Z) (t : HandleTable) : HandleTable :=
  let recent := ht_recent t ++ [(handle, OtSocket)] in
  ht_set_recent (drop (length recent - 32) recent) t.

Definition close_raw (handle : Z) : M HandleTable HandleEntry :=
  t <- gets id ;;
  fail_if (is_protected handle t) RcHelperPermissionDenied ;;;
  e <- ok_or (ht_entries t !! handle) RcWin32InvalidHandle ;;
  modify (λ t, ht_set_entries (delete handle (ht_entries t)) t) ;;;
  modify (clear_protection handle) ;;;
  modify (λ t, ht_set_generations (<[handle := saturating_add u32_max (generation_of t handle) 1]> (ht_generations t)) t) ;;;
  modify (λ t, ht_set_closed (ht_closed t ++ [handle]) t) ;;;
  modify (remember_closed handle) ;;;
  ret e.

Definition close (handle : Z) (object_type : Win32ObjectType) : M HandleTable HandleEntry :=
  t <- gets id ;;
  fail_if (is_protected handle t) RcHelperPermissionDenied ;;;
  fail_if (bool_decide (object_type = OtSocket)) RcWin32InvalidHandle ;;;
  close_raw handle.

Definition duplicate (source_handle access_mask : Z) (inheritable : bool) : M HandleTable Z :=
  source <- entry source_handle ;;
  insert_handle (hn_object_id source) access_mask inheritable.
