(* ===== verification/KernelObjects.v ===== *)
(** * The object manager of the Win32 runtime ([runtime/object_manager.rs])

    The one owner of the objects, of their headers, of the count of handles of each
    and of the named-object namespace, with the operations of the waitable objects.
    The payloads of files, ports, sections, keys, pipes, searches and window stations
    are read elsewhere: here such a payload is an identity.  The counter of object
    identities is a static of the source, and is a field here.  A call of
    [notify_object_waiters] is recorded in [om_wakes]. *)

From S2P Require Import Prelude Strings Win32Types.

(** ** Names *)

(** One of the prefixes that name the session's namespace, taken off. *)
Definition is_ascii_digit (c : Z) : bool := (48 <=? c) && (c <=? 57).
Fixpoint skip_digits (s : str) : str :=
  match s with c :: s' => if is_ascii_digit c then skip_digits s' else s | [] => [] end.
Definition strip_session (s : str) : option str :=
  rest ← strip_prefix (lit "\Sessions\") s;
  if bool_decide (skip_digits rest = rest) then None
  else strip_prefix (lit "\BaseNamedObjects\") (skip_digits rest).
Definition strip_namespace (s : str) : option str :=
  match strip_prefix (lit "\BaseNamedObjects\") s with
  | Some rest => Some rest
  | None =>
      match strip_prefix (lit "Global\") s with
      | Some rest => Some rest
      | None => match strip_prefix (lit "Local\") s with Some rest => Some rest | None => strip_session s end
      end
  end.
(** [None] is a loop that did not end. *)
Fixpoint canonical_loop (fuel : nat) (current : str) : option str :=
  match fuel with
  | O => None
  | S fuel =>
      match strip_namespace current with
      | Some rest => if negb (str_is_empty rest) && negb (bool_decide (rest = current)) then canonical_loop fuel rest else Some current
      | None => Some current
      end
  end.
Definition canonical_object_name (name : str) : str := default name (canonical_loop (S (length name)) name).

(** ** Objects *)

Record EventObject := { eo_manual_reset : bool; eo_signaled : bool }.
Record MutexObject := { mx_owner_thread_id : option Z; mx_recursion : Z; mx_abandoned : bool }.
Record SemaphoreObject := { sm_count : Z; sm_maximum : Z }.
Record TimerObject := { tm_due_tick : Z; tm_signaled : bool }.
Record ProcessObject := { po_process_id : Z; po_exit_code : option Z; po_exit_sync : option Z }.

Inductive KernelObject :=
| KFile (payload : Z) | KEvent (event : EventObject) | KIoCompletionPort (payload : Z) | KMutex (mutex : MutexObject)
| KSemaphore (semaphore : SemaphoreObject) | KThread (thread_id : Z) | KProcess (process : ProcessObject)
| KSection (payload : Z) | KKey (payload : Z) | KTimer (timer : TimerObject) | KPipe (payload : Z)
| KDirectorySearch (payload : Z) | KSocket (socket_id : Z) | KWindowStation (payload : Z).

Definition payload_type (o : KernelObject) : Win32ObjectType :=
  match o with
  | KFile _ => OtFile | KEvent _ => OtEvent | KIoCompletionPort _ => OtIoCompletionPort | KMutex _ => OtMutex
  | KSemaphore _ => OtSemaphore | KThread _ => OtThread | KProcess _ => OtProcess | KSection _ => OtSection
  | KKey _ => OtKey | KTimer _ => OtTimer | KPipe _ => OtPipe | KDirectorySearch _ => OtDirectorySearch
  | KSocket _ => OtSocket | KWindowStation _ => OtWindowStation
  end.

Inductive WaitableState := WsNotSignaled | WsSignaled | WsAbandoned.
Inductive WaitSatisfaction := SatNotSignaled | SatSignaled | SatAbandoned.
#[export] Instance WaitSatisfaction_eq_dec : EqDecision WaitSatisfaction.
Proof. solve_decision. Defined.
Inductive WaitStatus := WaitObject0 | WaitTimeout | WaitAbandoned | WaitIoCompletion.
Definition wait_code (s : WaitStatus) : Z :=
  match s with WaitObject0 => 0x0 | WaitAbandoned => 0x80 | WaitIoCompletion => 0xC0 | WaitTimeout => 0x102 end.

Record ObjectHeader := {
  hd_id : Z; hd_ty : Win32ObjectType; hd_name : option str; hd_refcount : Z; hd_security_descriptor : option Z;
  hd_wait_state : WaitableState }.
Definition hd_set_refcount (n : Z) (h : ObjectHeader) : ObjectHeader :=
  {| hd_id := hd_id h; hd_ty := hd_ty h; hd_name := hd_name h; hd_refcount := n;
     hd_security_descriptor := hd_security_descriptor h; hd_wait_state := hd_wait_state h |}.
Definition hd_set_wait_state (x : WaitableState) (h : ObjectHeader) : ObjectHeader :=
  {| hd_id := hd_id h; hd_ty := hd_ty h; hd_name := hd_name h; hd_refcount := hd_refcount h;
     hd_security_descriptor := hd_security_descriptor h; hd_wait_state := x |}.

Record ObjectManager := {
  om_objects : gmap Z KernelObject; om_headers : gmap Z ObjectHeader; om_names : gmap str Z;
  om_handle_counts : gmap Z Z; om_next_id : Z; om_wakes : list (Z * bool) }.
Definition om_set_objects (m : gmap Z KernelObject) (s : ObjectManager) : ObjectManager :=
  {| om_objects := m; om_headers := om_headers s; om_names := om_names s; om_handle_counts := om_handle_counts s;
     om_next_id := om_next_id s; om_wakes := om_wakes s |}.
Definition om_set_headers (m : gmap Z ObjectHeader) (s : ObjectManager) : ObjectManager :=
  {| om_objects := om_objects s; om_headers := m; om_names := om_names s; om_handle_counts := om_handle_counts s;
     om_next_id := om_next_id s; om_wakes := om_wakes s |}.
Definition om_set_names (m : gmap str Z) (s : ObjectManager) : ObjectManager :=
  {| om_objects := om_objects s; om_headers := om_headers s; om_names := m; om_handle_counts := om_handle_counts s;
     om_next_id := om_next_id s; om_wakes := om_wakes s |}.
Definition om_set_counts (m : gmap Z Z) (s : ObjectManager) : ObjectManager :=
  {| om_objects := om_objects s; om_headers := om_headers s; om_names := om_names s; om_handle_counts := m;
     om_next_id := om_next_id s; om_wakes := om_wakes s |}.
Definition om_set_next_id (x : Z) (s : ObjectManager) : ObjectManager :=
  {| om_objects := om_objects s; om_headers := om_headers s; om_names := om_names s; om_handle_counts := om_handle_counts s;
     om_next_id := x; om_wakes := om_wakes s |}.
Definition om_notify (id : Z) (closed : bool) (s : ObjectManager) : ObjectManager :=
  {| om_objects := om_objects s; om_headers := om_headers s; om_names := om_names s; om_handle_counts := om_handle_counts s;
     om_next_id := om_next_id s; om_wakes := om_wakes s ++ [(id, closed)] |}.
Definition om_alter_object (f : KernelObject → KernelObject) (id : Z) (s : ObjectManager) : ObjectManager :=
  om_set_objects (alter f id (om_objects s)) s.
Definition om_alter_header (f : ObjectHeader → ObjectHeader) (id : Z) (s : ObjectManager) : ObjectManager :=
  om_set_headers (alter f id (om_headers s)) s.

Definition new_manager (next_id : Z) : ObjectManager :=
  {| om_objects := ∅; om_headers := ∅; om_names := ∅; om_handle_counts := ∅; om_next_id := next_id; om_wakes := [] |}.

(** The static counter wraps. *)
Definition next_object_id : M ObjectManager Z :=
  s <- gets id ;; modify (om_set_next_id ((om_next_id s + 1) mod 2 ^ 64)) ;;; ret (om_next_id s).

Definition insert_kernel_object (ty : Win32ObjectType) (name : option str) (security_descriptor : option Z)
    (object : KernelObject) : M ObjectManager Z :=
  id <- next_object_id ;;
  let canonical := canonical_object_name <$> name in
  (match canonical with
   | Some canonical => modify (λ s, om_set_names (<[canonical := id]> (om_names s)) s)
   | None => ret tt
   end) ;;;
  modify (λ s, om_set_objects (<[id := object]> (om_objects s)) s) ;;;
  modify (λ s, om_set_headers (<[id := {| hd_id := id; hd_ty := ty; hd_name := canonical; hd_refcount := 0;
    hd_security_descriptor := security_descriptor; hd_wait_state := WsNotSignaled |}]> (om_headers s)) s) ;;;
  modify (λ s, om_set_counts (<[id := 0]> (om_handle_counts s)) s) ;;;
  ret id.

Definition resolve (name : str) (s : ObjectManager) : option Z := om_names s !! canonical_object_name name.
Definition object_live (id : Z) (s : ObjectManager) : bool := bool_decide (is_Some (om_objects s !! id)).
Definition object_of (id : Z) : M ObjectManager KernelObject := s <- gets Datatypes.id ;; expect (om_objects s !! id).
Definition object_type (id : Z) : M ObjectManager Win32ObjectType := s <- gets Datatypes.id ;; expect (hd_ty <$> om_headers s !! id).
Definition handle_count (id : Z) (s : ObjectManager) : Z := default 0 (om_handle_counts s !! id).

Definition handle_added (id : Z) (s : ObjectManager) : ObjectManager :=
  let count := saturating_add u32_max (handle_count id s) 1 in
  om_alter_header (hd_set_refcount count) id (om_set_counts (<[id := count]> (om_handle_counts s)) s).

(** The object, its name, its header and its count, forgotten. *)
Definition drop_object (id : Z) (s : ObjectManager) : ObjectManager :=
  let names := match om_headers s !! id with
               | Some header => match hd_name header with Some name => delete name (om_names s) | None => om_names s end
               | None => om_names s
               end in
  om_notify id true
    (om_set_counts (delete id (om_handle_counts s))
       (om_set_headers (delete id (om_headers s)) (om_set_objects (delete id (om_objects s)) (om_set_names names s)))).

Definition handle_removed (id : Z) : M ObjectManager bool :=
  s <- gets Datatypes.id ;;
  count <- (match om_handle_counts s !! id with
            | Some count =>
                let count := saturating_sub count 1 in
                modify (λ s, om_set_counts (<[id := count]> (om_handle_counts s)) s) ;;; ret count
            | None => ret 0
            end) ;;
  modify (om_alter_header (hd_set_refcount count) id) ;;;
  if 0 <? count then ret false else modify (drop_object id) ;;; ret true.

(** ** Waiting *)

Definition wait_satisfaction (id current_thread_id now : Z) (s : ObjectManager) : WaitSatisfaction :=
  match om_objects s !! id with
  | Some (KEvent event) => if eo_signaled event then SatSignaled else SatNotSignaled
  | Some (KMutex mutex) =>
      if mx_abandoned mutex then SatAbandoned
      else match mx_owner_thread_id mutex with
           | None => SatSignaled
           | Some owner => if owner =? current_thread_id then SatSignaled else SatNotSignaled
           end
  | Some (KSemaphore semaphore) => if 0 <? sm_count semaphore then SatSignaled else SatNotSignaled
  | Some (KTimer timer) => if tm_signaled timer || (tm_due_tick timer <=? now) then SatSignaled else SatNotSignaled
  | _ => SatNotSignaled
  end.

Definition object_is_signaled (id current_thread_id now : Z) (s : ObjectManager) : bool :=
  match om_objects s !! id with
  | Some (KEvent event) => eo_signaled event
  | Some (KMutex mutex) =>
      mx_abandoned mutex || bool_decide (mx_owner_thread_id mutex = None)
        || bool_decide (mx_owner_thread_id mutex = Some current_thread_id)
  | Some (KSemaphore semaphore) => 0 <? sm_count semaphore
  | Some (KTimer timer) => tm_signaled timer || (tm_due_tick timer <=? now)
  | _ => false
  end.

Definition own_mutex (thread : Z) : MutexObject :=
  {| mx_owner_thread_id := Some thread; mx_recursion := 1; mx_abandoned := false |}.

(** What a wait does to one object: the status and the object it leaves, or a panic
    when the recursion overflows. *)
Definition consume_object (o : KernelObject) (current_thread_id now : Z) : option (WaitStatus * KernelObject) :=
  match o with
  | KEvent event =>
      if eo_signaled event
      then Some (WaitObject0, if eo_manual_reset event then o else KEvent {| eo_manual_reset := false; eo_signaled := false |})
      else Some (WaitTimeout, o)
  | KMutex mutex =>
      if mx_abandoned mutex then Some (WaitAbandoned, KMutex (own_mutex current_thread_id))
      else match mx_owner_thread_id mutex with
           | Some owner =>
               if owner =? current_thread_id
               then recursion ← checked_add u32_max (mx_recursion mutex) 1;
                    Some (WaitObject0, KMutex {| mx_owner_thread_id := Some owner; mx_recursion := recursion;
                                                 mx_abandoned := mx_abandoned mutex |})
               else Some (WaitTimeout, o)
           | None => Some (WaitObject0, KMutex {| mx_owner_thread_id := Some current_thread_id; mx_recursion := 1;
                                                  mx_abandoned := mx_abandoned mutex |})
           end
  | KSemaphore semaphore =>
      if 0 <? sm_count semaphore
      then Some (WaitObject0, KSemaphore {| sm_count := sm_count semaphore - 1; sm_maximum := sm_maximum semaphore |})
      else Some (WaitTimeout, o)
  | KTimer timer =>
      if tm_signaled timer || (tm_due_tick timer <=? now)
      then Some (WaitObject0, KTimer {| tm_due_tick := tm_due_tick timer; tm_signaled := true |})
      else Some (WaitTimeout, o)
  | _ => Some (WaitTimeout, o)
  end.
Definition state_of_wait (status : WaitStatus) : WaitableState :=
  match status with WaitAbandoned => WsAbandoned | WaitObject0 => WsSignaled | _ => WsNotSignaled end.

Definition consume_wait (id current_thread_id now : Z) : M ObjectManager WaitStatus :=
  s <- gets Datatypes.id ;;
  status <- (match om_objects s !! id with
             | Some o =>
                 '(status, o') <- expect (consume_object o current_thread_id now) ;;
                 modify (λ s, om_set_objects (<[id := o']> (om_objects s)) s) ;;; ret status
             | None => ret WaitTimeout
             end) ;;
  modify (om_alter_header (hd_set_wait_state (state_of_wait status)) id) ;;;
  ret status.

(** ** Signals *)

Definition set_signaled (b : bool) (o : KernelObject) : KernelObject :=
  match o with KEvent event => KEvent {| eo_manual_reset := eo_manual_reset event; eo_signaled := b |} | _ => o end.

Definition signal_event (id : Z) : M ObjectManager bool :=
  s <- gets Datatypes.id ;;
  match om_objects s !! id with
  | Some (KEvent _) =>
      modify (om_alter_object (set_signaled true) id) ;;;
      modify (om_alter_header (hd_set_wait_state WsSignaled) id) ;;;
      modify (om_notify id false) ;;; ret true
  | _ => ret false
  end.
Definition reset_event (id : Z) : M ObjectManager bool :=
  s <- gets Datatypes.id ;;
  match om_objects s !! id with
  | Some (KEvent _) =>
      modify (om_alter_object (set_signaled false) id) ;;;
      modify (om_alter_header (hd_set_wait_state WsNotSignaled) id) ;;; ret true
  | _ => ret false
  end.

Definition free_mutex : MutexObject := {| mx_owner_thread_id := None; mx_recursion := 0; mx_abandoned := false |}.
Definition release_mutex (id thread_id : Z) : M ObjectManager bool :=
  s <- gets Datatypes.id ;;
  match om_objects s !! id with
  | Some (KMutex mutex) =>
      if negb (bool_decide (mx_owner_thread_id mutex = Some thread_id)) then ret false
      else if 1 <? mx_recursion mutex
      then modify (om_alter_object (λ _, KMutex {| mx_owner_thread_id := mx_owner_thread_id mutex;
             mx_recursion := mx_recursion mutex - 1; mx_abandoned := mx_abandoned mutex |}) id) ;;; ret true
      else modify (om_alter_object (λ _, KMutex free_mutex) id) ;;;
           modify (om_alter_header (hd_set_wait_state WsSignaled) id) ;;;
           modify (om_notify id false) ;;; ret true
  | _ => ret false
  end.

Definition release_semaphore (id release_count : Z) : M ObjectManager (option Z) :=
  s <- gets Datatypes.id ;;
  match om_objects s !! id with
  | Some (KSemaphore semaphore) =>
      let previous := sm_count semaphore in
      let count := Z.min (saturating_add u32_max previous release_count) (sm_maximum semaphore) in
      modify (om_alter_object (λ _, KSemaphore {| sm_count := count; sm_maximum := sm_maximum semaphore |}) id) ;;;
      (if negb (count =? previous) then modify (om_notify id false) else ret tt) ;;;
      ret (Some previous)
  | _ => ret None
  end.

Definition owned_by (thread_id : Z) (o : KernelObject) : bool :=
  match o with KMutex mutex => bool_decide (mx_owner_thread_id mutex = Some thread_id) | _ => false end.
Definition abandon (o : KernelObject) : KernelObject :=
  match o with
  | KMutex mutex => KMutex {| mx_owner_thread_id := None; mx_recursion := mx_recursion mutex; mx_abandoned := true |}
  | _ => o
  end.
Definition mark_mutexes_abandoned_by_thread (thread_id : Z) : M ObjectManager unit :=
  s <- gets id ;;
  let abandoned_ids := (filter (λ p, owned_by thread_id p.2) (bt_entries (om_objects s))).*1 in
  modify (om_set_objects ((λ o, if owned_by thread_id o then abandon o else o) <$> om_objects s)) ;;;
  for_each abandoned_ids (λ id,
    modify (om_alter_header (hd_set_wait_state WsAbandoned) id) ;;;
    modify (om_notify id false)).
