(* ===== verification/Win32.v ===== *)
(** * Handles and dispatcher objects of the Win32 subsystem ([win32.rs])

    The operations of [Win32Subsystem] on handles, events, mutexes, semaphores,
    timers, threads, asynchronous procedure calls and waits, over the handle table
    and the object manager.  What the subsystem keeps of files, pipes and completion
    ports is the type [O], and what closing a handle asks of it is the class
    [Win32Rest]. *)

From S2P Require Import Prelude Strings Win32Types HandleTable KernelObjects.

Record ThreadState := {
  ts_exit_code : option Z; ts_priority : Z; ts_tls : gmap Z Z; ts_suspend_count : Z; ts_terminated : bool; ts_fiber_id : Z }.
Definition new_thread_state (exit_code : option Z) (priority : Z) : ThreadState :=
  {| ts_exit_code := exit_code; ts_priority := priority; ts_tls := ∅; ts_suspend_count := 0; ts_terminated := false; ts_fiber_id := 0 |}.
Definition ts_set_exit (exit_code : Z) (t : ThreadState) : ThreadState :=
  {| ts_exit_code := Some exit_code; ts_priority := ts_priority t; ts_tls := ts_tls t; ts_suspend_count := ts_suspend_count t;
     ts_terminated := ts_terminated t; ts_fiber_id := ts_fiber_id t |}.
Definition ts_set_terminated (t : ThreadState) : ThreadState :=
  {| ts_exit_code := ts_exit_code t; ts_priority := ts_priority t; ts_tls := ts_tls t; ts_suspend_count := ts_suspend_count t;
     ts_terminated := true; ts_fiber_id := ts_fiber_id t |}.
Definition ts_set_suspend (n : Z) (t : ThreadState) : ThreadState :=
  {| ts_exit_code := ts_exit_code t; ts_priority := ts_priority t; ts_tls := ts_tls t; ts_suspend_count := n;
     ts_terminated := ts_terminated t; ts_fiber_id := ts_fiber_id t |}.
Definition ts_set_priority (n : Z) (t : ThreadState) : ThreadState :=
  {| ts_exit_code := ts_exit_code t; ts_priority := n; ts_tls := ts_tls t; ts_suspend_count := ts_suspend_count t;
     ts_terminated := ts_terminated t; ts_fiber_id := ts_fiber_id t |}.

Inductive ApcKind := ApcUser | ApcKernel.
Record ApcRequest := { ap_callback : Z; ap_context : Z; ap_kind : ApcKind; ap_token : option str; ap_sequence : Z }.
Record ApcCounters := { ac_queued : Z; ac_delivered : Z; ac_alertable_waits : Z }.

Record Win32Subsystem (O : Type) := {
  ws_table : HandleTable; ws_objects : ObjectManager;
  ws_threads : gmap Z ThreadState; ws_next_thread_id : Z; ws_current_thread_id : Z;
  ws_thread_apcs : gmap Z (list ApcRequest); ws_apc_counters : ApcCounters; ws_next_apc_sequence : Z;
  ws_ticks_ms : Z;
  ws_exit_syncs : gmap Z Z;
  ws_exited : list Z;
  ws_rest : O }.
Arguments ws_table {O} _.
Arguments ws_objects {O} _.
Arguments ws_threads {O} _.
Arguments ws_next_thread_id {O} _.
Arguments ws_current_thread_id {O} _.
Arguments ws_thread_apcs {O} _.
Arguments ws_apc_counters {O} _.
Arguments ws_next_apc_sequence {O} _.
Arguments ws_ticks_ms {O} _.
Arguments ws_exit_syncs {O} _.
Arguments ws_exited {O} _.
Arguments ws_rest {O} _.

(** What closing a handle asks of the rest of the subsystem.  [wr_close_file] closes
    the claim of the game environment with the last handle and deletes the file that
    is to be deleted; [wr_close_port] closes the port of an object;
    [wr_forget_association] the completion port of a handle; [wr_forget_thread] the
    apartment and the port slots of a thread; [wr_close_pipe] tells the peers. *)
Class Win32Rest (O : Type) := {
  wr_close_file : Z → bool → M O unit;
  wr_close_port : Z → O → O;
  wr_forget_association : Z → O → O;
  wr_forget_thread : Z → O → O;
  wr_close_pipe : Z → Z → M (Win32Subsystem O) unit }.

Section win32.
Context {O : Type} `{R : !Win32Rest O}.
#[local] Abbreviation W := (Win32Subsystem O).
Implicit Types (w : W) (handle thread_id : Z).

Definition ws_set_table (t : HandleTable) (w : W) : W :=
  {| ws_table := t; ws_objects := ws_objects w; ws_threads := ws_threads w; ws_next_thread_id := ws_next_thread_id w;
     ws_current_thread_id := ws_current_thread_id w; ws_thread_apcs := ws_thread_apcs w; ws_apc_counters := ws_apc_counters w;
     ws_next_apc_sequence := ws_next_apc_sequence w; ws_ticks_ms := ws_ticks_ms w; ws_exit_syncs := ws_exit_syncs w;
     ws_exited := ws_exited w; ws_rest := ws_rest w |}.
Definition ws_set_objects (o : ObjectManager) (w : W) : W :=
  {| ws_table := ws_table w; ws_objects := o; ws_threads := ws_threads w; ws_next_thread_id := ws_next_thread_id w;
     ws_current_thread_id := ws_current_thread_id w; ws_thread_apcs := ws_thread_apcs w; ws_apc_counters := ws_apc_counters w;
     ws_next_apc_sequence := ws_next_apc_sequence w; ws_ticks_ms := ws_ticks_ms w; ws_exit_syncs := ws_exit_syncs w;
     ws_exited := ws_exited w; ws_rest := ws_rest w |}.
Definition ws_set_threads (m : gmap Z ThreadState) (w : W) : W :=
  {| ws_table := ws_table w; ws_objects := ws_objects w; ws_threads := m; ws_next_thread_id := ws_next_thread_id w;
     ws_current_thread_id := ws_current_thread_id w; ws_thread_apcs := ws_thread_apcs w; ws_apc_counters := ws_apc_counters w;
     ws_next_apc_sequence := ws_next_apc_sequence w; ws_ticks_ms := ws_ticks_ms w; ws_exit_syncs := ws_exit_syncs w;
     ws_exited := ws_exited w; ws_rest := ws_rest w |}.
Definition ws_set_thread_ids (next current : Z) (w : W) : W :=
  {| ws_table := ws_table w; ws_objects := ws_objects w; ws_threads := ws_threads w; ws_next_thread_id := next;
     ws_current_thread_id := current; ws_thread_apcs := ws_thread_apcs w; ws_apc_counters := ws_apc_counters w;
     ws_next_apc_sequence := ws_next_apc_sequence w; ws_ticks_ms := ws_ticks_ms w; ws_exit_syncs := ws_exit_syncs w;
     ws_exited := ws_exited w; ws_rest := ws_rest w |}.
Definition ws_set_apcs (m : gmap Z (list ApcRequest)) (c : ApcCounters) (n : Z) (w : W) : W :=
  {| ws_table := ws_table w; ws_objects := ws_objects w; ws_threads := ws_threads w; ws_next_thread_id := ws_next_thread_id w;
     ws_current_thread_id := ws_current_thread_id w; ws_thread_apcs := m; ws_apc_counters := c;
     ws_next_apc_sequence := n; ws_ticks_ms := ws_ticks_ms w; ws_exit_syncs := ws_exit_syncs w;
     ws_exited := ws_exited w; ws_rest := ws_rest w |}.
Definition ws_set_ticks (x : Z) (w : W) : W :=
  {| ws_table := ws_table w; ws_objects := ws_objects w; ws_threads := ws_threads w; ws_next_thread_id := ws_next_thread_id w;
     ws_current_thread_id := ws_current_thread_id w; ws_thread_apcs := ws_thread_apcs w; ws_apc_counters := ws_apc_counters w;
     ws_next_apc_sequence := ws_next_apc_sequence w; ws_ticks_ms := x; ws_exit_syncs := ws_exit_syncs w;
     ws_exited := ws_exited w; ws_rest := ws_rest w |}.
Definition ws_set_syncs (m : gmap Z Z) (w : W) : W :=
  {| ws_table := ws_table w; ws_objects := ws_objects w; ws_threads := ws_threads w; ws_next_thread_id := ws_next_thread_id w;
     ws_current_thread_id := ws_current_thread_id w; ws_thread_apcs := ws_thread_apcs w; ws_apc_counters := ws_apc_counters w;
     ws_next_apc_sequence := ws_next_apc_sequence w; ws_ticks_ms := ws_ticks_ms w; ws_exit_syncs := m;
     ws_exited := ws_exited w; ws_rest := ws_rest w |}.
Definition ws_set_exited (l : list Z) (w : W) : W :=
  {| ws_table := ws_table w; ws_objects := ws_objects w; ws_threads := ws_threads w; ws_next_thread_id := ws_next_thread_id w;
     ws_current_thread_id := ws_current_thread_id w; ws_thread_apcs := ws_thread_apcs w; ws_apc_counters := ws_apc_counters w;
     ws_next_apc_sequence := ws_next_apc_sequence w; ws_ticks_ms := ws_ticks_ms w; ws_exit_syncs := ws_exit_syncs w;
     ws_exited := l; ws_rest := ws_rest w |}.
Definition ws_set_rest (r : O) (w : W) : W :=
  {| ws_table := ws_table w; ws_objects := ws_objects w; ws_threads := ws_threads w; ws_next_thread_id := ws_next_thread_id w;
     ws_current_thread_id := ws_current_thread_id w; ws_thread_apcs := ws_thread_apcs w; ws_apc_counters := ws_apc_counters w;
     ws_next_apc_sequence := ws_next_apc_sequence w; ws_ticks_ms := ws_ticks_ms w; ws_exit_syncs := ws_exit_syncs w;
     ws_exited := ws_exited w; ws_rest := r |}.

Definition on_table {A} (c : M HandleTable A) : M W A := zoom ws_table ws_set_table c.
Definition on_objects {A} (c : M ObjectManager A) : M W A := zoom ws_objects ws_set_objects c.
Definition on_rest (f : O → O) : M W unit := modify (λ w, ws_set_rest (f (ws_rest w)) w).

Definition new_win32 (next_object_id : Z) (rest : O) : W :=
  {| ws_table := new_table; ws_objects := new_manager next_object_id; ws_threads := ∅; ws_next_thread_id := 2;
     ws_current_thread_id := 1; ws_thread_apcs := ∅;
     ws_apc_counters := {| ac_queued := 0; ac_delivered := 0; ac_alertable_waits := 0 |}; ws_next_apc_sequence := 1;
     ws_ticks_ms := 0; ws_exit_syncs := ∅; ws_exited := []; ws_rest := rest |}.
Definition set_current_thread_id (thread_id : Z) : M W Z :=
  w <- gets id ;; modify (ws_set_thread_ids (ws_next_thread_id w) thread_id) ;;; ret (ws_current_thread_id w).

(** ** Handles *)

(** The subsystem's [HandleEntry]: the entry and the object behind it. *)
Record HandleView := {
  hv_object_id : Z; hv_object_type : Win32ObjectType; hv_access_mask : Z; hv_refcount : Z; hv_inheritable : bool;
  hv_object : KernelObject }.
Definition handle_entry (handle : Z) : M W HandleView :=
  e <- on_table (entry handle) ;;
  let id := hn_object_id e in
  ty <- on_objects (object_type id) ;;
  w <- gets Datatypes.id ;;
  o <- on_objects (object_of id) ;;
  ret {| hv_object_id := id; hv_object_type := ty; hv_access_mask := hn_access_mask e;
         hv_refcount := handle_count id (ws_objects w); hv_inheritable := hn_inheritable e; hv_object := o |}.
Definition describe_handle := handle_entry.
Definition handle_object_type (handle : Z) : M W Win32ObjectType := e <- handle_entry handle ;; ret (hv_object_type e).
Definition handle_object (handle : Z) : M W (Z * KernelObject) :=
  e <- on_table (entry handle) ;; o <- on_objects (object_of (hn_object_id e)) ;; ret (hn_object_id e, o).
Definition handle_object_identity (handle : Z) : M W Z := e <- on_table (entry handle) ;; ret (hn_object_id e).

(** Any of the bits of [required] is enough. *)
Definition require_access (e : HandleView) (required : Z) : M W unit :=
  fail_if (Z.land (hv_access_mask e) required =? 0) RcHelperPermissionDenied.

Definition insert_object_id (object_id access_mask : Z) (inheritable : bool) : M W Z :=
  ty <- on_objects (object_type object_id) ;;
  handle <- on_table (insert_handle object_id access_mask inheritable) ;;
  on_table (modify (record_history handle ty)) ;;;
  on_objects (modify (handle_added object_id)) ;;;
  ret handle.
Definition insert_object_named (ty : Win32ObjectType) (name : option str) (access_mask : Z) (inheritable : bool)
    (object : KernelObject) : M W Z :=
  object_id <- on_objects (insert_kernel_object ty name None object) ;;
  insert_object_id object_id access_mask inheritable.
Definition insert_object (ty : Win32ObjectType) (access_mask : Z) (inheritable : bool) (object : KernelObject) : M W Z :=
  insert_object_named ty None access_mask inheritable object.

(** The lowest live handle of an object. *)
Definition find_handle_for_object (object_id : Z) (w : W) : option Z :=
  fst <$> List.find (λ p, hn_object_id p.2 =? object_id) (bt_entries (ht_entries (ws_table w))).

Definition win32_set_handle_information (handle mask flags : Z) : M W unit := on_table (set_handle_information handle mask flags).

(** ** Threads *)

Definition thread_id_of (handle : Z) : M W Z :=
  e <- handle_entry handle ;;
  match hv_object e with KThread thread_id => ret thread_id | _ => throw RcWin32InvalidHandle end.
Definition ensure_thread_state (thread_id : Z) : M W unit :=
  modify (λ w, match ws_threads w !! thread_id with
               | Some _ => w
               | None => ws_set_threads (<[thread_id := new_thread_state None 0]> (ws_threads w)) w
               end).
Definition thread_state (thread_id : Z) : M W ThreadState :=
  w <- gets id ;; ok_or (ws_threads w !! thread_id) RcWin32InvalidHandle.
Definition thread_exists (thread_id : Z) (w : W) : bool := (thread_id =? 1) || bool_decide (is_Some (ws_threads w !! thread_id)).
Definition alter_thread (f : ThreadState → ThreadState) (thread_id : Z) : M W unit :=
  modify (λ w, ws_set_threads (alter f thread_id (ws_threads w)) w).
Definition has_exited (thread_id : Z) (w : W) : bool :=
  match ws_threads w !! thread_id with Some t => bool_decide (is_Some (ts_exit_code t)) | None => false end.

(** Whether some handle names an object of this thread; an object that is not there
    panics. *)
Definition is_thread_object (thread_id : Z) (o : KernelObject) : bool :=
  match o with KThread t => t =? thread_id | _ => false end.
Fixpoint any_thread_handle (thread_id : Z) (entries : list HandleEntry) : M W bool :=
  match entries with
  | [] => ret false
  | e :: entries =>
      o <- on_objects (object_of (hn_object_id e)) ;;
      if is_thread_object thread_id o then ret true else any_thread_handle thread_id entries
  end.
Definition cleanup_exited_thread_state (thread_id : Z) : M W unit :=
  w <- gets id ;;
  if thread_id =? ws_current_thread_id w then ret tt
  else
    named <- any_thread_handle thread_id (bt_values (ht_entries (ws_table w))) ;;
    if (named : bool) then ret tt
    else if has_exited thread_id w
    then modify (λ w, ws_set_threads (delete thread_id (ws_threads w)) w) ;;;
         modify (λ w, ws_set_apcs (delete thread_id (ws_thread_apcs w)) (ws_apc_counters w) (ws_next_apc_sequence w) w) ;;;
         on_rest (wr_forget_thread thread_id)
    else ret tt.

Definition mark_owned_mutexes_abandoned (thread_id : Z) : M W unit := on_objects (mark_mutexes_abandoned_by_thread thread_id).
Definition set_thread_exit_code_by_id (thread_id exit_code : Z) : M W unit :=
  ensure_thread_state thread_id ;;;
  thread_state thread_id ;;;
  alter_thread (ts_set_exit exit_code) thread_id ;;;
  modify (λ w, ws_set_exited (ws_exited w ++ [thread_id]) w) ;;;
  mark_owned_mutexes_abandoned thread_id ;;;
  cleanup_exited_thread_state thread_id.
Definition set_thread_exit_code (handle exit_code : Z) : M W unit :=
  thread_id <- thread_id_of handle ;; set_thread_exit_code_by_id thread_id exit_code.
Definition exit_thread (handle exit_code : Z) : M W unit :=
  thread_id <- thread_id_of handle ;; set_thread_exit_code_by_id thread_id exit_code.

(** The plan of a thread: its exit code, its priority, whether it is signaled. *)
Definition create_thread (exit_code : option Z) (priority : Z) (signaled inheritable : bool) : M W Z :=
  w <- gets id ;;
  let thread_id := ws_next_thread_id w in
  next <- add_at u32_max thread_id 1 ;;
  modify (ws_set_thread_ids next (ws_current_thread_id w)) ;;;
  modify (λ w, ws_set_threads (<[thread_id := new_thread_state (if signaled then exit_code else None) priority]> (ws_threads w)) w) ;;;
  insert_object OtThread 0x1F03FF inheritable (KThread thread_id).
Definition open_thread (thread_id desired_access : Z) (inheritable : bool) : M W (option Z) :=
  w <- gets id ;;
  if negb (thread_exists thread_id w) then ret None
  else ensure_thread_state thread_id ;;;
       handle <- insert_object OtThread desired_access inheritable (KThread thread_id) ;; ret (Some handle).
Definition get_exit_code_thread (handle : Z) : M W (option Z) :=
  e <- handle_entry handle ;; require_access e THREAD_QUERY_INFORMATION ;;;
  thread_id <- thread_id_of handle ;; t <- thread_state thread_id ;; ret (ts_exit_code t).
Definition set_thread_priority (handle priority : Z) : M W unit :=
  e <- handle_entry handle ;; require_access e THREAD_SET_INFORMATION ;;;
  thread_id <- thread_id_of handle ;; thread_state thread_id ;;; alter_thread (ts_set_priority priority) thread_id.
Definition get_thread_priority (handle : Z) : M W Z :=
  e <- handle_entry handle ;; require_access e THREAD_QUERY_INFORMATION ;;;
  thread_id <- thread_id_of handle ;; t <- thread_state thread_id ;; ret (ts_priority t).

(** A running thread's suspend count, changed by [f]; the previous count. *)
Definition change_suspend (f : Z → Z) (handle : Z) : M W Z :=
  e <- handle_entry handle ;; require_access e THREAD_SUSPEND_RESUME ;;;
  thread_id <- thread_id_of handle ;; t <- thread_state thread_id ;;
  fail_if (bool_decide (is_Some (ts_exit_code t))) RcWin32AccessDenied ;;;
  alter_thread (ts_set_suspend (f (ts_suspend_count t))) thread_id ;;;
  ret (ts_suspend_count t).
Definition suspend_thread (handle : Z) : M W Z := change_suspend (λ n, saturating_add u32_max n 1) handle.
Definition resume_thread (handle : Z) : M W Z := change_suspend (λ n, saturating_sub n 1) handle.
Definition terminate_thread (handle exit_code : Z) : M W bool :=
  e <- handle_entry handle ;; require_access e THREAD_TERMINATE ;;;
  thread_id <- thread_id_of handle ;; t <- thread_state thread_id ;;
  if bool_decide (is_Some (ts_exit_code t)) then ret false
  else alter_thread (λ t, ts_set_terminated (ts_set_exit exit_code t)) thread_id ;;; ret true.

(** ** Asynchronous procedure calls *)

Definition push_apc (thread_id callback context : Z) (kind : ApcKind) (token : option str) : M W unit :=
  w <- gets id ;;
  let sequence := ws_next_apc_sequence w in
  let counters := ws_apc_counters w in
  queued <- add_at u64_max (ac_queued counters) 1 ;;
  modify (ws_set_apcs
    (<[thread_id := default [] (ws_thread_apcs w !! thread_id) ++
         [{| ap_callback := callback; ap_context := context; ap_kind := kind; ap_token := token; ap_sequence := sequence |}]]>
       (ws_thread_apcs w))
    {| ac_queued := queued; ac_delivered := ac_delivered counters; ac_alertable_waits := ac_alertable_waits counters |}
    (saturating_add u64_max sequence 1)).
Definition queue_apc (thread_handle : Z) (token : str) : M W unit :=
  thread_id <- thread_id_of thread_handle ;; push_apc thread_id 0 0 ApcUser (Some token).
Definition queue_user_apc (thread_handle callback context : Z) : M W unit :=
  thread_id <- thread_id_of thread_handle ;; push_apc thread_id callback context ApcUser None.
Definition queue_kernel_apc (thread_handle callback context : Z) : M W unit :=
  thread_id <- thread_id_of thread_handle ;; push_apc thread_id callback context ApcKernel None.
Definition pending_apc_count (thread_id : Z) (w : W) : Z := Z.of_nat (length (default [] (ws_thread_apcs w !! thread_id))).

Definition take_pending_apcs (thread_id : Z) : M W (list ApcRequest) :=
  w <- gets id ;;
  match ws_thread_apcs w !! thread_id with
  | None => ret []
  | Some delivered =>
      let counters := ws_apc_counters w in
      modify (ws_set_apcs (<[thread_id := []]> (ws_thread_apcs w)) counters (ws_next_apc_sequence w)) ;;;
      (match delivered with
       | [] => ret tt
       | _ => total <- add_at u64_max (ac_delivered counters) (Z.of_nat (length delivered)) ;;
              modify (ws_set_apcs (<[thread_id := []]> (ws_thread_apcs w))
                {| ac_queued := ac_queued counters; ac_delivered := total; ac_alertable_waits := ac_alertable_waits counters |}
                (ws_next_apc_sequence w))
       end) ;;;
      ret delivered
  end.
Definition take_pending_apcs_for_handle (thread_handle : option Z) : M W (list ApcRequest) :=
  thread_id <- (match thread_handle with Some h => thread_id_of h | None => gets ws_current_thread_id end) ;;
  take_pending_apcs thread_id.
Definition count_alertable : M W unit :=
  w <- gets id ;;
  let counters := ws_apc_counters w in
  n <- add_at u64_max (ac_alertable_waits counters) 1 ;;
  modify (ws_set_apcs (ws_thread_apcs w)
    {| ac_queued := ac_queued counters; ac_delivered := ac_delivered counters; ac_alertable_waits := n |} (ws_next_apc_sequence w)).
Definition STATUS_USER_APC : Z := 0xC0.
Definition test_alert : M W (Z * list ApcRequest) :=
  w <- gets id ;;
  apcs <- take_pending_apcs (ws_current_thread_id w) ;;
  match apcs with [] => ret (0, []) | _ => count_alertable ;;; ret (STATUS_USER_APC, apcs) end.

(** ** Events *)

Definition create_event (manual_reset initial_state inheritable : bool) (name : option str) : M W (Z * bool) :=
  w <- gets id ;;
  match n ← name; resolve n (ws_objects w) with
  | Some event_id => handle <- insert_object_id event_id 0x1F0003 inheritable ;; ret (handle, true)
  | None =>
      handle <- insert_object_named OtEvent name 0x1F0003 inheritable
        (KEvent {| eo_manual_reset := manual_reset; eo_signaled := initial_state |}) ;;
      ret (handle, false)
  end.
Definition open_event (desired_access : Z) (inheritable : bool) (name : str) : M W Z :=
  w <- gets id ;; event_id <- ok_or (resolve name (ws_objects w)) RcFsNotFound ;;
  insert_object_id event_id desired_access inheritable.
Definition open_named_event (name : str) : M W (option Z) :=
  w <- gets id ;;
  match resolve name (ws_objects w) with
  | None => ret None
  | Some object_id => handle <- insert_object_id object_id 0x1F0003 false ;; ret (Some handle)
  end.

Definition is_event (o : KernelObject) : bool := match o with KEvent _ => true | _ => false end.
Definition is_mutex (o : KernelObject) : bool := match o with KMutex _ => true | _ => false end.
Definition is_semaphore (o : KernelObject) : bool := match o with KSemaphore _ => true | _ => false end.

(** A handle to an object of the kind, opened with the access; its object. *)
Definition checked_handle (kind : KernelObject → bool) (access handle : Z) : M W Z :=
  e <- handle_entry handle ;;
  (if kind (hv_object e) then require_access e access else throw RcWin32InvalidHandle) ;;;
  handle_object_identity handle.

Definition set_event (handle : Z) : M W unit :=
  object_id <- checked_handle is_event EVENT_MODIFY_STATE handle ;;
  done <- on_objects (signal_event object_id) ;; fail_if (negb done) RcWin32InvalidHandle.
Definition win32_reset_event (handle : Z) : M W unit :=
  object_id <- checked_handle is_event EVENT_MODIFY_STATE handle ;;
  done <- on_objects (reset_event object_id) ;; fail_if (negb done) RcWin32InvalidHandle.
Definition event_previous_state (handle : Z) : M W bool :=
  e <- handle_entry handle ;;
  match hv_object e with
  | KEvent event => require_access e EVENT_MODIFY_STATE ;;; ret (eo_signaled event)
  | _ => throw RcWin32InvalidHandle
  end.
Definition signal_event_if_needed (event_handle : option Z) : M W unit :=
  match event_handle with Some handle => set_event handle | None => ret tt end.

(** ** Mutexes, semaphores and timers *)

Definition fresh_mutex (initially_owned : bool) (w : W) : KernelObject :=
  KMutex {| mx_owner_thread_id := if initially_owned then Some (ws_current_thread_id w) else None; mx_recursion := 0;
            mx_abandoned := false |}.
Definition create_mutex (initially_owned inheritable : bool) : M W Z :=
  w <- gets id ;; insert_object OtMutex 0x1F0001 inheritable (fresh_mutex initially_owned w).
Definition abandon_mutex (handle : Z) : M W unit :=
  '(object_id, o) <- handle_object handle ;;
  if is_mutex o then on_objects (modify (om_alter_object abandon object_id)) else throw RcWin32InvalidHandle.
Definition win32_release_mutex (handle : Z) : M W unit :=
  object_id <- checked_handle is_mutex MUTEX_MODIFY_STATE handle ;;
  w <- gets id ;;
  done <- on_objects (release_mutex object_id (ws_current_thread_id w)) ;; fail_if (negb done) RcWin32NotOwner.

Definition create_semaphore (initial_count maximum : Z) (inheritable : bool) : M W Z :=
  insert_object OtSemaphore 0x1F0003 inheritable (KSemaphore {| sm_count := initial_count; sm_maximum := maximum |}).
Definition win32_release_semaphore (handle release_count : Z) : M W Z :=
  object_id <- checked_handle is_semaphore SEMAPHORE_MODIFY_STATE handle ;;
  previous <- on_objects (release_semaphore object_id release_count) ;; ok_or previous RcWin32InvalidHandle.

Definition create_timer (due_tick : Z) (inheritable : bool) : M W Z :=
  insert_object OtTimer 0x1F0003 inheritable (KTimer {| tm_due_tick := due_tick; tm_signaled := false |}).
Definition set_waitable_timer (handle due_tick : Z) : M W unit :=
  '(object_id, o) <- handle_object handle ;;
  match o with
  | KTimer _ => on_objects (modify (om_alter_object (λ _, KTimer {| tm_due_tick := due_tick; tm_signaled := false |}) object_id))
  | _ => throw RcWin32InvalidHandle
  end.

(** A named object of the kind that is there already is answered by the lowest of its
    handles; a name held by another kind of object changes hands. *)
Definition create_named (kind : KernelObject → bool) (name : str) (ty : Win32ObjectType) (access : Z) (inheritable : bool)
    (object : KernelObject) : M W (Z * bool) :=
  w <- gets id ;;
  existing <- (match resolve name (ws_objects w) with
               | None => ret None
               | Some object_id =>
                   o <- on_objects (object_of object_id) ;;
                   ret (if kind o then find_handle_for_object object_id w else None)
               end) ;;
  match existing with
  | Some handle => ret (handle, true)
  | None => handle <- insert_object_named ty (Some name) access inheritable object ;; ret (handle, false)
  end.
Definition create_named_mutex (name : str) (initially_owned inheritable : bool) : M W (Z * bool) :=
  w <- gets id ;; create_named is_mutex name OtMutex 0x1F0001 inheritable (fresh_mutex initially_owned w).
Definition create_named_semaphore (name : str) (initial_count maximum : Z) (inheritable : bool) : M W (Z * bool) :=
  create_named is_semaphore name OtSemaphore 0x1F0003 inheritable (KSemaphore {| sm_count := initial_count; sm_maximum := maximum |}).
Definition open_named (name : str) (w : W) : option Z :=
  object_id ← resolve name (ws_objects w); find_handle_for_object object_id w.
Definition open_named_mutex := open_named.
Definition open_named_semaphore := open_named.

(** ** Duplicating and closing *)

Definition insert_socket : M W Z :=
  handle <- insert_object OtSocket 0 false (KSocket 0) ;;
  '(object_id, _) <- handle_object handle ;;
  on_objects (modify (om_alter_object (λ o, match o with KSocket _ => KSocket handle | _ => o end) object_id)) ;;;
  ret handle.
Definition socket_id (handle : Z) : M W Z :=
  '(_, o) <- handle_object handle ;; match o with KSocket id => ret id | _ => throw RcWin32InvalidHandle end.

Definition close_handle (handle : Z) : M W unit :=
  e <- on_table (entry handle) ;;
  let id := hn_object_id e in
  ty <- on_objects (object_type id) ;;
  w <- gets Datatypes.id ;;
  let last_handle := handle_count id (ws_objects w) =? 1 in
  object <- on_objects (object_of id) ;;
  fail_if (bool_decide (ty = OtSocket)) RcWin32InvalidHandle ;;;
  (match object with
   | KFile payload => zoom ws_rest ws_set_rest (wr_close_file payload last_handle)
   | KPipe payload => wr_close_pipe handle payload
   | _ => ret tt
   end) ;;;
  removed <- on_table (close handle ty) ;;
  (match object with
   | KIoCompletionPort _ => if last_handle then on_rest (wr_close_port (hn_object_id removed)) else ret tt
   | _ => ret tt
   end) ;;;
  on_rest (wr_forget_association handle) ;;;
  on_objects (handle_removed (hn_object_id removed)) ;;;
  match object with KThread thread_id => cleanup_exited_thread_state thread_id | _ => ret tt end.

Definition duplicate_handle (source_handle desired_access : Z) (inheritable same_access close_source : bool) : M W Z :=
  source <- handle_entry source_handle ;;
  fail_if (bool_decide (hv_object_type source = OtSocket)) RcWin32InvalidHandle ;;;
  access_mask <- (if same_access || (desired_access =? 0) then ret (hv_access_mask source)
                  else fail_if (negb (Z.land desired_access (not_u32 (hv_access_mask source)) =? 0)) RcHelperPermissionDenied ;;;
                       ret desired_access) ;;
  duplicated <- on_table (duplicate source_handle access_mask inheritable) ;;
  e <- on_table (t <- gets id ;; expect (get_entry duplicated t)) ;;
  on_objects (modify (handle_added (hn_object_id e))) ;;;
  (if close_source then close_handle source_handle else ret tt) ;;;
  ret duplicated.

Definition close_socket (handle : Z) : M W Z :=
  id <- socket_id handle ;;
  removed <- on_table (close_raw handle) ;;
  on_objects (handle_removed (hn_object_id removed)) ;;;
  ret id.
End win32.
