(* ===== verification/Win32Wait.v ===== *)
(** * Waits of the Win32 subsystem ([win32.rs])

    Polls, waits for one object, the atomic wait for all, and the loop of
    [wait_for_multiple_objects].  The exit of a child process arrives from a worker
    thread of the host through a shared cell: the codes that arrive while a wait
    sleeps are an argument of it. *)

From S2P Require Import Prelude Strings Win32Types HandleTable KernelObjects Win32.

Section waits.
Context {O : Type} `{R : !Win32Rest O}.
#[local] Abbreviation W := (Win32Subsystem O).
Implicit Types (w : W) (handle : Z).

(** [terminate_process] and [install_process_exit_sync] reach the payload. *)
Definition install_process_exit_sync (handle sync : Z) : M W unit :=
  '(object_id, o) <- handle_object handle ;;
  match o with
  | KProcess p => on_objects (modify (om_alter_object
      (λ _, KProcess {| po_process_id := po_process_id p; po_exit_code := po_exit_code p; po_exit_sync := Some sync |}) object_id))
  | _ => throw RcWin32InvalidHandle
  end.

Definition waitable_type (ty : Win32ObjectType) : bool :=
  match ty with OtEvent | OtMutex | OtSemaphore | OtThread | OtTimer | OtProcess => true | _ => false end.

(** Only waitable objects, and only with [SYNCHRONIZE]. *)
Definition require_waitable (ty : Win32ObjectType) (handle : Z) : M W unit :=
  if waitable_type ty then e <- handle_entry handle ;; require_access e SYNCHRONIZE else throw RcWin32InvalidHandle.

Definition wait_object_satisfiable (handle : Z) (ty : Win32ObjectType) (current_thread_id : Z) : M W WaitSatisfaction :=
  w <- gets id ;;
  require_waitable ty handle ;;;
  match ty with
  | OtThread =>
      thread_id <- thread_id_of handle ;; t <- thread_state thread_id ;;
      ret (match ts_exit_code t with Some _ => SatSignaled | None => SatNotSignaled end)
  | OtProcess =>
      e <- handle_entry handle ;;
      match hv_object e with
      | KProcess p => ret (match po_exit_code p with Some _ => SatSignaled | None => SatNotSignaled end)
      | _ => throw RcWin32InvalidHandle
      end
  | _ =>
      object_id <- handle_object_identity handle ;;
      w <- gets id ;;
      ret (wait_satisfaction object_id current_thread_id (ws_ticks_ms w) (ws_objects w))
  end.

Definition wait_for_single_object_instant (handle : Z) (ty : Win32ObjectType) (current_thread_id : Z) : M W WaitStatus :=
  require_waitable ty handle ;;;
  match ty with
  | OtThread =>
      thread_id <- thread_id_of handle ;; t <- thread_state thread_id ;;
      ret (match ts_exit_code t with Some _ => WaitObject0 | None => WaitTimeout end)
  | OtProcess =>
      e <- handle_entry handle ;;
      match hv_object e with
      | KProcess p => ret (match po_exit_code p with Some _ => WaitObject0 | None => WaitTimeout end)
      | _ => throw RcWin32InvalidHandle
      end
  | _ =>
      object_id <- handle_object_identity handle ;;
      w <- gets id ;;
      on_objects (consume_wait object_id current_thread_id (ws_ticks_ms w))
  end.

(** The exit code recorded on the process object, unless one is there. *)
Definition record_exit (code : Z) (o : KernelObject) : KernelObject :=
  match o with
  | KProcess p =>
      match po_exit_code p with
      | None => KProcess {| po_process_id := po_process_id p; po_exit_code := Some code; po_exit_sync := po_exit_sync p |}
      | Some _ => o
      end
  | _ => o
  end.

(** [arrived] is the code the worker stores while the condition variable is waited
    on, before the timeout. *)
Definition wait_for_single_object_process (handle timeout_ms : Z) (arrived : option Z) : M W WaitStatus :=
  e <- handle_entry handle ;;
  match hv_object e with
  | KProcess p =>
      require_access e SYNCHRONIZE ;;;
      match po_exit_code p, po_exit_sync p with
      | Some _, _ => ret WaitObject0
      | None, None => ret WaitTimeout
      | None, Some sync =>
          w <- gets id ;;
          (match ws_exit_syncs w !! sync, arrived with
           | None, Some code => if negb (timeout_ms =? 0) then modify (ws_set_syncs (<[sync := code]> (ws_exit_syncs w))) else ret tt
           | _, _ => ret tt
           end) ;;;
          w <- gets id ;;
          match ws_exit_syncs w !! sync with
          | Some code => on_objects (modify (om_alter_object (record_exit code) (hv_object_id e))) ;;; ret WaitObject0
          | None => ret WaitTimeout
          end
      end
  | _ => throw RcWin32InvalidHandle
  end.

Definition wait_for_single_object (handle timeout_ms : Z) (alertable : bool) (thread_handle arrived : option Z) : M W WaitStatus :=
  w <- gets id ;;
  let current_thread_id := ws_current_thread_id w in
  apcs <- (if alertable then take_pending_apcs_for_handle thread_handle else ret []) ;;
  match apcs with
  | _ :: _ => count_alertable ;;; ret WaitIoCompletion
  | [] =>
      ty <- handle_object_type handle ;;
      if bool_decide (ty = OtProcess) then wait_for_single_object_process handle timeout_ms arrived
      else wait_for_single_object_instant handle ty current_thread_id
  end.

(** ** Waiting for all, atomically *)

Fixpoint all_satisfiable (handles : list Z) (current_thread_id : Z) (any_abandoned : bool) : M W (option bool) :=
  match handles with
  | [] => ret (Some any_abandoned)
  | handle :: handles =>
      ty <- handle_object_type handle ;;
      sat <- wait_object_satisfiable handle ty current_thread_id ;;
      match sat with
      | SatSignaled => all_satisfiable handles current_thread_id any_abandoned
      | SatAbandoned => all_satisfiable handles current_thread_id true
      | SatNotSignaled => ret None
      end
  end.
Definition consume_handle (current_thread_id handle : Z) : M W unit :=
  ty <- handle_object_type handle ;;
  match ty with
  | OtThread | OtProcess => ret tt
  | _ =>
      object_id <- handle_object_identity handle ;;
      w <- gets id ;;
      on_objects (consume_wait object_id current_thread_id (ws_ticks_ms w)) ;;; ret tt
  end.
Definition consume_wait_set (handles : list Z) (current_thread_id : Z) : M W unit :=
  for_each handles (consume_handle current_thread_id).
Definition evaluate_wait_all (handles : list Z) (current_thread_id : Z) : M W (option WaitStatus) :=
  sat <- all_satisfiable handles current_thread_id false ;;
  match sat with
  | None => ret None
  | Some any_abandoned =>
      consume_wait_set handles current_thread_id ;;;
      ret (Some (if any_abandoned : bool then WaitAbandoned else WaitObject0))
  end.

(** ** The loop over several objects *)

Definition handle_is_signaled (handle : Z) : M W bool :=
  e <- handle_entry handle ;;
  (if waitable_type (hv_object_type e) then require_access e SYNCHRONIZE else throw RcWin32InvalidHandle) ;;;
  w <- gets id ;;
  match hv_object e with
  | KThread thread_id => ret (has_exited thread_id w)
  | KProcess p => ret (bool_decide (is_Some (po_exit_code p)))
  | _ => ret (object_is_signaled (hv_object_id e) (ws_current_thread_id w) (ws_ticks_ms w) (ws_objects w))
  end.
Fixpoint all_signaled (handles : list Z) (acc : bool) : M W bool :=
  match handles with
  | [] => ret acc
  | handle :: handles => signaled <- handle_is_signaled handle ;; all_signaled handles (acc && signaled)
  end.
Fixpoint acquire_all (handles : list Z) (abandoned : bool) : M W bool :=
  match handles with
  | [] => ret abandoned
  | handle :: handles =>
      status <- wait_for_single_object handle 0 false None None ;;
      acquire_all handles (match status with WaitAbandoned => true | _ => abandoned end)
  end.
Fixpoint acquire_any (handles : list Z) (i : Z) : M W (option (WaitStatus * Z)) :=
  match handles with
  | [] => ret None
  | handle :: handles =>
      status <- wait_for_single_object handle 0 false None None ;;
      match status with
      | WaitObject0 => ret (Some (WaitObject0, i))
      | WaitAbandoned => ret (Some (WaitAbandoned, i))
      | _ => acquire_any handles (i + 1)
      end
  end.
(** One turn: what it acquired, if it did. *)
Definition wait_turn (handles : list Z) (wait_all : bool) : M W (option (WaitStatus * Z)) :=
  if wait_all then
    ready <- all_signaled handles true ;;
    if ready : bool
    then abandoned <- acquire_all handles false ;;
         ret (Some (if abandoned : bool then WaitAbandoned else WaitObject0, 0))
    else ret None
  else acquire_any handles 0.

(** The millisecond that a turn sleeps, and what arrives meanwhile. *)
Definition sleep_turn (arrivals : gmap Z Z) (w : W) : W :=
  ws_set_ticks (saturating_add u64_max (ws_ticks_ms w) 1) (ws_set_syncs (ws_exit_syncs w ∪ arrivals) w).

(** [Ok None] is a loop that is still running. *)
Fixpoint wait_loop (fuel : nat) (handles : list Z) (wait_all : bool) (timeout_ms : Z) (deadline : option Z)
    (arrivals : nat → gmap Z Z) : M W (option (WaitStatus * Z)) :=
  match fuel with
  | Datatypes.O => ret None
  | S fuel =>
      acquired <- wait_turn handles wait_all ;;
      match acquired with
      | Some r => ret (Some r)
      | None =>
          w <- gets id ;;
          if match deadline with Some d => d <=? ws_ticks_ms w | None => false end then ret (Some (WaitTimeout, usize_max))
          else if timeout_ms =? 0 then ret (Some (WaitTimeout, usize_max))
          else modify (sleep_turn (arrivals fuel)) ;;; wait_loop fuel handles wait_all timeout_ms deadline arrivals
      end
  end.
Definition wait_for_multiple_objects (fuel : nat) (handles : list Z) (wait_all : bool) (timeout_ms : Z) (alertable : bool)
    (thread_handle : option Z) (arrivals : nat → gmap Z Z) : M W (option (WaitStatus * Z)) :=
  w <- gets id ;;
  let deadline := if (timeout_ms =? 0) || (timeout_ms =? u32_max) then None else Some (saturating_add u64_max (ws_ticks_ms w) timeout_ms) in
  apcs <- (if alertable then take_pending_apcs_for_handle thread_handle else ret []) ;;
  match apcs with
  | _ :: _ => count_alertable ;;; ret (Some (WaitIoCompletion, 0))
  | [] => wait_loop fuel handles wait_all timeout_ms deadline arrivals
  end.
End waits.
