(* ===== verification/HandleTableFacts.v ===== *)
(** * The handle table: its invariant, what its operations do, stale references *)

From stdpp Require Import list_numbers.
From S2P Require Import Prelude Win32Types HandleTable.

Module Ht.

(** Values are multiples of four; the values not yet minted start at [ht_next]. *)
Definition minted (t : HandleTable) (handle : Z) : Prop := 4 ≤ handle < ht_next t ∧ handle mod 4 = 0.
Definition next_ok (t : HandleTable) : Prop := ht_next t = u32_max ∨ 4 ≤ ht_next t < u32_max ∧ ht_next t mod 4 = 0.
(** There is a value to hand out. *)
Definition has_room (t : HandleTable) : Prop := ht_closed t ≠ [] ∨ ht_next t < u32_max.

Record ht_ok (t : HandleTable) : Prop := {
  tb_next : next_ok t;
  tb_live : ∀ h e, ht_entries t !! h = Some e → minted t h ∧ hn_generation e = generation_of t h;
  tb_closed : ∀ h, h ∈ ht_closed t → minted t h ∧ ht_entries t !! h = None;
  tb_nodup : NoDup (ht_closed t);
  tb_generation : ∀ h, 0 ≤ generation_of t h ≤ u32_max;
  tb_recent : (length (ht_recent t) ≤ 32)%nat;
  tb_history : Z.of_nat (size (ht_history t)) ≤ 1024 }.

Lemma new_table_ok : ht_ok new_table.
Proof.
  split.
  - right. by vm_compute.
  - intros h e He. simpl in He. by rewrite lookup_empty in He.
  - intros h Hin. by apply not_elem_of_nil in Hin.
  - constructor.
  - intros h. unfold generation_of. simpl. rewrite lookup_empty. by vm_compute.
  - simpl. lia.
  - by vm_compute.
Qed.

(** ** Minting *)

Definition next_handle (t : HandleTable) : Z := match ht_closed t with h :: _ => h | [] => ht_next t end.
Definition taken (t : HandleTable) : HandleTable :=
  match ht_closed t with
  | _ :: rest => ht_set_closed rest t
  | [] => ht_set_next (saturating_add u32_max (ht_next t) 4) t
  end.
Definition fresh_entry (t : HandleTable) (object_id access_mask : Z) (inheritable : bool) : HandleEntry :=
  {| hn_object_id := object_id; hn_generation := generation_of t (next_handle t); hn_access_mask := access_mask;
     hn_inheritable := inheritable; hn_protect_from_close := false |}.
Definition inserted (t : HandleTable) (object_id access_mask : Z) (inheritable : bool) : HandleTable :=
  ht_set_entries (<[next_handle t := fresh_entry t object_id access_mask inheritable]> (ht_entries t)) (taken t).

Lemma insert_value_run t object_id access_mask inheritable :
  insert_handle object_id access_mask inheritable t = Done (Ok (next_handle t)) (inserted t object_id access_mask inheritable).
Proof.
  unfold insert_handle, inserted, fresh_entry, next_value, next_handle, taken. cbn [bind gets]. unfold id.
  by destruct (ht_closed t).
Qed.

Lemma next_handle_fresh t : ht_ok t → has_room t →
  ht_entries t !! next_handle t = None ∧ 4 ≤ next_handle t ∧ next_handle t mod 4 = 0 ∧ next_handle t < u32_max.
Proof.
  intros [Hn Hl Hc Hd _ _ _] Hroom. unfold next_handle, has_room, next_ok, minted in *. destruct (ht_closed t) as [|h rest] eqn:E.
  - destruct Hroom as [?|Hroom]; [done|]. destruct Hn as [Hn|Hn]; [lia|]. split_and!; try lia.
    destruct (ht_entries t !! ht_next t) as [e|] eqn:Ee; [|done]. destruct (Hl _ _ Ee) as [Hm _]. lia.
  - destruct (Hc h) as [Hm He]; [left|]. split_and!; [done|lia..|]. destruct Hn; lia.
Qed.

Lemma inserted_ok t object_id access_mask inheritable :
  ht_ok t → has_room t → ht_ok (inserted t object_id access_mask inheritable).
Proof.
  intros Hok Hroom. destruct (next_handle_fresh t Hok Hroom) as (Hfree & H4 & Hmod & Hlt).
  destruct Hok as [Hn Hl Hc Hd Hg Hr Hh]. unfold inserted, taken, next_handle, minted, next_ok, has_room, u32_max in *.
  destruct (ht_closed t) as [|h rest] eqn:E.
  - assert (4 ≤ ht_next t < 4294967295 ∧ ht_next t mod 4 = 0) as Hnext by (destruct Hn; lia).
    split; try done; cbn [ht_next ht_closed ht_entries ht_set_next ht_set_entries]; rewrite ?E.
    + unfold next_ok, saturating_add, u32_max. cbn [ht_next ht_set_next ht_set_entries].
      destruct (decide (ht_next t = 4294967292)) as [->|Hne]; [left; lia|right].
      assert (ht_next t ≤ 4294967288). { destruct Hnext as [? Hm]. apply Z.mod_divide in Hm as [q Hq]; [|lia]. lia. }
      rewrite Z.min_r by lia. split; [lia|]. rewrite <-Zplus_mod_idemp_r. change (4 mod 4) with 0. rewrite Z.add_0_r. tauto.
    + unfold minted, saturating_add, u32_max. cbn [ht_next ht_set_next ht_set_entries]. intros x e. rewrite lookup_insert_Some. intros [[<- <-]|[Hne He]].
      * split; [lia|]. cbn [fresh_entry hn_generation]. unfold next_handle. by rewrite E.
      * destruct (Hl x e He) as [Hm Hge]. split; [lia|done].
    + intros x Hin. by apply not_elem_of_nil in Hin.
    + constructor.
  - apply NoDup_cons in Hd as [Hnot Hd].
    split; try done; cbn [ht_next ht_closed ht_entries ht_set_closed ht_set_entries].
    + intros x e. rewrite lookup_insert_Some. intros [[<- <-]|[Hne He]]; [|by apply Hl].
      split; [apply Hc; left|]. cbn [fresh_entry hn_generation]. unfold next_handle. by rewrite E.
    + intros x Hx. destruct (Hc x) as [Hm He]; [by right|]. split; [done|]. rewrite lookup_insert_ne; [done|]. intros ->. done.
Qed.

(** ** Closing *)

Definition closed_table (handle : Z) (t : HandleTable) : HandleTable :=
  remember_closed handle
    (ht_set_closed (ht_closed t ++ [handle])
       (ht_set_generations (<[handle := saturating_add u32_max (generation_of t handle) 1]> (ht_generations t))
          (clear_protection handle (ht_set_entries (delete handle (ht_entries t)) t)))).

Lemma close_raw_run handle t :
  close_raw handle t =
    if is_protected handle t then Done (Err RcHelperPermissionDenied) t
    else match ht_entries t !! handle with
         | None => Done (Err RcWin32InvalidHandle) t
         | Some e => Done (Ok e) (closed_table handle t)
         end.
Proof.
  unfold close_raw. cbn [bind gets fail_if]. unfold id. destruct (is_protected handle t); [done|]. cbn [bind ok_or].
  by destruct (ht_entries t !! handle).
Qed.
Lemma close_run handle ty t :
  close handle ty t =
    if is_protected handle t then Done (Err RcHelperPermissionDenied) t
    else if decide (ty = OtSocket) then Done (Err RcWin32InvalidHandle) t
    else match ht_entries t !! handle with
         | None => Done (Err RcWin32InvalidHandle) t
         | Some e => Done (Ok e) (closed_table handle t)
         end.
Proof.
  unfold close. cbn [bind gets fail_if]. unfold id. destruct (is_protected handle t) eqn:E; [done|]. cbn [bind fail_if].
  destruct (decide (ty = OtSocket)) as [->|Hne]; [done|]. rewrite bool_decide_eq_false_2 by done. cbn [bind]. by rewrite close_raw_run, E.
Qed.

Lemma generation_closed handle t h :
  generation_of (closed_table handle t) h =
    if decide (h = handle) then saturating_add u32_max (generation_of t handle) 1 else generation_of t h.
Proof.
  unfold generation_of, closed_table, remember_closed. simpl. destruct (decide (h = handle)) as [->|Hne].
  - by rewrite lookup_insert_eq.
  - by rewrite lookup_insert_ne.
Qed.

Lemma closed_table_ok handle t e : ht_ok t → ht_entries t !! handle = Some e → ht_ok (closed_table handle t).
Proof.
  intros [Hn Hl Hc Hd Hg Hr Hh] He. split; try done.
  - intros h x Hx. change (ht_entries (closed_table handle t)) with (delete handle (ht_entries t)) in Hx.
    apply lookup_delete_Some in Hx as [Hne Hx]. rewrite generation_closed, decide_False by done. by apply Hl.
  - change (ht_closed (closed_table handle t)) with (ht_closed t ++ [handle]).
    change (ht_entries (closed_table handle t)) with (delete handle (ht_entries t)).
    intros h [Hin| ->%list_elem_of_singleton]%elem_of_app.
    + destruct (Hc h Hin) as [Hm Hnone]. split; [done|]. rewrite lookup_delete_None. by right.
    + split; [by apply (Hl handle e)|]. apply lookup_delete_eq.
  - change (ht_closed (closed_table handle t)) with (ht_closed t ++ [handle]). apply NoDup_app. split_and!; [done| |apply NoDup_singleton].
    intros h Hin ->%list_elem_of_singleton. destruct (Hc _ Hin) as [_ Hnone]. by rewrite He in Hnone.
  - intros h. rewrite generation_closed. pose proof (Hg h). pose proof (Hg handle). unfold saturating_add, u32_max in *. case_decide; lia.
  - unfold closed_table, remember_closed. simpl. rewrite length_drop, length_app. simpl. lia.
Qed.

(** ** The other operations *)

Lemma set_information_run handle mask flags t :
  ∃ r, set_handle_information handle mask flags t =
    Done r (match r with
            | Err _ => t
            | Ok _ => ht_set_protected
                (if has_flag mask HANDLE_FLAG_PROTECT_FROM_CLOSE
                 then if has_flag flags HANDLE_FLAG_PROTECT_FROM_CLOSE then {[handle]} ∪ ht_protected t else ht_protected t ∖ {[handle]}
                 else ht_protected t)
                (ht_set_entries
                   (if has_flag mask HANDLE_FLAG_INHERIT
                    then alter (hn_set_inheritable (has_flag flags HANDLE_FLAG_INHERIT)) handle (ht_entries t) else ht_entries t) t)
            end) ∧
    (r = if has_flag mask HANDLE_FLAG_INHERIT && negb (is_live handle t) then Err RcWin32InvalidHandle else Ok tt).
Proof.
  unfold set_handle_information, is_live, entry, get_entry. cbn [bind].
  destruct (has_flag mask HANDLE_FLAG_INHERIT); cbn [bind gets ok_or andb]; unfold id.
  - destruct (ht_entries t !! handle) as [e|] eqn:E; cbn [bind ok_or].
    + rewrite bool_decide_eq_true_2 by done. exists (Ok tt). split; [|done]. destruct t.
      destruct (has_flag mask HANDLE_FLAG_PROTECT_FROM_CLOSE); [destruct (has_flag flags HANDLE_FLAG_PROTECT_FROM_CLOSE)|]; done.
    + rewrite bool_decide_eq_false_2 by (by intros []). by exists (Err RcWin32InvalidHandle).
  - exists (Ok tt). split; [|done]. destruct t. cbn [bind ret].
    destruct (has_flag mask HANDLE_FLAG_PROTECT_FROM_CLOSE); [destruct (has_flag flags HANDLE_FLAG_PROTECT_FROM_CLOSE)|]; done.
Qed.

Lemma alter_inheritable_lookup b handle (m : gmap Z HandleEntry) h e :
  alter (hn_set_inheritable b) handle m !! h = Some e →
  ∃ e0, m !! h = Some e0 ∧ hn_object_id e = hn_object_id e0 ∧ hn_generation e = hn_generation e0 ∧ hn_access_mask e = hn_access_mask e0.
Proof.
  destruct (decide (h = handle)) as [->|Hne].
  - rewrite lookup_alter_eq. destruct (m !! handle) as [e0|]; [|done]. intros [= <-]. by exists e0.
  - rewrite lookup_alter_ne by done. intros ->. by exists e.
Qed.

Lemma history_ok handle ty t : ht_ok t → ht_ok (record_history handle ty t).
Proof.
  intros [Hn Hl Hc Hd Hg Hr Hh]. split; try done. unfold record_history. cbn [ht_history ht_set_history].
  set (m := <[handle:=ty]> (ht_history t)). assert (Z.of_nat (size m) ≤ 1025) as Hm.
  { unfold m. destruct (ht_history t !! handle) eqn:E; [rewrite map_size_insert_Some by done; lia|rewrite map_size_insert_None by done; lia]. }
  destruct (1024 <? Z.of_nat (size m)) eqn:Elt; [|lia]. unfold pop_first. pose proof (length_bt_keys m) as Hk.
  destruct (bt_keys m) as [|k ks] eqn:Ek; [simpl in Hk; lia|].
  assert (is_Some (m !! k)) as [v Hv] by (apply elem_of_bt_keys; rewrite Ek; left).
  rewrite map_size_delete_Some by done. lia.
Qed.

(** ** Stale references *)

Inductive table_step (t t' : HandleTable) : Prop :=
| ts_insert o m b r : has_room t → insert_handle o m b t = Done r t' → table_step t t'
| ts_duplicate h m b r : has_room t → duplicate h m b t = Done r t' → table_step t t'
| ts_close h ty r : close h ty t = Done r t' → table_step t t'
| ts_close_raw h r : close_raw h t = Done r t' → table_step t t'
| ts_information h mask flags r : set_handle_information h mask flags t = Done r t' → table_step t t'
| ts_history h ty : t' = record_history h ty t → table_step t t'.

(** What a step can do. *)
Inductive table_change (t : HandleTable) : HandleTable → Prop :=
| tc_insert o m b : has_room t → table_change t (inserted t o m b)
| tc_close h e : ht_entries t !! h = Some e → table_change t (closed_table h t)
| tc_other t' :
    ht_next t' = ht_next t → ht_generations t' = ht_generations t → ht_closed t' = ht_closed t →
    (∀ h e, ht_entries t' !! h = Some e → ∃ e0, ht_entries t !! h = Some e0 ∧ hn_generation e = hn_generation e0) →
    (ht_ok t → ht_ok t') → table_change t t'.

Lemma unchanged t : table_change t t.
Proof. apply tc_other; naive_solver. Qed.

Lemma information_ok handle mask flags r t t' :
  ht_ok t → set_handle_information handle mask flags t = Done r t' → ht_ok t'.
Proof.
  intros Hok. destruct (set_information_run handle mask flags t) as (r0 & -> & _). intros [= <- <-].
  destruct r0 as [u|e]; [|done]. destruct Hok as [Hn Hl Hc Hd Hg Hr Hh]. split; try done; cbn [ht_entries ht_closed ht_set_protected ht_set_entries].
  - intros h e He. destruct (has_flag mask HANDLE_FLAG_INHERIT); [|by apply Hl].
    apply alter_inheritable_lookup in He as (e0 & He0 & _ & Eg & _). rewrite Eg. by apply Hl.
  - intros h Hin. destruct (Hc h Hin) as [Hm Hnone]. split; [done|]. destruct (has_flag mask HANDLE_FLAG_INHERIT); [|done].
    destruct (decide (h = handle)) as [->|Hne]; [by rewrite lookup_alter_eq, Hnone|by rewrite lookup_alter_ne].
Qed.

Lemma step_change t t' : table_step t t' → table_change t t'.
Proof.
  intros [o m b r Hroom H|h m b r Hroom H|h ty r H|h r H|h mask flags r H|h ty ->].
  - rewrite insert_value_run in H. injection H as <- <-. by apply tc_insert.
  - unfold duplicate, entry in H. cbn [bind gets] in H. unfold id in H. destruct (get_entry h t) as [e|]; cbn [ok_or bind] in H.
    + rewrite insert_value_run in H. injection H as <- <-. by apply tc_insert.
    + injection H as <- <-. apply unchanged.
  - rewrite close_run in H. destruct (is_protected h t); [injection H as <- <-; apply unchanged|].
    case_decide; [injection H as <- <-; apply unchanged|]. destruct (ht_entries t !! h) as [e|] eqn:E; injection H as <- <-; [by eapply tc_close|apply unchanged].
  - rewrite close_raw_run in H. destruct (is_protected h t); [injection H as <- <-; apply unchanged|].
    destruct (ht_entries t !! h) as [e|] eqn:E; injection H as <- <-; [by eapply tc_close|apply unchanged].
  - pose proof H as H0. destruct (set_information_run h mask flags t) as (r0 & E & _). rewrite E in H. injection H as <- <-.
    destruct r0 as [u|e]; [|apply unchanged]. apply tc_other; [done..| |intros Hok; by eapply information_ok].
    cbn [ht_entries ht_set_protected ht_set_entries]. intros x e He. destruct (has_flag mask HANDLE_FLAG_INHERIT); [|by exists e].
    apply alter_inheritable_lookup in He as (e0 & He0 & _ & Eg & _). by exists e0.
  - apply tc_other; [done..| |apply history_ok]. intros x e He. by exists e.
Qed.

Lemma change_ok t t' : ht_ok t → table_change t t' → ht_ok t'.
Proof. intros Hok [o m b Hr|h e He|? ? ? ? ? H]; [by apply inserted_ok|by eapply closed_table_ok|by apply H]. Qed.
Lemma generation_inserted t o m b h : generation_of (inserted t o m b) h = generation_of t h.
Proof. unfold generation_of, inserted, taken. by destruct (ht_closed t). Qed.

(** A generation never goes back. *)
Lemma change_generation t t' h : ht_ok t → table_change t t' → generation_of t h ≤ generation_of t' h.
Proof.
  intros Hok [o m b Hr|h0 e He|t0 ? Eg ? ? ?].
  - by rewrite generation_inserted.
  - rewrite generation_closed. pose proof (tb_generation t Hok h0). case_decide; [subst|done]. unfold saturating_add. lia.
  - unfold generation_of. by rewrite Eg.
Qed.
Lemma run_generation t t' h : rtc table_step t t' → ht_ok t → ht_ok t' ∧ generation_of t h ≤ generation_of t' h.
Proof.
  induction 1 as [|t t1 t' Hs _ IH]; [done|]. intros Hok. apply step_change in Hs. pose proof (change_ok _ _ Hok Hs) as Hok1.
  pose proof (change_generation _ _ h Hok Hs). destruct (IH Hok1). split; [done|lia].
Qed.

Lemma validate_live t h g : ht_ok t → validate_handle_generation h g t = Ok tt ↔ (∃ e, ht_entries t !! h = Some e) ∧ generation_of t h = g.
Proof.
  intros Hok. unfold validate_handle_generation. destruct (ht_entries t !! h) as [e|] eqn:E.
  - destruct (tb_live t Hok h e E) as [_ Hg]. rewrite <-Hg. destruct (Z.eqb_spec (hn_generation e) g); naive_solver.
  - naive_solver.
Qed.

(** C9 - A cached pair of a handle and its generation stops validating when the handle is
    closed, and never validates again, whatever is minted, duplicated, closed, flagged
    or recorded since, as long as the generation had not reached the largest [u32].
    From there it cannot grow: closing the handle and minting a value, with no other
    value to recycle, makes the stale pair validate again. *)
Theorem stale_pairs_rejected t h g :
  rtc table_step new_table t → validate_handle_generation h g t = Ok tt →
  (∀ ty e t1 t2, close h ty t = Done (Ok e) t1 ∨ close_raw h t = Done (Ok e) t1 → rtc table_step t1 t2 → g < u32_max →
     ∃ er, validate_handle_generation h g t2 = Err er) ∧
  (g = u32_max → is_protected h t = false → ht_closed t = [] →
     ∀ o m b, ∃ t', (close_raw h ;;; insert_handle o m b) t = Done (Ok h) t' ∧ validate_handle_generation h g t' = Ok tt).
Proof.
  intros Hr Hv. destruct (run_generation _ _ h Hr new_table_ok) as [Hok _]. apply (validate_live t h g Hok) in Hv as [[e0 He0] Hg]. split.
  - intros ty e t1 t2 Hclose Hrun Hlt. assert (t1 = closed_table h t) as ->.
    { destruct Hclose as [H|H]; [rewrite close_run in H|rewrite close_raw_run in H]; destruct (is_protected h t); try done;
      [case_decide; [done|]|]; rewrite He0 in H; by injection H. }
    destruct (run_generation _ _ h Hrun (closed_table_ok h t e0 Hok He0)) as [Hok2 Hle]. rewrite generation_closed, decide_True in Hle by done.
    destruct (validate_handle_generation h g t2) as [[]|er] eqn:E; [|by exists er]. apply (validate_live t2 h g Hok2) in E as [_ E].
    unfold saturating_add in Hle. lia.
  - intros -> Hp Hc o m b. cbn [bind]. rewrite close_raw_run, Hp, He0, insert_value_run.
    assert (next_handle (closed_table h t) = h) as En.
    { unfold next_handle. change (ht_closed (closed_table h t)) with (ht_closed t ++ [h]). by rewrite Hc. }
    rewrite En. eexists. split; [done|]. unfold validate_handle_generation, inserted. cbn [ht_entries ht_set_entries]. rewrite En, lookup_insert_eq.
    unfold fresh_entry. cbn [hn_generation]. rewrite En, generation_closed, decide_True, Hg by done. by vm_compute.
Qed.

Definition one_handle : HandleTable := inserted new_table 42 0x1F0003 false.
Lemma stale_pairs_rejected_witness : ∃ er, validate_handle_generation 4 0 (inserted (closed_table 4 one_handle) 7 0 false) = Err er.
Proof.
  destruct (stale_pairs_rejected one_handle 4 0) as [H _]; [|by vm_compute|].
  - apply rtc_once. by apply (ts_insert _ _ 42 0x1F0003 false (Ok 4)); [right; vm_compute|vm_compute].
  - apply (H OtEvent {| hn_object_id := 42; hn_generation := 0; hn_access_mask := 0x1F0003; hn_inheritable := false; hn_protect_from_close := false |}
      (closed_table 4 one_handle)); [by left; vm_compute|apply rtc_once; by apply (ts_insert _ _ 7 0 false (Ok 4)); [left; vm_compute|vm_compute]|by vm_compute].
Defined.

(** ** The order of minting *)

(** What happened to a table: the values that were closed, in order, how many of them
    were minted again, and how many values were minted that none had before. *)
Record TableLog := { lg_closed : list Z; lg_reused : nat; lg_fresh : nat }.
Definition no_log : TableLog := {| lg_closed := []; lg_reused := 0; lg_fresh := 0 |}.
(** The first closed value that was not minted again, or else the next multiple of
    four. *)
Definition log_value (lg : TableLog) : Z := default (4 * Z.of_nat (S (lg_fresh lg))) (lg_closed lg !! lg_reused lg).
Definition log_mint (lg : TableLog) : TableLog :=
  match lg_closed lg !! lg_reused lg with
  | Some _ => {| lg_closed := lg_closed lg; lg_reused := S (lg_reused lg); lg_fresh := lg_fresh lg |}
  | None => {| lg_closed := lg_closed lg; lg_reused := lg_reused lg; lg_fresh := S (lg_fresh lg) |}
  end.
Definition log_close (h : Z) (lg : TableLog) : TableLog :=
  {| lg_closed := lg_closed lg ++ [h]; lg_reused := lg_reused lg; lg_fresh := lg_fresh lg |}.
(** How often a value was closed. *)
Definition times_closed (h : Z) (lg : TableLog) : Z := Z.of_nat (length (filter (λ x, x = h) (lg_closed lg))).

(** The calls of [table_step], logged by what they are and what they answer. *)
Inductive logged : TableLog → HandleTable → Prop :=
| lr_new : logged no_log new_table
| lr_insert lg t o m b h t' : logged lg t → has_room t → insert_handle o m b t = Done (Ok h) t' → logged (log_mint lg) t'
| lr_duplicate lg t s m b r t' : logged lg t → has_room t → duplicate s m b t = Done r t' →
    logged (match r with Ok _ => log_mint lg | Err _ => lg end) t'
| lr_close lg t h ty r t' : logged lg t → close h ty t = Done r t' → logged (match r with Ok _ => log_close h lg | Err _ => lg end) t'
| lr_close_raw lg t h r t' : logged lg t → close_raw h t = Done r t' → logged (match r with Ok _ => log_close h lg | Err _ => lg end) t'
| lr_information lg t h mask flags r t' : logged lg t → set_handle_information h mask flags t = Done r t' → logged lg t'
| lr_history lg t h ty : logged lg t → logged lg (record_history h ty t).

(** The table agrees with its log. *)
Record log_ok (lg : TableLog) (t : HandleTable) : Prop := {
  lo_reused : (lg_reused lg ≤ length (lg_closed lg))%nat;
  lo_closed : ht_closed t = drop (lg_reused lg) (lg_closed lg);
  lo_next : ht_next t = Z.min u32_max (4 * Z.of_nat (S (lg_fresh lg)));
  lo_generation : ∀ h, generation_of t h = Z.min u32_max (times_closed h lg) }.

Lemma log_ok_mint lg t o m b : log_ok lg t → log_ok (log_mint lg) (inserted t o m b).
Proof.
  intros [Hr Hc Hn Hg]. unfold log_mint. destruct (lg_closed lg !! lg_reused lg) as [h|] eqn:E.
  - pose proof (drop_S _ _ _ E) as Ed. rewrite Ed in Hc.
    split; cbn [lg_reused lg_closed lg_fresh].
    + by apply lookup_lt_Some in E.
    + unfold inserted, taken. by rewrite Hc.
    + unfold inserted, taken. by rewrite Hc.
    + intros x. by rewrite generation_inserted.
  - apply lookup_ge_None in E. rewrite drop_ge in Hc by done.
    split; cbn [lg_reused lg_closed lg_fresh].
    + done.
    + rewrite drop_ge by done. unfold inserted, taken. by rewrite Hc.
    + unfold inserted, taken. rewrite Hc. cbn [ht_next ht_set_entries ht_set_next]. rewrite Hn. unfold saturating_add, u32_max. lia.
    + intros x. by rewrite generation_inserted.
Qed.
Lemma times_closed_snoc h x lg : times_closed h (log_close x lg) = times_closed h lg + (if decide (h = x) then 1 else 0).
Proof.
  unfold times_closed. cbn [log_close lg_closed]. rewrite filter_app, length_app, filter_cons, filter_nil. repeat case_decide; simpl; congruence || lia.
Qed.
Lemma log_ok_close lg t h : log_ok lg t → log_ok (log_close h lg) (closed_table h t).
Proof.
  intros [Hr Hc Hn Hg]. split.
  - cbn [log_close lg_reused lg_closed]. rewrite length_app. lia.
  - change (ht_closed (closed_table h t)) with (ht_closed t ++ [h]). cbn [log_close lg_reused lg_closed]. by rewrite Hc, drop_app_le by done.
  - done.
  - intros x. rewrite generation_closed, times_closed_snoc, !Hg. unfold saturating_add, u32_max.
    assert (0 ≤ times_closed h lg) by (unfold times_closed; lia). destruct (decide (x = h)) as [->|]; lia.
Qed.
Lemma log_ok_same lg t t' : ht_next t' = ht_next t → ht_generations t' = ht_generations t → ht_closed t' = ht_closed t → log_ok lg t → log_ok lg t'.
Proof. intros En Eg Ec [Hr Hc Hn Hg]. split; rewrite ?En, ?Ec; try done. intros h. rewrite <-Hg. unfold generation_of. by rewrite Eg. Qed.

Lemma logged_run lg t : logged lg t → rtc table_step new_table t.
Proof.
  induction 1 as [|lg t o m b h t' _ IH Hroom E|lg t s m b r t' _ IH Hroom E|lg t h ty r t' _ IH E|lg t h r t' _ IH E
    |lg t h mask flags r t' _ IH E|lg t h ty _ IH]; [apply rtc_refl|eapply rtc_r; [exact IH|]..].
  - by eapply ts_insert.
  - by eapply ts_duplicate.
  - by eapply ts_close.
  - by eapply ts_close_raw.
  - by eapply ts_information.
  - by eapply ts_history.
Qed.
Lemma logged_ok lg t : logged lg t → log_ok lg t.
Proof.
  induction 1 as [|lg t o m b h t' _ IH Hroom E|lg t s m b r t' _ IH Hroom E|lg t h ty r t' _ IH E|lg t h r t' _ IH E
    |lg t h mask flags r t' _ IH E|lg t h ty _ IH].
  - split; [done..|]. intros h. unfold generation_of. simpl. by rewrite lookup_empty.
  - rewrite insert_value_run in E. injection E as <- <-. by apply log_ok_mint.
  - unfold duplicate, entry in E. cbn [bind gets] in E. unfold id in E. destruct (get_entry s t) as [e|]; cbn [ok_or bind] in E.
    + rewrite insert_value_run in E. injection E as <- <-. by apply log_ok_mint.
    + by injection E as <- <-.
  - rewrite close_run in E. destruct (is_protected h t); [by injection E as <- <-|]. case_decide; [by injection E as <- <-|].
    destruct (ht_entries t !! h); injection E as <- <-; [by apply log_ok_close|done].
  - rewrite close_raw_run in E. destruct (is_protected h t); [by injection E as <- <-|].
    destruct (ht_entries t !! h); injection E as <- <-; [by apply log_ok_close|done].
  - destruct (set_information_run h mask flags t) as (r0 & E0 & _). rewrite E0 in E. injection E as <- <-.
    destruct r0 as [u|e]; [|done]. by apply (log_ok_same lg t).
  - by apply (log_ok_same lg t).
Qed.

(** Once the values have run out, minting leaves them so. *)
Lemma exhausted lg t : log_ok lg t → ht_ok t → ¬ has_room t → ht_closed t = [] ∧ ht_next t = u32_max.
Proof.
  intros _ Hok Hno. unfold has_room in Hno. split; [destruct (ht_closed t); [done|destruct Hno; by left]|].
  destruct (tb_next t Hok) as [E|E]; [done|]. destruct Hno. right. lia.
Qed.
Lemma exhausted_mints (requests : list (Z * Z * bool)) t :
  ht_closed t = [] → ht_next t = u32_max →
  ∃ t', map_each requests (λ '(o, m, b), insert_handle o m b) t = Done (Ok (replicate (length requests) INVALID_HANDLE_VALUE)) t' ∧
    ht_closed t' = [] ∧ ht_next t' = u32_max ∧
    hn_object_id <$> ht_entries t' !! INVALID_HANDLE_VALUE =
      match last requests with Some (o, _, _) => Some o | None => hn_object_id <$> ht_entries t !! INVALID_HANDLE_VALUE end ∧
    ∀ h, h ≠ INVALID_HANDLE_VALUE → ht_entries t' !! h = ht_entries t !! h.
Proof.
  revert t. induction requests as [|[[o m] b] requests IH]; intros t Ec En; [by exists t|].
  assert (next_handle t = INVALID_HANDLE_VALUE) as Eh by (unfold next_handle; by rewrite Ec, En).
  destruct (IH (inserted t o m b)) as (t' & E & E1 & E2 & E3 & E4).
  - unfold inserted, taken. by rewrite Ec.
  - unfold inserted, taken. rewrite Ec. cbn [ht_next ht_set_entries ht_set_next]. by rewrite En.
  - exists t'. cbn [map_each length replicate bind]. rewrite insert_value_run. cbn iota beta. rewrite E. rewrite Eh. split_and!; [done|done|done| |].
    + rewrite E3. rewrite last_cons. destruct (last requests) as [[[??]?]|]; [done|].
      unfold inserted. cbn [ht_entries ht_set_entries]. by rewrite Eh, lookup_insert_eq.
    + intros h Hh. rewrite E4 by done. unfold inserted. cbn [ht_entries ht_set_entries]. rewrite Eh. by apply lookup_insert_ne.
Qed.

(** C26 - Minting: the value closed first of those not minted again since, or else the next
    multiple of four, whatever was minted, duplicated, closed, flagged or recorded
    before.  It is not live, not zero and not [INVALID_HANDLE_VALUE]; its entry is as
    asked for, with the number of times the value was closed as its generation, cut at
    the largest [u32]; and no other entry changes.  When the values run out, every
    handle minted from then on is [INVALID_HANDLE_VALUE], and each takes the place of
    the one before. *)
Theorem minted_values_exact lg t o m b :
  logged lg t →
  (has_room t → ∃ t', insert_handle o m b t = Done (Ok (log_value lg)) t' ∧
     ht_entries t !! log_value lg = None ∧ 4 ≤ log_value lg < INVALID_HANDLE_VALUE ∧ log_value lg mod 4 = 0 ∧
     (∀ x, x ≠ log_value lg → ht_entries t' !! x = ht_entries t !! x) ∧
     ht_entries t' !! log_value lg = Some {| hn_object_id := o; hn_generation := Z.min u32_max (times_closed (log_value lg) lg);
       hn_access_mask := m; hn_inheritable := b; hn_protect_from_close := false |}) ∧
  (¬ has_room t → ∀ requests, ∃ t',
     map_each requests (λ '(o, m, b), insert_handle o m b) t = Done (Ok (replicate (length requests) INVALID_HANDLE_VALUE)) t' ∧
     ¬ has_room t' ∧
     hn_object_id <$> ht_entries t' !! INVALID_HANDLE_VALUE =
       match last requests with Some (o, _, _) => Some o | None => hn_object_id <$> ht_entries t !! INVALID_HANDLE_VALUE end ∧
     ∀ h, h ≠ INVALID_HANDLE_VALUE → ht_entries t' !! h = ht_entries t !! h).
Proof.
  intros Hrun. pose proof (logged_ok _ _ Hrun) as Hlg. pose proof (logged_run _ _ Hrun) as Hr. destruct (run_generation _ _ 0 Hr new_table_ok) as [Hok _]. split.
  - intros Hroom. destruct (next_handle_fresh t Hok Hroom) as (Hfree & H4 & Hmod & Hlt).
    assert (next_handle t = log_value lg) as Ev.
    { destruct Hlg as [Hre Hc Hn _]. unfold next_handle, log_value in *. destruct (lg_closed lg !! lg_reused lg) as [h|] eqn:E.
      - pose proof (drop_S _ _ _ E) as Ed. by rewrite Hc, Ed.
      - apply lookup_ge_None in E. rewrite drop_ge in Hc by done. rewrite Hc in *. rewrite Hn in *. cbn [default]. lia. }
    rewrite Ev in *. exists (inserted t o m b). rewrite insert_value_run, Ev.
    split_and!; [done|done|done|done|done| |]; unfold inserted; cbn [ht_entries ht_set_entries]; rewrite Ev.
    + intros x Hx. by rewrite lookup_insert_ne.
    + rewrite lookup_insert_eq. unfold fresh_entry. by rewrite Ev, (lo_generation _ _ Hlg).
  - intros Hno requests. destruct (exhausted lg t Hlg Hok Hno) as [Ec En].
    destruct (exhausted_mints requests t Ec En) as (t' & E & E1 & E2 & E3 & E4). exists t'. split_and!; [done| |done|done].
    unfold has_room. rewrite E1, E2. intros [?|H]; [done|by vm_compute in H].
Qed.

(** Two values are minted and closed, the second first: the second is minted again,
    with a generation of one. *)
Definition two_closed : HandleTable := closed_table 4 (closed_table 8 (inserted (inserted new_table 1 0 false) 2 0 false)).
Lemma two_closed_logged : logged {| lg_closed := [8; 4]; lg_reused := 0; lg_fresh := 2 |} two_closed.
Proof.
  assert (logged {| lg_closed := []; lg_reused := 0; lg_fresh := 2 |} (inserted (inserted new_table 1 0 false) 2 0 false)) as H.
  { apply (lr_insert {| lg_closed := []; lg_reused := 0; lg_fresh := 1 |} (inserted new_table 1 0 false) 2 0 false 8); [|right; by vm_compute|by vm_compute].
    apply (lr_insert no_log new_table 1 0 false 4); [apply lr_new|right; by vm_compute|by vm_compute]. }
  eapply (lr_close_raw _ _ 8 (Ok _)) in H; [|by vm_compute]. eapply (lr_close_raw _ _ 4 (Ok _)) in H; [|by vm_compute]. exact H.
Qed.
Lemma minted_values_exact_witness : ∃ t', insert_handle 7 0x1F0003 true two_closed = Done (Ok 8) t' ∧
  ht_entries t' !! 8 = Some {| hn_object_id := 7; hn_generation := 1; hn_access_mask := 0x1F0003; hn_inheritable := true; hn_protect_from_close := false |}.
Proof.
  destruct (minted_values_exact _ two_closed 7 0x1F0003 true two_closed_logged) as [H _].
  destruct (H ltac:(left; by vm_compute)) as (t' & E & _ & _ & _ & _ & He). exists t'. exact (conj E He).
Defined.
End Ht.
