(* ===== verification/KernelObjectsFacts.v ===== *)
(** * The Win32 object manager: names, its invariant against a count of references, waits *)

From S2P Require Import Prelude Strings Win32Types KernelObjects.

Module Ko.

(** ** Names *)

Lemma strip_prefix_length p s rest : strip_prefix p s = Some rest → length s = (length p + length rest)%nat.
Proof.
  revert s. induction p as [|c p IH]; intros s; simpl.
  - intros [= ->]. done.
  - destruct s as [|d s]; [done|]. destruct (c =? d); [|done]. intros H. simpl. by rewrite (IH _ H).
Qed.
Lemma skip_digits_length s : (length (skip_digits s) ≤ length s)%nat.
Proof. induction s as [|c s IH]; simpl; [done|]. destruct (is_ascii_digit c); simpl; lia. Qed.

Lemma strip_namespace_shorter s rest : strip_namespace s = Some rest → (length rest < length s)%nat.
Proof.
  unfold strip_namespace, strip_session.
  destruct (strip_prefix (lit "\BaseNamedObjects\") s) as [r|] eqn:E1; [intros [= ->]; apply strip_prefix_length in E1; simpl in E1; lia|].
  destruct (strip_prefix (lit "Global\") s) as [r|] eqn:E2; [intros [= ->]; apply strip_prefix_length in E2; simpl in E2; lia|].
  destruct (strip_prefix (lit "Local\") s) as [r|] eqn:E3; [intros [= ->]; apply strip_prefix_length in E3; simpl in E3; lia|].
  destruct (strip_prefix (lit "\Sessions\") s) as [r|] eqn:E4; [|done]. cbn [mbind option_bind]. case_bool_decide; [done|].
  intros E5. apply strip_prefix_length in E4, E5. pose proof (skip_digits_length r). simpl in E4, E5. lia.
Qed.

(** A name with no prefix left to take off. *)
Definition is_canonical (s : str) : Prop := strip_namespace s = None ∨ strip_namespace s = Some [].

Lemma canonical_loop_ends fuel s : (length s < fuel)%nat → ∃ c, canonical_loop fuel s = Some c ∧ is_canonical c ∧ (length c ≤ length s)%nat.
Proof.
  revert s. induction fuel as [|fuel IH]; intros s Hl; [lia|]. cbn [canonical_loop].
  destruct (strip_namespace s) as [rest|] eqn:E; [|exists s; split_and!; [done|by left|done]].
  pose proof (strip_namespace_shorter _ _ E). destruct rest as [|c rest].
  - exists s. split_and!; [done|by right|done].
  - cbn [str_is_empty negb andb]. rewrite bool_decide_eq_false_2 by (intros E2; rewrite E2 in *; lia). cbn [negb].
    destruct (IH (c :: rest)) as (x & Hx & Hc & Hlen); [lia|]. exists x. split_and!; [done|done|lia].
Qed.
Lemma canonical_is_canonical s : is_canonical (canonical_object_name s).
Proof. unfold canonical_object_name. destruct (canonical_loop_ends (S (length s)) s) as (c & -> & Hc & _); [lia|done]. Qed.
Lemma canonical_fixed s : is_canonical s → canonical_object_name s = s.
Proof.
  unfold canonical_object_name. cbn [canonical_loop]. intros [->| ->]; [done|]. by cbn [str_is_empty negb andb].
Qed.
Lemma canonical_strip s rest : strip_namespace s = Some rest → rest ≠ [] → canonical_object_name s = canonical_object_name rest.
Proof.
  intros E Hne. unfold canonical_object_name at 1. cbn [canonical_loop]. rewrite E. pose proof (strip_namespace_shorter _ _ E) as Hlt.
  destruct rest as [|c rest]; [done|]. cbn [str_is_empty negb andb]. rewrite bool_decide_eq_false_2 by (intros E2; rewrite E2 in *; lia).
  cbn [negb]. unfold canonical_object_name.
  assert (∀ f1 f2 x, (length x < f1)%nat → (length x < f2)%nat → canonical_loop f1 x = canonical_loop f2 x) as Hf.
  { clear. induction f1 as [|f1 IH]; intros f2 x H1 H2; [lia|]. destruct f2 as [|f2]; [lia|]. cbn [canonical_loop].
    destruct (strip_namespace x) as [r|] eqn:E; [|done]. pose proof (strip_namespace_shorter _ _ E).
    destruct (negb (str_is_empty r) && negb (bool_decide (r = x))); [|done]. apply IH; lia. }
  rewrite (Hf _ (S (length (c :: rest)))) by lia. destruct (canonical_loop_ends (S (length (c :: rest))) (c :: rest)) as (x & Hx & _); [lia|].
  by rewrite Hx.
Qed.

(** ** The invariant, against the number of references each object has *)

(** What no operation on a waitable object changes. *)
Definition object_shape (o : KernelObject) : Win32ObjectType * option Z :=
  (payload_type o, match o with KThread t => Some t | _ => None end).
Definition header_shape (h : ObjectHeader) : Z * Win32ObjectType * option str * Z := (hd_id h, hd_ty h, hd_name h, hd_refcount h).
Record same_shape (s s' : ObjectManager) : Prop := {
  sp_objects : ∀ id, object_shape <$> om_objects s' !! id = object_shape <$> om_objects s !! id;
  sp_headers : ∀ id, header_shape <$> om_headers s' !! id = header_shape <$> om_headers s !! id;
  sp_names : om_names s' = om_names s;
  sp_counts : om_handle_counts s' = om_handle_counts s;
  sp_next : om_next_id s' = om_next_id s }.

#[export] Instance same_shape_preorder : PreOrder same_shape.
Proof.
  split; [by split|]. intros s1 s2 s3 [A1 A2 A3 A4 A5] [B1 B2 B3 B4 B5]. split; congruence.
Qed.

(** [extra] is an object that no handle names yet. *)
Definition object_ok (refs : Z → Z) (extra : option Z) (s : ObjectManager) (id : Z) : Prop :=
  match om_objects s !! id with
  | Some o => ∃ h, om_headers s !! id = Some h ∧ hd_id h = id ∧ hd_ty h = payload_type o ∧ hd_refcount h = refs id ∧
                   om_handle_counts s !! id = Some (refs id) ∧ (0 < refs id ∨ extra = Some id ∧ refs id = 0) ∧ 0 ≤ id < om_next_id s
  | None => om_headers s !! id = None ∧ om_handle_counts s !! id = None ∧ refs id = 0
  end.
Record objects_ok (refs : Z → Z) (extra : option Z) (s : ObjectManager) : Prop := {
  ob_object : ∀ id, object_ok refs extra s id;
  ob_name : ∀ n id, om_names s !! n = Some id → ∃ h, om_headers s !! id = Some h ∧ hd_name h = Some n;
  ob_canonical : ∀ n id, om_names s !! n = Some id → is_canonical n;
  ob_next : 0 ≤ om_next_id s < 2 ^ 64 }.

Lemma new_manager_ok refs n : (∀ id, refs id = 0) → 0 ≤ n < 2 ^ 64 → objects_ok refs None (new_manager n).
Proof.
  intros Hr Hn. by split.
Qed.

Lemma same_shape_object s s' id o' : same_shape s s' → om_objects s' !! id = Some o' →
  ∃ o, om_objects s !! id = Some o ∧ object_shape o' = object_shape o.
Proof.
  intros [H _ _ _ _] Ho. specialize (H id). rewrite Ho in H. destruct (om_objects s !! id) as [o|]; [|done]. injection H as H1 H2.
  exists o. split; [done|]. unfold object_shape. by f_equal.
Qed.
Lemma same_shape_ok refs extra s s' : same_shape s s' → objects_ok refs extra s → objects_ok refs extra s'.
Proof.
  intros [So Sh Sn Sc Sx] [Ho Hn Hc Hx]. split.
  - intros id. specialize (Ho id). unfold object_ok in *. specialize (So id). specialize (Sh id). rewrite Sc, Sx.
    destruct (om_objects s' !! id) as [o'|], (om_objects s !! id) as [o|]; try done.
    + injection So as Et _. destruct Ho as (h & Hh & H1 & H2 & H3 & H4 & H5 & H6). rewrite Hh in Sh.
      destruct (om_headers s' !! id) as [h'|]; [|done]. injection Sh as E1 E2 E3 E4. exists h'. rewrite E1, E2, E4, Et. split_and!; try done; lia.
    + destruct Ho as (Hh & H4 & H5). rewrite Hh in Sh. by destruct (om_headers s' !! id).
  - rewrite Sn. intros n id Hid. destruct (Hn n id Hid) as (h & Hh & En). specialize (Sh id). rewrite Hh in Sh.
    destruct (om_headers s' !! id) as [h'|]; [|done]. injection Sh as E1 E2 E3 E4. exists h'. by rewrite E3.
  - rewrite Sn. done.
  - by rewrite Sx.
Qed.

(** ** Operations on waitable objects keep every shape, and a recursion grows by one *)

Definition recursion_le (n : Z) (s : ObjectManager) : Prop := ∀ id m, om_objects s !! id = Some (KMutex m) → mx_recursion m ≤ n.
Definition tame {A} (k : Z) (c : M ObjectManager A) : Prop := ∀ n s, 0 ≤ n → n + k ≤ u32_max → recursion_le n s →
  wp c s (λ _ s', same_shape s s' ∧ recursion_le (n + k) s').

Lemma alter_object_tame f id s :
  (∀ o, om_objects s !! id = Some o → object_shape (f o) = object_shape o) → same_shape s (om_alter_object f id s).
Proof.
  intros Hf. split; try done. intros x. unfold om_alter_object. cbn [om_objects om_set_objects]. destruct (decide (x = id)) as [->|Hne].
  - rewrite lookup_alter_eq. destruct (om_objects s !! id) as [o|] eqn:E; [|done]. simpl. f_equal. by apply Hf.
  - by rewrite lookup_alter_ne.
Qed.
Lemma alter_header_tame f id s : (∀ h, header_shape (f h) = header_shape h) → same_shape s (om_alter_header f id s).
Proof.
  intros Hf. split; try done. intros x. unfold om_alter_header. cbn [om_headers om_set_headers]. destruct (decide (x = id)) as [->|Hne].
  - rewrite lookup_alter_eq. destruct (om_headers s !! id) as [h|]; [|done]. simpl. by rewrite Hf.
  - by rewrite lookup_alter_ne.
Qed.
Lemma wait_state_tame x id s : same_shape s (om_alter_header (hd_set_wait_state x) id s).
Proof. by apply alter_header_tame. Qed.
Lemma notify_tame id b s : same_shape s (om_notify id b s).
Proof. by split. Qed.

(** Replacing one object. *)
Lemma recursion_le_alter f id n s :
  recursion_le n s → (∀ o m, om_objects s !! id = Some o → f o = KMutex m → mx_recursion m ≤ n) → recursion_le n (om_alter_object f id s).
Proof.
  intros Hn Hf x m. unfold om_alter_object. cbn [om_objects om_set_objects]. destruct (decide (x = id)) as [->|Hne].
  - rewrite lookup_alter_eq. destruct (om_objects s !! id) as [o|] eqn:E; [|done]. intros [= H]. by eapply Hf.
  - rewrite lookup_alter_ne by done. apply Hn.
Qed.
Lemma recursion_le_mono n k s : 0 ≤ k → recursion_le n s → recursion_le (n + k) s.
Proof. intros Hk Hn id m Hm. specialize (Hn id m Hm). lia. Qed.

Lemma consume_object_spec o thread now n :
  0 ≤ n → n + 1 ≤ u32_max → (∀ m, o = KMutex m → mx_recursion m ≤ n) →
  ∃ status o', consume_object o thread now = Some (status, o') ∧ object_shape o' = object_shape o ∧
    (∀ m, o' = KMutex m → mx_recursion m ≤ n + 1).
Proof.
  intros Hn0 Hn Ho. unfold consume_object. destruct o as [| e | | m | sm | | | | | tm | | | | ];
    try (eexists _, _; split_and!; [done|done|intros ? [=]]; fail).
  - destruct (eo_signaled e); eexists _, _; split_and!; try done; by destruct (eo_manual_reset e).
  - specialize (Ho m eq_refl). destruct (mx_abandoned m) eqn:Ea.
    { eexists _, _; split_and!; [done|done|]. intros ? [= <-]. unfold own_mutex. cbn [mx_recursion]. lia. }
    destruct (mx_owner_thread_id m) as [owner|].
    + destruct (owner =? thread).
      * unfold checked_add. rewrite (proj2 (Z.leb_le _ _)) by lia. cbn [mbind option_bind]. eexists _, _; split_and!; [done|done|].
        intros ? [= <-]. cbn [mx_recursion]. lia.
      * eexists _, _; split_and!; [done|done|]. intros ? [= <-]. lia.
    + eexists _, _; split_and!; [done|done|]. intros ? [= <-]. cbn [mx_recursion]. lia.
  - destruct (0 <? sm_count sm); eexists _, _; split_and!; try done.
  - destruct (_ || _); eexists _, _; split_and!; try done.
Qed.

Lemma consume_wait_tame id thread now : tame 1 (consume_wait id thread now).
Proof.
  intros n s Hn0 Hn Hrec. unfold consume_wait. apply wp_bind. unfold wp. cbn [gets]. unfold Datatypes.id.
  destruct (om_objects s !! id) as [o|] eqn:Eo.
  - destruct (consume_object_spec o thread now n) as (status & o' & E & Hs & Hr); [done|done|intros m ->; by apply (Hrec id)|].
    rewrite E. cbn [bind expect modify ret]. set (s1 := om_set_objects _ s).
    assert (same_shape s s1) as H1.
    { split; try done. intros x. unfold s1. cbn [om_objects om_set_objects]. destruct (decide (x = id)) as [->|Hne];
      [by rewrite lookup_insert_eq, Eo; simpl; rewrite Hs|by rewrite lookup_insert_ne]. }
    split; [etrans; [exact H1|apply wait_state_tame]|]. intros x m. unfold s1. cbn [om_alter_header om_objects om_set_objects om_set_headers].
    destruct (decide (x = id)) as [->|Hne]; [rewrite lookup_insert_eq; intros [= ->]; by apply Hr|].
    rewrite lookup_insert_ne by done. intros Hm. specialize (Hrec _ _ Hm). lia.
  - cbn [bind modify ret]. split; [apply wait_state_tame|]. by apply recursion_le_mono.
Qed.

Lemma tame_signal id : tame 0 (signal_event id).
Proof.
  intros n s _ _ Hrec. rewrite Z.add_0_r. unfold signal_event, wp. cbn [bind gets]. unfold Datatypes.id.
  destruct (om_objects s !! id) as [[]|] eqn:E; cbn [ret bind modify]; try done. split.
  - etrans; [|apply notify_tame]. etrans; [|apply wait_state_tame]. apply alter_object_tame. intros o Ho. rewrite E in Ho. by injection Ho as <-.
  - apply recursion_le_alter; [done|]. intros o m Ho. rewrite E in Ho. by injection Ho as <-.
Qed.
Lemma tame_reset id : tame 0 (reset_event id).
Proof.
  intros n s _ _ Hrec. rewrite Z.add_0_r. unfold reset_event, wp. cbn [bind gets]. unfold Datatypes.id.
  destruct (om_objects s !! id) as [[]|] eqn:E; cbn [ret bind modify]; try done. split.
  - etrans; [|apply wait_state_tame]. apply alter_object_tame. intros o Ho. rewrite E in Ho. by injection Ho as <-.
  - apply recursion_le_alter; [done|]. intros o m Ho. rewrite E in Ho. by injection Ho as <-.
Qed.
Lemma tame_release_mutex id thread : tame 0 (release_mutex id thread).
Proof.
  intros n s Hn _ Hrec. rewrite Z.add_0_r. unfold release_mutex, wp. cbn [bind gets]. unfold Datatypes.id.
  destruct (om_objects s !! id) as [[]|] eqn:E; cbn [ret bind modify]; try done. pose proof (Hrec _ _ E) as Hm.
  destruct (negb _); [done|]. destruct (1 <? mx_recursion mutex); cbn [bind modify ret]; split.
  - apply alter_object_tame. intros o Ho. rewrite E in Ho. by injection Ho as <-.
  - apply recursion_le_alter; [done|]. intros o m _ [= <-]. cbn [mx_recursion]. lia.
  - etrans; [|apply notify_tame]. etrans; [|apply wait_state_tame]. apply alter_object_tame. intros o Ho. rewrite E in Ho. by injection Ho as <-.
  - apply recursion_le_alter; [done|]. intros o m _ [= <-]. unfold free_mutex. cbn [mx_recursion]. lia.
Qed.
Lemma tame_release_semaphore id count : tame 0 (release_semaphore id count).
Proof.
  intros n s Hn _ Hrec. rewrite Z.add_0_r. unfold release_semaphore, wp. cbn [bind gets]. unfold Datatypes.id.
  destruct (om_objects s !! id) as [[]|] eqn:E; cbn [ret bind modify]; try done.
  assert (∀ c, same_shape s (om_alter_object (λ _, KSemaphore c) id s) ∧ recursion_le n (om_alter_object (λ _, KSemaphore c) id s)) as H.
  { intros c. split; [apply alter_object_tame; intros o Ho; rewrite E in Ho; by injection Ho as <-|]. by apply recursion_le_alter. }
  destruct (negb _); cbn [bind modify ret]; [|by apply H]. split; [etrans; [apply H|apply notify_tame]|apply H].
Qed.
Lemma tame_abandon thread : tame 0 (mark_mutexes_abandoned_by_thread thread).
Proof.
  intros n s Hn _ Hrec. rewrite Z.add_0_r. unfold mark_mutexes_abandoned_by_thread. apply wp_bind. unfold wp. cbn [gets]. unfold id.
  set (s1 := om_set_objects ((λ o, if owned_by thread o then abandon o else o) <$> om_objects s) s).
  assert (same_shape s s1 ∧ recursion_le n s1) as H1.
  { split.
    - split; try done. intros x. unfold s1. cbn [om_objects om_set_objects]. rewrite lookup_fmap. destruct (om_objects s !! x) as [o|]; [|done].
      simpl. destruct (owned_by thread o); [|done]. by destruct o.
    - intros x m. unfold s1. cbn [om_objects om_set_objects]. rewrite lookup_fmap. destruct (om_objects s !! x) as [o|] eqn:Eo; [|done].
      simpl. intros [= H]. destruct (owned_by thread o); [destruct o; try done; injection H as <-; cbn [mx_recursion]|subst o]; by apply (Hrec x). }
  apply wp_bind. unfold wp at 1. cbn [modify].
  change (wp (for_each ((filter (λ p, owned_by thread p.2) (bt_entries (om_objects s))).*1)
    (λ id, modify (om_alter_header (hd_set_wait_state WsAbandoned) id) ;;; modify (om_notify id false))) s1
    (λ _ s', same_shape s s' ∧ recursion_le n s')).
  eapply wp_mono; [apply (wp_for_each (λ _ s', same_shape s s' ∧ recursion_le n s')); [done|]|by intros r s' [_ H]].
  intros done a rest s' _ [Hs Hr]. unfold wp. cbn [bind modify]. split; [done|]. split; [|exact Hr].
  etrans; [exact Hs|]. etrans; [apply wait_state_tame|apply notify_tame].
Qed.

(** ** Objects come with an identity of their own and go with their last reference *)

Definition inserted_object (ty : Win32ObjectType) (name : option str) (sd : option Z) (o : KernelObject) (s : ObjectManager) : ObjectManager :=
  let id := om_next_id s in
  let canonical := canonical_object_name <$> name in
  {| om_objects := <[id := o]> (om_objects s);
     om_headers := <[id := {| hd_id := id; hd_ty := ty; hd_name := canonical; hd_refcount := 0; hd_security_descriptor := sd;
                              hd_wait_state := WsNotSignaled |}]> (om_headers s);
     om_names := match canonical with Some n => <[n := id]> (om_names s) | None => om_names s end;
     om_handle_counts := <[id := 0]> (om_handle_counts s);
     om_next_id := (id + 1) mod 2 ^ 64; om_wakes := om_wakes s |}.
Lemma insert_object_run ty name sd o s :
  insert_kernel_object ty name sd o s = Done (Ok (om_next_id s)) (inserted_object ty name sd o s).
Proof. unfold insert_kernel_object, next_object_id, inserted_object. cbn [bind gets modify ret]. by destruct name. Qed.

Section references.
Context (refs : Z → Z).

Lemma fresh_identity s : objects_ok refs None s → om_objects s !! om_next_id s = None ∧ om_headers s !! om_next_id s = None ∧ refs (om_next_id s) = 0.
Proof using.
  intros [Ho _ _ _]. specialize (Ho (om_next_id s)). unfold object_ok in Ho. destruct (om_objects s !! om_next_id s) as [o|].
  - destruct Ho as (h & _ & _ & _ & _ & _ & _ & Hlt). lia.
  - by destruct Ho as (? & ? & ?).
Qed.

Lemma inserted_object_ok ty name sd o s :
  objects_ok refs None s → om_next_id s + 1 < 2 ^ 64 → payload_type o = ty →
  objects_ok refs (Some (om_next_id s)) (inserted_object ty name sd o s).
Proof using.
  intros Hok Hroom Hty. destruct (fresh_identity s Hok) as (Hnone & Hhead & Hr). destruct Hok as [Ho Hn Hc Hx].
  assert ((om_next_id s + 1) mod 2 ^ 64 = om_next_id s + 1) as Emod by (apply Z.mod_small; lia).
  split; unfold inserted_object.
  - intros x. unfold object_ok. cbn [om_objects om_headers om_handle_counts om_next_id]. rewrite Emod.
    destruct (decide (x = om_next_id s)) as [->|Hne].
    + rewrite !lookup_insert_eq. eexists. split; [done|]. cbn [hd_id hd_ty hd_refcount]. rewrite Hr. split_and!; try done; try lia. by right.
    + rewrite !lookup_insert_ne by done. specialize (Ho x). unfold object_ok in Ho. destruct (om_objects s !! x) as [o'|]; [|done].
      destruct Ho as (h & H1 & H2 & H3 & H4 & H5 & [H6|[? _]] & H7); [|done]. exists h. split_and!; try done; [by left|lia..].
  - cbn [om_names om_headers]. intros n x Hx'.
    assert (om_names s !! n = Some x → ∃ h, <[om_next_id s := {| hd_id := om_next_id s; hd_ty := ty; hd_name := canonical_object_name <$> name;
      hd_refcount := 0; hd_security_descriptor := sd; hd_wait_state := WsNotSignaled |}]> (om_headers s) !! x = Some h ∧ hd_name h = Some n) as Hold.
    { intros E. destruct (Hn n x E) as (h & Hh & En). exists h. split; [|done]. rewrite lookup_insert_ne; [done|]. intros <-. by rewrite Hhead in Hh. }
    destruct name as [nm|]; cbn [fmap option_fmap option_map] in *; [|by apply Hold].
    apply lookup_insert_Some in Hx' as [[<- <-]|[Hne Hx']]; [|by apply Hold]. eexists. by rewrite lookup_insert_eq.
  - cbn [om_names]. intros n x Hx'. destruct name as [nm|]; cbn [fmap option_fmap option_map] in *; [|by eapply Hc].
    apply lookup_insert_Some in Hx' as [[<- <-]|[Hne Hx']]; [apply canonical_is_canonical|by eapply Hc].
  - cbn [om_next_id]. rewrite Emod. lia.
Qed.

Lemma handle_added_ok extra s id o refs' :
  objects_ok refs extra s → om_objects s !! id = Some o → (extra = None ∨ extra = Some id) → refs id < u32_max → 0 ≤ refs id →
  (∀ x, refs' x = refs x + if decide (x = id) then 1 else 0) → objects_ok refs' None (handle_added id s).
Proof using.
  intros [Ho Hn Hc Hx] Hid Hextra Hlt Hpos Hrefs'.
  assert (saturating_add u32_max (handle_count id s) 1 = refs id + 1) as Ecount.
  { specialize (Ho id). unfold object_ok in Ho. rewrite Hid in Ho. destruct Ho as (h & _ & _ & _ & _ & E & _). unfold handle_count, saturating_add.
    rewrite E. simpl. lia. }
  split; unfold handle_added; rewrite ?Ecount; cbn [om_alter_header om_set_headers om_set_counts om_objects om_headers om_names om_handle_counts om_next_id]; try done.
  - intros x. unfold object_ok. cbn [om_alter_header om_set_headers om_set_counts om_objects om_headers om_handle_counts om_next_id].
    specialize (Ho x). unfold object_ok in Ho. rewrite Hrefs'. destruct (decide (x = id)) as [->|Hne].
    + rewrite Hid in *. destruct Ho as (h & H1 & H2 & H3 & H4 & H5 & H6 & H7). exists (hd_set_refcount (refs id + 1) h).
      rewrite lookup_alter_eq, H1, lookup_insert_eq. split_and!; try done; [left; lia|lia..].
    + rewrite lookup_alter_ne, lookup_insert_ne by done. rewrite Z.add_0_r. destruct (om_objects s !! x) as [o'|]; [|done].
      destruct Ho as (h & H1 & H2 & H3 & H4 & H5 & [H6|[H6 H6']] & H7); [|destruct Hextra; congruence].
      exists h. split_and!; try done; [by left|lia..].
  - intros n x Hx'. destruct (Hn n x Hx') as (h & Hh & En). destruct (decide (x = id)) as [->|Hne].
    + rewrite lookup_alter_eq, Hh. by eexists.
    + rewrite lookup_alter_ne by done. by exists h.
Qed.

(** What removing one reference leaves. *)
Lemma handle_removed_ok s id o refs' :
  objects_ok refs None s → om_objects s !! id = Some o → 0 < refs id →
  (∀ x, refs' x = refs x - if decide (x = id) then 1 else 0) →
  ∃ s', handle_removed id s = Done (Ok (refs' id =? 0)) s' ∧ objects_ok refs' None s' ∧
    om_objects s' = (if refs' id =? 0 then delete id (om_objects s) else om_objects s) ∧
    om_names s' = (match (if refs' id =? 0 then h ← om_headers s !! id; hd_name h else None) with
                   | Some n => delete n (om_names s) | None => om_names s end) ∧
    om_next_id s' = om_next_id s.
Proof using.
  intros [Ho Hn Hc Hx] Hid Hpos Hrefs'. pose proof (Ho id) as Hoid. unfold object_ok in Hoid. rewrite Hid in Hoid.
  destruct Hoid as (h & H1 & H2 & H3 & H4 & H5 & _ & H7). assert (refs' id = refs id - 1) as Eid by (rewrite Hrefs', decide_True by done; done).
  unfold handle_removed. cbn [bind gets]. unfold Datatypes.id. rewrite H5. cbn [bind modify ret].
  replace (saturating_sub (refs id) 1) with (refs' id) by (unfold saturating_sub; lia).
  destruct (0 <? refs' id) eqn:E; cbn [bind ret modify].
  - rewrite (proj2 (Z.eqb_neq _ _)) by lia. eexists. split; [done|]. split; [|done].
    split; cbn [om_alter_header om_set_headers om_set_counts om_objects om_headers om_names om_handle_counts om_next_id]; try done.
    + intros x. unfold object_ok. cbn [om_alter_header om_set_headers om_set_counts om_objects om_headers om_handle_counts om_next_id].
      specialize (Ho x). unfold object_ok in Ho. destruct (decide (x = id)) as [->|Hne].
      * rewrite Hid, lookup_alter_eq, H1, lookup_insert_eq. eexists. split_and!; try done; [left; lia|lia..].
      * rewrite lookup_alter_ne, lookup_insert_ne by done. rewrite (Hrefs' x), decide_False by done. by rewrite Z.sub_0_r.
    + intros n x Hx'. destruct (Hn n x Hx') as (h' & Hh & En). destruct (decide (x = id)) as [->|Hne].
      * rewrite lookup_alter_eq, Hh. by eexists.
      * rewrite lookup_alter_ne by done. by exists h'.
  - rewrite (proj2 (Z.eqb_eq _ _)) by lia. eexists. split; [done|].
    unfold drop_object, om_notify. cbn [om_alter_header om_set_headers om_set_counts om_set_objects om_set_names om_objects om_headers om_names om_handle_counts om_next_id].
    rewrite lookup_alter_eq, H1. cbn [fmap option_fmap option_map hd_set_refcount hd_name mbind option_bind].
    split; [|by destruct (hd_name h)].
    assert (∀ n x, match hd_name h with Some nm => delete nm (om_names s) | None => om_names s end !! n = Some x → om_names s !! n = Some x ∧ x ≠ id) as Hnames.
    { intros n x Hx'. assert (om_names s !! n = Some x) as Hold by (destruct (hd_name h) as [nm|]; [by apply lookup_delete_Some in Hx' as [_ ?]|done]).
      split; [done|]. intros ->. destruct (Hn n id Hold) as (h' & Hh' & En). rewrite H1 in Hh'. injection Hh' as <-. rewrite En in Hx'.
      by rewrite lookup_delete_eq in Hx'. }
    split; cbn [om_objects om_headers om_names om_handle_counts om_next_id]; try done.
    + intros x. unfold object_ok. cbn [om_objects om_headers om_handle_counts om_next_id]. destruct (decide (x = id)) as [->|Hne].
      * rewrite !lookup_delete_eq. split_and!; try done. lia.
      * rewrite !lookup_delete_ne, lookup_alter_ne, lookup_insert_ne by done. specialize (Ho x). unfold object_ok in Ho.
        rewrite (Hrefs' x), decide_False by done. by rewrite Z.sub_0_r.
    + intros n x Hx'. apply Hnames in Hx' as [Hold Hne]. destruct (Hn n x Hold) as (h' & Hh' & En). exists h'. split; [|done].
      by rewrite lookup_delete_ne, lookup_alter_ne.
    + intros n x Hx'. apply Hnames in Hx' as [Hold _]. by eapply Hc.
Qed.
End references.
End Ko.
