(* ===== verification/Win32Facts.v ===== *)
(** * The Win32 subsystem: handles and objects agree, call by call

    [win_ok n] is the invariant after at most [n] elementary calls, which bounds every
    counter of the subsystem; [grows k c] says that [c] costs [k] of them.  Costs add
    up along a sequence of calls ([grows_bind]), so no call panics while there are
    fewer than [call_limit] of them. *)

From stdpp Require Import list_numbers.
From S2P Require Import Prelude Strings Win32Types HandleTable KernelObjects Win32 Win32Wait HandleTableFacts KernelObjectsFacts.

Module Wf.
Import Ht Ko.

(** ** How many handles name an object *)

Definition refs (t : HandleTable) (id : Z) : Z := map_sum (λ _ e, if decide (hn_object_id e = id) then 1 else 0) (ht_entries t).

Lemma refs_nonneg t id : 0 ≤ refs t id.
Proof. apply map_sum_nonneg. intros. case_decide; lia. Qed.
Lemma refs_positive t h e : ht_entries t !! h = Some e → 0 < refs t (hn_object_id e).
Proof.
  intros He. pose proof (map_sum_elem_le (λ (_ : Z) e', if decide (hn_object_id e' = hn_object_id e) then 1 else 0) (ht_entries t) h e) as H.
  cbn beta in H. rewrite decide_True in H by done. unfold refs.
  assert (1 ≤ map_sum (λ (_ : Z) e', if decide (hn_object_id e' = hn_object_id e) then 1 else 0) (ht_entries t)); [|lia].
  apply H; [intros; case_decide; lia|done].
Qed.
Lemma refs_zero t id h e : refs t id = 0 → ht_entries t !! h = Some e → hn_object_id e ≠ id.
Proof. intros H0 He E. pose proof (refs_positive t h e He). rewrite E in *. lia. Qed.
Lemma refs_witness t id : 0 < refs t id → ∃ h e, ht_entries t !! h = Some e ∧ hn_object_id e = id.
Proof.
  intros Hpos. destruct (decide (Exists (λ p, hn_object_id p.2 = id) (map_to_list (ht_entries t)))) as [H|H].
  - apply Exists_exists in H as ([h e] & Hin & E). apply elem_of_map_to_list in Hin. by exists h, e.
  - exfalso. unfold refs in Hpos. rewrite (map_sum_ext _ (λ _ _, 0)) in Hpos.
    + assert (map_sum (λ (_ : Z) (_ : HandleEntry), 0) (ht_entries t) ≤ 0); [|lia].
      clear. induction (ht_entries t) as [|k v m Hk IH] using map_ind; [done|]. by rewrite map_sum_insert.
    + intros h e He. case_decide as E; [|done]. destruct H. apply Exists_exists. exists (h, e). by rewrite elem_of_map_to_list.
Qed.

Lemma refs_inserted t o m b id : ht_ok t → has_room t →
  refs (inserted t o m b) id = refs t id + if decide (id = o) then 1 else 0.
Proof.
  intros Hok Hroom. destruct (next_handle_fresh t Hok Hroom) as (Hfree & _). unfold refs, inserted. cbn [ht_entries ht_set_entries].
  rewrite map_sum_insert by done. cbn [fresh_entry hn_object_id]. rewrite (decide_if_ext (o = id) (id = o)) by (split; congruence). lia.
Qed.
Lemma refs_closed t h e id : ht_entries t !! h = Some e →
  refs (closed_table h t) id = refs t id - if decide (id = hn_object_id e) then 1 else 0.
Proof.
  intros He. unfold refs. change (ht_entries (closed_table h t)) with (delete h (ht_entries t)). rewrite (map_sum_delete _ _ h e He).
  rewrite (decide_if_ext (hn_object_id e = id) (id = hn_object_id e)) by (split; congruence). lia.
Qed.
Lemma refs_alter b h t id : map_sum (λ (_ : Z) e, if decide (hn_object_id e = id) then 1 else 0) (alter (hn_set_inheritable b) h (ht_entries t)) = refs t id.
Proof.
  unfold refs. destruct (ht_entries t !! h) as [e|] eqn:E.
  - rewrite (alter_is_insert _ _ _ _ E), (map_sum_update _ _ _ _ _ E). cbn [hn_set_inheritable hn_object_id]. lia.
  - f_equal. apply map_eq. intros x. destruct (decide (x = h)) as [->|Hne]; [by rewrite lookup_alter_eq, E|by rewrite lookup_alter_ne].
Qed.

(** Handles are multiples of four. *)
Lemma refs_bound t n id : ht_ok t → 0 ≤ n → ht_next t ≤ 4 * n + 4 → refs t id ≤ n.
Proof.
  intros Hok Hn Hnext. transitivity (Z.of_nat (size (ht_entries t))).
  - rewrite <-map_sum_const1. apply map_sum_le. intros. case_decide; lia.
  - rewrite <-size_dom. assert (dom (ht_entries t) ⊆@{gset Z} list_to_set (Z.mul 4 <$> seqZ 1 n)) as Hsub.
    + intros h [e He]%elem_of_dom. apply elem_of_list_to_set, list_elem_of_fmap. destruct (tb_live t Hok h e He) as [[Hr Hm] _].
      exists (h / 4). rewrite elem_of_seqZ. pose proof (Z.div_mod h 4). lia.
    + apply subseteq_size in Hsub. rewrite size_list_to_set in Hsub.
      * rewrite length_fmap, length_seqZ in Hsub. lia.
      * apply NoDup_fmap; [intros x y ?; lia|apply NoDup_seqZ].
Qed.

(** ** The invariant *)

Definition call_limit : Z := 2 ^ 30 - 2.
Definition apc_total (m : gmap Z (list ApcRequest)) : Z := map_sum (λ _ l, Z.of_nat (length l)) m.

Record win_ok {O} (n : Z) (w : Win32Subsystem O) : Prop := {
  wk_n : 0 ≤ n;
  wk_table : ht_ok (ws_table w);
  wk_next : ht_next (ws_table w) ≤ 4 * n + 4;
  wk_objects : objects_ok (refs (ws_table w)) None (ws_objects w);
  wk_ids : om_next_id (ws_objects w) ≤ 2 ^ 63 + n;
  wk_recursion : recursion_le n (ws_objects w);
  wk_threads : ∀ id t, om_objects (ws_objects w) !! id = Some (KThread t) → is_Some (ws_threads w !! t);
  wk_thread_ids : ws_next_thread_id w ≤ n + 2;
  wk_queued : ac_queued (ws_apc_counters w) ≤ n;
  wk_alertable : ac_alertable_waits (ws_apc_counters w) ≤ n;
  wk_delivered : ac_delivered (ws_apc_counters w) + apc_total (ws_thread_apcs w) ≤ ac_queued (ws_apc_counters w) }.

Lemma entry_object {O} n (w : Win32Subsystem O) h e : win_ok n w → ht_entries (ws_table w) !! h = Some e →
  ∃ o hd, om_objects (ws_objects w) !! hn_object_id e = Some o ∧ om_headers (ws_objects w) !! hn_object_id e = Some hd ∧
    hd_id hd = hn_object_id e ∧ hd_ty hd = payload_type o ∧ hd_refcount hd = refs (ws_table w) (hn_object_id e) ∧
    om_handle_counts (ws_objects w) !! hn_object_id e = Some (refs (ws_table w) (hn_object_id e)).
Proof.
  intros Hok He. pose proof (ob_object _ _ _ (wk_objects _ _ Hok) (hn_object_id e)) as Ho. unfold object_ok in Ho.
  pose proof (refs_positive _ _ _ He). destruct (om_objects (ws_objects w) !! hn_object_id e) as [o|].
  - destruct Ho as (hd & H1 & H2 & H3 & H4 & H5 & _). by exists o, hd.
  - destruct Ho as (_ & _ & H0). lia.
Qed.
Lemma object_header {O} n (w : Win32Subsystem O) id o : win_ok n w → om_objects (ws_objects w) !! id = Some o →
  ∃ hd, om_headers (ws_objects w) !! id = Some hd ∧ hd_ty hd = payload_type o.
Proof.
  intros Hok Hid. pose proof (ob_object _ _ _ (wk_objects _ _ Hok) id) as Ho. unfold object_ok in Ho. rewrite Hid in Ho.
  destruct Ho as (hd & H1 & _ & H3 & _). by exists hd.
Qed.
Lemma named_object {O} n (w : Win32Subsystem O) name id : win_ok n w → resolve name (ws_objects w) = Some id →
  ∃ o, om_objects (ws_objects w) !! id = Some o.
Proof.
  intros Hok Hid. destruct (ob_name _ _ _ (wk_objects _ _ Hok) _ _ Hid) as (hd & Hh & _).
  pose proof (ob_object _ _ _ (wk_objects _ _ Hok) id) as Ho. unfold object_ok in Ho.
  destruct (om_objects (ws_objects w) !! id) as [o|]; [by exists o|]. destruct Ho as [Hnone _]. by rewrite Hh in Hnone.
Qed.

(** ** Costs *)

Section grows.
Context {O : Type}.
#[local] Abbreviation W := (Win32Subsystem O).

Definition grows {A} (k : Z) (c : M W A) : Prop := ∀ n w, win_ok n w → n + k ≤ call_limit → wp c w (λ _ w', win_ok (n + k) w').

Lemma win_ok_mono n k (w : W) : 0 ≤ k → win_ok n w → win_ok (n + k) w.
Proof.
  intros Hk [H0 H1 H2 H3 H4 H5 H6 H7 H8 H9 H10]. split; try done; try lia. by apply recursion_le_mono.
Qed.
Lemma grows_weaken {A} k k' (c : M W A) : k ≤ k' → grows k c → grows k' c.
Proof.
  intros Hk Hc n w Hok Hn. eapply wp_mono; [apply (Hc n w Hok); lia|]. intros r w' Hok'. cbn beta in *.
  replace (n + k') with (n + k + (k' - k)) by lia. apply win_ok_mono; [lia|done].
Qed.
Lemma grows_bind {A B} k1 k2 (c : M W A) (f : A → M W B) : 0 ≤ k2 → grows k1 c → (∀ a, grows k2 (f a)) → grows (k1 + k2) (bind c f).
Proof.
  intros Hk Hc Hf n w Hok Hn. apply wp_bind. eapply wp_mono; [apply (Hc n w Hok); lia|]. intros [a|e] w' Hok'; cbn beta in *.
  - rewrite Z.add_assoc. apply Hf; [done|lia].
  - rewrite Z.add_assoc. by apply win_ok_mono.
Qed.
Lemma grows_bind_0 {A B} k (c : M W A) (f : A → M W B) : 0 ≤ k → grows 0 c → (∀ a, grows k (f a)) → grows k (bind c f).
Proof. intros. by apply (grows_bind 0). Qed.
Lemma grows_same {A} (c : M W A) : (∀ w, ∃ r, c w = Done r w) → grows 0 c.
Proof. intros H n w Hok _. unfold wp. destruct (H w) as [r ->]. by rewrite Z.add_0_r. Qed.
Lemma grows_ret {A} (a : A) : grows 0 (ret a).
Proof. apply grows_same. intros w. by exists (Ok a). Qed.
Lemma grows_throw {A} e : grows 0 (@throw W A e).
Proof. apply grows_same. intros w. by exists (Err e). Qed.
Lemma grows_gets {A} (f : W → A) : grows 0 (gets f).
Proof. apply grows_same. intros w. by exists (Ok (f w)). Qed.
Lemma grows_fail_if b e : grows 0 (@fail_if W b e).
Proof. apply grows_same. intros w. unfold fail_if. destruct b; by eexists. Qed.
Lemma grows_ok_or {A} (o : option A) e : grows 0 (@ok_or W A o e).
Proof. apply grows_same. intros w. unfold ok_or. destruct o; by eexists. Qed.
Lemma grows_match_option {A B} k (o : option A) (f : A → M W B) g : (∀ a, grows k (f a)) → grows k g → grows k (match o with Some a => f a | None => g end).
Proof. by destruct o. Qed.
Lemma grows_for_each {A} (f : A → M W unit) l : (∀ a, grows 1 (f a)) → grows (Z.of_nat (length l)) (for_each l f).
Proof.
  intros Hf. induction l as [|a l IH]; [apply grows_ret|]. cbn [for_each length].
  replace (Z.of_nat (S (length l))) with (1 + Z.of_nat (length l)) by lia. apply grows_bind; [lia|done|done].
Qed.

(** An operation that only reaches the objects. *)
Lemma win_ok_objects n k (w : W) s :
  0 ≤ k → win_ok n w → same_shape (ws_objects w) s → recursion_le (n + k) s → win_ok (n + k) (ws_set_objects s w).
Proof.
  intros Hk [H0 H1 H2 H3 H4 H5 H6 H7 H8 H9 H10] Hs Hr. split; cbn [ws_set_objects ws_table ws_objects ws_threads ws_next_thread_id ws_apc_counters ws_thread_apcs]; try done; try lia.
  - by eapply same_shape_ok.
  - rewrite (sp_next _ _ Hs). lia.
  - intros id t Ht. destruct (same_shape_object _ _ _ _ Hs Ht) as (o & Ho & E). unfold object_shape in E. destruct o; try done. injection E as ->.
    by eapply H6.
Qed.
Lemma grows_tame {A} k (c : M ObjectManager A) : 0 ≤ k → tame k c → grows k (on_objects c).
Proof.
  intros Hk Hc n w Hok Hn. unfold wp, on_objects. cbn [zoom].
  assert (n + k ≤ u32_max) as Hlim by (unfold call_limit, u32_max in *; lia).
  specialize (Hc n (ws_objects w) (wk_n _ _ Hok) Hlim (wk_recursion _ _ Hok)). unfold wp in Hc.
  destruct (c (ws_objects w)) as [r s|]; [|done]. destruct Hc as [Hs Hr]. by apply win_ok_objects.
Qed.
Lemma grows_objects_fun f : (∀ s, same_shape s (f s)) → (∀ n s, recursion_le n s → recursion_le n (f s)) → grows 0 (on_objects (modify f)).
Proof.
  intros Hs Hr. apply grows_tame; [done|]. intros n s _ _ Hn. unfold wp. cbn [modify]. rewrite Z.add_0_r. split; [done|]. by apply Hr.
Qed.

(** ** Reading *)

Lemma on_table_read {A} (c : M HandleTable A) (w : W) r : c (ws_table w) = Done r (ws_table w) → on_table c w = Done r w.
Proof. intros H. unfold on_table. cbn [zoom]. rewrite H. by destruct w. Qed.
Lemma on_objects_read {A} (c : M ObjectManager A) (w : W) r : c (ws_objects w) = Done r (ws_objects w) → on_objects c w = Done r w.
Proof. intros H. unfold on_objects. cbn [zoom]. rewrite H. by destruct w. Qed.
Lemma entry_run h (w : W) :
  on_table (entry h) w = Done (match ht_entries (ws_table w) !! h with Some e => Ok e | None => Err RcWin32InvalidHandle end) w.
Proof. apply on_table_read. unfold entry, get_entry. cbn [bind gets]. unfold id. by destruct (ht_entries (ws_table w) !! h). Qed.
Lemma object_of_run id (w : W) o : om_objects (ws_objects w) !! id = Some o → on_objects (object_of id) w = Done (Ok o) w.
Proof. intros H. apply on_objects_read. unfold object_of. cbn [bind gets]. unfold Datatypes.id. by rewrite H. Qed.
Lemma object_type_run n id (w : W) o : win_ok n w → om_objects (ws_objects w) !! id = Some o →
  on_objects (object_type id) w = Done (Ok (payload_type o)) w.
Proof.
  intros Hok H. destruct (object_header n w id o Hok H) as (hd & Hh & Ety). apply on_objects_read. unfold object_type. cbn [bind gets].
  unfold Datatypes.id. rewrite Hh. cbn [fmap option_fmap option_map expect]. by rewrite Ety.
Qed.

Definition view_of (w : W) (e : HandleEntry) (o : KernelObject) : HandleView :=
  {| hv_object_id := hn_object_id e; hv_object_type := payload_type o; hv_access_mask := hn_access_mask e;
     hv_refcount := refs (ws_table w) (hn_object_id e); hv_inheritable := hn_inheritable e; hv_object := o |}.
Lemma handle_entry_run n (w : W) h : win_ok n w →
  (ht_entries (ws_table w) !! h = None ∧ handle_entry h w = Done (Err RcWin32InvalidHandle) w) ∨
  ∃ e o, ht_entries (ws_table w) !! h = Some e ∧ om_objects (ws_objects w) !! hn_object_id e = Some o ∧
    handle_entry h w = Done (Ok (view_of w e o)) w.
Proof.
  intros Hok. unfold handle_entry. destruct (ht_entries (ws_table w) !! h) as [e|] eqn:He.
  - right. destruct (entry_object n w h e Hok He) as (o & hd & Ho & _ & _ & _ & _ & Ec). exists e, o. split_and!; [done|done|].
    cbn [bind]. rewrite entry_run, He. rewrite (object_type_run n _ w o Hok Ho). cbn [gets]. rewrite (object_of_run _ w o Ho). cbn [ret].
    unfold view_of, handle_count, Datatypes.id. by rewrite Ec.
  - left. split; [done|]. cbn [bind]. by rewrite entry_run, He.
Qed.
Lemma grows_handle_entry h : grows 0 (handle_entry (O := O) h).
Proof.
  intros n w Hok _. unfold wp. rewrite Z.add_0_r. by destruct (handle_entry_run n w h Hok) as [[_ ->]|(e & o & _ & _ & ->)].
Qed.
Lemma handle_object_run n (w : W) h : win_ok n w →
  (ht_entries (ws_table w) !! h = None ∧ handle_object h w = Done (Err RcWin32InvalidHandle) w) ∨
  ∃ e o, ht_entries (ws_table w) !! h = Some e ∧ om_objects (ws_objects w) !! hn_object_id e = Some o ∧
    handle_object h w = Done (Ok (hn_object_id e, o)) w.
Proof.
  intros Hok. unfold handle_object. cbn [bind]. rewrite entry_run. destruct (ht_entries (ws_table w) !! h) as [e|] eqn:He; [|by left].
  right. destruct (entry_object n w h e Hok He) as (o & hd & Ho & _). exists e, o. by rewrite (object_of_run _ w o Ho).
Qed.
Lemma identity_run h (w : W) : handle_object_identity h w =
  Done (match ht_entries (ws_table w) !! h with Some e => Ok (hn_object_id e) | None => Err RcWin32InvalidHandle end) w.
Proof. unfold handle_object_identity. cbn [bind]. rewrite entry_run. by destruct (ht_entries (ws_table w) !! h). Qed.
Lemma grows_identity h : grows 0 (handle_object_identity (O := O) h).
Proof. apply grows_same. intros w. rewrite identity_run. by eexists. Qed.
End grows.

Create HintDb win32 discriminated.
#[export] Hint Resolve grows_ret grows_throw grows_gets grows_fail_if grows_ok_or grows_handle_entry grows_identity : win32.

(** Splits a body into its steps; what is left are the calls. *)
Ltac grow :=
  repeat (cbv zeta; lazymatch goal with
    | |- grows ?k (bind _ _) => apply (grows_bind_0 k); [lia|solve [eauto with win32]|intros ?]
    | |- grows _ (match ?x with _ => _ end) => destruct x
    | |- grows 0 _ => solve [eauto with win32]
    | |- grows 1 (ret _) => apply (grows_weaken 0); [lia|apply grows_ret]
    | |- grows 1 (throw _) => apply (grows_weaken 0); [lia|apply grows_throw]
    | |- grows 1 _ => solve [eauto with win32]
    end).
End Wf.
