(* ===== verification/Win32CallFacts.v ===== *)
(** * The Win32 subsystem: what each call costs and keeps *)

From S2P Require Import Prelude Strings Win32Types HandleTable KernelObjects Win32 Win32Wait HandleTableFacts KernelObjectsFacts Win32Facts.

Module Wc.
Import Ht Ko Wf.

(** What telling the peers of a pipe may change: the payloads of pipes, the events
    that wait for them, and the rest. *)
Record peers_told {O} (w w' : Win32Subsystem O) : Prop := {
  pt_table : ws_table w' = ws_table w;
  pt_shape : same_shape (ws_objects w) (ws_objects w');
  pt_mutex : ∀ id m, om_objects (ws_objects w') !! id = Some (KMutex m) → om_objects (ws_objects w) !! id = Some (KMutex m);
  pt_threads : ws_threads w' = ws_threads w;
  pt_thread_ids : ws_next_thread_id w' = ws_next_thread_id w;
  pt_counters : ws_apc_counters w' = ws_apc_counters w;
  pt_apcs : ws_thread_apcs w' = ws_thread_apcs w }.
Lemma peers_told_refl {O} (w : Win32Subsystem O) : peers_told w w.
Proof. by split. Qed.
Lemma peers_told_ok {O} n (w w' : Win32Subsystem O) : peers_told w w' → win_ok n w → win_ok n w'.
Proof.
  intros [E1 Hs Hm E3 E4 E5 E6] [H0 H1 H2 H3 H4 H5 H6 H7 H8 H9 H10]. split; rewrite ?E1, ?E3, ?E4, ?E5, ?E6; try done.
  - by eapply same_shape_ok.
  - by rewrite (sp_next _ _ Hs).
  - intros id m Hid. by eapply H5, Hm.
  - intros id t Hid. pose proof (sp_objects _ _ Hs id) as Hsh. rewrite Hid in Hsh. destruct (om_objects (ws_objects w) !! id) as [o|] eqn:Ho; [|done].
    injection Hsh as Hty Ht. destruct o; try done. injection Ht as <-. by eapply H6.
Qed.

(** The rest of the subsystem returns, and stays out of the handles and the objects;
    of the objects the end of a pipe touches pipes and events only. *)
Class Win32RestLaws (O : Type) `{!Win32Rest O} : Prop := {
  close_file_returns : ∀ payload last (o : O), wr_close_file payload last o ≠ Panic;
  close_pipe_tells : ∀ n handle payload (w : Win32Subsystem O), win_ok n w → wp (wr_close_pipe handle payload) w (λ _ w', peers_told w w') }.

Section calls.
Context {O : Type} `{R : !Win32Rest O}.
#[local] Abbreviation W := (Win32Subsystem O).
Implicit Types (w : W).

(** ** Minting handles *)

Definition with_handle (t : HandleTable) (id : Z) (w : W) : W := ws_set_objects (handle_added id (ws_objects w)) (ws_set_table t w).

Lemma with_handle_ok n w0 w t extra id o :
  win_ok n w0 → n + 1 ≤ call_limit → ws_table w = ws_table w0 →
  ws_next_thread_id w ≤ n + 3 → ws_apc_counters w = ws_apc_counters w0 → ws_thread_apcs w = ws_thread_apcs w0 →
  ht_ok t → ht_next t ≤ 4 * n + 8 → (∀ x, refs t x = refs (ws_table w0) x + if decide (x = id) then 1 else 0) →
  objects_ok (refs (ws_table w0)) extra (ws_objects w) → extra = None ∨ extra = Some id →
  om_objects (ws_objects w) !! id = Some o → om_next_id (ws_objects w) ≤ 2 ^ 63 + n + 1 → recursion_le (n + 1) (ws_objects w) →
  (∀ id t, om_objects (ws_objects w) !! id = Some (KThread t) → is_Some (ws_threads w !! t)) →
  win_ok (n + 1) (with_handle t id w).
Proof using.
  intros Hok Hlim Et Htid Ec Ea Ht Hnext Hrefs Hobj Hextra Hid Hids Hrec Hthr.
  pose proof (refs_bound (ws_table w0) n id (wk_table _ _ Hok) (wk_n _ _ Hok) (wk_next _ _ Hok)) as Hb.
  pose proof (wk_n _ _ Hok). pose proof (wk_queued _ _ Hok). pose proof (wk_alertable _ _ Hok). pose proof (wk_delivered _ _ Hok).
  assert (refs (ws_table w0) id < u32_max) as Hlt by (unfold call_limit, u32_max in *; lia).
  pose proof (handle_added_ok _ extra _ id o _ Hobj Hid Hextra Hlt (refs_nonneg _ _) Hrefs) as Hobj'.
  split; unfold with_handle; cbn [ws_set_objects ws_set_table ws_table ws_objects ws_threads ws_next_thread_id ws_apc_counters ws_thread_apcs];
    rewrite ?Ec, ?Ea; try done; try lia.
  change (om_next_id (ws_objects w) ≤ 2 ^ 63 + (n + 1)). lia.
Qed.

Lemma has_room_below n t : 0 ≤ n → n + 1 ≤ call_limit → ht_next t ≤ 4 * n + 4 → has_room t.
Proof using. intros ???. right. unfold call_limit, u32_max in *. lia. Qed.
Lemma inserted_next t o m b : ht_next (inserted t o m b) ≤ ht_next t + 4.
Proof using.
  unfold inserted, taken. destruct (ht_closed t); cbn [ht_next ht_set_entries ht_set_next ht_set_closed]; unfold saturating_add; lia.
Qed.

Lemma insert_object_id_run n w id o mask inh : win_ok n w → om_objects (ws_objects w) !! id = Some o →
  insert_object_id id mask inh w =
    Done (Ok (next_handle (ws_table w)))
      (with_handle (record_history (next_handle (ws_table w)) (payload_type o) (inserted (ws_table w) id mask inh)) id w).
Proof using.
  intros Hok Hid. unfold insert_object_id. cbn [bind]. rewrite (object_type_run n id w o Hok Hid). unfold on_table. cbn [zoom].
  rewrite insert_value_run. cbn [modify zoom bind on_objects]. done.
Qed.
Lemma insert_object_id_ok n w id o mask inh : win_ok n w → n + 1 ≤ call_limit → om_objects (ws_objects w) !! id = Some o →
  wp (insert_object_id id mask inh) w (λ r w', (∃ h, r = Ok h) ∧ win_ok (n + 1) w').
Proof using.
  intros Hok Hn Hid. unfold wp. rewrite (insert_object_id_run n w id o mask inh Hok Hid). split; [by eexists|].
  pose proof (has_room_below n _ (wk_n _ _ Hok) Hn (wk_next _ _ Hok)) as Hroom. pose proof (wk_table _ _ Hok) as Ht.
  eapply (with_handle_ok n w w _ None id o); try done.
  - pose proof (wk_thread_ids _ _ Hok). lia.
  - by apply history_ok, inserted_ok.
  - change (ht_next (inserted (ws_table w) id mask inh) ≤ 4 * n + 8). pose proof (inserted_next (ws_table w) id mask inh). pose proof (wk_next _ _ Hok). lia.
  - intros x. change (refs (inserted (ws_table w) id mask inh) x = refs (ws_table w) x + (if decide (x = id) then 1 else 0)). by apply refs_inserted.
  - by eapply wk_objects.
  - by left.
  - pose proof (wk_ids _ _ Hok). lia.
  - apply recursion_le_mono; [lia|]. by eapply wk_recursion.
  - by eapply wk_threads.
Qed.

(** A new object, which may be that of a thread which has its state already. *)
Lemma insert_object_named_ok n w w1 ty name mask inh o :
  win_ok n w → n + 1 ≤ call_limit → payload_type o = ty → (∀ m, o = KMutex m → mx_recursion m ≤ n + 1) →
  (∀ t, o = KThread t → is_Some (ws_threads w1 !! t)) →
  ws_table w1 = ws_table w → ws_objects w1 = ws_objects w → ws_next_thread_id w1 ≤ n + 3 →
  ws_apc_counters w1 = ws_apc_counters w → ws_thread_apcs w1 = ws_thread_apcs w →
  (∀ t, is_Some (ws_threads w !! t) → is_Some (ws_threads w1 !! t)) →
  ∃ w', insert_object_named ty name mask inh o w1 = Done (Ok (next_handle (ws_table w))) w' ∧ win_ok (n + 1) w' ∧
    ws_objects w' = handle_added (om_next_id (ws_objects w)) (inserted_object ty name None o (ws_objects w)) ∧
    ws_table w' = record_history (next_handle (ws_table w)) ty (inserted (ws_table w) (om_next_id (ws_objects w)) mask inh) ∧
    ws_threads w' = ws_threads w1 ∧ ws_current_thread_id w' = ws_current_thread_id w1 ∧ ws_ticks_ms w' = ws_ticks_ms w1.
Proof using.
  intros Hok Hn Hty Hmx Hthr Et Eo Htid Ec Ea Hkeep. set (id := om_next_id (ws_objects w)). pose proof (wk_objects _ _ Hok) as Hobj.
  assert (om_next_id (ws_objects w) + 1 < 2 ^ 64) as Hids by (pose proof (wk_ids _ _ Hok); unfold call_limit in *; lia).
  pose proof (inserted_object_ok _ ty name None o _ Hobj Hids Hty) as Hins. set (s1 := inserted_object ty name None o (ws_objects w)) in *.
  pose proof (fresh_identity _ _ Hobj) as (Hnone & _ & H0).
  assert (om_objects s1 !! id = Some o) as Hid by (unfold s1, inserted_object; cbn [om_objects]; apply lookup_insert_eq).
  pose proof (has_room_below n _ (wk_n _ _ Hok) Hn (wk_next _ _ Hok)) as Hroom. pose proof (wk_table _ _ Hok) as Ht.
  set (t := record_history (next_handle (ws_table w)) ty (inserted (ws_table w) id mask inh)).
  exists (with_handle t id (ws_set_objects s1 w1)). split.
  { unfold insert_object_named, on_objects. cbn [bind zoom]. rewrite Eo, insert_object_run. fold s1. cbn [bind].
    unfold insert_object_id. cbn [bind]. unfold on_objects at 1. cbn [zoom ws_objects ws_set_objects]. unfold object_type. cbn [bind gets].
    unfold Datatypes.id. replace (om_headers s1 !! om_next_id (ws_objects w)) with
      (Some {| hd_id := id; hd_ty := ty; hd_name := canonical_object_name <$> name; hd_refcount := 0; hd_security_descriptor := None;
               hd_wait_state := WsNotSignaled |}) by (unfold s1, inserted_object; cbn [om_headers]; by rewrite lookup_insert_eq).
    cbn [fmap option_fmap option_map expect hd_ty bind]. unfold on_table, on_objects. cbn [zoom bind ws_table ws_set_objects ws_set_table].
    rewrite Et, insert_value_run. cbn [modify zoom bind ws_objects ws_set_objects ws_set_table ret]. done. }
  split; [|done].
  eapply (with_handle_ok n w _ t (Some id) id o); try done.
  - by apply history_ok, inserted_ok.
  - change (ht_next (inserted (ws_table w) id mask inh) ≤ 4 * n + 8). pose proof (inserted_next (ws_table w) id mask inh). pose proof (wk_next _ _ Hok). lia.
  - intros x. change (refs (inserted (ws_table w) id mask inh) x = refs (ws_table w) x + (if decide (x = id) then 1 else 0)). by apply refs_inserted.
  - by right.
  - cbn [ws_objects ws_set_objects]. unfold s1, inserted_object. cbn [om_next_id]. rewrite Z.mod_small by (pose proof (ob_next _ _ _ Hobj); lia).
    pose proof (wk_ids _ _ Hok). lia.
  - cbn [ws_objects ws_set_objects]. intros x m. unfold s1, inserted_object. cbn [om_objects]. rewrite lookup_insert_Some. intros [[_ ->]|[_ Hx]]; [by apply Hmx|].
    pose proof (wk_recursion _ _ Hok _ _ Hx). lia.
  - cbn [ws_objects ws_threads ws_set_objects]. intros x t'. unfold s1, inserted_object. cbn [om_objects]. rewrite lookup_insert_Some.
    intros [[_ ->]|[_ Hx]]; [by apply Hthr|]. apply Hkeep. by eapply wk_threads.
Qed.

Lemma grows_insert_object_named ty name mask inh o :
  payload_type o = ty → (∀ m, o = KMutex m → mx_recursion m ≤ 1) → (∀ t, o ≠ KThread t) → grows 1 (insert_object_named (O := O) ty name mask inh o).
Proof using.
  intros Hty Hm Ht n w Hok Hn. pose proof (wk_n _ _ Hok). destruct (insert_object_named_ok n w w ty name mask inh o) as (w' & E & Hok' & _); try done.
  - intros m ->. specialize (Hm m eq_refl). lia.
  - intros t ->. by destruct (Ht t).
  - pose proof (wk_thread_ids _ _ Hok). lia.
  - unfold wp. by rewrite E.
Qed.

(** ** Objects by name *)

Lemma grows_insert_object_id (f : W → option Z) mask inh {A} (g : Z → A) (k : M W A) :
  (∀ n w id, win_ok n w → f w = Some id → ∃ o, om_objects (ws_objects w) !! id = Some o) → grows 1 k →
  grows 1 (w <- gets id ;; match f w with Some id => h <- insert_object_id id mask inh ;; ret (g h) | None => k end).
Proof using.
  intros Hf Hk n w Hok Hn. unfold wp. cbn [bind gets]. unfold Datatypes.id. destruct (f w) as [i|] eqn:E; [|by apply (Hk n w)].
  destruct (Hf n w i Hok E) as [o Ho]. pose proof (insert_object_id_ok n w i o mask inh Hok Hn Ho) as H. unfold wp in H.
  cbn [bind]. destruct (insert_object_id i mask inh w) as [r w'|]; [|done]. destruct H as [[h ->] H]. done.
Qed.

Lemma resolved_object n w (name : option str) i :
  win_ok n w → (n' ← name; resolve n' (ws_objects w)) = Some i → ∃ o, om_objects (ws_objects w) !! i = Some o.
Proof using. intros Hok. destruct name as [nm|]; [|done]. by apply (named_object n). Qed.

Lemma grows_create_event manual initial inh name : grows 1 (create_event (O := O) manual initial inh name).
Proof using.
  apply (grows_insert_object_id (λ w, n ← name; resolve n (ws_objects w)) _ _ (λ h, (h, true))).
  - intros n w i Hok. by apply (resolved_object n).
  - replace 1 with (1 + 0) by done. apply grows_bind; [done|by apply grows_insert_object_named|]. intros h. apply grows_ret.
Qed.
Lemma grows_open_named_event name : grows 1 (open_named_event (O := O) name).
Proof using.
  apply (grows_insert_object_id (λ w, resolve name (ws_objects w)) _ _ Some).
  - intros n w i Hok. by apply (named_object n).
  - apply (grows_weaken 0); [done|apply grows_ret].
Qed.
Lemma grows_open_event access inh name : grows 1 (open_event (O := O) access inh name).
Proof using.
  intros n w Hok Hn. unfold open_event, wp. cbn [bind gets]. unfold Datatypes.id. destruct (resolve name (ws_objects w)) as [i|] eqn:E; cbn [ok_or].
  - destruct (named_object n w name i Hok E) as [o Ho]. pose proof (insert_object_id_ok n w i o access inh Hok Hn Ho) as H. unfold wp in H.
    destruct (insert_object_id i access inh w) as [r w'|]; [|done]. by destruct H.
  - apply win_ok_mono; [lia|done].
Qed.

Lemma grows_create_named kind name ty access inh o :
  payload_type o = ty → (∀ m, o = KMutex m → mx_recursion m ≤ 1) → (∀ t, o ≠ KThread t) → grows 1 (create_named (O := O) kind name ty access inh o).
Proof using.
  intros Hty Hm Ht n w Hok Hn. unfold create_named, wp. cbn [bind gets]. unfold Datatypes.id.
  assert (grows 1 (handle <- insert_object_named (O := O) ty (Some name) access inh o ;; ret (handle, false))) as Hins.
  { replace 1 with (1 + 0) by done. apply grows_bind; [done|by apply grows_insert_object_named|]. intros h. apply grows_ret. }
  destruct (resolve name (ws_objects w)) as [i|] eqn:E; cbn [bind ret]; [|exact (Hins n w Hok Hn)].
  destruct (named_object n w name i Hok E) as [o' Ho']. rewrite (object_of_run i w o' Ho'). cbn [ret].
  destruct (if kind o' then find_handle_for_object i w else None) as [h|]; [|exact (Hins n w Hok Hn)]. apply win_ok_mono; [lia|done].
Qed.

(** ** Signals and waits *)

Lemma grows_consume i thread now : grows 1 (on_objects (O := O) (consume_wait i thread now)).
Proof using. apply grows_tame; [done|apply consume_wait_tame]. Qed.
Lemma grows_signal i : grows 0 (on_objects (O := O) (signal_event i)).
Proof using. apply grows_tame; [done|apply tame_signal]. Qed.
Lemma grows_reset i : grows 0 (on_objects (O := O) (reset_event i)).
Proof using. apply grows_tame; [done|apply tame_reset]. Qed.
Lemma grows_release i thread : grows 0 (on_objects (O := O) (release_mutex i thread)).
Proof using. apply grows_tame; [done|apply tame_release_mutex]. Qed.
Lemma grows_release_semaphore i c : grows 0 (on_objects (O := O) (release_semaphore i c)).
Proof using. apply grows_tame; [done|apply tame_release_semaphore]. Qed.
Lemma grows_abandon thread : grows 0 (mark_owned_mutexes_abandoned (O := O) thread).
Proof using. apply grows_tame; [done|apply tame_abandon]. Qed.

(** One object changed by a function that keeps its shape and its recursion. *)
Lemma grows_alter_object f i :
  (∀ o, object_shape (f o) = object_shape o) → (∀ o m, f o = KMutex m → ∃ m0, o = KMutex m0 ∧ mx_recursion m ≤ mx_recursion m0) →
  grows 0 (on_objects (O := O) (modify (om_alter_object f i))).
Proof using.
  intros Hs Hr. apply grows_objects_fun.
  - intros s. apply alter_object_tame. intros o _. apply Hs.
  - intros n s Hn. apply recursion_le_alter; [done|]. intros o m Ho E. destruct (Hr o m E) as (m0 & -> & Hle). specialize (Hn _ _ Ho). lia.
Qed.
(** An object changed by what was read of it. *)
Lemma grows_read_alter {A} (sel : KernelObject → option A) (f : A → KernelObject) h :
  (∀ o a, sel o = Some a → object_shape (f a) = object_shape o) → (∀ a m, f a ≠ KMutex m) →
  grows 0 ('(i, o) <- handle_object (O := O) h ;;
           match sel o with Some a => on_objects (modify (om_alter_object (λ _, f a) i)) | None => throw RcWin32InvalidHandle end).
Proof using.
  intros Hs Hm n w Hok Hn. unfold wp. cbn [bind]. rewrite Z.add_0_r.
  destruct (handle_object_run n w h Hok) as [[_ ->]|(e & o & He & Ho & ->)]; [done|]. destruct (sel o) as [a|] eqn:E; [|done].
  unfold on_objects. cbn [zoom modify]. rewrite <-(Z.add_0_r n). apply win_ok_objects; [done|done|..].
  - apply alter_object_tame. intros o' Ho'. rewrite Ho in Ho'. injection Ho' as <-. by apply Hs.
  - rewrite Z.add_0_r. apply recursion_le_alter; [by eapply wk_recursion|]. intros o' m _ E'. by destruct (Hm a m).
Qed.
Lemma grows_set_timer h due : grows 0 (set_waitable_timer (O := O) h due).
Proof using.
  pose proof (grows_read_alter (λ o, match o with KTimer t => Some t | _ => None end)
    (λ _, KTimer {| tm_due_tick := due; tm_signaled := false |}) h) as H.
  intros n w Hok Hn. specialize (H ltac:(by intros [] ?) ltac:(done) n w Hok Hn). unfold set_waitable_timer, wp in *. cbn [bind] in *.
  destruct (handle_object h w) as [[[i []]|]|]; exact H.
Qed.
Lemma grows_install_sync h sync : grows 0 (install_process_exit_sync (O := O) h sync).
Proof using.
  pose proof (grows_read_alter (λ o, match o with KProcess p => Some p | _ => None end)
    (λ p, KProcess {| po_process_id := po_process_id p; po_exit_code := po_exit_code p; po_exit_sync := Some sync |}) h) as H.
  intros n w Hok Hn. specialize (H ltac:(by intros [] ?) ltac:(done) n w Hok Hn). unfold install_process_exit_sync, wp in *. cbn [bind] in *.
  destruct (handle_object h w) as [[[i []]|]|]; exact H.
Qed.

(** ** Threads *)

Definition same_core (w w' : W) : Prop :=
  ws_table w' = ws_table w ∧ ws_objects w' = ws_objects w ∧ ws_threads w' = ws_threads w ∧ ws_next_thread_id w' = ws_next_thread_id w ∧
  ws_apc_counters w' = ws_apc_counters w ∧ ws_thread_apcs w' = ws_thread_apcs w.
Lemma win_ok_core n w w' : same_core w w' → win_ok n w → win_ok n w'.
Proof using.
  intros (E1 & E2 & E3 & E4 & E5 & E6) [H0 H1 H2 H3 H4 H5 H6 H7 H8 H9 H10]. by split; rewrite ?E1, ?E2, ?E3, ?E4, ?E5, ?E6.
Qed.
Lemma grows_core f : (∀ w, same_core w (f w)) → grows 0 (modify (S := W) f).
Proof using. intros Hf n w Hok _. unfold wp. cbn [modify]. rewrite Z.add_0_r. eapply win_ok_core; [apply Hf|done]. Qed.
Lemma win_ok_set_threads n w m :
  (∀ i t, om_objects (ws_objects w) !! i = Some (KThread t) → is_Some (m !! t)) → win_ok n w → win_ok n (ws_set_threads m w).
Proof using. intros Hm [H0 H1 H2 H3 H4 H5 H6 H7 H8 H9 H10]. by split. Qed.

Lemma grows_thread_id_of h : grows 0 (thread_id_of (O := O) h).
Proof using. unfold thread_id_of. grow. Qed.
Lemma grows_thread_state t : grows 0 (thread_state (O := O) t).
Proof using. unfold thread_state. grow. Qed.
Lemma grows_alter_thread f t : grows 0 (alter_thread (O := O) f t).
Proof using.
  intros n w Hok _. unfold wp, alter_thread. cbn [modify]. rewrite Z.add_0_r. apply win_ok_set_threads; [|done].
  intros i t' Hi. rewrite lookup_alter_is_Some. by eapply wk_threads.
Qed.
Definition with_thread (t : Z) (w : W) : W :=
  match ws_threads w !! t with Some _ => w | None => ws_set_threads (<[t := new_thread_state None 0]> (ws_threads w)) w end.
Lemma with_thread_ok n t w : win_ok n w → win_ok n (with_thread t w) ∧ is_Some (ws_threads (with_thread t w) !! t).
Proof using.
  intros Hok. unfold with_thread. destruct (ws_threads w !! t) as [x|] eqn:E; [by rewrite E|]. split.
  - apply win_ok_set_threads; [|done]. intros i t' Hi. pose proof (wk_threads _ _ Hok _ _ Hi). rewrite lookup_insert_is_Some. destruct (decide (t = t')); [by left|by right].
  - cbn [ws_threads ws_set_threads]. by rewrite lookup_insert_eq.
Qed.
Lemma grows_ensure_thread t : grows 0 (ensure_thread_state (O := O) t).
Proof using. intros n w Hok _. unfold wp, ensure_thread_state. cbn [modify]. rewrite Z.add_0_r. by apply (with_thread_ok n t w). Qed.

(** Whether some handle names an object of the thread. *)
Definition names_thread (w : W) (t : Z) (e : HandleEntry) : bool :=
  match om_objects (ws_objects w) !! hn_object_id e with Some o => is_thread_object t o | None => false end.
Lemma any_thread_handle_run n w t l : win_ok n w → (∀ e, e ∈ l → ∃ h, ht_entries (ws_table w) !! h = Some e) →
  any_thread_handle t l w = Done (Ok (existsb (names_thread w t) l)) w.
Proof using.
  intros Hok. induction l as [|e l IH]; intros Hl; [done|]. cbn [any_thread_handle existsb bind].
  destruct (Hl e) as [h He]; [left|]. destruct (entry_object n w h e Hok He) as (o & _ & Ho & _). rewrite (object_of_run _ w o Ho).
  unfold names_thread at 1. rewrite Ho. destruct (is_thread_object t o); [done|]. apply IH. intros e' He'. apply Hl. by right.
Qed.
Lemma entries_named n w t : win_ok n w →
  any_thread_handle t (bt_values (ht_entries (ws_table w))) w = Done (Ok (existsb (names_thread w t) (bt_values (ht_entries (ws_table w))))) w.
Proof using. intros Hok. apply (any_thread_handle_run n); [done|]. intros e He. by apply elem_of_bt_values in He. Qed.
Lemma unnamed_thread n w t i : win_ok n w → existsb (names_thread w t) (bt_values (ht_entries (ws_table w))) = false →
  om_objects (ws_objects w) !! i ≠ Some (KThread t).
Proof using.
  intros Hok Hex Hi. pose proof (ob_object _ _ _ (wk_objects _ _ Hok) i) as Ho. unfold object_ok in Ho. rewrite Hi in Ho.
  destruct Ho as (hd & _ & _ & _ & _ & _ & [Hpos|[? _]] & _); [|done]. destruct (refs_witness _ _ Hpos) as (h & e & He & Ei).
  assert (existsb (names_thread w t) (bt_values (ht_entries (ws_table w))) = true); [|congruence].
  apply existsb_exists. exists e. split; [apply list_elem_of_In, elem_of_bt_values; by exists h|]. unfold names_thread. rewrite Ei, Hi. simpl. lia.
Qed.
Lemma apc_total_delete t m : apc_total (delete t m) ≤ apc_total m.
Proof using.
  unfold apc_total. destruct (m !! t) as [l|] eqn:E; [|by rewrite map_sum_delete_None]. rewrite (map_sum_delete _ m t l E). lia.
Qed.
Lemma grows_cleanup t : grows 0 (cleanup_exited_thread_state (O := O) t).
Proof using.
  intros n w Hok _. unfold wp, cleanup_exited_thread_state. cbn [bind gets]. unfold Datatypes.id. rewrite Z.add_0_r.
  destruct (t =? ws_current_thread_id w); [done|]. cbn [bind]. rewrite (entries_named n w t Hok).
  destruct (existsb _ _) eqn:Ex; [done|]. destruct (has_exited t w); [|done]. cbn [bind modify on_rest].
  assert (win_ok n (ws_set_threads (delete t (ws_threads w)) w)) as Hok1.
  { apply win_ok_set_threads; [|done]. intros i t' Hi. pose proof (unnamed_thread n w t i Hok Ex). rewrite lookup_delete_ne; [by eapply wk_threads|]. by intros <-. }
  destruct Hok1 as [H0 H1 H2 H3 H4 H5 H6 H7 H8 H9 H10]. split; try done.
  cbn [ws_apc_counters ws_thread_apcs ws_set_rest ws_set_apcs ws_set_threads] in *. pose proof (apc_total_delete t (ws_thread_apcs w)). lia.
Qed.
Lemma grows_exited f : grows 0 (modify (λ w : W, ws_set_exited (f w) w)).
Proof using. by apply grows_core. Qed.
End calls.
#[export] Hint Resolve grows_consume grows_signal grows_reset grows_release grows_release_semaphore grows_abandon : win32.
#[export] Hint Resolve grows_thread_id_of grows_thread_state grows_alter_thread grows_ensure_thread grows_cleanup grows_exited : win32.

Section thread_calls.
Context {O : Type} `{R : !Win32Rest O}.
#[local] Abbreviation W := (Win32Subsystem O).
Implicit Types (w : W).

Lemma grows_set_exit_by_id t code : grows 0 (set_thread_exit_code_by_id (O := O) t code).
Proof using. unfold set_thread_exit_code_by_id. grow. Qed.
Lemma grows_exit_thread h code : grows 0 (exit_thread (O := O) h code).
Proof using. unfold exit_thread. grow. apply grows_set_exit_by_id. Qed.
Lemma grows_terminate_thread h code : grows 0 (terminate_thread (O := O) h code).
Proof using. unfold terminate_thread, require_access. grow. Qed.
Lemma grows_change_suspend f h : grows 0 (change_suspend (O := O) f h).
Proof using. unfold change_suspend, require_access. grow. Qed.
Lemma grows_set_priority h p : grows 0 (set_thread_priority (O := O) h p).
Proof using. unfold set_thread_priority, require_access. grow. Qed.
Lemma grows_get_exit_code h : grows 0 (get_exit_code_thread (O := O) h).
Proof using. unfold get_exit_code_thread, require_access. grow. Qed.

Lemma grows_create_thread code priority signaled inh : grows 1 (create_thread (O := O) code priority signaled inh).
Proof using.
  intros n w Hok Hn. unfold create_thread, wp. cbn [bind gets]. unfold Datatypes.id, add_at. pose proof (wk_thread_ids _ _ Hok). pose proof (wk_n _ _ Hok).
  rewrite (proj2 (Z.leb_le _ _)) by (unfold call_limit, u32_max in *; lia). cbn [bind modify]. unfold insert_object.
  set (w1 := ws_set_threads _ _). destruct (insert_object_named_ok n w w1 OtThread None 0x1F03FF inh (KThread (ws_next_thread_id w))) as (w' & E & Hok' & _); try done.
  - intros t [= <-]. unfold w1. cbn [ws_threads ws_set_threads]. by rewrite lookup_insert_eq.
  - unfold w1. cbn. lia.
  - intros t Ht. unfold w1. cbn [ws_threads ws_set_threads ws_set_thread_ids]. rewrite lookup_insert_is_Some. destruct (decide (ws_next_thread_id w = t)); [by left|by right].
  - by rewrite E.
Qed.
Lemma grows_open_thread t access inh : grows 1 (open_thread (O := O) t access inh).
Proof using.
  intros n w Hok Hn. unfold open_thread, wp. cbn [bind gets]. unfold Datatypes.id. pose proof (wk_thread_ids _ _ Hok).
  destruct (negb (thread_exists t w)); [apply win_ok_mono; [lia|done]|]. cbn [bind ensure_thread_state modify]. fold (with_thread t w).
  destruct (with_thread_ok n t w Hok) as [Hok1 Hsome]. pose proof (wk_thread_ids _ _ Hok1).
  destruct (insert_object_named_ok n (with_thread t w) (with_thread t w) OtThread None access inh (KThread t)) as (w' & E & Hok' & _); try done.
  - by intros t' [= <-].
  - lia.
  - unfold insert_object. by rewrite E.
Qed.

(** ** Asynchronous procedure calls *)

Lemma apc_total_insert t l m : apc_total (<[t := l]> m) = apc_total m - Z.of_nat (length (default [] (m !! t))) + Z.of_nat (length l).
Proof using.
  unfold apc_total. destruct (m !! t) as [l0|] eqn:E.
  - rewrite (map_sum_update _ m t l0 l E). done.
  - rewrite map_sum_insert by done. simpl. lia.
Qed.
Lemma win_ok_set_apcs n k w m c x : 0 ≤ k → win_ok n w → ac_queued c ≤ n + k → ac_alertable_waits c ≤ n + k →
  ac_delivered c + apc_total m ≤ ac_queued c → win_ok (n + k) (ws_set_apcs m c x w).
Proof using.
  intros Hk Hok H1 H2 H3. destruct (win_ok_mono n k w Hk Hok) as [G0 G1 G2 G3 G4 G5 G6 G7 G8 G9 G10]. by split.
Qed.
Lemma grows_push_apc t callback context kind token : grows 1 (push_apc (O := O) t callback context kind token).
Proof using.
  intros n w Hok Hn. unfold push_apc, wp. cbn [bind gets]. unfold Datatypes.id, add_at. pose proof (wk_queued _ _ Hok). pose proof (wk_alertable _ _ Hok).
  pose proof (wk_delivered _ _ Hok). pose proof (wk_n _ _ Hok).
  rewrite (proj2 (Z.leb_le _ _)) by (unfold call_limit, u64_max in *; lia). cbn [modify]. apply win_ok_set_apcs; cbn [ac_queued ac_delivered ac_alertable_waits]; [lia|done|lia|lia|].
  rewrite apc_total_insert, length_app. destruct (ws_thread_apcs w !! t); simpl; lia.
Qed.
Lemma grows_take_pending t : grows 0 (take_pending_apcs (O := O) t).
Proof using.
  intros n w Hok Hn. unfold take_pending_apcs, wp. cbn [bind gets]. unfold Datatypes.id. pose proof (wk_queued _ _ Hok). pose proof (wk_alertable _ _ Hok).
  pose proof (wk_delivered _ _ Hok) as Hd. pose proof (wk_n _ _ Hok).
  destruct (ws_thread_apcs w !! t) as [l|] eqn:E; [|by cbn [ret]; rewrite Z.add_0_r].
  pose proof (apc_total_insert t [] (ws_thread_apcs w)) as Et. rewrite E in Et. simpl in Et.
  assert (0 ≤ apc_total (<[t:=[]]> (ws_thread_apcs w))) as Hpos by (apply map_sum_nonneg; lia).
  cbn [bind modify]. destruct l as [|a l].
  - cbn [bind ret]. apply win_ok_set_apcs; [done|done|lia|lia|]. simpl in Et. lia.
  - cbn [bind]. unfold add_at. rewrite (proj2 (Z.leb_le _ _)) by (unfold call_limit, u64_max in *; lia). cbn [modify ret].
    rewrite <-(Z.add_0_r n). apply win_ok_set_apcs; cbn [ac_queued ac_delivered ac_alertable_waits]; [done| |lia..].
    rewrite Z.add_0_r. destruct Hok as [G0 G1 G2 G3 G4 G5 G6 G7 G8 G9 G10]. split; try done. cbn [ws_set_apcs ws_apc_counters ws_thread_apcs]. simpl in Et. lia.
Qed.
Lemma grows_take_for_handle h : grows 0 (take_pending_apcs_for_handle (O := O) h).
Proof using.
  unfold take_pending_apcs_for_handle. apply grows_bind_0; [done| |intros t; apply grows_take_pending]. destruct h; grow.
Qed.
Lemma grows_count_alertable : grows 1 (count_alertable (O := O)).
Proof using.
  intros n w Hok Hn. unfold count_alertable, wp. cbn [bind gets]. unfold Datatypes.id, add_at. pose proof (wk_queued _ _ Hok). pose proof (wk_alertable _ _ Hok).
  pose proof (wk_delivered _ _ Hok). pose proof (wk_n _ _ Hok).
  rewrite (proj2 (Z.leb_le _ _)) by (unfold call_limit, u64_max in *; lia). cbn [modify].
  apply win_ok_set_apcs; cbn [ac_queued ac_delivered ac_alertable_waits]; [lia|done|lia|lia|lia].
Qed.
Lemma grows_test_alert : grows 1 (test_alert (O := O)).
Proof using.
  unfold test_alert. apply grows_bind_0; [done|apply grows_gets|]. intros w. apply grows_bind_0; [done|apply grows_take_pending|].
  intros [|a l]; [apply (grows_weaken 0); [done|apply grows_ret]|]. replace 1 with (1 + 0) by done. apply grows_bind; [done|apply grows_count_alertable|].
  intros []. apply grows_ret.
Qed.
End thread_calls.
#[export] Hint Resolve grows_take_for_handle : win32.
End Wc.
