(* ===== verification/Win32CloseFacts.v ===== *)
(** * The Win32 subsystem: duplicating, closing and waiting *)

From S2P Require Import Prelude Strings Win32Types HandleTable KernelObjects Win32 Win32Wait HandleTableFacts KernelObjectsFacts Win32Facts Win32CallFacts.

Module Wl.
Import Ht Ko Wf Wc.

Section closing.
Context {O : Type} `{R : !Win32Rest O} `{L : !Win32RestLaws O}.
#[local] Abbreviation W := (Win32Subsystem O).
Implicit Types (w : W).

(** ** Sockets and duplicates *)

Lemma grows_insert_socket : grows 1 (insert_socket (O := O)).
Proof using.
  unfold insert_socket. replace 1 with (1 + 0) by done. apply grows_bind; [done|by apply grows_insert_object_named|]. intros h.
  intros n w Hok Hn. unfold wp. cbn [bind]. rewrite Z.add_0_r. destruct (handle_object_run n w h Hok) as [[_ ->]|(e & o & He & Ho & ->)]; [done|].
  pose proof (grows_alter_object (O := O) (λ o, match o with KSocket _ => KSocket h | _ => o end) (hn_object_id e)) as H.
  specialize (H ltac:(by intros [])). assert (∀ o m, match o with KSocket _ => KSocket h | _ => o end = KMutex m → ∃ m0, o = KMutex m0 ∧ mx_recursion m ≤ mx_recursion m0) as Hm.
  { intros [] m; try done. intros [= ->]. by exists m. }
  specialize (H Hm n w Hok Hn). unfold wp in H. rewrite Z.add_0_r in H. exact H.
Qed.

(** A duplicate names the object of its source. *)
Lemma duplicate_value_run n w h e o mask inh : win_ok n w → n + 1 ≤ call_limit → ht_entries (ws_table w) !! h = Some e →
  om_objects (ws_objects w) !! hn_object_id e = Some o →
  let d := next_handle (ws_table w) in
  let w' := with_handle (inserted (ws_table w) (hn_object_id e) mask inh) (hn_object_id e) w in
  (duplicated <- on_table (duplicate h mask inh) ;;
   e <- on_table (t <- gets id ;; expect (get_entry duplicated t)) ;;
   on_objects (modify (handle_added (hn_object_id e))) ;;; ret duplicated) w = Done (Ok d) w' ∧ win_ok (n + 1) w'.
Proof using.
  intros Hok Hn He Ho d w'. pose proof (has_room_below n _ (wk_n _ _ Hok) Hn (wk_next _ _ Hok)) as Hroom. pose proof (wk_table _ _ Hok) as Ht. split.
  - unfold on_table, duplicate, entry, get_entry. cbn [bind gets zoom]. unfold id. rewrite He. cbn [ok_or bind]. rewrite insert_value_run.
    cbn [zoom ws_table ws_set_table]. unfold inserted at 1. cbn [ht_entries ht_set_entries]. rewrite lookup_insert_eq. cbn [expect]. done.
  - eapply (with_handle_ok n w w _ None _ o); try done.
    + pose proof (wk_thread_ids _ _ Hok). lia.
    + by apply inserted_ok.
    + pose proof (inserted_next (ws_table w) (hn_object_id e) mask inh). pose proof (wk_next _ _ Hok). lia.
    + intros x. by apply refs_inserted.
    + by eapply wk_objects.
    + by left.
    + pose proof (wk_ids _ _ Hok). lia.
    + apply recursion_le_mono; [lia|]. by eapply wk_recursion.
    + by eapply wk_threads.
Qed.

(** ** Closing *)

(** The entry and one reference of the object, gone. *)
Definition without_handle (h : Z) (s : ObjectManager) (w : W) : W := ws_set_objects s (ws_set_table (closed_table h (ws_table w)) w).

Lemma remove_handle_ok n w h e o : win_ok n w → ht_entries (ws_table w) !! h = Some e → om_objects (ws_objects w) !! hn_object_id e = Some o →
  ∃ s, handle_removed (hn_object_id e) (ws_objects w) = Done (Ok (refs (ws_table w) (hn_object_id e) =? 1)) s ∧
    win_ok n (without_handle h s w) ∧
    om_objects s = (if refs (ws_table w) (hn_object_id e) =? 1 then delete (hn_object_id e) (om_objects (ws_objects w)) else om_objects (ws_objects w)).
Proof using.
  intros Hok He Ho. pose proof (refs_positive _ _ _ He) as Hpos. pose proof (wk_objects _ _ Hok) as Hobj.
  destruct (handle_removed_ok _ (ws_objects w) (hn_object_id e) o (refs (closed_table h (ws_table w))) Hobj Ho Hpos (λ x, refs_closed _ h e x He))
    as (s & E & Hobj' & Hos & _ & Hnext).
  assert ((refs (closed_table h (ws_table w)) (hn_object_id e) =? 0) = (refs (ws_table w) (hn_object_id e) =? 1)) as Eb.
  { rewrite (refs_closed _ h e _ He), decide_True by done. apply eq_true_iff_eq. rewrite !Z.eqb_eq. lia. }
  rewrite Eb in *. exists s. split; [done|]. split; [|done].
  assert (∀ i x, om_objects s !! i = Some x → om_objects (ws_objects w) !! i = Some x) as Hsub.
  { intros i x. rewrite Hos. destruct (_ =? 1); [|done]. by intros [_ ?]%lookup_delete_Some. }
  destruct Hok as [H0 H1 H2 H3 H4 H5 H6 H7 H8 H9 H10].
  split; unfold without_handle; cbn [ws_set_objects ws_set_table ws_table ws_objects ws_threads ws_next_thread_id ws_apc_counters ws_thread_apcs]; try done.
  - by eapply closed_table_ok.
  - by rewrite Hnext.
  - intros i m Hi. by eapply H5, Hsub.
  - intros i t Hi. by eapply H6, Hsub.
Qed.

(** An object that loses a handle: its count goes down to [left], and with the last
    handle the object goes, and the name it bears; no other object is touched. *)
Definition released (id left : Z) (s s' : ObjectManager) : Prop :=
  (∀ x, x ≠ id → om_objects s' !! x = om_objects s !! x ∧ om_headers s' !! x = om_headers s !! x ∧ om_handle_counts s' !! x = om_handle_counts s !! x) ∧
  om_next_id s' = om_next_id s ∧
  if left =? 0
  then om_objects s' !! id = None ∧ om_headers s' !! id = None ∧ om_handle_counts s' !! id = None ∧
       om_names s' = match om_headers s !! id ≫= hd_name with Some name => delete name (om_names s) | None => om_names s end ∧
       om_wakes s' = om_wakes s ++ [(id, true)]
  else om_objects s' !! id = om_objects s !! id ∧ om_headers s' !! id = hd_set_refcount left <$> om_headers s !! id ∧
       om_handle_counts s' !! id = Some left ∧ om_names s' = om_names s ∧ om_wakes s' = om_wakes s.
Lemma removed_released id c hd s b s' : om_handle_counts s !! id = Some c → om_headers s !! id = Some hd → 0 < c →
  handle_removed id s = Done (Ok b) s' → released id (c - 1) s s'.
Proof using.
  intros Hc Hh Hpos. unfold handle_removed. cbn [bind gets]. unfold Datatypes.id. rewrite Hc. cbn [bind modify ret].
  replace (saturating_sub c 1) with (c - 1) by (unfold saturating_sub; lia). unfold released.
  destruct (Z.ltb_spec 0 (c - 1)) as [Hlt|Hle]; cbn [bind modify ret]; intros [= _ <-].
  - rewrite (proj2 (Z.eqb_neq _ _)) by lia. cbn [om_alter_header om_set_headers om_set_counts om_objects om_headers om_handle_counts om_names om_next_id om_wakes].
    split_and!; [|done|done|by rewrite lookup_alter_eq|by rewrite lookup_insert_eq|done|done].
    intros x Hx. by rewrite lookup_alter_ne, lookup_insert_ne by done.
  - rewrite (proj2 (Z.eqb_eq _ _)) by lia. unfold drop_object, om_notify.
    cbn [om_alter_header om_set_headers om_set_counts om_set_objects om_set_names om_objects om_headers om_handle_counts om_names om_next_id om_wakes].
    split_and!; [|done|apply lookup_delete_eq|apply lookup_delete_eq|apply lookup_delete_eq| |done].
    + intros x Hx. by rewrite !lookup_delete_ne, lookup_alter_ne, lookup_insert_ne by done.
    + rewrite lookup_alter_eq, Hh. done.
Qed.

(** What closing the object's own handle does first. *)
Definition teardown (h : Z) (o : KernelObject) (last : bool) : M W unit :=
  match o with
  | KFile payload => zoom ws_rest ws_set_rest (wr_close_file payload last)
  | KPipe payload => wr_close_pipe h payload
  | _ => ret tt
  end.
Lemma teardown_ok n w h o last : win_ok n w →
  wp (teardown h o last) w (λ _ w', peers_told w w' ∧ win_ok n w').
Proof using L.
  intros Hok. destruct o; try done; cbn [teardown]; cycle 1.
  { pose proof (close_pipe_tells n h payload w Hok) as Hp. unfold wp in *. destruct (wr_close_pipe h payload w) as [r w'|]; [|done].
    split; [done|by eapply peers_told_ok]. }
  unfold wp. cbn [zoom]. pose proof (close_file_returns payload last (ws_rest w)) as Hne.
  destruct (wr_close_file payload last (ws_rest w)) as [r o'|]; [|done]. split; [done|]. by apply (win_ok_core n w).
Qed.

(** The end of [close_handle], once the entry is gone. *)
Definition close_tail (h : Z) (o : KernelObject) (last : bool) (id : Z) : M W unit :=
  (match o with
   | KIoCompletionPort _ => if last then on_rest (wr_close_port id) else ret tt
   | _ => ret tt
   end) ;;;
  on_rest (wr_forget_association h) ;;;
  on_objects (handle_removed id) ;;;
  match o with KThread thread_id => cleanup_exited_thread_state thread_id | _ => ret tt end.

(** A thread that has exited, is not the current one, and that no handle names. *)
Definition thread_over (t : Z) (w : W) : Prop :=
  t ≠ ws_current_thread_id w ∧ has_exited t w = true ∧
  ∀ h e, ht_entries (ws_table w) !! h = Some e → om_objects (ws_objects w) !! hn_object_id e ≠ Some (KThread t).
Definition thread_forgotten (t : Z) (w : W) : W :=
  ws_set_rest (wr_forget_thread t (ws_rest w))
    (ws_set_apcs (delete t (ws_thread_apcs w)) (ws_apc_counters w) (ws_next_apc_sequence w) (ws_set_threads (delete t (ws_threads w)) w)).
Definition thread_cleaned (t : Z) (w w' : W) : Prop :=
  (thread_over t w ∧ w' = thread_forgotten t w) ∨ (¬ thread_over t w ∧ w' = w).

Lemma thread_named t w : existsb (names_thread w t) (bt_values (ht_entries (ws_table w))) = true ↔
  ∃ h e, ht_entries (ws_table w) !! h = Some e ∧ om_objects (ws_objects w) !! hn_object_id e = Some (KThread t).
Proof using.
  rewrite existsb_exists. split.
  - intros (e & Hin & Hn). apply list_elem_of_In, elem_of_bt_values in Hin as [h He]. exists h, e. split; [done|]. unfold names_thread in Hn.
    destruct (om_objects (ws_objects w) !! hn_object_id e) as [[]|]; try done. simpl in Hn. by apply Z.eqb_eq in Hn as ->.
  - intros (h & e & He & Ho). exists e. split; [apply list_elem_of_In, elem_of_bt_values; by exists h|]. unfold names_thread. rewrite Ho. simpl. lia.
Qed.
Lemma cleanup_run n t w : win_ok n w → ∃ w', cleanup_exited_thread_state t w = Done (Ok tt) w' ∧ thread_cleaned t w w'.
Proof using.
  intros Hok. unfold cleanup_exited_thread_state, thread_cleaned, thread_over. cbn [bind gets]. unfold id.
  destruct (Z.eqb_spec t (ws_current_thread_id w)) as [->|Hne]; [exists w; split; [done|]; naive_solver|]. cbn [bind].
  rewrite (entries_named n w t Hok). destruct (existsb _ _) eqn:Ex.
  { exists w. split; [done|]. apply thread_named in Ex. naive_solver. }
  assert (∀ h e, ht_entries (ws_table w) !! h = Some e → om_objects (ws_objects w) !! hn_object_id e ≠ Some (KThread t)) as Hno.
  { intros h e He Ho. assert (existsb (names_thread w t) (bt_values (ht_entries (ws_table w))) = true); [|congruence]. apply thread_named. by exists h, e. }
  destruct (has_exited t w) eqn:Ee; [|exists w; split; [done|]; naive_solver].
  eexists. split; [done|]. by left.
Qed.

(** The state a close leaves: the value out of the table, the object released, the
    association of the handle forgotten, and with the last handle the port or the
    thread. *)
Definition closed_world (h : Z) (e : HandleEntry) (o : KernelObject) (w w' : W) : Prop :=
  let id := hn_object_id e in
  let left := refs (ws_table w) id - 1 in
  let ports := match o with KIoCompletionPort _ => if left =? 0 then wr_close_port id (ws_rest w) else ws_rest w | _ => ws_rest w end in
  ∃ s, released id left (ws_objects w) s ∧
    let w2 := without_handle h s (ws_set_rest (wr_forget_association h ports) w) in
    match o with KThread t => thread_cleaned t w2 w' | _ => w' = w2 end.

Lemma close_tail_spec n w h e o o1 : win_ok n w → n ≤ call_limit → ht_entries (ws_table w) !! h = Some e → om_objects (ws_objects w) !! hn_object_id e = Some o1 →
  wp (close_tail h o (refs (ws_table w) (hn_object_id e) =? 1) (hn_object_id e)) (ws_set_table (closed_table h (ws_table w)) w)
    (λ r w', r = Ok tt ∧ win_ok n w' ∧ closed_world h e o w w').
Proof using.
  intros Hok Hlim He Ho. unfold close_tail, closed_world. set (last := refs _ _ =? 1).
  assert ((refs (ws_table w) (hn_object_id e) - 1 =? 0) = last) as -> by (unfold last; apply eq_true_iff_eq; rewrite !Z.eqb_eq; lia).
  set (ports := match o with KIoCompletionPort _ => if last then wr_close_port (hn_object_id e) (ws_rest w) else ws_rest w | _ => ws_rest w end).
  set (w2 := ws_set_rest (wr_forget_association h ports) w).
  assert (win_ok n w2) as Hok2 by by apply (win_ok_core n w).
  destruct (remove_handle_ok n w2 h e o1 Hok2 He Ho) as (s & Er & Hok3 & Hos). change (ws_objects w2) with (ws_objects w) in *.
  destruct (entry_object n w h e Hok He) as (_ & hd & _ & Hh & _ & _ & _ & Hc).
  pose proof (removed_released _ _ hd _ _ s Hc Hh (refs_positive _ _ _ He) Er) as Hrel.
  assert (∀ k : M W unit, ((match o with KIoCompletionPort _ => if last then on_rest (wr_close_port (hn_object_id e)) else ret tt | _ => ret tt end) ;;;
    on_rest (wr_forget_association h) ;;; on_objects (handle_removed (hn_object_id e)) ;;; k) (ws_set_table (closed_table h (ws_table w)) w)
    = k (without_handle h s w2)) as Erun.
  { intros k. unfold on_objects, w2, ports in *. destruct o; try destruct last; cbn [bind on_rest modify ret zoom ws_objects ws_set_rest ws_set_table]; by rewrite Er. }
  unfold wp. rewrite Erun. destruct o; cbn [ret]; try (split_and!; [done|done|by exists s]).
  pose proof (grows_cleanup thread_id n _ Hok3) as Hcl. destruct (cleanup_run n thread_id _ Hok3) as (w' & Erun' & Hclean). unfold wp in Hcl.
  rewrite Z.add_0_r in Hcl. specialize (Hcl Hlim). rewrite Erun' in *. split_and!; [done|done|by exists s].
Qed.

(** What closing a handle does, success or not: the first guard that refuses, the
    teardown of a file or a pipe, which may fail, the protection of the value, and the
    state of a close that went through. *)
Definition closed_live (h : Z) (e : HandleEntry) (w : W) (r : result unit) (w' : W) : Prop :=
  ∃ o, om_objects (ws_objects w) !! hn_object_id e = Some o ∧
    if decide (payload_type o = OtSocket) then r = Err RcWin32InvalidHandle ∧ w' = w
    else ∃ torn w1, teardown h o (refs (ws_table w) (hn_object_id e) =? 1) w = Done torn w1 ∧
      peers_told w w1 ∧
      match torn with
      | Err er => r = Err er ∧ w' = w1
      | Ok _ => if is_protected h (ws_table w) then r = Err RcHelperPermissionDenied ∧ w' = w1 else r = Ok tt ∧ closed_world h e o w1 w'
      end.
Definition closed_exactly (h : Z) (w : W) (r : result unit) (w' : W) : Prop :=
  match ht_entries (ws_table w) !! h with None => r = Err RcWin32InvalidHandle ∧ w' = w | Some e => closed_live h e w r w' end.

Lemma win32_close_spec n w h : win_ok n w → n ≤ call_limit → wp (close_handle h) w (λ r w', win_ok n w' ∧ closed_exactly h w r w').
Proof using L.
  intros Hok Hlim. unfold wp at 1, close_handle, closed_exactly. cbn [bind]. rewrite entry_run.
  destruct (ht_entries (ws_table w) !! h) as [e|] eqn:He; [|done].
  destruct (entry_object n w h e Hok He) as (o & hd & Ho & _ & _ & _ & _ & Hcount).
  rewrite (object_type_run n _ w o Hok Ho). cbn [gets]. rewrite (object_of_run _ w o Ho).
  cbn [fail_if]. destruct (decide (payload_type o = OtSocket)) as [Es|Es].
  { rewrite bool_decide_eq_true_2 by done. split; [done|]. exists o. by rewrite decide_True by done. }
  rewrite bool_decide_eq_false_2 by done. unfold handle_count, Datatypes.id. rewrite Hcount. cbn [default from_option]. set (last := _ =? 1).
  pose proof (teardown_ok n w h o last Hok) as Htd. unfold wp in Htd.
  change (match o with KFile payload => zoom ws_rest ws_set_rest (wr_close_file payload last) | KPipe payload => wr_close_pipe h payload | _ => ret tt end w)
    with (teardown h o last w). destruct (teardown h o last w) as [[[]|er] w1|] eqn:Etd; [| |done].
  2: { destruct Htd as [? ?]. split; [done|]. exists o. rewrite decide_False by done. split; [done|]. by exists (Err er), w1. }
  destruct Htd as [Hp Hok1]. pose proof (pt_table _ _ Hp) as Et. pose proof (pt_shape _ _ Hp) as Hs. unfold on_table at 1. cbn [zoom]. rewrite close_run.
  destruct (is_protected h (ws_table w1)) eqn:Eprot; rewrite Et in Eprot.
  { replace (ws_set_table (ws_table w1) w1) with w1 by (by destruct w1). split; [done|]. exists o. rewrite decide_False by done. split; [done|].
    exists (Ok tt), w1. by rewrite Eprot. }
  rewrite decide_False by done. rewrite Et, He, <-Et.
  pose proof (sp_objects _ _ Hs (hn_object_id e)) as Hx. rewrite Ho in Hx. destruct (om_objects (ws_objects w1) !! hn_object_id e) as [o1|] eqn:Ho1; [|done].
  pose proof He as He1. rewrite <-Et in He1. pose proof (close_tail_spec n w1 h e o o1 Hok1 Hlim He1 Ho1) as Htail. unfold wp in Htail.
  assert ((refs (ws_table w1) (hn_object_id e) =? 1) = last) as El by (by rewrite Et). rewrite El in Htail.
  change (match close_tail h o last (hn_object_id e) (ws_set_table (closed_table h (ws_table w1)) w1) with
          | Done r w' => win_ok n w' ∧ closed_live h e w r w' | Panic => False end).
  destruct (close_tail _ _ _ _ _) as [r w'|]; [|done]. destruct Htail as (-> & Hok' & Hw). split; [done|]. exists o. rewrite decide_False by done.
  split; [done|]. exists (Ok tt), w1. by rewrite Eprot.
Qed.

Lemma grows_close_handle h : grows 0 (close_handle (O := O) h).
Proof using L.
  intros n w Hok Hn. rewrite Z.add_0_r in *. eapply wp_mono; [by apply (win32_close_spec n)|]. by intros r w' [? _].
Qed.
Lemma grows_close_socket h : grows 0 (close_socket (O := O) h).
Proof using.
  intros n w Hok Hn. rewrite Z.add_0_r in *. unfold wp, close_socket, socket_id. cbn [bind].
  destruct (handle_object_run n w h Hok) as [[_ ->]|(e & o & He & Ho & ->)]; [done|]. destruct o; try done. cbn [ret].
  unfold on_table. cbn [zoom]. rewrite close_raw_run. destruct (is_protected h (ws_table w)).
  { by replace (ws_set_table (ws_table w) w) with w by (by destruct w). }
  rewrite He. destruct (remove_handle_ok n w h e _ Hok He Ho) as (s & Er & Hok' & _). unfold on_objects. cbn [zoom ws_objects ws_set_table].
  rewrite Er. exact Hok'.
Qed.

Lemma grows_duplicate h access inh same close_source : grows 1 (duplicate_handle (O := O) h access inh same close_source).
Proof using L.
  intros n w Hok Hn. unfold wp, duplicate_handle. cbn [bind]. pose proof (win_ok_mono n 1 w ltac:(done) Hok) as Hok1.
  destruct (handle_entry_run n w h Hok) as [[_ ->]|(e & o & He & Ho & ->)]; [done|]. cbn [fail_if view_of hv_object_type hv_access_mask].
  destruct (bool_decide _); [done|]. cbn [bind].
  assert (∀ mask, match (duplicated <- on_table (duplicate h mask inh) ;;
    e <- on_table (t <- gets id ;; expect (get_entry duplicated t)) ;;
    on_objects (modify (handle_added (hn_object_id e))) ;;;
    (if close_source then close_handle h else ret tt) ;;; ret duplicated) w with Done _ w' => win_ok (n + 1) w' | Panic => False end) as Hdup.
  { intros mask. destruct (duplicate_value_run n w h e o mask inh Hok Hn He Ho) as [E Hok']. cbn [bind] in E |- *.
    destruct (on_table (duplicate h mask inh) w) as [[d|er] w1|]; [|done|done]. destruct (on_table _ w1) as [[e1|er] w2|]; [|done|done].
    destruct (on_objects _ w2) as [[[]|er] w3|]; [|done|done]. injection E as -> ->. destruct close_source; [|done].
    pose proof (grows_close_handle h (n + 1) _ Hok') as Hc. unfold wp in Hc. rewrite Z.add_0_r in Hc. specialize (Hc ltac:(lia)).
    by destruct (close_handle h _) as [[[]|er] w4|]. }
  destruct (same || (access =? 0)); [apply Hdup|]. cbn [bind fail_if]. destruct (negb _); [done|]. apply Hdup.
Qed.

(** ** Waits *)

Lemma grows_require_waitable ty h : grows 0 (require_waitable (O := O) ty h).
Proof using. unfold require_waitable, require_access. grow. Qed.
Lemma grows_object_type_of h : grows 0 (handle_object_type (O := O) h).
Proof using. unfold handle_object_type. grow. Qed.
Lemma grows_satisfiable h ty t : grows 0 (wait_object_satisfiable (O := O) h ty t).
Proof using.
  unfold wait_object_satisfiable. apply grows_bind_0; [done|apply grows_gets|]. intros w0. apply grows_bind_0; [done|apply grows_require_waitable|].
  intros []. destruct ty; grow.
Qed.
Lemma grows_instant h ty t : grows 1 (wait_for_single_object_instant (O := O) h ty t).
Proof using.
  unfold wait_for_single_object_instant. apply grows_bind_0; [done|apply grows_require_waitable|]. intros [].
  destruct ty; try grow; apply (grows_weaken 0); try done; grow.
Qed.
Lemma grows_process h timeout arrived : grows 0 (wait_for_single_object_process (O := O) h timeout arrived).
Proof using.
  unfold wait_for_single_object_process, require_access. grow. rename a1 into w0. apply grows_bind_0; [done| |].
  { destruct (ws_exit_syncs w0 !! z), arrived; grow. by apply grows_core. }
  intros []. apply grows_bind_0; [done|grow|]. intros w1. destruct (ws_exit_syncs w1 !! z); [|grow].
  apply grows_bind_0; [done| |intros []; grow]. apply grows_alter_object.
  - intros []; try done. simpl. by destruct (po_exit_code process0).
  - intros [] m; try done; simpl; [intros [= ->]; by exists m|]. by destruct (po_exit_code process0).
Qed.
(** *** What a wait that grants nothing costs *)

(** [c] costs [k] when its answer satisfies [P], or it fails, and nothing otherwise. *)
Definition grows_if {A} (P : A → bool) (k : Z) (c : M W A) : Prop :=
  ∀ n w, win_ok n w → n + k ≤ call_limit → wp c w (λ r w', win_ok (n + match r with Ok a => if P a then k else 0 | Err _ => k end) w').
Lemma grows_if_free {A} (P : A → bool) k (c : M W A) : 0 ≤ k → grows 0 c → grows_if P k c.
Proof using.
  intros Hk Hc n w Hok Hn. eapply wp_mono; [apply (Hc n w Hok); lia|]. intros r w' Hok'. cbn beta in *. rewrite Z.add_0_r in Hok'.
  apply win_ok_mono; [|done]. destruct r as [a|]; [destruct (P a)|]; lia.
Qed.
Lemma grows_if_bind {A B} (P : B → bool) k (c : M W A) (f : A → M W B) : 0 ≤ k → grows 0 c → (∀ a, grows_if P k (f a)) → grows_if P k (bind c f).
Proof using.
  intros Hk Hc Hf n w Hok Hn. apply wp_bind. eapply wp_mono; [apply (Hc n w Hok); lia|]. intros [a|e] w' Hok'; cbn beta in *; rewrite Z.add_0_r in Hok'.
  - by apply Hf.
  - by apply win_ok_mono.
Qed.
(** A call that cost something, and an answer that says so. *)
Lemma grows_if_then {A B} (P : B → bool) k (c : M W A) (f : A → B) : grows k c → (∀ a, P (f a) = true) → grows_if P k (a <- c ;; ret (f a)).
Proof using.
  intros Hc Hf n w Hok Hn. apply wp_bind. eapply wp_mono; [by apply (Hc n w Hok)|]. intros [a|e] w' Hok'; [|done]. unfold wp. cbn [ret]. by rewrite Hf.
Qed.

Definition acquired (s : WaitStatus) : bool := match s with WaitObject0 | WaitAbandoned => true | _ => false end.
Definition answered {A} (o : option A) : bool := match o with Some _ => true | None => false end.
Lemma not_acquired o t now status o' : consume_object o t now = Some (status, o') → acquired status = false → o' = o.
Proof using.
  unfold consume_object, checked_add. destruct o as [| e | | m | sm | | | | | tm | | | | ]; try by intros [= <- <-].
  - destruct (eo_signaled e); by intros [= <- <-].
  - destruct (mx_abandoned m); [by intros [= <- <-]|]. destruct (mx_owner_thread_id m); [|by intros [= <- <-]].
    destruct (_ =? _); [|by intros [= <- <-]]. destruct (_ <=? _); [|done]. by intros [= <- <-].
  - destruct (0 <? _); by intros [= <- <-].
  - destruct (_ || _); by intros [= <- <-].
Qed.
Lemma grows_if_consume i t now : grows_if acquired 1 (on_objects (O := O) (consume_wait i t now)).
Proof using.
  intros n w Hok Hn. pose proof (grows_consume i t now n w Hok Hn) as H. unfold wp, on_objects, consume_wait, Datatypes.id in *. cbn [zoom bind gets] in *.
  destruct (om_objects (ws_objects w) !! i) as [o|] eqn:Ho.
  - destruct (consume_object o t now) as [[status o']|] eqn:Ec; [|done]. cbn [expect bind modify ret] in *.
    destruct (acquired status) eqn:Ea; [done|]. apply not_acquired in Ec as ->; [|done]. rewrite insert_id by done.
    replace (om_set_objects (om_objects (ws_objects w)) (ws_objects w)) with (ws_objects w) by (by destruct (ws_objects w)).
    apply win_ok_objects; [done|done|apply wait_state_tame|]. rewrite Z.add_0_r. by eapply wk_recursion.
  - cbn [ret modify acquired] in *. apply win_ok_objects; [done|done|apply wait_state_tame|]. rewrite Z.add_0_r. by eapply wk_recursion.
Qed.
Lemma grows_if_instant h ty t : grows_if acquired 1 (wait_for_single_object_instant (O := O) h ty t).
Proof using.
  unfold wait_for_single_object_instant. apply grows_if_bind; [done|apply grows_require_waitable|]. intros [].
  destruct ty; try (apply grows_if_free; [done|grow]; fail);
    (apply grows_if_bind; [done|grow|intros i]; apply grows_if_bind; [done|grow|intros w0]; apply grows_if_consume).
Qed.
Lemma grows_if_single h : grows_if acquired 1 (wait_for_single_object (O := O) h 0 false None None).
Proof using.
  assert (∀ t, grows_if acquired 1 (ty <- handle_object_type (O := O) h ;;
    if bool_decide (ty = OtProcess) then wait_for_single_object_process h 0 None else wait_for_single_object_instant h ty t)) as H.
  { intros t. apply grows_if_bind; [done|apply grows_object_type_of|]. intros ty.
    destruct (bool_decide _); [|apply grows_if_instant]. apply grows_if_free; [done|apply grows_process]. }
  intros n w Hok Hn. exact (H (ws_current_thread_id w) n w Hok Hn).
Qed.

Lemma grows_single h timeout alertable thread arrived : grows 1 (wait_for_single_object (O := O) h timeout alertable thread arrived).
Proof using.
  unfold wait_for_single_object. apply grows_bind_0; [done|apply grows_gets|]. intros w0. cbv zeta.
  apply grows_bind_0; [done|destruct alertable; grow|]. intros [|a l].
  - apply grows_bind_0; [done|apply grows_object_type_of|]. intros ty. destruct (bool_decide _); [|apply grows_instant].
    apply (grows_weaken 0); [done|apply grows_process].
  - replace 1 with (1 + 0) by done. apply grows_bind; [done|apply grows_count_alertable|]. intros []. apply grows_ret.
Qed.
Lemma grows_all_satisfiable hs t b : grows 0 (all_satisfiable (O := O) hs t b).
Proof using.
  revert b. induction hs as [|h hs IH]; intros b; cbn [all_satisfiable]; [grow|]. apply grows_bind_0; [done|apply grows_object_type_of|].
  intros ty. apply grows_bind_0; [done|apply grows_satisfiable|]. intros []; [grow|apply IH..].
Qed.
Lemma grows_consume_handle t h : grows 1 (consume_handle (O := O) t h).
Proof using.
  unfold consume_handle. apply grows_bind_0; [done|apply grows_object_type_of|]. intros ty.
  assert (grows 1 (object_id <- handle_object_identity h ;; w <- gets id ;;
    on_objects (O := O) (consume_wait object_id t (ws_ticks_ms w)) ;;; ret tt)) as H.
  { apply grows_bind_0; [done|grow|]. intros i. apply grows_bind_0; [done|grow|]. intros w0. replace 1 with (1 + 0) by done.
    apply grows_bind; [done|grow|]. intros s. apply grows_ret. }
  destruct ty; (exact H || (apply (grows_weaken 0); [done|apply grows_ret])).
Qed.
Lemma grows_wait_all hs t : grows (Z.of_nat (length hs)) (evaluate_wait_all (O := O) hs t).
Proof using.
  unfold evaluate_wait_all. apply grows_bind_0; [lia|apply grows_all_satisfiable|]. intros [b|].
  - replace (Z.of_nat (length hs)) with (Z.of_nat (length hs) + 0) by lia. apply grows_bind; [done|apply grows_for_each; intros; apply grows_consume_handle|].
    intros []. apply grows_ret.
  - apply (grows_weaken 0); [lia|apply grows_ret].
Qed.

Lemma grows_signaled h : grows 0 (handle_is_signaled (O := O) h).
Proof using.
  unfold handle_is_signaled. apply grows_bind_0; [done|grow|]. intros e. apply grows_bind_0; [done|unfold require_access; grow|].
  intros []. apply grows_bind_0; [done|grow|]. intros w0. destruct (hv_object e); grow.
Qed.
Lemma grows_all_signaled hs b : grows 0 (all_signaled (O := O) hs b).
Proof using.
  revert b. induction hs as [|h hs IH]; intros b; cbn [all_signaled]; [grow|]. apply grows_bind_0; [done|apply grows_signaled|]. intros s. apply IH.
Qed.
Lemma grows_acquire_all hs b : grows (Z.of_nat (length hs)) (acquire_all (O := O) hs b).
Proof using.
  revert b. induction hs as [|h hs IH]; intros b; cbn [acquire_all length]; [apply grows_ret|].
  replace (Z.of_nat (S (length hs))) with (1 + Z.of_nat (length hs)) by lia. apply grows_bind; [lia|apply grows_single|]. intros s. apply IH.
Qed.
Lemma grows_if_acquire_any hs i : grows_if answered 1 (acquire_any (O := O) hs i).
Proof using.
  revert i. induction hs as [|h hs IH]; intros i; cbn [acquire_any]; [apply grows_if_free; [done|apply grows_ret]|].
  intros n w Hok Hn. apply wp_bind. eapply wp_mono; [by apply grows_if_single|]. intros [s|e] w' Hok'; [|done]. cbn beta in Hok'.
  destruct s; cbn [acquired] in Hok'; try (unfold wp; cbn [ret answered]; exact Hok').
  all: rewrite Z.add_0_r in Hok'; by apply IH.
Qed.

(** What a wait for several objects may acquire: each of them, or one. *)
Definition turn_cost (all : bool) (hs : list Z) : Z := if all then Z.of_nat (length hs) else 1.
Lemma turn_cost_nonneg all hs : 0 ≤ turn_cost all hs.
Proof using. unfold turn_cost. destruct all; lia. Qed.
Lemma grows_if_turn hs all : grows_if answered (turn_cost all hs) (wait_turn (O := O) hs all).
Proof using.
  unfold wait_turn, turn_cost. destruct all; [|apply grows_if_acquire_any]. apply grows_if_bind; [lia|apply grows_all_signaled|].
  intros []; [|apply grows_if_free; [lia|apply grows_ret]]. apply grows_if_then; [apply grows_acquire_all|done].
Qed.
(** However long it goes on, a wait acquires once: a turn that grants nothing leaves
    every count as it was. *)
Lemma grows_loop fuel hs all timeout deadline arrivals : grows (turn_cost all hs) (wait_loop (O := O) fuel hs all timeout deadline arrivals).
Proof using.
  pose proof (turn_cost_nonneg all hs). induction fuel as [|fuel IH]; cbn [wait_loop]; [apply (grows_weaken 0); [done|apply grows_ret]|].
  intros n w Hok Hn. apply wp_bind. eapply wp_mono; [by apply grows_if_turn|]. intros [[r|]|e] w' Hok'; [exact Hok'| |exact Hok'].
  cbn [answered] in Hok'. rewrite Z.add_0_r in Hok'. clear Hok. revert n w' Hok' Hn.
  change (grows (turn_cost all hs) (w <- gets id ;;
    if match deadline with Some d => d <=? ws_ticks_ms w | None => false end then ret (Some (WaitTimeout, usize_max))
    else if timeout =? 0 then ret (Some (WaitTimeout, usize_max))
    else modify (sleep_turn (arrivals fuel)) ;;; wait_loop (O := O) fuel hs all timeout deadline arrivals)).
  apply grows_bind_0; [lia|apply grows_gets|]. intros w0. destruct (match deadline with Some d => d <=? ws_ticks_ms w0 | None => false end);
    [apply (grows_weaken 0); [lia|apply grows_ret]|]. destruct (timeout =? 0); [apply (grows_weaken 0); [lia|apply grows_ret]|].
  apply grows_bind_0; [lia|by apply grows_core|]. intros []. apply IH.
Qed.
Lemma grows_multiple fuel hs all timeout alertable thread arrivals :
  grows (Z.max 1 (turn_cost all hs)) (wait_for_multiple_objects (O := O) fuel hs all timeout alertable thread arrivals).
Proof using.
  unfold wait_for_multiple_objects. apply grows_bind_0; [lia|apply grows_gets|]. intros w0. cbv zeta.
  apply grows_bind_0; [lia|destruct alertable; grow|]. intros [|a l].
  - apply (grows_weaken (turn_cost all hs)); [lia|apply grows_loop].
  - apply (grows_weaken (1 + 0)); [lia|]. apply grows_bind; [done|apply grows_count_alertable|]. intros []. apply grows_ret.
Qed.
End closing.
End Wl.
