(* ===== verification/Win32Theorems.v ===== *)
(** * The Win32 subsystem: sequences of calls *)

From S2P Require Import Prelude Strings Win32Types HandleTable KernelObjects Win32 Win32Wait HandleTableFacts KernelObjectsFacts Win32Facts Win32CallFacts Win32CloseFacts.

Module Wt.
Import Ht Ko Wf Wc Wl.

(** ** Calls *)

Inductive win32_call :=
| CallSetThread (thread_id : Z)
| CallInsert (ty : Win32ObjectType) (name : option str) (access : Z) (inherit : bool) (object : KernelObject)
| CallCreateEvent (manual initial inherit : bool) (name : option str)
| CallOpenEvent (access : Z) (inherit : bool) (name : str)
| CallOpenNamedEvent (name : str)
| CallSetEvent (h : Z) | CallResetEvent (h : Z)
| CallCreateMutex (owned inherit : bool) | CallCreateNamedMutex (name : str) (owned inherit : bool)
| CallReleaseMutex (h : Z) | CallAbandonMutex (h : Z)
| CallCreateSemaphore (count maximum : Z) (inherit : bool) | CallCreateNamedSemaphore (name : str) (count maximum : Z) (inherit : bool)
| CallReleaseSemaphore (h count : Z)
| CallCreateTimer (due : Z) (inherit : bool) | CallSetTimer (h due : Z)
| CallInsertSocket | CallCloseSocket (h : Z)
| CallCreateThread (code : option Z) (priority : Z) (signaled inherit : bool) | CallOpenThread (thread_id access : Z) (inherit : bool)
| CallExitThread (h code : Z) | CallExitThreadById (thread_id code : Z) | CallTerminateThread (h code : Z)
| CallSuspendThread (h : Z) | CallResumeThread (h : Z) | CallSetPriority (h priority : Z)
| CallQueueApc (h callback context : Z) | CallTestAlert
| CallSetInformation (h mask flags : Z)
| CallDuplicate (h access : Z) (inherit same close_source : bool) | CallClose (h : Z)
| CallInstallSync (h sync : Z)
| CallWait (h timeout : Z) (alertable : bool) (thread arrived : option Z)
| CallWaitAll (hs : list Z) (thread_id : Z)
| CallWaitMultiple (fuel : nat) (hs : list Z) (all : bool) (timeout : Z) (alertable : bool) (thread : option Z) (arrivals : nat → gmap Z Z).

Section run.
Context {O : Type} `{R : !Win32Rest O}.
#[local] Abbreviation W := (Win32Subsystem O).
Implicit Types (w : W).

Definition unit_of {A} (c : M W A) : M W unit := c ;;; ret tt.
(** Threads come from [CallCreateThread] and [CallOpenThread] alone; the other objects
    of the subsystem are inserted with their own type. *)
Definition insertable (ty : Win32ObjectType) (o : KernelObject) : bool :=
  bool_decide (payload_type o = ty) && match o with KThread _ => false | KMutex m => mx_recursion m =? 0 | _ => true end.
Definition exec (c : win32_call) : M W unit :=
  match c with
  | CallSetThread t => unit_of (set_current_thread_id t)
  | CallInsert ty name access inherit o => if insertable ty o then unit_of (insert_object_named ty name access inherit o) else ret tt
  | CallCreateEvent m i b n => unit_of (create_event m i b n)
  | CallOpenEvent a b n => unit_of (open_event a b n)
  | CallOpenNamedEvent n => unit_of (open_named_event n)
  | CallSetEvent h => set_event h
  | CallResetEvent h => win32_reset_event h
  | CallCreateMutex o b => unit_of (create_mutex o b)
  | CallCreateNamedMutex n o b => unit_of (create_named_mutex n o b)
  | CallReleaseMutex h => win32_release_mutex h
  | CallAbandonMutex h => abandon_mutex h
  | CallCreateSemaphore c m b => unit_of (create_semaphore c m b)
  | CallCreateNamedSemaphore n c m b => unit_of (create_named_semaphore n c m b)
  | CallReleaseSemaphore h c => unit_of (win32_release_semaphore h c)
  | CallCreateTimer d b => unit_of (create_timer d b)
  | CallSetTimer h d => set_waitable_timer h d
  | CallInsertSocket => unit_of insert_socket
  | CallCloseSocket h => unit_of (close_socket h)
  | CallCreateThread c p s b => unit_of (create_thread c p s b)
  | CallOpenThread t a b => unit_of (open_thread t a b)
  | CallExitThread h c => exit_thread h c
  | CallExitThreadById t c => set_thread_exit_code_by_id t c
  | CallTerminateThread h c => unit_of (terminate_thread h c)
  | CallSuspendThread h => unit_of (suspend_thread h)
  | CallResumeThread h => unit_of (resume_thread h)
  | CallSetPriority h p => set_thread_priority h p
  | CallQueueApc h c x => queue_user_apc h c x
  | CallTestAlert => unit_of test_alert
  | CallSetInformation h m f => win32_set_handle_information h m f
  | CallDuplicate h a b s c => unit_of (duplicate_handle h a b s c)
  | CallClose h => close_handle h
  | CallInstallSync h s => install_process_exit_sync h s
  | CallWait h t a th arr => unit_of (wait_for_single_object h t a th arr)
  | CallWaitAll hs t => unit_of (evaluate_wait_all hs t)
  | CallWaitMultiple fuel hs all t a th arr => unit_of (wait_for_multiple_objects fuel hs all t a th arr)
  end.

(** A call counts once, a wait for all once for each handle it names, however long it
    goes on. *)
Definition cost (c : win32_call) : Z :=
  match c with
  | CallWaitAll hs _ => Z.of_nat (length hs)
  | CallWaitMultiple _ hs all _ _ _ _ => Z.max 1 (turn_cost all hs)
  | _ => 1
  end.
Definition total_cost (cs : list win32_call) : Z := foldr (λ c n, cost c + n) 0 cs.

(** The calls one after the other, whatever each answers; [None] is a panic. *)
Fixpoint run_calls (cs : list win32_call) (w : W) : option W :=
  match cs with
  | [] => Some w
  | c :: cs => match exec c w with Done _ w' => run_calls cs w' | Panic => None end
  end.

Context `{L : !Win32RestLaws O}.

Lemma grows_unit_of {A} k (c : M W A) : grows k c → grows k (unit_of c).
Proof using. intros Hc. unfold unit_of. replace k with (k + 0) by lia. apply grows_bind; [done|done|]. intros a. apply grows_ret. Qed.
Lemma grows_once {A} (c : M W A) : grows 0 c → grows 1 c.
Proof using. by apply grows_weaken. Qed.
Lemma grows_information h mask flags : grows 0 (win32_set_handle_information (O := O) h mask flags).
Proof using.
  intros n w Hok _. unfold wp, win32_set_handle_information, on_table. cbn [zoom]. rewrite Z.add_0_r.
  destruct (set_information_run h mask flags (ws_table w)) as (r & E & _). rewrite E.
  pose proof (information_ok h mask flags r _ _ (wk_table _ _ Hok) E) as Ht. destruct r as [u|e]; [|by destruct w].
  set (t := ht_set_protected _ _) in *.
  assert (∀ id, refs t id = refs (ws_table w) id) as Hrefs.
  { intros id. unfold refs, t. cbn [ht_entries ht_set_protected ht_set_entries]. destruct (has_flag mask HANDLE_FLAG_INHERIT); [|done]. apply refs_alter. }
  destruct Hok as [H0 H1 H2 H3 H4 H5 H6 H7 H8 H9 H10]. split; try done. cbn [ws_table ws_objects ws_set_table].
  destruct H3 as [Ho Hn Hc Hx]. split; [|done..]. intros id. specialize (Ho id). unfold object_ok in *. by rewrite Hrefs.
Qed.
Lemma grows_set_current t : grows 0 (set_current_thread_id (O := O) t).
Proof using.
  unfold set_current_thread_id. intros n w Hok _. unfold wp. cbn [bind gets modify ret]. rewrite Z.add_0_r.
  destruct Hok as [H0 H1 H2 H3 H4 H5 H6 H7 H8 H9 H10]. by split.
Qed.
Lemma fresh_mutex_recursion b w m : fresh_mutex b w = KMutex m → mx_recursion m ≤ 1.
Proof using. by intros [= <-]. Qed.
Lemma grows_checked kind access h : grows 0 (checked_handle (O := O) kind access h).
Proof using.
  unfold checked_handle, require_access. apply grows_bind_0; [done|grow|]. intros e. apply grows_bind_0; [done|destruct (kind (hv_object e)); grow|].
  intros []. grow.
Qed.

Lemma exec_grows c : grows (cost c) (exec c).
Proof using L.
  destruct c; cbn [exec cost]; try apply grows_unit_of.
  - by apply grows_once, grows_set_current.
  - destruct (insertable ty object) eqn:E; [|by apply grows_once, grows_ret]. apply grows_unit_of. unfold insertable in E.
    apply andb_true_iff in E as [E1%bool_decide_eq_true E2]. apply grows_insert_object_named; [done| |by intros t ->].
    intros m ->. lia.
  - apply grows_create_event.
  - apply grows_open_event.
  - apply grows_open_named_event.
  - apply grows_once. unfold set_event. apply grows_bind_0; [done|apply grows_checked|]. intros i. grow.
  - apply grows_once. unfold win32_reset_event. apply grows_bind_0; [done|apply grows_checked|]. intros i. grow.
  - apply grows_bind_0; [done|grow|]. intros w. apply grows_insert_object_named; [done|apply fresh_mutex_recursion|done].
  - apply grows_bind_0; [done|grow|]. intros w. apply grows_create_named; [done|apply fresh_mutex_recursion|done].
  - apply grows_once. unfold win32_release_mutex. apply grows_bind_0; [done|apply grows_checked|]. intros i. grow.
  - apply grows_once. unfold abandon_mutex. intros n w Hok Hn. unfold wp. cbn [bind]. rewrite Z.add_0_r.
    destruct (handle_object_run n w h Hok) as [[_ ->]|(e & o & He & Ho & ->)]; [done|]. destruct (is_mutex o); [|done].
    pose proof (grows_alter_object (O := O) abandon (hn_object_id e) ltac:(by intros []) ltac:(by intros [] m; try done; intros [= <-]; eexists)) as H.
    specialize (H n w Hok Hn). unfold wp in H. by rewrite Z.add_0_r in H.
  - by apply grows_insert_object_named.
  - by apply grows_create_named.
  - apply grows_once. unfold win32_release_semaphore. apply grows_bind_0; [done|apply grows_checked|]. intros i. grow.
  - by apply grows_insert_object_named.
  - by apply grows_once, grows_set_timer.
  - apply grows_insert_socket.
  - by apply grows_once, grows_close_socket.
  - apply grows_create_thread.
  - apply grows_open_thread.
  - by apply grows_once, grows_exit_thread.
  - by apply grows_once, grows_set_exit_by_id.
  - by apply grows_once, grows_terminate_thread.
  - by apply grows_once, grows_change_suspend.
  - by apply grows_once, grows_change_suspend.
  - by apply grows_once, grows_set_priority.
  - apply grows_bind_0; [done|grow|]. intros t. apply grows_push_apc.
  - apply grows_test_alert.
  - by apply grows_once, grows_information.
  - apply grows_duplicate.
  - by apply grows_once, grows_close_handle.
  - by apply grows_once, grows_install_sync.
  - apply grows_single.
  - apply grows_wait_all.
  - apply grows_multiple.
Qed.

Lemma cost_nonneg c : 0 ≤ cost c.
Proof using. destruct c; cbn [cost]; lia. Qed.
Lemma total_cost_nonneg cs : 0 ≤ total_cost cs.
Proof using. induction cs as [|c cs IH]; cbn [total_cost foldr]; [done|]. pose proof (cost_nonneg c). fold (total_cost cs). lia. Qed.

Lemma new_win32_ok next (rest : O) : 0 ≤ next ≤ 2 ^ 63 → win_ok 0 (new_win32 next rest).
Proof using.
  intros Hn. split; unfold new_win32; cbn [ws_table ws_objects ws_threads ws_next_thread_id ws_apc_counters ws_thread_apcs]; try done.
  - apply new_table_ok.
  - apply new_manager_ok; [done|lia].
  - cbn. lia.
Qed.
Lemma run_calls_ok cs n w : win_ok n w → n + total_cost cs ≤ call_limit → ∃ w', run_calls cs w = Some w' ∧ win_ok (n + total_cost cs) w'.
Proof using L.
  revert n w. induction cs as [|c cs IH]; intros n w Hok Hn; cbn [run_calls total_cost foldr] in *.
  - exists w. split; [done|]. by rewrite Z.add_0_r.
  - fold (total_cost cs) in *. pose proof (total_cost_nonneg cs). pose proof (cost_nonneg c). pose proof (exec_grows c n w Hok ltac:(lia)) as H1. unfold wp in H1.
    destruct (exec c w) as [r w1|]; [|done]. destruct (IH (n + cost c) w1 H1 ltac:(lia)) as (w' & E & Hok'). exists w'. split; [done|]. by rewrite Z.add_assoc.
Qed.

(** The states that at most [n] calls reach. *)
Definition reached (n : Z) (w : W) : Prop :=
  ∃ cs next rest, 0 ≤ next ≤ 2 ^ 63 ∧ total_cost cs ≤ n ∧ run_calls cs (new_win32 next rest) = Some w.
Lemma reached_ok n w : reached n w → n ≤ call_limit → win_ok n w ∧ 0 ≤ n.
Proof using L.
  intros (cs & next & rest & Hnext & Hcost & E) Hn. pose proof (total_cost_nonneg cs).
  destruct (run_calls_ok cs 0 _ (new_win32_ok next rest Hnext) ltac:(lia)) as (w' & E' & Hok). rewrite E in E'. injection E' as <-.
  split; [|lia]. replace n with (0 + total_cost cs + (n - total_cost cs)) by lia. apply win_ok_mono; [lia|done].
Qed.
End run.

(** The rest of the subsystem, when it has no files, no pipes with a record and no
    ports: closing finds nothing to do. *)
#[export] Instance no_rest : Win32Rest unit := {|
  wr_close_file _ _ := ret tt; wr_close_port _ o := o; wr_forget_association _ o := o; wr_forget_thread _ o := o;
  wr_close_pipe _ _ := ret tt |}.
#[export] Instance no_rest_laws : Win32RestLaws unit.
Proof. by split. Qed.

(** ** Every call returns *)

(** C5 - Starting from a new subsystem, no sequence of up to 2^30 - 2 calls panics,
    where a call counts once, and a wait for all of several handles once for each of
    them, however many turns it takes: not a look-up of an object behind a handle or of
    the header of an object, not an entry just minted, not a recursion count, not a
    thread identity, not a counter of procedure calls.  The handle table has a fresh or
    a recycled value for each. *)
Theorem win32_calls_return {O} `{R : !Win32Rest O} `{!Win32RestLaws O} cs next (rest : O) :
  0 ≤ next ≤ 2 ^ 63 → total_cost cs ≤ call_limit → ∃ w, run_calls cs (new_win32 next rest) = Some w.
Proof.
  intros Hnext Hcost. destruct (run_calls_ok cs 0 _ (new_win32_ok next rest Hnext) Hcost) as (w & E & _). by exists w.
Qed.

(** A program: an event opened twice by its name, duplicated and closed; a mutex taken
    twice; a thread; a wait for both. *)
Definition program : list win32_call :=
  [CallCreateEvent true false false (Some (lit "Global\Ready")); CallOpenEvent 0x100002 false (lit "Local\Ready");
   CallCreateMutex false true; CallCreateThread None 0 false false; CallSetEvent 4; CallDuplicate 4 0x100000 false false false;
   CallWaitAll [4; 12] 1; CallWait 12 0 false None None; CallReleaseMutex 12; CallClose 4; CallClose 8; CallExitThread 16 7; CallClose 16;
   CallWaitMultiple 5 [20; 12] true 3 true None (λ _, ∅); CallClose 20].
Lemma win32_calls_return_witness : ∃ w, run_calls program (new_win32 1 tt) = Some w.
Proof. apply (win32_calls_return program 1 tt); by vm_compute. Defined.

(** ** Handles and objects *)

(** C3 - After any calls, a handle names a live object, whose header has its type and
    counts its handles exactly, and so does the object manager; an object is there
    exactly while a handle names it.  A name resolves to a live object that bears it.
    No recycled value is live, none is recycled twice, no live value is
    [INVALID_HANDLE_VALUE], and a live entry has the generation of its value.  The
    thread of a thread object has its state. *)
Theorem handles_and_objects_exact {O} `{R : !Win32Rest O} `{!Win32RestLaws O} n (w : Win32Subsystem O) :
  reached n w → n ≤ call_limit →
  let t := ws_table w in
  let s := ws_objects w in
  (∀ h e, ht_entries t !! h = Some e →
     ∃ o hd, om_objects s !! hn_object_id e = Some o ∧ om_headers s !! hn_object_id e = Some hd ∧ hd_ty hd = payload_type o ∧
       hd_refcount hd = refs t (hn_object_id e) ∧ handle_count (hn_object_id e) s = refs t (hn_object_id e) ∧
       hn_generation e = generation_of t h ∧ ¬ (h ∈ ht_closed t) ∧ 0 < h < INVALID_HANDLE_VALUE) ∧
  (∀ id, is_Some (om_objects s !! id) ↔ ∃ h e, ht_entries t !! h = Some e ∧ hn_object_id e = id) ∧
  (∀ name id, resolve name s = Some id →
     ∃ o hd, om_objects s !! id = Some o ∧ om_headers s !! id = Some hd ∧ hd_name hd = Some (canonical_object_name name)) ∧
  NoDup (ht_closed t) ∧
  (∀ id thread, om_objects s !! id = Some (KThread thread) → is_Some (ws_threads w !! thread)).
Proof.
  intros Hr Hn t s. destruct (reached_ok n w Hr Hn) as [Hok Hn0]. pose proof (wk_table _ _ Hok) as Ht. split_and!.
  - intros h e He. destruct (entry_object n w h e Hok He) as (o & hd & H1 & H2 & _ & H3 & H4 & H5). exists o, hd.
    destruct (tb_live _ Ht h e He) as [[Hr1 Hr2] Hg]. pose proof (wk_next _ _ Hok). split_and!; try done.
    + unfold handle_count, s. by rewrite H5.
    + intros Hin. destruct (tb_closed _ Ht h Hin) as [_ Hnone]. unfold t in He. by rewrite He in Hnone.
    + lia.
    + unfold INVALID_HANDLE_VALUE, u32_max, call_limit in *. lia.
  - intros id. split.
    + intros [o Ho]. pose proof (ob_object _ _ _ (wk_objects _ _ Hok) id) as Hid. unfold object_ok in Hid. fold s in Hid. rewrite Ho in Hid.
      destruct Hid as (_ & _ & _ & _ & _ & _ & [Hpos|[? _]] & _); [|done]. by apply refs_witness.
    + intros (h & e & He & <-). destruct (entry_object n w h e Hok He) as (o & _ & H1 & _). by exists o.
  - intros name id Hid. destruct (named_object n w name id Hok Hid) as [o Ho]. destruct (ob_name _ _ _ (wk_objects _ _ Hok) _ _ Hid) as (hd & Hh & En).
    by exists o, hd.
  - apply (tb_nodup _ Ht).
  - apply (wk_threads _ _ Hok).
Qed.

Definition program_end : Win32Subsystem unit := default (new_win32 1 tt) (run_calls program (new_win32 1 tt)).
Lemma program_reached : reached 40 program_end.
Proof. exists program, 1, tt. split_and!; [done|by vm_compute|by vm_compute|]. unfold program_end. by vm_compute. Qed.
Lemma handles_and_objects_exact_witness :
  is_Some (om_objects (ws_objects program_end) !! 2) ↔ ∃ h e, ht_entries (ws_table program_end) !! h = Some e ∧ hn_object_id e = 2.
Proof. destruct (handles_and_objects_exact 40 program_end program_reached) as (_ & H & _); [by vm_compute|]. exact (H 2). Defined.

(** ** Closing *)

(** C22 - In a state that at most 2^30 - 2 calls reach, closing a handle fails, and
    nothing has changed, when the value is not live or is a socket.  Otherwise a file
    or a pipe is torn down first, and that alone reaches the peers of a pipe and the
    events that wait for it: when it fails, the close fails with its error, and when
    the value is protected, the close fails after the teardown; the table and the shape
    of every object are as before.  Every other close succeeds.  The value alone leaves
    the table, goes to the back of the values to recycle and its generation grows; the
    object loses one reference, and goes, with the name it bears, exactly when no other
    handle names it; the association of the handle goes, with the last handle the port,
    and the state of a thread that has exited.  Nothing else changes. *)
Theorem close_handle_exact {O} `{R : !Win32Rest O} `{!Win32RestLaws O} n (w : Win32Subsystem O) h :
  reached n w → n ≤ call_limit →
  ∃ r w', close_handle h w = Done r w' ∧ closed_exactly h w r w' ∧
    (∀ o last, match o with KFile _ | KPipe _ => False | _ => True end → teardown h o last w = Done (Ok tt) w) ∧
    (r = Ok tt → ws_table w' = closed_table h (ws_table w) ∧
       ht_entries (ws_table w') !! h = None ∧ last (ht_closed (ws_table w')) = Some h ∧
       generation_of (ws_table w') h = saturating_add u32_max (generation_of (ws_table w) h) 1) ∧
    (∀ er, r = Err er → ws_table w' = ws_table w ∧ same_shape (ws_objects w) (ws_objects w')).
Proof.
  intros Hr Hn. destruct (reached_ok n w Hr Hn) as [Hok Hn0]. pose proof (win32_close_spec n w h Hok Hn) as H. unfold wp in H.
  destruct (close_handle h w) as [r w'|] eqn:E; [|done]. destruct H as [_ H]. exists r, w'. split_and!; [done|done|by intros []|..];
    unfold closed_exactly in H; destruct (ht_entries (ws_table w) !! h) as [e|] eqn:He; try (destruct H as [-> ->]; done).
  - intros ->. destruct H as (o & _ & H). destruct (decide _); [by destruct H|]. destruct H as (torn & w1 & _ & [Et _ _ _ _ _ _] & H).
    destruct torn as [[]|er]; [|by destruct H]. destruct (is_protected h (ws_table w)); [by destruct H|]. destruct H as [_ H].
    assert (ws_table w' = closed_table h (ws_table w)) as ->.
    { rewrite <-Et. destruct H as (s & _ & H). destruct o; try by rewrite H. by destruct H as [[_ ->]|[_ ->]]. }
    split_and!; [done|apply lookup_delete_eq|apply last_snoc|by rewrite generation_closed, decide_True by done].
  - intros er ->. destruct H as (o & _ & H). destruct (decide _); [by destruct H as [_ ->]|]. destruct H as (torn & w1 & _ & [Et Hs _ _ _ _ _] & H).
    destruct torn as [[]|er']; [|by destruct H as [_ ->]]. destruct (is_protected h (ws_table w)); [by destruct H as [_ ->]|by destruct H].
Qed.
(** A mutex that no other handle names, and a value that no handle has. *)
Lemma close_handle_exact_witness :
  (∃ w', close_handle 12 program_end = Done (Ok tt) w' ∧ closed_exactly 12 program_end (Ok tt) w') ∧
  (∃ w', close_handle 400 program_end = Done (Err RcWin32InvalidHandle) w' ∧ closed_exactly 400 program_end (Err RcWin32InvalidHandle) w').
Proof.
  split.
  - destruct (close_handle_exact 40 program_end 12 program_reached) as (r & w' & H1 & H2 & _); [by vm_compute|]. exists w'.
    assert (match close_handle 12 program_end with Done (Ok _) _ => true | _ => false end = true) as Hr by by vm_compute.
    rewrite H1 in Hr. destruct r as [[]|]; [|done]. exact (conj H1 H2).
  - destruct (close_handle_exact 40 program_end 400 program_reached) as (r & w' & H1 & H2 & _); [by vm_compute|]. exists w'.
    assert (match close_handle 400 program_end with Done (Err e) _ => e =? RcWin32InvalidHandle | _ => false end = true) as Hr by by vm_compute.
    rewrite H1 in Hr. destruct r as [|e]; [done|]. apply Z.eqb_eq in Hr as ->. exact (conj H1 H2).
Defined.
End Wt.
