(* ===== verification/Win32WaitTheorems.v ===== *)
(** * The Win32 subsystem: waits, mutexes and the loop over several objects *)

From S2P Require Import Prelude Strings Win32Types HandleTable KernelObjects Win32 Win32Wait HandleTableFacts KernelObjectsFacts Win32Facts Win32CallFacts Win32CloseFacts Win32Theorems.

Module Ww.
Import Ht Ko Wf Wc Wl Wt.

(** ** Probing and consuming agree *)

Lemma satisfied_consumes (s : ObjectManager) i t now o n : om_objects s !! i = Some o → recursion_le n s → 0 ≤ n → n + 1 ≤ u32_max →
  ∃ status o', consume_object o t now = Some (status, o') ∧
    (status = WaitTimeout ↔ wait_satisfaction i t now s = SatNotSignaled) ∧
    (status = WaitAbandoned ↔ wait_satisfaction i t now s = SatAbandoned) ∧
    (object_is_signaled i t now s = true ↔ wait_satisfaction i t now s ≠ SatNotSignaled).
Proof.
  intros Ho Hrec H0 Hn. unfold wait_satisfaction, object_is_signaled, consume_object. rewrite Ho.
  destruct o as [| e | | m | sm | | | | | tm | | | | ]; try (eexists _, _; split_and!; [done|naive_solver..]; fail).
  - destruct (eo_signaled e); eexists _, _; split_and!; naive_solver.
  - specialize (Hrec _ _ Ho). destruct (mx_abandoned m); [eexists _, _; split_and!; naive_solver|].
    destruct (mx_owner_thread_id m) as [owner|]; [|eexists _, _; split_and!; naive_solver].
    rewrite (bool_decide_eq_false_2 (Some owner = None)) by done. destruct (Z.eqb_spec owner t) as [->|Hne].
    + unfold checked_add. rewrite (proj2 (Z.leb_le _ _)) by lia. cbn [mbind option_bind]. rewrite bool_decide_eq_true_2 by done.
      eexists _, _; split_and!; naive_solver.
    + rewrite bool_decide_eq_false_2 by congruence. eexists _, _; split_and!; naive_solver.
  - destruct (0 <? sm_count sm); eexists _, _; split_and!; naive_solver.
  - destruct (_ || _); eexists _, _; split_and!; naive_solver.
Qed.

Section waits.
Context {O : Type} `{R : !Win32Rest O}.
#[local] Abbreviation W := (Win32Subsystem O).
Implicit Types (w : W).

(** What a probe of an object answers: the exit of a thread or of a process is kept
    by the subsystem. *)
Definition satisfaction (w : W) (t id : Z) : WaitSatisfaction :=
  match om_objects (ws_objects w) !! id with
  | Some (KThread thread) => if has_exited thread w then SatSignaled else SatNotSignaled
  | Some (KProcess p) => match po_exit_code p with Some _ => SatSignaled | None => SatNotSignaled end
  | _ => wait_satisfaction id t (ws_ticks_ms w) (ws_objects w)
  end.
(** What a granted wait leaves of an object. *)
Definition after_wait (t now : Z) (o : KernelObject) : KernelObject :=
  match o with
  | KThread _ | KProcess _ => o
  | _ => match consume_object o t now with Some (_, o') => o' | None => o end
  end.

(** What it leaves of the header of an object. *)
Definition header_after (t now : Z) (o : KernelObject) (hd : ObjectHeader) : ObjectHeader :=
  match o with
  | KThread _ | KProcess _ => hd
  | _ => match consume_object o t now with Some (status, _) => hd_set_wait_state (state_of_wait status) hd | None => hd end
  end.
(** The namespace, the counts of handles and the wake-ups, untouched. *)
Definition same_registry (s s' : ObjectManager) : Prop :=
  om_names s' = om_names s ∧ om_handle_counts s' = om_handle_counts s ∧ om_next_id s' = om_next_id s ∧ om_wakes s' = om_wakes s.
Lemma same_registry_trans s1 s2 s3 : same_registry s1 s2 → same_registry s2 s3 → same_registry s1 s3.
Proof using. unfold same_registry. naive_solver congruence. Qed.

Lemma consume_type o t now status o' : consume_object o t now = Some (status, o') → payload_type o' = payload_type o.
Proof using.
  unfold consume_object, checked_add. destruct o; simpl; try by intros [= <- <-].
  - destruct (eo_signaled event), (eo_manual_reset event); by intros [= <- <-].
  - destruct (mx_abandoned mutex); [by intros [= <- <-]|]. destruct (mx_owner_thread_id mutex); [|by intros [= <- <-]].
    destruct (_ =? _); [|by intros [= <- <-]]. destruct (_ <=? _); [|done]. by intros [= <- <-].
  - destruct (0 <? _); by intros [= <- <-].
  - destruct (_ || _); by intros [= <- <-].
Qed.
Lemma after_wait_type t now o : payload_type (after_wait t now o) = payload_type o.
Proof using.
  unfold after_wait. destruct (consume_object o t now) as [[status o']|] eqn:E; [apply consume_type in E|]; by destruct o.
Qed.

(** A handle that may be waited on, and its object. *)
Definition waitable (w : W) (h id : Z) : Prop :=
  ∃ e o, ht_entries (ws_table w) !! h = Some e ∧ hn_object_id e = id ∧ om_objects (ws_objects w) !! id = Some o ∧
    waitable_type (payload_type o) = true ∧ Z.land (hn_access_mask e) SYNCHRONIZE ≠ 0.

Definition waitable_b (w : W) (h id : Z) : bool :=
  match ht_entries (ws_table w) !! h, om_objects (ws_objects w) !! id with
  | Some e, Some o => (hn_object_id e =? id) && waitable_type (payload_type o) && negb (Z.land (hn_access_mask e) SYNCHRONIZE =? 0)
  | _, _ => false
  end.
Lemma waitable_b_sound w h id : waitable_b w h id = true → waitable w h id.
Proof using.
  unfold waitable_b, waitable. destruct (ht_entries (ws_table w) !! h) as [e|]; [|done]. destruct (om_objects (ws_objects w) !! id) as [o|]; [|done].
  intros [[E1 E2]%andb_true_iff E3]%andb_true_iff. exists e, o. split_and!; [done|by apply Z.eqb_eq|done|done|].
  intros E. by rewrite E in E3.
Qed.

Lemma handle_type_run n w h e o : win_ok n w → ht_entries (ws_table w) !! h = Some e → om_objects (ws_objects w) !! hn_object_id e = Some o →
  handle_entry h w = Done (Ok (view_of w e o)) w.
Proof using.
  intros Hok He Ho. destruct (handle_entry_run n w h Hok) as [[Hn _]|(e' & o' & He' & Ho' & ->)]; [by rewrite He in Hn|].
  rewrite He in He'. injection He' as <-. rewrite Ho in Ho'. by injection Ho' as <-.
Qed.

Lemma satisfiable_run n w h e o t : win_ok n w → ht_entries (ws_table w) !! h = Some e → om_objects (ws_objects w) !! hn_object_id e = Some o →
  waitable_type (payload_type o) = true → Z.land (hn_access_mask e) SYNCHRONIZE ≠ 0 →
  wait_object_satisfiable h (payload_type o) t w = Done (Ok (satisfaction w t (hn_object_id e))) w.
Proof using.
  intros Hok He Ho Hty Hacc. pose proof (handle_type_run n w h e o Hok He Ho) as Hrun. unfold wait_object_satisfiable, require_waitable, satisfaction.
  cbn [bind gets]. rewrite Hty. cbn [bind]. rewrite Hrun. unfold require_access. cbn [fail_if view_of hv_access_mask]. rewrite (proj2 (Z.eqb_neq _ _)) by done.
  cbn [bind]. rewrite Ho. destruct o; try done; cbn [payload_type];
    try (cbn [bind gets]; rewrite identity_run, He; cbn [gets ret]; unfold Datatypes.id; done).
  - unfold thread_id_of. cbn [bind]. rewrite Hrun. cbn [view_of hv_object ret]. unfold thread_state. cbn [bind gets]. unfold Datatypes.id, has_exited.
    destruct (wk_threads _ _ Hok _ _ Ho) as [ts Ets]. rewrite Ets. cbn [ok_or ret]. by destruct (ts_exit_code ts).
  - cbn [bind]. by rewrite Hrun.
Qed.

Lemma all_satisfiable_run n w hs ids t b : win_ok n w → Forall2 (waitable w) hs ids →
  all_satisfiable hs t b w = Done (Ok (
    if decide (Exists (λ id, satisfaction w t id = SatNotSignaled) ids) then None
    else Some (b || bool_decide (Exists (λ id, satisfaction w t id = SatAbandoned) ids)))) w.
Proof using.
  intros Hok Hall. revert b. induction Hall as [|h id hs ids (e & o & He & <- & Ho & Hty & Hacc) Hall IH]; intros b; cbn [all_satisfiable].
  - rewrite decide_False by (by intros ?%Exists_nil). rewrite bool_decide_eq_false_2 by (by intros ?%Exists_nil). by rewrite orb_false_r.
  - cbn [bind]. unfold handle_object_type. cbn [bind]. rewrite (handle_type_run n w h e o Hok He Ho). cbn [ret view_of hv_object_type].
    rewrite (satisfiable_run n w h e o t Hok He Ho Hty Hacc). rewrite (decide_if_ext (Exists _ (_ :: _)) (satisfaction w t (hn_object_id e) = SatNotSignaled ∨
      Exists (λ id, satisfaction w t id = SatNotSignaled) ids)) by (by rewrite Exists_cons).
    rewrite (bool_decide_ext (Exists _ (_ :: _)) (satisfaction w t (hn_object_id e) = SatAbandoned ∨ Exists (λ id, satisfaction w t id = SatAbandoned) ids)) by (by rewrite Exists_cons).
    destruct (satisfaction w t (hn_object_id e)).
    + rewrite decide_True by (by left). done.
    + rewrite IH. rewrite (decide_if_ext (SatSignaled = SatNotSignaled ∨ _) (Exists (λ id, satisfaction w t id = SatNotSignaled) ids)) by (split; [by intros [?|?]|by right]).
      rewrite (bool_decide_ext (SatSignaled = SatAbandoned ∨ _) (Exists (λ id, satisfaction w t id = SatAbandoned) ids)) by (split; [by intros [?|?]|by right]). done.
    + rewrite IH. rewrite (decide_if_ext (SatAbandoned = SatNotSignaled ∨ _) (Exists (λ id, satisfaction w t id = SatNotSignaled) ids)) by (split; [by intros [?|?]|by right]).
      rewrite (bool_decide_eq_true_2 (SatAbandoned = SatAbandoned ∨ _)) by (by left). by rewrite orb_true_r.
Qed.

(** ** Consuming a set of objects *)

Lemma consume_handle_run n w h t e o : win_ok n w → n + 1 ≤ call_limit → ht_entries (ws_table w) !! h = Some e →
  om_objects (ws_objects w) !! hn_object_id e = Some o →
  ∃ s, consume_handle t h w = Done (Ok tt) (ws_set_objects s w) ∧
    om_objects s = <[hn_object_id e := after_wait t (ws_ticks_ms w) o]> (om_objects (ws_objects w)) ∧
    om_headers s = alter (header_after t (ws_ticks_ms w) o) (hn_object_id e) (om_headers (ws_objects w)) ∧ same_registry (ws_objects w) s.
Proof using.
  intros Hok Hn He Ho. pose proof (wk_n _ _ Hok) as H0. assert (n + 1 ≤ u32_max) as Hlim by (unfold call_limit, u32_max in *; lia).
  unfold consume_handle, handle_object_type. cbn [bind]. rewrite (handle_type_run n w h e o Hok He Ho). cbn [ret view_of hv_object_type].
  destruct (satisfied_consumes (ws_objects w) _ t (ws_ticks_ms w) o n Ho (wk_recursion _ _ Hok) H0 Hlim) as (status & o' & Ec & _).
  assert (∃ s, (object_id <- handle_object_identity h ;; w <- gets id ;; on_objects (consume_wait object_id t (ws_ticks_ms w)) ;;; ret tt) w
    = Done (Ok tt) (ws_set_objects s w) ∧ om_objects s = <[hn_object_id e := o']> (om_objects (ws_objects w)) ∧
    om_headers s = alter (hd_set_wait_state (state_of_wait status)) (hn_object_id e) (om_headers (ws_objects w)) ∧ same_registry (ws_objects w) s) as (s & Es & Eo).
  { cbn [bind]. rewrite identity_run, He. cbn [gets]. unfold on_objects, consume_wait, Datatypes.id. cbn [zoom bind gets]. rewrite Ho, Ec. cbn [expect bind modify ret].
    by eexists. }
  assert (ws_set_objects (ws_objects w) w = w ∧ <[hn_object_id e := o]> (om_objects (ws_objects w)) = om_objects (ws_objects w)) as [Ew Ei]
    by (split; [by destruct w|by apply insert_id]).
  unfold after_wait, header_after. rewrite Ec. destruct o; cbn [payload_type]; try (exists s; by rewrite Es);
    exists (ws_objects w); rewrite Ew, Ei; (split_and!; [done|done|symmetry; by apply alter_id|done..]).
Qed.

(** The objects of the set are consumed, with their headers, and nothing else. *)
Definition consumed_exactly (ids : list Z) (t : Z) (w : W) (s : ObjectManager) : Prop :=
  (∀ id, om_objects s !! id = (if decide (id ∈ ids) then after_wait t (ws_ticks_ms w) else Datatypes.id) <$> om_objects (ws_objects w) !! id) ∧
  (∀ id, om_headers s !! id =
     (match om_objects (ws_objects w) !! id with
      | Some o => if decide (id ∈ ids) then header_after t (ws_ticks_ms w) o else Datatypes.id
      | None => Datatypes.id
      end) <$> om_headers (ws_objects w) !! id) ∧
  same_registry (ws_objects w) s.
Lemma consume_set_run hs : ∀ n w ids t, win_ok n w → n + Z.of_nat (length hs) ≤ call_limit → Forall2 (waitable w) hs ids → NoDup ids →
  ∃ s, consume_wait_set hs t w = Done (Ok tt) (ws_set_objects s w) ∧
    consumed_exactly ids t w s.
Proof using.
  induction hs as [|h hs IH]; intros n w ids t Hok Hn Hall Hnd; inversion Hall as [|? id ? ids' (e & o & He & <- & Ho & Hty & Hacc) Hall']; subst.
  - exists (ws_objects w). split; [by destruct w|]. split_and!; [intros id; rewrite decide_False by apply not_elem_of_nil|intros id|done].
    + by destruct (om_objects (ws_objects w) !! id).
    + destruct (om_objects (ws_objects w) !! id); rewrite ?decide_False by apply not_elem_of_nil; by destruct (om_headers (ws_objects w) !! id).
  - apply NoDup_cons in Hnd as [Hnot Hnd]. cbn [length] in Hn.
    destruct (consume_handle_run n w h t e o Hok ltac:(lia) He Ho) as (s & Es & Eo & Eh & Er).
    pose proof (grows_consume_handle t h n w Hok ltac:(lia)) as Hok1. unfold wp in Hok1. rewrite Es in Hok1.
    destruct (IH (n + 1) (ws_set_objects s w) ids' t Hok1 ltac:(lia)) as (s' & Es' & Eo' & Eh' & Er'); [|done|].
    { eapply Forall2_impl; [exact Hall'|]. intros h' id' (e' & o' & He' & E' & Ho' & Hty' & Hacc'). exists e'. unfold waitable. cbn [ws_objects ws_table ws_set_objects].
      rewrite Eo. destruct (decide (id' = hn_object_id e)) as [->|Hne].
      - rewrite lookup_insert_eq. rewrite Ho in Ho'. injection Ho' as <-. eexists. split_and!; [done|done|done| |done]. by rewrite after_wait_type.
      - rewrite lookup_insert_ne by done. by exists o'. }
    exists s'. cbn [consume_wait_set for_each bind]. rewrite Es. split; [exact Es'|].
    assert (∀ id, id ≠ hn_object_id e → (id ∈ hn_object_id e :: ids' ↔ id ∈ ids')) as Hin by (intros id Hne; rewrite elem_of_cons; naive_solver).
    split_and!; [intros id; rewrite Eo'|intros id; rewrite Eh'|by eapply same_registry_trans]; cbn [ws_objects ws_set_objects ws_ticks_ms]; rewrite Eo.
    + destruct (decide (id = hn_object_id e)) as [->|Hne].
      * rewrite lookup_insert_eq, Ho. rewrite (decide_False (P := _ ∈ ids')) by done. by rewrite decide_True by (by left).
      * rewrite lookup_insert_ne by done. by rewrite (decide_if_ext _ _ _ _ (Hin id Hne)).
    + rewrite Eh. destruct (decide (id = hn_object_id e)) as [->|Hne].
      * rewrite lookup_insert_eq, Ho, lookup_alter_eq. rewrite (decide_False (P := _ ∈ ids')) by done. rewrite decide_True by (by left).
        by destruct (om_headers (ws_objects w) !! hn_object_id e).
      * rewrite lookup_insert_ne, lookup_alter_ne by done. destruct (om_objects (ws_objects w) !! id); [|done].
        by rewrite (decide_if_ext _ _ _ _ (Hin id Hne)).
Qed.

(** ** Probes change nothing *)

Lemma same_entry h : monotone (eq (A := W)) (on_table (entry h)).
Proof using. intros w r w'. rewrite entry_run. by intros [= _ <-]. Qed.
Lemma same_on_objects {A} (c : M ObjectManager A) : (∀ s r s', c s = Done r s' → s' = s) → monotone (eq (A := W)) (on_objects c).
Proof using.
  intros Hc w r w'. unfold on_objects. cbn [zoom]. destruct (c (ws_objects w)) as [r0 s|] eqn:E; [|done]. apply Hc in E as ->. intros [= _ <-]. by destruct w.
Qed.
Lemma same_handle_entry h : monotone (eq (A := W)) (handle_entry h).
Proof using.
  unfold handle_entry. apply monotone_bind; [typeclasses eauto|apply same_entry|intros e]. cbv zeta.
  apply monotone_bind; [typeclasses eauto| |intros ty].
  { apply same_on_objects. intros s r s'. unfold object_type. cbn [bind gets]. unfold Datatypes.id. by destruct (hd_ty <$> _); intros [= _ <-]. }
  apply monotone_bind; [typeclasses eauto|by intros w r w' [= _ <-]|intros w0]. apply monotone_bind; [typeclasses eauto| |by intros o w r w' [= _ <-]].
  apply same_on_objects. intros s r s'. unfold object_of. cbn [bind gets]. unfold Datatypes.id. by destruct (om_objects s !! _); intros [= _ <-].
Qed.
Ltac same_steps :=
  repeat (cbv zeta; lazymatch goal with
    | |- monotone _ (handle_entry _) => apply same_handle_entry
    | |- monotone _ (on_table (entry _)) => apply same_entry
    | |- monotone _ (bind _ _) => apply monotone_bind; [typeclasses eauto| |intros ?]
    | |- monotone _ (match ?x with _ => _ end) => destruct x
    | |- monotone _ (ret _) => by intros ? ? ? [= _ <-]
    | |- monotone _ (throw _) => by intros ? ? ? [= _ <-]
    | |- monotone _ (gets _) => by intros ? ? ? [= _ <-]
    | |- monotone _ (fail_if ?b _) => destruct b; by intros ? ? ? [= _ <-]
    | |- monotone _ (ok_or ?o _) => destruct o; by intros ? ? ? [= _ <-]
    end).
Lemma same_satisfiable h ty t : monotone (eq (A := W)) (wait_object_satisfiable h ty t).
Proof using.
  unfold wait_object_satisfiable, require_waitable, require_access, thread_id_of, thread_state, handle_object_identity. same_steps.
Qed.
Lemma same_all_satisfiable hs t b : monotone (eq (A := W)) (all_satisfiable hs t b).
Proof using.
  revert b. induction hs as [|h hs IH]; intros b; cbn [all_satisfiable]; unfold handle_object_type; same_steps; try apply same_satisfiable; apply IH.
Qed.

(** ** What a probe refuses *)

(** The error of a handle that may not be waited on. *)
Definition refusal (w : W) (h : Z) : option Z :=
  match ht_entries (ws_table w) !! h with
  | None => Some RcWin32InvalidHandle
  | Some e =>
      match om_objects (ws_objects w) !! hn_object_id e with
      | None => Some RcWin32InvalidHandle
      | Some o =>
          if waitable_type (payload_type o) then if Z.land (hn_access_mask e) SYNCHRONIZE =? 0 then Some RcHelperPermissionDenied else None
          else Some RcWin32InvalidHandle
      end
  end.
(** A handle that may be waited on, to an object that a wait would be granted. *)
Definition grantable (w : W) (t h : Z) : Prop := ∃ id, waitable w h id ∧ satisfaction w t id ≠ SatNotSignaled.

Lemma probe_refused n w h t b hs e : win_ok n w → refusal w h = Some e → all_satisfiable (h :: hs) t b w = Done (Err e) w.
Proof using.
  intros Hok Hr. unfold refusal in Hr. cbn [all_satisfiable]. unfold handle_object_type. cbn [bind].
  destruct (handle_entry_run n w h Hok) as [[Hno Ee]|(e1 & o & He & Ho & Ee)]; [rewrite Hno in Hr; injection Hr as <-; by rewrite Ee|].
  rewrite He, Ho in Hr. rewrite Ee. cbn [ret view_of hv_object_type]. unfold wait_object_satisfiable, require_waitable. cbn [bind gets].
  destruct (waitable_type (payload_type o)); [|by injection Hr as <-]. cbn [bind]. rewrite Ee. unfold require_access. cbn [view_of hv_access_mask].
  destruct (_ =? 0); [by injection Hr as <-|done].
Qed.
Lemma probe_step n w h id t b hs : win_ok n w → waitable w h id →
  all_satisfiable (h :: hs) t b w =
    match satisfaction w t id with
    | SatSignaled => all_satisfiable hs t b w | SatAbandoned => all_satisfiable hs t true w | SatNotSignaled => Done (Ok None) w
    end.
Proof using.
  intros Hok (e & o & He & <- & Ho & Hty & Hacc). cbn [all_satisfiable bind]. unfold handle_object_type. cbn [bind]. rewrite (handle_type_run n w h e o Hok He Ho).
  cbn [ret view_of hv_object_type]. rewrite (satisfiable_run n w h e o t Hok He Ho Hty Hacc). by destruct (satisfaction w t (hn_object_id e)).
Qed.
Lemma not_refused w h : refusal w h = None → ∃ id, waitable w h id.
Proof using.
  unfold refusal, waitable. destruct (ht_entries (ws_table w) !! h) as [e|]; [|done]. destruct (om_objects (ws_objects w) !! hn_object_id e) as [o|] eqn:Ho; [|done].
  destruct (waitable_type (payload_type o)) eqn:Hty; [|done]. destruct (Z.eqb_spec (Z.land (hn_access_mask e) SYNCHRONIZE) 0); [done|].
  intros _. by exists (hn_object_id e), e, o.
Qed.
Lemma probe_refused_after n w hs1 : ∀ b h hs2 t e, win_ok n w → Forall (grantable w t) hs1 → refusal w h = Some e →
  all_satisfiable (hs1 ++ h :: hs2) t b w = Done (Err e) w.
Proof using.
  induction hs1 as [|h1 hs1 IH]; intros b h hs2 t e Hok Hall Hr; [by eapply probe_refused|]. inversion Hall as [|? ? (id & Hw & Hsat) Hall']; subst.
  cbn [app]. rewrite (probe_step n w h1 id t b _ Hok Hw). destruct (satisfaction w t id); [done|by apply IH..].
Qed.
Lemma probe_granted n w hs t : ∀ b b', win_ok n w → all_satisfiable hs t b w = Done (Ok (Some b')) w → Forall (grantable w t) hs.
Proof using.
  induction hs as [|h hs IH]; intros b b' Hok Hrun; [constructor|]. destruct (refusal w h) as [e|] eqn:Er.
  - by rewrite (probe_refused n w h t b hs e Hok Er) in Hrun.
  - destruct (not_refused w h Er) as [id Hw]. rewrite (probe_step n w h id t b hs Hok Hw) in Hrun.
    destruct (satisfaction w t id) eqn:Es; [done| |]; (constructor; [exists id; by rewrite Es|by eapply IH]).
Qed.

(** ** A probe that answered names handles that can be consumed *)

Lemma grantable_known w t hs : Forall (grantable w t) hs → Forall (λ h, is_Some (ht_entries (ws_table w) !! h)) hs.
Proof using. intros Hall. eapply Forall_impl; [exact Hall|]. intros h (id & (e & o & He & _) & _). by exists e. Qed.
Lemma consume_set_returns hs : ∀ n w t, win_ok n w → n + Z.of_nat (length hs) ≤ call_limit → Forall (λ h, is_Some (ht_entries (ws_table w) !! h)) hs →
  ∃ w', for_each hs (consume_handle t) w = Done (Ok tt) w'.
Proof using.
  induction hs as [|h hs IH]; intros n w t Hok Hn Hall; [by exists w|]. inversion Hall as [|? ? [e He] Hall']; subst. cbn [length] in Hn.
  destruct (handle_entry_run n w h Hok) as [[Hno _]|(e' & o & He' & Ho & _)]; [by rewrite He in Hno|]. rewrite He in He'. injection He' as <-.
  destruct (consume_handle_run n w h t e o Hok ltac:(lia) He Ho) as (s & Es & _).
  pose proof (grows_consume_handle t h n w Hok ltac:(lia)) as Hok1. unfold wp in Hok1. rewrite Es in Hok1.
  cbn [for_each bind]. rewrite Es. by apply (IH (n + 1)); [|lia|].
Qed.
Lemma granted n w t id o : win_ok n w → n ≤ call_limit - 1 → om_objects (ws_objects w) !! id = Some o → satisfaction w t id ≠ SatNotSignaled →
  (payload_type o = OtThread ∨ payload_type o = OtProcess) ∨
  ∃ status o', consume_object o t (ws_ticks_ms w) = Some (status, o') ∧ status ≠ WaitTimeout.
Proof using.
  intros Hok Hn Ho Hsat. pose proof (wk_n _ _ Hok). 
  destruct (satisfied_consumes (ws_objects w) id t (ws_ticks_ms w) o n Ho (wk_recursion _ _ Hok)) as (status & o' & Ec & Hst & _);
    [lia|unfold call_limit, u32_max in *; lia|].
  unfold satisfaction in Hsat. rewrite Ho in Hsat. destruct o; try (by left; left); try (by left; right); right; exists status, o'; split; [done|tauto|..];
    (split || done || tauto).
Qed.
End waits.

(** C15 - In a state that calls reach, the handles of the set counted among the 2^30 -
    2, [evaluate_wait_all] probes first: when it is not granted, nothing has changed.
    The first handle that is not live, not waitable or lacks [SYNCHRONIZE], after
    handles that would be granted, fails the wait with its error; a wait that is
    granted had waitable handles to signaled objects only.  When the handles name
    different objects and all are signaled, each is consumed exactly once and really
    granted, and of the rest of the state only the wait states of those objects change;
    the answer tells whether a mutex was abandoned. *)
Theorem wait_set_atomic {O} `{R : !Win32Rest O} `{!Win32RestLaws O} n (w : Win32Subsystem O) hs ids t :
  reached n w → n + Z.of_nat (length hs) ≤ call_limit →
  (∀ r w', evaluate_wait_all hs t w = Done r w' →
     ((∀ s, r ≠ Ok (Some s)) → w' = w) ∧ (∀ s, r = Ok (Some s) → Forall (grantable w t) hs)) ∧
  (∀ hs1 h hs2 e, hs = hs1 ++ h :: hs2 → Forall (grantable w t) hs1 → refusal w h = Some e → evaluate_wait_all hs t w = Done (Err e) w) ∧
  (Forall2 (waitable w) hs ids → NoDup ids →
     if decide (Exists (λ id, satisfaction w t id = SatNotSignaled) ids) then evaluate_wait_all hs t w = Done (Ok None) w
     else ∃ s, evaluate_wait_all hs t w = Done (Ok (Some (
            if bool_decide (Exists (λ id, satisfaction w t id = SatAbandoned) ids) then WaitAbandoned else WaitObject0))) (ws_set_objects s w) ∧
       consumed_exactly ids t w s ∧
       (∀ id o, id ∈ ids → om_objects (ws_objects w) !! id = Some o → (payload_type o = OtThread ∨ payload_type o = OtProcess) ∨
          ∃ status o', consume_object o t (ws_ticks_ms w) = Some (status, o') ∧ status ≠ WaitTimeout)).
Proof.
  intros Hr Hn. destruct (reached_ok n w Hr ltac:(lia)) as [Hok H0]. split_and!.
  - intros r w' Hrun. unfold evaluate_wait_all in Hrun. cbn [bind] in Hrun.
    destruct (all_satisfiable hs t false w) as [[[b|]|e] w1|] eqn:E; [| | |done]; pose proof (same_all_satisfiable _ _ _ _ _ _ E) as <-;
      [|by injection Hrun as <- <-|by injection Hrun as <- <-]. pose proof (probe_granted n w hs t _ _ Hok E) as Hall.
    destruct (consume_set_returns hs n w t Hok Hn (grantable_known w t hs Hall)) as [w2 E2].
    unfold consume_wait_set in Hrun. cbn [bind] in Hrun. rewrite E2 in Hrun. injection Hrun as <- _. split; [|done]. intros Hne. by destruct (Hne _ eq_refl).
  - intros hs1 h hs2 e -> Hall Href. unfold evaluate_wait_all. cbn [bind]. by rewrite (probe_refused_after n w hs1 false h hs2 t e Hok Hall Href).
  - intros Hall Hnd. unfold evaluate_wait_all. cbn [bind]. rewrite (all_satisfiable_run n w hs ids t false Hok Hall).
    destruct (decide (Exists (λ id, satisfaction w t id = SatNotSignaled) ids)) as [|Hno]; [done|]. cbn [orb].
    destruct (consume_set_run hs n w ids t Hok Hn Hall Hnd) as (s & Es & Hs). exists s. split; [|split]; [|exact Hs|].
    + cbn [bind]. rewrite Es. cbn [ret]. by case_bool_decide.
    + intros id o Hid Ho. assert (1 ≤ Z.of_nat (length hs)).
      { rewrite (Forall2_length _ _ _ Hall). destruct ids; [by apply not_elem_of_nil in Hid|]. cbn [length]. lia. }
      apply (granted n w t id o Hok); [lia|done|]. intros Hsat. apply Hno, Exists_exists. by exists id.
Qed.
(** An event that resets itself, a mutex and a semaphore, waited for by thread 7. *)
Definition wait_program : list win32_call :=
  [CallCreateEvent false true false None; CallCreateMutex false false; CallCreateSemaphore 2 5 false].
Definition wait_start : Win32Subsystem unit := default (new_win32 1 tt) (run_calls wait_program (new_win32 1 tt)).
Lemma wait_start_reached : reached 3 wait_start.
Proof. exists wait_program, 1, tt. split_and!; [done|by vm_compute|by vm_compute|]. unfold wait_start. by vm_compute. Qed.
Lemma wait_start_waitable : Forall2 (waitable wait_start) [4; 8; 12] [1; 2; 3].
Proof.
  repeat constructor; apply waitable_b_sound; by vm_compute.
Qed.
Lemma wait_set_atomic_witness :
  (if decide (Exists (λ id, satisfaction wait_start 7 id = SatNotSignaled) [1; 2; 3]) then evaluate_wait_all [4; 8; 12] 7 wait_start = Done (Ok None) wait_start
   else ∃ s, evaluate_wait_all [4; 8; 12] 7 wait_start = Done (Ok (Some (
       if bool_decide (Exists (λ id, satisfaction wait_start 7 id = SatAbandoned) [1; 2; 3]) then WaitAbandoned else WaitObject0))) (ws_set_objects s wait_start) ∧
     consumed_exactly [1; 2; 3] 7 wait_start s ∧
     (∀ id o, id ∈ [1; 2; 3] → om_objects (ws_objects wait_start) !! id = Some o → (payload_type o = OtThread ∨ payload_type o = OtProcess) ∨
        ∃ status o', consume_object o 7 (ws_ticks_ms wait_start) = Some (status, o') ∧ status ≠ WaitTimeout)) ∧
  evaluate_wait_all [4; 16; 12] 7 wait_start = Done (Err RcWin32InvalidHandle) wait_start.
Proof.
  split.
  - destruct (wait_set_atomic 3 wait_start [4; 8; 12] [1; 2; 3] 7 wait_start_reached) as (_ & _ & H); [by vm_compute|].
    apply H; [exact wait_start_waitable|]. refine (bool_decide_unpack (NoDup [1; 2; 3]) _). by vm_compute.
  - destruct (wait_set_atomic 3 wait_start [4; 16; 12] [] 7 wait_start_reached) as (_ & H & _); [by vm_compute|].
    apply (H [4] 16 [12]); [done| |by vm_compute]. constructor; [|constructor]. exists 1. split; [by apply waitable_b_sound; vm_compute|].
    intros E. by vm_compute in E.
Defined.
End Ww.
