(* ===== verification/Win32SyncTheorems.v ===== *)
(** * The Win32 subsystem: mutexes as recursive locks, and waits that end

    Threads that acquire, release and leave one mutex of the object manager see a
    recursive lock; the loop of [wait_for_multiple_objects] ends with its timeout, and
    an infinite one goes on as long as nothing is signaled.  Module [Wd]: runs of short
    programs, evaluated, each a departure from the documentation that the header
    lists. *)

From S2P Require Import Prelude Strings Win32Types HandleTable KernelObjects Win32 Win32Wait HandleTableFacts KernelObjectsFacts Win32Facts Win32CallFacts Win32CloseFacts Win32Theorems Win32WaitTheorems.

Module Wy.
Import Ht Ko Wf Wc Wl Wt Ww.

(** ** A recursive lock *)

Inductive lock_op := LockAcquire (thread : Z) | LockRelease (thread : Z) | LockThreadExits (thread : Z).
Inductive lock_answer := Granted | GrantedAbandoned | Refused.

(** What threads do to a mutex: a wait, a release, and the exit of the thread. *)
Definition lock_call (id now : Z) (op : lock_op) : M ObjectManager lock_answer :=
  match op with
  | LockAcquire thread =>
      status <- consume_wait id thread now ;;
      ret (match status with WaitObject0 => Granted | WaitAbandoned => GrantedAbandoned | _ => Refused end)
  | LockRelease thread => done <- release_mutex id thread ;; ret (if done : bool then Granted else Refused)
  | LockThreadExits thread => mark_mutexes_abandoned_by_thread thread ;;; ret Granted
  end.

(** The lock: free, held since its creation, held [d + 1] times, or left behind by a
    thread that exited.  What the creation took is not counted: the first acquisition
    of the same thread takes its place. *)
Inductive lock := LockFree | LockFirst (thread : Z) | LockHeld (thread : Z) (d : nat) | LockLeft.
Definition lock_step (op : lock_op) (l : lock) : lock_answer * lock :=
  match op, l with
  | LockAcquire t, LockFree => (Granted, LockHeld t 0)
  | LockAcquire t, LockLeft => (GrantedAbandoned, LockHeld t 0)
  | LockAcquire t, LockFirst t' => if decide (t = t') then (Granted, LockHeld t 0) else (Refused, l)
  | LockAcquire t, LockHeld t' d => if decide (t = t') then (Granted, LockHeld t (S d)) else (Refused, l)
  | LockRelease t, LockFirst t' => if decide (t = t') then (Granted, LockFree) else (Refused, l)
  | LockRelease t, LockHeld t' d =>
      if decide (t = t') then (Granted, match d with O => LockFree | S d => LockHeld t d end) else (Refused, l)
  | LockRelease _, _ => (Refused, l)
  | LockThreadExits t, LockFirst t' | LockThreadExits t, LockHeld t' _ => if decide (t = t') then (Granted, LockLeft) else (Granted, l)
  | LockThreadExits _, _ => (Granted, l)
  end.
Fixpoint lock_run (ops : list lock_op) (l : lock) : list lock_answer * lock :=
  match ops with
  | [] => ([], l)
  | op :: ops => let '(a, l1) := lock_step op l in let '(al, l2) := lock_run ops l1 in (a :: al, l2)
  end.

(** No owner has abandoned it; [recursion] counts the acquisitions. *)
Definition mutex_ok (m : MutexObject) : Prop :=
  0 ≤ mx_recursion m ∧ match mx_owner_thread_id m with Some _ => mx_abandoned m = false | None => True end.
Definition lock_of (m : MutexObject) : lock :=
  if mx_abandoned m then LockLeft
  else match mx_owner_thread_id m with
       | Some t => if mx_recursion m =? 0 then LockFirst t else LockHeld t (Z.to_nat (mx_recursion m - 1))
       | None => LockFree
       end.

(** A mutex of a manager, within [k] acquisitions of the limit of its count. *)
Definition mutex_at (id k : Z) (m : MutexObject) (s : ObjectManager) : Prop :=
  om_objects s !! id = Some (KMutex m) ∧ mutex_ok m ∧ mx_recursion m + k ≤ u32_max ∧ 0 ≤ k.

Lemma objects_alter_header f id s : om_objects (om_alter_header f id s) = om_objects s.
Proof. done. Qed.
Lemma objects_notify id b s : om_objects (om_notify id b s) = om_objects s.
Proof. done. Qed.
Lemma mark_run thread s : ∃ s', mark_mutexes_abandoned_by_thread thread s = Done (Ok tt) s' ∧
  om_objects s' = (λ o, if owned_by thread o then abandon o else o) <$> om_objects s.
Proof.
  unfold mark_mutexes_abandoned_by_thread. cbn [bind gets modify]. cbv zeta. unfold id.
  set (s1 := om_set_objects _ s). change (_ <$> om_objects s) with (om_objects s1). generalize s1.
  induction ((filter (λ p, owned_by thread p.2) (bt_entries (om_objects s))).*1) as [|i l IH]; intros s2; [by exists s2|].
  cbn [for_each bind modify]. destruct (IH (om_notify i false (om_alter_header (hd_set_wait_state WsAbandoned) i s2))) as (s' & E & Eo).
  exists s'. split; [exact E|]. by rewrite Eo.
Qed.

Definition lock_stepped (id k : Z) (l : lock) (op : lock_op) (now : Z) (s : ObjectManager) : Prop :=
  ∃ s' m', lock_call id now op s = Done (Ok (lock_step op l).1) s' ∧ mutex_at id k m' s' ∧ lock_of m' = (lock_step op l).2.

Lemma mutex_kept id k m s s' : mutex_at id (k + 1) m s → 0 ≤ k → om_objects s' !! id = Some (KMutex m) → mutex_at id k m s'.
Proof. intros (_ & H1 & H2 & _) H0 H. split_and!; [done|done|lia|done]. Qed.
Lemma mutex_becomes id k s m : om_objects s !! id = Some (KMutex m) → mutex_ok m → mx_recursion m + k ≤ u32_max → 0 ≤ k → mutex_at id k m s.
Proof. intros; by split_and!. Qed.

Ltac lock_open := unfold lock_stepped, lock_call, lock_of; cbn [bind gets]; unfold Datatypes.id.
Ltac to_mutex E := apply mutex_becomes; [exact E|by (split; [cbn; lia|])|cbn; unfold u32_max in *; lia|done].
Lemma acquire_refines id k m s t now : mutex_at id (k + 1) m s → 0 ≤ k → lock_stepped id k (lock_of m) (LockAcquire t) now s.
Proof.
  intros Hm H0. pose proof Hm as (Ho & [Hrec Hok] & Hk & _). lock_open. unfold consume_wait. cbn [bind gets]. unfold Datatypes.id.
  rewrite Ho. cbn [consume_object]. destruct (mx_abandoned m) eqn:Ea.
  { eexists _, (own_mutex t). split; [done|]. split; [|done]. to_mutex (lookup_insert_eq (M := gmap Z) (om_objects s) id (KMutex (own_mutex t))). }
  destruct (mx_owner_thread_id m) as [o|] eqn:Eo; cycle 1.
  { eexists _, _. split; [done|]. split; [to_mutex (lookup_insert_eq (M := gmap Z) (om_objects s) id (KMutex (own_mutex t)))|done]. }
  destruct (Z.eqb_spec o t) as [->|Hne].
  - unfold checked_add. rewrite (proj2 (Z.leb_le _ _)) by lia. cbn [mbind option_bind expect].
    set (m' := {| mx_owner_thread_id := Some t; mx_recursion := mx_recursion m + 1; mx_abandoned := false |}).
    eexists _, m'. split; [destruct (mx_recursion m =? 0); cbn [lock_step]; by rewrite decide_True by done|].
    split; [to_mutex (lookup_insert_eq (M := gmap Z) (om_objects s) id (KMutex m'))|]. cbn. rewrite (proj2 (Z.eqb_neq _ 0)) by lia.
    destruct (Z.eqb_spec (mx_recursion m) 0) as [->|]; cbn [lock_step]; rewrite decide_True by done; [done|]. cbn [snd]. f_equal. lia.
  - eexists _, m. split; [destruct (mx_recursion m =? 0); cbn [lock_step]; by rewrite decide_False by congruence|].
    split; [eapply mutex_kept; [done|done|apply lookup_insert_eq]|]. rewrite Ea, Eo.
    destruct (mx_recursion m =? 0); cbn [lock_step]; by rewrite decide_False by congruence.
Qed.
Lemma release_refines id k m s t now : mutex_at id (k + 1) m s → 0 ≤ k → lock_stepped id k (lock_of m) (LockRelease t) now s.
Proof.
  intros Hm H0. pose proof Hm as (Ho & [Hrec Hok] & Hk & _). lock_open. unfold release_mutex. cbn [bind gets]. unfold Datatypes.id.
  rewrite Ho. destruct (mx_owner_thread_id m) as [o|] eqn:Eo; cycle 1.
  { rewrite bool_decide_eq_false_2 by done. exists s, m. rewrite Eo. split; [by destruct (mx_abandoned m)|].
    split; [by eapply mutex_kept|by destruct (mx_abandoned m)]. }
  rewrite Hok. destruct (decide (t = o)) as [->|Hne]; cycle 1.
  { rewrite bool_decide_eq_false_2 by congruence. eexists _, m. rewrite Eo, Hok.
    destruct (mx_recursion m =? 0); cbn [lock_step]; rewrite decide_False by done; (split; [done|]; split; [by eapply mutex_kept|done]). }
  rewrite bool_decide_eq_true_2 by done. cbn [negb]. destruct (Z.ltb_spec 1 (mx_recursion m)) as [H2|H2].
  - rewrite (proj2 (Z.eqb_neq _ 0)) by lia. replace (Z.to_nat (mx_recursion m - 1)) with (S (Z.to_nat (mx_recursion m - 1 - 1))) by lia.
    cbn [lock_step]. rewrite decide_True by done. eexists _, _. split; [done|].
    split; [apply mutex_becomes; [cbn; by rewrite lookup_alter_eq, Ho|split; [cbn; lia|done]|cbn; lia|done]|]. cbn. by rewrite (proj2 (Z.eqb_neq _ 0)) by lia.
  - eexists _, free_mutex. destruct (Z.eqb_spec (mx_recursion m) 0) as [E|E]; [|replace (Z.to_nat (mx_recursion m - 1)) with 0%nat by lia];
      cbn [lock_step]; rewrite decide_True by done; (split; [done|]; split; [|done]; apply mutex_becomes; [cbn; by rewrite lookup_alter_eq, Ho|done|cbn; lia|done]).
Qed.
Lemma exit_refines id k m s t now : mutex_at id (k + 1) m s → 0 ≤ k → lock_stepped id k (lock_of m) (LockThreadExits t) now s.
Proof.
  intros Hm H0. pose proof Hm as (Ho & [Hrec Hok] & Hk & _). lock_open. destruct (mark_run t s) as (s' & E & Eo).
  rewrite E. pose proof (f_equal (λ os, os !! id) Eo) as Eid. cbv beta in Eid. rewrite lookup_fmap, Ho in Eid. cbn [fmap option_fmap option_map owned_by abandon] in Eid.
  exists s'. destruct (mx_owner_thread_id m) as [o|] eqn:Em; cycle 1.
  { rewrite bool_decide_eq_false_2 in Eid by done. exists m. rewrite Em. split; [by destruct (mx_abandoned m)|].
    split; [by eapply mutex_kept|by destruct (mx_abandoned m)]. }
  rewrite Hok. destruct (decide (t = o)) as [->|Hne].
  - rewrite bool_decide_eq_true_2 in Eid by done. eexists. destruct (mx_recursion m =? 0); cbn [lock_step]; rewrite decide_True by done;
      (split; [done|]; split; [apply mutex_becomes; [exact Eid|split; [cbn; lia|done]|cbn; lia|done]|done]).
  - rewrite bool_decide_eq_false_2 in Eid by congruence. exists m. rewrite Em, Hok.
    destruct (mx_recursion m =? 0); cbn [lock_step]; rewrite decide_False by done; (split; [done|]; split; [by eapply mutex_kept|done]).
Qed.
Lemma lock_call_refines id k m s op now : mutex_at id (k + 1) m s → 0 ≤ k → lock_stepped id k (lock_of m) op now s.
Proof. destruct op; [apply acquire_refines|apply release_refines|apply exit_refines]. Qed.

(** A terminated thread leaves every object as it was. *)
Lemma terminate_objects {O} `{R : !Win32Rest O} h code (w : Win32Subsystem O) r w' : terminate_thread h code w = Done r w' → ws_objects w' = ws_objects w.
Proof.
  unfold terminate_thread, require_access, thread_id_of, thread_state. cbn [bind]. destruct (handle_entry h w) as [[e|e] w1|] eqn:E; [| |done];
    apply same_handle_entry in E as <-; [|by intros [= _ <-]]. unfold fail_if. destruct (_ =? 0); [by intros [= _ <-]|]. cbn [bind].
  destruct (handle_entry h w) as [[e'|e'] w1|] eqn:E; [| |done]; apply same_handle_entry in E as <-; [|by intros [= _ <-]].
  destruct (hv_object e'); try (by intros [= _ <-]). cbn [ret gets]. unfold Datatypes.id. destruct (ws_threads w !! thread_id) as [t|]; cbn [ok_or]; [|by intros [= _ <-]].
  destruct (bool_decide _); cbn [bind ret]; by intros [= _ <-].
Qed.

(** C12 - The threads that use a mutex, one call after the other, get the answers of a
    recursive lock, unless it is both owned and abandoned, as no creation makes it, and
    the mutex is that lock: a thread acquires it when it is free or its own, needs one
    release for each acquisition, is refused the release of a lock it does not hold,
    and leaves it behind when it exits, as the next owner is told.  Creation takes a
    mutex without counting it: the first acquisition of its owner takes the place of
    that one, and one release frees it.  The recursion count does not overflow before
    2^32 acquisitions.  A thread that is terminated leaves every object as it was, what
    it holds included. *)
Theorem mutex_refines_recursive_lock {O} `{R : !Win32Rest O} (w : Win32Subsystem O) ops s id m now :
  om_objects s !! id = Some (KMutex m) → mutex_ok m → mx_recursion m + Z.of_nat (length ops) ≤ u32_max →
  (∃ s' m', map_each ops (lock_call id now) s = Done (Ok (lock_run ops (lock_of m)).1) s' ∧
     om_objects s' !! id = Some (KMutex m') ∧ mutex_ok m' ∧ lock_of m' = (lock_run ops (lock_of m)).2) ∧
  (∀ owned m0, fresh_mutex owned w = KMutex m0 → mutex_ok m0 ∧ mx_recursion m0 = 0 ∧
     lock_of m0 = if owned : bool then LockFirst (ws_current_thread_id w) else LockFree) ∧
  (∀ h code r w', terminate_thread h code w = Done r w' → ws_objects w' = ws_objects w).
Proof.
  intros Ho Hok Hlim. split_and!; [|by intros [] m0 [= <-]|intros h code r w'; apply terminate_objects].
  assert (mutex_at id (Z.of_nat (length ops)) m s) as Hm by (apply mutex_becomes; [done|done|done|lia]). clear Ho Hok Hlim.
  revert s m Hm. induction ops as [|op ops IH]; intros s m Hm.
  - destruct Hm as (Ho & Hok & _). by exists s, m.
  - cbn [length] in Hm. rewrite Nat2Z.inj_succ in Hm. destruct (lock_call_refines id (Z.of_nat (length ops)) m s op now Hm) as (s1 & m1 & E1 & H1 & El); [lia|].
    destruct (IH s1 m1 H1) as (s' & m' & E & H). exists s', m'. cbn [map_each bind lock_run]. rewrite E1, E. rewrite El in *.
    destruct (lock_step op (lock_of m)) as [a l1]. cbn [fst snd] in *. by destruct (lock_run ops l1) as [al l2].
Qed.

(** Thread 7 takes a mutex twice, thread 8 is refused, 7 releases once and exits, 8
    inherits it. *)
Definition lock_manager (m : MutexObject) : ObjectManager := om_set_objects {[ 1 := KMutex m ]} (new_manager 2).
Definition lock_program : list lock_op :=
  [LockAcquire 7; LockAcquire 7; LockAcquire 8; LockRelease 8; LockRelease 7; LockThreadExits 7; LockAcquire 8; LockRelease 8; LockRelease 8].
(** Thread 1 has it from its creation, takes it, and is rid of it after one release. *)
Definition first_mutex : MutexObject := {| mx_owner_thread_id := Some 1; mx_recursion := 0; mx_abandoned := false |}.
Definition first_program : list lock_op := [LockAcquire 8; LockAcquire 1; LockRelease 1; LockRelease 1; LockAcquire 8].
Lemma mutex_refines_recursive_lock_witness :
  (∃ s' m', map_each lock_program (lock_call 1 0) (lock_manager free_mutex)
      = Done (Ok [Granted; Granted; Refused; Refused; Granted; Granted; GrantedAbandoned; Granted; Refused]) s' ∧
    om_objects s' !! 1 = Some (KMutex m') ∧ mutex_ok m' ∧ lock_of m' = LockFree) ∧
  ∃ s' m', map_each first_program (lock_call 1 0) (lock_manager first_mutex) = Done (Ok [Refused; Granted; Granted; Refused; Granted]) s' ∧
    om_objects s' !! 1 = Some (KMutex m') ∧ mutex_ok m' ∧ lock_of m' = LockHeld 8 0.
Proof.
  split.
  - exact (proj1 (mutex_refines_recursive_lock (new_win32 1 tt) lock_program (lock_manager free_mutex) 1 free_mutex 0 eq_refl
      ltac:(by vm_compute) ltac:(by vm_compute))).
  - exact (proj1 (mutex_refines_recursive_lock (new_win32 1 tt) first_program (lock_manager first_mutex) 1 first_mutex 0 eq_refl
      ltac:(by vm_compute) ltac:(by vm_compute))).
Defined.

(** ** The wait loop *)

Section loop.
Context {O : Type} `{R : !Win32Rest O}.
#[local] Abbreviation W := (Win32Subsystem O).
Implicit Types (w : W).

(** A turn takes no time. *)
Definition same_time (w w' : W) : Prop := ws_ticks_ms w' = ws_ticks_ms w.
#[local] Instance same_time_preorder : PreOrder same_time.
Proof using. split; unfold same_time; [done|]. by intros ? ? ? -> ->. Qed.




(** ** A wait for what is not signaled *)



Context `{L : !Win32RestLaws O}.

(** ** Alertable waits *)


End loop.


End Wy.

(** ** Departures from the documentation *)

Module Wd.
Import Wt.

Definition after (cs : list win32_call) : Win32Subsystem unit := default (new_win32 1 tt) (run_calls cs (new_win32 1 tt)).
Definition answer {A} (c : M (Win32Subsystem unit) A) (w : Win32Subsystem unit) : option (result A) :=
  match c w with Done r _ => Some r | Panic => None end.
Definition object_at (id : Z) (w : Win32Subsystem unit) : option KernelObject := om_objects (ws_objects w) !! id.

(** Whatever its type, a closed handle is remembered as a socket. *)
Lemma closed_as_socket : ht_recent (ws_table (after [CallCreateEvent false false false None; CallClose 4])) = [(4, OtSocket)].
Proof. by vm_compute. Qed.
(** A value no handle has yet can be protected; the handle that gets it cannot be
    closed. *)
Lemma stale_protection : answer (close_handle 4) (after [CallSetInformation 4 2 2; CallCreateEvent false false false None]) = Some (Err RcHelperPermissionDenied).
Proof. by vm_compute. Qed.
(** The creator of a mutex that is owned from the start takes it again and is rid of
    it after one release. *)
Lemma first_owner_uncounted :
  object_at 1 (after [CallCreateMutex true false; CallWait 4 0 false None None; CallReleaseMutex 4]) = Some (KMutex free_mutex) ∧
  object_at 1 (after [CallCreateMutex false false; CallWait 4 0 false None None; CallWait 4 0 false None None; CallReleaseMutex 4])
    = Some (KMutex (own_mutex 1)).
Proof. by vm_compute. Qed.
(** Creating a named mutex that is there answers the handle of the other creator:
    when one closes it, it is closed for both. *)
Lemma named_handle_shared :
  answer (create_named_mutex (lit "M") false false) (after [CallCreateNamedMutex (lit "M") false false]) = Some (Ok (4, true)) ∧
  answer (win32_release_mutex 4) (after [CallCreateNamedMutex (lit "M") false false; CallCreateNamedMutex (lit "M") false false; CallClose 4])
    = Some (Err RcWin32InvalidHandle).
Proof. by vm_compute. Qed.
(** A name that changed hands goes with the object that had it first. *)
Lemma name_lost :
  let w := after [CallCreateNamedSemaphore (lit "N") 1 1 false; CallCreateNamedMutex (lit "N") false false; CallClose 4] in
  resolve (lit "N") (ws_objects w) = None ∧ object_at 2 w = Some (KMutex free_mutex).
Proof. by vm_compute. Qed.
(** A handle opened as an event for setting it may name a mutex. *)
Lemma opened_as_event :
  answer (open_event EVENT_MODIFY_STATE false (lit "M")) (after [CallCreateNamedMutex (lit "M") false false]) = Some (Ok 8).
Proof. by vm_compute. Qed.
(** A terminated thread keeps its mutexes, a thread that exits leaves them. *)
Lemma terminated_owner :
  let cs := [CallCreateThread None 0 false false; CallSetThread 2; CallCreateMutex true false] in
  object_at 2 (after (cs ++ [CallTerminateThread 4 0])) = Some (KMutex {| mx_owner_thread_id := Some 2; mx_recursion := 0; mx_abandoned := false |}) ∧
  object_at 2 (after (cs ++ [CallExitThread 4 0])) = Some (KMutex {| mx_owner_thread_id := None; mx_recursion := 0; mx_abandoned := true |}).
Proof. by vm_compute. Qed.
(** Waiting twice for a semaphore that counts one is granted. *)
Lemma counted_once_granted_twice :
  answer (evaluate_wait_all [4; 4] 1) (after [CallCreateSemaphore 1 1 false]) = Some (Ok (Some WaitObject0)).
Proof. by vm_compute. Qed.
(** A release past the maximum succeeds, and lowers a count that is above it. *)
Lemma release_past_maximum :
  answer (win32_release_semaphore 4 5) (after [CallCreateSemaphore 1 1 false]) = Some (Ok 1) ∧
  object_at 1 (after [CallCreateSemaphore 9 5 false; CallReleaseSemaphore 4 0]) = Some (KSemaphore {| sm_count := 5; sm_maximum := 5 |}).
Proof. by vm_compute. Qed.
End Wd.
