(* ===== verification/Iocp.v ===== *)
(** * I/O completion ports of the Win32 subsystem ([win32.rs], [CompletionPortWaitState])

    A port is a queue behind a mutex, with a condition variable and a limit on the
    number of threads that process its packets at a time.  Each section of the mutex
    is one operation here, the notifications it makes included, since the source
    notifies with the mutex held.  The threads that wait on the condition variable are
    part of the state; [notify_one] takes the thread the host picks. *)

From S2P Require Import Prelude Win32Types.

Record IoCompletionPacket := {
  ip_bytes_transferred : Z; ip_completion_key : Z; ip_overlapped : Z; ip_internal : Z }.

Record IoCompletionCounters := {
  ic_packets_posted : Z; ic_packets_dequeued : Z; ic_waiter_wakeups : Z; ic_timeout_expirations : Z;
  ic_threads_released : Z; ic_poll_iterations : Z; ic_closes : Z }.
Inductive Counter := PacketsPosted | PacketsDequeued | WaiterWakeups | TimeoutExpirations | ThreadsReleased | PollIterations | Closes.
#[export] Instance Counter_eq_dec : EqDecision Counter.
Proof. solve_decision. Defined.
Definition ic_get (c : Counter) (k : IoCompletionCounters) : Z :=
  match c with
  | PacketsPosted => ic_packets_posted k | PacketsDequeued => ic_packets_dequeued k | WaiterWakeups => ic_waiter_wakeups k
  | TimeoutExpirations => ic_timeout_expirations k | ThreadsReleased => ic_threads_released k
  | PollIterations => ic_poll_iterations k | Closes => ic_closes k
  end.
Definition ic_tabulate (f : Counter → Z) : IoCompletionCounters :=
  {| ic_packets_posted := f PacketsPosted; ic_packets_dequeued := f PacketsDequeued; ic_waiter_wakeups := f WaiterWakeups;
     ic_timeout_expirations := f TimeoutExpirations; ic_threads_released := f ThreadsReleased;
     ic_poll_iterations := f PollIterations; ic_closes := f Closes |}.
Definition ic_add (c : Counter) (n : Z) (k : IoCompletionCounters) : IoCompletionCounters :=
  ic_tabulate (λ c', if bool_decide (c' = c) then ic_get c' k + n else ic_get c' k).

Inductive CompletionPortWaitError := PwTimedOut | PwClosed.
Definition WAIT_TIMEOUT : Z := 0x102.
Definition ERROR_ABANDONED_WAIT_0 : Z := 0x2FE.
Definition last_error (e : CompletionPortWaitError) : Z :=
  match e with PwTimedOut => WAIT_TIMEOUT | PwClosed => ERROR_ABANDONED_WAIT_0 end.

Inductive CompletionPortThreadKey := GuestKey (id : Z) | HostKey (id : Z).
#[export] Instance CompletionPortThreadKey_eq_dec : EqDecision CompletionPortThreadKey.
Proof. solve_decision. Defined.
#[export] Instance CompletionPortThreadKey_countable : Countable CompletionPortThreadKey.
Proof.
  refine (inj_countable' (λ k, match k with GuestKey i => inl i | HostKey i => inr i end)
    (λ k, match k with inl i => GuestKey i | inr i => HostKey i end) _). by intros [].
Defined.

Record CompletionPortInner := {
  ci_queue : list IoCompletionPacket; ci_configured_concurrency : Z; ci_active_threads : gset CompletionPortThreadKey;
  ci_waiters : Z; ci_closed : bool; ci_counters : IoCompletionCounters }.

(** A thread in [wait_dequeue_as] on the condition variable, or woken from it. *)
Record PortThread := { th_key : CompletionPortThreadKey; th_deadline : option Z; th_max_packets : Z; th_awake : bool }.
Definition rouse (t : PortThread) : PortThread :=
  {| th_key := th_key t; th_deadline := th_deadline t; th_max_packets := th_max_packets t; th_awake := true |}.

(** [cw_pump] counts the wakes published to the cooperative pump. *)
Record CompletionPortWaitState := {
  cw_inner : CompletionPortInner; cw_wake : gmap Z PortThread; cw_default_concurrency : Z; cw_pump : Z }.

Definition cw_set_inner (f : CompletionPortInner → CompletionPortInner) (s : CompletionPortWaitState) : CompletionPortWaitState :=
  {| cw_inner := f (cw_inner s); cw_wake := cw_wake s; cw_default_concurrency := cw_default_concurrency s; cw_pump := cw_pump s |}.
Definition cw_set_wake (m : gmap Z PortThread) (s : CompletionPortWaitState) : CompletionPortWaitState :=
  {| cw_inner := cw_inner s; cw_wake := m; cw_default_concurrency := cw_default_concurrency s; cw_pump := cw_pump s |}.
Definition notify_pump_wake (s : CompletionPortWaitState) : CompletionPortWaitState :=
  {| cw_inner := cw_inner s; cw_wake := cw_wake s; cw_default_concurrency := cw_default_concurrency s; cw_pump := cw_pump s + 1 |}.
Definition ci_set (queue : list IoCompletionPacket) (active : gset CompletionPortThreadKey) (i : CompletionPortInner) : CompletionPortInner :=
  {| ci_queue := queue; ci_configured_concurrency := ci_configured_concurrency i; ci_active_threads := active;
     ci_waiters := ci_waiters i; ci_closed := ci_closed i; ci_counters := ci_counters i |}.
Definition ci_set_configured (n : Z) (i : CompletionPortInner) : CompletionPortInner :=
  {| ci_queue := ci_queue i; ci_configured_concurrency := n; ci_active_threads := ci_active_threads i;
     ci_waiters := ci_waiters i; ci_closed := ci_closed i; ci_counters := ci_counters i |}.
Definition ci_set_waiters (n : Z) (i : CompletionPortInner) : CompletionPortInner :=
  {| ci_queue := ci_queue i; ci_configured_concurrency := ci_configured_concurrency i; ci_active_threads := ci_active_threads i;
     ci_waiters := n; ci_closed := ci_closed i; ci_counters := ci_counters i |}.
Definition ci_set_closed (i : CompletionPortInner) : CompletionPortInner :=
  {| ci_queue := ci_queue i; ci_configured_concurrency := ci_configured_concurrency i; ci_active_threads := ci_active_threads i;
     ci_waiters := ci_waiters i; ci_closed := true; ci_counters := ci_counters i |}.
Definition ci_set_counters (k : IoCompletionCounters) (i : CompletionPortInner) : CompletionPortInner :=
  {| ci_queue := ci_queue i; ci_configured_concurrency := ci_configured_concurrency i; ci_active_threads := ci_active_threads i;
     ci_waiters := ci_waiters i; ci_closed := ci_closed i; ci_counters := k |}.

#[local] Abbreviation W := CompletionPortWaitState.

(** [default_concurrency] is what the host answers for its parallelism, at least 1. *)
Definition new_wait_state (default_concurrency concurrent_threads : Z) : W :=
  {| cw_inner := {| ci_queue := []; ci_configured_concurrency := concurrent_threads; ci_active_threads := ∅; ci_waiters := 0;
                    ci_closed := false; ci_counters := ic_tabulate (λ _, 0) |};
     cw_wake := ∅; cw_default_concurrency := Z.max 1 default_concurrency; cw_pump := 0 |}.

Definition inner : M W CompletionPortInner := gets cw_inner.
Definition count (c : Counter) (n : Z) : M W unit :=
  i <- inner ;; add_at u64_max (ic_get c (ci_counters i)) n ;;;
  modify (cw_set_inner (λ i, ci_set_counters (ic_add c n (ci_counters i)) i)).

Definition effective_limit (s : W) : Z :=
  if ci_configured_concurrency (cw_inner s) =? 0 then cw_default_concurrency s else ci_configured_concurrency (cw_inner s).
Definition active_count (i : CompletionPortInner) : Z := Z.of_nat (size (ci_active_threads i)).

Definition notify_one (choice : option Z) : M W unit :=
  modify (λ s, match choice with Some thread => cw_set_wake (alter rouse thread (cw_wake s)) s | None => s end).
Definition notify_all : M W unit := modify (λ s, cw_set_wake (rouse <$> cw_wake s) s).

Definition wake_eligible_waiter (choice : option Z) : M W unit :=
  s <- gets id ;;
  let i := cw_inner s in
  if (ci_waiters i =? 0) || bool_decide (ci_queue i = []) || ci_closed i then ret tt
  else if active_count i <? effective_limit s then count WaiterWakeups 1 ;;; notify_one choice
  else ret tt.

Definition take_locked (thread : CompletionPortThreadKey) (max_packets : Z) : M W (list IoCompletionPacket) :=
  s <- gets id ;;
  let i := cw_inner s in
  if negb (bool_decide (thread ∈ ci_active_threads i)) && (effective_limit s <=? active_count i) then ret []
  else
    let n := Z.to_nat (Z.max max_packets 1) in
    let packets := take n (ci_queue i) in
    match packets with
    | [] => ret []
    | _ =>
        modify (cw_set_inner (ci_set (drop n (ci_queue i)) ({[thread]} ∪ ci_active_threads i))) ;;;
        count PacketsDequeued (Z.of_nat (length packets)) ;;;
        ret packets
    end.

(** A thread that holds a slot gives it up. *)
Definition drop_slot (thread : CompletionPortThreadKey) (choice : option Z) : M W bool :=
  i <- inner ;;
  if bool_decide (thread ∈ ci_active_threads i) then
    modify (cw_set_inner (λ i, ci_set (ci_queue i) (ci_active_threads i ∖ {[thread]}) i)) ;;;
    count ThreadsReleased 1 ;;; wake_eligible_waiter choice ;;; ret true
  else ret false.

Definition try_dequeue_as (thread : CompletionPortThreadKey) (max_packets : Z) (choice : option Z) : M W (list IoCompletionPacket) :=
  count PollIterations 1 ;;;
  i <- inner ;;
  fail_if (ci_closed i) (last_error PwClosed) ;;;
  packets <- take_locked thread max_packets ;;
  match packets with
  | [] => drop_slot thread choice ;;; throw (last_error PwTimedOut)
  | _ => ret packets
  end.

(** One turn of the loop of [wait_dequeue_as]: packets, or [[]] to wait. *)
Definition expire {A} : M W A := count TimeoutExpirations 1 ;;; throw (last_error PwTimedOut).
Definition dequeue_turn (thread : CompletionPortThreadKey) (deadline : option Z) (zero : bool) (now max_packets : Z) (choice : option Z)
    : M W (list IoCompletionPacket) :=
  count PollIterations 1 ;;;
  i <- inner ;;
  if ci_closed i then
    modify (cw_set_inner (λ i, ci_set (ci_queue i) (ci_active_threads i ∖ {[thread]}) i)) ;;; throw (last_error PwClosed)
  else
    packets <- take_locked thread max_packets ;;
    match packets with
    | [] =>
        drop_slot thread choice ;;;
        if zero then expire
        else if match deadline with Some d => d <=? now | None => false end then expire
        else i <- inner ;; waiters <- add_at u64_max (ci_waiters i) 1 ;; modify (cw_set_inner (ci_set_waiters waiters)) ;;; ret []
    | _ => ret packets
    end.

(** The thread answers, or is left on the condition variable. *)
Definition dequeue_attempt (id : Z) (t : PortThread) (zero : bool) (now : Z) (choice : option Z) : M W (list IoCompletionPacket) := λ s,
  match dequeue_turn (th_key t) (th_deadline t) zero now (th_max_packets t) choice s with
  | Done (Ok []) s' => Done (Ok []) (cw_set_wake (<[id := {| th_key := th_key t; th_deadline := th_deadline t;
      th_max_packets := th_max_packets t; th_awake := false |}]> (cw_wake s')) s')
  | Done r s' => Done r (cw_set_wake (delete id (cw_wake s')) s')
  | Panic => Panic
  end.

(** [wait_dequeue_as], entered at the time [entered]; a deadline past [instant_max]
    panics. *)
Definition wait_dequeue_as (instant_max id : Z) (thread : CompletionPortThreadKey) (timeout : option Z) (entered now max_packets : Z)
    (choice : option Z) : M W (list IoCompletionPacket) :=
  deadline <- (match timeout with Some t => d <- add_at instant_max entered t ;; ret (Some d) | None => ret None end) ;;
  dequeue_attempt id {| th_key := thread; th_deadline := deadline; th_max_packets := max_packets; th_awake := true |}
    (bool_decide (timeout = Some 0)) now choice.

(** [id] returns from the condition variable, with the verdict of [wait_timeout]. *)
Definition dequeue_resume (id : Z) (timed_out : bool) (now : Z) (choice : option Z) : M W (list IoCompletionPacket) :=
  s <- gets Datatypes.id ;;
  t <- expect (cw_wake s !! id) ;;
  (if 0 <? ci_waiters (cw_inner s) then modify (cw_set_inner (ci_set_waiters (ci_waiters (cw_inner s) - 1))) else panic) ;;;
  modify (cw_set_wake (delete id (cw_wake s))) ;;;
  if timed_out && bool_decide (ci_queue (cw_inner s) = []) then expire
  else dequeue_attempt id t false now choice.

Definition post (packet : IoCompletionPacket) (choice : option Z) : M W unit :=
  i <- inner ;;
  fail_if (ci_closed i) (last_error PwClosed) ;;;
  modify (cw_set_inner (λ i, ci_set (ci_queue i ++ [packet]) (ci_active_threads i) i)) ;;;
  count PacketsPosted 1 ;;;
  wake_eligible_waiter choice ;;;
  modify notify_pump_wake.

Definition packet_available (s : W) : bool :=
  negb (ci_closed (cw_inner s)) && negb (bool_decide (ci_queue (cw_inner s) = [])) && (active_count (cw_inner s) <? effective_limit s).
Definition set_concurrency (concurrent_threads : Z) : M W unit :=
  i <- inner ;;
  modify (cw_set_inner (ci_set_configured concurrent_threads)) ;;;
  if ci_configured_concurrency i =? concurrent_threads then ret tt
  else
    s <- gets id ;;
    (if packet_available s && (0 <? ci_waiters (cw_inner s)) then count WaiterWakeups 1 ;;; notify_all else ret tt) ;;;
    (if packet_available s then modify notify_pump_wake else ret tt).

Definition release_active_as (thread : CompletionPortThreadKey) (choice : option Z) : M W unit :=
  released <- drop_slot thread choice ;;
  s <- gets id ;;
  if released && packet_available s then modify notify_pump_wake else ret tt.
Definition release_guest_thread (guest_thread_id : Z) (choice : option Z) : M W unit := release_active_as (GuestKey guest_thread_id) choice.

Definition close : M W unit :=
  i <- inner ;;
  if ci_closed i then ret tt
  else
    modify (cw_set_inner (λ i, ci_set [] ∅ (ci_set_closed i))) ;;;
    count Closes 1 ;;;
    (if 0 <? ci_waiters i then count WaiterWakeups (ci_waiters i) else ret tt) ;;;
    notify_all ;;;
    modify notify_pump_wake.

Definition readable_for (thread : CompletionPortThreadKey) (s : W) : bool :=
  let i := cw_inner s in
  if ci_closed i || bool_decide (ci_queue i = []) then false
  else bool_decide (thread ∈ ci_active_threads i) || (active_count i <? effective_limit s).
Definition is_closed (s : W) : bool := ci_closed (cw_inner s).
Definition queued_packet_count (s : W) : Z := Z.of_nat (length (ci_queue (cw_inner s))).
Definition waiter_count (s : W) : Z := ci_waiters (cw_inner s).
Definition active_thread_count (s : W) : Z := active_count (cw_inner s).
Definition concurrency_limit (s : W) : Z := effective_limit s.
Definition counters (s : W) : IoCompletionCounters := ci_counters (cw_inner s).
