(* ===== verification/IocpFacts.v ===== *)
(** * Completion ports of the Win32 subsystem: the invariant over every interleaving

    Threads post, poll, wait, wake, give up slots, change the limit and close, in any
    order; each section of the port's mutex is one event. *)

From S2P Require Import Prelude Win32Types Iocp.

Module Cp.
#[local] Abbreviation W := CompletionPortWaitState.
Implicit Types (s : W).

(** ** Events *)

Inductive port_event :=
| EvPost (packet : IoCompletionPacket) (choice : option Z)
| EvTry (key : CompletionPortThreadKey) (max_packets : Z) (choice : option Z)
| EvWait (id : Z) (key : CompletionPortThreadKey) (timeout : option Z) (entered now max_packets : Z) (choice : option Z)
| EvResume (id : Z) (timed_out : bool) (now : Z) (choice : option Z)
| EvSetConcurrency (n : Z)
| EvRelease (key : CompletionPortThreadKey) (choice : option Z)
| EvClose.

Section port.
Context (instant_max : Z).

Definition exec (e : port_event) : M W (list IoCompletionPacket) :=
  match e with
  | EvPost packet choice => post packet choice ;;; ret []
  | EvTry key max_packets choice => try_dequeue_as key max_packets choice
  | EvWait id key timeout entered now max_packets choice => wait_dequeue_as instant_max id key timeout entered now max_packets choice
  | EvResume id timed_out now choice => dequeue_resume id timed_out now choice
  | EvSetConcurrency n => set_concurrency n ;;; ret []
  | EvRelease key choice => release_active_as key choice ;;; ret []
  | EvClose => close ;;; ret []
  end.

Definition asleep s (id : Z) : Prop := ∃ t, cw_wake s !! id = Some t ∧ th_awake t = false.
(** The host picks a thread that sleeps, if there is one. *)
Definition picks s (choice : option Z) : Prop :=
  match choice with Some id => asleep s id | None => ∀ id, ¬ asleep s id end.
(** A thread does one thing at a time: it does not poll the port while it waits. *)
Definition not_waiting s (key : CompletionPortThreadKey) : Prop := ∀ id t, cw_wake s !! id = Some t → th_key t ≠ key.

(** What the host may do next. *)
Definition enabled s (e : port_event) : Prop :=
  match e with
  | EvPost _ choice => picks s choice
  | EvTry key _ choice => not_waiting s key ∧ picks s choice
  | EvWait id key timeout entered _ _ choice =>
      cw_wake s !! id = None ∧ not_waiting s key ∧ picks s choice ∧
      match timeout with Some t => entered + t ≤ instant_max | None => True end
  | EvResume id timed_out _ choice =>
      is_Some (cw_wake s !! id) ∧ picks (cw_set_wake (delete id (cw_wake s)) s) choice
  | EvSetConcurrency n => 0 ≤ n
  | EvRelease _ choice => picks s choice
  | EvClose => True
  end.

(** What was posted, handed out and dropped by the closing, and the largest limit. *)
Record History := { h_posted : list IoCompletionPacket; h_delivered : list IoCompletionPacket; h_dropped : list IoCompletionPacket; h_limit : Z }.
Definition note (e : port_event) s (r : result (list IoCompletionPacket)) s' (h : History) : History :=
  {| h_posted := h_posted h ++ match e, r with EvPost packet _, Ok _ => [packet] | _, _ => [] end;
     h_delivered := h_delivered h ++ match r with Ok packets => packets | Err _ => [] end;
     h_dropped := h_dropped h ++ match e with EvClose => ci_queue (cw_inner s) | _ => [] end;
     h_limit := Z.max (h_limit h) (effective_limit s') |}.

(** The states that [k] events reach from a new port, with the history. *)
Inductive run (default concurrent : Z) : Z → History → W → Prop :=
| run_new : 0 ≤ concurrent → run default concurrent 0
    {| h_posted := []; h_delivered := []; h_dropped := []; h_limit := effective_limit (new_wait_state default concurrent) |}
    (new_wait_state default concurrent)
| run_event k h s e r s' : run default concurrent k h s → enabled s e → exec e s = Done r s' → run default concurrent (k + 1) (note e s r s' h) s'.

(** ** The invariant *)

Definition awake_one (_ : Z) (t : PortThread) : Z := if th_awake t then 1 else 0.
Definition awake (m : gmap Z PortThread) : Z := map_sum awake_one m.
Definition no_sleeper (m : gmap Z PortThread) : Prop := ∀ id t, m !! id = Some t → th_awake t = true.
(** The packets that a free slot allows to hand out. *)
Definition eligible s : Z := Z.min (Z.of_nat (length (ci_queue (cw_inner s)))) (effective_limit s - active_count (cw_inner s)).

(** [extra] threads were woken and are about to run, but are no longer on the condition
    variable. *)
Record port_near (extra k : Z) (h : History) s : Prop := {
  pk_order : h_posted h = h_delivered h ++ h_dropped h ++ ci_queue (cw_inner s);
  pk_open : ci_closed (cw_inner s) = false → h_dropped h = [];
  pk_closed : ci_closed (cw_inner s) = true → ci_queue (cw_inner s) = [] ∧ ci_active_threads (cw_inner s) = ∅ ∧ no_sleeper (cw_wake s);
  pk_posted : ic_packets_posted (ci_counters (cw_inner s)) = Z.of_nat (length (h_posted h)) ∧ Z.of_nat (length (h_posted h)) ≤ k;
  pk_dequeued : ic_packets_dequeued (ci_counters (cw_inner s)) = Z.of_nat (length (h_delivered h));
  pk_counters : ∀ c, c ≠ PacketsDequeued → ic_get c (ci_counters (cw_inner s)) ≤ (if ci_closed (cw_inner s) then 2 * k else k);
  pk_waiters : ci_waiters (cw_inner s) = Z.of_nat (size (cw_wake s)) ∧ Z.of_nat (size (cw_wake s)) ≤ k;
  pk_slots : active_count (cw_inner s) ≤ h_limit h ∧ effective_limit s ≤ h_limit h;
  pk_keys : ∀ id t, cw_wake s !! id = Some t → th_key t ∉ ci_active_threads (cw_inner s);
  pk_distinct : ∀ id id' t t', cw_wake s !! id = Some t → cw_wake s !! id' = Some t' → th_key t = th_key t' → id = id';
  pk_wake : ci_closed (cw_inner s) = false → no_sleeper (cw_wake s) ∨ eligible s ≤ awake (cw_wake s) + extra }.
Definition port_ok := port_near 0.

(** ** The counters *)

Lemma ic_get_add c c' n k : ic_get c' (ic_add c n k) = if decide (c' = c) then ic_get c' k + n else ic_get c' k.
Proof. destruct c, c'; reflexivity. Qed.
Definition counted (c : Counter) (n : Z) s : W := cw_set_inner (λ i, ci_set_counters (ic_add c n (ci_counters i)) i) s.
Lemma get_counted c c' n s : ic_get c' (ci_counters (cw_inner (counted c n s))) =
  if decide (c' = c) then ic_get c' (ci_counters (cw_inner s)) + n else ic_get c' (ci_counters (cw_inner s)).
Proof. apply ic_get_add. Qed.
Lemma count_run c n s : ic_get c (ci_counters (cw_inner s)) + n ≤ u64_max → count c n s = Done (Ok tt) (counted c n s).
Proof. intros Hn. unfold count, inner, add_at. cbn [bind gets]. rewrite (proj2 (Z.leb_le _ _)) by done. done. Qed.

(** ** The threads on the condition variable *)

Lemma awake_one_range k t : 0 ≤ awake_one k t ≤ 1.
Proof. unfold awake_one. destruct (th_awake t); lia. Qed.
Lemma port_awake_nonneg m : 0 ≤ awake m.
Proof. apply map_sum_nonneg. intros k t _. apply awake_one_range. Qed.
Lemma port_awake_delete m id : awake m ≤ awake (delete id m) + 1.
Proof.
  unfold awake. destruct (m !! id) as [t|] eqn:E; [|rewrite delete_id by done; lia].
  rewrite (map_sum_delete _ m id t E). pose proof (awake_one_range id t). lia.
Qed.
Lemma port_awake_sleep m id t : th_awake t = false → awake (<[id := t]> m) = awake (delete id m).
Proof.
  intros Ht. unfold awake. rewrite <-insert_delete_eq, map_sum_insert by apply lookup_delete_eq. unfold awake_one at 1. by rewrite Ht.
Qed.
Lemma no_sleeper_delete m id : no_sleeper m → no_sleeper (delete id m).
Proof. intros H i t [_ Hi]%lookup_delete_Some. by eapply H. Qed.
Lemma no_sleeper_rouse m : no_sleeper (rouse <$> m).
Proof. intros id t. rewrite lookup_fmap. destruct (m !! id); [|done]. by intros [= <-]. Qed.
Lemma no_sleeper_iff s : no_sleeper (cw_wake s) ↔ ∀ id, ¬ asleep s id.
Proof.
  split; [intros H id (t & Ht & Hf); apply H in Ht; congruence|]. intros H id t Ht. destruct (th_awake t) eqn:E; [done|].
  exfalso. apply (H id). by exists t.
Qed.
Lemma empty_no_sleeper m : size m = 0%nat → no_sleeper m.
Proof. intros Hm id t Ht. apply map_size_empty_inv in Hm. by rewrite Hm in Ht. Qed.

Definition roused (choice : option Z) s : W :=
  match choice with Some id => cw_set_wake (alter rouse id (cw_wake s)) s | None => s end.
Lemma roused_wakes choice s : picks s choice → no_sleeper (cw_wake (roused choice s)) ∨ awake (cw_wake (roused choice s)) = awake (cw_wake s) + 1.
Proof.
  destruct choice as [id|]; cbn [picks roused]; [|intros H; left; by apply no_sleeper_iff]. intros (t & Ht & Hf). right. cbn [cw_wake cw_set_wake].
  unfold awake. rewrite (alter_is_insert _ _ _ t Ht), (map_sum_update _ _ _ t _ Ht). unfold awake_one at 2 3. rewrite Hf. cbn. lia.
Qed.
Lemma roused_lookup choice s id t : cw_wake (roused choice s) !! id = Some t → ∃ t0, cw_wake s !! id = Some t0 ∧ th_key t = th_key t0.
Proof.
  destruct choice as [i|]; cbn [roused cw_wake cw_set_wake]; [|by exists t]. rewrite lookup_alter. destruct (decide (i = id)) as [->|]; [|by exists t].
  destruct (cw_wake s !! id) as [t0|]; [|done]. intros [= <-]. by exists t0.
Qed.
Lemma roused_inner choice s : cw_inner (roused choice s) = cw_inner s ∧ cw_default_concurrency (roused choice s) = cw_default_concurrency s.
Proof. by destruct choice. Qed.
Lemma roused_size choice s : size (cw_wake (roused choice s)) = size (cw_wake s).
Proof.
  destruct choice as [i|]; [|done]. cbn [roused cw_wake cw_set_wake]. destruct (cw_wake s !! i) as [t|] eqn:E.
  - rewrite (alter_is_insert _ _ _ t E). apply map_size_insert_Some. by exists t.
  - by rewrite alter_id by (intros ?; congruence).
Qed.

(** ** The sections of the mutex *)

(** The counters may each have moved by one, those of packets aside. *)
Definition counters_near (b : Z) (i i' : CompletionPortInner) : Prop :=
  ∀ c, c ≠ PacketsDequeued → ic_get c (ci_counters i') ≤ ic_get c (ci_counters i) + b.
Definition same_frame s s' : Prop :=
  cw_wake s' = cw_wake s ∧ cw_default_concurrency s' = cw_default_concurrency s ∧
  ci_configured_concurrency (cw_inner s') = ci_configured_concurrency (cw_inner s) ∧ ci_closed (cw_inner s') = ci_closed (cw_inner s) ∧
  ic_packets_posted (ci_counters (cw_inner s')) = ic_packets_posted (ci_counters (cw_inner s)).
Lemma same_frame_limit s s' : same_frame s s' → effective_limit s' = effective_limit s.
Proof. intros (_ & E1 & E2 & _). unfold effective_limit. by rewrite E1, E2. Qed.

Definition woken (choice : option Z) s : W :=
  if (ci_waiters (cw_inner s) =? 0) || bool_decide (ci_queue (cw_inner s) = []) || ci_closed (cw_inner s) then s
  else if active_count (cw_inner s) <? effective_limit s then roused choice (counted WaiterWakeups 1 s) else s.
Lemma wake_eligible_run choice s : ic_get WaiterWakeups (ci_counters (cw_inner s)) + 1 ≤ u64_max →
  wake_eligible_waiter choice s = Done (Ok tt) (woken choice s).
Proof.
  intros Hb. unfold wake_eligible_waiter, woken. cbn [bind gets]. unfold id. destruct (_ || _); [done|]. destruct (_ <? _); [|done].
  cbn [bind]. rewrite count_run by done. by destruct choice.
Qed.

Definition taken (key : CompletionPortThreadKey) (packets rest : list IoCompletionPacket) s : W :=
  counted PacketsDequeued (Z.of_nat (length packets)) (cw_set_inner (ci_set rest ({[key]} ∪ ci_active_threads (cw_inner s))) s).
Lemma take_run key max s : ic_packets_dequeued (ci_counters (cw_inner s)) + Z.of_nat (length (ci_queue (cw_inner s))) ≤ u64_max →
  (take_locked key max s = Done (Ok []) s ∧ eligible s ≤ 0 ∧ (key ∈ ci_active_threads (cw_inner s) → ci_queue (cw_inner s) = [])) ∨
  ∃ p packets rest, take_locked key max s = Done (Ok (p :: packets)) (taken key (p :: packets) rest s) ∧ ci_queue (cw_inner s) = (p :: packets) ++ rest ∧
    (key ∈ ci_active_threads (cw_inner s) ∨ active_count (cw_inner s) < effective_limit s).
Proof.
  intros Hb. unfold take_locked. cbn [bind gets]. unfold id. unfold eligible. destruct (ci_queue (cw_inner s)) as [|p q] eqn:Eq.
  - left. split; [by destruct (_ && _); rewrite ?take_nil|]. split; [cbn [length]; lia|done].
  - destruct (negb (bool_decide (key ∈ ci_active_threads (cw_inner s))) && (effective_limit s <=? active_count (cw_inner s))) eqn:E.
    + apply andb_true_iff in E as [E1%negb_true_iff%bool_decide_eq_false E2%Z.leb_le]. left. split; [done|]. split; [lia|done].
    + right. set (n := Z.to_nat (Z.max max 1)). assert (∃ m, n = S m) as [m Hm] by (exists (Nat.pred n); lia). rewrite Hm. cbn [take drop].
      exists p, (take m q), (drop m q). split; [|split; [cbn; by rewrite take_drop|]].
      * cbn [bind modify]. rewrite count_run; [done|]. cbn [cw_inner cw_set_inner ci_counters ci_set ic_get]. cbn [length] in *. rewrite length_take. lia.
      * apply andb_false_iff in E as [E%negb_false_iff%bool_decide_eq_true|E%Z.leb_gt]; [by left|right; lia].
Qed.

(** A thread finds nothing: its slot, if it has one, goes back, and nobody is to be
    woken. *)
Definition slot_dropped (key : CompletionPortThreadKey) s : W :=
  if decide (key ∈ ci_active_threads (cw_inner s))
  then counted ThreadsReleased 1 (cw_set_inner (λ i, ci_set (ci_queue i) (ci_active_threads i ∖ {[key]}) i) s) else s.
Lemma drop_slot_run key choice s : ic_get ThreadsReleased (ci_counters (cw_inner s)) + 1 ≤ u64_max →
  ic_get WaiterWakeups (ci_counters (cw_inner s)) + 1 ≤ u64_max →
  drop_slot key choice s = Done (Ok (bool_decide (key ∈ ci_active_threads (cw_inner s))))
    (if decide (key ∈ ci_active_threads (cw_inner s)) then woken choice (slot_dropped key s) else s).
Proof.
  intros H1 H2. unfold drop_slot, inner, slot_dropped. cbn [bind gets]. destruct (decide (key ∈ ci_active_threads (cw_inner s))) as [Hin|Hin].
  - rewrite bool_decide_eq_true_2 by done. cbn [bind modify]. rewrite count_run by done. cbn [bind]. rewrite wake_eligible_run.
    + cbn [bind ret]. done.
    + cbn [cw_inner cw_set_inner counted ci_counters ci_set_counters ci_set]. rewrite ic_get_add. done.
  - by rewrite bool_decide_eq_false_2.
Qed.
Lemma drop_slot_idle key choice s : ic_get ThreadsReleased (ci_counters (cw_inner s)) + 1 ≤ u64_max → ic_get WaiterWakeups (ci_counters (cw_inner s)) + 1 ≤ u64_max →
  (key ∈ ci_active_threads (cw_inner s) → ci_queue (cw_inner s) = []) →
  drop_slot key choice s = Done (Ok (bool_decide (key ∈ ci_active_threads (cw_inner s)))) (slot_dropped key s).
Proof.
  intros H1 H2 Hq. rewrite drop_slot_run by done. unfold slot_dropped. destruct (decide (key ∈ ci_active_threads (cw_inner s))) as [Hin|Hin]; [|done].
  unfold woken. cbn [cw_inner cw_set_inner counted ci_set ci_set_counters ci_queue]. rewrite (Hq Hin). rewrite bool_decide_eq_true_2 by done. by rewrite orb_true_r.
Qed.

(** There is room in the counters for one more event. *)
Definition countable s : Prop :=
  (∀ c, c ≠ PacketsDequeued → ic_get c (ci_counters (cw_inner s)) + 2 ≤ u64_max) ∧
  ic_packets_dequeued (ci_counters (cw_inner s)) + Z.of_nat (length (ci_queue (cw_inner s))) ≤ u64_max ∧ ci_waiters (cw_inner s) + 1 ≤ u64_max.

Definition idle (key : CompletionPortThreadKey) s s' : Prop :=
  ci_queue (cw_inner s') = ci_queue (cw_inner s) ∧ ci_active_threads (cw_inner s') = ci_active_threads (cw_inner s) ∖ {[key]} ∧
  ic_packets_dequeued (ci_counters (cw_inner s')) = ic_packets_dequeued (ci_counters (cw_inner s)) ∧
  (ci_closed (cw_inner s) = false → eligible s' ≤ 0).
(** What a turn of a thread does. *)
Definition turned (key : CompletionPortThreadKey) s (r : result (list IoCompletionPacket)) s' : Prop :=
  same_frame s s' ∧ counters_near 1 (cw_inner s) (cw_inner s') ∧
  match r with
  | Ok (p :: packets) =>
      ci_closed (cw_inner s) = false ∧ ci_queue (cw_inner s) = (p :: packets) ++ ci_queue (cw_inner s') ∧
      ci_active_threads (cw_inner s') = {[key]} ∪ ci_active_threads (cw_inner s) ∧ ci_waiters (cw_inner s') = ci_waiters (cw_inner s) ∧
      ic_packets_dequeued (ci_counters (cw_inner s')) = ic_packets_dequeued (ci_counters (cw_inner s)) + Z.of_nat (length (p :: packets)) ∧
      (key ∈ ci_active_threads (cw_inner s) ∨ active_count (cw_inner s) < effective_limit s)
  | Ok [] => ci_closed (cw_inner s) = false ∧ idle key s s' ∧ ci_waiters (cw_inner s') = ci_waiters (cw_inner s) + 1
  | Err _ => idle key s s' ∧ ci_waiters (cw_inner s') = ci_waiters (cw_inner s)
  end.

Ltac near := repeat match goal with x := _ : CompletionPortWaitState |- _ => subst x end; intros c ?; cbn [cw_inner cw_set_inner counted ci_set ci_set_counters ci_set_waiters ci_counters taken];
  rewrite ?ic_get_add; repeat case_decide; subst; try done; try lia.

Lemma slot_dropped_idle key s : let s0 := counted PollIterations 1 s in
  eligible s ≤ 0 → (key ∈ ci_active_threads (cw_inner s) → ci_queue (cw_inner s) = []) →
  idle key s (slot_dropped key s0) ∧ same_frame s (slot_dropped key s0) ∧ ci_waiters (cw_inner (slot_dropped key s0)) = ci_waiters (cw_inner s) ∧
  counters_near 1 (cw_inner s) (cw_inner (slot_dropped key s0)) ∧ ic_get TimeoutExpirations (ci_counters (cw_inner (slot_dropped key s0))) = ic_get TimeoutExpirations (ci_counters (cw_inner s)).
Proof.
  intros s0 He Hq. unfold slot_dropped. destruct (decide (key ∈ ci_active_threads (cw_inner s0))) as [Hin|Hin].
  - specialize (Hq Hin). split_and!; [|by split_and!|done|near|done]. split_and!; [done|done|done|]. intros _. unfold eligible.
    cbn [cw_inner cw_set_inner counted ci_set ci_set_counters ci_queue s0]. rewrite Hq. cbn [length]. lia.
  - split_and!; [|by split_and!|done|near|done]. split_and!; [done| |done|intros _; exact He]. cbn in Hin |- *. set_solver.
Qed.

Lemma turn_ok key deadline zero now max choice s : countable s → wp (dequeue_turn key deadline zero now max choice) s (turned key s).
Proof.
  intros (Hc & Hd & Hw). pose proof (Hc PollIterations ltac:(done)) as HP. pose proof (Hc TimeoutExpirations ltac:(done)) as HT.
  pose proof (Hc ThreadsReleased ltac:(done)) as HR. pose proof (Hc WaiterWakeups ltac:(done)) as HW.
  unfold wp, dequeue_turn, inner. cbn [bind]. rewrite count_run by lia.
  cbn [bind gets]. set (s0 := counted PollIterations 1 s). change (ci_closed (cw_inner s0)) with (ci_closed (cw_inner s)).
  destruct (ci_closed (cw_inner s)) eqn:Ecl.
  - cbn [bind modify throw]. split; [by split_and!|]. split; [near|]. split; [|done]. split_and!; [done|done|done|intros ?; congruence].
  - cbn [bind]. destruct (take_run key max s0) as [(E & He & Hq)|(p & packets & rest & E & Eq & Hs)]; [exact Hd| |]; rewrite E; cbn [bind].
    + rewrite (drop_slot_idle key choice s0); [|unfold s0; rewrite get_counted, decide_False by done; lia|unfold s0; rewrite get_counted, decide_False by done; lia|exact Hq].
      destruct (slot_dropped_idle key s He Hq) as (Hi & Hf & Ew & Hn & Et). fold s0 in Hi, Hf, Ew, Hn, Et. set (s1 := slot_dropped key s0) in *.
      assert (wp expire s1 (turned key s)) as Hex.
      { unfold wp, expire. cbn [bind]. rewrite count_run by (rewrite Et; lia). cbn [throw].
        destruct Hf as (F1 & F2 & F3 & F4 & F5). split; [by split_and!|]. split; [|split; [|done]].
        - intros c Hcd. cbn [counted cw_inner cw_set_inner ci_counters ci_set_counters]. rewrite ic_get_add. case_decide; [subst; rewrite Et; lia|by apply Hn].
        - destruct Hi as (I1 & I2 & I3 & I4). by split_and!. }
      destruct zero; [exact Hex|]. destruct (match deadline with Some d => d <=? now | None => false end); [exact Hex|].
      cbn [bind gets]. unfold add_at. rewrite Ew, (proj2 (Z.leb_le _ _)) by done. cbn [bind modify ret].
      destruct Hf as (F1 & F2 & F3 & F4 & F5). destruct Hi as (I1 & I2 & I3 & I4). split; [by split_and!|]. split; [intros c Hcd; by apply Hn|].
      split_and!; [done| |done]. by split_and!.
    + cbn [ret]. split; [by split_and!|]. split; [near|]. split_and!; [done|exact Eq|done|done| |exact Hs].
      cbn [taken counted cw_inner cw_set_inner ci_counters ci_set_counters ci_set]. 
      change (ic_get PacketsDequeued (ic_add PacketsDequeued (Z.of_nat (length (p :: packets))) (ci_counters (cw_inner s0))) = 
        ic_get PacketsDequeued (ci_counters (cw_inner s)) + Z.of_nat (length (p :: packets))). by rewrite ic_get_add.
Qed.
(** ** What a turn leaves *)

Definition deliver (r : result (list IoCompletionPacket)) (h : History) : History :=
  {| h_posted := h_posted h; h_delivered := h_delivered h ++ match r with Ok packets => packets | Err _ => [] end;
     h_dropped := h_dropped h; h_limit := h_limit h |}.
Lemma port_countable extra k h s : port_near extra k h s → 0 ≤ k → 2 * k + 2 ≤ u64_max → countable s.
Proof.
  intros H H0 Hk. split_and!.
  - intros c Hc. pose proof (pk_counters _ _ _ _ H c Hc). destruct (ci_closed (cw_inner s)); lia.
  - rewrite (pk_dequeued _ _ _ _ H). pose proof (pk_order _ _ _ _ H) as E. apply (f_equal length) in E. rewrite !length_app in E.
    pose proof (proj2 (pk_posted _ _ _ _ H)). lia.
  - destruct (pk_waiters _ _ _ _ H). lia.
Qed.

Lemma idle_active key s s' : idle key s s' → active_count (cw_inner s') ≤ active_count (cw_inner s) ∧ ci_active_threads (cw_inner s') ⊆ ci_active_threads (cw_inner s).
Proof.
  intros (_ & E & _). unfold active_count. rewrite E. assert (ci_active_threads (cw_inner s) ∖ {[key]} ⊆ ci_active_threads (cw_inner s)) as Hs by set_solver.
  split; [|done]. apply subseteq_size in Hs. lia.
Qed.
Lemma counters_after k h extra s s' : port_near extra k h s → same_frame s s' → counters_near 1 (cw_inner s) (cw_inner s') → 0 ≤ k →
  ∀ c, c ≠ PacketsDequeued → ic_get c (ci_counters (cw_inner s')) ≤ (if ci_closed (cw_inner s') then 2 * (k + 1) else k + 1).
Proof.
  intros H (_ & _ & _ & -> & _) Hn H0 c Hc. specialize (Hn c Hc). pose proof (pk_counters _ _ _ _ H c Hc). destruct (ci_closed (cw_inner s)); lia.
Qed.

(** Nothing to hand out: the thread leaves, or waits as [t]. *)
Lemma idle_leaves extra k h key s s' : port_near extra k h s → 0 ≤ k → same_frame s s' → counters_near 1 (cw_inner s) (cw_inner s') → idle key s s' →
  ci_waiters (cw_inner s') = ci_waiters (cw_inner s) → port_ok (k + 1) h s'.
Proof.
  intros H H0 Hf Hn Hi Hw. pose proof (idle_active _ _ _ Hi) as [Ha Hsub]. pose proof (same_frame_limit _ _ Hf) as Hl. pose proof (counters_after _ _ _ _ _ H Hf Hn H0) as Hc.
  destruct Hi as (I1 & I2 & I3 & I4). destruct Hf as (F1 & F2 & F3 & F4 & F5). destruct H as [A1 A2 A3 A4 A5 A6 A7 A8 A9 A10 A11].
  split; rewrite ?F1, ?F4, ?F5, ?I1, ?I3, ?Hw, ?Hl; try done; try lia.
  - intros Hcl. destruct (A3 Hcl) as (E1 & E2 & E3). split_and!; [done| |done]. rewrite I2, E2. set_solver.
  - intros c Hcd. specialize (Hc c Hcd). by rewrite F4 in Hc.
  - intros id t Ht. specialize (A9 _ _ Ht). set_solver.
  - intros Hcl. right. specialize (I4 Hcl). pose proof (port_awake_nonneg (cw_wake s)). lia.
Qed.
Lemma idle_waits extra k h key s s' id t : port_near extra k h s → 0 ≤ k → same_frame s s' → counters_near 1 (cw_inner s) (cw_inner s') → idle key s s' →
  ci_closed (cw_inner s) = false → ci_waiters (cw_inner s') = ci_waiters (cw_inner s) + 1 → cw_wake s !! id = None → not_waiting s key → th_key t = key → th_awake t = false →
  port_ok (k + 1) h (cw_set_wake (<[id := t]> (cw_wake s')) s').
Proof.
  intros H H0 Hf Hn Hi Hcl Hw Hid Hnot Hkey Hasl. pose proof (idle_active _ _ _ Hi) as [Ha Hsub]. pose proof (same_frame_limit _ _ Hf) as Hl. pose proof (counters_after _ _ _ _ _ H Hf Hn H0) as Hc.
  destruct Hi as (I1 & I2 & I3 & I4). destruct Hf as (F1 & F2 & F3 & F4 & F5). destruct H as [A1 A2 A3 A4 A5 A6 A7 A8 A9 A10 A11].
  split; cbn [cw_inner cw_wake cw_set_wake]; rewrite ?F1, ?F4, ?F5, ?I1, ?I3, ?Hw; try done; try lia.
  - intros E. congruence.
  - intros c Hcd. specialize (Hc c Hcd). by rewrite F4 in Hc.
  - rewrite map_size_insert_None by done. lia.
  - change (effective_limit (cw_set_wake (<[id:=t]> (cw_wake s)) s')) with (effective_limit s'). rewrite Hl. lia.
  - intros i t'. destruct (decide (i = id)) as [->|Hne].
    + rewrite lookup_insert_eq. intros [= <-]. rewrite I2, Hkey. set_solver.
    + rewrite lookup_insert_ne by done. intros Ht. specialize (A9 _ _ Ht). set_solver.
  - intros i i' u u'. rewrite !lookup_insert_Some. intros [[<- <-]|[Hne Hu]] [[<- <-]|[Hne' Hu']] E; [done| | |by eapply A10].
    + exfalso. apply (Hnot i' u' Hu'). congruence.
    + exfalso. apply (Hnot i u Hu). congruence.
  - intros _. right. specialize (I4 Hcl). pose proof (port_awake_nonneg (<[id := t]> (cw_wake s))).
    change (eligible (cw_set_wake (<[id:=t]> (cw_wake s)) s')) with (eligible s'). lia.
Qed.
(** Packets are handed out. *)
Lemma packets_leave extra k h key s s' p packets : port_near extra k h s → 0 ≤ k → turned key s (Ok (p :: packets)) s' → not_waiting s key →
  (extra = 0 ∨ extra = 1 ∧ key ∉ ci_active_threads (cw_inner s)) → port_ok (k + 1) (deliver (Ok (p :: packets)) h) s'.
Proof.
  intros H H0 (Hf & Hn & Hcl & Hq & Hact & Hw & Hd & Hslot) Hnot Hex. pose proof (same_frame_limit _ _ Hf) as Hl. pose proof (counters_after _ _ _ _ _ H Hf Hn H0) as Hc.
  destruct Hf as (F1 & F2 & F3 & F4 & F5). destruct H as [A1 A2 A3 A4 A5 A6 A7 A8 A9 A10 A11].
  assert (active_count (cw_inner s') = active_count (cw_inner s) + (if decide (key ∈ ci_active_threads (cw_inner s)) then 0 else 1)) as Hsz.
  { unfold active_count. rewrite Hact. case_decide as Hin.
    - rewrite subseteq_union_1_L by set_solver. lia.
    - rewrite size_union by set_solver. rewrite size_singleton. lia. }
  split; cbn [deliver h_posted h_delivered h_dropped h_limit]; rewrite ?F1, ?F4, ?F5, ?Hw, ?Hl; try done; try lia.
  - rewrite A1, Hq, (A2 Hcl). cbn. by rewrite <-app_assoc.
  - intros E. congruence.
  - rewrite Hd, A5, length_app. lia.
  - intros c Hcd. specialize (Hc c Hcd). by rewrite F4 in Hc.
  - rewrite Hsz. destruct A8. case_decide; [lia|]. destruct Hslot as [?|?]; [done|lia].
  - intros id t Ht. rewrite Hact. specialize (A9 _ _ Ht). specialize (Hnot _ _ Ht). set_solver.
  - intros _. destruct (A11 Hcl) as [?|He]; [by left|right]. unfold eligible in *. rewrite Hl, Hsz. rewrite Hq in He. cbn [length app] in He. rewrite length_app in He.
    destruct Hex as [->|[-> Hk]]; case_decide; try done; lia.
Qed.
(** ** The events *)

Lemma not_decide_key key s : key ∉ ci_active_threads (cw_inner s) → ci_active_threads (cw_inner s) ∖ {[key]} = ci_active_threads (cw_inner s).
Proof. intros. set_solver. Qed.
Lemma attempt_ok extra k h id t zero now choice s : port_near extra k h s → 0 ≤ k → 2 * k + 2 ≤ u64_max → cw_wake s !! id = None →
  not_waiting s (th_key t) → (extra = 0 ∨ extra = 1 ∧ th_key t ∉ ci_active_threads (cw_inner s)) →
  wp (dequeue_attempt id t zero now choice) s (λ r s', port_ok (k + 1) (deliver r h) s' ∧ effective_limit s' = effective_limit s).
Proof.
  intros H H0 Hk Hid Hnot Hex. pose proof (turn_ok (th_key t) (th_deadline t) zero now (th_max_packets t) choice s (port_countable _ _ _ _ H H0 Hk)) as Ht.
  unfold wp, dequeue_attempt in *. destruct (dequeue_turn _ _ _ _ _ _ s) as [r s'|]; [|done]. pose proof Ht as (Hf & Hn & Hr).
  assert (deliver (Ok []) h = h) as Hh by (unfold deliver; rewrite app_nil_r; by destruct h).
  assert (delete id (cw_wake s') = cw_wake s') as Hdel by (apply delete_id; by rewrite (proj1 Hf)).
  destruct r as [[|p packets]|e]; cbn [cw_set_wake]; [|rewrite Hdel|rewrite Hdel].
  - rewrite Hh. destruct Hr as (Hcl & Hi & Hw). split; [|exact (same_frame_limit _ _ Hf)]. by apply (idle_waits extra k h (th_key t) s s').
  - split; [|exact (same_frame_limit _ _ Hf)]. destruct s' as [i w d u]. by eapply (packets_leave extra k h (th_key t) s).
  - change (deliver (Err e) h) with (deliver (Ok []) h). rewrite Hh. split; [|exact (same_frame_limit _ _ Hf)]. destruct s' as [i w d u]. destruct Hr as [Hi Hw]. by eapply idle_leaves.
Qed.

Lemma note_deliver e s r s' h : (match e with EvTry _ _ _ | EvWait _ _ _ _ _ _ _ | EvResume _ _ _ _ => True | _ => False end) →
  effective_limit s' ≤ h_limit h → note e s r s' h = deliver r h.
Proof. intros He Hl. unfold note, deliver. rewrite Z.max_l by done. destruct e; try done; by rewrite !app_nil_r. Qed.

Lemma try_ok k h key max choice s : port_ok k h s → 0 ≤ k → 2 * k + 2 ≤ u64_max → not_waiting s key →
  wp (try_dequeue_as key max choice) s (λ r s', port_ok (k + 1) (deliver r h) s' ∧ effective_limit s' = effective_limit s).
Proof.
  intros H H0 Hk Hnot. destruct (port_countable _ _ _ _ H H0 Hk) as (Hc & Hd & Hw). pose proof (Hc PollIterations ltac:(done)) as HP.
  pose proof (Hc ThreadsReleased ltac:(done)) as HR. pose proof (Hc WaiterWakeups ltac:(done)) as HW.
  assert (deliver (Ok []) h = h) as Hh by (unfold deliver; rewrite app_nil_r; by destruct h).
  unfold wp, try_dequeue_as, inner. cbn [bind]. rewrite count_run by lia. cbn [bind gets]. set (s0 := counted PollIterations 1 s).
  change (ci_closed (cw_inner s0)) with (ci_closed (cw_inner s)). destruct (ci_closed (cw_inner s)) eqn:Ecl.
  - cbn [fail_if throw]. change (deliver (Err (last_error PwClosed)) h) with (deliver (Ok []) h). rewrite Hh. split; [|done].
    apply (idle_leaves 0 k h key s); try done; [near|]. split_and!; [done| |done|intros ?; congruence].
    destruct (pk_closed _ _ _ _ H Ecl) as (_ & E & _). change (ci_active_threads (cw_inner s0)) with (ci_active_threads (cw_inner s)). rewrite E. set_solver.
  - cbn [fail_if bind]. destruct (take_run key max s0) as [(E & He & Hq)|(p & packets & rest & E & Eq & Hs)]; [exact Hd| |]; rewrite E; cbn [bind].
    + rewrite (drop_slot_idle key choice s0); [|unfold s0; rewrite get_counted, decide_False by done; lia|unfold s0; rewrite get_counted, decide_False by done; lia|exact Hq].
      destruct (slot_dropped_idle key s He Hq) as (Hi & Hf & Ew & Hn & _). fold s0 in Hi, Hf, Ew, Hn. cbn [throw].
      change (deliver (Err (last_error PwTimedOut)) h) with (deliver (Ok []) h). rewrite Hh. split; [|exact (same_frame_limit _ _ Hf)]. by eapply idle_leaves.
    + cbn [ret]. split; [|done]. eapply (packets_leave 0 k h key s); [exact H|done| |done|by left].
      split; [by split_and!|]. split; [near|]. split_and!; [done|exact Eq|done|done| |exact Hs].
      change (ic_get PacketsDequeued (ic_add PacketsDequeued (Z.of_nat (length (p :: packets))) (ci_counters (cw_inner s0))) =
        ic_get PacketsDequeued (ci_counters (cw_inner s)) + Z.of_nat (length (p :: packets))). by rewrite ic_get_add.
Qed.
(** A thread that returns from the condition variable *)
Definition resumed (id : Z) s : W :=
  cw_set_wake (delete id (cw_wake s)) (cw_set_inner (ci_set_waiters (ci_waiters (cw_inner s) - 1)) s).
Lemma resumed_near k h id t s : port_ok k h s → cw_wake s !! id = Some t → port_near 1 k h (resumed id s).
Proof.
  intros [A1 A2 A3 A4 A5 A6 A7 A8 A9 A10 A11] Ht. assert (size (cw_wake s) = S (size (delete id (cw_wake s)))) as Hsz.
  { rewrite <-(insert_delete_id (cw_wake s) id t Ht) at 1. apply map_size_insert_None, lookup_delete_eq. }
  split; cbn [resumed cw_inner cw_wake cw_set_wake cw_set_inner ci_queue ci_active_threads ci_closed ci_counters ci_waiters ci_set_waiters]; try done; try lia.
  - intros Hcl. destruct (A3 Hcl) as (E1 & E2 & E3). split_and!; [done|done|by apply no_sleeper_delete].
  - intros i u [_ Hu]%lookup_delete_Some. by eapply A9.
  - intros i i' u u' [_ Hu]%lookup_delete_Some [_ Hu']%lookup_delete_Some. by eapply A10.
  - intros Hcl. destruct (A11 Hcl) as [Hno|He]; [left; by apply no_sleeper_delete|right]. pose proof (port_awake_delete (cw_wake s) id).
    change (eligible (resumed id s)) with (eligible s). lia.
Qed.
Lemma resume_ok k h id t timed_out now choice s : port_ok k h s → 0 ≤ k → 2 * k + 2 ≤ u64_max → cw_wake s !! id = Some t →
  wp (dequeue_resume id timed_out now choice) s (λ r s', port_ok (k + 1) (deliver r h) s' ∧ effective_limit s' = effective_limit s).
Proof.
  intros H H0 Hk Ht. pose proof (resumed_near k h id t s H Ht) as H1. pose proof (pk_keys _ _ _ _ H id t Ht) as Hkey.
  assert (cw_wake (resumed id s) !! id = None) as Hid by apply lookup_delete_eq.
  assert (0 < ci_waiters (cw_inner s)) as Hpos.
  { rewrite (proj1 (pk_waiters _ _ _ _ H)). destruct (size (cw_wake s)) eqn:E; [|lia]. apply map_size_empty_inv in E. by rewrite E in Ht. }
  unfold wp, dequeue_resume. cbn [bind gets]. unfold Datatypes.id. rewrite Ht. cbn [expect bind]. rewrite (proj2 (Z.ltb_lt _ _)) by done. cbn [bind modify].
  change (cw_set_wake (delete id (cw_wake s)) (cw_set_inner (ci_set_waiters (ci_waiters (cw_inner s) - 1)) s)) with (resumed id s).
  destruct (timed_out && bool_decide (ci_queue (cw_inner s) = [])) eqn:E.
  - apply andb_true_iff in E as [_ Hq%bool_decide_eq_true]. unfold expire. cbn [bind]. destruct (port_countable _ _ _ _ H1 H0 Hk) as (Hc & _).
    pose proof (Hc TimeoutExpirations ltac:(done)) as HT. rewrite count_run by lia. cbn [throw].
    assert (deliver (Err (last_error PwTimedOut)) h = h) as -> by (unfold deliver; rewrite app_nil_r; by destruct h). split; [|done].
    apply (idle_leaves 1 k h (th_key t) (resumed id s)); try done; [near|]. split_and!; [done|symmetry; exact (not_decide_key (th_key t) (resumed id s) Hkey)|done|].
    intros _. unfold eligible. change (ci_queue (cw_inner (counted TimeoutExpirations 1 (resumed id s)))) with (ci_queue (cw_inner s)). rewrite Hq. cbn [length]. lia.
  - pose proof (attempt_ok 1 k h id t false now choice (resumed id s) H1 H0 Hk Hid) as Ha. apply Ha; [|by right].
    intros i u Hu E'. cbn [resumed cw_wake cw_set_wake] in Hu. apply lookup_delete_Some in Hu as [Hne Hu]. apply Hne. symmetry. by eapply (pk_distinct _ _ _ _ H).
Qed.
Lemma wait_ok k h id key timeout entered now max choice s : port_ok k h s → 0 ≤ k → 2 * k + 2 ≤ u64_max → cw_wake s !! id = None → not_waiting s key →
  (match timeout with Some t => entered + t ≤ instant_max | None => True end) →
  wp (wait_dequeue_as instant_max id key timeout entered now max choice) s (λ r s', port_ok (k + 1) (deliver r h) s' ∧ effective_limit s' = effective_limit s).
Proof.
  intros H H0 Hk Hid Hnot Hinst. unfold wp, wait_dequeue_as, add_at. cbn [bind].
  destruct timeout as [t|]; cbn [bind ret]; [rewrite (proj2 (Z.leb_le _ _)) by done; cbn [bind ret]|];
    by apply (attempt_ok 0 k h id {| th_key := key; th_deadline := _; th_max_packets := max; th_awake := true |}); [..|left].
Qed.

(** ** Wakeups *)

Lemma woken_ok k h choice s : port_near 1 (k + 1) h s → picks s choice → ic_get WaiterWakeups (ci_counters (cw_inner s)) ≤ k →
  port_ok (k + 1) h (woken choice s).
Proof.
  intros H Hp Hb. assert ((no_sleeper (cw_wake s) ∨ eligible s ≤ 0 ∨ ci_closed (cw_inner s) = true) → port_ok (k + 1) h s) as Hsame.
  { intros Hs. destruct H as [A1 A2 A3 A4 A5 A6 A7 A8 A9 A10 A11]. split; try done. intros Hcl. pose proof (port_awake_nonneg (cw_wake s)).
    destruct Hs as [?|[?|?]]; [by left|right; lia|congruence]. }
  unfold woken. destruct ((ci_waiters (cw_inner s) =? 0) || bool_decide (ci_queue (cw_inner s) = []) || ci_closed (cw_inner s)) eqn:E.
  - apply Hsame. apply orb_true_iff in E as [[E%Z.eqb_eq|E%bool_decide_eq_true]%orb_true_iff|E].
    + left. apply empty_no_sleeper. rewrite (proj1 (pk_waiters _ _ _ _ H)) in E. lia.
    + right; left. unfold eligible. rewrite E. cbn [length]. lia.
    + by right; right.
  - destruct (Z.ltb_spec (active_count (cw_inner s)) (effective_limit s)) as [Hl|Hl]; [|apply Hsame; right; left; unfold eligible; lia].
    set (s1 := counted WaiterWakeups 1 s). destruct (roused_inner choice s1) as [Ei Ed]. destruct H as [A1 A2 A3 A4 A5 A6 A7 A8 A9 A10 A11].
    apply orb_false_iff in E as [E Ecl]. assert (effective_limit (roused choice s1) = effective_limit s) as El by (unfold effective_limit; by rewrite Ei, Ed).
    split; rewrite ?Ei, ?roused_size, ?El; try done.
    + intros Hcl. cbn in Hcl. congruence.
    + intros c Hc. cbn [s1 counted cw_inner cw_set_inner ci_counters ci_set_counters ci_closed]. rewrite ic_get_add. specialize (A6 c Hc). rewrite Ecl in A6 |- *. case_decide; [subst; lia|done].
    + intros id t (t0 & Ht0 & ->)%roused_lookup. by eapply A9.
    + intros i i' t t' (u & Hu & ->)%roused_lookup (u' & Hu' & ->)%roused_lookup. by eapply A10.
    + intros _. destruct (roused_wakes choice s1 Hp) as [?|Hw]; [by left|]. destruct (A11 Ecl) as [Hno|He].
      * left. destruct choice as [i|]; [|done]. destruct Hp as (t & Ht & Hf). apply Hno in Ht. congruence.
      * right. rewrite Hw. unfold eligible in *. rewrite Ei, El. change (awake (cw_wake s1)) with (awake (cw_wake s)). rewrite Z.add_0_r. exact He.
Qed.
Lemma pump_ok k h s : port_ok k h s → port_ok k h (notify_pump_wake s).
Proof. by intros [A1 A2 A3 A4 A5 A6 A7 A8 A9 A10 A11]. Qed.
(** ** Posting, slots, the limit and closing *)

Definition posted (packet : IoCompletionPacket) s : W :=
  counted PacketsPosted 1 (cw_set_inner (λ i, ci_set (ci_queue i ++ [packet]) (ci_active_threads i) i) s).
Definition add_posted (packet : IoCompletionPacket) (h : History) : History :=
  {| h_posted := h_posted h ++ [packet]; h_delivered := h_delivered h; h_dropped := h_dropped h; h_limit := h_limit h |}.
Lemma posted_near k h packet s : port_ok k h s → 0 ≤ k → ci_closed (cw_inner s) = false → port_near 1 (k + 1) (add_posted packet h) (posted packet s).
Proof.
  intros [A1 A2 A3 A4 A5 A6 A7 A8 A9 A10 A11] H0 Hcl.
  split; cbn [posted counted cw_inner cw_wake cw_set_inner ci_queue ci_active_threads ci_closed ci_counters ci_waiters ci_set ci_set_counters add_posted h_posted h_delivered h_dropped h_limit]; try done; try lia.
  - by rewrite A1, <-!app_assoc.
  - congruence.
  - change (ic_packets_posted (ic_add PacketsPosted 1 (ci_counters (cw_inner s)))) with (ic_get PacketsPosted (ic_add PacketsPosted 1 (ci_counters (cw_inner s)))).
    rewrite ic_get_add, decide_True, length_app by done. cbn. lia.
  - intros c Hc. rewrite ic_get_add. specialize (A6 c Hc). rewrite Hcl in A6 |- *. case_decide; [|lia]. subst. lia.
  - intros _. destruct (A11 Hcl) as [?|He]; [by left|right]. unfold eligible in *.
    change (active_count (cw_inner (posted packet s))) with (active_count (cw_inner s)). change (effective_limit (posted packet s)) with (effective_limit s).
    change (ci_queue (cw_inner (posted packet s))) with (ci_queue (cw_inner s) ++ [packet]). rewrite length_app. cbn [length]. lia.
Qed.
Lemma post_ok k h packet choice s : port_ok k h s → 0 ≤ k → 2 * k + 2 ≤ u64_max → picks s choice →
  wp (post packet choice) s (λ r s', port_ok (k + 1) (match r with Ok _ => add_posted packet h | Err _ => h end) s' ∧ effective_limit s' = effective_limit s).
Proof.
  intros H H0 Hk Hp. destruct (port_countable _ _ _ _ H H0 Hk) as (Hc & _). pose proof (Hc PacketsPosted ltac:(done)) as HP. pose proof (Hc WaiterWakeups ltac:(done)) as HW.
  unfold wp, post, inner. cbn [bind gets]. destruct (ci_closed (cw_inner s)) eqn:Ecl.
  - cbn [fail_if throw bind]. split; [|done]. destruct H as [A1 A2 A3 A4 A5 A6 A7 A8 A9 A10 A11]. split; try done; try lia.
    intros c Hcd. specialize (A6 c Hcd). rewrite Ecl in A6 |- *. lia.
  - cbn [fail_if bind modify]. rewrite count_run by done || (cbn in *; lia). cbn [bind]. fold (posted packet s).
    pose proof (pk_counters _ _ _ _ H WaiterWakeups ltac:(done)) as Hw. rewrite Ecl in Hw.
    assert (ic_get WaiterWakeups (ci_counters (cw_inner (posted packet s))) = ic_get WaiterWakeups (ci_counters (cw_inner s))) as Ew
      by (unfold posted; rewrite get_counted, decide_False by done; done).
    rewrite wake_eligible_run by (rewrite Ew; lia). cbn [bind modify]. split.
    + apply pump_ok, woken_ok; [by apply posted_near|done|by rewrite Ew].
    + unfold woken. destruct (_ || _); [done|]. destruct (_ <? _); [|done]. destruct (roused_inner choice (counted WaiterWakeups 1 (posted packet s))) as [Ei Ed].
      unfold effective_limit. cbn [notify_pump_wake cw_inner cw_default_concurrency]. by rewrite Ei, Ed.
Qed.

Lemma slot_dropped_near k h key s : port_ok k h s → 0 ≤ k → key ∈ ci_active_threads (cw_inner s) → port_near 1 (k + 1) h (slot_dropped key s).
Proof.
  intros H H0 Hin. assert (ci_closed (cw_inner s) = false) as Hcl.
  { destruct (ci_closed (cw_inner s)) eqn:E; [|done]. destruct (pk_closed _ _ _ _ H E) as (_ & Ea & _). rewrite Ea in Hin. set_solver. }
  destruct H as [A1 A2 A3 A4 A5 A6 A7 A8 A9 A10 A11]. unfold slot_dropped. rewrite decide_True by done.
  assert (size (ci_active_threads (cw_inner s)) = S (size (ci_active_threads (cw_inner s) ∖ {[key]}))) as Hsz.
  { assert ({[key]} ⊆ ci_active_threads (cw_inner s)) as Hsub by set_solver. rewrite size_difference by done. apply subseteq_size in Hsub.
    rewrite size_singleton in *. lia. }
  split; cbn [counted cw_inner cw_wake cw_set_inner ci_queue ci_active_threads ci_closed ci_counters ci_waiters ci_set ci_set_counters]; try done; try lia.
  - congruence.
  - split; [exact (proj1 A4)|lia].
  - intros c Hc. rewrite ic_get_add. specialize (A6 c Hc). rewrite Hcl in A6 |- *. case_decide; [|lia]. subst. lia.
  - unfold active_count in *. cbn [ci_active_threads ci_set ci_set_counters]. destruct A8. split; [lia|done].
  - intros id t Ht. specialize (A9 _ _ Ht). set_solver.
  - intros _. destruct (A11 Hcl) as [?|He]; [by left|right]. unfold eligible, active_count, effective_limit in *. cbn [counted cw_inner cw_set_inner ci_queue ci_active_threads ci_set ci_set_counters
      ci_configured_concurrency cw_default_concurrency]. lia.
Qed.
Lemma step_up k h s : port_ok k h s → 0 ≤ k → port_ok (k + 1) h s.
Proof.
  intros [A1 A2 A3 A4 A5 A6 A7 A8 A9 A10 A11] H0. split; try done; try lia. intros c Hc. specialize (A6 c Hc). destruct (ci_closed _); lia.
Qed.
Lemma release_ok k h key choice s : port_ok k h s → 0 ≤ k → 2 * k + 2 ≤ u64_max → picks s choice →
  wp (release_active_as key choice) s (λ r s', port_ok (k + 1) h s' ∧ effective_limit s' = effective_limit s ∧ r = Ok tt).
Proof.
  intros H H0 Hk Hp. destruct (port_countable _ _ _ _ H H0 Hk) as (Hc & _). pose proof (Hc ThreadsReleased ltac:(done)) as HR. pose proof (Hc WaiterWakeups ltac:(done)) as HW.
  unfold wp, release_active_as. cbn [bind]. rewrite drop_slot_run by lia. cbn [gets bind]. unfold id.
  assert (port_ok (k + 1) h (if decide (key ∈ ci_active_threads (cw_inner s)) then woken choice (slot_dropped key s) else s) ∧
    effective_limit (if decide (key ∈ ci_active_threads (cw_inner s)) then woken choice (slot_dropped key s) else s) = effective_limit s) as [Hok El].
  { case_decide as Hin; [|split; [by apply step_up|done]]. split.
    - apply woken_ok; [by apply slot_dropped_near| |].
      + unfold slot_dropped. by rewrite decide_True.
      + unfold slot_dropped. rewrite decide_True by done. rewrite get_counted, decide_False by done. pose proof (pk_counters _ _ _ _ H WaiterWakeups ltac:(done)) as Hw.
        destruct (ci_closed (cw_inner s)) eqn:E; [|exact Hw]. destruct (pk_closed _ _ _ _ H E) as (_ & Ea & _). rewrite Ea in Hin. set_solver.
    - unfold woken. destruct (_ || _); [by unfold slot_dropped; rewrite decide_True|]. destruct (_ <? _); [|by unfold slot_dropped; rewrite decide_True].
      destruct (roused_inner choice (counted WaiterWakeups 1 (slot_dropped key s))) as [Ei Ed]. unfold effective_limit. rewrite Ei, Ed. unfold slot_dropped. by rewrite decide_True. }
  destruct (_ && _); cbn [modify ret]; [split; [by apply pump_ok|done]|done].
Qed.
Definition with_limit (limit : Z) (h : History) : History :=
  {| h_posted := h_posted h; h_delivered := h_delivered h; h_dropped := h_dropped h; h_limit := Z.max (h_limit h) limit |}.
Definition limited (n : Z) s : W := cw_set_inner (ci_set_configured n) s.
(** The limit changes, and the threads are woken if there is now something for them. *)
Lemma limited_ok k h n s m : port_ok k h s → 0 ≤ k →
  (ci_closed (cw_inner s) = false → no_sleeper m ∨ m = cw_wake s ∧ (eligible (limited n s) ≤ 0 ∨ n = ci_configured_concurrency (cw_inner s))) →
  (m = cw_wake s ∨ m = rouse <$> cw_wake s) →
  port_ok k (with_limit (effective_limit (limited n s)) h) (cw_set_wake m (limited n s)).
Proof.
  intros [A1 A2 A3 A4 A5 A6 A7 A8 A9 A10 A11] H0 Hw Hm. assert (size m = size (cw_wake s)) as Hsz by (destruct Hm as [->| ->]; [done|apply map_size_fmap]).
  assert (∀ id t, m !! id = Some t → ∃ t0, cw_wake s !! id = Some t0 ∧ th_key t = th_key t0) as Hlook.
  { intros id t. destruct Hm as [->| ->]; [by exists t|]. rewrite lookup_fmap. destruct (cw_wake s !! id) as [t0|]; [|done]. intros [= <-]. by exists t0. }
  split; cbn [cw_set_wake limited cw_inner cw_wake cw_set_inner ci_set_configured ci_queue ci_active_threads ci_closed ci_counters ci_waiters with_limit h_posted h_delivered h_dropped h_limit];
    try done; try lia.
  - intros Hcl. destruct (A3 Hcl) as (E1 & E2 & E3). split_and!; [done|done|]. destruct Hm as [->| ->]; [done|apply no_sleeper_rouse].
  - change (active_count (cw_inner s) ≤ Z.max (h_limit h) (effective_limit (limited n s)) ∧ effective_limit (limited n s) ≤ Z.max (h_limit h) (effective_limit (limited n s))). lia.
  - intros id t (t0 & Ht0 & ->)%Hlook. by eapply A9.
  - intros i i' t t' (u & Hu & ->)%Hlook (u' & Hu' & ->)%Hlook. by eapply A10.
  - intros Hcl. destruct (Hw Hcl) as [?|[-> [He|Hn]]]; [by left|right; pose proof (port_awake_nonneg (cw_wake s)); change (eligible (cw_set_wake (cw_wake s) (limited n s))) with (eligible (limited n s)); lia|].
    destruct (A11 Hcl) as [?|He]; [by left|right]. unfold eligible, effective_limit, active_count in *. cbn [cw_inner cw_set_wake cw_set_inner ci_set_configured ci_queue ci_active_threads ci_configured_concurrency cw_default_concurrency]. by rewrite Hn.
Qed.
Lemma set_concurrency_ok k h n s : port_ok k h s → 0 ≤ k → 2 * k + 2 ≤ u64_max →
  wp (set_concurrency n) s (λ r s', port_ok (k + 1) (with_limit (effective_limit s') h) s' ∧ r = Ok tt).
Proof.
  intros H H0 Hk. unfold wp, set_concurrency, inner. cbn [bind gets modify]. fold (limited n s).
  destruct (Z.eqb_spec (ci_configured_concurrency (cw_inner s)) n) as [<-|Hne].
  - cbn [ret]. split; [|done]. apply step_up; [|done]. pose proof (limited_ok k h _ s (cw_wake s) H H0 (λ _, or_intror (conj eq_refl (or_intror eq_refl))) (or_introl eq_refl)) as Hl.
    exact Hl.
  - cbn [bind gets]. unfold id. assert (ci_closed (cw_inner s) = false → packet_available (limited n s) = false → eligible (limited n s) ≤ 0) as Hav.
    { unfold packet_available, eligible. cbn [limited cw_inner cw_set_inner ci_set_configured ci_closed ci_queue]. intros -> Ha. cbn [negb andb] in Ha.
      apply andb_false_iff in Ha as [Ha%negb_false_iff%bool_decide_eq_true|Ha%Z.ltb_ge]; [rewrite Ha; cbn [length]; lia|]. unfold active_count in *. cbn [ci_active_threads] in *. lia. }
    pose proof (limited_ok k h n s (cw_wake s) H H0) as Hsame. pose proof (limited_ok (k + 1) h n s (rouse <$> cw_wake s) (step_up _ _ _ H H0) ltac:(lia) (λ _, or_introl (no_sleeper_rouse _)) (or_intror eq_refl)) as Hall.
    destruct (packet_available (limited n s)) eqn:Epa; cbn [andb].
    + change (ci_waiters (cw_inner (limited n s))) with (ci_waiters (cw_inner s)). destruct (Z.ltb_spec 0 (ci_waiters (cw_inner s))) as [Hw|Hw].
      * destruct (port_countable _ _ _ _ H H0 Hk) as (Hc & _). pose proof (Hc WaiterWakeups ltac:(done)) as HW. pose proof (pk_counters _ _ _ _ H WaiterWakeups ltac:(done)) as Hkc.
        cbn [bind]. rewrite count_run by (cbn in *; lia). unfold notify_all. cbn [bind modify]. split; [|done]. apply pump_ok.
        destruct Hall as [A1 A2 A3 A4 A5 A6 A7 A8 A9 A10 A11]. split; try done. intros c Hcd. pose proof (pk_counters _ _ _ _ H c Hcd) as Hcs.
        cbn [cw_inner cw_set_wake cw_set_inner counted ci_counters ci_set_counters limited ci_set_configured ci_closed]. rewrite ic_get_add.
        destruct (ci_closed (cw_inner s)); case_decide; lia.
      * cbn [bind ret modify]. split; [|done]. apply pump_ok, step_up; [|done]. apply Hsame; [|by left]. intros _. left. apply empty_no_sleeper.
        pose proof (proj1 (pk_waiters _ _ _ _ H)). lia.
    + cbn [bind ret modify]. split; [|done]. apply step_up; [|done]. apply Hsame; [|by left]. intros Hcl. right. split; [done|left; by apply Hav].
Qed.

Definition drop_all (dropped : list IoCompletionPacket) (h : History) : History :=
  {| h_posted := h_posted h; h_delivered := h_delivered h; h_dropped := h_dropped h ++ dropped; h_limit := h_limit h |}.
(** Everything is dropped and everybody woken. *)
Record emptied s s' : Prop := {
  em_wake : cw_wake s' = rouse <$> cw_wake s;
  em_limit : effective_limit s' = effective_limit s;
  em_queue : ci_queue (cw_inner s') = [] ∧ ci_active_threads (cw_inner s') = ∅ ∧ ci_closed (cw_inner s') = true;
  em_waiters : ci_waiters (cw_inner s') = ci_waiters (cw_inner s);
  em_posted : ic_packets_posted (ci_counters (cw_inner s')) = ic_packets_posted (ci_counters (cw_inner s));
  em_dequeued : ic_packets_dequeued (ci_counters (cw_inner s')) = ic_packets_dequeued (ci_counters (cw_inner s)) }.
Lemma emptied_ok k h s s' : port_ok k h s → 0 ≤ k → ci_closed (cw_inner s) = false → emptied s s' →
  (∀ c, c ≠ PacketsDequeued → ic_get c (ci_counters (cw_inner s')) ≤ 2 * (k + 1)) → port_ok (k + 1) (drop_all (ci_queue (cw_inner s)) h) s'.
Proof.
  intros [A1 A2 A3 A4 A5 A6 A7 A8 A9 A10 A11] H0 Hcl [Ew El (Eq & Ea & Ec) Ei Ep Ed] Hc.
  split; cbn [drop_all h_posted h_delivered h_dropped h_limit]; rewrite ?Ew, ?El, ?Eq, ?Ea, ?Ec, ?Ei, ?Ep, ?Ed; try done; try lia.
  - by rewrite A1, (A2 Hcl), app_nil_r.
  - intros _. split_and!; [done|done|apply no_sleeper_rouse].
  - rewrite map_size_fmap. lia.
  - unfold active_count in *. rewrite Ea, size_empty. lia.
  - intros i i' t t'. rewrite !lookup_fmap. destruct (cw_wake s !! i) as [u|] eqn:E1, (cw_wake s !! i') as [u'|] eqn:E2; try done.
    intros [= <-] [= <-] E. exact (A10 _ _ _ _ E1 E2 E).
Qed.
Lemma close_ok k h s : port_ok k h s → 0 ≤ k → 2 * k + 2 ≤ u64_max →
  wp close s (λ r s', port_ok (k + 1) (drop_all (ci_queue (cw_inner s)) h) s' ∧ effective_limit s' = effective_limit s ∧ r = Ok tt ∧ ci_closed (cw_inner s') = true).
Proof.
  intros H H0 Hk. destruct (port_countable _ _ _ _ H H0 Hk) as (Hc & _). pose proof (Hc Closes ltac:(done)) as HC. pose proof (Hc WaiterWakeups ltac:(done)) as HW.
  unfold wp, close, inner. cbn [bind gets]. destruct (ci_closed (cw_inner s)) eqn:Ecl.
  - cbn [ret]. split_and!; [|done|done|done]. destruct (pk_closed _ _ _ _ H Ecl) as (Eq & _). rewrite Eq. unfold drop_all. rewrite app_nil_r. destruct h. by apply step_up.
  - cbn [bind modify]. rewrite count_run by (cbn in *; lia). cbn [bind].
    set (s1 := counted Closes 1 (cw_set_inner (λ i, ci_set [] ∅ (ci_set_closed i)) s)).
    assert (∀ c, c ≠ PacketsDequeued → ic_get c (ci_counters (cw_inner s1)) ≤ (if decide (c = Closes) then k + 1 else k)) as Hc1.
    { intros c Hcd. unfold s1. rewrite get_counted. cbn [cw_inner cw_set_inner ci_set ci_set_closed ci_counters]. pose proof (pk_counters _ _ _ _ H c Hcd) as A. rewrite Ecl in A. case_decide; lia. }
    destruct (pk_waiters _ _ _ _ H) as [Hw1 Hw2]. destruct (Z.ltb_spec 0 (ci_waiters (cw_inner s))) as [Hw|Hw].
    + rewrite count_run by (pose proof (Hc1 WaiterWakeups ltac:(done)) as A; rewrite decide_False in A by done; lia). unfold notify_all. cbn [bind modify].
      split_and!; [|done|done|done]. apply (emptied_ok k h s); [done|done|done|by split|].
      intros c Hcd. specialize (Hc1 c Hcd). cbn [notify_pump_wake cw_set_wake cw_inner]. rewrite get_counted. repeat case_decide; lia.
    + unfold notify_all. cbn [bind ret modify]. split_and!; [|done|done|done]. apply (emptied_ok k h s); [done|done|done|by split|].
      intros c Hcd. specialize (Hc1 c Hcd). cbn [notify_pump_wake cw_set_wake cw_inner]. case_decide; lia.
Qed.

(** ** Every event *)

Lemma new_ok default concurrent : 0 ≤ concurrent →
  port_ok 0 {| h_posted := []; h_delivered := []; h_dropped := []; h_limit := effective_limit (new_wait_state default concurrent) |} (new_wait_state default concurrent).
Proof.
  intros Hc. assert (1 ≤ effective_limit (new_wait_state default concurrent)).
  { unfold effective_limit, new_wait_state. cbn. destruct (Z.eqb_spec concurrent 0); lia. }
  split; cbn [new_wait_state cw_inner cw_wake ci_queue ci_closed ci_counters ci_waiters ci_active_threads h_posted h_delivered h_dropped h_limit]; try done.
  - by intros [].
  - split; [unfold active_count; cbn [ci_active_threads]; rewrite size_empty; cbn [h_limit] in *; lia|done].
  - intros _. by left.
Qed.
Lemma event_ok k h e s : port_ok k h s → 0 ≤ k → 2 * k + 2 ≤ u64_max → enabled s e → wp (exec e) s (λ r s', port_ok (k + 1) (note e s r s' h) s').
Proof.
  intros H H0 Hk He. pose proof (pk_slots _ _ _ _ H) as [_ Hlim].
  assert (∀ c e', (match e' with EvTry _ _ _ | EvWait _ _ _ _ _ _ _ | EvResume _ _ _ _ => True | _ => False end) →
    wp c s (λ r s', port_ok (k + 1) (deliver r h) s' ∧ effective_limit s' = effective_limit s) → wp c s (λ r s', port_ok (k + 1) (note e' s r s' h) s')) as Hdel.
  { intros c e' He' Hw. unfold wp in *. destruct (c s) as [r s'|]; [|done]. destruct Hw as [Hok El]. rewrite note_deliver; [done|done|lia]. }
  destruct e as [packet choice|key max choice|id key timeout entered now max choice|id timed_out now choice|n|key choice|]; cbn [exec enabled] in *.
  - pose proof (post_ok k h packet choice s H H0 Hk He) as Hp. unfold wp in *. cbn [bind]. destruct (post packet choice s) as [[[]|er] s'|]; [| |done]; destruct Hp as [Hp El]; cbn [ret].
    + unfold note. rewrite !app_nil_r, El, Z.max_l by done. exact Hp.
    + unfold note. rewrite !app_nil_r, El, Z.max_l by done. by destruct h.
  - destruct He. by apply Hdel, try_ok.
  - destruct He as (H1 & H2 & H3 & H4). by apply Hdel, wait_ok.
  - destruct He as ([t Ht] & Hp). by eapply Hdel, resume_ok.
  - pose proof (set_concurrency_ok k h n s H H0 Hk) as Hp. unfold wp in *. cbn [bind]. destruct (set_concurrency n s) as [r s'|]; [|done]. destruct Hp as [Hp ->]. cbn [ret].
    unfold note. rewrite !app_nil_r. exact Hp.
  - pose proof (release_ok k h key choice s H H0 Hk He) as Hp. unfold wp in *. cbn [bind]. destruct (release_active_as key choice s) as [r s'|]; [|done]. destruct Hp as (Hp & El & ->). cbn [ret].
    unfold note. rewrite !app_nil_r, El, Z.max_l by done. by destruct h.
  - pose proof (close_ok k h s H H0 Hk) as Hp. unfold wp in *. cbn [bind]. destruct (close s) as [r s'|]; [|done]. destruct Hp as (Hp & El & -> & _). cbn [ret].
    unfold note. rewrite !app_nil_r, El, Z.max_l by done. exact Hp.
Qed.
Lemma run_ok default concurrent k h s : run default concurrent k h s → 0 ≤ k ∧ (2 * k ≤ u64_max → port_ok k h s).
Proof.
  induction 1 as [Hc|k h s e r s' Hr [H0 IH] He Hex]; [split; [done|intros _; by apply new_ok]|]. split; [lia|]. intros Hk.
  pose proof (event_ok k h e s (IH ltac:(lia)) H0 ltac:(lia) He) as Hw. unfold wp in Hw. by rewrite Hex in Hw.
Qed.
End port.
End Cp.
