(* ===== verification/IocpTheorems.v ===== *)
(** * Completion ports of the Win32 subsystem: the theorems *)

From S2P Require Import Prelude Win32Types Iocp IocpFacts.

Module Cpt.
Import Cp.
#[local] Abbreviation W := CompletionPortWaitState.
Implicit Types (s : W).

(** A turn takes what a free slot allows. *)
Lemma turn_takes key deadline zero now max choice s : countable s → ci_closed (cw_inner s) = false → 0 < eligible s →
  ∃ p packets s', dequeue_turn key deadline zero now max choice s = Done (Ok (p :: packets)) s'.
Proof.
  intros Hc Hcl He. pose proof (turn_ok key deadline zero now max choice s Hc) as Ht. unfold wp in Ht.
  destruct (dequeue_turn key deadline zero now max choice s) as [r s'|]; [|done]. destruct Ht as (Hf & _ & Hr).
  assert (idle key s s' → False) as Hidle.
  { intros Hi. pose proof (idle_active _ _ _ Hi) as [Ha _]. destruct Hi as (Hq & _ & _ & H0). specialize (H0 Hcl). unfold eligible in *.
    rewrite Hq, (same_frame_limit _ _ Hf) in H0. lia. }
  destruct r as [[|p packets]|er]; [|by exists p, packets, s'|]; exfalso; [destruct Hr as (_ & Hi & _)|destruct Hr as [Hi _]]; by apply Hidle.
Qed.
Lemma resume_takes k h id t timed_out now choice s : port_ok k h s → 0 ≤ k → 2 * k + 2 ≤ u64_max → ci_closed (cw_inner s) = false → 0 < eligible s →
  cw_wake s !! id = Some t → ∃ p packets s', dequeue_resume id timed_out now choice s = Done (Ok (p :: packets)) s'.
Proof.
  intros H H0 Hk Hcl He Ht. pose proof (resumed_near k h id t s H Ht) as H1. assert (0 < ci_waiters (cw_inner s)) as Hpos.
  { rewrite (proj1 (pk_waiters _ _ _ _ H)). destruct (size (cw_wake s)) eqn:E; [|lia]. apply map_size_empty_inv in E. by rewrite E in Ht. }
  unfold dequeue_resume. cbn [bind gets]. unfold Datatypes.id. rewrite Ht. cbn [expect bind]. rewrite (proj2 (Z.ltb_lt _ _)) by done. cbn [bind modify].
  change (cw_set_wake (delete id (cw_wake s)) (cw_set_inner (ci_set_waiters (ci_waiters (cw_inner s) - 1)) s)) with (resumed id s).
  rewrite bool_decide_eq_false_2 by (intros Hq; unfold eligible in He; rewrite Hq in He; cbn [length] in He; lia). rewrite andb_false_r.
  destruct (turn_takes (th_key t) (th_deadline t) false now (th_max_packets t) choice (resumed id s)) as (p & packets & s' & E); [by eapply port_countable|done|exact He|].
  unfold dequeue_attempt. rewrite E. by eexists _, _, _.
Qed.
Lemma resume_closed k h id t now choice s : port_ok k h s → 0 ≤ k → 2 * k + 2 ≤ u64_max → ci_closed (cw_inner s) = true → cw_wake s !! id = Some t →
  ∃ s', dequeue_resume id false now choice s = Done (Err (last_error PwClosed)) s'.
Proof.
  intros H H0 Hk Hcl Ht. pose proof (resumed_near k h id t s H Ht) as H1. destruct (port_countable _ _ _ _ H1 H0 Hk) as (Hc & _). pose proof (Hc PollIterations ltac:(done)) as HP.
  assert (0 < ci_waiters (cw_inner s)) as Hpos.
  { rewrite (proj1 (pk_waiters _ _ _ _ H)). destruct (size (cw_wake s)) eqn:E; [|lia]. apply map_size_empty_inv in E. by rewrite E in Ht. }
  unfold dequeue_resume. cbn [bind gets]. unfold Datatypes.id. rewrite Ht. cbn [expect bind]. rewrite (proj2 (Z.ltb_lt _ _)) by done. cbn [bind modify andb].
  change (cw_set_wake (delete id (cw_wake s)) (cw_set_inner (ci_set_waiters (ci_waiters (cw_inner s) - 1)) s)) with (resumed id s).
  unfold dequeue_attempt, dequeue_turn, inner. cbn [bind]. rewrite count_run by lia. cbn [bind gets].
  change (ci_closed (cw_inner (counted PollIterations 1 (resumed id s)))) with (ci_closed (cw_inner s)). rewrite Hcl. cbn [bind modify throw]. by eexists.
Qed.
(** What the probe says is what a poll answers. *)
Lemma readable_decides k h key max choice s : port_ok k h s → 0 ≤ k → 2 * k + 2 ≤ u64_max →
  readable_for key s = true ↔ ∃ p packets s', try_dequeue_as key max choice s = Done (Ok (p :: packets)) s'.
Proof.
  intros H H0 Hk. destruct (port_countable _ _ _ _ H H0 Hk) as (Hc & Hd & _). pose proof (Hc PollIterations ltac:(done)) as HP.
  unfold readable_for, try_dequeue_as, inner. cbn [bind]. rewrite count_run by lia. cbn [bind gets]. set (s0 := counted PollIterations 1 s).
  change (ci_closed (cw_inner s0)) with (ci_closed (cw_inner s)). destruct (ci_closed (cw_inner s)) eqn:Ecl; cbn [orb].
  { cbn [fail_if]. split; [done|]. by intros (p & packets & s' & [=]). }
  cbn [fail_if bind]. destruct (take_run key max s0) as [(E & He & Hq)|(p & packets & rest & E & Eq & Hs)]; [exact Hd| |]; rewrite E; cbn [bind].
  - split.
    + destruct (bool_decide (ci_queue (cw_inner s) = [])) eqn:Eb; [done|]. apply bool_decide_eq_false in Eb. intros Hr.
      apply orb_true_iff in Hr as [Hin%bool_decide_eq_true|Hlt%Z.ltb_lt]; [by apply Hq in Hin|]. exfalso.
      assert (eligible s ≤ 0) as He' by exact He. unfold eligible in He'. destruct (ci_queue (cw_inner s)) as [|p q]; [done|]. cbn [length] in He'. lia.
    + intros (p & packets & s' & E'). destruct (drop_slot key choice s0) as [[b|er] s1|]; done.
  - split; [|intros _; destruct (ci_queue (cw_inner s)) eqn:Eqs].
    + intros _. by eexists _, _, _.
    + exfalso. change (ci_queue (cw_inner s0)) with (ci_queue (cw_inner s)) in Eq. by rewrite Eqs in Eq.
    + rewrite bool_decide_eq_false_2 by done. apply orb_true_iff. destruct Hs as [Hin|Hlt]; [left; by apply bool_decide_eq_true|right; by apply Z.ltb_lt].
Qed.

(** C10 - Whatever threads post, poll, wait, wake, release, close or change the limit, and
    in any order: the packets handed out, then those dropped by the closing, then
    those in the queue are the packets posted, in order, each once; nothing is dropped
    before the closing and nothing is left after it.  The counters count them, the
    port knows its waiters, no more threads than the largest limit hold a slot, a
    probe says exactly whether a poll succeeds, and no event panics. *)
Theorem iocp_packets_exact instant_max default concurrent k h s :
  run instant_max default concurrent k h s → 2 * k + 2 ≤ u64_max →
  let i := cw_inner s in
  h_posted h = h_delivered h ++ h_dropped h ++ ci_queue i ∧
  (if ci_closed i then ci_queue i = [] else h_dropped h = []) ∧
  ic_packets_posted (counters s) = Z.of_nat (length (h_posted h)) ∧ ic_packets_dequeued (counters s) = Z.of_nat (length (h_delivered h)) ∧
  waiter_count s = Z.of_nat (size (cw_wake s)) ∧ active_thread_count s ≤ h_limit h ∧
  (∀ key max choice, readable_for key s = true ↔ ∃ p packets s', try_dequeue_as key max choice s = Done (Ok (p :: packets)) s') ∧
  (∀ e, enabled instant_max s e → ∃ r s', exec instant_max e s = Done r s').
Proof.
  intros Hr Hk i. destruct (run_ok _ _ _ _ _ _ Hr) as [H0 H]. specialize (H ltac:(lia)). split_and!.
  - apply (pk_order _ _ _ _ H).
  - unfold i. destruct (ci_closed (cw_inner s)) eqn:E; [apply (pk_closed _ _ _ _ H E)|apply (pk_open _ _ _ _ H E)].
  - apply (pk_posted _ _ _ _ H).
  - apply (pk_dequeued _ _ _ _ H).
  - apply (pk_waiters _ _ _ _ H).
  - apply (pk_slots _ _ _ _ H).
  - intros key max choice. by eapply readable_decides.
  - intros e He. pose proof (event_ok instant_max k h e s H H0 Hk He) as Hw. unfold wp in Hw. destruct (exec instant_max e s) as [r s'|]; [by exists r, s'|done].
Qed.

(** C14 - Waking one thread at a time is enough.  While a thread sleeps on an open port, at
    least as many threads are woken and about to run as there are packets that free
    slots allow to hand out; so when there is one, some woken thread gets a packet,
    even if its timeout has run out.  A closed port lets nobody sleep, and tells so to
    those who waited and whose timeout has not run out. *)
Theorem iocp_wakeups_suffice instant_max default concurrent k h s :
  run instant_max default concurrent k h s → 2 * k + 2 ≤ u64_max →
  (ci_closed (cw_inner s) = false → (∃ id, asleep s id) →
     eligible s ≤ awake (cw_wake s) ∧
     (0 < eligible s → ∃ id t, cw_wake s !! id = Some t ∧ th_awake t = true ∧
        ∀ timed_out now choice, ∃ p packets s', dequeue_resume id timed_out now choice s = Done (Ok (p :: packets)) s')) ∧
  (ci_closed (cw_inner s) = true → ∀ id t now choice, cw_wake s !! id = Some t →
     th_awake t = true ∧ ∃ s', dequeue_resume id false now choice s = Done (Err ERROR_ABANDONED_WAIT_0) s').
Proof.
  intros Hr Hk. destruct (run_ok _ _ _ _ _ _ Hr) as [H0 H]. specialize (H ltac:(lia)). split.
  - intros Hcl [id (t & Ht & Hf)]. destruct (pk_wake _ _ _ _ H Hcl) as [Hno|He]; [apply Hno in Ht; congruence|]. split; [lia|]. intros Hpos.
    destruct (decide (map_Exists (λ _ t, th_awake t = true) (cw_wake s))) as [(i & u & Hu & Ha)|Hnone].
    + exists i, u. split_and!; [done|done|]. intros timed_out now choice. by eapply resume_takes.
    + exfalso. assert (awake (cw_wake s) ≤ 0); [|lia]. unfold awake. transitivity (map_sum (λ _ _, 0) (cw_wake s)).
      * apply map_sum_le. intros i u Hu. unfold awake_one. destruct (th_awake u) eqn:E; [|done]. exfalso. apply Hnone. by exists i, u.
      * clear. induction (cw_wake s) as [|i u m Hi IH] using map_ind; [by rewrite map_sum_empty|]. rewrite map_sum_insert by done. lia.
  - intros Hcl id t now choice Ht. split; [|by eapply resume_closed]. destruct (pk_closed _ _ _ _ H Hcl) as (_ & _ & Hno). by eapply Hno.
Qed.

(** Two threads wait for a port of one slot; a packet arrives. *)
Definition packet (n : Z) : IoCompletionPacket := {| ip_bytes_transferred := n; ip_completion_key := 0; ip_overlapped := 0; ip_internal := 0 |}.
Definition demo_events : list port_event :=
  [EvWait 1 (HostKey 1) None 0 0 1 None; EvWait 2 (HostKey 2) (Some 50) 0 0 1 (Some 1); EvPost (packet 7) (Some 1)].
(** What the host may do next, decided. *)
Definition picks_b s (choice : option Z) : bool :=
  match choice with
  | Some id => match cw_wake s !! id with Some t => negb (th_awake t) | None => false end
  | None => bool_decide (map_Forall (λ _ t, th_awake t = true) (cw_wake s))
  end.
Definition not_waiting_b s (key : CompletionPortThreadKey) : bool := bool_decide (map_Forall (λ _ t, th_key t ≠ key) (cw_wake s)).
Definition enabled_b (instant_max : Z) s (e : port_event) : bool :=
  match e with
  | EvPost _ choice | EvRelease _ choice => picks_b s choice
  | EvTry key _ choice => not_waiting_b s key && picks_b s choice
  | EvWait id key timeout entered _ _ choice =>
      bool_decide (cw_wake s !! id = None) && not_waiting_b s key && picks_b s choice &&
      match timeout with Some t => entered + t <=? instant_max | None => true end
  | EvResume id _ _ choice => bool_decide (is_Some (cw_wake s !! id)) && picks_b (cw_set_wake (delete id (cw_wake s)) s) choice
  | EvSetConcurrency n => 0 <=? n
  | EvClose => true
  end.
Lemma picks_b_sound s choice : picks_b s choice = true → picks s choice.
Proof.
  unfold picks_b, picks, asleep. destruct choice as [id|].
  - destruct (cw_wake s !! id) as [t|]; [|done]. intros Ht%negb_true_iff. by exists t.
  - intros Hall%bool_decide_eq_true id (t & Ht & Hf). apply Hall in Ht. congruence.
Qed.
Lemma not_waiting_b_sound s key : not_waiting_b s key = true → not_waiting s key.
Proof. intros Hall%bool_decide_eq_true id t Ht. by apply (Hall id). Qed.
Lemma enabled_b_sound instant_max s e : enabled_b instant_max s e = true → enabled instant_max s e.
Proof.
  destruct e; cbn [enabled_b enabled]; intros H; repeat (apply andb_true_iff in H as [H ?]); bool_prop;
    split_and?; try done; try (by apply picks_b_sound); try (by apply not_waiting_b_sound). destruct timeout; [by apply Z.leb_le|done].
Qed.

(** The events one after the other, as far as the host may do them. *)
Fixpoint play (es : list port_event) (h : History) s : option (History * W) :=
  match es with
  | [] => Some (h, s)
  | e :: es =>
      if enabled_b 1000 s e then match exec 1000 e s with Done r s' => play es (note e s r s' h) s' | Panic => None end else None
  end.
Lemma play_run default concurrent es : ∀ k h s h' s', run 1000 default concurrent k h s → play es h s = Some (h', s') →
  run 1000 default concurrent (k + Z.of_nat (length es)) h' s'.
Proof.
  induction es as [|e es IH]; intros k h s h' s' Hr; cbn [play length].
  - intros [= <- <-]. by rewrite Z.add_0_r.
  - destruct (enabled_b 1000 s e) eqn:He; [|done]. destruct (exec 1000 e s) as [r s1|] eqn:E; [|done]. intros Hp.
    replace (k + Z.of_nat (S (length es))) with (k + 1 + Z.of_nat (length es)) by lia. eapply IH; [|exact Hp].
    eapply run_event; [exact Hr|by apply enabled_b_sound|exact E].
Qed.

Definition demo_start : W := new_wait_state 4 1.
Definition demo_history : History := {| h_posted := []; h_delivered := []; h_dropped := []; h_limit := 1 |}.
Definition demo : History * W := default (demo_history, demo_start) (play demo_events demo_history demo_start).
Lemma demo_reached : run 1000 4 1 3 demo.1 demo.2.
Proof.
  apply (play_run 4 1 demo_events 0 demo_history demo_start); [exact (run_new 1000 4 1 ltac:(done))|].
  unfold demo. by vm_compute.
Qed.
(** A waiter that the closing woke, but whose timeout had run out too, is told of the
    timeout. *)
Lemma closed_but_late :
  match play [EvWait 2 (HostKey 2) (Some 50) 0 0 1 None; EvClose] demo_history demo_start with
  | Some (_, s) => match dequeue_resume 2 true 60 None s with Done r _ => r = Err WAIT_TIMEOUT | Panic => False end
  | None => False
  end.
Proof. by vm_compute. Qed.
Lemma iocp_packets_exact_witness : h_posted demo.1 = h_delivered demo.1 ++ h_dropped demo.1 ++ ci_queue (cw_inner demo.2).
Proof. destruct (iocp_packets_exact 1000 4 1 3 demo.1 demo.2 demo_reached) as [H _]; [by vm_compute|]. exact H. Defined.
Lemma iocp_wakeups_suffice_witness : ∃ id t, cw_wake demo.2 !! id = Some t ∧ th_awake t = true ∧
  ∀ timed_out now choice, ∃ p packets s', dequeue_resume id timed_out now choice demo.2 = Done (Ok (p :: packets)) s'.
Proof.
  destruct (iocp_wakeups_suffice 1000 4 1 3 demo.1 demo.2 demo_reached) as [H _]; [by vm_compute|].
  destruct H as [_ H]; [by vm_compute| |apply H; by vm_compute]. exists 2, {| th_key := HostKey 2; th_deadline := Some 50; th_max_packets := 1; th_awake := false |}. by vm_compute.
Defined.
End Cpt.
