(* ===== verification/WakeSignals.v ===== *)
(** * Wake signals of the guest scheduler ([runtime/scheduler.rs])

    The wake of the cooperative pump, the park signal of a waiting thread, and the bus
    that carries signals of objects and threads to the park signals that subscribed.
    Both signals are a number behind a mutex with a condition variable: a waiter that
    has read the number waits for another one.  A section of a mutex is one operation;
    the [notify_all] that follows a section is an operation of its own. *)

From S2P Require Import Prelude.

(** [wrapping_add] of 64 bits *)
Definition wrapping_succ (x : Z) : Z := (x + 1) mod 2 ^ 64.

(** ** The wake of the pump *)

Record PumpWakeState := { pu_epoch : Z }.
Inductive PumpWakeOutcome := PumpNotified (epoch : Z) | PumpTimedOut (epoch : Z).
Definition new_pump_wake : PumpWakeState := {| pu_epoch := 0 |}.
Definition pump_notify (s : PumpWakeState) : PumpWakeState := {| pu_epoch := wrapping_succ (pu_epoch s) |}.
(** One turn of the loop of [wait_until]; [None] is a wait on the condition variable. *)
Definition pump_turn (observed : Z) (deadline : option Z) (now : Z) (s : PumpWakeState) : option PumpWakeOutcome :=
  if negb (pu_epoch s =? observed) then Some (PumpNotified (pu_epoch s))
  else match deadline with
       | None => None
       | Some d => if d <=? now then Some (PumpTimedOut (pu_epoch s)) else None
       end.

(** ** Park signals *)

Inductive WaitWakeReason :=
| WrObjectSignaled | WrObjectClosed | WrDeadline | WrApc | WrThreadExit | WrCompletionPort | WrPortClosed | WrPortTimedOut | WrShutdown.
#[export] Instance WaitWakeReason_eq_dec : EqDecision WaitWakeReason.
Proof. solve_decision. Defined.

Record ParkSignalState := { sg_generation : Z; sg_reason : option WaitWakeReason }.
Definition new_park_signal : ParkSignalState := {| sg_generation := 0; sg_reason := None |}.
(** [get_or_insert]: the first reason stays. *)
Definition park_notify (reason : WaitWakeReason) (s : ParkSignalState) : ParkSignalState :=
  {| sg_generation := wrapping_succ (sg_generation s); sg_reason := Some (default reason (sg_reason s)) |}.
(** A deadline that an [Instant] cannot hold is none. *)
Definition park_deadline (instant_max now : Z) (timeout : option Z) : option Z :=
  t ← timeout; if now + t <=? instant_max then Some (now + t) else None.
Definition park_turn (observed : Z) (deadline : option Z) (now : Z) (s : ParkSignalState) : option (Z * option WaitWakeReason) :=
  if negb (sg_generation s =? observed) then Some (sg_generation s, sg_reason s)
  else match deadline with
       | None => None
       | Some d => if d <=? now then Some (sg_generation s, None) else None
       end.

(** ** The wake bus *)

(** The signals that exist; one is live while somebody holds it. *)
Record WakeBus := {
  wb_objects : gmap Z (list Z); wb_threads : gmap Z (list Z); wb_signals : gmap Z ParkSignalState; wb_live : gset Z }.
Definition wb_set_objects (m : gmap Z (list Z)) (b : WakeBus) : WakeBus :=
  {| wb_objects := m; wb_threads := wb_threads b; wb_signals := wb_signals b; wb_live := wb_live b |}.
Definition wb_set_threads (m : gmap Z (list Z)) (b : WakeBus) : WakeBus :=
  {| wb_objects := wb_objects b; wb_threads := m; wb_signals := wb_signals b; wb_live := wb_live b |}.
Definition wb_set_signals (m : gmap Z ParkSignalState) (b : WakeBus) : WakeBus :=
  {| wb_objects := wb_objects b; wb_threads := wb_threads b; wb_signals := m; wb_live := wb_live b |}.
Definition new_wake_bus : WakeBus := {| wb_objects := ∅; wb_threads := ∅; wb_signals := ∅; wb_live := ∅ |}.

(** [entry(id).or_default().push(signal)] *)
Definition push_signal (id signal : Z) (m : gmap Z (list Z)) : gmap Z (list Z) := <[id := default [] (m !! id) ++ [signal]]> m.
Definition subscribe_object (id signal : Z) (b : WakeBus) : WakeBus := wb_set_objects (push_signal id signal (wb_objects b)) b.
Definition subscribe_thread (thread_id signal : Z) (b : WakeBus) : WakeBus := wb_set_threads (push_signal thread_id signal (wb_threads b)) b.

(** The live signals of a list: what is notified, and what stays subscribed. *)
Definition collect (live : gset Z) (signals : list Z) : list Z := filter (λ s, s ∈ live) signals.
Definition collect_at (live : gset Z) (id : Z) (m : gmap Z (list Z)) : list Z * gmap Z (list Z) :=
  match m !! id with
  | Some signals => (collect live signals, <[id := collect live signals]> m)
  | None => ([], m)
  end.
Definition notify_signal (reason : WaitWakeReason) (signal : Z) (b : WakeBus) : WakeBus :=
  wb_set_signals (alter (park_notify reason) signal (wb_signals b)) b.
Definition notify_signals (reason : WaitWakeReason) (signals : list Z) (b : WakeBus) : WakeBus :=
  foldl (λ b s, notify_signal reason s b) b signals.

Definition notify_object (id : Z) (closed : bool) (b : WakeBus) : WakeBus :=
  let '(signals, objects) := collect_at (wb_live b) id (wb_objects b) in
  notify_signals (if closed then WrObjectClosed else WrObjectSignaled) signals (wb_set_objects objects b).
Definition notify_thread (thread_id : Z) (reason : WaitWakeReason) (b : WakeBus) : WakeBus :=
  let '(signals, threads) := collect_at (wb_live b) thread_id (wb_threads b) in
  notify_signals reason signals (wb_set_threads threads b).

(** The hooks: a bus that was never used is not there, and then nobody has
    subscribed; the pump is always told. *)
Definition hook (f : WakeBus → WakeBus) (w : option WakeBus * PumpWakeState) : option WakeBus * PumpWakeState :=
  (f <$> w.1, pump_notify w.2).
Definition notify_object_waiters (id : Z) (closed : bool) := hook (notify_object id closed).
Definition notify_thread_apc (thread_id : Z) := hook (notify_thread thread_id WrApc).
Definition notify_thread_exit (thread_id : Z) := hook (notify_thread thread_id WrThreadExit).
