(* ===== verification/WakeSignalsTheorems.v ===== *)
(** * Wake signals: no wake is lost, and the bus reaches its subscribers *)

From S2P Require Import Prelude WakeSignals.

Module Wk.

(** ** Signals *)

(** What a waiter relies on: a number that each notification moves on, and a turn that
    answers when the number is not the one that was read, or when it is late. *)
Class WakeSource (T R A : Type) := {
  src_number : T → Z;
  src_notify : R → T → T;
  src_turn : Z → option Z → Z → T → option A }.
Class WakeSourceLaws (T R A : Type) `{!WakeSource T R A} : Prop := {
  notify_number : ∀ r s, src_number (src_notify r s) = wrapping_succ (src_number s);
  turn_answers : ∀ observed deadline now s,
    src_turn observed deadline now s = None ↔ src_number s = observed ∧ match deadline with Some d => now < d | None => True end }.

#[export] Instance pump_source : WakeSource PumpWakeState unit PumpWakeOutcome :=
  {| src_number := pu_epoch; src_notify _ := pump_notify; src_turn := pump_turn |}.
#[export] Instance park_source : WakeSource ParkSignalState WaitWakeReason (Z * option WaitWakeReason) :=
  {| src_number := sg_generation; src_notify := park_notify; src_turn := park_turn |}.

Ltac turn_cases := cbn; repeat case_match; bool_prop; (split; [by intros|intros [? ?]; done || lia]) || (split; [done|]; intros [? ?]; done || lia).
#[export] Instance pump_laws : WakeSourceLaws PumpWakeState unit PumpWakeOutcome.
Proof. split; [done|]. intros observed deadline now s. unfold src_turn, pump_source, pump_turn. turn_cases. Qed.
#[export] Instance park_laws : WakeSourceLaws ParkSignalState WaitWakeReason (Z * option WaitWakeReason).
Proof. split; [done|]. intros observed deadline now s. unfold src_turn, park_source, park_turn. turn_cases. Qed.

(** ** Interleavings *)

Section source.
Context {T R A : Type} `{L : WakeSourceLaws T R A}.

Record Sleeper := { sl_observed : Z; sl_deadline : option Z; sl_awake : bool }.
Definition rouse (t : Sleeper) : Sleeper := {| sl_observed := sl_observed t; sl_deadline := sl_deadline t; sl_awake := true |}.
(** The signal, the threads in its loop, and the [notify_all]s still to run. *)
Record World := { wd_source : T; wd_sleepers : gmap Z Sleeper; wd_owed : Z }.

Definition after_turn (id : Z) (observed : Z) (deadline : option Z) (now : Z) (w : World) : option A * World :=
  match src_turn observed deadline now (wd_source w) with
  | Some a => (Some a, {| wd_source := wd_source w; wd_sleepers := delete id (wd_sleepers w); wd_owed := wd_owed w |})
  | None => (None, {| wd_source := wd_source w;
      wd_sleepers := <[id := {| sl_observed := observed; sl_deadline := deadline; sl_awake := false |}]> (wd_sleepers w); wd_owed := wd_owed w |})
  end.

(** [notify] advances the number under the mutex; its [notify_all] runs later.  A thread
    enters the loop with the number it read, and comes back from the condition variable
    when it was woken, or by itself. *)
Inductive step : World → World → Prop :=
| st_notify r s m owed : step {| wd_source := s; wd_sleepers := m; wd_owed := owed |} {| wd_source := src_notify r s; wd_sleepers := m; wd_owed := owed + 1 |}
| st_notify_all s m owed : 0 < owed → step {| wd_source := s; wd_sleepers := m; wd_owed := owed |} {| wd_source := s; wd_sleepers := rouse <$> m; wd_owed := owed - 1 |}
| st_enter id observed deadline now w : wd_sleepers w !! id = None → step w (after_turn id observed deadline now w).2
| st_return id t now w : wd_sleepers w !! id = Some t → step w (after_turn id (sl_observed t) (sl_deadline t) now w).2.
Definition reached (s0 : T) (w : World) : Prop := rtc step {| wd_source := s0; wd_sleepers := ∅; wd_owed := 0 |} w.

Definition no_loss (w : World) : Prop :=
  0 ≤ wd_owed w ∧ ∀ id t, wd_sleepers w !! id = Some t → sl_awake t = false → src_number (wd_source w) ≠ sl_observed t → 0 < wd_owed w.
Lemma no_loss_turn id observed deadline now w : no_loss w → no_loss (after_turn id observed deadline now w).2.
Proof using L.
  intros [H0 H]. unfold after_turn. destruct (src_turn observed deadline now (wd_source w)) as [a|] eqn:E; split; cbn [snd wd_owed wd_sleepers wd_source]; try done.
  - intros i t [_ Ht]%lookup_delete_Some. by eapply H.
  - apply turn_answers in E as [En _]. intros i t. rewrite lookup_insert_Some. intros [[<- <-]|[_ Ht]] Ha Hne; [by cbn in Hne|by eapply H].
Qed.
Lemma reached_no_loss s0 w : reached s0 w → no_loss w.
Proof using L.
  intros Hr. unfold reached in Hr. remember {| wd_source := s0; wd_sleepers := ∅; wd_owed := 0 |} as w0 eqn:E0.
  assert (no_loss w0) as H0 by (subst; split; [done|]; intros id t Ht; cbn in Ht; done). clear E0.
  induction Hr as [|w1 w2 w3 Hs Hr IH]; [done|]. apply IH. clear IH Hr. destruct Hs as [r s m owed|s m owed Hpos|id observed deadline now w Hid|id t now w Hid].
  - destruct H0 as [Hn _]. cbn in Hn. split; cbn; [lia|]. intros. lia.
  - split; cbn; [lia|]. intros id t. rewrite lookup_fmap. destruct (m !! id); [|done]. by intros [= <-].
  - by apply no_loss_turn.
  - by apply no_loss_turn.
Qed.

(** The number after some notifications *)
Lemma notified_number (rs : list R) (s : T) : 0 ≤ src_number s < 2 ^ 64 →
  src_number (foldl (λ s r, src_notify r s) s rs) = (src_number s + Z.of_nat (length rs)) mod 2 ^ 64.
Proof using L.
  revert s. induction rs as [|r rs IH]; intros s Hs; cbn [foldl length].
  - rewrite Z.add_0_r. symmetry. by apply Z.mod_small.
  - rewrite IH; rewrite notify_number; unfold wrapping_succ; [|apply Z.mod_pos_bound; lia]. rewrite Zplus_mod_idemp_l. f_equal. lia.
Qed.
Lemma notified_moves (rs : list R) (s : T) : 0 ≤ src_number s < 2 ^ 64 → 0 < Z.of_nat (length rs) < 2 ^ 64 →
  src_number (foldl (λ s r, src_notify r s) s rs) ≠ src_number s.
Proof using L.
  intros Hs Hn. rewrite notified_number by done. intros E. assert (Z.of_nat (length rs) mod 2 ^ 64 = 0) as Hz.
  { replace (Z.of_nat (length rs)) with (src_number s + Z.of_nat (length rs) - src_number s) by lia. rewrite Zminus_mod, E. rewrite (Z.mod_small (src_number s)) by done.
    by rewrite Z.sub_diag. }
  rewrite Z.mod_small in Hz by lia. lia.
Qed.
End source.
Arguments World : clear implicits.

Lemma pump_number_range s0 w : reached (R := unit) (A := PumpWakeOutcome) s0 w → 0 ≤ pu_epoch s0 < 2 ^ 64 → 0 ≤ pu_epoch (wd_source w) < 2 ^ 64.
Proof.
  unfold reached. remember {| wd_source := s0; wd_sleepers := ∅; wd_owed := 0 |} as w0 eqn:E0. intros Hr H0.
  assert (0 ≤ pu_epoch (wd_source w0) < 2 ^ 64) as Hw by (by subst). clear E0 H0.
  induction Hr as [|w1 w2 w3 Hs Hr IH]; [done|]. apply IH. destruct Hs as [r s m owed|s m owed Hpos|id observed deadline now w Hid|id t now w Hid]; [|done|..].
  - apply Z.mod_pos_bound. lia.
  - unfold after_turn. by destruct (src_turn _ _ _ _).
  - unfold after_turn. by destruct (src_turn _ _ _ _).
Qed.

(** C21 - Neither the pump nor a parked thread sleeps through a wake.  In every interleaving
    of notifications, waits and wakeups, once the [notify_all]s have run, a thread that
    still sleeps has seen the last number.  And a wake that comes after a thread has
    read the number and before it waits is not lost: whatever the deadline, the wait
    answers at once that it was notified, with the first reason given, unless 2^64
    notifications came in between. *)
Theorem wakes_never_lost :
  (∀ w id t, reached (R := unit) (A := PumpWakeOutcome) new_pump_wake w → wd_owed w = 0 → wd_sleepers w !! id = Some t → sl_awake t = false →
     pu_epoch (wd_source w) = sl_observed t) ∧
  (∀ w id t, reached (R := WaitWakeReason) (A := Z * option WaitWakeReason) new_park_signal w → wd_owed w = 0 → wd_sleepers w !! id = Some t → sl_awake t = false →
     sg_generation (wd_source w) = sl_observed t) ∧
  (∀ s ns deadline now, 0 ≤ pu_epoch s < 2 ^ 64 → 0 < Z.of_nat (length ns) < 2 ^ 64 →
     let s' := foldl (λ s (_ : unit), pump_notify s) s ns in pump_turn (pu_epoch s) deadline now s' = Some (PumpNotified (pu_epoch s'))) ∧
  (∀ s r rs deadline now, 0 ≤ sg_generation s < 2 ^ 64 → Z.of_nat (length (r :: rs)) < 2 ^ 64 →
     let s' := foldl (λ s r, park_notify r s) s (r :: rs) in
     park_turn (sg_generation s) deadline now s' = Some (sg_generation s', Some (default r (sg_reason s)))).
Proof.
  split_and!.
  - intros w id t Hr Ho Ht Ha. destruct (reached_no_loss _ _ Hr) as [_ H]. destruct (decide (pu_epoch (wd_source w) = sl_observed t)) as [|Hne]; [done|].
    specialize (H id t Ht Ha Hne). lia.
  - intros w id t Hr Ho Ht Ha. destruct (reached_no_loss _ _ Hr) as [_ H]. destruct (decide (sg_generation (wd_source w) = sl_observed t)) as [|Hne]; [done|].
    specialize (H id t Ht Ha Hne). lia.
  - intros s ns deadline now Hs Hn s'. pose proof (notified_moves (A := PumpWakeOutcome) ns s Hs Hn) as Hne. unfold pump_turn.
    rewrite (proj2 (Z.eqb_neq _ _)); [done|exact Hne].
  - intros s r rs deadline now Hs Hn s'. pose proof (notified_moves (A := Z * option WaitWakeReason) (r :: rs) s Hs ltac:(cbn [length] in *; lia)) as Hne. unfold park_turn.
    rewrite (proj2 (Z.eqb_neq _ _)); [cbn [negb]|exact Hne]. f_equal. f_equal. unfold s'. clear. cbn [foldl].
    assert (∀ x st, sg_reason st = Some x → sg_reason (foldl (λ s r, park_notify r s) st rs) = Some x) as H.
    { induction rs as [|r' rs IH]; intros x st Hx; [done|]. cbn [foldl]. apply IH. cbn. by rewrite Hx. }
    by apply H.
Qed.

(** ** The bus *)

Definition occurrences (signal : Z) (l : list Z) : nat := length (filter (λ s, s = signal) l).
Lemma notify_signals_lookup reason l b signal : wb_signals (notify_signals reason l b) !! signal =
  Nat.iter (occurrences signal l) (park_notify reason) <$> wb_signals b !! signal.
Proof.
  unfold notify_signals, occurrences. revert b. induction l as [|x l IH]; intros b; cbn [foldl].
  - rewrite filter_nil. cbn. by destruct (wb_signals b !! signal).
  - rewrite IH, filter_cons. cbn [notify_signal wb_signals wb_set_signals]. destruct (decide (x = signal)) as [->|Hne].
    + rewrite lookup_alter_eq. destruct (wb_signals b !! signal); [|done]. cbn [fmap option_fmap option_map length]. f_equal. by rewrite Nat.iter_succ_r.
    + by rewrite lookup_alter_ne.
Qed.
Lemma notify_signals_rest reason l b : wb_objects (notify_signals reason l b) = wb_objects b ∧ wb_threads (notify_signals reason l b) = wb_threads b ∧
  wb_live (notify_signals reason l b) = wb_live b.
Proof. unfold notify_signals. revert b. induction l as [|x l IH]; intros b; [done|]. cbn [foldl]. destruct (IH (notify_signal reason x b)) as (-> & -> & ->). done. Qed.
Lemma collect_at_spec live id m : (collect_at live id m).1 = collect live (default [] (m !! id)) ∧
  ∀ i, (collect_at live id m).2 !! i = (if decide (i = id) then collect live else Datatypes.id) <$> m !! i.
Proof.
  unfold collect_at. destruct (m !! id) as [l|] eqn:E; (split; [done|]); intros i; cbn [snd]; case_decide as Hi; subst.
  - by rewrite lookup_insert_eq, E.
  - rewrite lookup_insert_ne by done. by destruct (m !! i).
  - by rewrite E.
  - by destruct (m !! i).
Qed.

Lemma notify_object_lookup id closed b signal : wb_signals (notify_object id closed b) !! signal =
  Nat.iter (occurrences signal (collect (wb_live b) (default [] (wb_objects b !! id)))) (park_notify (if closed then WrObjectClosed else WrObjectSignaled)) <$> wb_signals b !! signal.
Proof.
  unfold notify_object. destruct (collect_at_spec (wb_live b) id (wb_objects b)) as [H1 _]. destruct (collect_at _ _ _) as [l m]. cbn [fst] in H1. subst l.
  by rewrite notify_signals_lookup.
Qed.
Lemma iter_foldl n reason st : Nat.iter n (park_notify reason) st = foldl (λ s r, park_notify r s) st (replicate n reason).
Proof. revert st. induction n as [|n IH]; intros st; [done|]. rewrite Nat.iter_succ_r. cbn [replicate foldl]. apply IH. Qed.

(** A notification of an object notifies each live signal that subscribed to it, once
    for each subscription and with the reason of the event, and no other signal; the
    subscriptions of signals that are gone are forgotten, those of other objects and of
    threads stay.  So with the notification of a thread. *)
Theorem bus_reaches_subscribers (b : WakeBus) (id : Z) :
  (∀ closed, let b' := notify_object id closed b in
     let reason := if closed : bool then WrObjectClosed else WrObjectSignaled in
     (∀ signal, wb_signals b' !! signal =
        Nat.iter (occurrences signal (collect (wb_live b) (default [] (wb_objects b !! id)))) (park_notify reason) <$> wb_signals b !! signal) ∧
     (∀ i, wb_objects b' !! i = (if decide (i = id) then collect (wb_live b) else Datatypes.id) <$> wb_objects b !! i) ∧
     wb_threads b' = wb_threads b ∧ wb_live b' = wb_live b) ∧
  (∀ reason, let b' := notify_thread id reason b in
     (∀ signal, wb_signals b' !! signal =
        Nat.iter (occurrences signal (collect (wb_live b) (default [] (wb_threads b !! id)))) (park_notify reason) <$> wb_signals b !! signal) ∧
     (∀ i, wb_threads b' !! i = (if decide (i = id) then collect (wb_live b) else Datatypes.id) <$> wb_threads b !! i) ∧
     wb_objects b' = wb_objects b ∧ wb_live b' = wb_live b) ∧
  (∀ closed signal st, wb_signals b !! signal = Some st → 0 ≤ sg_generation st < 2 ^ 64 → signal ∈ wb_live b →
     signal ∈ default [] (wb_objects b !! id) → Z.of_nat (length (default [] (wb_objects b !! id))) < 2 ^ 64 →
     ∃ st', wb_signals (notify_object id closed b) !! signal = Some st' ∧ sg_generation st' ≠ sg_generation st).
Proof.
  split_and!.
  - intros closed. unfold notify_object. destruct (collect_at_spec (wb_live b) id (wb_objects b)) as [H1 H2]. destruct (collect_at _ _ _) as [l m]. cbn [fst snd] in *. subst l.
    destruct (notify_signals_rest (if closed then WrObjectClosed else WrObjectSignaled) (collect (wb_live b) (default [] (wb_objects b !! id))) (wb_set_objects m b)) as (-> & -> & ->).
    split_and!; [|exact H2|done|done]. intros signal. by rewrite notify_signals_lookup.
  - intros reason. unfold notify_thread. destruct (collect_at_spec (wb_live b) id (wb_threads b)) as [H1 H2]. destruct (collect_at _ _ _) as [l m]. cbn [fst snd] in *. subst l.
    destruct (notify_signals_rest reason (collect (wb_live b) (default [] (wb_threads b !! id))) (wb_set_threads m b)) as (-> & -> & ->).
    split_and!; [|exact H2|done|done]. intros signal. by rewrite notify_signals_lookup.
  - intros closed signal st Hst Hg Hlive Hin Hlen. rewrite notify_object_lookup, Hst. cbn [fmap option_fmap option_map]. eexists. split; [done|].
    set (l := default [] (wb_objects b !! id)) in *. set (n := occurrences signal (collect (wb_live b) l)).
    assert (0 < Z.of_nat n < 2 ^ 64) as Hn.
    { unfold n, occurrences, collect. split.
      - assert (signal ∈ filter (λ s, s = signal) (filter (λ s, s ∈ wb_live b) l)) as H by (by rewrite !list_elem_of_filter).
        destruct (filter (λ s, s = signal) _); [by apply not_elem_of_nil in H|]. cbn [length]. lia.
      - pose proof (length_filter (λ s, s = signal) (filter (λ s, s ∈ wb_live b) l)). pose proof (length_filter (λ s, s ∈ wb_live b) l). lia. }
    clearbody n. rewrite (iter_foldl _ (if closed then WrObjectClosed else WrObjectSignaled)).
    apply (@notified_moves _ _ _ park_source park_laws (replicate n (if closed then WrObjectClosed else WrObjectSignaled)) st Hg). by rewrite length_replicate.
Qed.
End Wk.
